(* ===== verification/_CoqProject ===== *)
-Q . S2P
Prelude.v
RustStr.v
Collections.v
Net.v
HostPattern.v
Bundled.v
Policy.v
ConfigJson.v
PolicyFacts.v
PolicyTrace.v
PolicyProps.v
Glob.v
Trie.v
Wildcard.v
Exempt.v
DomainRules.v
RulesFacts.v
DomainSet.v
DomainSetFacts.v
Detect.v
FilterProps.v
Common.v
Wire.v
LocalName.v
Answer.v
AnswerFacts.v
DnsCache.v
Packet.v
Handler.v
HandlerFacts.v
DnsExamples.v
DnsProps.v
Payload.v
Doh.v
DohTrace.v
DohProps.v
Resolver.v
Platform.v
Lookup.v
LookupTrace.v
Io.v
Flight.v
FlightFacts.v
Hello.v
Cut.v
Http.v
Engine.v
UpstreamError.v
Filtering.v
Request.v
RequestProps.v
Idle.v
Ca.v
Profile.v
Proxy.v
Connect.v
ConnectProps.v
Outbound.v
Pool.v
PoolProps.v
Responses.v
Checkout.v
CheckoutProps.v
Serve.v
Tunnel.v
UpstreamConn.v
Session.v
LocalJobs.v
FfiEngine.v
RootCa.v
TlsConfig.v
PinsStore.v
Assembly.v
FfiLists.v
Boundary.v
Runtime.v
Controls.v
Logging.v
Devproxy.v
DevproxyProps.v
