(* ===== verification/Prelude.v ===== *)
(** * Tollgate core: a verification development

    Tollgate is a content blocker for iOS: a packet tunnel whose Rust core answers DNS, filters
    intercepted HTTPS requests and decides which connections may be intercepted at all. This
    library models the core crates under [src/core/crates] and the development proxy under
    [src/core/tools/devproxy] as executable definitions and proves what makes them correct. It depends on stdpp and the standard library and uses no axioms.

    ** The program and its parts

    - [policy]: which connections the proxy may intercept. [Policy::classify] looks at the
      switch, the user's list, a bundled list and learned certificate pins; the pins are learned
      from TLS alerts, upstream certificate failures and silent hang-ups, with guards against
      networks that make every host fail.
    - [filter]: block lists. Adblock and hosts lists are parsed into domain rules
      ([domain_rules.rs]), written as a file of sorted hashes and patterns and looked up per
      query ([domain_set.rs]); wildcard patterns go through an index of two tries
      ([wildcard.rs]); some hosts are exempt ([exempt.rs]).
    - [dns]: the DNS path. [DnsHandler::handle_packet] answers blocked names and cache hits at
      once, hands local names to the network's resolver and forwards the rest; [complete] and
      [complete_local] turn results into replies and fill the caches. [DohResolver] sends
      queries to the upstreams, [HostResolver] looks names up for the proxy.
    - [mitm]: the intercepting proxy. A [CONNECT] is answered and its first bytes inspected
      ([connect.rs], [hello.rs], [rewind.rs]): the connection is tunnelled ([tunnel.rs]), served
      as blocked ([sink.rs]) or intercepted with a leaf of its own authority ([intercept.rs],
      [ca.rs]); each kind has a limited number of slots, and idle connections are reclaimed
      ([idle.rs], [proxy.rs]). Requests on intercepted connections are filtered and forwarded
      through a pool of upstream connections ([request.rs], [filtering.rs], [upstream.rs]).
    - [common]: counters and the blocked log.
    - [tollgate-ffi]: what the app calls. [Engine] is put together from the files of the data
      directory, answers the tunnel's packets ([handle_packets]), forwards queries on a runtime
      thread, hands local ones to the platform, reloads the lists and saves the learned pins
      ([engine.rs], [controls.rs]); the root certificate is made and stored ([ca.rs]) and the
      app's lists are compiled ([lists.rs]).
    - [tools/devproxy]: the same responder and proxy on a developer's machine, from a command line
      ([args.rs]), with lists that are downloaded ([fetch.rs]) and DNS over plain UDP ([udp.rs]).

    The handler calls the filter ([DomainSet::is_blocked]) and the policy ([HostPattern]) for
    blocking, the wire and answer modules for bytes, the cache for stored answers, and counts in
    [Stats]. The proxy asks the policy before it intercepts, the filter before it forwards, and
    teaches the policy what handshakes and upstream failures show. The engine owns both and
    shares one blocklist, one set of counters and one log between them.

    ** Conventions

    A Rust string or byte slice is the list of its bytes ([bytes], each a [Z] below 256);
    unsigned integers are [Z] with the width's wrap-around or saturation written out where the
    source has it; [usize] offsets and lengths are [nat]. A [HashMap] is a [gmap], a [HashSet] a
    [gset]; where the order of iteration matters it is the class [HashOrder]. [Result] is
    [result], [Option] is [option]. A method [T::m] is [T_m] where the bare name is taken.
    In the DNS files [None] in place of a reply or an outcome stands for a panic: an index, a slice
    or a [copy_from_slice] of [wire.rs], [answer.rs] and [handler.rs] outside its bytes gives [None]
    ([range], [copy_range], a lookup), which the callers pass on; [option (option A)] and
    [option (result A E)] are an [Option] and a [Result] of code that can panic. Log lines are left out.

    Code outside the repository is a class with the laws its documentation gives, and an
    instance to run the model with: [SerdeJson] (serde_json, between text and value), [HashOrder], [Lru]
    (the lru crate), [Hickory] (hickory_proto's decoder), [Etherparse] (the etherparse crate),
    [Acceptor] (rustls' ClientHello reader), [Stream] (an inner stream), [HttpCrate] (the http
    crate's header maps and URIs), [AdblockCrate] (the adblock crate), [Issuing] and
    [RootCrate] (rcgen, x509-parser), [ServerNames] and [Rustls] (rustls' server names and configurations), [EtherparseReads] and [FetchCrate] (what the development
    proxy needs besides); [IdOrder] is the order of a map with integer keys.
    [Serde] is what a type's derived implementations promise, and [PinsJson] what the policy needs of
    the pins file, which they give it ([derived_pins]). SHA-256 is a parameter of the profile. A file system
    is a map from paths to contents; each call to it may fail as its argument says, and an
    operation that writes gives every state it goes through. What sockets, TLS, hyper and tokio's timers answer is
    an argument of each operation ([SlotWait], [Upstream], [ConnEnv], [SessionEnv]), or a step
    of a transition system that may take it at any time. The standard library's string and address functions are modelled ([RustStr], [Net]).

    ** Files

    - [Prelude], [RustStr], [Collections], [Net]: integers, results, strings, maps, sorting, binary
      search, IP addresses and their text.
    - [HostPattern] ([policy/src/pattern.rs]), [Bundled] ([bundled.rs]), [Policy] ([policy.rs],
      [config.rs]), [ConfigJson] (serde, and both as JSON files); [PolicyFacts] and [PolicyTrace] hold their lemmas, the second as histories
      of events ([op], [run], [reachable]); [PolicyProps] the theorems.
    - [Glob], [Trie], [Wildcard] ([filter/src/wildcard.rs]), [Exempt] ([exempt.rs]),
      [DomainRules] ([domain_rules.rs], [lib.rs]) with [RulesFacts], [DomainSet]
      ([domain_set.rs]) with [DomainSetFacts], [Detect] ([detect.rs], [request_type.rs]);
      [FilterProps] the theorems.
    - [Common] ([common/src/stats.rs], [events.rs]); [Wire] ([dns/src/wire.rs]), [LocalName]
      ([local.rs]), [Answer] ([answer.rs]) with [AnswerFacts], [DnsCache] ([cache.rs]), [Packet]
      ([packet.rs]), [Handler] ([handler.rs]) with [HandlerFacts]; [DnsExamples] runs whole
      packets; [DnsProps] holds the theorems.
    - [Doh] ([dns/src/doh.rs], [Reading] of [common/src/clock.rs]), [DohTrace] (queries and
      resets running at once) and [DohProps] (the theorems); [Resolver] (the whole resolver with the forwarder's and the proxy's queries),
      [Platform] (clocks, [common/src/net.rs], [tollgate-ffi/src/fds.rs]); [Lookup] ([dns/src/lookup.rs]: the
      cache and the registry) and [LookupTrace] (its callers at once, with their channels and turns).
    - [Io] (polls and I/O errors), [Flight] ([mitm/src/flight.rs]) with [FlightFacts],
      [Hello] ([hello.rs], [rewind.rs]), [Cut] ([cut.rs]), [Http] ([http.rs],
      [body.rs]), [Engine] ([filter/src/engine.rs], [compile.rs]), [UpstreamError] (the errors
      of [upstream.rs]), [Filtering] ([filtering.rs]).
    - [Request] ([request.rs], [forward.rs], [websocket.rs], the failures of [intercept.rs]) with
      [RequestProps]; [Idle] ([idle.rs]), [Ca] ([ca.rs]), [Profile] ([mobileconfig.rs]), [Proxy]
      ([proxy.rs]), [Connect] ([connect.rs], [sink.rs]) with [ConnectProps]; [Outbound] and
      [Pool] (the pool of [upstream.rs]) with [PoolProps]; [Checkout] (the checkouts that run at
      once, their permits, slots and dial locks) with [CheckoutProps]; [Serve] (the tasks of
      [proxy.rs] and their end, [shutdown.rs], [options.rs]); [Responses] (response
      bodies, [Pool::wrap]); [Tunnel] ([tunnel.rs]); [UpstreamConn] (client certificates, lost paths
      and the dial of a WebSocket); [Session]
      composes a client's session from its [CONNECT] to its end.
    - [TlsConfig] ([common/src/tls.rs], the server side of [intercept.rs], building a resolver
      from the configuration, the resolver of the engine);
      [LocalJobs] and [FfiEngine] (the packet path of [tollgate-ffi/src/engine.rs]) with [Boundary] (its
      calls as the app makes them, [error.rs]), [RootCa]
      ([tollgate-ffi/src/ca.rs], [error.rs], the root of [mitm/src/ca.rs]), [PinsStore] (the pins
      file of [engine.rs] and [controls.rs]), [Assembly] ([Engine::with_options] and
      [reload_lists]), [FfiLists] ([lists.rs]), [Runtime] (the runtime thread of [engine.rs]),
      [Controls] (counters, log, pins and resets for the app; [controls.rs], [common/src/stats.rs]),
      [Logging] ([logging.rs], with [mitm/src/throttle.rs]).
    - [Payload] ([tools/devproxy/src/udp.rs]), [Devproxy] ([args.rs], [fetch.rs], [server.rs],
      [main.rs]) with [DevproxyProps].

    ** What is shown

    - Interception: [classify] with its hash sets decides as a scan of every pattern in the
      stated order; patterns match exactly the names they say; every bundled pattern parses.
    - Configuration: what the app writes is what the tunnel reads, addresses included
      ([config_roundtrip], [ip_display_parses]); missing fields are the defaults and unknown ones are
      skipped ([config_fields_default]); the resolver and the proxy trust the webpki roots only
      ([webpki_roots_trusted]).
    - Pin learning, over every history of events: a silent pin needs refusals in three different
      seconds, while few other hosts were refused since the last network change, and three such
      refusals do make one; bursts and network changes take back exactly
      the recent pins and never a pin learned from alerts; memory stays bounded; forgetting and
      the pins file behave as documented.
    - Filtering: glob matching ends and means what a glob means; the trie and the pattern index
      answer as a scan; the file written from parsed rules, loaded again, blocks exactly the
      names its rules block (under the hypothesis that no two hashed names of the rules and the
      host collide); exempt hosts are never blocked; parsed rules are bounded; a loaded file is
      well formed whatever its bytes.
    - DNS: [skip_name] ends and finds exactly the names that are there; records lie inside the
      message; a checked answer is for the question asked; a rendered reply carries the
      requester's id and question, lowered TTLs and fits its UDP size, trimmed at whole records;
      blocked names are answered on the device and never forwarded, local names never reach the
      public upstreams; cached answers are the last stored and not expired; answers of an old
      network are not kept; every packet is counted once; and in the transition system of the
      handler with its jobs in flight ([sys_step], [sys_reach]) no step panics; an answer that was
      completed is served to the queries that follow, through any calls that leave it in the cache,
      until its time is over ([completed_answers_are_served]).
    - DNS over HTTPS, over every interleaving of the shared accesses of queries and resets
      ([query_step], [doh_step]): an attempt that read the count before a reset leaves no mark behind
      it; a connection of an old path is in the slot only if a reset came between the comparison of
      the counts and the lock ([old_connections_only_through_window]); a
      generation names one connection; upstreams are tried in the documented order. That window, and
      the one in which an attempt on an old connection reads the new count, are shown by runs
      ([reset_race_windows]). In the whole resolver each
      upstream behaves so on its own ([upstreams_do_not_mix]), the queries of the tunnel and of the
      proxy never find it busy ([resolver_never_busy]) and every resolution ends
      ([resolutions_end]); the configured upstreams are used as written
      ([configured_upstreams_used]) and sleep is told from idle time ([readings_tell_sleep]). Lookups, over
      every interleaving of callers and however many are given up ([caller_step]): at most one per name is
      in progress, nobody is given another name's addresses ([lookups_are_shared]), every call ends
      and nobody waits for a result that will not come ([lookups_end]); what is kept is what was
      found, for a clamped time.
    - The proxy's decisions: host names are blocked as the DNS responder blocks them (local names,
      which the responder never looks up in the list, and lookups of HTTPS and SVCB records, which it
      answers empty, apart); a connection is intercepted only where list and policy allow it; a blocked host is
      never dialed and is answered in time; a blocked request is never sent; the filter sees the
      site's own URL; every failure gets the documented answer, and a failure that teaches a pin
      closes the connection; a handshake the proxy serves agrees on a protocol it speaks
      ([served_handshakes_agree]).
    - The evidence for pins: a handshake counts as refused only when the client hung up after the
      certificate was really sent, which [Flight] follows exactly, however the bytes are split.
    - Resources: a session gives back every slot it took; a busy connection is never closed and
      a reclaimed slot is free within its grace; relays end when idle or when their network is
      gone; a cut socket wakes every sleeper; a pooled connection carries one request at a time,
      is forgotten after a reset, and a request is sent again only when that is safe. Over every
      interleaving of checkouts ([checkout_step]) the connections stay within their limits and no
      permit or slot is lost ([connections_within_limits]), an origin is dialed by one request at a
      time and is not forgotten meanwhile ([one_dial_per_origin]), and waiting for a permit ends
      ([permit_wait_ends]). When the server stops, every task of it ends once it is polled
      ([nothing_outlives_serve]); a request counts as in flight until its body has ended
      ([responses_stay_in_flight]). A response counts at its upstream host until its body is over
      ([responses_counted_once]); a connection is cut exactly when a look after a reset
      found its source address gone ([cut_exactly_when_path_gone]); a server that requires a client certificate is told apart
      ([client_certificate_told]).
    - Data: replayed streams deliver what was read; forwarded headers are exactly the end-to-end
      ones; served leaves are valid; the profile, its base64 and its escaping read back; compiled
      list files are written atomically and load again.

    - The engine: every query the tunnel is given is answered exactly once or dropped with the
      runtime that held it, no call panics, and queues and lookups are bounded
      ([every_query_answered_once], [packet_path_bounded], [boundary_never_panics]); interception needs the root and the
      lists, and both sides keep blocking the same hosts over every history of calls
      ([interception_needs_root_and_lists], [lists_stay_alike]; two reloads that overlap are the
      exception shown by [overlapping_reloads_disagree]); the pins file never goes back to older
      pins however saves overlap, and a save is left out only when the file is known to hold the
      pins, or before the first save when the pins are those of the start ([pins_file_never_older]); the stored root is never lost or
      replaced ([root_is_kept]); lists that leave sensitive hosts out never block one
      ([sensitive_hosts_stay_open]); starting reports what the runtime's thread found and the
      threads end with the engine ([start_reports_the_runtime], [runtime_threads_end]); the app sees
      the last blocks and real counters ([recent_events_are_the_last], [snapshot_between]), pins it
      forgets leave the disk ([forgotten_pins_leave_the_disk]), a reset reaches the policy, the pool,
      the relays and the resolver ([reset_reaches_everything]) and log records reach it once, whatever
      its logger does ([records_reach_the_app]).
    - The development proxy: DNS payloads are answered as the tunnel answers packets
      ([payloads_answered_like_packets]), the directory is put together as the engine does it
      ([prepared_like_the_engine]), command lines read back ([args_roundtrip]) and are the
      documented ones ([options_are_documented]), downloads end ([downloads_are_bounded]).

    ** Fuel

    [glob_loop] runs with (text + 1) * (glob + 2) + 1 steps ([glob_matches_exact] shows it ends
    before), [skip_name_loop] with 256, one more than a name may be long ([skip_name_exact]
    shows that more changes nothing), [write_nodes] with one step per byte of the entries and
    one ([Trie_new_written]), [binary_search_loop] with the length of the list, and the string
    functions with the length of the string. [messages_loop], [extensions_loop] and [written]
    run with the number of bytes they parse, [feed_loop] with the length of the buffer
    ([feed_loop_fuel]), [send_loop] with its two attempts ([send_retries_safely] shows that a
    third never starts), [log_record] with the two levels that a logger which logs can reach
    ([records_reach_the_app]), [global_permit_loop] with one round per 50 ms of the timeout
    ([permit_wait_ends]), [get_loop] with the six requests of the source, [create_temp] with a number of names that a file system with fewer
    leftovers cannot exhaust ([create_temp_finds]).

    ** Not modelled

    I/O: opening and mapping files, sockets, TLS, HTTP/1.1 and HTTP/2 themselves; what adblock, rustls,
    hyper, serde_json and rcgen compute; the two platform calls that only pass a number on (available
    memory) or a line of text (versions, log lines); how long three seconds are for a lookup (its time
    limit may strike wherever it waits); the instructions the development proxy prints. *)
From Stdlib Require Export Ascii String ZArith Lia Bool.
From stdpp Require Export prelude gmap list sorting.
From stdpp Require Export options.
#[global] Open Scope Z_scope.
#[global] Open Scope list_scope.

(** ** Tactics *)

(** Case analysis on the scrutinee of the first [match] or [if] found, then clean up. *)
Ltac crush_match := repeat (case_match; simplify_eq/=; try done).

(** ** Machine integers

    Unsigned integers of width [w] are [Z] values in [0, 2^w). *)

Definition U8_MAX : Z := 2 ^ 8 - 1.
Definition U16_MAX : Z := 2 ^ 16 - 1.
Definition U32_MAX : Z := 2 ^ 32 - 1.
Definition U64_MAX : Z := 2 ^ 64 - 1.
Definition is_u8 (x : Z) : Prop := 0 <= x < 2 ^ 8.
Definition is_u16 (x : Z) : Prop := 0 <= x < 2 ^ 16.
Definition is_u32 (x : Z) : Prop := 0 <= x < 2 ^ 32.
Definition is_u64 (x : Z) : Prop := 0 <= x < 2 ^ 64.

(** [u64::saturating_add], [saturating_sub] (any width) and the release-mode [+]. *)
Definition sat_add64 (a b : Z) : Z := Z.min (a + b) U64_MAX.
Definition sat_add32 (a b : Z) : Z := Z.min (a + b) U32_MAX.
Definition sat_sub (a b : Z) : Z := Z.max 0 (a - b).
Definition wrap64 (a : Z) : Z := a mod 2 ^ 64.

(** ** Results

    Rust's [Result]; an [Option] is [option]. *)
Inductive result (A E : Type) : Type :=
| Ok (a : A)
| Err (e : E).
Arguments Ok {A E} a.
Arguments Err {A E} e.

Definition map_err {A E F} (f : E → F) (r : result A E) : result A F :=
  match r with Ok a => Ok a | Err e => Err (f e) end.
Definition result_bind {A B E} (r : result A E) (k : A → result B E) : result B E :=
  match r with Ok a => k a | Err e => Err e end.
Definition is_ok {A E} (r : result A E) : bool :=
  match r with Ok _ => true | Err _ => false end.

(** [iter.map(f).collect::<Result<Vec<_>, _>>()]: stops at the first error. *)
Fixpoint collect_results {A B E} (f : A → result B E) (l : list A) : result (list B) E :=
  match l with
  | [] => Ok []
  | x :: l' => result_bind (f x) (λ y, result_bind (collect_results f l') (λ ys, Ok (y :: ys)))
  end.
(** The same for [Option]. *)
Fixpoint collect_options {A B} (f : A → option B) (l : list A) : option (list B) :=
  match l with
  | [] => Some []
  | x :: l' => y ← f x; ys ← collect_options f l'; Some (y :: ys)
  end.

Declare Scope result_scope.
Delimit Scope result_scope with result.
Notation "'let?' x := r 'in' k" := (result_bind r (λ x, k))
  (at level 10, x pattern, r at level 100, k at level 200) : result_scope.

Lemma collect_results_Ok {A B E} (f : A → result B E) l ys :
  collect_results f l = Ok ys ↔ Forall2 (λ x y, f x = Ok y) l ys.
Proof.
  revert ys. induction l as [|x l IH]; intros ys; simpl.
  - split; [intros [= <-]; constructor|by inversion 1].
  - split.
    + destruct (f x) eqn:Hf; simpl; [|done].
      destruct (collect_results f l) eqn:Hl; simpl; [|done].
      intros [= <-]. constructor; [done|]. by apply IH.
    + inversion 1 as [|? y ? ys' Hf Hl]; simplify_eq. rewrite Hf; simpl.
      apply IH in Hl. by rewrite Hl.
Qed.

Lemma collect_options_Some {A B} (f : A → option B) l ys :
  collect_options f l = Some ys ↔ Forall2 (λ x y, f x = Some y) l ys.
Proof.
  revert ys. induction l as [|x l IH]; intros ys; simpl.
  - split; [intros [= <-]; constructor|by inversion 1].
  - split.
    + destruct (f x) eqn:Hf; simpl; [|done].
      destruct (collect_options f l) eqn:Hl; simpl; [|done].
      intros [= <-]. constructor; [done|]. by apply IH.
    + inversion 1 as [|? y ? ys' Hf Hl]; simplify_eq. rewrite Hf; simpl.
      apply IH in Hl. by rewrite Hl.
Qed.

(** ** Boolean folds *)

Lemma forallb_Forall {A} (f : A → bool) l : forallb f l = true ↔ Forall (λ x, f x = true) l.
Proof.
  induction l as [|x l IH]; simpl; [by split; [constructor|]|].
  by rewrite andb_true_iff, Forall_cons, IH.
Qed.

Lemma existsb_Exists {A} (f : A → bool) l : existsb f l = true ↔ ∃ x, x ∈ l ∧ f x = true.
Proof. rewrite existsb_exists. by setoid_rewrite list_elem_of_In. Qed.

Lemma existsb_ext_in {A} (f g : A → bool) l :
  (∀ x, x ∈ l → f x = g x) → existsb f l = existsb g l.
Proof.
  intros Hfg. induction l as [|x l IH]; [done|]. simpl.
  rewrite Hfg by (by left). rewrite IH; [done|]. intros y Hy. apply Hfg. by right.
Qed.

Lemma Forall2_elem_l {A B} (P : A → B → Prop) l k x :
  Forall2 P l k → x ∈ l → ∃ y, y ∈ k ∧ P x y.
Proof.
  intros HP [i Hi]%list_elem_of_lookup.
  destruct (Forall2_lookup_l _ _ _ _ _ HP Hi) as (y & Hy & ?).
  exists y. split; [|done]. apply list_elem_of_lookup. eauto.
Qed.

Lemma Forall2_elem_r {A B} (P : A → B → Prop) l k y :
  Forall2 P l k → y ∈ k → ∃ x, x ∈ l ∧ P x y.
Proof.
  intros HP [i Hi]%list_elem_of_lookup.
  destruct (Forall2_lookup_r _ _ _ _ _ HP Hi) as (x & Hx & ?).
  exists x. split; [|done]. apply list_elem_of_lookup. eauto.
Qed.
