(* ===== verification/RustStr.v ===== *)
(** * Byte strings: the parts of Rust's [str] and [u8] that the core uses

    A [&str], [String] or [&[u8]] is the list of its bytes ([bytes]), each a [Z] in
    [0, 256). A [char] the source names is always ASCII, so one byte. Everything here
    models the standard library, except where a comment says otherwise: [strip_prefix],
    [strip_suffix], [split], [split_once], [match_indices], [trim], [lines],
    [split_whitespace], [to_ascii_lowercase], [eq_ignore_ascii_case] and the byte-wise
    order of strings that [sort] uses. *)
From S2P Require Import Prelude.

Abbreviation bytes := (list Z).

(** ** Literals *)

Definition byte_of_ascii (a : ascii) : Z := Z.of_N (N_of_ascii a).
Fixpoint lit (s : string) : bytes :=
  match s with
  | EmptyString => []
  | String a s' => byte_of_ascii a :: lit s'
  end.

Abbreviation DOT := 46 (only parsing).
Abbreviation STAR := 42 (only parsing).
Abbreviation BAR := 124 (only parsing).
Abbreviation HASH := 35 (only parsing).
Abbreviation COLON := 58 (only parsing).
Abbreviation NL := 10 (only parsing).

(** [len()] as an integer. *)
Definition len {A} (s : list A) : Z := Z.of_nat (length s).

(** ** ASCII classes and case *)

Definition is_ascii_uppercase (b : Z) : bool := (65 <=? b) && (b <=? 90).
Definition is_ascii_lowercase (b : Z) : bool := (97 <=? b) && (b <=? 122).
Definition is_ascii_digit (b : Z) : bool := (48 <=? b) && (b <=? 57).
Definition is_ascii_alphanumeric (b : Z) : bool :=
  is_ascii_uppercase b || is_ascii_lowercase b || is_ascii_digit b.
Definition lower1 (b : Z) : Z := if is_ascii_uppercase b then b + 32 else b.
Definition to_ascii_lowercase (s : bytes) : bytes := lower1 <$> s.
Definition eq_ignore_ascii_case (a b : bytes) : bool :=
  bool_decide (to_ascii_lowercase a = to_ascii_lowercase b).

(** ** Prefixes, suffixes and splitting *)

Fixpoint strip_prefix (p s : bytes) : option bytes :=
  match p, s with
  | [], _ => Some s
  | x :: p', y :: s' => if x =? y then strip_prefix p' s' else None
  | _ :: _, [] => None
  end.
Definition strip_suffix (p s : bytes) : option bytes :=
  reverse <$> strip_prefix (reverse p) (reverse s).
Definition starts_with (p s : bytes) : bool :=
  match strip_prefix p s with Some _ => true | None => false end.
Definition ends_with (p s : bytes) : bool :=
  match strip_suffix p s with Some _ => true | None => false end.

(** [s.strip_suffix(x).unwrap_or(s)]. *)
Definition strip_suffix_or (p s : bytes) : bytes := default s (strip_suffix p s).
(** [s.strip_suffix(x).or_else(|| s.strip_suffix(y))]. *)
Definition or_else {A} (o : option A) (k : option A) : option A :=
  match o with Some x => Some x | None => k end.

Definition contains (c : Z) (s : bytes) : bool := existsb (Z.eqb c) s.

(** [s.split(c)]: never empty. *)
Fixpoint split_on (c : Z) (s : bytes) : list bytes :=
  match s with
  | [] => [[]]
  | x :: s' =>
      if x =? c then [] :: split_on c s'
      else match split_on c s' with
           | w :: ws => (x :: w) :: ws
           | [] => [[x]]
           end
  end.

(** The pieces with the separator between them, as [join] of slices gives it. *)
Fixpoint join (c : Z) (l : list bytes) : bytes :=
  match l with
  | [] => []
  | [w] => w
  | w :: ws => w ++ c :: join c ws
  end.

(** [s.split_once(c)] and [s.rsplit_once(c)]. *)
Fixpoint split_once (c : Z) (s : bytes) : option (bytes * bytes) :=
  match s with
  | [] => None
  | x :: s' =>
      if x =? c then Some ([], s')
      else match split_once c s' with
           | Some (a, b) => Some (x :: a, b)
           | None => None
           end
  end.
Definition rsplit_once (c : Z) (s : bytes) : option (bytes * bytes) :=
  match split_once c (reverse s) with
  | Some (a, b) => Some (reverse b, reverse a)
  | None => None
  end.

(** [s.match_indices(c).map(|(i, _)| &s[i + 1..])]: the text after each [c]. *)
Fixpoint after_each (c : Z) (s : bytes) : list bytes :=
  match s with
  | [] => []
  | x :: s' => if x =? c then s' :: after_each c s' else after_each c s'
  end.

(** ** White space

    [char::is_whitespace] is the Unicode [White_Space] property; these are the UTF-8
    encodings of its characters. In valid UTF-8 a string starts (ends) with such a
    character exactly when its bytes start (end) with the encoding. *)
Definition white_space : list bytes :=
  [[9]; [10]; [11]; [12]; [13]; [32]; [194; 133]; [194; 160]; [225; 154; 128];
   [226; 128; 128]; [226; 128; 129]; [226; 128; 130]; [226; 128; 131]; [226; 128; 132];
   [226; 128; 133]; [226; 128; 134]; [226; 128; 135]; [226; 128; 136]; [226; 128; 137];
   [226; 128; 138]; [226; 128; 168]; [226; 128; 169]; [226; 128; 175]; [226; 129; 159];
   [227; 128; 128]].

(** The rest after the first of [ps] that starts [s]. *)
Fixpoint strip_any (ps : list bytes) (s : bytes) : option bytes :=
  match ps with
  | [] => None
  | p :: ps' => or_else (strip_prefix p s) (strip_any ps' s)
  end.
Fixpoint trim_fuel (ps : list bytes) (fuel : nat) (s : bytes) : bytes :=
  match fuel with
  | O => s
  | S fuel' => match strip_any ps s with Some s' => trim_fuel ps fuel' s' | None => s end
  end.
Definition trim_start (s : bytes) : bytes := trim_fuel white_space (length s) s.
Definition trim_end (s : bytes) : bytes :=
  reverse (trim_fuel (reverse <$> white_space) (length s) (reverse s)).
Definition trim (s : bytes) : bytes := trim_end (trim_start s).

(** [s.split_whitespace()]: the maximal runs without white space, none of them empty.
    [word] is the run read so far, last byte first. *)
Fixpoint split_ws_fuel (fuel : nat) (word : bytes) (s : bytes) : list bytes :=
  let flush rest := if bool_decide (word = []) then rest else reverse word :: rest in
  match fuel with
  | O => flush []
  | S fuel' =>
      match strip_any white_space s with
      | Some s' => flush (split_ws_fuel fuel' [] s')
      | None =>
          match s with
          | [] => flush []
          | x :: s' => split_ws_fuel fuel' (x :: word) s'
          end
      end
  end.
Definition split_whitespace (s : bytes) : list bytes := split_ws_fuel (S (length s)) [] s.

(** [s.lines()]: every line ended by a newline loses it and one carriage return before it;
    what follows the last newline is a line only when it is not empty. *)
Fixpoint lines_of (ps : list bytes) : list bytes :=
  match ps with
  | [] => []
  | [last] => if bool_decide (last = []) then [] else [last]
  | p :: ps' => strip_suffix_or [13] p :: lines_of ps'
  end.
Definition lines (s : bytes) : list bytes := lines_of (split_on NL s).

(** ** Decimals and the order of strings *)

(** [format!("{v}")] for an unsigned integer of at most 64 bits: at most 20 digits. *)
Fixpoint decimal_loop (fuel : nat) (v : Z) (acc : bytes) : bytes :=
  match fuel with
  | O => acc
  | S fuel' => if v <? 10 then (48 + v) :: acc else decimal_loop fuel' (v / 10) ((48 + v mod 10) :: acc)
  end.
Definition show_decimal (v : Z) : bytes := decimal_loop 20 v [].

(** Byte by byte, a prefix first. *)
Fixpoint bytes_leb (a b : bytes) : bool :=
  match a, b with
  | [], _ => true
  | _ :: _, [] => false
  | x :: a', y :: b' => (x <? y) || ((x =? y) && bytes_leb a' b')
  end.
Definition bytes_le (a b : bytes) : Prop := bytes_leb a b = true.
#[global] Instance bytes_le_dec : RelDecision bytes_le.
Proof. intros a b. unfold bytes_le. apply _. Defined.

(** * Lemmas *)

Create Rewrite HintDb rstr.

(** ** Case *)

Lemma lower1_idem b : lower1 (lower1 b) = lower1 b.
Proof. unfold lower1, is_ascii_uppercase. repeat case_match; lia. Qed.

Lemma lower1_fix b : is_ascii_uppercase b = false → lower1 b = b.
Proof. unfold lower1. by intros ->. Qed.

(** A byte that is not a lowercase letter has no other byte that lowercases to it. *)
Lemma lower1_eq_iff b c : is_ascii_uppercase c = false → is_ascii_lowercase c = false →
  lower1 b = c ↔ b = c.
Proof.
  unfold lower1, is_ascii_uppercase, is_ascii_lowercase. intros Hu Hl.
  split; [|intros ->]; case_match; lia.
Qed.

Lemma lower1_not_upper b : is_ascii_uppercase (lower1 b) = false.
Proof. unfold lower1, is_ascii_uppercase. case_match; lia. Qed.

Lemma to_lower_idem s : to_ascii_lowercase (to_ascii_lowercase s) = to_ascii_lowercase s.
Proof.
  unfold to_ascii_lowercase. rewrite <-list_fmap_compose. apply list_fmap_ext.
  intros i x _. apply lower1_idem.
Qed.

Lemma length_to_lower s : length (to_ascii_lowercase s) = length s.
Proof. apply length_fmap. Qed.

Lemma to_lower_app a b :
  to_ascii_lowercase (a ++ b) = to_ascii_lowercase a ++ to_ascii_lowercase b.
Proof. apply fmap_app. Qed.

Lemma to_lower_nil_iff s : to_ascii_lowercase s = [] ↔ s = [].
Proof. by destruct s. Qed.

Lemma to_lower_fix s : Forall (λ b, is_ascii_uppercase b = false) s → to_ascii_lowercase s = s.
Proof. induction 1; csimpl; [done|]. by rewrite lower1_fix, IHForall. Qed.

Lemma eq_ignore_case_spec a b :
  eq_ignore_ascii_case a b = true ↔ to_ascii_lowercase a = to_ascii_lowercase b.
Proof. unfold eq_ignore_ascii_case. apply bool_decide_eq_true. Qed.

#[export] Hint Rewrite to_lower_idem length_to_lower to_lower_app : rstr.

(** ** Prefixes and suffixes *)

Lemma strip_prefix_Some p s r : strip_prefix p s = Some r ↔ s = p ++ r.
Proof.
  revert s. induction p as [|x p IH]; intros s; simpl; [naive_solver|].
  destruct s as [|y s]; [naive_solver|].
  destruct (Z.eqb_spec x y) as [->|Hne]; [rewrite IH|]; naive_solver.
Qed.

Lemma strip_prefix_app p r : strip_prefix p (p ++ r) = Some r.
Proof. by apply strip_prefix_Some. Qed.

Lemma strip_suffix_Some p s r : strip_suffix p s = Some r ↔ s = r ++ p.
Proof.
  unfold strip_suffix. rewrite fmap_Some. setoid_rewrite strip_prefix_Some. split.
  - intros (x & Hs & ->). apply (f_equal reverse) in Hs.
    by rewrite reverse_involutive, reverse_app, reverse_involutive in Hs.
  - intros ->. exists (reverse r). by rewrite reverse_app, reverse_involutive.
Qed.

Lemma strip_suffix_app r p : strip_suffix p (r ++ p) = Some r.
Proof. by apply strip_suffix_Some. Qed.

Lemma starts_with_spec p s : starts_with p s = true ↔ ∃ r, s = p ++ r.
Proof.
  unfold starts_with. destruct (strip_prefix p s) as [r|] eqn:E.
  - apply strip_prefix_Some in E. naive_solver.
  - split; [done|]. intros [r ->]. by rewrite strip_prefix_app in E.
Qed.

Lemma ends_with_spec p s : ends_with p s = true ↔ ∃ r, s = r ++ p.
Proof.
  unfold ends_with. destruct (strip_suffix p s) as [r|] eqn:E.
  - apply strip_suffix_Some in E. naive_solver.
  - split; [done|]. intros [r ->]. by rewrite strip_suffix_app in E.
Qed.

Lemma strip_suffix_or_cases p s :
  (∃ r, s = r ++ p ∧ strip_suffix_or p s = r) ∨
  (ends_with p s = false ∧ strip_suffix_or p s = s).
Proof.
  unfold strip_suffix_or, ends_with. destruct (strip_suffix p s) as [r|] eqn:E; [left|by right].
  apply strip_suffix_Some in E. eauto.
Qed.

(** ** Splitting *)

Lemma contains_spec c s : contains c s = true ↔ c ∈ s.
Proof.
  unfold contains. rewrite existsb_exists. setoid_rewrite Z.eqb_eq.
  setoid_rewrite <-list_elem_of_In. naive_solver.
Qed.

Lemma contains_false c s : contains c s = false ↔ c ∉ s.
Proof. rewrite <-contains_spec. by destruct (contains c s). Qed.

Lemma elem_of_after_each c s r : r ∈ after_each c s ↔ ∃ p, s = p ++ c :: r.
Proof.
  induction s as [|x s IH]; simpl.
  - split; [by intros ?%elem_of_nil|]. by intros [[] ?].
  - destruct (Z.eqb_spec x c) as [->|Hne].
    + rewrite elem_of_cons, IH. split.
      * intros [->|[p ->]]; [by exists []|by exists (c :: p)].
      * intros [[|y p] ?]; simplify_eq/=; naive_solver.
    + rewrite IH. split.
      * intros [p ->]. by exists (x :: p).
      * intros [[|y p] ?]; simplify_eq/=; naive_solver.
Qed.

Lemma after_each_to_lower c s : is_ascii_uppercase c = false → is_ascii_lowercase c = false →
  after_each c (to_ascii_lowercase s) = to_ascii_lowercase <$> after_each c s.
Proof.
  intros Hu Hl. induction s as [|x s IH]; [done|]. csimpl.
  change (fmap lower1 s) with (to_ascii_lowercase s).
  destruct (Z.eqb_spec x c) as [->|Hne].
  - rewrite lower1_fix by done. rewrite Z.eqb_refl. csimpl. by rewrite IH.
  - destruct (Z.eqb_spec (lower1 x) c) as [Heq|_]; [|done].
    by rewrite lower1_eq_iff in Heq by done.
Qed.

Lemma split_on_nonnil c s : split_on c s ≠ [].
Proof. destruct s; simpl; repeat case_match; done. Qed.

Lemma join_cons c w ws : ws ≠ [] → join c (w :: ws) = w ++ c :: join c ws.
Proof. by destruct ws. Qed.

Lemma join_split_on c s : join c (split_on c s) = s.
Proof.
  induction s as [|x s IH]; [done|]. simpl.
  destruct (Z.eqb_spec x c) as [->|Hne].
  - rewrite join_cons by apply split_on_nonnil. by rewrite IH.
  - destruct (split_on c s) as [|w ws] eqn:E; [by apply split_on_nonnil in E|].
    destruct ws; simpl in *; by rewrite IH.
Qed.

Lemma split_on_free c s : Forall (λ w, c ∉ w) (split_on c s).
Proof.
  induction s as [|x s IH]; simpl; [repeat constructor; set_solver|].
  destruct (Z.eqb_spec x c) as [->|Hne]; [constructor; [set_solver|done]|].
  destruct (split_on c s) as [|w ws]; inv IH; constructor; set_solver.
Qed.

Lemma split_on_single c s : c ∉ s → split_on c s = [s].
Proof.
  induction s as [|x s IH]; [done|]. rewrite not_elem_of_cons. intros [Hne Hin]. simpl.
  rewrite IH by done. by destruct (Z.eqb_spec x c) as [->|].
Qed.

Lemma split_on_app c w s : c ∉ w → split_on c (w ++ c :: s) = w :: split_on c s.
Proof.
  induction w as [|x w IH]; simpl; [by rewrite Z.eqb_refl|].
  rewrite not_elem_of_cons. intros [Hne Hin]. rewrite IH by done.
  by destruct (Z.eqb_spec x c) as [->|].
Qed.

Lemma split_on_join c l : l ≠ [] → Forall (λ w, c ∉ w) l → split_on c (join c l) = l.
Proof.
  intros Hne Hl. induction Hl as [|w ws Hw Hws IH]; [done|].
  destruct ws as [|v vs]; [by apply split_on_single|].
  rewrite join_cons, split_on_app, IH by done. done.
Qed.

Lemma elem_of_split_on c s x w : w ∈ split_on c s → x ∈ w → x ∈ s.
Proof.
  revert w. induction s as [|y s IH]; simpl; intros w.
  { rewrite list_elem_of_singleton. by intros ->. }
  destruct (Z.eqb_spec y c) as [->|Hne].
  - rewrite elem_of_cons. intros [->|Hw] Hx; [by apply elem_of_nil in Hx|].
    rewrite elem_of_cons. eauto.
  - destruct (split_on c s) as [|v vs] eqn:E; [by apply split_on_nonnil in E|].
    rewrite !elem_of_cons. intros [->|Hw] Hx; [|right; apply (IH w); set_solver].
    apply elem_of_cons in Hx as [->|Hx]; [by left|right; apply (IH v); set_solver].
Qed.

(** Predicates that hold of the separator and of every byte of every piece. *)
Lemma split_on_Forall c s (P : Z → Prop) :
  Forall P s → Forall (Forall P) (split_on c s).
Proof.
  intros Hs. apply Forall_forall. intros w Hw. apply Forall_forall. intros x Hx.
  rewrite Forall_forall in Hs. eauto using elem_of_split_on.
Qed.

Lemma Forall_join c l (P : Z → Prop) : P c → Forall (Forall P) l → Forall P (join c l).
Proof.
  intros Hc Hl. induction Hl as [|w ws Hw Hws IH]; [constructor|].
  destruct ws; [done|]. rewrite join_cons by done. apply Forall_app; auto.
Qed.

(** ** Order *)

#[global] Instance bytes_le_refl : Reflexive bytes_le.
Proof.
  intros a. unfold bytes_le. induction a as [|x a IH]; simpl; [done|].
  by rewrite Z.eqb_refl, IH, orb_true_r.
Qed.

#[global] Instance bytes_le_trans : Transitive bytes_le.
Proof.
  unfold bytes_le. intros a. induction a as [|x a IH]; intros [|y b] [|z c]; simpl; try done.
  rewrite !orb_true_iff, !andb_true_iff. intros [?|[? ?]] [?|[? ?]]; try (left; lia).
  right. split; [lia|]. eauto.
Qed.

#[global] Instance bytes_le_total : Total bytes_le.
Proof.
  unfold bytes_le. intros a. induction a as [|x a IH]; intros [|y b]; simpl; [tauto..|].
  destruct (IH b) as [Hab|Hab]; rewrite Hab; lia.
Qed.

#[global] Instance bytes_le_antisymm : AntiSymm (=) bytes_le.
Proof.
  unfold bytes_le. intros a. induction a as [|x a IH]; intros [|y b]; simpl; try done.
  rewrite !orb_true_iff, !andb_true_iff. intros [?|[? ?]] [?|[? ?]]; try lia.
  f_equal; [lia|auto].
Qed.

(** ** Decimals *)

Definition decimal_value (acc : Z) (s : bytes) : Z := foldl (λ a b, 10 * a + (b - 48)) acc s.

Lemma decimal_loop_spec fuel v acc : 0 <= v < 10 ^ Z.of_nat fuel → (0 < fuel)%nat →
  ∃ ds, decimal_loop fuel v acc = ds ++ acc ∧ ds ≠ [] ∧ Forall (λ b, 48 <= b <= 57) ds ∧ decimal_value 0 ds = v.
Proof.
  revert v acc. induction fuel as [|fuel IH]; intros v acc Hv Hf; [lia|]. cbn [decimal_loop].
  destruct (Z.ltb_spec v 10) as [Hlt|Hge].
  - exists [48 + v]. split_and!; [done|done|repeat constructor; lia|]. unfold decimal_value. cbn [foldl]. lia.
  - assert (0 <= v / 10 < 10 ^ Z.of_nat fuel) as Hd.
    { rewrite Nat2Z.inj_succ, Z.pow_succ_r in Hv by lia. split; [apply Z.div_pos; lia|].
      apply Z.div_lt_upper_bound; lia. }
    assert (0 < fuel)%nat as Hfuel by (destruct fuel; simpl in Hv; lia).
    destruct (IH (v / 10) ((48 + v mod 10) :: acc) Hd Hfuel) as (ds & -> & Hne & Hall & Hval).
    pose proof (Z.mod_pos_bound v 10).
    exists (ds ++ [48 + v mod 10]). split_and!.
    + by rewrite <- app_assoc.
    + by destruct ds.
    + apply Forall_app. split; [done|]. repeat constructor; lia.
    + unfold decimal_value in *. rewrite foldl_app, Hval. cbn [foldl]. pose proof (Z.div_mod v 10). lia.
Qed.

Lemma show_decimal_spec v : 0 <= v < 10 ^ 20 → show_decimal v ≠ [] ∧ Forall (λ b, 48 <= b <= 57) (show_decimal v)
  ∧ decimal_value 0 (show_decimal v) = v.
Proof.
  intros Hv. destruct (decimal_loop_spec 20 v [] Hv ltac:(lia)) as (ds & He & ? & ? & ?).
  unfold show_decimal. rewrite He, app_nil_r. done.
Qed.

Lemma show_decimal_inj v w : 0 <= v < 10 ^ 20 → 0 <= w < 10 ^ 20 → show_decimal v = show_decimal w → v = w.
Proof.
  intros Hv Hw He. destruct (show_decimal_spec v Hv) as (_ & _ & <-), (show_decimal_spec w Hw) as (_ & _ & <-).
  by rewrite He.
Qed.
