(* ===== verification/Collections.v ===== *)
(** * Rust collections: hash maps, minimum search and sorting

    A [HashMap<String, V>] is a [gmap bytes V] and a [HashSet<String>] a [gset bytes]. The
    order in which a [HashMap] is iterated is unspecified; where the core's result can
    depend on it ([Iterator::min_by_key] over a map picks the first of several minima) the
    order is the [HashOrder] class, so that the theorems hold for every order. *)

From S2P Require Import Prelude RustStr.

(** ** Iteration order *)

Class HashOrder := {
  hash_iter {V : Type} : gmap bytes V → list (bytes * V);
  hash_iter_perm {V : Type} (m : gmap bytes V) : hash_iter m ≡ₚ map_to_list m
}.

(** One possible order, to run the definitions with. *)
#[export] Instance trie_order : HashOrder := {
  hash_iter V m := map_to_list m;
  hash_iter_perm V m := Permutation_refl (map_to_list m)
}.

(** [HashMap::retain] and [Vec::retain]. *)
Definition retain {V} (f : bytes → V → bool) (m : gmap bytes V) : gmap bytes V :=
  filter (λ kv, f kv.1 kv.2 = true) m.
Definition vec_retain {A} (f : A → bool) (l : list A) : list A := filter (λ x, f x = true) l.

(** [Iterator::min_by_key]: the first of the elements with the smallest key. *)
Fixpoint min_by_key {A} (f : A → Z) (l : list A) : option A :=
  match l with
  | [] => None
  | x :: l' =>
      match min_by_key f l' with
      | None => Some x
      | Some y => if f x <=? f y then Some x else Some y
      end
  end.

(** [Iterator::max] over integers, [None] when empty. *)
Definition iter_max (l : list Z) : option Z :=
  match l with [] => None | x :: l' => Some (foldl Z.max x l') end.
Definition iter_min (l : list Z) : option Z :=
  match l with [] => None | x :: l' => Some (foldl Z.min x l') end.

(** [sort_unstable] of strings and of [u64]s, and [dedup] of adjacent equal elements. *)
Definition sort_strings (l : list bytes) : list bytes := merge_sort bytes_le l.
Definition sort_u64 (l : list Z) : list Z := merge_sort Z.le l.
Fixpoint dedup (l : list Z) : list Z :=
  match l with
  | [] => []
  | x :: l' =>
      match dedup l' with
      | y :: ys => if x =? y then y :: ys else x :: y :: ys
      | [] => [x]
      end
  end.

(** [slice::binary_search]: the index of a match, or [None] for [Err]. The loop of the
    standard library: [size] elements from [base] on are left to search. *)
Fixpoint binary_search_loop (fuel : nat) (l : list Z) (x : Z) (base size : nat) : nat :=
  match fuel with
  | O => base
  | S fuel' =>
      if (size <=? 1)%nat then base
      else
        let half := (size / 2)%nat in
        let mid := (base + half)%nat in
        let base := if x <? nth mid l 0 then base else mid in
        binary_search_loop fuel' l x base (size - half)
  end.
Definition binary_search (l : list Z) (x : Z) : option nat :=
  match l with
  | [] => None
  | _ =>
      let base := binary_search_loop (length l) l x 0 (length l) in
      if nth base l 0 =? x then Some base else None
  end.

(** [&v[start..end]] of a range within the vector. *)
Definition slice {A} (start stop : nat) (l : list A) : list A := take (stop - start) (drop start l).

(** * Lemmas *)

Lemma retain_lookup {V} (f : bytes → V → bool) (m : gmap bytes V) (k : bytes) (v : V) :
  retain f m !! k = Some v ↔ m !! k = Some v ∧ f k v = true.
Proof. unfold retain. by rewrite map_lookup_filter_Some. Qed.

Lemma retain_subseteq {V} (f : bytes → V → bool) (m : gmap bytes V) : retain f m ⊆ m.
Proof. apply map_filter_subseteq. Qed.

Lemma elem_of_vec_retain {A} (f : A → bool) l x :
  x ∈ vec_retain f l ↔ x ∈ l ∧ f x = true.
Proof. unfold vec_retain. rewrite list_elem_of_filter. tauto. Qed.

Lemma min_by_key_None {A} (f : A → Z) l : min_by_key f l = None ↔ l = [].
Proof. destruct l as [|x l]; simpl; [done|]. split; [|done]. by repeat case_match. Qed.

Lemma min_by_key_Some {A} (f : A → Z) l x :
  min_by_key f l = Some x → x ∈ l ∧ ∀ y, y ∈ l → f x <= f y.
Proof.
  revert x. induction l as [|a l IH]; intros x; simpl; [done|].
  destruct (min_by_key f l) as [b|] eqn:E.
  - destruct (IH b eq_refl) as [Hb Hmin].
    destruct (Z.leb_spec (f a) (f b)); intros [= <-].
    + split; [by left|]. intros y [->|Hy]%elem_of_cons; [lia|]. specialize (Hmin _ Hy). lia.
    + split; [by right|]. intros y [->|Hy]%elem_of_cons; [lia|]. auto.
  - apply min_by_key_None in E as ->. intros [= <-]. split; [by left|].
    intros y [->|Hy]%elem_of_cons; [lia|]. by apply elem_of_nil in Hy.
Qed.

Lemma size_subseteq {V} (m1 m2 : gmap bytes V) : m1 ⊆ m2 → (size m1 ≤ size m2)%nat.
Proof. intros H. rewrite <-!size_dom. apply subseteq_size. by apply subseteq_dom. Qed.

Lemma elem_of_hash_iter `{HashOrder} {V} (m : gmap bytes V) (k : bytes) (v : V) :
  (k, v) ∈ hash_iter m ↔ m !! k = Some v.
Proof. rewrite hash_iter_perm. apply elem_of_map_to_list. Qed.

Lemma hash_iter_nil `{HashOrder} {V} (m : gmap bytes V) : hash_iter m = [] → m = ∅.
Proof.
  intros Hm. apply map_to_list_empty_iff. apply Permutation_nil.
  rewrite <-Hm. apply hash_iter_perm.
Qed.

Lemma sort_strings_perm l : sort_strings l ≡ₚ l.
Proof. apply merge_sort_Permutation. Qed.

Lemma sort_u64_perm l : sort_u64 l ≡ₚ l.
Proof. apply merge_sort_Permutation. Qed.

Lemma sort_u64_sorted l : Sorted Z.le (sort_u64 l).
Proof. apply Sorted_merge_sort. apply _. Qed.

Lemma elem_of_dedup l x : x ∈ dedup l ↔ x ∈ l.
Proof.
  induction l as [|a l IH]; simpl; [done|].
  destruct (dedup l) as [|y ys] eqn:E.
  - rewrite !elem_of_cons, <-IH. done.
  - destruct (Z.eqb_spec a y) as [->|Hne]; rewrite (elem_of_cons l), <-IH; set_solver.
Qed.

(** [dedup] of a sorted list is strictly increasing. *)
Lemma dedup_sorted l : Sorted Z.le l → Sorted Z.lt (dedup l).
Proof.
  induction 1 as [|a l Hl IH Ha]; simpl; [constructor|].
  destruct (dedup l) as [|y ys] eqn:E; [repeat constructor|].
  destruct (Z.eqb_spec a y) as [->|Hne]; [done|]. constructor; [done|]. constructor.
  assert (y ∈ l) as Hy by (rewrite <-elem_of_dedup, E; by left).
  apply Sorted_StronglySorted in Hl; [|apply _].
  destruct l as [|b l]; [by apply elem_of_nil in Hy|]. inv Ha.
  apply elem_of_cons in Hy as [->|Hy]; [lia|].
  inv Hl. assert (b <= y) by (eapply Forall_forall; eauto). lia.
Qed.

Lemma vec_retain_cons {A} (f : A → bool) x l :
  vec_retain f (x :: l) = if f x then x :: vec_retain f l else vec_retain f l.
Proof.
  unfold vec_retain. rewrite filter_cons.
  destruct (f x); [by rewrite decide_True|by rewrite decide_False].
Qed.

Lemma vec_retain_app {A} (f : A → bool) l k :
  vec_retain f (l ++ k) = vec_retain f l ++ vec_retain f k.
Proof. apply filter_app. Qed.

Lemma vec_retain_all {A} (f : A → bool) l :
  (∀ x, x ∈ l → f x = true) → vec_retain f l = l.
Proof.
  intros Hf. induction l as [|x l IH]; [done|]. rewrite vec_retain_cons, Hf by (by left).
  rewrite IH; [done|]. intros y Hy. apply Hf. by right.
Qed.

Lemma vec_retain_length {A} (f : A → bool) l : (length (vec_retain f l) ≤ length l)%nat.
Proof. apply length_filter. Qed.

Lemma vec_retain_NoDup {A} (f : A → bool) l : NoDup l → NoDup (vec_retain f l).
Proof. apply NoDup_filter. Qed.

Lemma vec_retain_fmap {A B} (f : B → bool) (g : A → B) l :
  vec_retain f (g <$> l) = g <$> vec_retain (λ x, f (g x)) l.
Proof.
  induction l as [|x l IH]; [done|]. csimpl. rewrite !vec_retain_cons, IH. by case_match.
Qed.

Lemma list_filter_ext_in {A} (P Q : A → Prop) `{∀ x, base.Decision (P x), ∀ x, base.Decision (Q x)} (l : list A) :
  (∀ x, x ∈ l → P x ↔ Q x) → filter P l = filter Q l.
Proof.
  induction l as [|x l IH]; intros HPQ; [done|]. rewrite !filter_cons, IH by set_solver.
  destruct (decide (P x)), (decide (Q x)); set_solver.
Qed.

(** ** Binary search *)

Lemma nth_lookup_Some {A} (l : list A) i d x : l !! i = Some x → nth i l d = x.
Proof. intros Hi. by rewrite nth_lookup, Hi. Qed.

Lemma strictly_sorted_lookup (l : list Z) i j x y :
  Sorted Z.lt l → l !! i = Some x → l !! j = Some y → (i < j)%nat → x < y.
Proof.
  intros Hs%Sorted_StronglySorted Hi Hj Hlt; [|intros ???; lia].
  rewrite <-(take_drop_middle _ _ _ Hi) in Hs. apply StronglySorted_app_1_r in Hs.
  apply StronglySorted_cons in Hs as [Hf _]. rewrite Forall_forall in Hf. apply Hf.
  apply list_elem_of_lookup. exists (j - S i)%nat. rewrite lookup_drop.
  by replace (S i + (j - S i))%nat with j by lia.
Qed.

Lemma binary_search_loop_spec fuel l x i base size : Sorted Z.lt l →
  l !! i = Some x → (base ≤ i < base + size)%nat → (base + size ≤ length l)%nat →
  (size ≤ fuel)%nat → binary_search_loop fuel l x base size = i.
Proof.
  intros Hs Hi. revert base size. induction fuel as [|fuel IH]; intros base size Hb Hl Hf; [lia|].
  cbn [binary_search_loop]. destruct (Nat.leb_spec size 1) as [H1|H1]; [lia|].
  pose proof (Nat.div_lt size 2 ltac:(lia) ltac:(lia)) as Hd.
  assert (1 ≤ size / 2)%nat as Hd1 by (apply Nat.div_le_lower_bound; lia).
  pose proof (Nat.Div0.mul_div_le size 2) as H2.
  set (half := (size / 2)%nat) in *.
  destruct (lookup_lt_is_Some_2 l (base + half) ltac:(lia)) as [y Hy].
  rewrite (nth_lookup_Some _ _ _ _ Hy). destruct (Z.ltb_spec x y).
  - apply IH; [|lia|lia]. split; [lia|].
    destruct (Nat.lt_ge_cases i (base + half)) as [?|Hge]; [lia|exfalso].
    destruct (decide (i = base + half)%nat) as [->|Hne]; [simplify_eq; lia|].
    pose proof (strictly_sorted_lookup _ _ _ _ _ Hs Hy Hi ltac:(lia)). lia.
  - apply IH; [|lia|lia]. split; [|lia].
    destruct (Nat.lt_ge_cases i (base + half)) as [Hlt|?]; [exfalso|lia].
    pose proof (strictly_sorted_lookup _ _ _ _ _ Hs Hi Hy Hlt). lia.
Qed.

Lemma binary_search_base fuel l x base size : (1 ≤ size)%nat → (base + size ≤ length l)%nat →
  (binary_search_loop fuel l x base size < length l)%nat.
Proof.
  revert base size. induction fuel as [|fuel IH]; intros base size H1 Hl; [simpl; lia|].
  cbn [binary_search_loop]. destruct (Nat.leb_spec size 1); [lia|].
  pose proof (Nat.div_lt size 2 ltac:(lia) ltac:(lia)) as Hd. case_match; apply IH; lia.
Qed.

Lemma binary_search_spec l x i : Sorted Z.lt l → binary_search l x = Some i ↔ l !! i = Some x.
Proof.
  intros Hs. unfold binary_search. destruct l as [|a l]; [by split|].
  set (ll := a :: l) in *. assert (1 ≤ length ll)%nat as Hlen by (simpl; lia). split.
  - case_match eqn:Hx; [|done]. intros [= <-]. apply Z.eqb_eq in Hx.
    pose proof (binary_search_base (length ll) ll x 0 (length ll) Hlen ltac:(lia)) as Hlt.
    destruct (lookup_lt_is_Some_2 _ _ Hlt) as [y Hy].
    rewrite (nth_lookup_Some _ _ _ _ Hy) in Hx. by subst.
  - intros Hi. apply lookup_lt_Some in Hi as Hlt.
    rewrite (binary_search_loop_spec (length ll) ll x i) by (done || lia).
    by rewrite (nth_lookup_Some _ _ _ _ Hi), Z.eqb_refl.
Qed.

(** ** Slices of concatenations *)

Lemma slice_0_take {A} (n : nat) (l : list A) : slice 0 n l = take n l.
Proof. unfold slice. by rewrite drop_0, Nat.sub_0_r. Qed.

Lemma length_slice {A} (start stop : nat) (l : list A) : (stop ≤ length l)%nat →
  length (slice start stop l) = (stop - start)%nat.
Proof. intros Hs. unfold slice. rewrite length_take, length_drop. lia. Qed.

Lemma lookup_slice {A} (start stop i : nat) (l : list A) : (i < stop - start)%nat →
  slice start stop l !! i = l !! (start + i)%nat.
Proof. intros Hi. unfold slice. rewrite lookup_take_lt by done. apply lookup_drop. Qed.

Lemma elem_of_concat {A} (ls : list (list A)) x : x ∈ concat ls ↔ ∃ l, l ∈ ls ∧ x ∈ l.
Proof.
  induction ls as [|l ls IH]; simpl; [set_solver|]. rewrite elem_of_app, IH. set_solver.
Qed.

Lemma concat_middle {A} (ls : list (list A)) n l : ls !! n = Some l →
  concat ls = concat (take n ls) ++ l ++ concat (drop (S n) ls).
Proof.
  intros Hn. transitivity (concat (take n ls ++ l :: drop (S n) ls)).
  - by rewrite take_drop_middle.
  - by rewrite concat_app.
Qed.

Lemma lookup_concat {A} (ls : list (list A)) n l i x : ls !! n = Some l → l !! i = Some x →
  concat ls !! (length (concat (take n ls)) + i)%nat = Some x.
Proof.
  intros Hn Hi. rewrite (concat_middle _ _ _ Hn). rewrite lookup_app_r by lia.
  replace (length (concat (take n ls)) + i - length (concat (take n ls)))%nat with i by lia.
  by apply lookup_app_l_Some.
Qed.

Lemma slice_concat {A} (ls : list (list A)) n l : ls !! n = Some l →
  slice (length (concat (take n ls))) (length (concat (take (S n) ls))) (concat ls) = l.
Proof.
  intros Hn. rewrite (concat_middle _ _ _ Hn), (take_S_r _ _ _ Hn), concat_app.
  simpl. rewrite app_nil_r, length_app. unfold slice. rewrite drop_app_length.
  replace (length (concat (take n ls)) + length l - length (concat (take n ls)))%nat
    with (length l) by lia.
  apply take_app_length.
Qed.

(** ** Sums over a list *)

Lemma sum_delete {A} (f : A → nat) l i x : l !! i = Some x → sum_list_with f l = (f x + sum_list_with f (delete i l))%nat.
Proof. intros Hi. rewrite (delete_take_drop l i), <-(take_drop_middle l i x Hi) at 1. rewrite !sum_list_with_app. simpl. lia. Qed.
Lemma sum_insert {A} (f : A → nat) l i x y : l !! i = Some x → (f x + sum_list_with f (<[i := y]> l) = f y + sum_list_with f l)%nat.
Proof.
  intros Hi. rewrite (insert_take_drop l i y) by (by eapply lookup_lt_Some). rewrite <-(take_drop_middle l i x Hi) at 3.
  rewrite !sum_list_with_app. simpl. lia.
Qed.
