(* ===== verification/Net.v ===== *)
(** * IP addresses and their textual form ([std::net])

    The parser of Rust's standard library for [Ipv4Addr], [Ipv6Addr] and [IpAddr], which
    the core calls to tell addresses from host names. A reader takes the remaining bytes
    and gives a value with what is left, or [None] without consuming anything
    ([read_atomically]). [Display] of an address follows, as the configuration file writes it, with
    which bytes the readers consume and that every address is read back from what it is displayed
    as. *)
From S2P Require Import Prelude RustStr Collections.

Inductive IpAddr :=
| V4 (octets : list Z)
| V6 (groups : list Z).
#[global] Instance IpAddr_eq_dec : EqDecision IpAddr.
Proof. solve_decision. Defined.

Definition reader (A : Type) : Type := bytes → option (A * bytes).

(** [char::to_digit(radix)] for radix 10 and 16. *)
Definition to_digit (radix b : Z) : option Z :=
  let d :=
    if is_ascii_digit b then Some (b - 48)
    else if is_ascii_lowercase b then Some (b - 97 + 10)
    else if is_ascii_uppercase b then Some (b - 65 + 10)
    else None in
  match d with Some d => if d <? radix then Some d else None | None => None end.

(** The digit loop of [read_number]; [max] is the largest value of the result type. *)
Fixpoint read_digits (radix max max_digits value count : Z) (s : bytes) : option (Z * Z * bytes) :=
  match s with
  | [] => Some (value, count, s)
  | b :: s' =>
      match to_digit radix b with
      | None => Some (value, count, s)
      | Some d =>
          let value := value * radix + d in
          if max <? value then None
          else if max_digits <? count + 1 then None
          else read_digits radix max max_digits value (count + 1) s'
      end
  end.
Definition read_number (radix max max_digits : Z) (allow_zero_prefix : bool) : reader Z := λ s,
  let has_leading_zero := bool_decide (head s = Some 48) in
  match read_digits radix max max_digits 0 0 s with
  | None => None
  | Some (value, count, rest) =>
      if count =? 0 then None
      else if negb allow_zero_prefix && has_leading_zero && (1 <? count) then None
      else Some (value, rest)
  end.

Definition read_given_char (c : Z) (s : bytes) : option bytes :=
  match s with x :: s' => if x =? c then Some s' else None | [] => None end.
Definition read_separator {A} (sep : Z) (index : nat) (inner : reader A) : reader A := λ s,
  match index with
  | O => inner s
  | S _ => s' ← read_given_char sep s; inner s'
  end.

Definition read_octet : reader Z := read_number 10 U8_MAX 3 false.
Definition read_ipv4_addr : reader (list Z) := λ s,
  '(a, s) ← read_separator DOT 0 read_octet s;
  '(b, s) ← read_separator DOT 1 read_octet s;
  '(c, s) ← read_separator DOT 2 read_octet s;
  '(d, s) ← read_separator DOT 3 read_octet s;
  Some ([a; b; c; d], s).

(** [read_groups] for a slice of [limit] groups, from group [i]: the groups read, whether
    the last two were an embedded IPv4 address, and the rest. [fuel] is [limit - i]. *)
Fixpoint read_groups (limit i fuel : nat) (s : bytes) : list Z * bool * bytes :=
  match fuel with
  | O => ([], false, s)
  | S fuel' =>
      match (if (i <? limit - 1)%nat then read_separator COLON i read_ipv4_addr s else None) with
      | Some (octets, rest) =>
          match octets with
          | [a; b; c; d] => ([a * 256 + b; c * 256 + d], true, rest)
          | _ => ([], true, rest)
          end
      | None =>
          match read_separator COLON i (read_number 16 U16_MAX 4 true) s with
          | Some (group, rest) =>
              let '(gs, v4, rest) := read_groups limit (S i) fuel' rest in
              (group :: gs, v4, rest)
          | None => ([], false, s)
          end
      end
  end.
Definition read_ipv6_addr : reader (list Z) := λ s,
  let '(head, head_ipv4, s) := read_groups 8 0 8 s in
  if (length head =? 8)%nat then Some (head, s)
  else if head_ipv4 then None
  else
    s ← read_given_char COLON s;
    s ← read_given_char COLON s;
    let limit := (8 - (length head + 1))%nat in
    let '(tail, _, s) := read_groups limit 0 limit s in
    Some (head ++ replicate (8 - length head - length tail) 0 ++ tail, s).

(** [parse_with]: the whole text must be consumed. *)
Definition parse_all {A} (r : reader A) (s : bytes) : option A :=
  match r s with Some (a, []) => Some a | _ => None end.
Definition Ipv6Addr_parse (s : bytes) : option (list Z) := parse_all read_ipv6_addr s.
Definition IpAddr_parse (s : bytes) : option IpAddr :=
  parse_all (λ s, match read_ipv4_addr s with
                  | Some (o, rest) => Some (V4 o, rest)
                  | None => '(g, rest) ← read_ipv6_addr s; Some (V6 g, rest)
                  end) s.

Example ip_v4 : IpAddr_parse (lit "192.168.0.1") = Some (V4 [192; 168; 0; 1]).
Proof. reflexivity. Qed.
Example ip_v4_leading_zero : IpAddr_parse (lit "192.168.0.01") = None.
Proof. reflexivity. Qed.
Example ip_v4_big : IpAddr_parse (lit "256.1.1.1") = None.
Proof. reflexivity. Qed.
Example ip_v6_short : IpAddr_parse (lit "2606:4700:4700::1111") =
  Some (V6 [0x2606; 0x4700; 0x4700; 0; 0; 0; 0; 0x1111]).
Proof. reflexivity. Qed.
Example ip_v6_mapped : IpAddr_parse (lit "::ffff:127.0.0.1") =
  Some (V6 [0; 0; 0; 0; 0; 0xffff; 0x7f00; 1]).
Proof. reflexivity. Qed.
Example ip_v6_full : Ipv6Addr_parse (lit "1:2:3:4:5:6:7:8") = Some [1; 2; 3; 4; 5; 6; 7; 8].
Proof. reflexivity. Qed.
Example ip_v6_bad : Ipv6Addr_parse (lit "1:2:3:4:5:6:7::8:9") = None.
Proof. reflexivity. Qed.

(** * Addresses as text *)

(** ** [Display] *)

Definition hex_char (d : Z) : Z := if d <? 10 then 48 + d else 87 + d.
Fixpoint hex_loop (fuel : nat) (v : Z) (acc : bytes) : bytes :=
  match fuel with
  | O => acc
  | S fuel' => if v <? 16 then hex_char v :: acc else hex_loop fuel' (v / 16) (hex_char (v mod 16) :: acc)
  end.
(** [{:x}] of a [u16]. *)
Definition show_hex (v : Z) : bytes := hex_loop 4 v [].

Definition Ipv4Addr_to_string (octets : list Z) : bytes :=
  match octets with
  | [a; b; c; d] => show_decimal a ++ DOT :: show_decimal b ++ DOT :: show_decimal c ++ DOT :: show_decimal d
  | _ => []
  end.

(** The longest run of zero groups, the first of them where two are as long: the loop over the
    groups with the run at hand and the longest so far. *)
Record Span := { span_start : nat; span_len : nat }.
Fixpoint longest_zeroes (segments : list Z) (i : nat) (current longest : Span) : Span :=
  match segments with
  | [] => longest
  | segment :: rest =>
      if segment =? 0 then
        let current := {| span_start := if (span_len current =? 0)%nat then i else span_start current;
                          span_len := S (span_len current) |} in
        longest_zeroes rest (S i) current (if (span_len longest <? span_len current)%nat then current else longest)
      else longest_zeroes rest (S i) {| span_start := 0; span_len := 0 |} longest
  end.
(** [fmt_subslice] *)
Definition fmt_subslice (chunk : list Z) : bytes :=
  match chunk with
  | [] => []
  | first :: tail => show_hex first ++ concat ((λ segment, COLON :: show_hex segment) <$> tail)
  end.
(** [to_ipv4_mapped] *)
Definition to_ipv4_mapped (segments : list Z) : option (list Z) :=
  match segments with
  | [0; 0; 0; 0; 0; 65535; ab; cd] => Some [ab / 256; ab mod 256; cd / 256; cd mod 256]
  | _ => None
  end.
Definition Ipv6Addr_to_string (segments : list Z) : bytes :=
  match to_ipv4_mapped segments with
  | Some ipv4 => lit "::ffff:" ++ Ipv4Addr_to_string ipv4
  | None =>
      let zeroes := longest_zeroes segments 0 {| span_start := 0; span_len := 0 |} {| span_start := 0; span_len := 0 |} in
      if (1 <? span_len zeroes)%nat then
        fmt_subslice (take (span_start zeroes) segments) ++ lit "::" ++
        fmt_subslice (drop (span_start zeroes + span_len zeroes) segments)
      else fmt_subslice segments
  end.
Definition IpAddr_to_string (ip : IpAddr) : bytes :=
  match ip with V4 octets => Ipv4Addr_to_string octets | V6 segments => Ipv6Addr_to_string segments end.

Definition IpAddr_ok (ip : IpAddr) : Prop :=
  match ip with
  | V4 octets => length octets = 4%nat ∧ Forall (λ o, 0 <= o <= U8_MAX) octets
  | V6 segments => length segments = 8%nat ∧ Forall (λ g, 0 <= g <= U16_MAX) segments
  end.

Example display_cloudflare : IpAddr_to_string (V6 [0x2606; 0x4700; 0x4700; 0; 0; 0; 0; 0x1111]) = lit "2606:4700:4700::1111".
Proof. reflexivity. Qed.
Example display_quad9 : IpAddr_to_string (V6 [0x2620; 0xfe; 0; 0; 0; 0; 0; 0xfe]) = lit "2620:fe::fe".
Proof. reflexivity. Qed.
Example display_first_run : IpAddr_to_string (V6 [1; 0; 0; 2; 0; 0; 3; 0]) = lit "1::2:0:0:3:0".
Proof. reflexivity. Qed.
Example display_mapped : IpAddr_to_string (V6 [0; 0; 0; 0; 0; 0xffff; 0x7f00; 1]) = lit "::ffff:127.0.0.1".
Proof. reflexivity. Qed.

(** ** What the readers of addresses consume *)

Definition addr_byte (b : Z) : Prop := is_ascii_alphanumeric b = true ∨ b = DOT.
Definition addr6_byte (b : Z) : Prop := addr_byte b ∨ b = COLON.

Lemma to_digit_alnum radix b d : to_digit radix b = Some d → is_ascii_alphanumeric b = true.
Proof.
  unfold to_digit, is_ascii_alphanumeric. intros Hd. repeat case_match; try done; subst;
    repeat match goal with H : _ = true |- _ => rewrite H end; by rewrite ?orb_true_r.
Qed.
Lemma read_digits_used radix max max_digits s : ∀ value count v c rest, read_digits radix max max_digits value count s = Some (v, c, rest) →
  ∃ used, s = used ++ rest ∧ Forall (λ b, is_ascii_alphanumeric b = true) used.
Proof.
  induction s as [|b s IH]; intros value count v c rest; simpl; [intros [= <- <- <-]; by exists []|].
  destruct (to_digit radix b) as [d|] eqn:Hd; [|intros [= <- <- <-]; by exists []].
  repeat case_match; try done. intros (used & -> & Hu)%IH. exists (b :: used). split; [done|]. constructor; [by eapply to_digit_alnum|done].
Qed.
Lemma read_number_used radix max max_digits zero s v rest : read_number radix max max_digits zero s = Some (v, rest) →
  ∃ used, s = used ++ rest ∧ Forall (λ b, is_ascii_alphanumeric b = true) used.
Proof. unfold read_number. intros Hn. repeat case_match; simplify_eq. by eapply read_digits_used. Qed.
Lemma given_char_used c s rest : read_given_char c s = Some rest → s = c :: rest.
Proof. destruct s as [|x s]; [done|]. simpl. case_match eqn:Hx; [|done]. apply Z.eqb_eq in Hx as ->. by intros [= ->]. Qed.

Lemma octet_used i s a rest : read_separator DOT i read_octet s = Some (a, rest) → ∃ used, s = used ++ rest ∧ Forall addr_byte used.
Proof.
  intros Hr. assert (∃ dots s', s = dots ++ s' ∧ Forall addr_byte dots ∧ read_octet s' = Some (a, rest)) as (dots & s' & -> & Hd & Ho).
  { destruct i; simpl in Hr; [by exists [], s|]. destruct (read_given_char DOT s) as [s'|] eqn:Hc; [|done].
    apply given_char_used in Hc as ->. exists [DOT], s'. split_and!; [done|by repeat constructor; right|done]. }
  apply read_number_used in Ho as (used & -> & Hu). exists (dots ++ used). rewrite app_assoc. split; [done|].
  apply Forall_app. split; [done|]. eapply Forall_impl; [done|]. by left.
Qed.
Lemma ipv4_used s o rest : read_ipv4_addr s = Some (o, rest) → ∃ used, s = used ++ rest ∧ Forall addr_byte used.
Proof.
  unfold read_ipv4_addr. intros Hr.
  repeat match type of Hr with
  | (x ← ?r; _) = _ => destruct r as [[? ?]|] eqn:?; [cbn [mbind option_bind] in Hr|done]
  end. simplify_eq.
  repeat match goal with H : read_separator DOT _ _ _ = Some _ |- _ => apply octet_used in H as (? & -> & ?) end.
  rewrite !app_assoc. eexists. split; [done|]. rewrite !Forall_app. done.
Qed.

(** From the second group on a group begins with a colon. *)
Lemma read_groups_used limit fuel : ∀ i s gs v4 rest, read_groups limit i fuel s = (gs, v4, rest) →
  ∃ used, s = used ++ rest ∧ Forall addr6_byte used ∧ (COLON ∉ used → (length gs ≤ if decide (i = 0) then 2 else 0)%nat).
Proof.
  assert (∀ (l : bytes), Forall addr_byte l → Forall addr6_byte l) as Hsub by (intros l Hl; eapply Forall_impl; [done|by left]).
  assert (∀ (l : bytes), Forall (λ b, is_ascii_alphanumeric b = true) l → Forall addr6_byte l) as Hsub' by (intros l Hl; eapply Forall_impl; [done|by left; left]).
  induction fuel as [|fuel IH]; intros i s gs v4 rest; simpl.
  { intros [= <- <- <-]. exists []. split_and!; [done|done|simpl; lia]. }
  assert (∀ (A : Type) (r : reader A) a rest', (∀ s, r s = Some (a, rest') → ∃ used, s = used ++ rest' ∧ Forall addr6_byte used) →
    read_separator COLON i r s = Some (a, rest') → ∃ used, s = used ++ rest' ∧ Forall addr6_byte used ∧ (COLON ∉ used → i = 0%nat)) as Hsep.
  { intros A r a rest' Hr Hs. destruct i; simpl in Hs; [apply Hr in Hs as (used & -> & Hu); by exists used|].
    destruct (read_given_char COLON s) as [s'|] eqn:Hc; [|done]. apply given_char_used in Hc as ->. simpl in Hs.
    apply Hr in Hs as (used & -> & Hu). exists (COLON :: used). split_and!; [done|by constructor; [right|]|set_solver]. }
  destruct (if (i <? limit - 1)%nat then _ else _) as [[octets rest']|] eqn:H4.
  - destruct (i <? limit - 1)%nat; [|done]. apply Hsep in H4 as (used & -> & Hu & Hc);
      [|intros s0 (u & ? & ?)%ipv4_used; exists u; auto].
    intros Hg. exists used. assert (rest' = rest ∧ (length gs ≤ 2)%nat) as [-> Hl] by (repeat case_match; simplify_eq; (split; [done|simpl; lia])).
    split_and!; [done|done|]. intros Hn. by rewrite (Hc Hn).
  - destruct (read_separator COLON i (read_number 16 U16_MAX 4 true) s) as [[group rest']|] eqn:H6;
      [|intros [= <- <- <-]; exists []; split_and!; [done|done|simpl; lia]].
    apply Hsep in H6 as (used & -> & Hu & Hc); [|intros s0 (u & ? & ?)%read_number_used; exists u; auto].
    destruct (read_groups limit (S i) fuel rest') as [[gs' v4'] rest''] eqn:Hg. intros [= <- <- <-].
    apply IH in Hg as (used' & -> & Hu' & Hc'). exists (used ++ used'). rewrite app_assoc. split_and!; [done|by apply Forall_app|].
    intros Hn. rewrite elem_of_app in Hn. rewrite Hc by tauto. specialize (Hc' ltac:(tauto)). simpl in *. lia.
Qed.

Lemma contains_elem c s : contains c s = true ↔ c ∈ s.
Proof. unfold contains. rewrite existsb_exists. split; [intros (x & Hx & ->%Z.eqb_eq); by apply list_elem_of_In|intros Hc; exists c; split; [by apply list_elem_of_In|apply Z.eqb_refl]]. Qed.

Lemma ipv6_text s g : Ipv6Addr_parse s = Some g → Forall addr6_byte s ∧ COLON ∈ s.
Proof.
  unfold Ipv6Addr_parse, parse_all, read_ipv6_addr. destruct (read_groups 8 0 8 s) as [[gs v4] rest] eqn:Hg.
  apply read_groups_used in Hg as (used & -> & Hu & Hc). destruct (Nat.eqb_spec (length gs) 8) as [Hl|Hl].
  - destruct rest; [|done]. intros _. rewrite app_nil_r. split; [done|]. destruct (decide (COLON ∈ used)) as [|Hn]; [done|].
    specialize (Hc Hn). simpl in Hc. lia.
  - destruct v4; [done|]. destruct (read_given_char COLON rest) as [r1|] eqn:H1; [|done]. apply given_char_used in H1 as ->. simpl.
    destruct (read_given_char COLON r1) as [r2|] eqn:H2; [|done]. apply given_char_used in H2 as ->. simpl.
    destruct (read_groups _ 0 _ r2) as [[gs' v4'] rest'] eqn:Hg'. apply read_groups_used in Hg' as (used' & -> & Hu' & _).
    destruct rest'; [|done]. intros _. rewrite app_nil_r. split; [|set_solver].
    rewrite Forall_app. split; [done|]. by constructor; [right|constructor; [right|]].
Qed.
Lemma ipv4_text s o : IpAddr_parse s = Some o → Ipv6Addr_parse s = None → COLON ∉ s.
Proof.
  unfold IpAddr_parse, Ipv6Addr_parse, parse_all. destruct (read_ipv4_addr s) as [[o' rest]|] eqn:H4.
  - destruct rest; [|done]. intros _ _ Hc. apply ipv4_used in H4 as (used & -> & Hu). rewrite app_nil_r in Hc.
    rewrite Forall_forall in Hu. by destruct (Hu _ Hc).
  - destruct (read_ipv6_addr s) as [[g rest]|]; [|done]. simpl. by destruct rest.
Qed.

(** ** Reading back *)

(** A text at which a number in [radix] ends. *)
Definition number_ends (radix : Z) (rest : bytes) : Prop :=
  match rest with [] => True | b :: _ => to_digit radix b = None end.

Lemma read_digits_step radix max max_digits value count b d s : to_digit radix b = Some d →
  value * radix + d <= max → count + 1 <= max_digits →
  read_digits radix max max_digits value count (b :: s) = read_digits radix max max_digits (value * radix + d) (count + 1) s.
Proof.
  intros Hd Hv Hc. cbn [read_digits]. rewrite Hd. destruct (Z.ltb_spec max (value * radix + d)); [lia|].
  by destruct (Z.ltb_spec max_digits (count + 1)); [lia|].
Qed.
Lemma read_digits_end radix max max_digits value count rest : number_ends radix rest →
  read_digits radix max max_digits value count rest = Some (value, count, rest).
Proof. destruct rest as [|b rest]; [done|]. intros Hb. simpl in Hb. cbn [read_digits]. by rewrite Hb. Qed.

Lemma digit_dec d : 0 <= d < 10 → to_digit 10 (48 + d) = Some d.
Proof.
  intros Hd. assert (d ∈ [0; 1; 2; 3; 4; 5; 6; 7; 8; 9]) as Hel by (rewrite !elem_of_cons; lia).
  clear Hd. revert d Hel. apply Forall_forall. repeat constructor.
Qed.
Lemma digit_hex d : 0 <= d < 16 → to_digit 16 (hex_char d) = Some d.
Proof.
  intros Hd. assert (d ∈ [0; 1; 2; 3; 4; 5; 6; 7; 8; 9; 10; 11; 12; 13; 14; 15]) as Hel by (rewrite !elem_of_cons; lia).
  clear Hd. revert d Hel. apply Forall_forall. repeat constructor.
Qed.

(** The digits of an octet and of a group, the largest first. *)
Lemma show_octet v : 0 <= v <= U8_MAX → show_decimal v =
  if v <? 10 then [48 + v] else if v <? 100 then [48 + v / 10; 48 + v mod 10]
  else [48 + v / 100; 48 + v / 10 mod 10; 48 + v mod 10].
Proof.
  intros Hv. unfold U8_MAX in Hv. unfold show_decimal. cbn [decimal_loop].
  destruct (Z.ltb_spec v 10); [done|]. destruct (Z.ltb_spec v 100).
  - destruct (Z.ltb_spec (v / 10) 10) as [_|Hx]; [done|]. pose proof (Z.div_lt_upper_bound v 10 10). lia.
  - destruct (Z.ltb_spec (v / 10) 10) as [Hx|_]; [pose proof (Z.div_le_lower_bound v 10 10); lia|].
    rewrite Z.div_div by lia. change (10 * 10) with 100.
    destruct (Z.ltb_spec (v / 100) 10) as [_|Hx]; [done|]. pose proof (Z.div_lt_upper_bound v 100 10). lia.
Qed.

Lemma read_octet_show v rest : 0 <= v <= U8_MAX → number_ends 10 rest → read_octet (show_decimal v ++ rest) = Some (v, rest).
Proof.
  intros Hv Hr. unfold read_octet, read_number. rewrite show_octet by done.
  assert (∀ d, 0 <= d < 10 → to_digit 10 (48 + d) = Some d) as Hd by apply digit_dec.
  pose proof (Z.div_mod v 10 ltac:(lia)) as H10. pose proof (Z.mod_pos_bound v 10 ltac:(lia)) as M10.
  pose proof (Z.div_mod (v / 10) 10 ltac:(lia)) as H100. pose proof (Z.mod_pos_bound (v / 10) 10 ltac:(lia)) as M100.
  rewrite Z.div_div in H100 by lia. change (10 * 10) with 100 in H100. unfold U8_MAX in *.
  destruct (Z.ltb_spec v 10); [|destruct (Z.ltb_spec v 100)]; cbn [app head].
  - rewrite (read_digits_step _ _ _ _ _ _ v) by (auto with lia). rewrite read_digits_end by done. cbn -[Z.add]. by rewrite andb_false_r.
  - rewrite (read_digits_step _ _ _ _ _ _ (v / 10)) by (auto with lia).
    rewrite (read_digits_step _ _ _ _ _ _ (v mod 10)) by (auto with lia). rewrite read_digits_end by done.
    rewrite bool_decide_eq_false_2 by (intros [=]; lia). cbn -[Z.add Z.mul Z.div Z.modulo]. do 2 f_equal. lia.
  - rewrite (read_digits_step _ _ _ _ _ _ (v / 100)) by (auto with lia).
    rewrite (read_digits_step _ _ _ _ _ _ (v / 10 mod 10)) by (auto with lia).
    rewrite (read_digits_step _ _ _ _ _ _ (v mod 10)) by (auto with lia). rewrite read_digits_end by done.
    rewrite bool_decide_eq_false_2 by (intros [=]; lia). cbn -[Z.add Z.mul Z.div Z.modulo]. do 2 f_equal. lia.
Qed.

(** Each step of [hex_loop] reads back as the digit it wrote. *)
Lemma read_hex_loop max_digits fuel : ∀ v acc value count v' rest,
  0 <= v < 16 ^ Z.of_nat fuel → (0 < fuel)%nat → count = 0 → value = 0 →
  (∀ n, 1 <= n <= Z.of_nat fuel → read_digits 16 U16_MAX max_digits v n (acc ++ rest) = Some (v', n + Z.of_nat (length acc), rest)) →
  v <= U16_MAX → Z.of_nat fuel <= max_digits →
  ∃ n, read_digits 16 U16_MAX max_digits value count (hex_loop fuel v acc ++ rest) = Some (v', n, rest) ∧ 1 <= n.
Proof.
  induction fuel as [|fuel IH]; intros v acc value count v' rest Hv Hf -> -> Hacc Hm Hd; [lia|]. cbn [hex_loop].
  destruct (Z.ltb_spec v 16) as [Hs|Hs].
  - cbn [app]. rewrite (read_digits_step _ _ _ _ _ _ v); [|apply digit_hex; lia|lia|lia].
    exists (1 + Z.of_nat (length acc)). split; [|lia]. apply (Hacc 1). lia.
  - pose proof (Z.div_mod v 16 ltac:(lia)) as Hdm. pose proof (Z.mod_pos_bound v 16 ltac:(lia)) as Hmod.
    assert (0 < fuel)%nat. { destruct fuel; [|lia]. simpl in Hv. lia. }
    apply IH; try done; [|  |lia|lia].
    + split; [apply Z.div_pos; lia|]. apply Z.div_lt_upper_bound; [lia|]. rewrite Nat2Z.inj_succ, Z.pow_succ_r in Hv by lia. lia.
    + intros n Hn. cbn [app]. rewrite (read_digits_step _ _ _ _ _ _ (v mod 16)); [|apply digit_hex; lia|lia|lia].
      rewrite (Z.mul_comm _ 16), <-Hdm. rewrite (Hacc (n + 1)) by lia. do 3 f_equal. simpl length. lia.
Qed.

Lemma read_group_show v rest : 0 <= v <= U16_MAX → number_ends 16 rest →
  read_number 16 U16_MAX 4 true (show_hex v ++ rest) = Some (v, rest).
Proof.
  intros Hv Hr. unfold read_number, show_hex.
  assert (∃ n, read_digits 16 U16_MAX 4 0 0 (hex_loop 4 v [] ++ rest) = Some (v, n, rest) ∧ 1 <= n) as (n & -> & Hn).
  { apply read_hex_loop; try lia.
    - change (16 ^ Z.of_nat 4) with (U16_MAX + 1). lia.
    - intros n _. cbn [app length]. rewrite Z.add_0_r. by apply read_digits_end. }
  destruct (Z.eqb_spec n 0); [lia|done].
Qed.

(** ** IPv4 *)

Lemma ends_dot s : number_ends 10 (DOT :: s).
Proof. done. Qed.
#[local] Hint Resolve ends_dot : core.

Lemma read_ipv4_show octets rest : length octets = 4%nat → Forall (λ o, 0 <= o <= U8_MAX) octets → number_ends 10 rest →
  read_ipv4_addr (Ipv4Addr_to_string octets ++ rest) = Some (octets, rest).
Proof.
  intros Hl Ho Hr. destruct octets as [|a [|b [|c [|d []]]]]; try done. inversion_clear Ho as [|? ? Ha Ho1].
  inversion_clear Ho1 as [|? ? Hb Ho2]. inversion_clear Ho2 as [|? ? Hc Ho3]. inversion_clear Ho3 as [|? ? Hd _].
  unfold read_ipv4_addr, Ipv4Addr_to_string, read_separator.
  repeat (rewrite <-?app_assoc; rewrite read_octet_show by (done || apply ends_dot);
    cbn [mbind option_bind app read_given_char]; rewrite ?Z.eqb_refl; cbn [mbind option_bind]).
  done.
Qed.

(** No IPv4 address where a group in hexadecimal ends before a colon or at the end, or where there
    is no number. *)
Definition group_ends (rest : bytes) : Prop := match rest with [] => True | b :: _ => b = COLON end.

Lemma alnum_then_dot s o rest : read_ipv4_addr s = Some (o, rest) →
  ∃ u s', s = u ++ DOT :: s' ∧ u ≠ [] ∧ Forall (λ b, is_ascii_alphanumeric b = true) u.
Proof.
  unfold read_ipv4_addr, read_separator. destruct (read_octet s) as [[a s1]|] eqn:Ha; [|done]. cbn [mbind option_bind].
  destruct (read_given_char DOT s1) as [s2|] eqn:Hd; [|done]. intros _. apply given_char_used in Hd as ->.
  pose proof Ha as (u & -> & Hu)%read_number_used. exists u, s2. split_and!; [done| |done]. intros ->.
  done.
Qed.

Lemma hex_char_alnum d : 0 <= d < 16 → is_ascii_alphanumeric (hex_char d) = true.
Proof. intros Hd. eapply to_digit_alnum. by apply digit_hex. Qed.
Lemma hex_loop_alnum fuel : ∀ v acc, 0 <= v → Forall (λ b, is_ascii_alphanumeric b = true) acc →
  Forall (λ b, is_ascii_alphanumeric b = true) (hex_loop fuel v acc).
Proof.
  induction fuel as [|fuel IH]; intros v acc Hv Hacc; simpl; [done|]. destruct (Z.ltb_spec v 16).
  - constructor; [|done]. apply hex_char_alnum. lia.
  - apply IH; [apply Z.div_pos; lia|]. constructor; [|done]. apply hex_char_alnum, Z.mod_pos_bound. lia.
Qed.

(** Where a run of letters and digits ends is determined by the text. *)
Lemma alnum_run (p r u s : bytes) x : p ++ r = u ++ x :: s →
  Forall (λ b, is_ascii_alphanumeric b = true) p → Forall (λ b, is_ascii_alphanumeric b = true) u →
  is_ascii_alphanumeric x = false → (∀ b r', r = b :: r' → is_ascii_alphanumeric b = false) → r = x :: s.
Proof.
  revert u. induction p as [|a p IH]; intros [|c u] He Hp Hu Hx Hr; simpl in He; simplify_eq.
  - done.
  - specialize (Hr _ _ eq_refl). apply Forall_cons in Hu as [Hu _]. congruence.
  - apply Forall_cons in Hp as [Hp _]. congruence.
  - apply Forall_cons in Hp as [_ Hp], Hu as [_ Hu]. eauto.
Qed.

Lemma no_ipv4_group v rest : 0 <= v → group_ends rest → read_ipv4_addr (show_hex v ++ rest) = None.
Proof.
  intros Hv Hr. destruct (read_ipv4_addr _) as [[o rest']|] eqn:H4; [|done].
  apply alnum_then_dot in H4 as (u & s' & He & _ & Hu). apply alnum_run in He; [|by apply hex_loop_alnum|done|done|].
  - subst rest. simpl in Hr. done.
  - intros b r' ->. simpl in Hr. by subst b.
Qed.
Lemma no_ipv4_start s : group_ends s → read_ipv4_addr s = None.
Proof. destruct s as [|b s]; [done|]. simpl. by intros ->. Qed.

(** ** IPv6 *)

(** The groups of a chunk each behind a colon. *)
Definition colon_groups (chunk : list Z) : bytes := concat ((λ segment, COLON :: show_hex segment) <$> chunk).
Definition chunk_text (i : nat) (chunk : list Z) : bytes :=
  match i with O => fmt_subslice chunk | S _ => colon_groups chunk end.

(** A text at which [read_groups] stops: the end, or two colons. *)
Definition groups_end (rest : bytes) : Prop := rest = [] ∨ ∃ s, rest = COLON :: COLON :: s.

Lemma groups_end_group rest : groups_end rest → group_ends rest.
Proof. by intros [->|[s ->]]. Qed.
Lemma colon_groups_end chunk rest : group_ends rest → group_ends (colon_groups chunk ++ rest).
Proof. by destruct chunk. Qed.
Lemma group_ends_number rest : group_ends rest → number_ends 16 rest.
Proof. destruct rest as [|b rest]; [done|]. simpl. by intros ->. Qed.

Lemma read_colon s : read_given_char COLON (COLON :: s) = Some s.
Proof. done. Qed.
Lemma stops_here {A} (r : reader A) i rest : groups_end rest → (∀ s, group_ends s → r s = None) → read_separator COLON i r rest = None.
Proof.
  intros Hr Hn. destruct i; simpl; [by apply Hn, groups_end_group|]. destruct Hr as [->|[s ->]]; [done|].
  cbn [read_given_char]. rewrite Z.eqb_refl. cbn [mbind option_bind]. by apply Hn.
Qed.
Lemma behind_colon {A} (r : reader A) i g chunk rest :
  read_separator COLON i r (chunk_text i (g :: chunk) ++ rest) = r (show_hex g ++ colon_groups chunk ++ rest).
Proof.
  destruct i; simpl; unfold colon_groups; simpl; rewrite <-app_assoc; done.
Qed.
Lemma no_number s : group_ends s → read_number 16 U16_MAX 4 true s = None.
Proof. destruct s as [|b s]; [done|]. simpl. by intros ->. Qed.

Lemma read_groups_show limit fuel : ∀ i chunk rest, (length chunk ≤ fuel)%nat → Forall (λ g, 0 <= g <= U16_MAX) chunk →
  groups_end rest → read_groups limit i fuel (chunk_text i chunk ++ rest) = (chunk, false, rest).
Proof.
  induction fuel as [|fuel IH]; intros i [|g chunk] rest Hl Hg Hr; simpl in Hl; try lia.
  - by destruct i.
  - replace (chunk_text i [] ++ rest) with rest by (by destruct i). cbn [read_groups].
    rewrite (stops_here read_ipv4_addr) by (try done; apply no_ipv4_start).
    rewrite (stops_here (read_number 16 U16_MAX 4 true)) by (try done; apply no_number). by destruct (i <? limit - 1)%nat.
  - apply Forall_cons in Hg as [Hg Hgs]. cbn [read_groups]. rewrite !behind_colon.
    assert (group_ends (colon_groups chunk ++ rest)) as He by (by apply colon_groups_end, groups_end_group).
    rewrite no_ipv4_group, read_group_show; [|done|by apply group_ends_number|lia|done].
    pose proof (IH (S i) chunk rest ltac:(lia) Hgs Hr) as Hrest. cbn [chunk_text] in Hrest.
    destruct (i <? limit - 1)%nat; by rewrite Hrest.
Qed.

(** ** Runs of zeroes *)

Definition zero_span (segments : list Z) (s : Span) : Prop :=
  ∀ k, (span_start s ≤ k < span_start s + span_len s)%nat → segments !! k = Some 0.

Lemma zero_span_empty segments n : zero_span segments {| span_start := n; span_len := 0 |}.
Proof. intros k. simpl. lia. Qed.

Lemma longest_zeroes_span rest : ∀ done current longest,
  zero_span (done ++ rest) current → (span_len current ≠ 0 → span_start current + span_len current = length done)%nat →
  zero_span (done ++ rest) longest → zero_span (done ++ rest) (longest_zeroes rest (length done) current longest).
Proof.
  induction rest as [|segment rest IH]; intros pre current longest Hc He Hl; simpl; [done|].
  replace (S (length pre)) with (length (pre ++ [segment])) by (rewrite length_app; simpl; lia).
  rewrite cons_middle, app_assoc in Hc, Hl |- *.
  destruct (Z.eqb_spec segment 0) as [->|]; [|by apply IH; [apply zero_span_empty|done|done]].
  set (current' := {| span_start := if (span_len current =? 0)%nat then length pre else span_start current;
                      span_len := S (span_len current) |}).
  assert (zero_span ((pre ++ [0]) ++ rest) current') as Hc'.
  { intros k Hk. unfold current' in Hk. simpl in Hk. destruct (decide (k = length pre)) as [->|Hne].
    - rewrite <-app_assoc, lookup_app_r, Nat.sub_diag by done. done.
    - destruct (Nat.eqb_spec (span_len current) 0); [lia|]. apply Hc. specialize (He n). lia. }
  apply IH; [done| |by case_match].
  intros _. unfold current'. simpl. rewrite length_app. simpl. destruct (Nat.eqb_spec (span_len current) 0); [lia|].
  specialize (He n). lia.
Qed.

(** A span of zeroes may be left out of the list and put back. *)
Lemma zero_span_split segments s : zero_span segments s → span_len s ≠ 0%nat →
  (span_start s + span_len s ≤ length segments)%nat ∧
  segments = take (span_start s) segments ++ replicate (span_len s) 0 ++ drop (span_start s + span_len s) segments.
Proof.
  intros Hz Hl. assert (span_start s + span_len s ≤ length segments)%nat as Hb.
  { assert (is_Some (segments !! (span_start s + span_len s - 1)%nat)) as Hs%lookup_lt_is_Some by (rewrite Hz by lia; by eexists). lia. }
  split; [done|]. rewrite <-(take_drop (span_start s) segments) at 1. f_equal.
  rewrite <-(take_drop (span_len s) (drop (span_start s) segments)). rewrite drop_drop. f_equal.
  apply list_eq_same_length with (n := span_len s).
  - by rewrite length_replicate.
  - rewrite length_take, length_drop. lia.
  - intros i x y Hi. rewrite lookup_take_lt by done. rewrite lookup_drop, Hz by lia.
    intros [= <-] [<- _]%lookup_replicate. done.
Qed.

(** ** Round trip *)

Lemma read_ipv6_groups segments : length segments = 8%nat → Forall (λ g, 0 <= g <= U16_MAX) segments →
  read_ipv6_addr (fmt_subslice segments) = Some (segments, []).
Proof.
  intros Hl Hg. unfold read_ipv6_addr.
  pose proof (read_groups_show 8 8 0 segments [] ltac:(lia) Hg (or_introl eq_refl)) as Hr. cbn [chunk_text] in Hr.
  rewrite app_nil_r in Hr. rewrite Hr, Hl. done.
Qed.

Lemma read_ipv6_compressed before after zeroes : (length before + zeroes + length after = 8)%nat → (1 < zeroes)%nat →
  Forall (λ g, 0 <= g <= U16_MAX) before → Forall (λ g, 0 <= g <= U16_MAX) after →
  read_ipv6_addr (fmt_subslice before ++ lit "::" ++ fmt_subslice after) = Some (before ++ replicate zeroes 0 ++ after, []).
Proof.
  intros Hl Hz Hb Ha. unfold read_ipv6_addr.
  pose proof (read_groups_show 8 8 0 before (lit "::" ++ fmt_subslice after) ltac:(lia) Hb
    ltac:(right; by eexists)) as Hr. cbn [chunk_text] in Hr. rewrite Hr.
  destruct (Nat.eqb_spec (length before) 8); [lia|]. change (lit "::") with [COLON; COLON]. cbn [app].
  rewrite read_colon. cbn [mbind option_bind]. rewrite read_colon.
  pose proof (read_groups_show (8 - (length before + 1)) (8 - (length before + 1)) 0 after [] ltac:(lia) Ha (or_introl eq_refl)) as Hr'.
  cbn [chunk_text] in Hr'. rewrite app_nil_r in Hr'. cbn [mbind option_bind]. rewrite Hr'.
  by replace (8 - length before - length after)%nat with zeroes by lia.
Qed.

Lemma read_ipv6_mapped ab cd : 0 <= ab <= U16_MAX → 0 <= cd <= U16_MAX →
  read_ipv6_addr (lit "::ffff:" ++ Ipv4Addr_to_string [ab / 256; ab mod 256; cd / 256; cd mod 256]) =
  Some ([0; 0; 0; 0; 0; 65535; ab; cd], []).
Proof.
  intros Hab Hcd. unfold U16_MAX in *.
  set (text := Ipv4Addr_to_string _).
  assert (read_ipv4_addr text = Some ([ab / 256; ab mod 256; cd / 256; cd mod 256], [])) as H4.
  { rewrite <-(app_nil_r text). apply read_ipv4_show; [done| |done].
    pose proof (Z.mod_pos_bound ab 256). pose proof (Z.mod_pos_bound cd 256).
    pose proof (Z.div_pos ab 256). pose proof (Z.div_pos cd 256).
    pose proof (Z.div_lt_upper_bound ab 256 256). pose proof (Z.div_lt_upper_bound cd 256 256).
    unfold U8_MAX. repeat constructor; lia. }
  unfold read_ipv6_addr.
  change (lit "::ffff:" ++ text) with (COLON :: COLON :: show_hex 65535 ++ COLON :: text).
  pose proof (read_groups_show 8 8 0 [] (COLON :: COLON :: show_hex 65535 ++ COLON :: text) ltac:(simpl; lia) ltac:(constructor)
    ltac:(right; by eexists)) as Hr. cbn [chunk_text fmt_subslice app] in Hr. rewrite Hr.
  cbn [length Nat.eqb]. rewrite read_colon. cbn [mbind option_bind]. rewrite read_colon. cbn [mbind option_bind].
  change (8 - (0 + 1))%nat with 7%nat.
  assert (read_groups 7 0 7 (show_hex 65535 ++ COLON :: text) =
    ([65535; ab / 256 * 256 + ab mod 256; cd / 256 * 256 + cd mod 256], true, [])) as ->.
  { cbn [read_groups read_separator]. rewrite no_ipv4_group, read_group_show by (done || unfold U16_MAX; lia).
    rewrite read_colon. cbn [mbind option_bind]. by rewrite H4. }
  rewrite !(Z.mul_comm _ 256), <-!Z.div_mod by lia. done.
Qed.

Lemma read_ipv6_show segments : length segments = 8%nat → Forall (λ g, 0 <= g <= U16_MAX) segments →
  read_ipv6_addr (Ipv6Addr_to_string segments) = Some (segments, []).
Proof.
  intros Hl Hg. unfold Ipv6Addr_to_string. destruct (to_ipv4_mapped segments) as [ipv4|] eqn:Hm.
  - unfold to_ipv4_mapped in Hm. repeat case_match; simplify_eq. rewrite !Forall_cons in Hg. apply read_ipv6_mapped; tauto.
  - set (zeroes := longest_zeroes _ _ _ _).
    assert (zero_span segments zeroes) as Hz
      by (apply (longest_zeroes_span segments []); [apply zero_span_empty|done|apply zero_span_empty]).
    destruct (Nat.ltb_spec 1 (span_len zeroes)) as [Hlen|_]; [|by apply read_ipv6_groups].
    destruct (zero_span_split _ _ Hz) as [Hb He]; [lia|]. rewrite He at 3.
    apply read_ipv6_compressed; [|done|by apply Forall_take|by apply Forall_drop].
    rewrite length_take, length_drop. lia.
Qed.

(** No IPv6 address begins like an IPv4 one. *)
Lemma ipv6_not_ipv4 segments : length segments = 8%nat → Forall (λ g, 0 <= g <= U16_MAX) segments →
  read_ipv4_addr (Ipv6Addr_to_string segments) = None.
Proof.
  intros Hl Hg. assert (∀ chunk rest, Forall (λ g, 0 <= g <= U16_MAX) chunk → group_ends rest →
    read_ipv4_addr (fmt_subslice chunk ++ rest) = None) as Hchunk.
  { intros [|g chunk] rest Hc Hr; [by apply no_ipv4_start|]. apply Forall_cons in Hc as [Hg' _]. cbn [fmt_subslice].
    rewrite <-app_assoc. apply no_ipv4_group; [lia|]. by apply colon_groups_end. }
  unfold Ipv6Addr_to_string. destruct (to_ipv4_mapped segments); [done|]. case_match.
  - apply Hchunk; [by apply Forall_take|done].
  - rewrite <-(app_nil_r (fmt_subslice segments)). by apply Hchunk.
Qed.

(** Every address is read back from what it is displayed as: [from_str] of [to_string] is the
    address, with the longest run of zero groups written as two colons and an IPv4-mapped address
    with its last groups in dotted form. *)
Lemma ip_display_parses ip : IpAddr_ok ip → IpAddr_parse (IpAddr_to_string ip) = Some ip.
Proof.
  unfold IpAddr_parse, parse_all. destruct ip as [octets|segments]; intros [Hl Hr]; cbn [IpAddr_to_string].
  - pose proof (read_ipv4_show octets [] Hl Hr I) as H4. rewrite app_nil_r in H4. by rewrite H4.
  - by rewrite ipv6_not_ipv4, read_ipv6_show.
Qed.

(** ** What is read is an address *)

Lemma read_digits_bound radix max max_digits s : ∀ value count v c rest, 0 <= radix → 0 <= value <= max →
  read_digits radix max max_digits value count s = Some (v, c, rest) → 0 <= v <= max.
Proof.
  induction s as [|b s IH]; intros value count v c rest Hr Hv; simpl; [by intros [= <- <- <-]|].
  destruct (to_digit radix b) as [d|] eqn:Hd; [|by intros [= <- <- <-]].
  assert (0 <= d) by (unfold to_digit, is_ascii_digit, is_ascii_lowercase, is_ascii_uppercase in Hd; repeat case_match; simplify_eq; lia).
  destruct (Z.ltb_spec max (value * radix + d)); [done|]. case_match; [done|]. apply IH; [done|nia].
Qed.
Lemma read_number_bound radix max max_digits zero s v rest : 0 <= radix → 0 <= max →
  read_number radix max max_digits zero s = Some (v, rest) → 0 <= v <= max.
Proof.
  intros Hr Hm. unfold read_number. destruct (read_digits _ _ _ _ _ _) as [[[v' c] rest']|] eqn:Hd; [|done].
  apply read_digits_bound in Hd; [|lia|lia]. repeat case_match; try done. by intros [= <- <-].
Qed.
Lemma separator_bound {A} sep i (r : reader A) (P : A → Prop) s a rest :
  (∀ s a rest, r s = Some (a, rest) → P a) → read_separator sep i r s = Some (a, rest) → P a.
Proof. intros Hr. destruct i; simpl; [apply Hr|]. destruct (read_given_char sep s); simpl; [apply Hr|done]. Qed.

Lemma read_ipv4_ok s octets rest : read_ipv4_addr s = Some (octets, rest) → IpAddr_ok (V4 octets).
Proof.
  unfold read_ipv4_addr. intros Hr.
  assert (∀ i s a rest, read_separator DOT i read_octet s = Some (a, rest) → 0 <= a <= U8_MAX) as Ho.
  { intros i s' a rest'. apply (separator_bound _ _ _ (λ a, 0 <= a <= U8_MAX)). intros ? ? ?. by apply read_number_bound. }
  repeat match type of Hr with
  | (x ← ?r; _) = _ => destruct r as [[? ?]|] eqn:?; [cbn [mbind option_bind] in Hr|done]
  end. simplify_eq. simpl. split; [done|]. repeat constructor; by eapply Ho.
Qed.
Lemma read_groups_ok limit fuel : ∀ i s gs v4 rest, (i + fuel = limit)%nat → read_groups limit i fuel s = (gs, v4, rest) →
  (length gs ≤ fuel)%nat ∧ Forall (λ g, 0 <= g <= U16_MAX) gs.
Proof.
  induction fuel as [|fuel IH]; intros i s gs v4 rest Hi; simpl; [by intros [= <- <- <-]|].
  destruct (if (i <? limit - 1)%nat then _ else _) as [[octets rest']|] eqn:H4.
  - destruct (Nat.ltb_spec i (limit - 1)); [|done].
    apply (separator_bound _ _ _ (λ o, IpAddr_ok (V4 o))) in H4 as [Hl Ho]; [|intros ? ? ?; apply read_ipv4_ok].
    destruct octets as [|a [|b [|c [|d []]]]]; try done. rewrite !Forall_cons in Ho. intros [= <- _ _]. simpl. split; [lia|].
    unfold U8_MAX, U16_MAX in *. repeat constructor; lia.
  - destruct (read_separator COLON i (read_number 16 U16_MAX 4 true) s) as [[group rest']|] eqn:H6; [|by intros [= <- <- <-]; split; [simpl; lia|]].
    apply (separator_bound _ _ _ (λ g, 0 <= g <= U16_MAX)) in H6; [|intros ? ? ?; by apply read_number_bound].
    destruct (read_groups limit (S i) fuel rest') as [[gs' v4'] rest''] eqn:Hg. intros [= <- <- <-].
    apply IH in Hg as [Hl Hgs]; [|lia]. simpl. split; [lia|by constructor].
Qed.
Lemma IpAddr_parse_ok s ip : IpAddr_parse s = Some ip → IpAddr_ok ip.
Proof.
  unfold IpAddr_parse, parse_all. destruct (read_ipv4_addr s) as [[o rest]|] eqn:H4.
  { destruct rest; [|done]. intros [= <-]. by eapply read_ipv4_ok. }
  unfold read_ipv6_addr. destruct (read_groups 8 0 8 s) as [[gs v4] rest] eqn:Hg. apply read_groups_ok in Hg as [Hl Hgs]; [|done].
  destruct (Nat.eqb_spec (length gs) 8) as [H8|H8]; [simpl; destruct rest; [|done]; by intros [= <-]|].
  destruct v4; [done|]. destruct (read_given_char COLON rest) as [r1|]; [|done]. simpl.
  destruct (read_given_char COLON r1) as [r2|]; [|done]. cbn [mbind option_bind].
  destruct (read_groups (8 - (length gs + 1)) 0 (8 - (length gs + 1)) r2) as [[gs' v4'] rest'] eqn:Hg'.
  apply read_groups_ok in Hg' as [Hl' Hgs']; [|lia]. destruct rest'; [|done]. intros [= <-]. split.
  - rewrite !length_app, length_replicate. lia.
  - rewrite !Forall_app. split_and!; [done| |done]. apply Forall_replicate. done.
Qed.
