(* ===== verification/HostPattern.v ===== *)
(** * Host patterns of the passthrough and allow lists ([policy/src/pattern.rs])

    [HostPattern_parse] is the whole of [HostPattern::parse] with its error reasons,
    [HostPattern_matches] the byte-index comparison of [HostPattern::matches], and
    [HostPattern_to_string] the [Display] implementation. The theorems give the meaning of
    a pattern ([host_matches]), that [parse] only builds well-formed patterns, and that
    printing and parsing round-trip. *)
From S2P Require Import Prelude RustStr Collections.
#[local] Open Scope result_scope.

Record HostPattern := {
  hp_name : bytes;
  hp_wildcard : bool
}.
#[global] Instance HostPattern_eq_dec : EqDecision HostPattern.
Proof. solve_decision. Defined.

(** [PolicyError] of [policy/src/lib.rs]. *)
Inductive PolicyError :=
| PolicyError_Config (msg : bytes)
| InvalidPattern (pattern : bytes) (reason : string).

Definition host_byte (b : Z) : bool := is_ascii_alphanumeric b || (b =? 45) || (b =? 95).

(** A text in double quotes. *)
Definition quoted (s : string) : string :=
  let quote := String (ascii_of_nat 34) EmptyString in String.append quote (String.append s quote).

(** The loop of [validate_name] over the labels. *)
Fixpoint check_labels (labels : list bytes) : result unit string :=
  match labels with
  | [] => Ok tt
  | label :: rest =>
      if bool_decide (label = []) then Err "empty label"%string
      else if 63 <? len label then Err "label longer than 63 bytes"%string
      else if negb (forallb host_byte label)
      then Err "only letters, digits, '-', '_' and '.' are allowed"%string
      else check_labels rest
  end.

Definition validate_name (name : bytes) : result bytes string :=
  if 253 <? len name then Err "host name longer than 253 bytes"%string
  else let? _ := check_labels (split_on DOT name) in Ok (to_ascii_lowercase name).

Definition HostPattern_parse (s : bytes) : result HostPattern PolicyError :=
  let trimmed := trim s in
  let '(wildcard, rest) :=
    match strip_prefix (lit "*.") trimmed with
    | Some rest => (true, rest)
    | None => (false, trimmed)
    end in
  let rest := strip_suffix_or [DOT] rest in
  if bool_decide (rest = []) then Err (InvalidPattern s "empty host name")
  else if contains STAR rest
  then Err (InvalidPattern s (String.append "a wildcard is only allowed as a leading " (quoted "*.")))
  else let? name := map_err (InvalidPattern s) (validate_name rest) in
       Ok {| hp_name := name; hp_wildcard := wildcard |}.

Definition HostPattern_matches (self : HostPattern) (host : bytes) : bool :=
  let host := strip_suffix_or [DOT] host in
  let name := hp_name self in
  if len host =? len name then eq_ignore_ascii_case host name
  else if negb (hp_wildcard self) || (len host <=? len name) then false
  else
    let split := (length host - length name)%nat in
    bool_decide (host !! (split - 1)%nat = Some DOT) &&
    eq_ignore_ascii_case (drop split host) name.

Definition HostPattern_to_string (self : HostPattern) : bytes :=
  if hp_wildcard self then lit "*." ++ hp_name self else hp_name self.

(** ** Specification *)

(** A valid host name: at most 253 bytes, labels of 1 to 63 host bytes, no upper case. *)
Definition valid_label (label : bytes) : Prop :=
  label ≠ [] ∧ len label <= 63 ∧ Forall (λ b, host_byte b = true) label.
Definition valid_name (name : bytes) : Prop :=
  len name <= 253 ∧ Forall valid_label (split_on DOT name).
Definition HostPattern_wf (p : HostPattern) : Prop :=
  valid_name (hp_name p) ∧ to_ascii_lowercase (hp_name p) = hp_name p.

(** [key] (lowercase, no trailing dot) is [name], or under it when [wildcard] is set. *)
Definition host_covered (wildcard : bool) (name key : bytes) : Prop :=
  key = name ∨ (wildcard = true ∧ ∃ sub, key = sub ++ DOT :: name).
Definition host_matches (p : HostPattern) (host : bytes) : Prop :=
  host_covered (hp_wildcard p) (hp_name p) (to_ascii_lowercase (strip_suffix_or [DOT] host)).

(** * Lemmas *)

Lemma check_labels_Ok labels : check_labels labels = Ok tt ↔ Forall valid_label labels.
Proof.
  induction labels as [|label rest IH]; simpl; [by split; [constructor|]|].
  rewrite Forall_cons. unfold valid_label at 1.
  case_bool_decide as Hnil; [by split; [|intros [[]]]|].
  destruct (Z.ltb_spec 63 (len label)); [split; [done|intros [[]]; lia]|].
  destruct (forallb host_byte label) eqn:Hall; simpl.
  - rewrite IH. apply forallb_Forall in Hall. split; [|tauto].
    intros Hr. split; [|done]. split; [done|]. split; [lia|done].
  - split; [done|]. intros [(_ & _ & Hf) _]. exfalso.
    apply not_true_iff_false in Hall. by apply Hall, forallb_Forall.
Qed.

Lemma validate_name_Ok name out :
  validate_name name = Ok out ↔ valid_name name ∧ out = to_ascii_lowercase name.
Proof.
  unfold validate_name, valid_name. rewrite <-check_labels_Ok.
  destruct (Z.ltb_spec 253 (len name)); [split; [done|lia]|].
  destruct (check_labels _) as [[]|e]; simpl; naive_solver lia.
Qed.

Lemma host_byte_lower b : host_byte (lower1 b) = host_byte b.
Proof.
  unfold host_byte, lower1, is_ascii_alphanumeric, is_ascii_uppercase, is_ascii_lowercase,
    is_ascii_digit.
  case_match; lia.
Qed.

Lemma split_on_to_lower s :
  split_on DOT (to_ascii_lowercase s) = to_ascii_lowercase <$> split_on DOT s.
Proof.
  induction s as [|x s IH]; [done|]. csimpl.
  change (fmap lower1 s) with (to_ascii_lowercase s). rewrite IH.
  assert ((lower1 x =? DOT) = (x =? DOT)) as ->.
  { apply eq_true_iff_eq. rewrite !Z.eqb_eq. by apply lower1_eq_iff. }
  destruct (x =? DOT); [done|]. by destruct (split_on DOT s).
Qed.

Lemma valid_label_lower label : valid_label (to_ascii_lowercase label) ↔ valid_label label.
Proof.
  unfold valid_label, len. rewrite to_lower_nil_iff, length_to_lower.
  unfold to_ascii_lowercase. rewrite Forall_fmap. unfold compose.
  by setoid_rewrite host_byte_lower.
Qed.

Lemma valid_name_lower name : valid_name (to_ascii_lowercase name) ↔ valid_name name.
Proof.
  unfold valid_name, len. rewrite length_to_lower, split_on_to_lower, Forall_fmap.
  unfold compose. by setoid_rewrite valid_label_lower.
Qed.

(** The bytes of a valid name: host bytes and dots, so none of white space, [*] or [|]. *)
Lemma valid_name_bytes name :
  valid_name name → Forall (λ b, host_byte b = true ∨ b = DOT) name.
Proof.
  intros [_ Hl]. rewrite <-(join_split_on DOT name). apply Forall_join; [by right|].
  eapply Forall_impl; [done|]. intros w (_ & _ & Hw).
  eapply Forall_impl; [done|]. naive_solver.
Qed.

Lemma valid_name_nonnil name : valid_name name → name ≠ [].
Proof. intros [_ Hl] ->. by apply Forall_singleton in Hl as [[] _]. Qed.

(** A valid name does not end in a dot: its last label would be empty. *)
Lemma split_on_snoc c s : split_on c (s ++ [c]) = split_on c s ++ [[]].
Proof.
  induction s as [|x s IH]; simpl; [by rewrite Z.eqb_refl|].
  rewrite IH. destruct (x =? c); [done|].
  destruct (split_on c s) eqn:E; [by apply split_on_nonnil in E|done].
Qed.

Lemma valid_name_no_dot_end name : valid_name name → strip_suffix_or [DOT] name = name.
Proof.
  intros [_ Hl]. destruct (strip_suffix_or_cases [DOT] name) as [(r & -> & _)|[_ ?]]; [|done].
  rewrite split_on_snoc in Hl. apply Forall_app in Hl as [_ Hl].
  by apply Forall_singleton in Hl as [[] _].
Qed.

(** Printable ASCII is left alone by [trim]. *)
Definition graphic (b : Z) : Prop := 33 <= b <= 126.

Lemma strip_any_graphic ps x s :
  Forall (λ p, match p with [] => False | y :: _ => y ≠ x end) ps → strip_any ps (x :: s) = None.
Proof.
  induction 1 as [|p ps Hp Hps IH]; simpl; [done|].
  destruct p as [|y p]; [done|]. simpl. by rewrite (proj2 (Z.eqb_neq y x)) by done.
Qed.

Lemma trim_fuel_graphic ps fuel s :
  (∀ x, graphic x → Forall (λ p, match p with [] => False | y :: _ => y ≠ x end) ps) →
  Forall graphic s → trim_fuel ps fuel s = s.
Proof.
  intros Hps Hs. destruct fuel as [|fuel]; [done|]. simpl.
  destruct Hs as [|x s Hx Hs].
  - destruct (strip_any ps []) eqn:E; [|done]. exfalso.
    specialize (Hps 33 ltac:(unfold graphic; lia)). clear -E Hps.
    induction Hps as [|p ps Hp Hps IH]; simpl in *; [done|]. destruct p; [done|]. auto.
  - by rewrite strip_any_graphic by auto.
Qed.

Lemma trim_graphic s : Forall graphic s → trim s = s.
Proof.
  intros Hs. unfold trim, trim_start, trim_end.
  assert (∀ x, graphic x → ∀ ps, forallb (λ p, match p with [] => false | y :: _ =>
     (y <? 33) || (126 <? y) end) ps = true →
     Forall (λ p : bytes, match p with [] => False | y :: _ => y ≠ x end) ps) as Hgen.
  { unfold graphic. intros x Hx ps Hps. apply forallb_Forall in Hps.
    eapply Forall_impl; [done|]. intros [|y p]; simpl; [done|]. lia. }
  rewrite (trim_fuel_graphic white_space) by eauto.
  rewrite trim_fuel_graphic by (rewrite ?Forall_reverse; eauto).
  apply reverse_involutive.
Qed.

Lemma host_byte_graphic b : host_byte b = true ∨ b = DOT → graphic b ∧ b ≠ STAR.
Proof.
  unfold graphic, host_byte, is_ascii_alphanumeric, is_ascii_uppercase, is_ascii_lowercase,
    is_ascii_digit. lia.
Qed.

Lemma valid_name_graphic name : valid_name name → Forall graphic name ∧ STAR ∉ name.
Proof.
  intros Hn%valid_name_bytes. split.
  - eapply Forall_impl; [done|]. intros ??. by apply host_byte_graphic.
  - intros Hin. rewrite Forall_forall in Hn. by apply Hn, host_byte_graphic in Hin as [].
Qed.

(** ** Matching *)

(** Splitting a text [x ++ c :: y] at the length of its end. *)
Lemma drop_covered (h n : bytes) : (length n < length h)%nat →
  (h !! (length h - length n - 1)%nat = Some DOT ∧ drop (length h - length n) h = n) ↔
  ∃ sub, h = sub ++ DOT :: n.
Proof.
  intros Hlen. split.
  - intros [Hdot Hdrop]. exists (take (length h - length n - 1) h).
    replace (length h - length n)%nat with (S (length h - length n - 1)) in Hdrop by lia.
    rewrite <-Hdrop at 2. by rewrite take_drop_middle.
  - intros [sub ->]. rewrite length_app. simpl. split.
    + rewrite lookup_app_r by lia.
      replace (length sub + S (length n) - length n - 1 - length sub)%nat with 0%nat by lia. done.
    + rewrite drop_app_ge by lia.
      replace (length sub + S (length n) - length n - length sub)%nat with 1%nat by lia. done.
Qed.

Lemma matches_on_stripped w n h : to_ascii_lowercase n = n →
  (if len h =? len n then eq_ignore_ascii_case h n
   else if negb w || (len h <=? len n) then false
   else bool_decide (h !! (length h - length n - 1)%nat = Some DOT) &&
        eq_ignore_ascii_case (drop (length h - length n) h) n) = true ↔
  host_covered w n (to_ascii_lowercase h).
Proof.
  intros Hn. unfold host_covered, len.
  destruct (Z.eqb_spec (Z.of_nat (length h)) (Z.of_nat (length n))) as [Hl|Hl].
  { rewrite eq_ignore_case_spec, Hn. split; [by left|]. intros [?|(_ & sub & Heq)]; [done|].
    apply (f_equal length) in Heq. rewrite length_app, length_to_lower in Heq. simpl in Heq. lia. }
  destruct w; simpl; [|split; [done|]; intros [Heq|[? _]]; [|done];
    apply (f_equal length) in Heq; rewrite length_to_lower in Heq; lia].
  destruct (Z.leb_spec (Z.of_nat (length h)) (Z.of_nat (length n))) as [Hle|Hgt].
  { split; [done|]. intros [Heq|(_ & sub & Heq)]; apply (f_equal length) in Heq;
    rewrite ?length_app, length_to_lower in Heq; simpl in Heq; lia. }
  rewrite andb_true_iff, bool_decide_eq_true, eq_ignore_case_spec, Hn.
  rewrite <-drop_covered by (rewrite length_to_lower; lia).
  unfold to_ascii_lowercase. rewrite !length_fmap, list_lookup_fmap, <-fmap_drop.
  rewrite fmap_Some. split.
  - intros [Hd Hr]. right. split; [done|]. split; [|done]. by eexists.
  - intros [Heq|(_ & (x & Hx & Hd) & Hr)]; [|symmetry in Hd; by rewrite lower1_eq_iff in Hd; subst].
    apply (f_equal length) in Heq. rewrite length_fmap in Heq. lia.
Qed.

(** The byte-index comparison decides the meaning of the pattern. *)
Lemma HostPattern_matches_spec p host : to_ascii_lowercase (hp_name p) = hp_name p →
  HostPattern_matches p host = true ↔ host_matches p host.
Proof.
  intros Hn. unfold HostPattern_matches, host_matches. by apply matches_on_stripped.
Qed.

(** What [parse] accepts is well formed. *)
Lemma HostPattern_parse_wf s p : HostPattern_parse s = Ok p → HostPattern_wf p.
Proof.
  unfold HostPattern_parse.
  destruct (strip_prefix (lit "*.") (trim s)) as [rest|];
  (case_bool_decide; [done|]; case_match; [done|]);
  (destruct (validate_name _) as [n|e] eqn:E; simpl; [|done]);
  intros [= <-]; apply validate_name_Ok in E as [Hv ->];
  (split; simpl; [by apply valid_name_lower|apply to_lower_idem]).
Qed.

Lemma HostPattern_parse_rest w rest :
  valid_name rest →
  HostPattern_parse (if w : bool then lit "*." ++ rest else rest) =
  Ok {| hp_name := to_ascii_lowercase rest; hp_wildcard := w |}.
Proof.
  intros Hv. destruct (valid_name_graphic _ Hv) as [Hg Hs].
  unfold HostPattern_parse. rewrite trim_graphic.
  2: { destruct w; [|done]. apply Forall_app_2; [|done].
       repeat apply Forall_cons_2; [unfold graphic, byte_of_ascii; simpl; lia..|done]. }
  assert (match strip_prefix (lit "*.") (if w then lit "*." ++ rest else rest) with
          | Some r => (true, r) | None => (false, if w then lit "*." ++ rest else rest) end
          = (w, rest)) as ->.
  { destruct w; [by rewrite strip_prefix_app|].
    destruct (strip_prefix _ _) as [r|] eqn:E; [|done].
    apply strip_prefix_Some in E. subst rest. exfalso. apply Hs. simpl. by left. }
  rewrite valid_name_no_dot_end by done.
  rewrite bool_decide_eq_false_2 by (by apply valid_name_nonnil).
  rewrite (proj2 (contains_false _ _)) by done.
  rewrite (proj2 (validate_name_Ok rest _)) by done. done.
Qed.
