(* ===== verification/Policy.v ===== *)
(** * The interception decision and certificate pin learning ([policy/src/policy.rs])

    [Learning] is the state behind the policy's mutex, one field per field of the source.
    Every method that changes it is a function from a state to a state (and the method's
    result), the whole method with its guards and early returns in the source's order.
    Times are Unix seconds, [u64] values. Log calls have no effect on the state and are
    left out, except that [log_held_back] tells whether it wrote its line. Reading and
    writing the pins file goes through [serde_json], which is the class [PinsJson].

    This file holds the definitions; [PolicyFacts] and [PolicyTrace] prove the theorems. *)
From S2P Require Import Prelude RustStr Collections Net HostPattern Bundled.

(** ** Configuration ([policy/src/config.rs]) *)

Record DohUpstream := {
  doh_ip : IpAddr;
  doh_port : Z;
  doh_tls_name : bytes;
  doh_path : bytes
}.
Definition default_port : Z := 443.
Definition default_path : bytes := lit "/dns-query".
Definition DohUpstream_cloudflare : DohUpstream :=
  {| doh_ip := V4 [1; 1; 1; 1]; doh_port := 443;
     doh_tls_name := lit "cloudflare-dns.com"; doh_path := lit "/dns-query" |}.
Definition DohUpstream_quad9 : DohUpstream :=
  {| doh_ip := V4 [9; 9; 9; 9]; doh_port := 443;
     doh_tls_name := lit "dns.quad9.net"; doh_path := lit "/dns-query" |}.
Definition DohUpstream_cloudflare_v6 : DohUpstream :=
  {| doh_ip := V6 [0x2606; 0x4700; 0x4700; 0; 0; 0; 0; 0x1111]; doh_port := 443;
     doh_tls_name := lit "cloudflare-dns.com"; doh_path := lit "/dns-query" |}.
Definition DohUpstream_quad9_v6 : DohUpstream :=
  {| doh_ip := V6 [0x2620; 0xfe; 0; 0; 0; 0; 0; 0xfe]; doh_port := 443;
     doh_tls_name := lit "dns.quad9.net"; doh_path := lit "/dns-query" |}.

Record Config := {
  doh_upstreams : list DohUpstream;
  passthrough : list bytes;
  config_allowlist : list bytes;
  config_mitm_enabled : bool;
  max_intercepted_connections : Z
}.
Definition Config_default : Config :=
  {| doh_upstreams := [DohUpstream_cloudflare; DohUpstream_quad9;
                       DohUpstream_cloudflare_v6; DohUpstream_quad9_v6];
     passthrough := [];
     config_allowlist := [];
     config_mitm_enabled := true;
     max_intercepted_connections := 32 |}.

(** ** Constants *)

Definition REJECTION_WINDOW_SECS : Z := 10 * 60.
Definition PIN_LIFETIME_SECS : Z := 30 * 24 * 60 * 60.
Definition MAX_RECENT_REJECTIONS : nat := 1024.
Definition PINS_FORMAT_VERSION : Z := 1.
Definition UPSTREAM_BURST_HOSTS : nat := 3.
Definition UPSTREAM_BURST_SECS : Z := 60.
Definition UPSTREAM_SUPPRESS_SECS : Z := 10 * 60.
Definition UPSTREAM_RECENT_SECS : Z := 5 * 60.
Definition SILENT_REFUSALS : nat := 3.
Definition SILENT_FLOOD_SECS : Z := 60.
Definition SILENT_FLOOD_SECONDS : nat := 10.
Definition SILENT_FLOOD_RATIO : Z := 5.
Definition SILENT_HELD_BACK_LOG_SECS : Z := 5 * 60.
Definition SILENT_RECENT_SECS : Z := 60.
Definition SILENT_BURST_HOSTS : nat := 4.
Definition SILENT_BURST_SECS : Z := 10.
Definition SILENT_SUPPRESS_SECS : Z := 60.
Definition CLOCK_TOLERANCE_SECS : Z := 60 * 60.

(** ** Decisions *)

Inductive PassthroughReason :=
| MitmDisabled | User | BundledHost | LearnedPin | NotTls | Capacity | LowMemory.
Inductive Decision :=
| Intercept
| Passthrough (reason : PassthroughReason).
Inductive RejectionKind := UnknownCa | BadCertificate | CertificateUnknown | DecryptError.

(** ** Pattern sets: hash lookups on the host and its parents *)

Record PatternSet := {
  ps_exact : gset bytes;
  ps_suffix : gset bytes
}.
Definition PatternSet_add (set : PatternSet) (p : HostPattern) : PatternSet :=
  if hp_wildcard p
  then {| ps_exact := ps_exact set; ps_suffix := {[hp_name p]} ∪ ps_suffix set |}
  else {| ps_exact := {[hp_name p]} ∪ ps_exact set; ps_suffix := ps_suffix set |}.
Definition PatternSet_new (patterns : list HostPattern) : PatternSet :=
  foldl PatternSet_add {| ps_exact := ∅; ps_suffix := ∅ |} patterns.
Definition PatternSet_matches (self : PatternSet) (key : bytes) : bool :=
  if bool_decide (key ∈ ps_exact self) then true
  else if bool_decide (ps_suffix self = ∅) then false
  else existsb (λ s, bool_decide (s ∈ ps_suffix self)) (key :: after_each DOT key).

(** [BUNDLED_SET]: [expect] panics when a bundled pattern is invalid; the [Err] branch
    stands for that panic and [bundled_patterns_valid] shows it is never taken. *)
Definition BUNDLED_SET : PatternSet :=
  match collect_results HostPattern_parse bundled_passthrough with
  | Ok patterns => PatternSet_new patterns
  | Err _ => PatternSet_new []
  end.

Definition lookup_key (host : bytes) : bytes :=
  let host := strip_suffix_or [DOT] host in
  let host := default host (h ← strip_prefix (lit "[") host; strip_suffix (lit "]") h) in
  to_ascii_lowercase host.

(** ** Time windows *)

Definition within (at_ now max_age : Z) : bool :=
  (at_ <=? sat_add64 now CLOCK_TOLERANCE_SECS) && (sat_sub now at_ <=? max_age).
Definition pin_is_live (learned_at now : Z) : bool :=
  within learned_at now (PIN_LIFETIME_SECS - 1).

(** ** Connections counted per second *)

Abbreviation PerSecond := (list (Z * Z)).

(** [iter_mut().find(..)]: adds to the first entry for [now], or pushes a new one. *)
Fixpoint PerSecond_bump (now : Z) (l : PerSecond) : PerSecond :=
  match l with
  | [] => [(now, 1)]
  | (at_, count) :: l' =>
      if at_ =? now then (at_, sat_add32 count 1) :: l' else (at_, count) :: PerSecond_bump now l'
  end.
Definition PerSecond_add (self : PerSecond) (now : Z) : PerSecond :=
  PerSecond_bump now (vec_retain (λ e, within e.1 now SILENT_FLOOD_SECS) self).
Definition PerSecond_count (self : PerSecond) (now : Z) : Z * nat :=
  foldl (λ acc e, (sat_add32 acc.1 e.2, S acc.2)) (0, 0%nat)
    (vec_retain (λ e, within e.1 now SILENT_FLOOD_SECS) self).
Definition PerSecond_last (self : PerSecond) : Z := default 0 (iter_max self.*1).

Record Trusted := {
  trusted_last : Z;
  trusted_recent : PerSecond
}.

Record FloodCounts := {
  fc_refusals : Z;
  fc_seconds : nat;
  fc_handshakes : Z
}.
Definition FloodCounts_is_flood (self : FloodCounts) : bool :=
  (SILENT_FLOOD_SECONDS <=? fc_seconds self)%nat &&
  (fc_handshakes self * SILENT_FLOOD_RATIO <=? fc_refusals self).

(** ** Learning state *)

Record Learning := {
  (* Host to the time it became a pin. *)
  pins : gmap bytes Z;
  (* Host to the time of its last rejection that did not make it a pin. *)
  recent : gmap bytes Z;
  (* Pins learned from upstream failures, oldest first. *)
  upstream : list (bytes * Z);
  (* Upstream failures teach nothing before this time. *)
  upstream_suppressed_until : option Z;
  (* Host to the different seconds of its pending silent refusals. *)
  silent_pending : gmap bytes (list Z);
  (* Host to the time of its last silent refusal, to see a burst. *)
  silent_hosts : gmap bytes Z;
  (* Host to its silent refusals per second, to see a flood. *)
  silent_flood : gmap bytes PerSecond;
  (* Host to the handshakes clients completed with our certificate. *)
  trusted : gmap bytes Trusted;
  (* Host to the time its held-back refusals were last logged. *)
  held_back_logged : gmap bytes Z;
  (* Pins learned from silent refusals, oldest first. *)
  silent : list (bytes * Z);
  (* Silent refusals teach nothing before this time. *)
  silent_suppressed_until : option Z
}.
Definition Learning_default : Learning :=
  {| pins := ∅; recent := ∅; upstream := []; upstream_suppressed_until := None;
     silent_pending := ∅; silent_hosts := ∅; silent_flood := ∅; trusted := ∅;
     held_back_logged := ∅; silent := []; silent_suppressed_until := None |}.

(** Field assignments. *)
Definition set_pins (v : gmap bytes Z) (l : Learning) : Learning :=
  {| pins := v; recent := recent l;
     upstream := upstream l; upstream_suppressed_until := upstream_suppressed_until l;
     silent_pending := silent_pending l; silent_hosts := silent_hosts l;
     silent_flood := silent_flood l; trusted := trusted l;
     held_back_logged := held_back_logged l; silent := silent l;
     silent_suppressed_until := silent_suppressed_until l |}.
Definition set_recent (v : gmap bytes Z) (l : Learning) : Learning :=
  {| pins := pins l; recent := v;
     upstream := upstream l; upstream_suppressed_until := upstream_suppressed_until l;
     silent_pending := silent_pending l; silent_hosts := silent_hosts l;
     silent_flood := silent_flood l; trusted := trusted l;
     held_back_logged := held_back_logged l; silent := silent l;
     silent_suppressed_until := silent_suppressed_until l |}.
Definition set_upstream (v : list (bytes * Z)) (l : Learning) : Learning :=
  {| pins := pins l; recent := recent l;
     upstream := v; upstream_suppressed_until := upstream_suppressed_until l;
     silent_pending := silent_pending l; silent_hosts := silent_hosts l;
     silent_flood := silent_flood l; trusted := trusted l;
     held_back_logged := held_back_logged l; silent := silent l;
     silent_suppressed_until := silent_suppressed_until l |}.
Definition set_upstream_suppressed_until (v : option Z) (l : Learning) : Learning :=
  {| pins := pins l; recent := recent l;
     upstream := upstream l; upstream_suppressed_until := v;
     silent_pending := silent_pending l; silent_hosts := silent_hosts l;
     silent_flood := silent_flood l; trusted := trusted l;
     held_back_logged := held_back_logged l; silent := silent l;
     silent_suppressed_until := silent_suppressed_until l |}.
Definition set_silent_pending (v : gmap bytes (list Z)) (l : Learning) : Learning :=
  {| pins := pins l; recent := recent l;
     upstream := upstream l; upstream_suppressed_until := upstream_suppressed_until l;
     silent_pending := v; silent_hosts := silent_hosts l;
     silent_flood := silent_flood l; trusted := trusted l;
     held_back_logged := held_back_logged l; silent := silent l;
     silent_suppressed_until := silent_suppressed_until l |}.
Definition set_silent_hosts (v : gmap bytes Z) (l : Learning) : Learning :=
  {| pins := pins l; recent := recent l;
     upstream := upstream l; upstream_suppressed_until := upstream_suppressed_until l;
     silent_pending := silent_pending l; silent_hosts := v;
     silent_flood := silent_flood l; trusted := trusted l;
     held_back_logged := held_back_logged l; silent := silent l;
     silent_suppressed_until := silent_suppressed_until l |}.
Definition set_silent_flood (v : gmap bytes PerSecond) (l : Learning) : Learning :=
  {| pins := pins l; recent := recent l;
     upstream := upstream l; upstream_suppressed_until := upstream_suppressed_until l;
     silent_pending := silent_pending l; silent_hosts := silent_hosts l;
     silent_flood := v; trusted := trusted l;
     held_back_logged := held_back_logged l; silent := silent l;
     silent_suppressed_until := silent_suppressed_until l |}.
Definition set_trusted (v : gmap bytes Trusted) (l : Learning) : Learning :=
  {| pins := pins l; recent := recent l;
     upstream := upstream l; upstream_suppressed_until := upstream_suppressed_until l;
     silent_pending := silent_pending l; silent_hosts := silent_hosts l;
     silent_flood := silent_flood l; trusted := v;
     held_back_logged := held_back_logged l; silent := silent l;
     silent_suppressed_until := silent_suppressed_until l |}.
Definition set_held_back_logged (v : gmap bytes Z) (l : Learning) : Learning :=
  {| pins := pins l; recent := recent l;
     upstream := upstream l; upstream_suppressed_until := upstream_suppressed_until l;
     silent_pending := silent_pending l; silent_hosts := silent_hosts l;
     silent_flood := silent_flood l; trusted := trusted l;
     held_back_logged := v; silent := silent l;
     silent_suppressed_until := silent_suppressed_until l |}.
Definition set_silent (v : list (bytes * Z)) (l : Learning) : Learning :=
  {| pins := pins l; recent := recent l;
     upstream := upstream l; upstream_suppressed_until := upstream_suppressed_until l;
     silent_pending := silent_pending l; silent_hosts := silent_hosts l;
     silent_flood := silent_flood l; trusted := trusted l;
     held_back_logged := held_back_logged l; silent := v;
     silent_suppressed_until := silent_suppressed_until l |}.
Definition set_silent_suppressed_until (v : option Z) (l : Learning) : Learning :=
  {| pins := pins l; recent := recent l;
     upstream := upstream l; upstream_suppressed_until := upstream_suppressed_until l;
     silent_pending := silent_pending l; silent_hosts := silent_hosts l;
     silent_flood := silent_flood l; trusted := trusted l;
     held_back_logged := held_back_logged l; silent := silent l;
     silent_suppressed_until := v |}.

(** ** [impl Learning] *)

Definition take_back (l : Learning) (host : bytes) (at_ : Z) : Learning * bool :=
  if bool_decide (pins l !! host = Some at_)
  then (set_pins (delete host (pins l)) l, true)
  else (l, false).

(** The guard [Some(until) if now < until && until - now <= limit]. *)
Definition suppression_holds (until : option Z) (now limit : Z) : bool :=
  match until with
  | Some until => (now <? until) && (until - now <=? limit)
  | None => false
  end.
Definition upstream_suppressed (l : Learning) (now : Z) : Learning * bool :=
  if suppression_holds (upstream_suppressed_until l) now UPSTREAM_SUPPRESS_SECS
  then (l, true) else (set_upstream_suppressed_until None l, false).
Definition silent_suppressed (l : Learning) (now : Z) : Learning * bool :=
  if suppression_holds (silent_suppressed_until l) now SILENT_SUPPRESS_SECS
  then (l, true) else (set_silent_suppressed_until None l, false).

Section Ops.
Context `{HashOrder}.

(** [make_room]: at most [MAX_RECENT_REJECTIONS] hosts once one more is added. *)
Definition make_room {V} (fresh : V → bool) (last : V → Z) (map : gmap bytes V) : gmap bytes V :=
  if (size map <? MAX_RECENT_REJECTIONS)%nat then map
  else
    let map := retain (λ _ value, fresh value) map in
    if (size map <? MAX_RECENT_REJECTIONS)%nat then map
    else
      match min_by_key (λ kv, last kv.2) (hash_iter map) with
      | Some (oldest, _) => delete oldest map
      | None => map
      end.

Definition note_silent_host (l : Learning) (host : bytes) (now : Z) : Learning * nat :=
  let hosts := retain (λ _ at_, within at_ now SILENT_BURST_SECS) (silent_hosts l) in
  let hosts :=
    if bool_decide (is_Some (hosts !! host)) then hosts
    else make_room (λ _, true) (λ at_, at_) hosts in
  let hosts := <[host := now]> hosts in
  (set_silent_hosts hosts l, size hosts).

Definition count_for_flood (l : Learning) (host : bytes) (now : Z) : Learning * (Z * nat) :=
  let flood :=
    if bool_decide (is_Some (silent_flood l !! host)) then silent_flood l
    else make_room (λ refusals, (0 <? (PerSecond_count refusals now).2)%nat)
           PerSecond_last (silent_flood l) in
  let refusals := PerSecond_add (default [] (flood !! host)) now in
  (set_silent_flood (<[host := refusals]> flood) l, PerSecond_count refusals now).

Definition recent_handshakes (l : Learning) (host : bytes) (now : Z) : Z :=
  match trusted l !! host with
  | Some t => (PerSecond_count (trusted_recent t) now).1
  | None => 0
  end.

Definition learn_silent (l : Learning) (host : bytes) (now : Z) : Learning :=
  let l := set_silent_pending (delete host (silent_pending l)) l in
  let l := set_silent_flood (delete host (silent_flood l)) l in
  let l := set_recent (delete host (recent l)) l in
  let l := set_upstream (vec_retain (λ e, bool_decide (e.1 ≠ host)) (upstream l)) l in
  let l := set_silent (vec_retain (λ e, within e.2 now SILENT_RECENT_SECS) (silent l)) l in
  let l := set_silent (silent l ++ [(host, now)]) l in
  set_pins (<[host := now]> (pins l)) l.

(** The result tells whether the line was logged. *)
Definition log_held_back (l : Learning) (host : bytes) (counts : FloodCounts) (now : Z)
    : Learning * bool :=
  if (fc_seconds counts <? SILENT_REFUSALS)%nat then (l, false)
  else
    let logged := held_back_logged l !! host in
    let fresh := λ at_, within at_ now (SILENT_HELD_BACK_LOG_SECS - 1) in
    if match logged with Some at_ => fresh at_ | None => false end then (l, false)
    else
      let map :=
        match logged with
        | None => make_room fresh (λ at_, at_) (held_back_logged l)
        | Some _ => held_back_logged l
        end in
      (set_held_back_logged (<[host := now]> map) l, true).

(** The loop over [std::mem::take(&mut self.silent)]: an old entry is pushed back, a fresh
    one takes its pin back. *)
Fixpoint silent_burst_loop (entries : list (bytes * Z)) (l : Learning) (now : Z) : Learning :=
  match entries with
  | [] => l
  | (host, at_) :: rest =>
      if negb (within at_ now SILENT_BURST_SECS)
      then silent_burst_loop rest (set_silent (silent l ++ [(host, at_)]) l) now
      else silent_burst_loop rest (take_back l host at_).1 now
  end.
Definition silent_burst (l : Learning) (now : Z) : Learning :=
  let l := (silent_suppressed l now).1 in
  let entries := silent l in
  let l := silent_burst_loop entries (set_silent [] l) now in
  let l := set_silent_pending ∅ l in
  let l := set_silent_flood ∅ l in
  set_silent_suppressed_until (Some (sat_add64 now SILENT_SUPPRESS_SECS)) l.

(** ** [impl Policy]: the methods that change the learning state *)

(** The eviction of [record_client_rejection], written inline there. *)
Definition make_room_recent (map : gmap bytes Z) (now : Z) : gmap bytes Z :=
  let map :=
    if (MAX_RECENT_REJECTIONS <=? size map)%nat
    then retain (λ _ at_, within at_ now REJECTION_WINDOW_SECS) map else map in
  if (MAX_RECENT_REJECTIONS <=? size map)%nat
  then match min_by_key (λ kv, kv.2) (hash_iter map) with
       | Some (oldest, _) => delete oldest map
       | None => map
       end
  else map.

Definition prune_pins (l : Learning) (now : Z) : Learning :=
  set_pins (retain (λ _ at_, pin_is_live at_ now) (pins l)) l.

Definition record_client_rejection (l : Learning) (host : bytes) (kind : RejectionKind) (now : Z)
    : Learning * bool :=
  let key := lookup_key host in
  if bool_decide (key = []) then (l, false)
  else
    let l := prune_pins l now in
    if bool_decide (is_Some (pins l !! key)) then (l, false)
    else
      match recent l !! key with
      | Some previous =>
          if within previous now REJECTION_WINDOW_SECS then
            let l := set_recent (delete key (recent l)) l in
            let l := set_silent_pending (delete key (silent_pending l)) l in
            let l := set_silent_flood (delete key (silent_flood l)) l in
            let l := set_upstream (vec_retain (λ e, bool_decide (e.1 ≠ key)) (upstream l)) l in
            let l := set_silent (vec_retain (λ e, bool_decide (e.1 ≠ key)) (silent l)) l in
            (set_pins (<[key := now]> (pins l)) l, true)
          else (set_recent (<[key := now]> (make_room_recent (recent l) now)) l, false)
      | None => (set_recent (<[key := now]> (make_room_recent (recent l) now)) l, false)
      end.

Definition take_back_all (entries : list (bytes * Z)) (l : Learning) : Learning :=
  foldl (λ l e, (take_back l e.1 e.2).1) l entries.

Definition learn_upstream_untrusted (l : Learning) (host : bytes) (now : Z) : Learning * bool :=
  let key := lookup_key host in
  if bool_decide (key = []) then (l, false)
  else
    let l := prune_pins l now in
    if bool_decide (is_Some (pins l !! key)) then (l, false)
    else
      let '(l, suppressed) := upstream_suppressed l now in
      if suppressed then (l, false)
      else
        let l := set_upstream
                   (vec_retain (λ e, within e.2 now UPSTREAM_RECENT_SECS) (upstream l)) l in
        let burst := vec_retain (λ e, within e.2 now UPSTREAM_BURST_SECS) (upstream l) in
        let hosts : gset bytes := list_to_set burst.*1 in
        if (UPSTREAM_BURST_HOSTS <=? size hosts + 1)%nat then
          let l := take_back_all burst l in
          let l := set_upstream
                     (vec_retain (λ e, negb (within e.2 now UPSTREAM_BURST_SECS)) (upstream l)) l in
          (set_upstream_suppressed_until (Some (wrap64 (now + UPSTREAM_SUPPRESS_SECS))) l, false)
        else
          let l := set_recent (delete key (recent l)) l in
          let l := set_silent_pending (delete key (silent_pending l)) l in
          let l := set_silent_flood (delete key (silent_flood l)) l in
          let l := set_pins (<[key := now]> (pins l)) l in
          (set_upstream (upstream l ++ [(key, now)]) l, true).

Definition record_silent_refusal (l : Learning) (host : bytes) (now : Z) : Learning * bool :=
  let key := lookup_key host in
  if bool_decide (key = []) then (l, false)
  else
    let l := prune_pins l now in
    if bool_decide (is_Some (pins l !! key)) then (l, false)
    else
      let '(l, hosts) := note_silent_host l key now in
      if (SILENT_BURST_HOSTS <=? hosts)%nat then (silent_burst l now, false)
      else
        let '(l, suppressed) := silent_suppressed l now in
        if suppressed then (l, false)
        else
          let '(l, (refusals, seconds)) := count_for_flood l key now in
          let guarded :=
            match trusted l !! key with
            | Some t => within (trusted_last t) now REJECTION_WINDOW_SECS
            | None => false
            end in
          if guarded then
            let l := set_silent_pending (delete key (silent_pending l)) l in
            let counts := {| fc_refusals := refusals; fc_seconds := seconds;
                             fc_handshakes := recent_handshakes l key now |} in
            if negb (FloodCounts_is_flood counts)
            then ((log_held_back l key counts now).1, false)
            else (learn_silent l key now, true)
          else
            let pending :=
              if bool_decide (is_Some (silent_pending l !! key)) then silent_pending l
              else make_room
                     (λ seconds, existsb (λ at_, within at_ now REJECTION_WINDOW_SECS) seconds)
                     (λ seconds, default 0 (iter_max seconds)) (silent_pending l) in
            let seconds := vec_retain (λ at_, within at_ now REJECTION_WINDOW_SECS)
                             (default [] (pending !! key)) in
            if bool_decide (now ∈ seconds)
            then (set_silent_pending (<[key := seconds]> pending) l, false)
            else
              let seconds := seconds ++ [now] in
              let l := set_silent_pending (<[key := seconds]> pending) l in
              if (length seconds <? SILENT_REFUSALS)%nat then (l, false)
              else (learn_silent l key now, true).

Definition record_intercepted_handshake (l : Learning) (host : bytes) (now : Z) : Learning :=
  let key := lookup_key host in
  if bool_decide (key = []) then l
  else
    let l := set_silent_pending (delete key (silent_pending l)) l in
    let map :=
      if bool_decide (is_Some (trusted l !! key)) then trusted l
      else make_room (λ t, within (trusted_last t) now REJECTION_WINDOW_SECS)
             trusted_last (trusted l) in
    let recent := match map !! key with Some t => trusted_recent t | None => [] end in
    set_trusted (<[key := {| trusted_last := now; trusted_recent := PerSecond_add recent now |}]> map) l.

(** The loop over [std::mem::take(..)]: every fresh entry takes its pin back. *)
Definition take_back_recent (window : Z) (entries : list (bytes * Z)) (l : Learning) (now : Z)
    : Learning :=
  foldl (λ l e, if within e.2 now window then (take_back l e.1 e.2).1 else l) l entries.
Definition on_network_change (l : Learning) (now : Z) : Learning :=
  let l := take_back_recent UPSTREAM_RECENT_SECS (upstream l) (set_upstream [] l) now in
  let l := take_back_recent SILENT_RECENT_SECS (silent l) (set_silent [] l) now in
  let l := set_silent_pending ∅ l in
  let l := set_silent_flood ∅ l in
  set_silent_hosts ∅ l.

Definition forget_pin (l : Learning) (host : bytes) : Learning * bool :=
  let key := lookup_key host in
  let removed := bool_decide (is_Some (pins l !! key)) in
  let l := set_pins (delete key (pins l)) l in
  let l := set_recent (delete key (recent l)) l in
  let l := set_silent_pending (delete key (silent_pending l)) l in
  let l := set_silent_flood (delete key (silent_flood l)) l in
  let l := set_upstream (vec_retain (λ e, bool_decide (e.1 ≠ key)) (upstream l)) l in
  (set_silent (vec_retain (λ e, bool_decide (e.1 ≠ key)) (silent l)) l, removed).
Definition forget_pins (l : Learning) (hosts : list bytes) : Learning * nat :=
  foldl (λ acc host,
           let '(l, removed) := forget_pin acc.1 host in
           (l, (acc.2 + (if removed then 1 else 0))%nat))
    (l, 0%nat) hosts.
End Ops.

(** ** The pins file *)

Record PinEntry := {
  pin_host : bytes;
  pin_learned_at : Z
}.
Record PinsFile := {
  pins_version : Z;
  pins_entries : list PinEntry
}.

(** The version is a [u32] and the times are [u64]. *)
Definition PinsFile_ok (f : PinsFile) : Prop :=
  0 <= pins_version f <= U32_MAX ∧ Forall (λ e, 0 <= pin_learned_at e <= U64_MAX) (pins_entries f).

(** [serde_json::to_string] and [from_str] for the derived [PinsFile] implementations:
    reading back what was written gives the same value, and what is read has the Rust type.
    [ConfigJson] gives the instance made of the derived implementations. *)
Class PinsJson := {
  pins_to_json : PinsFile → bytes;
  pins_from_json : bytes → option PinsFile;
  pins_json_roundtrip f : PinsFile_ok f → pins_from_json (pins_to_json f) = Some f;
  pins_json_ok s f : pins_from_json s = Some f → PinsFile_ok f
}.

(** The order of [Vec<(String, u64)>::sort]. *)
Definition pin_le (a b : bytes * Z) : Prop :=
  a.1 ≠ b.1 ∧ bytes_le a.1 b.1 ∨ a.1 = b.1 ∧ a.2 <= b.2.
#[global] Instance pin_le_dec : RelDecision pin_le.
Proof. intros a b. unfold pin_le. apply _. Defined.

Section Json.
Context `{PinsJson}.

Definition learned_pins `{HashOrder} (l : Learning) : list (bytes * Z) :=
  merge_sort pin_le (hash_iter (pins l)).
Definition learned_pins_json `{HashOrder} (l : Learning) : bytes :=
  pins_to_json
    {| pins_version := PINS_FORMAT_VERSION;
       pins_entries := (λ p, {| pin_host := p.1; pin_learned_at := p.2 |}) <$> learned_pins l |}.

(** [iter.collect::<HashMap<_, _>>()]: a later entry replaces an earlier one. *)
Definition collect_map (entries : list (bytes * Z)) : gmap bytes Z :=
  foldl (λ m e, <[e.1 := e.2]> m) ∅ entries.
Definition parse_pins (json : bytes) : gmap bytes Z :=
  match pins_from_json json with
  | Some file =>
      if pins_version file =? PINS_FORMAT_VERSION
      then collect_map (filter (λ e, e.1 ≠ [])
             ((λ p, (lookup_key (pin_host p), pin_learned_at p)) <$> pins_entries file))
      else ∅
  | None => ∅
  end.
End Json.

(** ** The policy *)

Record Policy := {
  mitm_enabled : bool;
  user : PatternSet;
  allowlist : PatternSet;
  learning : Learning
}.

Definition parse_patterns (patterns : list bytes) : result (list HostPattern) PolicyError :=
  collect_results HostPattern_parse patterns.

Definition Policy_new `{PinsJson} (config : Config) (learned_pins_json : option bytes)
    : result Policy PolicyError :=
  (let? user := parse_patterns (passthrough config) in
   let? allowlist := parse_patterns (config_allowlist config) in
   let pins := match learned_pins_json with Some json => parse_pins json | None => ∅ end in
   Ok {| mitm_enabled := config_mitm_enabled config;
         user := PatternSet_new user;
         allowlist := PatternSet_new allowlist;
         learning := set_pins pins Learning_default |})%result.

Definition classify (self : Policy) (host : bytes) (now : Z) : Decision :=
  if negb (mitm_enabled self) then Passthrough MitmDisabled
  else
    let key := lookup_key host in
    if PatternSet_matches (user self) key then Passthrough User
    else if PatternSet_matches BUNDLED_SET key then Passthrough BundledHost
    else
      match pins (learning self) !! key with
      | Some at_ => if pin_is_live at_ now then Passthrough LearnedPin else Intercept
      | None => Intercept
      end.

Definition is_allowlisted (self : Policy) (host : bytes) : bool :=
  let key := lookup_key host in
  negb (bool_decide (key = [])) && PatternSet_matches (allowlist self) key.
