(* ===== verification/ConfigJson.v ===== *)
(** * The configuration and the pins as JSON ([policy/src/config.rs], [PinsFile] of [policy.rs])

    The files the app and the tunnel share are JSON, read and written by derived [serde]
    implementations through [serde_json]. A text is taken to the value it spells by the class
    [SerdeJson]; how a value becomes a Rust type, and back, is the class [Serde], with an instance
    for each type of the files.

    The derived [Serialize] and [Deserialize] of [Config], [DohUpstream], [PinsFile] and
    [PinEntry] as instances of [Serde], with [Config::from_json] and [Config::to_json]. A struct is
    read from an object, its fields in any order and at most once each, or from an array with its
    fields in order; a field marked [default] may be missing and an unknown one is skipped. *)
From S2P Require Import Prelude RustStr Collections Net HostPattern Policy.

(** * Values and serde *)

(** ** Values *)

#[local] Unset Elimination Schemes.
(** What a JSON text spells: the entries of an object in their order, repeated keys included; an
    integer as its value and any other number as its text. *)
Inductive Json :=
| JNull
| JBool (b : bool)
| JInt (n : Z)
| JFloat (text : bytes)
| JString (s : bytes)
| JArray (items : list Json)
| JObject (entries : list (bytes * Json)).

#[local] Set Elimination Schemes.
(** Values that have no number but integers of 64 bits. *)
Fixpoint json_ok (v : Json) : Prop :=
  match v with
  | JNull | JBool _ | JString _ => True
  | JInt n => - 2 ^ 63 <= n <= U64_MAX
  | JFloat _ => False
  | JArray items => foldr (λ v P, json_ok v ∧ P) True items
  | JObject entries => foldr (λ e P, json_ok e.2 ∧ P) True entries
  end.

(** Why a value is not of the type asked for. *)
Inductive DeError :=
| InvalidType
| InvalidValue
| InvalidLength (given : nat)
| MissingField (name : bytes)
| DuplicateField (name : bytes)
| TrailingCharacters
| CustomError.

(** [serde_json]: the value of a text or why it spells none, both ways of writing a value, and the
    message of an error, which names its place in the text. What is written is read back. *)
Class SerdeJson := {
  json_parse : bytes → result Json bytes;
  json_to_string : Json → bytes;
  json_to_string_pretty : Json → bytes;
  json_message : bytes → DeError → bytes;
  json_compact v : json_ok v → json_parse (json_to_string v) = Ok v;
  json_pretty v : json_ok v → json_parse (json_to_string_pretty v) = Ok v
}.

(** ** Types *)

(** [Serialize] and [Deserialize] of a type; [representable] are the values the Rust type has. *)
Class Serde (A : Type) := {
  representable : A → Prop;
  serialize : A → Json;
  deserialize : Json → result A DeError;
  serialize_ok x : representable x → json_ok (serialize x);
  deserialize_serialize x : representable x → deserialize (serialize x) = Ok x;
  deserialize_representable v x : deserialize v = Ok x → representable x
}.

Section FromStr.
Context `{SerdeJson, Serde A}.

(** [serde_json::from_str], [to_string] and [to_string_pretty]. *)
Definition from_str (s : bytes) : result A bytes :=
  match json_parse s with
  | Err e => Err e
  | Ok v => match deserialize v with Ok x => Ok x | Err e => Err (json_message s e) end
  end.
Definition to_string (x : A) : bytes := json_to_string (serialize x).
Definition to_string_pretty (x : A) : bytes := json_to_string_pretty (serialize x).

Lemma from_str_to_string x : representable x → from_str (to_string x) = Ok x.
Proof.
  intros Hx. unfold from_str, to_string. rewrite json_compact by (by apply serialize_ok).
  by rewrite deserialize_serialize.
Qed.
Lemma from_str_to_string_pretty x : representable x → from_str (to_string_pretty x) = Ok x.
Proof.
  intros Hx. unfold from_str, to_string_pretty. rewrite json_pretty by (by apply serialize_ok).
  by rewrite deserialize_serialize.
Qed.
Lemma from_str_representable s x : from_str s = Ok x → representable x.
Proof.
  unfold from_str. destruct (json_parse s) as [v|]; [|done]. destruct (deserialize v) as [y|] eqn:Hv; [|done].
  intros [= <-]. by eapply deserialize_representable.
Qed.
End FromStr.

(** ** The types of the standard library *)

#[refine] Instance bool_serde : Serde bool := {|
  representable _ := True;
  serialize := JBool;
  deserialize v := match v with JBool b => Ok b | _ => Err InvalidType end
|}.
Proof. all: done. Defined.

#[refine] Instance string_serde : Serde bytes := {|
  representable _ := True;
  serialize := JString;
  deserialize v := match v with JString s => Ok s | _ => Err InvalidType end
|}.
Proof. all: done. Defined.

(** An unsigned integer up to [max]. *)
Definition deserialize_unsigned (max : Z) (v : Json) : result Z DeError :=
  match v with
  | JInt n => if (0 <=? n) && (n <=? max) then Ok n else Err InvalidValue
  | _ => Err InvalidType
  end.
Lemma deserialize_unsigned_Ok max v n : deserialize_unsigned max v = Ok n ↔ v = JInt n ∧ 0 <= n <= max.
Proof.
  unfold deserialize_unsigned. destruct v; try naive_solver.
  destruct (Z.leb_spec 0 n0), (Z.leb_spec n0 max); simpl; naive_solver lia.
Qed.
#[refine] Definition unsigned_serde (max : Z) (Hmax : max <= U64_MAX) : Serde Z := {|
  representable n := 0 <= n <= max;
  serialize := JInt;
  deserialize := deserialize_unsigned max
|}.
Proof.
  - simpl. lia.
  - intros n Hn. by apply deserialize_unsigned_Ok.
  - by intros v n [_ Hn]%deserialize_unsigned_Ok.
Defined.
Definition u16_serde : Serde Z := unsigned_serde U16_MAX ltac:(done).
Definition u32_serde : Serde Z := unsigned_serde U32_MAX ltac:(done).
Definition u64_serde : Serde Z := unsigned_serde U64_MAX ltac:(done).

(** [IpAddr], through [Display] and [FromStr]. *)
#[refine] Instance ip_serde : Serde IpAddr := {|
  representable := IpAddr_ok;
  serialize ip := JString (IpAddr_to_string ip);
  deserialize v :=
    match v with
    | JString s => match IpAddr_parse s with Some ip => Ok ip | None => Err CustomError end
    | _ => Err InvalidType
    end
|}.
Proof.
  - done.
  - intros ip Hip. by rewrite ip_display_parses.
  - intros [] ip; try done. destruct (IpAddr_parse s) eqn:Hs; [|done]. intros [= <-]. by eapply IpAddr_parse_ok.
Defined.

(** [Vec<T>] *)
Section Vec.
Context `{Serde A}.

Definition deserialize_vec (v : Json) : result (list A) DeError :=
  match v with
  | JArray items => collect_results deserialize items
  | _ => Err InvalidType
  end.
#[refine] #[global] Instance vec_serde : Serde (list A) := {|
  representable := Forall representable;
  serialize l := JArray (serialize <$> l);
  deserialize := deserialize_vec
|}.
Proof using Type*.
  - intros l Hl. simpl. induction Hl as [|x l Hx _ IH]; simpl; [done|]. split; [by apply serialize_ok|done].
  - intros l Hl. simpl. apply collect_results_Ok. induction Hl; simpl; constructor; [by apply deserialize_serialize|done].
  - intros [] l; try done. simpl. intros Hl%collect_results_Ok.
    induction Hl; constructor; [by eapply deserialize_representable|done].
Defined.
End Vec.

(** ** Derived implementations of structs *)

(** A field that a derived visitor fills: at most once. *)
Definition set_once {A} (name : bytes) (old : option A) (value : result A DeError) : result (option A) DeError :=
  match old with
  | Some _ => Err (DuplicateField name)
  | None => match value with Ok x => Ok (Some x) | Err e => Err e end
  end.
(** The values of a field among the entries of an object. *)
Definition values_of (name : bytes) (entries : list (bytes * Json)) : list Json :=
  (filter (λ e, e.1 = name) entries).*2.
(** What the entries of an object say of a field: nothing, or one value of its type. *)
Definition field_is {A} (de : Json → result A DeError) (name : bytes) (entries : list (bytes * Json)) (o : option A) : Prop :=
  (values_of name entries = [] ∧ o = None) ∨ (∃ v x, values_of name entries = [v] ∧ de v = Ok x ∧ o = Some x).
(** The same from what was read already. *)
Definition field_from {A} (de : Json → result A DeError) (name : bytes) (old : option A) (entries : list (bytes * Json))
    (o : option A) : Prop :=
  match old with
  | Some _ => values_of name entries = [] ∧ o = old
  | None => field_is de name entries o
  end.

Lemma field_from_nil {A} (de : Json → result A DeError) name old o : field_from de name old [] o ↔ o = old.
Proof. unfold field_from, field_is. destruct old; naive_solver. Qed.

Lemma values_of_here name v entries : values_of name ((name, v) :: entries) = v :: values_of name entries.
Proof. unfold values_of. by rewrite filter_cons_True. Qed.
Lemma values_of_other name name' v entries : name' ≠ name → values_of name ((name', v) :: entries) = values_of name entries.
Proof. intros Hne. unfold values_of. by rewrite filter_cons_False. Qed.

Lemma field_from_other {A} (de : Json → result A DeError) name name' v old entries o : name' ≠ name →
  field_from de name old ((name', v) :: entries) o ↔ field_from de name old entries o.
Proof. intros Hne. unfold field_from, field_is. by rewrite values_of_other. Qed.
Lemma field_from_here {A} (de : Json → result A DeError) name v old entries o :
  field_from de name old ((name, v) :: entries) o ↔
  ∃ x, set_once name old (de v) = Ok x ∧ field_from de name x entries o.
Proof.
  unfold field_from, field_is, set_once. rewrite values_of_here. destruct old; [split; [by intros [? _]|by intros (? & ? & _)]|].
  split.
  - intros [[? ?]|(v' & x & [= -> Hn] & Hx & ->)]; [done|]. exists (Some x). by rewrite Hx.
  - destruct (de v) as [x|] eqn:Hv; [|by intros (? & ? & _)]. intros (x' & [= <-] & Hn & ->). right. exists v, x. by rewrite Hn.
Qed.

(** The next element of a sequence, [None] at its end. *)
Definition next_element {A} (de : Json → result A DeError) (items : list Json) : result (option A * list Json) DeError :=
  match items with
  | [] => Ok (None, [])
  | v :: rest => match de v with Ok x => Ok (Some x, rest) | Err e => Err e end
  end.
(** [end_seq] *)
Definition end_seq {A} (items : list Json) (x : A) : result A DeError :=
  match items with [] => Ok x | _ => Err TrailingCharacters end.

(** ** An instance to run the model with

    A value as one number: the code of its tree. *)
Section Tree.
Definition leaf : Type := unit + bool + Z + bytes + bytes.
Fixpoint to_tree (v : Json) : gen_tree leaf :=
  match v with
  | JNull => GenLeaf (inl (inl (inl (inl tt))))
  | JBool b => GenLeaf (inl (inl (inl (inr b))))
  | JInt n => GenLeaf (inl (inl (inr n)))
  | JFloat text => GenLeaf (inl (inr text))
  | JString s => GenLeaf (inr s)
  | JArray items => GenNode 0 (to_tree <$> items)
  | JObject entries => GenNode 1 ((λ e, GenNode 2 [GenLeaf (inr e.1); to_tree e.2]) <$> entries)
  end.
Definition of_entry (of_tree : gen_tree leaf → option Json) (t : gen_tree leaf) : option (bytes * Json) :=
  match t with GenNode 2 [GenLeaf (inr key); t] => v ← of_tree t; Some (key, v) | _ => None end.
Fixpoint of_tree (fuel : nat) (t : gen_tree leaf) : option Json :=
  match fuel with
  | O => None
  | S fuel =>
      match t with
      | GenLeaf (inl (inl (inl (inl _)))) => Some JNull
      | GenLeaf (inl (inl (inl (inr b)))) => Some (JBool b)
      | GenLeaf (inl (inl (inr n))) => Some (JInt n)
      | GenLeaf (inl (inr text)) => Some (JFloat text)
      | GenLeaf (inr s) => Some (JString s)
      | GenNode 0 ts => JArray <$> mapM (of_tree fuel) ts
      | GenNode 1 ts => JObject <$> mapM (of_entry (of_tree fuel)) ts
      | _ => None
      end
  end.

Fixpoint depth (v : Json) : nat :=
  match v with
  | JArray items => S (foldr (λ v n, Nat.max (depth v) n) 0%nat items)
  | JObject entries => S (foldr (λ e n, Nat.max (depth e.2) n) 0%nat entries)
  | _ => 1
  end.
Lemma of_to_tree fuel : ∀ v, (depth v ≤ fuel)%nat → of_tree fuel (to_tree v) = Some v.
Proof.
  induction fuel as [|fuel IH]; intros [] Hd; simpl in *; try done; try lia.
  - assert (mapM (of_tree fuel) (to_tree <$> items) = Some items) as ->; [|done].
    apply mapM_Some. revert Hd. induction items as [|v items IHi]; simpl; intros Hd; constructor; [apply IH; lia|apply IHi; lia].
  - assert (mapM (of_entry (of_tree fuel)) ((λ e, GenNode 2 [GenLeaf (inr e.1); to_tree e.2]) <$> entries) = Some entries) as ->; [|done].
    apply mapM_Some. revert Hd. induction entries as [|[k v] entries IHe]; simpl; intros Hd; constructor; [|apply IHe; lia].
    simpl. rewrite IH by lia. done.
Qed.

Definition tree_text (v : Json) : bytes := [Z.of_nat (depth v); Zpos (encode (to_tree v))].
Definition tree_parse (s : bytes) : result Json bytes :=
  match s with
  | [n; Zpos p] => match decode p ≫= of_tree (Z.to_nat n) with Some v => Ok v | None => Err (lit "expected value") end
  | _ => Err (lit "expected value")
  end.
Lemma tree_parse_text v : tree_parse (tree_text v) = Ok v.
Proof. unfold tree_parse, tree_text. rewrite decode_encode. simpl. by rewrite Nat2Z.id, of_to_tree. Qed.
#[refine] Definition tree_json : SerdeJson := {|
  json_parse := tree_parse;
  json_to_string := tree_text;
  json_to_string_pretty := tree_text;
  json_message s e := lit "invalid value"
|}.
Proof. all: intros v _; apply tree_parse_text. Defined.
End Tree.

(** * The configuration and pins files *)

(** ** [DohUpstream] *)

Record UpstreamFields := {
  uf_ip : option IpAddr;
  uf_port : option Z;
  uf_tls_name : option bytes;
  uf_path : option bytes
}.
Definition deserialize_u16 : Json → result Z DeError := deserialize (Serde := u16_serde).
Definition deserialize_u32 : Json → result Z DeError := deserialize (Serde := u32_serde).
Definition deserialize_u64 : Json → result Z DeError := deserialize (Serde := u64_serde).

(** One entry of the object, by its key. *)
Definition upstream_entry (f : UpstreamFields) (entry : bytes * Json) : result UpstreamFields DeError :=
  let '(key, v) := entry in
  (if bool_decide (key = lit "ip") then
     let? x := set_once key (uf_ip f) (deserialize v) in
     Ok {| uf_ip := x; uf_port := uf_port f; uf_tls_name := uf_tls_name f; uf_path := uf_path f |}
   else if bool_decide (key = lit "port") then
     let? x := set_once key (uf_port f) (deserialize_u16 v) in
     Ok {| uf_ip := uf_ip f; uf_port := x; uf_tls_name := uf_tls_name f; uf_path := uf_path f |}
   else if bool_decide (key = lit "tls_name") then
     let? x := set_once key (uf_tls_name f) (deserialize v) in
     Ok {| uf_ip := uf_ip f; uf_port := uf_port f; uf_tls_name := x; uf_path := uf_path f |}
   else if bool_decide (key = lit "path") then
     let? x := set_once key (uf_path f) (deserialize v) in
     Ok {| uf_ip := uf_ip f; uf_port := uf_port f; uf_tls_name := uf_tls_name f; uf_path := x |}
   else Ok f)%result.

(** The loop of a derived [visit_map]. *)
Fixpoint visit_entries {F} (entry : F → bytes * Json → result F DeError) (f : F) (entries : list (bytes * Json)) : result F DeError :=
  match entries with
  | [] => Ok f
  | e :: entries => (let? f := entry f e in visit_entries entry f entries)%result
  end.
Definition require {A} (name : bytes) (o : option A) : result A DeError :=
  match o with Some x => Ok x | None => Err (MissingField name) end.
Definition element {A} (index : nat) (o : option A) : result A DeError :=
  match o with Some x => Ok x | None => Err (InvalidLength index) end.

Definition deserialize_upstream (v : Json) : result DohUpstream DeError :=
  match v with
  | JObject entries =>
      (let? f := visit_entries upstream_entry {| uf_ip := None; uf_port := None; uf_tls_name := None; uf_path := None |} entries in
       let? ip := require (lit "ip") (uf_ip f) in
       let? tls_name := require (lit "tls_name") (uf_tls_name f) in
       Ok {| doh_ip := ip; doh_port := default default_port (uf_port f); doh_tls_name := tls_name;
             doh_path := default default_path (uf_path f) |})%result
  | JArray items =>
      (let? a := next_element deserialize items in
       let? ip := element 0 a.1 in
       let? b := next_element deserialize_u16 a.2 in
       let? c := next_element deserialize b.2 in
       let? tls_name := element 2 c.1 in
       let? d := next_element deserialize c.2 in
       end_seq d.2 {| doh_ip := ip; doh_port := default default_port b.1; doh_tls_name := tls_name;
                      doh_path := default default_path d.1 |})%result
  | _ => Err InvalidType
  end.
Definition serialize_upstream (u : DohUpstream) : Json :=
  JObject [(lit "ip", serialize (doh_ip u)); (lit "port", JInt (doh_port u));
           (lit "tls_name", serialize (doh_tls_name u)); (lit "path", serialize (doh_path u))].
Definition upstream_ok (u : DohUpstream) : Prop := IpAddr_ok (doh_ip u) ∧ 0 <= doh_port u <= U16_MAX.

Lemma ok_exists {A E} (x : A) (P : A → Prop) : (∃ y, @Ok A E x = Ok y ∧ P y) ↔ P x.
Proof. naive_solver. Qed.
Lemma err_exists {A E} (e : E) (P : A → Prop) : (∃ y, @Err A E e = Ok y ∧ P y) ↔ False.
Proof. naive_solver. Qed.
(** An entry of one of the fields: the others are left as they are. *)
#[local] Ltac entry_case IH :=
  rewrite field_from_here; rewrite ?field_from_other by done;
  match goal with |- context [set_once ?n ?o ?r] => destruct (set_once n o r); cbn [result_bind] end;
  [rewrite ok_exists, IH; done|rewrite err_exists; naive_solver].

(** What the entries say of each field is what the visitor has read of it. *)
Lemma upstream_entries f entries f' : visit_entries upstream_entry f entries = Ok f' ↔
  field_from deserialize (lit "ip") (uf_ip f) entries (uf_ip f') ∧
  field_from deserialize_u16 (lit "port") (uf_port f) entries (uf_port f') ∧
  field_from deserialize (lit "tls_name") (uf_tls_name f) entries (uf_tls_name f') ∧
  field_from deserialize (lit "path") (uf_path f) entries (uf_path f').
Proof.
  revert f. induction entries as [|[key v] entries IH]; intros f.
  { rewrite !field_from_nil. simpl. destruct f, f'; simpl. naive_solver. }
  cbn [visit_entries]. unfold upstream_entry. repeat case_bool_decide; subst; [entry_case IH..|].
  rewrite !field_from_other by done. cbn [result_bind]. apply IH.
Qed.

(** A field that was read came from some value. *)
Lemma field_is_value {A} (de : Json → result A DeError) name entries x : field_is de name entries (Some x) → ∃ v, de v = Ok x.
Proof. intros [[_ [=]]|(v & y & _ & Hv & [= <-])]. eauto. Qed.
Lemma field_is_one {A} (de : Json → result A DeError) name entries v x : values_of name entries = [v] → de v = Ok x →
  field_is de name entries (Some x).
Proof. right. eauto. Qed.
Lemma next_element_value {A} (de : Json → result A DeError) items x rest : next_element de items = Ok (Some x, rest) → ∃ v, de v = Ok x.
Proof. destruct items as [|v items]; simpl; [done|]. destruct (de v) eqn:Hv; [|done]. intros [= <- <-]. eauto. Qed.
(** The steps of a derived [visit_seq] and of what follows a [visit_map]. *)
#[local] Ltac result_steps :=
  repeat match goal with
  | |- result_bind ?r _ = Ok _ → _ => let H := fresh "Hstep" in destruct r eqn:H; [cbn [result_bind]|done]
  end.

Lemma default_in {A} (P : A → Prop) d o : P d → (∀ x, o = Some x → P x) → P (default d o).
Proof. destruct o; eauto. Qed.
Lemma port_default o : (∀ x, o = Some x → ∃ v, deserialize_u16 v = Ok x) → 0 <= default default_port o <= U16_MAX.
Proof.
  intros Ho. apply default_in; [done|]. intros x (v & Hv)%Ho. by apply (deserialize_representable (Serde := u16_serde)) in Hv.
Qed.

Lemma deserialize_upstream_ok v u : deserialize_upstream v = Ok u → upstream_ok u.
Proof.
  destruct v as [| | | | |items|entries]; try done; unfold deserialize_upstream; result_steps.
  - unfold end_seq. case_match; [|done]. intros [= <-]. split; cbn [doh_ip doh_port].
    + destruct a as [[ip|] rest]; [|done]. simpl in Hstep0. simplify_eq.
      apply next_element_value in Hstep as (v & Hv). by apply deserialize_representable in Hv.
    + apply port_default. intros x Hx. destruct a1 as [o rest]. simpl in Hx. subst o. by eapply next_element_value.
  - intros [= <-]. apply upstream_entries in Hstep as (Hip & Hport & _ & _). split; cbn [doh_ip doh_port].
    + unfold require in Hstep0. destruct (uf_ip a) as [ip|]; [|done]. injection Hstep0 as <-.
      apply field_is_value in Hip as (v & Hv). by apply deserialize_representable in Hv.
    + apply port_default. intros x Hx. rewrite Hx in Hport. exact (field_is_value _ _ _ _ Hport).
Qed.

#[refine] Instance upstream_serde : Serde DohUpstream := {|
  representable := upstream_ok;
  serialize := serialize_upstream;
  deserialize := deserialize_upstream;
  deserialize_representable := deserialize_upstream_ok
|}.
Proof.
  - intros u [Hip Hport]. unfold U16_MAX in Hport. repeat split; simpl; unfold U64_MAX; lia.
  - intros u [Hip Hport]. unfold deserialize_upstream, serialize_upstream.
    rewrite (proj2 (upstream_entries _ _ {| uf_ip := Some (doh_ip u); uf_port := Some (doh_port u);
      uf_tls_name := Some (doh_tls_name u); uf_path := Some (doh_path u) |})).
    { by destruct u. }
    split_and!; (eapply field_is_one; [reflexivity|]); try (by apply deserialize_serialize).
    by apply (deserialize_serialize (Serde := u16_serde)).
Defined.

(** ** [Config] *)

Record ConfigFields := {
  cf_doh_upstreams : option (list DohUpstream);
  cf_passthrough : option (list bytes);
  cf_allowlist : option (list bytes);
  cf_mitm_enabled : option bool;
  cf_max_intercepted_connections : option Z
}.
Definition no_fields : ConfigFields :=
  {| cf_doh_upstreams := None; cf_passthrough := None; cf_allowlist := None; cf_mitm_enabled := None;
     cf_max_intercepted_connections := None |}.

Definition config_entry (f : ConfigFields) (entry : bytes * Json) : result ConfigFields DeError :=
  let '(key, v) := entry in
  (if bool_decide (key = lit "doh_upstreams") then
     let? x := set_once key (cf_doh_upstreams f) (deserialize v) in
     Ok {| cf_doh_upstreams := x; cf_passthrough := cf_passthrough f; cf_allowlist := cf_allowlist f;
           cf_mitm_enabled := cf_mitm_enabled f; cf_max_intercepted_connections := cf_max_intercepted_connections f |}
   else if bool_decide (key = lit "passthrough") then
     let? x := set_once key (cf_passthrough f) (deserialize v) in
     Ok {| cf_doh_upstreams := cf_doh_upstreams f; cf_passthrough := x; cf_allowlist := cf_allowlist f;
           cf_mitm_enabled := cf_mitm_enabled f; cf_max_intercepted_connections := cf_max_intercepted_connections f |}
   else if bool_decide (key = lit "allowlist") then
     let? x := set_once key (cf_allowlist f) (deserialize v) in
     Ok {| cf_doh_upstreams := cf_doh_upstreams f; cf_passthrough := cf_passthrough f; cf_allowlist := x;
           cf_mitm_enabled := cf_mitm_enabled f; cf_max_intercepted_connections := cf_max_intercepted_connections f |}
   else if bool_decide (key = lit "mitm_enabled") then
     let? x := set_once key (cf_mitm_enabled f) (deserialize v) in
     Ok {| cf_doh_upstreams := cf_doh_upstreams f; cf_passthrough := cf_passthrough f; cf_allowlist := cf_allowlist f;
           cf_mitm_enabled := x; cf_max_intercepted_connections := cf_max_intercepted_connections f |}
   else if bool_decide (key = lit "max_intercepted_connections") then
     let? x := set_once key (cf_max_intercepted_connections f) (deserialize_u32 v) in
     Ok {| cf_doh_upstreams := cf_doh_upstreams f; cf_passthrough := cf_passthrough f; cf_allowlist := cf_allowlist f;
           cf_mitm_enabled := cf_mitm_enabled f; cf_max_intercepted_connections := x |}
   else Ok f)%result.

(** [#[serde(default)]] on the struct: a missing field is that of [Config::default]. *)
Definition config_of_fields (f : ConfigFields) : Config :=
  {| doh_upstreams := default (doh_upstreams Config_default) (cf_doh_upstreams f);
     passthrough := default (passthrough Config_default) (cf_passthrough f);
     config_allowlist := default (config_allowlist Config_default) (cf_allowlist f);
     config_mitm_enabled := default (config_mitm_enabled Config_default) (cf_mitm_enabled f);
     max_intercepted_connections := default (max_intercepted_connections Config_default) (cf_max_intercepted_connections f) |}.

Definition deserialize_config (v : Json) : result Config DeError :=
  match v with
  | JObject entries => (let? f := visit_entries config_entry no_fields entries in Ok (config_of_fields f))%result
  | JArray items =>
      (let? a := next_element deserialize items in
       let? b := next_element deserialize a.2 in
       let? c := next_element deserialize b.2 in
       let? d := next_element deserialize c.2 in
       let? e := next_element deserialize_u32 d.2 in
       end_seq e.2 (config_of_fields {| cf_doh_upstreams := a.1; cf_passthrough := b.1; cf_allowlist := c.1;
                                        cf_mitm_enabled := d.1; cf_max_intercepted_connections := e.1 |}))%result
  | _ => Err InvalidType
  end.
Definition serialize_config (c : Config) : Json :=
  JObject [(lit "doh_upstreams", serialize (doh_upstreams c)); (lit "passthrough", serialize (passthrough c));
           (lit "allowlist", serialize (config_allowlist c)); (lit "mitm_enabled", serialize (config_mitm_enabled c));
           (lit "max_intercepted_connections", JInt (max_intercepted_connections c))].
Definition config_ok (c : Config) : Prop :=
  Forall upstream_ok (doh_upstreams c) ∧ 0 <= max_intercepted_connections c <= U32_MAX.

Lemma config_entries f entries f' : visit_entries config_entry f entries = Ok f' ↔
  field_from deserialize (lit "doh_upstreams") (cf_doh_upstreams f) entries (cf_doh_upstreams f') ∧
  field_from deserialize (lit "passthrough") (cf_passthrough f) entries (cf_passthrough f') ∧
  field_from deserialize (lit "allowlist") (cf_allowlist f) entries (cf_allowlist f') ∧
  field_from deserialize (lit "mitm_enabled") (cf_mitm_enabled f) entries (cf_mitm_enabled f') ∧
  field_from deserialize_u32 (lit "max_intercepted_connections") (cf_max_intercepted_connections f) entries
    (cf_max_intercepted_connections f').
Proof.
  revert f. induction entries as [|[key v] entries IH]; intros f.
  { rewrite !field_from_nil. simpl. destruct f, f'; simpl. naive_solver. }
  cbn [visit_entries]. unfold config_entry. repeat case_bool_decide; subst; [entry_case IH..|].
  rewrite !field_from_other by done. cbn [result_bind]. apply IH.
Qed.

Lemma Config_default_ok : config_ok Config_default.
Proof. split; [|done]. repeat constructor; done. Qed.

(** Fields that were read make a configuration of the Rust type. *)
Lemma config_of_fields_ok f : (∀ x, cf_doh_upstreams f = Some x → ∃ v, deserialize v = Ok x) →
  (∀ x, cf_max_intercepted_connections f = Some x → ∃ v, deserialize_u32 v = Ok x) → config_ok (config_of_fields f).
Proof.
  intros Hups Hmax. destruct Config_default_ok as [Hd1 Hd2]. split; unfold config_of_fields; cbn [doh_upstreams max_intercepted_connections].
  - apply (default_in (Forall upstream_ok)); [done|]. intros x (v & Hv)%Hups. by apply deserialize_representable in Hv.
  - apply (default_in (λ n, 0 <= n <= U32_MAX)); [done|]. intros x (v & Hv)%Hmax.
    by apply (deserialize_representable (Serde := u32_serde)) in Hv.
Qed.
Lemma deserialize_config_ok v c : deserialize_config v = Ok c → config_ok c.
Proof.
  destruct v as [| | | | |items|entries]; try done; unfold deserialize_config; result_steps.
  - unfold end_seq. case_match; [|done]. intros [= <-]. apply config_of_fields_ok; simpl; intros x Hx.
    + destruct a as [o rest]. simpl in Hx. subst o. by eapply next_element_value.
    + destruct a3 as [o rest]. simpl in Hx. subst o. by eapply next_element_value.
  - intros [= <-]. apply config_entries in Hstep as (Hups & _ & _ & _ & Hmax). apply config_of_fields_ok; intros x Hx.
    + rewrite Hx in Hups. exact (field_is_value _ _ _ _ Hups).
    + rewrite Hx in Hmax. exact (field_is_value _ _ _ _ Hmax).
Qed.

#[refine] Instance config_serde : Serde Config := {|
  representable := config_ok;
  serialize := serialize_config;
  deserialize := deserialize_config;
  deserialize_representable := deserialize_config_ok
|}.
Proof.
  - intros c [Hups Hmax]. unfold U32_MAX in Hmax. cbn [serialize_config json_ok foldr snd].
    split_and!; try done; try (by apply serialize_ok, Forall_true); [by apply (serialize_ok (A := list DohUpstream))|unfold U64_MAX; lia..].
  - intros c [Hups Hmax]. unfold deserialize_config, serialize_config.
    rewrite (proj2 (config_entries _ _ {| cf_doh_upstreams := Some (doh_upstreams c); cf_passthrough := Some (passthrough c);
      cf_allowlist := Some (config_allowlist c); cf_mitm_enabled := Some (config_mitm_enabled c);
      cf_max_intercepted_connections := Some (max_intercepted_connections c) |})).
    { by destruct c. }
    split_and!; (eapply field_is_one; [reflexivity|]); try (by apply deserialize_serialize); try (by apply deserialize_serialize, Forall_true).
    by apply (deserialize_serialize (Serde := u32_serde)).
Defined.

(** ** [PinEntry] and [PinsFile] *)

Record PinFields := { pf_host : option bytes; pf_learned_at : option Z }.
Definition pin_entry (f : PinFields) (entry : bytes * Json) : result PinFields DeError :=
  let '(key, v) := entry in
  (if bool_decide (key = lit "host") then
     let? x := set_once key (pf_host f) (deserialize v) in Ok {| pf_host := x; pf_learned_at := pf_learned_at f |}
   else if bool_decide (key = lit "learned_at") then
     let? x := set_once key (pf_learned_at f) (deserialize_u64 v) in Ok {| pf_host := pf_host f; pf_learned_at := x |}
   else Ok f)%result.
Definition deserialize_pin (v : Json) : result PinEntry DeError :=
  match v with
  | JObject entries =>
      (let? f := visit_entries pin_entry {| pf_host := None; pf_learned_at := None |} entries in
       let? host := require (lit "host") (pf_host f) in
       let? learned_at := require (lit "learned_at") (pf_learned_at f) in
       Ok {| pin_host := host; pin_learned_at := learned_at |})%result
  | JArray items =>
      (let? a := next_element deserialize items in
       let? host := element 0 a.1 in
       let? b := next_element deserialize_u64 a.2 in
       let? learned_at := element 1 b.1 in
       end_seq b.2 {| pin_host := host; pin_learned_at := learned_at |})%result
  | _ => Err InvalidType
  end.
Definition serialize_pin (p : PinEntry) : Json :=
  JObject [(lit "host", serialize (pin_host p)); (lit "learned_at", JInt (pin_learned_at p))].

Lemma pin_entries f entries f' : visit_entries pin_entry f entries = Ok f' ↔
  field_from deserialize (lit "host") (pf_host f) entries (pf_host f') ∧
  field_from deserialize_u64 (lit "learned_at") (pf_learned_at f) entries (pf_learned_at f').
Proof.
  revert f. induction entries as [|[key v] entries IH]; intros f.
  { rewrite !field_from_nil. simpl. destruct f, f'; simpl. naive_solver. }
  cbn [visit_entries]. unfold pin_entry. repeat case_bool_decide; subst; [entry_case IH..|].
  rewrite !field_from_other by done. cbn [result_bind]. apply IH.
Qed.

(** A required field that was read. *)
Lemma require_field {A} (de : Json → result A DeError) name entries o x :
  field_is de name entries o → require name o = Ok x → ∃ v, de v = Ok x.
Proof. intros Hf. unfold require. destruct o as [y|]; [|done]. intros [= <-]. by eapply field_is_value. Qed.
Lemma require_element {A} (de : Json → result A DeError) items a i x :
  next_element de items = Ok a → element i a.1 = Ok x → ∃ v, de v = Ok x.
Proof. destruct a as [[y|] rest]; simpl; [|done]. intros Hn [= <-]. by eapply next_element_value. Qed.

#[refine] Instance pin_serde : Serde PinEntry := {|
  representable p := 0 <= pin_learned_at p <= U64_MAX;
  serialize := serialize_pin;
  deserialize := deserialize_pin
|}.
Proof.
  - intros p Hp. cbn [serialize_pin json_ok foldr snd]. split_and!; try done; lia.
  - intros p Hp. unfold deserialize_pin, serialize_pin.
    rewrite (proj2 (pin_entries _ _ {| pf_host := Some (pin_host p); pf_learned_at := Some (pin_learned_at p) |})).
    { by destruct p. }
    split; (eapply field_is_one; [reflexivity|]); [by apply deserialize_serialize|].
    by apply (deserialize_serialize (Serde := u64_serde)).
  - intros v p. destruct v as [| | | | |items|entries]; try done; unfold deserialize_pin; result_steps.
    + unfold end_seq. case_match; [|done]. intros [= <-]. destruct (require_element _ _ _ _ _ Hstep1 Hstep2) as (v & Hv).
      by apply (deserialize_representable (Serde := u64_serde)) in Hv.
    + intros [= <-]. apply pin_entries in Hstep as [_ Ht]. destruct (require_field _ _ _ _ _ Ht Hstep1) as (v & Hv).
      by apply (deserialize_representable (Serde := u64_serde)) in Hv.
Defined.

Record PinsFields := { pf_version : option Z; pf_pins : option (list PinEntry) }.
Definition pins_entry (f : PinsFields) (entry : bytes * Json) : result PinsFields DeError :=
  let '(key, v) := entry in
  (if bool_decide (key = lit "version") then
     let? x := set_once key (pf_version f) (deserialize_u32 v) in Ok {| pf_version := x; pf_pins := pf_pins f |}
   else if bool_decide (key = lit "pins") then
     let? x := set_once key (pf_pins f) (deserialize v) in Ok {| pf_version := pf_version f; pf_pins := x |}
   else Ok f)%result.
Definition deserialize_pins (v : Json) : result PinsFile DeError :=
  match v with
  | JObject entries =>
      (let? f := visit_entries pins_entry {| pf_version := None; pf_pins := None |} entries in
       let? version := require (lit "version") (pf_version f) in
       let? pins := require (lit "pins") (pf_pins f) in
       Ok {| pins_version := version; pins_entries := pins |})%result
  | JArray items =>
      (let? a := next_element deserialize_u32 items in
       let? version := element 0 a.1 in
       let? b := next_element deserialize a.2 in
       let? pins := element 1 b.1 in
       end_seq b.2 {| pins_version := version; pins_entries := pins |})%result
  | _ => Err InvalidType
  end.
Definition serialize_pins (f : PinsFile) : Json :=
  JObject [(lit "version", JInt (pins_version f)); (lit "pins", serialize (pins_entries f))].

Lemma pins_file_entries f entries f' : visit_entries pins_entry f entries = Ok f' ↔
  field_from deserialize_u32 (lit "version") (pf_version f) entries (pf_version f') ∧
  field_from deserialize (lit "pins") (pf_pins f) entries (pf_pins f').
Proof.
  revert f. induction entries as [|[key v] entries IH]; intros f.
  { rewrite !field_from_nil. simpl. destruct f, f'; simpl. naive_solver. }
  cbn [visit_entries]. unfold pins_entry. repeat case_bool_decide; subst; [entry_case IH..|].
  rewrite !field_from_other by done. cbn [result_bind]. apply IH.
Qed.

Lemma deserialize_pins_ok v f : deserialize_pins v = Ok f → PinsFile_ok f.
Proof.
  assert (∀ vv vp version pins, deserialize_u32 vv = Ok version → deserialize vp = Ok pins →
    PinsFile_ok {| pins_version := version; pins_entries := pins |}) as Hok.
  { intros vv vp version pins Hv Hp. apply (deserialize_representable (Serde := u32_serde)) in Hv.
    apply deserialize_representable in Hp. by split. }
  destruct v as [| | | | |items|entries]; try done; unfold deserialize_pins; result_steps.
  - unfold end_seq. case_match; [|done]. intros [= <-]. destruct (require_element _ _ _ _ _ Hstep Hstep0) as (? & ?).
    destruct (require_element _ _ _ _ _ Hstep1 Hstep2) as (? & ?). by eapply Hok.
  - intros [= <-]. apply pins_file_entries in Hstep as [Hv Hp]. destruct (require_field _ _ _ _ _ Hv Hstep0) as (? & ?).
    destruct (require_field _ _ _ _ _ Hp Hstep1) as (? & ?). by eapply Hok.
Qed.
#[refine] Instance pins_serde : Serde PinsFile := {|
  representable := PinsFile_ok;
  serialize := serialize_pins;
  deserialize := deserialize_pins;
  deserialize_representable := deserialize_pins_ok
|}.
Proof.
  - intros f [Hv Hp]. unfold U32_MAX in Hv. cbn [serialize_pins json_ok foldr snd].
    split_and!; [lia|unfold U64_MAX; lia|by apply (serialize_ok (A := list PinEntry))|done].
  - intros f [Hv Hp]. unfold deserialize_pins, serialize_pins.
    rewrite (proj2 (pins_file_entries _ _ {| pf_version := Some (pins_version f); pf_pins := Some (pins_entries f) |})).
    { by destruct f. }
    split; (eapply field_is_one; [reflexivity|]); [by apply (deserialize_serialize (Serde := u32_serde))|by apply deserialize_serialize].
Defined.

(** ** The files *)

Section Files.
Context {SJ : SerdeJson}.

(** [Config::from_json] and [Config::to_json]. *)
Definition Config_from_json (s : bytes) : result Config PolicyError :=
  match from_str s with Ok config => Ok config | Err e => Err (PolicyError_Config e) end.
Definition Config_to_json (self : Config) : bytes := to_string_pretty self.

(** What [PinsFile] promises to the policy comes from its derived implementations. *)
#[refine] Definition derived_pins : PinsJson := {|
  pins_to_json := to_string;
  pins_from_json s := match from_str s with Ok f => Some f | Err _ => None end
|}.
Proof using SJ.
  - intros f Hf. by rewrite from_str_to_string.
  - intros s f. destruct (from_str s) as [g|] eqn:Hg; [|done]. intros [= <-]. by apply from_str_representable in Hg.
Defined.
End Files.

(** * Theorems *)

Section ConfigProps.
Context `{SerdeJson}.

(** C15: the configuration the app writes is the one the tunnel reads: every configuration of the Rust
    types, its addresses displayed and read back, gives the same one from its own text; and
    whatever text is read, the result is such a configuration. *)
Theorem config_roundtrip :
  (∀ config, config_ok config → Config_from_json (Config_to_json config) = Ok config) ∧
  ∀ s config, Config_from_json s = Ok config → config_ok config.
Proof.
  unfold Config_from_json, Config_to_json. split.
  - intros config Hc. by rewrite from_str_to_string_pretty.
  - intros s config. destruct (from_str s) as [c|] eqn:Hs; [|done]. intros [= <-]. by apply from_str_representable in Hs.
Qed.

(** C25: old and new versions read each other's files. From the text of an object a configuration is
    read exactly when no field of [Config] is given twice and each one given has a value of its
    type, whatever the order and whatever other fields there are; a field that is missing is that
    of [Config::default]. *)
Theorem config_fields_default s entries config : json_parse s = Ok (JObject entries) →
  (Config_from_json s = Ok config ↔
   ∃ ups pass allow mitm max,
     field_is deserialize (lit "doh_upstreams") entries ups ∧ field_is deserialize (lit "passthrough") entries pass ∧
     field_is deserialize (lit "allowlist") entries allow ∧ field_is deserialize (lit "mitm_enabled") entries mitm ∧
     field_is deserialize_u32 (lit "max_intercepted_connections") entries max ∧
     config = {| doh_upstreams := default (doh_upstreams Config_default) ups; passthrough := default [] pass;
                 config_allowlist := default [] allow; config_mitm_enabled := default true mitm;
                 max_intercepted_connections := default 32 max |}).
Proof.
  intros Hs. unfold Config_from_json, from_str. rewrite Hs. cbn [deserialize config_serde deserialize_config].
  pose proof (config_entries no_fields entries) as He. split.
  - destruct (visit_entries config_entry no_fields entries) as [f|]; [|done]. cbn [result_bind]. intros [= <-].
    destruct (proj1 (He f) eq_refl) as (? & ? & ? & ? & ?). exists (cf_doh_upstreams f), (cf_passthrough f), (cf_allowlist f), (cf_mitm_enabled f), (cf_max_intercepted_connections f). by split_and!.
  - intros (ups & pass & allow & mitm & max & Hfields).
    rewrite (proj2 (He {| cf_doh_upstreams := ups; cf_passthrough := pass; cf_allowlist := allow; cf_mitm_enabled := mitm;
      cf_max_intercepted_connections := max |})) by (split_and!; apply Hfields).
    destruct Hfields as (_ & _ & _ & _ & _ & ->). done.
Qed.
End ConfigProps.

(** A file of a newer app: one upstream with the fields it needs, an unknown field and a switch. *)
Definition newer_file : list (bytes * Json) :=
  [(lit "theme", JObject [(lit "dark", JBool true)]);
   (lit "doh_upstreams", JArray [JObject [(lit "ip", JString (lit "2620:fe::fe")); (lit "tls_name", JString (lit "dns.quad9.net"))]]);
   (lit "mitm_enabled", JBool false)].
Definition newer_config : Config :=
  {| doh_upstreams := [DohUpstream_quad9_v6]; passthrough := []; config_allowlist := []; config_mitm_enabled := false;
     max_intercepted_connections := 32 |}.
Example newer_file_read : deserialize (JObject newer_file) = Ok newer_config.
Proof. reflexivity. Qed.
Example port_out_of_range : deserialize_upstream (JObject [(lit "ip", JString (lit "1.1.1.1")); (lit "port", JInt 65536);
  (lit "tls_name", JString (lit "a.example"))]) = Err InvalidValue.
Proof. reflexivity. Qed.
Example twice_given : deserialize_config (JObject [(lit "mitm_enabled", JBool true); (lit "mitm_enabled", JBool true)]) =
  Err (DuplicateField (lit "mitm_enabled")).
Proof. reflexivity. Qed.
Example upstream_as_array : deserialize_upstream (JArray [JString (lit "9.9.9.9"); JInt 443; JString (lit "dns.quad9.net")]) = Ok DohUpstream_quad9.
Proof. reflexivity. Qed.

(** The file with nothing in it. *)
Definition empty_file : bytes := tree_text (JObject []).
Lemma empty_file_read : @Config_from_json tree_json empty_file = Ok Config_default.
Proof. vm_compute. reflexivity. Qed.

Lemma config_roundtrip_witness :
  @Config_from_json tree_json (@Config_to_json tree_json Config_default) = Ok Config_default.
Proof. exact (proj1 (@config_roundtrip tree_json) Config_default Config_default_ok). Defined.

Lemma config_fields_default_witness : ∃ mitm,
  @Config_from_json tree_json (tree_text (JObject newer_file)) = Ok newer_config ∧
  field_is deserialize (lit "mitm_enabled") newer_file mitm ∧ mitm = Some false.
Proof.
  pose proof (@config_fields_default tree_json (tree_text (JObject newer_file)) newer_file newer_config
    (tree_parse_text (JObject newer_file))) as Hf.
  assert (@Config_from_json tree_json (tree_text (JObject newer_file)) = Ok newer_config) as Hr.
  { unfold Config_from_json, from_str. change (@json_parse tree_json) with tree_parse. rewrite tree_parse_text. reflexivity. }
  destruct (proj1 Hf Hr) as (ups & pass & allow & mitm & max & _ & _ & _ & Hm & _ & Hc). exists mitm. split_and!; [done|done|].
  destruct Hm as [[Hv _]|(v & x & [= <-] & [= <-] & ->)]; [discriminate Hv|reflexivity].
Defined.
