(* ===== verification/PolicyFacts.v ===== *)
(** * Theorems about single operations of the policy

    Pattern sets against the patterns they index, time windows, eviction, and what each
    learning operation does to the pins. *)
From S2P Require Import Prelude RustStr Collections Net HostPattern Bundled Policy.

(** ** Pattern sets *)

Lemma PatternSet_new_exact ps n :
  n ∈ ps_exact (PatternSet_new ps) ↔ ∃ p, p ∈ ps ∧ hp_wildcard p = false ∧ hp_name p = n.
Proof.
  unfold PatternSet_new.
  assert (∀ set, n ∈ ps_exact (foldl PatternSet_add set ps) ↔
    n ∈ ps_exact set ∨ ∃ p, p ∈ ps ∧ hp_wildcard p = false ∧ hp_name p = n) as Hgen.
  { induction ps as [|p ps IH]; intros set; simpl.
    { setoid_rewrite elem_of_nil. naive_solver. }
    rewrite IH. unfold PatternSet_add. setoid_rewrite elem_of_cons.
    destruct (hp_wildcard p) eqn:Hw; simpl; rewrite ?elem_of_union, ?elem_of_singleton; split;
      solve [intros [[->|?]|(q & ? & ? & ?)]; [right; exists p; tauto|by left|right; exists q; tauto]
            |intros [?|(q & ? & ? & ?)]; [by left|right; exists q; tauto]
            |intros [?|(q & [->|?] & ? & <-)]; [tauto|first [congruence|tauto]|right; exists q; tauto]]. }
  rewrite Hgen. simpl. rewrite elem_of_empty. naive_solver.
Qed.

Lemma PatternSet_new_suffix ps n :
  n ∈ ps_suffix (PatternSet_new ps) ↔ ∃ p, p ∈ ps ∧ hp_wildcard p = true ∧ hp_name p = n.
Proof.
  unfold PatternSet_new.
  assert (∀ set, n ∈ ps_suffix (foldl PatternSet_add set ps) ↔
    n ∈ ps_suffix set ∨ ∃ p, p ∈ ps ∧ hp_wildcard p = true ∧ hp_name p = n) as Hgen.
  { induction ps as [|p ps IH]; intros set; simpl.
    { setoid_rewrite elem_of_nil. naive_solver. }
    rewrite IH. unfold PatternSet_add. setoid_rewrite elem_of_cons.
    destruct (hp_wildcard p) eqn:Hw; simpl; rewrite ?elem_of_union, ?elem_of_singleton; split;
      solve [intros [[->|?]|(q & ? & ? & ?)]; [right; exists p; tauto|by left|right; exists q; tauto]
            |intros [?|(q & ? & ? & ?)]; [by left|right; exists q; tauto]
            |intros [?|(q & [->|?] & ? & <-)]; [tauto|first [congruence|tauto]|right; exists q; tauto]]. }
  rewrite Hgen. simpl. rewrite elem_of_empty. naive_solver.
Qed.

(** A key matches the set when some pattern covers it. *)
Lemma PatternSet_matches_spec ps key :
  PatternSet_matches (PatternSet_new ps) key = true ↔
  ∃ p, p ∈ ps ∧ host_covered (hp_wildcard p) (hp_name p) key.
Proof.
  unfold PatternSet_matches, host_covered. case_bool_decide as Hex.
  { split; [|done]. intros _. apply PatternSet_new_exact in Hex as (p & ? & ? & ?). eauto. }
  assert (existsb (λ s, bool_decide (s ∈ ps_suffix (PatternSet_new ps)))
            (key :: after_each DOT key) = true ↔
    ∃ p, p ∈ ps ∧ (key = hp_name p ∨ hp_wildcard p = true ∧ ∃ sub, key = sub ++ DOT :: hp_name p))
    as Hany.
  { rewrite existsb_Exists. setoid_rewrite bool_decide_eq_true.
    setoid_rewrite PatternSet_new_suffix. setoid_rewrite elem_of_cons.
    setoid_rewrite elem_of_after_each. split.
    - intros (s & [->|[sub ->]] & p & Hp & Hw & <-); exists p; (split; [done|]); [by left|].
      right. split; [done|]. by exists sub.
    - intros (p & Hp & [->|(Hw & sub & ->)]).
      + destruct (hp_wildcard p) eqn:Hw; [exists (hp_name p); split; [by left|by exists p]|].
        destruct Hex. apply PatternSet_new_exact. eauto.
      + exists (hp_name p). split; [right; by exists sub|by exists p]. }
  case_bool_decide as Hemp; [|done].
  split; [done|]. intros Hp%Hany. exfalso. revert Hp. rewrite existsb_Exists, Hemp.
  setoid_rewrite bool_decide_eq_true. set_solver.
Qed.

(** ** Lookup keys *)

(** A host name that is not a bracketed IPv6 address. *)
Definition unbracketed (host : bytes) : Prop :=
  strip_prefix (lit "[") (strip_suffix_or [DOT] host) = None.

Lemma lookup_key_unbracketed host : unbracketed host →
  lookup_key host = to_ascii_lowercase (strip_suffix_or [DOT] host).
Proof. unfold unbracketed, lookup_key. by intros ->. Qed.

Lemma lookup_key_lower host : to_ascii_lowercase (lookup_key host) = lookup_key host.
Proof. apply to_lower_idem. Qed.

(** ** Time windows *)

Lemma within_spec at_ now age : is_u64 at_ → is_u64 now → 0 <= age →
  within at_ now age = true ↔
  at_ <= Z.min (now + CLOCK_TOLERANCE_SECS) U64_MAX ∧ now - at_ <= age.
Proof. unfold is_u64, within, sat_add64, sat_sub. lia. Qed.

Lemma within_self now age : is_u64 now → 0 <= age → within now now age = true.
Proof. unfold is_u64, within, sat_add64, sat_sub, U64_MAX, CLOCK_TOLERANCE_SECS. lia. Qed.

Lemma within_mono at_ now a b : a <= b → within at_ now a = true → within at_ now b = true.
Proof. unfold within. lia. Qed.

(** ** Eviction *)

Section Eviction.
Context `{HashOrder}.

Lemma delete_oldest_sub {V} (last : V → Z) (m : gmap bytes V) :
  match min_by_key (λ kv, last kv.2) (hash_iter m) with
  | Some (oldest, _) => delete oldest m
  | None => m
  end ⊆ m.
Proof. repeat case_match; [apply delete_subseteq|done]. Qed.

Lemma delete_oldest_size {V} (last : V → Z) (m : gmap bytes V) : m ≠ ∅ →
  (size (match min_by_key (λ kv, last kv.2) (hash_iter m) with
         | Some (oldest, _) => delete oldest m
         | None => m
         end) < size m)%nat.
Proof.
  intros Hne. destruct (min_by_key _ _) as [[k v]|] eqn:E.
  - apply min_by_key_Some in E as [Hin%elem_of_hash_iter _].
    rewrite map_size_delete_Some by eauto.
    assert (size m ≠ 0)%nat by (by apply map_size_non_empty_iff). lia.
  - by apply min_by_key_None, hash_iter_nil in E.
Qed.

Lemma make_room_sub {V} (fresh : V → bool) last m : make_room fresh last m ⊆ m.
Proof.
  unfold make_room. case_match; [done|]. case_match; [apply retain_subseteq|].
  etrans; [apply delete_oldest_sub|apply retain_subseteq].
Qed.

Lemma make_room_size {V} (fresh : V → bool) last m :
  (size m ≤ MAX_RECENT_REJECTIONS → size (make_room fresh last m) < MAX_RECENT_REJECTIONS)%nat.
Proof.
  intros Hm. unfold make_room.
  destruct (Nat.ltb_spec (size m) MAX_RECENT_REJECTIONS); [done|].
  set (m' := retain _ m). destruct (Nat.ltb_spec (size m') MAX_RECENT_REJECTIONS); [done|].
  pose proof (size_subseteq _ _ (retain_subseteq (λ _ v, fresh v) m) : size m' ≤ size m)%nat.
  assert (m' ≠ ∅) as Hne.
  { intros Hm'. assert (size m' = 0)%nat as Hz by (by rewrite Hm', map_size_empty).
    unfold MAX_RECENT_REJECTIONS in *. lia. }
  pose proof (delete_oldest_size last m' Hne). lia.
Qed.

(** The inline eviction of [record_client_rejection] is [make_room]. *)
Lemma make_room_recent_eq m now :
  make_room_recent m now =
  make_room (λ at_, within at_ now REJECTION_WINDOW_SECS) (λ at_, at_) m.
Proof.
  unfold make_room_recent, make_room.
  destruct (Nat.ltb_spec (size m) MAX_RECENT_REJECTIONS) as [Hlt|Hge].
  - rewrite (proj2 (Nat.leb_gt _ _) Hlt). by rewrite (proj2 (Nat.leb_gt _ _) Hlt).
  - rewrite (proj2 (Nat.leb_le _ _) Hge). set (m' := retain _ m).
    destruct (Nat.ltb_spec (size m') MAX_RECENT_REJECTIONS) as [Hlt|Hge'].
    + by rewrite (proj2 (Nat.leb_gt _ _) Hlt).
    + by rewrite (proj2 (Nat.leb_le _ _) Hge').
Qed.

Lemma insert_room_size {V} (k : bytes) (v : V) (m : gmap bytes V) :
  (size m < MAX_RECENT_REJECTIONS → size (<[k := v]> m) ≤ MAX_RECENT_REJECTIONS)%nat.
Proof. intros. rewrite map_size_insert. case_match; simpl; lia. Qed.

Lemma insert_present_size {V} (k : bytes) (v : V) (m : gmap bytes V) (n : nat) :
  is_Some (m !! k) → (size m ≤ n → size (<[k := v]> m) ≤ n)%nat.
Proof. intros [? Hk] ?. rewrite map_size_insert, Hk. done. Qed.

(** The guarded insertion every counter map uses keeps the bound. *)
Lemma guarded_insert_size {V} (fresh : V → bool) (last : V → Z) (k : bytes) (v : V) (m : gmap bytes V) :
  (size m ≤ MAX_RECENT_REJECTIONS →
   size (<[k := v]> (if bool_decide (is_Some (m !! k)) then m else make_room fresh last m))
     ≤ MAX_RECENT_REJECTIONS)%nat.
Proof.
  intros Hm. case_bool_decide; [by apply insert_present_size|].
  by apply insert_room_size, make_room_size.
Qed.
End Eviction.

(** ** Taking pins back *)

Lemma take_back_pins l h t :
  pins (take_back l h t).1 =
  if bool_decide (pins l !! h = Some t) then delete h (pins l) else pins l.
Proof. unfold take_back. by case_bool_decide. Qed.

Lemma take_back_frame l h t : ∃ p, (take_back l h t).1 = set_pins p l.
Proof.
  unfold take_back. case_bool_decide; simpl; [by eexists|].
  exists (pins l). by destruct l.
Qed.

(** Several entries taken back in turn: a pin goes exactly when one of them names it with
    the time it was learned. *)
Lemma take_back_all_frame es l : ∃ p, take_back_all es l = set_pins p l.
Proof.
  unfold take_back_all. revert l. induction es as [|[h t] es IH]; intros l; simpl.
  - exists (pins l). by destruct l.
  - destruct (take_back_frame l h t) as [p ->]. destruct (IH (set_pins p l)) as [p' ->].
    by exists p'.
Qed.

Lemma take_back_all_lookup es l k t :
  pins (take_back_all es l) !! k = Some t ↔ pins l !! k = Some t ∧ (k, t) ∉ es.
Proof.
  unfold take_back_all. revert l. induction es as [|[h a] es IH]; intros l; simpl.
  - set_solver.
  - rewrite IH, take_back_pins, not_elem_of_cons. case_bool_decide as Hp.
    + rewrite lookup_delete_Some. naive_solver.
    + naive_solver.
Qed.

Lemma take_back_recent_eq w es l now :
  take_back_recent w es l now = take_back_all (vec_retain (λ e, within e.2 now w) es) l.
Proof.
  unfold take_back_recent, take_back_all. revert l.
  induction es as [|[h t] es IH]; intros l; [done|]. rewrite vec_retain_cons. simpl.
  rewrite IH. by destruct (within t now w).
Qed.

(** [silent_burst]'s loop: the fresh entries take their pins back, the others stay. *)
Lemma set_pins_silent p s l : set_pins p (set_silent s l) = set_silent s (set_pins p l).
Proof. done. Qed.

Lemma take_back_all_silent es s l :
  take_back_all es (set_silent s l) = set_silent s (take_back_all es l).
Proof.
  unfold take_back_all. revert l. induction es as [|[h t] es IH]; intros l; [done|]. simpl.
  rewrite <-IH. f_equal. unfold take_back. simpl. by case_bool_decide.
Qed.

Lemma silent_burst_loop_eq es l now :
  silent_burst_loop es l now =
  set_silent (silent l ++ vec_retain (λ e, negb (within e.2 now SILENT_BURST_SECS)) es)
    (take_back_all (vec_retain (λ e, within e.2 now SILENT_BURST_SECS) es) l).
Proof.
  revert l. induction es as [|[h t] es IH]; intros l; simpl.
  - rewrite app_nil_r. by destruct l.
  - rewrite !vec_retain_cons. simpl. destruct (within t now SILENT_BURST_SECS); simpl; rewrite IH.
    + simpl. by destruct (take_back_frame l h t) as [p ->].
    + rewrite take_back_all_silent. simpl. by rewrite <-app_assoc.
Qed.

(** ** The reference for the hash-indexed lists: try every pattern in turn *)
Definition list_covers (patterns : list bytes) (host : bytes) : bool :=
  existsb (λ s, match HostPattern_parse s with
                | Ok p => HostPattern_matches p host
                | Err _ => false
                end) patterns.

Lemma PatternSet_list_covers l ps host :
  collect_results HostPattern_parse l = Ok ps → unbracketed host →
  PatternSet_matches (PatternSet_new ps) (lookup_key host) = list_covers l host.
Proof.
  intros Hps%collect_results_Ok Hub. apply eq_true_iff_eq.
  rewrite PatternSet_matches_spec, lookup_key_unbracketed by done.
  unfold list_covers. rewrite existsb_Exists. split.
  - intros (p & Hp & Hc). destruct (Forall2_elem_r _ _ _ _ Hps Hp) as (s & Hs & Hpar).
    exists s. split; [done|]. rewrite Hpar. apply HostPattern_matches_spec; [|done].
    by apply HostPattern_parse_wf in Hpar as [].
  - intros (s & Hs & Hm). destruct (Forall2_elem_l _ _ _ _ Hps Hs) as (p & Hp & Hpar).
    rewrite Hpar in Hm. exists p. split; [done|].
    apply HostPattern_matches_spec in Hm; [done|]. by apply HostPattern_parse_wf in Hpar as [].
Qed.

Lemma list_covers_app l1 l2 host :
  list_covers (l1 ++ l2) host = list_covers l1 host || list_covers l2 host.
Proof. apply existsb_app. Qed.

(** Strings in order, each strictly before the next. *)
Fixpoint strictly_sorted (l : list bytes) : bool :=
  match l with
  | a :: ((b :: _) as l') => bytes_leb a b && negb (bool_decide (a = b)) && strictly_sorted l'
  | _ => true
  end.

Lemma bundled_parsed_ok : is_ok (collect_results HostPattern_parse bundled_passthrough) = true.
Proof. vm_compute. reflexivity. Qed.

Lemma BUNDLED_SET_covers host : unbracketed host →
  PatternSet_matches BUNDLED_SET (lookup_key host) = list_covers bundled_passthrough host.
Proof.
  intros Hub. pose proof bundled_parsed_ok as Hok. unfold BUNDLED_SET.
  destruct (collect_results _ _) as [ps|e] eqn:E; [|done]. by apply PatternSet_list_covers.
Qed.

(** ** Network changes and bursts: exactly which pins go *)

Lemma on_network_change_lookup l now k t :
  pins (on_network_change l now) !! k = Some t ↔
  pins l !! k = Some t ∧
  ¬ ((k, t) ∈ upstream l ∧ within t now UPSTREAM_RECENT_SECS = true) ∧
  ¬ ((k, t) ∈ silent l ∧ within t now SILENT_RECENT_SECS = true).
Proof.
  unfold on_network_change. rewrite !take_back_recent_eq.
  set (l1 := take_back_all _ (set_upstream [] l)).
  assert (silent l1 = silent l) as Hs.
  { unfold l1. by destruct (take_back_all_frame (vec_retain (λ e, within e.2 now
      UPSTREAM_RECENT_SECS) (upstream l)) (set_upstream [] l)) as [p ->]. }
  simpl. rewrite take_back_all_lookup, Hs. simpl. unfold l1. rewrite take_back_all_lookup. simpl.
  rewrite !elem_of_vec_retain. simpl. tauto.
Qed.

Lemma silent_burst_lookup l now k t :
  pins (silent_burst l now) !! k = Some t ↔
  pins l !! k = Some t ∧ ¬ ((k, t) ∈ silent l ∧ within t now SILENT_BURST_SECS = true).
Proof.
  unfold silent_burst. rewrite silent_burst_loop_eq. simpl. rewrite take_back_all_lookup.
  unfold silent_suppressed. case_match; simpl; by rewrite elem_of_vec_retain.
Qed.

(** ** Suppression *)

Lemma suppression_window until now limit :
  suppression_holds (Some until) now limit = true ↔ now < until ∧ until - now <= limit.
Proof. simpl. lia. Qed.

Lemma silent_suppressed_after_burst l now now' : 0 <= now ->
  now <= now' < sat_add64 now SILENT_SUPPRESS_SECS →
  (silent_suppressed (silent_burst l now) now').2 = true.
Proof.
  intros Hu [Hge Hlt]. unfold silent_suppressed.
  assert (suppression_holds (silent_suppressed_until (silent_burst l now)) now'
            SILENT_SUPPRESS_SECS = true) as ->; [|done].
  apply suppression_window. unfold sat_add64, SILENT_SUPPRESS_SECS in *. lia.
Qed.

(** ** Forgetting pins *)

Lemma forget_pin_key l host :
  let l' := (forget_pin l host).1 in let key := lookup_key host in
  pins l' = delete key (pins l) ∧ recent l' = delete key (recent l) ∧
  silent_pending l' = delete key (silent_pending l) ∧
  silent_flood l' = delete key (silent_flood l) ∧
  (∀ e, e ∈ upstream l' ↔ e ∈ upstream l ∧ e.1 ≠ key) ∧
  (∀ e, e ∈ silent l' ↔ e ∈ silent l ∧ e.1 ≠ key).
Proof.
  unfold forget_pin. simpl. split_and!; try done;
  intros e; rewrite elem_of_vec_retain, bool_decide_eq_true; done.
Qed.

(** The pins and the count after forgetting a list of hosts. *)
Lemma forget_pins_acc hosts l n :
  let r := foldl (λ acc host,
             let '(l, removed) := forget_pin acc.1 host in
             (l, (acc.2 + (if removed : bool then 1 else 0))%nat)) (l, n) hosts in
  pins r.1 = filter (λ kv, kv.1 ∉ lookup_key <$> hosts) (pins l) ∧
  (r.2 + size (pins r.1) = n + size (pins l))%nat.
Proof.
  revert l n. induction hosts as [|h hosts IH]; intros l n; cbn [foldl].
  - simpl. split; [|done]. rewrite map_filter_id; [done|]. set_solver.
  - cbn [fst snd]. destruct (forget_pin l h) as [l' removed] eqn:E.
    assert (pins l' = delete (lookup_key h) (pins l)) as Hp
      by (pose proof (forget_pin_key l h) as [H0 _]; by rewrite E in H0).
    assert (removed = bool_decide (is_Some (pins l !! lookup_key h))) as Hr
      by (unfold forget_pin in E; by simplify_eq).
    destruct (IH l' (n + (if removed then 1 else 0))%nat) as [IH1 IH2]. split.
    + rewrite IH1, Hp. apply map_eq. intros k. apply option_eq. intros t.
      rewrite !map_lookup_filter_Some, lookup_delete_Some. csimpl.
      rewrite not_elem_of_cons. naive_solver.
    + etrans; [apply IH2|]. rewrite Hp, map_size_delete, Hr.
      destruct (pins l !! lookup_key h) eqn:Hk; [|rewrite bool_decide_eq_false_2;
        [simpl; lia|by intros []]].
      rewrite bool_decide_eq_true_2 by eauto. simpl.
      assert (size (pins l) ≠ 0)%nat by (apply map_size_ne_0_lookup; eauto). lia.
Qed.

(** Forgetting leaves no record of the hosts. *)
Definition unrecorded (key : bytes) (l : Learning) : Prop :=
  recent l !! key = None ∧ silent_pending l !! key = None ∧ silent_flood l !! key = None ∧
  (key ∉ (upstream l).*1) ∧ (key ∉ (silent l).*1).

Lemma retain_ne_fst (key k : bytes) (es : list (bytes * Z)) :
  key = k ∨ (key ∉ es.*1) → (key ∉ (vec_retain (λ e, bool_decide (e.1 ≠ k)) es).*1).
Proof.
  intros Hk (e & -> & [He Hne%bool_decide_eq_true_1]%elem_of_vec_retain)%list_elem_of_fmap.
  destruct Hk as [?|Hk]; [done|]. by apply Hk, list_elem_of_fmap_2.
Qed.

Lemma forget_pin_unrecorded key l host :
  key = lookup_key host ∨ unrecorded key l → unrecorded key (forget_pin l host).1.
Proof.
  intros Hk. unfold unrecorded, forget_pin in *. simpl.
  split_and!; try (apply lookup_delete_None; naive_solver); apply retain_ne_fst; naive_solver.
Qed.

Lemma forget_pins_unrecorded hosts l host :
  host ∈ hosts → unrecorded (lookup_key host) (forget_pins l hosts).1.
Proof.
  unfold forget_pins. generalize (l, 0%nat). intros acc Hin.
  assert (lookup_key host ∈ lookup_key <$> hosts ∨ unrecorded (lookup_key host) acc.1) as Hor
    by (left; by apply list_elem_of_fmap_2).
  clear Hin. revert acc Hor. induction hosts as [|h hosts IH]; intros [l' n] Hor.
  { simpl in *. set_solver. }
  cbn [foldl]. apply IH. cbn [fst snd] in *. pose proof (forget_pin_unrecorded (lookup_key host) l' h).
  destruct (forget_pin l' h) as [l'' r]. cbn [fst]. csimpl in Hor.
  rewrite elem_of_cons in Hor. simpl in *. tauto.
Qed.

(** ** The pins file *)

#[global] Instance pin_le_total : Total pin_le.
Proof.
  intros [a s] [b t]. unfold pin_le. simpl.
  destruct (decide (a = b)) as [->|Hne]; [destruct (Z.le_ge_cases s t); auto|].
  destruct (total bytes_le a b); auto.
Qed.

Lemma collect_map_lookup (es : list (bytes * Z)) (acc : gmap bytes Z) (k : bytes) : NoDup es.*1 →
  foldl (λ m e, <[e.1 := e.2]> m) acc es !! k =
  match (list_to_map es : gmap bytes Z) !! k with Some t => Some t | None => acc !! k end.
Proof.
  revert acc. induction es as [|[h t] es IH]; intros acc; csimpl; [by rewrite lookup_empty|].
  intros [Hni Hn]%NoDup_cons. rewrite IH by done. destruct (decide (k = h)) as [->|Hne].
  - by rewrite (not_elem_of_list_to_map_1 es h Hni), !lookup_insert_eq.
  - by rewrite !lookup_insert_ne by done.
Qed.

Lemma pin_entries_id (es : list (bytes * Z)) :
  (∀ e, e ∈ es → e.1 ≠ [] ∧ lookup_key e.1 = e.1) →
  filter (λ e, e.1 ≠ [])
    ((λ p, (lookup_key (pin_host p), pin_learned_at p)) <$>
      ((λ p, {| pin_host := p.1; pin_learned_at := p.2 |}) <$> es)) = es.
Proof.
  induction es as [|[h t] es IH]; intros He; csimpl; [done|].
  destruct (He (h, t) ltac:(set_solver)) as [Hne Hk]. simpl in *.
  rewrite Hk, filter_cons_True by done. f_equal. apply IH. set_solver.
Qed.

Lemma collect_map_pins `{HashOrder} (m : gmap bytes Z) es : es ≡ₚ hash_iter m →
  (∀ (key : bytes) t, m !! key = Some t → key ≠ [] ∧ lookup_key key = key) →
  collect_map (filter (λ e, e.1 ≠ [])
    ((λ p, (lookup_key (pin_host p), pin_learned_at p)) <$>
      ((λ p, {| pin_host := p.1; pin_learned_at := p.2 |}) <$> es))) = m.
Proof.
  rewrite hash_iter_perm. intros Hes Hm. rewrite pin_entries_id.
  2: { intros [k t]. rewrite Hes, elem_of_map_to_list. apply Hm. }
  assert (NoDup es.*1) as Hn by (rewrite Hes; apply NoDup_fst_map_to_list).
  apply map_eq. intros k. unfold collect_map. rewrite collect_map_lookup by done.
  rewrite (list_to_map_proper _ _ Hn Hes), list_to_map_to_list, lookup_empty.
  by destruct (m !! k).
Qed.

(** The pins written are the pins read back. *)
Lemma learned_pins_read `{PinsJson, HashOrder} l :
  (∀ key t, pins l !! key = Some t → key ≠ [] ∧ lookup_key key = key ∧ 0 <= t <= U64_MAX) →
  parse_pins (learned_pins_json l) = pins l.
Proof.
  intros Hk. assert (learned_pins l ≡ₚ hash_iter (pins l)) as Hperm by apply merge_sort_Permutation.
  unfold parse_pins, learned_pins_json. rewrite pins_json_roundtrip.
  { cbn [pins_version pins_entries]. rewrite Z.eqb_refl. apply collect_map_pins; [done|]. intros key t Ht%Hk. tauto. }
  split; [done|]. cbn [pins_entries]. apply Forall_fmap, Forall_forall. intros [key t] Hel. simpl.
  rewrite Hperm, hash_iter_perm, elem_of_map_to_list in Hel. by apply Hk in Hel as (_ & _ & ?).
Qed.
