(* ===== verification/PolicyTrace.v ===== *)
(** * The policy as a state machine

    Every method that changes the learning state is an [op]; [apply_op] runs one, [run] a
    sequence. The theorems hold for every sequence of operations, so for every
    interleaving of the callers that share the policy (each method holds the mutex from
    its first read to its last write). *)
From S2P Require Import Prelude RustStr Collections Net HostPattern Bundled Policy PolicyFacts.

Inductive op :=
| OpClientRejection (host : bytes) (kind : RejectionKind) (now : Z)
| OpUpstreamUntrusted (host : bytes) (now : Z)
| OpSilentRefusal (host : bytes) (now : Z)
| OpInterceptedHandshake (host : bytes) (now : Z)
| OpNetworkChange (now : Z)
| OpForgetPins (hosts : list bytes).

Definition apply_op `{HashOrder} (l : Learning) (o : op) : Learning :=
  match o with
  | OpClientRejection host kind now => (record_client_rejection l host kind now).1
  | OpUpstreamUntrusted host now => (learn_upstream_untrusted l host now).1
  | OpSilentRefusal host now => (record_silent_refusal l host now).1
  | OpInterceptedHandshake host now => record_intercepted_handshake l host now
  | OpNetworkChange now => on_network_change l now
  | OpForgetPins hosts => (forget_pins l hosts).1
  end.
Definition run `{HashOrder} (l : Learning) (ops : list op) : Learning := foldl apply_op l ops.

(** The same as a relation, with the states reachable from a fresh policy. *)
Inductive step `{HashOrder} : Learning → Learning → Prop :=
| step_op l o : step l (apply_op l o).
Definition initial (l : Learning) : Prop := ∃ saved, l = set_pins saved Learning_default.
Definition reachable `{HashOrder} (l : Learning) : Prop := ∃ l0, initial l0 ∧ rtc step l0 l.

(** ** Memory bound *)

Definition fits {V} (m : gmap bytes V) : Prop := (size m ≤ MAX_RECENT_REJECTIONS)%nat.
Definition learning_bounded (l : Learning) : Prop :=
  fits (recent l) ∧ fits (silent_pending l) ∧ fits (silent_hosts l) ∧
  fits (silent_flood l) ∧ fits (trusted l) ∧ fits (held_back_logged l).

(** ** Pins that no burst and no network change may take back *)

Definition firm_pin (key : bytes) (t : Z) (l : Learning) : Prop :=
  pins l !! key = Some t ∧ (key ∉ (upstream l).*1) ∧ (key ∉ (silent l).*1).

(** An operation at which a pin learned at [t] is still live, and that does not forget it. *)
Definition respects (key : bytes) (t : Z) (o : op) : Prop :=
  match o with
  | OpClientRejection _ _ now | OpUpstreamUntrusted _ now | OpSilentRefusal _ now =>
      pin_is_live t now = true
  | OpInterceptedHandshake _ _ | OpNetworkChange _ => True
  | OpForgetPins hosts => key ∉ (lookup_key <$> hosts)
  end.

#[global] Instance respects_dec key t o : base.Decision (respects key t o).
Proof. destruct o; simpl; apply _. Defined.

(** ** Evidence for a pin learned from silence *)

(** [t] is the time of a silent refusal of the host with this key. *)
Definition refused_at (ops : list op) (key : bytes) (t : Z) : Prop :=
  ∃ host, OpSilentRefusal host t ∈ ops ∧ lookup_key host = key.
(** The refusals the state remembers all happened, each second once. *)
Definition remembers (ops : list op) (l : Learning) : Prop :=
  (∀ (key : bytes) seconds, silent_pending l !! key = Some seconds →
     NoDup seconds ∧ ∀ t, t ∈ seconds → refused_at ops key t) ∧
  (∀ (key : bytes) counts, silent_flood l !! key = Some counts →
     NoDup counts.*1 ∧ ∀ t, t ∈ counts.*1 → refused_at ops key t).

(** ** The branches of [record_silent_refusal] *)

Section SilentOutcome.
Context `{HashOrder} (l : Learning) (key : bytes) (now : Z).

(** The state once the refusal was noted for a burst, and then counted for a flood. *)
Definition sr_noted : Learning := (note_silent_host (prune_pins l now) key now).1.
Definition sr_counted : Learning :=
  (count_for_flood (set_silent_suppressed_until None sr_noted) key now).1.
(** The pending map with room for the host, and the host's live seconds in it. *)
Definition sr_pending : gmap bytes (list Z) :=
  if bool_decide (is_Some (silent_pending sr_counted !! key)) then silent_pending sr_counted
  else make_room (λ seconds, existsb (λ at_, within at_ now REJECTION_WINDOW_SECS) seconds)
         (λ seconds, default 0 (iter_max seconds)) (silent_pending sr_counted).
Definition sr_seconds : list Z :=
  vec_retain (λ at_, within at_ now REJECTION_WINDOW_SECS) (default [] (sr_pending !! key)).
(** The host recently completed a handshake with our certificate. *)
Definition sr_trusted : bool :=
  match trusted l !! key with
  | Some t => within (trusted_last t) now REJECTION_WINDOW_SECS
  | None => false
  end.
Definition sr_guarded : Learning :=
  set_silent_pending (delete key (silent_pending sr_counted)) sr_counted.

(** The refusal counts: the host is no pin, and there is no burst and no suppression. *)
Definition sr_open : Prop :=
  pins (prune_pins l now) !! key = None ∧
  suppression_holds (silent_suppressed_until l) now SILENT_SUPPRESS_SECS = false ∧
  (size (silent_hosts sr_noted) < SILENT_BURST_HOSTS)%nat.

Inductive silent_outcome : Learning → bool → Prop :=
| so_pinned : is_Some (pins (prune_pins l now) !! key) → silent_outcome (prune_pins l now) false
| so_burst :
    pins (prune_pins l now) !! key = None →
    (SILENT_BURST_HOSTS ≤ size (silent_hosts sr_noted))%nat →
    silent_outcome (silent_burst sr_noted now) false
| so_suppressed :
    pins (prune_pins l now) !! key = None →
    suppression_holds (silent_suppressed_until l) now SILENT_SUPPRESS_SECS = true →
    silent_outcome sr_noted false
| so_held_back counts :
    sr_open → sr_trusted = true → FloodCounts_is_flood counts = false →
    silent_outcome (log_held_back sr_guarded key counts now).1 false
| so_flood counts :
    sr_open → sr_trusted = true →
    (fc_refusals counts, fc_seconds counts) =
      PerSecond_count (default [] (silent_flood sr_counted !! key)) now →
    FloodCounts_is_flood counts = true →
    silent_outcome (learn_silent sr_guarded key now) true
| so_again :
    sr_open → sr_trusted = false → now ∈ sr_seconds →
    silent_outcome (set_silent_pending (<[key := sr_seconds]> sr_pending) sr_counted) false
| so_wait :
    sr_open → sr_trusted = false → now ∉ sr_seconds →
    (length (sr_seconds ++ [now]) < SILENT_REFUSALS)%nat →
    silent_outcome (set_silent_pending (<[key := sr_seconds ++ [now]]> sr_pending) sr_counted) false
| so_learned :
    sr_open → sr_trusted = false → now ∉ sr_seconds →
    (SILENT_REFUSALS ≤ length (sr_seconds ++ [now]))%nat →
    silent_outcome
      (learn_silent (set_silent_pending (<[key := sr_seconds ++ [now]]> sr_pending) sr_counted)
         key now) true.
End SilentOutcome.

(** * Lemmas *)

Section Trace.
Context `{HashOrder}.

Lemma run_app l a b : run l (a ++ b) = run (run l a) b.
Proof. apply foldl_app. Qed.

Lemma reachable_run l0 ops : initial l0 → reachable (run l0 ops).
Proof.
  intros Hi. exists l0. split; [done|]. clear Hi. revert l0.
  induction ops as [|o ops IH]; intros l0; [constructor|].
  eapply rtc_l; [apply step_op|apply IH].
Qed.

Lemma rtc_step_run l0 l : rtc step l0 l → ∃ ops, l = run l0 ops.
Proof.
  induction 1 as [l|l1 l2 l3 Hs _ [ops ->]]; [by exists []|].
  destruct Hs as [l1 o]. by exists (o :: ops).
Qed.

(** ** The bound *)

Lemma fits_empty {V} : fits (∅ : gmap bytes V).
Proof. unfold fits. rewrite map_size_empty. unfold MAX_RECENT_REJECTIONS. lia. Qed.

Lemma fits_sub {V} (m1 m2 : gmap bytes V) : m1 ⊆ m2 → fits m2 → fits m1.
Proof. unfold fits. intros ?%size_subseteq. lia. Qed.

Lemma fits_delete {V} (k : bytes) (m : gmap bytes V) : fits m → fits (delete k m).
Proof. apply fits_sub, delete_subseteq. Qed.

Lemma fits_guarded {V} (fresh : V → bool) (last : V → Z) (k : bytes) (v : V) (m : gmap bytes V) :
  fits m → fits (<[k := v]> (if bool_decide (is_Some (m !! k)) then m else make_room fresh last m)).
Proof. apply guarded_insert_size. Qed.

Lemma fits_room {V} (fresh : V → bool) (last : V → Z) (k : bytes) (v : V) (m : gmap bytes V) :
  fits m → fits (<[k := v]> (make_room fresh last m)).
Proof. intros. by apply insert_room_size, make_room_size. Qed.

Create HintDb fits.
#[local] Hint Resolve fits_empty fits_delete fits_guarded fits_room : fits.
#[local] Hint Extern 1 (fits (retain _ _)) =>
  eapply fits_sub; [apply retain_subseteq|] : fits.

(** Taking pins back changes the pins only. *)
Ltac frame_take_back :=
  repeat match goal with
  | |- context [take_back_all ?es ?l] => destruct (take_back_all_frame es l) as [? ->]; simpl
  end.
Ltac bounded :=
  frame_take_back; unfold learning_bounded in *; destruct_and?; simpl; split_and!;
  eauto with fits.

Lemma record_client_rejection_bounded l h k now :
  learning_bounded l → learning_bounded (record_client_rejection l h k now).1.
Proof.
  intros Hb. unfold record_client_rejection.
  repeat case_match; try done; rewrite ?make_room_recent_eq; bounded.
Qed.

Lemma learn_upstream_untrusted_bounded l h now :
  learning_bounded l → learning_bounded (learn_upstream_untrusted l h now).1.
Proof.
  intros Hb. unfold learn_upstream_untrusted, upstream_suppressed.
  repeat case_match; simplify_eq/=; try done; bounded.
Qed.

Lemma silent_burst_bounded l now : learning_bounded l → learning_bounded (silent_burst l now).
Proof.
  intros Hb. unfold silent_burst, silent_suppressed. rewrite silent_burst_loop_eq.
  case_match; simpl; bounded.
Qed.

Lemma note_silent_host_bounded l h now :
  learning_bounded l → learning_bounded (note_silent_host l h now).1.
Proof. intros Hb. unfold note_silent_host. bounded. Qed.

Lemma count_for_flood_bounded l h now :
  learning_bounded l → learning_bounded (count_for_flood l h now).1.
Proof. intros Hb. unfold count_for_flood. bounded. Qed.

Lemma log_held_back_bounded l h c now :
  learning_bounded l → learning_bounded (log_held_back l h c now).1.
Proof.
  intros Hb. unfold log_held_back. case_match; [done|].
  destruct (held_back_logged l !! h) as [at_|] eqn:E.
  - case_match; [done|]. unfold learning_bounded in *. destruct_and?. simpl. split_and!; try done.
    eapply insert_present_size; eauto.
  - bounded.
Qed.

Lemma learn_silent_bounded l h now : learning_bounded l → learning_bounded (learn_silent l h now).
Proof. intros Hb. unfold learn_silent. bounded. Qed.

(** The function takes one of these branches. *)
Lemma record_silent_refusal_outcome l h now : lookup_key h ≠ [] →
  silent_outcome l (lookup_key h) now (record_silent_refusal l h now).1
    (record_silent_refusal l h now).2.
Proof.
  intros Hne. unfold record_silent_refusal. rewrite bool_decide_eq_false_2 by done.
  set (key := lookup_key h).
  destruct (pins (prune_pins l now) !! key) eqn:Hp;
    [by rewrite bool_decide_eq_true_2 by eauto; apply so_pinned; rewrite Hp; eauto|].
  rewrite bool_decide_eq_false_2 by (by intros []).
  assert (note_silent_host (prune_pins l now) key now =
    (sr_noted l key now, size (silent_hosts (sr_noted l key now)))) as -> by done.
  cbv iota beta.
  match goal with |- context [Nat.leb SILENT_BURST_HOSTS ?n] =>
    destruct (Nat.leb SILENT_BURST_HOSTS n) eqn:Hb end;
    [apply Nat.leb_le in Hb; by apply so_burst|apply Nat.leb_gt in Hb].
  unfold silent_suppressed.
  change (silent_suppressed_until (sr_noted l key now)) with (silent_suppressed_until l).
  destruct (suppression_holds (silent_suppressed_until l) now SILENT_SUPPRESS_SECS) eqn:Hs;
    [by apply so_suppressed|].
  assert (sr_open l key now) as Ho by done.
  assert (count_for_flood (set_silent_suppressed_until None (sr_noted l key now)) key now =
    (sr_counted l key now,
     PerSecond_count (default [] (silent_flood (sr_counted l key now) !! key)) now)) as ->.
  { unfold sr_counted, count_for_flood. simpl. by rewrite lookup_insert_eq. }
  destruct (PerSecond_count _ now) as [refusals seconds] eqn:Hc.
  cbv iota beta. change (match trusted (sr_counted l key now) !! key with
    | Some t => within (trusted_last t) now REJECTION_WINDOW_SECS | None => false end)
    with (sr_trusted l key now).
  destruct (sr_trusted l key now) eqn:Hg.
  - change (set_silent_pending (delete key (silent_pending (sr_counted l key now)))
      (sr_counted l key now)) with (sr_guarded l key now).
    set (counts := {| fc_refusals := refusals; fc_seconds := seconds;
      fc_handshakes := recent_handshakes (sr_guarded l key now) key now |}).
    destruct (FloodCounts_is_flood counts) eqn:Hf; simpl;
      [by eapply so_flood with counts|by apply so_held_back].
  - fold (sr_pending l key now). fold (sr_seconds l key now).
    case_bool_decide as Hin; [by apply so_again|].
    match goal with |- context [Nat.ltb ?n SILENT_REFUSALS] =>
      destruct (Nat.ltb_spec n SILENT_REFUSALS) end; [by apply so_wait|by apply so_learned].
Qed.

Lemma sr_noted_bounded l key now : learning_bounded l → learning_bounded (sr_noted l key now).
Proof. intros Hb. by apply note_silent_host_bounded. Qed.

Lemma sr_counted_bounded l key now : learning_bounded l → learning_bounded (sr_counted l key now).
Proof. intros Hb. by apply count_for_flood_bounded, (sr_noted_bounded l). Qed.

Lemma sr_guarded_bounded l key now : learning_bounded l → learning_bounded (sr_guarded l key now).
Proof.
  intros Hb%(sr_counted_bounded l key now). unfold sr_guarded. bounded.
Qed.

Lemma sr_pending_bounded l key now v : learning_bounded l →
  learning_bounded (set_silent_pending (<[key := v]> (sr_pending l key now)) (sr_counted l key now)).
Proof.
  intros Hb%(sr_counted_bounded l key now). unfold sr_pending. bounded.
Qed.

Lemma record_silent_refusal_bounded l h now :
  learning_bounded l → learning_bounded (record_silent_refusal l h now).1.
Proof.
  intros Hb. destruct (decide (lookup_key h = [])) as [Hk|Hk].
  { unfold record_silent_refusal. by rewrite bool_decide_eq_true_2. }
  destruct (record_silent_refusal_outcome l h now Hk);
    eauto using silent_burst_bounded, sr_noted_bounded, log_held_back_bounded,
      learn_silent_bounded, sr_guarded_bounded, sr_pending_bounded.
Qed.

Lemma record_intercepted_handshake_bounded l h now :
  learning_bounded l → learning_bounded (record_intercepted_handshake l h now).
Proof. intros Hb. unfold record_intercepted_handshake. case_bool_decide; [done|]. bounded. Qed.

Lemma on_network_change_bounded l now :
  learning_bounded l → learning_bounded (on_network_change l now).
Proof. intros Hb. unfold on_network_change. rewrite !take_back_recent_eq. bounded. Qed.

Lemma forget_pin_bounded l h : learning_bounded l → learning_bounded (forget_pin l h).1.
Proof. intros Hb. unfold forget_pin. bounded. Qed.

(** An invariant of forgetting one pin is one of forgetting several. *)
Lemma forget_pins_inv (P : Learning → Prop) l hosts :
  (∀ l h, h ∈ hosts → P l → P (forget_pin l h).1) → P l → P (forget_pins l hosts).1.
Proof.
  intros Hstep. change l with (l, 0%nat).1 at 1. unfold forget_pins. generalize (l, 0%nat). clear l.
  induction hosts as [|h hosts IH]; intros [l n] Hl; [done|]. cbn [foldl].
  apply IH; [set_solver|]. cbn [fst snd] in *.
  pose proof (Hstep l h ltac:(set_solver) Hl). by destruct (forget_pin l h).
Qed.

Lemma forget_pins_bounded l hosts : learning_bounded l → learning_bounded (forget_pins l hosts).1.
Proof. apply forget_pins_inv. eauto using forget_pin_bounded. Qed.

Lemma apply_op_bounded l o : learning_bounded l → learning_bounded (apply_op l o).
Proof.
  destruct o; simpl; eauto using record_client_rejection_bounded,
    learn_upstream_untrusted_bounded, record_silent_refusal_bounded,
    record_intercepted_handshake_bounded, on_network_change_bounded, forget_pins_bounded.
Qed.

Lemma initial_bounded l : initial l → learning_bounded l.
Proof. intros [saved ->]. unfold learning_bounded. simpl. split_and!; apply fits_empty. Qed.

Lemma reachable_bounded l : reachable l → learning_bounded l.
Proof.
  intros (l0 & Hi & Hr). apply initial_bounded in Hi. revert Hi.
  induction Hr as [l|l1 l2 l3 Hs _ IH]; [done|]. intros Hb.
  destruct Hs as [l1 o]. by apply IH, apply_op_bounded.
Qed.
(** ** Pins that stay *)

Lemma retain_fst (key : bytes) (f : bytes * Z → bool) es :
  (key ∉ es.*1) → (key ∉ (vec_retain f es).*1).
Proof.
  intros Hk (e & -> & [He _]%elem_of_vec_retain)%list_elem_of_fmap. apply Hk.
  by apply list_elem_of_fmap_2.
Qed.

Lemma app_fst (key k : bytes) (t : Z) es :
  (key ∉ es.*1) → key ≠ k → (key ∉ (es ++ [(k, t)]).*1).
Proof. intros. rewrite fmap_app. set_solver. Qed.

(** Only these three fields matter. *)
Lemma firm_pin_fields key t l l' :
  firm_pin key t l → pins l' = pins l → upstream l' = upstream l → silent l' = silent l →
  firm_pin key t l'.
Proof. unfold firm_pin. by intros ? -> -> ->. Qed.

Lemma firm_pin_prune key t l now :
  pin_is_live t now = true → firm_pin key t l → firm_pin key t (prune_pins l now).
Proof. intros Hl (? & ? & ?). split_and!; try done. simpl. by rewrite retain_lookup. Qed.

Lemma firm_pin_take_back key t es l :
  (key ∉ es.*1) → firm_pin key t l → firm_pin key t (take_back_all es l).
Proof.
  intros Hk (Hp & Hu & Hs). split.
  - rewrite take_back_all_lookup. split; [done|]. intros Hin. apply Hk.
    by apply (list_elem_of_fmap_2 fst _ (key, t)).
  - by destruct (take_back_all_frame es l) as [p ->].
Qed.

(** A method returns early when the host is a pin already. *)
Lemma firm_pin_other key t l k : firm_pin key t l → pins l !! k = None → key ≠ k.
Proof. intros (Hp & _) Hk ->. congruence. Qed.

Lemma firm_pin_learn_silent key t l k now :
  key ≠ k → firm_pin key t l → firm_pin key t (learn_silent l k now).
Proof.
  intros Hne (Hp & Hu & Hs). unfold learn_silent. split_and!; simpl.
  - by rewrite lookup_insert_ne.
  - by apply retain_fst.
  - apply app_fst; [by apply retain_fst|done].
Qed.

Lemma firm_pin_silent_burst key t l now : firm_pin key t l → firm_pin key t (silent_burst l now).
Proof.
  intros (Hp & Hu & Hs). split.
  - apply silent_burst_lookup. split; [done|]. intros [Hin _]. apply Hs.
    by apply (list_elem_of_fmap_2 fst _ (key, t)).
  - unfold silent_burst, silent_suppressed. rewrite silent_burst_loop_eq.
    case_match; simpl; frame_take_back; by split; [|apply retain_fst].
Qed.

Lemma record_client_rejection_firm key t l h k now :
  pin_is_live t now = true → firm_pin key t l →
  firm_pin key t (record_client_rejection l h k now).1.
Proof.
  intros Hl Hf. unfold record_client_rejection. case_bool_decide; [done|].
  apply (firm_pin_prune _ _ _ now Hl) in Hf. case_bool_decide as Hn; [done|].
  apply eq_None_not_Some in Hn.
  pose proof (firm_pin_other _ _ _ _ Hf Hn) as Hne. destruct Hf as (Hp & Hu & Hs).
  repeat case_match; split_and!; simpl; try done;
    [by rewrite lookup_insert_ne|by apply retain_fst|by apply retain_fst].
Qed.

Lemma learn_upstream_untrusted_firm key t l h now :
  pin_is_live t now = true → firm_pin key t l →
  firm_pin key t (learn_upstream_untrusted l h now).1.
Proof.
  intros Hl Hf. unfold learn_upstream_untrusted. case_bool_decide; [done|].
  apply (firm_pin_prune _ _ _ now Hl) in Hf. case_bool_decide as Hn; [done|].
  apply eq_None_not_Some in Hn.
  pose proof (firm_pin_other _ _ _ _ Hf Hn) as Hne. unfold upstream_suppressed.
  case_match; simplify_eq/=. case_match; [by simplify_eq|]. simplify_eq.
  destruct Hf as (Hp & Hu & Hs). case_match; split; simpl.
  - apply take_back_all_lookup. split; [done|].
    intros [[Hin _]%elem_of_vec_retain _]%elem_of_vec_retain. apply Hu.
    by apply (list_elem_of_fmap_2 fst _ (key, t)).
  - frame_take_back. split; [by do 2 apply retain_fst|done].
  - by rewrite lookup_insert_ne.
  - split; [|done]. by apply app_fst; [apply retain_fst|].
Qed.

Lemma sr_noted_firm key t l k now :
  pin_is_live t now = true → firm_pin key t l → firm_pin key t (sr_noted l k now).
Proof. intros Hl Hf%(firm_pin_prune _ _ _ now Hl). by eapply firm_pin_fields. Qed.

Lemma sr_counted_firm key t l k now :
  pin_is_live t now = true → firm_pin key t l → firm_pin key t (sr_counted l k now).
Proof. intros Hl Hf%(sr_noted_firm _ _ _ k now Hl). by eapply firm_pin_fields. Qed.

Lemma log_held_back_firm key t l k c now :
  firm_pin key t l → firm_pin key t (log_held_back l k c now).1.
Proof. intros Hf. unfold log_held_back. repeat case_match; by eapply firm_pin_fields. Qed.

Lemma record_silent_refusal_firm key t l h now :
  pin_is_live t now = true → firm_pin key t l → firm_pin key t (record_silent_refusal l h now).1.
Proof.
  intros Hl Hf. destruct (decide (lookup_key h = [])) as [Hk|Hk].
  { unfold record_silent_refusal. by rewrite bool_decide_eq_true_2. }
  pose proof (firm_pin_prune _ _ _ now Hl Hf) as Hp.
  pose proof (sr_counted_firm _ _ _ (lookup_key h) now Hl Hf) as Hc.
  destruct (record_silent_refusal_outcome l h now Hk) as
    [| | | |counts [Hn _]| | |[Hn _]]; eauto using firm_pin_silent_burst, sr_noted_firm.
  - apply log_held_back_firm. by eapply firm_pin_fields.
  - apply firm_pin_learn_silent; [by eapply firm_pin_other|by eapply firm_pin_fields].
  - apply firm_pin_learn_silent; [by eapply firm_pin_other|by eapply firm_pin_fields].
Qed.

Lemma on_network_change_firm key t l now :
  firm_pin key t l → firm_pin key t (on_network_change l now).
Proof.
  intros (Hp & Hu & Hs). split.
  - apply on_network_change_lookup. split; [done|].
    split; intros [Hin%(list_elem_of_fmap_2 fst) _]; auto.
  - unfold on_network_change. rewrite !take_back_recent_eq. simpl. frame_take_back. set_solver.
Qed.

Lemma forget_pin_firm key t l h :
  key ≠ lookup_key h → firm_pin key t l → firm_pin key t (forget_pin l h).1.
Proof.
  intros Hne (Hp & Hu & Hs). unfold forget_pin. split_and!; simpl; try by apply retain_fst.
  by rewrite lookup_delete_ne.
Qed.

Lemma apply_op_firm key t l o : respects key t o → firm_pin key t l → firm_pin key t (apply_op l o).
Proof.
  destruct o; simpl; intros Hr Hf; eauto using record_client_rejection_firm,
    learn_upstream_untrusted_firm, record_silent_refusal_firm, on_network_change_firm.
  - unfold record_intercepted_handshake. case_bool_decide; [done|]. by eapply firm_pin_fields.
  - apply forget_pins_inv; [|done]. intros l' h Hin. apply forget_pin_firm. set_solver.
Qed.

Lemma run_firm key t l ops :
  Forall (respects key t) ops → firm_pin key t l → firm_pin key t (run l ops).
Proof.
  intros Hr. revert l. induction Hr as [|o ops Ho _ IH]; intros l Hf; [done|].
  by apply IH, apply_op_firm.
Qed.
(** ** Evidence *)

(** Forgetting evidence is always safe. *)
Definition forgets (l l' : Learning) : Prop :=
  silent_pending l' ⊆ silent_pending l ∧ silent_flood l' ⊆ silent_flood l.

Lemma forgets_trans l1 l2 l3 : forgets l1 l2 → forgets l2 l3 → forgets l1 l3.
Proof. intros [] []. split; by etrans. Qed.

Lemma refused_at_app ops o key t : refused_at ops key t → refused_at (ops ++ [o]) key t.
Proof. intros (h & Hin & Hk). exists h. set_solver. Qed.

Lemma refused_at_last ops host now :
  refused_at (ops ++ [OpSilentRefusal host now]) (lookup_key host) now.
Proof. exists host. set_solver. Qed.

Lemma remembers_forgets ops l l' : remembers ops l → forgets l l' → remembers ops l'.
Proof.
  intros [Hp Hf] [Sp Sf]. split; intros key v Hv;
    [eapply Hp, lookup_weaken|eapply Hf, lookup_weaken]; eauto.
Qed.

Lemma remembers_app ops o l : remembers ops l → remembers (ops ++ [o]) l.
Proof.
  intros [Hp Hf]. split; intros key v Hv;
    [destruct (Hp _ _ Hv) as [? Hr]|destruct (Hf _ _ Hv) as [? Hr]];
    split; eauto using refused_at_app.
Qed.

Lemma remembers_initial l : initial l → remembers [] l.
Proof.
  intros [saved ->]. split; simpl; intros key v Hv; by rewrite lookup_empty in Hv.
Qed.

Ltac forgetting :=
  frame_take_back; split; simpl;
  try first [done | apply delete_subseteq | apply map_empty_subseteq].

Lemma forgets_learn_silent l h now : forgets l (learn_silent l h now).
Proof. unfold learn_silent. forgetting. Qed.

Lemma forgets_silent_burst l now : forgets l (silent_burst l now).
Proof. unfold silent_burst. forgetting. Qed.

Lemma forgets_log_held_back l h c now : forgets l (log_held_back l h c now).1.
Proof. unfold log_held_back. repeat case_match; forgetting. Qed.

Lemma forgets_forget_pin l h : forgets l (forget_pin l h).1.
Proof. unfold forget_pin. forgetting. Qed.

Lemma forgets_op l o :
  match o with OpSilentRefusal _ _ => False | _ => True end → forgets l (apply_op l o).
Proof.
  destruct o; simpl; try done; intros _.
  - unfold record_client_rejection. repeat case_match; forgetting.
  - unfold learn_upstream_untrusted, upstream_suppressed.
    repeat case_match; simplify_eq/=; forgetting.
  - unfold record_intercepted_handshake. case_match; forgetting.
  - unfold on_network_change. forgetting.
  - apply (forget_pins_inv (forgets l)); [|done].
    eauto using forgets_trans, forgets_forget_pin.
Qed.

(** Counting per second keeps one entry per second. *)
Lemma PerSecond_bump_fst now l : (PerSecond_bump now l).*1 =
  if bool_decide (now ∈ l.*1) then l.*1 else l.*1 ++ [now].
Proof.
  induction l as [|[a c] l IH]; simpl; [done|].
  destruct (Z.eqb_spec a now) as [->|Hne]; csimpl.
  - rewrite bool_decide_eq_true_2; [done|]. set_solver.
  - rewrite IH. repeat case_bool_decide; simpl; try done; set_solver.
Qed.

Lemma PerSecond_add_fst now l t :
  t ∈ (PerSecond_add l now).*1 → t = now ∨ t ∈ l.*1.
Proof.
  unfold PerSecond_add. rewrite PerSecond_bump_fst. intros Ht.
  assert (t = now ∨ t ∈ (vec_retain (λ e, within e.1 now SILENT_FLOOD_SECS) l).*1) as [?|Hin]
    by (case_bool_decide; set_solver); [by left|right].
  apply list_elem_of_fmap in Hin as (e & -> & [He _]%elem_of_vec_retain).
  by apply list_elem_of_fmap_2.
Qed.

Lemma NoDup_retain_fst (f : Z * Z → bool) l : NoDup l.*1 → NoDup (vec_retain f l).*1.
Proof.
  induction l as [|e l IH]; intros Hn; [constructor|]. csimpl in Hn.
  apply NoDup_cons in Hn as [Hni Hn]. rewrite vec_retain_cons. case_match; [|by apply IH].
  csimpl. apply NoDup_cons. split; [|by apply IH].
  intros (e' & Heq & [He _]%elem_of_vec_retain)%list_elem_of_fmap. apply Hni.
  rewrite Heq. by apply list_elem_of_fmap_2.
Qed.

Lemma PerSecond_add_NoDup now l : NoDup l.*1 → NoDup (PerSecond_add l now).*1.
Proof.
  intros Hn. unfold PerSecond_add. rewrite PerSecond_bump_fst.
  apply (NoDup_retain_fst (λ e, within e.1 now SILENT_FLOOD_SECS)) in Hn.
  case_bool_decide as Hin; [done|]. apply NoDup_app. split; [done|].
  split; [set_solver|apply NoDup_singleton].
Qed.

Lemma PerSecond_count_seconds now l :
  (PerSecond_count l now).2 = length (vec_retain (λ e, within e.1 now SILENT_FLOOD_SECS) l).
Proof.
  unfold PerSecond_count. generalize 0 at 1. 
  set (r := vec_retain _ _). clearbody r. intros z.
  cut (∀ acc : Z * nat, (foldl (λ acc (e : Z * Z), (sat_add32 acc.1 e.2, S acc.2)) acc r).2
         = (length r + acc.2)%nat).
  { intros ->. simpl. lia. }
  induction r as [|e r IH]; intros acc; simpl; [done|]. rewrite IH. simpl. lia.
Qed.
(** What a guarded map holds was there before. *)
Lemma guarded_sub {V} (fresh : V → bool) (last : V → Z) (k : bytes) (m : gmap bytes V) :
  (if bool_decide (is_Some (m !! k)) then m else make_room fresh last m) ⊆ m.
Proof. case_bool_decide; [done|apply make_room_sub]. Qed.

Lemma sr_counted_remembers ops l h now : remembers ops l →
  remembers (ops ++ [OpSilentRefusal h now]) (sr_counted l (lookup_key h) now).
Proof.
  intros Hr. apply (remembers_app _ (OpSilentRefusal h now)) in Hr as [Hp Hf].
  split; [exact Hp|]. intros key counts. unfold sr_counted, count_for_flood. simpl.
  pose proof (guarded_sub (λ refusals, (0 <? (PerSecond_count refusals now).2)%nat)
    PerSecond_last (lookup_key h) (silent_flood l)) as Hsub.
  case_bool_decide; simpl in *;
  match goal with |- (<[_ := PerSecond_add (default [] (?m !! _)) _]> _ !! _) = _ → _ =>
    set (flood := m) in * end; clearbody flood.
  all: intros [[<- <-]|[Hne Hk]]%lookup_insert_Some; [|eapply Hf, lookup_weaken; eauto].
  all: assert (NoDup (default [] (flood !! lookup_key h)).*1 ∧
      ∀ t, t ∈ (default [] (flood !! lookup_key h)).*1 →
        refused_at (ops ++ [OpSilentRefusal h now]) (lookup_key h) t) as [Hn Ht]
    by (destruct (flood !! lookup_key h) eqn:E; simpl;
        [eapply Hf, lookup_weaken; eauto|split; [constructor|set_solver]]).
  all: split; [by apply PerSecond_add_NoDup|].
  all: intros t [->|?]%PerSecond_add_fst; eauto using refused_at_last.
Qed.

Lemma sr_seconds_evidence ops l h now : remembers ops l →
  NoDup (sr_seconds l (lookup_key h) now) ∧
  ∀ t, t ∈ sr_seconds l (lookup_key h) now →
    refused_at (ops ++ [OpSilentRefusal h now]) (lookup_key h) t ∧
    within t now REJECTION_WINDOW_SECS = true.
Proof.
  intros [Hp _]%(sr_counted_remembers _ _ h now). unfold sr_seconds.
  assert (sr_pending l (lookup_key h) now ⊆ silent_pending (sr_counted l (lookup_key h) now))
    as Hsub by apply guarded_sub.
  destruct (sr_pending l (lookup_key h) now !! lookup_key h) as [seconds|] eqn:E; simpl.
  - eapply lookup_weaken in E; [|done]. apply Hp in E as [Hn Ht].
    split; [by apply vec_retain_NoDup|]. intros t [Hin Hw]%elem_of_vec_retain. auto.
  - split; [constructor|set_solver].
Qed.

Lemma sr_pending_remembers ops l h now seconds : remembers ops l →
  NoDup seconds → (∀ t, t ∈ seconds → t = now ∨ t ∈ sr_seconds l (lookup_key h) now) →
  remembers (ops ++ [OpSilentRefusal h now])
    (set_silent_pending (<[lookup_key h := seconds]> (sr_pending l (lookup_key h) now))
       (sr_counted l (lookup_key h) now)).
Proof.
  intros Hr Hn Ht. destruct (sr_seconds_evidence _ _ h now Hr) as [_ Hs].
  apply (sr_counted_remembers _ _ h now) in Hr as [Hp Hf].
  split; [|exact Hf]. simpl. intros key v [[<- <-]|[Hne Hk]]%lookup_insert_Some.
  - split; [done|]. intros t [->|Hin]%Ht; [apply refused_at_last|by apply Hs].
  - eapply Hp, lookup_weaken; [exact Hk|]. apply guarded_sub.
Qed.

Lemma NoDup_snoc {A} (l : list A) x : NoDup l → x ∉ l → NoDup (l ++ [x]).
Proof. intros. apply NoDup_app. split_and!; [done|set_solver|apply NoDup_singleton]. Qed.

Lemma record_silent_refusal_remembers ops l h now : remembers ops l →
  remembers (ops ++ [OpSilentRefusal h now]) (record_silent_refusal l h now).1.
Proof.
  intros Hr. destruct (decide (lookup_key h = [])) as [Hk|Hk].
  { unfold record_silent_refusal. rewrite bool_decide_eq_true_2 by done. by apply remembers_app. }
  pose proof (sr_counted_remembers _ _ h now Hr) as Hc.
  pose proof (sr_seconds_evidence _ _ h now Hr) as [Hn _].
  pose proof (remembers_app _ (OpSilentRefusal h now) _ Hr) as Ha.
  assert (forgets (sr_counted l (lookup_key h) now) (sr_guarded l (lookup_key h) now))
    by (unfold sr_guarded; forgetting).
  destruct (record_silent_refusal_outcome l h now Hk).
  - exact Ha.
  - eapply remembers_forgets; [|apply forgets_silent_burst]. exact Ha.
  - exact Ha.
  - eauto using remembers_forgets, forgets_log_held_back.
  - eauto using remembers_forgets, forgets_learn_silent.
  - apply sr_pending_remembers; auto.
  - apply sr_pending_remembers; [done|by apply NoDup_snoc|set_solver].
  - eapply remembers_forgets; [|apply forgets_learn_silent].
    apply sr_pending_remembers; [done|by apply NoDup_snoc|set_solver].
Qed.

Lemma run_remembers l ops : initial l → remembers ops (run l ops).
Proof.
  intros Hi. induction ops as [|o ops IH] using rev_ind; [by apply remembers_initial|].
  rewrite run_app. simpl. pose proof (forgets_op (run l ops) o) as Ho.
  destruct o; try by apply record_silent_refusal_remembers.
  all: eapply remembers_forgets; [by apply remembers_app|by apply Ho].
Qed.

(** The two kinds of evidence that make a pin: three seconds in the window, or the ten of
    a flood. *)
Lemma record_silent_refusal_evidence ops l h now : is_u64 now → remembers ops l →
  (record_silent_refusal l h now).2 = true →
  ∃ seconds, NoDup seconds ∧ (SILENT_REFUSALS ≤ length seconds)%nat ∧
    ∀ t, t ∈ seconds → refused_at (ops ++ [OpSilentRefusal h now]) (lookup_key h) t ∧
      within t now REJECTION_WINDOW_SECS = true.
Proof.
  intros Hu Hr. destruct (decide (lookup_key h = [])) as [Hk|Hk].
  { unfold record_silent_refusal. by rewrite bool_decide_eq_true_2. }
  pose proof (sr_counted_remembers _ _ h now Hr) as [_ Hf].
  pose proof (sr_seconds_evidence _ _ h now Hr) as [Hn Hs].
  destruct (record_silent_refusal_outcome l h now Hk) as
    [| | | |counts _ _ Hcount Hflood| | |_ _ Hni Hlen]; try done; intros _.
  - set (c := default [] (silent_flood (sr_counted l (lookup_key h) now) !! lookup_key h)) in *.
    assert (NoDup c.*1 ∧ ∀ t, t ∈ c.*1 →
      refused_at (ops ++ [OpSilentRefusal h now]) (lookup_key h) t) as [Hcn Hct].
    { subst c. destruct (_ !! _) eqn:E; simpl; [by apply Hf|split; [constructor|set_solver]]. }
    exists (vec_retain (λ e, within e.1 now SILENT_FLOOD_SECS) c).*1. split_and!.
    + by apply NoDup_retain_fst.
    + rewrite length_fmap, <-PerSecond_count_seconds, <-Hcount. simpl.
      unfold FloodCounts_is_flood in Hflood. apply andb_prop in Hflood as [Hl%Nat.leb_le _].
      unfold SILENT_FLOOD_SECONDS, SILENT_REFUSALS in *. lia.
    + intros t (e & -> & [He Hw]%elem_of_vec_retain)%list_elem_of_fmap.
      split; [by apply Hct, list_elem_of_fmap_2|]. eapply within_mono; [|exact Hw].
      unfold SILENT_FLOOD_SECS, REJECTION_WINDOW_SECS. lia.
  - exists (sr_seconds l (lookup_key h) now ++ [now]). split_and!; [by apply NoDup_snoc|done|].
    intros t [Hin| ->%list_elem_of_singleton]%elem_of_app; [by apply Hs|].
    split; [apply refused_at_last|]. by apply within_self.
Qed.

(** ** The table of hosts lately refused *)

(** Whether a silent refusal is noted: a host that is a pin already is left alone. *)
Definition is_noted (l : Learning) (key : bytes) (now : Z) : bool :=
  negb (bool_decide (key = [])) && negb (bool_decide (is_Some (pins (prune_pins l now) !! key))).
(** The hosts whose refusals are noted while [ops] happen, in their order. *)
Fixpoint noted_keys (l : Learning) (ops : list op) : list bytes :=
  match ops with
  | [] => []
  | o :: rest =>
      match o with
      | OpSilentRefusal host now => if is_noted l (lookup_key host) now then [lookup_key host] else []
      | _ => []
      end ++ noted_keys (apply_op l o) rest
  end.
Definition refusal_times (ops : list op) : list Z :=
  omap (λ o, match o with OpSilentRefusal _ now => Some now | _ => None end) ops.
Definition changes_network (o : op) : bool := match o with OpNetworkChange _ => true | _ => false end.

Lemma op_silent_hosts l o : match o with OpSilentRefusal _ _ | OpNetworkChange _ => False | _ => True end →
  silent_hosts (apply_op l o) = silent_hosts l.
Proof.
  destruct o; simpl; try done; intros _.
  - unfold record_client_rejection. by repeat case_match.
  - unfold learn_upstream_untrusted, upstream_suppressed.
    repeat case_match; simplify_eq/=; frame_take_back; done.
  - unfold record_intercepted_handshake. by case_match.
  - by apply (forget_pins_inv (λ l', silent_hosts l' = silent_hosts l)).
Qed.

Lemma silent_refusal_hosts l host now :
  silent_hosts (record_silent_refusal l host now).1 =
  if is_noted l (lookup_key host) now then silent_hosts (sr_noted l (lookup_key host) now) else silent_hosts l.
Proof.
  unfold is_noted. destruct (decide (lookup_key host = [])) as [Hk|Hk].
  { unfold record_silent_refusal. by rewrite !(bool_decide_eq_true_2 (lookup_key host = [])). }
  rewrite (bool_decide_eq_false_2 (lookup_key host = [])) by done. cbn [negb andb].
  destruct (record_silent_refusal_outcome l host now Hk) as [Hp|Hp|Hp|? [Hp _]|? [Hp _]|[Hp _]|[Hp _]|[Hp _]];
    [by rewrite bool_decide_eq_true_2|..]; rewrite Hp, (bool_decide_eq_false_2 (is_Some (@None Z))) by (by intros []); cbn [negb].
  - unfold silent_burst, silent_suppressed. rewrite silent_burst_loop_eq. case_match; simpl; frame_take_back; done.
  - done.
  - unfold log_held_back. by repeat case_match.
  - done.
  - done.
  - done.
  - done.
Qed.

Section Table.
(** The last ten seconds before [now]. *)
Context (now : Z).

(** The table holds [keys], each with a time of the last ten seconds, or four such hosts anyway; [at_]
    is the time of the last refusal noted. *)
Definition in_table (l : Learning) (keys : list bytes) (at_ : Z) : Prop :=
  ∃ held, NoDup held ∧ (keys ⊆ held ∨ (SILENT_BURST_HOSTS ≤ length held)%nat) ∧
    ∀ k, k ∈ held → ∃ t, silent_hosts l !! k = Some t ∧ now - SILENT_BURST_SECS <= t <= sat_add64 at_ CLOCK_TOLERANCE_SECS.

Lemma still_within t at_ at' : now - SILENT_BURST_SECS <= t <= sat_add64 at_ CLOCK_TOLERANCE_SECS →
  at_ <= at' <= now → within t at' SILENT_BURST_SECS = true.
Proof.
  unfold within, sat_add64, sat_sub. intros Ht Ha. apply andb_true_iff. rewrite !Z.leb_le.
  unfold SILENT_BURST_SECS in *. lia.
Qed.

(** Making room drops the oldest host, so the hosts left are as recent. *)
Lemma room_keeps (hosts : gmap bytes Z) held lo hi : NoDup held →
  (∀ k, k ∈ held → ∃ t, hosts !! k = Some t ∧ lo <= t <= hi) → (∀ k t, hosts !! k = Some t → t <= hi) →
  ∃ held', NoDup held' ∧ (held ⊆ held' ∨ (SILENT_BURST_HOSTS ≤ length held')%nat) ∧
    ∀ k, k ∈ held' → ∃ t, make_room (λ _, true) (λ at_, at_) hosts !! k = Some t ∧ lo <= t <= hi.
Proof.
  intros Hn Hh Hhi. unfold make_room. assert (retain (λ _ _, true) hosts = hosts) as ->.
  { apply map_eq. intros k. apply option_eq. intros t. rewrite retain_lookup. naive_solver. }
  destruct (Nat.ltb_spec (size hosts) MAX_RECENT_REJECTIONS) as [?|Hs]; [by exists held; auto|].
  destruct (min_by_key _ _) as [[o t]|] eqn:E; [|by exists held; auto].
  apply min_by_key_Some in E as [Ho%elem_of_hash_iter Hmin]. simpl in Hmin.
  destruct (decide (o ∈ held)) as [Hin|Hin].
  2: { exists held. split_and!; [done|by left|]. intros k Hk. rewrite lookup_delete_ne by (by intros ->). by apply Hh. }
  destruct (Hh o Hin) as (t' & Ht' & Hlo). assert (t' = t) as -> by congruence.
  exists (map_to_list (delete o hosts)).*1. split_and!; [apply NoDup_fst_map_to_list|right|].
  - rewrite length_fmap, length_map_to_list, map_size_delete_Some by eauto.
    unfold MAX_RECENT_REJECTIONS, SILENT_BURST_HOSTS in *. lia.
  - intros k ([k' t''] & -> & Hk%elem_of_map_to_list)%list_elem_of_fmap. simpl. exists t''. split; [done|].
    apply lookup_delete_Some in Hk as [_ Hk]. split; [|by eapply Hhi].
    assert (t <= t''); [|lia]. apply (Hmin (k', t'')). by apply elem_of_hash_iter.
Qed.

Lemma noted_in_table l keys at_ key at' : in_table l keys at_ → at_ <= at' <= now → now - SILENT_BURST_SECS <= at' →
  at' <= U64_MAX → in_table (sr_noted l key at') (key :: keys) at'.
Proof.
  intros (held & Hn & Hk & Hh) Ha Hlo Hu. unfold in_table, sr_noted, note_silent_host. simpl.
  set (hosts := retain _ _).
  assert (∀ k, k ∈ held → ∃ t, hosts !! k = Some t ∧ now - SILENT_BURST_SECS <= t <= sat_add64 at' CLOCK_TOLERANCE_SECS) as Hh'.
  { intros k (t & Ht & Hr)%Hh. exists t. unfold hosts. rewrite retain_lookup. split; [|unfold sat_add64 in *; lia].
    split; [done|]. by eapply still_within. }
  assert (∀ k t, hosts !! k = Some t → t <= sat_add64 at' CLOCK_TOLERANCE_SECS) as Hhi.
  { intros k t. unfold hosts. rewrite retain_lookup. intros [_ Hw]. unfold within in Hw. apply andb_true_iff in Hw as [?%Z.leb_le _]. lia. }
  assert (∃ held', NoDup held' ∧ (held ⊆ held' ∨ (SILENT_BURST_HOSTS ≤ length held')%nat) ∧
    ∀ k, k ∈ held' → ∃ t, (if bool_decide (is_Some (hosts !! key)) then hosts else make_room (λ _, true) (λ at_, at_) hosts) !! k = Some t ∧
      now - SILENT_BURST_SECS <= t <= sat_add64 at' CLOCK_TOLERANCE_SECS) as (held' & Hn' & Hk' & Hh'').
  { case_bool_decide; [by exists held; auto|]. by apply room_keeps. }
  exists (if decide (key ∈ held') then held' else key :: held'). split_and!.
  - case_decide; [done|by constructor].
  - case_decide.
    + destruct Hk' as [Hk'|?]; [|by right]. destruct Hk as [Hk|Hk]; [left; set_solver|right].
      etrans; [exact Hk|]. by apply submseteq_length, NoDup_submseteq.
    + destruct Hk' as [Hk'|?]; [|right; simpl; lia]. destruct Hk as [Hk|Hk]; [left; set_solver|right]. simpl.
      assert (length held ≤ length held')%nat; [|lia]. by apply submseteq_length, NoDup_submseteq.
  - intros k Hin. destruct (decide (k = key)) as [->|Hne].
    + exists at'. rewrite lookup_insert_eq. split; [done|]. unfold sat_add64, CLOCK_TOLERANCE_SECS. lia.
    + rewrite lookup_insert_ne by done. apply Hh''. case_decide; [done|]. by apply elem_of_cons in Hin as [?|?].
Qed.

Lemma run_in_table lately : ∀ l keys at_, in_table l keys at_ → at_ <= now → now <= U64_MAX →
  existsb changes_network lately = false → StronglySorted Z.le (at_ :: refusal_times lately) →
  Forall (λ t, now - SILENT_BURST_SECS <= t <= now) (refusal_times lately) →
  ∃ at', at' <= now ∧ in_table (run l lately) (keys ++ noted_keys l lately) at'.
Proof.
  induction lately as [|o lately IH]; intros l keys at_ Ht Ha Hu Hc Hs Hf; [exists at_; by rewrite app_nil_r|].
  cbn [existsb] in Hc. apply orb_false_iff in Hc as [Hoc Hc]. cbn [run foldl noted_keys].
  change (foldl apply_op (apply_op l o) lately) with (run (apply_op l o) lately).
  destruct (match o with OpSilentRefusal _ _ => true | _ => false end) eqn:Ho.
  - destruct o as [| |host t| | |]; try done. cbn [refusal_times omap list_omap] in Hs, Hf.
    apply Forall_cons in Hf as [Hft Hf]. inversion Hs as [|? ? Hs' Hle]; subst. inversion Hle as [|? ? Hat]; subst.
    rewrite app_assoc. eapply (IH _ _ t); [|lia|done|done|done|done].
    destruct Ht as (held & Hn & Hk & Hh). unfold in_table in *. cbn [apply_op]. rewrite silent_refusal_hosts.
    destruct (is_noted l (lookup_key host) t).
    + destruct (noted_in_table l keys at_ (lookup_key host) t) as (held' & ? & Hk' & ?); [by exists held|lia|lia|lia|].
      exists held'. split_and!; [done| |done]. destruct Hk'; [left; set_solver|by right].
    + rewrite app_nil_r. exists held. split_and!; [done|done|]. intros k (t' & ? & ?)%Hh. exists t'. split; [done|]. unfold sat_add64 in *. lia.
  - assert (match o with OpSilentRefusal _ _ | OpNetworkChange _ => False | _ => True end) as Hother by (by destruct o).
    assert (refusal_times (o :: lately) = refusal_times lately) as Hr by (by destruct o). rewrite Hr in Hs, Hf.
    assert (match o with OpSilentRefusal host t => if is_noted l (lookup_key host) t then [lookup_key host] else [] | _ => [] end = [])
      as -> by (by destruct o). cbn [app].
    eapply IH; [|done..]. destruct Ht as (held & Hn & Hk & Hh). exists held. split_and!; [done|done|].
    by rewrite (op_silent_hosts l o Hother).
Qed.

(** Fewer than four hosts in the table: fewer than four were lately refused. *)
Lemma few_lately_refused l lately key : now <= U64_MAX → existsb changes_network lately = false →
  StronglySorted Z.le (refusal_times lately) → Forall (λ t, now - SILENT_BURST_SECS <= t <= now) (refusal_times lately) →
  (size (silent_hosts (sr_noted (run l lately) key now)) < SILENT_BURST_HOSTS)%nat →
  (length (remove_dups (key :: noted_keys l lately)) < SILENT_BURST_HOSTS)%nat.
Proof.
  intros Hu Hc Hs Hf Hsize.
  destruct (run_in_table lately l [] (now - SILENT_BURST_SECS)) as (at' & Hat & Ht).
  { exists []. split_and!; [constructor|left; set_solver|set_solver]. }
  { unfold SILENT_BURST_SECS. lia. }
  { done. }
  { done. }
  { constructor; [done|]. eapply Forall_impl; [exact Hf|]. naive_solver. }
  { done. }
  destruct (noted_in_table _ _ at' key now Ht) as (held & Hn & Hk & Hh); [lia|unfold SILENT_BURST_SECS; lia|done|].
  assert (length held ≤ size (silent_hosts (sr_noted (run l lately) key now)))%nat as Hle.
  { rewrite <-length_map_to_list, <-(length_fmap fst). apply submseteq_length, NoDup_submseteq; [done|].
    intros k (t & Ht' & _)%Hh. apply list_elem_of_fmap. exists (k, t). split; [done|]. by apply elem_of_map_to_list. }
  destruct Hk as [Hk|Hk]; [|lia]. eapply Nat.le_lt_trans; [|eapply Nat.le_lt_trans; [exact Hle|exact Hsize]].
  apply submseteq_length, NoDup_submseteq; [apply NoDup_remove_dups|]. intros k Hin. apply Hk. exact (proj1 (elem_of_remove_dups _ _) Hin).
Qed.
End Table.
End Trace.
