(* ===== verification/PolicyProps.v ===== *)
(** * What the policy guarantees

    The theorems about host patterns, the interception decision and pin learning, each
    with a run of the definitions at a concrete input. *)
From S2P Require Import Prelude RustStr Collections Net HostPattern Bundled Policy PolicyFacts.
From S2P Require Import PolicyTrace.

(** ** Reference definitions *)

(** The decision as a scan of the configured texts, with no hash index. *)
Definition classify_reference (config : Config) (learned : gmap bytes Z) (host : bytes) (now : Z)
    : Decision :=
  if negb (config_mitm_enabled config) then Passthrough MitmDisabled
  else if list_covers (passthrough config) host then Passthrough User
  else if list_covers bundled_passthrough host then Passthrough BundledHost
  else if existsb (λ at_, pin_is_live at_ now) (option_list (learned !! lookup_key host))
  then Passthrough LearnedPin
  else Intercept.

(** A codec for the pins file, to run the definitions with. *)
#[global] Instance PinEntry_eq_dec : EqDecision PinEntry.
Proof. solve_decision. Defined.
#[global] Instance PinEntry_countable : Countable PinEntry :=
  inj_countable' (λ e, (pin_host e, pin_learned_at e))
    (λ p, {| pin_host := p.1; pin_learned_at := p.2 |}) (λ e, match e with Build_PinEntry _ _ => eq_refl end).
#[global] Instance PinsFile_eq_dec : EqDecision PinsFile.
Proof. solve_decision. Defined.
#[global] Instance PinsFile_countable : Countable PinsFile :=
  inj_countable' (λ f, (pins_version f, pins_entries f))
    (λ p, {| pins_version := p.1; pins_entries := p.2 |}) (λ f, match f with Build_PinsFile _ _ => eq_refl end).
#[global] Instance PinsFile_ok_dec f : base.Decision (PinsFile_ok f).
Proof. unfold PinsFile_ok. apply _. Defined.
Definition countable_read (s : bytes) : option PinsFile :=
  match s with
  | [Zpos p] => f ← decode p; if bool_decide (PinsFile_ok f) then Some f else None
  | _ => None
  end.
#[refine] Definition countable_json : PinsJson := {|
  pins_to_json f := [Zpos (encode f)];
  pins_from_json := countable_read
|}.
Proof.
  - intros f Hf. simpl. rewrite decode_encode. simpl. by rewrite bool_decide_eq_true_2.
  - intros s f. unfold countable_read. repeat case_match; try done. intros (g & _ & Hg)%bind_Some.
    case_bool_decide; [|done]. by injection Hg as <-.
Defined.

(** Hosts and states the witnesses use. *)
Definition example_config : Config :=
  {| doh_upstreams := [DohUpstream_quad9]; passthrough := [lit "*.Bank.example"; lit "one.test"];
     config_allowlist := [lit "*.shop.example"]; config_mitm_enabled := true;
     max_intercepted_connections := 32 |}.
Definition example_host : bytes := lit "api.Pinned.example.".
Definition example_key : bytes := lit "api.pinned.example".
Definition rejected_once : Learning :=
  (record_client_rejection Learning_default example_host UnknownCa 100).1.
Definition alert_learned : Learning :=
  (record_client_rejection rejected_once example_host UnknownCa 200).1.

(** ** Host patterns *)

(** A pattern that [HostPattern::parse] accepted prints as a text that parses to the
    same pattern, so a stored pattern list can be read back. *)
Theorem HostPattern_roundtrip s p :
  HostPattern_parse s = Ok p → HostPattern_parse (HostPattern_to_string p) = Ok p.
Proof.
  intros [Hv Hl]%HostPattern_parse_wf. unfold HostPattern_to_string.
  rewrite HostPattern_parse_rest by done. rewrite Hl. by destruct p.
Qed.

Lemma HostPattern_roundtrip_witness :
  HostPattern_parse (HostPattern_to_string
    {| hp_name := lit "bank.example"; hp_wildcard := true |}) =
  Ok {| hp_name := lit "bank.example"; hp_wildcard := true |}.
Proof. apply (HostPattern_roundtrip (lit " *.Bank.example. ")). vm_compute. reflexivity. Defined.

(** The byte-index comparison of [HostPattern::matches] accepts exactly the host itself,
    without case and without one trailing dot, and for a wildcard also every name that ends
    in a dot and the pattern's name. *)
Theorem HostPattern_matches_exact s p host :
  HostPattern_parse s = Ok p → HostPattern_matches p host = true ↔ host_matches p host.
Proof. intros [_ Hl]%HostPattern_parse_wf. by apply HostPattern_matches_spec. Qed.

Lemma HostPattern_matches_exact_witness :
  HostPattern_matches {| hp_name := lit "bank.example"; hp_wildcard := true |}
    (lit "www.BANK.example.") = true ↔
  host_matches {| hp_name := lit "bank.example"; hp_wildcard := true |} (lit "www.BANK.example.").
Proof. apply (HostPattern_matches_exact (lit "*.bank.example")). vm_compute. reflexivity. Defined.

(** Every bundled pattern parses, so the [expect] of [BUNDLED_SET] never panics; each
    prints as it is written; and each group is sorted with no repeated entry. *)
Theorem bundled_patterns_valid :
  is_ok (collect_results HostPattern_parse bundled_passthrough) = true ∧
  Forall (λ s, ∃ p, HostPattern_parse s = Ok p ∧ HostPattern_to_string p = s) bundled_passthrough ∧
  Forall (λ g, strictly_sorted (lit <$> BundledGroup_patterns g) = true) BundledGroup_ALL.
Proof.
  split; [exact bundled_parsed_ok|]. split.
  - assert (forallb (λ s, match HostPattern_parse s with
                          | Ok p => bool_decide (HostPattern_to_string p = s)
                          | Err _ => false
                          end) bundled_passthrough = true) as Hf by (vm_compute; reflexivity).
    apply forallb_Forall in Hf. eapply Forall_impl; [exact Hf|]. intros s. cbv beta.
    destruct (HostPattern_parse s) as [p|e]; [|done]. intros Hs. exists p. by case_bool_decide.
  - repeat apply Forall_cons_2; [vm_compute; reflexivity..|constructor].
Qed.

(** ** Decision *)

(** C8: for a host that is not in brackets the decision of a freshly built policy, with its
    hash sets over exact names and parent domains, is the decision of trying every
    configured and bundled pattern in turn, in the order switch, user list, bundled list,
    learned pins; the allowlist check is a scan too. *)
Theorem classify_refines_scan `{PinsJson} config json policy host now :
  Policy_new config json = Ok policy → unbracketed host →
  classify policy host now =
    classify_reference config
      (match json with Some text => parse_pins text | None => ∅ end) host now ∧
  is_allowlisted policy host =
    negb (bool_decide (lookup_key host = [])) && list_covers (config_allowlist config) host.
Proof.
  unfold Policy_new, parse_patterns. intros Hnew Hub.
  destruct (collect_results HostPattern_parse (passthrough config)) as [us|] eqn:Eu;
    [|discriminate Hnew].
  destruct (collect_results HostPattern_parse (config_allowlist config)) as [al|] eqn:Ea;
    [|discriminate Hnew].
  cbn [result_bind] in Hnew. injection Hnew as <-.
  unfold classify, classify_reference, is_allowlisted.
  cbn [user allowlist learning mitm_enabled pins set_pins].
  rewrite (PatternSet_list_covers _ _ _ Eu Hub), (PatternSet_list_covers _ _ _ Ea Hub),
    (BUNDLED_SET_covers _ Hub).
  split; [|reflexivity].
  generalize (list_covers bundled_passthrough host). intros bundled.
  destruct (negb (config_mitm_enabled config)), (list_covers (passthrough config) host), bundled;
    try reflexivity.
  match goal with |- context [?m !! lookup_key host] => destruct (m !! lookup_key host) end;
    cbn; [|reflexivity]. by rewrite orb_false_r.
Qed.

Lemma classify_refines_scan_witness :
  ∃ policy, @Policy_new countable_json example_config None = Ok policy ∧
  unbracketed (lit "www.bank.example") ∧
  classify policy (lit "www.bank.example") 5 =
    classify_reference example_config ∅ (lit "www.bank.example") 5 ∧
  is_allowlisted policy (lit "www.bank.example") =
    negb (bool_decide (lookup_key (lit "www.bank.example") = [])) &&
      list_covers (config_allowlist example_config) (lit "www.bank.example").
Proof.
  eexists. split; [vm_compute; reflexivity|]. split; [vm_compute; reflexivity|].
  apply (@classify_refines_scan countable_json example_config None);
    vm_compute; reflexivity.
Defined.

(** A learned pin counts for less than thirty days and, when the clock was set back, only
    up to one hour into the future, for all [u64] times. *)
Theorem pin_lifetime learned_at now : is_u64 learned_at → is_u64 now →
  pin_is_live learned_at now = true ↔
  learned_at <= Z.min (now + CLOCK_TOLERANCE_SECS) U64_MAX ∧ now - learned_at < PIN_LIFETIME_SECS.
Proof.
  intros Ht Hn. unfold pin_is_live. rewrite within_spec by (try done; unfold PIN_LIFETIME_SECS; lia).
  lia.
Qed.

Lemma pin_lifetime_witness :
  pin_is_live 3700 100 = true ↔
  3700 <= Z.min (100 + CLOCK_TOLERANCE_SECS) U64_MAX ∧ 100 - 3700 < PIN_LIFETIME_SECS.
Proof. apply (pin_lifetime 3700 100); unfold is_u64, U64_MAX; lia. Defined.

(** ** Learning from alerts *)

(** A certificate alert makes the host a pin exactly when the host has no live pin and an
    earlier alert is on record at most ten minutes old; otherwise it only goes on record.
    Learning takes the record away. *)
Theorem record_client_rejection_learns `{HashOrder} l host kind now :
  let key := lookup_key host in
  let '(l', learned) := record_client_rejection l host kind now in
  (learned = true ↔
     key ≠ [] ∧ pins (prune_pins l now) !! key = None ∧
     ∃ previous, recent l !! key = Some previous ∧ within previous now REJECTION_WINDOW_SECS = true) ∧
  (learned = true → pins l' = <[key := now]> (pins (prune_pins l now)) ∧ recent l' !! key = None) ∧
  (key ≠ [] → pins (prune_pins l now) !! key = None → learned = false →
     pins l' = pins (prune_pins l now) ∧ recent l' !! key = Some now).
Proof.
  unfold record_client_rejection. simpl.
  case_bool_decide as Hk; [naive_solver|]. case_bool_decide as Hp.
  { destruct Hp as [t Hp]. rewrite Hp. naive_solver. }
  apply eq_None_not_Some in Hp.
  destruct (recent l !! lookup_key host) as [previous|] eqn:Hr;
    [destruct (within previous now REJECTION_WINDOW_SECS) eqn:Hw|]; simpl;
    rewrite ?lookup_insert_eq, ?lookup_delete_eq; naive_solver.
Qed.

Lemma alert_firm `{HashOrder} l host kind now :
  (record_client_rejection l host kind now).2 = true →
  firm_pin (lookup_key host) now (record_client_rejection l host kind now).1.
Proof.
  unfold record_client_rejection. repeat case_match; try done. intros _.
  split_and!; simpl; [by rewrite lookup_insert_eq|..];
    intros (e & He & [_ Hne]%elem_of_vec_retain)%list_elem_of_fmap; by case_bool_decide.
Qed.

(** A pin learned from two alerts stays through every sequence of events (alerts, upstream
    failures, silent refusals, bursts, completed handshakes, network changes) for as long as
    it is live and is not forgotten by name: no burst and no network change takes it back. *)
Theorem alert_pin_stays `{HashOrder} l host kind now ops :
  (record_client_rejection l host kind now).2 = true →
  Forall (respects (lookup_key host) now) ops →
  pins (run (record_client_rejection l host kind now).1 ops) !! lookup_key host = Some now.
Proof. intros Hf%alert_firm Ho. by apply (run_firm _ _ _ _ Ho Hf). Qed.

Definition calm_ops : list op :=
  [OpNetworkChange 210; OpSilentRefusal (lit "a.test") 220; OpSilentRefusal (lit "b.test") 220;
   OpSilentRefusal (lit "c.test") 220; OpSilentRefusal (lit "d.test") 220;
   OpUpstreamUntrusted (lit "e.test") 221; OpClientRejection (lit "f.test") DecryptError 222;
   OpInterceptedHandshake example_host 223; OpForgetPins [lit "a.test"]].

Lemma alert_pin_stays_witness :
  pins (run (record_client_rejection rejected_once example_host UnknownCa 200).1 calm_ops)
    !! lookup_key example_host = Some 200.
Proof.
  apply (alert_pin_stays rejected_once example_host UnknownCa 200 calm_ops).
  - vm_compute. reflexivity.
  - apply (bool_decide_unpack _). vm_compute. exact I.
Defined.

(** ** Memory *)

(** In every state that any sequence of events reaches from a start with any saved pins,
    each of the six maps that remote hosts can fill holds at most 1024 hosts, whatever the
    iteration order of the hash maps. *)
Theorem learning_memory_bounded `{HashOrder} l : reachable l → learning_bounded l.
Proof. apply reachable_bounded. Qed.

Lemma learning_memory_bounded_witness :
  learning_bounded (run (set_pins ∅ Learning_default) calm_ops).
Proof. apply (learning_memory_bounded _). apply reachable_run. by exists ∅. Defined.

(** ** Learning from silence *)

(** C10: a silent refusal only makes a pin when the history of events has refusals of that very
    host in at least three different seconds, each at most ten minutes old (or, for a clock that was
    set back, at most an hour ahead), the host is no pin yet, no suppression holds, and there is no
    burst: in any end of the history whose refusals lie in the last ten seconds, in the order of their
    times, and in which the network does not change, fewer than four different hosts, this one
    included, were refused (refusals of hosts that were pins already are not counted). *)
Theorem silent_pin_needs_refusals `{HashOrder} l0 ops host now :
  initial l0 → is_u64 now →
  (record_silent_refusal (run l0 ops) host now).2 = true →
  (∃ seconds, NoDup seconds ∧ (SILENT_REFUSALS ≤ length seconds)%nat ∧
     ∀ t, t ∈ seconds → refused_at (ops ++ [OpSilentRefusal host now]) (lookup_key host) t ∧
       within t now REJECTION_WINDOW_SECS = true) ∧
  pins (prune_pins (run l0 ops) now) !! lookup_key host = None ∧
  suppression_holds (silent_suppressed_until (run l0 ops)) now SILENT_SUPPRESS_SECS = false ∧
  (size (silent_hosts (sr_noted (run l0 ops) (lookup_key host) now)) < SILENT_BURST_HOSTS)%nat ∧
  (∀ before lately, ops = before ++ lately → existsb changes_network lately = false →
     StronglySorted Z.le (refusal_times lately) →
     Forall (λ t, now - SILENT_BURST_SECS <= t <= now) (refusal_times lately) →
     (length (remove_dups (lookup_key host :: noted_keys (run l0 before) lately)) < SILENT_BURST_HOSTS)%nat).
Proof.
  intros Hi Hu Hl. split; [by eapply record_silent_refusal_evidence; [|apply run_remembers|]|].
  assert (sr_open (run l0 ops) (lookup_key host) now) as (Hp & Hs & Hb).
  { destruct (decide (lookup_key host = [])) as [Hk|Hk].
    { unfold record_silent_refusal in Hl. by rewrite bool_decide_eq_true_2 in Hl. }
    by destruct (record_silent_refusal_outcome (run l0 ops) host now Hk). }
  split_and!; [done..|]. intros before lately -> Hc Hso Hf. rewrite run_app in Hb.
  apply (few_lately_refused now); [unfold is_u64, U64_MAX in *; lia|done..].
Qed.

(** Two hosts refused within ten seconds, the first of them for the third time. *)
Definition three_refusals : list op :=
  [OpSilentRefusal example_host 1000; OpSilentRefusal example_host 1300; OpSilentRefusal (lit "other.example") 1595].

Lemma silent_pin_needs_refusals_witness :
  (record_silent_refusal (run Learning_default three_refusals) example_host 1600).2 = true ∧
  noted_keys (run Learning_default (take 2 three_refusals)) (drop 2 three_refusals) = [lit "other.example"] ∧
  (length (remove_dups [lookup_key example_host; lit "other.example"]) < SILENT_BURST_HOSTS)%nat ∧
  ∃ seconds, NoDup seconds ∧ (SILENT_REFUSALS ≤ length seconds)%nat ∧
     ∀ t, t ∈ seconds →
       refused_at (three_refusals ++ [OpSilentRefusal example_host 1600]) (lookup_key example_host) t ∧
       within t 1600 REJECTION_WINDOW_SECS = true.
Proof.
  destruct (silent_pin_needs_refusals Learning_default three_refusals example_host 1600) as (Hseconds & _ & _ & _ & Hfew).
  - by exists ∅.
  - unfold is_u64, U64_MAX. lia.
  - vm_compute. reflexivity.
  - split; [vm_compute; reflexivity|]. split; [vm_compute; reflexivity|]. split; [|exact Hseconds].
    apply (Hfew (take 2 three_refusals) (drop 2 three_refusals)); [reflexivity|reflexivity|by repeat constructor|].
    repeat constructor; unfold SILENT_BURST_SECS; lia.
Defined.

(** A state in which only this host was refused silently, in these seconds. *)
Definition quiet (key : bytes) (seconds : list Z) (l : Learning) : Prop :=
  pins l !! key = None ∧ trusted l !! key = None ∧ silent_suppressed_until l = None ∧
  (∀ k : bytes, is_Some (silent_hosts l !! k) → k = key) ∧
  silent_pending l = (if decide (seconds = []) then ∅ else {[key := seconds]}).

Lemma quiet_noted `{HashOrder} key seconds l now : quiet key seconds l →
  (size (silent_hosts (sr_noted l key now)) < SILENT_BURST_HOSTS)%nat ∧
  ∀ k : bytes, is_Some (silent_hosts (sr_noted l key now) !! k) → k = key.
Proof.
  intros (_ & _ & _ & Hh & _).
  assert (∀ k : bytes, is_Some (silent_hosts (sr_noted l key now) !! k) → k = key) as Hk.
  { intros k [t Ht]. unfold sr_noted, note_silent_host in Ht. simpl in Ht.
    apply lookup_insert_Some in Ht as [[? _]|[Hne Ht]]; [done|].
    eapply lookup_weaken in Ht; [|apply guarded_sub].
    apply retain_lookup in Ht as [Ht _]. apply Hh. by eexists. }
  split; [|done]. apply (Nat.le_lt_trans _ 1); [|unfold SILENT_BURST_HOSTS; lia].
  rewrite <-size_dom, <-(size_singleton (C := gset bytes) key). apply subseteq_size.
  intros k Hd%elem_of_dom. apply elem_of_singleton. by apply Hk.
Qed.

Lemma quiet_step `{HashOrder} host seconds l now :
  lookup_key host ≠ [] → quiet (lookup_key host) seconds l →
  (∀ t, t ∈ seconds → t ≠ now ∧ within t now REJECTION_WINDOW_SECS = true) →
  let r := record_silent_refusal l host now in
  if (length seconds + 1 <? SILENT_REFUSALS)%nat
  then r.2 = false ∧ quiet (lookup_key host) (seconds ++ [now]) r.1
  else r.2 = true ∧ pins r.1 !! lookup_key host = Some now.
Proof.
  intros Hk Hq Ht. pose proof (quiet_noted _ _ _ now Hq) as [Hb Hh].
  destruct Hq as (Hp & Htr & Hs & _ & Hpend).
  assert (pins (prune_pins l now) !! lookup_key host = None) as Hp'.
  { apply eq_None_not_Some. intros [t [Ha _]%retain_lookup]. congruence. }
  assert (sr_seconds l (lookup_key host) now = seconds) as Hsec.
  { unfold sr_seconds, sr_pending. change (silent_pending (sr_counted l _ now)) with (silent_pending l).
    rewrite Hpend. destruct (decide (seconds = [])) as [->|Hne].
    - rewrite lookup_empty. rewrite bool_decide_eq_false_2 by (by intros []). reflexivity.
    - rewrite lookup_singleton_eq, bool_decide_eq_true_2 by eauto.
      rewrite lookup_singleton_eq. simpl. apply vec_retain_all. intros t Hin. by apply Ht. }
  assert (sr_trusted l (lookup_key host) now = false) as Hg by (unfold sr_trusted; by rewrite Htr).
  assert (now ∉ seconds) as Hni by (intros Hin; by apply Ht in Hin as []).
  cbv zeta. destruct (record_silent_refusal_outcome l host now Hk) as
    [[]|??|_ Hsup|? _ ?|? _ ?|_ _ ?|_ _ _ Hlen|_ _ _ Hlen]; try congruence; try lia;
    rewrite ?Hsec in *; try done; try (rewrite length_app in Hlen; simpl in Hlen).
  - by rewrite Hs in Hsup.
  - rewrite (proj2 (Nat.ltb_lt _ _)) by done. split; [done|].
    split_and!; try done. simpl. rewrite decide_False by (by destruct seconds).
    assert (sr_pending l (lookup_key host) now ⊆ silent_pending l) as Hsub by apply guarded_sub.
    apply map_eq. intros k. destruct (decide (k = lookup_key host)) as [->|Hne].
    { by rewrite lookup_insert_eq, lookup_singleton_eq. }
    rewrite lookup_insert_ne, lookup_singleton_ne by done. apply eq_None_not_Some.
    intros [v Hv]. eapply lookup_weaken in Hv; [|exact Hsub]. rewrite Hpend in Hv.
    by destruct (decide (seconds = [])); simplify_map_eq.
  - rewrite (proj2 (Nat.ltb_ge _ _)) by done. split; [done|]. simpl. by rewrite lookup_insert_eq.
Qed.

(** Three silent refusals of a host in different seconds of a ten-minute window do make it a
    pin, from any start whose saved pins do not have the host: no other host interferes,
    and the first two teach nothing. *)
Theorem three_silent_refusals_learn `{HashOrder} saved host t1 t2 t3 :
  lookup_key host ≠ [] → saved !! lookup_key host = None →
  0 <= t1 → t1 < t2 → t2 < t3 → t3 <= t1 + REJECTION_WINDOW_SECS → t3 <= U64_MAX →
  let l1 := (record_silent_refusal (set_pins saved Learning_default) host t1).1 in
  let l2 := (record_silent_refusal l1 host t2).1 in
  pins l2 !! lookup_key host = None ∧
  (record_silent_refusal l2 host t3).2 = true ∧
  pins (record_silent_refusal l2 host t3).1 !! lookup_key host = Some t3.
Proof.
  intros Hk Hs H0 H12 H23 Hw Hu. cbv zeta.
  assert (∀ a b, t1 <= a → a < b → b <= t3 → a ≠ b ∧ within a b REJECTION_WINDOW_SECS = true)
    as Hab by (unfold within, sat_add64, sat_sub, CLOCK_TOLERANCE_SECS; lia).
  assert (quiet (lookup_key host) [] (set_pins saved Learning_default)) as Hq0.
  { split_and!; try done. intros k [t Ht]. simpl in Ht. by rewrite lookup_empty in Ht. }
  destruct (quiet_step host [] _ t1 Hk Hq0 ltac:(set_solver)) as [_ Hq1].
  destruct (quiet_step host _ _ t2 Hk Hq1) as [_ Hq2].
  { intros t ->%list_elem_of_singleton. apply Hab; lia. }
  split; [apply Hq2|]. apply (quiet_step host _ _ t3 Hk Hq2).
  intros t [->|[->|[]%not_elem_of_nil]%elem_of_cons]%elem_of_cons; apply Hab; lia.
Qed.

Lemma three_silent_refusals_learn_witness :
  let l1 := (record_silent_refusal (set_pins ∅ Learning_default) example_host 7).1 in
  let l2 := (record_silent_refusal l1 example_host 8).1 in
  pins l2 !! lookup_key example_host = None ∧
  (record_silent_refusal l2 example_host 607).2 = true ∧
  pins (record_silent_refusal l2 example_host 607).1 !! lookup_key example_host = Some 607.
Proof.
  apply (three_silent_refusals_learn ∅ example_host 7 8 607); try done.
Defined.

(** Other methods leave the suppression alone. *)
Definition not_silent (o : op) : bool :=
  match o with OpSilentRefusal _ _ => false | _ => true end.

Lemma suppression_kept `{HashOrder} l o : not_silent o = true →
  silent_suppressed_until (apply_op l o) = silent_suppressed_until l.
Proof.
  destruct o; simpl; try done; intros _.
  - unfold record_client_rejection. by repeat case_match.
  - unfold learn_upstream_untrusted, upstream_suppressed. repeat case_match; simplify_eq/=; try done.
    by destruct (take_back_all_frame (vec_retain (λ e, within e.2 now UPSTREAM_BURST_SECS)
      (vec_retain (λ e, within e.2 now UPSTREAM_RECENT_SECS) (upstream l)))
      (set_upstream (vec_retain (λ e, within e.2 now UPSTREAM_RECENT_SECS) (upstream l))
        (set_upstream_suppressed_until None (prune_pins l now)))) as [p ->].
  - unfold record_intercepted_handshake. by case_match.
  - unfold on_network_change. rewrite !take_back_recent_eq. simpl.
    repeat match goal with |- context [take_back_all ?es ?l] =>
      destruct (take_back_all_frame es l) as [? ->]; simpl end. done.
  - by apply (forget_pins_inv (λ l', silent_suppressed_until l' = silent_suppressed_until l)).
Qed.

Lemma suppression_kept_run `{HashOrder} l ops : forallb not_silent ops = true →
  silent_suppressed_until (run l ops) = silent_suppressed_until l.
Proof.
  revert l. induction ops as [|o ops IH]; intros l; simpl; [done|].
  intros [Ho Hs]%andb_prop. change (run l (o :: ops)) with (run (apply_op l o) ops).
  rewrite IH by done. by apply suppression_kept.
Qed.

(** When a silent refusal is the fourth host of the last ten seconds, nothing is learned,
    exactly the pins learned from silence in those ten seconds are taken back, and for the
    next sixty seconds no silent refusal teaches anything, whatever other events happen in
    between. *)
Theorem silent_burst_holds_back `{HashOrder} l host now :
  lookup_key host ≠ [] → 0 <= now → pins (prune_pins l now) !! lookup_key host = None →
  (SILENT_BURST_HOSTS ≤ size (silent_hosts (sr_noted l (lookup_key host) now)))%nat →
  let r := record_silent_refusal l host now in
  r.2 = false ∧
  (∀ (k : bytes) t, pins r.1 !! k = Some t ↔
     pins (prune_pins l now) !! k = Some t ∧
     ¬ ((k, t) ∈ silent l ∧ within t now SILENT_BURST_SECS = true)) ∧
  (∀ ops host' now', forallb not_silent ops = true →
     now <= now' < sat_add64 now SILENT_SUPPRESS_SECS →
     (record_silent_refusal (run r.1 ops) host' now').2 = false).
Proof.
  intros Hk H0 Hp Hb. cbv zeta.
  assert (record_silent_refusal l host now =
    (silent_burst (sr_noted l (lookup_key host) now) now, false)) as ->.
  { unfold record_silent_refusal. rewrite bool_decide_eq_false_2 by done.
    rewrite Hp, bool_decide_eq_false_2 by (by intros []).
    assert (note_silent_host (prune_pins l now) (lookup_key host) now =
      (sr_noted l (lookup_key host) now,
       size (silent_hosts (sr_noted l (lookup_key host) now)))) as -> by done.
    cbv iota beta. by rewrite (proj2 (Nat.leb_le _ _) Hb). }
  split; [done|]. split; [intros k t; exact (silent_burst_lookup (sr_noted l (lookup_key host) now) now k t)|].
  intros ops host' now' Hops Ht. cbn [fst].
  destruct (decide (lookup_key host' = [])) as [Hk'|Hk'].
  { unfold record_silent_refusal. by rewrite bool_decide_eq_true_2. }
  assert (suppression_holds (silent_suppressed_until
    (run (silent_burst (sr_noted l (lookup_key host) now) now) ops)) now' SILENT_SUPPRESS_SECS
    = true) as Hs.
  { rewrite suppression_kept_run by done. apply suppression_window.
    unfold sat_add64, SILENT_SUPPRESS_SECS in *. lia. }
  destruct (record_silent_refusal_outcome
    (run (silent_burst (sr_noted l (lookup_key host) now) now) ops) host' now' Hk')
    as [| | | |? (_ & ? & _)| | |(_ & ? & _)]; congruence.
Qed.

Definition burst_ops : list op :=
  [OpSilentRefusal (lit "a.test") 495; OpSilentRefusal (lit "b.test") 496;
   OpSilentRefusal (lit "c.test") 497].

Lemma silent_burst_holds_back_witness :
  (SILENT_BURST_HOSTS ≤ size (silent_hosts
     (sr_noted (run Learning_default burst_ops) (lookup_key example_host) 500)))%nat ∧
  (record_silent_refusal (run Learning_default burst_ops) example_host 500).2 = false.
Proof.
  assert (SILENT_BURST_HOSTS ≤ size (silent_hosts
     (sr_noted (run Learning_default burst_ops) (lookup_key example_host) 500)))%nat as Hb
    by (apply (bool_decide_unpack _); vm_compute; exact I).
  split; [exact Hb|].
  exact (proj1 (silent_burst_holds_back (run Learning_default burst_ops) example_host 500
    ltac:(discriminate) ltac:(lia) ltac:(vm_compute; reflexivity) Hb)).
Defined.

(** ** Learning from upstream failures *)

(** The other hosts that became pins from upstream failures in the last sixty seconds. *)
Definition upstream_burst (l : Learning) (now : Z) : gset bytes :=
  list_to_set (vec_retain (λ e, within e.2 now UPSTREAM_BURST_SECS)
    (vec_retain (λ e, within e.2 now UPSTREAM_RECENT_SECS) (upstream l))).*1.

(** An upstream certificate failure of a host with no live pin teaches nothing while the
    suppression holds; as the third host of a minute it takes back exactly that minute's pins
    and suppresses learning for ten minutes; otherwise it makes the host a pin at once, on
    record so that it can be taken back. *)
Theorem upstream_untrusted_branches `{HashOrder} l host now :
  let key := lookup_key host in
  let r := learn_upstream_untrusted l host now in
  key ≠ [] → pins (prune_pins l now) !! key = None →
  if suppression_holds (upstream_suppressed_until l) now UPSTREAM_SUPPRESS_SECS
  then r.2 = false ∧ pins r.1 = pins (prune_pins l now)
  else if (UPSTREAM_BURST_HOSTS <=? size (upstream_burst l now) + 1)%nat
  then r.2 = false ∧
    (∀ (k : bytes) t, pins r.1 !! k = Some t ↔
       pins (prune_pins l now) !! k = Some t ∧
       ¬ ((k, t) ∈ upstream l ∧ within t now UPSTREAM_BURST_SECS = true)) ∧
    (∀ now', 0 <= now → now <= now' → now' < now + UPSTREAM_SUPPRESS_SECS <= U64_MAX →
       suppression_holds (upstream_suppressed_until r.1) now' UPSTREAM_SUPPRESS_SECS = true)
  else r.2 = true ∧ pins r.1 = <[key := now]> (pins (prune_pins l now)) ∧
       (key, now) ∈ upstream r.1.
Proof.
  cbv zeta. intros Hk Hp. unfold learn_upstream_untrusted, upstream_suppressed.
  rewrite bool_decide_eq_false_2 by done. rewrite Hp, bool_decide_eq_false_2 by (by intros []).
  change (upstream_suppressed_until (prune_pins l now)) with (upstream_suppressed_until l).
  destruct (suppression_holds _ now UPSTREAM_SUPPRESS_SECS); [done|]. cbv iota beta zeta.
  match goal with |- if ?b then _ else _ => set (burst := b) end.
  match goal with |- context [if ?b then (_, false) else (_, true)] =>
    change b with burst end.
  destruct burst; cbn [fst snd]; (split; [done|]).
  - split.
    + intros k t. simpl. rewrite take_back_all_lookup, !elem_of_vec_retain. simpl.
      split; intros [? Hn]; (split; [done|]); [|tauto]. intros [Hin Hw]. apply Hn.
      split_and!; try done. eapply within_mono; [|exact Hw].
      unfold UPSTREAM_BURST_SECS, UPSTREAM_RECENT_SECS. lia.
    + intros now' H0 Hle Hlt. apply suppression_window. unfold wrap64.
      rewrite Z.mod_small by (unfold U64_MAX, UPSTREAM_SUPPRESS_SECS in *; lia). lia.
  - split; [done|]. simpl. apply elem_of_app. right. by apply list_elem_of_singleton.
Qed.

Definition two_upstream : Learning :=
  run Learning_default [OpUpstreamUntrusted (lit "a.test") 450; OpUpstreamUntrusted (lit "b.test") 460].

Lemma upstream_untrusted_branches_witness :
  (learn_upstream_untrusted two_upstream example_host 500).2 = false ∧
  pins (learn_upstream_untrusted two_upstream example_host 500).1 = ∅.
Proof.
  pose proof (upstream_untrusted_branches two_upstream example_host 500
    ltac:(discriminate) ltac:(vm_compute; reflexivity)) as Hu.
  split; [|vm_compute; reflexivity].
  vm_compute in Hu |- *. exact (proj1 Hu).
Defined.

(** ** Network changes, forgetting, and the pins file *)

(** A network change takes back exactly the pins learned from upstream failures in the last
    five minutes and from silence in the last minute, and clears every pending counter and both
    records, so nothing of the old network is held against a host. *)
Theorem network_change_takes_back l now :
  let l' := on_network_change l now in
  (∀ (k : bytes) t, pins l' !! k = Some t ↔
     pins l !! k = Some t ∧
     ¬ ((k, t) ∈ upstream l ∧ within t now UPSTREAM_RECENT_SECS = true) ∧
     ¬ ((k, t) ∈ silent l ∧ within t now SILENT_RECENT_SECS = true)) ∧
  upstream l' = [] ∧ silent l' = [] ∧
  silent_pending l' = ∅ ∧ silent_flood l' = ∅ ∧ silent_hosts l' = ∅ ∧
  recent l' = recent l ∧ trusted l' = trusted l.
Proof.
  cbv zeta. split; [intros k t; apply on_network_change_lookup|].
  unfold on_network_change. rewrite !take_back_recent_eq.
  repeat match goal with |- context [take_back_all ?es ?l] =>
    destruct (take_back_all_frame es l) as [? ->]; simpl end. done.
Qed.

(** Forgetting a list of hosts removes exactly their pins, returns how many pins that was
    (a host named twice counts once), and leaves no record of them that could make them a pin
    again or take one back. *)
Theorem forget_pins_exact l hosts :
  let '(l', count) := forget_pins l hosts in
  pins l' = filter (λ kv, kv.1 ∉ lookup_key <$> hosts) (pins l) ∧
  (count + size (pins l') = size (pins l))%nat ∧
  (∀ host, host ∈ hosts → recent l' !! lookup_key host = None ∧
     silent_pending l' !! lookup_key host = None ∧ silent_flood l' !! lookup_key host = None ∧
     (lookup_key host ∉ (upstream l').*1) ∧ (lookup_key host ∉ (silent l').*1)).
Proof.
  pose proof (forget_pins_acc hosts l 0) as Hacc. cbv zeta in Hacc.
  fold (forget_pins l hosts) in Hacc. pose proof (forget_pins_unrecorded hosts l) as Hu.
  destruct (forget_pins l hosts) as [l' count]. cbn [fst snd] in *.
  destruct Hacc as [Hp Hc]. done.
Qed.

(** C40: the pins written by [learned_pins_json] are the pins read back by [parse_pins], when every
    key is a non-empty name and the lookup key of itself, as for every host name without a doubled trailing dot or
    doubled brackets, and every time a [u64]; the written entries are sorted by host. *)
Theorem pins_file_roundtrip `{PinsJson, HashOrder} l :
  (∀ key t, pins l !! key = Some t → key ≠ [] ∧ lookup_key key = key ∧ 0 <= t <= U64_MAX) →
  parse_pins (learned_pins_json l) = pins l ∧ Sorted pin_le (learned_pins l).
Proof. intros Hk. split; [by apply learned_pins_read|apply Sorted_merge_sort, _]. Qed.

Lemma pins_file_roundtrip_witness :
  pins alert_learned ≠ ∅ ∧
  @parse_pins countable_json (@learned_pins_json countable_json trie_order alert_learned) =
    pins alert_learned ∧
  Sorted pin_le (learned_pins alert_learned).
Proof.
  split; [discriminate|]. apply (@pins_file_roundtrip countable_json trie_order alert_learned).
  change (pins alert_learned) with ({[example_key := 200]} : gmap bytes Z).
  intros key t [<- <-]%lookup_singleton_Some. split_and!; [discriminate|vm_compute; reflexivity|lia|vm_compute; discriminate].
Defined.
