(* ===== verification/Glob.v ===== *)
(** * Wildcard patterns of the DNS blocklist ([filter/src/wildcard.rs], first half)

    [glob_matches] is the source's matching loop with its two indices and its last-star
    record, one iteration per [glob_loop] call; [glob_match] says what a glob means.
    [glob_matches_spec] proves that the loop ends and decides the meaning. [Pattern] is a
    stored pattern with its literal head and tail. *)
From S2P Require Import Prelude RustStr Collections.

(** ** The stored form *)

Definition pattern_byte (b : Z) : bool :=
  is_ascii_lowercase b || is_ascii_digit b || (b =? 45) || (b =? 95) || (b =? STAR).
Definition label_ok (label : bytes) : bool :=
  negb (bool_decide (label = [])) && (len label <=? 63) && forallb pattern_byte label.

Definition is_valid_pattern (pattern : bytes) : bool :=
  (len pattern <=? 253) &&
  contains DOT pattern &&
  negb (forallb (λ b, (b =? STAR) || (b =? DOT)) pattern) &&
  forallb label_ok (split_on DOT pattern) &&
  (* [rsplit('.').next()] is the last piece of [split('.')] *)
  negb (match last (split_on DOT pattern) with
        | Some label => forallb is_ascii_digit label
        | None => false
        end).

Definition is_unkeyed (pattern : bytes) : bool :=
  starts_with [STAR] pattern && ends_with [STAR] pattern.

(** ** Matching *)

(** The state of the loop: the position in the glob, in the text, and the last star with
    the text position it stands for. [None] is a loop that did not end within the fuel. *)
Fixpoint glob_loop (fuel : nat) (glob text : bytes) (g t : nat) (star : option (nat * nat))
    : option bool :=
  match fuel with
  | O => None
  | S fuel' =>
      match text !! t with
      | None => Some (forallb (Z.eqb STAR) (drop g glob))
      | Some c =>
          if bool_decide (glob !! g = Some STAR) then glob_loop fuel' glob text (S g) t (Some (g, t))
          else if bool_decide (glob !! g = Some (lower1 c))
          then glob_loop fuel' glob text (S g) (S t) star
          else match star with
               | Some (star_g, star_t) =>
                   glob_loop fuel' glob text (S star_g) (S star_t) (Some (star_g, S star_t))
               | None => Some false
               end
      end
  end.
(** Iterations that are always enough: every iteration moves forward in the glob, or moves
    the text position of the last star forward. *)
Definition glob_fuel (glob text : bytes) : nat :=
  S (S (length text) * S (S (length glob))).
Definition glob_matches (glob text : bytes) : bool :=
  default false (glob_loop (glob_fuel glob text) glob text 0 0 None).

(** The name after each dot of the host. *)
Definition parents (host : bytes) : list bytes := after_each DOT host.

(** ** Patterns *)

Record Pattern := {
  glob : bytes;
  pattern_parents : bool
}.

Definition Pattern_parse (line : bytes) : option Pattern :=
  let build (parents : bool) (glob : bytes) :=
    if is_valid_pattern glob then Some {| glob := glob; pattern_parents := parents |} else None in
  match strip_prefix (lit "||") line with
  | Some glob => build true glob
  | None => match strip_prefix (lit "|") line with
            | Some glob => build false glob
            | None => None
            end
  end.

Definition Pattern_matches (self : Pattern) (host : bytes) : bool :=
  glob_matches (glob self) host ||
  (pattern_parents self && existsb (λ name, glob_matches (glob self) name) (parents host)).

(** [position] and [rposition] of the star. *)
Fixpoint before_star (g : bytes) : bytes :=
  match g with
  | [] => []
  | b :: g' => if b =? STAR then [] else b :: before_star g'
  end.
Definition Pattern_head (self : Pattern) : bytes := before_star (glob self).
Definition Pattern_tail (self : Pattern) : bytes := reverse (before_star (reverse (glob self))).

(** ** Specification *)

(** What a glob means: a star is any run of bytes, any other byte is itself or, for a
    letter, its upper case. *)
Inductive glob_match : bytes → bytes → Prop :=
| gm_nil : glob_match [] []
| gm_star_none g t : glob_match g t → glob_match (STAR :: g) t
| gm_star_more g x t : glob_match (STAR :: g) t → glob_match (STAR :: g) (x :: t)
| gm_byte b g x t : b ≠ STAR → b = lower1 x → glob_match g t → glob_match (b :: g) (x :: t).

(** * Lemmas *)

Lemma glob_match_star g t :
  glob_match (STAR :: g) t ↔ ∃ k, (k ≤ length t)%nat ∧ glob_match g (drop k t).
Proof.
  split.
  - remember (STAR :: g) as sg eqn:E. intros Hm.
    induction Hm as [|g0 t Hm _|g0 x t Hm IH|]; simplify_eq.
    + exists 0%nat. split; [lia|done].
    + destruct (IH eq_refl) as (k & Hk & Hd). exists (S k). split; [simpl; lia|done].
  - intros (k & Hk & Hm). revert t Hk Hm. induction k as [|k IH]; intros t Hk Hm.
    + by apply gm_star_none.
    + destruct t as [|x t]; [simpl in *; lia|]. apply gm_star_more, IH; [simpl in *; lia|done].
Qed.

Lemma glob_match_star_mono g t i j : (i ≤ j)%nat →
  glob_match (STAR :: g) (drop j t) → glob_match (STAR :: g) (drop i t).
Proof.
  intros Hij (k & Hk & Hm)%glob_match_star. rewrite drop_drop in Hm. rewrite length_drop in Hk.
  destruct (decide (j ≤ length t)%nat) as [Hj|Hj].
  - apply glob_match_star. exists (j - i + k)%nat. rewrite length_drop, drop_drop. split; [lia|].
    by replace (i + (j - i + k))%nat with (j + k)%nat by lia.
  - rewrite drop_ge in Hm by lia. apply glob_match_star. exists (length t - i)%nat.
    rewrite length_drop, drop_drop, drop_ge by lia. split; [lia|done].
Qed.

Lemma glob_match_byte b g t : b ≠ STAR →
  glob_match (b :: g) t ↔ ∃ x t', t = x :: t' ∧ b = lower1 x ∧ glob_match g t'.
Proof.
  intros Hb. split; [|by intros (x & t' & -> & ? & ?); apply gm_byte].
  intros Hm. inversion Hm; simplify_eq; try done. eauto.
Qed.

Lemma glob_match_nil_text g : glob_match g [] ↔ forallb (Z.eqb STAR) g = true.
Proof.
  induction g as [|b g IH]; [by split; [|constructor]|]. cbn [forallb]. rewrite andb_true_iff, <-IH.
  destruct (Z.eqb_spec STAR b) as [<-|Hne].
  - rewrite glob_match_star. split; [|intros [_ ?]; by exists 0%nat].
    intros (k & Hk & Hm). by rewrite drop_nil in Hm.
  - rewrite glob_match_byte by done. naive_solver.
Qed.

Lemma glob_match_nil_glob t : glob_match [] t ↔ t = [].
Proof. split; [by inversion 1|]. intros ->. constructor. Qed.

Section Loop.
Context (gl text : bytes).
Let M (g t : nat) : Prop := glob_match (drop g gl) (drop t text).

(** The bytes of the glob between the last star and [g] have no star and match the text
    between the star's position and [t]. *)
Definition walked (sg st g t : nat) : Prop :=
  gl !! sg = Some STAR ∧ (S sg ≤ g)%nat ∧ (g - S sg = t - st)%nat ∧ (st ≤ t)%nat ∧
  ∀ i, (S sg ≤ i < g)%nat → ∃ b c,
    gl !! i = Some b ∧ b ≠ STAR ∧ text !! (st + (i - S sg))%nat = Some c ∧ b = lower1 c.

(** Matching from the position after the star at any text position [k] goes through [g]. *)
Lemma walked_through sg st g t k n : walked sg st g t → (n ≤ g - S sg)%nat →
  M (S sg) k → M (S sg + n) (k + n) ∧ (k + n ≤ length text ∨ n = 0)%nat.
Proof.
  intros Hw. induction n as [|n IH]; intros Hn Hm; [by rewrite !Nat.add_0_r; auto|].
  destruct (IH ltac:(lia) Hm) as [Hm' _]. destruct Hw as (_ & _ & _ & _ & Hi).
  destruct (Hi (S sg + n)%nat ltac:(lia)) as (b & c & Hb & Hne & _ & _).
  unfold M in Hm'. rewrite (drop_S _ _ _ Hb) in Hm'.
  apply glob_match_byte in Hm' as (x & t' & Hd & _ & Hm'); [|done].
  assert (text !! (k + n)%nat = Some x) as Hx.
  { rewrite <-(Nat.add_0_r (k + n)), <-lookup_drop, Hd. done. }
  apply lookup_lt_Some in Hx as Hlt. rewrite (drop_S _ _ _ Hx) in Hd. simplify_eq.
  rewrite !Nat.add_succ_r. split; [done|left; lia].
Qed.

(** At the star's own position the walk is the match so far. *)
Lemma walked_here sg st g t : walked sg st g t → M (S sg) st ↔ M g t.
Proof.
  intros Hw. split.
  - intros Hm. destruct (walked_through _ _ _ _ _ (g - S sg) Hw ltac:(lia) Hm) as [Hm' _].
    destruct Hw as (_ & ? & ? & ? & _).
    replace (S sg + (g - S sg))%nat with g in Hm' by lia.
    by replace (st + (g - S sg))%nat with t in Hm' by lia.
  - destruct Hw as (Hs & Hle & Heq & Hst & Hi).
    assert (∀ n, (n ≤ g - S sg)%nat → M (S sg + n) (st + n) → M (S sg) st) as Hback.
    { induction n as [|n IH]; intros Hn Hm; [by rewrite !Nat.add_0_r in Hm|].
      apply IH; [lia|]. destruct (Hi (S sg + n)%nat ltac:(lia)) as (b & c & Hb & Hne & Hc & ->).
      replace (st + (S sg + n - S sg))%nat with (st + n)%nat in Hc by lia.
      unfold M. rewrite (drop_S _ _ _ Hb), (drop_S _ _ _ Hc).
      apply gm_byte; [done|done|]. by rewrite !Nat.add_succ_r in Hm. }
    intros Hm. apply (Hback (g - S sg)%nat ltac:(lia)).
    replace (S sg + (g - S sg))%nat with g by lia.
    by replace (st + (g - S sg))%nat with t by lia.
Qed.

(** What the loop keeps true: the whole question is the question at the last star. *)
Definition loop_inv (g t : nat) (star : option (nat * nat)) : Prop :=
  (g ≤ length gl)%nat ∧ (t ≤ length text)%nat ∧
  match star with
  | None => M 0 0 ↔ M g t
  | Some (sg, st) => walked sg st g t ∧ (M 0 0 ↔ M sg st)
  end.

(** A star at [g]: the walk from the last star may as well stop here, since the new star
    takes whatever the old one would. *)
Lemma inv_star g t c star : loop_inv g t star → text !! t = Some c → gl !! g = Some STAR →
  loop_inv (S g) t (Some (g, t)).
Proof.
  intros (Hg & Ht & Hi) Hc Hs. apply lookup_lt_Some in Hs as Hlt.
  split; [lia|]. split; [done|]. split.
  { split_and!; try done; try lia. }
  destruct star as [[sg st]|]; [|done]. destruct Hi as [Hw ->].
  pose proof Hw as (Hsg & Hle & Heq & Hst & _). unfold M at 1. rewrite (drop_S _ _ _ Hsg).
  split.
  - rewrite glob_match_star. intros (k & Hk & Hm). rewrite drop_drop in Hm.
    destruct (walked_through _ _ _ _ (st + k) (g - S sg) Hw ltac:(lia) Hm) as [Hm' _].
    unfold M in *. replace (S sg + (g - S sg))%nat with g in Hm' by lia.
    rewrite (drop_S _ _ _ Hs) in *. eapply glob_match_star_mono; [|exact Hm']. lia.
  - intros Hm. apply glob_match_star. exists 0%nat. split; [lia|]. rewrite drop_0.
    by apply (walked_here _ _ _ _ Hw).
Qed.

Lemma inv_byte g t c star : loop_inv g t star → text !! t = Some c →
  gl !! g ≠ Some STAR → gl !! g = Some (lower1 c) → loop_inv (S g) (S t) star.
Proof.
  intros (Hg & Ht & Hi) Hc Hns Hb. apply lookup_lt_Some in Hb as Hlt.
  apply lookup_lt_Some in Hc as Hlt'. split; [lia|]. split; [lia|].
  destruct star as [[sg st]|].
  - destruct Hi as [(Hsg & Hle & Heq & Hst & Hi) HM]. split; [|done].
    split_and!; try done; try lia. intros i Hr. destruct (decide (i = g)) as [->|Hne].
    + exists (lower1 c), c. split_and!; try done; [congruence|].
      by replace (st + (g - S sg))%nat with t by lia.
    + apply Hi. lia.
  - rewrite Hi. unfold M. rewrite (drop_S _ _ _ Hb), (drop_S _ _ _ Hc), glob_match_byte by congruence.
    naive_solver.
Qed.

(** Neither a star nor this byte: the text from [t] cannot match from [g]. *)
Lemma no_match g t c : text !! t = Some c → gl !! g ≠ Some STAR → gl !! g ≠ Some (lower1 c) →
  ¬ M g t.
Proof.
  intros Hc Hs Hb. unfold M. rewrite (drop_S _ _ _ Hc). destruct (gl !! g) as [b|] eqn:Hg.
  - rewrite (drop_S _ _ _ Hg), glob_match_byte by congruence. naive_solver.
  - rewrite drop_ge, glob_match_nil_glob by by apply lookup_ge_None. done.
Qed.

Lemma inv_back g t c sg st : loop_inv g t (Some (sg, st)) → text !! t = Some c →
  gl !! g ≠ Some STAR → gl !! g ≠ Some (lower1 c) →
  loop_inv (S sg) (S st) (Some (sg, S st)).
Proof.
  intros (Hg & Ht & Hw & HM) Hc Hs Hb. pose proof Hw as (Hsg & Hle & Heq & Hst & _).
  apply lookup_lt_Some in Hc as Hlt. apply lookup_lt_Some in Hsg as Hlt'.
  split; [lia|]. split; [lia|]. split; [split_and!; try done; lia|]. rewrite HM.
  assert (¬ M (S sg) st) as Hno by (rewrite (walked_here _ _ _ _ Hw); by eapply no_match).
  unfold M in *. rewrite (drop_S _ _ _ Hsg). split; [|apply glob_match_star_mono; lia].
  rewrite !glob_match_star. intros ([|k] & Hk & Hm); [by rewrite drop_0 in Hm|].
  exists k. rewrite length_drop in *. rewrite drop_drop in *. split; [lia|].
  by rewrite Nat.add_succ_r in Hm.
Qed.

(** At the end of the text. *)
Lemma inv_end g t star : loop_inv g t star → text !! t = None →
  M 0 0 ↔ forallb (Z.eqb STAR) (drop g gl) = true.
Proof.
  intros (Hg & Ht & Hi) Hn%lookup_ge_None. assert (t = length text) as -> by lia.
  assert (forallb (Z.eqb STAR) (drop g gl) = true ↔ M g (length text)) as ->.
  { unfold M. by rewrite drop_all, glob_match_nil_text. }
  destruct star as [[sg st]|]; [|done]. destruct Hi as [Hw ->].
  rewrite <-(walked_here _ _ _ _ Hw). pose proof Hw as (Hsg & Hle & Heq & Hst & _).
  unfold M at 1. rewrite (drop_S _ _ _ Hsg), glob_match_star. split.
  - intros (k & Hk & Hm). rewrite drop_drop in Hm. rewrite length_drop in Hk.
    destruct (walked_through _ _ _ _ (st + k) (g - S sg) Hw ltac:(lia) Hm) as [_ Hle'].
    destruct k as [|k]; [by rewrite Nat.add_0_r in Hm|].
    destruct Hle' as [Hle'|Hz]; [lia|].
    assert (st = length text) by lia. lia.
  - intros Hm. exists 0%nat. split; [lia|]. by rewrite drop_0.
Qed.

(** Enough fuel for the rest of the loop. *)
Definition loop_left (g : nat) (star : option (nat * nat)) : nat :=
  ((length text - match star with Some (_, st) => st | None => 0 end) * S (S (length gl)) +
   (length gl - g))%nat.

Lemma glob_loop_total fuel g t star :
  loop_inv g t star → (loop_left g star < fuel)%nat →
  ∃ b, glob_loop fuel gl text g t star = Some b ∧ (b = true ↔ M 0 0).
Proof.
  revert g t star. induction fuel as [|fuel IH]; intros g t star Hi Hf; [lia|]. simpl.
  destruct (text !! t) as [c|] eqn:Hc; [|eexists; split; [done|]; symmetry; by eapply inv_end].
  pose proof Hi as (Hg & Ht & Hst). apply lookup_lt_Some in Hc as Hlt.
  case_bool_decide as Hs; [|case_bool_decide as Hb].
  - apply IH; [by eapply inv_star|]. apply lookup_lt_Some in Hs. unfold loop_left in *.
    destruct star as [[sg st]|]; [destruct Hst as [(_ & _ & _ & Hle & _) _]; nia|nia].
  - apply IH; [by eapply inv_byte|]. apply lookup_lt_Some in Hb. unfold loop_left in *. nia.
  - destruct star as [[sg st]|].
    + apply IH; [by eapply inv_back|]. unfold loop_left in *.
      destruct Hst as [(_ & _ & _ & Hle & _) _]. nia.
    + eexists. split; [done|]. split; [done|]. rewrite Hst. intros Hm.
      by eapply no_match in Hm.
Qed.
End Loop.

(** The loop ends and decides the meaning of the glob. *)
Lemma glob_loop_spec gl text : ∃ b,
  glob_loop (glob_fuel gl text) gl text 0 0 None = Some b ∧ (b = true ↔ glob_match gl text).
Proof.
  apply (glob_loop_total gl text).
  - split; [lia|]. split; [lia|done].
  - unfold loop_left, glob_fuel. lia.
Qed.

Lemma glob_matches_spec gl text : glob_matches gl text = true ↔ glob_match gl text.
Proof. unfold glob_matches. destruct (glob_loop_spec gl text) as (b & -> & Hb). done. Qed.

(** ** Splitting a glob *)

Lemma glob_match_app g1 g2 t :
  glob_match (g1 ++ g2) t ↔ ∃ t1 t2, t = t1 ++ t2 ∧ glob_match g1 t1 ∧ glob_match g2 t2.
Proof.
  revert t. induction g1 as [|b g1 IH]; intros t; simpl.
  { split; [by exists [], t; split_and!; [|constructor|]|].
    intros (t1 & t2 & -> & ->%glob_match_nil_glob & ?). done. }
  destruct (decide (b = STAR)) as [->|Hb].
  - rewrite glob_match_star. setoid_rewrite IH. split.
    + intros (k & Hk & t1 & t2 & Ht & H1 & H2). exists (take k t ++ t1), t2. split_and!; [|..|done].
      { rewrite <-app_assoc, <-Ht. by rewrite take_drop. }
      apply glob_match_star. exists k. rewrite length_app, length_take_le by done.
      split; [lia|]. by rewrite drop_app_length' by (rewrite length_take_le; lia).
    + intros (t1 & t2 & -> & (k & Hk & H1)%glob_match_star & H2). exists k.
      rewrite length_app. split; [lia|]. exists (drop k t1), t2. split_and!; try done.
      by rewrite drop_app_le.
  - rewrite glob_match_byte by done. setoid_rewrite IH. setoid_rewrite glob_match_byte; [|done].
    split.
    + intros (x & t' & -> & -> & t1 & t2 & -> & H1 & H2).
      exists (x :: t1), t2. split_and!; [done| |done]. eauto.
    + intros (t1 & t2 & -> & (x & t' & -> & -> & H1) & H2). exists x, (t' ++ t2). naive_solver.
Qed.

Lemma glob_match_star_any t : glob_match [STAR] t.
Proof. apply glob_match_star. exists (length t). rewrite drop_all. split; [lia|constructor]. Qed.

Lemma glob_match_reverse_1 g t : glob_match g t → glob_match (reverse g) (reverse t).
Proof.
  induction 1 as [|g t _ IH|g x t _ IH|b g x t Hb Hx _ IH]; rewrite ?reverse_cons in *.
  - constructor.
  - apply glob_match_app. exists (reverse t), []. rewrite app_nil_r.
    split_and!; auto using glob_match_star_any.
  - apply glob_match_app in IH as (t1 & t2 & Ht & H1 & H2). apply glob_match_app.
    exists t1, (t2 ++ [x]). rewrite app_assoc, <-Ht. auto using glob_match_star_any.
  - apply glob_match_app. exists (reverse t), [x]. split_and!; [done..|].
    apply gm_byte; [done|done|constructor].
Qed.

Lemma glob_match_reverse g t : glob_match (reverse g) (reverse t) ↔ glob_match g t.
Proof.
  split; [|apply glob_match_reverse_1]. intros Hm%glob_match_reverse_1.
  by rewrite !reverse_involutive in Hm.
Qed.

(** A glob with no star matches only itself. *)
Lemma glob_match_literal g t : STAR ∉ g → glob_match g t ↔ to_ascii_lowercase t = g.
Proof.
  revert t. induction g as [|b g IH]; intros t Hs.
  { by rewrite glob_match_nil_glob, to_lower_nil_iff. }
  apply not_elem_of_cons in Hs as [Hb Hs]. rewrite glob_match_byte by done.
  setoid_rewrite IH; [|done]. split.
  - intros (x & t' & -> & -> & <-). done.
  - destruct t as [|x t]; [done|]. csimpl. intros [= <- <-]. eauto.
Qed.

Lemma before_star_spec g :
  (STAR ∉ before_star g) ∧ (g = before_star g ∨ ∃ rest, g = before_star g ++ STAR :: rest).
Proof.
  induction g as [|b g [IH1 IH2]]; simpl; [split; [set_solver|by left]|].
  destruct (Z.eqb_spec b STAR) as [->|Hb]; [split; [set_solver|right; by eexists]|].
  split; [set_solver|]. destruct IH2 as [<-|(rest & Hr)]; [by left|right].
  exists rest. by rewrite Hr at 1.
Qed.

(** What a glob matches starts with its head and ends with its tail. *)
Lemma glob_match_head g t : glob_match g t → ∃ r, to_ascii_lowercase t = before_star g ++ r.
Proof.
  destruct (before_star_spec g) as [Hn [Hg|(rest & Hg)]]; rewrite Hg at 1.
  - intros Hm%glob_match_literal; [|done]. exists []. by rewrite app_nil_r.
  - intros (t1 & t2 & -> & H1%glob_match_literal & _)%glob_match_app; [|done].
    exists (to_ascii_lowercase t2). by rewrite to_lower_app, H1.
Qed.

Lemma to_lower_reverse t : to_ascii_lowercase (reverse t) = reverse (to_ascii_lowercase t).
Proof. apply fmap_reverse. Qed.

Lemma glob_match_tail g t : glob_match g t →
  ∃ r, reverse (to_ascii_lowercase t) = before_star (reverse g) ++ r.
Proof. intros Hm%glob_match_reverse%glob_match_head. by rewrite to_lower_reverse in Hm. Qed.

(** The parents of a host end it. *)
Lemma elem_of_parents host name : name ∈ parents host ↔ ∃ p, host = p ++ DOT :: name.
Proof. apply elem_of_after_each. Qed.

Lemma Pattern_matches_spec p host :
  Pattern_matches p host = true ↔
  glob_match (glob p) host ∨
  (pattern_parents p = true ∧ ∃ name, name ∈ parents host ∧ glob_match (glob p) name).
Proof.
  unfold Pattern_matches. rewrite orb_true_iff, andb_true_iff, glob_matches_spec, existsb_Exists.
  by setoid_rewrite glob_matches_spec.
Qed.
