(* ===== verification/Trie.v ===== *)
(** * The trie that files wildcard patterns ([filter/src/wildcard.rs], [Trie])

    [Trie_new] is the source's level-by-level construction of the flat arrays: a queue of
    nodes that are numbered but not written, each with its run of the sorted entries and its
    depth. A run is a contiguous range of the sorted vector in the source; here it is the
    list of the entries in that range. [Trie_any] is the walk along a text. The theorem
    [Trie_any_spec] says that the walk finds exactly the entries whose string starts the
    text. Node and pattern numbers are [nat]; the [expect] on [u32::try_from] is about more
    than 2^32 bytes of patterns and is not modelled. *)
From S2P Require Import Prelude RustStr Collections.

Abbreviation entry := (bytes * nat)%type.

(** The order of [Vec<(Vec<u8>, u32)>::sort_unstable]. *)
Definition entry_le (a b : entry) : Prop :=
  a.1 ≠ b.1 ∧ bytes_le a.1 b.1 ∨ a.1 = b.1 ∧ (a.2 ≤ b.2)%nat.
#[global] Instance entry_le_dec : RelDecision entry_le.
Proof. intros a b. unfold entry_le. apply _. Defined.

Record Trie := {
  trie_root : list nat;
  edge_start : list nat;
  edge_bytes : list Z;
  edge_nodes : list nat;
  id_start : list nat;
  ids : list nat
}.
Definition Trie_default : Trie :=
  {| trie_root := []; edge_start := []; edge_bytes := []; edge_nodes := []; id_start := []; ids := [] |}.

(** The first inner loop: the entries whose string ends at this depth, and the others. *)
Fixpoint ending_here (depth : nat) (run : list entry) : list nat * list entry :=
  match run with
  | [] => ([], [])
  | (key, id) :: rest =>
      if (length key =? depth)%nat
      then let '(found, others) := ending_here depth rest in (id :: found, others)
      else ([], run)
  end.

(** The innermost loop: the entries that continue with [byte]. *)
Fixpoint same_byte (depth : nat) (byte : Z) (run : list entry) : list entry * list entry :=
  match run with
  | [] => ([], [])
  | e :: rest =>
      if nth depth e.1 0 =? byte
      then let '(group, others) := same_byte depth byte rest in (e :: group, others)
      else ([], run)
  end.

(** The second inner loop: the children of a node, each with its byte and its run. *)
Fixpoint children (fuel depth : nat) (run : list entry) : list (Z * list entry) :=
  match fuel, run with
  | S fuel', e :: rest =>
      let byte := nth depth e.1 0 in
      let '(group, others) := same_byte depth byte rest in
      (byte, e :: group) :: children fuel' depth others
  | _, _ => []
  end.

(** Numbers one child: its edge, and its entry in the root's table. *)
Definition add_child (root : bool) (trie : Trie) (byte : Z) (child : nat) : Trie :=
  {| trie_root := if root then <[Z.to_nat byte := child]> (trie_root trie) else trie_root trie;
     edge_start := edge_start trie;
     edge_bytes := edge_bytes trie ++ [byte];
     edge_nodes := edge_nodes trie ++ [child];
     id_start := id_start trie;
     ids := ids trie |}.
Fixpoint add_children (root : bool) (trie : Trie) (numbered : nat) (cs : list (Z * list entry))
    : Trie * nat :=
  match cs with
  | [] => (trie, numbered)
  | (byte, _) :: cs' => add_children root (add_child root trie byte numbered) (S numbered) cs'
  end.

(** One iteration of the outer loop: writes a node, and gives the runs of its children. *)
Definition write_node (root : bool) (trie : Trie) (numbered : nat) (run : list entry) (depth : nat)
    : Trie * nat * list (list entry * nat) :=
  let '(found, others) := ending_here depth run in
  let trie :=
    {| trie_root := trie_root trie;
       edge_start := edge_start trie ++ [length (edge_bytes trie)];
       edge_bytes := edge_bytes trie;
       edge_nodes := edge_nodes trie;
       id_start := id_start trie ++ [length (ids trie)];
       ids := ids trie ++ found |} in
  let cs := children (length others) depth others in
  let '(trie, numbered) := add_children root trie numbered cs in
  (trie, numbered, (λ c, (c.2, S depth)) <$> cs).

Fixpoint write_nodes (fuel : nat) (root : bool) (trie : Trie) (numbered : nat)
    (pending : list (list entry * nat)) : option Trie :=
  match pending with
  | [] => Some trie
  | (run, depth) :: pending =>
      match fuel with
      | O => None
      | S fuel' =>
          let '(trie, numbered, cs) := write_node root trie numbered run depth in
          write_nodes fuel' false trie numbered (pending ++ cs)
      end
  end.

(** The bound of the source's comment: one node for each prefix of a string, and the root. *)
Definition edge_bound (entries : list entry) : nat := sum_list ((λ e : entry, length e.1) <$> entries).

Definition Trie_new (entries : list entry) : Trie :=
  match entries with
  | [] => Trie_default
  | _ =>
      let entries := merge_sort entry_le entries in
      let trie := {| trie_root := replicate 256 0%nat; edge_start := []; edge_bytes := [];
                     edge_nodes := []; id_start := []; ids := [] |} in
      match write_nodes (S (edge_bound entries)) true trie 1 [(entries, 0%nat)] with
      | Some trie =>
          {| trie_root := trie_root trie;
             edge_start := edge_start trie ++ [length (edge_bytes trie)];
             edge_bytes := edge_bytes trie;
             edge_nodes := edge_nodes trie;
             id_start := id_start trie ++ [length (ids trie)];
             ids := ids trie |}
      | None => Trie_default
      end
  end.

Definition Trie_is_empty (self : Trie) : bool := bool_decide (trie_root self = []).

(** The walk from a node along the rest of the text. *)
Fixpoint walk (self : Trie) (node : nat) (text : bytes) (f : nat → bool) : bool :=
  let here := slice (nth node (id_start self) 0%nat) (nth (S node) (id_start self) 0%nat) (ids self) in
  if existsb f here then true
  else match text with
       | [] => false
       | byte :: text' =>
           let start := nth node (edge_start self) 0%nat in
           match binary_search (slice start (nth (S node) (edge_start self) 0%nat) (edge_bytes self)) byte with
           | None => false
           | Some i => walk self (nth (start + i) (edge_nodes self) 0%nat) text' f
           end
       end.
Definition Trie_any (self : Trie) (text : bytes) (f : nat → bool) : bool :=
  match text with
  | [] => false
  | first :: text' =>
      match trie_root self !! Z.to_nat first with
      | None => false
      | Some child => if (child =? 0)%nat then false else walk self child text' f
      end
  end.

(** ** Specification: try every entry *)

Definition entries_any (entries : list entry) (text : bytes) (f : nat → bool) : bool :=
  existsb (λ e, starts_with e.1 text && f e.2) entries.

Definition example_entries : list entry :=
  [(lit "ab", 0); (lit "abc", 1); (lit "b", 2); (lit "ab", 3); (lit "ax", 4)]%nat.
Example Trie_run :
  (λ t, Trie_any (Trie_new example_entries) (lit t) (λ id, id =? 3)%nat) <$>
    ["abd"; "ab"; "a"; "xab"; "abc"]%string = [true; true; false; false; true].
Proof. vm_compute. reflexivity. Qed.

(** * Lemmas *)

(** ** The inner loops *)

(** The node's view of its run: every string starts with the path, in order. *)
Definition node_ok (nd : list entry * nat) : Prop :=
  StronglySorted entry_le nd.1 ∧
  ∃ path, length path = nd.2 ∧ Forall (λ e : entry, ∃ r, e.1 = path ++ r) nd.1.

Definition byte_at (depth : nat) (e : entry) : Z := nth depth e.1 0.
Definition found (nd : list entry * nat) : list nat := (ending_here nd.2 nd.1).1.
Definition kids (nd : list entry * nat) : list (Z * list entry) :=
  let others := (ending_here nd.2 nd.1).2 in children (length others) nd.2 others.
Definition next (nd : list entry * nat) : list (list entry * nat) :=
  (λ c, (c.2, S nd.2)) <$> kids nd.

Lemma bytes_le_app p a b : bytes_le (p ++ a) (p ++ b) ↔ bytes_le a b.
Proof.
  unfold bytes_le. induction p as [|x p IH]; simpl; [done|].
  by rewrite Z.ltb_irrefl, Z.eqb_refl.
Qed.

Lemma entry_le_bytes a b : entry_le a b → bytes_le a.1 b.1.
Proof. intros [[_ ?]|[-> _]]; [done|]. apply reflexivity. Qed.

#[global] Instance entry_le_total : Total entry_le.
Proof.
  intros [a s] [b t]. unfold entry_le. simpl.
  destruct (decide (a = b)) as [->|Hne]; [destruct (Nat.le_ge_cases s t); auto|].
  destruct (total bytes_le a b); auto.
Qed.

#[global] Instance entry_le_trans : Transitive entry_le.
Proof.
  intros [a s] [b t] [c u] H1 H2. pose proof (entry_le_bytes _ _ H1) as B1.
  pose proof (entry_le_bytes _ _ H2) as B2. unfold entry_le in *. simpl in *.
  destruct (decide (a = c)) as [->|Hne].
  - right. split; [done|]. assert (b = c) as -> by by apply (anti_symm bytes_le).
    destruct H1 as [[]|[]], H2 as [[]|[]]; try done. lia.
  - left. split; [done|]. by etrans.
Qed.

Lemma ending_here_split depth run :
  ∃ hd, run = hd ++ (ending_here depth run).2 ∧ hd.*2 = (ending_here depth run).1 ∧
    Forall (λ e : entry, length e.1 = depth) hd ∧
    match (ending_here depth run).2 with [] => True | e :: _ => length e.1 ≠ depth end.
Proof.
  induction run as [|[key id] run IH]; simpl; [by exists []|].
  destruct (Nat.eqb_spec (length key) depth) as [Hl|Hl]; [|by exists []].
  destruct IH as (hd & Hr & Hi & Hf & Ho). destruct (ending_here depth run) as [fs os].
  simpl in *. exists ((key, id) :: hd). split_and!; [by rewrite Hr at 1|by csimpl; rewrite Hi|by constructor|done].
Qed.

(** After the strings that end at the node, all are longer. *)
Lemma others_longer nd : node_ok nd →
  Forall (λ e : entry, (nd.2 < length e.1)%nat) (ending_here nd.2 nd.1).2.
Proof.
  intros [Hs (path & Hp & Hf)]. destruct nd as [run d]. simpl in *.
  destruct (ending_here_split d run) as (hd & Hr & _ & _ & Ho).
  set (os := (ending_here d run).2) in *. clearbody os. subst run d.
  apply StronglySorted_app_1_r in Hs. apply Forall_app in Hf as [_ Hf].
  destruct os as [|e os]; [constructor|].
  inversion_clear Hf as [|?? [r He] Hf']. rewrite He, length_app in Ho.
  assert (r ≠ []) as Hr by (intros ->; simpl in Ho; lia).
  apply StronglySorted_cons in Hs as [Hle _]. constructor.
  { rewrite He, length_app. destruct r; [done|simpl; lia]. }
  rewrite Forall_forall in *. intros e' Hin. destruct (Hf' e' Hin) as [r' He'].
  specialize (Hle e' Hin). apply entry_le_bytes in Hle. rewrite He, He', bytes_le_app in Hle.
  rewrite He', length_app. destruct r as [|b r]; [done|]. destruct r' as [|b' r']; [done|simpl; lia].
Qed.

(** The next bytes of the longer strings are in order. *)
Lemma others_sorted nd : node_ok nd →
  StronglySorted Z.le (byte_at nd.2 <$> (ending_here nd.2 nd.1).2).
Proof.
  intros Hok. pose proof (others_longer nd Hok) as Hlong.
  destruct Hok as [Hs (path & Hp & Hf)]. destruct nd as [run d]. simpl in *.
  destruct (ending_here_split d run) as (hd & Hr & _ & _ & _).
  set (os := (ending_here d run).2) in *. clearbody os. subst run d.
  apply StronglySorted_app_1_r in Hs. apply Forall_app in Hf as [_ Hf].
  induction os as [|e os IH]; csimpl; [constructor|].
  apply StronglySorted_cons in Hs as [Hle Hs]. apply Forall_cons in Hlong as [He Hlong].
  apply Forall_cons in Hf as [Hfe Hf]. apply StronglySorted_cons. split; [|by apply IH].
  apply Forall_fmap. rewrite Forall_forall in *. intros e' Hin. unfold compose, byte_at.
  destruct Hfe as [r Hr]. destruct (Hf e' Hin) as [r' Hr'].
  pose proof (entry_le_bytes _ _ (Hle e' Hin)) as Hb. specialize (Hlong e' Hin).
  rewrite Hr, Hr', bytes_le_app in Hb. rewrite Hr, Hr', !app_nth2, Nat.sub_diag by lia.
  rewrite Hr, length_app in He. rewrite Hr', length_app in Hlong.
  destruct r as [|x r], r' as [|y r']; simpl in *; try lia. unfold bytes_le in Hb. simpl in Hb. lia.
Qed.

Lemma same_byte_split depth byte run :
  run = (same_byte depth byte run).1 ++ (same_byte depth byte run).2 ∧
  Forall (λ e, byte_at depth e = byte) (same_byte depth byte run).1 ∧
  match (same_byte depth byte run).2 with [] => True | e :: _ => byte_at depth e ≠ byte end.
Proof.
  induction run as [|e run IH]; simpl; [done|].
  destruct (Z.eqb_spec (nth depth e.1 0) byte) as [Hb|Hb]; [|done].
  destruct (same_byte depth byte run) as [g os]. simpl in *. destruct IH as (-> & Hf & Ho).
  split_and!; [done|by constructor|done].
Qed.

Lemma children_spec fuel depth run : (length run ≤ fuel)%nat →
  StronglySorted Z.le (byte_at depth <$> run) →
  let cs := children fuel depth run in
  concat cs.*2 = run ∧
  Forall (λ c : Z * list entry, c.2 ≠ [] ∧ Forall (λ e, byte_at depth e = c.1) c.2) cs ∧
  StronglySorted Z.lt cs.*1 ∧
  (∀ c, c ∈ cs.*1 → ∃ e, e ∈ run ∧ byte_at depth e = c).
Proof.
  revert run. induction fuel as [|fuel IH]; intros run Hf Hs.
  { destruct run; [|simpl in *; lia]. simpl. split_and!; try constructor. set_solver. }
  destruct run as [|e run]; [simpl; split_and!; try constructor; set_solver|]. cbn [children].
  change (nth depth e.1 0) with (byte_at depth e).
  destruct (same_byte_split depth (byte_at depth e) run) as (Hrun & Hg & Ho).
  destruct (same_byte depth (byte_at depth e) run) as [g os]. simpl in Hrun, Hg, Ho. subst run.
  csimpl in Hs. rewrite fmap_app in Hs.
  apply StronglySorted_cons in Hs as [Hle Hs]. apply Forall_app in Hle as [_ Hle].
  apply StronglySorted_app_1_r in Hs as Hos.
  destruct (IH os) as (Hc & Hall & Hlt & Hin); [simpl in Hf; rewrite length_app in Hf; lia|done|].
  csimpl. split_and!.
  - by rewrite Hc.
  - constructor; [|done]. simpl. split; [done|]. by constructor.
  - apply StronglySorted_cons. split; [|done]. apply Forall_forall. intros c Hcin.
    destruct (Hin c Hcin) as (e' & He' & <-).
    destruct os as [|o os]; [set_solver|]. csimpl in Hos. csimpl in Hle.
    apply Forall_cons in Hle as [Hle _]. apply StronglySorted_cons in Hos as [Hos _].
    rewrite Forall_fmap, Forall_forall in Hos. unfold compose in Hos.
    apply elem_of_cons in He' as [->|He']; [lia|]. specialize (Hos _ He'). lia.
  - intros c [->|Hcin]%elem_of_cons; [exists e; set_solver|].
    destruct (Hin c Hcin) as (e' & He' & <-). exists e'. set_solver.
Qed.

Lemma kids_spec nd : node_ok nd →
  concat (kids nd).*2 = (ending_here nd.2 nd.1).2 ∧
  Forall (λ c : Z * list entry, c.2 ≠ [] ∧ Forall (λ e, byte_at nd.2 e = c.1) c.2) (kids nd) ∧
  StronglySorted Z.lt (kids nd).*1.
Proof.
  intros Hok. unfold kids.
  destruct (children_spec (length (ending_here nd.2 nd.1).2) nd.2 (ending_here nd.2 nd.1).2)
    as (? & ? & ? & _); [done|by apply others_sorted|done].
Qed.

Lemma StronglySorted_sub {A} (R : relation A) l1 l2 l3 :
  StronglySorted R (l1 ++ l2 ++ l3) → StronglySorted R l2.
Proof. intros Hs%StronglySorted_app_1_r. by apply StronglySorted_app_1_l in Hs. Qed.

(** A child's run is a part of its parent's. *)
Lemma kid_run nd c : node_ok nd → c ∈ kids nd → ∃ l1 l3, nd.1 = l1 ++ c.2 ++ l3.
Proof.
  intros Hok Hin. destruct (kids_spec nd Hok) as (Hc & _ & _).
  destruct (ending_here_split nd.2 nd.1) as (hd & Hr & _).
  apply list_elem_of_split in Hin as (k1 & k3 & Hk).
  exists (hd ++ concat k1.*2), (concat k3.*2).
  rewrite Hr, <-Hc, Hk, fmap_app, concat_app. simpl. by rewrite app_assoc.
Qed.

Lemma next_ok nd : node_ok nd → Forall node_ok (next nd).
Proof.
  intros Hok. apply Forall_fmap, Forall_forall. intros c Hin. unfold compose.
  destruct (kid_run nd c Hok Hin) as (l1 & l3 & Hr). pose proof (others_longer nd Hok) as Hlong.
  destruct (kids_spec nd Hok) as (Hc & Hall & _).
  rewrite Forall_forall in Hall. destruct (Hall c Hin) as [_ Hb].
  destruct Hok as [Hs (path & Hp & Hf)]. split; simpl.
  { rewrite Hr in Hs. by eapply StronglySorted_sub. }
  exists (path ++ [c.1]). rewrite length_app, Hp. split; [simpl; lia|].
  rewrite Forall_forall in *. intros e He.
  assert (e ∈ nd.1) as He' by (rewrite Hr; set_solver).
  assert (e ∈ (ending_here nd.2 nd.1).2) as He2.
  { rewrite <-Hc. apply elem_of_concat. exists c.2. split; [by apply list_elem_of_fmap_2|done]. }
  destruct (Hf e He') as [r Her]. specialize (Hlong e He2). specialize (Hb e He).
  unfold byte_at in Hb. rewrite Her, app_nth2, Hp, Nat.sub_diag in Hb by lia.
  rewrite Her, length_app in Hlong. destruct r as [|x r]; [simpl in *; lia|]. simpl in Hb. subst x.
  exists r. by rewrite Her, <-app_assoc.
Qed.

(** ** The arrays *)

Fixpoint fill (table : list nat) (n : nat) (bs : list Z) : list nat :=
  match bs with
  | [] => table
  | b :: bs' => fill (<[Z.to_nat b := n]> table) (S n) bs'
  end.

Lemma add_children_spec root trie n cs :
  add_children root trie n cs =
  ({| trie_root := if root then fill (trie_root trie) n cs.*1 else trie_root trie;
      edge_start := edge_start trie;
      edge_bytes := edge_bytes trie ++ cs.*1;
      edge_nodes := edge_nodes trie ++ seq n (length cs);
      id_start := id_start trie;
      ids := ids trie |}, (n + length cs)%nat).
Proof.
  revert trie n. induction cs as [|[b r] cs IH]; intros trie n; csimpl.
  { rewrite !app_nil_r, Nat.add_0_r. destruct trie. by destruct root. }
  rewrite IH. unfold add_child. simpl. rewrite <-!app_assoc, Nat.add_succ_r.
  destruct root; reflexivity.
Qed.

(** Where each node's part starts, for the first [n] nodes. *)
Definition starts {A} (ls : list (list A)) (n : nat) : list nat :=
  (λ i, length (concat (take i ls))) <$> seq 0 n.

Lemma starts_snoc {A} (ls : list (list A)) l :
  starts (ls ++ [l]) (S (length ls)) = starts ls (length ls) ++ [length (concat ls)].
Proof.
  unfold starts. rewrite seq_S, fmap_app. simpl. f_equal.
  - apply list_fmap_ext. intros i x Hx%lookup_seq. rewrite take_app_le by lia. done.
  - by rewrite take_app_length.
Qed.

Lemma nth_starts {A} (ls : list (list A)) n i : (i < n)%nat →
  nth i (starts ls n) 0%nat = length (concat (take i ls)).
Proof.
  intros Hi. apply nth_lookup_Some. unfold starts. rewrite list_lookup_fmap, lookup_seq_lt by done.
  done.
Qed.

(** The arrays hold the parts of the nodes [done], in order. *)
Record written (nodes : list (list entry * nat)) (trie : Trie) : Prop := {
  w_bytes : edge_bytes trie = concat ((λ nd, (kids nd).*1) <$> nodes);
  w_nodes : edge_nodes trie = seq 1 (length (edge_bytes trie));
  w_ids : ids trie = concat (found <$> nodes);
  w_edge_start : edge_start trie = starts ((λ nd, (kids nd).*1) <$> nodes) (length nodes);
  w_id_start : id_start trie = starts (found <$> nodes) (length nodes)
}.

Lemma write_node_spec root nodes trie run d : written nodes trie →
  ∃ trie', write_node root trie (S (length (edge_bytes trie))) run d =
    (trie', S (length (edge_bytes trie')), next (run, d)) ∧
  written (nodes ++ [(run, d)]) trie' ∧
  trie_root trie' = (if root then fill (trie_root trie) (S (length (edge_bytes trie)))
                       (kids (run, d)).*1 else trie_root trie).
Proof.
  intros [Hb Hn Hi He Hs]. unfold write_node.
  pose proof (eq_refl : kids (run, d) = children (length (ending_here d run).2) d (ending_here d run).2) as Hk.
  pose proof (eq_refl : found (run, d) = (ending_here d run).1) as Hf.
  destruct (ending_here d run) as [fs os] eqn:E. simpl in Hk, Hf. rewrite <-Hk, <-Hf.
  rewrite add_children_spec. eexists. split; [|split].
  - do 2 f_equal. simpl. rewrite length_app, length_fmap. lia.
  - split; simpl.
    + rewrite Hb, fmap_app, concat_app. simpl. by rewrite app_nil_r.
    + rewrite Hn, length_app, length_fmap, seq_app. done.
    + rewrite Hi, fmap_app, concat_app. simpl. by rewrite app_nil_r.
    + rewrite He, length_app, fmap_app, Nat.add_1_r. simpl. rewrite Hb.
      by rewrite <-(length_fmap (λ nd, (kids nd).*1) nodes), starts_snoc.
    + rewrite Hs, length_app, fmap_app, Nat.add_1_r. simpl. rewrite Hi.
      by rewrite <-(length_fmap found nodes), starts_snoc.
  - done.
Qed.

(** ** The outer loop ends *)

Definition left_of (d : nat) (run : list entry) : nat :=
  sum_list ((λ e : entry, (length e.1 - d)%nat) <$> run).
Definition work (nd : list entry * nat) : nat := S (left_of nd.2 nd.1).

Lemma sum_list_app l1 l2 : sum_list (l1 ++ l2) = (sum_list l1 + sum_list l2)%nat.
Proof. induction l1; simpl; lia. Qed.

Lemma left_of_app d l1 l2 : left_of d (l1 ++ l2) = (left_of d l1 + left_of d l2)%nat.
Proof. unfold left_of. by rewrite fmap_app, sum_list_app. Qed.

Lemma left_of_group d c : c ≠ [] → Forall (λ e : entry, (d < length e.1)%nat) c →
  (S (left_of (S d) c) ≤ left_of d c)%nat.
Proof.
  intros Hne Hf. destruct Hf as [|e c He Hc]; [done|]. unfold left_of. csimpl.
  assert (sum_list ((λ e0 : entry, (length e0.1 - S d)%nat) <$> c) ≤
          sum_list ((λ e0 : entry, (length e0.1 - d)%nat) <$> c))%nat.
  { clear. induction c; csimpl; lia. }
  lia.
Qed.

Lemma work_next nd : node_ok nd → (sum_list (work <$> next nd) < work nd)%nat.
Proof.
  intros Hok. pose proof (others_longer nd Hok) as Hl. destruct (kids_spec nd Hok) as (Hc & Hall & _).
  destruct (ending_here_split nd.2 nd.1) as (hd & Hr & _).
  assert (left_of nd.2 (concat (kids nd).*2) ≤ left_of nd.2 nd.1)%nat as Hle
    by (rewrite Hc; rewrite Hr at 2; rewrite left_of_app; lia).
  unfold work at 2. apply Nat.lt_succ_r. etrans; [|exact Hle]. rewrite <-Hc in Hl. clear Hc Hle Hr.
  unfold next. induction Hall as [|c cs [Hne _] _ IH]; csimpl; [lia|].
  csimpl in Hl. apply Forall_app in Hl as [Hl1 Hl2]. rewrite left_of_app.
  specialize (IH Hl2). pose proof (left_of_group _ _ Hne Hl1).
  change (work (c.2, S nd.2)) with (S (left_of (S nd.2) c.2)). lia.
Qed.

Lemma write_nodes_spec fuel nodes pending trie start :
  nodes ≠ [] → written nodes trie → Forall node_ok (nodes ++ pending) →
  nodes ++ pending = start :: concat (next <$> nodes) →
  (sum_list (work <$> pending) ≤ fuel)%nat →
  ∃ trie' all, write_nodes fuel false trie (S (length (edge_bytes trie))) pending = Some trie' ∧
    written all trie' ∧ Forall node_ok all ∧ all = start :: concat (next <$> all) ∧
    trie_root trie' = trie_root trie.
Proof.
  revert nodes pending trie. induction fuel as [|fuel IH]; intros nodes pending trie Hne Hw Hok Hall Hf.
  - destruct pending as [|nd pending]; [|simpl in Hf; unfold work in Hf; lia]. simpl.
    rewrite app_nil_r in *. eauto 10.
  - destruct pending as [|[run d] pending]; simpl; [rewrite app_nil_r in *; eauto 10|].
    destruct (write_node_spec false nodes trie run d Hw) as (trie1 & -> & Hw1 & Hroot).
    assert (node_ok (run, d)) as Hnd by (apply Forall_app in Hok as [_ Hok]; by inversion Hok).
    destruct (IH (nodes ++ [(run, d)]) (pending ++ next (run, d)) trie1) as (trie' & all & Heq & ? & ? & ? & Hr).
    + by destruct nodes.
    + done.
    + rewrite <-app_assoc. simpl. rewrite app_comm_cons, app_assoc. apply Forall_app.
      split; [done|by apply next_ok].
    + rewrite <-app_assoc. simpl. rewrite app_comm_cons, app_assoc, Hall. simpl.
      rewrite fmap_app, concat_app. simpl. by rewrite app_nil_r.
    + rewrite fmap_app, sum_list_app. pose proof (work_next _ Hnd). 
      change (work (run, d) + sum_list (work <$> pending) ≤ S fuel)%nat in Hf. lia.
    + exists trie', all. split_and!; try done. by rewrite Hr.
Qed.

(** ** The walk *)

Lemma starts_with_cons b k c t : starts_with (b :: k) (c :: t) = (b =? c) && starts_with k t.
Proof. unfold starts_with. simpl. by destruct (b =? c). Qed.

(** The whole trie: the arrays after the last node, with their closing entries. *)
Definition closed (trie : Trie) : Trie :=
  {| trie_root := trie_root trie;
     edge_start := edge_start trie ++ [length (edge_bytes trie)];
     edge_bytes := edge_bytes trie;
     edge_nodes := edge_nodes trie;
     id_start := id_start trie ++ [length (ids trie)];
     ids := ids trie |}.

Section Walk.
#[local] Set Default Proof Using "Type*".
Context (trie : Trie) (all : list (list entry * nat)) (top : list entry * nat).
Context (Hw : written all trie) (Hok : Forall node_ok all) (Hall : all = top :: concat (next <$> all)).

Lemma starts_closed {A} (ls : list (list A)) i : (i ≤ length ls)%nat →
  nth i (starts ls (length ls) ++ [length (concat ls)]) 0%nat = length (concat (take i ls)).
Proof.
  intros Hi. assert (length (starts ls (length ls)) = length ls) as Hl
    by (unfold starts; by rewrite length_fmap, length_seq).
  destruct (decide (i = length ls)) as [->|Hne].
  - rewrite app_nth2, Hl, Nat.sub_diag by lia. simpl. by rewrite take_ge.
  - rewrite app_nth1 by lia. apply nth_starts. lia.
Qed.

Lemma ids_slice n nd : all !! n = Some nd →
  slice (nth n (id_start (closed trie)) 0%nat) (nth (S n) (id_start (closed trie)) 0%nat)
    (ids (closed trie)) = found nd.
Proof.
  intros Hn. apply lookup_lt_Some in Hn as Hlt. simpl. rewrite (w_id_start _ _ Hw), (w_ids _ _ Hw).
  rewrite <-(length_fmap found all) in *. rewrite !starts_closed by lia.
  apply slice_concat. by rewrite list_lookup_fmap, Hn.
Qed.

Lemma edges_slice n nd : all !! n = Some nd →
  nth n (edge_start (closed trie)) 0%nat =
    length (concat (take n ((λ nd, (kids nd).*1) <$> all))) ∧
  slice (nth n (edge_start (closed trie)) 0%nat) (nth (S n) (edge_start (closed trie)) 0%nat)
    (edge_bytes (closed trie)) = (kids nd).*1.
Proof.
  intros Hn. apply lookup_lt_Some in Hn as Hlt. simpl. rewrite (w_edge_start _ _ Hw), (w_bytes _ _ Hw).
  rewrite <-(length_fmap (λ nd, (kids nd).*1) all) in *. rewrite !starts_closed by lia.
  split; [done|]. apply slice_concat. by rewrite list_lookup_fmap, Hn.
Qed.

(** The node that an edge leads to. *)
Lemma edge_node n nd i c : all !! n = Some nd → kids nd !! i = Some c →
  all !! nth (length (concat (take n ((λ nd, (kids nd).*1) <$> all))) + i)%nat (edge_nodes trie) 0%nat
  = Some (c.2, S nd.2).
Proof.
  intros Hn Hi. set (at_ := (length (concat (take n ((λ nd, (kids nd).*1) <$> all))) + i)%nat).
  assert (edge_bytes trie !! at_ = Some c.1) as Hb.
  { rewrite (w_bytes _ _ Hw). apply lookup_concat with (kids nd).*1;
      rewrite list_lookup_fmap; [by rewrite Hn|by rewrite Hi]. }
  apply lookup_lt_Some in Hb.
  rewrite (nth_lookup_Some _ _ _ (S at_)) by (rewrite (w_nodes _ _ Hw); by apply lookup_seq).
  rewrite Hall. simpl. subst at_.
  assert (length (concat (take n ((λ nd, (kids nd).*1) <$> all))) =
          length (concat (take n (next <$> all)))) as ->.
  { clear. revert n. induction all as [|nd l IH]; intros [|n]; csimpl; [done..|].
    rewrite !length_app, IH. unfold next. by rewrite !length_fmap. }
  apply lookup_concat with (next nd); [by rewrite list_lookup_fmap, Hn|].
  unfold next. by rewrite list_lookup_fmap, Hi.
Qed.

(** The entries of a node that a text can reach: those that end here, and the group of
    its first byte. *)
Lemma node_any nd text f : node_ok nd →
  existsb (λ e, starts_with (drop nd.2 e.1) text && f e.2) nd.1 =
  existsb f (found nd) ||
  match text with
  | [] => false
  | b :: text' =>
      existsb (λ c, (c.1 =? b) &&
        existsb (λ e, starts_with (drop (S nd.2) e.1) text' && f e.2) c.2) (kids nd)
  end.
Proof using Type.
  intros Hnd. pose proof (others_longer nd Hnd) as Hl. destruct (kids_spec nd Hnd) as (Hc & Hg & _).
  destruct (ending_here_split nd.2 nd.1) as (hd & Hr & Hf & He & _).
  rewrite Hr at 1. rewrite existsb_app. f_equal.
  - unfold found. rewrite <-Hf. clear -He. induction He as [|e hd Hlen _ IH]; csimpl; [done|].
    rewrite IH, drop_ge by lia. done.
  - rewrite <-Hc in *. clear Hc Hr Hf He. destruct text as [|b text].
    { clear Hg. induction Hl as [|e l Hlen _ IH]; simpl; [done|]. rewrite IH.
      destruct (drop nd.2 e.1) as [|x r] eqn:E; [|done].
      apply (f_equal length) in E. rewrite length_drop in E. simpl in E. lia. }
    induction Hg as [|c cs [_ Hb] _ IH]; csimpl; [done|]. csimpl in Hl.
    apply Forall_app in Hl as [Hl1 Hl2]. rewrite existsb_app, IH by done. f_equal.
    clear IH Hl2. induction c.2 as [|e l IHl]; simpl; [by rewrite andb_false_r|].
    apply Forall_cons in Hb as [Hbe Hb]. apply Forall_cons in Hl1 as [Hle Hl1].
    destruct (lookup_lt_is_Some_2 e.1 nd.2 Hle) as [x Hx].
    unfold byte_at in Hbe. rewrite (nth_lookup_Some _ _ _ _ Hx) in Hbe. subst x.
    rewrite (drop_S _ _ _ Hx), starts_with_cons, IHl by done.
    by destruct (c.1 =? b).
Qed.

(** The children have different bytes, so a test of the byte picks one child. *)
Lemma kids_pick nd i c P : node_ok nd → kids nd !! i = Some c →
  existsb (λ c', (c'.1 =? c.1) && P c'.2) (kids nd) = P c.2.
Proof using Type.
  intros Hnd Hi. destruct (kids_spec nd Hnd) as (_ & _ & Hs%StronglySorted_Sorted).
  assert (∀ j c', kids nd !! j = Some c' → c'.1 = c.1 → j = i) as Heq.
  { intros j c' Hc' Heq.
    assert ((kids nd).*1 !! j = Some c'.1) as H1 by by rewrite list_lookup_fmap, Hc'.
    assert ((kids nd).*1 !! i = Some c.1) as H2 by by rewrite list_lookup_fmap, Hi.
    destruct (Nat.lt_total j i) as [Hlt|[?|Hlt]]; [|done|].
    - pose proof (strictly_sorted_lookup _ _ _ _ _ Hs H1 H2 Hlt). lia.
    - pose proof (strictly_sorted_lookup _ _ _ _ _ Hs H2 H1 Hlt). lia. }
  apply eq_true_iff_eq. rewrite existsb_Exists. split.
  - intros (c' & (j & Hj)%list_elem_of_lookup & [He%Z.eqb_eq HP]%andb_prop).
    assert (j = i) as -> by eauto. by simplify_eq.
  - intros HP. exists c. split; [by eapply list_elem_of_lookup_2|]. by rewrite Z.eqb_refl.
Qed.

Lemma walk_spec text n nd f : all !! n = Some nd →
  walk (closed trie) n text f =
  existsb (λ e, starts_with (drop nd.2 e.1) text && f e.2) nd.1.
Proof.
  revert n nd. induction text as [|b text IH]; intros n nd Hn;
    (assert (node_ok nd) as Hnd by (rewrite Forall_forall in Hok; by apply Hok; eapply list_elem_of_lookup_2));
    rewrite node_any by done; cbn [walk]; rewrite (ids_slice n nd Hn);
    (destruct (existsb f (found nd)); [done|]); [done|]. simpl orb.
  destruct (edges_slice n nd Hn) as [Hst ->]. rewrite Hst.
  destruct (kids_spec nd Hnd) as (_ & _ & Hs). apply StronglySorted_Sorted in Hs as Hs'.
  destruct (binary_search (kids nd).*1 b) as [i|] eqn:Eb.
  - apply binary_search_spec in Eb as Hi; [|done]. rewrite list_lookup_fmap in Hi.
    apply fmap_Some in Hi as (c & Hi & ->).
    cbn [closed edge_nodes].
    rewrite (IH _ _ (edge_node n nd i c Hn Hi)). simpl. symmetry.
    apply (kids_pick nd i c (λ run, existsb (λ e, starts_with (drop (S nd.2) e.1) text && f e.2) run));
      done.
  - symmetry. apply not_true_iff_false. rewrite existsb_Exists. intros (c & Hin & Hc).
    apply andb_prop in Hc as [Hc%Z.eqb_eq _]. apply list_elem_of_lookup in Hin as [j Hj].
    assert (binary_search (kids nd).*1 b = Some j); [|congruence].
    apply binary_search_spec; [done|]. rewrite list_lookup_fmap, Hj. simpl. by rewrite Hc.
Qed.
End Walk.

(** ** The root *)

Lemma fill_miss table n bs b : Forall is_u8 bs → is_u8 b → b ∉ bs →
  fill table n bs !! Z.to_nat b = table !! Z.to_nat b.
Proof.
  intros Hbs Hb. revert table n. induction Hbs as [|x bs Hx _ IH]; intros table n Hni; simpl; [done|].
  apply not_elem_of_cons in Hni as [Hne Hni]. rewrite IH by done.
  apply list_lookup_insert_ne. unfold is_u8 in *. lia.
Qed.

Lemma fill_hit table n bs i b : Forall is_u8 bs → NoDup bs → length table = 256%nat →
  bs !! i = Some b → fill table n bs !! Z.to_nat b = Some (n + i)%nat.
Proof.
  intros Hbs Hnd. revert table n i. induction Hbs as [|x bs Hx Hbs IH]; intros table n i Hl Hi; [done|].
  apply NoDup_cons in Hnd as [Hni Hnd]. simpl. destruct i as [|i]; simpl in Hi.
  - simplify_eq. rewrite fill_miss, list_lookup_insert_eq by
      (done || (rewrite Hl; unfold is_u8, U8_MAX in Hx; lia)). f_equal. lia.
  - rewrite IH with (i := i) by (try done; by rewrite length_insert). f_equal. lia.
Qed.

Lemma fill_length table n bs : length (fill table n bs) = length table.
Proof. revert table n. induction bs as [|b bs IH]; intros; simpl; [done|]. by rewrite IH, length_insert. Qed.

Lemma entries_any_perm es es' text f : es ≡ₚ es' → entries_any es text f = entries_any es' text f.
Proof.
  intros Hp. apply eq_true_iff_eq. unfold entries_any. rewrite !existsb_Exists. by setoid_rewrite Hp.
Qed.

(** The arrays that [Trie_new] builds describe a tree of nodes below the root. *)
Lemma Trie_new_written entries : entries ≠ [] →
  ∃ trie all, Trie_new entries = closed trie ∧ written all trie ∧ Forall node_ok all ∧
    all = (merge_sort entry_le entries, 0%nat) :: concat (next <$> all) ∧
    trie_root trie = fill (replicate 256 0%nat) 1 (kids (merge_sort entry_le entries, 0%nat)).*1.
Proof.
  intros Hne. unfold Trie_new. destruct entries as [|e entries]; [done|]. clear Hne.
  set (es := merge_sort entry_le (e :: entries)).
  assert (node_ok (es, 0%nat)) as Hok.
  { split; [apply StronglySorted_merge_sort; apply _|]. exists []. split; [done|].
    apply Forall_forall. by eexists. }
  set (trie0 := {| trie_root := replicate 256 0%nat; edge_start := []; edge_bytes := [];
                   edge_nodes := []; id_start := []; ids := [] |}).
  cbn [write_nodes]. change 1%nat with (S (length (edge_bytes trie0))).
  destruct (write_node_spec true [] trie0 es 0) as (trie1 & -> & Hw1 & Hr1).
  { by split. }
  simpl app in *.
  destruct (write_nodes_spec (edge_bound es) [(es, 0%nat)] (next (es, 0%nat)) trie1 (es, 0%nat))
    as (trie & all & -> & Hw & Hall & Heq & Hr); try done.
  - constructor; [done|by apply next_ok].
  - simpl. by rewrite app_nil_r.
  - pose proof (work_next _ Hok) as Hwk. unfold work at 2, left_of in Hwk. unfold edge_bound.
    cbn [fst snd] in Hwk.
    replace ((λ e0 : entry, (length e0.1 - 0)%nat) <$> es) with ((λ e0 : entry, length e0.1) <$> es)
      in Hwk by (apply list_fmap_ext; intros; lia). lia.
  - exists trie, all. split_and!; try done. by rewrite Hr.
Qed.

Lemma StronglySorted_lt_NoDup (l : list Z) : StronglySorted Z.lt l → NoDup l.
Proof.
  induction 1 as [|x l _ IH Hf]; constructor; [|done]. rewrite Forall_forall in Hf.
  intros Hin. specialize (Hf x Hin). lia.
Qed.

Lemma kids_bytes es : node_ok (es, 0%nat) →
  Forall (λ e : entry, e.1 ≠ [] ∧ Forall is_u8 e.1) es → Forall is_u8 (kids (es, 0%nat)).*1.
Proof.
  intros Hnd He. destruct (kids_spec _ Hnd) as (_ & Hg & _). apply Forall_fmap, Forall_forall.
  intros c Hc. unfold compose. destruct (kid_run _ _ Hnd Hc) as (l1 & l3 & Hr). simpl in Hr.
  rewrite Forall_forall in Hg. destruct (Hg c Hc) as [Hne Hb]. simpl in Hb.
  destruct c.2 as [|e l]; [done|]. apply Forall_cons in Hb as [<- _].
  rewrite Hr in He. apply Forall_app in He as [_ He]. simpl in He.
  apply Forall_cons in He as [[Hk Hu] _]. unfold byte_at. destruct e.1 as [|x r]; [done|]. simpl.
  by apply Forall_cons in Hu as [].
Qed.

(** Walking the trie finds exactly the entries whose string starts the text. *)
Lemma Trie_any_spec entries text f :
  Forall (λ e : entry, e.1 ≠ [] ∧ Forall is_u8 e.1) entries → Forall is_u8 text →
  Trie_any (Trie_new entries) text f = entries_any entries text f.
Proof.
  intros He Ht. destruct (decide (entries = [])) as [->|Hne]; [by destruct text|].
  destruct (Trie_new_written entries Hne) as (trie & all & -> & Hw & Hok & Hall & Hr).
  rewrite <-(entries_any_perm _ _ _ _ (merge_sort_Permutation entry_le entries)).
  rewrite <-(merge_sort_Permutation entry_le entries) in He.
  set (es := merge_sort entry_le entries) in *. clearbody es.
  assert (node_ok (es, 0%nat)) as Hnd by (rewrite Hall in Hok; by inversion Hok).
  assert (all !! 0%nat = Some (es, 0%nat)) as H0 by by rewrite Hall.
  transitivity (match text with [] => false | b :: text' =>
    existsb (λ c, (c.1 =? b) && existsb (λ e, starts_with (drop 1 e.1) text' && f e.2) c.2)
      (kids (es, 0%nat)) end).
  2: { change (entries_any es text f) with
         (existsb (λ e, starts_with (drop (es, 0%nat).2 e.1) text && f e.2) (es, 0%nat).1).
       rewrite node_any by done.
       destruct (found (es, 0%nat)) eqn:Hf; [by simpl; destruct text|]. exfalso.
       destruct (ending_here_split 0 es) as (hd & Hes & Hids & Hlen & _).
       change (ending_here 0 es).1 with (found (es, 0%nat)) in Hids. rewrite Hf in Hids.
       destruct hd as [|e hd]; [done|]. apply Forall_cons in Hlen as [Hlen _].
       rewrite Hes in He. simpl in He. apply Forall_cons in He as [[He _] _].
       by apply length_zero_iff_nil in Hlen. }
  destruct text as [|b text]; [done|]. apply Forall_cons in Ht as [Hb Ht].
  destruct (kids_spec _ Hnd) as (Hc & Hg & Hs).
  assert (Forall is_u8 (kids (es, 0%nat)).*1) as Hu by by apply kids_bytes.
  assert (NoDup (kids (es, 0%nat)).*1) as Hn by by apply StronglySorted_lt_NoDup.
  simpl. rewrite Hr. destruct (decide (b ∈ (kids (es, 0%nat)).*1)) as [Hin|Hin].
  - apply list_elem_of_lookup in Hin as [i Hi]. rewrite (fill_hit _ _ _ i b) by done.
    rewrite list_lookup_fmap in Hi. apply fmap_Some in Hi as (c & Hi & ->). simpl.
    assert (all !! S i = Some (c.2, 1%nat)) as Hci.
    { rewrite Hall. simpl. rewrite Hall. simpl.
      apply lookup_app_l_Some. unfold next. by rewrite list_lookup_fmap, Hi. }
    rewrite (walk_spec trie all (es, 0%nat) Hw Hok Hall text _ _ f Hci). symmetry.
    by apply (kids_pick (es, 0%nat) i c (λ run, existsb (λ e, starts_with (drop 1 e.1) text && f e.2) run)).
  - rewrite fill_miss by done. rewrite lookup_replicate_2 by (unfold is_u8, U8_MAX in Hb; lia).
    simpl. symmetry. apply not_true_iff_false. rewrite existsb_Exists.
    intros (c & Hc' & [He'%Z.eqb_eq _]%andb_prop). apply Hin. subst b. by apply list_elem_of_fmap_2.
Qed.

(** Only the trie of no entries has no root table. *)
Lemma Trie_new_root entries : trie_root (Trie_new entries) = [] → entries = [].
Proof.
  intros Hr. destruct (decide (entries = [])) as [?|Hne]; [done|exfalso].
  destruct (Trie_new_written entries Hne) as (trie & all & Heq & _ & _ & _ & Hroot).
  rewrite Heq in Hr. simpl in Hr. rewrite Hroot in Hr. apply (f_equal length) in Hr.
  by rewrite fill_length, length_replicate in Hr.
Qed.
