(* ===== verification/Wildcard.v ===== *)
(** * The index of wildcard patterns ([filter/src/wildcard.rs], [PatternSet])

    [wildcard_PatternSet] is the [PatternSet] of the [wildcard] module: every pattern is
    filed under its literal head or tail in one of two tries, or in the list of unkeyed
    patterns. [wildcard_matches_scan] proves that the indexed lookup is the scan of all
    patterns. *)
From S2P Require Import Prelude RustStr Collections Glob Trie.

Record wildcard_PatternSet := {
  ws_patterns : list Pattern;
  ws_heads : Trie;
  ws_tails : Trie;
  ws_unkeyed : list nat
}.
Definition wildcard_PatternSet_default : wildcard_PatternSet :=
  {| ws_patterns := []; ws_heads := Trie_default; ws_tails := Trie_default; ws_unkeyed := [] |}.

(** The loop of [new] from the pattern number [id] on: the entries for the two tries and
    the unkeyed patterns. *)
Fixpoint file_patterns (id : nat) (patterns : list Pattern) : list entry * list entry * list nat :=
  match patterns with
  | [] => ([], [], [])
  | pattern :: rest =>
      let '(heads, tails, unkeyed) := file_patterns (S id) rest in
      let head := Pattern_head pattern in
      let tail := Pattern_tail pattern in
      if negb (bool_decide (tail = [])) && (length head <=? length tail)%nat
      then (heads, (reverse tail, id) :: tails, unkeyed)
      else if negb (bool_decide (head = []))
      then ((head, id) :: heads, tails, unkeyed)
      else (heads, tails, id :: unkeyed)
  end.
Definition wildcard_PatternSet_new (patterns : list Pattern) : wildcard_PatternSet :=
  let '(heads, tails, unkeyed) := file_patterns 0 patterns in
  {| ws_patterns := patterns; ws_heads := Trie_new heads; ws_tails := Trie_new tails;
     ws_unkeyed := unkeyed |}.

Definition wildcard_PatternSet_len (self : wildcard_PatternSet) : nat := length (ws_patterns self).

(** [self.patterns[id as usize]] and a test of it. *)
Definition on_pattern (self : wildcard_PatternSet) (id : nat) (test : Pattern → bool) : bool :=
  match ws_patterns self !! id with Some p => test p | None => false end.

Definition wildcard_PatternSet_matches (self : wildcard_PatternSet) (host : bytes) : bool :=
  let tail_found := Trie_any (ws_tails self) (to_ascii_lowercase (reverse host))
    (λ id, on_pattern self id (λ p, Pattern_matches p host)) in
  if tail_found then true
  else
    let starts := 0%nat :: ((λ name, (length host - length name)%nat) <$> parents host) in
    if negb (Trie_is_empty (ws_heads self)) &&
       existsb (λ start,
         let name := drop start host in
         Trie_any (ws_heads self) (to_ascii_lowercase name)
           (λ id, on_pattern self id (λ p,
              ((start =? 0)%nat || pattern_parents p) && glob_matches (glob p) name)))
         starts
    then true
    else existsb (λ id, on_pattern self id (λ p, Pattern_matches p host)) (ws_unkeyed self).

(** * Lemmas *)

(** What is filed where. *)
Inductive filed (id : nat) (p : Pattern) (h t : list entry) (u : list nat) : Prop :=
| filed_tail : (reverse (Pattern_tail p), id) ∈ t → Pattern_tail p ≠ [] → filed id p h t u
| filed_head : (Pattern_head p, id) ∈ h → Pattern_head p ≠ [] → filed id p h t u
| filed_unkeyed : id ∈ u → filed id p h t u.

Lemma filed_more id p h t u h' t' u' : filed id p h t u → h ⊆ h' → t ⊆ t' → u ⊆ u' →
  filed id p h' t' u'.
Proof.
  intros [] Hh Ht Hu; [apply filed_tail|apply filed_head|apply filed_unkeyed]; set_solver.
Qed.

Lemma file_patterns_complete id ps i p : ps !! i = Some p →
  filed (id + i) p (file_patterns id ps).1.1 (file_patterns id ps).1.2 (file_patterns id ps).2.
Proof.
  revert id i. induction ps as [|q ps IH]; intros id i Hi; [done|]. cbn [file_patterns].
  specialize (IH (S id)). destruct (file_patterns (S id) ps) as [[h t] u]. simpl in IH.
  destruct i as [|i]; simpl in Hi.
  - simplify_eq. rewrite Nat.add_0_r. case_match eqn:Ht; [|case_match eqn:Hh]; simpl.
    + apply andb_prop in Ht as [Ht _]. apply filed_tail; [set_solver|by case_bool_decide].
    + apply filed_head; [set_solver|by case_bool_decide].
    + apply filed_unkeyed. set_solver.
  - specialize (IH i Hi). rewrite <-Nat.add_succ_comm.
    repeat case_match; simpl; eapply filed_more; (exact IH || set_solver).
Qed.

(** Nothing else is filed. *)
Definition keyed_by (key : Pattern → bytes) (patterns : list Pattern) (start : nat) (e : entry) : Prop :=
  e.1 ≠ [] ∧ ∃ i p, e.2 = (start + i)%nat ∧ patterns !! i = Some p ∧ e.1 = key p.

Lemma file_patterns_sound id ps :
  Forall (keyed_by Pattern_head ps id) (file_patterns id ps).1.1 ∧
  Forall (keyed_by (λ p, reverse (Pattern_tail p)) ps id) (file_patterns id ps).1.2 ∧
  Forall (λ n, ∃ i p, n = (id + i)%nat ∧ ps !! i = Some p) (file_patterns id ps).2.
Proof.
  revert id. induction ps as [|q ps IH]; intros id; simpl; [split_and!; constructor|].
  specialize (IH (S id)). destruct (file_patterns (S id) ps) as [[h t] u]. simpl in IH.
  destruct IH as (Hh & Ht & Hu).
  assert (∀ key e, keyed_by key ps (S id) e → keyed_by key (q :: ps) id e) as Hshift.
  { intros key e (Hne & i & p & He & Hp & Hk). split; [done|]. exists (S i), p. split_and!; try done; lia. }
  assert (Forall (λ n, ∃ i p, n = (id + i)%nat ∧ (q :: ps) !! i = Some p) u) as Hu'.
  { eapply Forall_impl; [done|]. intros n (i & p & -> & Hp). exists (S i), p. split; [lia|done]. }
  apply (Forall_impl _ _ _) with (1 := Hh) in Hshift as Hh'.
  apply (Forall_impl _ _ _) with (1 := Ht) in Hshift as Ht'.
  case_match eqn:Ha; [|case_match eqn:Hb]; simpl; split_and!; try done;
    apply Forall_cons; split; try done.
  - apply andb_prop in Ha as [Ha _]. split; [|exists 0%nat, q; split_and!; [simpl; lia|done|done]].
    simpl. intros Hn%(f_equal reverse). rewrite reverse_involutive in Hn. by case_bool_decide.
  - split; [|exists 0%nat, q; split_and!; [simpl; lia|done|done]]. simpl. by case_bool_decide.
  - exists 0%nat, q. split; [lia|done].
Qed.

(** ** The indexed lookup is a scan *)

Definition stored_bytes (p : Pattern) : Prop := Forall is_u8 (glob p).

Lemma before_star_u8 g : Forall is_u8 g → Forall is_u8 (before_star g).
Proof. induction 1; simpl; [constructor|]. case_match; by constructor. Qed.

Lemma lower_u8 s : Forall is_u8 s → Forall is_u8 (to_ascii_lowercase s).
Proof.
  intros Hs. apply Forall_fmap. eapply Forall_impl; [done|]. intros b. unfold compose, lower1, is_u8.
  unfold is_ascii_uppercase, U8_MAX. case_match; lia.
Qed.

Lemma starts_with_app p r : starts_with p (p ++ r) = true.
Proof. apply starts_with_spec. by eexists. Qed.

Lemma entries_any_spec es text f :
  entries_any es text f = true ↔ ∃ e, e ∈ es ∧ (∃ r, text = e.1 ++ r) ∧ f e.2 = true.
Proof.
  unfold entries_any. rewrite existsb_Exists. setoid_rewrite andb_true_iff.
  by setoid_rewrite starts_with_spec.
Qed.

Section Scan.
Context (ps : list Pattern) (host : bytes).
Context (Hps : Forall stored_bytes ps) (Hhost : Forall is_u8 host).
#[local] Set Default Proof Using "Type*".
Let heads := (file_patterns 0 ps).1.1.
Let tails := (file_patterns 0 ps).1.2.
Let unkeyed := (file_patterns 0 ps).2.

Lemma keyed_u8 key es : (∀ p, stored_bytes p → Forall is_u8 (key p)) →
  Forall (keyed_by key ps 0) es → Forall (λ e : entry, e.1 ≠ [] ∧ Forall is_u8 e.1) es.
Proof.
  intros Hkey Hes. eapply Forall_impl; [done|]. intros e (Hne & i & p & _ & Hp & Hk).
  split; [done|]. rewrite Hk. apply Hkey. rewrite Forall_forall in Hps. eapply Hps, list_elem_of_lookup_2, Hp.
Qed.

Lemma heads_any text f : Forall is_u8 text →
  Trie_any (Trie_new heads) text f = true ↔
  ∃ i p, ps !! i = Some p ∧ (Pattern_head p, i) ∈ heads ∧ (∃ r, text = Pattern_head p ++ r) ∧ f i = true.
Proof.
  intros Ht. destruct (file_patterns_sound 0 ps) as (Hh & _ & _).
  rewrite Trie_any_spec; [|eapply keyed_u8; [|exact Hh]; intros p; apply before_star_u8|done].
  rewrite entries_any_spec. split.
  - intros ([k n] & Hin & Hr & Hf). rewrite Forall_forall in Hh.
    destruct (Hh _ Hin) as (_ & i & p & Hn & Hp & Hk). simpl in *. subst. eauto 10.
  - intros (i & p & Hp & Hin & Hr & Hf). eauto 10.
Qed.

Lemma tails_any text f : Forall is_u8 text →
  Trie_any (Trie_new tails) text f = true ↔
  ∃ i p, ps !! i = Some p ∧ (reverse (Pattern_tail p), i) ∈ tails ∧
    (∃ r, text = reverse (Pattern_tail p) ++ r) ∧ f i = true.
Proof.
  intros Ht. destruct (file_patterns_sound 0 ps) as (_ & Hh & _).
  rewrite Trie_any_spec; [|eapply keyed_u8; [|exact Hh]; intros p Hp|done].
  2: { unfold Pattern_tail. rewrite reverse_involutive. apply before_star_u8.
       by apply Forall_reverse. }
  rewrite entries_any_spec. split.
  - intros ([k n] & Hin & Hr & Hf). rewrite Forall_forall in Hh.
    destruct (Hh _ Hin) as (_ & i & p & Hn & Hp & Hk). simpl in *. subst. eauto 10.
  - intros (i & p & Hp & Hin & Hr & Hf). eauto 10.
Qed.

(** A candidate matches by a name that starts with its head, and the host ends in its tail. *)
Lemma match_tail p : Pattern_matches p host = true →
  ∃ r, to_ascii_lowercase (reverse host) = reverse (Pattern_tail p) ++ r.
Proof using Type.
  unfold Pattern_tail. rewrite reverse_involutive, to_lower_reverse.
  intros [Hm|(_ & name & (q & Hq)%elem_of_parents & Hm)]%Pattern_matches_spec;
    apply glob_match_tail in Hm as (r & Hr); [by exists r|].
  rewrite Hq, to_lower_app, reverse_app. exists (r ++ reverse (to_ascii_lowercase q ++ [DOT])).
  rewrite app_assoc, <-Hr. csimpl. rewrite reverse_cons, reverse_app, <-app_assoc. done.
Qed.

Lemma on_pattern_at i p test : ps !! i = Some p →
  on_pattern (wildcard_PatternSet_new ps) i test = test p.
Proof using Type.
  intros Hp. unfold on_pattern, wildcard_PatternSet_new.
  destruct (file_patterns 0 ps) as [[h t] u]. simpl. by rewrite Hp.
Qed.

Lemma drop_parent name : name ∈ parents host →
  drop (length host - length name) host = name ∧ (length name < length host)%nat.
Proof using Type.
  intros (q & Hq)%elem_of_parents. rewrite Hq, length_app. simpl.
  split; [|lia]. rewrite drop_app_ge by lia.
  by replace (length q + S (length name) - length name - length q)%nat with 1%nat by lia.
Qed.

Lemma head_name_sound start i p : ps !! i = Some p →
  start ∈ 0%nat :: ((λ name, (length host - length name)%nat) <$> parents host) →
  ((start =? 0)%nat || pattern_parents p) && glob_matches (glob p) (drop start host) = true →
  Pattern_matches p host = true.
Proof using Type.
  intros Hp Hs [Hst Hm%glob_matches_spec]%andb_prop. apply Pattern_matches_spec.
  apply elem_of_cons in Hs as [->|(name & -> & Hname)%list_elem_of_fmap].
  { left. by rewrite drop_0 in Hm. }
  destruct (drop_parent _ Hname) as [Hd Hlt]. rewrite Hd in Hm.
  apply orb_prop in Hst as [Hz%Nat.eqb_eq|Hpar]; [lia|eauto].
Qed.

Lemma head_name_complete p : Pattern_matches p host = true →
  ∃ start, start ∈ 0%nat :: ((λ name, (length host - length name)%nat) <$> parents host) ∧
    ((start =? 0)%nat || pattern_parents p) && glob_matches (glob p) (drop start host) = true ∧
    ∃ r, to_ascii_lowercase (drop start host) = Pattern_head p ++ r.
Proof using Type.
  intros [Hm|(Hpar & name & Hname & Hm)]%Pattern_matches_spec; apply glob_match_head in Hm as Hr.
  - exists 0%nat. rewrite drop_0. split_and!; [apply elem_of_cons; by left| |done].
    simpl. by apply glob_matches_spec.
  - exists (length host - length name)%nat.
    destruct (drop_parent _ Hname) as [-> _].
    split_and!; [apply elem_of_cons; right; apply list_elem_of_fmap; by exists name| |done].
    rewrite Hpar, orb_true_r. by apply glob_matches_spec.
Qed.
End Scan.

(** Trying only the filed candidates gives what trying every pattern gives. *)
Lemma wildcard_matches_scan ps host : Forall stored_bytes ps → Forall is_u8 host →
  wildcard_PatternSet_matches (wildcard_PatternSet_new ps) host =
  existsb (λ p, Pattern_matches p host) ps.
Proof.
  intros Hps Hh. apply eq_true_iff_eq. rewrite existsb_Exists.
  assert (Forall is_u8 (to_ascii_lowercase (reverse host))) as Hrev
    by (apply lower_u8; by apply Forall_reverse).
  assert (∀ n, Forall is_u8 (to_ascii_lowercase (drop n host))) as Hdrop
    by (intros n; apply lower_u8; by apply Forall_drop).
  pose proof (on_pattern_at ps) as Hon. unfold wildcard_PatternSet_matches.
  set (self := wildcard_PatternSet_new ps) in *.
  assert (ws_heads self = Trie_new (file_patterns 0 ps).1.1 ∧
          ws_tails self = Trie_new (file_patterns 0 ps).1.2 ∧
          ws_unkeyed self = (file_patterns 0 ps).2) as (-> & -> & ->).
  { unfold self, wildcard_PatternSet_new. by destruct (file_patterns 0 ps) as [[h t] u]. }
  split.
  - case_match eqn:Ht; [intros _|case_match eqn:Hd; [intros _|intros Hu]].
    + apply tails_any in Ht as (i & p & Hp & _ & _ & Hm); [|done..].
      rewrite (Hon _ _ _ Hp) in Hm. exists p. split; [by eapply list_elem_of_lookup_2|done].
    + apply andb_prop in Hd as [_ (start & Hst & Hd)%existsb_Exists].
      apply heads_any in Hd as (i & p & Hp & _ & _ & Hm); [|done..].
      rewrite (Hon _ _ _ Hp) in Hm. exists p. split; [by eapply list_elem_of_lookup_2|].
      by eapply head_name_sound.
    + apply existsb_Exists in Hu as (id & Hin & Hm).
      destruct (file_patterns_sound 0 ps) as (_ & _ & Hun). rewrite Forall_forall in Hun.
      destruct (Hun _ Hin) as (i & p & -> & Hp). simpl in Hm. rewrite (Hon _ _ _ Hp) in Hm.
      exists p. split; [by eapply list_elem_of_lookup_2|done].
  - intros (p & (i & Hp)%list_elem_of_lookup & Hm).
    case_match eqn:Ht; [done|]. case_match eqn:Hd; [done|].
    destruct (file_patterns_complete 0 ps i p Hp) as [Hin Hne|Hin Hne|Hin]; simpl in Hin.
    + apply not_true_iff_false in Ht. destruct Ht. apply tails_any; [done..|].
      exists i, p. split_and!; try done; [by apply match_tail|by rewrite (Hon _ _ _ Hp)].
    + apply andb_false_iff in Hd as [Hd|Hd].
      { exfalso. revert Hd Hin. unfold Trie_is_empty. case_bool_decide as Hr; [|done]. intros _.
        apply Trie_new_root in Hr as ->. apply not_elem_of_nil. }
      apply not_true_iff_false in Hd. destruct Hd. apply existsb_Exists.
      destruct (head_name_complete _ p Hm) as (start & Hst & Hg & Hr). exists start.
      split; [done|]. apply heads_any; [done..|]. exists i, p. split_and!; try done.
      by rewrite (Hon _ _ _ Hp).
    + apply existsb_Exists. exists i. by rewrite (Hon _ _ _ Hp).
Qed.
