(* ===== verification/Exempt.v ===== *)
(** * Hosts that some lists must not block ([filter/src/exempt.rs])

    [Exemption] with its three hash sets, and the tests a list's block rules go through.
    The lemmas say when a block of a subtree, of one host or of a wildcard pattern would
    block an exempt host. *)
From S2P Require Import Prelude RustStr Collections Glob.

Record Exemption := {
  exempt_domains : gset bytes;
  exempt_hosts : gset bytes;
  exempt_ancestors : gset bytes
}.
Definition Exemption_default : Exemption :=
  {| exempt_domains := ∅; exempt_hosts := ∅; exempt_ancestors := ∅ |}.

(** One iteration of the loop of [new]. *)
Definition Exemption_add (self : Exemption) (pattern : bytes) : Exemption :=
  let pattern := trim pattern in
  let '(domain, name) :=
    match strip_prefix (lit "*.") pattern with
    | Some name => (true, name)
    | None => (false, pattern)
    end in
  let name := to_ascii_lowercase (strip_suffix_or [DOT] name) in
  if bool_decide (name = []) then self
  else
    let ancestors := foldl (λ set parent, {[parent]} ∪ set) (exempt_ancestors self) (after_each DOT name) in
    if (domain : bool)
    then {| exempt_domains := {[name]} ∪ exempt_domains self; exempt_hosts := exempt_hosts self;
            exempt_ancestors := ancestors |}
    else {| exempt_domains := exempt_domains self; exempt_hosts := {[name]} ∪ exempt_hosts self;
            exempt_ancestors := ancestors |}.
Definition Exemption_new (patterns : list bytes) : Exemption :=
  foldl Exemption_add Exemption_default patterns.

Definition covers_host (self : Exemption) (name : bytes) : bool :=
  bool_decide (name ∈ exempt_hosts self) ||
  existsb (λ suffix, bool_decide (suffix ∈ exempt_domains self)) (name :: after_each DOT name).
Definition Exemption_covers (self : Exemption) (host : bytes) : bool :=
  covers_host self (to_ascii_lowercase (strip_suffix_or [DOT] host)).
Definition covers_subtree (self : Exemption) (name : bytes) : bool :=
  covers_host self name || bool_decide (name ∈ exempt_ancestors self).

(** [glob[rposition of '*' + 1..]], when there is a star. *)
Definition after_last_star (gl : bytes) : option bytes :=
  if contains STAR gl then Some (reverse (before_star (reverse gl))) else None.
Definition matches_some_name_under (gl name : bytes) : bool :=
  let dotted := DOT :: name in
  match after_last_star gl with
  | Some tail => ends_with tail dotted || ends_with dotted tail
  | None => ends_with dotted gl
  end.

Definition covers_pattern (self : Exemption) (pattern : bytes) (parents : bool) : bool :=
  let above name := parents && existsb (glob_matches pattern) (after_each DOT name) in
  let domain_hit name :=
    glob_matches pattern name || matches_some_name_under pattern name || above name in
  let host_hit name := glob_matches pattern name || above name in
  existsb domain_hit (elements (exempt_domains self)) ||
  existsb host_hit (elements (exempt_hosts self)).

(** ** Specification *)

(** [name] is under [parent]. *)
Definition under (name parent : bytes) : Prop := ∃ sub, name = sub ++ DOT :: parent.

(** What [new] builds: the ancestors are the names above an entry, and entries are lowercase. *)
Definition Exemption_wf (self : Exemption) : Prop :=
  (∀ a, a ∈ exempt_ancestors self ↔
     ∃ n, n ∈ exempt_domains self ∪ exempt_hosts self ∧ under n a) ∧
  (∀ n, n ∈ exempt_domains self ∪ exempt_hosts self → to_ascii_lowercase n = n).

(** * Lemmas *)

Lemma covers_host_spec self name : covers_host self name = true ↔
  name ∈ exempt_hosts self ∨ ∃ d, d ∈ exempt_domains self ∧ (name = d ∨ under name d).
Proof.
  unfold covers_host, under. rewrite orb_true_iff, bool_decide_eq_true, existsb_Exists.
  setoid_rewrite bool_decide_eq_true. setoid_rewrite elem_of_cons.
  setoid_rewrite elem_of_after_each. naive_solver.
Qed.

Lemma foldl_union_elem (l : list bytes) (s : gset bytes) (x : bytes) :
  x ∈ foldl (λ set p, {[p]} ∪ set) s l ↔ x ∈ s ∨ x ∈ l.
Proof.
  revert s. induction l as [|a l IH]; intros s; simpl; [set_solver|]. rewrite IH. set_solver.
Qed.

Lemma Exemption_add_wf self p : Exemption_wf self → Exemption_wf (Exemption_add self p).
Proof.
  intros [Ha Hl]. unfold Exemption_add.
  destruct (strip_prefix (lit "*.") (trim p)) as [name|];
    (set (n := to_ascii_lowercase _); case_bool_decide; [done|]; split; simpl).
  1, 3: intros a; rewrite foldl_union_elem, Ha, elem_of_after_each; unfold under; set_solver.
  all: intros m; rewrite ?elem_of_union, ?elem_of_singleton; intros Hm;
    assert (m = n ∨ m ∈ exempt_domains self ∪ exempt_hosts self) as [->|?] by set_solver;
    [apply to_lower_idem|auto].
Qed.

Lemma Exemption_new_wf patterns : Exemption_wf (Exemption_new patterns).
Proof.
  unfold Exemption_new. assert (Exemption_wf Exemption_default) as H by (split; simpl; set_solver).
  revert H. generalize Exemption_default. induction patterns as [|p ps IH]; intros self Hs; simpl; [done|].
  by apply IH, Exemption_add_wf.
Qed.

(** Two names that a host is, or is under, are the same or one is under the other. *)
Lemma under_compare h a b : (h = a ∨ under h a) → (h = b ∨ under h b) →
  a = b ∨ under a b ∨ under b a.
Proof.
  unfold under. intros [->|[x ->]]; [naive_solver|]. intros [<-|[y Hy]]; [eauto|].
  destruct (app_eq_inv _ _ _ _ Hy) as [(k & -> & Hk)|(k & -> & Hk)];
    destruct k as [|c k]; simpl in Hk; simplify_eq; eauto.
Qed.

Lemma covers_subtree_spec self name : Exemption_wf self →
  covers_subtree self name = true ↔
  ∃ host, covers_host self host = true ∧ (host = name ∨ under host name).
Proof.
  intros [Ha _]. unfold covers_subtree. rewrite orb_true_iff, bool_decide_eq_true, Ha. split.
  - intros [Hc|(n & [Hn|Hn]%elem_of_union & Hu)]; [eauto|..]; exists n; (split; [|by right]);
      apply covers_host_spec; eauto.
  - intros (host & Hh & Hn). apply covers_host_spec in Hh as [Hh|(d & Hd & Hu)].
    + destruct Hn as [->|Hn]; [left; apply covers_host_spec; by left|right]. exists host. set_solver.
    + destruct (under_compare _ _ _ Hn Hu) as [->|[Hnd|Hdn]].
      * left. apply covers_host_spec. eauto.
      * left. apply covers_host_spec. eauto.
      * right. exists d. set_solver.
Qed.

(** ** Patterns *)

Lemma after_last_star_spec gl :
  match after_last_star gl with
  | Some tail => ∃ pre, gl = pre ++ STAR :: tail ∧ STAR ∉ tail
  | None => STAR ∉ gl
  end.
Proof.
  unfold after_last_star. destruct (contains STAR gl) eqn:E; [|by apply contains_false].
  apply contains_spec in E. destruct (before_star_spec (reverse gl)) as [Hn [Heq|(rest & Heq)]].
  - exfalso. apply Hn. rewrite <-Heq. by apply elem_of_reverse.
  - exists (reverse rest). split; [|by rewrite elem_of_reverse].
    apply (f_equal reverse) in Heq. rewrite reverse_involutive in Heq. rewrite Heq at 1.
    rewrite reverse_app, reverse_cons, <-app_assoc. done.
Qed.

(** Texts without stars match themselves, and a glob matches its own text without stars. *)
Lemma glob_match_self gl : to_ascii_lowercase gl = gl → glob_match gl (filter (λ b, b ≠ STAR) gl).
Proof.
  induction gl as [|b gl IH]; intros Hl; [constructor|]. csimpl in Hl. injection Hl as Hb Hl.
  destruct (decide (b = STAR)) as [->|Hne].
  - rewrite filter_cons_False by naive_solver. apply gm_star_none. auto.
  - rewrite filter_cons_True by done. apply gm_byte; auto.
Qed.

Lemma ends_compare (a b t : bytes) : (∃ r, t = r ++ a) → (∃ r, t = r ++ b) →
  ends_with a b = true ∨ ends_with b a = true.
Proof.
  intros [x ->] [y Hy]. rewrite !ends_with_spec.
  destruct (app_eq_inv _ _ _ _ Hy) as [(k & -> & Hk)|(k & -> & Hk)]; eauto.
Qed.

Lemma glob_match_ends gl t : glob_match gl t →
  ∃ r, to_ascii_lowercase t = r ++ default gl (after_last_star gl).
Proof.
  pose proof (after_last_star_spec gl) as Ha. destruct (after_last_star gl) as [tail|]; simpl.
  - destruct Ha as (pre & -> & Hn).
    intros (t1 & t2 & -> & _ & (k & Hk & Hm)%glob_match_star)%glob_match_app.
    apply glob_match_literal in Hm; [|done].
    exists (to_ascii_lowercase (t1 ++ take k t2)).
    rewrite <-Hm, <-to_lower_app, <-app_assoc, take_drop. done.
  - intros Hm%glob_match_literal; [|done]. by exists [].
Qed.

(** The test at the end of the glob is exact: some text that ends in [.name] matches. *)
Lemma matches_some_name_under_spec gl name :
  to_ascii_lowercase gl = gl → to_ascii_lowercase name = name →
  matches_some_name_under gl name = true ↔ ∃ x, glob_match gl (x ++ DOT :: name).
Proof.
  intros Hg Hn. assert (to_ascii_lowercase (DOT :: name) = DOT :: name) as Hd
    by (csimpl; f_equal; exact Hn).
  unfold matches_some_name_under. pose proof (after_last_star_spec gl) as Ha. split.
  - destruct (after_last_star gl) as [tail|].
    + destruct Ha as (pre & -> & Hs). rewrite to_lower_app in Hg.
      apply app_inj_1 in Hg as [Hp Ht]; [|by rewrite length_to_lower]. csimpl in Ht. injection Ht as Ht.
      pose proof (glob_match_self _ Hp) as Hpre.
      intros [Hor|Hor]%orb_prop; apply ends_with_spec in Hor as [y Hy].
      * exists (filter (λ b, b ≠ STAR) pre). apply glob_match_app.
        exists (filter (λ b, b ≠ STAR) pre), (DOT :: name). split_and!; [done..|].
        apply glob_match_star. exists (length y). rewrite Hy, length_app, drop_app_length.
        split; [lia|]. by apply glob_match_literal.
      * exists (filter (λ b, b ≠ STAR) pre ++ y). rewrite <-app_assoc, <-Hy. apply glob_match_app.
        exists (filter (λ b, b ≠ STAR) pre), tail. split_and!; [done..|].
        apply gm_star_none. by apply glob_match_literal.
    + intros [y ->]%ends_with_spec. exists y. by apply glob_match_literal.
  - intros (x & Hm). destruct (after_last_star gl) as [tail|] eqn:Ea.
    + apply glob_match_ends in Hm as [r Hr]. rewrite to_lower_app, Hd, Ea in Hr. simpl in Hr.
      destruct (ends_compare tail (DOT :: name) (to_ascii_lowercase x ++ DOT :: name)) as [He|He];
        [by exists r|by eexists|..]; by rewrite He, ?orb_true_r.
    + apply glob_match_literal in Hm; [|done]. rewrite to_lower_app, Hd in Hm.
      apply ends_with_spec. by exists (to_ascii_lowercase x).
Qed.

(** A pattern that matches an exempt host is found. *)
Lemma covers_pattern_complete self gl (parents : bool) host :
  to_ascii_lowercase gl = gl → Exemption_wf self → covers_host self host = true →
  Pattern_matches {| glob := gl; pattern_parents := parents |} host = true →
  covers_pattern self gl parents = true.
Proof.
  intros Hg [_ Hl] Hc Hm. apply Pattern_matches_spec in Hm. simpl in Hm.
  assert (∃ n, glob_match gl n ∧ (n = host ∨ parents = true ∧ under host n)) as (n & Hn & Hor).
  { destruct Hm as [?|(? & n & ?%elem_of_parents & ?)]; [|eauto]. exists host. auto. }
  assert (∀ name, (name = n ∨ (parents = true ∧ under name n)) →
    glob_matches gl name || (parents && existsb (glob_matches gl) (after_each DOT name)) = true) as Habove.
  { intros name [->|[-> Hu]]; [by rewrite (proj2 (glob_matches_spec _ _) Hn)|].
    apply orb_true_iff. right. apply existsb_Exists. exists n.
    split; [by apply elem_of_after_each|by apply glob_matches_spec]. }
  unfold covers_pattern. apply orb_true_iff. rewrite !existsb_Exists.
  apply covers_host_spec in Hc as [Hh|(d & Hd & Hu)].
  - right. exists host. split; [by apply elem_of_elements|]. apply Habove. naive_solver.
  - left. exists d. split; [by apply elem_of_elements|].
    assert (to_ascii_lowercase d = d) as Hdl by (apply Hl; set_solver).
    assert ((n = d ∨ under n d) ∨ (parents = true ∧ under d n)) as [[->|[x ->]]|Hab].
    { destruct Hor as [->|[Hp Hhn]]; [auto|].
      destruct (under_compare host n d (or_intror Hhn) Hu) as [?|[?|?]]; auto. }
    + by rewrite (proj2 (glob_matches_spec _ _) Hn).
    + rewrite (proj2 (matches_some_name_under_spec gl d Hg Hdl)) by eauto. by rewrite orb_true_r.
    + specialize (Habove d (or_intror Hab)). apply orb_prop in Habove as [-> | ->]; [done|].
      by rewrite orb_true_r.
Qed.
