(* ===== verification/DomainRules.v ===== *)
(** * Host rules of the DNS blocklist ([filter/src/domain_rules.rs])

    Parsing filter lists into the nine sets of names and patterns: the adblock line parser
    with every form it reads, the hosts line parser, the exemptions of a list, the limits on
    wildcard patterns and the final cleaning. The nine [HashSet] fields of the source's
    [Builder] are one function from [Kind] to a set, which is what [Builder::set] selects;
    the line counters are integers without overflow, since a list has fewer than 2^64
    lines. *)
From S2P Require Import Prelude RustStr Collections Net Glob Exempt.

Definition MAX_WILDCARD_PATTERNS : nat := 4096.
Definition MAX_UNKEYED_PATTERNS : nat := 64.

Inductive ListFormat := Adblock | Hosts.
Record ListSource := {
  source_name : bytes;
  source_text : bytes;
  source_format : ListFormat
}.
Record DnsList := {
  dns_source : ListSource;
  dns_exempt : option Exemption
}.
Definition DnsList_from (source : ListSource) : DnsList :=
  {| dns_source := source; dns_exempt := None |}.

(** [text.strip_prefix('\u{feff}').unwrap_or(text)]. *)
Definition strip_bom (text : bytes) : bytes := default text (strip_prefix [239; 187; 191] text).

Record DomainRules := {
  important : list bytes;
  allow : list bytes;
  block : list bytes;
  exact_allow : list bytes;
  exact_block : list bytes;
  wildcard_allow : list bytes;
  exact_wildcard_allow : list bytes;
  wildcard_block : list bytes;
  exact_wildcard_block : list bytes;
  skipped : Z;
  exempted : Z
}.

Inductive Kind :=
| Important | Allow | Block | ExactAllow | ExactBlock
| WildcardAllow | ExactWildcardAllow | WildcardBlock | ExactWildcardBlock.
#[global] Instance Kind_eq_dec : EqDecision Kind.
Proof. solve_decision. Defined.

Definition covers_exempt (self : Kind) (name : bytes) (exempt : Exemption) : bool :=
  match self with
  | Important | Block => covers_subtree exempt name
  | ExactBlock => covers_host exempt name
  | WildcardBlock => covers_pattern exempt name true
  | ExactWildcardBlock => covers_pattern exempt name false
  | Allow | ExactAllow | WildcardAllow | ExactWildcardAllow => false
  end.
Definition is_pattern (self : Kind) : bool :=
  match self with
  | WildcardAllow | ExactWildcardAllow | WildcardBlock | ExactWildcardBlock => true
  | _ => false
  end.
Definition is_exception (self : Kind) : bool :=
  match self with
  | Allow | ExactAllow | WildcardAllow | ExactWildcardAllow => true
  | _ => false
  end.

Inductive Line :=
| Comment
| Skip
| Rule (kind : Kind) (name : bytes) (badfilter : bool).

(** ** Names and patterns of a line *)

Definition name_byte (b : Z) : bool := is_ascii_alphanumeric b || (b =? 45) || (b =? 95).
Definition name_label_ok (label : bytes) : bool :=
  negb (bool_decide (label = [])) && (len label <=? 63) && forallb name_byte label.

Definition normalize_name (name : bytes) : option bytes :=
  let name := strip_suffix_or [DOT] name in
  if (253 <? len name) || negb (contains DOT name) then None
  else if negb (forallb name_label_ok (split_on DOT name)) then None
  else if forallb is_ascii_digit (default [] (last (split_on DOT name))) then None
  else Some (to_ascii_lowercase name).

(** [rest.strip_suffix("^|").or_else(|| rest.strip_suffix('^'))]. *)
Definition strip_caret (rest : bytes) : option bytes :=
  or_else (strip_suffix (lit "^|") rest) (strip_suffix (lit "^") rest).

Definition wildcard_domain (pattern : bytes) : option bytes :=
  rest ← strip_prefix (lit "*.") pattern;
  let name := default rest (strip_caret rest) in
  if contains STAR name then None else Some name.

(** The loop that merges runs of stars and lowercases; [merged] is the text so far. *)
Fixpoint merge_stars (merged : bytes) (gl : bytes) : bytes :=
  match gl with
  | [] => merged
  | c :: gl' =>
      merge_stars
        (if negb (c =? STAR) || negb (ends_with [STAR] merged) then merged ++ [lower1 c] else merged) gl'
  end.

Definition wildcard_pattern (pattern : bytes) : option (bool * bytes) :=
  let '(parents, start, rest) :=
    match strip_prefix (lit "||") pattern with
    | Some rest => (true, [], rest)
    | None =>
        match or_else (strip_prefix (lit "://") pattern) (strip_prefix (lit "|") pattern) with
        | Some rest => (false, [], rest)
        | None => (false, [STAR], pattern)
        end
    end in
  let gl :=
    match strip_caret rest with
    | Some name => start ++ strip_suffix_or [DOT] name
    | None => start ++ rest ++ [STAR]
    end in
  let merged := merge_stars [] gl in
  if is_valid_pattern merged then Some (parents, merged) else None.

(** ** One line of an adblock list *)

(** The loop over the options: [None] when an option is not supported. *)
Fixpoint read_options (options : list bytes) (important badfilter : bool) : option (bool * bool) :=
  match options with
  | [] => Some (important, badfilter)
  | option :: rest =>
      let o := trim option in
      if bool_decide (o = lit "important") then read_options rest true badfilter
      else if bool_decide (o = lit "badfilter") then read_options rest important true
      else None
  end.

(** The name of a rule without a star, and whether it is for that host only. *)
Definition rule_name (pattern : bytes) : option (bool * bytes) :=
  match strip_prefix (lit "||") pattern with
  | Some rest =>
      match strip_caret rest with
      | Some name => Some (false, name)
      | None => if ends_with [DOT] rest then None else Some (false, rest)
      end
  | None =>
      match strip_prefix (lit ".") pattern with
      | Some rest => name ← strip_suffix (lit "^") rest; Some (false, name)
      | None =>
          match strip_prefix (lit "|") pattern with
          | Some rest => name ← strip_caret rest; Some (true, name)
          | None =>
              match strip_prefix (lit "://") pattern with
              | Some rest => name ← strip_caret rest; Some (true, name)
              | None =>
                  if match pattern with c :: _ => is_ascii_alphanumeric c | [] => false end
                  then name ← strip_caret pattern; Some (false, name)
                  else None
              end
          end
      end
  end.

(** The rule of a pattern once its options are read. *)
Definition parse_rule (exception important badfilter : bool) (pattern : bytes) : Line :=
  match wildcard_domain pattern with
  | Some name =>
      match normalize_name name with
      | None => Skip
      | Some name =>
          let kind := match exception, important with
                      | true, _ => Allow
                      | false, true => Important
                      | false, false => Block
                      end in
          Rule kind name badfilter
      end
  | None =>
      if contains STAR pattern then
        match wildcard_pattern pattern with
        | None => Skip
        | Some (parents, gl) =>
            match exception, important, parents with
            | true, _, true => Rule WildcardAllow gl badfilter
            | true, _, false => Rule ExactWildcardAllow gl badfilter
            | false, true, _ => Skip
            | false, false, true => Rule WildcardBlock gl badfilter
            | false, false, false => Rule ExactWildcardBlock gl badfilter
            end
        end
      else
        match rule_name pattern with
        | None => Skip
        | Some (exact, name) =>
            match normalize_name name with
            | None => Skip
            | Some name =>
                match exception, important, exact with
                | true, _, false => Rule Allow name badfilter
                | true, _, true => Rule ExactAllow name badfilter
                | false, true, false => Rule Important name badfilter
                | false, true, true => Skip
                | false, false, false => Rule Block name badfilter
                | false, false, true => Rule ExactBlock name badfilter
                end
            end
        end
  end.

Definition parse_adblock_line (line : bytes) : Line :=
  let line := trim line in
  if bool_decide (line = []) || starts_with (lit "!") line || starts_with (lit "#") line ||
     starts_with (lit "[") line
  then Comment
  else
    let '(exception, rule) :=
      match strip_prefix (lit "@@") line with
      | Some rest => (true, rest)
      | None => (false, line)
      end in
    let '(pattern, options) :=
      match split_once 36 rule with
      | Some (pattern, options) => (pattern, split_on 44 options)
      | None => (rule, [])
      end in
    match read_options options false false with
    | None => Skip
    | Some (important, badfilter) => parse_rule exception important badfilter pattern
    end.

(** ** The builder *)

Record Builder := {
  b_exempt : option Exemption;
  b_sets : Kind → gset bytes;
  b_badfilter : list (Kind * bytes);
  b_pattern_order : list (Kind * bytes);
  b_skipped : Z;
  b_exempted : Z
}.
Definition Builder_default : Builder :=
  {| b_exempt := None; b_sets := λ _, ∅; b_badfilter := []; b_pattern_order := [];
     b_skipped := 0; b_exempted := 0 |}.

(** A write through [Builder::set]. *)
Definition set_kind (sets : Kind → gset bytes) (kind : Kind) (s : gset bytes) : Kind → gset bytes :=
  λ k, if bool_decide (k = kind) then s else sets k.
Definition with_sets (self : Builder) (sets : Kind → gset bytes) : Builder :=
  {| b_exempt := b_exempt self; b_sets := sets; b_badfilter := b_badfilter self;
     b_pattern_order := b_pattern_order self; b_skipped := b_skipped self;
     b_exempted := b_exempted self |}.
Definition with_skipped (self : Builder) (n : Z) : Builder :=
  {| b_exempt := b_exempt self; b_sets := b_sets self; b_badfilter := b_badfilter self;
     b_pattern_order := b_pattern_order self; b_skipped := n; b_exempted := b_exempted self |}.
Definition with_exempted (self : Builder) (n : Z) : Builder :=
  {| b_exempt := b_exempt self; b_sets := b_sets self; b_badfilter := b_badfilter self;
     b_pattern_order := b_pattern_order self; b_skipped := b_skipped self; b_exempted := n |}.
Definition with_order (self : Builder) (order : list (Kind * bytes)) : Builder :=
  {| b_exempt := b_exempt self; b_sets := b_sets self; b_badfilter := b_badfilter self;
     b_pattern_order := order; b_skipped := b_skipped self; b_exempted := b_exempted self |}.
Definition with_badfilter (self : Builder) (l : list (Kind * bytes)) : Builder :=
  {| b_exempt := b_exempt self; b_sets := b_sets self; b_badfilter := l;
     b_pattern_order := b_pattern_order self; b_skipped := b_skipped self;
     b_exempted := b_exempted self |}.
Definition with_exempt (self : Builder) (e : option Exemption) : Builder :=
  {| b_exempt := e; b_sets := b_sets self; b_badfilter := b_badfilter self;
     b_pattern_order := b_pattern_order self; b_skipped := b_skipped self;
     b_exempted := b_exempted self |}.

(** [Builder::exempts]: whether the rule is left out, counting it. *)
Definition Builder_exempts (self : Builder) (kind : Kind) (name : bytes) : Builder * bool :=
  let exempted := match b_exempt self with
                  | Some exempt => covers_exempt kind name exempt
                  | None => false
                  end in
  (with_exempted self (b_exempted self + (if exempted then 1 else 0)), exempted).

(** [self.set(kind).insert(name)]. *)
Definition insert_name (self : Builder) (kind : Kind) (name : bytes) : Builder :=
  with_sets self (set_kind (b_sets self) kind ({[name]} ∪ b_sets self kind)).

Definition add_adblock_line (self : Builder) (line : bytes) : Builder :=
  match parse_adblock_line line with
  | Comment => self
  | Skip => with_skipped self (b_skipped self + 1)
  | Rule kind name true => with_badfilter self ((kind, name) :: b_badfilter self)
  | Rule kind name false =>
      let '(self, exempted) := Builder_exempts self kind name in
      if exempted then self
      else if is_pattern kind then
        (* [HashSet::insert] is true when the pattern was not in the set *)
        let fresh := negb (bool_decide (name ∈ b_sets self kind)) in
        let self := insert_name self kind name in
        if fresh then with_order self (b_pattern_order self ++ [(kind, name)]) else self
      else insert_name self kind name
  end.

(** The loop over the names of a hosts line: the builder and the number of usable names. *)
Fixpoint add_hosts_names (self : Builder) (names : list bytes) (accepted : nat) : Builder * nat :=
  match names with
  | [] => (self, accepted)
  | name :: rest =>
      if eq_ignore_ascii_case name (lit "localhost.localdomain") then add_hosts_names self rest accepted
      else match normalize_name name with
           | Some name =>
               let '(self, exempted) := Builder_exempts self Block name in
               let self := if exempted then self else insert_name self Block name in
               add_hosts_names self rest (S accepted)
           | None => add_hosts_names self rest accepted
           end
  end.
Definition add_hosts_line (self : Builder) (line : bytes) : Builder :=
  let line := trim (default [] (head (split_on HASH line))) in
  if bool_decide (line = []) then self
  else match split_whitespace line with
       | [] => self
       | first :: fields =>
           let starts_with_address :=
             bool_decide (is_Some (IpAddr_parse first)) || contains COLON first in
           let names := if starts_with_address then fields else first :: fields in
           let '(self, accepted) := add_hosts_names self names 0 in
           if (accepted =? 0)%nat then with_skipped self (b_skipped self + 1) else self
       end.

(** The loop of [limit_patterns] over the patterns in order. *)
Record limit_state := {
  ls_sets : Kind → gset bytes;
  ls_kept : nat;
  ls_kept_unkeyed : nat;
  ls_left_out : Z
}.
Definition limit_step (st : limit_state) (e : Kind * bytes) : limit_state :=
  let '(kind, pattern) := e in
  if negb (bool_decide (pattern ∈ ls_sets st kind)) then st
  else
    let unkeyed := is_unkeyed pattern in
    let room := (ls_kept st <? MAX_WILDCARD_PATTERNS)%nat &&
                (negb unkeyed || (ls_kept_unkeyed st <? MAX_UNKEYED_PATTERNS)%nat) in
    if room
    then {| ls_sets := ls_sets st; ls_kept := S (ls_kept st);
            ls_kept_unkeyed := (ls_kept_unkeyed st + (if unkeyed then 1 else 0))%nat;
            ls_left_out := ls_left_out st |}
    else {| ls_sets := set_kind (ls_sets st) kind (ls_sets st kind ∖ {[pattern]});
            ls_kept := ls_kept st; ls_kept_unkeyed := ls_kept_unkeyed st;
            ls_left_out := ls_left_out st + 1 |}.
Definition limit_order (order : list (Kind * bytes)) : list (Kind * bytes) :=
  vec_retain (λ e, is_exception e.1) order ++ vec_retain (λ e, negb (is_exception e.1)) order.
Definition limit_patterns (self : Builder) : Builder :=
  let order := limit_order (b_pattern_order self) in
  let st := foldl limit_step
              {| ls_sets := b_sets self; ls_kept := 0; ls_kept_unkeyed := 0; ls_left_out := 0 |} order in
  (* the source adds [left_out] only when it is positive, with a log line *)
  with_skipped (with_order (with_sets self (ls_sets st)) []) (b_skipped self + ls_left_out st).

(** [sorted] and [without_redundant_children]. *)
Definition sorted (names : gset bytes) : list bytes := sort_strings (elements names).
Definition without_redundant_children (names : gset bytes) : list bytes :=
  sort_strings (vec_retain
    (λ name, negb (existsb (λ parent, bool_decide (parent ∈ names)) (after_each DOT name)))
    (elements names)).

(** [$badfilter] rules remove the rule they name. *)
Definition apply_badfilter (sets : Kind → gset bytes) (l : list (Kind * bytes)) : Kind → gset bytes :=
  foldl (λ sets e, set_kind sets e.1 (sets e.1 ∖ {[e.2]})) sets l.
Definition Builder_finish (self : Builder) : DomainRules :=
  let self := with_badfilter (with_sets self (apply_badfilter (b_sets self) (b_badfilter self))) [] in
  let self := limit_patterns self in
  let sets := b_sets self in
  {| important := without_redundant_children (sets Important);
     allow := without_redundant_children (sets Allow);
     block := without_redundant_children (sets Block);
     exact_allow := sorted (sets ExactAllow);
     exact_block := sorted (sets ExactBlock);
     wildcard_allow := sorted (sets WildcardAllow);
     exact_wildcard_allow := sorted (sets ExactWildcardAllow);
     wildcard_block := sorted (sets WildcardBlock);
     exact_wildcard_block := sorted (sets ExactWildcardBlock);
     skipped := b_skipped self;
     exempted := b_exempted self |}.

(** One list, and all lists. *)
Definition add_list (self : Builder) (l : DnsList) : Builder :=
  let self := with_exempt self (dns_exempt l) in
  let text := lines (strip_bom (source_text (dns_source l))) in
  match source_format (dns_source l) with
  | Adblock => foldl add_adblock_line self text
  | Hosts => foldl add_hosts_line self text
  end.
Definition parse_exempting (lists : list DnsList) : DomainRules :=
  Builder_finish (foldl add_list Builder_default lists).
Definition DomainRules_parse (lists : list ListSource) : DomainRules :=
  parse_exempting (DnsList_from <$> lists).

(** ** Runs *)

Example adblock_forms :
  parse_adblock_line <$> [lit "||Ads.Example^"; lit "@@|ok.example^|"; lit "||log*.example.com^$important";
    lit "*.track.example"; lit "-ulog*.x.example^"; lit "! note"; lit "||ads."; lit "|one.example^$badfilter"]
  = [Rule Block (lit "ads.example") false; Rule ExactAllow (lit "ok.example") false; Skip;
     Rule Block (lit "track.example") false; Rule ExactWildcardBlock (lit "*-ulog*.x.example") false;
     Comment; Skip; Rule ExactBlock (lit "one.example") true].
Proof. vm_compute. reflexivity. Qed.

Example hosts_list :
  block (DomainRules_parse [{| source_name := []; source_format := Hosts;
    source_text := lit "0.0.0.0 a.ads.example b.example # x" ++ [NL] ++ lit "ads.example" ++ [NL] ++
                   lit "::1 localhost" |}]) = [lit "ads.example"; lit "b.example"].
Proof. vm_compute. reflexivity. Qed.
