(* ===== verification/RulesFacts.v ===== *)
(** * Lemmas on the host rules ([filter/src/domain_rules.rs])

    What the line parsers accept, invariants of the builder over all lines of all lists,
    the limits on wildcard patterns, and that the final cleaning changes no decision. *)
From S2P Require Import Prelude RustStr Collections Net HostPattern Glob Exempt DomainRules.

(** ** Names and patterns a rule may have *)

Definition stored_form (kind : Kind) (name : bytes) : Prop :=
  if is_pattern kind then is_valid_pattern name = true else normalize_name name = Some name.

Lemma lower_digit b : is_ascii_digit (lower1 b) = is_ascii_digit b.
Proof. unfold lower1, is_ascii_digit, is_ascii_uppercase. case_match; lia. Qed.

Lemma name_byte_lower b : name_byte (lower1 b) = name_byte b.
Proof. apply host_byte_lower. Qed.

Lemma forallb_lower (f : Z → bool) s : (∀ b, f (lower1 b) = f b) →
  forallb f (to_ascii_lowercase s) = forallb f s.
Proof. intros Hf. induction s as [|b s IH]; csimpl; [done|]. by rewrite Hf, <-IH. Qed.

Lemma name_label_lower l : name_label_ok (to_ascii_lowercase l) = name_label_ok l.
Proof.
  unfold name_label_ok, len. rewrite length_to_lower, (forallb_lower name_byte l name_byte_lower).
  by rewrite (bool_decide_ext _ _ (to_lower_nil_iff l)).
Qed.

Lemma forallb_map {A B} (f : B → bool) (g : A → B) l : forallb f (g <$> l) = forallb (λ x, f (g x)) l.
Proof. induction l as [|x l IH]; csimpl; [done|]. by rewrite <-IH. Qed.

Lemma forallb_ext {A} (f g : A → bool) l : (∀ x, f x = g x) → forallb f l = forallb g l.
Proof. intros Hf. induction l as [|x l IH]; simpl; [done|]. by rewrite Hf, IH. Qed.

Lemma last_fmap {A B} (g : A → B) l : last (g <$> l) = g <$> last l.
Proof. induction l as [|x [|y l] IH]; [done|done|]. csimpl in *. exact IH. Qed.

(** The labels of a name with valid labels end in no dot. *)
Lemma labels_no_dot_end f name : (∀ l, f l = true → l ≠ []) →
  forallb f (split_on DOT name) = true → strip_suffix_or [DOT] name = name.
Proof.
  intros Hf Hl. destruct (strip_suffix_or_cases [DOT] name) as [(r & -> & _)|[_ ?]]; [|done].
  rewrite split_on_snoc, forallb_app in Hl. apply andb_prop in Hl as [_ Hl]. simpl in Hl.
  rewrite andb_true_r in Hl. by apply Hf in Hl.
Qed.

Lemma name_label_nonnil l : name_label_ok l = true → l ≠ [].
Proof. unfold name_label_ok. by intros [[?%negb_true_iff%bool_decide_eq_false _]%andb_prop _]%andb_prop. Qed.

(** A normalized name is its own normalized form. *)
Lemma normalize_name_idem s name : normalize_name s = Some name → normalize_name name = Some name.
Proof.
  unfold normalize_name at 1. set (n := strip_suffix_or [DOT] s).
  destruct ((253 <? len n) || negb (contains DOT n)) eqn:H1; [done|].
  destruct (forallb name_label_ok (split_on DOT n)) eqn:H2; [|done].
  destruct (forallb is_ascii_digit _) eqn:H3; [done|]. intros [= <-].
  assert (strip_suffix_or [DOT] (to_ascii_lowercase n) = to_ascii_lowercase n) as Hs.
  { eapply (labels_no_dot_end name_label_ok); [apply name_label_nonnil|].
    rewrite split_on_to_lower, forallb_map, <-H2. apply forallb_ext, name_label_lower. }
  unfold normalize_name. rewrite Hs. unfold len in *. rewrite length_to_lower.
  assert (contains DOT (to_ascii_lowercase n) = contains DOT n) as ->.
  { apply eq_true_iff_eq. rewrite !contains_spec. unfold to_ascii_lowercase.
    rewrite list_elem_of_fmap. split.
    - intros (y & Hy & Hin). symmetry in Hy. by apply lower1_eq_iff in Hy as ->.
    - intros Hin. by exists DOT. }
  rewrite H1, split_on_to_lower, forallb_map.
  rewrite (forallb_ext _ name_label_ok) by apply name_label_lower. rewrite H2. simpl negb. cbv iota.
  rewrite last_fmap. destruct (last (split_on DOT n)) as [l|] eqn:El; [|done]. simpl in *.
  rewrite (forallb_lower _ _ lower_digit), H3. by rewrite to_lower_idem.
Qed.

Lemma normalize_name_dot name : normalize_name name = Some name → contains DOT name = true.
Proof.
  intros Hn. pose proof Hn as Hn'. unfold normalize_name in Hn.
  destruct (_ || _) eqn:H1; [done|]. destruct (forallb name_label_ok _) eqn:H2; [|done].
  destruct (forallb is_ascii_digit _); [done|]. simpl in Hn. injection Hn as Hn.
  apply orb_false_iff in H1 as [_ H1%negb_false_iff]. rewrite <-Hn.
  apply contains_spec in H1. apply contains_spec, list_elem_of_fmap. by exists DOT.
Qed.

Lemma normalize_name_lower s name : normalize_name s = Some name → to_ascii_lowercase name = name.
Proof.
  unfold normalize_name. repeat case_match; try done. intros [= <-]. apply to_lower_idem.
Qed.

Lemma normalize_no_bar name : normalize_name name = Some name → BAR ∉ name.
Proof.
  unfold normalize_name. destruct (_ || _); [done|]. destruct (forallb name_label_ok _) eqn:Hl; [|done].
  destruct (forallb is_ascii_digit _); [done|]. intros Heq Hin. simpl in Heq. injection Heq as Heq.
  rewrite <-Heq in Hin.
  apply list_elem_of_fmap in Hin as (b & Hb & Hin). symmetry in Hb. apply lower1_eq_iff in Hb as ->; [|done..].
  apply forallb_Forall in Hl. rewrite <-(join_split_on DOT (strip_suffix_or _ _)) in Hin.
  assert (Forall (λ b, b ≠ BAR) (join DOT (split_on DOT (strip_suffix_or [DOT] name)))) as Hf.
  { apply Forall_join; [done|]. eapply Forall_impl; [done|]. intros w Hw.
    apply andb_prop in Hw as [_ Hw]. apply forallb_Forall in Hw. eapply Forall_impl; [done|].
    intros b Hb' ->. done. }
  rewrite Forall_forall in Hf. by apply (Hf BAR).
Qed.

(** A valid pattern is lowercase. *)
Lemma valid_pattern_bytes p : is_valid_pattern p = true →
  Forall (λ b, pattern_byte b = true ∨ b = DOT) p.
Proof.
  unfold is_valid_pattern. intros [[_ Hl]%andb_prop _]%andb_prop.
  rewrite <-(join_split_on DOT p). apply Forall_join; [by right|].
  apply forallb_Forall in Hl. eapply Forall_impl; [done|]. intros w Hw.
  apply andb_prop in Hw as [_ Hw]. apply forallb_Forall in Hw.
  eapply Forall_impl; [done|]. naive_solver.
Qed.

Lemma valid_pattern_lower p : is_valid_pattern p = true → to_ascii_lowercase p = p.
Proof.
  intros Hp%valid_pattern_bytes. apply to_lower_fix. eapply Forall_impl; [done|]. intros b.
  unfold pattern_byte, is_ascii_lowercase, is_ascii_digit, is_ascii_uppercase. lia.
Qed.

(** Every rule the line parser gives has its kind's form. *)
Lemma wildcard_pattern_valid p parents gl :
  wildcard_pattern p = Some (parents, gl) → is_valid_pattern gl = true.
Proof.
  unfold wildcard_pattern. set (start := match strip_prefix _ _ with Some _ => _ | None => _ end).
  destruct start as [[par st] rest]. case_match eqn:Hv; [|done]. by intros [= _ <-].
Qed.

Lemma parse_rule_form exc imp bf pattern kind name bad :
  parse_rule exc imp bf pattern = Rule kind name bad → stored_form kind name.
Proof.
  unfold parse_rule, stored_form. destruct (wildcard_domain pattern) as [n|].
  { destruct (normalize_name n) eqn:Hn; [|done]. intros [= <- <- <-].
    destruct exc, imp; simpl; by eapply normalize_name_idem. }
  destruct (contains STAR pattern).
  { destruct (wildcard_pattern pattern) as [[par gl]|] eqn:Hw; [|done].
    apply wildcard_pattern_valid in Hw. by destruct exc, imp, par; intros [= <- <- <-]. }
  destruct (rule_name pattern) as [[exact n]|]; [|done].
  destruct (normalize_name n) eqn:Hn; [|done]. apply normalize_name_idem in Hn.
  by destruct exc, imp, exact; intros [= <- <- <-].
Qed.

Lemma parse_adblock_line_form line kind name bad :
  parse_adblock_line line = Rule kind name bad → stored_form kind name.
Proof.
  unfold parse_adblock_line. case_match; [done|].
  destruct (match strip_prefix (lit "@@") (trim line) with
            | Some rest => (true, rest) | None => (false, trim line) end) as [exc rule].
  destruct (match split_once 36 rule with
            | Some (pattern, options) => (pattern, split_on 44 options)
            | None => (rule, []) end) as [pattern options].
  destruct (read_options options false false) as [[imp bf]|]; [|done]. apply parse_rule_form.
Qed.

(** ** The builder over all lines *)

Definition exempts_rule (e : option Exemption) (kind : Kind) (name : bytes) : bool :=
  match e with Some exempt => covers_exempt kind name exempt | None => false end.

(** Every rule has its kind's form and is [allowed], and every pattern is in the order. *)
Definition builder_inv (allowed : Kind → bytes → Prop) (b : Builder) : Prop :=
  (∀ k n, n ∈ b_sets b k → stored_form k n ∧ allowed k n) ∧
  (∀ k n, is_pattern k = true → n ∈ b_sets b k → (k, n) ∈ b_pattern_order b).

Lemma set_kind_elem sets kind s k (n : bytes) :
  n ∈ set_kind sets kind s k ↔ if bool_decide (k = kind) then n ∈ s else n ∈ sets k.
Proof. unfold set_kind. by case_bool_decide. Qed.

Lemma insert_name_elem b kind name k (n : bytes) :
  n ∈ b_sets (insert_name b kind name) k ↔ n ∈ b_sets b k ∨ (k = kind ∧ n = name).
Proof.
  unfold insert_name. simpl. rewrite set_kind_elem. case_bool_decide as Hk; [subst|]; set_solver.
Qed.

Section Inv.
Context (allowed : Kind → bytes → Prop).

(** Fields that the invariant does not read. *)
Lemma builder_inv_fields b b' : builder_inv allowed b → b_sets b' = b_sets b →
  b_pattern_order b' = b_pattern_order b → builder_inv allowed b'.
Proof. unfold builder_inv. by intros ? -> ->. Qed.

Lemma insert_name_inv b kind name : builder_inv allowed b →
  stored_form kind name → allowed kind name → is_pattern kind = false →
  builder_inv allowed (insert_name b kind name).
Proof.
  intros [Hf Ho] Hs Ha Hp. split; intros k n; rewrite insert_name_elem.
  - intros [?|[-> ->]]; auto.
  - intros Hk [?|[-> ->]]; [by apply Ho|congruence].
Qed.

Lemma insert_pattern_inv b kind name : builder_inv allowed b →
  stored_form kind name → allowed kind name →
  builder_inv allowed
    (if negb (bool_decide (name ∈ b_sets b kind))
     then with_order (insert_name b kind name) (b_pattern_order b ++ [(kind, name)])
     else insert_name b kind name).
Proof.
  intros [Hf Ho] Hs Ha. case_bool_decide as Hin; simpl; split; intros k n.
  1, 3: intros Hn; apply (insert_name_elem b kind name) in Hn as [?|[-> ->]]; auto.
  - rewrite insert_name_elem. intros Hk [?|[-> ->]]; by apply Ho.
  - intros Hk Hn. simpl. apply elem_of_app. apply (insert_name_elem b kind name) in Hn as [?|[-> ->]].
    + left. by apply Ho.
    + right. by apply list_elem_of_singleton.
Qed.

Lemma add_adblock_line_inv b line :
  (∀ k n, stored_form k n → exempts_rule (b_exempt b) k n = false → allowed k n) →
  builder_inv allowed b → builder_inv allowed (add_adblock_line b line).
Proof.
  intros Ha Hb. unfold add_adblock_line. destruct (parse_adblock_line line) as [| |kind name bad] eqn:Hl;
    [done|by eapply builder_inv_fields|].
  destruct bad; [by eapply builder_inv_fields|]. apply parse_adblock_line_form in Hl.
  unfold Builder_exempts. fold (exempts_rule (b_exempt b) kind name).
  destruct (exempts_rule (b_exempt b) kind name) eqn:He; [by eapply builder_inv_fields|].
  set (b' := with_exempted b _).
  assert (builder_inv allowed b') as Hb' by by eapply builder_inv_fields.
  destruct (is_pattern kind) eqn:Hp.
  - by apply (insert_pattern_inv b'); auto.
  - apply insert_name_inv; auto.
Qed.

Lemma add_hosts_names_inv b names n :
  (∀ k n, stored_form k n → exempts_rule (b_exempt b) k n = false → allowed k n) →
  builder_inv allowed b → builder_inv allowed (add_hosts_names b names n).1.
Proof.
  revert b n. induction names as [|name names IH]; intros b n Ha Hb; [done|]. cbn [add_hosts_names].
  case_match; [by apply IH|]. destruct (normalize_name name) as [m|] eqn:Hm; [|by apply IH].
  unfold Builder_exempts. fold (exempts_rule (b_exempt b) Block m).
  destruct (exempts_rule (b_exempt b) Block m) eqn:He; (apply IH; [exact Ha|]).
  - by eapply builder_inv_fields.
  - apply insert_name_inv; [by eapply builder_inv_fields| | |done].
    + by eapply normalize_name_idem.
    + apply Ha; [by eapply normalize_name_idem|done].
Qed.

Lemma add_hosts_line_inv b line :
  (∀ k n, stored_form k n → exempts_rule (b_exempt b) k n = false → allowed k n) →
  builder_inv allowed b → builder_inv allowed (add_hosts_line b line).
Proof.
  intros Ha Hb. unfold add_hosts_line. case_match; [done|].
  destruct (split_whitespace _) as [|first fields]; [done|].
  match goal with |- context [add_hosts_names b ?ns 0] =>
    pose proof (add_hosts_names_inv b ns 0 Ha Hb) as Hn; destruct (add_hosts_names b ns 0) as [b' acc] end.
  case_match; [by eapply builder_inv_fields|done].
Qed.

(** The lines of one list do not change its exemption. *)
Lemma add_adblock_line_exempt b line : b_exempt (add_adblock_line b line) = b_exempt b.
Proof. unfold add_adblock_line, Builder_exempts. by repeat case_match; simplify_eq. Qed.

Lemma add_hosts_names_exempt b names n : b_exempt (add_hosts_names b names n).1 = b_exempt b.
Proof.
  revert b n. induction names as [|name names IH]; intros b n; [done|]. cbn [add_hosts_names].
  unfold Builder_exempts. repeat case_match; simplify_eq; rewrite ?IH; done.
Qed.

Lemma add_hosts_line_exempt b line : b_exempt (add_hosts_line b line) = b_exempt b.
Proof.
  unfold add_hosts_line. case_match; [done|]. destruct (split_whitespace _) as [|first fields]; [done|].
  match goal with |- context [add_hosts_names b ?ns 0] =>
    pose proof (add_hosts_names_exempt b ns 0) as Hn; destruct (add_hosts_names b ns 0) as [b' acc] end.
  by case_match.
Qed.

Lemma add_list_inv b l :
  (∀ k n, stored_form k n → exempts_rule (dns_exempt l) k n = false → allowed k n) →
  builder_inv allowed b → builder_inv allowed (add_list b l).
Proof.
  intros Ha Hb. unfold add_list.
  assert (∀ (f : Builder → bytes → Builder) ls b, (∀ b x, b_exempt (f b x) = b_exempt b) →
    (∀ b x, (∀ k n, stored_form k n → exempts_rule (b_exempt b) k n = false → allowed k n) →
      builder_inv allowed b → builder_inv allowed (f b x)) →
    b_exempt b = dns_exempt l → builder_inv allowed b → builder_inv allowed (foldl f b ls)) as Hfold.
  { intros f ls. induction ls as [|x ls IH]; intros b0 He Hi Hx Hb0; simpl; [done|].
    apply IH; [done|done|by rewrite He|]. apply Hi; [by rewrite Hx|done]. }
  case_match; apply Hfold; simpl; try done; try (by eapply builder_inv_fields);
    eauto using add_adblock_line_exempt, add_hosts_line_exempt, add_adblock_line_inv, add_hosts_line_inv.
Qed.

Lemma add_lists_inv lists :
  (∀ l k n, l ∈ lists → stored_form k n → exempts_rule (dns_exempt l) k n = false → allowed k n) →
  builder_inv allowed (foldl add_list Builder_default lists).
Proof.
  intros Ha. assert (builder_inv allowed Builder_default) as Hb by (split; intros k n; simpl; set_solver).
  revert Hb. generalize Builder_default. induction lists as [|l lists IH]; intros b Hb; simpl; [done|].
  apply IH; [set_solver|]. apply add_list_inv; [|done]. intros k n. apply Ha. set_solver.
Qed.
End Inv.

(** ** Finishing *)

Lemma apply_badfilter_elem sets l k (n : bytes) :
  n ∈ apply_badfilter sets l k ↔ n ∈ sets k ∧ (k, n) ∉ l.
Proof.
  unfold apply_badfilter. revert sets. induction l as [|[k' m] l IH]; intros sets; simpl; [set_solver|].
  rewrite IH, set_kind_elem. simpl. case_bool_decide as Hk; [subst|]; set_solver.
Qed.

(** The loop of [limit_patterns]: what stays was counted. *)
Record limit_inv (visited : list (Kind * bytes)) (sets0 : Kind → gset bytes) (st : limit_state)
    (kept : list (Kind * bytes)) : Prop := {
  li_kept : length kept = ls_kept st ∧ (ls_kept st ≤ MAX_WILDCARD_PATTERNS)%nat;
  li_unkeyed : length (vec_retain (λ e, is_unkeyed e.2) kept) = ls_kept_unkeyed st ∧
    (ls_kept_unkeyed st ≤ MAX_UNKEYED_PATTERNS)%nat;
  li_sub : ∀ k, ls_sets st k ⊆ sets0 k;
  li_seen : ∀ k n, (k, n) ∈ visited → n ∈ ls_sets st k → (k, n) ∈ kept;
  li_other : ∀ k n, n ∈ sets0 k → n ∈ ls_sets st k ∨ (k, n) ∈ visited
}.

Lemma limit_step_inv visited sets0 st kept e : limit_inv visited sets0 st kept →
  ∃ kept', limit_inv (visited ++ [e]) sets0 (limit_step st e) kept'.
Proof.
  intros [[Hk Hk'] [Hu Hu'] Hs Hv Ho]. destruct e as [kind pattern]. unfold limit_step.
  case_bool_decide as Hin; simpl negb; cbv iota.
  2: { exists kept. split; try done; intros k n; [rewrite elem_of_app, list_elem_of_singleton|set_solver].
       intros [?|[= -> ->]] Hn; [by apply Hv|done]. }
  match goal with |- context [if ?r then _ else _] => destruct r eqn:Hroom end.
  - apply andb_prop in Hroom as [Hr1%Nat.ltb_lt Hr2]. exists (kept ++ [(kind, pattern)]).
    split; simpl.
    + rewrite length_app. simpl. lia.
    + rewrite vec_retain_app, length_app, vec_retain_cons. simpl.
      destruct (is_unkeyed pattern); simpl in *; [apply Nat.ltb_lt in Hr2|]; lia.
    + done.
    + intros k n. rewrite !elem_of_app. intros [?|?] Hn; [left; auto|by right].
    + set_solver.
  - exists kept. split; simpl; try done.
    + intros k x. rewrite set_kind_elem. case_bool_decide as Hkk; [subst|]; set_solver.
    + intros k n. rewrite elem_of_app, list_elem_of_singleton, set_kind_elem.
      intros [Hvis|[= -> ->]]; case_bool_decide as Hkk; [subst|..]; set_solver.
    + intros k n Hn. rewrite elem_of_app, list_elem_of_singleton, set_kind_elem.
      destruct (Ho k n Hn) as [Hl|?]; [|auto]. case_bool_decide as Hkk; [subst|auto].
      destruct (decide (n = pattern)) as [->|]; set_solver.
Qed.

Lemma limit_fold order sets : ∃ kept,
  limit_inv order sets (foldl limit_step
    {| ls_sets := sets; ls_kept := 0; ls_kept_unkeyed := 0; ls_left_out := 0 |} order) kept.
Proof.
  induction order as [|e order [kept IH]] using rev_ind.
  - exists []. split; simpl; try done; try set_solver; split; try done; unfold
      MAX_WILDCARD_PATTERNS, MAX_UNKEYED_PATTERNS; lia.
  - rewrite foldl_app. simpl. by eapply limit_step_inv.
Qed.

Lemma elem_of_limit_order order e : e ∈ limit_order order ↔ e ∈ order.
Proof.
  unfold limit_order. rewrite elem_of_app, !elem_of_vec_retain.
  destruct (is_exception e.1); naive_solver.
Qed.

(** The sets of the finished rules. *)
Definition finished_sets (b : Builder) : Kind → gset bytes :=
  b_sets (limit_patterns
    (with_badfilter (with_sets b (apply_badfilter (b_sets b) (b_badfilter b))) [])).

Lemma finished_sub b k : finished_sets b k ⊆ b_sets b k.
Proof.
  unfold finished_sets, limit_patterns. simpl.
  destruct (limit_fold (limit_order (b_pattern_order b)) (apply_badfilter (b_sets b) (b_badfilter b)))
    as [kept [_ _ Hs _ _]].
  intros n Hn. specialize (Hs k n Hn). by apply apply_badfilter_elem in Hs as [].
Qed.

(** Nothing but the limits and [$badfilter] removes a rule; names are not limited. *)
Lemma finished_names b k (n : bytes) : is_pattern k = false →
  (∀ e, e ∈ b_pattern_order b → is_pattern e.1 = true) →
  n ∈ finished_sets b k ↔ n ∈ b_sets b k ∧ (k, n) ∉ b_badfilter b.
Proof.
  intros Hk Ho. rewrite <-apply_badfilter_elem. unfold finished_sets, limit_patterns. simpl.
  destruct (limit_fold (limit_order (b_pattern_order b)) (apply_badfilter (b_sets b) (b_badfilter b)))
    as [kept [_ _ Hs _ Hot]].
  split; [apply Hs|]. intros Hn. destruct (Hot k n Hn) as [?|Hin]; [done|].
  apply (proj1 (elem_of_limit_order _ _)), Ho in Hin. simpl in Hin. congruence.
Qed.

Definition pattern_kinds : list Kind :=
  [WildcardAllow; ExactWildcardAllow; WildcardBlock; ExactWildcardBlock].
(** All patterns of the sets, with their kinds. *)
Definition tagged (sets : Kind → gset bytes) : list (Kind * bytes) :=
  pattern_kinds ≫= λ k, pair k <$> elements (sets k).

Lemma elem_of_tagged sets k (n : bytes) :
  (k, n) ∈ tagged sets ↔ is_pattern k = true ∧ n ∈ sets k.
Proof.
  unfold tagged. rewrite list_elem_of_bind. setoid_rewrite list_elem_of_fmap.
  setoid_rewrite elem_of_elements. unfold pattern_kinds. split.
  - intros (k' & (m & [= -> ->] & Hm) & Hk). split; [|done].
    rewrite !elem_of_cons in Hk. by destruct Hk as [->|[->|[->|[->|[]%not_elem_of_nil]]]].
  - intros [Hk Hn]. exists k. split; [eauto|]. rewrite !elem_of_cons. destruct k; try done; tauto.
Qed.

Lemma NoDup_tagged sets : NoDup (tagged sets).
Proof.
  unfold tagged. apply NoDup_bind.
  - intros k1 k2 [k n] _ _ (m1 & [= -> ->] & _)%list_elem_of_fmap (m2 & [= -> ->] & _)%list_elem_of_fmap. done.
  - intros k _. apply NoDup_fmap_2; [apply _|]. apply NoDup_elements.
  - unfold pattern_kinds. apply (bool_decide_unpack _). vm_compute. exact I.
Qed.

(** At most so many patterns, and so many unkeyed ones, are left. *)
Lemma finished_limits allowed b : builder_inv allowed b →
  (length (tagged (finished_sets b)) ≤ MAX_WILDCARD_PATTERNS)%nat ∧
  (length (vec_retain (λ e, is_unkeyed e.2) (tagged (finished_sets b))) ≤ MAX_UNKEYED_PATTERNS)%nat.
Proof.
  intros [_ Ho]. unfold finished_sets, limit_patterns. simpl.
  destruct (limit_fold (limit_order (b_pattern_order b)) (apply_badfilter (b_sets b) (b_badfilter b)))
    as [kept [[Hk Hk'] [Hu Hu'] Hs Hv _]].
  set (sets := ls_sets _) in *.
  assert (∀ e, e ∈ tagged sets → e ∈ kept) as Hin.
  { intros [k n] [Hp Hn]%elem_of_tagged. apply Hv; [|done]. apply elem_of_limit_order, Ho; [done|].
    specialize (Hs k n Hn). by apply apply_badfilter_elem in Hs as []. }
  split.
  - etrans; [|by rewrite <-Hk in Hk'; exact Hk']. apply submseteq_length.
    by apply NoDup_submseteq; [apply NoDup_tagged|].
  - etrans; [|by rewrite <-Hu in Hu'; exact Hu']. apply submseteq_length.
    apply NoDup_submseteq; [apply vec_retain_NoDup, NoDup_tagged|].
    intros e [He ?]%elem_of_vec_retain. apply elem_of_vec_retain. auto.
Qed.

(** ** The meaning of the rules *)

(** [host] is one of the names, or under one. *)
Definition covered_by (names : list bytes) (host : bytes) : bool :=
  existsb (λ n, bool_decide (host = n) || ends_with (DOT :: n) host) names.

Lemma covered_by_spec names host :
  covered_by names host = true ↔ ∃ n, n ∈ names ∧ (host = n ∨ under host n).
Proof.
  unfold covered_by, under. rewrite existsb_Exists. setoid_rewrite orb_true_iff.
  setoid_rewrite bool_decide_eq_true. by setoid_rewrite ends_with_spec.
Qed.

Lemma under_trans a b c : under a b → under b c → under a c.
Proof. intros [x ->] [y ->]. exists (x ++ DOT :: y). by rewrite <-app_assoc. Qed.

Lemma under_shorter a b : under a b → (length b < length a)%nat.
Proof. intros [x ->]. rewrite length_app. simpl. lia. Qed.

Lemma elem_of_sorted (s : gset bytes) (n : bytes) : n ∈ sorted s ↔ n ∈ s.
Proof. unfold sorted. by rewrite sort_strings_perm, elem_of_elements. Qed.

Lemma elem_of_without_redundant (s : gset bytes) (n : bytes) :
  n ∈ without_redundant_children s ↔ n ∈ s ∧ ∀ p, under n p → p ∉ s.
Proof.
  unfold without_redundant_children. rewrite sort_strings_perm, elem_of_vec_retain, elem_of_elements.
  rewrite negb_true_iff, <-not_true_iff_false, existsb_Exists.
  setoid_rewrite elem_of_after_each. setoid_rewrite bool_decide_eq_true. unfold under. naive_solver.
Qed.

(** Every stored name is, or is under, one that is kept. *)
Lemma kept_ancestor (s : gset bytes) (n : bytes) : n ∈ s →
  ∃ m, m ∈ without_redundant_children s ∧ (n = m ∨ under n m).
Proof.
  induction n as [n IH] using (induction_ltof1 _ (@length Z)). intros Hn.
  destruct (decide (Exists (λ p, p ∈ s) (after_each DOT n))) as [He|He].
  - apply Exists_exists in He as (p & Hp%elem_of_after_each & Hs).
    destruct (IH p (under_shorter _ _ Hp) Hs) as (m & Hm & Hor). exists m. split; [done|]. right.
    destruct Hor as [->|Hu]; [done|by eapply under_trans].
  - exists n. split; [|by left]. apply elem_of_without_redundant. split; [done|].
    intros p Hp Hs. apply He, Exists_exists. exists p. split; [by apply elem_of_after_each|done].
Qed.

(** Leaving out the redundant children changes no decision. *)
Lemma without_redundant_covers (s : gset bytes) host :
  covered_by (without_redundant_children s) host = covered_by (sorted s) host.
Proof.
  apply eq_true_iff_eq. rewrite !covered_by_spec. split.
  - intros (n & [Hn _]%elem_of_without_redundant & Hh). exists n. by rewrite elem_of_sorted.
  - intros (n & Hn%elem_of_sorted & Hh). destruct (kept_ancestor s n Hn) as (m & Hm & Hor).
    exists m. split; [done|]. destruct Hh as [->|Hh], Hor as [->|Hu]; eauto using under_trans.
Qed.

(** Whether a rule blocks a host (lowercase, no trailing dot). *)
Definition rule_blocks (kind : Kind) (name host : bytes) : bool :=
  match kind with
  | Important | Block => covered_by [name] host
  | ExactBlock => bool_decide (host = name)
  | WildcardBlock => Pattern_matches {| glob := name; pattern_parents := true |} host
  | ExactWildcardBlock => Pattern_matches {| glob := name; pattern_parents := false |} host
  | _ => false
  end.

(** A rule that would block an exempt host is recognised. *)
Lemma covers_exempt_complete kind name host exempt :
  stored_form kind name → Exemption_wf exempt → covers_host exempt host = true →
  rule_blocks kind name host = true → covers_exempt kind name exempt = true.
Proof.
  intros Hs Hwf Hc. unfold stored_form in Hs.
  destruct kind; cbn [is_pattern rule_blocks covers_exempt] in *; try done.
  1, 2: intros (n & ->%list_elem_of_singleton & Hn)%covered_by_spec;
    apply covers_subtree_spec; eauto.
  - by intros ->%bool_decide_eq_true.
  - intros Hm. eapply covers_pattern_complete; eauto using valid_pattern_lower.
  - intros Hm. eapply covers_pattern_complete; eauto using valid_pattern_lower.
Qed.
