(* ===== verification/DomainSet.v ===== *)
(** * The DNS blocklist file and lookups in it ([filter/src/domain_set.rs])

    [DomainRules_encode] writes [domains.bin], [DomainSet_new] reads it with every check in
    the source's order, [is_blocked] decides a host. Bytes are [Z] values; [usize] and [u64]
    sums of the header fields stay below 2^64 (at most 40 + 8 * 3 * 2^32 + 2 * 2^32), so they
    are exact integers here. Memory mapping and file access are not modelled: the set is
    built from the file's bytes. *)
From S2P Require Import Prelude RustStr Collections Net HostPattern Glob Trie Wildcard Exempt.
From S2P Require Import DomainRules RulesFacts.

(** ** Little-endian integers *)

Fixpoint to_le_bytes (n : nat) (v : Z) : bytes :=
  match n with
  | O => []
  | S n' => v mod 256 :: to_le_bytes n' (v / 256)
  end.
Fixpoint from_le_bytes (l : bytes) : Z :=
  match l with
  | [] => 0
  | b :: l' => b + 256 * from_le_bytes l'
  end.

Definition MAGIC : bytes := lit "TGDS".
Definition VERSION : Z := 2.
Definition OLDEST_VERSION : Z := 1.
Definition HEADER_LEN_V1 : nat := 32.
Definition HEADER_LEN : nat := 40.

Definition read_u32 (bs : bytes) (at_ : nat) : Z := from_le_bytes (slice at_ (at_ + 4) bs).
Definition hash_count (bs : bytes) : Z := read_u32 bs 8 + read_u32 bs 12 + read_u32 bs 16.

Inductive DomainSetError :=
| TooShort | BadMagic | UnsupportedVersion (v : Z) | BadHeader | BadPatterns
| LengthMismatch (expected actual : Z) | BadChecksum | Unsorted.

(** ** Hashes *)

Definition FNV_OFFSET : Z := 0xcbf29ce484222325.
Definition FNV_PRIME : Z := 0x00000100000001b3.
Definition EXACT_TAG : bytes := lit "|".
Definition fnv_step (hash b : Z) : Z := wrap64 (Z.lxor hash b * FNV_PRIME).
Definition fnv1a64_from (hash : Z) (bs : bytes) : Z := foldl (λ h b, fnv_step h (lower1 b)) hash bs.
Definition fnv1a64 (bs : bytes) : Z := fnv1a64_from FNV_OFFSET bs.
Definition exact_hash (name : bytes) : Z := fnv1a64_from (fnv1a64 EXACT_TAG) name.
Definition checksum (bs : bytes) : Z := foldl fnv_step FNV_OFFSET bs.

Definition sorted_hashes (names exact : list bytes) : list Z :=
  dedup (sort_u64 ((fnv1a64 <$> names) ++ (exact_hash <$> exact))).

(** ** Encoding *)

Definition pattern_section (parents host : list bytes) : bytes :=
  concat ((λ p, lit "||" ++ p ++ [NL]) <$> parents) ++ concat ((λ p, lit "|" ++ p ++ [NL]) <$> host).
(** [u32::try_from(n).expect(..)]: [None] is the panic. *)
Definition u32_of (n : Z) : option Z := if n <? 2 ^ 32 then Some n else None.

Definition DomainRules_encode (self : DomainRules) : option bytes :=
  let s0 := sorted_hashes (block self) (exact_block self) in
  let s1 := sorted_hashes (allow self) (exact_allow self) in
  let s2 := sorted_hashes (important self) [] in
  let allow_patterns := pattern_section (wildcard_allow self) (exact_wildcard_allow self) in
  let block_patterns := pattern_section (wildcard_block self) (exact_wildcard_block self) in
  c0 ← u32_of (len s0);
  c1 ← u32_of (len s1);
  c2 ← u32_of (len s2);
  allow_len ← u32_of (len allow_patterns);
  block_len ← u32_of (len block_patterns);
  let out := MAGIC ++ to_le_bytes 4 VERSION ++ to_le_bytes 4 c0 ++ to_le_bytes 4 c1 ++
             to_le_bytes 4 c2 ++ to_le_bytes 4 allow_len ++ to_le_bytes 8 0 ++
             to_le_bytes 4 block_len ++ to_le_bytes 4 0 ++
             concat (to_le_bytes 8 <$> s0 ++ s1 ++ s2) ++ allow_patterns ++ block_patterns in
  let sum := checksum (drop HEADER_LEN out) in
  Some (take 24 out ++ to_le_bytes 8 sum ++ drop 32 out).

(** ** Loading *)

(** The source first checks that the section is UTF-8; a section with a byte over 127 is
    rejected here too, since no pattern has such a byte. *)
Definition DomainSet_parse_patterns (section : bytes) : option wildcard_PatternSet :=
  match strip_suffix [NL] section with
  | Some body =>
      match collect_options Pattern_parse (split_on NL body) with
      | Some patterns => Some (wildcard_PatternSet_new patterns)
      | None => None
      end
  | None => if bool_decide (section = []) then Some wildcard_PatternSet_default else None
  end.

Record DomainSet := {
  ds_data : bytes;
  ds_hashes_at : nat;
  ds_block : nat * nat;
  ds_allow : nat * nat;
  ds_important : nat * nat;
  ds_wildcard_allow : wildcard_PatternSet;
  ds_wildcard_block : wildcard_PatternSet
}.

(** [as_chunks::<8>()], each chunk read with [u64::from_le_bytes]. *)
Fixpoint chunks8 (n : nat) (bs : bytes) : list Z :=
  match n with
  | O => []
  | S n' => from_le_bytes (take 8 bs) :: chunks8 n' (drop 8 bs)
  end.
Definition hashes (self : DomainSet) : list Z :=
  chunks8 (ds_important self).2
    (slice (ds_hashes_at self) (ds_hashes_at self + 8 * (ds_important self).2) (ds_data self)).
Definition hash_section (self : DomainSet) (range : nat * nat) : list Z :=
  slice range.1 range.2 (hashes self).

(** [windows(2).all(|w| w[0] < w[1])]. *)
Fixpoint increasing (l : list Z) : bool :=
  match l with
  | x :: ((y :: _) as l') => (x <? y) && increasing l'
  | _ => true
  end.

(** The header's length and the length of the wildcard block section. *)
Definition read_header (bs : bytes) (version : Z) : result (nat * Z) DomainSetError :=
  if version =? 1 then Ok (HEADER_LEN_V1, 0)
  else if (length bs <? HEADER_LEN)%nat then Err TooShort
  else if negb (read_u32 bs 36 =? 0) then Err BadHeader
  else Ok (HEADER_LEN, read_u32 bs 32).

Definition DomainSet_new (bs : bytes) : result DomainSet DomainSetError :=
  if (length bs <? HEADER_LEN_V1)%nat then Err TooShort
  else if negb (bool_decide (slice 0 4 bs = MAGIC)) then Err BadMagic
  else
    let version := read_u32 bs 4 in
    if negb ((OLDEST_VERSION <=? version) && (version <=? VERSION))
    then Err (UnsupportedVersion version)
    else
      match read_header bs version with
      | Err e => Err e
      | Ok (header_len, block_patterns_len) =>
      let allow_patterns_len := read_u32 bs 20 in
      let c0 := read_u32 bs 8 in let c1 := read_u32 bs 12 in let c2 := read_u32 bs 16 in
      let total := c0 + c1 + c2 in
      let expected := Z.of_nat header_len + 8 * total + allow_patterns_len + block_patterns_len in
      if negb (len bs =? expected) then Err (LengthMismatch expected (len bs))
      else
        let stored := from_le_bytes (slice 24 32 bs) in
        if negb (checksum (drop header_len bs) =? stored) then Err BadChecksum
        else
          let block := (0%nat, Z.to_nat c0) in
          let allow := (block.2, (block.2 + Z.to_nat c1)%nat) in
          let important := (allow.2, (allow.2 + Z.to_nat c2)%nat) in
          let allow_at := (header_len + 8 * important.2)%nat in
          let block_at := (allow_at + Z.to_nat allow_patterns_len)%nat in
          match DomainSet_parse_patterns (slice allow_at block_at bs),
                DomainSet_parse_patterns (drop block_at bs) with
          | Some wildcard_allow, Some wildcard_block =>
              let set := {| ds_data := bs; ds_hashes_at := header_len; ds_block := block;
                            ds_allow := allow; ds_important := important;
                            ds_wildcard_allow := wildcard_allow;
                            ds_wildcard_block := wildcard_block |} in
              if forallb (λ range, increasing (hash_section set range)) [block; allow; important]
              then Ok set else Err Unsorted
          | _, _ => Err BadPatterns
          end
      end.

(** ** Lookups *)

Definition DomainSet_contains (self : DomainSet) (range : nat * nat) (hash : Z) : bool :=
  match binary_search (hash_section self range) hash with Some _ => true | None => false end.

(** The loop over the host and its parents that still have a dot, at most [n] of them. *)
Fixpoint lookup_names (n : nat) (rest : bytes) : list bytes :=
  match n with
  | O => []
  | S n' =>
      match split_once DOT rest with
      | None => []
      | Some (_, parent) => rest :: lookup_names n' parent
      end
  end.
Definition range_is_empty (r : nat * nat) : bool := (r.2 <=? r.1)%nat.

Definition is_blocked (self : DomainSet) (host : bytes) : bool :=
  let host := strip_suffix_or [DOT] host in
  let hashes := fnv1a64 <$> lookup_names 127 host in
  let covered range :=
    negb (range_is_empty range) && existsb (λ h, DomainSet_contains self range h) hashes in
  if bool_decide (hashes = []) then false
  else
    let exact := exact_hash host in
    let exactly range := negb (range_is_empty range) && DomainSet_contains self range exact in
    if covered (ds_important self) then true
    else if exactly (ds_allow self) || covered (ds_allow self) then false
    else
      let blocked := exactly (ds_block self) || covered (ds_block self) ||
                     wildcard_PatternSet_matches (ds_wildcard_block self) host in
      blocked && negb (wildcard_PatternSet_matches (ds_wildcard_allow self) host).

Definition DomainSet_len (self : DomainSet) : nat := (ds_important self).2.
Definition DomainSet_pattern_count (self : DomainSet) : nat :=
  (wildcard_PatternSet_len (ds_wildcard_allow self) + wildcard_PatternSet_len (ds_wildcard_block self))%nat.
Definition DomainSet_is_empty (self : DomainSet) : bool := (DomainSet_len self =? 0)%nat.

(** ** Runs *)

Definition example_rules : DomainRules :=
  DomainRules_parse [{| source_name := []; source_format := Adblock;
    source_text := join NL [lit "||ads.example^"; lit "@@|ok.ads.example^|"; lit "||log*.test.example^";
      lit "@@||log-ok*.test.example^"; lit "||must.ok.example^$important"; lit "@@||ok.example^"] |}].
Definition example_blocked (host : string) : option bool :=
  bs ← DomainRules_encode example_rules;
  match DomainSet_new bs with Ok ds => Some (is_blocked ds (lit host)) | Err _ => None end.

Example lookups :
  example_blocked <$> ["x.ADS.example."; "ok.ads.example"; "log7.test.example"; "log-ok.test.example";
    "a.must.ok.example"; "other.example"; "example"]%string =
  Some <$> [true; false; true; false; true; false; false].
Proof. vm_compute. reflexivity. Qed.
