(* ===== verification/DomainSetFacts.v ===== *)
(** * Lemmas on the DNS blocklist file ([filter/src/domain_set.rs])

    Reading back what was written, and the lookup by hashes against the rules by name. *)
From S2P Require Import Prelude RustStr Collections Net HostPattern Glob Trie Wildcard Exempt.
From S2P Require Import DomainRules RulesFacts DomainSet.

(** ** The reference: the rules by name *)

Definition patterns_of (parents host : list bytes) : list Pattern :=
  ((λ p, {| glob := p; pattern_parents := true |}) <$> parents) ++
  ((λ p, {| glob := p; pattern_parents := false |}) <$> host).

Definition rules_blocked (rules : DomainRules) (host : bytes) : bool :=
  let host := to_ascii_lowercase (strip_suffix_or [DOT] host) in
  let matched l := existsb (λ p, Pattern_matches p host) l in
  if negb (contains DOT host) then false
  else if covered_by (important rules) host then true
  else if bool_decide (host ∈ exact_allow rules) || covered_by (allow rules) host then false
  else
    (bool_decide (host ∈ exact_block rules) || covered_by (block rules) host ||
     matched (patterns_of (wildcard_block rules) (exact_wildcard_block rules))) &&
    negb (matched (patterns_of (wildcard_allow rules) (exact_wildcard_allow rules))).

(** What the keys of a section hash: names, and one-host entries with their tag. *)
Definition keys (names exact : list bytes) : list bytes := names ++ ((λ n, BAR :: n) <$> exact).

(** The texts that a lookup hashes. *)
Definition queries (host : bytes) : list bytes := (BAR :: host) :: lookup_names 127 host.

(** No text of the lookup has the hash of a different entry. *)
Definition no_collision (rules : DomainRules) (host : bytes) : bool :=
  let host := strip_suffix_or [DOT] host in
  forallb (λ k, forallb (λ q, negb (fnv1a64 q =? fnv1a64 k) || bool_decide (to_ascii_lowercase q = k))
                  (queries host))
    (keys (block rules) (exact_block rules) ++ keys (allow rules) (exact_allow rules) ++
     keys (important rules) []).

(** The form of the rules that a parse gives. *)
Definition rules_ok (rules : DomainRules) : Prop :=
  Forall (λ n, normalize_name n = Some n)
    (important rules ++ allow rules ++ block rules ++ exact_allow rules ++ exact_block rules) ∧
  Forall (λ p, is_valid_pattern p = true)
    (wildcard_allow rules ++ exact_wildcard_allow rules ++ wildcard_block rules ++
     exact_wildcard_block rules).

(** ** Little-endian integers *)

Lemma from_to_le n v : 0 <= v < 256 ^ Z.of_nat n → from_le_bytes (to_le_bytes n v) = v.
Proof.
  revert v. induction n as [|n IH]; intros v Hv; [simpl in *; lia|].
  cbn [to_le_bytes from_le_bytes]. rewrite IH.
  - pose proof (Z_div_mod_eq_full v 256). lia.
  - rewrite Nat2Z.inj_succ, Z.pow_succ_r in Hv by lia. split; [apply Z.div_pos; lia|].
    apply Z.div_lt_upper_bound; lia.
Qed.

Lemma length_to_le n v : length (to_le_bytes n v) = n.
Proof. revert v. induction n as [|n IH]; intros v; simpl; [done|]. by rewrite IH. Qed.

Lemma chunks8_concat hs rest : Forall is_u64 hs →
  chunks8 (length hs) (concat (to_le_bytes 8 <$> hs) ++ rest) = hs.
Proof.
  induction 1 as [|h hs Hh _ IH]; [done|]. cbn [length chunks8]. rewrite fmap_cons. cbn [concat].
  rewrite <-app_assoc, take_app_length' by by rewrite length_to_le.
  rewrite drop_app_length' by by rewrite length_to_le. rewrite IH.
  f_equal. apply from_to_le. unfold is_u64, U64_MAX in Hh. change (256 ^ Z.of_nat 8) with (2 ^ 64). lia.
Qed.

Lemma length_concat_le hs : length (concat (to_le_bytes 8 <$> hs)) = (8 * length hs)%nat.
Proof.
  induction hs as [|h hs IH]; [done|]. rewrite fmap_cons. cbn [concat]. rewrite length_app, IH, length_to_le.
  simpl. lia.
Qed.

(** ** Hashes *)

Lemma fnv_step_u64 h b : is_u64 (fnv_step h b).
Proof.
  unfold fnv_step, wrap64, is_u64, U64_MAX.
  pose proof (Z.mod_pos_bound (Z.lxor h b * FNV_PRIME) (2 ^ 64) ltac:(lia)). lia.
Qed.

Lemma fnv1a64_from_u64 h bs : is_u64 h → is_u64 (fnv1a64_from h bs).
Proof.
  unfold fnv1a64_from. revert h. induction bs as [|b bs IH]; intros h Hh; simpl; [done|].
  apply IH, fnv_step_u64.
Qed.

Lemma fnv_offset_u64 : is_u64 FNV_OFFSET.
Proof. unfold is_u64, FNV_OFFSET, U64_MAX. lia. Qed.

Lemma checksum_u64 bs : is_u64 (checksum bs).
Proof.
  unfold checksum. pose proof fnv_offset_u64 as Hh. revert Hh. generalize FNV_OFFSET.
  induction bs as [|b bs IH]; intros h Hh; simpl; [done|]. apply IH, fnv_step_u64.
Qed.

Lemma exact_hash_tagged n : exact_hash n = fnv1a64 (BAR :: n).
Proof. reflexivity. Qed.

Lemma fnv_lower bs : fnv1a64 (to_ascii_lowercase bs) = fnv1a64 bs.
Proof.
  unfold fnv1a64, fnv1a64_from, to_ascii_lowercase. generalize FNV_OFFSET.
  induction bs as [|b bs IH]; intros h; csimpl; [done|]. by rewrite lower1_idem, IH.
Qed.

Lemma sorted_hashes_elem names exact h :
  h ∈ sorted_hashes names exact ↔ ∃ k, k ∈ keys names exact ∧ fnv1a64 k = h.
Proof.
  unfold sorted_hashes, keys. rewrite elem_of_dedup, sort_u64_perm, elem_of_app, !list_elem_of_fmap.
  setoid_rewrite elem_of_app. setoid_rewrite list_elem_of_fmap. setoid_rewrite exact_hash_tagged.
  naive_solver.
Qed.

Lemma sorted_hashes_sorted names exact : Sorted Z.lt (sorted_hashes names exact).
Proof. apply dedup_sorted, sort_u64_sorted. Qed.

Lemma sorted_hashes_u64 names exact : Forall is_u64 (sorted_hashes names exact).
Proof.
  apply Forall_forall. intros h (k & _ & <-)%sorted_hashes_elem. apply fnv1a64_from_u64, fnv_offset_u64.
Qed.

Lemma increasing_sorted l : increasing l = true ↔ Sorted Z.lt l.
Proof.
  induction l as [|x [|y l] IH]; [by split; [constructor|]|by split; [repeat constructor|]|].
  cbn [increasing]. rewrite andb_true_iff, IH, Z.ltb_lt. split.
  - intros [Hxy Hs]. constructor; [done|]. by constructor.
  - intros Hs. inversion Hs as [|?? Hs' Hh]. by inversion Hh.
Qed.

(** ** Pattern sections *)

Lemma Pattern_parse_line (parents : bool) p : is_valid_pattern p = true →
  Pattern_parse ((if parents then lit "||" else lit "|") ++ p) =
  Some {| glob := p; pattern_parents := parents |}.
Proof.
  intros Hp. unfold Pattern_parse. destruct parents; [by rewrite strip_prefix_app, Hp|].
  assert (strip_prefix (lit "||") (lit "|" ++ p) = None) as ->.
  { destruct (strip_prefix (lit "||") (lit "|" ++ p)) as [r|] eqn:E; [|done].
    apply strip_prefix_Some in E. simpl in E. injection E as E. apply valid_pattern_bytes in Hp.
    subst p. apply Forall_cons in Hp as [Hb _]. destruct Hb as [Hb|Hb]; [vm_compute in Hb|]; discriminate Hb. }
  by rewrite strip_prefix_app, Hp.
Qed.

Lemma valid_pattern_no_newline p : is_valid_pattern p = true → NL ∉ p.
Proof.
  intros Hp%valid_pattern_bytes Hin. rewrite Forall_forall in Hp. specialize (Hp _ Hin).
  destruct Hp as [Hp|Hp]; [vm_compute in Hp|]; discriminate Hp.
Qed.

(** The lines of a section. *)
Definition section_lines (parents host : list bytes) : list bytes :=
  ((λ p, lit "||" ++ p) <$> parents) ++ ((λ p, lit "|" ++ p) <$> host).

Lemma concat_lines ls : ls ≠ [] → concat ((λ l, l ++ [NL]) <$> ls) = join NL ls ++ [NL].
Proof.
  induction ls as [|l ls IH]; intros Hne; [done|]. rewrite fmap_cons. cbn [concat].
  destruct ls as [|m ls]; [simpl; by rewrite app_nil_r|].
  rewrite IH by done. rewrite (join_cons _ l) by done. by rewrite <-!app_assoc.
Qed.

Lemma pattern_section_lines parents host :
  pattern_section parents host = concat ((λ l, l ++ [NL]) <$> section_lines parents host).
Proof.
  unfold pattern_section, section_lines. rewrite fmap_app, concat_app, <-!list_fmap_compose.
  f_equal; f_equal; apply list_fmap_ext; intros i x _; unfold compose; by rewrite <-app_assoc.
Qed.

Lemma parse_section parents host :
  Forall (λ p, is_valid_pattern p = true) (parents ++ host) →
  DomainSet_parse_patterns (pattern_section parents host) =
  Some (wildcard_PatternSet_new (patterns_of parents host)).
Proof.
  intros [Hp Hh]%Forall_app. rewrite pattern_section_lines. unfold DomainSet_parse_patterns.
  destruct (decide (section_lines parents host = [])) as [Hn|Hn].
  { rewrite Hn. unfold section_lines in Hn. apply app_eq_nil in Hn as [->%fmap_nil_inv ->%fmap_nil_inv].
    done. }
  assert (Forall (λ w, NL ∉ w) (section_lines parents host)) as Hfree.
  { unfold section_lines. apply Forall_app. split; apply Forall_fmap.
    - eapply Forall_impl; [exact Hp|]. intros p Hv%valid_pattern_no_newline. unfold compose.
      rewrite elem_of_app. intros [Hin|Hin]; [|done]. by apply list_elem_of_In in Hin as [|[|]].
    - eapply Forall_impl; [exact Hh|]. intros p Hv%valid_pattern_no_newline. unfold compose.
      rewrite elem_of_app. intros [Hin|Hin]; [|done]. by apply list_elem_of_In in Hin as [|]. }
  rewrite concat_lines, strip_suffix_app, split_on_join by done.
  assert (collect_options Pattern_parse (section_lines parents host) = Some (patterns_of parents host))
    as ->; [|done].
  apply collect_options_Some. unfold section_lines, patterns_of. apply Forall2_app; apply Forall2_fmap_2,
    Forall_Forall2_diag; (eapply Forall_impl; [done|]); intros p Hv; simpl;
    [apply (Pattern_parse_line true)|apply (Pattern_parse_line false)]; done.
Qed.

(** ** Reading back what was written *)

Definition all_hashes (rules : DomainRules) : list Z :=
  sorted_hashes (block rules) (exact_block rules) ++
  sorted_hashes (allow rules) (exact_allow rules) ++ sorted_hashes (important rules) [].
Definition allow_section (rules : DomainRules) : bytes :=
  pattern_section (wildcard_allow rules) (exact_wildcard_allow rules).
Definition block_section (rules : DomainRules) : bytes :=
  pattern_section (wildcard_block rules) (exact_wildcard_block rules).
Definition body (rules : DomainRules) : bytes :=
  concat (to_le_bytes 8 <$> all_hashes rules) ++ allow_section rules ++ block_section rules.

(** The forty bytes of the header. *)
Definition header (c0 c1 c2 allow_len sum block_len : Z) : bytes :=
  MAGIC ++ to_le_bytes 4 VERSION ++ to_le_bytes 4 c0 ++ to_le_bytes 4 c1 ++ to_le_bytes 4 c2 ++
  to_le_bytes 4 allow_len ++ to_le_bytes 8 sum ++ to_le_bytes 4 block_len ++ to_le_bytes 4 0.

Lemma encode_shape rules bs : DomainRules_encode rules = Some bs →
  bs = header (len (sorted_hashes (block rules) (exact_block rules)))
         (len (sorted_hashes (allow rules) (exact_allow rules)))
         (len (sorted_hashes (important rules) []))
         (len (allow_section rules)) (checksum (body rules)) (len (block_section rules)) ++ body rules ∧
  Forall (λ n, n < 2 ^ 32)
    [len (sorted_hashes (block rules) (exact_block rules));
     len (sorted_hashes (allow rules) (exact_allow rules));
     len (sorted_hashes (important rules) []); len (allow_section rules); len (block_section rules)].
Proof.
  unfold DomainRules_encode. fold (allow_section rules) (block_section rules). unfold u32_of.
  destruct (Z.ltb_spec (len (sorted_hashes (block rules) (exact_block rules))) (2 ^ 32)) as [H0|]; [|done].
  destruct (Z.ltb_spec (len (sorted_hashes (allow rules) (exact_allow rules))) (2 ^ 32)) as [H1|]; [|done].
  destruct (Z.ltb_spec (len (sorted_hashes (important rules) [])) (2 ^ 32)) as [H2|]; [|done].
  destruct (Z.ltb_spec (len (allow_section rules)) (2 ^ 32)) as [H3|]; [|done].
  destruct (Z.ltb_spec (len (block_section rules)) (2 ^ 32)) as [H4|]; [|done].
  cbn [mbind option_bind].
  change (concat (to_le_bytes 8 <$> sorted_hashes (block rules) (exact_block rules) ++
    sorted_hashes (allow rules) (exact_allow rules) ++ sorted_hashes (important rules) []) ++
    allow_section rules ++ block_section rules) with (body rules).
  intros [= <-]. split; [reflexivity|]. by repeat constructor.
Qed.

(** The fields read back from the header. *)
Lemma header_fields c0 c1 c2 al sum bl rest :
  Forall (λ n, 0 <= n < 2 ^ 32) [c0; c1; c2; al; bl] → is_u64 sum →
  let bs := header c0 c1 c2 al sum bl ++ rest in
  slice 0 4 bs = MAGIC ∧ read_u32 bs 4 = 2 ∧ read_u32 bs 8 = c0 ∧ read_u32 bs 12 = c1 ∧
  read_u32 bs 16 = c2 ∧ read_u32 bs 20 = al ∧ from_le_bytes (slice 24 32 bs) = sum ∧
  read_u32 bs 32 = bl ∧ read_u32 bs 36 = 0 ∧ drop HEADER_LEN bs = rest ∧
  length bs = (40 + length rest)%nat.
Proof.
  intros Hc Hs. cbv zeta. do 5 (apply Forall_cons in Hc as [? Hc]).
  assert (∀ v, 0 <= v < 2 ^ 32 → from_le_bytes (to_le_bytes 4 v) = v) as H4
    by (intros v Hv; apply from_to_le; change (256 ^ Z.of_nat 4) with (2 ^ 32); lia).
  assert (from_le_bytes (to_le_bytes 8 sum) = sum) as H8
    by (apply from_to_le; change (256 ^ Z.of_nat 8) with (2 ^ 64); unfold is_u64, U64_MAX in Hs; lia).
  split_and!; try reflexivity; [by apply H4..|exact H8|by apply H4].
Qed.

(** The set that the encoded file loads to. *)
Definition loaded (rules : DomainRules) (bs : bytes) : DomainSet :=
  let n0 := length (sorted_hashes (block rules) (exact_block rules)) in
  let n1 := (n0 + length (sorted_hashes (allow rules) (exact_allow rules)))%nat in
  let n2 := (n1 + length (sorted_hashes (important rules) []))%nat in
  {| ds_data := bs; ds_hashes_at := HEADER_LEN; ds_block := (0, n0); ds_allow := (n0, n1);
     ds_important := (n1, n2);
     ds_wildcard_allow :=
       wildcard_PatternSet_new (patterns_of (wildcard_allow rules) (exact_wildcard_allow rules));
     ds_wildcard_block :=
       wildcard_PatternSet_new (patterns_of (wildcard_block rules) (exact_wildcard_block rules)) |}%nat.

Lemma slice_drop {A} a b n (l : list A) : slice (n + a) (n + b) l = slice a b (drop n l).
Proof. unfold slice. rewrite drop_drop. f_equal. lia. Qed.

Lemma slice_app_l {A} (l k : list A) : slice 0 (length l) (l ++ k) = l.
Proof. unfold slice. rewrite drop_0, Nat.sub_0_r. apply take_app_length. Qed.

Lemma loaded_hashes rules bs : drop HEADER_LEN bs = body rules →
  hashes (loaded rules bs) = all_hashes rules.
Proof.
  intros Hb. unfold hashes, loaded. cbn [ds_important ds_hashes_at ds_data snd].
  assert (length (sorted_hashes (block rules) (exact_block rules)) +
    length (sorted_hashes (allow rules) (exact_allow rules)) +
    length (sorted_hashes (important rules) []) = length (all_hashes rules))%nat as ->
    by (unfold all_hashes; rewrite !length_app; lia).
  rewrite <-(Nat.add_0_r HEADER_LEN) at 1. rewrite slice_drop, Hb. unfold body.
  rewrite <-length_concat_le, slice_app_l.
  rewrite <-(app_nil_r (concat _)). apply chunks8_concat.
  unfold all_hashes. rewrite !Forall_app. split_and!; apply sorted_hashes_u64.
Qed.

Lemma slice_middle {A} (l1 l2 l3 : list A) :
  slice (length l1) (length l1 + length l2) (l1 ++ l2 ++ l3) = l2.
Proof.
  rewrite <-(Nat.add_0_r (length l1)) at 1. rewrite slice_drop, drop_app_length. apply slice_app_l.
Qed.

Lemma loaded_sections rules bs : drop HEADER_LEN bs = body rules →
  hash_section (loaded rules bs) (ds_block (loaded rules bs)) =
    sorted_hashes (block rules) (exact_block rules) ∧
  hash_section (loaded rules bs) (ds_allow (loaded rules bs)) =
    sorted_hashes (allow rules) (exact_allow rules) ∧
  hash_section (loaded rules bs) (ds_important (loaded rules bs)) = sorted_hashes (important rules) [].
Proof.
  intros Hb. unfold hash_section. rewrite (loaded_hashes _ _ Hb). unfold all_hashes, loaded. simpl.
  split_and!.
  - apply slice_app_l.
  - apply slice_middle.
  - rewrite app_assoc, <-length_app. rewrite <-(app_nil_r (_ ++ sorted_hashes (important rules) [])).
    rewrite <-app_assoc. apply slice_middle.
Qed.

Lemma loaded_increasing rules bs : drop HEADER_LEN bs = body rules →
  forallb (λ range, increasing (hash_section (loaded rules bs) range))
    [ds_block (loaded rules bs); ds_allow (loaded rules bs); ds_important (loaded rules bs)] = true.
Proof.
  intros (S0 & S1 & S2)%loaded_sections. cbn [forallb]. rewrite S0, S1, S2.
  by rewrite !(proj2 (increasing_sorted _)) by apply sorted_hashes_sorted.
Qed.

(** A written file loads, to exactly the written sections. *)
Lemma new_encode rules bs : rules_ok rules → DomainRules_encode rules = Some bs →
  DomainSet_new bs = Ok (loaded rules bs) ∧ drop HEADER_LEN bs = body rules.
Proof.
  intros Hok [Hbs Hlt]%encode_shape.
  assert (Forall (λ n, 0 <= n < 2 ^ 32)
    [len (sorted_hashes (block rules) (exact_block rules));
     len (sorted_hashes (allow rules) (exact_allow rules));
     len (sorted_hashes (important rules) []); len (allow_section rules); len (block_section rules)]) as Hc.
  { unfold len in *. repeat (apply Forall_cons in Hlt as [? Hlt]). repeat constructor; lia. }
  pose proof (header_fields _ _ _ _ (checksum (body rules)) _ (body rules) Hc (checksum_u64 _)) as Hf.
  cbv zeta in Hf. rewrite <-Hbs in Hf.
  destruct Hf as (Hm & Hv & Hc0 & Hc1 & Hc2 & Hal & Hsum & Hbl & Hpad & Hbody & Hlen).
  split; [|done]. unfold DomainSet_new, read_header.
  rewrite Hm, Hv, Hc0, Hc1, Hc2, Hal, Hsum, Hbl, Hpad, Hlen.
  assert (length (body rules) = (8 * length (all_hashes rules) + length (allow_section rules) +
    length (block_section rules))%nat) as Hbodylen
    by (unfold body; rewrite !length_app, length_concat_le; lia).
  rewrite (proj2 (Nat.ltb_ge _ HEADER_LEN_V1)) by (unfold HEADER_LEN_V1; lia).
  rewrite (proj2 (Nat.ltb_ge _ HEADER_LEN)) by (unfold HEADER_LEN; lia).
  rewrite bool_decide_eq_true_2 by done. cbn [negb].
  change (negb ((OLDEST_VERSION <=? 2) && (2 <=? VERSION))) with false. cbv iota zeta.
  change (2 =? 1) with false. rewrite Z.eqb_refl. cbn [negb]. cbv iota.
  match goal with |- context [len bs =? ?e] => assert (len bs = e) as Hexp end.
  { unfold len. rewrite Hlen, Hbodylen. unfold all_hashes. rewrite !length_app. unfold HEADER_LEN. lia. }
  rewrite <-Hexp, Z.eqb_refl. cbn [negb]. cbv iota. rewrite Hbody, Z.eqb_refl. cbn [negb]. cbv iota.
  unfold len. rewrite !Nat2Z.id. cbn [fst snd].
  assert (length (sorted_hashes (block rules) (exact_block rules)) +
    length (sorted_hashes (allow rules) (exact_allow rules)) +
    length (sorted_hashes (important rules) []) = length (all_hashes rules))%nat as Hall
    by (unfold all_hashes; rewrite !length_app; lia).
  rewrite Hall, <-Nat.add_assoc, slice_drop, <-drop_drop, Hbody.
  unfold body at 1 2. rewrite <-length_concat_le at 1 2. rewrite slice_middle.
  rewrite app_assoc. rewrite <-length_concat_le, <-length_app, drop_app_length.
  destruct Hok as [_ Hpat]. rewrite app_assoc in Hpat. apply Forall_app in Hpat as [Hpa Hpb].
  unfold allow_section, block_section. rewrite (parse_section _ _ Hpa), (parse_section _ _ Hpb).
  rewrite <-Hall. fold (loaded rules bs).
  match goal with |- (if ?c then _ else _) = _ =>
    change c with (forallb (λ range, increasing (hash_section (loaded rules bs) range))
      [ds_block (loaded rules bs); ds_allow (loaded rules bs); ds_important (loaded rules bs)]) end.
  by rewrite (loaded_increasing _ _ Hbody).
Qed.

(** ** Looking up *)

Lemma contains_hash self range h : Sorted Z.lt (hash_section self range) →
  DomainSet_contains self range h = true ↔ h ∈ hash_section self range.
Proof.
  intros Hs. unfold DomainSet_contains. destruct (binary_search _ h) as [i|] eqn:E.
  - apply binary_search_spec in E; [|done]. split; [|done]. intros _. by eapply list_elem_of_lookup_2.
  - split; [done|]. intros (i & Hi)%list_elem_of_lookup. by apply binary_search_spec in Hi; [congruence|].
Qed.

Lemma contains_empty self range h : range_is_empty range = true →
  DomainSet_contains self range h = false.
Proof.
  unfold range_is_empty, DomainSet_contains, hash_section, slice. intros Hr%Nat.leb_le.
  replace (range.2 - range.1)%nat with 0%nat by lia. done.
Qed.

(** The emptiness test before a search changes nothing. *)
Lemma guard_empty self range (P : bool) :
  (P = true → ∃ h, DomainSet_contains self range h = true) →
  negb (range_is_empty range) && P = P.
Proof.
  intros HP. destruct (range_is_empty range) eqn:He; [|done]. destruct P; [|done].
  destruct HP as [h Hh]; [done|]. by rewrite contains_empty in Hh.
Qed.

Lemma split_once_spec c s :
  match split_once c s with
  | Some (a, b) => s = a ++ c :: b ∧ (c ∉ a) ∧ after_each c s = b :: after_each c b
  | None => (c ∉ s) ∧ after_each c s = []
  end.
Proof.
  induction s as [|x s IH]; simpl; [split; [set_solver|done]|].
  destruct (Z.eqb_spec x c) as [->|Hne]; [split_and!; [done|set_solver|done]|].
  destruct (split_once c s) as [[a b]|].
  - destruct IH as (-> & Hni & Ha). split_and!; [done|set_solver|done].
  - destruct IH as [Hni Ha]. split; [set_solver|done].
Qed.

(** The names a lookup tries: the host and its parents that have a dot. *)
Lemma lookup_names_spec n host c : (length (after_each DOT host) ≤ n)%nat →
  c ∈ lookup_names n host ↔ contains DOT c = true ∧ (c = host ∨ c ∈ after_each DOT host).
Proof.
  revert host. induction n as [|n IH]; intros host Hn; simpl;
    pose proof (split_once_spec DOT host) as Hs; destruct (split_once DOT host) as [[a b]|].
  - destruct Hs as (_ & _ & Ha). rewrite Ha in Hn. simpl in Hn. lia.
  - destruct Hs as [Hni ->]. split; [set_solver|]. intros [Hc%contains_spec [->|?]]; [done|set_solver].
  - destruct Hs as (-> & Hni & Ha). rewrite Ha in *. simpl in Hn. rewrite elem_of_cons, IH by lia.
    rewrite elem_of_cons. split.
    + intros [->|[Hc Hor]]; [|tauto]. split; [|by left]. apply contains_spec. set_solver.
    + intros [Hc [->|Hor]]; [by left|right]. auto.
  - destruct Hs as [Hni ->]. split; [set_solver|]. intros [Hc%contains_spec [->|?]]; [done|set_solver].
Qed.

Lemma glob_match_lower g t : glob_match g (to_ascii_lowercase t) ↔ glob_match g t.
Proof.
  revert t. induction g as [|b g IH]; intros t.
  { by rewrite !glob_match_nil_glob, to_lower_nil_iff. }
  destruct (decide (b = STAR)) as [->|Hb].
  - rewrite !glob_match_star, length_to_lower. unfold to_ascii_lowercase in *.
    setoid_rewrite <-fmap_drop. by setoid_rewrite IH.
  - rewrite !glob_match_byte by done. destruct t as [|x t]; [naive_solver|]. csimpl. split.
    + intros (y & t' & [= <- <-] & -> & Hm). exists x, t. rewrite lower1_idem. split_and!; [done|done|].
      by apply IH.
    + intros (y & t' & [= <- <-] & -> & Hm). eexists _, _. split; [done|]. rewrite lower1_idem.
      split; [done|]. by apply IH.
Qed.

Lemma Pattern_matches_lower p host :
  Pattern_matches p (to_ascii_lowercase host) = Pattern_matches p host.
Proof.
  apply eq_true_iff_eq. rewrite !Pattern_matches_spec, glob_match_lower. unfold parents.
  rewrite after_each_to_lower by done. setoid_rewrite list_elem_of_fmap. split.
  - intros [?|(? & name & (n & -> & Hn) & Hm)]; [by left|right]. rewrite glob_match_lower in Hm. eauto.
  - intros [?|(? & name & Hn & Hm)]; [by left|right]. split; [done|].
    exists (to_ascii_lowercase name). rewrite glob_match_lower. eauto.
Qed.

Lemma patterns_of_stored parents host :
  Forall (λ p, is_valid_pattern p = true) (parents ++ host) →
  Forall stored_bytes (patterns_of parents host).
Proof.
  assert (∀ p, is_valid_pattern p = true → Forall is_u8 p) as Hu.
  { intros p Hp%valid_pattern_bytes. eapply Forall_impl; [done|]. intros b.
    unfold pattern_byte, is_ascii_lowercase, is_ascii_digit, is_u8, U8_MAX. lia. }
  intros [Hp Hh]%Forall_app. unfold patterns_of. apply Forall_app.
  split; apply Forall_fmap; (eapply Forall_impl; [eassumption|]); intros p Hv; by apply Hu.
Qed.

Section Lookup.
Context (self : DomainSet) (range : nat * nat) (names exact : list bytes) (host : bytes).
Context (Hsec : hash_section self range = sorted_hashes names exact).
Context (Hnames : Forall (λ n, normalize_name n = Some n) names).
Context (Hexact : Forall (λ n, normalize_name n = Some n) exact).
Context (Hbar : BAR ∉ host) (Hdots : (length (after_each DOT host) ≤ 127)%nat).
Context (Hfree : ∀ k q, k ∈ keys names exact → q ∈ queries host → fnv1a64 q = fnv1a64 k →
  to_ascii_lowercase q = k).
#[local] Set Default Proof Using "Type*".

Lemma section_contains h :
  DomainSet_contains self range h = true ↔ ∃ k, k ∈ keys names exact ∧ fnv1a64 k = h.
Proof.
  rewrite contains_hash by (rewrite Hsec; apply sorted_hashes_sorted).
  by rewrite Hsec, sorted_hashes_elem.
Qed.

Lemma lower_no_bar s : BAR ∉ s → BAR ∉ to_ascii_lowercase s.
Proof using Type.
  unfold to_ascii_lowercase. rewrite list_elem_of_fmap. intros Hs (b & Hb & Hin).
  symmetry in Hb. by apply lower1_eq_iff in Hb as ->.
Qed.

Lemma section_covered :
  negb (range_is_empty range) &&
    existsb (λ h, DomainSet_contains self range h) (fnv1a64 <$> lookup_names 127 host) =
  covered_by names (to_ascii_lowercase host).
Proof.
  rewrite (guard_empty self range) by (intros (h & _ & Hh)%existsb_Exists; eauto).
  apply eq_true_iff_eq. rewrite existsb_Exists, covered_by_spec. setoid_rewrite section_contains. split.
  - intros (h & (c & -> & Hc)%list_elem_of_fmap & k & Hk & Hh).
    assert (to_ascii_lowercase c = k) as <- by (apply Hfree; [done|by apply elem_of_cons; right|done]).
    apply lookup_names_spec in Hc as [Hdot Hc]; [|done].
    assert (to_ascii_lowercase c ∈ names) as Hin.
    { apply elem_of_app in Hk as [?|(n & Hn & _)%list_elem_of_fmap]; [done|exfalso].
      assert (BAR ∉ c) as Hnb by (destruct Hc as [->|(p & ->)%elem_of_after_each]; set_solver).
      apply lower_no_bar in Hnb. apply Hnb. rewrite Hn. by left. }
    eexists. split; [done|]. destruct Hc as [->|(p & ->)%elem_of_after_each]; [by left|right].
    exists (to_ascii_lowercase p). rewrite to_lower_app. done.
  - intros (n & Hn & Hor).
    assert (∃ c, (c = host ∨ c ∈ after_each DOT host) ∧ to_ascii_lowercase c = n) as (c & Hc & Hl).
    { destruct Hor as [<-|Hu]; [eauto|]. apply elem_of_after_each in Hu.
      rewrite after_each_to_lower in Hu by done. apply list_elem_of_fmap in Hu as (c & -> & Hc). eauto. }
    exists (fnv1a64 c). split; [|exists n; split; [by apply elem_of_app; left|by rewrite <-Hl, fnv_lower]].
    apply list_elem_of_fmap_2, lookup_names_spec; [done|]. split; [|done].
    rewrite Forall_forall in Hnames. apply Hnames, normalize_name_dot in Hn.
    apply contains_spec. rewrite <-Hl in Hn. apply contains_spec, list_elem_of_fmap in Hn as (b & Hb & Hin).
    symmetry in Hb. by apply lower1_eq_iff in Hb as ->.
Qed.

Lemma section_exactly :
  negb (range_is_empty range) && DomainSet_contains self range (exact_hash host) =
  bool_decide (to_ascii_lowercase host ∈ exact).
Proof.
  rewrite (guard_empty self range) by eauto.
  apply eq_true_iff_eq. rewrite section_contains, bool_decide_eq_true, exact_hash_tagged. split.
  - intros (k & Hk & Hh).
    assert (to_ascii_lowercase (BAR :: host) = k) as Hl by (apply Hfree; [done|by left|done]).
    csimpl in Hl. change (lower1 BAR) with BAR in Hl. subst k.
    apply elem_of_app in Hk as [Hk|(n & [= ->] & Hn)%list_elem_of_fmap]; [exfalso|done].
    rewrite Forall_forall in Hnames. apply Hnames, normalize_no_bar in Hk. apply Hk. by left.
  - intros Hin. exists (BAR :: to_ascii_lowercase host). split.
    + apply elem_of_app. right. by apply list_elem_of_fmap_2.
    + by rewrite <-(fnv_lower (BAR :: host)).
Qed.
End Lookup.

(** The hashes of a written file decide as the rules by name. *)
Lemma is_blocked_loaded rules bs host : rules_ok rules → drop HEADER_LEN bs = body rules →
  Forall is_u8 host → (BAR ∉ host) → (length (after_each DOT (strip_suffix_or [DOT] host)) ≤ 127)%nat →
  no_collision rules host = true →
  is_blocked (loaded rules bs) host = rules_blocked rules host.
Proof.
  intros [Hn Hp] Hb Hu Hbar Hd Hfree. unfold is_blocked, rules_blocked.
  set (h := strip_suffix_or [DOT] host) in *.
  assert (Forall is_u8 h ∧ BAR ∉ h) as [Huh Hbh].
  { unfold h. destruct (strip_suffix_or_cases [DOT] host) as [(r & Hr & ->)|[_ ->]]; [|done].
    subst host. apply Forall_app in Hu as [Hu _]. set_solver. }
  assert (∀ k q, k ∈ keys (block rules) (exact_block rules) ++ keys (allow rules) (exact_allow rules) ++
     keys (important rules) [] → q ∈ queries h → fnv1a64 q = fnv1a64 k → to_ascii_lowercase q = k) as Hcol.
  { unfold no_collision in Hfree. fold h in Hfree. apply forallb_Forall in Hfree.
    rewrite Forall_forall in Hfree. intros k q Hk Hq Hh. specialize (Hfree k Hk).
    apply forallb_Forall in Hfree. rewrite Forall_forall in Hfree. specialize (Hfree q Hq).
    rewrite Hh, Z.eqb_refl in Hfree. by apply bool_decide_eq_true in Hfree. }
  rewrite !Forall_app in Hn. destruct Hn as (Hni & Hna & Hnb & Hnea & Hneb).
  destruct (loaded_sections rules bs Hb) as (S0 & S1 & S2).
  rewrite (section_covered _ _ _ _ _ S2), (section_exactly _ _ _ _ _ S1), (section_covered _ _ _ _ _ S1),
    (section_exactly _ _ _ _ _ S0), (section_covered _ _ _ _ _ S0);
    try done; try (intros; apply Hcol; [set_solver|done..]).
  assert (bool_decide (fnv1a64 <$> lookup_names 127 h = []) =
    negb (contains DOT (to_ascii_lowercase h))) as ->.
  { apply eq_true_iff_eq. rewrite bool_decide_eq_true, negb_true_iff, contains_false. 
    pose proof (split_once_spec DOT h) as Hs. cbn [lookup_names]. destruct (split_once DOT h) as [[a b]|].
    - split; [done|]. destruct Hs as (-> & _ & _). intros Hno. exfalso. apply Hno.
      apply list_elem_of_fmap. exists DOT. split; [done|set_solver].
    - split; [|done]. intros _ Hin. apply list_elem_of_fmap in Hin as (c & Hc & Hin). symmetry in Hc.
      apply lower1_eq_iff in Hc as ->; [|done..]. by apply Hs. }
  rewrite app_assoc in Hp. apply Forall_app in Hp as [Hpa Hpb].
  cbn [loaded ds_wildcard_block ds_wildcard_allow].
  rewrite !wildcard_matches_scan by eauto using patterns_of_stored.
  assert (∀ l, existsb (λ p, Pattern_matches p (to_ascii_lowercase h)) l =
    existsb (λ p, Pattern_matches p h) l) as Hlow.
  { intros l. apply existsb_ext_in. intros p _. apply Pattern_matches_lower. }
  by rewrite !Hlow.
Qed.

(** ** Loading any file *)

(** Ranges within the hashes, one after the other, each strictly increasing; the hashes and
    the sections within the file. *)
Definition DomainSet_wf (ds : DomainSet) : Prop :=
  (ds_block ds).1 = 0%nat ∧ (ds_block ds).2 = (ds_allow ds).1 ∧ (ds_allow ds).2 = (ds_important ds).1 ∧
  ((ds_block ds).1 ≤ (ds_block ds).2 ≤ (ds_allow ds).2)%nat ∧
  ((ds_allow ds).2 ≤ (ds_important ds).2)%nat ∧
  (ds_hashes_at ds + 8 * (ds_important ds).2 ≤ length (ds_data ds))%nat ∧
  Forall (λ r, Sorted Z.lt (hash_section ds r)) [ds_block ds; ds_allow ds; ds_important ds].

Lemma from_le_nonneg l : Forall is_u8 l → 0 <= from_le_bytes l.
Proof. induction 1 as [|b l Hb _ IH]; simpl; unfold is_u8 in *; lia. Qed.

Lemma read_u32_nonneg bs at_ : Forall is_u8 bs → 0 <= read_u32 bs at_.
Proof. intros Hb. apply from_le_nonneg. unfold slice. by apply Forall_take, Forall_drop. Qed.

Lemma read_header_len bs v hl bl : read_header bs v = Ok (hl, bl) → Forall is_u8 bs → 0 <= bl.
Proof.
  unfold read_header. repeat case_match; try done; intros [= <- <-] Hb; [done|].
  by apply read_u32_nonneg.
Qed.

Lemma DomainSet_new_wf bs ds : Forall is_u8 bs → DomainSet_new bs = Ok ds →
  DomainSet_wf ds ∧ ds_data ds = bs.
Proof.
  intros Hb. unfold DomainSet_new. do 3 (case_match; [done|]).
  destruct (read_header bs (read_u32 bs 4)) as [[hl bl]|] eqn:Hh; [|done].
  pose proof (read_header_len _ _ _ _ Hh Hb) as Hbl.
  match goal with |- context [len bs =? ?e] => destruct (Z.eqb_spec (len bs) e) as [He|] end; [|done].
  cbn [negb]. case_match; [done|].
  destruct (DomainSet_parse_patterns _) as [wa|]; [|done].
  destruct (DomainSet_parse_patterns _) as [wb|]; [|done].
  match goal with |- (if ?c then _ else _) = _ → _ => destruct c eqn:Hinc end; [|done].
  intros [= <-]. split; [|done]. apply forallb_Forall in Hinc.
  pose proof (read_u32_nonneg bs 8 Hb). pose proof (read_u32_nonneg bs 12 Hb).
  pose proof (read_u32_nonneg bs 16 Hb). pose proof (read_u32_nonneg bs 20 Hb).
  unfold DomainSet_wf. cbn [ds_block ds_allow ds_important ds_hashes_at ds_data fst snd].
  split_and!; try lia.
  - unfold len in He. lia.
  - eapply Forall_impl; [exact Hinc|]. intros r Hr. by apply increasing_sorted.
Qed.
