(* ===== verification/Detect.v ===== *)
(** * Telling a hosts list from an adblock list ([filter/src/detect.rs]), and request types
      ([filter/src/request_type.rs]) *)
From S2P Require Import Prelude RustStr Collections Net HostPattern Exempt DomainRules.
From S2P Require Import RulesFacts.

(** ** [detect.rs] *)

(** An address, or an IPv6 address with a zone. *)
Definition is_address (field : bytes) : bool :=
  match split_once 37 field with
  | Some (address, _) => bool_decide (is_Some (Ipv6Addr_parse address))
  | None => bool_decide (is_Some (IpAddr_parse field))
  end.

Definition detect_label_ok (label : bytes) : bool :=
  (len label <=? 63) &&
  match label with b :: _ => is_ascii_alphanumeric b | [] => false end &&
  forallb (λ b, is_ascii_alphanumeric b || (b =? 45) || (b =? 95)) label.
Definition is_host_name (field : bytes) : bool :=
  let name := strip_suffix_or [DOT] field in
  if 253 <? len name then false
  else
    let labels := split_on DOT name in
    if negb (forallb detect_label_ok labels) then false
    else (2 <=? length labels)%nat && negb (forallb is_ascii_digit (default [] (last labels))).

Definition is_hosts_line (line : bytes) : bool :=
  match split_whitespace line with
  | [] => false
  | first :: rest =>
      let second := head rest in
      if is_address first
      then match second with Some field => negb (starts_with [HASH] field) | None => false end
      else is_host_name first &&
           match second with Some field => starts_with [HASH] field | None => true end
  end.

(** The loop: the number of hosts lines and of other rule lines. *)
Definition count_line (acc : Z * Z) (line : bytes) : Z * Z :=
  let line := trim line in
  if bool_decide (line = []) || starts_with (lit "!") line || starts_with [HASH] line ||
     starts_with (lit "[") line
  then acc
  else if is_hosts_line line then (acc.1 + 1, acc.2) else (acc.1, acc.2 + 1).
Definition detect_format (text : bytes) : option ListFormat :=
  let '(hosts, other) := foldl count_line (0, 0) (lines (strip_bom text)) in
  match hosts ?= other with
  | Gt => Some Hosts
  | Lt => Some Adblock
  | Eq => None
  end.

(** ** [request_type.rs] *)

Definition FETCH_DEST : list (string * string) := [
  ("audio", "media"); ("audioworklet", "script"); ("document", "document"); ("embed", "object");
  ("empty", "xmlhttprequest"); ("fencedframe", "sub_frame"); ("font", "font"); ("frame", "sub_frame");
  ("iframe", "sub_frame"); ("image", "image"); ("json", "xmlhttprequest"); ("manifest", "other");
  ("object", "object"); ("paintworklet", "script"); ("report", "ping"); ("script", "script");
  ("serviceworker", "script"); ("sharedworker", "script"); ("style", "stylesheet"); ("track", "media");
  ("video", "media"); ("webidentity", "other"); ("worker", "script"); ("xslt", "other")]%string.

Definition from_fetch_dest (dest : bytes) : option string :=
  let dest := trim dest in
  snd <$> head (vec_retain (λ e, eq_ignore_ascii_case (lit e.1) dest) FETCH_DEST).

Definition is_one_of (s : bytes) (l : list string) : bool := existsb (λ t, bool_decide (s = lit t)) l.

Definition from_accept (accept : bytes) : option string :=
  let first := default [] (head (split_on 44 accept)) in
  let first := trim (default [] (head (split_on 59 first))) in
  let first := to_ascii_lowercase first in
  if is_one_of first ["text/html"; "application/xhtml+xml"]%string then Some "document"%string
  else if is_one_of first ["text/css"]%string then Some "stylesheet"%string
  else if is_one_of first ["application/javascript"; "text/javascript"; "application/ecmascript";
                           "text/ecmascript"]%string then Some "script"%string
  else if is_one_of first ["application/json"]%string then Some "xmlhttprequest"%string
  else if starts_with (lit "image/") first then Some "image"%string
  else if starts_with (lit "font/") first || starts_with (lit "application/font-") first
  then Some "font"%string
  else if starts_with (lit "video/") first || starts_with (lit "audio/") first then Some "media"%string
  else if ends_with (lit "+json") first then Some "xmlhttprequest"%string
  else None.

(** [path.split(['?', '#']).next()]. *)
Fixpoint before_query (path : bytes) : bytes :=
  match path with
  | [] => []
  | b :: path' => if (b =? 63) || (b =? HASH) then [] else b :: before_query path'
  end.
Definition from_extension (path : bytes) : string :=
  let path := before_query path in
  let file := default [] (last (split_on 47 path)) in
  match rsplit_once DOT file with
  | None => "other"
  | Some (_, ext) =>
      let ext := to_ascii_lowercase ext in
      if is_one_of ext ["js"; "mjs"; "cjs"] then "script"
      else if is_one_of ext ["css"] then "stylesheet"
      else if is_one_of ext ["png"; "jpg"; "jpeg"; "gif"; "webp"; "avif"; "svg"; "ico"; "bmp"; "apng";
                             "heic"; "jxl"] then "image"
      else if is_one_of ext ["woff"; "woff2"; "ttf"; "otf"; "eot"] then "font"
      else if is_one_of ext ["mp4"; "m4v"; "webm"; "mov"; "mp3"; "m4a"; "aac"; "ogg"; "oga"; "opus"; "wav";
                             "flac"; "m3u8"; "mpd"; "m4s"] then "media"
      else if is_one_of ext ["json"] then "xmlhttprequest"
      else "other"
  end%string.

Definition request_type (sec_fetch_dest accept : option bytes) (path : bytes) : string :=
  match d ← sec_fetch_dest; from_fetch_dest d with
  | Some kind => kind
  | None => match a ← accept; from_accept a with
            | Some kind => kind
            | None => from_extension path
            end
  end.

Definition source_url (url : bytes) (request_type : string) (referer origin : option bytes) : bytes :=
  if bool_decide (request_type = "document"%string) then url
  else
    let referer := r ← referer; if bool_decide (r = []) then None else Some r in
    let origin := o ← origin;
      if bool_decide (o = []) || bool_decide (o = lit "null") then None else Some o in
    default [] (or_else referer origin).

Example request_types :
  [request_type (Some (lit "Image ")) None (lit "/a.js"); request_type (Some (lit "future")) (Some (lit "text/CSS;q=1,*/*")) [];
   request_type None (Some (lit "*/*")) (lit "/x/app.JS?v=a.png"); request_type None None (lit "/dir.d/file")] =
  ["image"; "stylesheet"; "script"; "other"]%string.
Proof. vm_compute. reflexivity. Qed.
Example formats :
  detect_format <$> [lit "0.0.0.0 a.b # x" ++ [NL] ++ lit "c.d" ++ [NL] ++ lit "||e.f^"; lit "# c"; lit "::1%lo0 local"] =
  [Some Hosts; None; Some Hosts].
Proof. vm_compute. reflexivity. Qed.

(** * Lemmas *)

(** Every host name that detection accepts, the hosts parser reads. *)
Lemma is_host_name_normalizes field : is_host_name field = true → is_Some (normalize_name field).
Proof.
  unfold is_host_name, normalize_name. set (name := strip_suffix_or [DOT] field).
  destruct (253 <? len name); [done|]. cbn [orb].
  destruct (forallb detect_label_ok (split_on DOT name)) eqn:Hl; [|done]. cbn [negb].
  intros [H2%Nat.leb_le Hd%negb_true_iff]%andb_prop.
  assert (contains DOT name = true) as ->.
  { destruct (contains DOT name) eqn:Hc; [done|]. apply contains_false, split_on_single in Hc.
    rewrite Hc in H2. simpl in H2. lia. }
  assert (forallb name_label_ok (split_on DOT name) = true) as ->.
  { apply forallb_Forall in Hl. apply forallb_Forall. eapply Forall_impl; [exact Hl|]. intros l Hok.
    unfold detect_label_ok in Hok. apply andb_prop in Hok as [[H63 Hf]%andb_prop Hb].
    unfold name_label_ok. destruct l as [|b l]; [done|]. by rewrite H63. }
  simpl. rewrite Hd. by eexists.
Qed.
