(* ===== verification/FilterProps.v ===== *)
(** * What the filter crate guarantees

    The theorems about wildcard patterns, the pattern index, list parsing and the DNS
    blocklist file, each with a run of the definitions at a concrete input. *)
From S2P Require Import Prelude RustStr Collections Net HostPattern Glob Trie Wildcard Exempt.
From S2P Require Import DomainRules RulesFacts DomainSet DomainSetFacts Detect.

(** ** Wildcard patterns *)

(** The backtracking loop of [glob_matches] ends within (text + 1) * (glob + 2) + 1
    iterations for every glob and text, and its answer is the meaning of the glob: a star is
    any run of bytes, every other byte is itself without case. *)
Theorem glob_matches_exact gl text : ∃ b,
  glob_loop (glob_fuel gl text) gl text 0 0 None = Some b ∧ glob_matches gl text = b ∧
  (b = true ↔ glob_match gl text).
Proof.
  unfold glob_matches. destruct (glob_loop_spec gl text) as (b & -> & Hb). by exists b.
Qed.

(** The arrays that [Trie::new] builds level by level, walked byte by byte with a binary
    search per node, give what comparing every stored string with the text gives: whether [f]
    holds for an entry whose string starts the text. *)
Theorem trie_finds_prefixes entries text f :
  Forall (λ e : entry, e.1 ≠ [] ∧ Forall is_u8 e.1) entries → Forall is_u8 text →
  Trie_any (Trie_new entries) text f = entries_any entries text f.
Proof. apply Trie_any_spec. Qed.

Lemma trie_finds_prefixes_witness :
  Trie_any (Trie_new example_entries) (lit "abd") (λ id, id =? 3)%nat =
  entries_any example_entries (lit "abd") (λ id, id =? 3)%nat.
Proof.
  apply (trie_finds_prefixes example_entries (lit "abd") (λ id, id =? 3)%nat).
  - unfold example_entries. repeat (apply Forall_cons; split; [split; [discriminate|]|]);
      repeat constructor; unfold is_u8, U8_MAX, byte_of_ascii; simpl; lia.
  - repeat constructor; unfold is_u8, U8_MAX, byte_of_ascii; simpl; lia.
Defined.

(** The indexed lookup of wildcard patterns (tails in one trie, heads in another, the rest in
    a list) answers exactly as trying every pattern on the host and, for [||] patterns, its
    parents. *)
Theorem wildcard_index_exact ps host : Forall stored_bytes ps → Forall is_u8 host →
  wildcard_PatternSet_matches (wildcard_PatternSet_new ps) host =
  existsb (λ p, Pattern_matches p host) ps.
Proof. apply wildcard_matches_scan. Qed.

Definition example_patterns : list Pattern :=
  [{| glob := lit "log*.test.example"; pattern_parents := true |};
   {| glob := lit "ads-*"; pattern_parents := false |};
   {| glob := lit "*track*"; pattern_parents := false |}].

Lemma wildcard_index_exact_witness :
  wildcard_PatternSet_matches (wildcard_PatternSet_new example_patterns) (lit "x.Log9.test.example") =
  existsb (λ p, Pattern_matches p (lit "x.Log9.test.example")) example_patterns.
Proof.
  apply (wildcard_index_exact example_patterns).
  - unfold example_patterns, stored_bytes.
    repeat constructor; unfold is_u8, U8_MAX, byte_of_ascii; simpl; lia.
  - repeat constructor; unfold is_u8, U8_MAX, byte_of_ascii; simpl; lia.
Defined.

(** ** Exempt hosts *)

(** A block of a name and its subdomains is found to cover an exempt host exactly when some
    exempt host is that name or under it. *)
Theorem covers_subtree_exact patterns name :
  covers_subtree (Exemption_new patterns) name = true ↔
  ∃ host, covers_host (Exemption_new patterns) host = true ∧ (host = name ∨ under host name).
Proof. apply covers_subtree_spec, Exemption_new_wf. Qed.

(** The rules of one list with an exemption. *)
Definition exempting (source : ListSource) (patterns : list bytes) : DomainRules :=
  parse_exempting [{| dns_source := source; dns_exempt := Some (Exemption_new patterns) |}].

Lemma exempting_rules source patterns k n host :
  covers_host (Exemption_new patterns) host = true →
  n ∈ finished_sets (foldl add_list Builder_default
    [{| dns_source := source; dns_exempt := Some (Exemption_new patterns) |}]) k →
  rule_blocks k n host = false.
Proof.
  intros Hc Hn%finished_sub. apply not_true_iff_false. intros Hb.
  destruct (add_lists_inv (λ k n, covers_exempt k n (Exemption_new patterns) = false)
    [{| dns_source := source; dns_exempt := Some (Exemption_new patterns) |}]) as [Hinv _].
  { intros l k' n' ->%list_elem_of_singleton _ He. exact He. }
  destruct (Hinv k n Hn) as [Hs He].
  rewrite (covers_exempt_complete _ _ _ _ Hs (Exemption_new_wf patterns) Hc Hb) in He. done.
Qed.

Lemma covered_by_exists names host : covered_by names host = true → ∃ n, n ∈ names ∧ covered_by [n] host = true.
Proof.
  intros (n & Hn & Hor)%covered_by_spec. exists n. split; [done|]. apply covered_by_spec.
  exists n. split; [by apply list_elem_of_singleton|done].
Qed.

(** Rules none of which blocks a host do not block it. *)
Lemma no_rule_no_block b host :
  (∀ k n, n ∈ finished_sets b k → rule_blocks k n (to_ascii_lowercase (strip_suffix_or [DOT] host)) = false) →
  rules_blocked (Builder_finish b) host = false.
Proof.
  unfold rules_blocked. set (h := to_ascii_lowercase _). intros Hno.
  unfold Builder_finish. fold (finished_sets b).
  cbn [important allow block exact_allow exact_block wildcard_allow exact_wildcard_allow wildcard_block
    exact_wildcard_block].
  destruct (contains DOT h); [|done]. cbn [negb].
  assert (∀ k, covered_by (without_redundant_children (finished_sets b k)) h = true →
    ∃ n, n ∈ finished_sets b k ∧ covered_by [n] h = true) as Hcov.
  { intros k. rewrite without_redundant_covers. intros (n & Hn%elem_of_sorted & Hx)%covered_by_exists. eauto. }
  destruct (covered_by (without_redundant_children (finished_sets b Important)) h) eqn:Hi.
  { apply Hcov in Hi as (n & Hn & Hx). by rewrite (Hno Important n Hn : covered_by _ _ = false) in Hx. }
  case_match; [done|]. apply andb_false_iff. left. apply orb_false_iff. split; [apply orb_false_iff; split|].
  - apply bool_decide_eq_false. intros Hin%elem_of_sorted.
    apply (Hno ExactBlock) in Hin. simpl in Hin. by apply bool_decide_eq_false in Hin.
  - apply not_true_iff_false. intros (n & Hn & Hx)%Hcov. by rewrite (Hno Block n Hn : covered_by _ _ = false) in Hx.
  - apply not_true_iff_false. unfold patterns_of. rewrite existsb_app, orb_true_iff, !existsb_Exists.
    intros [(p & (n & -> & Hn%elem_of_sorted)%list_elem_of_fmap & Hm)|
            (p & (n & -> & Hn%elem_of_sorted)%list_elem_of_fmap & Hm)].
    + by rewrite (Hno WildcardBlock n Hn : Pattern_matches _ _ = false) in Hm.
    + by rewrite (Hno ExactWildcardBlock n Hn : Pattern_matches _ _ = false) in Hm.
Qed.

(** A list parsed with an exemption never blocks an exempt host, whatever the list says: not
    by a block of the host or a parent, not as [$important], not by a one-host block and not
    by any wildcard pattern. *)
Theorem exempt_host_never_blocked source patterns host :
  Exemption_covers (Exemption_new patterns) host = true →
  rules_blocked (exempting source patterns) host = false.
Proof. intros Hc. apply no_rule_no_block. intros k n. exact (exempting_rules source patterns k n _ Hc). Qed.

Definition greedy_list : ListSource :=
  {| source_name := []; source_format := Adblock;
     source_text := join NL [lit "||example^"; lit "||bank.example^$important"; lit "||*.bank.example^";
       lit "|api.bank.example^"; lit "||other.test^"] |}.

Lemma exempt_host_never_blocked_witness :
  rules_blocked (exempting greedy_list [lit "*.bank.example"]) (lit "API.bank.example") = false.
Proof.
  apply (exempt_host_never_blocked greedy_list [lit "*.bank.example"] (lit "API.bank.example")).
  vm_compute. reflexivity.
Defined.

(** ** Parsed rules *)

Definition all_patterns (rules : DomainRules) : list bytes :=
  wildcard_allow rules ++ exact_wildcard_allow rules ++ wildcard_block rules ++ exact_wildcard_block rules.

Lemma finished_form lists k n :
  n ∈ finished_sets (foldl add_list Builder_default lists) k → stored_form k n.
Proof.
  intros Hn%finished_sub. destruct (add_lists_inv (λ _ _, True) lists) as [Hinv _]; [done|].
  by apply (Hinv k n Hn).
Qed.

Lemma tagged_patterns b :
  (tagged (finished_sets b)).*2 ≡ₚ all_patterns (Builder_finish b).
Proof.
  unfold tagged, pattern_kinds, all_patterns, Builder_finish. fold (finished_sets b).
  cbn [mbind list_bind wildcard_allow exact_wildcard_allow wildcard_block exact_wildcard_block].
  rewrite !fmap_app, <-!list_fmap_compose, app_nil_r.
  unfold sorted. rewrite !sort_strings_perm. unfold compose. simpl. by rewrite !list_fmap_id.
Qed.

Lemma parsed_rules_ok lists : rules_ok (parse_exempting lists).
Proof.
  pose proof (finished_form lists) as Hform. unfold parse_exempting.
  set (b := foldl add_list Builder_default lists) in *.
  unfold rules_ok, Builder_finish. fold (finished_sets b).
  cbn [important allow block exact_allow exact_block wildcard_allow exact_wildcard_allow
    wildcard_block exact_wildcard_block].
  assert (∀ k l, (∀ n, n ∈ l → n ∈ finished_sets b k) → Forall (stored_form k) l) as Hall.
  { intros k l Hin. apply Forall_forall. eauto. }
  assert (∀ s n, n ∈ without_redundant_children s → n ∈ s) as Hwr
    by (by intros s n [? _]%elem_of_without_redundant).
  rewrite !Forall_app. split_and!.
  all: first
    [ refine (Hall Important _ _); apply Hwr | refine (Hall Allow _ _); apply Hwr
    | refine (Hall Block _ _); apply Hwr
    | refine (Hall ExactAllow _ _); intros n; apply elem_of_sorted
    | refine (Hall ExactBlock _ _); intros n; apply elem_of_sorted
    | refine (Hall WildcardAllow _ _); intros n; apply elem_of_sorted
    | refine (Hall ExactWildcardAllow _ _); intros n; apply elem_of_sorted
    | refine (Hall WildcardBlock _ _); intros n; apply elem_of_sorted
    | refine (Hall ExactWildcardBlock _ _); intros n; apply elem_of_sorted ].
Qed.

(** Whatever the lists contain, every stored name is a lowercase host name in normal form,
    every stored pattern has the form the file format requires, at most 4096 patterns are kept
    and at most 64 of them start and end with a star. *)
Theorem parsed_rules_bounded lists :
  rules_ok (parse_exempting lists) ∧
  (length (all_patterns (parse_exempting lists)) ≤ MAX_WILDCARD_PATTERNS)%nat ∧
  (length (vec_retain is_unkeyed (all_patterns (parse_exempting lists))) ≤ MAX_UNKEYED_PATTERNS)%nat.
Proof.
  destruct (add_lists_inv (λ _ _, True) lists) as [Hinv Hord]; [done|].
  destruct (finished_limits _ _ (conj Hinv Hord)) as [Hl Hu].
  set (b := foldl add_list Builder_default lists) in *. split_and!.
  - apply parsed_rules_ok.
  - unfold parse_exempting. fold b. by rewrite <-(tagged_patterns b), length_fmap.
  - unfold parse_exempting. fold b.
    assert (vec_retain is_unkeyed (all_patterns (Builder_finish b)) ≡ₚ
      vec_retain is_unkeyed (tagged (finished_sets b)).*2) as ->.
    { unfold vec_retain. by rewrite (tagged_patterns b). }
    by rewrite vec_retain_fmap, length_fmap.
Qed.

(** Leaving out the names whose parent is listed too changes no decision: the same hosts are
    listed, or under a listed name, before and after. *)
Theorem redundant_children_are_redundant names host :
  covered_by (without_redundant_children names) host = covered_by (sorted names) host.
Proof. apply without_redundant_covers. Qed.

(** ** The blocklist file *)

(** C9: the file written for rules in stored form loads, and lookups in it decide every host as
    the rules by name do (important blocks, then exceptions, then blocks and wildcard blocks
    unless a wildcard exception matches), for host names with at most 127 dots and no [|],
    unless two different names that the lookup compares have the same 64-bit hash. *)
Theorem domain_file_refines_rules rules bs :
  rules_ok rules → DomainRules_encode rules = Some bs →
  ∃ ds, DomainSet_new bs = Ok ds ∧
  ∀ host, Forall is_u8 host → (BAR ∉ host) →
    (length (after_each DOT (strip_suffix_or [DOT] host)) ≤ 127)%nat →
    no_collision rules host = true → is_blocked ds host = rules_blocked rules host.
Proof.
  intros Hok Henc. destruct (new_encode rules bs Hok Henc) as [Hnew Hb].
  exists (loaded rules bs). split; [done|]. intros host Hu Hbar Hd Hc. by apply is_blocked_loaded.
Qed.

Lemma example_rules_ok : rules_ok example_rules.
Proof.
  split.
  - assert (forallb (λ n, bool_decide (normalize_name n = Some n))
      (important example_rules ++ allow example_rules ++ block example_rules ++
       exact_allow example_rules ++ exact_block example_rules) = true) as Hf by (vm_compute; reflexivity).
    apply forallb_Forall in Hf. eapply Forall_impl; [exact Hf|]. intros n. apply bool_decide_eq_true_1.
  - apply forallb_Forall. vm_compute. reflexivity.
Defined.

Lemma domain_file_refines_rules_witness : ∃ bs ds,
  DomainRules_encode example_rules = Some bs ∧ DomainSet_new bs = Ok ds ∧
  is_blocked ds (lit "x.ads.example") = rules_blocked example_rules (lit "x.ads.example").
Proof.
  destruct (DomainRules_encode example_rules) as [bs|] eqn:Henc; [|vm_compute in Henc; discriminate].
  destruct (domain_file_refines_rules example_rules bs example_rules_ok Henc) as (ds & Hnew & Hds).
  exists bs, ds. split; [reflexivity|]. split; [exact Hnew|]. apply Hds.
  - repeat constructor; unfold is_u8, U8_MAX, byte_of_ascii; simpl; lia.
  - apply (bool_decide_unpack _). vm_compute. exact I.
  - vm_compute. repeat constructor.
  - vm_compute. reflexivity.
Defined.

(** For any bytes at all, a file that loads is well formed: the three hash ranges follow each
    other from 0, end within the file, and each is strictly increasing, so that no lookup reads
    outside the file and every binary search is exact. *)
Theorem loaded_file_well_formed bs ds :
  Forall is_u8 bs → DomainSet_new bs = Ok ds → DomainSet_wf ds ∧ ds_data ds = bs.
Proof. apply DomainSet_new_wf. Qed.

Definition empty_file : bytes := default [] (DomainRules_encode (DomainRules_parse [])).

Lemma loaded_file_well_formed_witness : ∃ ds,
  DomainSet_new empty_file = Ok ds ∧ DomainSet_wf ds ∧ ds_data ds = empty_file.
Proof.
  destruct (DomainSet_new empty_file) as [ds|e] eqn:E; [|vm_compute in E; discriminate].
  exists ds. split; [reflexivity|]. apply (loaded_file_well_formed empty_file ds); [|exact E].
  apply (bool_decide_unpack _). vm_compute. exact I.
Defined.

(** Detection is stricter than the hosts parser: every bare line that [detect_format] counts
    as a host name is a name that [add_hosts_line] stores. *)
Theorem detected_names_parse field : is_host_name field = true → is_Some (normalize_name field).
Proof. apply is_host_name_normalizes. Qed.

Lemma detected_names_parse_witness : is_Some (normalize_name (lit "Ads.example.")).
Proof. apply (detected_names_parse (lit "Ads.example.")). vm_compute. reflexivity. Defined.
