(* ===== verification/Common.v ===== *)
(** * The counters and the blocked log ([common/src/stats.rs], [common/src/events.rs])

    A counter is an [AtomicU64]; [Stats::inc] is a wrapping [fetch_add]. The log is a ring of
    the newest events with bounded texts. *)
From S2P Require Import Prelude RustStr Collections.

(** ** Statistics *)

(** The fields of [Stats]: a [&AtomicU64] the callers pass is one of these, and [Stats] gives
    each its value. *)
Inductive Counter :=
| dns_queries | dns_blocked | dns_cache_hits | dns_forwarded | dns_failed | packets_dropped
| http_requests | http_blocked | connections_intercepted | connections_passthrough
| tls_client_rejections | tls_abandoned_after_handshake | tls_silent_refusals.
#[global] Instance Counter_eq_dec : EqDecision Counter.
Proof. solve_decision. Defined.

Definition Stats : Type := Counter → Z.
Definition Stats_default : Stats := λ _, 0.

(** [Stats::inc(&stats.counter)]: [fetch_add] wraps. *)
Definition Stats_inc (counter : Counter) (stats : Stats) : Stats :=
  λ c, if decide (c = counter) then wrap64 (stats c + 1) else stats c.

(** ** The blocked log *)

Inductive EventKind := EventDns | EventRequest.

Record BlockEvent := {
  ev_unix_secs : Z;
  ev_kind : EventKind;
  ev_host : bytes;
  ev_url : option bytes;
  ev_source_host : option bytes
}.

(** The ring, oldest first. *)
Definition EventLog : Type := list BlockEvent.
Definition EVENT_CAPACITY : nat := 500.
Definition MAX_URL_BYTES : nat := 512.
Definition MAX_HOST_BYTES : nat := 253.

(** [str::is_char_boundary]: not in front of a continuation byte of UTF-8. *)
Definition is_char_boundary (s : bytes) (i : nat) : bool :=
  (i =? 0)%nat || match s !! i with
                  | Some b => negb ((128 <=? b) && (b <? 192))
                  | None => (i =? length s)%nat
                  end.
(** [while !s.is_char_boundary(end) { end -= 1 }]; 0 is a boundary. *)
Fixpoint boundary_from (s : bytes) (stop : nat) : nat :=
  match stop with
  | O => O
  | S stop' => if is_char_boundary s stop then stop else boundary_from s stop'
  end.
Definition truncate_at_char_boundary (s : bytes) (max : nat) : bytes :=
  if (length s <=? max)%nat then s else take (boundary_from s max) s.

Definition EventLog_record (self : EventLog) (event : BlockEvent) : EventLog :=
  let event :=
    {| ev_unix_secs := ev_unix_secs event; ev_kind := ev_kind event;
       ev_host := truncate_at_char_boundary (ev_host event) MAX_HOST_BYTES;
       ev_url := (λ url, truncate_at_char_boundary url MAX_URL_BYTES) <$> ev_url event;
       ev_source_host := (λ source, truncate_at_char_boundary source MAX_HOST_BYTES)
                           <$> ev_source_host event |} in
  let events := if (EVENT_CAPACITY <=? length self)%nat then drop 1 self else self in
  events ++ [event].
Definition EventLog_recent (self : EventLog) (limit : nat) : list BlockEvent := take limit (reverse self).
Definition EventLog_clear (self : EventLog) : EventLog := [].

(** * Lemmas *)

Lemma Stats_inc_same c s : 0 <= s c < U64_MAX → Stats_inc c s c = s c + 1.
Proof.
  intros Hs. unfold Stats_inc, wrap64. rewrite decide_True by done. apply Z.mod_small.
  unfold U64_MAX in Hs. lia.
Qed.
Lemma Stats_inc_other c c' s : c' ≠ c → Stats_inc c s c' = s c'.
Proof. intros Hc. unfold Stats_inc. by rewrite decide_False. Qed.

(** An event with texts within their limits. *)
Definition event_bounded (e : BlockEvent) : Prop :=
  (length (ev_host e) ≤ MAX_HOST_BYTES)%nat ∧
  (∀ u, ev_url e = Some u → (length u ≤ MAX_URL_BYTES)%nat) ∧
  (∀ h, ev_source_host e = Some h → (length h ≤ MAX_HOST_BYTES)%nat).
Definition EventLog_bounded (log : EventLog) : Prop :=
  (length log ≤ EVENT_CAPACITY)%nat ∧ Forall event_bounded log.

Lemma boundary_from_le s stop : (boundary_from s stop ≤ stop)%nat.
Proof. induction stop as [|stop IH]; cbn [boundary_from]; [lia|]. case_match; lia. Qed.

Lemma boundary_from_boundary s stop : is_char_boundary s (boundary_from s stop) = true.
Proof. induction stop as [|stop IH]; cbn [boundary_from]; [done|]. by case_match. Qed.

Lemma truncate_length s max : (length (truncate_at_char_boundary s max) ≤ max)%nat.
Proof.
  unfold truncate_at_char_boundary. destruct (Nat.leb_spec (length s) max); [done|].
  rewrite length_take. pose proof (boundary_from_le s max). lia.
Qed.

(** The cut is a prefix that ends between two characters. *)
Lemma truncate_boundary s max : ∃ n, truncate_at_char_boundary s max = take n s ∧ is_char_boundary s n = true.
Proof.
  unfold truncate_at_char_boundary. case_match.
  - exists (length s). split; [by rewrite firstn_all|]. unfold is_char_boundary.
    rewrite lookup_ge_None_2 by done. by rewrite Nat.eqb_refl, orb_true_r.
  - exists (boundary_from s max). split; [done|]. apply boundary_from_boundary.
Qed.

Lemma record_bounded log e : EventLog_bounded log → EventLog_bounded (EventLog_record log e).
Proof.
  intros [Hl Hb]. unfold EventLog_record. split.
  - rewrite length_app. cbn [length]. destruct (Nat.leb_spec EVENT_CAPACITY (length log)) as [Hc|Hc].
    + rewrite length_drop. unfold EVENT_CAPACITY in *. lia.
    + lia.
  - apply Forall_app. split; [case_match; [by apply Forall_drop|done]|]. constructor; [|done].
    split_and!; simpl; [apply truncate_length|..];
      intros x (y & _ & ->)%fmap_Some; apply truncate_length.
Qed.
