(* ===== verification/Wire.v ===== *)
(** * The DNS wire format, as far as the tunnel needs it ([dns/src/wire.rs])

    A message is its bytes, an offset a [nat]; [msg.get(i)] is [msg !! i]. Functions that return an
    [Option] in the source return an [option]. Indexing and slicing panic out of range: a function
    that does so returns an [option] that is [None] on a panic, around what it returns otherwise. *)
From S2P Require Import Prelude RustStr Collections.

Definition DNS_HEADER_LEN : nat := 12.
Definition TYPE_OPT : Z := 41.
Definition MAX_NAME_LEN : nat := 255.

(** [u16::from_be_bytes] and [to_be_bytes]. *)
Definition be16 (hi lo : Z) : Z := 256 * hi + lo.
Definition to_be16 (v : Z) : bytes := [v / 256 mod 256; v mod 256].
Definition to_be32 (v : Z) : bytes :=
  [v / 16777216 mod 256; v / 65536 mod 256; v / 256 mod 256; v mod 256].

Definition u16_at (msg : bytes) (at_ : nat) : option Z :=
  hi ← msg !! at_; lo ← msg !! S at_; Some (be16 hi lo).

(** Overwriting the bytes at an offset ([copy_from_slice] into a range). *)
Definition write_at (msg : bytes) (at_ : nat) (new : bytes) : bytes :=
  take at_ msg ++ new ++ drop (at_ + length new) msg.
(** [out[start..stop].copy_from_slice(src)]: a panic when the range is not in [out] or the lengths
    differ. *)
Definition copy_range (out : bytes) (start stop : nat) (src : bytes) : option bytes :=
  if (start <=? stop)%nat && (stop <=? length out)%nat && (length src =? stop - start)%nat
  then Some (write_at out start src) else None.
(** [&l[start..stop]]: a panic when the range is not in [l]. *)
Definition range {A} (l : list A) (start stop : nat) : option (list A) :=
  if (start <=? stop)%nat && (stop <=? length l)%nat then Some (slice start stop l) else None.

Definition set_u16 (msg : bytes) (at_ : nat) (value : Z) : option bytes :=
  copy_range msg at_ (at_ + 2) (to_be16 value).
Definition is_response (msg : bytes) : option bool :=
  b ← msg !! 2%nat; Some (negb (Z.land b 0x80 =? 0)).

(** The byte at an offset inside a message or array that is known to be long enough. *)
Definition byte_of (msg : bytes) (i : nat) : Z := nth i msg 0.

(** The loop of [skip_name]; [None] also when the fuel runs out, which never happens with
    [SKIP_FUEL] ([skip_name_fuel]). *)
Fixpoint skip_name_loop (fuel : nat) (msg : bytes) (start at_ : nat) (allow_pointer : bool) : option nat :=
  match fuel with
  | O => None
  | S fuel' =>
      match msg !! at_ with
      | None => None
      | Some len =>
          if Z.land len 0xc0 =? 0 then
            if len =? 0 then Some (at_ + 1)%nat
            else
              let at_ := (at_ + (1 + Z.to_nat len))%nat in
              if (MAX_NAME_LEN <=? at_ - start)%nat then None
              else skip_name_loop fuel' msg start at_ allow_pointer
          else if (Z.land len 0xc0 =? 0xc0) && allow_pointer then
            match msg !! S at_ with Some _ => Some (at_ + 2)%nat | None => None end
          else None
      end
  end.
Definition SKIP_FUEL : nat := 256.
Definition skip_name (msg : bytes) (at_ : nat) (allow_pointer : bool) : option nat :=
  skip_name_loop SKIP_FUEL msg at_ at_ allow_pointer.

Definition question_end (msg : bytes) : option nat :=
  count ← u16_at msg 4;
  if negb (count =? 1) then None
  else
    name_end ← skip_name msg DNS_HEADER_LEN false;
    let stop := (name_end + 4)%nat in
    if (stop <=? length msg)%nat then Some stop else None.

(** [key.len() - 4] underflows on a key below four bytes, a panic there or at [key[..name_len]]. *)
Definition question_key (msg : bytes) (stop : nat) : option bytes :=
  key ← range msg DNS_HEADER_LEN stop;
  if (length key <? 4)%nat then None
  else
    let name_len := (length key - 4)%nat in
    Some (to_ascii_lowercase (take name_len key) ++ drop name_len key).

Record Records := {
  ttl_offsets : list nat;
  rec_opt : option (nat * nat);
  extended_rcode : Z;
  rec_end : nat
}.

(** One record at [at_]: the offset of its type, its type and the offset past it. *)
Definition record_at (msg : bytes) (at_ : nat) : option (nat * Z * nat) :=
  at_ ← skip_name msg at_ true;
  rtype ← u16_at msg at_;
  rdlen ← u16_at msg (at_ + 8);
  let stop := (at_ + 10 + Z.to_nat rdlen)%nat in
  if (length msg <? stop)%nat then None else Some (at_, rtype, stop).

(** The loop over the records with the given indices; the outer [option] is for the index [msg[at + 4]]. *)
Fixpoint records_loop (msg : bytes) (additional_from : nat) (indices : list nat) (at_ : nat) (found : Records)
    : option (option Records) :=
  match indices with
  | [] => Some (Some {| ttl_offsets := ttl_offsets found; rec_opt := rec_opt found;
                        extended_rcode := extended_rcode found; rec_end := at_ |})
  | index :: rest =>
      match record_at msg at_ with
      | None => Some None
      | Some (type_at, rtype, stop) =>
          if rtype =? TYPE_OPT then
            if (index <? additional_from)%nat || bool_decide (is_Some (rec_opt found)) then Some None
            else
              rcode ← msg !! (type_at + 4)%nat;
              records_loop msg additional_from rest stop
                   {| ttl_offsets := ttl_offsets found; rec_opt := Some (at_, stop);
                      extended_rcode := rcode; rec_end := rec_end found |}
          else
            (* [u16::try_from(at + 4).ok()?] *)
            if (Z.of_nat (type_at + 4) <=? U16_MAX)
            then records_loop msg additional_from rest stop
                   {| ttl_offsets := ttl_offsets found ++ [(type_at + 4)%nat]; rec_opt := rec_opt found;
                      extended_rcode := extended_rcode found; rec_end := rec_end found |}
            else Some None
      end
  end.
Definition records (msg : bytes) (question_end : nat) : option (option Records) :=
  match u16_at msg 6, u16_at msg 8, u16_at msg 10 with
  | Some answers, Some authorities, Some additionals =>
      let before := (Z.to_nat answers + Z.to_nat authorities)%nat in
      records_loop msg before (seq 0 (before + Z.to_nat additionals)) question_end
        {| ttl_offsets := []; rec_opt := None; extended_rcode := 0; rec_end := question_end |}
  | _, _, _ => Some None
  end.

Record AnswerRecord := {
  ar_rtype : Z;
  ar_end : nat
}.
Fixpoint answer_records_loop (msg : bytes) (count : nat) (at_ : nat) : option (list AnswerRecord) :=
  match count with
  | O => Some []
  | S count' =>
      match record_at msg at_ with
      | None => None
      | Some (_, rtype, stop) =>
          rest ← answer_records_loop msg count' stop;
          Some ({| ar_rtype := rtype; ar_end := stop |} :: rest)
      end
  end.
Definition answer_records (msg : bytes) (question_end : nat) : option (list AnswerRecord) :=
  answers ← u16_at msg 6;
  answer_records_loop msg (Z.to_nat answers) question_end.

(** * Lemmas *)

(** ** Names *)

(** The bytes of a name, as RFC 1035 has them: labels, then the root label or, where it is
    allowed, a compression pointer. [name_at msg start p at_ e]: from [at_] on, within a
    name that started at [start], the name goes on and ends just before [e]. *)
Inductive name_at (msg : bytes) (start : nat) (allow_pointer : bool) : nat → nat → Prop :=
| name_root at_ : msg !! at_ = Some 0 → name_at msg start allow_pointer at_ (at_ + 1)
| name_pointer at_ len lo : allow_pointer = true → msg !! at_ = Some len → Z.land len 0xc0 = 0xc0 →
    msg !! S at_ = Some lo → name_at msg start allow_pointer at_ (at_ + 2)
| name_label at_ len e : msg !! at_ = Some len → Z.land len 0xc0 = 0 → len ≠ 0 →
    (at_ + (1 + Z.to_nat len) < start + MAX_NAME_LEN)%nat →
    name_at msg start allow_pointer (at_ + (1 + Z.to_nat len)) e → name_at msg start allow_pointer at_ e.

Lemma name_limit (at_ k start : nat) : (start ≤ at_)%nat →
  (MAX_NAME_LEN <=? at_ + k - start)%nat = false ↔ (at_ + k < start + MAX_NAME_LEN)%nat.
Proof. intros Hs. rewrite Nat.leb_gt. lia. Qed.

Lemma name_limit_le (at_ k start : nat) : (start ≤ at_)%nat →
  (MAX_NAME_LEN <=? at_ + k - start)%nat = true → ¬ (at_ + k < start + MAX_NAME_LEN)%nat.
Proof. intros Hs Hle%Nat.leb_le. lia. Qed.

(** [skip_name] finds exactly the end of the name that is there, and enough fuel for the
    bytes left below the limit is enough. *)
Lemma skip_name_loop_sound fuel msg start at_ p e : (start ≤ at_)%nat →
  skip_name_loop fuel msg start at_ p = Some e → name_at msg start p at_ e.
Proof.
  revert at_. induction fuel as [|fuel IH]; intros at_ Hs; cbn [skip_name_loop]; [done|].
  destruct (msg !! at_) as [len|] eqn:Hl; [|done].
  destruct (Z.eqb_spec (Z.land len 192) 0) as [H0|H0].
  - destruct (Z.eqb_spec len 0) as [->|Hne]; [intros [= <-]; by constructor|].
    destruct (MAX_NAME_LEN <=? _)%nat eqn:Hlim; [done|]. apply name_limit in Hlim; [|done].
    intros He. eapply name_label; [done..|]. apply IH; [lia|done].
  - destruct (Z.eqb_spec (Z.land len 192) 192) as [H1|]; [|done]. destruct p; [|done].
    simpl. destruct (msg !! S at_) eqn:Hn; [|done]. intros [= <-]. by eapply name_pointer.
Qed.

Lemma skip_name_loop_complete fuel msg start at_ p e : (start ≤ at_)%nat →
  (start + MAX_NAME_LEN - at_ < fuel)%nat →
  name_at msg start p at_ e → skip_name_loop fuel msg start at_ p = Some e.
Proof.
  intros Hs Hf Hn. revert fuel Hs Hf. induction Hn as [at_ Hl|at_ len lo Hp Hl Hc Hlo|at_ len e Hl Hz Hne Hlim Hn IH];
    intros fuel Hs Hf; (destruct fuel as [|fuel]; [lia|]); cbn [skip_name_loop]; rewrite Hl.
  - done.
  - rewrite Hc, Hp. simpl. by rewrite Hlo.
  - rewrite Hz. destruct (Z.eqb_spec len 0) as [?|_]; [done|]. rewrite Z.eqb_refl.
    rewrite (proj2 (name_limit _ _ _ Hs) Hlim). apply IH; lia.
Qed.

Lemma skip_name_spec msg at_ p e : skip_name msg at_ p = Some e ↔ name_at msg at_ p at_ e.
Proof.
  split; [by apply skip_name_loop_sound|]. apply skip_name_loop_complete; [done|].
  unfold SKIP_FUEL, MAX_NAME_LEN. lia.
Qed.

Lemma skip_name_fuel k msg at_ p :
  skip_name_loop (SKIP_FUEL + k) msg at_ at_ p = skip_name msg at_ p.
Proof.
  destruct (skip_name msg at_ p) as [e|] eqn:He.
  - apply skip_name_spec in He. apply skip_name_loop_complete; [done| |done].
    unfold SKIP_FUEL, MAX_NAME_LEN. lia.
  - destruct (skip_name_loop _ _ _ _ _) as [e|] eqn:Hk; [|done].
    apply skip_name_loop_sound, skip_name_spec in Hk; [|done]. congruence.
Qed.

Lemma name_at_bounds msg start p at_ e : (at_ < start + MAX_NAME_LEN)%nat → name_at msg start p at_ e →
  (at_ < e ≤ length msg ∧ e ≤ start + MAX_NAME_LEN + (if p then 1 else 0))%nat.
Proof.
  intros Hat Hn. induction Hn as [at_ Hl|at_ len lo Hp Hl Hc Hlo|at_ len e Hl Hz Hne Hlim Hn IH].
  - apply lookup_lt_Some in Hl. destruct p; lia.
  - apply lookup_lt_Some in Hlo. rewrite Hp. lia.
  - specialize (IH Hlim). lia.
Qed.

Lemma skip_name_bounds msg at_ p e : skip_name msg at_ p = Some e →
  (at_ < e ≤ length msg ∧ e ≤ at_ + 255 + (if p then 1 else 0))%nat.
Proof. intros He%skip_name_spec. apply name_at_bounds in He; unfold MAX_NAME_LEN in *; lia. Qed.

(** A name only depends on the bytes up to its end. *)
Lemma name_at_prefix msg msg' start p at_ e :
  (∀ i, (at_ ≤ i < e)%nat → msg' !! i = msg !! i) → name_at msg start p at_ e → name_at msg' start p at_ e.
Proof.
  intros Heq Hn. induction Hn as [at_ Hl|at_ len lo Hp Hl Hc Hlo|at_ len e Hl Hz Hne Hlim Hn IH].
  - constructor. rewrite Heq; [done|lia].
  - eapply name_pointer; [done| |done|]; rewrite Heq; (done || lia).
  - apply name_at_bounds in Hn as Hb; [|done]. eapply name_label; [|done..|].
    + rewrite Heq; [done|lia].
    + apply IH. intros i Hi. apply Heq. lia.
Qed.

(** ** Bytes at an offset *)

Lemma u16_at_Some msg at_ v : u16_at msg at_ = Some v →
  ∃ hi lo, msg !! at_ = Some hi ∧ msg !! S at_ = Some lo ∧ v = be16 hi lo.
Proof.
  unfold u16_at. destruct (msg !! at_) as [hi|]; [|done].
  destruct (msg !! S at_) as [lo|]; [|done]. intros [= <-]. eauto.
Qed.

Lemma u16_at_ext msg msg' at_ : msg' !! at_ = msg !! at_ → msg' !! S at_ = msg !! S at_ →
  u16_at msg' at_ = u16_at msg at_.
Proof. intros H1 H2. unfold u16_at. by rewrite H1, H2. Qed.

(** Bits put beside each other. *)
Lemma lor_shiftl_add h lo k : 0 <= k → 0 <= lo < 2 ^ k → Z.lor (Z.shiftl h k) lo = h * 2 ^ k + lo.
Proof.
  intros Hk Hlo. rewrite <- Z.shiftl_mul_pow2 by done.
  assert (Z.land (Z.shiftl h k) lo = 0) as Hl.
  { apply Z.bits_inj'. intros n Hn. rewrite Z.land_spec, Z.shiftl_spec, Z.bits_0 by done.
    destruct (decide (n < k)) as [?|?]; [by rewrite (Z.testbit_neg_r h) by lia|].
    destruct (decide (lo = 0)) as [->|?]; [by rewrite Z.bits_0, andb_false_r|].
    rewrite (Z.bits_above_log2 lo n), andb_false_r; [done|lia|].
    apply Z.log2_lt_pow2; [lia|]. apply Z.lt_le_trans with (2 ^ k); [lia|]. apply Z.pow_le_mono_r; lia. }
  rewrite <- Z.lxor_lor by done. by rewrite Z.add_nocarry_lxor.
Qed.

Lemma u16_at_range msg at_ v : Forall is_u8 msg → u16_at msg at_ = Some v → is_u16 v.
Proof.
  intros Hm (hi & lo & Hh & Hl & ->)%u16_at_Some. rewrite Forall_lookup in Hm.
  apply Hm in Hh. apply Hm in Hl. unfold is_u8, is_u16, be16 in *. lia.
Qed.

Lemma length_write_at msg at_ new : (at_ + length new ≤ length msg)%nat →
  length (write_at msg at_ new) = length msg.
Proof. intros Hl. unfold write_at. rewrite !length_app, length_take, length_drop. lia. Qed.

Lemma lookup_write_at msg at_ new i : (at_ + length new ≤ length msg)%nat →
  write_at msg at_ new !! i =
  if decide (at_ ≤ i < at_ + length new)%nat then new !! (i - at_)%nat else msg !! i.
Proof.
  intros Hl. unfold write_at. assert (length (take at_ msg) = at_) as Ht by (rewrite length_take; lia).
  destruct (Nat.lt_ge_cases i at_) as [H1|H1].
  - rewrite lookup_app_l by lia. rewrite lookup_take_lt by lia. by rewrite decide_False by lia.
  - rewrite lookup_app_r, Ht by lia. destruct (Nat.lt_ge_cases i (at_ + length new)) as [H2|H2].
    + rewrite lookup_app_l by lia. by rewrite decide_True by lia.
    + rewrite lookup_app_r by lia. rewrite lookup_drop, decide_False by lia. f_equal. lia.
Qed.

Lemma lookup_write_at_ne msg at_ new i : (at_ + length new ≤ length msg)%nat →
  (i < at_ ∨ at_ + length new ≤ i)%nat → write_at msg at_ new !! i = msg !! i.
Proof. intros Hl Hi. rewrite lookup_write_at by done. rewrite decide_False; [done|lia]. Qed.

(** ** The question *)

Lemma question_end_bounds msg stop : question_end msg = Some stop →
  (DNS_HEADER_LEN + 5 ≤ stop ≤ length msg ∧ stop ≤ DNS_HEADER_LEN + 259)%nat ∧ u16_at msg 4 = Some 1.
Proof.
  unfold question_end. destruct (u16_at msg 4) as [count|] eqn:Hc; [|done]. csimpl.
  destruct (Z.eqb_spec count 1) as [->|]; [|done]. csimpl.
  destruct (skip_name _ _ _) as [e|] eqn:He; [|done]. csimpl.
  apply skip_name_bounds in He as [He1 He2]. destruct (Nat.leb_spec (e + 4) (length msg)); [|done].
  intros [= <-]. cbv iota in He2. unfold DNS_HEADER_LEN in *. split; [lia|done].
Qed.

Lemma range_Some {A} (l : list A) start stop : (start ≤ stop ≤ length l)%nat →
  range l start stop = Some (slice start stop l).
Proof.
  intros Hs. unfold range. rewrite (proj2 (Nat.leb_le start stop)) by lia.
  by rewrite (proj2 (Nat.leb_le stop (length l))) by lia.
Qed.

Lemma range_inv {A} (l l' : list A) start stop : range l start stop = Some l' →
  (start ≤ stop ≤ length l)%nat ∧ l' = slice start stop l.
Proof.
  unfold range. destruct (Nat.leb_spec start stop), (Nat.leb_spec stop (length l)); simpl; try done.
  intros [= <-]. done.
Qed.

Lemma copy_range_spec out start stop src : (start ≤ stop ≤ length out)%nat → length src = (stop - start)%nat →
  copy_range out start stop src = Some (write_at out start src).
Proof.
  intros Hs Hl. unfold copy_range. rewrite (proj2 (Nat.leb_le start stop)) by lia.
  rewrite (proj2 (Nat.leb_le stop (length out))) by lia. by rewrite (proj2 (Nat.eqb_eq _ _) Hl).
Qed.

Lemma set_u16_Some msg at_ v : (at_ + 2 ≤ length msg)%nat → set_u16 msg at_ v = Some (write_at msg at_ (to_be16 v)).
Proof. intros Hl. apply copy_range_spec; simpl; lia. Qed.

Lemma is_response_header msg : (DNS_HEADER_LEN ≤ length msg)%nat → is_Some (is_response msg).
Proof.
  unfold DNS_HEADER_LEN, is_response. intros Hl.
  destruct (lookup_lt_is_Some_2 msg 2 ltac:(lia)) as [b ->]. by eexists.
Qed.

Lemma question_key_Some msg stop : (DNS_HEADER_LEN + 4 ≤ stop ≤ length msg)%nat →
  ∃ key, question_key msg stop = Some key ∧ length key = (stop - DNS_HEADER_LEN)%nat.
Proof.
  intros Hs. unfold question_key. rewrite range_Some by lia. csimpl. rewrite length_slice by lia.
  destruct (Nat.ltb_spec (stop - DNS_HEADER_LEN) 4); [lia|]. eexists. split; [done|].
  rewrite length_app, length_to_lower, length_take, length_drop, length_slice by lia. lia.
Qed.

Lemma question_key_length msg stop key : question_key msg stop = Some key →
  (DNS_HEADER_LEN + 4 ≤ stop ≤ length msg)%nat ∧ length key = (stop - DNS_HEADER_LEN)%nat.
Proof.
  intros Hk. assert (DNS_HEADER_LEN + 4 ≤ stop ≤ length msg)%nat as Hb.
  { revert Hk. unfold question_key. destruct (range _ _ _) as [k|] eqn:Hr; [|done]. csimpl.
    apply range_inv in Hr as [Hr ->]. rewrite length_slice by lia.
    destruct (Nat.ltb_spec (stop - DNS_HEADER_LEN) 4); [done|]. intros _. unfold DNS_HEADER_LEN in *. lia. }
  destruct (question_key_Some msg stop Hb) as (key' & Hk' & Hl). split; [done|]. congruence.
Qed.

(** ** Records *)

Lemma record_at_bounds msg at_ t rtype stop : record_at msg at_ = Some (t, rtype, stop) →
  (at_ < t ∧ t + 10 ≤ stop ≤ length msg)%nat ∧ u16_at msg t = Some rtype.
Proof.
  unfold record_at. destruct (skip_name msg at_ true) as [e|] eqn:He; [|done]. csimpl.
  destruct (u16_at msg e) as [rt|] eqn:Hr; [|done]. csimpl.
  destruct (u16_at msg (e + 8)) as [rdlen|] eqn:Hd; [|done]. csimpl.
  apply skip_name_bounds in He.
  destruct (Nat.ltb_spec (length msg) (e + 10 + Z.to_nat rdlen)); [done|]. intros [= <- <- <-].
  split; [lia|done].
Qed.

(** A record only depends on its own bytes. *)
Lemma record_at_prefix msg msg' at_ t rtype stop : record_at msg at_ = Some (t, rtype, stop) →
  (∀ i, (at_ ≤ i < stop)%nat → msg' !! i = msg !! i) → (stop ≤ length msg')%nat →
  record_at msg' at_ = Some (t, rtype, stop).
Proof.
  intros Hr Heq Hlen. apply record_at_bounds in Hr as Hb. revert Hr. unfold record_at.
  destruct (skip_name msg at_ true) as [e|] eqn:He; [|done]. csimpl.
  destruct (u16_at msg e) as [rt|] eqn:Hrt; [|done]. csimpl.
  destruct (u16_at msg (e + 8)) as [rdlen|] eqn:Hd; [|done]. csimpl.
  destruct (Nat.ltb_spec (length msg) (e + 10 + Z.to_nat rdlen)); [done|]. intros [= -> -> <-].
  assert (skip_name msg' at_ true = Some t) as ->.
  { apply skip_name_spec. eapply name_at_prefix; [|by apply skip_name_spec]. intros i Hi. apply Heq. lia. }
  csimpl. rewrite (u16_at_ext msg msg' t) by (apply Heq; lia). rewrite Hrt. csimpl.
  rewrite (u16_at_ext msg msg' (t + 8)) by (apply Heq; lia). rewrite Hd. csimpl.
  destruct (Nat.ltb_spec (length msg') (t + 10 + Z.to_nat rdlen)); [lia|done].
Qed.

(** TTL offsets of records that follow each other between [lo] and [hi]: each at least five
    bytes into its record (a name and the type and class before it) and six from its end. *)
Fixpoint spaced (lo hi : nat) (offs : list nat) : Prop :=
  match offs with
  | [] => (lo ≤ hi)%nat
  | o :: rest => (lo + 5 ≤ o)%nat ∧ spaced (o + 6) hi rest
  end.

Lemma spaced_weaken lo hi hi' offs : spaced lo hi offs → (hi ≤ hi')%nat → spaced lo hi' offs.
Proof.
  revert lo. induction offs as [|o offs IH]; intros lo; simpl; [lia|].
  intros [Ho Hs] Hh. split; [done|]. by apply IH.
Qed.

Lemma spaced_snoc lo mid hi offs o : spaced lo mid offs → (mid + 5 ≤ o)%nat → (o + 6 ≤ hi)%nat →
  spaced lo hi (offs ++ [o]).
Proof.
  revert lo. induction offs as [|x offs IH]; intros lo; simpl; [lia|].
  intros [Hx Hs] ??. split; [done|]. by apply IH.
Qed.

Lemma spaced_length lo hi offs : spaced lo hi offs → (lo + 11 * length offs ≤ hi)%nat.
Proof.
  revert lo. induction offs as [|o offs IH]; intros lo; simpl; [lia|].
  intros [Ho Hs%IH]. lia.
Qed.

Lemma spaced_last lo hi offs o : spaced lo hi (offs ++ [o]) → (lo + 11 * length offs + 5 ≤ o)%nat.
Proof.
  revert lo. induction offs as [|x offs IH]; intros lo; simpl; [lia|].
  intros [Hx Hs%IH]. lia.
Qed.

Lemma spaced_elem lo hi offs o : spaced lo hi offs → o ∈ offs → (lo + 5 ≤ o ∧ o + 6 ≤ hi)%nat.
Proof.
  revert lo. induction offs as [|x offs IH]; intros lo; simpl; [by intros _ ?%elem_of_nil|].
  intros [Hx Hs] [->|Ho]%elem_of_cons.
  - split; [done|]. apply spaced_length in Hs. lia.
  - apply (IH (x + 6)%nat) in Ho; [lia|done].
Qed.

(** What the walk over the records has established at [at_]. *)
Record records_inv (qe at_ seen : nat) (r : Records) : Prop := {
  ri_spaced : spaced qe at_ (ttl_offsets r);
  ri_u16 : Forall (λ o, Z.of_nat o <= U16_MAX) (ttl_offsets r);
  ri_opt : ∀ s e, rec_opt r = Some (s, e) →
    (qe ≤ s < e ∧ e ≤ at_)%nat ∧ (e = at_ → spaced qe s (ttl_offsets r));
  ri_count : (length (ttl_offsets r) + (if rec_opt r is Some _ then 1 else 0) = seen)%nat
}.

Lemma records_loop_inv msg af qe indices at_ seen found r :
  records_inv qe at_ seen found → records_loop msg af indices at_ found = Some (Some r) →
  (at_ ≤ length msg)%nat →
  records_inv qe (rec_end r) (seen + length indices) r ∧ (at_ ≤ rec_end r ≤ length msg)%nat.
Proof.
  revert at_ seen found. induction indices as [|index rest IH]; intros at_ seen found Hinv; simpl.
  - intros [= <-] Hat. split; [|simpl; lia]. rewrite Nat.add_0_r. by destruct Hinv; constructor.
  - destruct (record_at msg at_) as [[[t rtype] stop]|] eqn:Hr; [|done].
    apply record_at_bounds in Hr as [Hb _]. destruct Hinv as [Hsp Hu Ho Hc].
    pose proof (spaced_length _ _ _ Hsp) as Hle.
    destruct (rtype =? TYPE_OPT).
    + destruct (rec_opt found) as [so|] eqn:Hfo; [by rewrite orb_true_r|].
      case_match; [done|]. destruct (msg !! (t + 4)%nat) as [rcode|]; [|done]. csimpl. intros Hl Hat.
      apply (IH stop (S seen)) in Hl as [Hl Hge]; [split; [by rewrite Nat.add_succ_r|lia]| |lia].
      constructor; simpl; [apply (spaced_weaken _ at_); [done|lia]|done| |lia].
      intros s e [= <- <-]. split; [lia|done].
    + destruct (Z.leb_spec (Z.of_nat (t + 4)) U16_MAX) as [Hfit|]; [|done]. intros Hl Hat.
      apply (IH stop (S seen)) in Hl as [Hl Hge]; [split; [by rewrite Nat.add_succ_r|lia]| |lia].
      constructor; simpl.
      * eapply spaced_snoc; [done|lia|lia].
      * apply Forall_app. by split; [|constructor].
      * intros s e Hse. apply Ho in Hse. split; [lia|]. intros ->. lia.
      * rewrite length_app. simpl. lia.
Qed.

Lemma records_opt_additional msg af indices at_ found r : Forall (λ i, (i < af)%nat) indices →
  rec_opt found = None → records_loop msg af indices at_ found = Some (Some r) → rec_opt r = None.
Proof.
  intros Hi. revert at_ found. induction Hi as [|index rest Hlt Hi IH]; intros at_ found Hf; simpl.
  - by intros [= <-].
  - destruct (record_at msg at_) as [[[t rtype] stop]|]; [|done]. destruct (rtype =? TYPE_OPT).
    + by rewrite (proj2 (Nat.ltb_lt _ _) Hlt).
    + case_match; [|done]. by apply IH.
Qed.

(** [msg[at + 4]] is inside the record. *)
Lemma records_loop_total msg af indices at_ found : is_Some (records_loop msg af indices at_ found).
Proof.
  revert at_ found. induction indices as [|index rest IH]; intros at_ found; simpl; [by eexists|].
  destruct (record_at msg at_) as [[[t rtype] stop]|] eqn:Hr; [|by eexists].
  apply record_at_bounds in Hr as [Hb _]. repeat case_match; try (by eexists); [|apply IH].
  destruct (lookup_lt_is_Some_2 msg (t + 4) ltac:(lia)) as [b ->]. csimpl. apply IH.
Qed.

Lemma records_total msg qe : is_Some (records msg qe).
Proof. unfold records. repeat case_match; try (by eexists). apply records_loop_total. Qed.

Lemma records_spec msg qe r : (qe ≤ length msg)%nat → records msg qe = Some (Some r) →
  ∃ answers authorities additionals,
    u16_at msg 6 = Some answers ∧ u16_at msg 8 = Some authorities ∧ u16_at msg 10 = Some additionals ∧
    records_inv qe (rec_end r) (Z.to_nat answers + Z.to_nat authorities + Z.to_nat additionals) r ∧
    (qe ≤ rec_end r ≤ length msg)%nat ∧ (is_Some (rec_opt r) → 1 <= additionals).
Proof.
  intros Hqe. unfold records. destruct (u16_at msg 6) as [an|]; [|done].
  destruct (u16_at msg 8) as [ns|]; [|done]. destruct (u16_at msg 10) as [ar|] eqn:Har; [|done]. intros Hl.
  exists an, ns, ar. split_and!; [done..| | | |].
  1-3: eapply (records_loop_inv _ _ qe _ _ 0) in Hl as [Hinv ?]; [|constructor; simpl; try done; lia|done];
    rewrite length_seq in Hinv; split_and?; (done || lia).
  intros [x Hx]. destruct (Z.le_gt_cases 1 ar) as [?|Hlt]; [done|exfalso].
  eapply records_opt_additional in Hl; [congruence| |done].
  apply Forall_seq. intros j Hj. replace (Z.to_nat ar) with 0%nat in Hj by lia. lia.
Qed.

(** ** The answer section *)

(** The records [answer_records] lists start at [at_] and follow each other. *)
Lemma answer_records_loop_prefix msg msg' n at_ l k : answer_records_loop msg n at_ = Some l →
  (k ≤ length l)%nat →
  let stop := default at_ (ar_end <$> last (take k l)) in
  (∀ i, (at_ ≤ i < stop)%nat → msg' !! i = msg !! i) → (stop ≤ length msg')%nat →
  answer_records_loop msg' k at_ = Some (take k l).
Proof.
  revert at_ l k. induction n as [|n IH]; intros at_ l k; simpl.
  - intros [= <-] Hk. simpl in Hk. by replace k with 0%nat by lia.
  - destruct (record_at msg at_) as [[[t rtype] stop]|] eqn:Hr; [|done].
    destruct (answer_records_loop msg n stop) as [l'|] eqn:Hl; [|done]. csimpl. intros [= <-] Hk.
    destruct k as [|k]; [done|]. simpl in Hk. intros Heq Hlen.
    apply record_at_bounds in Hr as Hb.
    assert (stop ≤ default stop (ar_end <$> last (take k l')) ∧
      default at_ (ar_end <$> last (take (S k) ({| ar_rtype := rtype; ar_end := stop |} :: l'))) =
      default stop (ar_end <$> last (take k l')))%nat as [Hge Hd].
    { split.
      - clear -Hl. revert stop l' k Hl. induction n as [|n IH]; intros at_ l k; simpl.
        + intros [= <-]. by rewrite take_nil.
        + destruct (record_at msg at_) as [[[t rtype] stop]|] eqn:Hr; [|done].
          destruct (answer_records_loop msg n stop) as [l'|] eqn:Hl; [|done]. csimpl. intros [= <-].
          apply record_at_bounds in Hr as [Hb _]. destruct k as [|k]; [done|]. simpl.
          specialize (IH _ _ k Hl). destruct (take k l'); simpl in *; [lia|].
          destruct (last _) eqn:?; simpl in *; lia.
      - simpl. by destruct (take k l') as [|a la] using rev_ind; [|rewrite last_cons, last_snoc]. }
    cbn [answer_records_loop]. rewrite Hd in Heq, Hlen.
    rewrite (record_at_prefix msg msg' _ _ _ _ Hr) by (lia || (intros; apply Heq; lia)).
    erewrite (IH stop l' k Hl) by (lia || (intros; apply Heq; lia)). done.
Qed.
