(* ===== verification/LocalName.v ===== *)
(** * Names only the local network knows ([dns/src/local.rs])

    [is_local_name] with its suffix tables, and what it decides: a single label, or a name
    at or under one of the listed zones, in any letter case. *)
From S2P Require Import Prelude RustStr Collections.

Definition LOCAL_SUFFIXES : list bytes :=
  [lit "lan"; lit "home.arpa"; lit "internal"; lit "localdomain"; lit "fritz.box";
   lit "intranet"; lit "corp"; lit "private"].

Definition LOCAL_REVERSE_ZONES : list bytes :=
  [lit "10.in-addr.arpa"; lit "16.172.in-addr.arpa"; lit "17.172.in-addr.arpa";
   lit "18.172.in-addr.arpa"; lit "19.172.in-addr.arpa"; lit "20.172.in-addr.arpa";
   lit "21.172.in-addr.arpa"; lit "22.172.in-addr.arpa"; lit "23.172.in-addr.arpa";
   lit "24.172.in-addr.arpa"; lit "25.172.in-addr.arpa"; lit "26.172.in-addr.arpa";
   lit "27.172.in-addr.arpa"; lit "28.172.in-addr.arpa"; lit "29.172.in-addr.arpa";
   lit "30.172.in-addr.arpa"; lit "31.172.in-addr.arpa"; lit "168.192.in-addr.arpa";
   lit "254.169.in-addr.arpa"; lit "c.f.ip6.arpa"; lit "d.f.ip6.arpa"; lit "8.e.f.ip6.arpa";
   lit "9.e.f.ip6.arpa"; lit "a.e.f.ip6.arpa"; lit "b.e.f.ip6.arpa"].

(** [under] of [local.rs]; the name is taken by the filter crate's relation. *)
Definition local_under (name suffix : bytes) : bool :=
  if (length name <? length suffix)%nat then false
  else
    let start := (length name - length suffix)%nat in
    eq_ignore_ascii_case (drop start name) suffix
    && ((start =? 0)%nat || bool_decide (name !! pred start = Some DOT)).

Definition is_local_name (name : bytes) : bool :=
  let name := strip_suffix_or [DOT] name in
  match name with
  | [] => false
  | _ => negb (contains DOT name)
         || existsb (local_under name) (LOCAL_SUFFIXES ++ LOCAL_REVERSE_ZONES)
  end.

(** * What it decides *)

(** [name] is the zone or ends in a dot and the zone, without letter case. *)
Definition in_zone (zone name : bytes) : Prop :=
  to_ascii_lowercase name = zone ∨ ∃ p, to_ascii_lowercase name = p ++ DOT :: zone.

Definition local_zone (zone : bytes) : Prop := zone ∈ LOCAL_SUFFIXES ++ LOCAL_REVERSE_ZONES.

(** A name without its final dot that is local. *)
Definition local_spec (name : bytes) : Prop :=
  name ≠ [] ∧ ((DOT ∉ name) ∨ ∃ zone, local_zone zone ∧ in_zone zone name).

Lemma lower1_dot b : lower1 b = DOT ↔ b = DOT.
Proof. by apply lower1_eq_iff. Qed.

Lemma local_under_spec name suffix : to_ascii_lowercase suffix = suffix →
  local_under name suffix = true ↔ in_zone suffix name.
Proof.
  intros Hl. unfold local_under, in_zone. destruct (Nat.ltb_spec (length name) (length suffix)) as [Hs|Hs].
  - split; [done|]. intros [Hn|[p Hn]]; apply (f_equal length) in Hn;
      rewrite length_to_lower in Hn; [lia|rewrite length_app in Hn; simpl in Hn; lia].
  - set (start := (length name - length suffix)%nat). rewrite andb_true_iff, eq_ignore_case_spec, Hl.
    rewrite orb_true_iff, Nat.eqb_eq, bool_decide_eq_true.
    assert (length name = (start + length suffix)%nat) as Hlen by lia. clearbody start. split.
    + intros [He Hd]. destruct start as [|n]; [left; by rewrite drop_0 in He|right].
      destruct Hd as [?|Hdot]; [done|]. simpl in Hdot. exists (to_ascii_lowercase (take n name)).
      rewrite <-(take_drop_middle _ _ _ Hdot) at 1. rewrite to_lower_app. by rewrite <-He.
    + intros [Hn|[p Hn]].
      * apply (f_equal length) in Hn as Hln. rewrite length_to_lower in Hln.
        assert (start = 0%nat) as -> by lia. rewrite drop_0. auto.
      * apply (f_equal length) in Hn as Hln. rewrite length_to_lower, length_app in Hln. simpl in Hln.
        assert (start = S (length p)) as -> by lia. split.
        -- unfold to_ascii_lowercase in *. rewrite fmap_drop, Hn.
           rewrite (drop_app_ge p) by lia. by replace (S (length p) - length p)%nat with 1%nat by lia.
        -- right. simpl. assert (to_ascii_lowercase name !! length p = Some DOT) as Hp.
           { rewrite Hn. by apply list_lookup_middle. }
           unfold to_ascii_lowercase in Hp. rewrite list_lookup_fmap in Hp.
           apply fmap_Some in Hp as (b & Hb & Hd). by symmetry in Hd; apply lower1_dot in Hd as ->.
Qed.

Lemma local_zones_lower zone : local_zone zone → to_ascii_lowercase zone = zone.
Proof.
  assert (Forall (λ z, to_ascii_lowercase z = z) (LOCAL_SUFFIXES ++ LOCAL_REVERSE_ZONES)) as H.
  { apply (bool_decide_eq_true_1 _). vm_compute. reflexivity. }
  rewrite Forall_forall in H. apply H.
Qed.

Lemma is_local_name_spec name : is_local_name name = true ↔ local_spec (strip_suffix_or [DOT] name).
Proof.
  unfold is_local_name, local_spec. set (n := strip_suffix_or [DOT] name). clearbody n.
  assert ((negb (contains DOT n) || existsb (local_under n) (LOCAL_SUFFIXES ++ LOCAL_REVERSE_ZONES)) = true
    ↔ (DOT ∉ n) ∨ ∃ zone, local_zone zone ∧ in_zone zone n) as Hmain.
  { rewrite orb_true_iff, negb_true_iff, contains_false, existsb_Exists. unfold local_zone.
    split; (intros [?|(z & Hz & Hu)]; [by left|right; exists z; split; [done|]]);
      by apply (local_under_spec _ _ (local_zones_lower _ Hz)). }
  destruct n as [|b n]; [by split; [|intros [? _]]|]. rewrite Hmain. naive_solver.
Qed.
