(* ===== verification/Answer.v ===== *)
(** * Writing replies ([dns/src/answer.rs])

    A reply is a list of bytes. Every index, slice and [copy_from_slice] gives [None] where the
    source would panic, header bytes included; [AnswerFacts] shows that none does on the messages
    the handler passes. [hickory_proto]'s decoder is the class [Hickory]. *)
From S2P Require Import Prelude RustStr Collections Wire.

Definition BLOCK_TTL : Z := 60.
Definition MAX_UDP_PAYLOAD : Z := 1232.
Definition CLASSIC_UDP_PAYLOAD : Z := 512.
Definition NOERROR : Z := 0.
Definition FORMERR : Z := 1.
Definition SERVFAIL : Z := 2.
Definition NXDOMAIN : Z := 3.
Definition NOTIMP : Z := 4.
Definition TYPE_A : Z := 1.
Definition TYPE_AAAA : Z := 28.
Definition TYPE_ANY : Z := 255.
Definition CLASS_IN : Z := 1.
Definition OPT_LEN : nat := 11.

(** ** The decoder of [hickory_proto] *)

(** A decoded question: its type and its name in presentation form. *)
Record DnsQuery := {
  query_type : Z;
  query_name : bytes
}.
Record ClientEdns := {
  udp_payload : Z;
  dnssec_ok : bool
}.
(** What the core reads of a [Message]. *)
Record Message := {
  msg_id : Z;
  msg_recursion_desired : bool;
  msg_is_query : bool;
  msg_queries : list DnsQuery;
  msg_edns : option ClientEdns
}.

(** [Message::from_vec], with what it documents: a message starts with a 12-byte header whose
    first field is the id and whose QDCOUNT is the number of decoded questions, and the sizes
    it gives are 16-bit. *)
Class Hickory := {
  from_vec : bytes → option Message;
  from_vec_header wire m : from_vec wire = Some m → (DNS_HEADER_LEN ≤ length wire)%nat;
  from_vec_id wire m : from_vec wire = Some m → u16_at wire 0 = Some (msg_id m);
  from_vec_queries wire m : from_vec wire = Some m → u16_at wire 4 = Some (len (msg_queries m));
  from_vec_edns wire m e : from_vec wire = Some m → msg_edns m = Some e → is_u16 (udp_payload e)
}.

(** ** Replies *)

Definition header_only (query : bytes) (rcode : Z) : option bytes :=
  id ← range query 0 2;
  flags ← query !! 2%nat;
  Some (id ++ [Z.lor 0x80 (Z.land flags 0x79); Z.lor 0x80 rcode] ++ replicate (DNS_HEADER_LEN - 4) 0).

Record Requester := {
  req_id : Z;
  req_recursion_desired : bool;
  req_question : bytes;
  req_edns : option ClientEdns
}.

Definition Requester_from_query (query : bytes) (message : Message) (question_end : nat) : option Requester :=
  question ← range query DNS_HEADER_LEN question_end;
  Some {| req_id := msg_id message;
          req_recursion_desired := msg_recursion_desired message;
          req_question := question;
          req_edns := msg_edns message |}.

Definition qtype_and_class (self : Requester) : option (Z * Z) :=
  let n := length (req_question self) in
  if (n <? 4)%nat then None
  else
    qtype ← u16_at (req_question self) (n - 4);
    qclass ← u16_at (req_question self) (n - 2);
    Some (qtype, qclass).

Definition udp_limit (self : Requester) : nat :=
  let size :=
    match req_edns self with
    | None => CLASSIC_UDP_PAYLOAD
    | Some edns => Z.min (Z.max (udp_payload edns) CLASSIC_UDP_PAYLOAD) MAX_UDP_PAYLOAD
    end in
  Z.to_nat size.

Definition Requester_opt (self : Requester) : option bytes :=
  (λ edns, [0; 0; 41] ++ to_be16 MAX_UDP_PAYLOAD
             ++ [0; 0; (if dnssec_ok edns then 0x80 else 0); 0; 0; 0]) <$> req_edns self.

Definition Requester_build (self : Requester) (flags : Z * Z) (records : bytes) (count : Z) : bytes :=
  let opt := Requester_opt self in
  to_be16 (req_id self) ++ [flags.1; flags.2] ++ to_be16 1 ++ to_be16 count ++ to_be16 0
    ++ to_be16 (if opt is Some _ then 1 else 0) ++ req_question self ++ records ++ default [] opt.

Definition local_flags (self : Requester) (rcode : Z) : Z * Z :=
  (Z.lor 0x80 (Z.b2z (req_recursion_desired self)), Z.lor 0x80 rcode).

Definition Requester_empty (self : Requester) (rcode : Z) : bytes :=
  Requester_build self (local_flags self rcode) [] 0.

(** [None] when [qtype_and_class] would panic. *)
Definition Requester_blocked (self : Requester) : option bytes :=
  '(qtype, qclass) ← qtype_and_class self;
  let record rdata_len :=
    [0xc0; 0x0c] ++ to_be16 qtype ++ to_be16 CLASS_IN ++ to_be32 BLOCK_TTL ++ to_be16 rdata_len
      ++ replicate (Z.to_nat rdata_len) 0 in
  Some (if (qtype =? TYPE_A) && (qclass =? CLASS_IN)
        then Requester_build self (local_flags self NOERROR) (record 4) 1
        else if (qtype =? TYPE_AAAA) && (qclass =? CLASS_IN)
        then Requester_build self (local_flags self NOERROR) (record 16) 1
        else Requester_empty self NOERROR).

(** [take_while(|r| r.end <= budget).count()]. *)
Fixpoint fitting (budget : nat) (answers : list AnswerRecord) : nat :=
  match answers with
  | [] => 0
  | r :: rest => if (ar_end r <=? budget)%nat then S (fitting budget rest) else 0
  end.
(** The last lines of [fit]: TC, the question and OPT. *)
Definition truncated (self : Requester) (reply : bytes) : option bytes :=
  b2 ← reply !! 2%nat; b3 ← reply !! 3%nat; Some (Requester_build self (Z.lor b2 0x02, b3) [] 0).
Definition Requester_fit (self : Requester) (reply : bytes) : option bytes :=
  let limit := udp_limit self in
  if (length reply <=? limit)%nat then Some reply
  else
    let question_end := (DNS_HEADER_LEN + length (req_question self))%nat in
    let budget := (limit - (if Requester_opt self is Some _ then OPT_LEN else 0))%nat in
    match answer_records reply question_end with
    | Some answers =>
        '(qtype, _) ← qtype_and_class self;
        let fit := fitting budget answers in
        kept ← range answers 0 fit;
        let usable :=
          match answers with
          | [] => true
          | _ => existsb (λ r, (ar_rtype r =? qtype) || (qtype =? TYPE_ANY)) kept
          end in
        if usable then
          let stop := default question_end (ar_end <$> last kept) in
          b2 ← reply !! 2%nat; b3 ← reply !! 3%nat;
          records ← range reply question_end stop;
          (* [fitting as u16] *)
          Some (Requester_build self (Z.land b2 0xfd, b3) records (Z.of_nat fit mod 2 ^ 16))
        else truncated self reply
    | None => truncated self reply
    end.

(** ** Upstream answers *)

Record UpstreamAnswer := {
  ua_bytes : bytes;
  ua_ttl_offsets : list nat;
  ua_question_end : nat
}.

Definition wrap16 (v : Z) : Z := v mod 2 ^ 16.
(** [u16::from_be_bytes([msg[10], msg[11]])], a panic on a shorter message. *)
Definition additionals_of (msg : bytes) : option Z := u16_at msg 10.

(** The answer without its OPT record. *)
Definition strip_opt (wire : bytes) (records : Records) : option (result bytes bytes) :=
  bytes ← range wire 0 (rec_end records);
  match rec_opt records with
  | None => Some (Ok bytes)
  | Some (start, stop) =>
      if negb (stop =? rec_end records)%nat then Some (Err (lit "OPT is not the last record"))
      else
        (* [truncate] *)
        let bytes := take start bytes in
        additionals ← additionals_of bytes;
        bytes ← set_u16 bytes 10 (wrap16 (additionals - 1));
        Some (Ok bytes)
  end.

Section Parse.
Context `{Hickory}.

Definition UpstreamAnswer_parse (wire key : bytes) : option (result UpstreamAnswer bytes) :=
  match from_vec wire with
  | None => Some (Err (lit "answer does not decode"))
  | Some _ =>
      response ← is_response wire;
      flags ← wire !! 2%nat;
      if negb response || negb (Z.land (Z.shiftr flags 3) 0x0f =? 0)
      then Some (Err (lit "not a response to a standard query"))
      else
        match question_end wire with
        | None => Some (Err (lit "answer has no single question"))
        | Some qe =>
            asked ← question_key wire qe;
            if negb (bool_decide (asked = key)) then Some (Err (lit "answer is for another question"))
            else
              found ← records wire qe;
              match found with
              | None => Some (Err (lit "malformed records"))
              | Some found =>
                  if negb (extended_rcode found =? 0) then Some (Err (lit "extended RCODE"))
                  else
                    stripped ← strip_opt wire found;
                    Some (result_bind stripped (λ bytes,
                      (* [question_end as u16]: below 2^16 by [question_end_bounds] *)
                      Ok {| ua_bytes := bytes; ua_ttl_offsets := ttl_offsets found;
                            ua_question_end := qe |}))
              end
        end
  end.
End Parse.

Definition UpstreamAnswer_cacheable (self : UpstreamAnswer) : option bool :=
  b3 ← ua_bytes self !! 3%nat;
  let rcode := Z.land b3 0x0f in
  if (rcode =? NOERROR) || (rcode =? NXDOMAIN) then
    b2 ← ua_bytes self !! 2%nat;
    Some ((Z.land b2 0x02 =? 0) && (Z.of_nat (length (ua_bytes self) + OPT_LEN) <=? MAX_UDP_PAYLOAD))
  else Some false.

Definition has_answers (self : UpstreamAnswer) : option bool :=
  count ← range (ua_bytes self) 6 8; Some (negb (bool_decide (count = [0; 0]))).

(** [u32::from_be_bytes] of the four bytes at an offset. *)
Definition u32_at (msg : bytes) (at_ : nat) : option Z :=
  b0 ← msg !! at_; b1 ← msg !! (at_ + 1)%nat; b2 ← msg !! (at_ + 2)%nat; b3 ← msg !! (at_ + 3)%nat;
  Some (16777216 * b0 + 65536 * b1 + 256 * b2 + b3).
Definition ttl_at (self : UpstreamAnswer) (at_ : nat) : option Z := u32_at (ua_bytes self) at_.

Definition min_ttl (self : UpstreamAnswer) : option Z :=
  ttls ← collect_options (ttl_at self) (ua_ttl_offsets self);
  Some (default 0 (iter_min ttls)).

(** The loop that lowers the TTLs. *)
Fixpoint lower_ttls (self : UpstreamAnswer) (elapsed : Z) (offsets : list nat) (out : bytes) : option bytes :=
  match offsets with
  | [] => Some out
  | at_ :: rest =>
      ttl ← ttl_at self at_;
      out ← copy_range out at_ (at_ + 4) (to_be32 (sat_sub ttl elapsed));
      lower_ttls self elapsed rest out
  end.
(** [render] before the reply is cut to size. *)
Definition render_whole (self : UpstreamAnswer) (requester : Requester) (elapsed : Z) : option bytes :=
  out ← set_u16 (ua_bytes self) 0 (req_id requester);
  b2 ← out !! 2%nat;
  let out := <[2%nat := Z.lor (Z.land b2 0xfe) (Z.b2z (req_recursion_desired requester))]> out in
  out ← copy_range out DNS_HEADER_LEN (ua_question_end self) (req_question requester);
  out ← lower_ttls self elapsed (ua_ttl_offsets self) out;
  match Requester_opt requester with
  | None => Some out
  | Some opt =>
      let out := out ++ opt in
      additionals ← additionals_of out;
      set_u16 out 10 (wrap16 (additionals + 1))
  end.
Definition UpstreamAnswer_render (self : UpstreamAnswer) (requester : Requester) (elapsed : Z) : option bytes :=
  out ← render_whole self requester elapsed;
  Requester_fit requester out.
