(* ===== verification/AnswerFacts.v ===== *)
(** * Facts about replies

    The bytes of a built reply, what [fit] keeps, the invariant of parsed answers and what
    [render] writes. *)
From S2P Require Import Prelude RustStr Collections Wire Answer.

(** ** Big-endian numbers *)

Lemma be16_to_be16 v : is_u16 v → be16 (v / 256 mod 256) (v mod 256) = v.
Proof.
  unfold is_u16, be16. intros Hv. change (2 ^ 16) with 65536 in Hv.
  Z.to_euclidean_division_equations. lia.
Qed.

Lemma to_be16_u8 v : Forall is_u8 (to_be16 v).
Proof. repeat constructor; apply Z.mod_pos_bound; lia. Qed.

Lemma to_be32_u8 v : Forall is_u8 (to_be32 v).
Proof. repeat constructor; apply Z.mod_pos_bound; lia. Qed.

Lemma be32_to_be32 v : is_u32 v →
  16777216 * (v / 16777216 mod 256) + 65536 * (v / 65536 mod 256) + 256 * (v / 256 mod 256) + v mod 256 = v.
Proof.
  unfold is_u32. intros Hv. change (2 ^ 32) with 4294967296 in Hv.
  Z.to_euclidean_division_equations. lia.
Qed.

Lemma u16_at_app_l a b i : (i + 1 < length a)%nat → u16_at (a ++ b) i = u16_at a i.
Proof. intros Hi. apply u16_at_ext; apply lookup_app_l; lia. Qed.

Lemma u16_at_app_r a b i : u16_at (a ++ b) (length a + i) = u16_at b i.
Proof.
  unfold u16_at. rewrite lookup_app_r by lia. rewrite lookup_app_r by lia.
  replace (length a + i - length a)%nat with i by lia.
  by replace (S (length a + i) - length a)%nat with (S i) by lia.
Qed.

Lemma u16_at_to_be16 v l : is_u16 v → u16_at (to_be16 v ++ l) 0 = Some v.
Proof. intros Hv. unfold u16_at, to_be16. simpl. by rewrite be16_to_be16. Qed.

Lemma u32_at_range msg at_ v : Forall is_u8 msg → u32_at msg at_ = Some v → is_u32 v.
Proof.
  intros Hm. unfold u32_at. rewrite Forall_lookup in Hm.
  destruct (msg !! at_) as [b0|] eqn:H0; [|done]. destruct (msg !! (at_ + 1)%nat) as [b1|] eqn:H1; [|done].
  destruct (msg !! (at_ + 2)%nat) as [b2|] eqn:H2; [|done].
  destruct (msg !! (at_ + 3)%nat) as [b3|] eqn:H3; [|done]. csimpl. intros [= <-].
  apply Hm in H0, H1, H2, H3. unfold is_u8, is_u32 in *. lia.
Qed.

Lemma u32_at_is_Some msg at_ : (at_ + 4 ≤ length msg)%nat → is_Some (u32_at msg at_).
Proof.
  intros Hl. unfold u32_at.
  destruct (lookup_lt_is_Some_2 msg at_ ltac:(lia)) as [b0 ->].
  destruct (lookup_lt_is_Some_2 msg (at_ + 1) ltac:(lia)) as [b1 ->].
  destruct (lookup_lt_is_Some_2 msg (at_ + 2) ltac:(lia)) as [b2 ->].
  destruct (lookup_lt_is_Some_2 msg (at_ + 3) ltac:(lia)) as [b3 ->]. by eexists.
Qed.

Lemma u32_at_ext msg msg' at_ : (∀ i, (at_ ≤ i < at_ + 4)%nat → msg' !! i = msg !! i) →
  u32_at msg' at_ = u32_at msg at_.
Proof. intros He. unfold u32_at. by rewrite !He by lia. Qed.

Lemma u32_at_write msg at_ v : is_u32 v → (at_ + 4 ≤ length msg)%nat →
  u32_at (write_at msg at_ (to_be32 v)) at_ = Some v.
Proof.
  intros Hv Hl. unfold u32_at. rewrite !lookup_write_at by (simpl; lia).
  rewrite !decide_True by (simpl; lia).
  replace (at_ - at_)%nat with 0%nat by lia. replace (at_ + 1 - at_)%nat with 1%nat by lia.
  replace (at_ + 2 - at_)%nat with 2%nat by lia. replace (at_ + 3 - at_)%nat with 3%nat by lia.
  simpl. by rewrite be32_to_be32.
Qed.

Lemma byte_of_lookup msg i b : msg !! i = Some b → byte_of msg i = b.
Proof. intros Hi. by apply nth_lookup_Some. Qed.

Lemma lookup_byte_of msg i : (i < length msg)%nat → msg !! i = Some (byte_of msg i).
Proof. intros Hi. destruct (lookup_lt_is_Some_2 _ _ Hi) as [b Hb]. by rewrite (byte_of_lookup _ _ _ Hb). Qed.

Lemma byte_of_u8 msg i : Forall is_u8 msg → is_u8 (byte_of msg i).
Proof.
  intros Hm. unfold byte_of. rewrite nth_lookup. destruct (msg !! i) as [b|] eqn:Hb; simpl.
  - by eapply Forall_lookup_1.
  - unfold is_u8. lia.
Qed.

Lemma Forall_u8_write msg at_ new : Forall is_u8 msg → Forall is_u8 new → Forall is_u8 (write_at msg at_ new).
Proof.
  intros Hm Hn. unfold write_at. rewrite !Forall_app. split_and!; [by apply Forall_take|done|by apply Forall_drop].
Qed.

(** ** Built replies *)

(** The id and the question of the requester. *)
Definition holds_request (r : Requester) (reply : bytes) : Prop :=
  let stop := (DNS_HEADER_LEN + length (req_question r))%nat in
  u16_at reply 0 = Some (req_id r) ∧ slice DNS_HEADER_LEN stop reply = req_question r ∧
  (stop ≤ length reply)%nat.

(** A requester made from a query ([requester_ok] of [from_query] is in [Handler]). *)
Record requester_wf (r : Requester) : Prop := {
  rw_id : is_u16 (req_id r);
  rw_question : (5 ≤ length (req_question r) ≤ 259)%nat;
  rw_bytes : Forall is_u8 (req_question r)
}.

Definition opt_len (r : Requester) : nat := if req_edns r is Some _ then OPT_LEN else 0.

Lemma opt_length r opt : Requester_opt r = Some opt → length opt = OPT_LEN.
Proof. unfold Requester_opt. intros (e & _ & ->)%fmap_Some. done. Qed.

Lemma opt_len_eq r : length (default [] (Requester_opt r)) = opt_len r.
Proof. unfold opt_len, Requester_opt. by destruct (req_edns r). Qed.

Lemma budget_opt r : (if Requester_opt r is Some _ then OPT_LEN else 0%nat) = opt_len r.
Proof. unfold opt_len, Requester_opt. by destruct (req_edns r). Qed.

(** The twelve header bytes of a built reply. *)
Definition built_header (r : Requester) (flags : Z * Z) (count : Z) : bytes :=
  to_be16 (req_id r) ++ [flags.1; flags.2] ++ to_be16 1 ++ to_be16 count ++ to_be16 0
    ++ to_be16 (if Requester_opt r is Some _ then 1 else 0).

Lemma build_split r flags recs count :
  Requester_build r flags recs count =
  built_header r flags count ++ req_question r ++ recs ++ default [] (Requester_opt r).
Proof. unfold Requester_build, built_header. by rewrite <-!app_assoc. Qed.

Lemma length_built_header r flags count : length (built_header r flags count) = DNS_HEADER_LEN.
Proof. done. Qed.

Lemma length_build r flags recs count : length (Requester_build r flags recs count) =
  (DNS_HEADER_LEN + length (req_question r) + length recs + opt_len r)%nat.
Proof. rewrite build_split, !length_app, length_built_header, opt_len_eq. lia. Qed.

Lemma build_holds_request r flags recs count : is_u16 (req_id r) →
  holds_request r (Requester_build r flags recs count).
Proof.
  intros Hid. unfold holds_request. split_and!.
  - unfold Requester_build. by rewrite u16_at_to_be16.
  - rewrite build_split. unfold slice. rewrite (drop_app_ge (built_header _ _ _)) by (rewrite length_built_header; lia).
    rewrite length_built_header, Nat.sub_diag, drop_0. apply take_app_length'. lia.
  - rewrite length_build. lia.
Qed.

Lemma build_lookup_records r flags recs count i : (i < length recs)%nat →
  Requester_build r flags recs count !! (DNS_HEADER_LEN + length (req_question r) + i)%nat = recs !! i.
Proof.
  intros Hi. rewrite build_split, lookup_app_r by (rewrite length_built_header; lia).
  rewrite length_built_header, lookup_app_r by lia. rewrite lookup_app_l by lia. f_equal. lia.
Qed.

Lemma build_count r flags recs count : is_u16 count →
  u16_at (Requester_build r flags recs count) 6 = Some count.
Proof. intros Hc. unfold u16_at, Requester_build. simpl. by rewrite be16_to_be16. Qed.

Lemma build_flags r flags recs count :
  byte_of (Requester_build r flags recs count) 2 = flags.1 ∧
  byte_of (Requester_build r flags recs count) 3 = flags.2.
Proof. done. Qed.

(** ** Sizes *)

Lemma udp_limit_bounds r : (512 ≤ udp_limit r ≤ 1232)%nat.
Proof. unfold udp_limit, CLASSIC_UDP_PAYLOAD, MAX_UDP_PAYLOAD. destruct (req_edns r); lia. Qed.

Lemma opt_len_le r : (opt_len r ≤ 11)%nat.
Proof. unfold opt_len, OPT_LEN. destruct (req_edns r); lia. Qed.

Lemma qtype_and_class_Some r : (4 ≤ length (req_question r))%nat →
  ∃ qtype qclass, qtype_and_class r = Some (qtype, qclass) ∧
    u16_at (req_question r) (length (req_question r) - 4) = Some qtype ∧
    u16_at (req_question r) (length (req_question r) - 2) = Some qclass.
Proof.
  intros Hl. unfold qtype_and_class. destruct (Nat.ltb_spec (length (req_question r)) 4); [lia|].
  assert (∀ i, (i + 1 < length (req_question r))%nat → is_Some (u16_at (req_question r) i)) as Hs.
  { intros i Hi. unfold u16_at. destruct (lookup_lt_is_Some_2 (req_question r) i ltac:(lia)) as [? ->].
    destruct (lookup_lt_is_Some_2 (req_question r) (S i) ltac:(lia)) as [? ->]. by eexists. }
  destruct (Hs (length (req_question r) - 4)%nat ltac:(lia)) as [qt ->].
  destruct (Hs (length (req_question r) - 2)%nat ltac:(lia)) as [qc ->]. by exists qt, qc.
Qed.

(** ** Fitting *)

Lemma fitting_le budget answers : (fitting budget answers ≤ length answers)%nat.
Proof. induction answers as [|a l IH]; simpl; [done|]. case_match; lia. Qed.

Lemma fitting_take budget answers : Forall (λ r, (ar_end r ≤ budget)%nat) (take (fitting budget answers) answers).
Proof.
  induction answers as [|a l IH]; simpl; [done|]. destruct (Nat.leb_spec (ar_end a) budget); [|done].
  simpl. by constructor.
Qed.

(** The first record left out does not fit. *)
Lemma fitting_maximal budget answers a : answers !! fitting budget answers = Some a → (budget < ar_end a)%nat.
Proof.
  induction answers as [|b l IH]; simpl; [done|]. destruct (Nat.leb_spec (ar_end b) budget); [done|].
  simpl. intros [= <-]. done.
Qed.

Lemma answer_records_length msg n at_ l : answer_records_loop msg n at_ = Some l → length l = n.
Proof.
  revert at_ l. induction n as [|n IH]; intros at_ l; simpl; [by intros [= <-]|].
  destruct (record_at msg at_) as [[[t rt] stop]|]; [|done].
  destruct (answer_records_loop msg n stop) as [l'|] eqn:Hl; [|done]. csimpl. intros [= <-].
  simpl. f_equal. by eapply IH.
Qed.

(** Where the kept records end. *)
Lemma kept_end_bounds msg n at_ l k : answer_records_loop msg n at_ = Some l → (at_ ≤ length msg)%nat →
  (at_ ≤ default at_ (ar_end <$> last (take k l)) ≤ length msg)%nat.
Proof.
  revert at_ l k. induction n as [|n IH]; intros at_ l k; simpl.
  - intros [= <-]. by rewrite take_nil.
  - destruct (record_at msg at_) as [[[t rt] stop]|] eqn:Hr; [|done].
    apply record_at_bounds in Hr as [Hb _].
    destruct (answer_records_loop msg n stop) as [l'|] eqn:Hl; [|done]. csimpl. intros [= <-] Hat.
    destruct k as [|k]; [done|]. specialize (IH _ _ k Hl ltac:(lia)). cbn [take].
    rewrite last_cons. destruct (last (take k l')); simpl in *; lia.
Qed.

Lemma kept_end_budget budget l d : (d ≤ budget)%nat →
  (default d (ar_end <$> last (take (fitting budget l) l)) ≤ budget)%nat.
Proof.
  intros Hd. destruct (last _) as [a|] eqn:Hl; simpl; [|done].
  apply last_Some_elem_of in Hl. pose proof (fitting_take budget l) as Hf. rewrite Forall_forall in Hf. by apply Hf.
Qed.

Definition tc_set (reply : bytes) : bool := Z.testbit (byte_of reply 2) 1.

Lemma tc_cleared r b rest recs count : tc_set (Requester_build r (Z.land b 0xfd, rest) recs count) = false.
Proof. unfold tc_set. rewrite (proj1 (build_flags _ _ _ _)). simpl fst. rewrite Z.land_spec. apply andb_false_r. Qed.

Lemma truncated_spec r reply stop : requester_wf r → (DNS_HEADER_LEN ≤ length reply)%nat →
  ∃ out, truncated r reply = Some out ∧ (length out ≤ udp_limit r)%nat ∧ holds_request r out ∧
    answer_records out stop = Some [] ∧ tc_set out = true.
Proof.
  intros Hw Hl. pose proof (rw_question _ Hw) as Hq. unfold truncated, DNS_HEADER_LEN in *.
  rewrite !lookup_byte_of by lia. csimpl. eexists. split; [done|]. split_and!.
  - rewrite length_build. simpl length.
    pose proof (udp_limit_bounds r). pose proof (opt_len_le r). unfold DNS_HEADER_LEN. lia.
  - apply build_holds_request, Hw.
  - unfold answer_records. rewrite build_count by (unfold is_u16; lia). done.
  - unfold tc_set. rewrite (proj1 (build_flags _ _ _ _)). simpl fst. rewrite Z.lor_spec. apply orb_true_r.
Qed.

Lemma build_answer_records r reply flags n l k : requester_wf r →
  let qe := (DNS_HEADER_LEN + length (req_question r))%nat in
  (qe ≤ length reply)%nat → answer_records_loop reply n qe = Some l → (k ≤ length l)%nat →
  is_u16 (Z.of_nat k) →
  answer_records (Requester_build r flags (slice qe (default qe (ar_end <$> last (take k l))) reply) (Z.of_nat k)) qe
  = Some (take k l).
Proof.
  intros Hwf qe Hqe Hl Hk Hu. unfold answer_records. rewrite build_count by done. csimpl. rewrite Nat2Z.id.
  pose proof (kept_end_bounds _ _ _ _ k Hl Hqe) as Hb.
  set (stop := default qe (ar_end <$> last (take k l))) in *.
  assert (length (slice qe stop reply) = (stop - qe)%nat) as Hsl by (apply length_slice; lia).
  eapply answer_records_loop_prefix; [done|done| |]; fold stop.
  - intros i Hi.
    pose proof (build_lookup_records r flags (slice qe stop reply) (Z.of_nat k) (i - qe) ltac:(lia)) as Hx.
    fold qe in Hx. rewrite lookup_slice in Hx by lia. by replace (qe + (i - qe))%nat with i in Hx by lia.
  - rewrite length_build, Hsl. lia.
Qed.

(** What [fit] returns, in the words of its comment. *)
Definition fit_result (r : Requester) (reply out : bytes) : Prop :=
  let qe := (DNS_HEADER_LEN + length (req_question r))%nat in
  let budget := (udp_limit r - opt_len r)%nat in
  if (length reply <=? udp_limit r)%nat then out = reply
  else
    match answer_records reply qe, qtype_and_class r with
    | Some answers, Some (qtype, _) =>
        let kept := take (fitting budget answers) answers in
        if match answers with [] => true | _ => existsb (λ a, (ar_rtype a =? qtype) || (qtype =? TYPE_ANY)) kept end
        then answer_records out qe = Some kept ∧ tc_set out = false
        else answer_records out qe = Some [] ∧ tc_set out = true
    | _, _ => answer_records out qe = Some [] ∧ tc_set out = true
    end.

Lemma fit_spec r reply : requester_wf r → holds_request r reply → Forall is_u8 reply →
  ∃ out, Requester_fit r reply = Some out ∧ (length out ≤ udp_limit r)%nat ∧ holds_request r out ∧
    fit_result r reply out.
Proof.
  intros Hwf Hr Hm. pose proof (rw_id _ Hwf) as Hid. pose proof (rw_question _ Hwf) as Hq.
  unfold Requester_fit, fit_result. destruct (Nat.leb_spec (length reply) (udp_limit r)) as [Hs|Hs].
  { exists reply. done. }
  rewrite budget_opt. set (qe := (DNS_HEADER_LEN + length (req_question r))%nat).
  assert (qe ≤ length reply)%nat as Hqe by apply Hr.
  pose proof (truncated_spec r reply qe Hwf ltac:(unfold qe in Hqe; lia)) as Htc.
  destruct (answer_records reply qe) as [l|] eqn:Hl; [|exact Htc].
  destruct (qtype_and_class_Some r ltac:(lia)) as (qt & qc & -> & _). csimpl.
  set (budget := (udp_limit r - opt_len r)%nat). set (k := fitting budget l).
  pose proof (fitting_le budget l) as Hk. fold k in Hk.
  rewrite (range_Some l) by lia. csimpl. rewrite slice_0_take.
  match goal with |- context [if ?b then _ else truncated _ _] => destruct b end; [|exact Htc].
  revert Hl. unfold answer_records. destruct (u16_at reply 6) as [an|] eqn:Han; [|done]. csimpl. intros Hl.
  apply u16_at_range in Han; [|done]. pose proof (answer_records_length _ _ _ _ Hl) as Hn.
  assert (is_u16 (Z.of_nat k)) as Hku by (unfold is_u16 in *; lia).
  rewrite (Z.mod_small (Z.of_nat k)) by exact Hku.
  pose proof (kept_end_bounds _ _ _ _ k Hl Hqe) as Hb.
  rewrite (lookup_byte_of reply 2), (lookup_byte_of reply 3) by (unfold qe, DNS_HEADER_LEN in Hqe; lia). csimpl.
  rewrite range_Some by lia. csimpl.
  eexists. split; [done|]. split_and!; [|by apply build_holds_request| |apply tc_cleared].
  - rewrite length_build. fold qe.
    rewrite length_slice by lia.
    pose proof (udp_limit_bounds r). pose proof (opt_len_le r).
    assert (default qe (ar_end <$> last (take k l)) ≤ budget)%nat as Hbud.
    { apply kept_end_budget. unfold budget, qe, DNS_HEADER_LEN. lia. }
    unfold budget in Hbud. lia.
  - by eapply build_answer_records.
Qed.

(** ** Parsed answers *)

Record answer_wf (ua : UpstreamAnswer) : Prop := {
  aw_u8 : Forall is_u8 (ua_bytes ua);
  aw_qe : (DNS_HEADER_LEN + 5 ≤ ua_question_end ua ≤ DNS_HEADER_LEN + 259)%nat;
  aw_spaced : spaced (ua_question_end ua) (length (ua_bytes ua)) (ua_ttl_offsets ua);
  aw_u16 : Forall (λ o, Z.of_nat o <= U16_MAX) (ua_ttl_offsets ua);
  aw_count : ∃ answers authorities additionals,
    u16_at (ua_bytes ua) 6 = Some answers ∧ u16_at (ua_bytes ua) 8 = Some authorities ∧
    u16_at (ua_bytes ua) 10 = Some additionals ∧
    (Z.to_nat answers + Z.to_nat authorities + Z.to_nat additionals = length (ua_ttl_offsets ua))%nat
}.

Lemma aw_length ua : answer_wf ua → (ua_question_end ua ≤ length (ua_bytes ua))%nat.
Proof. intros Hw. pose proof (spaced_length _ _ _ (aw_spaced _ Hw)). lia. Qed.

Lemma u16_at_take msg n i : (i + 1 < n)%nat → u16_at (take n msg) i = u16_at msg i.
Proof. intros Hi. apply u16_at_ext; apply lookup_take_lt; lia. Qed.

Lemma length_write_u16 msg at_ v : (at_ + 2 ≤ length msg)%nat → length (write_at msg at_ (to_be16 v)) = length msg.
Proof. apply (length_write_at msg at_ (to_be16 v)). Qed.

Lemma u16_at_write msg at_ v : is_u16 v → (at_ + 2 ≤ length msg)%nat → u16_at (write_at msg at_ (to_be16 v)) at_ = Some v.
Proof.
  intros Hv Hl. unfold u16_at. rewrite !lookup_write_at by (simpl; lia).
  rewrite !decide_True by (simpl; lia). rewrite Nat.sub_diag. replace (S at_ - at_)%nat with 1%nat by lia.
  simpl. by rewrite be16_to_be16.
Qed.

Lemma u16_at_write_ne msg at_ v i : (at_ + 2 ≤ length msg)%nat → (i + 1 < at_ ∨ at_ + 2 ≤ i)%nat →
  u16_at (write_at msg at_ (to_be16 v)) i = u16_at msg i.
Proof. intros Hl Hi. apply u16_at_ext; apply lookup_write_at_ne; simpl; lia. Qed.

Lemma question_key_ext msg msg' stop : (stop ≤ length msg)%nat → (stop ≤ length msg')%nat →
  (∀ i, (DNS_HEADER_LEN ≤ i < stop)%nat → msg' !! i = msg !! i) →
  question_key msg' stop = question_key msg stop.
Proof.
  intros Hl Hl' He. unfold question_key.
  assert (range msg' DNS_HEADER_LEN stop = range msg DNS_HEADER_LEN stop) as ->; [|done].
  destruct (decide (DNS_HEADER_LEN ≤ stop)%nat) as [Hs|Hs];
    [|unfold range; by rewrite (proj2 (Nat.leb_gt _ _)) by lia].
  rewrite !range_Some by lia. f_equal.
  apply list_eq_same_length with (stop - DNS_HEADER_LEN)%nat; [by apply length_slice..|].
  intros i x y Hi Hx Hy. rewrite lookup_slice in Hx, Hy by lia.
  rewrite He in Hx by lia. congruence.
Qed.

(** What is kept of the answer: its bytes up to the OPT record, or all records, with the
    count of additional records corrected. *)
Lemma strip_opt_spec wire qe found bs : Forall is_u8 wire → (DNS_HEADER_LEN ≤ qe ≤ length wire)%nat →
  records wire qe = Some (Some found) → strip_opt wire found = Some (Ok bs) →
  Forall is_u8 bs ∧ (qe ≤ length bs ≤ length wire)%nat ∧ spaced qe (length bs) (ttl_offsets found) ∧
  Forall (λ o, Z.of_nat o <= U16_MAX) (ttl_offsets found) ∧
  (∀ i, (i < length bs)%nat → (i < 10 ∨ 12 ≤ i)%nat → bs !! i = wire !! i) ∧
  ∃ an ns ar, u16_at bs 6 = Some an ∧ u16_at bs 8 = Some ns ∧ u16_at bs 10 = Some ar ∧
    (Z.to_nat an + Z.to_nat ns + Z.to_nat ar = length (ttl_offsets found))%nat.
Proof.
  unfold DNS_HEADER_LEN. intros Hm Hqe Hr Hs.
  apply records_spec in Hr as (an & ns & ar & Han & Hns & Har & [Hsp Hu Ho Hc] & Hend & Hpos); [|lia].
  assert (is_u16 ar) as Haru by (by eapply u16_at_range).
  revert Hs. unfold strip_opt. rewrite range_Some by lia. csimpl. rewrite slice_0_take.
  destruct (rec_opt found) as [[s e]|] eqn:Hopt.
  - destruct (Nat.eqb_spec e (rec_end found)) as [->|]; [|done]. simpl negb. cbv iota.
    destruct (Ho _ _ eq_refl) as [Hse Hss]. specialize (Hss eq_refl).
    specialize (Hpos ltac:(by eexists)).
    rewrite take_take, (Nat.min_l s) by lia.
    assert (length (take s wire) = s) as Hl by (rewrite length_take; lia).
    pose proof (spaced_length _ _ _ Hss) as Hsl.
    assert (u16_at (take s wire) 10 = Some ar) as Hart by (rewrite u16_at_take by lia; done).
    unfold additionals_of. rewrite Hart. csimpl. unfold wrap16. rewrite Z.mod_small by (unfold is_u16 in *; lia).
    rewrite set_u16_Some by lia. csimpl. intros [= <-].
    rewrite length_write_u16 by lia. rewrite Hl.
    split_and!; try done; try lia.
    + apply Forall_u8_write; [by apply Forall_take|apply to_be16_u8].
    + intros i Hi Hne. rewrite lookup_write_at_ne by (rewrite ?Hl; simpl; lia).
      apply lookup_take_lt. lia.
    + exists an, ns, (ar - 1). rewrite !u16_at_write_ne by (rewrite ?Hl; simpl; lia).
      rewrite !u16_at_take by lia. rewrite u16_at_write by (unfold is_u16 in *; rewrite ?Hl; lia).
      split_and!; try done. unfold is_u16 in *. lia.
  - intros [= <-].
    assert (length (take (rec_end found) wire) = rec_end found) as Hl by (rewrite length_take; lia).
    pose proof (spaced_length _ _ _ Hsp) as Hsl.
    rewrite Hl. split_and!; try done; try lia.
    + by apply Forall_take.
    + intros i Hi _. by apply lookup_take_lt.
    + exists an, ns, ar. rewrite !u16_at_take by lia. split_and!; (done || lia).
Qed.

Section ParseFacts.
Context `{Hickory}.
#[local] Set Default Proof Using "Type*".

(** The stages of [UpstreamAnswer::parse]. *)
Lemma parse_Ok wire key ua : UpstreamAnswer_parse wire key = Some (Ok ua) →
  ∃ m qe found bs, from_vec wire = Some m ∧ is_response wire = Some true ∧ question_end wire = Some qe ∧
    question_key wire qe = Some key ∧ records wire qe = Some (Some found) ∧ extended_rcode found = 0 ∧
    strip_opt wire found = Some (Ok bs) ∧
    ua = {| ua_bytes := bs; ua_ttl_offsets := ttl_offsets found; ua_question_end := qe |}.
Proof.
  unfold UpstreamAnswer_parse. destruct (from_vec wire) as [m|] eqn:Hm; [|done].
  destruct (is_response wire) as [[]|] eqn:Hr; csimpl; [|by destruct (wire !! _)|done].
  destruct (wire !! 2%nat) as [flags|]; csimpl; [|done].
  destruct (Z.land _ 15 =? 0); [simpl|done].
  destruct (question_end wire) as [qe|] eqn:Hq; [|done].
  destruct (question_key wire qe) as [asked|] eqn:Hk; csimpl; [|done].
  case_bool_decide; [subst asked; simpl|done].
  destruct (records wire qe) as [[found|]|] eqn:Hf; csimpl; [|done..].
  destruct (Z.eqb_spec (extended_rcode found) 0) as [He|]; [simpl|done].
  destruct (strip_opt wire found) as [[bs|]|] eqn:Hs; csimpl; [|done..]. intros [= <-].
  by exists m, qe, found, bs.
Qed.

(** No slice of [parse] is out of range: a message that decodes has a header. *)
Lemma parse_total wire key : is_Some (UpstreamAnswer_parse wire key).
Proof.
  unfold UpstreamAnswer_parse. destruct (from_vec wire) as [m|] eqn:Hm; [|by eexists].
  apply from_vec_header in Hm. unfold DNS_HEADER_LEN in Hm. unfold is_response.
  rewrite lookup_byte_of by lia. csimpl.
  destruct (_ || _); [by eexists|]. destruct (question_end wire) as [qe|] eqn:Hq; [|by eexists].
  apply question_end_bounds in Hq as [Hb _].
  destruct (question_key_Some wire qe ltac:(unfold DNS_HEADER_LEN in *; lia)) as (asked & -> & _). csimpl.
  destruct (negb _); [by eexists|].
  destruct (records_total wire qe) as [[found|] Hf]; rewrite Hf; csimpl; [|by eexists].
  destruct (negb _); [by eexists|].
  apply records_spec in Hf as (an & ns & ar & _ & _ & _ & Hinv & Hend & _); [|lia].
  unfold strip_opt. rewrite range_Some by lia. csimpl. rewrite slice_0_take.
  destruct (rec_opt found) as [[s e]|] eqn:Hopt; csimpl; [|by eexists].
  apply (ri_opt _ _ _ _ Hinv) in Hopt as [Hse _].
  destruct (negb _); csimpl; [by eexists|].
  assert (12 ≤ length (take s (take (rec_end found) wire)))%nat as Hl
    by (rewrite !length_take; unfold DNS_HEADER_LEN in *; lia).
  unfold additionals_of, u16_at. rewrite !lookup_byte_of by lia. csimpl.
  rewrite set_u16_Some by lia. by eexists.
Qed.

Lemma parse_wf wire key ua : Forall is_u8 wire → UpstreamAnswer_parse wire key = Some (Ok ua) →
  answer_wf ua ∧ question_key (ua_bytes ua) (ua_question_end ua) = Some key ∧
  length key = (ua_question_end ua - DNS_HEADER_LEN)%nat.
Proof.
  intros Hu8 (m & qe & found & bs & _ & _ & Hqe & Hk & Hf & _ & Hs & ->)%parse_Ok. simpl.
  apply question_end_bounds in Hqe as [Hb _].
  destruct (strip_opt_spec wire qe found bs Hu8 ltac:(lia) Hf Hs)
    as (Hbs & Hlen & Hsp & Hu16 & Heq & Hcnt).
  split; [constructor; cbn [ua_bytes ua_ttl_offsets ua_question_end]; [done|lia|done..]|]. split.
  - rewrite <-Hk. apply question_key_ext; [lia..|]. intros i Hi. unfold DNS_HEADER_LEN in *. apply Heq; lia.
  - by apply question_key_length in Hk as [_ ?].
Qed.
End ParseFacts.

(** ** Rendering *)

Lemma sat_sub_u32 ttl elapsed : is_u32 ttl → 0 <= elapsed → is_u32 (sat_sub ttl elapsed).
Proof. unfold is_u32, sat_sub. lia. Qed.

Lemma lower_ttls_spec ua elapsed lo offs out : 0 <= elapsed → Forall is_u8 (ua_bytes ua) →
  spaced lo (length (ua_bytes ua)) offs → length out = length (ua_bytes ua) →
  ∃ out', lower_ttls ua elapsed offs out = Some out' ∧ length out' = length out ∧
    (Forall is_u8 out → Forall is_u8 out') ∧
    (∀ i, (∀ o, o ∈ offs → (i < o ∨ o + 4 ≤ i)%nat) → out' !! i = out !! i) ∧
    (∀ o, o ∈ offs → ∃ ttl, ttl_at ua o = Some ttl ∧ u32_at out' o = Some (sat_sub ttl elapsed)).
Proof.
  intros He Hu. revert lo out. induction offs as [|o offs IH]; intros lo out Hsp Hl; cbn [lower_ttls].
  - exists out. split_and!; try done. by intros o Ho%elem_of_nil.
  - destruct Hsp as [Ho Hsp]. pose proof (spaced_length _ _ _ Hsp) as Hh.
    destruct (u32_at_is_Some (ua_bytes ua) o ltac:(lia)) as [ttl Ht]. unfold ttl_at at 1. rewrite Ht. csimpl.
    rewrite copy_range_spec by (simpl; lia). csimpl.
    assert (length (write_at out o (to_be32 (sat_sub ttl elapsed))) = length out) as Hw
      by (apply length_write_at; simpl; lia).
    destruct (IH _ (write_at out o (to_be32 (sat_sub ttl elapsed))) Hsp ltac:(lia))
      as (out' & Hrun & Hl' & Hu' & Heq & Httl).
    assert (∀ i, (i < o + 6)%nat → out' !! i = write_at out o (to_be32 (sat_sub ttl elapsed)) !! i) as Hbelow.
    { intros i Hi. apply Heq. intros o' Ho'. apply (spaced_elem _ _ _ _ Hsp) in Ho'. lia. }
    exists out'. split_and!; [done|lia| | |].
    + intros Ho8. apply Hu', Forall_u8_write; [done|apply to_be32_u8].
    + intros i Hi. rewrite Heq by (intros; apply Hi; by right).
      apply lookup_write_at_ne; [simpl; lia|]. apply (Hi o). by left.
    + intros o' [->|Ho']%elem_of_cons; [|by apply Httl]. exists ttl. split; [done|].
      rewrite (u32_at_ext (write_at out o (to_be32 (sat_sub ttl elapsed)))) by (intros; apply Hbelow; lia).
      apply u32_at_write; [|lia]. apply sat_sub_u32; [|done]. by eapply u32_at_range.
Qed.

(** Bytes 0 to 255, one by one. *)
Lemma u8_cases (P : Z → Prop) `{∀ x, base.Decision (P x)} :
  bool_decide (Forall P (seqZ 0 256)) = true → ∀ b, is_u8 b → P b.
Proof.
  intros HP%bool_decide_eq_true b Hb. rewrite Forall_forall in HP. apply HP.
  apply elem_of_seqZ. unfold is_u8 in Hb. lia.
Qed.

Lemma rd_byte_u8 b (rd : bool) : is_u8 b → is_u8 (Z.lor (Z.land b 0xfe) (Z.b2z rd)).
Proof.
  assert (∀ c, is_u8 c → 0 <= Z.lor (Z.land c 0xfe) 0 < 256 ∧ 0 <= Z.lor (Z.land c 0xfe) 1 < 256) as Hall.
  { apply (u8_cases _). vm_compute. reflexivity. }
  intros Hb. apply Hall in Hb. unfold is_u8. destruct rd; simpl Z.b2z; lia.
Qed.

Lemma opt_u8 r opt : Requester_opt r = Some opt → Forall is_u8 opt.
Proof.
  unfold Requester_opt. intros (e & _ & ->)%fmap_Some. apply Forall_app. split.
  - repeat constructor; unfold is_u8; lia.
  - apply Forall_app. split; [apply to_be16_u8|].
    destruct (dnssec_ok e); repeat constructor; unfold is_u8; lia.
Qed.

(** The TTL bytes of an answer. *)
Definition ttl_byte (ua : UpstreamAnswer) (i : nat) : Prop :=
  ∃ o, o ∈ ua_ttl_offsets ua ∧ (o ≤ i < o + 4)%nat.

(** [ua] as it is sent to [r] after [elapsed] seconds, before it is cut to size. *)
Record rendered (ua : UpstreamAnswer) (r : Requester) (elapsed : Z) (out : bytes) : Prop := {
  rd_u8 : Forall is_u8 out;
  rd_length : length out = (length (ua_bytes ua) + opt_len r)%nat;
  rd_request : holds_request r out;
  rd_ttls : ∀ o, o ∈ ua_ttl_offsets ua →
    ∃ ttl, ttl_at ua o = Some ttl ∧ u32_at out o = Some (sat_sub ttl elapsed);
  rd_rest : ∀ i, (i = 3 ∨ 4 ≤ i < 10 ∨ ua_question_end ua ≤ i < length (ua_bytes ua))%nat →
    ¬ ttl_byte ua i → out !! i = ua_bytes ua !! i;
  rd_additionals : ∃ additionals, additionals_of (ua_bytes ua) = Some additionals ∧
    u16_at out 10 = Some (additionals + (if req_edns r is Some _ then 1 else 0))
}.

Lemma not_ttl_byte_low ua i : answer_wf ua → (i < ua_question_end ua)%nat → ¬ ttl_byte ua i.
Proof. intros Hw Hi (o & Ho & Hr). apply (spaced_elem _ _ _ _ (aw_spaced _ Hw)) in Ho. lia. Qed.

Lemma additionals_small ua : answer_wf ua →
  ∃ ar, u16_at (ua_bytes ua) 10 = Some ar ∧ 0 <= ar < U16_MAX.
Proof.
  intros Hw. destruct (aw_count _ Hw) as (an & ns & ar & _ & _ & Har & Hc). exists ar. split; [done|].
  apply u16_at_range in Har as Hr; [|apply Hw].
  destruct (ua_ttl_offsets ua) as [|o offs _] eqn:Ho using rev_ind.
  - simpl in Hc. unfold U16_MAX, is_u16 in *. lia.
  - rewrite length_app in Hc. simpl in Hc. pose proof (aw_u16 _ Hw) as Hu. rewrite Ho in Hu.
    apply Forall_app in Hu as [_ Hu]. inversion Hu as [|? ? Hoo]; subst. clear Hu.
    pose proof (aw_spaced _ Hw) as Hs. rewrite Ho in Hs.
    pose proof (spaced_last _ _ _ _ Hs) as Hle.
    unfold U16_MAX, is_u16 in *. lia.
Qed.

(** The header and question writes of [render]. *)
Definition rendered_head (ua : UpstreamAnswer) (r : Requester) : bytes :=
  let out := write_at (ua_bytes ua) 0 (to_be16 (req_id r)) in
  let out := <[2%nat := Z.lor (Z.land (byte_of out 2) 0xfe) (Z.b2z (req_recursion_desired r))]> out in
  write_at out DNS_HEADER_LEN (req_question r).

Lemma rendered_head_spec ua r : answer_wf ua → requester_wf r →
  length (req_question r) = (ua_question_end ua - DNS_HEADER_LEN)%nat →
  let out := rendered_head ua r in
  Forall is_u8 out ∧ length out = length (ua_bytes ua) ∧ holds_request r out ∧
  (∀ i, (3 ≤ i < 12 ∨ ua_question_end ua ≤ i)%nat → out !! i = ua_bytes ua !! i).
Proof.
  intros Hw Hr Hq out. pose proof (aw_length _ Hw) as Hl. pose proof (aw_qe _ Hw) as Hqe.
  unfold DNS_HEADER_LEN in *. unfold out, rendered_head, DNS_HEADER_LEN.
  assert (length (write_at (ua_bytes ua) 0 (to_be16 (req_id r))) = length (ua_bytes ua)) as Hl0
    by (apply length_write_u16; lia).
  set (m0 := write_at (ua_bytes ua) 0 (to_be16 (req_id r))) in *.
  set (b2 := Z.lor (Z.land (byte_of m0 2) 0xfe) (Z.b2z (req_recursion_desired r))).
  assert (length (<[2%nat := b2]> m0) = length (ua_bytes ua)) as Hl1 by (rewrite length_insert; done).
  assert (Forall is_u8 m0) as Hm0 by (apply Forall_u8_write; [apply Hw|apply to_be16_u8]).
  split_and!.
  - apply Forall_u8_write; [|apply Hr]. apply Forall_insert; [done|]. apply rd_byte_u8. by apply byte_of_u8.
  - rewrite length_write_at by lia. done.
  - split_and!.
    + rewrite (u16_at_ext m0) by (rewrite lookup_write_at_ne by lia; by rewrite list_lookup_insert_ne by lia).
      apply u16_at_write; [apply Hr|lia].
    + unfold write_at, slice, DNS_HEADER_LEN. rewrite drop_app_length' by (rewrite length_take; lia).
      apply take_app_length'. lia.
    + rewrite length_write_at by lia. unfold DNS_HEADER_LEN. lia.
  - intros i Hi. rewrite lookup_write_at_ne by lia. rewrite list_lookup_insert_ne by lia.
    apply lookup_write_at_ne; simpl; lia.
Qed.

Lemma holds_request_ext r out out' : holds_request r out → (length out ≤ length out')%nat →
  (∀ i, (i < DNS_HEADER_LEN + length (req_question r) ∧ (i < 2 ∨ 12 ≤ i))%nat → out' !! i = out !! i) →
  holds_request r out'.
Proof.
  unfold holds_request. set (stop := (DNS_HEADER_LEN + length (req_question r))%nat).
  intros (Hid & Hs & Hl) Hle He. split_and!; [| |lia].
  - rewrite (u16_at_ext out) by (apply He; unfold stop, DNS_HEADER_LEN; lia). done.
  - rewrite <-Hs. apply list_eq_same_length with (stop - DNS_HEADER_LEN)%nat; [apply length_slice; lia..|].
    intros i x y Hi Hx Hy. rewrite lookup_slice in Hx, Hy by lia.
    rewrite He in Hx by (unfold stop, DNS_HEADER_LEN in *; lia). congruence.
Qed.

(** The requester without EDNS: what is rendered before OPT is appended. *)
Definition without_edns (r : Requester) : Requester :=
  {| req_id := req_id r; req_recursion_desired := req_recursion_desired r;
     req_question := req_question r; req_edns := None |}.

Lemma render_records ua r elapsed : answer_wf ua → requester_wf r →
  length (req_question r) = (ua_question_end ua - DNS_HEADER_LEN)%nat → 0 <= elapsed →
  ∃ out, lower_ttls ua elapsed (ua_ttl_offsets ua) (rendered_head ua r) = Some out ∧
    rendered ua (without_edns r) elapsed out.
Proof.
  intros Hw Hr Hq He. pose proof (aw_length _ Hw) as Hl. pose proof (aw_qe _ Hw) as Hqe.
  destruct (rendered_head_spec ua r Hw Hr Hq) as (Hh8 & Hhl & Hhr & Hhe).
  destruct (additionals_small ua Hw) as (ar & Har & Harb).
  destruct (lower_ttls_spec ua elapsed _ _ (rendered_head ua r) He (aw_u8 _ Hw) (aw_spaced _ Hw) Hhl)
    as (out & Hrun & Hol & Ho8 & Hoe & Hot).
  assert (∀ i, ¬ ttl_byte ua i → out !! i = rendered_head ua r !! i) as Hoe'.
  { intros i Hi. apply Hoe. intros o Ho. destruct (decide (o ≤ i < o + 4)%nat); [|lia].
    destruct Hi. by exists o. }
  exists out. split; [done|]. unfold DNS_HEADER_LEN in *. constructor; simpl.
  - by apply Ho8.
  - unfold opt_len. simpl. lia.
  - apply (holds_request_ext (without_edns r) (rendered_head ua r)); [exact Hhr|lia|].
    unfold DNS_HEADER_LEN. simpl. intros i Hi. apply Hoe', not_ttl_byte_low; [done|lia].
  - done.
  - intros i Hi Hnt. rewrite Hoe' by done. apply Hhe. lia.
  - exists ar. rewrite Z.add_0_r. split; [done|].
    rewrite (u16_at_ext (ua_bytes ua)); [done|..];
      (rewrite Hoe' by (apply not_ttl_byte_low; [done|lia]); apply Hhe; lia).
Qed.

Lemma append_opt ua r elapsed out opt : answer_wf ua → requester_wf r →
  rendered ua (without_edns r) elapsed out → Requester_opt r = Some opt →
  ∃ out', (additionals ← additionals_of (out ++ opt); set_u16 (out ++ opt) 10 (wrap16 (additionals + 1))) = Some out' ∧
    rendered ua r elapsed out'.
Proof.
  intros Hw Hr [Ho8 Hol Hor Hot Hoe Hoa] Hopt. pose proof (aw_length _ Hw) as Hl.
  pose proof (aw_qe _ Hw) as Hqe. pose proof (opt_length _ _ Hopt) as Hlen.
  assert (opt_len r = OPT_LEN ∧ is_Some (req_edns r)) as [Hopl [e Hed]].
  { unfold opt_len. unfold Requester_opt in Hopt. destruct (req_edns r); [|done]. by split. }
  destruct (additionals_small ua Hw) as (ar & Har & Harb). destruct Hoa as (ar' & Hao & Hoa).
  unfold additionals_of in Hao. assert (ar' = ar) as -> by congruence.
  unfold opt_len, DNS_HEADER_LEN in *. simpl in Hol, Hoa. rewrite Z.add_0_r in Hoa.
  assert (u16_at (out ++ opt) 10 = Some ar) as Hca by (rewrite u16_at_app_l by lia; done).
  assert (length (out ++ opt) = (length (ua_bytes ua) + OPT_LEN)%nat) as Hll by (rewrite length_app; lia).
  unfold additionals_of at 1. rewrite Hca. csimpl. unfold wrap16.
  rewrite Z.mod_small, set_u16_Some by (unfold U16_MAX in *; lia). eexists. split; [done|].
  assert (∀ i, (i < length out)%nat → (i < 10 ∨ 12 ≤ i)%nat →
    write_at (out ++ opt) 10 (to_be16 (ar + 1)) !! i = out !! i) as Hsame.
  { intros i Hi Hne. rewrite lookup_write_at_ne by (simpl; lia). by apply lookup_app_l. }
  constructor; rewrite ?Hed.
  - apply Forall_u8_write; [|apply to_be16_u8]. apply Forall_app. split; [done|]. by eapply opt_u8.
  - rewrite length_write_u16 by lia. unfold opt_len. rewrite Hed. done.
  - apply (holds_request_ext r out); [exact Hor|rewrite length_write_u16 by lia; lia|].
    intros i Hi. destruct Hor as (_ & _ & Hlr). cbn [without_edns req_question] in Hlr. apply Hsame; lia.
  - intros o Ho. destruct (Hot _ Ho) as (ttl & Ht & Hu). exists ttl. split; [done|].
    apply (spaced_elem _ _ _ _ (aw_spaced _ Hw)) in Ho.
    rewrite (u32_at_ext out); [done|]. intros i Hi. apply Hsame; lia.
  - intros i Hi Hnt. rewrite Hsame by lia. by apply Hoe.
  - exists ar. split; [done|]. apply u16_at_write; [unfold is_u16, U16_MAX in *; lia|lia].
Qed.

Lemma render_whole_spec ua r elapsed : answer_wf ua → requester_wf r →
  length (req_question r) = (ua_question_end ua - DNS_HEADER_LEN)%nat → 0 <= elapsed →
  ∃ out, render_whole ua r elapsed = Some out ∧ rendered ua r elapsed out.
Proof.
  intros Hw Hr Hq He. pose proof (aw_length _ Hw) as Hl. pose proof (aw_qe _ Hw) as Hqe.
  destruct (render_records ua r elapsed Hw Hr Hq He) as (out & Hrun & Ho).
  unfold render_whole. unfold DNS_HEADER_LEN in Hqe. rewrite set_u16_Some by lia. cbn [mbind option_bind].
  rewrite lookup_byte_of by (rewrite length_write_u16; lia). cbn [mbind option_bind].
  rewrite copy_range_spec; [|rewrite length_insert, length_write_u16; unfold DNS_HEADER_LEN in *; lia|done].
  csimpl. change (write_at _ _ _) with (rendered_head ua r). rewrite Hrun. csimpl.
  destruct (Requester_opt r) as [opt|] eqn:Hopt.
  - by apply append_opt.
  - exists out. split; [done|].
    assert (r = without_edns r) as Hrr; [|by rewrite Hrr].
    unfold Requester_opt in Hopt. by destruct r as [? ? ? []].
Qed.

(** What [render] sends: the whole answer cut to the requester's size. *)
Lemma render_spec ua r elapsed : answer_wf ua → requester_wf r →
  length (req_question r) = (ua_question_end ua - DNS_HEADER_LEN)%nat → 0 <= elapsed →
  ∃ whole out, rendered ua r elapsed whole ∧ UpstreamAnswer_render ua r elapsed = Some out ∧
    (length out ≤ udp_limit r)%nat ∧ holds_request r out ∧ fit_result r whole out.
Proof.
  intros Hw Hr Hq He. destruct (render_whole_spec ua r elapsed Hw Hr Hq He) as (whole & Hwh & Hrd).
  destruct (fit_spec r whole Hr (rd_request _ _ _ _ Hrd) (rd_u8 _ _ _ _ Hrd)) as (out & Hf & ? & ? & ?).
  exists whole, out. split; [done|]. unfold UpstreamAnswer_render. by rewrite Hwh.
Qed.

(** ** The smallest TTL *)

Lemma min_ttl_Some ua : answer_wf ua → ∃ t, min_ttl ua = Some t ∧ is_u32 t.
Proof.
  intros Hw. unfold min_ttl.
  assert (∀ offs, (∀ o, o ∈ offs → o ∈ ua_ttl_offsets ua) →
    ∃ ttls, collect_options (ttl_at ua) offs = Some ttls ∧ Forall is_u32 ttls) as Hall.
  { induction offs as [|o offs IH]; intros Hsub; [by exists []|]. simpl.
    assert (o ∈ ua_ttl_offsets ua) as Ho by (apply Hsub; by left).
    apply (spaced_elem _ _ _ _ (aw_spaced _ Hw)) in Ho.
    destruct (u32_at_is_Some (ua_bytes ua) o ltac:(lia)) as [t Ht].
    assert (ttl_at ua o = Some t) as -> by done. csimpl.
    destruct IH as (ts & -> & Hts); [intros ? Hx; apply Hsub; by right|]. csimpl.
    exists (t :: ts). split; [done|]. constructor; [|done]. eapply u32_at_range; [apply Hw|done]. }
  destruct (Hall _ (λ o Ho, Ho)) as (ttls & -> & Ht). csimpl. eexists. split; [done|].
  destruct Ht as [|t ttls Ht Hts]; simpl; [unfold is_u32; lia|].
  revert t Ht. induction Hts as [|x ttls Hx Hts IH]; intros t Ht; simpl; [done|].
  apply IH. unfold is_u32 in *. lia.
Qed.

(** ** Records written by the core

    Both the blocked reply and the local answers write records whose owner is a pointer to the
    question's name. *)
Definition pointer_record (rtype rclass ttl : Z) (data : bytes) : bytes :=
  [0xc0; 0x0c] ++ to_be16 rtype ++ to_be16 rclass ++ to_be32 ttl ++ to_be16 (len data) ++ data.

Lemma length_pointer_record t c ttl data : length (pointer_record t c ttl data) = (12 + length data)%nat.
Proof. done. Qed.

(** [msg] holds [l] at an offset. *)
Definition holds_at (msg : bytes) (at_ : nat) (l : bytes) : Prop :=
  ∀ i x, l !! i = Some x → msg !! (at_ + i)%nat = Some x.

Lemma holds_at_length msg at_ l : l ≠ [] → holds_at msg at_ l → (at_ + length l ≤ length msg)%nat.
Proof.
  intros Hne Hh. destruct (lookup_lt_is_Some_2 l (pred (length l))) as [x Hx].
  - destruct l; simpl; [done|lia].
  - apply Hh, lookup_lt_Some in Hx. destruct l; simpl in *; [done|lia].
Qed.

Lemma holds_at_slice msg at_ l : holds_at msg at_ l → slice at_ (at_ + length l) msg = l.
Proof.
  intros Hh. apply list_eq. intros i. destruct (Nat.lt_ge_cases i (length l)) as [Hi|Hi].
  - rewrite lookup_slice by lia. destruct (lookup_lt_is_Some_2 _ _ Hi) as [x Hx]. rewrite Hx. by apply Hh.
  - rewrite (lookup_ge_None_2 l) by done. apply lookup_ge_None_2. unfold slice. rewrite length_take. lia.
Qed.

Lemma holds_at_app msg at_ l k : holds_at msg at_ (l ++ k) ↔ holds_at msg at_ l ∧ holds_at msg (at_ + length l) k.
Proof.
  unfold holds_at. split.
  - intros Hh. split; intros i x Hi.
    + apply Hh. by apply lookup_app_l_Some.
    + rewrite <-Nat.add_assoc. apply Hh. rewrite lookup_app_r by lia.
      by replace (length l + i - length l)%nat with i by lia.
  - intros [Hl Hk] i x [Hi|[Hge Hi]]%lookup_app_Some; [by apply Hl|].
    apply Hk in Hi. by replace (at_ + i)%nat with (at_ + length l + (i - length l))%nat by lia.
Qed.

Lemma holds_at_u16 msg at_ v : is_u16 v → holds_at msg at_ (to_be16 v) → u16_at msg at_ = Some v.
Proof.
  intros Hv Hh. unfold u16_at. pose proof (Hh 0%nat _ eq_refl) as H0. pose proof (Hh 1%nat _ eq_refl) as H1.
  rewrite Nat.add_0_r in H0. rewrite Nat.add_1_r in H1. rewrite H0, H1. csimpl. by rewrite be16_to_be16.
Qed.

Lemma holds_at_u32 msg at_ v : is_u32 v → holds_at msg at_ (to_be32 v) → u32_at msg at_ = Some v.
Proof.
  intros Hv Hh. unfold u32_at. pose proof (Hh 0%nat _ eq_refl) as H0. pose proof (Hh 1%nat _ eq_refl) as H1.
  pose proof (Hh 2%nat _ eq_refl) as H2. pose proof (Hh 3%nat _ eq_refl) as H3.
  rewrite Nat.add_0_r in H0. rewrite H0, H1, H2, H3. csimpl. by rewrite be32_to_be32.
Qed.

Lemma pointer_record_at msg at_ t c ttl data : is_u16 t → is_u32 ttl → len data <= U16_MAX →
  holds_at msg at_ (pointer_record t c ttl data) →
  record_at msg at_ = Some ((at_ + 2)%nat, t, (at_ + 12 + length data)%nat) ∧
  u32_at msg (at_ + 6) = Some ttl ∧ holds_at msg (at_ + 12) data.
Proof.
  intros Ht Httl Hd Hh. apply holds_at_length in Hh as Hlen; [|discriminate].
  rewrite length_pointer_record in Hlen.
  pose proof (Hh 0%nat _ eq_refl) as Hp0. pose proof (Hh 1%nat _ eq_refl) as Hp1.
  rewrite Nat.add_0_r in Hp0. rewrite Nat.add_1_r in Hp1.
  unfold pointer_record in Hh. rewrite !holds_at_app in Hh. destruct Hh as (_ & H1 & H2 & H3 & H4 & H5).
  cbn [length to_be16 to_be32] in *. rewrite <-!Nat.add_assoc in *. cbn [Nat.add] in H2, H3, H4, H5.
  split_and!.
  - unfold record_at. assert (skip_name msg at_ true = Some (at_ + 2)%nat) as ->.
    { apply skip_name_spec. eapply name_pointer; [done|done|done|done]. }
    csimpl. rewrite (holds_at_u16 _ _ _ Ht H1). csimpl.
    replace (at_ + 2 + 8)%nat with (at_ + 10)%nat by lia.
    rewrite (holds_at_u16 msg (at_ + 10) (len data)); [|unfold is_u16, U16_MAX, len in *; lia|done]. csimpl.
    replace (Z.to_nat (len data)) with (length data) by (unfold len; lia).
    match goal with |- context [(length msg <? ?n)%nat] => destruct (Nat.ltb_spec (length msg) n) end; [lia|].
    do 2 f_equal. lia.
  - by apply holds_at_u32.
  - done.
Qed.

Lemma build_holds_records r flags recs count : holds_at (Requester_build r flags recs count)
  (DNS_HEADER_LEN + length (req_question r)) recs.
Proof. intros i x Hx. apply lookup_lt_Some in Hx as Hl. by rewrite build_lookup_records. Qed.
