(* ===== verification/DnsCache.v ===== *)
(** * The answer cache ([dns/src/cache.rs])

    [LruCache] of the [lru] crate is the class [Lru]: a bounded map that may drop any entry but
    the one just put. The cache clamps each answer's life and ages it with the caller's clock. *)
From S2P Require Import Prelude RustStr Collections Wire Answer AnswerFacts.

(** ** The [lru] crate *)

Class Lru := {
  LruCache : Type → Type;
  lru_new {V} : nat → LruCache V;
  lru_len {V} : LruCache V → nat;
  lru_cap {V} : LruCache V → nat;
  lru_peek {V} : bytes → LruCache V → option V;
  lru_get {V} : bytes → LruCache V → option V * LruCache V;
  lru_put {V} : bytes → V → LruCache V → LruCache V;
  lru_pop {V} : bytes → LruCache V → LruCache V;
  lru_peek_new {V} cap k : lru_peek k (lru_new (V := V) cap) = None;
  lru_len_new {V} cap : lru_len (lru_new (V := V) cap) = 0%nat;
  lru_cap_new {V} cap : lru_cap (lru_new (V := V) cap) = cap;
  (** [get] finds what [peek] finds and only changes the order of use. *)
  lru_get_peek {V} k (c : LruCache V) : (lru_get k c).1 = lru_peek k c;
  lru_get_other {V} k k' (c : LruCache V) : lru_peek k' (lru_get k c).2 = lru_peek k' c;
  lru_get_size {V} k (c : LruCache V) : lru_len (lru_get k c).2 = lru_len c ∧ lru_cap (lru_get k c).2 = lru_cap c;
  (** [put] replaces the entry of its key and may drop another one. *)
  lru_put_same {V} k v (c : LruCache V) : (0 < lru_cap c)%nat → lru_peek k (lru_put k v c) = Some v;
  lru_put_other {V} k k' v v' (c : LruCache V) : k' ≠ k →
    lru_peek k' (lru_put k v c) = Some v' → lru_peek k' c = Some v';
  lru_put_size {V} k v (c : LruCache V) : (lru_len c ≤ lru_cap c)%nat →
    (lru_len (lru_put k v c) ≤ lru_cap c)%nat ∧ lru_cap (lru_put k v c) = lru_cap c;
  lru_put_len {V} k v (c : LruCache V) : (lru_len (lru_put k v c) ≤ S (lru_len c))%nat;
  (** An entry is only dropped when the cache is full. *)
  lru_put_room {V} k k' v (c : LruCache V) : k' ≠ k → (lru_len c < lru_cap c)%nat →
    lru_peek k' (lru_put k v c) = lru_peek k' c;
  lru_pop_same {V} k (c : LruCache V) : lru_peek k (lru_pop k c) = None;
  lru_pop_other {V} k k' (c : LruCache V) : k' ≠ k → lru_peek k' (lru_pop k c) = lru_peek k' c;
  lru_pop_size {V} k (c : LruCache V) : (lru_len (lru_pop k c) ≤ lru_len c)%nat ∧ lru_cap (lru_pop k c) = lru_cap c
}.

(** ** The cache *)

Definition CACHE_CAPACITY : nat := Z.to_nat 2000.
Definition MIN_CACHE_TTL : Z := 10.
Definition MAX_CACHE_TTL : Z := 3600.

Record CacheEntry := {
  ce_answer : UpstreamAnswer;
  ce_stored_at : Z;
  ce_lifetime : Z
}.

Section Cache.
Context `{Lru}.

Record AnswerCache := {
  ac_entries : LruCache CacheEntry;
  ac_max_ttl : Z
}.

Definition AnswerCache_with_limits (capacity : nat) (max_ttl : Z) : AnswerCache :=
  {| ac_entries := lru_new (Nat.max capacity 1);
     ac_max_ttl := Z.max max_ttl MIN_CACHE_TTL |}.
Definition AnswerCache_new : AnswerCache := AnswerCache_with_limits CACHE_CAPACITY MAX_CACHE_TTL.

(** [u32::clamp]. *)
Definition clamp (v lo hi : Z) : Z := Z.min (Z.max v lo) hi.

(** [None] when reading a TTL would panic. *)
Definition AnswerCache_insert (self : AnswerCache) (key : bytes) (answer : UpstreamAnswer) (now : Z)
    : option AnswerCache :=
  ttl ← min_ttl answer;
  let lifetime := clamp ttl MIN_CACHE_TTL (ac_max_ttl self) in
  let entry := {| ce_answer := answer; ce_stored_at := now; ce_lifetime := lifetime |} in
  Some {| ac_entries := lru_put key entry (ac_entries self); ac_max_ttl := ac_max_ttl self |}.

Definition AnswerCache_get (self : AnswerCache) (key : bytes) (now : Z)
    : option (UpstreamAnswer * Z) * AnswerCache :=
  match lru_peek key (ac_entries self) with
  | None => (None, self)
  | Some entry =>
      let elapsed := sat_sub now (ce_stored_at entry) in
      if ce_lifetime entry <=? elapsed then
        (None, {| ac_entries := lru_pop key (ac_entries self); ac_max_ttl := ac_max_ttl self |})
      else
        let '(entry, entries) := lru_get key (ac_entries self) in
        ((λ entry, (ce_answer entry, elapsed mod 2 ^ 32)) <$> entry,
         {| ac_entries := entries; ac_max_ttl := ac_max_ttl self |})
  end.

(** ** Lemmas *)

#[local] Set Default Proof Using "Type".

Definition cache_live (self : AnswerCache) (key : bytes) (now : Z) (entry : CacheEntry) : Prop :=
  lru_peek key (ac_entries self) = Some entry ∧ sat_sub now (ce_stored_at entry) < ce_lifetime entry.

Lemma cache_get_hit self key now entry : cache_live self key now entry →
  ce_lifetime entry <= U32_MAX →
  (AnswerCache_get self key now).1 = Some (ce_answer entry, sat_sub now (ce_stored_at entry)).
Proof.
  intros [Hp Hl] Hu. unfold AnswerCache_get. rewrite Hp.
  destruct (Z.leb_spec (ce_lifetime entry) (sat_sub now (ce_stored_at entry))); [lia|].
  pose proof (lru_get_peek key (ac_entries self)) as Hg. rewrite Hp in Hg.
  destruct (lru_get key (ac_entries self)) as [e c]. simpl in Hg. subst e. simpl.
  rewrite Z.mod_small; [done|]. unfold sat_sub, U32_MAX in *. lia.
Qed.

Lemma cache_get_Some self key now a e : (AnswerCache_get self key now).1 = Some (a, e) →
  ∃ entry, cache_live self key now entry ∧ a = ce_answer entry ∧
    e = sat_sub now (ce_stored_at entry) mod 2 ^ 32.
Proof.
  unfold AnswerCache_get. destruct (lru_peek key (ac_entries self)) as [entry|] eqn:Hp; [|done].
  destruct (Z.leb_spec (ce_lifetime entry) (sat_sub now (ce_stored_at entry))); [done|].
  pose proof (lru_get_peek key (ac_entries self)) as Hg. rewrite Hp in Hg.
  destruct (lru_get key (ac_entries self)) as [o c]. simpl in Hg. subst o. simpl.
  intros [= <- <-]. by exists entry.
Qed.

(** A lookup only removes. *)
Lemma cache_get_peek self key now k v : lru_peek k (ac_entries (AnswerCache_get self key now).2) = Some v →
  lru_peek k (ac_entries self) = Some v.
Proof.
  unfold AnswerCache_get. destruct (lru_peek key (ac_entries self)) as [entry|] eqn:Hp; [|done].
  case_match; simpl.
  - intros Hk. destruct (decide (k = key)) as [->|Hne]; [by rewrite lru_pop_same in Hk|].
    by rewrite lru_pop_other in Hk.
  - pose proof (lru_get_other key k (ac_entries self)) as Ho.
    destruct (lru_get key (ac_entries self)) as [o c]. simpl in *. by rewrite Ho.
Qed.

(** An entry survives the lookups before it expires. *)
Lemma cache_get_keeps self k now key e : lru_peek key (ac_entries self) = Some e →
  sat_sub now (ce_stored_at e) < ce_lifetime e →
  lru_peek key (ac_entries (AnswerCache_get self k now).2) = Some e.
Proof.
  intros Hk He. unfold AnswerCache_get. destruct (lru_peek k (ac_entries self)) as [entry|] eqn:Hp; [|done].
  destruct (Z.leb_spec (ce_lifetime entry) (sat_sub now (ce_stored_at entry))); simpl.
  - destruct (decide (key = k)) as [->|Hne]; [simplify_eq; lia|]. by rewrite lru_pop_other.
  - pose proof (lru_get_other k key (ac_entries self)) as Ho.
    destruct (lru_get k (ac_entries self)) as [o c]. simpl in *. by rewrite Ho.
Qed.

Lemma cache_get_limits self key now :
  ac_max_ttl (AnswerCache_get self key now).2 = ac_max_ttl self ∧
  lru_cap (ac_entries (AnswerCache_get self key now).2) = lru_cap (ac_entries self) ∧
  (lru_len (ac_entries (AnswerCache_get self key now).2) ≤ lru_len (ac_entries self))%nat.
Proof.
  unfold AnswerCache_get. destruct (lru_peek key (ac_entries self)); [|done].
  pose proof (lru_get_size key (ac_entries self)) as Hg.
  pose proof (lru_pop_size key (ac_entries self)) as Hpop. case_match; simpl; [naive_solver lia|].
  destruct (lru_get key (ac_entries self)). simpl in *. naive_solver lia.
Qed.
End Cache.
Arguments AnswerCache {_}.

(** ** The invariant *)

Section CacheInvariant.
Context `{Lru}.
(** What holds of an answer stored under a key. *)
Context (stored : bytes → UpstreamAnswer → Prop).
#[local] Set Default Proof Using "Type".

Record cache_inv (self : AnswerCache) : Prop := {
  ci_max : MIN_CACHE_TTL <= ac_max_ttl self <= U32_MAX;
  ci_size : (lru_len (ac_entries self) ≤ lru_cap (ac_entries self))%nat;
  ci_cap : (0 < lru_cap (ac_entries self))%nat;
  ci_entries : ∀ k e, lru_peek k (ac_entries self) = Some e →
    answer_wf (ce_answer e) ∧ MIN_CACHE_TTL <= ce_lifetime e <= ac_max_ttl self ∧ stored k (ce_answer e)
}.

Lemma cache_inv_new capacity max_ttl : max_ttl <= U32_MAX →
  cache_inv (AnswerCache_with_limits capacity max_ttl).
Proof.
  intros Hm. unfold AnswerCache_with_limits. constructor; simpl.
  - unfold MIN_CACHE_TTL, U32_MAX in *. lia.
  - rewrite lru_len_new. lia.
  - rewrite lru_cap_new. lia.
  - intros k e He. by rewrite lru_peek_new in He.
Qed.

Lemma cache_inv_insert self key answer now : cache_inv self → answer_wf answer → stored key answer →
  ∃ self' ttl, AnswerCache_insert self key answer now = Some self' ∧ cache_inv self' ∧
    min_ttl answer = Some ttl ∧
    lru_peek key (ac_entries self') = Some {| ce_answer := answer; ce_stored_at := now;
      ce_lifetime := clamp ttl MIN_CACHE_TTL (ac_max_ttl self) |}.
Proof.
  intros [Hm Hs Hc He] Hw Hst. destruct (min_ttl_Some answer Hw) as (ttl & Ht & _).
  unfold AnswerCache_insert. rewrite Ht. csimpl. do 2 eexists. split_and!; [done| |done|by apply lru_put_same].
  destruct (lru_put_size key {| ce_answer := answer; ce_stored_at := now;
    ce_lifetime := clamp ttl MIN_CACHE_TTL (ac_max_ttl self) |} (ac_entries self) Hs) as [Hl Hcap].
  constructor; simpl; [done|lia|lia|]. intros k e Hk. destruct (decide (k = key)) as [->|Hne].
  - rewrite lru_put_same in Hk by done. simplify_eq. simpl. split_and!; [done|unfold clamp; lia..|done].
  - apply lru_put_other in Hk; [by apply He|done].
Qed.

Lemma cache_inv_get self key now : cache_inv self → cache_inv (AnswerCache_get self key now).2.
Proof.
  intros [Hm Hs Hc He]. destruct (cache_get_limits self key now) as (Hmax & Hcap & Hlen).
  constructor; rewrite ?Hmax, ?Hcap; [done|lia|lia|]. intros k e Hk%cache_get_peek. by apply He.
Qed.

(** A hit under the invariant. *)
Lemma cache_inv_hit self key now a e : cache_inv self → (AnswerCache_get self key now).1 = Some (a, e) →
  answer_wf a ∧ stored key a ∧ 0 <= e < ac_max_ttl self.
Proof.
  intros Hi (entry & [Hp Hl] & -> & ->)%cache_get_Some. destruct (ci_entries _ Hi _ _ Hp) as (Hw & Hlt & Hs).
  pose proof (ci_max _ Hi). split_and!; [done|done|by apply Z.mod_pos_bound|].
  rewrite Z.mod_small; [lia|]. unfold sat_sub, U32_MAX in *. lia.
Qed.
End CacheInvariant.

(** ** Histories

    The operations on one cache in their order; [cache_run] is [None] only if one panics. *)
Inductive cache_op :=
| OpInsert (key : bytes) (answer : UpstreamAnswer) (now : Z)
| OpGet (key : bytes) (now : Z).

Section Histories.
Context `{Lru}.
#[local] Set Default Proof Using "Type".

Definition cache_step (self : AnswerCache) (op : cache_op) : option AnswerCache :=
  match op with
  | OpInsert key answer now => AnswerCache_insert self key answer now
  | OpGet key now => Some (AnswerCache_get self key now).2
  end.
Fixpoint cache_run (self : AnswerCache) (ops : list cache_op) : option AnswerCache :=
  match ops with
  | [] => Some self
  | op :: rest => self' ← cache_step self op; cache_run self' rest
  end.

Definition inserts (key : bytes) (op : cache_op) : Prop :=
  match op with OpInsert k _ _ => k = key | OpGet _ _ => False end.

Lemma cache_run_snoc self ops op :
  cache_run self (ops ++ [op]) = self' ← cache_run self ops; cache_step self' op.
Proof.
  revert self. induction ops as [|o ops IH]; intros self; simpl.
  - by destruct (cache_step self op).
  - destruct (cache_step self o); [|done]. csimpl. apply IH.
Qed.

(** The entry under a key is the last one inserted there. *)
Definition last_insert (ops : list cache_op) (key : bytes) (e : CacheEntry) (max_ttl : Z) : Prop :=
  ∃ before after ttl, ops = before ++ OpInsert key (ce_answer e) (ce_stored_at e) :: after ∧
    Forall (λ op, ¬ inserts key op) after ∧ min_ttl (ce_answer e) = Some ttl ∧
    ce_lifetime e = clamp ttl MIN_CACHE_TTL max_ttl.

Lemma last_insert_snoc ops op key e max_ttl : last_insert ops key e max_ttl → ¬ inserts key op →
  last_insert (ops ++ [op]) key e max_ttl.
Proof.
  intros (before & after & ttl & -> & Ha & Ht & Hl) Hop. exists before, (after ++ [op]), ttl.
  split_and!; [by rewrite <-app_assoc|apply Forall_app; by split; [|constructor]|done|done].
Qed.

Lemma cache_run_entries capacity max_ttl ops self :
  cache_run (AnswerCache_with_limits capacity max_ttl) ops = Some self →
  ac_max_ttl self = Z.max max_ttl MIN_CACHE_TTL ∧ (0 < lru_cap (ac_entries self))%nat ∧
  (lru_len (ac_entries self) ≤ lru_cap (ac_entries self))%nat ∧
  lru_cap (ac_entries self) = Nat.max capacity 1 ∧
  ∀ key e, lru_peek key (ac_entries self) = Some e → last_insert ops key e (Z.max max_ttl MIN_CACHE_TTL).
Proof.
  revert self. induction ops as [|op ops IH] using rev_ind; intros self.
  - intros [= <-]. simpl. rewrite lru_cap_new, lru_len_new. split_and!; try (done || lia).
    intros key e He. by rewrite lru_peek_new in He.
  - rewrite cache_run_snoc. destruct (cache_run _ ops) as [c|]; [|done]. csimpl.
    destruct (IH c eq_refl) as (Hm & Hpos & Hlen & Hcap & He). clear IH.
    destruct op as [key answer now|key now]; simpl.
    + unfold AnswerCache_insert. destruct (min_ttl answer) as [ttl|] eqn:Ht; [|done]. csimpl.
      intros [= <-]. simpl.
      set (entry := {| ce_answer := answer; ce_stored_at := now; ce_lifetime := _ |}).
      destruct (lru_put_size key entry (ac_entries c) Hlen) as [Hl Hc].
      rewrite Hc. split_and!; [done|lia|done|done|]. intros k e Hk.
      destruct (decide (k = key)) as [->|Hne].
      * rewrite lru_put_same in Hk by done. simplify_eq. exists ops, [], ttl. rewrite <-Hm. by split_and!.
      * apply lru_put_other in Hk; [|done]. apply last_insert_snoc; [by apply He|]. simpl. by intros ->.
    + intros [= <-]. destruct (cache_get_limits c key now) as (-> & -> & Hl). split_and!; [done|done|lia|done|].
      intros k e Hk%cache_get_peek. apply last_insert_snoc; [by apply He|]. simpl. tauto.
Qed.
End Histories.

(** ** A list as the bounded map, to run the definitions with

    The laws do not say which entry a full cache drops; this one drops the oldest. *)

Record lru_list (V : Type) := {
  ll_cap : nat;
  ll_items : list (bytes * V)
}.
Arguments ll_cap {V} _.
Arguments ll_items {V} _.

Fixpoint assoc {V} (k : bytes) (l : list (bytes * V)) : option V :=
  match l with
  | [] => None
  | (k', v) :: rest => if decide (k = k') then Some v else assoc k rest
  end.
Definition without {V} (k : bytes) (l : list (bytes * V)) : list (bytes * V) :=
  filter (λ kv, kv.1 ≠ k) l.

Lemma assoc_without_same {V} k (l : list (bytes * V)) : assoc k (without k l) = None.
Proof.
  induction l as [|[k' v] l IH]; [done|]. unfold without. rewrite filter_cons. simpl.
  case_decide; [|done]. simpl. by rewrite decide_False.
Qed.

Lemma assoc_without_other {V} k k' (l : list (bytes * V)) : k' ≠ k → assoc k' (without k l) = assoc k' l.
Proof.
  intros Hne. induction l as [|[k2 v] l IH]; [done|]. unfold without in *. rewrite filter_cons. simpl.
  destruct (decide (k2 = k)) as [->|Hk].
  - by rewrite decide_False, (decide_False (P := k' = k)) by tauto.
  - rewrite decide_True by done. simpl. by rewrite IH.
Qed.

Lemma assoc_take {V} n k (l : list (bytes * V)) v : assoc k (take n l) = Some v → assoc k l = Some v.
Proof.
  revert n. induction l as [|[k' v'] l IH]; intros [|n]; simpl; try done. case_decide; [done|]. apply IH.
Qed.

Definition list_lru_get {V} (k : bytes) (c : lru_list V) : option V * lru_list V :=
  match assoc k (ll_items c) with
  | None => (None, c)
  | Some v => (Some v, c)
  end.

#[export] Instance list_lru : Lru.
Proof.
  refine {| LruCache V := lru_list V;
    lru_new V cap := {| ll_cap := cap; ll_items := [] |};
    lru_len V c := length (ll_items c);
    lru_cap V c := ll_cap c;
    lru_peek V k c := assoc k (ll_items c);
    lru_get V k c := list_lru_get k c;
    lru_put V k v c := {| ll_cap := ll_cap c; ll_items := take (ll_cap c) ((k, v) :: without k (ll_items c)) |};
    lru_pop V k c := {| ll_cap := ll_cap c; ll_items := without k (ll_items c) |} |};
  intros; simpl; try done.
  all: try (unfold list_lru_get; by destruct (assoc k (ll_items c))).
  - destruct (ll_cap c) as [|n]; [lia|]. simpl. by rewrite decide_True.
  - apply assoc_take in H0. simpl in H0. rewrite decide_False in H0 by done. by rewrite assoc_without_other in H0.
  - split; [|done]. rewrite length_take. lia.
  - rewrite length_take. cbn [length]. pose proof (length_filter (λ kv, kv.1 ≠ k) (ll_items c)). unfold without. lia.
  - pose proof (length_filter (λ kv, kv.1 ≠ k) (ll_items c)).
    rewrite take_ge by (cbn [length]; unfold without; lia). simpl.
    rewrite decide_False by done. by apply assoc_without_other.
  - apply assoc_without_same.
  - by apply assoc_without_other.
  - split; [|done]. apply length_filter.
Defined.
