(* ===== verification/Packet.v ===== *)
(** * Packets of the tunnel ([dns/src/packet.rs])

    [parse_udp] and [build_udp] over the [etherparse] crate, which is the class [Etherparse]. *)
From S2P Require Import Prelude RustStr Collections Net.

(** [std::net::SocketAddr]. *)
Record SocketAddr := {
  sa_ip : IpAddr;
  sa_port : Z
}.
#[global] Instance SocketAddr_eq_dec : EqDecision SocketAddr.
Proof. solve_decision. Defined.

(** What the core reads of a [SlicedPacket]. *)
Inductive NetSlice :=
| NetIpv4 (fragmented : bool) (source destination : list Z)
| NetIpv6 (fragmented : bool) (source destination : list Z)
| NetOther.
Inductive TransportSlice :=
| TransportUdp (source_port destination_port : Z) (payload : bytes)
| TransportOther.
Record SlicedPacket := {
  sp_net : option NetSlice;
  sp_transport : option TransportSlice
}.

(** [SlicedPacket::from_ip] and [PacketBuilder]: [write_udp source destination hop_limit
    source_port destination_port payload] for two addresses of one family. The payload that
    slicing gives is part of the packet, and writing succeeds whenever the UDP length fits the
    16-bit length field of the IP header (IPv4 counts its 20-byte header, IPv6 does not). *)
Class Etherparse := {
  from_ip : bytes → option SlicedPacket;
  write_ipv4_udp : list Z → list Z → Z → Z → Z → bytes → option bytes;
  write_ipv6_udp : list Z → list Z → Z → Z → Z → bytes → option bytes;
  from_ip_payload packet sp sport dport payload : from_ip packet = Some sp →
    sp_transport sp = Some (TransportUdp sport dport payload) →
    ∃ before after, packet = before ++ payload ++ after;
  write_ipv4_fits src dst hops sport dport payload : len payload + 28 <= U16_MAX →
    is_Some (write_ipv4_udp src dst hops sport dport payload);
  write_ipv6_fits src dst hops sport dport payload : len payload + 8 <= U16_MAX →
    is_Some (write_ipv6_udp src dst hops sport dport payload)
}.

Record UdpDatagram := {
  udp_source : SocketAddr;
  udp_destination : SocketAddr;
  udp_payload_bytes : bytes
}.

Section Packet.
Context `{Etherparse}.
#[local] Set Default Proof Using "Type".

Definition parse_udp (packet : bytes) : option UdpDatagram :=
  sliced ← from_ip packet;
  '(source, destination) ←
    match sp_net sliced with
    | Some (NetIpv4 fragmented source destination) =>
        if fragmented then None else Some (V4 source, V4 destination)
    | Some (NetIpv6 fragmented source destination) =>
        if fragmented then None else Some (V6 source, V6 destination)
    | _ => None
    end;
  match sp_transport sliced with
  | Some (TransportUdp source_port destination_port payload) =>
      Some {| udp_source := {| sa_ip := source; sa_port := source_port |};
              udp_destination := {| sa_ip := destination; sa_port := destination_port |};
              udp_payload_bytes := payload |}
  | _ => None
  end.

Definition build_udp (source destination : SocketAddr) (payload : bytes) : option bytes :=
  match sa_ip source, sa_ip destination with
  | V4 from, V4 to => write_ipv4_udp from to 64 (sa_port source) (sa_port destination) payload
  | V6 from, V6 to => write_ipv6_udp from to 64 (sa_port source) (sa_port destination) payload
  | _, _ => None
  end.

(** ** Lemmas *)

Definition same_family (a b : SocketAddr) : Prop :=
  match sa_ip a, sa_ip b with V4 _, V4 _ | V6 _, V6 _ => True | _, _ => False end.

Lemma parse_udp_family packet d : parse_udp packet = Some d →
  same_family (udp_destination d) (udp_source d).
Proof.
  unfold parse_udp, same_family. destruct (from_ip packet) as [sp|]; [|done]. csimpl.
  destruct (sp_net sp) as [[[] ??|[] ??|]|]; csimpl; try done;
    (destruct (sp_transport sp) as [[sport dport payload|]|]; [|done..]); by intros [= <-].
Qed.

Lemma parse_udp_bytes packet d : Forall is_u8 packet → parse_udp packet = Some d →
  Forall is_u8 (udp_payload_bytes d).
Proof.
  intros Hu. unfold parse_udp. destruct (from_ip packet) as [sp|] eqn:Hp; [|done]. csimpl.
  match goal with |- context [match sp_net sp with _ => _ end] =>
    destruct (match sp_net sp with
      | Some (NetIpv4 f s d) => if f then None else Some (V4 s, V4 d)
      | Some (NetIpv6 f s d) => if f then None else Some (V6 s, V6 d)
      | _ => None end) as [[s d']|] end; [|done]. csimpl.
  destruct (sp_transport sp) as [[sport dport payload|]|] eqn:Ht; [|done..]. intros [= <-]. simpl.
  destruct (from_ip_payload _ _ _ _ _ Hp Ht) as (before & after & ->).
  by apply Forall_app in Hu as [_ [? _]%Forall_app].
Qed.

Lemma build_udp_fits source destination payload : same_family source destination →
  (length payload ≤ 1232)%nat → is_Some (build_udp source destination payload).
Proof.
  unfold same_family, build_udp. intros Hf Hl.
  destruct (sa_ip source), (sa_ip destination); try done;
    [apply write_ipv4_fits|apply write_ipv6_fits]; unfold len, U16_MAX; lia.
Qed.
End Packet.
