(* ===== verification/Handler.v ===== *)
(** * The DNS handler ([dns/src/handler.rs])

    The handler's state is a record; the [ArcSwap]s and [Mutex]es around its fields hold one
    value each, and every operation is one step on the record. [None] as an outcome or a reply
    is a panic of the source ([expect], an index or a slice out of range); [HandlerFacts] shows there is
    none. The wall clock that [record_block] reads is an argument. *)
From S2P Require Import Prelude RustStr Collections Net HostPattern DomainSet Common Wire.
From S2P Require Import LocalName Answer DnsCache Packet.

Definition TUNNEL_DNS_V4 : list Z := [198; 18; 0; 1].
Definition TUNNEL_DNS_V6 : list Z := [0xfd00; 0x7467; 0; 0; 0; 0; 0; 1].
Definition TYPE_SVCB : Z := 64.
Definition TYPE_HTTPS : Z := 65.
Definition LOCAL_CACHE_CAPACITY : nat := 128.
Definition MAX_LOCAL_TTL : Z := 60.

Record ForwardJob := {
  job_query : bytes;
  job_client : SocketAddr;
  job_server : SocketAddr;
  job_requester : Requester;
  job_key : bytes;
  job_name : bytes;
  job_network : Z
}.

Inductive Outcome :=
| Reply (packet : bytes)
| Forward (job : ForwardJob)
| Local_ (job : ForwardJob)
| Drop.

Record LocalRecord := {
  lr_rtype : Z;
  lr_rclass : Z;
  lr_ttl : Z;
  lr_data : bytes
}.

Definition job_record_type_and_class (job : ForwardJob) : option (Z * Z) :=
  qtype_and_class (job_requester job).

Definition cache_key (key : bytes) (requester : Requester) : bytes :=
  key ++ [Z.b2z (if req_edns requester is Some edns then dnssec_ok edns else false)].

(** One record of the local resolver on the wire. *)
Definition local_record (record : LocalRecord) : bytes :=
  [0xc0; 0x0c] ++ to_be16 (lr_rtype record) ++ to_be16 (lr_rclass record)
    ++ to_be32 (Z.min (lr_ttl record) MAX_LOCAL_TTL) ++ to_be16 (len (lr_data record)) ++ lr_data record.
(** The loop over the records, with the message and the count so far. *)
Fixpoint local_records (qtype qclass : Z) (records : list LocalRecord) (out : bytes) (count : Z) : bytes * Z :=
  match records with
  | [] => (out, count)
  | record :: rest =>
      let wanted := ((lr_rtype record =? qtype) || (qtype =? TYPE_ANY)) && (lr_rclass record =? qclass) in
      if (U16_MAX <? len (lr_data record)) || negb wanted
         || (U16_MAX <? len out + 12 + len (lr_data record))
      then local_records qtype qclass rest out count
      else
        let out := out ++ local_record record in
        let count := count + 1 in
        if count =? U16_MAX then (out, count) else local_records qtype qclass rest out count
  end.
(** [None] when the key is too short to index. *)
Definition local_answer (key : bytes) (records : list LocalRecord) : option bytes :=
  let n := length key in
  if (n <? 4)%nat then None
  else
    qtype ← u16_at key (n - 4);
    qclass ← u16_at key (n - 2);
    let out := [0; 0; 0x81; 0x80; 0; 1; 0; 0; 0; 0; 0; 0] ++ key in
    let '(out, count) := local_records qtype qclass records out 0 in
    set_u16 out 6 count.

Definition is_tunnel_dns (destination : SocketAddr) : bool :=
  (sa_port destination =? 53)
  && match sa_ip destination with
     | V4 ip => bool_decide (ip = TUNNEL_DNS_V4)
     | V6 ip => bool_decide (ip = TUNNEL_DNS_V6)
     end.

Section Handler.
Context `{Hickory, Lru, Etherparse}.
#[local] Set Default Proof Using "Type".

Record LocalState := {
  ls_network : bytes;
  ls_generation : Z;
  ls_cache : AnswerCache
}.
Record DnsHandler := {
  dh_blocklist : option DomainSet;
  dh_allowlist : list HostPattern;
  dh_events : option EventLog;
  dh_cache : AnswerCache;
  dh_local : LocalState;
  dh_stats : Stats
}.

Definition new_local_cache : AnswerCache := AnswerCache_with_limits LOCAL_CACHE_CAPACITY MAX_LOCAL_TTL.
Definition DnsHandler_new (blocklist : option DomainSet) (stats : Stats) : DnsHandler :=
  {| dh_blocklist := blocklist; dh_allowlist := []; dh_events := None; dh_cache := AnswerCache_new;
     dh_local := {| ls_network := []; ls_generation := 0; ls_cache := new_local_cache |};
     dh_stats := stats |}.

Definition set_blocklist (self : DnsHandler) (blocklist : option DomainSet) : DnsHandler :=
  {| dh_blocklist := blocklist; dh_allowlist := dh_allowlist self; dh_events := dh_events self;
     dh_cache := dh_cache self; dh_local := dh_local self; dh_stats := dh_stats self |}.
Definition set_allowlist (self : DnsHandler) (patterns : list HostPattern) : DnsHandler :=
  {| dh_blocklist := dh_blocklist self; dh_allowlist := patterns; dh_events := dh_events self;
     dh_cache := dh_cache self; dh_local := dh_local self; dh_stats := dh_stats self |}.
Definition set_events (self : DnsHandler) (events : option EventLog) : DnsHandler :=
  {| dh_blocklist := dh_blocklist self; dh_allowlist := dh_allowlist self; dh_events := events;
     dh_cache := dh_cache self; dh_local := dh_local self; dh_stats := dh_stats self |}.
(** The updates behind the locks and the counters. *)
Definition with_cache (self : DnsHandler) (cache : AnswerCache) : DnsHandler :=
  {| dh_blocklist := dh_blocklist self; dh_allowlist := dh_allowlist self; dh_events := dh_events self;
     dh_cache := cache; dh_local := dh_local self; dh_stats := dh_stats self |}.
Definition with_local (self : DnsHandler) (local : LocalState) : DnsHandler :=
  {| dh_blocklist := dh_blocklist self; dh_allowlist := dh_allowlist self; dh_events := dh_events self;
     dh_cache := dh_cache self; dh_local := local; dh_stats := dh_stats self |}.
Definition with_local_cache (local : LocalState) (cache : AnswerCache) : LocalState :=
  {| ls_network := ls_network local; ls_generation := ls_generation local; ls_cache := cache |}.
Definition count (self : DnsHandler) (counter : Counter) : DnsHandler :=
  {| dh_blocklist := dh_blocklist self; dh_allowlist := dh_allowlist self; dh_events := dh_events self;
     dh_cache := dh_cache self; dh_local := dh_local self;
     dh_stats := Stats_inc counter (dh_stats self) |}.

Definition DnsHandler_is_blocked (self : DnsHandler) (name : bytes) : bool :=
  (if dh_blocklist self is Some blocklist then is_blocked blocklist name else false)
  && negb (existsb (λ p, HostPattern_matches p name) (dh_allowlist self)).

Definition record_block (self : DnsHandler) (name : bytes) (wall : Z) : DnsHandler :=
  match dh_events self with
  | None => self
  | Some events =>
      let host := to_ascii_lowercase (strip_suffix_or [DOT] name) in
      set_events self (Some (EventLog_record events
        {| ev_unix_secs := wall; ev_kind := EventDns; ev_host := host; ev_url := None;
           ev_source_host := None |}))
  end.

Definition set_network (self : DnsHandler) (network : bytes) : DnsHandler :=
  if bool_decide (ls_network (dh_local self) = network) then self
  else with_local self {| ls_network := network; ls_generation := wrap64 (ls_generation (dh_local self) + 1);
                          ls_cache := new_local_cache |}.

Definition reply_packet (server client : SocketAddr) (payload : bytes) : option bytes :=
  build_udp server client payload.
(** [reply(payload)], from a payload whose making can panic. *)
Definition reply_with (server client : SocketAddr) (payload : option bytes) : option Outcome :=
  payload ← payload; packet ← reply_packet server client payload; Some (Reply packet).

(** [handle_packet] from the question's name on. *)
Definition handle_name (self : DnsHandler) (query : bytes) (client server : SocketAddr)
    (requester : Requester) (question_end : nat) (name : bytes) (now wall : Z) : option Outcome * DnsHandler :=
  let reply := reply_with server client in
  let job key network :=
    {| job_query := query; job_client := client; job_server := server; job_requester := requester;
       job_key := key; job_name := name; job_network := network |} in
  if is_local_name name then
    match question_key query question_end with
    | None => (None, self)
    | Some key =>
        let local := dh_local self in
        let '(hit, cache) := AnswerCache_get (ls_cache local) (cache_key key requester) now in
        let self := with_local self (with_local_cache local cache) in
        match hit with
        | Some (cached, elapsed) =>
            (reply (UpstreamAnswer_render cached requester elapsed), count self dns_cache_hits)
        | None => (Some (Local_ (job key (ls_generation local))), count self dns_forwarded)
        end
    end
  else if DnsHandler_is_blocked self name then
    let self := record_block (count self dns_blocked) name wall in
    (reply (Requester_blocked requester), self)
  else
    match question_key query question_end with
    | None => (None, self)
    | Some key =>
        let '(hit, cache) := AnswerCache_get (dh_cache self) (cache_key key requester) now in
        let self := with_cache self cache in
        match hit with
        | Some (cached, elapsed) =>
            (reply (UpstreamAnswer_render cached requester elapsed), count self dns_cache_hits)
        | None => (Some (Forward (job key 0)), count self dns_forwarded)
        end
    end.

(** [handle_packet] from the decoded query on; [message.queries[0]] panics when empty. *)
Definition handle_query (self : DnsHandler) (query : bytes) (client server : SocketAddr) (now wall : Z)
    : option Outcome * DnsHandler :=
  let reply := reply_with server client in
  match from_vec query with
  | None => (reply (header_only query FORMERR), self)
  | Some message =>
      if negb (msg_is_query message) then (reply (header_only query NOTIMP), self)
      else
        match question_end query with
        | None => (reply (header_only query FORMERR), self)
        | Some qe =>
            match Requester_from_query query message qe, msg_queries message with
            | None, _ | _, [] => (None, self)
            | Some requester, question :: _ =>
                if (query_type question =? TYPE_SVCB) || (query_type question =? TYPE_HTTPS)
                then (reply (Some (Requester_empty requester NOERROR)), self)
                else handle_name self query client server requester qe (query_name question) now wall
            end
        end
  end.

Definition handle_packet (self : DnsHandler) (packet : bytes) (now wall : Z) : option Outcome * DnsHandler :=
  match parse_udp packet with
  | None => (Some Drop, count self packets_dropped)
  | Some datagram =>
      let query := udp_payload_bytes datagram in
      if negb (is_tunnel_dns (udp_destination datagram)) || (length query <? DNS_HEADER_LEN)%nat
      then (Some Drop, count self packets_dropped)
      else
        match is_response query with
        | None => (None, self)
        | Some true => (Some Drop, count self packets_dropped)
        | Some false =>
            let self := count self dns_queries in
            handle_query self query (udp_source datagram) (udp_destination datagram) now wall
        end
  end.

(** [complete]; a [DohError] is only logged, so the error is any value. *)
Definition complete {E} (self : DnsHandler) (job : ForwardJob) (answer : result bytes E) (now : Z)
    : option bytes * DnsHandler :=
  let requester := job_requester job in
  let finish payload := payload ← payload; reply_packet (job_server job) (job_client job) payload in
  match match answer with Ok wire => UpstreamAnswer_parse wire (job_key job) | Err _ => Some (Err []) end with
  | None => (None, self)
  | Some (Ok upstream) =>
      let payload := UpstreamAnswer_render upstream requester 0 in
      match UpstreamAnswer_cacheable upstream with
      | None => (None, self)
      | Some true =>
          match AnswerCache_insert (dh_cache self) (cache_key (job_key job) requester) upstream now with
          | Some cache => (finish payload, with_cache self cache)
          | None => (None, self)
          end
      | Some false => (finish payload, self)
      end
  | Some (Err _) => (finish (Some (Requester_empty requester SERVFAIL)), count self dns_failed)
  end.

Definition complete_local (self : DnsHandler) (job : ForwardJob) (records : option (list LocalRecord)) (now : Z)
    : option bytes * DnsHandler :=
  let requester := job_requester job in
  let finish payload := payload ← payload; reply_packet (job_server job) (job_client job) payload in
  let failed := (finish (Some (Requester_empty requester SERVFAIL)), count self dns_failed) in
  match records with
  | None => failed
  | Some records =>
      match local_answer (job_key job) records with
      | None => (None, self)
      | Some wire =>
          match UpstreamAnswer_parse wire (job_key job) with
          | None => (None, self)
          | Some (Err _) => failed
          | Some (Ok answer) =>
              let payload := UpstreamAnswer_render answer requester 0 in
              match (has ← has_answers answer; if has : bool then UpstreamAnswer_cacheable answer else Some false) with
              | None => (None, self)
              | Some keep =>
                  if keep && (ls_generation (dh_local self) =? job_network job)
                  then
                    match AnswerCache_insert (ls_cache (dh_local self)) (cache_key (job_key job) requester) answer now with
                    | Some cache => (finish payload, with_local self (with_local_cache (dh_local self) cache))
                    | None => (None, self)
                    end
                  else (finish payload, self)
              end
          end
      end
  end.
End Handler.
Arguments DnsHandler {_}.
Arguments LocalState {_}.
