(* ===== verification/HandlerFacts.v ===== *)
(** * Facts about the DNS handler

    The invariant of the handler's caches, well-formed jobs, and that no operation panics or
    breaks the invariant; the handler with its jobs in flight as a transition system. *)
From S2P Require Import Prelude RustStr Collections Net HostPattern DomainSet Common Wire.
From S2P Require Import LocalName Answer AnswerFacts DnsCache Packet Handler.

Lemma slice_u8 start stop msg : Forall is_u8 msg → Forall is_u8 (slice start stop msg).
Proof. intros Hm. by apply Forall_take, Forall_drop. Qed.

Lemma lower1_u8 b : is_u8 b → is_u8 (lower1 b).
Proof.
  unfold is_u8, lower1, is_ascii_uppercase. intros Hb. destruct (Z.leb_spec 65 b), (Z.leb_spec b 90); simpl; lia.
Qed.

Lemma question_key_u8 msg stop key : Forall is_u8 msg → question_key msg stop = Some key → Forall is_u8 key.
Proof.
  intros Hm%(slice_u8 DNS_HEADER_LEN stop). unfold question_key.
  destruct (range _ _ _) as [k|] eqn:Hr; [|done]. csimpl. apply range_inv in Hr as [_ ->].
  destruct (_ <? 4)%nat; [done|]. intros [= <-]. apply Forall_app. split; [|by apply Forall_drop].
  unfold to_ascii_lowercase. apply Forall_fmap. eapply Forall_impl; [by apply Forall_take|]. apply lower1_u8.
Qed.

(** ** Sizes of local replies *)

Lemma empty_small r rcode : requester_wf r → (length (Requester_empty r rcode) ≤ 1232)%nat.
Proof.
  intros [_ Hq _]. unfold Requester_empty. rewrite length_build. pose proof (opt_len_le r).
  unfold DNS_HEADER_LEN. simpl length. lia.
Qed.

Lemma blocked_small r : requester_wf r → ∃ p, Requester_blocked r = Some p ∧ (length p ≤ 1232)%nat.
Proof.
  intros Hw. pose proof (rw_question _ Hw) as Hq. unfold Requester_blocked.
  destruct (qtype_and_class_Some r ltac:(lia)) as (qt & qc & -> & _). csimpl. eexists. split; [done|].
  pose proof (opt_len_le r). unfold DNS_HEADER_LEN.
  repeat case_match; [..|by apply empty_small];
    rewrite length_build; unfold DNS_HEADER_LEN; cbn [length]; lia.
Qed.

Lemma header_only_ok query rcode : (DNS_HEADER_LEN ≤ length query)%nat →
  ∃ p, header_only query rcode = Some p ∧ length p = DNS_HEADER_LEN.
Proof.
  unfold DNS_HEADER_LEN. intros Hq. unfold header_only. rewrite range_Some, lookup_byte_of by lia. csimpl.
  eexists. split; [done|]. rewrite length_app, length_slice by lia. done.
Qed.

Lemma cacheable_total ua : answer_wf ua → is_Some (UpstreamAnswer_cacheable ua).
Proof.
  intros Hw. pose proof (aw_length _ Hw). pose proof (aw_qe _ Hw). unfold DNS_HEADER_LEN in *.
  unfold UpstreamAnswer_cacheable. rewrite !lookup_byte_of by lia. csimpl. case_match; by eexists.
Qed.

Lemma has_answers_total ua : answer_wf ua → is_Some (has_answers ua).
Proof.
  intros Hw. pose proof (aw_length _ Hw). pose proof (aw_qe _ Hw). unfold DNS_HEADER_LEN in *.
  unfold has_answers. rewrite range_Some by lia. by eexists.
Qed.

(** ** The invariant *)

Section Facts.
Context `{Hickory, Lru, Etherparse}.
#[local] Set Default Proof Using "Type*".

(** The answer's own question is the key, up to the last byte, which is the DO bit. *)
Definition answers_key (k : bytes) (a : UpstreamAnswer) : Prop :=
  ∃ key b, question_key (ua_bytes a) (ua_question_end a) = Some key ∧ k = key ++ [b].

Record handler_inv (self : DnsHandler) : Prop := {
  hi_cache : cache_inv answers_key (dh_cache self);
  hi_local : cache_inv answers_key (ls_cache (dh_local self));
  hi_local_max : ac_max_ttl (ls_cache (dh_local self)) = MAX_LOCAL_TTL
}.

Record job_wf (job : ForwardJob) : Prop := {
  jw_requester : requester_wf (job_requester job);
  jw_key : length (job_key job) = length (req_question (job_requester job));
  jw_key_u8 : Forall is_u8 (job_key job);
  jw_family : same_family (job_server job) (job_client job)
}.

Lemma new_inv blocklist stats : handler_inv (DnsHandler_new blocklist stats).
Proof.
  constructor; [by apply cache_inv_new|by apply cache_inv_new|done].
Qed.

Lemma from_query_wf query m qe : Forall is_u8 query → from_vec query = Some m → question_end query = Some qe →
  ∃ r key, Requester_from_query query m qe = Some r ∧ question_key query qe = Some key ∧ requester_wf r ∧
    length (req_question r) = (qe - DNS_HEADER_LEN)%nat ∧ length key = (qe - DNS_HEADER_LEN)%nat.
Proof.
  intros Hu Hm [Hb _]%question_end_bounds.
  assert (length (slice DNS_HEADER_LEN qe query) = (qe - DNS_HEADER_LEN)%nat) as Hl
    by (apply length_slice; lia).
  destruct (question_key_Some query qe ltac:(lia)) as (key & Hk & Hkl).
  unfold Requester_from_query. rewrite range_Some by lia. csimpl.
  eexists _, key. split_and!; [done|done| |done|done]. constructor; simpl.
  - apply from_vec_id in Hm. by eapply u16_at_range.
  - rewrite Hl. unfold DNS_HEADER_LEN in *. lia.
  - by apply slice_u8.
Qed.

(** A stored answer renders for the requester whose key found it. *)
Lemma render_hit a key r b elapsed : answer_wf a → answers_key (key ++ [b]) a → requester_wf r →
  length key = length (req_question r) → 0 <= elapsed →
  ∃ p, UpstreamAnswer_render a r elapsed = Some p ∧ (length p ≤ 1232)%nat.
Proof.
  intros Hw (key' & b' & Hq & Hk) Hr Hl He. apply app_inj_2 in Hk as [-> _]; [|done].
  apply question_key_length in Hq as [_ Hq].
  destruct (render_spec a r elapsed Hw Hr ltac:(lia) He) as (whole & out & _ & -> & Hout & _).
  exists out. split; [done|]. pose proof (udp_limit_bounds r). lia.
Qed.

(** What an outcome carries. *)
Definition outcome_wf (o : Outcome) : Prop :=
  match o with
  | Reply packet => ∃ server client payload, build_udp server client payload = Some packet ∧
      (length payload ≤ 1232)%nat
  | Forward job | Local_ job => job_wf job
  | Drop => True
  end.

Lemma reply_with_ok server client payload p : same_family server client → payload = Some p →
  (length p ≤ 1232)%nat → ∃ o, reply_with server client payload = Some o ∧ outcome_wf o.
Proof.
  intros Hf -> Hl. destruct (build_udp_fits server client p Hf Hl) as [pkt Hp].
  exists (Reply pkt). unfold reply_with, reply_packet. csimpl. rewrite Hp. csimpl.
  split; [done|]. by exists server, client, p.
Qed.

Lemma inv_count self c : handler_inv self → handler_inv (count self c).
Proof. by intros [??]; constructor. Qed.

Lemma inv_record_block self name wall : handler_inv self → handler_inv (record_block self name wall).
Proof. intros [? ? ?]. unfold record_block. destruct (dh_events self); by constructor. Qed.

Lemma inv_with_cache self cache : handler_inv self → cache_inv answers_key cache → handler_inv (with_cache self cache).
Proof. by intros [? ? ?] ?; constructor. Qed.

Lemma inv_with_local self cache : handler_inv self → cache_inv answers_key cache → ac_max_ttl cache = MAX_LOCAL_TTL →
  handler_inv (with_local self (with_local_cache (dh_local self) cache)).
Proof. by intros [? ? ?] ??; constructor. Qed.
Create HintDb handler.
#[local] Hint Resolve inv_count inv_record_block inv_with_cache inv_with_local : handler.

Lemma handle_name_ok self query client server r key qe name now wall :
  handler_inv self → Forall is_u8 query → requester_wf r → question_key query qe = Some key →
  length key = length (req_question r) → same_family server client →
  let res := handle_name self query client server r qe name now wall in
  ∃ o, res.1 = Some o ∧ outcome_wf o ∧ handler_inv res.2.
Proof.
  intros Hi Hu Hr Hkey Hkl Hf.
  assert (∀ network, job_wf {| job_query := query; job_client := client; job_server := server;
    job_requester := r; job_key := key; job_name := name; job_network := network |}) as Hjob.
  { intros network. constructor; [exact Hr|exact Hkl|by eapply question_key_u8|exact Hf]. }
  assert (∀ cache, cache_inv answers_key cache → ∀ a e, (AnswerCache_get cache (cache_key key r) now).1 = Some (a, e) →
    ∃ o, reply_with server client (UpstreamAnswer_render a r e) = Some o ∧ outcome_wf o) as Hhit.
  { intros cache Hc a e Hg. destruct (cache_inv_hit _ _ _ _ _ _ Hc Hg) as (Hw & Hs & He).
    destruct (render_hit a key r _ e Hw Hs Hr Hkl ltac:(lia)) as (p & Hp & Hl).
    by eapply reply_with_ok. }
  unfold handle_name. rewrite Hkey. cbv zeta. destruct (is_local_name name).
  - pose proof (Hhit _ (hi_local _ Hi)) as Hh.
    pose proof (cache_inv_get answers_key _ (cache_key key r) now (hi_local _ Hi)) as Hg.
    destruct (cache_get_limits (ls_cache (dh_local self)) (cache_key key r) now) as (Hmx & _ & _).
    destruct (AnswerCache_get (ls_cache (dh_local self)) (cache_key key r) now) as [[[a e]|] c]; simpl in *;
      rewrite (hi_local_max _ Hi) in Hmx.
    + destruct (Hh a e eq_refl) as (o & ? & ?). exists o. auto with handler.
    + eexists. split; [done|]. split; [apply Hjob|]. auto with handler.
  - destruct (DnsHandler_is_blocked self name); simpl.
    + destruct (blocked_small r Hr) as (p & Hp & Hl).
      destruct (reply_with_ok server client _ p Hf Hp Hl) as (o & ? & ?). exists o. auto with handler.
    + pose proof (Hhit _ (hi_cache _ Hi)) as Hh.
      pose proof (cache_inv_get answers_key _ (cache_key key r) now (hi_cache _ Hi)) as Hg.
      destruct (AnswerCache_get (dh_cache self) (cache_key key r) now) as [[[a e]|] c]; simpl in *.
      * destruct (Hh a e eq_refl) as (o & ? & ?). exists o. auto with handler.
      * eexists. split; [done|]. split; [apply Hjob|]. auto with handler.
Qed.

Lemma handle_packet_ok self packet now wall : handler_inv self → Forall is_u8 packet →
  let res := handle_packet self packet now wall in
  ∃ o, res.1 = Some o ∧ outcome_wf o ∧ handler_inv res.2.
Proof.
  intros Hi Hu. unfold handle_packet. destruct (parse_udp packet) as [d|] eqn:Hp.
  2: { exists Drop. simpl. auto with handler. }
  apply parse_udp_family in Hp as Hf. apply parse_udp_bytes in Hp as Hb; [|done].
  destruct (negb (is_tunnel_dns _) || _) eqn:Hg.
  { exists Drop. simpl. auto with handler. }
  rewrite orb_false_iff, Nat.ltb_ge in Hg. destruct Hg as [_ Hlen].
  unfold is_response. rewrite lookup_byte_of by (unfold DNS_HEADER_LEN in Hlen; lia). csimpl.
  destruct (negb (_ =? 0)); [exists Drop; simpl; auto with handler|].
  assert (handler_inv (count self dns_queries)) as Hi' by auto with handler.
  revert Hi'. generalize (count self dns_queries). clear self Hi. intros self Hi.
  assert (∀ rcode, ∃ o, reply_with (udp_destination d) (udp_source d)
    (header_only (udp_payload_bytes d) rcode) = Some o ∧ outcome_wf o) as Hho.
  { intros rcode. destruct (header_only_ok (udp_payload_bytes d) rcode Hlen) as (p & Hho & Hpl).
    eapply reply_with_ok; [done|done|]. rewrite Hpl. unfold DNS_HEADER_LEN. lia. }
  assert (∀ r, (∃ o, r = Some o ∧ outcome_wf o) → ∃ o, (r, self).1 = Some o ∧ outcome_wf o ∧ handler_inv (r, self).2) as Hdone.
  { intros r (o & ? & ?). by exists o. }
  unfold handle_query. destruct (from_vec (udp_payload_bytes d)) as [m|] eqn:Hm; [|by apply Hdone].
  destruct (msg_is_query m); simpl negb; cbv iota; [|by apply Hdone].
  destruct (question_end (udp_payload_bytes d)) as [qe|] eqn:Hqe; [|by apply Hdone].
  destruct (from_query_wf _ m qe Hb Hm Hqe) as (r & key & -> & Hkey & Hr & Hrl & Hkl).
  apply question_end_bounds in Hqe as Hqb. destruct Hqb as [_ Hone].
  apply from_vec_queries in Hm as Hq1. destruct (msg_queries m) as [|q qs].
  { rewrite Hone in Hq1. discriminate Hq1. }
  destruct ((query_type q =? TYPE_SVCB) || (query_type q =? TYPE_HTTPS)).
  - apply Hdone. eapply reply_with_ok; [done|done|]. by apply empty_small.
  - apply (handle_name_ok _ _ _ _ r key); (done || congruence).
Qed.

(** ** Completing jobs *)

Lemma finish_ok job payload p : job_wf job → payload = Some p → (length p ≤ 1232)%nat →
  ∃ packet, (payload ← payload; reply_packet (job_server job) (job_client job) payload) = Some packet.
Proof. intros Hj -> Hl. csimpl. by apply build_udp_fits; [apply Hj|]. Qed.

(** A checked answer can be rendered and stored. *)
Lemma checked_answer job wire ua : job_wf job → Forall is_u8 wire →
  UpstreamAnswer_parse wire (job_key job) = Some (Ok ua) →
  (∃ p, UpstreamAnswer_render ua (job_requester job) 0 = Some p ∧ (length p ≤ 1232)%nat) ∧
  answer_wf ua ∧ answers_key (cache_key (job_key job) (job_requester job)) ua.
Proof.
  intros Hj Hu Hp. destruct (parse_wf wire _ ua Hu Hp) as (Hw & Hk & Hl). split_and!; [|done|].
  - rewrite (jw_key _ Hj) in Hl.
    destruct (render_spec ua (job_requester job) 0 Hw (jw_requester _ Hj) Hl ltac:(lia))
      as (whole & out & _ & -> & Ho & _).
    exists out. split; [done|]. pose proof (udp_limit_bounds (job_requester job)). lia.
  - unfold answers_key, cache_key. by eexists _, _.
Qed.

Lemma complete_ok {E} self job (answer : result bytes E) now : handler_inv self → job_wf job →
  (∀ wire, answer = Ok wire → Forall is_u8 wire) →
  let res := complete self job answer now in
  (∃ packet, res.1 = Some packet) ∧ handler_inv res.2.
Proof.
  intros Hi Hj Hu. unfold complete.
  destruct (match answer with Ok wire => _ | Err _ => _ end) as [[ua|e]|] eqn:Hc.
  - destruct answer as [wire|]; [|done].
    destruct (checked_answer job wire ua Hj (Hu _ eq_refl) Hc) as ((p & Hp & Hl) & Hw & Hk).
    destruct (cacheable_total ua Hw) as [[] ->]; [|split; [by eapply finish_ok|done]].
    destruct (cache_inv_insert answers_key (dh_cache self) _ ua now (hi_cache _ Hi) Hw Hk)
      as (cache & ttl & Hins & Hci & _). rewrite Hins. split; [by eapply finish_ok|]. simpl. auto with handler.
  - split; [|simpl; auto with handler]. eapply finish_ok; [done|done|]. apply empty_small, Hj.
  - destruct answer as [wire|]; [|done]. by destruct (parse_total wire (job_key job)) as [? Hpt]; rewrite Hpt in Hc.
Qed.

Lemma local_records_u8 qtype qclass records out n : Forall is_u8 out →
  Forall (λ r, Forall is_u8 (lr_data r)) records →
  Forall is_u8 (local_records qtype qclass records out n).1 ∧
  (length out ≤ length (local_records qtype qclass records out n).1)%nat.
Proof.
  intros Ho Hr. revert out n Ho. induction Hr as [|r records Hd Hr IH]; intros out n Ho; simpl; [done|].
  case_match; [by apply IH|].
  assert (Forall is_u8 (out ++ local_record r)) as Hor.
  { apply Forall_app. split; [done|]. unfold local_record.
    rewrite !Forall_app. split_and!; [|apply to_be16_u8|apply to_be16_u8|apply to_be32_u8|apply to_be16_u8|done].
    repeat constructor; unfold is_u8; lia. }
  assert (length out ≤ length (out ++ local_record r))%nat as Hle by (rewrite length_app; lia).
  case_match; [done|]. destruct (IH (out ++ local_record r) (n + 1) Hor) as [? ?]. split; [done|lia].
Qed.

Lemma local_answer_ok key records : Forall is_u8 key → (4 ≤ length key)%nat →
  Forall (λ r, Forall is_u8 (lr_data r)) records →
  ∃ wire, local_answer key records = Some wire ∧ Forall is_u8 wire.
Proof.
  intros Hk Hl Hr. unfold local_answer.
  destruct (qtype_and_class_Some {| req_id := 0; req_recursion_desired := false; req_question := key;
    req_edns := None |} Hl) as (qt & qc & _ & Hqt & Hqc). simpl in Hqt, Hqc.
  destruct (Nat.ltb_spec (length key) 4); [lia|]. rewrite Hqt. csimpl. rewrite Hqc. csimpl.
  match goal with |- context [local_records qt qc records ?o 0] =>
    pose proof (local_records_u8 qt qc records o 0) as Hlr; destruct (local_records qt qc records o 0) as [out n] end.
  destruct Hlr as [Hl8 Hll]; [by repeat (constructor; [unfold is_u8; lia|])|done|]. cbn [fst] in *.
  rewrite set_u16_Some by (simpl in Hll; lia).
  eexists. split; [done|]. by apply Forall_u8_write; [|apply to_be16_u8].
Qed.

Lemma insert_max self key answer now self' : AnswerCache_insert self key answer now = Some self' →
  ac_max_ttl self' = ac_max_ttl self.
Proof. unfold AnswerCache_insert. destruct (min_ttl answer); [|done]. csimpl. by intros [= <-]. Qed.

Lemma complete_local_ok self job records now : handler_inv self → job_wf job →
  (∀ l, records = Some l → Forall (λ r, Forall is_u8 (lr_data r)) l) →
  let res := complete_local self job records now in
  (∃ packet, res.1 = Some packet) ∧ handler_inv res.2.
Proof.
  intros Hi Hj Hu. unfold complete_local. pose proof (rw_question _ (jw_requester _ Hj)) as Hq.
  rewrite <-(jw_key _ Hj) in Hq.
  assert (∃ packet, (payload ← Some (Requester_empty (job_requester job) SERVFAIL);
    reply_packet (job_server job) (job_client job) payload) = Some packet) as Hfail.
  { eapply finish_ok; [done|done|]. apply empty_small, Hj. }
  destruct records as [records|]; [|simpl; auto with handler].
  destruct (local_answer_ok (job_key job) records (jw_key_u8 _ Hj) ltac:(lia) (Hu _ eq_refl)) as (wire & -> & Hw8).
  destruct (parse_total wire (job_key job)) as [[ua|e] Hp]; rewrite Hp; [|simpl; auto with handler].
  destruct (checked_answer job wire ua Hj Hw8 Hp) as ((p & Hpp & Hl) & Hw & Hk).
  destruct (cacheable_total ua Hw) as [c Hc], (has_answers_total ua Hw) as [h Hh]. rewrite Hc, Hh. csimpl.
  destruct (if h then _ else _) as [keep|] eqn:Hkeep; [|by destruct h].
  destruct (keep && _); [|split; [by eapply finish_ok|done]].
  destruct (cache_inv_insert answers_key _ _ ua now (hi_local _ Hi) Hw Hk) as (cache & ttl & Hins & Hci & _).
  rewrite Hins. split; [by eapply finish_ok|]. apply insert_max in Hins. rewrite (hi_local_max _ Hi) in Hins.
  simpl. auto with handler.
Qed.

Lemma set_network_inv self network : handler_inv self → handler_inv (set_network self network).
Proof.
  intros Hi. unfold set_network. case_bool_decide; [done|]. destruct Hi as [Hc _ _].
  constructor; simpl; [done|by apply cache_inv_new|done].
Qed.

(** ** Questions *)

(** A packet that carries the question [q] to the tunnel's resolver. *)
Record asks (packet : bytes) (d : UdpDatagram) (m : Message) (qe : nat) (q : DnsQuery) : Prop := {
  as_datagram : parse_udp packet = Some d;
  as_tunnel : is_tunnel_dns (udp_destination d) = true;
  as_header : (DNS_HEADER_LEN ≤ length (udp_payload_bytes d))%nat;
  as_query : is_response (udp_payload_bytes d) = Some false;
  as_message : from_vec (udp_payload_bytes d) = Some m;
  as_opcode : msg_is_query m = true;
  as_question : question_end (udp_payload_bytes d) = Some qe;
  as_first : head (msg_queries m) = Some q
}.

Lemma asks_requester packet d m qe q : asks packet d m qe q →
  ∃ r, Requester_from_query (udp_payload_bytes d) m qe = Some r.
Proof.
  intros Ha. destruct (question_end_bounds _ _ (as_question _ _ _ _ _ Ha)) as [Hb _].
  unfold Requester_from_query. rewrite range_Some by lia. by eexists.
Qed.

Lemma handle_asks self packet d m qe q r now wall : asks packet d m qe q →
  Requester_from_query (udp_payload_bytes d) m qe = Some r →
  handle_packet self packet now wall =
  if (query_type q =? TYPE_SVCB) || (query_type q =? TYPE_HTTPS)
  then (reply_with (udp_destination d) (udp_source d) (Some (Requester_empty r NOERROR)), count self dns_queries)
  else handle_name (count self dns_queries) (udp_payload_bytes d) (udp_source d) (udp_destination d) r qe
         (query_name q) now wall.
Proof.
  intros [Hd Ht Hh Hq Hm Ho Hqe Hf] Hr. unfold handle_packet. rewrite Hd, Ht, Hq.
  destruct (Nat.ltb_spec (length (udp_payload_bytes d)) DNS_HEADER_LEN); [lia|]. simpl negb. simpl orb. cbv iota.
  unfold handle_query. rewrite Hm, Ho. simpl negb. cbv iota. rewrite Hqe, Hr.
  destruct (msg_queries m); [done|]. by simplify_eq/=.
Qed.

(** How a query for an ordinary name is answered, blocked or not: a block is answered at once, counted
    and logged; any other name is answered from the cache or forwarded, and neither counts as blocked
    nor is logged. *)
Definition answered_as (blocked : bool) (self : DnsHandler) (packet : bytes) (d : UdpDatagram) (r : Requester)
    (name : bytes) (now wall : Z) : Prop :=
  let '(outcome, self') := handle_packet self packet now wall in
  let reply := reply_with (udp_destination d) (udp_source d) in
  if blocked then
    outcome = reply (Requester_blocked r) ∧
    dh_stats self' = Stats_inc dns_blocked (Stats_inc dns_queries (dh_stats self)) ∧
    dh_events self' = (λ log, EventLog_record log
      {| ev_unix_secs := wall; ev_kind := EventDns; ev_host := to_ascii_lowercase (strip_suffix_or [DOT] name);
         ev_url := None; ev_source_host := None |}) <$> dh_events self
  else
    ((∃ job, outcome = Some (Forward job) ∧ job_name job = name) ∨
     (∃ key a elapsed, (AnswerCache_get (dh_cache self) key now).1 = Some (a, elapsed) ∧
        outcome = reply (UpstreamAnswer_render a r elapsed))) ∧
    dh_stats self' dns_blocked = dh_stats self dns_blocked ∧ dh_events self' = dh_events self.

Lemma handle_ordinary self packet d m qe q r now wall : asks packet d m qe q →
  query_type q ≠ TYPE_SVCB → query_type q ≠ TYPE_HTTPS → is_local_name (query_name q) = false →
  Requester_from_query (udp_payload_bytes d) m qe = Some r →
  answered_as (DnsHandler_is_blocked self (query_name q)) self packet d r (query_name q) now wall.
Proof.
  intros Ha Hsv Hht Hl Hr. unfold answered_as. rewrite (handle_asks _ _ _ _ _ _ _ _ _ Ha Hr).
  rewrite (proj2 (Z.eqb_neq _ _) Hsv), (proj2 (Z.eqb_neq _ _) Hht). simpl orb. cbv iota.
  unfold handle_name. cbv zeta. rewrite Hl.
  change (DnsHandler_is_blocked (count self dns_queries) (query_name q)) with (DnsHandler_is_blocked self (query_name q)).
  destruct (DnsHandler_is_blocked self (query_name q)).
  - unfold record_block. cbn [dh_events count]. by destruct (dh_events self) as [log|] eqn:Hlog; split_and!.
  - destruct (question_end_bounds _ _ (as_question _ _ _ _ _ Ha)) as [Hb _].
    destruct (question_key_Some (udp_payload_bytes d) qe ltac:(lia)) as (key & -> & _). cbn [dh_cache count].
    destruct (AnswerCache_get (dh_cache self) (cache_key key r) now) as [[[a e]|] c] eqn:Hg; (split_and!; [|done|done]).
    + right. exists (cache_key key r), a, e. by rewrite Hg.
    + left. by eexists.
Qed.

(** ** The handler with its jobs in flight *)

Record system := {
  sys_handler : DnsHandler;
  sys_jobs : list ForwardJob;
  sys_local_jobs : list ForwardJob
}.

(** What a step shows outside: a packet written to the tunnel, nothing, or a panic. *)
Inductive shown := ShowPacket (packet : bytes) | ShowNothing | ShowPanic.

Definition shown_reply (packet : option bytes) : shown :=
  match packet with Some p => ShowPacket p | None => ShowPanic end.
Definition shown_outcome (o : option Outcome) : shown :=
  match o with
  | None => ShowPanic
  | Some (Reply packet) => ShowPacket packet
  | Some _ => ShowNothing
  end.
Definition new_jobs (o : option Outcome) (s : system) (self : DnsHandler) : system :=
  {| sys_handler := self;
     sys_jobs := match o with Some (Forward job) => job :: sys_jobs s | _ => sys_jobs s end;
     sys_local_jobs := match o with Some (Local_ job) => job :: sys_local_jobs s | _ => sys_local_jobs s end |}.

(** Packets arrive, jobs come back in any order with any answer, and the owner changes lists,
    log and network at any time. *)
Inductive sys_step (s : system) : shown → system → Prop :=
| step_packet packet now wall : Forall is_u8 packet →
    let res := handle_packet (sys_handler s) packet now wall in
    sys_step s (shown_outcome res.1) (new_jobs res.1 s res.2)
| step_complete before job after (answer : result bytes unit) now : sys_jobs s = before ++ job :: after →
    (∀ wire, answer = Ok wire → Forall is_u8 wire) →
    let res := complete (sys_handler s) job answer now in
    sys_step s (shown_reply res.1)
      {| sys_handler := res.2; sys_jobs := before ++ after; sys_local_jobs := sys_local_jobs s |}
| step_complete_local before job after records now : sys_local_jobs s = before ++ job :: after →
    (∀ l, records = Some l → Forall (λ r, Forall is_u8 (lr_data r)) l) →
    let res := complete_local (sys_handler s) job records now in
    sys_step s (shown_reply res.1)
      {| sys_handler := res.2; sys_jobs := sys_jobs s; sys_local_jobs := before ++ after |}
| step_set_blocklist blocklist : sys_step s ShowNothing (new_jobs None s (set_blocklist (sys_handler s) blocklist))
| step_set_allowlist patterns : sys_step s ShowNothing (new_jobs None s (set_allowlist (sys_handler s) patterns))
| step_set_events events : sys_step s ShowNothing (new_jobs None s (set_events (sys_handler s) events))
| step_set_network network : sys_step s ShowNothing (new_jobs None s (set_network (sys_handler s) network)).

Inductive sys_reach : system → Prop :=
| reach_start blocklist stats : sys_reach {| sys_handler := DnsHandler_new blocklist stats; sys_jobs := []; sys_local_jobs := [] |}
| reach_step s sh s' : sys_reach s → sys_step s sh s' → sys_reach s'.

Definition sys_inv (s : system) : Prop :=
  handler_inv (sys_handler s) ∧ Forall job_wf (sys_jobs s) ∧ Forall job_wf (sys_local_jobs s).

Lemma Forall_middle {A} (P : A → Prop) l before x after : l = before ++ x :: after → Forall P l →
  P x ∧ Forall P (before ++ after).
Proof using Type. intros -> [Hb [Hx Ha]%Forall_cons]%Forall_app. split; [done|]. by apply Forall_app. Qed.

Lemma sys_step_inv s sh s' : sys_inv s → sys_step s sh s' → sys_inv s' ∧ sh ≠ ShowPanic.
Proof.
  intros (Hi & Hj & Hlj) Hs.
  destruct Hs as [packet now wall Hu res|before job after answer now Hsp Hu res|
    before job after records now Hsp Hu res|?|?|?|?].
  - destruct (handle_packet_ok (sys_handler s) packet now wall Hi Hu) as (o & Ho & Hwf & Hi').
    fold res in Ho, Hi'. rewrite Ho. destruct o as [p|job|job|]; simpl in *; unfold sys_inv; simpl;
      split_and!; try done; by constructor.
  - destruct (Forall_middle _ _ _ _ _ Hsp Hj) as [Hjob Hrest].
    destruct (complete_ok (sys_handler s) job answer now Hi Hjob Hu) as [[p Hp] Hi'].
    fold res in Hp, Hi'. rewrite Hp. by unfold sys_inv.
  - destruct (Forall_middle _ _ _ _ _ Hsp Hlj) as [Hjob Hrest].
    destruct (complete_local_ok (sys_handler s) job records now Hi Hjob Hu) as [[p Hp] Hi'].
    fold res in Hp, Hi'. rewrite Hp. by unfold sys_inv.
  - split; [|done]. split_and!; [by destruct Hi; constructor|done..].
  - split; [|done]. split_and!; [by destruct Hi; constructor|done..].
  - split; [|done]. split_and!; [by destruct Hi; constructor|done..].
  - split; [|done]. split_and!; [by apply set_network_inv|done..].
Qed.

Lemma sys_reach_inv s : sys_reach s → sys_inv s.
Proof.
  induction 1 as [blocklist stats|s sh s' _ IH Hstep].
  - split_and!; [apply new_inv|constructor..].
  - by eapply sys_step_inv.
Qed.
End Facts.
