(* ===== verification/DnsExamples.v ===== *)
(** * Running the DNS path

    Concrete stand-ins for the crates the DNS path calls, enough to run the handler on whole
    packets: a decoder of single-question messages, and IPv4/UDP packets without checksums. *)
From S2P Require Import Prelude RustStr Collections Net Common Wire Answer AnswerFacts.
From S2P Require Import DnsCache Packet Handler HandlerFacts.

(** Closed lists of bytes. *)
Ltac bytes_ok := apply (bool_decide_eq_true_1 _); vm_compute; reflexivity.

#[export] Instance is_u8_dec b : base.Decision (is_u8 b).
Proof. unfold is_u8. apply _. Defined.

(** ** A decoder *)

(** The labels of an uncompressed name, each followed by a dot. *)
Fixpoint name_text (fuel : nat) (name : bytes) : bytes :=
  match fuel, name with
  | S fuel', n :: rest =>
      if n =? 0 then [] else take (Z.to_nat n) rest ++ [DOT] ++ name_text fuel' (drop (Z.to_nat n) rest)
  | _, _ => []
  end.

Definition example_from_vec (wire : bytes) : option Message :=
  qe ← question_end wire;
  id ← u16_at wire 0;
  qtype ← u16_at wire (qe - 4);
  Some {| msg_id := id; msg_recursion_desired := Z.testbit (byte_of wire 2) 0;
          msg_is_query := Z.land (Z.shiftr (byte_of wire 2) 3) 0x0f =? 0;
          msg_queries := [{| query_type := qtype; query_name := name_text qe (drop DNS_HEADER_LEN wire) |}];
          msg_edns := None |}.

Lemma example_from_vec_Some wire m : example_from_vec wire = Some m →
  (DNS_HEADER_LEN ≤ length wire)%nat ∧ u16_at wire 0 = Some (msg_id m) ∧
  u16_at wire 4 = Some (len (msg_queries m)) ∧ msg_edns m = None.
Proof.
  unfold example_from_vec. destruct (question_end wire) as [qe|] eqn:Hq; [|done]. csimpl.
  destruct (u16_at wire 0) as [id|] eqn:Hid; [|done]. csimpl.
  destruct (u16_at wire (qe - 4)); [|done]. csimpl. intros [= <-].
  apply question_end_bounds in Hq as [Hb H1]. split_and!; [lia|done|done|done].
Qed.

#[export] Instance example_hickory : Hickory.
Proof.
  refine {| from_vec := example_from_vec |}.
  - by intros wire m [? _]%example_from_vec_Some.
  - by intros wire m (_ & ? & _)%example_from_vec_Some.
  - by intros wire m (_ & _ & ? & _)%example_from_vec_Some.
  - intros wire m e (_ & _ & _ & Hn)%example_from_vec_Some. by rewrite Hn.
Defined.

(** ** Packets *)

(** IPv4 with a 20-byte header, UDP, no options. *)
Definition example_from_ip (packet : bytes) : option SlicedPacket :=
  udp_len ← u16_at packet 24;
  sport ← u16_at packet 20;
  dport ← u16_at packet 22;
  if (byte_of packet 0 =? 0x45) && (byte_of packet 9 =? 17)
     && (28 <=? 20 + Z.to_nat udp_len)%nat && (20 + Z.to_nat udp_len <=? length packet)%nat
  then Some {| sp_net := Some (NetIpv4 (negb (Z.land (byte_of packet 6) 0x3f =? 0))
                                 (slice 12 16 packet) (slice 16 20 packet));
               sp_transport := Some (TransportUdp sport dport (slice 28 (20 + Z.to_nat udp_len) packet)) |}
  else None.
Definition example_write (src dst : list Z) (hops sport dport : Z) (payload : bytes) : option bytes :=
  if len payload + 28 <=? U16_MAX
  then Some ([0x45; 0] ++ to_be16 (len payload + 28) ++ [0; 0; 0; 0; hops; 17; 0; 0] ++ src ++ dst
               ++ to_be16 sport ++ to_be16 dport ++ to_be16 (len payload + 8) ++ [0; 0] ++ payload)
  else None.
Definition example_write6 (src dst : list Z) (hops sport dport : Z) (payload : bytes) : option bytes :=
  if len payload + 8 <=? U16_MAX
  then Some ([0x60; 0; 0; 0] ++ to_be16 (len payload + 8) ++ [17; hops] ++ (src ≫= to_be16) ++ (dst ≫= to_be16)
               ++ to_be16 sport ++ to_be16 dport ++ to_be16 (len payload + 8) ++ [0; 0] ++ payload)
  else None.

Lemma slice_within {A} start stop (l : list A) : ∃ before after, l = before ++ slice start stop l ++ after.
Proof.
  exists (take start l), (drop (stop - start) (drop start l)). unfold slice. by rewrite take_drop, take_drop.
Qed.

#[export] Instance example_etherparse : Etherparse.
Proof.
  refine {| from_ip := example_from_ip; write_ipv4_udp := example_write; write_ipv6_udp := example_write6 |}.
  - intros packet sp sport dport payload. unfold example_from_ip.
    destruct (u16_at packet 24) as [n|]; [|done]. csimpl. destruct (u16_at packet 20); [|done]. csimpl.
    destruct (u16_at packet 22); [|done]. csimpl. case_match; [|done]. intros [= <-]. simpl.
    intros [= <- <- <-]. apply slice_within.
  - intros. unfold example_write. destruct (Z.leb_spec (len payload + 28) U16_MAX); [by eexists|lia].
  - intros. unfold example_write6. destruct (Z.leb_spec (len payload + 8) U16_MAX); [by eexists|lia].
Defined.

(** ** Queries and answers *)

Definition tunnel_v4 : SocketAddr := {| sa_ip := V4 TUNNEL_DNS_V4; sa_port := 53 |}.
Definition phone : SocketAddr := {| sa_ip := V4 [198; 18; 0; 2]; sa_port := 5353 |}.

(** The wire form of a host name. *)
Definition wire_name (labels : list string) : bytes :=
  (labels ≫= λ l, len (lit l) :: lit l) ++ [0].
Definition example_question (labels : list string) (qtype : Z) : bytes :=
  wire_name labels ++ to_be16 qtype ++ to_be16 CLASS_IN.
Definition example_query (labels : list string) (qtype : Z) : bytes :=
  [0x12; 0x34; 1; 0; 0; 1; 0; 0; 0; 0; 0; 0] ++ example_question labels qtype.
Definition query_packet (query : bytes) : bytes := default [] (build_udp phone tunnel_v4 query).

(** An answer with two A records and an OPT record. *)
Definition a_record (ttl : Z) (ip : list Z) : bytes :=
  [0xc0; 0x0c] ++ to_be16 TYPE_A ++ to_be16 CLASS_IN ++ to_be32 ttl ++ to_be16 4 ++ ip.
Definition example_answer (labels : list string) : bytes :=
  [0; 0; 0x81; 0x80; 0; 1; 0; 2; 0; 0; 0; 1] ++ example_question labels TYPE_A
    ++ a_record 300 [192; 0; 2; 1] ++ a_record 30 [192; 0; 2; 2]
    ++ [0; 0; 41; 4; 208; 0; 0; 0; 0; 0; 0].

Definition example_handler : DnsHandler := DnsHandler_new None Stats_default.

Example forwards_public_names :
  match (handle_packet example_handler (query_packet (example_query ["www"; "example"; "com"]%string TYPE_A)) 100 0).1 with
  | Some (Forward job) => job_name job = lit "www.example.com."
  | _ => False
  end.
Proof. vm_compute. reflexivity. Qed.
