(* ===== verification/DnsProps.v ===== *)
(** * What the DNS path guarantees

    The theorems about the wire format, replies, the cache and the handler, each with a run of
    the definitions at a concrete input. *)
From S2P Require Import Prelude RustStr Collections Net HostPattern DomainSet Common Wire.
From S2P Require Import LocalName Answer AnswerFacts DnsCache Packet Handler HandlerFacts.
From S2P Require Import DnsExamples.

(** Decides a closed statement about lists of bytes by running it. *)
Ltac run := vm_compute; repeat split; reflexivity.
(** ** The wire format *)

(** [skip_name] finds the end of a name exactly when the bytes there are a name (labels, then
    the root or, if allowed, a pointer, within 255 bytes), and its loop needs no more than
    [SKIP_FUEL] iterations on any message. *)
Theorem skip_name_exact msg at_ p e k :
  (skip_name msg at_ p = Some e ↔ name_at msg at_ p at_ e) ∧
  skip_name_loop (SKIP_FUEL + k) msg at_ at_ p = skip_name msg at_ p.
Proof. split; [apply skip_name_spec|apply skip_name_fuel]. Qed.

(** The records [records] lists lie inside the message: their TTL fields are apart from each
    other and from the question, fit 16 bits, are as many as the header says (OPT aside), and
    the OPT range is a record of its own. *)
Theorem records_in_bounds msg stop found : question_end msg = Some stop → records msg stop = Some (Some found) →
  spaced stop (rec_end found) (ttl_offsets found) ∧ (rec_end found ≤ length msg)%nat ∧
  Forall (λ o, Z.of_nat o <= U16_MAX) (ttl_offsets found) ∧
  (∀ s e, rec_opt found = Some (s, e) → (stop ≤ s < e ∧ e ≤ rec_end found)%nat) ∧
  ∃ an ns ar, u16_at msg 6 = Some an ∧ u16_at msg 8 = Some ns ∧ u16_at msg 10 = Some ar ∧
    (length (ttl_offsets found) + (if rec_opt found is Some _ then 1 else 0) =
     Z.to_nat an + Z.to_nat ns + Z.to_nat ar)%nat.
Proof.
  intros [Hb _]%question_end_bounds Hr.
  apply records_spec in Hr as (an & ns & ar & Han & Hns & Har & [Hs Hu Ho Hc] & Hend & _); [|lia].
  split_and!; [done|lia|done|intros s e Hse; by apply Ho in Hse as [? _]|]. by exists an, ns, ar.
Qed.

Definition example_wire : bytes := example_answer ["www"; "example"; "com"]%string.
Definition example_records : Records :=
  default {| ttl_offsets := []; rec_opt := None; extended_rcode := 0; rec_end := 0 |} (default None (records example_wire 33)).

Lemma records_in_bounds_witness : spaced 33 (rec_end example_records) (ttl_offsets example_records).
Proof.
  assert (question_end example_wire = Some 33%nat) as Hq by (vm_compute; reflexivity).
  assert (records example_wire 33 = Some (Some example_records)) as Hr by (vm_compute; reflexivity).
  exact (proj1 (records_in_bounds example_wire 33 example_records Hq Hr)).
Defined.

(** ** Upstream answers *)

Section Answers.
Context `{Hickory}.

(** An answer that [UpstreamAnswer::parse] accepts is a response to the question asked for
    (up to letter case), and what is stored of it is well formed: without OPT, every stored TTL
    offset inside the stored bytes, the record counts of its header right, so that neither
    [additionals - 1] nor [additionals + 1] overflows. *)
Theorem checked_answers_are_sound wire key ua : Forall is_u8 wire →
  UpstreamAnswer_parse wire key = Some (Ok ua) →
  is_response wire = Some true ∧ question_key wire (ua_question_end ua) = Some key ∧
  question_key (ua_bytes ua) (ua_question_end ua) = Some key ∧ answer_wf ua ∧
  ∃ additionals, additionals_of (ua_bytes ua) = Some additionals ∧ 0 <= additionals < U16_MAX.
Proof.
  intros Hu Hp. destruct (parse_wf wire key ua Hu Hp) as (Hw & Hk & _).
  apply parse_Ok in Hp as (m & qe & found & bs & _ & Hr & _ & Hq & _ & _ & _ & ->).
  split_and!; [done|done|done|done|]. apply (additionals_small _ Hw).
Qed.
End Answers.

Definition example_key : bytes := default [] (question_key example_wire 33).
Definition example_stored : UpstreamAnswer :=
  match UpstreamAnswer_parse example_wire example_key with
  | Some (Ok ua) => ua
  | _ => {| ua_bytes := []; ua_ttl_offsets := []; ua_question_end := 0 |}
  end.

Lemma checked_answers_are_sound_witness :
  UpstreamAnswer_parse example_wire example_key = Some (Ok example_stored) ∧ is_response example_wire = Some true.
Proof.
  assert (UpstreamAnswer_parse example_wire example_key = Some (Ok example_stored)) as Hp by (vm_compute; reflexivity).
  split; [exact Hp|].
  exact (proj1 (checked_answers_are_sound example_wire example_key example_stored ltac:(bytes_ok) Hp)).
Defined.

(** C37: [render] never panics on a stored answer and a requester with the same question. The
    reply has the requester's id and question bytes and at most its UDP size; before the cut
    every TTL is lowered by the elapsed time, never below 0, and every other record byte is the
    stored one. *)
Theorem render_adapts_answer ua r elapsed : answer_wf ua → requester_wf r →
  length (req_question r) = (ua_question_end ua - DNS_HEADER_LEN)%nat → 0 <= elapsed →
  ∃ whole out, render_whole ua r elapsed = Some whole ∧ rendered ua r elapsed whole ∧
    UpstreamAnswer_render ua r elapsed = Some out ∧
    (length out ≤ udp_limit r ≤ 1232)%nat ∧ holds_request r out.
Proof.
  intros Hw Hr Hq He. destruct (render_whole_spec ua r elapsed Hw Hr Hq He) as (whole & Hwh & Hrd).
  destruct (fit_spec r whole Hr (rd_request _ _ _ _ Hrd) (rd_u8 _ _ _ _ Hrd)) as (out & Hf & ? & ? & _).
  pose proof (udp_limit_bounds r).
  exists whole, out. unfold UpstreamAnswer_render. rewrite Hwh. by split_and!; try lia.
Qed.

Definition example_requester : Requester :=
  {| req_id := 0x1234; req_recursion_desired := true;
     req_question := example_question ["WWW"; "example"; "com"]%string TYPE_A;
     req_edns := Some {| udp_payload := 4096; dnssec_ok := false |} |}.

Lemma example_requester_wf : requester_wf example_requester.
Proof. constructor; [unfold is_u16; simpl; lia|vm_compute; lia|bytes_ok]. Qed.

Lemma example_stored_wf : answer_wf example_stored.
Proof.
  apply (parse_wf example_wire example_key); [bytes_ok|vm_compute; reflexivity].
Qed.

Lemma render_adapts_answer_witness :
  (∃ out, UpstreamAnswer_render example_stored example_requester 100 = Some out ∧
    holds_request example_requester out) ∧
  (whole ← render_whole example_stored example_requester 100; u32_at whole 39) = Some 200 ∧
  (whole ← render_whole example_stored example_requester 100; u32_at whole 55) = Some 0.
Proof.
  split; [|run].
  destruct (render_adapts_answer example_stored example_requester 100 example_stored_wf example_requester_wf
    ltac:(vm_compute; reflexivity) ltac:(lia)) as (whole & out & _ & _ & Ho & _ & Hr).
  exists out. split; [exact Ho|exact Hr].
Defined.

(** [fit] returns a reply within the requester's size that keeps its id and question. A reply
    that fits is unchanged; otherwise the answer section of the result is the longest run of
    whole records from the start that fits the budget, without TC, when it holds one of the type
    asked for (or there were none), and is empty with TC otherwise. *)
Theorem fit_keeps_whole_records r reply : requester_wf r → holds_request r reply → Forall is_u8 reply →
  ∃ out, Requester_fit r reply = Some out ∧ (length out ≤ udp_limit r)%nat ∧ holds_request r out ∧
    fit_result r reply out ∧
    ∀ answers a, answers !! fitting (udp_limit r - opt_len r) answers = Some a →
      (udp_limit r - opt_len r < ar_end a)%nat.
Proof.
  intros Hw Hr Hu. destruct (fit_spec r reply Hw Hr Hu) as (out & ? & ? & ? & ?). exists out.
  split_and!; try done. intros answers a. apply fitting_maximal.
Qed.

(** Forty A records: 12 + 21 + 40 * 16 bytes, more than 512. *)
Definition big_reply : bytes :=
  [0x12; 0x34; 0x81; 0x80; 0; 1; 0; 40; 0; 0; 0; 0] ++ example_question ["WWW"; "example"; "com"]%string TYPE_A
    ++ concat (replicate 40 (a_record 300 [192; 0; 2; 1])).
Definition plain_requester : Requester :=
  {| req_id := 0x1234; req_recursion_desired := true;
     req_question := example_question ["WWW"; "example"; "com"]%string TYPE_A; req_edns := None |}.

Lemma plain_requester_wf : requester_wf plain_requester.
Proof. constructor; [unfold is_u16; simpl; lia|vm_compute; lia|bytes_ok]. Qed.

Lemma fit_keeps_whole_records_witness :
  (∃ out, Requester_fit plain_requester big_reply = Some out ∧ (length out ≤ 512)%nat) ∧
  (out ← Requester_fit plain_requester big_reply; length <$> answer_records out 33) = Some 29%nat.
Proof.
  split; [|run].
  destruct (fit_keeps_whole_records plain_requester big_reply plain_requester_wf
    ltac:(vm_compute; repeat split; lia) ltac:(bytes_ok)) as (out & Ho & Hl & _).
  exists out. split; [exact Ho|exact Hl].
Defined.

(** The reply for a blocked name, byte by byte after the header: for A and AAAA of class IN the
    question is followed by one record that points back to it, with [BLOCK_TTL] and an address
    of zeros; for every other type there is none. *)
Definition blocked_reply (r : Requester) (p : bytes) : Prop :=
  let qe := (DNS_HEADER_LEN + length (req_question r))%nat in
  let record qtype rdlen :=
    u16_at p 6 = Some 1 ∧ answer_records p qe = Some [{| ar_rtype := qtype; ar_end := (qe + 12 + rdlen)%nat |}] ∧
    u32_at p (qe + 6) = Some BLOCK_TTL ∧ slice (qe + 12) (qe + 12 + rdlen) p = replicate rdlen 0 in
  holds_request r p ∧ byte_of p 3 = 0x80 ∧
  match qtype_and_class r with
  | Some (qtype, qclass) =>
      if (qtype =? TYPE_A) && (qclass =? CLASS_IN) then record TYPE_A 4%nat
      else if (qtype =? TYPE_AAAA) && (qclass =? CLASS_IN) then record TYPE_AAAA 16%nat
      else u16_at p 6 = Some 0 ∧ answer_records p qe = Some []
  | None => False
  end.

(** One record built after the question. *)
Lemma built_pointer_record r flags t ttl n : is_u16 t → is_u32 ttl → (n ≤ 16)%nat →
  let p := Requester_build r flags (pointer_record t CLASS_IN ttl (replicate n 0)) 1 in
  let qe := (DNS_HEADER_LEN + length (req_question r))%nat in
  u16_at p 6 = Some 1 ∧ answer_records p qe = Some [{| ar_rtype := t; ar_end := (qe + 12 + n)%nat |}] ∧
  u32_at p (qe + 6) = Some ttl ∧ slice (qe + 12) (qe + 12 + n) p = replicate n 0.
Proof.
  intros Ht Httl Hn p qe. assert (u16_at p 6 = Some 1) as H1 by (apply build_count; unfold is_u16; lia).
  assert (len (replicate n 0) <= U16_MAX) as Hd by (unfold len, U16_MAX; rewrite length_replicate; lia).
  destruct (pointer_record_at p qe t CLASS_IN ttl (replicate n 0) Ht Httl Hd
    (build_holds_records _ _ _ _)) as (Hrec & Hu & Hdata).
  rewrite length_replicate in Hrec. split_and!; [done| |done|].
  - unfold answer_records. rewrite H1. csimpl. cbn [Z.to_nat Pos.to_nat Pos.iter_op answer_records_loop].
    rewrite Hrec. done.
  - pose proof (holds_at_slice _ _ _ Hdata) as Hs. by rewrite length_replicate in Hs.
Qed.

Lemma blocked_reply_ok r : requester_wf r →
  ∃ p, Requester_blocked r = Some p ∧ blocked_reply r p ∧ (length p ≤ 1232)%nat.
Proof.
  intros Hw. destruct (blocked_small r Hw) as (p & Hp & Hl). exists p. split_and!; [done| |done].
  revert Hp. unfold Requester_blocked, blocked_reply.
  destruct (qtype_and_class r) as [[qt qc]|] eqn:Hqc; [|done]. csimpl.
  pose proof (rw_id _ Hw) as Hid.
  destruct ((qt =? TYPE_A) && _) eqn:HA; [|destruct ((qt =? TYPE_AAAA) && _) eqn:HB]; intros [= <-].
  - apply andb_true_iff in HA as [->%Z.eqb_eq _].
    split; [by apply build_holds_request|]. split; [done|]. apply (built_pointer_record r _ TYPE_A BLOCK_TTL 4); (lia || done).
  - apply andb_true_iff in HB as [->%Z.eqb_eq _].
    split; [by apply build_holds_request|]. split; [done|]. apply (built_pointer_record r _ TYPE_AAAA BLOCK_TTL 16); (lia || done).
  - split; [by apply build_holds_request|]. split; [done|].
    assert (u16_at (Requester_empty r NOERROR) 6 = Some 0) as H0 by (apply build_count; unfold is_u16; lia).
    split; [done|]. unfold answer_records. by rewrite H0.
Qed.

(** The reply for a blocked name keeps the requester's id and question, says NOERROR, and
    holds exactly one record for A and AAAA queries: [0.0.0.0] or [::] with a TTL of 60 seconds;
    none for other types. *)
Theorem blocked_reply_exact r : requester_wf r →
  ∃ p, Requester_blocked r = Some p ∧ blocked_reply r p ∧ (length p ≤ 1232)%nat.
Proof. apply blocked_reply_ok. Qed.

Lemma blocked_reply_exact_witness :
  (∃ p, Requester_blocked plain_requester = Some p ∧ blocked_reply plain_requester p) ∧
  (p ← Requester_blocked plain_requester; u32_at p 39) = Some 60 ∧
  slice 45 49 <$> Requester_blocked plain_requester = Some [0; 0; 0; 0].
Proof.
  split; [|run].
  destruct (blocked_reply_exact plain_requester plain_requester_wf) as (p & Hp & Hb & _).
  exists p. split; [exact Hp|exact Hb].
Defined.

(** ** Local names *)

(** A name is left to the network's own resolver exactly when, without its final dot and in
    any letter case, it is a single label or a listed zone or under one; the root is not. *)
Theorem is_local_name_exact name :
  is_local_name name = true ↔
  let n := strip_suffix_or [DOT] name in
  n ≠ [] ∧ ((DOT ∉ n) ∨ ∃ zone, local_zone zone ∧ in_zone zone n).
Proof. apply is_local_name_spec. Qed.

(** ** The answer cache *)

Section CacheHistory.
Context `{Lru}.

(** Through any history of inserts and lookups a cache holds at most its capacity, and a hit
    is the last answer inserted under its key, with the seconds since then, which are fewer than
    the answer's smallest TTL clamped to 10 seconds and the cache's longest time. *)
Theorem cache_serves_last_insert capacity max_ttl ops self key now a elapsed :
  max_ttl <= U32_MAX →
  cache_run (AnswerCache_with_limits capacity max_ttl) ops = Some self →
  (AnswerCache_get self key now).1 = Some (a, elapsed) →
  (lru_len (ac_entries self) ≤ Nat.max capacity 1)%nat ∧
  ∃ before after stored_at ttl,
    ops = before ++ OpInsert key a stored_at :: after ∧ Forall (λ op, ¬ inserts key op) after ∧
    min_ttl a = Some ttl ∧ elapsed = sat_sub now stored_at ∧
    elapsed < clamp ttl MIN_CACHE_TTL (Z.max max_ttl MIN_CACHE_TTL).
Proof.
  intros Hmax Hr (e & [Hp Hl] & -> & ->)%cache_get_Some.
  destruct (cache_run_entries _ _ _ _ Hr) as (_ & _ & Hlen & Hcap & He). rewrite Hcap in Hlen.
  destruct (He _ _ Hp) as (before & after & ttl & Ho & Ha & Ht & Hlt). split; [done|].
  exists before, after, (ce_stored_at e), ttl. split_and!; [done..| |].
  - apply Z.mod_small. unfold clamp, sat_sub, MIN_CACHE_TTL, U32_MAX in *. lia.
  - rewrite <-Hlt. rewrite Z.mod_small; [done|]. unfold clamp, sat_sub, MIN_CACHE_TTL, U32_MAX in *. lia.
Qed.
End CacheHistory.

Definition example_ops : list cache_op := [OpInsert (lit "k") example_stored 100; OpGet (lit "k") 105].
Definition example_cache : AnswerCache := default AnswerCache_new (cache_run AnswerCache_new example_ops).

Lemma cache_serves_last_insert_witness :
  (AnswerCache_get example_cache (lit "k") 129).1 = Some (example_stored, 29) ∧
  (AnswerCache_get example_cache (lit "k") 130).1 = None ∧
  (lru_len (ac_entries example_cache) ≤ Nat.max CACHE_CAPACITY 1)%nat.
Proof.
  assert ((AnswerCache_get example_cache (lit "k") 129).1 = Some (example_stored, 29)) as Hg
    by (vm_compute; reflexivity).
  split; [exact Hg|]. split; [vm_compute; reflexivity|].
  exact (proj1 (cache_serves_last_insert CACHE_CAPACITY MAX_CACHE_TTL example_ops example_cache (lit "k") 129
    example_stored 29 ltac:(unfold MAX_CACHE_TTL, U32_MAX; lia) ltac:(vm_compute; reflexivity) Hg)).
Defined.

(** ** The handler *)

Section HandlerProps.
Context `{Hickory, Lru, Etherparse}.

(** C1: whatever packets arrive, in whatever order the forwarded and local jobs come back and
    with whatever bytes, and however lists, log and network change in between, no step of the
    handler panics: every index and slice of a message ([wire.rs], [answer.rs], [handler.rs]) is in
    range, every reply fits one packet, and every answer that is in a cache renders for whoever
    asks. (The lookups of a name in the blocklist and the allowlist are total functions in the
    model: indices inside [domain_set.rs] are not part of this claim.) *)
Theorem handler_never_panics s sh s' : sys_reach s → sys_step s sh s' → sh ≠ ShowPanic.
Proof. intros Hr Hs. by eapply sys_step_inv; [apply sys_reach_inv|]. Qed.
End HandlerProps.

Definition example_start : system :=
  {| sys_handler := example_handler; sys_jobs := []; sys_local_jobs := [] |}.
Definition example_packet : bytes := query_packet (example_query ["www"; "example"; "com"]%string TYPE_A).

Lemma handler_never_panics_witness :
  shown_outcome (handle_packet example_handler example_packet 100 0).1 ≠ ShowPanic.
Proof.
  apply (handler_never_panics example_start _
    (new_jobs (handle_packet example_handler example_packet 100 0).1 example_start
       (handle_packet example_handler example_packet 100 0).2)).
  - apply reach_start.
  - apply (step_packet example_start example_packet 100 0). bytes_ok.
Defined.

Section Routing.
Context `{Hickory, Lru, Etherparse}.

(** Only a question brings anything but a drop or a header-only reply. *)
Lemma handle_job_asks self packet now wall o : (handle_packet self packet now wall).1 = Some o →
  (∃ job, o = Forward job ∨ o = Local_ job) → ∃ d m qe q, asks packet d m qe q ∧
    (query_type q =? TYPE_SVCB) || (query_type q =? TYPE_HTTPS) = false.
Proof.
  assert (∀ a b x, reply_with a b x = Some o → (∃ job, o = Forward job ∨ o = Local_ job) → False) as Hno.
  { intros a b [p|]; unfold reply_with; csimpl; [|done]. destruct (reply_packet a b p); csimpl; [|done].
    intros [= <-] (job & [?|?]); done. }
  unfold handle_packet. destruct (parse_udp packet) as [d|] eqn:Hd; [|intros [= <-] (? & [?|?]); done].
  destruct (negb _ || _) eqn:Hg; [intros [= <-] (? & [?|?]); done|].
  rewrite orb_false_iff, negb_false_iff, Nat.ltb_ge in Hg. destruct Hg as [Ht Hl].
  destruct (is_response _) as [[]|] eqn:Hq; [intros [= <-] (? & [?|?]); done| |done].
  unfold handle_query. destruct (from_vec _) as [m|] eqn:Hm; [|intros Hx Hy; destruct (Hno _ _ _ Hx Hy)].
  destruct (msg_is_query m) eqn:Ho; simpl negb; cbv iota; [|intros Hx Hy; destruct (Hno _ _ _ Hx Hy)].
  destruct (question_end _) as [qe|] eqn:Hqe; [|intros Hx Hy; destruct (Hno _ _ _ Hx Hy)].
  destruct (Requester_from_query _ _ _) as [r|]; [|done].
  destruct (msg_queries m) as [|q qs] eqn:Hqs; [done|].
  destruct (_ || _) eqn:Hty; [intros Hx Hy; destruct (Hno _ _ _ Hx Hy)|]. intros _ _.
  exists d, m, qe, q. split; [|done]. constructor; try done. by rewrite Hqs.
Qed.

(** C23: where a query goes. One that is forwarded to the public upstreams has a name that is
    neither local nor blocked, one handed to the local resolver has a local name, and neither
    asks for HTTPS or SVCB records; the job carries the query's own bytes and key. *)
Theorem queries_go_where_they_may self packet now wall job :
  ((handle_packet self packet now wall).1 = Some (Forward job) →
   is_local_name (job_name job) = false ∧ DnsHandler_is_blocked self (job_name job) = false) ∧
  ((handle_packet self packet now wall).1 = Some (Local_ job) →
   is_local_name (job_name job) = true ∧ job_network job = ls_generation (dh_local self)) ∧
  ((handle_packet self packet now wall).1 = Some (Forward job) ∨
   (handle_packet self packet now wall).1 = Some (Local_ job) →
   ∃ d m qe q, asks packet d m qe q ∧ job_query job = udp_payload_bytes d ∧
     question_key (udp_payload_bytes d) qe = Some (job_key job) ∧ job_name job = query_name q ∧
     query_type q ≠ TYPE_SVCB ∧ query_type q ≠ TYPE_HTTPS).
Proof.
  assert (∀ o, (handle_packet self packet now wall).1 = Some o → o = Forward job ∨ o = Local_ job →
    ∃ d m qe q, asks packet d m qe q ∧ job_query job = udp_payload_bytes d ∧
     question_key (udp_payload_bytes d) qe = Some (job_key job) ∧ job_name job = query_name q ∧
     (query_type q ≠ TYPE_SVCB ∧ query_type q ≠ TYPE_HTTPS) ∧
     ((o = Forward job ∧ is_local_name (job_name job) = false ∧ DnsHandler_is_blocked self (job_name job) = false) ∨
      (o = Local_ job ∧ is_local_name (job_name job) = true ∧ job_network job = ls_generation (dh_local self)))) as Hall.
  { intros o Ho Hjob.
    destruct (handle_job_asks self packet now wall o Ho) as (d & m & qe & q & Ha & Hty); [naive_solver|].
    exists d, m, qe, q. destruct (asks_requester _ _ _ _ _ Ha) as [r Hr].
    rewrite (handle_asks _ _ _ _ _ _ _ _ _ Ha Hr) in Ho. rewrite Hty in Ho.
    rewrite orb_false_iff, !Z.eqb_neq in Hty. destruct Hty as [Hty1 Hty2].
    assert (∀ a b x, reply_with a b x = Some o → False) as Hno.
    { intros a b [p|]; unfold reply_with; csimpl; [|done]. destruct (reply_packet a b p); csimpl; [|done].
      intros [= <-]. naive_solver. }
    revert Ho. unfold handle_name. cbv zeta. destruct (is_local_name (query_name q)) eqn:Hloc.
    - destruct (question_key _ _) as [key|] eqn:Hkey; [|done].
      destruct (AnswerCache_get _ _ _) as [[[a e]|] c]; simpl; [intros Hx; destruct (Hno _ _ _ Hx)|].
      intros [= <-]. destruct Hjob as [|[= <-]]; [done|]. simpl. split_and!; try done. by right.
    - destruct (DnsHandler_is_blocked (count self dns_queries) (query_name q)) eqn:Hb;
        [simpl; intros Hx; destruct (Hno _ _ _ Hx)|].
      destruct (question_key _ _) as [key|] eqn:Hkey; [|done].
      destruct (AnswerCache_get _ _ _) as [[[a e]|] c]; simpl; [intros Hx; destruct (Hno _ _ _ Hx)|].
      intros [= <-]. destruct Hjob as [[= <-]|]; [|done]. simpl. split_and!; try done. by left. }
  split_and!.
  - intros Ho. destruct (Hall _ Ho ltac:(by left)) as (d & m & qe & q & _ & _ & _ & _ & _ & [(_ & ? & ?)|(? & _)]); done.
  - intros Ho. destruct (Hall _ Ho ltac:(by right)) as (d & m & qe & q & _ & _ & _ & _ & _ & [(? & _)|(_ & ? & ?)]); done.
  - intros [Ho|Ho]; [destruct (Hall _ Ho ltac:(by left)) as (d & m & qe & q & ? & ? & ? & ? & [? ?] & _)|
      destruct (Hall _ Ho ltac:(by right)) as (d & m & qe & q & ? & ? & ? & ? & [? ?] & _)]; by exists d, m, qe, q.
Qed.
End Routing.

Definition example_job : ForwardJob :=
  {| job_query := example_query ["www"; "example"; "com"]%string TYPE_A; job_client := phone;
     job_server := tunnel_v4;
     job_requester := {| req_id := 0x1234; req_recursion_desired := true;
       req_question := example_question ["www"; "example"; "com"]%string TYPE_A; req_edns := None |};
     job_key := example_question ["www"; "example"; "com"]%string TYPE_A;
     job_name := lit "www.example.com."; job_network := 0 |}.

Lemma queries_go_where_they_may_witness :
  (handle_packet example_handler example_packet 100 0).1 = Some (Forward example_job) ∧
  is_local_name (job_name example_job) = false.
Proof.
  assert ((handle_packet example_handler example_packet 100 0).1 = Some (Forward example_job)) as Ho
    by (vm_compute; reflexivity).
  split; [exact Ho|].
  exact (proj1 (proj1 (queries_go_where_they_may example_handler example_packet 100 0 example_job) Ho)).
Defined.

Section Blocking.
Context `{Hickory, Lru, Etherparse}.

(** A query for a blocked name never leaves the device: it is answered at once with the
    blocked reply, written to the client that asked, it counts as blocked and enters the blocked
    log, and neither cache changes. *)
Theorem blocked_names_never_leave self packet d m qe q r now wall : handler_inv self → Forall is_u8 packet →
  asks packet d m qe q → query_type q ≠ TYPE_SVCB → query_type q ≠ TYPE_HTTPS →
  is_local_name (query_name q) = false → DnsHandler_is_blocked self (query_name q) = true →
  Requester_from_query (udp_payload_bytes d) m qe = Some r →
  ∃ payload reply, blocked_reply r payload ∧
    build_udp (udp_destination d) (udp_source d) payload = Some reply ∧
    (handle_packet self packet now wall).1 = Some (Reply reply) ∧
    let self' := (handle_packet self packet now wall).2 in
    dh_cache self' = dh_cache self ∧ dh_local self' = dh_local self ∧
    dh_stats self' = Stats_inc dns_blocked (Stats_inc dns_queries (dh_stats self)) ∧
    dh_events self' = (λ log, EventLog_record log
      {| ev_unix_secs := wall; ev_kind := EventDns;
         ev_host := to_ascii_lowercase (strip_suffix_or [DOT] (query_name q));
         ev_url := None; ev_source_host := None |}) <$> dh_events self.
Proof.
  intros Hi Hu Ha Hsv Hht Hl Hb Hr. pose proof (parse_udp_family _ _ (as_datagram _ _ _ _ _ Ha)) as Hf.
  pose proof (parse_udp_bytes _ _ Hu (as_datagram _ _ _ _ _ Ha)) as Hu8.
  destruct (from_query_wf _ m qe Hu8 (as_message _ _ _ _ _ Ha) (as_question _ _ _ _ _ Ha)) as (r' & key & Hr' & _ & Hw & _).
  assert (r' = r) as -> by congruence. destruct (blocked_reply_ok r Hw) as (payload & Hp & Hbr & Hlen).
  destruct (build_udp_fits _ _ payload Hf Hlen) as [reply Hrep]. exists payload, reply.
  rewrite (handle_asks _ _ _ _ _ _ _ _ _ Ha Hr).
  rewrite (proj2 (Z.eqb_neq _ _) Hsv), (proj2 (Z.eqb_neq _ _) Hht). simpl orb. cbv iota.
  unfold handle_name. cbv zeta. rewrite Hl.
  change (DnsHandler_is_blocked (count self dns_queries) (query_name q)) with (DnsHandler_is_blocked self (query_name q)).
  rewrite Hb. split; [done|]. split; [done|]. split.
  - unfold reply_with, reply_packet. simpl fst. rewrite Hp. csimpl. by rewrite Hrep.
  - simpl snd. unfold record_block. cbn [dh_events count].
    destruct (dh_events self) as [log|] eqn:Hlog; by split_and!.
Qed.

(** What happens to a handler between an answer and a query, up to a time: packets before that
    time, [n] answers to other questions, answers of the local resolver, and changes of lists, log
    and network, in any order. *)
Inductive goes_on (key : bytes) (until : Z) : nat → DnsHandler → DnsHandler → Prop :=
| on_start h : goes_on key until 0 h h
| on_packet n h h' packet now wall : goes_on key until n h h' → now < until →
    goes_on key until n h (handle_packet h' packet now wall).2
| on_complete n h h' job (answer : result bytes unit) now : goes_on key until n h h' →
    cache_key (job_key job) (job_requester job) ≠ key →
    goes_on key until (S n) h (complete h' job answer now).2
| on_complete_local n h h' job records now : goes_on key until n h h' →
    goes_on key until n h (complete_local h' job records now).2
| on_set_blocklist n h h' blocklist : goes_on key until n h h' → goes_on key until n h (set_blocklist h' blocklist)
| on_set_allowlist n h h' patterns : goes_on key until n h h' → goes_on key until n h (set_allowlist h' patterns)
| on_set_events n h h' events : goes_on key until n h h' → goes_on key until n h (set_events h' events)
| on_set_network n h h' network : goes_on key until n h h' → goes_on key until n h (set_network h' network).

Lemma handle_packet_cache self packet now wall :
  dh_cache (handle_packet self packet now wall).2 = dh_cache self ∨
  ∃ k, dh_cache (handle_packet self packet now wall).2 = (AnswerCache_get (dh_cache self) k now).2.
Proof.
  unfold handle_packet, handle_query, handle_name, record_block.
  repeat (case_match; try (left; done)); subst; simplify_eq/=; try (left; done); right;
    match goal with E : AnswerCache_get _ ?k _ = _ |- _ => exists k; by rewrite E end.
Qed.

Lemma complete_local_cache self job records now : dh_cache (complete_local self job records now).2 = dh_cache self.
Proof. unfold complete_local. by repeat case_match. Qed.

Lemma complete_cache {E} self job (answer : result bytes E) now :
  dh_cache (complete self job answer now).2 = dh_cache self ∨
  ∃ ua, AnswerCache_insert (dh_cache self) (cache_key (job_key job) (job_requester job)) ua now =
    Some (dh_cache (complete self job answer now).2).
Proof.
  unfold complete. destruct (match answer with Ok _ => _ | Err _ => _ end) as [[ua|]|]; [|by left..].
  destruct (UpstreamAnswer_cacheable ua) as [[]|]; [|by left..].
  destruct (AnswerCache_insert _ _ _ _) as [c|] eqn:Hi; [|by left]. right. by exists ua.
Qed.

(** An entry stays while there is room for what is stored after it. *)
Lemma goes_on_keeps key until n h h' e : goes_on key until n h h' →
  lru_peek key (ac_entries (dh_cache h)) = Some e → until = ce_stored_at e + ce_lifetime e → 0 < ce_lifetime e →
  (lru_len (ac_entries (dh_cache h)) + n ≤ lru_cap (ac_entries (dh_cache h)))%nat →
  lru_peek key (ac_entries (dh_cache h')) = Some e ∧
  (lru_len (ac_entries (dh_cache h')) ≤ lru_len (ac_entries (dh_cache h)) + n)%nat ∧
  lru_cap (ac_entries (dh_cache h')) = lru_cap (ac_entries (dh_cache h)).
Proof.
  intros Hon Hp Hu He. induction Hon as [h|n h h' packet now wall Hon IH Hnow|n h h' job answer now Hon IH Hk|
    n h h' job records now Hon IH|n h h' ? Hon IH|n h h' ? Hon IH|n h h' ? Hon IH|n h h' network Hon IH]; intros Hroom.
  - split_and!; [done|lia|done].
  - destruct (IH Hp Hroom) as (Hp' & Hl & Hc). destruct (handle_packet_cache h' packet now wall) as [->|[k ->]]; [done|].
    destruct (cache_get_limits (dh_cache h') k now) as (_ & -> & Hle).
    split_and!; [apply cache_get_keeps; [done|]|lia|done]. unfold sat_sub. lia.
  - destruct (IH Hp ltac:(lia)) as (Hp' & Hl & Hc).
    destruct (complete_cache h' job answer now) as [->|[ua Hi]]; [split_and!; (done || lia)|].
    revert Hi. unfold AnswerCache_insert. destruct (min_ttl ua) as [ttl|]; [|done]. csimpl. intros [= <-]. simpl.
    match goal with |- context [lru_put ?k ?v ?c] => pose proof (lru_put_len k v c) as Hle;
      destruct (lru_put_size k v c ltac:(lia)) as [_ Hcap] end.
    rewrite lru_put_room by (congruence || lia). split_and!; [done|lia|congruence].
  - rewrite complete_local_cache. by apply IH.
  - by apply IH.
  - by apply IH.
  - by apply IH.
  - unfold set_network. case_bool_decide; by apply IH.
Qed.

Lemma complete_stores self job wire ua now : handler_inv self → job_wf job → Forall is_u8 wire →
  UpstreamAnswer_parse wire (job_key job) = Some (Ok ua) → UpstreamAnswer_cacheable ua = Some true →
  ∃ ttl, min_ttl ua = Some ttl ∧
    lru_peek (cache_key (job_key job) (job_requester job))
      (ac_entries (dh_cache (complete (E := unit) self job (Ok wire) now).2)) =
    Some {| ce_answer := ua; ce_stored_at := now;
            ce_lifetime := clamp ttl MIN_CACHE_TTL (ac_max_ttl (dh_cache self)) |}.
Proof.
  intros Hi Hj Hu Hp Hc. destruct (checked_answer job wire ua Hj Hu Hp) as (_ & Hw & Hak).
  destruct (cache_inv_insert answers_key (dh_cache self) _ ua now (hi_cache _ Hi) Hw Hak)
    as (cache & ttl & Hins & Hci & Ht & Hpeek).
  exists ttl. split; [done|]. unfold complete. by rewrite Hp, Hc, Hins.
Qed.

(** C24: an answer that [complete] found worth caching answers a later query for the same question
    (up to letter case and with the same DO bit) without another upstream query, with the seconds
    since it arrived, until its smallest TTL, clamped to 10 seconds and the cache's longest time,
    has passed: whatever packets, answers to other questions and changes of lists, log and network
    come in between, as long as the answers stored since then fit beside it in the cache and the
    name is not local and not blocked when it is asked for. *)
Theorem completed_answers_are_served self job wire ua ttl now n self' packet d m qe q r key later wall :
  handler_inv self → job_wf job → Forall is_u8 wire →
  UpstreamAnswer_parse wire (job_key job) = Some (Ok ua) → UpstreamAnswer_cacheable ua = Some true →
  min_ttl ua = Some ttl →
  let expires := now + clamp ttl MIN_CACHE_TTL (ac_max_ttl (dh_cache self)) in
  let stored := (complete (E := unit) self job (Ok wire) now).2 in
  goes_on (cache_key (job_key job) (job_requester job)) expires n stored self' →
  (lru_len (ac_entries (dh_cache stored)) + n ≤ lru_cap (ac_entries (dh_cache stored)))%nat →
  asks packet d m qe q → query_type q ≠ TYPE_SVCB → query_type q ≠ TYPE_HTTPS →
  Requester_from_query (udp_payload_bytes d) m qe = Some r → question_key (udp_payload_bytes d) qe = Some key →
  cache_key key r = cache_key (job_key job) (job_requester job) →
  is_local_name (query_name q) = false → DnsHandler_is_blocked self' (query_name q) = false →
  now <= later < expires →
  (handle_packet self' packet later wall).1 =
    reply_with (udp_destination d) (udp_source d) (UpstreamAnswer_render ua r (later - now)) ∧
  dh_stats (handle_packet self' packet later wall).2 = Stats_inc dns_cache_hits (Stats_inc dns_queries (dh_stats self')).
Proof.
  intros Hi Hj Hu Hp Hc Ht expires stored Hon Hroom Ha Hsv Hht Hr Hkey Hk Hl Hb Hlate.
  pose proof (ci_max _ _ (hi_cache _ Hi)) as Hm.
  destruct (complete_stores self job wire ua now Hi Hj Hu Hp Hc) as (ttl' & Ht' & Hpeek). simplify_eq.
  destruct (goes_on_keeps _ _ _ _ _ _ Hon Hpeek eq_refl) as (Hp' & _); [unfold clamp, MIN_CACHE_TTL in *; simpl; lia|done|].
  rewrite (handle_asks _ _ _ _ _ _ _ _ _ Ha Hr).
  rewrite (proj2 (Z.eqb_neq _ _) Hsv), (proj2 (Z.eqb_neq _ _) Hht). simpl orb. cbv iota.
  unfold handle_name. cbv zeta. rewrite Hl, Hkey, Hk. cbn [dh_cache count].
  change (DnsHandler_is_blocked (count self' dns_queries) (query_name q)) with (DnsHandler_is_blocked self' (query_name q)).
  rewrite Hb.
  assert ((AnswerCache_get (dh_cache self') (cache_key (job_key job) (job_requester job)) later).1 =
    Some (ua, later - now)) as Hg.
  { erewrite cache_get_hit; [|split; [exact Hp'|]|]; simpl.
    - unfold sat_sub. do 2 f_equal. lia.
    - unfold sat_sub. lia.
    - unfold clamp. lia. }
  destruct (AnswerCache_get (dh_cache self') _ later) as [hit c]. simpl in Hg. subst hit. done.
Qed.
End Blocking.

(** The blocklist of the DNS lookups example, on a handler with an empty log. *)
Definition example_set : option DomainSet :=
  bs ← DomainRules_encode example_rules;
  match DomainSet_new bs with Ok ds => Some ds | Err _ => None end.
Definition blocking_handler : DnsHandler :=
  set_events (DnsHandler_new example_set Stats_default) (Some []).
Definition ads_query : bytes := example_query ["x"; "Ads"; "example"]%string TYPE_A.
Definition ads_datagram : UdpDatagram :=
  {| udp_source := phone; udp_destination := tunnel_v4; udp_payload_bytes := ads_query |}.
Definition ads_message : Message :=
  {| msg_id := 0x1234; msg_recursion_desired := true; msg_is_query := true;
     msg_queries := [{| query_type := TYPE_A; query_name := lit "x.Ads.example." |}]; msg_edns := None |}.
Definition ads_question : DnsQuery := {| query_type := TYPE_A; query_name := lit "x.Ads.example." |}.

Definition ads_requester : Requester :=
  {| req_id := 0x1234; req_recursion_desired := true;
     req_question := example_question ["x"; "Ads"; "example"]%string TYPE_A; req_edns := None |}.

Lemma ads_asks : asks (query_packet ads_query) ads_datagram ads_message 31 ads_question.
Proof. constructor; try (vm_compute; reflexivity). vm_compute. lia. Qed.

Lemma blocking_handler_inv : handler_inv blocking_handler.
Proof. destruct (new_inv example_set Stats_default) as [? ? ?]. by constructor. Qed.

Lemma blocked_names_never_leave_witness :
  dh_cache (handle_packet blocking_handler (query_packet ads_query) 100 7).2 = dh_cache blocking_handler ∧
  option_map (map ev_host) (dh_events (handle_packet blocking_handler (query_packet ads_query) 100 7).2)
    = Some [lit "x.ads.example"].
Proof.
  split; [|vm_compute; reflexivity].
  destruct (blocked_names_never_leave blocking_handler (query_packet ads_query) ads_datagram ads_message 31
    ads_question ads_requester 100 7 blocking_handler_inv ltac:(bytes_ok) ads_asks ltac:(discriminate) ltac:(discriminate)
    ltac:(vm_compute; reflexivity) ltac:(vm_compute; reflexivity) ltac:(vm_compute; reflexivity))
    as (payload & reply & _ & _ & _ & Hc & _).
  exact Hc.
Defined.

Lemma example_handler_inv : handler_inv example_handler.
Proof. apply new_inv. Qed.

Lemma example_job_wf : job_wf example_job.
Proof.
  constructor; [constructor; [unfold is_u16; simpl; lia|vm_compute; lia|bytes_ok]|vm_compute; reflexivity|bytes_ok|exact I].
Qed.

(** The question of [example_job], asked again in other letters; in between a query for another name
    and a failed answer to one. *)
Definition again_query : bytes := example_query ["WWW"; "example"; "com"]%string TYPE_A.
Definition again_datagram : UdpDatagram :=
  {| udp_source := phone; udp_destination := tunnel_v4; udp_payload_bytes := again_query |}.
Definition again_question : DnsQuery := {| query_type := TYPE_A; query_name := lit "WWW.example.com." |}.
Definition again_message : Message :=
  {| msg_id := 0x1234; msg_recursion_desired := true; msg_is_query := true;
     msg_queries := [again_question]; msg_edns := None |}.
Definition other_job : ForwardJob :=
  {| job_query := ads_query; job_client := phone; job_server := tunnel_v4; job_requester := ads_requester;
     job_key := example_question ["x"; "ads"; "example"]%string TYPE_A; job_name := lit "x.Ads.example.";
     job_network := 0 |}.
Definition after_answer : DnsHandler := (complete (E := unit) example_handler example_job (Ok example_wire) 100).2.
Definition later_handler : DnsHandler :=
  (complete (E := unit) (handle_packet after_answer (query_packet ads_query) 105 0).2 other_job (Err tt) 110).2.

Lemma again_asks : asks (query_packet again_query) again_datagram again_message 33 again_question.
Proof. constructor; try (vm_compute; reflexivity). vm_compute. lia. Qed.

Lemma later_handler_on : goes_on (cache_key (job_key example_job) (job_requester example_job)) 130 1 after_answer later_handler.
Proof.
  apply on_complete; [|vm_compute; discriminate]. apply on_packet; [apply on_start|lia].
Qed.

Lemma completed_answers_are_served_witness :
  (handle_packet later_handler (query_packet again_query) 120 0).1 =
  reply_with tunnel_v4 phone (UpstreamAnswer_render example_stored plain_requester 20).
Proof.
  exact (proj1 (completed_answers_are_served example_handler example_job example_wire example_stored 30 100 1
    later_handler (query_packet again_query) again_datagram again_message 33 again_question plain_requester
    (job_key example_job) 120 0
    example_handler_inv example_job_wf ltac:(bytes_ok) ltac:(vm_compute; reflexivity)
    ltac:(vm_compute; reflexivity) ltac:(vm_compute; reflexivity) later_handler_on
    ltac:(apply Nat.leb_le; vm_compute; reflexivity) again_asks
    ltac:(discriminate) ltac:(discriminate) ltac:(vm_compute; reflexivity) ltac:(vm_compute; reflexivity)
    ltac:(vm_compute; reflexivity) ltac:(vm_compute; reflexivity) ltac:(vm_compute; reflexivity)
    ltac:(vm_compute; split; [discriminate|reflexivity]))).
Defined.

Section Networks.
Context `{Hickory, Lru, Etherparse}.

(** The generation after a sequence of network changes: as many more as networks that differed
    from the one before. *)
Lemma set_networks_generation self networks : is_u64 (ls_generation (dh_local self)) →
  Z.of_nat (length networks) < 2 ^ 64 →
  ∃ k, 0 <= k <= Z.of_nat (length networks) ∧
    ls_generation (dh_local (foldl set_network self networks)) = wrap64 (ls_generation (dh_local self) + k).
Proof.
  intros Hg. revert self Hg. induction networks as [|n networks IH]; intros self Hg Hl; simpl foldl.
  - exists 0. split; [simpl; lia|]. unfold wrap64. by rewrite Z.add_0_r, Z.mod_small.
  - cbn [length] in *. unfold set_network at 2. case_bool_decide.
    + destruct (IH self Hg ltac:(lia)) as (k & Hk & ->). exists k. split; [lia|done].
    + match goal with |- context [foldl set_network ?s networks] =>
        destruct (IH s) as (k & Hk & ->); [|lia|] end.
      { simpl. unfold is_u64, wrap64. apply Z.mod_pos_bound. lia. }
      exists (k + 1). split; [lia|]. cbn [dh_local with_local ls_generation]. unfold wrap64.
      rewrite Zplus_mod_idemp_l. f_equal. lia.
Qed.

(** When the network changes, every answer of the old network's resolver is forgotten, and an
    answer to a query from before the change is given to its client but not kept, however many
    more changes (below 2^64) happen before it comes back. *)
Theorem old_network_answers_not_kept self network networks job answer now :
  is_u64 (ls_generation (dh_local self)) → ls_network (dh_local self) ≠ network →
  Z.of_nat (length networks) < 2 ^ 64 - 1 → job_network job = ls_generation (dh_local self) →
  let self' := foldl set_network (set_network self network) networks in
  (∀ key, lru_peek key (ac_entries (ls_cache (dh_local (set_network self network)))) = None) ∧
  dh_local (complete_local self' job answer now).2 = dh_local self'.
Proof.
  intros Hg Hne Hl Hj self'. split.
  - intros key. unfold set_network. rewrite bool_decide_false by done. simpl. apply lru_peek_new.
  - assert (ls_generation (dh_local self') ≠ job_network job) as Hgen.
    { rewrite Hj. unfold self'.
      set (s1 := set_network self network).
      assert (ls_generation (dh_local s1) = wrap64 (ls_generation (dh_local self) + 1)) as H1'.
      { unfold s1, set_network. by rewrite bool_decide_false by done. }
      destruct (set_networks_generation s1 networks) as (k & Hk & ->); [|lia|].
      { rewrite H1'. unfold is_u64, wrap64. apply Z.mod_pos_bound. lia. }
      rewrite H1'. unfold wrap64, is_u64 in *. rewrite Zplus_mod_idemp_l. intros Heq.
      set (g := ls_generation (dh_local self)) in *.
      destruct (Z.lt_ge_cases (g + 1 + k) (2 ^ 64)).
      - rewrite Z.mod_small in Heq by lia. lia.
      - rewrite <-(Z.mod_add (g + 1 + k) (-1)) in Heq by lia. rewrite Z.mod_small in Heq by lia. lia. }
    unfold complete_local. cbv zeta. destruct answer as [found|]; [|done].
    destruct (local_answer (job_key job) found) as [wire|]; [|done].
    destruct (UpstreamAnswer_parse wire (job_key job)) as [[ua|e]|]; [|done..].
    rewrite (proj2 (Z.eqb_neq _ _) Hgen). destruct (has ← has_answers ua; _) as [keep|]; [|done].
    by rewrite andb_false_r.
Qed.

(** The counters that one outcome raises, last first. *)
Definition outcome_counts (o : Outcome) (cs : list Counter) : Prop :=
  match o with
  | Drop => cs = [packets_dropped]
  | Forward _ | Local_ _ => cs = [dns_forwarded; dns_queries]
  | Reply _ => cs = [dns_queries] ∨ cs = [dns_blocked; dns_queries] ∨ cs = [dns_cache_hits; dns_queries]
  end.

Lemma reply_with_Reply server client payload o : reply_with server client payload = Some o → ∃ p, o = Reply p.
Proof.
  unfold reply_with. destruct payload as [p|]; csimpl; [|done].
  destruct (reply_packet server client p); csimpl; [|done]. intros [= <-]. by eexists.
Qed.

Lemma handle_name_counts self query client server r qe name now wall o :
  (handle_name self query client server r qe name now wall).1 = Some o →
  ∃ c, dh_stats (handle_name self query client server r qe name now wall).2 = Stats_inc c (dh_stats self) ∧
    outcome_counts o [c; dns_queries].
Proof.
  unfold handle_name. cbv zeta. destruct (is_local_name name).
  - destruct (question_key _ _); [|done]. destruct (AnswerCache_get _ _ _) as [[[a e]|] c]; simpl.
    + intros [p ->]%reply_with_Reply. exists dns_cache_hits. simpl. auto.
    + intros [= <-]. by exists dns_forwarded.
  - destruct (DnsHandler_is_blocked self name); simpl.
    + intros [p ->]%reply_with_Reply. exists dns_blocked. unfold record_block. simpl.
      destruct (dh_events self); simpl; auto.
    + destruct (question_key _ _); [|done]. destruct (AnswerCache_get _ _ _) as [[[a e]|] c]; simpl.
      * intros [p ->]%reply_with_Reply. exists dns_cache_hits. simpl. auto.
      * intros [= <-]. by exists dns_forwarded.
Qed.

Lemma handle_packet_counts self packet now wall o : (handle_packet self packet now wall).1 = Some o →
  ∃ cs, dh_stats (handle_packet self packet now wall).2 = foldr Stats_inc (dh_stats self) cs ∧ outcome_counts o cs.
Proof.
  unfold handle_packet. destruct (parse_udp packet) as [d|]; [|intros [= <-]; by exists [packets_dropped]].
  destruct (negb _ || _); [intros [= <-]; by exists [packets_dropped]|].
  destruct (is_response _) as [[]|]; [intros [= <-]; by exists [packets_dropped]| |done].
  assert (∀ x, (reply_with (udp_destination d) (udp_source d) x, count self dns_queries).1 = Some o →
    ∃ cs, dh_stats (reply_with (udp_destination d) (udp_source d) x, count self dns_queries).2 =
      foldr Stats_inc (dh_stats self) cs ∧ outcome_counts o cs) as Hq.
  { intros x [p ->]%reply_with_Reply. exists [dns_queries]. simpl. auto. }
  unfold handle_query. destruct (from_vec _) as [m|]; [|apply Hq].
  destruct (negb (msg_is_query m)); [apply Hq|]. destruct (question_end _) as [qe|]; [|apply Hq].
  destruct (Requester_from_query _ _ _) as [r|]; [|done].
  destruct (msg_queries m) as [|q qs]; [done|]. destruct (_ || _); [apply Hq|].
  intros (c & Hc & Ho)%handle_name_counts. by exists [c; dns_queries].
Qed.

Lemma inc_inc c c' c'' s : (∀ c, 0 <= s c < U64_MAX) → c ≠ c' →
  Stats_inc c (Stats_inc c' s) c'' - s c'' = (if decide (c'' = c ∨ c'' = c') then 1 else 0).
Proof.
  intros Hs Hne. destruct (decide (c'' = c)) as [->|Hc].
  - rewrite decide_True by (by left). rewrite Stats_inc_same; rewrite Stats_inc_other by done; [lia|apply Hs].
  - rewrite Stats_inc_other by done. destruct (decide (c'' = c')) as [->|Hc'].
    + rewrite decide_True by (by right). rewrite Stats_inc_same by apply Hs. lia.
    + rewrite decide_False by tauto. rewrite Stats_inc_other by done. lia.
Qed.

Lemma inc_once c c' s : (∀ c, 0 <= s c < U64_MAX) →
  Stats_inc c s c' - s c' = (if decide (c' = c) then 1 else 0).
Proof.
  intros Hs. destruct (decide (c' = c)) as [->|Hc].
  - rewrite Stats_inc_same by apply Hs. lia.
  - rewrite Stats_inc_other by done. lia.
Qed.

(** Every packet is counted once. A dropped packet counts in [packets_dropped] only; any other
    counts as a query, and additionally as forwarded when it becomes a job, or as at most one of
    blocked and cache hit when it is answered. *)
Theorem every_packet_counted_once self packet now wall o :
  (∀ c, 0 <= dh_stats self c < U64_MAX) → (handle_packet self packet now wall).1 = Some o →
  let δ c := dh_stats (handle_packet self packet now wall).2 c - dh_stats self c in
  match o with
  | Drop => δ packets_dropped = 1 ∧ ∀ c, c ≠ packets_dropped → δ c = 0
  | Forward _ | Local_ _ =>
      δ dns_queries = 1 ∧ δ dns_forwarded = 1 ∧ ∀ c, c ≠ dns_queries → c ≠ dns_forwarded → δ c = 0
  | Reply _ =>
      δ dns_queries = 1 ∧ 0 <= δ dns_blocked ∧ 0 <= δ dns_cache_hits ∧ δ dns_blocked + δ dns_cache_hits <= 1 ∧
      ∀ c, c ≠ dns_queries → c ≠ dns_blocked → c ≠ dns_cache_hits → δ c = 0
  end.
Proof.
  intros Hs Ho. destruct (handle_packet_counts _ _ _ _ _ Ho) as (cs & -> & Hcs). cbv zeta.
  destruct o; simpl in Hcs; [destruct Hcs as [->|[->| ->]]|subst cs..]; simpl foldr;
    split_and?; intros; rewrite ?inc_inc, ?inc_once by done; repeat case_decide; naive_solver lia.
Qed.
End Networks.

Lemma old_network_answers_not_kept_witness :
  dh_local (complete_local (set_network example_handler (lit "wifi")) example_job (Some []) 100).2 =
  dh_local (set_network example_handler (lit "wifi")).
Proof.
  exact (proj2 (old_network_answers_not_kept example_handler (lit "wifi") [] example_job (Some []) 100
    ltac:(vm_compute; split; [discriminate|reflexivity]) ltac:(discriminate) ltac:(vm_compute; reflexivity)
    ltac:(vm_compute; reflexivity))).
Defined.

Lemma every_packet_counted_once_witness :
  dh_stats (handle_packet example_handler example_packet 100 0).2 dns_forwarded - 0 = 1.
Proof.
  exact (proj1 (proj2 (every_packet_counted_once example_handler example_packet 100 0 (Forward example_job)
    ltac:(intros c; vm_compute; split; [discriminate|reflexivity]) ltac:(vm_compute; reflexivity)))).
Defined.

(** ** The blocked log *)

(** Recording keeps the log within 500 events with texts within their limits, the newest
    event comes first, its host cut between two characters, and the rest are the newest of the
    events before it. *)
Theorem blocked_log_keeps_newest log e limit : EventLog_bounded log →
  EventLog_bounded (EventLog_record log e) ∧
  ∃ e', EventLog_recent (EventLog_record log e) (S limit) = e' :: EventLog_recent log (Nat.min limit 499) ∧
    ev_unix_secs e' = ev_unix_secs e ∧ ev_kind e' = ev_kind e ∧
    ∃ n, ev_host e' = take n (ev_host e) ∧ is_char_boundary (ev_host e) n = true.
Proof.
  intros Hb. split; [by apply record_bounded|]. destruct Hb as [Hlen _].
  unfold EventLog_record, EventLog_recent. rewrite reverse_snoc. cbn [take]. eexists. split.
  - f_equal. destruct (Nat.leb_spec EVENT_CAPACITY (length log)) as [Hc|Hc].
    + assert (length log = EVENT_CAPACITY) as Hl by lia. unfold EVENT_CAPACITY in *.
      destruct log as [|x log]; [discriminate Hl|]. change (drop 1 (x :: log)) with (drop 0 log). rewrite drop_0, reverse_cons. injection Hl as Hl.
      rewrite (take_app_le (reverse log)) by (rewrite length_reverse; lia).
      destruct (Nat.le_gt_cases limit 499) as [?|?]; [by rewrite Nat.min_l|].
      rewrite Nat.min_r by lia. rewrite !take_ge by (rewrite length_reverse; lia). done.
    + unfold EVENT_CAPACITY in *. destruct (Nat.le_gt_cases limit 499) as [?|?]; [by rewrite Nat.min_l|].
      rewrite Nat.min_r by lia. by rewrite !take_ge by (rewrite length_reverse; lia).
  - split_and!; [done|done|]. apply truncate_boundary.
Qed.

Definition example_event : BlockEvent :=
  {| ev_unix_secs := 7; ev_kind := EventDns; ev_host := lit "ads.example"; ev_url := None; ev_source_host := None |}.

Lemma blocked_log_keeps_newest_witness : EventLog_bounded (EventLog_record [] example_event).
Proof.
  apply (blocked_log_keeps_newest [] example_event 10). split; [simpl; lia|constructor].
Defined.
