(* ===== verification/Payload.v ===== *)
(** * DNS over plain UDP ([tools/devproxy/src/udp.rs])

    [PayloadHandler] wraps a DNS payload into the packet the tunnel would deliver and unwraps the
    reply. The documentation promises that blocking, caching and forwarding behave exactly as
    behind the tunnel: for every client of the tunnel, the payload handler answers with the
    payload of the tunnel's answer and leaves the handler in the same state. [serve_dns] is a
    transition system with one step per datagram and one per answer of the resolver. *)
From S2P Require Import Prelude RustStr Collections Net Common Wire LocalName Answer AnswerFacts DnsCache Packet Handler HandlerFacts DnsExamples.

Definition WRAP_CLIENT : SocketAddr := {| sa_ip := V4 [198; 18; 0; 2]; sa_port := 53000 |}.
Definition WRAP_SERVER : SocketAddr := {| sa_ip := V4 TUNNEL_DNS_V4; sa_port := 53 |}.
(** [vec![0u8; 4096]]: what is longer is cut by [recv_from]. *)
Definition RECV_BUF : nat := 4096.

Inductive PayloadOutcome :=
| PayloadReply (payload : bytes)
| PayloadForward (job : ForwardJob)
| PayloadDrop.

(** An IPv4 address and a port. *)
Definition v4_addr (a : SocketAddr) : Prop :=
  (∃ ip, sa_ip a = V4 ip ∧ length ip = 4%nat ∧ Forall is_u8 ip) ∧ 0 <= sa_port a <= U16_MAX.

(** What etherparse writes is bytes, and reads back as it was written. *)
Class EtherparseReads `{Etherparse} := {
  written_bytes src dst hops sport dport payload packet : write_ipv4_udp src dst hops sport dport payload = Some packet →
    Forall is_u8 src → Forall is_u8 dst → is_u8 hops → Forall is_u8 payload → Forall is_u8 packet;
  read_written src dst hops sport dport payload packet : write_ipv4_udp src dst hops sport dport payload = Some packet →
    length src = 4%nat → length dst = 4%nat → 0 <= sport <= U16_MAX → 0 <= dport <= U16_MAX →
    from_ip packet = Some {| sp_net := Some (NetIpv4 false src dst); sp_transport := Some (TransportUdp sport dport payload) |}
}.

Section Payload.
Context `{Hickory, Lru, Etherparse}.
#[local] Set Default Proof Using "Type*".

Definition payload_of (packet : bytes) : option bytes := udp_payload_bytes <$> parse_udp packet.
(** [payload_of(..).map_or(PayloadOutcome::Drop, PayloadOutcome::Reply)], of a packet whose making can panic. *)
Definition reply_payload (packet : option bytes) : option PayloadOutcome :=
  packet ← packet; Some (match payload_of packet with Some payload => PayloadReply payload | None => PayloadDrop end).

Definition PayloadHandler_handle (self : DnsHandler) (payload : bytes) (now wall : Z) : option PayloadOutcome * DnsHandler :=
  match build_udp WRAP_CLIENT WRAP_SERVER payload with
  | None => (Some PayloadDrop, self)
  | Some packet =>
      match handle_packet self packet now wall with
      | (Some (Reply reply), self) => (reply_payload (Some reply), self)
      | (Some (Forward job), self) => (Some (PayloadForward job), self)
      | (Some (Local_ job), self) => let '(packet, self) := complete_local self job None now in (reply_payload packet, self)
      | (Some Drop, self) => (Some PayloadDrop, self)
      | (None, self) => (None, self)
      end
  end.
(** [unwrap_or_default] gives the empty payload. *)
Definition PayloadHandler_complete {E} (self : DnsHandler) (job : ForwardJob) (answer : result bytes E) (now : Z)
    : option bytes * DnsHandler :=
  let '(packet, self) := complete self job answer now in
  (packet ← packet; Some (default [] (payload_of packet)), self).

(** ** Serving *)

(** The queries being resolved, with the peers that wait, and what was sent. *)
Record UdpServer := {
  us_handler : DnsHandler;
  us_jobs : list (ForwardJob * SocketAddr);
  us_sent : list (bytes * SocketAddr)
}.
Definition UdpServer_new (handler : DnsHandler) : UdpServer := {| us_handler := handler; us_jobs := []; us_sent := [] |}.
(** One round of the loop; [None] is a panic. *)
Definition serve_datagram (self : UdpServer) (datagram : bytes) (peer : SocketAddr) (now wall : Z) : option UdpServer :=
  match PayloadHandler_handle (us_handler self) (take RECV_BUF datagram) now wall with
  | (Some (PayloadReply reply), handler) =>
      Some {| us_handler := handler; us_jobs := us_jobs self; us_sent := us_sent self ++ [(reply, peer)] |}
  | (Some PayloadDrop, handler) => Some {| us_handler := handler; us_jobs := us_jobs self; us_sent := us_sent self |}
  | (Some (PayloadForward job), handler) =>
      Some {| us_handler := handler; us_jobs := us_jobs self ++ [(job, peer)]; us_sent := us_sent self |}
  | (None, _) => None
  end.
(** The task of query [i] got its answer. *)
Definition serve_answer {E} (self : UdpServer) (i : nat) (answer : result bytes E) (now : Z) : option UdpServer :=
  '(job, peer) ← us_jobs self !! i;
  match PayloadHandler_complete (us_handler self) job answer now with
  | (Some reply, handler) =>
      Some {| us_handler := handler; us_jobs := delete i (us_jobs self); us_sent := us_sent self ++ [(reply, peer)] |}
  | (None, _) => None
  end.
End Payload.

(** ** The client's address changes nothing but the packets *)

Definition with_client (client : SocketAddr) (job : ForwardJob) : ForwardJob :=
  {| job_query := job_query job; job_client := client; job_server := job_server job; job_requester := job_requester job;
     job_key := job_key job; job_name := job_name job; job_network := job_network job |}.

Section Alike.
Context `{Hickory, Lru, Etherparse}.
#[local] Set Default Proof Using "Type*".

(** The outcomes for two clients of one server. *)
Definition outcomes_alike (server client client' : SocketAddr) (o o' : Outcome) : Prop :=
  match o, o' with
  | Reply packet, Reply packet' => ∃ payload, build_udp server client payload = Some packet ∧ build_udp server client' payload = Some packet'
  | Forward job, Forward job' | Local_ job, Local_ job' => job_server job = server ∧ job_client job = client ∧ job' = with_client client' job
  | Drop, Drop => True
  | _, _ => False
  end.
Lemma reply_with_alike server client client' payload o o' : reply_with server client payload = Some o →
  reply_with server client' payload = Some o' → outcomes_alike server client client' o o'.
Proof.
  unfold reply_with, reply_packet. destruct payload as [payload|]; [|done]. csimpl.
  destruct (build_udp server client payload) eqn:E; [|done]. destruct (build_udp server client' payload) eqn:E'; [|done].
  csimpl. intros [= <-] [= <-]. by exists payload.
Qed.
Ltac replies_alike := cbn [fst snd]; intros; split; [by eapply reply_with_alike|done].
Lemma handle_name_alike self query server client client' r qe name now wall o o' :
  (handle_name self query client server r qe name now wall).1 = Some o →
  (handle_name self query client' server r qe name now wall).1 = Some o' →
  outcomes_alike server client client' o o' ∧
  (handle_name self query client' server r qe name now wall).2 = (handle_name self query client server r qe name now wall).2.
Proof.
  unfold handle_name. destruct (is_local_name name); [|destruct (DnsHandler_is_blocked self name)].
  - destruct (question_key query qe) as [key|]; [|done].
    destruct (AnswerCache_get _ _ _) as [[[a e]|] c]; cbn [fst snd]; [replies_alike|]. by intros [= <-] [= <-].
  - replies_alike.
  - destruct (question_key query qe) as [key|]; [|done].
    destruct (AnswerCache_get _ _ _) as [[[a e]|] c]; cbn [fst snd]; [replies_alike|]. by intros [= <-] [= <-].
Qed.
Lemma handle_query_alike self query server client client' now wall o o' :
  (handle_query self query client server now wall).1 = Some o → (handle_query self query client' server now wall).1 = Some o' →
  outcomes_alike server client client' o o' ∧
  (handle_query self query client' server now wall).2 = (handle_query self query client server now wall).2.
Proof.
  unfold handle_query. destruct (from_vec query) as [m|]; [|replies_alike]. destruct (negb (msg_is_query m)); [replies_alike|].
  destruct (question_end query) as [qe|]; [|replies_alike].
  destruct (Requester_from_query query m qe) as [r|]; [|done]. destruct (msg_queries m) as [|q qs]; [done|].
  destruct (_ || _); [replies_alike|]. apply handle_name_alike.
Qed.
(** Completing a job for another client. *)
Lemma complete_alike {E} self job client' (answer : result bytes E) now packet packet' :
  (complete self job answer now).1 = Some packet → (complete self (with_client client' job) answer now).1 = Some packet' →
  (complete self (with_client client' job) answer now).2 = (complete self job answer now).2 ∧
  ∃ payload, build_udp (job_server job) (job_client job) payload = Some packet ∧ build_udp (job_server job) client' payload = Some packet'.
Proof.
  unfold complete, reply_packet. cbn [with_client job_requester job_server job_client job_key].
  destruct (match answer with Ok _ => _ | Err _ => _ end) as [[ua|e]|]; [|cbn; eauto|done].
  destruct (UpstreamAnswer_render ua (job_requester job) 0) as [p|]; csimpl;
    (destruct (UpstreamAnswer_cacheable ua) as [[]|]; [destruct (AnswerCache_insert _ _ _ _); [|done]| |done]); csimpl; eauto; done.
Qed.
End Alike.

Section Equivalence.
Context `{Hickory, Lru, EtherparseReads}.
#[local] Set Default Proof Using "Type*".

Lemma wrap_server_v4 : v4_addr WRAP_SERVER.
Proof. split; [exists TUNNEL_DNS_V4; split_and!; [done|done|]|cbn; unfold U16_MAX; lia]. repeat (constructor; [unfold is_u8; lia|]). constructor. Qed.
Lemma wrap_client_v4 : v4_addr WRAP_CLIENT.
Proof. split; [exists [198; 18; 0; 2]; split_and!; [done|done|]|cbn; unfold U16_MAX; lia]. repeat (constructor; [unfold is_u8; lia|]). constructor. Qed.
Lemma v4_same_family a b : v4_addr a → v4_addr b → same_family a b.
Proof. intros [(? & Ha & _) _] [(? & Hb & _) _]. unfold same_family. by rewrite Ha, Hb. Qed.
Lemma parse_built a b payload packet : v4_addr a → v4_addr b → build_udp a b payload = Some packet →
  parse_udp packet = Some {| udp_source := a; udp_destination := b; udp_payload_bytes := payload |}.
Proof.
  intros [(ip & Ha & Hla & _) Hpa] [(ip' & Hb & Hlb & _) Hpb]. destruct a as [aip ap], b as [bip bp]. cbn in *. subst.
  unfold build_udp. cbn. intros Hw. unfold parse_udp. rewrite (read_written _ _ _ _ _ _ _ Hw) by done. by csimpl.
Qed.
Lemma built_bytes a b payload packet : v4_addr a → v4_addr b → Forall is_u8 payload → build_udp a b payload = Some packet → Forall is_u8 packet.
Proof.
  intros [(ip & Ha & _ & Hua) _] [(ip' & Hb & _ & Hub) _] Hp. unfold build_udp. rewrite Ha, Hb. intros Hw.
  eapply written_bytes; [exact Hw|done|done| |done]. unfold is_u8. lia.
Qed.
Lemma payload_of_built a b payload packet : v4_addr a → v4_addr b → build_udp a b payload = Some packet → payload_of packet = Some payload.
Proof. intros Ha Hb Hp. unfold payload_of. by rewrite (parse_built _ _ _ _ Ha Hb Hp). Qed.
Lemma build_v4 a b payload : v4_addr a → v4_addr b → (length payload ≤ RECV_BUF)%nat → is_Some (build_udp a b payload).
Proof.
  intros [(ip & Ha & _) _] [(ip' & Hb & _) _] Hl. unfold build_udp. rewrite Ha, Hb. apply write_ipv4_fits. unfold len, U16_MAX, RECV_BUF in *. lia.
Qed.

(** A query of a client of the tunnel, as a packet and as a payload. *)
Lemma packets_alike self client payload packet packet' now wall : handler_inv self → v4_addr client → Forall is_u8 payload →
  build_udp client WRAP_SERVER payload = Some packet → build_udp WRAP_CLIENT WRAP_SERVER payload = Some packet' →
  ∃ o o', (handle_packet self packet now wall).1 = Some o ∧ (handle_packet self packet' now wall).1 = Some o' ∧
    outcome_wf o ∧ outcome_wf o' ∧ outcomes_alike WRAP_SERVER client WRAP_CLIENT o o' ∧
    handler_inv (handle_packet self packet now wall).2 ∧
    (handle_packet self packet' now wall).2 = (handle_packet self packet now wall).2.
Proof.
  intros Hi Hc Hu Hb Hb'.
  destruct (handle_packet_ok self packet now wall Hi) as (o & Ho & Hwf & Hinv); [by eapply built_bytes; [..|exact Hb]; first [done|apply wrap_server_v4]|].
  destruct (handle_packet_ok self packet' now wall Hi) as (o' & Ho' & Hwf' & _);
    [by eapply built_bytes; [..|exact Hb']; first [done|apply wrap_server_v4|apply wrap_client_v4]|].
  exists o, o'. split_and!; try done.
  all: unfold handle_packet in *;
    rewrite (parse_built _ _ _ _ Hc wrap_server_v4 Hb) in *; rewrite (parse_built _ _ _ _ wrap_client_v4 wrap_server_v4 Hb') in *;
    cbn [udp_source udp_destination udp_payload_bytes] in *;
    destruct (_ || _); [by simplify_eq/=|]; destruct (is_response payload) as [[]|]; [by simplify_eq/=| |done];
    by eapply handle_query_alike.
Qed.

(** C14: the devproxy's DNS behaves exactly as the tunnel's. For every IPv4 client of the tunnel and
    every query that fits the receive buffer: the payload handler answers with the payload of the
    packet the tunnel would send, drops what the tunnel drops, forwards the same question (and
    completing it gives the payload of the tunnel's packet), and answers a local name as the tunnel
    does when the platform has no resolver; the handler's caches, log and counters end up the same.
    No reply is lost on the way through the packet. *)
Theorem payloads_answered_like_packets (self : DnsHandler) (client : SocketAddr) (payload packet : bytes) (now wall : Z) :
  handler_inv self → v4_addr client → Forall is_u8 payload → (length payload ≤ RECV_BUF)%nat →
  build_udp client WRAP_SERVER payload = Some packet →
  let '(outcome, tunnel) := handle_packet self packet now wall in
  let '(outcome', dev) := PayloadHandler_handle self payload now wall in
  match outcome with
  | Some (Reply reply) => ∃ r, payload_of reply = Some r ∧ outcome' = Some (PayloadReply r) ∧ dev = tunnel
  | Some (Forward job) => outcome' = Some (PayloadForward (with_client WRAP_CLIENT job)) ∧ dev = tunnel ∧
      ∀ handler (answer : result bytes bytes) at_, handler_inv handler → (∀ wire, answer = Ok wire → Forall is_u8 wire) →
        ∃ reply r, (complete handler job answer at_).1 = Some reply ∧ payload_of reply = Some r ∧
          PayloadHandler_complete handler (with_client WRAP_CLIENT job) answer at_ = (Some r, (complete handler job answer at_).2)
  | Some (Local_ job) => ∃ reply r, complete_local tunnel job None now = (Some reply, dev) ∧ payload_of reply = Some r ∧ outcome' = Some (PayloadReply r)
  | Some Drop => outcome' = Some PayloadDrop ∧ dev = tunnel
  | None => False
  end.
Proof.
  intros Hi Hc Hu Hl Hb. destruct (build_v4 WRAP_CLIENT WRAP_SERVER payload wrap_client_v4 wrap_server_v4 Hl) as [packet' Hb'].
  destruct (packets_alike self client payload packet packet' now wall Hi Hc Hu Hb Hb') as (o & o' & Ho & Ho' & Hwf & Hwf' & Ha & Hinv & Hs).
  unfold PayloadHandler_handle. rewrite Hb'. destruct (handle_packet self packet now wall) as [? tunnel], (handle_packet self packet' now wall) as [? dev].
  cbn in Ho, Ho', Hs, Hinv. subst. destruct o as [reply|job|job|], o' as [reply'|job'|job'|]; try done; cbn [outcomes_alike] in Ha.
  - destruct Ha as (r & Hr & Hr'). cbn [reply_payload mbind option_bind].
    rewrite (payload_of_built _ _ _ _ wrap_server_v4 Hc Hr), (payload_of_built _ _ _ _ wrap_server_v4 wrap_client_v4 Hr'). by exists r.
  - destruct Ha as (Hsv & Hcl & ->). split_and!; [done|done|]. intros handler answer at_ Hh Hans.
    destruct (complete_ok handler job answer at_ Hh Hwf Hans) as [[reply Hreply] _].
    destruct (complete_ok handler (with_client WRAP_CLIENT job) answer at_ Hh Hwf' Hans) as [[reply' Hreply'] _].
    destruct (complete_alike handler job WRAP_CLIENT answer at_ reply reply' Hreply Hreply') as (Hst & r & Hr & Hr').
    rewrite Hsv, Hcl in *. exists reply, r. split_and!; [done|by apply (payload_of_built _ _ _ _ wrap_server_v4 Hc)|].
    unfold PayloadHandler_complete. destruct (complete handler (with_client WRAP_CLIENT job) answer at_) as [? dev]. cbn in *. subst.
    csimpl. by rewrite (payload_of_built _ _ _ _ wrap_server_v4 wrap_client_v4 Hr').
  - destruct Ha as (Hsv & Hcl & ->). cbn [complete_local with_client job_requester job_server job_client mbind option_bind].
    set (p := Requester_empty (job_requester job) SERVFAIL).
    assert (Hp : (length p ≤ RECV_BUF)%nat) by (etrans; [apply empty_small, Hwf|unfold RECV_BUF; lia]).
    destruct (build_v4 WRAP_SERVER client p wrap_server_v4 Hc Hp) as [reply Hr], (build_v4 WRAP_SERVER WRAP_CLIENT p wrap_server_v4 wrap_client_v4 Hp) as [reply' Hr'].
    rewrite Hsv, Hcl. unfold reply_packet. rewrite Hr, Hr'. cbn [reply_payload mbind option_bind].
    rewrite (payload_of_built _ _ _ _ wrap_server_v4 wrap_client_v4 Hr'). exists reply, p. split_and!; [done| |done].
    by apply (payload_of_built _ _ _ _ wrap_server_v4 Hc).
Qed.
End Equivalence.

(** ** The server *)

Inductive UdpEvent :=
| UdpIn (datagram : bytes) (peer : SocketAddr) (now wall : Z)
| UdpAnswered (i : nat) (answer : result bytes bytes) (now : Z).

Section Server.
Context `{Hickory, Lru, EtherparseReads}.
#[local] Set Default Proof Using "Type*".

Definition udp_step (self : UdpServer) (ev : UdpEvent) : option UdpServer :=
  match ev with
  | UdpIn datagram peer now wall => serve_datagram self datagram peer now wall
  | UdpAnswered i answer now => serve_answer self i answer now
  end.
(** Bytes arrive, and only tasks that run end. *)
Definition udp_enabled (self : UdpServer) (ev : UdpEvent) : Prop :=
  match ev with
  | UdpIn datagram _ _ _ => Forall is_u8 datagram
  | UdpAnswered i answer _ => is_Some (us_jobs self !! i) ∧ (∀ wire, answer = Ok wire → Forall is_u8 wire)
  end.
Inductive udp_run (self : UdpServer) : list UdpEvent → UdpServer → Prop :=
| udp_start : udp_run self [] self
| udp_more evs self1 ev self2 : udp_run self evs self1 → udp_enabled self1 ev → udp_step self1 ev = Some self2 → udp_run self (evs ++ [ev]) self2.

Definition from_peer (peer : SocketAddr) (ev : UdpEvent) : bool := match ev with UdpIn _ p _ _ => bool_decide (p = peer) | _ => false end.
Definition to_peer {A} (peer : SocketAddr) (l : list (A * SocketAddr)) : nat := length (filter (λ x, x.2 = peer) l).

Record udp_inv (self : UdpServer) : Prop := {
  ui_handler : handler_inv (us_handler self);
  ui_jobs : Forall (λ x, job_wf x.1) (us_jobs self)
}.
Lemma handle_inv self payload now wall : handler_inv self → Forall is_u8 payload → (length payload ≤ RECV_BUF)%nat →
  ∃ o, (PayloadHandler_handle self payload now wall).1 = Some o ∧ handler_inv (PayloadHandler_handle self payload now wall).2 ∧
    match o with PayloadForward job => job_wf job | _ => True end.
Proof.
  intros Hi Hu Hl. unfold PayloadHandler_handle. destruct (build_v4 WRAP_CLIENT WRAP_SERVER payload wrap_client_v4 wrap_server_v4 Hl) as [packet Hb].
  rewrite Hb. destruct (handle_packet_ok self packet now wall Hi) as (o & Ho & Hwf & Hinv);
    [by eapply built_bytes; [..|exact Hb]; first [done|apply wrap_server_v4|apply wrap_client_v4]|].
  destruct (handle_packet self packet now wall) as [? h]. cbn in Ho, Hinv. subst. destruct o as [reply|job|job|]; cbn [reply_payload mbind option_bind].
  - destruct (payload_of reply); by eexists.
  - by eexists.
  - destruct (complete_local_ok h job None now Hinv Hwf) as [[p Hp] Hi']; [done|].
    destruct (complete_local h job None now) as [? h']. cbn in Hp, Hi'. subst. cbn [reply_payload mbind option_bind]. destruct (payload_of p); by eexists.
  - by eexists.
Qed.
Lemma to_peer_app {A} peer (l k : list (A * SocketAddr)) : to_peer peer (l ++ k) = (to_peer peer l + to_peer peer k)%nat.
Proof. unfold to_peer. by rewrite filter_app, length_app. Qed.
Lemma to_peer_one {A} peer (x : A) p : to_peer peer [(x, p)] = Nat.b2n (bool_decide (p = peer)).
Proof. unfold to_peer. rewrite filter_cons, filter_nil. cbn. case_decide; [by rewrite bool_decide_true|by rewrite bool_decide_false]. Qed.
Lemma to_peer_delete {A} peer (l : list (A * SocketAddr)) i x p : l !! i = Some (x, p) →
  (to_peer peer (delete i l) + Nat.b2n (bool_decide (p = peer)) = to_peer peer l)%nat.
Proof.
  intros Hi. rewrite <-(take_drop_middle l i (x, p) Hi) at 2. rewrite delete_take_drop, !to_peer_app.
  change ((x, p) :: drop (S i) l) with ([(x, p)] ++ drop (S i) l). rewrite to_peer_app, to_peer_one. lia.
Qed.
(** One step keeps the invariant, never panics, and sends no more than it takes in. *)
Lemma udp_step_ok self ev : udp_inv self → udp_enabled self ev → ∃ self', udp_step self ev = Some self' ∧ udp_inv self' ∧
  ∀ peer, (to_peer peer (us_sent self') + to_peer peer (us_jobs self') ≤
           to_peer peer (us_sent self) + to_peer peer (us_jobs self) + Nat.b2n (from_peer peer ev))%nat.
Proof.
  intros [Hh Hj]. destruct ev as [datagram p now wall|i answer now]; cbn [udp_enabled udp_step from_peer].
  - intros Hu. destruct (handle_inv (us_handler self) (take RECV_BUF datagram) now wall Hh) as (o & Ho & Hh' & Hwf);
      [by apply Forall_take|rewrite length_take; lia|].
    unfold serve_datagram. destruct (PayloadHandler_handle _ _ _ _) as [? h]. cbn in Ho, Hh'. subst.
    destruct o as [r|job|]; (eexists; split; [done|]); (split; [split; cbn; [done|]|]); try done; cbn [us_sent us_jobs].
    + intros peer. rewrite to_peer_app, to_peer_one. lia.
    + apply Forall_app. by split; [|constructor].
    + intros peer. rewrite to_peer_app, to_peer_one. lia.
    + intros peer. lia.
  - intros [[[job p] Hi] Hans]. unfold serve_answer. rewrite Hi. csimpl.
    assert (Hwf : job_wf job) by by eapply (Forall_lookup_1 _ _ _ _ Hj Hi).
    destruct (complete_ok (us_handler self) job answer now Hh Hwf Hans) as [[packet Hp] Hh'].
    unfold PayloadHandler_complete. destruct (complete _ _ _ _) as [? h]. cbn in Hp, Hh'. subst. csimpl.
    eexists. split; [done|]. split; [split; cbn; [done|by apply Forall_delete]|]. cbn [us_sent us_jobs].
    intros peer. rewrite to_peer_app, to_peer_one. pose proof (to_peer_delete peer _ _ _ _ Hi). lia.
Qed.
(** The devproxy's DNS server never panics, whatever arrives and however long answers take, and
    a peer is never sent more datagrams than it sent itself. *)
Theorem udp_server_answers_its_peers (handler : DnsHandler) (evs : list UdpEvent) (self : UdpServer) (ev : UdpEvent) :
  handler_inv handler → udp_run (UdpServer_new handler) evs self →
  (udp_enabled self ev → is_Some (udp_step self ev)) ∧
  ∀ peer, (to_peer peer (us_sent self) + to_peer peer (us_jobs self) ≤ length (filter (λ ev, from_peer peer ev = true) evs))%nat.
Proof.
  intros Hh Hrun. assert (udp_inv self ∧ ∀ peer, (to_peer peer (us_sent self) + to_peer peer (us_jobs self) ≤ length (filter (λ ev, from_peer peer ev = true) evs))%nat) as [Hinv Hcount].
  { induction Hrun as [|evs self1 ev' self2 _ [IH IHc] Hen Hst]; [split; [split; [exact Hh|constructor]|intros peer; cbn; lia]|].
    destruct (udp_step_ok self1 ev' IH Hen) as (self' & Hs & Hi & Hc). rewrite Hs in Hst. injection Hst as ->. split; [done|].
    intros peer. rewrite filter_app, length_app, filter_cons, filter_nil. specialize (Hc peer). specialize (IHc peer).
    destruct (from_peer peer ev') eqn:E; [rewrite decide_True by done|rewrite decide_False by done]; cbn in *; lia. }
  split; [|done]. intros Hen. destruct (udp_step_ok self ev Hinv Hen) as (self' & Hs & _). by exists self'.
Qed.
End Server.

(** ** Running it *)

#[export] Instance example_reads : EtherparseReads.
Proof.
  split; cbn [write_ipv4_udp from_ip example_etherparse].
  - intros src dst hops sport dport payload packet. unfold example_write. case_match; [|done]. intros [= <-] Hs Hd Hh Hp.
    repeat first [apply Forall_app_2 | apply Forall_cons_2 | apply Forall_nil_2]; try done; try apply to_be16_u8; try (unfold is_u8; lia).
    all: unfold is_u8; apply Z.mod_pos_bound; lia.
  - intros src dst hops sport dport payload packet. unfold example_write. case_match eqn:Hl; [|done]. intros [= <-] Hs Hd Hsp Hdp.
    apply Z.leb_le in Hl. destruct src as [|s1 [|s2 [|s3 [|s4 [|]]]]], dst as [|d1 [|d2 [|d3 [|d4 [|]]]]]; try done.
    assert (Hu1 : is_u16 sport) by (unfold is_u16, U16_MAX in *; lia). assert (Hu2 : is_u16 dport) by (unfold is_u16, U16_MAX in *; lia).
    pose proof (be16_to_be16 _ Hu1) as E1. pose proof (be16_to_be16 _ Hu2) as E2.
    assert (Hu : is_u16 (len payload + 8)) by (unfold is_u16, U16_MAX, len in *; lia). pose proof (be16_to_be16 _ Hu) as E3.
    unfold example_from_ip, u16_at. cbn [app to_be16 lookup list_lookup mbind option_bind]. rewrite E1, E2, E3.
    set (p := _ :: _). assert (Hlen : length p = (28 + length payload)%nat) by done.
    assert (Hto : Z.to_nat (len payload + 8) = (8 + length payload)%nat) by (unfold len; lia). rewrite Hto.
    destruct (Nat.leb_spec 28 (20 + (8 + length payload))) as [_|]; [|lia]. destruct (Nat.leb_spec (20 + (8 + length payload)) (length p)) as [_|]; [|lia].
    change (byte_of p 0) with 69. change (byte_of p 9) with 17. change (byte_of p 6) with 0. cbn [Z.eqb Pos.eqb andb Z.land negb].
    assert (Hpl : slice 28 (20 + (8 + length payload)) p = payload).
    { unfold slice. change (drop 28 p) with payload. apply take_ge. lia. }
    by rewrite Hpl.
Qed.

(** A query of the phone, as a packet and as a payload. *)
Lemma payloads_answered_like_packets_witness :
  let query := example_query ["www"; "example"; "com"]%string TYPE_HTTPS in
  ∃ r, payload_of (default [] (match (handle_packet example_handler (query_packet query) 100 0).1 with Some (Reply p) => Some p | _ => None end)) = Some r ∧
    (PayloadHandler_handle example_handler query 100 0).1 = Some (PayloadReply r).
Proof.
  pose proof (payloads_answered_like_packets example_handler phone (example_query ["www"; "example"; "com"]%string TYPE_HTTPS)
    (query_packet (example_query ["www"; "example"; "com"]%string TYPE_HTTPS)) 100 0) as Hlike.
  specialize (Hlike ltac:(apply new_inv)).
  assert (v4_addr phone) as Hp by (split; [exists [198; 18; 0; 2]; split_and!; [done|done|bytes_ok]|cbn; unfold U16_MAX; lia]).
  specialize (Hlike Hp ltac:(bytes_ok) ltac:(apply Nat.leb_le; vm_compute; reflexivity) ltac:(vm_compute; reflexivity)). cbn zeta.
  destruct (handle_packet _ _ _ _) as [o tunnel] eqn:Ho. destruct (PayloadHandler_handle _ _ _ _) as [o' dev] eqn:Ho'.
  assert (∃ p, o = Some (Reply p)) as [p ->].
  { apply (f_equal fst) in Ho. cbn [fst] in Ho. rewrite <-Ho. eexists. vm_compute. reflexivity. }
  destruct Hlike as (r & Hr & -> & _). by exists r.
Defined.
Lemma udp_server_answers_its_peers_witness :
  let query := example_query ["www"; "example"; "com"]%string TYPE_A in
  is_Some (udp_step (UdpServer_new example_handler) (UdpIn query phone 100 0)).
Proof.
  cbn zeta. apply (udp_server_answers_its_peers example_handler [] (UdpServer_new example_handler)).
  - apply new_inv.
  - apply udp_start.
  - cbn [udp_enabled]. bytes_ok.
Defined.
