(* ===== verification/Doh.v ===== *)
(** * DNS over HTTPS: health marks, connections and the choice of upstream ([dns/src/doh.rs])

    What is modelled: the readings of the two clocks ([common/src/clock.rs], [Reading]), the
    shared state of an upstream with every method that changes it, the classification of an
    exchange, the order in which upstreams are tried and the loop of [resolve]. The network
    (connecting, TLS, HTTP/2) is what an exchange's [Response] says; a connection's sender is a
    number, and whether hyper reports it closed is an argument.

    Every method of [Upstream] is one step here except [mark_down] and [reset_connections],
    which other threads can interrupt between their atomic accesses: [mark_step] has those. *)
From S2P Require Import Prelude RustStr Collections Answer.

(** ** Clock readings *)

Record Reading := {
  total_ms : Z;
  awake_ms : Z
}.
Definition total_secs (self : Reading) : Z := total_ms self / 1000.
(** Durations are in milliseconds. *)
Definition awake_since (self earlier : Reading) : Z := sat_sub (awake_ms self) (awake_ms earlier).
Definition slept_since (self earlier : Reading) : Z :=
  let passed := sat_sub (total_ms self) (total_ms earlier) in
  let awake := sat_sub (awake_ms self) (awake_ms earlier) in
  sat_sub passed awake.
(** [Ord::max] of the derived order: by [total_ms], then [awake_ms]. *)
Definition Reading_le (a b : Reading) : bool :=
  (total_ms a <? total_ms b) || ((total_ms a =? total_ms b) && (awake_ms a <=? awake_ms b)).
Definition Reading_max (a b : Reading) : Reading := if Reading_le a b then b else a.

(** ** Constants (in milliseconds) and errors *)

Definition MAX_IDLE : Z := 120 * 1000.
Definition MAX_SLEEP : Z := 1000.
Definition DOWN_FOR_SECS : Z := 30.
Definition MAX_ANSWER_LEN : nat := Z.to_nat 65535.
Definition DOH_HEADER_LEN : nat := 12.

Inductive DohError :=
| NoUpstream | BadQuery | Busy | Stopped | DohTimeout
| Connect (msg : bytes) | Tls (msg : bytes) | Http (msg : bytes) | Status (code : Z)
| BadAnswer (msg : bytes) | DohConfig (msg : bytes).

Inductive Failure :=
| FailureConnection (e : DohError)
| FailureAnswer (e : DohError).
Definition Failure_into_error (self : Failure) : DohError :=
  match self with FailureConnection e | FailureAnswer e => e end.

(** ** One upstream *)

Record Slot := {
  slot_sender : option nat;
  slot_generation : Z;
  slot_last_used : Reading
}.
Record Upstream := {
  up_slot : Slot;
  up_down_until : Z;
  up_probing : bool;
  up_epoch : Z
}.
Definition Slot_default : Slot :=
  {| slot_sender := None; slot_generation := 0; slot_last_used := {| total_ms := 0; awake_ms := 0 |} |}.
Definition Upstream_fresh : Upstream :=
  {| up_slot := Slot_default; up_down_until := 0; up_probing := false; up_epoch := 0 |}.

Definition with_slot (self : Upstream) (slot : Slot) : Upstream :=
  {| up_slot := slot; up_down_until := up_down_until self; up_probing := up_probing self;
     up_epoch := up_epoch self |}.
Definition with_down_until (self : Upstream) (until : Z) : Upstream :=
  {| up_slot := up_slot self; up_down_until := until; up_probing := up_probing self;
     up_epoch := up_epoch self |}.
Definition with_probing (self : Upstream) (probing : bool) : Upstream :=
  {| up_slot := up_slot self; up_down_until := up_down_until self; up_probing := probing;
     up_epoch := up_epoch self |}.

Inductive Health := Up | Down | Due.
#[global] Instance Health_eq_dec : EqDecision Health.
Proof. solve_decision. Defined.

Definition health (self : Upstream) (now : Z) : Health :=
  let until := up_down_until self in
  if until =? 0 then Up
  else if now <? until then Down
  else if up_probing self then Down
  else Due.

Definition mark_up (self : Upstream) : Upstream := with_down_until self 0.

(** [now.saturating_add(DOWN_FOR.as_secs()).max(1)]. *)
Definition down_mark (now : Z) : Z := Z.max (sat_add64 now DOWN_FOR_SECS) 1.
(** [mark_down] when nothing comes between its accesses. *)
Definition mark_down (self : Upstream) (epoch now : Z) : Upstream :=
  if negb (up_epoch self =? epoch) then self else with_down_until self (down_mark now).

Definition reset_slot (slot : Slot) : Slot :=
  match slot_sender slot with
  | Some _ => {| slot_sender := None; slot_generation := wrap64 (slot_generation slot + 1);
                 slot_last_used := slot_last_used slot |}
  | None => slot
  end.
(** The body of the loop of [reset_connections], uninterrupted. *)
Definition reset_connection (self : Upstream) : Upstream :=
  {| up_slot := reset_slot (up_slot self); up_down_until := 0; up_probing := up_probing self;
     up_epoch := wrap64 (up_epoch self + 1) |}.

Definition open_sender (closed : nat → bool) (slot : Slot) (now : Reading) : option (Z * nat) * Slot :=
  match slot_sender slot with
  | None => (None, slot)
  | Some sender =>
      if closed sender then (None, slot)
      else
        let slept := slept_since now (slot_last_used slot) in
        let idle := awake_since now (slot_last_used slot) in
        if (MAX_SLEEP <? slept) || (MAX_IDLE <? idle)
        then (None, {| slot_sender := None; slot_generation := slot_generation slot;
                       slot_last_used := slot_last_used slot |})
        else (Some (slot_generation slot, sender), slot)
  end.

Definition touch (slot : Slot) (generation : Z) (now : Reading) : Slot :=
  if slot_generation slot =? generation
  then {| slot_sender := slot_sender slot; slot_generation := slot_generation slot;
          slot_last_used := Reading_max (slot_last_used slot) now |}
  else slot.

Definition discard (slot : Slot) (generation : Z) : Slot :=
  if slot_generation slot =? generation
  then {| slot_sender := None; slot_generation := slot_generation slot; slot_last_used := slot_last_used slot |}
  else slot.

(** The end of [connected_sender]: the new connection [sender] is shared, unless a reset ran
    since [epoch] was read. *)
Definition share_connection (self : Upstream) (epoch : Z) (sender : nat) (now : Reading)
    : result (Z * nat) DohError * Upstream :=
  if negb (up_epoch self =? epoch)
  then (Err (Connect (lit "the network changed while connecting")), self)
  else
    let generation := wrap64 (slot_generation (up_slot self) + 1) in
    (Ok (generation, sender),
     with_slot self {| slot_sender := Some sender; slot_generation := generation; slot_last_used := now |}).

(** ** One exchange *)

(** What HTTP/2 gave: an error, or a status and the body as far as [Limited] read it. *)
Inductive Body := BodyRead (bytes : bytes) | BodyTooLong | BodyBroken (msg : bytes).
Inductive Response := ResponseBroken (msg : bytes) | ResponseHead (status : Z) (body : Body).

Definition exchange (response : Response) : result bytes Failure :=
  match response with
  | ResponseBroken msg => Err (FailureConnection (Http msg))
  | ResponseHead status body =>
      if negb (status =? 200) then Err (FailureAnswer (Status status))
      else
        match body with
        | BodyTooLong => Err (FailureAnswer (BadAnswer (lit "longer than 65535 bytes")))
        | BodyBroken msg => Err (FailureConnection (Http msg))
        | BodyRead answer =>
            if (length answer <? DOH_HEADER_LEN)%nat
            then Err (FailureAnswer (BadAnswer (lit "shorter than a DNS header")))
            else Ok answer
        end
  end.

(** The mark a finished attempt on a new connection leaves. *)
Definition mark_result (self : Upstream) (epoch now : Z) (result : result bytes Failure) : Upstream :=
  match result with
  | Ok _ | Err (FailureAnswer _) => mark_up self
  | Err (FailureConnection _) => mark_down self epoch now
  end.

(** ** Resolving *)

(** The loop of [order]: the upstreams that are up and those that are down, by index, and those
    that get a background query (with their flag set). *)
Fixpoint order_loop (upstreams : list Upstream) (index : nat) (now : Z)
    : list nat * list nat * list nat * list Upstream :=
  match upstreams with
  | [] => ([], [], [], [])
  | upstream :: rest =>
      let '(up, down, probed, rest) := order_loop rest (S index) now in
      match health upstream now with
      | Up => (index :: up, down, probed, upstream :: rest)
      | Down => (up, index :: down, probed, upstream :: rest)
      | Due =>
          (* [probe]: [probing.swap(true)] *)
          if up_probing upstream then (up, index :: down, probed, upstream :: rest)
          else (up, index :: down, index :: probed, with_probing upstream true :: rest)
      end
  end.
Definition order (upstreams : list Upstream) (now : Z) : list nat * list nat * list Upstream :=
  let '(up, down, probed, upstreams) := order_loop upstreams 0 now in
  (up ++ down, probed, upstreams).

(** The loop of [resolve]: [query index body] is what that upstream answered. *)
Fixpoint try_upstreams (query : nat → bytes → result bytes DohError) (body : bytes) (indices : list nat)
    (last : DohError) : result bytes DohError :=
  match indices with
  | [] => Err last
  | index :: rest =>
      match query index body with
      | Ok answer => Ok answer
      | Err e => try_upstreams query body rest e
      end
  end.
(** [permit]: whether [try_acquire] got one of the in-flight permits. *)
Definition resolve (permit : bool) (query : nat → bytes → result bytes DohError) (indices : list nat)
    (message : bytes) : result bytes DohError :=
  if (length message <? DOH_HEADER_LEN)%nat then Err BadQuery
  else if negb permit then Err Busy
  else
    let body := [0; 0] ++ drop 2 message in
    match try_upstreams query body indices NoUpstream with
    | Ok answer => Ok (take 2 message ++ drop 2 answer)
    | Err e => Err e
    end.
