(* ===== verification/DohTrace.v ===== *)
(** * Queries to one upstream running at once ([dns/src/doh.rs])

    [Upstream::query] as a program counter per query and one step per access to the shared
    state, so that other queries and resets come between any two of them; a query that waits can be dropped. [reset_connections]
    is three accesses: the count, the mark, the slot. The network decides how exchanges and
    connection attempts end, and time passes as it likes.

    A connection's sender is its number in [opened], which records the reset count when it
    began to connect: the network path it runs on. *)
From S2P Require Import Prelude RustStr Collections Doh.

(** ** Program counters *)

(** [conn]: the connection the attempt used, if it got one. *)
Inductive pc :=
| QStart
| QWarmOpen (generation : Z) (sender : nat)
| QWarm (generation : Z) (sender : nat) (epoch : Z)
| QCold (stop : bool)
| QColdRun (stop : bool) (epoch : Z)
| QConnecting (stop : bool) (epoch cepoch : Z)
| QConnected (stop : bool) (epoch cepoch : Z) (sender : nat)
| QShare (stop : bool) (epoch cepoch : Z) (sender : nat)
| QExchange (stop : bool) (epoch generation : Z) (sender : nat)
| QMarkUp (r : result bytes DohError)
| QFailed (epoch : Z) (conn : option nat) (e : DohError)
| QSwap (epoch : Z) (conn : option nat) (e : DohError) (until : Z)
| QCheck (epoch : Z) (conn : option nat) (e : DohError) (until : Z)
| QClear (epoch : Z) (conn : option nat) (e : DohError) (until : Z)
| QDone (r : result bytes DohError).

(** The attempt holds the [connecting] lock. *)
Definition connecting (p : pc) : bool :=
  match p with QConnecting _ _ _ | QConnected _ _ _ _ | QShare _ _ _ _ => true | _ => false end.

(** The reset count of an attempt that a reset stops: only while it waits for something, so
    not between the end of connecting and the store into the slot. *)
Definition stoppable (p : pc) : option Z :=
  match p with
  | QWarm _ _ epoch => Some epoch
  | QColdRun true epoch | QConnecting true epoch _ | QExchange true epoch _ _ => Some epoch
  | _ => None
  end.

(** The reset count and connection of a running attempt on a new connection. *)
Definition cold_attempt (p : pc) : option (Z * option nat) :=
  match p with
  | QColdRun _ epoch | QConnecting _ epoch _ => Some (epoch, None)
  | QExchange _ epoch _ sender => Some (epoch, Some sender)
  | _ => None
  end.

(** A query whose future can be dropped: it waits for something, or it is over. *)
Definition droppable (p : pc) : bool :=
  match p with QWarm _ _ _ | QColdRun _ _ | QConnecting _ _ _ | QExchange _ _ _ _ | QDone _ => true | _ => false end.

(** The shared state; [owner] is the count and the connection of the attempt that wrote the
    mark last. *)
Record shared := {
  sh_up : Upstream;
  sh_opened : list Z;
  sh_owner : option (Z * option nat)
}.
Definition on_up (s : shared) (u : Upstream) : shared :=
  {| sh_up := u; sh_opened := sh_opened s; sh_owner := sh_owner s |}.

(** One step of a query. *)
Inductive query_step (s : shared) : pc → shared → pc → Prop :=
| q_open closed now g sender slot :
    open_sender closed (up_slot (sh_up s)) now = (Some (g, sender), slot) →
    query_step s QStart (on_up s (with_slot (sh_up s) slot)) (QWarmOpen g sender)
| q_open_none closed now slot : open_sender closed (up_slot (sh_up s)) now = (None, slot) →
    query_step s QStart (on_up s (with_slot (sh_up s) slot)) (QCold true)
| q_warm_count g sender : query_step s (QWarmOpen g sender) s (QWarm g sender (up_epoch (sh_up s)))
| q_warm_answer g sender epoch now response r : exchange response = r →
    (∀ f, r = Err f → ∃ e, f = FailureAnswer e) →
    query_step s (QWarm g sender epoch) (on_up s (with_slot (sh_up s) (touch (up_slot (sh_up s)) g now)))
      (QMarkUp (map_err Failure_into_error r))
| q_warm_broken g sender epoch :
    query_step s (QWarm g sender epoch) (on_up s (with_slot (sh_up s) (discard (up_slot (sh_up s)) g)))
      (QCold true)
| q_warm_timeout g sender epoch :
    query_step s (QWarm g sender epoch) (on_up s (with_slot (sh_up s) (discard (up_slot (sh_up s)) g)))
      (QFailed epoch (Some sender) DohTimeout)
| q_stopped p epoch : stoppable p = Some epoch → up_epoch (sh_up s) ≠ epoch → query_step s p s (QCold false)
| q_cold_count stop : query_step s (QCold stop) s (QColdRun stop (up_epoch (sh_up s)))
| q_cold_open stop epoch closed now g sender slot :
    open_sender closed (up_slot (sh_up s)) now = (Some (g, sender), slot) →
    query_step s (QColdRun stop epoch) (on_up s (with_slot (sh_up s) slot)) (QExchange stop epoch g sender)
| q_cold_connect stop epoch closed now slot :
    open_sender closed (up_slot (sh_up s)) now = (None, slot) →
    query_step s (QColdRun stop epoch) (on_up s (with_slot (sh_up s) slot))
      (QConnecting stop epoch (up_epoch (sh_up s)))
| q_connected stop epoch cepoch :
    query_step s (QConnecting stop epoch cepoch)
      {| sh_up := sh_up s; sh_opened := sh_opened s ++ [cepoch]; sh_owner := sh_owner s |}
      (QConnected stop epoch cepoch (length (sh_opened s)))
| q_count_changed stop epoch cepoch sender : up_epoch (sh_up s) ≠ cepoch →
    query_step s (QConnected stop epoch cepoch sender) s
      (QFailed epoch (Some sender) (Connect (lit "the network changed while connecting")))
| q_count_same stop epoch cepoch sender : up_epoch (sh_up s) = cepoch →
    query_step s (QConnected stop epoch cepoch sender) s (QShare stop epoch cepoch sender)
| q_share stop epoch cepoch sender now r u : share_connection (sh_up s) (up_epoch (sh_up s)) sender now = (r, u) →
    query_step s (QShare stop epoch cepoch sender) (on_up s u)
      (QExchange stop epoch (slot_generation (up_slot u)) sender)
| q_cold_answer stop epoch g sender now response r : exchange response = r →
    (∀ f, r = Err f → ∃ e, f = FailureAnswer e) →
    query_step s (QExchange stop epoch g sender)
      (on_up s (with_slot (sh_up s) (touch (up_slot (sh_up s)) g now))) (QMarkUp (map_err Failure_into_error r))
| q_cold_failed p epoch conn e : cold_attempt p = Some (epoch, conn) → query_step s p s (QFailed epoch conn e)
| q_mark_up r : query_step s (QMarkUp r) (on_up s (mark_up (sh_up s))) (QDone r)
| q_down_stale epoch conn e : up_epoch (sh_up s) ≠ epoch → query_step s (QFailed epoch conn e) s (QDone (Err e))
| q_down_now epoch conn e now : up_epoch (sh_up s) = epoch →
    query_step s (QFailed epoch conn e) s (QSwap epoch conn e (down_mark now))
| q_swap epoch conn e until :
    query_step s (QSwap epoch conn e until)
      {| sh_up := with_down_until (sh_up s) until; sh_opened := sh_opened s; sh_owner := Some (epoch, conn) |}
      (QCheck epoch conn e until)
| q_check_same epoch conn e until : up_epoch (sh_up s) = epoch →
    query_step s (QCheck epoch conn e until) s (QDone (Err e))
| q_check_changed epoch conn e until : up_epoch (sh_up s) ≠ epoch →
    query_step s (QCheck epoch conn e until) s (QClear epoch conn e until)
| q_clear epoch conn e until :
    query_step s (QClear epoch conn e until)
      (if up_down_until (sh_up s) =? until then on_up s (with_down_until (sh_up s) 0) else s) (QDone (Err e)).

(** ** Resets *)

Inductive rpc := RCount | RMark | RSlot | RDone.

Inductive reset_step (s : shared) : rpc → shared → rpc → Prop :=
| r_count : reset_step s RCount
    (on_up s {| up_slot := up_slot (sh_up s); up_down_until := up_down_until (sh_up s);
                up_probing := up_probing (sh_up s); up_epoch := wrap64 (up_epoch (sh_up s) + 1) |}) RMark
| r_mark : reset_step s RMark (on_up s (with_down_until (sh_up s) 0)) RSlot
| r_slot : reset_step s RSlot (on_up s (with_slot (sh_up s) (reset_slot (up_slot (sh_up s))))) RDone.

(** Without interruption a reset is [reset_connection]. *)
Lemma reset_uninterrupted s : ∃ s1 s2 s3, reset_step s RCount s1 RMark ∧ reset_step s1 RMark s2 RSlot ∧
  reset_step s2 RSlot s3 RDone ∧ sh_up s3 = reset_connection (sh_up s).
Proof. do 3 eexists. split_and!; [apply r_count|apply r_mark|apply r_slot|done]. Qed.

(** ** All together *)

Record doh_system := {
  ds_shared : shared;
  ds_queries : list pc;
  ds_resets : list rpc
}.

Inductive doh_step (s : doh_system) : doh_system → Prop :=
| doh_new_query : doh_step s
    {| ds_shared := ds_shared s; ds_queries := QStart :: ds_queries s; ds_resets := ds_resets s |}
| doh_query before p after sh' p' : ds_queries s = before ++ p :: after →
    query_step (ds_shared s) p sh' p' →
    (connecting p' = true → connecting p = false → existsb connecting (before ++ after) = false) →
    doh_step s {| ds_shared := sh'; ds_queries := before ++ p' :: after; ds_resets := ds_resets s |}
| doh_drop before p after : ds_queries s = before ++ p :: after → droppable p = true →
    doh_step s {| ds_shared := ds_shared s; ds_queries := before ++ after; ds_resets := ds_resets s |}
| doh_probing b :
    doh_step s {| ds_shared := on_up (ds_shared s) (with_probing (sh_up (ds_shared s)) b); ds_queries := ds_queries s; ds_resets := ds_resets s |}
| doh_new_reset : doh_step s
    {| ds_shared := ds_shared s; ds_queries := ds_queries s; ds_resets := RCount :: ds_resets s |}
| doh_reset before r after sh' r' : ds_resets s = before ++ r :: after →
    reset_step (ds_shared s) r sh' r' →
    doh_step s {| ds_shared := sh'; ds_queries := ds_queries s; ds_resets := before ++ r' :: after |}.

Definition doh_start : doh_system :=
  {| ds_shared := {| sh_up := Upstream_fresh; sh_opened := []; sh_owner := None |};
     ds_queries := []; ds_resets := [] |}.
Definition doh_reach (s : doh_system) : Prop := rtc doh_step doh_start s.

(** ** Marks *)

(** A query between writing its mark and being done with it. *)
Definition marking (p : pc) (ep : Z) (c : option nat) (until : Z) : Prop :=
  ∃ e, p = QCheck ep c e until ∨ p = QClear ep c e until.

Definition marks_inv (s : doh_system) : Prop :=
  let u := sh_up (ds_shared s) in
  up_down_until u = 0 ∨ RMark ∈ ds_resets s ∨
  ∃ ep c, sh_owner (ds_shared s) = Some (ep, c) ∧
    (ep = up_epoch u ∨ ∃ p, p ∈ ds_queries s ∧ marking p ep c (up_down_until u)).

(** Steps that leave the count, the mark and its owner, and do not end a marking. *)
Lemma marks_kept s sh' queries : marks_inv s →
  up_down_until (sh_up sh') = up_down_until (sh_up (ds_shared s)) →
  up_epoch (sh_up sh') = up_epoch (sh_up (ds_shared s)) → sh_owner sh' = sh_owner (ds_shared s) →
  (∀ p ep c until, p ∈ ds_queries s → marking p ep c until → p ∈ queries) →
  marks_inv {| ds_shared := sh'; ds_queries := queries; ds_resets := ds_resets s |}.
Proof.
  intros [H|[H|(ep & c & Ho & H)]] Hu He Hw Hq; unfold marks_inv; simpl; rewrite Hu, He, Hw; [auto|auto|].
  right. right. exists ep, c. split; [done|]. destruct H as [?|(p & Hp & Hm)]; [auto|]. right. exists p. eauto.
Qed.

Lemma marking_elem before p after p' q ep c until : ¬ marking p ep c until →
  q ∈ before ++ p :: after → marking q ep c until → q ∈ before ++ p' :: after.
Proof.
  intros Hn Hq Hm. rewrite elem_of_app, elem_of_cons in *. destruct Hq as [?|[->|?]]; [auto|done|auto].
Qed.

Lemma query_marks s before p after sh' p' : ds_queries s = before ++ p :: after →
  query_step (ds_shared s) p sh' p' → marks_inv s →
  marks_inv {| ds_shared := sh'; ds_queries := before ++ p' :: after; ds_resets := ds_resets s |}.
Proof.
  intros Hq Hs Hi.
  assert ((∀ ep c until, ¬ marking p ep c until) →
    up_down_until (sh_up sh') = up_down_until (sh_up (ds_shared s)) →
    up_epoch (sh_up sh') = up_epoch (sh_up (ds_shared s)) → sh_owner sh' = sh_owner (ds_shared s) →
    marks_inv {| ds_shared := sh'; ds_queries := before ++ p' :: after; ds_resets := ds_resets s |}) as Hkeep.
  { intros Hn Hu He Ho. apply (marks_kept s); try done. intros q ep c until. rewrite Hq.
    intros Hel Hm. by eapply marking_elem. }
  destruct Hs; try (apply Hkeep; [by intros ??? (? & [?|?])|done|done|done]).
  - apply Hkeep; [|done..]. intros ep c until (e & [-> | ->]); done.
  - apply Hkeep; [by intros ??? (? & [?|?])|..]; revert H; unfold share_connection;
      rewrite Z.eqb_refl; simpl; by intros [= <- <-].
  - apply Hkeep; [|done..]. intros ep c until (e' & [-> | ->]); done.
  - by left.
  - right. right. exists epoch, conn. split; [done|]. right. exists (QCheck epoch conn e until).
    split; [set_solver|]. exists e. by left.
  - destruct Hi as [Hi|[Hi|(ep & c & Ho & Hi)]]; [by left|by right; left|]. right. right. exists ep, c.
    split; [done|]. destruct Hi as [?|(q & Hel & Hm)]; [by left|]. simpl.
    rewrite Hq, elem_of_app, elem_of_cons in Hel. destruct Hel as [Hel|[->|Hel]].
    + right. exists q. split; [set_solver|done].
    + destruct Hm as (e' & [[= -> -> -> _]|?]); [|done]. by left.
    + right. exists q. split; [set_solver|done].
  - destruct Hi as [Hi|[Hi|(ep & c & Ho & Hi)]]; [by left|by right; left|]. right. right. exists ep, c.
    split; [done|]. destruct Hi as [?|(q & Hel & Hm)]; [by left|]. simpl. right.
    rewrite Hq, elem_of_app, elem_of_cons in Hel. destruct Hel as [Hel|[->|Hel]].
    + exists q. split; [set_solver|done].
    + destruct Hm as (e' & [[= -> -> -> ->]|?]); [|done]. exists (QClear ep c e' (up_down_until (sh_up (ds_shared s)))).
      split; [set_solver|]. exists e'. by right.
    + exists q. split; [set_solver|done].
  - destruct (Z.eqb_spec (up_down_until (sh_up (ds_shared s))) until) as [Heq|Hne]; [by left|].
    destruct Hi as [Hi|[Hi|(ep & c & Ho & Hi)]]; [by left|by right; left|]. right. right. exists ep, c.
    split; [done|]. destruct Hi as [?|(q & Hel & Hm)]; [by left|]. simpl. right. exists q. split; [|done].
    eapply marking_elem; [|by rewrite <-Hq|done]. intros (e' & [?|[= ? ? ? ->]]); done.
Qed.

Lemma reset_marks s before r after sh' r' : ds_resets s = before ++ r :: after →
  reset_step (ds_shared s) r sh' r' → marks_inv s →
  marks_inv {| ds_shared := sh'; ds_queries := ds_queries s; ds_resets := before ++ r' :: after |}.
Proof.
  intros Hr Hs Hi. destruct Hs.
  - right. left. simpl. set_solver.
  - by left.
  - destruct Hi as [Hi|[Hi|(ep & c & Ho & Hi)]]; [by left| |].
    + right. left. simpl. rewrite Hr in Hi. set_solver.
    + right. right. exists ep, c. done.
Qed.

Lemma doh_step_marks s s' : marks_inv s → doh_step s s' → marks_inv s'.
Proof.
  intros Hi [|before p after sh' p' Hq Hs _|before p after Hq Hd|b| |before r after sh' r' Hr Hs].
  - apply (marks_kept s); try done. set_solver.
  - by eapply query_marks.
  - apply (marks_kept s); try done. intros q ep c until Hel Hm. rewrite Hq in Hel.
    apply elem_of_app in Hel as [?|[->|?]%elem_of_cons]; [set_solver| |set_solver]. by destruct Hm as (e & [-> | ->]).
  - by apply (marks_kept s).
  - destruct Hi as [Hi|[Hi|Hi]]; [by left|right; left; set_solver|by right; right].
  - by eapply reset_marks.
Qed.

Lemma doh_reach_marks s : doh_reach s → marks_inv s.
Proof.
  intros Hr. assert (marks_inv doh_start) as H0 by (by left).
  revert H0. induction Hr as [|? ? ? Hs _ IH]; [done|]. intros Hi. apply IH. by eapply doh_step_marks.
Qed.
