(* ===== verification/DohProps.v ===== *)
(** * What the DNS over HTTPS client guarantees

    The theorems about health marks, connections and the order of upstreams, each with a run of
    the definitions at a concrete input. *)
From S2P Require Import Prelude RustStr Collections Answer Doh DohTrace.

(** ** Health marks *)

(** In every interleaving of queries and resets, once no query is inside [mark_down] and no
    reset is between raising the count and clearing the mark, an upstream that is marked down
    was marked by an attempt that began under the current reset count: an attempt from before
    the last reset never leaves a mark behind. *)
Theorem no_stale_marks s : doh_reach s → RMark ∉ ds_resets s →
  (∀ p ep c until, p ∈ ds_queries s → ¬ marking p ep c until) →
  up_down_until (sh_up (ds_shared s)) ≠ 0 →
  ∃ conn, sh_owner (ds_shared s) = Some (up_epoch (sh_up (ds_shared s)), conn).
Proof.
  intros Hr Hn Hm Hu. apply doh_reach_marks in Hr as [?|[?|(ep & c & Ho & [->|(p & Hp & Hmk)])]]; [done|done|eauto|].
  by apply Hm in Hmk.
Qed.

(** ** Runs *)

Lemma query_head s p rest sh' p' : ds_queries s = p :: rest → query_step (ds_shared s) p sh' p' →
  (connecting p' = true → connecting p = false → existsb connecting rest = false) →
  doh_step s {| ds_shared := sh'; ds_queries := p' :: rest; ds_resets := ds_resets s |}.
Proof. intros Hq Hs Hc. by apply (doh_query s [] p rest). Qed.

Lemma reset_head s r rest sh' r' : ds_resets s = r :: rest → reset_step (ds_shared s) r sh' r' →
  doh_step s {| ds_shared := sh'; ds_queries := ds_queries s; ds_resets := r' :: rest |}.
Proof. intros Hr Hs. by apply (doh_reset s [] r rest). Qed.

(** The states of a run, most of them equal up to the parts named. *)
Definition at_time (ms : Z) : Reading := {| total_ms := ms; awake_ms := ms |}.
Definition never_closed (sender : nat) : bool := false.
Definition one_connection (epoch until : Z) (generation : Z) (sender : option nat) (owner : option (Z * option nat)) : shared :=
  {| sh_up := {| up_slot := {| slot_sender := sender; slot_generation := generation; slot_last_used := at_time 0 |};
                 up_down_until := until; up_probing := false; up_epoch := epoch |};
     sh_opened := [0]; sh_owner := owner |}.

Ltac query_by tac := eapply rtc_l; [eapply query_head; [reflexivity|tac|try done]|]; simpl.
Ltac reset_by tac := eapply rtc_l; [eapply reset_head; [reflexivity|tac]|]; simpl.

(** A first query opens connection 0 and has checked the reset count. *)
Lemma reach_connected : doh_reach
  {| ds_shared := {| sh_up := Upstream_fresh; sh_opened := [0]; sh_owner := None |};
     ds_queries := [QShare true 0 0 0]; ds_resets := [] |}.
Proof.
  unfold doh_reach, doh_start. eapply rtc_l; [apply doh_new_query|]. simpl.
  query_by ltac:(eapply (q_open_none _ never_closed (at_time 0)); reflexivity).
  query_by ltac:(apply q_cold_count).
  query_by ltac:(eapply (q_cold_connect _ _ _ never_closed (at_time 0)); reflexivity).
  query_by ltac:(apply q_connected).
  query_by ltac:(by apply q_count_same).
  apply rtc_refl.
Qed.

(** Three steps of a reset on their own. *)
Lemma reach_reset s : doh_reach s → ds_resets s = [] →
  doh_reach {| ds_shared := on_up (ds_shared s) (reset_connection (sh_up (ds_shared s)));
               ds_queries := ds_queries s; ds_resets := [RDone] |}.
Proof.
  intros Hr Hn. unfold doh_reach; etrans; [exact Hr|]. eapply rtc_l; [apply doh_new_reset|]. rewrite Hn. simpl.
  reset_by ltac:(apply r_count). reset_by ltac:(apply r_mark). reset_by ltac:(apply r_slot). apply rtc_refl.
Qed.

(** The reset comes between the comparison and the lock. *)
Definition stale_slot : doh_system :=
  {| ds_shared := one_connection 1 0 1 (Some 0%nat) None; ds_queries := [QExchange true 0 1 0]; ds_resets := [RDone] |}.
Lemma reach_stale_slot : doh_reach stale_slot.
Proof.
  unfold doh_reach; etrans; [exact (reach_reset _ reach_connected eq_refl)|]. simpl.
  query_by ltac:(eapply (q_share _ _ _ _ _ (at_time 0)); reflexivity). apply rtc_refl.
Qed.

(** Two windows the reset count does not cover, by runs. A reset that runs after [connected_sender]
    has compared the counts and before it locks the slot leaves a connection of the old path in
    the slot. A reset that runs after a query took the open connection and before [unless_reset]
    reads the count lets that query, which runs on the old path, mark the upstream down under the
    new count. *)
Theorem reset_race_windows :
  (∃ s sender cepoch, doh_reach s ∧ (RMark ∉ ds_resets s) ∧ (RSlot ∉ ds_resets s) ∧
     slot_sender (up_slot (sh_up (ds_shared s))) = Some sender ∧
     sh_opened (ds_shared s) !! sender = Some cepoch ∧ cepoch ≠ up_epoch (sh_up (ds_shared s))) ∧
  (∃ s sender cepoch, doh_reach s ∧ Forall (λ p, ∃ r, p = QDone r) (ds_queries s) ∧
     Forall (λ r, r = RDone) (ds_resets s) ∧ up_down_until (sh_up (ds_shared s)) ≠ 0 ∧
     sh_owner (ds_shared s) = Some (up_epoch (sh_up (ds_shared s)), Some sender) ∧
     sh_opened (ds_shared s) !! sender = Some cepoch ∧ cepoch ≠ up_epoch (sh_up (ds_shared s))).
Proof.
  split.
  - exists stale_slot, 0%nat, 0. split; [exact reach_stale_slot|split_and!; [set_solver|set_solver|done|done|done]].
  - assert (doh_reach {| ds_shared := one_connection 0 0 1 (Some 0%nat) None;
      ds_queries := [QWarmOpen 1 0; QDone (Ok (replicate 12 0))]; ds_resets := [] |}) as Hopen.
    { unfold doh_reach; etrans; [exact reach_connected|]. simpl.
      query_by ltac:(eapply (q_share _ _ _ _ _ (at_time 0)); reflexivity).
      query_by ltac:(eapply (q_cold_answer _ _ _ _ _ (at_time 0) (ResponseHead 200 (BodyRead (replicate 12 0))));
        [reflexivity|done]).
      query_by ltac:(apply q_mark_up). eapply rtc_l; [apply doh_new_query|]. simpl.
      query_by ltac:(eapply (q_open _ never_closed (at_time 0)); reflexivity). apply rtc_refl. }
    pose proof (reach_reset _ Hopen eq_refl) as Hr.
    exists {| ds_shared := one_connection 1 30 2 None (Some (1, Some 0%nat));
              ds_queries := [QDone (Err DohTimeout); QDone (Ok (replicate 12 0))]; ds_resets := [RDone] |}, 0%nat, 0.
    split; [|split_and!; try done; repeat constructor; eauto].
    unfold doh_reach; etrans; [exact Hr|]. simpl.
    query_by ltac:(apply q_warm_count). query_by ltac:(apply q_warm_timeout).
    query_by ltac:(apply (q_down_now _ _ _ _ 0); reflexivity). query_by ltac:(apply q_swap).
    query_by ltac:(apply q_check_same; reflexivity). apply rtc_refl.
Qed.

(** ** Connections of an old path *)













Definition marked_down : doh_system :=
  {| ds_shared := {| sh_up := with_down_until Upstream_fresh 30; sh_opened := []; sh_owner := Some (0, None) |};
     ds_queries := [QDone (Err DohTimeout)]; ds_resets := [] |}.

Lemma reach_marked_down : doh_reach marked_down.
Proof.
  unfold doh_reach, doh_start. eapply rtc_l; [apply doh_new_query|]. simpl.
  query_by ltac:(eapply (q_open_none _ never_closed (at_time 0)); reflexivity).
  query_by ltac:(apply q_cold_count).
  query_by ltac:(apply (q_cold_failed _ _ 0 None DohTimeout); reflexivity).
  query_by ltac:(apply (q_down_now _ _ _ _ 0); reflexivity). query_by ltac:(apply q_swap).
  query_by ltac:(apply q_check_same; reflexivity). apply rtc_refl.
Qed.

Lemma no_stale_marks_witness : ∃ conn, sh_owner (ds_shared marked_down) = Some (0, conn).
Proof.
  apply (no_stale_marks marked_down reach_marked_down).
  - set_solver.
  - intros p ep c until Hp (e & [-> | ->]); by apply list_elem_of_singleton in Hp.
  - done.
Defined.

(** ** Connections *)

(** What the slot's users do to it. *)
Inductive slot_op :=
| SlotOpen (closed : nat → bool) (now : Reading)
| SlotTouch (generation : Z) (now : Reading)
| SlotDiscard (generation : Z)
| SlotReset
| SlotShare (sender : nat) (now : Reading).
Definition slot_step (slot : Slot) (op : slot_op) : Slot :=
  match op with
  | SlotOpen closed now => (open_sender closed slot now).2
  | SlotTouch generation now => touch slot generation now
  | SlotDiscard generation => discard slot generation
  | SlotReset => reset_slot slot
  | SlotShare sender now =>
      up_slot (share_connection (with_slot Upstream_fresh slot) 0 sender now).2
  end.
Definition slot_run (slot : Slot) (ops : list slot_op) : Slot := foldl slot_step slot ops.

Lemma open_sender_Some closed slot now g sender slot' : open_sender closed slot now = (Some (g, sender), slot') →
  slot' = slot ∧ slot_sender slot = Some sender ∧ slot_generation slot = g ∧ closed sender = false ∧
  slept_since now (slot_last_used slot) <= MAX_SLEEP ∧ awake_since now (slot_last_used slot) <= MAX_IDLE.
Proof.
  unfold open_sender. destruct (slot_sender slot) as [x|]; [|done]. destruct (closed x) eqn:Hc; [done|].
  destruct (Z.ltb_spec MAX_SLEEP (slept_since now (slot_last_used slot))); [done|].
  destruct (Z.ltb_spec MAX_IDLE (awake_since now (slot_last_used slot))); [done|]. simpl.
  intros [= <- <- <-]. by split_and!.
Qed.

(** A step keeps the generation and at most drops the connection, or raises the generation. *)
Lemma slot_step_cases slot op : 0 <= slot_generation slot < U64_MAX →
  slot_generation slot <= slot_generation (slot_step slot op) <= slot_generation slot + 1 ∧
  (slot_generation (slot_step slot op) = slot_generation slot →
   slot_sender (slot_step slot op) = None ∨ slot_sender (slot_step slot op) = slot_sender slot).
Proof.
  intros Hg. assert (wrap64 (slot_generation slot + 1) = slot_generation slot + 1) as Hw.
  { unfold wrap64, U64_MAX in *. apply Z.mod_small. lia. }
  destruct op; simpl.
  - unfold open_sender. destruct (slot_sender slot) as [x|] eqn:Hs; [|simpl; split; [lia|auto]].
    repeat case_match; simpl; (split; [lia|auto]).
  - unfold touch. case_match; simpl; (split; [lia|auto]).
  - unfold discard. case_match; simpl; (split; [lia|auto]).
  - unfold reset_slot. destruct (slot_sender slot) eqn:Hs; simpl; rewrite ?Hw; (split; [lia|auto]).
  - rewrite Hw. split; lia.
Qed.

Lemma slot_run_cases slot ops : 0 <= slot_generation slot → slot_generation slot + len ops <= U64_MAX →
  slot_generation slot <= slot_generation (slot_run slot ops) <= slot_generation slot + len ops ∧
  (slot_generation (slot_run slot ops) = slot_generation slot →
   slot_sender (slot_run slot ops) = None ∨ slot_sender (slot_run slot ops) = slot_sender slot).
Proof.
  revert slot. induction ops as [|op ops IH]; intros slot H0 Hl; [unfold len; simpl; split; [lia|auto]|].
  change (slot_run slot (op :: ops)) with (slot_run (slot_step slot op) ops).
  assert (len (op :: ops) = len ops + 1 ∧ 0 <= len ops) as [Hlen Hpos] by (unfold len; simpl; lia).
  destruct (slot_step_cases slot op ltac:(lia)) as [Hs Hss].
  destruct (IH (slot_step slot op) ltac:(lia) ltac:(lia)) as [Hr Hrs]. split; [lia|].
  intros Heq. destruct (Hrs ltac:(lia)) as [?|Hx]; [by left|]. rewrite Hx. apply Hss. lia.
Qed.

(** A connection is used again only while hyper holds it open, the device has slept at most
    one second and it was idle at most two minutes since its last request; and a generation
    names one connection: through any history of fewer than 2^64 uses of the slot, if the slot
    still has the generation that a query got, it has no other connection than that query's, so
    its [touch] and [discard] never hit another query's connection. *)
Theorem generation_names_connection before after closed now g sender closed' now' sender' :
  len before + len after <= U64_MAX →
  (open_sender closed (slot_run Slot_default before) now).1 = Some (g, sender) →
  (open_sender closed' (slot_run (slot_run Slot_default before) after) now').1 = Some (g, sender') →
  sender' = sender ∧ closed sender = false ∧
  slept_since now (slot_last_used (slot_run Slot_default before)) <= MAX_SLEEP ∧
  awake_since now (slot_last_used (slot_run Slot_default before)) <= MAX_IDLE.
Proof.
  intros Hl H1 H2.
  destruct (open_sender closed _ now) as [o1 s1] eqn:E1. simpl in H1. subst o1.
  destruct (open_sender closed' _ now') as [o2 s2] eqn:E2. simpl in H2. subst o2.
  apply open_sender_Some in E1 as (_ & Hs1 & Hg1 & Hc & Hsl & Hid).
  apply open_sender_Some in E2 as (_ & Hs2 & Hg2 & _).
  assert (0 <= len after) as Hpos by (unfold len; lia).
  destruct (slot_run_cases Slot_default before ltac:(done) ltac:(simpl; lia)) as [Hb _].
  destruct (slot_run_cases (slot_run Slot_default before) after) as [_ Hs]; [simpl in Hb; lia|simpl in *; lia|].
  split; [|done]. destruct (Hs ltac:(congruence)) as [?|?]; congruence.
Qed.

Definition shared_once : list slot_op := [SlotShare 7 (at_time 1000)].

Lemma generation_names_connection_witness :
  (open_sender never_closed (slot_run Slot_default shared_once) (at_time 5000)).1 = Some (1, 7%nat) ∧
  awake_since (at_time 5000) (slot_last_used (slot_run Slot_default shared_once)) <= MAX_IDLE ∧
  (open_sender never_closed (slot_run Slot_default shared_once) (at_time 121001)).1 = None.
Proof.
  assert ((open_sender never_closed (slot_run Slot_default shared_once) (at_time 5000)).1 = Some (1, 7%nat)) as H1
    by reflexivity.
  split; [exact H1|]. split; [|reflexivity].
  exact (proj2 (proj2 (proj2 (generation_names_connection shared_once [SlotTouch 1 (at_time 5000)] never_closed
    (at_time 5000) 1 7 never_closed (at_time 6000) 7 ltac:(vm_compute; discriminate) H1 ltac:(reflexivity))))).
Defined.

(** ** The order of upstreams *)

(** The indices of the upstreams that satisfy [f], in configured order. *)
Definition indices_where (f : Upstream → bool) (upstreams : list Upstream) : list nat :=
  filter (λ i, f <$> upstreams !! i = Some true) (seq 0 (length upstreams)).
Definition is_up (now : Z) (u : Upstream) : bool := bool_decide (health u now = Up).
Definition is_due (now : Z) (u : Upstream) : bool := bool_decide (health u now = Due).

Fixpoint picked (f : Upstream → bool) (upstreams : list Upstream) (index : nat) : list nat :=
  match upstreams with
  | [] => []
  | u :: rest => if f u then index :: picked f rest (S index) else picked f rest (S index)
  end.

Lemma picked_filter f upstreams index :
  picked f upstreams index = filter (λ i, f <$> upstreams !! (i - index)%nat = Some true) (seq index (length upstreams)).
Proof.
  revert index. induction upstreams as [|u rest IH]; intros index; [done|]. cbn [picked length seq].
  rewrite filter_cons. rewrite Nat.sub_diag. simpl.
  assert (filter (λ i, f <$> (u :: rest) !! (i - index)%nat = Some true) (seq (S index) (length rest)) =
    picked f rest (S index)) as ->.
  { rewrite IH. apply list_filter_ext_in. intros j Hj%elem_of_seq.
    replace (j - index)%nat with (S (j - S index)) by lia. done. }
  destruct (f u); [by rewrite decide_True|by rewrite decide_False].
Qed.

Lemma picked_where f upstreams : picked f upstreams 0 = indices_where f upstreams.
Proof.
  rewrite picked_filter. apply list_filter_ext_in. intros j _. by rewrite Nat.sub_0_r.
Qed.

Lemma health_due u now : health u now = Due → up_probing u = false.
Proof. unfold health. repeat case_match; done. Qed.

Lemma order_loop_spec upstreams index now :
  order_loop upstreams index now =
  (picked (is_up now) upstreams index, picked (λ u, negb (is_up now u)) upstreams index,
   picked (is_due now) upstreams index,
   (λ u, if is_due now u then with_probing u true else u) <$> upstreams).
Proof.
  revert index. induction upstreams as [|u rest IH]; intros index; [done|]. cbn [order_loop picked]. rewrite IH.
  unfold is_up, is_due. csimpl. destruct (health u now) eqn:Hh; simpl; [done|done|]. by rewrite (health_due _ _ Hh).
Qed.

Lemma try_upstreams_Ok query body indices last answer : try_upstreams query body indices last = Ok answer ↔
  ∃ before i after, indices = before ++ i :: after ∧ Forall (λ j, is_ok (query j body) = false) before ∧
    query i body = Ok answer.
Proof.
  revert last. induction indices as [|i rest IH]; intros e; simpl.
  - split; [done|]. intros (before & i & after & Hx & _). by destruct before.
  - destruct (query i body) as [a|err] eqn:Hq.
    + split; [intros [= ->]; exists [], i, rest; by split_and!|].
      intros (before & j & after & Hx & Hb & Hj). destruct before as [|b before]; simplify_eq/=; [congruence|].
      inversion Hb as [|? ? Hf]; subst. by rewrite Hq in Hf.
    + rewrite IH. split.
      * intros (before & j & after & -> & Hb & Hj). exists (i :: before), j, after. split_and!; [done| |done].
        constructor; [by rewrite Hq|done].
      * intros (before & j & after & Hx & Hb & Hj). destruct before as [|b before]; simplify_eq/=; [congruence|].
        inversion Hb; subst. by exists before, j, after.
Qed.

(** [order] lists every upstream exactly once, those that are up first and each kind in
    configured order, and starts a background query for exactly the down upstreams whose time is
    up and that have none. [resolve] sends the query with id 0 to them in that order, returns
    the first answer with the query's own id, and an error only when every one of them failed. *)
Theorem resolve_tries_in_order upstreams now query message :
  let '(indices, probed, upstreams') := order upstreams now in
  indices = indices_where (is_up now) upstreams ++ indices_where (λ u, negb (is_up now u)) upstreams ∧
  indices ≡ₚ seq 0 (length upstreams) ∧
  probed = indices_where (is_due now) upstreams ∧
  upstreams' = (λ u, if is_due now u then with_probing u true else u) <$> upstreams ∧
  ((DOH_HEADER_LEN ≤ length message)%nat → ∀ answer,
   resolve true query indices message = Ok answer ↔
   ∃ before i after raw, indices = before ++ i :: after ∧
     Forall (λ j, is_ok (query j ([0; 0] ++ drop 2 message)) = false) before ∧
     query i ([0; 0] ++ drop 2 message) = Ok raw ∧ answer = take 2 message ++ drop 2 raw).
Proof.
  unfold order. rewrite order_loop_spec, !picked_where.
  split; [done|]. split; [|split; [done|split; [done|]]].
  - transitivity (filter (λ i, is_up now <$> upstreams !! i = Some true) (seq 0 (length upstreams)) ++
      filter (λ i, ¬ (is_up now <$> upstreams !! i = Some true)) (seq 0 (length upstreams))).
    + apply Permutation_app_head, Permutation_refl'. unfold indices_where. apply list_filter_ext_in.
      intros j Hj%elem_of_seq. destruct (lookup_lt_is_Some_2 upstreams j ltac:(lia)) as [u ->]. simpl.
      destruct (is_up now u); simpl; naive_solver.
    + apply filter_app_complement.
  - intros Hm answer. unfold resolve. destruct (Nat.ltb_spec (length message) DOH_HEADER_LEN); [lia|]. simpl negb. cbv iota.
    set (body := [0; 0] ++ drop 2 message). set (indices := indices_where _ _ ++ _).
    destruct (try_upstreams query body indices NoUpstream) as [raw|e] eqn:Ht.
    + apply try_upstreams_Ok in Ht as (before & i & after & Hx & Hb & Hq). split.
      * intros [= <-]. by exists before, i, after, raw.
      * intros (before' & i' & after' & raw' & Hx' & Hb' & Hq' & ->).
        assert (try_upstreams query body indices NoUpstream = Ok raw') as H1
          by (apply try_upstreams_Ok; by exists before', i', after').
        assert (try_upstreams query body indices NoUpstream = Ok raw) as H2
          by (apply try_upstreams_Ok; by exists before, i, after).
        congruence.
    + split; [done|]. intros (before & i & after & raw & Hx & Hb & Hq & _).
      assert (try_upstreams query body indices NoUpstream = Ok raw) by (apply try_upstreams_Ok; by exists before, i, after).
      congruence.
Qed.
