(* ===== verification/Resolver.v ===== *)
(** * The DNS over HTTPS resolver and its callers ([dns/src/doh.rs], [lookup.rs], [tollgate-ffi/src/engine.rs])

    A running resolver with everything that uses it: the
    forwarder's jobs, each with a permit, and the proxy's lookups, each with a turn, both resolving
    over the same upstreams under the same limit; the background queries to upstreams that are down;
    and resets. Queries and resets take the steps of [DohTrace], one shared access at a time, and so
    does [order] here. A future that waits can be dropped at any time; the rest of its client goes
    with it. *)
From S2P Require Import Prelude RustStr Collections Doh DohTrace.

(** ** A running resolver *)

Definition MAX_IN_FLIGHT : nat := 128.
Definition LOOKUP_PERMITS : nat := 32.

(** Where a call of [resolve] is: before its first poll; in [order], about to load the mark of
    upstream [i], to load its flag ([health]) or to swap it ([probe]); in the query of one; over. *)
Inductive Phase :=
| NotStarted
| Checking (i : nat) (now : Z) (up down : list nat)
| CheckProbing (i : nat) (now : Z) (up down : list nat)
| Swapping (i : nat) (now : Z) (up down : list nat)
| Trying (i : nat) (rest : list nat) (p : pc)
| Resolved (r : result bytes DohError).
Definition running (ph : Phase) : bool := match ph with NotStarted | Resolved _ => false | _ => true end.

(** The start of [resolve]: the checks and the permit. *)
Definition resolve_start (free : nat) (message : bytes) (now : Z) : Phase * nat :=
  if (length message <? DOH_HEADER_LEN)%nat then (Resolved (Err BadQuery), free)
  else match free with
       | O => (Resolved (Err Busy), free)
       | S free => (Checking 0 now [] [], free)
       end.
Definition next_upstream (rest : list nat) (last : DohError) : Phase :=
  match rest with [] => Resolved (Err last) | i :: rest => Trying i rest QStart end.
Definition set_probing (s : shared) (b : bool) : shared := on_up s (with_probing (sh_up s) b).
(** [probe]: a background query, unless one is already on its way. *)
Definition probe (upstreams : list shared) (index : nat) : option (list shared * option nat) :=
  s ← upstreams !! index;
  if up_probing (sh_up s) then Some (upstreams, None)
  else Some (<[index := set_probing s true]> upstreams, Some index).
(** Everything of [resolve] but the queries; the third answer is the upstream of a new background query. *)
Definition advance (upstreams : list shared) (message : bytes) (ph : Phase) : option (Phase * list shared * option nat) :=
  match ph with
  | Checking i now up down =>
      match upstreams !! i with
      | None => Some (next_upstream (up ++ down) NoUpstream, upstreams, None)
      | Some s =>
          let until := up_down_until (sh_up s) in
          if until =? 0 then Some (Checking (S i) now (up ++ [i]) down, upstreams, None)
          else if now <? until then Some (Checking (S i) now up (down ++ [i]), upstreams, None)
          else Some (CheckProbing i now up down, upstreams, None)
      end
  | CheckProbing i now up down =>
      s ← upstreams !! i;
      if up_probing (sh_up s) then Some (Checking (S i) now up (down ++ [i]), upstreams, None)
      else Some (Swapping i now up down, upstreams, None)
  | Swapping i now up down =>
      '(upstreams, spawned) ← probe upstreams i;
      Some (Checking (S i) now up (down ++ [i]), upstreams, spawned)
  | Trying _ rest (QDone (Ok answer)) => Some (Resolved (Ok (take 2 message ++ drop 2 answer)), upstreams, None)
  | Trying _ rest (QDone (Err e)) => Some (next_upstream rest e, upstreams, None)
  | _ => None
  end.

(** A forwarded job with its permit, or a lookup with its turn and its two queries. *)
Inductive ClientKind := Forwarding | LookingUp.
#[global] Instance ClientKind_eq_dec : EqDecision ClientKind.
Proof. solve_decision. Defined.
Record Client := { cl_kind : ClientKind; cl_resolves : list (bytes * Phase) }.
Record Resolver := {
  rv_free : nat;
  rv_forward : nat;
  rv_turns : nat;
  rv_upstreams : list shared;
  rv_clients : list Client;
  rv_probes : list (nat * pc);
  rv_resets : list (nat * rpc)
}.
Definition fresh_shared : shared := {| sh_up := Upstream_fresh; sh_opened := []; sh_owner := None |}.
Definition Resolver_new (upstreams forward_in_flight : nat) : Resolver :=
  {| rv_free := MAX_IN_FLIGHT; rv_forward := forward_in_flight; rv_turns := LOOKUP_PERMITS / 2;
     rv_upstreams := replicate upstreams fresh_shared; rv_clients := []; rv_probes := []; rv_resets := [] |}.

(** The queries that run on upstream [i], and the resets that have come to it. *)
Definition phase_pc (i : nat) (ph : Phase) : list pc :=
  match ph with Trying j _ p => if decide (j = i) then [p] else [] | _ => [] end.
Definition probe_pc (i : nat) (probe : nat * pc) : list pc := if decide (probe.1 = i) then [probe.2] else [].
Definition client_pcs (i : nat) (c : Client) : list pc := cl_resolves c ≫= λ r, phase_pc i r.2.
Definition pcs (i : nat) (self : Resolver) : list pc := (rv_clients self ≫= client_pcs i) ++ (rv_probes self ≫= probe_pc i).
Definition reset_pc (i : nat) (r : nat * rpc) : list rpc :=
  if decide (r.1 = i) then [r.2] else if decide (i < r.1)%nat then [RDone] else [].
(** The [connecting] lock of upstream [i] is free. *)
Definition lock_free (i : nat) (self : Resolver) : bool := negb (existsb connecting (pcs i self)).

Definition phase_droppable (ph : Phase) : bool :=
  match ph with NotStarted | Resolved _ => true | Trying _ _ p => droppable p | _ => false end.
Definition in_flight_of (c : Client) : nat := sum_list_with (λ r, if running r.2 then 1%nat else 0%nat) (cl_resolves c).

Definition with_client (self : Resolver) (clients : list Client) (free : nat) (upstreams : list shared) (probes : list (nat * pc)) : Resolver :=
  {| rv_free := free; rv_forward := rv_forward self; rv_turns := rv_turns self; rv_upstreams := upstreams;
     rv_clients := clients; rv_probes := probes; rv_resets := rv_resets self |}.

(** One step of a call of [resolve]: the permits left, the upstreams, where it is now and the
    background query it started. *)
Inductive resolve_step (self : Resolver) (message : bytes) : Phase → nat → list shared → Phase → option nat → Prop :=
| rs_start now ph free : resolve_start (rv_free self) message now = (ph, free) →
    resolve_step self message NotStarted free (rv_upstreams self) ph None
| rs_advance ph ph' upstreams spawned : advance (rv_upstreams self) message ph = Some (ph', upstreams, spawned) →
    resolve_step self message ph (if running ph' then rv_free self else S (rv_free self)) upstreams ph' spawned
| rs_query i rest p s s' p' : rv_upstreams self !! i = Some s → query_step s p s' p' →
    (connecting p' = true → connecting p = false → lock_free i self = true) →
    resolve_step self message (Trying i rest p) (rv_free self) (<[i := s']> (rv_upstreams self)) (Trying i rest p') None.

Definition next_reset (i : nat) (r : rpc) : nat * rpc := match r with RDone => (S i, RCount) | _ => (i, r) end.

Inductive resolver_step (self : Resolver) : Resolver → Prop :=
| rv_forward_begin message permits : rv_forward self = S permits →
    resolver_step self
      {| rv_free := rv_free self; rv_forward := permits; rv_turns := rv_turns self; rv_upstreams := rv_upstreams self;
         rv_clients := {| cl_kind := Forwarding; cl_resolves := [(message, NotStarted)] |} :: rv_clients self;
         rv_probes := rv_probes self; rv_resets := rv_resets self |}
| rv_lookup_begin a aaaa turns : rv_turns self = S turns →
    resolver_step self
      {| rv_free := rv_free self; rv_forward := rv_forward self; rv_turns := turns; rv_upstreams := rv_upstreams self;
         rv_clients := {| cl_kind := LookingUp; cl_resolves := [(a, NotStarted); (aaaa, NotStarted)] |} :: rv_clients self;
         rv_probes := rv_probes self; rv_resets := rv_resets self |}
| rv_client before kind rb message ph ra after free upstreams ph' spawned :
    rv_clients self = before ++ {| cl_kind := kind; cl_resolves := rb ++ (message, ph) :: ra |} :: after →
    resolve_step self message ph free upstreams ph' spawned →
    resolver_step self
      (with_client self (before ++ {| cl_kind := kind; cl_resolves := rb ++ (message, ph') :: ra |} :: after) free upstreams
        (match spawned with Some i => (i, QStart) :: rv_probes self | None => rv_probes self end))
| rv_client_end before c after : rv_clients self = before ++ c :: after →
    forallb (λ r, phase_droppable r.2) (cl_resolves c) = true →
    resolver_step self
      {| rv_free := rv_free self + in_flight_of c;
         rv_forward := if cl_kind c is Forwarding then S (rv_forward self) else rv_forward self;
         rv_turns := if cl_kind c is LookingUp then S (rv_turns self) else rv_turns self;
         rv_upstreams := rv_upstreams self; rv_clients := before ++ after;
         rv_probes := rv_probes self; rv_resets := rv_resets self |}
| rv_probe before i p after s s' p' : rv_probes self = before ++ (i, p) :: after → rv_upstreams self !! i = Some s →
    query_step s p s' p' → (connecting p' = true → connecting p = false → lock_free i self = true) →
    resolver_step self
      (with_client self (rv_clients self) (rv_free self) (<[i := s']> (rv_upstreams self)) (before ++ (i, p') :: after))
| rv_probe_end before i r after s : rv_probes self = before ++ (i, QDone r) :: after → rv_upstreams self !! i = Some s →
    resolver_step self
      (with_client self (rv_clients self) (rv_free self) (<[i := set_probing s false]> (rv_upstreams self)) (before ++ after))
| rv_reset_begin :
    resolver_step self
      {| rv_free := rv_free self; rv_forward := rv_forward self; rv_turns := rv_turns self; rv_upstreams := rv_upstreams self;
         rv_clients := rv_clients self; rv_probes := rv_probes self; rv_resets := (0%nat, RCount) :: rv_resets self |}
| rv_reset before i r after s s' r' : rv_resets self = before ++ (i, r) :: after → rv_upstreams self !! i = Some s →
    reset_step s r s' r' →
    resolver_step self
      {| rv_free := rv_free self; rv_forward := rv_forward self; rv_turns := rv_turns self;
         rv_upstreams := <[i := s']> (rv_upstreams self); rv_clients := rv_clients self; rv_probes := rv_probes self;
         rv_resets := before ++ next_reset i r' :: after |}.
Definition resolver_reach (upstreams forward_in_flight : nat) (self : Resolver) : Prop :=
  rtc resolver_step (Resolver_new upstreams forward_in_flight) self.

(** ** Each upstream on its own

    The part of a running resolver that concerns upstream [i] is a system of [DohTrace], whose lists
    of queries and resets are taken up to order. *)

#[global] Instance doh_equiv : Equiv doh_system := λ s t,
  ds_shared s = ds_shared t ∧ ds_queries s ≡ₚ ds_queries t ∧ ds_resets s ≡ₚ ds_resets t.
#[global] Instance doh_equivalence : Equivalence (≡@{doh_system}).
Proof.
  split.
  - by intros s.
  - intros s t (? & ? & ?). by split_and!.
  - intros s t u (E1 & ? & ?) (? & ? & ?). split_and!; [by rewrite E1|by etrans..].
Qed.

Definition reaches (s : doh_system) : Prop := ∃ t, doh_reach t ∧ t ≡ s.
#[global] Instance reaches_proper : Proper ((≡) ==> iff) reaches.
Proof. intros s t E. split; intros (u & ? & ?); exists u; (split; [done|]); [by etrans|by etrans; [|symmetry]]. Qed.

Lemma perm_middle_inv {A} (l : list A) x k : l ≡ₚ x :: k → ∃ before after, l = before ++ x :: after ∧ before ++ after ≡ₚ k.
Proof.
  intros Hp. assert (x ∈ l) as (before & after & ->)%list_elem_of_split by (rewrite Hp; set_solver).
  exists before, after. split; [done|]. apply (Permutation_cons_inv (a := x)). by rewrite <-Hp, Permutation_middle.
Qed.
Lemma existsb_perm {A} (f : A → bool) l k : l ≡ₚ k → existsb f l = existsb f k.
Proof. induction 1; simpl; [done|congruence|by destruct (f x), (f y)|congruence]. Qed.

Lemma reaches_start sh : sh = fresh_shared → reaches {| ds_shared := sh; ds_queries := []; ds_resets := [] |}.
Proof. intros ->. exists doh_start. split; [apply rtc_refl|done]. Qed.
Lemma reaches_step t s s' : doh_reach t → doh_step t s' → s' ≡ s → reaches s.
Proof. intros Hr Hs He. exists s'. split; [|done]. unfold doh_reach. etrans; [exact Hr|by apply rtc_once]. Qed.

Lemma reaches_new sh q r : reaches {| ds_shared := sh; ds_queries := q; ds_resets := r |} →
  reaches {| ds_shared := sh; ds_queries := QStart :: q; ds_resets := r |}.
Proof. intros (t & Hr & E1 & E2 & E3). simpl in *. eapply (reaches_step t); [done|apply doh_new_query|]. split_and!; simpl; [done|by f_equiv|done]. Qed.
Lemma reaches_new_reset sh q r : reaches {| ds_shared := sh; ds_queries := q; ds_resets := r |} →
  reaches {| ds_shared := sh; ds_queries := q; ds_resets := RCount :: r |}.
Proof. intros (t & Hr & E1 & E2 & E3). simpl in *. eapply (reaches_step t); [done|apply doh_new_reset|]. split_and!; simpl; [done|done|by f_equiv]. Qed.
Lemma reaches_probing sh q r b : reaches {| ds_shared := sh; ds_queries := q; ds_resets := r |} →
  reaches {| ds_shared := set_probing sh b; ds_queries := q; ds_resets := r |}.
Proof. intros (t & Hr & E1 & E2 & E3). simpl in *. subst sh. by eapply (reaches_step t); [done|apply (doh_probing t b)|]. Qed.
Lemma reaches_drop sh p q r : reaches {| ds_shared := sh; ds_queries := p :: q; ds_resets := r |} → droppable p = true →
  reaches {| ds_shared := sh; ds_queries := q; ds_resets := r |}.
Proof.
  intros (t & Hr & E1 & E2 & E3) Hd. simpl in *. apply perm_middle_inv in E2 as (before & after & Hq & Hp).
  by eapply (reaches_step t); [done|by eapply doh_drop|].
Qed.
Lemma reaches_query sh p q r sh' p' : reaches {| ds_shared := sh; ds_queries := p :: q; ds_resets := r |} →
  query_step sh p sh' p' → (connecting p' = true → connecting p = false → existsb connecting (p :: q) = false) →
  reaches {| ds_shared := sh'; ds_queries := p' :: q; ds_resets := r |}.
Proof.
  intros (t & Hr & E1 & E2 & E3) Hs Hl. simpl in *. subst sh. apply perm_middle_inv in E2 as (before & after & Hq & Hp).
  eapply (reaches_step t); [done| |].
  - eapply doh_query; [done|done|]. intros H1 H2. rewrite (existsb_perm _ _ _ Hp).
    specialize (Hl H1 H2). by rewrite H2 in Hl.
  - split_and!; simpl; [done| |done]. by rewrite <-Permutation_middle, Hp.
Qed.
Lemma reaches_reset sh q x r sh' x' : reaches {| ds_shared := sh; ds_queries := q; ds_resets := x :: r |} →
  reset_step sh x sh' x' → reaches {| ds_shared := sh'; ds_queries := q; ds_resets := x' :: r |}.
Proof.
  intros (t & Hr & E1 & E2 & E3) Hs. simpl in *. subst sh. apply perm_middle_inv in E3 as (before & after & Hq & Hp).
  eapply (reaches_step t); [done|by eapply doh_reset|].
  split_and!; simpl; [done|done|]. by rewrite <-Permutation_middle, Hp.
Qed.
Lemma reaches_permute sh q q' r : reaches {| ds_shared := sh; ds_queries := q; ds_resets := r |} → q ≡ₚ q' →
  reaches {| ds_shared := sh; ds_queries := q'; ds_resets := r |}.
Proof. intros Hr Hp. by apply (reaches_proper _ {| ds_shared := sh; ds_queries := q; ds_resets := r |}). Qed.
Lemma reaches_drops sh dropped q r : reaches {| ds_shared := sh; ds_queries := dropped ++ q; ds_resets := r |} →
  Forall (λ p, droppable p = true) dropped → reaches {| ds_shared := sh; ds_queries := q; ds_resets := r |}.
Proof. intros Hr Hd. induction Hd as [|p l Hp _ IH]; [done|]. apply IH. by eapply reaches_drop. Qed.

(** Upstream [i] of [self]. *)
Definition on_its_own (i : nat) (self : Resolver) (sh : shared) : doh_system :=
  {| ds_shared := sh; ds_queries := pcs i self; ds_resets := rv_resets self ≫= reset_pc i |}.
Definition simulated (self : Resolver) : Prop := ∀ i sh, rv_upstreams self !! i = Some sh → reaches (on_its_own i self sh).

Lemma bind_split {A B} (f : A → list B) before x after : (before ++ x :: after) ≫= f ≡ₚ f x ++ ((before ++ after) ≫= f).
Proof. rewrite !bind_app, bind_cons, !app_assoc. f_equiv. apply Permutation_app_comm. Qed.

(** The queries on [i] when one client's call, or a background query, is set apart. *)
Lemma pcs_client i self before kind rb message ph ra after :
  rv_clients self = before ++ {| cl_kind := kind; cl_resolves := rb ++ (message, ph) :: ra |} :: after →
  pcs i self ≡ₚ phase_pc i ph ++ (((rb ++ ra) ≫= λ r, phase_pc i r.2) ++ ((before ++ after) ≫= client_pcs i)) ++ (rv_probes self ≫= probe_pc i).
Proof.
  intros Hc. unfold pcs. rewrite Hc, bind_split. unfold client_pcs at 1. simpl.
  rewrite (bind_split (λ r : bytes * Phase, phase_pc i r.2)). simpl. by rewrite <-!app_assoc.
Qed.
Lemma pcs_probe i self before probe after : rv_probes self = before ++ probe :: after →
  pcs i self ≡ₚ probe_pc i probe ++ (rv_clients self ≫= client_pcs i) ++ ((before ++ after) ≫= probe_pc i).
Proof. intros Hp. unfold pcs. rewrite Hp, bind_split. by rewrite !app_assoc, (Permutation_app_comm (rv_clients self ≫= _)). Qed.

Definition spawned_pc (i : nat) (spawned : option nat) : list pc :=
  match spawned with Some j => probe_pc i (j, QStart) | None => [] end.

Lemma reaches_next i rest e sh q r : reaches {| ds_shared := sh; ds_queries := q; ds_resets := r |} →
  reaches {| ds_shared := sh; ds_queries := phase_pc i (next_upstream rest e) ++ q; ds_resets := r |}.
Proof. intros Hr. destruct rest as [|j rest]; [done|]. simpl. destruct (decide (j = i)); [by apply reaches_new|done]. Qed.

Lemma lookup_insert_cases {A} (l : list A) i j x y : <[j := x]> l !! i = Some y → (i = j ∧ y = x) ∨ (i ≠ j ∧ l !! i = Some y).
Proof. intros [(? & ? & ?)|?]%list_lookup_insert_Some; naive_solver. Qed.

Lemma advance_sim i self message ph ph' upstreams spawned sh sh' q r :
  advance (rv_upstreams self) message ph = Some (ph', upstreams, spawned) →
  rv_upstreams self !! i = Some sh → upstreams !! i = Some sh' →
  reaches {| ds_shared := sh; ds_queries := phase_pc i ph ++ q; ds_resets := r |} →
  reaches {| ds_shared := sh'; ds_queries := phase_pc i ph' ++ spawned_pc i spawned ++ q; ds_resets := r |}.
Proof.
  intros Ha Hi Hi' Hr. destruct ph as [|j now up down|j now up down|j now up down|j rest p|]; simpl in Ha; try done.
  - destruct (rv_upstreams self !! j); [|simplify_eq; by apply reaches_next].
    by repeat case_match; simplify_eq.
  - destruct (rv_upstreams self !! j); [|done]. simpl in Ha. by case_match; simplify_eq.
  - unfold probe in Ha. destruct (rv_upstreams self !! j) as [s|] eqn:Hj; [|done]. simpl in Ha. destruct (up_probing (sh_up s)) eqn:?; simpl in Ha; simplify_eq; [done|].
    simpl. unfold probe_pc. simpl.
    apply lookup_insert_cases in Hi' as [[-> ->]|[Hne Hi']]; [|by rewrite decide_False by done; simplify_eq].
    rewrite decide_True by done. simplify_eq. by apply reaches_new, reaches_probing.
  - destruct p as [| | | | | | | | | | | | | |res]; try done.
    assert (reaches {| ds_shared := sh; ds_queries := q; ds_resets := r |}) as Hq.
    { simpl in Hr. destruct (decide (j = i)); [by eapply reaches_drop|done]. }
    destruct res; simplify_eq; [done|by apply reaches_next].
Qed.

Lemma resolve_sim i self message ph free upstreams ph' spawned sh sh' q r :
  resolve_step self message ph free upstreams ph' spawned → pcs i self ≡ₚ phase_pc i ph ++ q →
  rv_upstreams self !! i = Some sh → upstreams !! i = Some sh' →
  reaches {| ds_shared := sh; ds_queries := phase_pc i ph ++ q; ds_resets := r |} →
  reaches {| ds_shared := sh'; ds_queries := phase_pc i ph' ++ spawned_pc i spawned ++ q; ds_resets := r |}.
Proof.
  intros Hs Hp Hi Hi' Hr. destruct Hs as [now ph' free Hb|ph ph' upstreams spawned Ha|j rest p s s' p' Hj Hq Hl].
  - simplify_eq. unfold resolve_start in Hb. by repeat case_match; simplify_eq.
  - by eapply advance_sim.
  - simpl in *. apply lookup_insert_cases in Hi' as [[-> ->]|[Hne Hi']]; [|by rewrite decide_False in * by done; simplify_eq].
    rewrite decide_True in * by done. simplify_eq. eapply reaches_query; [done|done|]. intros H1 H2.
    specialize (Hl H1 H2). unfold lock_free in Hl. apply negb_true_iff in Hl. by rewrite (existsb_perm _ _ _ Hp) in Hl.
Qed.

Lemma resolve_step_length self message ph free upstreams ph' spawned : resolve_step self message ph free upstreams ph' spawned →
  length upstreams = length (rv_upstreams self).
Proof.
  intros [|ph0 ? ? ? Ha|]; [done| |by rewrite length_insert].
  destruct ph0; simpl in Ha; try unfold probe in Ha; repeat case_match; simplify_option_eq; repeat case_match; simplify_eq; try done; by rewrite length_insert.
Qed.

Lemma client_dropped i c : forallb (λ r, phase_droppable r.2) (cl_resolves c) = true → Forall (λ p, droppable p = true) (client_pcs i c).
Proof.
  intros Hd. apply Forall_bind. apply Is_true_true, forallb_True in Hd. rewrite Forall_forall in Hd. apply Forall_forall. intros [m ph] Hel%Hd. simpl in *.
  destruct ph; simpl; try constructor. case_decide; constructor; [by apply Is_true_true|constructor].
Qed.

Lemma reaches_permute_resets sh q r r' : reaches {| ds_shared := sh; ds_queries := q; ds_resets := r |} → r ≡ₚ r' →
  reaches {| ds_shared := sh; ds_queries := q; ds_resets := r' |}.
Proof. intros Hr Hp. by apply (reaches_proper _ {| ds_shared := sh; ds_queries := q; ds_resets := r |}). Qed.

Lemma reset_sim i (upstreams : list shared) resets before j r after s s' r' sh' q : resets = before ++ (j, r) :: after →
  upstreams !! j = Some s → reset_step s r s' r' → <[j := s']> upstreams !! i = Some sh' →
  (∀ sh, upstreams !! i = Some sh → reaches {| ds_shared := sh; ds_queries := q; ds_resets := resets ≫= reset_pc i |}) →
  reaches {| ds_shared := sh'; ds_queries := q; ds_resets := (before ++ next_reset j r' :: after) ≫= reset_pc i |}.
Proof.
  intros -> Hj Hs Hi Hr. eapply reaches_permute_resets; [|by rewrite bind_split].
  apply lookup_insert_cases in Hi as [[-> ->]|[Hne Hi]].
  - specialize (Hr _ Hj). eapply reaches_permute_resets in Hr; [|by rewrite bind_split].
    unfold reset_pc at 1 in Hr. simpl in Hr. rewrite decide_True in Hr by done. eapply reaches_reset in Hr; [|done].
    enough (reset_pc j (next_reset j r') = [r']) as -> by done.
    destruct r'; unfold reset_pc; simpl; repeat case_decide; done || lia.
  - specialize (Hr _ Hi). eapply reaches_permute_resets in Hr; [|by rewrite bind_split].
    unfold reset_pc at 1 in Hr. simpl in Hr. rewrite decide_False in Hr by done.
    unfold reset_pc at 1. destruct (decide (i < j)%nat) as [Hlt|Hge].
    + destruct r'; simpl; repeat case_decide; done || lia.
    + destruct r'; simpl; repeat case_decide; try lia; try done. simpl in *. by apply reaches_new_reset.
Qed.

Lemma resolver_step_sim self self' : simulated self → resolver_step self self' → simulated self'.
Proof.
  intros Hi Hs. destruct Hs; intros k sh' Hsh'; simpl in Hsh'.
  - by apply (Hi k).
  - by apply (Hi k).
  - assert (is_Some (rv_upstreams self !! k)) as [sh Hsh].
    { apply lookup_lt_is_Some. apply lookup_lt_Some in Hsh'. by apply resolve_step_length in H0 as <-. }
    specialize (Hi k sh Hsh). pose proof (pcs_client k self _ _ _ _ _ _ _ H) as Hp.
    eapply reaches_permute in Hi; [|exact Hp]. eapply resolve_sim in Hi; [|done..]. eapply reaches_permute; [exact Hi|].
    rewrite (pcs_client k (with_client _ _ _ _ _)) by done. simpl. f_equiv. destruct spawned as [j|]; [|done]. simpl.
    rewrite app_assoc, (Permutation_app_comm (probe_pc k (j, QStart))), <-!app_assoc. done.
  - specialize (Hi k sh' Hsh'). unfold on_its_own, pcs in *. simpl in *. rewrite H in Hi.
    eapply reaches_permute in Hi; [|by rewrite bind_split, <-app_assoc]. eapply reaches_drops; [exact Hi|by apply client_dropped].
  - assert (is_Some (rv_upstreams self !! k)) as [sh Hsh] by (apply lookup_lt_is_Some; apply lookup_lt_Some in Hsh'; by rewrite length_insert in Hsh').
    specialize (Hi k sh Hsh). eapply reaches_permute in Hi; [|by eapply pcs_probe].
    eapply reaches_permute; [|symmetry; by apply (pcs_probe k (with_client _ _ _ _ _) before (i, p') after)]. simpl.
    unfold probe_pc in Hi |- *. simpl in *.
    apply lookup_insert_cases in Hsh' as [[-> ->]|[Hne Hsh']]; [|by rewrite decide_False in * by done; simplify_eq].
    rewrite decide_True in * by done. simplify_eq. eapply reaches_query; [done|done|]. intros H3 H4.
    specialize (H2 H3 H4). unfold lock_free in H2. apply negb_true_iff in H2.
    rewrite (existsb_perm _ _ _ (pcs_probe _ _ _ _ _ H)) in H2. unfold probe_pc in H2 at 1. simpl in H2. by rewrite decide_True in H2.
  - assert (is_Some (rv_upstreams self !! k)) as [sh Hsh] by (apply lookup_lt_is_Some; apply lookup_lt_Some in Hsh'; by rewrite length_insert in Hsh').
    specialize (Hi k sh Hsh). eapply reaches_permute in Hi; [|by eapply pcs_probe].
    unfold probe_pc at 1 in Hi. simpl in Hi.
    apply lookup_insert_cases in Hsh' as [[-> ->]|[Hne Hsh']]; [|by rewrite decide_False in * by done; simplify_eq].
    rewrite decide_True in * by done. simplify_eq. by eapply reaches_probing, reaches_drop.
  - unfold on_its_own. cbn [rv_resets]. rewrite bind_cons. unfold reset_pc at 1. cbn [fst snd].
    destruct (decide (0%nat = k)); [apply reaches_new_reset|rewrite decide_False by lia]; by apply (Hi k).
  - eapply reset_sim; [done|done|done|done|apply Hi].
Qed.

Lemma simulated_new upstreams forward_in_flight : simulated (Resolver_new upstreams forward_in_flight).
Proof. intros i sh Hs. simpl in Hs. apply lookup_replicate in Hs as [-> _]. by apply reaches_start. Qed.
Lemma resolver_simulated upstreams forward_in_flight self : resolver_reach upstreams forward_in_flight self → simulated self.
Proof. intros Hr. by apply (rtc_ind_r simulated _ (simulated_new upstreams forward_in_flight)) in Hr; [|intros; eapply resolver_step_sim]. Qed.

(** ** Limits *)

(** Two queries never open a connection to one upstream at once. *)
Definition opening (queries : list pc) : nat := sum_list_with (λ p, if connecting p then 1%nat else 0%nat) queries.
Lemma opening_none queries : existsb connecting queries = false → opening queries = 0%nat.
Proof. induction queries as [|p l IH]; [done|]. simpl. by destruct (connecting p). Qed.
Lemma doh_reach_opening s : doh_reach s → (opening (ds_queries s) ≤ 1)%nat.
Proof.
  revert s. apply (rtc_ind_r (λ s, (opening (ds_queries s) ≤ 1)%nat)); [unfold opening; simpl; lia|]. unfold opening. intros s s' _ Hs IH.
  destruct Hs as [|before p after sh' p' Hq Hs Hl|before p after Hq Hd| | |]; simpl in *; try lia; rewrite Hq, sum_list_with_app in IH; simpl in IH;
    rewrite sum_list_with_app; simpl; [|destruct (connecting p); lia].
  destruct (connecting p') eqn:H'; [|destruct (connecting p); lia]. destruct (connecting p); [lia|].
  pose proof (opening_none _ (Hl eq_refl eq_refl)) as Hn. unfold opening in Hn. rewrite sum_list_with_app in Hn. lia.
Qed.
Lemma opening_perm l k : l ≡ₚ k → opening l = opening k.
Proof. unfold opening. induction 1; simpl; lia. Qed.

Definition permits_used (self : Resolver) : nat := sum_list_with in_flight_of (rv_clients self).
Definition clients_of (kind : ClientKind) (self : Resolver) : nat :=
  sum_list_with (λ c, if decide (cl_kind c = kind) then 1%nat else 0%nat) (rv_clients self).
Definition calls_of (kind : ClientKind) : nat := match kind with Forwarding => 1 | LookingUp => 2 end.
Definition probes_of (i : nat) (self : Resolver) : nat := sum_list_with (λ p, if decide (p.1 = i) then 1%nat else 0%nat) (rv_probes self).
(** The upstreams a call has still to try are there. *)
Definition phase_ok (n : nat) (ph : Phase) : Prop :=
  match ph with
  | Checking i _ up down => (i ≤ n)%nat ∧ Forall (λ j, j < n)%nat (up ++ down)
  | CheckProbing i _ up down | Swapping i _ up down => (i < n)%nat ∧ Forall (λ j, j < n)%nat (up ++ down)
  | Trying i rest _ => Forall (λ j, j < n)%nat (i :: rest)
  | _ => True
  end.
Definition client_ok (n : nat) (c : Client) : Prop :=
  length (cl_resolves c) = calls_of (cl_kind c) ∧ Forall (λ r, phase_ok n r.2) (cl_resolves c).

Record resolver_inv (n forward : nat) (self : Resolver) : Prop := {
  ri_len : length (rv_upstreams self) = n;
  ri_free : (rv_free self + permits_used self = MAX_IN_FLIGHT)%nat;
  ri_forward : (rv_forward self + clients_of Forwarding self = forward)%nat;
  ri_turns : (rv_turns self + clients_of LookingUp self = LOOKUP_PERMITS / 2)%nat;
  ri_clients : Forall (client_ok n) (rv_clients self);
  ri_probes : ∀ i s, rv_upstreams self !! i = Some s → probes_of i self = if up_probing (sh_up s) then 1%nat else 0%nat;
  ri_probed : Forall (λ p, p.1 < n)%nat (rv_probes self)
}.

Lemma query_keeps_probing s p s' p' : query_step s p s' p' → up_probing (sh_up s') = up_probing (sh_up s).
Proof. destruct 1; try done; [by revert H; unfold share_connection; case_match; intros [= <- <-]|by case_match]. Qed.
Lemma reset_keeps_probing s r s' r' : reset_step s r s' r' → up_probing (sh_up s') = up_probing (sh_up s).
Proof. by destruct 1. Qed.

Lemma next_upstream_ok n rest e : Forall (λ j, j < n)%nat rest → phase_ok n (next_upstream rest e).
Proof. by destruct rest. Qed.
Lemma advance_ok upstreams message ph ph' upstreams' spawned : advance upstreams message ph = Some (ph', upstreams', spawned) →
  phase_ok (length upstreams) ph → running ph = true ∧ phase_ok (length upstreams) ph' ∧
  ((spawned = None ∧ upstreams' = upstreams) ∨
   ∃ i s, spawned = Some i ∧ upstreams !! i = Some s ∧ up_probing (sh_up s) = false ∧ upstreams' = <[i := set_probing s true]> upstreams).
Proof.
  intros Ha Ho. destruct ph as [|j now up down|j now up down|j now up down|j rest p|]; simpl in Ha; try done; simpl in Ho.
  - destruct Ho as [Hj Ho]. destruct (upstreams !! j) eqn:Hl; [apply lookup_lt_Some in Hl|];
      [|simplify_eq; split_and!; [done|by apply next_upstream_ok|by left]].
    repeat case_match; simplify_eq; (split_and!; [done| |by left]); simpl; rewrite ?Forall_app in *; rewrite ?Forall_singleton; naive_solver lia.
  - destruct (upstreams !! j) eqn:Hl; [apply lookup_lt_Some in Hl|done]. simpl in Ha.
    case_match; simplify_eq; (split_and!; [done| |by left]); simpl; rewrite ?Forall_app in *; rewrite ?Forall_singleton; naive_solver lia.
  - unfold probe in Ha. destruct (upstreams !! j) as [s|] eqn:Hl; [|done]. simpl in Ha. pose proof (lookup_lt_Some _ _ _ Hl).
    destruct (up_probing (sh_up s)) eqn:?; simpl in Ha; simplify_eq; (split_and!; [done| |]); simpl; rewrite ?Forall_app in *; rewrite ?Forall_singleton; [naive_solver lia|by left|naive_solver lia|].
    right. exists j, s. done.
  - destruct p as [| | | | | | | | | | | | | |res]; try done. apply Forall_cons in Ho as [_ Ho].
    destruct res; simplify_eq; (split_and!; [done| |by left]); [done|by apply next_upstream_ok].
Qed.

Definition holds_permit (ph : Phase) : nat := if running ph then 1 else 0.
(** What a call's step does to the permits, the flags and the upstreams it has to try. *)
Lemma resolve_step_inv self message ph free upstreams ph' spawned : resolve_step self message ph free upstreams ph' spawned →
  phase_ok (length (rv_upstreams self)) ph →
  (free + holds_permit ph' = rv_free self + holds_permit ph)%nat ∧ phase_ok (length (rv_upstreams self)) ph' ∧
  (∀ i, spawned = Some i → (i < length (rv_upstreams self))%nat) ∧
  ∀ i s', upstreams !! i = Some s' → ∃ s, rv_upstreams self !! i = Some s ∧
    (if decide (spawned = Some i) then up_probing (sh_up s) = false ∧ up_probing (sh_up s') = true else up_probing (sh_up s') = up_probing (sh_up s)).
Proof.
  intros Hs Ho. unfold holds_permit. destruct Hs as [now ph' free Hb|ph ph' upstreams spawned Ha|j rest p s s' p' Hj Hq Hl].
  - unfold resolve_start in Hb. split_and!; [..|naive_solver]; [|by repeat case_match; simplify_eq; simpl; rewrite ?Forall_nil; naive_solver lia|done].
    repeat case_match; simplify_eq; simpl; lia.
  - apply advance_ok in Ha as (Hr & Ho' & Hup); [|done]. rewrite Hr. split_and!; [destruct (running ph'); lia|done|..].
    + intros i ->. destruct Hup as [[? _]|(j & s & [= ->] & Hj & _)]; [done|]. by eapply lookup_lt_Some.
    + intros i s' Hi. destruct Hup as [[-> ->]|(j & s & -> & Hj & Hp & ->)].
      * exists s'. split; [done|]. by rewrite decide_False.
      * apply lookup_insert_cases in Hi as [[-> ->]|[Hne Hi]]; [exists s; split; [done|]; by rewrite decide_True|].
        exists s'. split; [done|]. rewrite decide_False by naive_solver. done.
  - split_and!; [done|done|done|]. intros i s'' Hi.
    apply lookup_insert_cases in Hi as [[-> ->]|[Hne Hi]]; eexists; (split; [done|]); rewrite decide_False by done; [|done].
    by eapply query_keeps_probing.
Qed.

Lemma in_flight_split rb (x : bytes * Phase) ra kind :
  in_flight_of {| cl_kind := kind; cl_resolves := rb ++ x :: ra |} =
  (holds_permit x.2 + sum_list_with (λ r : bytes * Phase, if running r.2 then 1%nat else 0%nat) (rb ++ ra))%nat.
Proof. unfold in_flight_of, holds_permit. simpl. rewrite !sum_list_with_app. simpl. lia. Qed.

Ltac inv_sums := unfold permits_used, clients_of, probes_of in *; simpl in *; rewrite ?sum_list_with_app in *; simpl in *; rewrite ?decide_True, ?decide_False in * by done.

Lemma inv_client n forward self before kind rb message ph ra after free upstreams ph' spawned :
  resolver_inv n forward self →
  rv_clients self = before ++ {| cl_kind := kind; cl_resolves := rb ++ (message, ph) :: ra |} :: after →
  resolve_step self message ph free upstreams ph' spawned →
  resolver_inv n forward (with_client self (before ++ {| cl_kind := kind; cl_resolves := rb ++ (message, ph') :: ra |} :: after) free upstreams
    (match spawned with Some i => (i, QStart) :: rv_probes self | None => rv_probes self end)).
Proof.
  intros [Hn Hfree Hfw Hturn Hcl Hpr Hpd] Hc Hs. pose proof (resolve_step_length _ _ _ _ _ _ _ Hs) as Hlen.
  rewrite Hc in Hcl. apply Forall_app in Hcl as [Hb [[Hsize Hph] Ha]%Forall_cons]. simpl in Hsize, Hph.
  apply Forall_app in Hph as [Hrb [Hph Hra]%Forall_cons]. simpl in Hph. subst n.
  destruct (resolve_step_inv _ _ _ _ _ _ _ Hs Hph) as (Hpermits & Hph' & Hspawn & Hflags).
  unfold permits_used, clients_of in Hfree, Hfw, Hturn. rewrite Hc, sum_list_with_app in Hfree, Hfw, Hturn.
  cbn [sum_list_with] in *. rewrite in_flight_split in Hfree. cbn [snd] in Hfree.
  split; simpl; [done|..|].
  - unfold permits_used. simpl. rewrite sum_list_with_app. cbn [sum_list_with]. rewrite in_flight_split. cbn [snd]. lia.
  - unfold clients_of. simpl. by rewrite sum_list_with_app.
  - unfold clients_of. simpl. by rewrite sum_list_with_app.
  - apply Forall_app. split; [done|]. apply Forall_cons. split; [|done]. split; simpl; [by rewrite length_app in *|].
    by apply Forall_app; split; [|apply Forall_cons].
  - intros i s' Hi. destruct (Hflags i s' Hi) as (s & Hi' & Hf). specialize (Hpr i s Hi'). unfold probes_of in *. simpl.
    destruct spawned as [j|]; simpl; [|by rewrite decide_False in Hf by done; rewrite Hf].
    destruct (decide (j = i)) as [->|Hne].
    + rewrite decide_True in Hf by done. destruct Hf as [Hf ->]. rewrite Hf in Hpr. lia.
    + rewrite decide_False in Hf by naive_solver. rewrite Hf. done.
  - destruct spawned as [j|]; [|done]. apply Forall_cons. split; [by apply Hspawn|done].
Qed.

Lemma inv_upstream n forward self i s s' probes : resolver_inv n forward self → rv_upstreams self !! i = Some s →
  (∀ j, sum_list_with (λ p : nat * pc, if decide (p.1 = j) then 1%nat else 0%nat) probes + (if decide (j = i) then if up_probing (sh_up s) then 1 else 0 else 0) =
        probes_of j self + (if decide (j = i) then if up_probing (sh_up s') then 1 else 0 else 0))%nat →
  Forall (λ p, p.1 < n)%nat probes →
  resolver_inv n forward (with_client self (rv_clients self) (rv_free self) (<[i := s']> (rv_upstreams self)) probes).
Proof.
  intros [Hn Hfree Hfw Hturn Hcl Hpr Hpd] Hi Hp Hok. split; try done; simpl; [by rewrite length_insert|].
  intros j s'' Hj. unfold probes_of. simpl. specialize (Hp j). apply lookup_insert_cases in Hj as [[-> ->]|[Hne Hj]].
  - rewrite !decide_True in Hp by done. rewrite (Hpr _ _ Hi) in Hp. lia.
  - rewrite !decide_False in Hp by done. rewrite (Hpr _ _ Hj) in Hp. lia.
Qed.

Lemma resolver_step_inv n forward self self' : resolver_inv n forward self → resolver_step self self' → resolver_inv n forward self'.
Proof.
  intros Hi Hs. destruct Hs.
  - destruct Hi. split; try done; inv_sums; try lia. by constructor; [repeat constructor|].
  - destruct Hi. split; try done; inv_sums; try lia. by constructor; [repeat constructor|].
  - by eapply inv_client.
  - destruct Hi as [Hn Hfree Hfw Hturn Hcl Hpr Hpd]. unfold permits_used, clients_of in Hfree, Hfw, Hturn.
    rewrite H, sum_list_with_app in Hfree, Hfw, Hturn. rewrite H in Hcl. apply Forall_app in Hcl as [Hb [_ Ha]%Forall_cons].
    split; try done; unfold permits_used, clients_of; simpl in *; rewrite ?sum_list_with_app; [lia|..|by apply Forall_app];
      destruct (cl_kind c); simpl in *; lia.
  - eapply inv_upstream; [done|done| |]; [|destruct Hi as [_ _ _ _ _ _ Hpd]; rewrite H in Hpd; by apply Forall_app in Hpd as [? [? ?]%Forall_cons]; apply Forall_app; split; [|constructor]].
    intros j. unfold probes_of. rewrite H, !sum_list_with_app, (query_keeps_probing _ _ _ _ H1). simpl. lia.
  - eapply inv_upstream; [done|done| |]; [|destruct Hi as [_ _ _ _ _ _ Hpd]; rewrite H in Hpd; by apply Forall_app in Hpd as [? [? ?]%Forall_cons]; apply Forall_app].
    intros j. unfold probes_of. rewrite H, !sum_list_with_app. simpl.
    destruct Hi as [_ _ _ _ _ Hpr _]. specialize (Hpr _ _ H0). unfold probes_of in Hpr. rewrite H, sum_list_with_app in Hpr. simpl in Hpr.
    rewrite decide_True in Hpr by done. repeat case_decide; subst; try done; destruct (up_probing (sh_up s)); lia.
  - by destruct Hi; split.
  - apply (inv_upstream _ _ _ i s s' (rv_probes self)) in Hi; [|done| |by destruct Hi].
    + by destruct Hi; split.
    + intros j. rewrite (reset_keeps_probing _ _ _ _ H1). unfold probes_of. lia.
Qed.
Lemma resolver_reach_inv n forward self : resolver_reach n forward self → resolver_inv n forward self.
Proof.
  revert self. apply (rtc_ind_r (resolver_inv n forward)); [|intros; by eapply resolver_step_inv].
  split; simpl; rewrite ?length_replicate; try done. intros i s [-> _]%lookup_replicate. done.
Qed.

(** ** Ends *)

(** A query's own steps, at most: first on the open connection, then on a new one, then once more
    after a reset. *)
Definition pc_rank (p : pc) : nat :=
  match p with
  | QStart => 30 | QWarmOpen _ _ => 29 | QWarm _ _ _ => 28
  | QCold stop => if stop then 20 else 12
  | QColdRun stop _ => if stop then 19 else 11
  | QConnecting stop _ _ => if stop then 18 else 10
  | QConnected stop _ _ _ => if stop then 17 else 9
  | QShare stop _ _ _ => if stop then 16 else 8
  | QExchange stop _ _ _ => if stop then 15 else 7
  | QFailed _ _ _ => 5 | QSwap _ _ _ _ => 4 | QCheck _ _ _ _ => 3 | QClear _ _ _ _ => 2
  | QMarkUp _ => 1 | QDone _ => 0
  end.
Lemma query_step_rank s p s' p' : query_step s p s' p' → (pc_rank p' < pc_rank p)%nat.
Proof. destruct 1; simpl; try (case_match; lia); try lia; destruct p; simpl in *; simplify_eq; repeat case_match; simplify_eq; lia. Qed.
Tactic Notation "goes_by" uconstr(step) := do 2 eexists; split; [by eapply step|done].
Lemma query_goes_on s p : (∃ r, p = QDone r) ∨ ∃ s' p', query_step s p s' p' ∧ (connecting p' = true → connecting p = true).
Proof.
  destruct p as [|g snd|g snd ep|stop|stop ep|stop ep cep|stop ep cep snd|stop ep cep snd|stop ep g snd|r|ep conn e|ep conn e until|ep conn e until|ep conn e until|r];
    [..|by left; eexists]; right.
  - destruct (open_sender (λ _, false) (up_slot (sh_up s)) {| total_ms := 0; awake_ms := 0 |}) as [[[g snd]|] slot] eqn:Ho;
      [goes_by q_open|goes_by q_open_none].
  - goes_by q_warm_count.
  - goes_by q_warm_timeout.
  - goes_by q_cold_count.
  - goes_by (q_cold_failed _ _ ep None DohTimeout).
  - goes_by q_connected.
  - destruct (decide (up_epoch (sh_up s) = cep)); [goes_by q_count_same|goes_by q_count_changed].
  - destruct (share_connection (sh_up s) (up_epoch (sh_up s)) snd {| total_ms := 0; awake_ms := 0 |}) as [r u] eqn:Hsh.
    goes_by q_share.
  - goes_by (q_cold_failed _ _ ep (Some snd) DohTimeout).
  - goes_by q_mark_up.
  - destruct (decide (up_epoch (sh_up s) = ep)); [goes_by (q_down_now _ _ _ _ 0)|goes_by q_down_stale].
  - goes_by q_swap.
  - destruct (decide (up_epoch (sh_up s) = ep)); [goes_by q_check_same|goes_by q_check_changed].
  - goes_by q_clear.
Qed.

(** A call's own steps, at most, with [n] upstreams. *)
Definition phase_rank (n : nat) (ph : Phase) : nat :=
  match ph with
  | NotStarted => 35 * n + 3
  | Checking i _ up down => 32 * (length up + length down + (n - i)) + 3 * (n - i) + 2
  | CheckProbing i _ up down => 32 * (length up + length down + (n - i)) + 3 * (n - i) + 1
  | Swapping i _ up down => 32 * (length up + length down + (n - i)) + 3 * (n - i)
  | Trying _ rest p => 32 * length rest + pc_rank p + 1
  | Resolved _ => 0
  end.
Lemma next_upstream_rank n rest e : (phase_rank n (next_upstream rest e) ≤ 32 * length rest)%nat.
Proof. destruct rest; simpl; lia. Qed.
Lemma advance_rank upstreams message ph ph' upstreams' spawned : advance upstreams message ph = Some (ph', upstreams', spawned) →
  (phase_rank (length upstreams) ph' < phase_rank (length upstreams) ph)%nat.
Proof.
  intros Ha. destruct ph as [|j now up down|j now up down|j now up down|j rest p|]; simpl in Ha; try done.
  - destruct (upstreams !! j) eqn:Hl; [apply lookup_lt_Some in Hl|].
    + repeat case_match; simplify_eq; simpl; rewrite ?length_app; simpl; lia.
    + simplify_eq. pose proof (next_upstream_rank (length upstreams') (up ++ down) NoUpstream) as Hr. rewrite length_app in Hr. simpl. lia.
  - destruct (upstreams !! j) eqn:Hl; [apply lookup_lt_Some in Hl|done]. simpl in Ha.
    case_match; simplify_eq; simpl; rewrite ?length_app; simpl; lia.
  - unfold probe in Ha. destruct (upstreams !! j) as [s|] eqn:Hl; [apply lookup_lt_Some in Hl|done]. simpl in Ha.
    destruct (up_probing (sh_up s)); simpl in Ha; simplify_eq; simpl; rewrite ?length_app; simpl; lia.
  - destruct p as [| | | | | | | | | | | | | |[answer|e]]; simplify_eq; simpl; [lia|].
    pose proof (next_upstream_rank (length upstreams') rest e). lia.
Qed.
Lemma resolve_step_rank self message ph free upstreams ph' spawned : resolve_step self message ph free upstreams ph' spawned →
  (phase_rank (length (rv_upstreams self)) ph' < phase_rank (length (rv_upstreams self)) ph)%nat.
Proof.
  intros [now ph0 free0 Hb|ph0 ph1 ups sp Ha|j rest p s s' p' Hj Hq Hl].
  - unfold resolve_start in Hb. repeat case_match; simplify_eq; simpl; lia.
  - by eapply advance_rank.
  - simpl. apply query_step_rank in Hq. lia.
Qed.
Lemma resolve_goes_on self message ph : phase_ok (length (rv_upstreams self)) ph →
  (∃ r, ph = Resolved r) ∨ ∃ free upstreams ph' spawned, resolve_step self message ph free upstreams ph' spawned.
Proof.
  intros Ho. assert (∀ i, (i < length (rv_upstreams self))%nat → ∃ s, rv_upstreams self !! i = Some s) as Hl by (intros i Hi; by apply lookup_lt_is_Some).
  assert (advance (rv_upstreams self) message ph ≠ None → ∃ free upstreams ph' spawned, resolve_step self message ph free upstreams ph' spawned) as Hadv.
  { destruct (advance (rv_upstreams self) message ph) as [[[ph' ups] sp]|] eqn:Ha; [|done]. intros _. do 4 eexists. by eapply rs_advance. }
  destruct ph as [|j now up down|j now up down|j now up down|j rest p|r]; [..|by left; eexists]; right; simpl in Ho.
  - destruct (resolve_start (rv_free self) message 0) eqn:Hb. do 4 eexists. by eapply rs_start.
  - apply Hadv. simpl. destruct (rv_upstreams self !! j); [|done]. by repeat case_match.
  - apply Hadv. simpl. destruct Ho as [(s & ->)%Hl _]. simpl. by case_match.
  - apply Hadv. simpl. unfold probe. destruct Ho as [(s & ->)%Hl _]. simpl. by destruct (up_probing (sh_up s)).
  - apply Forall_cons in Ho as [(s & Hs)%Hl _]. destruct (query_goes_on s p) as [[[answer|e] ->]|(s' & p' & Hq & Hc)].
    + by apply Hadv.
    + by apply Hadv.
    + do 4 eexists. eapply rs_query; [done..|]. intros H1 H2. apply Hc in H1. by rewrite H1 in H2.
Qed.

(** ** Theorems *)

Lemma probes_distinct (l : list (nat * pc)) :
  (∀ i, (sum_list_with (λ p, if decide (p.1 = i) then 1%nat else 0%nat) l ≤ 1)%nat) → NoDup l.*1.
Proof.
  induction l as [|[j p] l IH]; intros Hc; [constructor|]. simpl. constructor.
  - intros ([j' p'] & -> & Hel)%list_elem_of_fmap. apply list_elem_of_split in Hel as (l1 & l2 & ->). specialize (Hc j'). simpl in *.
    rewrite sum_list_with_app in Hc. simpl in Hc. rewrite !decide_True in Hc by done. lia.
  - apply IH. intros i. specialize (Hc i). simpl in Hc. lia.
Qed.
Lemma probes_beyond n i (l : list (nat * pc)) : Forall (λ p, p.1 < n)%nat l → (n ≤ i)%nat →
  sum_list_with (λ p, if decide (p.1 = i) then 1%nat else 0%nat) l = 0%nat.
Proof. intros Hl Hi. induction Hl as [|p l Hp _ IH]; simpl; [done|]. by rewrite decide_False by lia. Qed.
Lemma in_flight_bound (c : Client) : (in_flight_of c ≤ length (cl_resolves c))%nat.
Proof. unfold in_flight_of. induction (cl_resolves c) as [|r l IH]; simpl; [lia|]. destruct (running r.2); lia. Qed.
(** A call that has not started leaves a permit of its client's share unused. *)
Lemma not_started_bound c message : (message, NotStarted) ∈ cl_resolves c → (in_flight_of c < length (cl_resolves c))%nat.
Proof.
  intros (l1 & l2 & E)%list_elem_of_split. pose proof (in_flight_bound {| cl_kind := cl_kind c; cl_resolves := l1 ++ l2 |}) as Hb.
  destruct c as [kind l]. simpl in *. subst l. rewrite in_flight_split. unfold in_flight_of in Hb. simpl in Hb.
  rewrite length_app in *. simpl. lia.
Qed.
Lemma permits_within n l : Forall (client_ok n) l →
  (sum_list_with in_flight_of l ≤ sum_list_with (λ c, if decide (cl_kind c = Forwarding) then 1 else 0) l +
     2 * sum_list_with (λ c, if decide (cl_kind c = LookingUp) then 1 else 0) l)%nat.
Proof.
  induction 1 as [|c l [Hc _] _ IH]; simpl; [lia|]. pose proof (in_flight_bound c) as Hb. rewrite Hc in Hb.
  destruct (cl_kind c); simpl in *; lia.
Qed.

(** C35: the queries of the tunnel and of the proxy share one resolver without getting in each other's
    way. However jobs, lookups, background queries and resets interleave, the resolver's permits are
    all accounted for; a query that starts while the forwarder keeps to its share always gets one and is
    never refused as [Busy]; an upstream has a background query exactly while its flag is set, and only
    one; so no more than 128 queries and one per upstream run at once. *)
Theorem resolver_never_busy (n forward : nat) (self : Resolver) : (forward ≤ MAX_IN_FLIGHT - LOOKUP_PERMITS)%nat → resolver_reach n forward self →
  (rv_free self + permits_used self = MAX_IN_FLIGHT)%nat ∧
  (∀ c message now, c ∈ rv_clients self → (message, NotStarted) ∈ cl_resolves c → (DOH_HEADER_LEN ≤ length message)%nat →
     ∃ free, rv_free self = S free ∧ resolve_start (rv_free self) message now = (Checking 0 now [] [], free)) ∧
  (∀ i s, rv_upstreams self !! i = Some s → probes_of i self = if up_probing (sh_up s) then 1%nat else 0%nat) ∧
  (permits_used self + length (rv_probes self) ≤ MAX_IN_FLIGHT + n)%nat.
Proof.
  intros Hf [Hn Hfree Hfw Hturn Hcl Hpr Hpd]%resolver_reach_inv. split_and!; [done| |done|].
  - intros c message now Hc Hm Hl. apply list_elem_of_split in Hc as (l1 & l2 & E). unfold permits_used, clients_of in *.
    rewrite E in Hfree, Hfw, Hturn, Hcl. apply Forall_app in Hcl as [H1 [H0 H2]%Forall_cons].
    apply not_started_bound in Hm. destruct H0 as [Hsize _]. rewrite Hsize in Hm.
    pose proof (permits_within _ _ H1) as B1. pose proof (permits_within _ _ H2) as B2. rewrite sum_list_with_app in Hfree, Hfw, Hturn. simpl in *.
    assert (rv_free self ≠ 0)%nat as Hfree0 by (unfold MAX_IN_FLIGHT, LOOKUP_PERMITS in *; simpl in *; destruct (cl_kind c); simpl in *; lia).
    destruct (rv_free self) as [|free]; [done|]. exists free. split; [done|]. unfold resolve_start.
    destruct (Nat.ltb_spec (length message) DOH_HEADER_LEN); [lia|done].
  - enough (length (rv_probes self) ≤ n)%nat by lia. rewrite <-(length_fmap fst), <-(length_seq n 0).
    apply NoDup_incl_length; [|intros i Hi].
    + apply NoDup_ListNoDup, probes_distinct. intros i. destruct (rv_upstreams self !! i) as [s|] eqn:Hi.
      * specialize (Hpr _ _ Hi). unfold probes_of in Hpr. rewrite Hpr. by case_match; lia.
      * apply lookup_ge_None in Hi. subst n. rewrite (probes_beyond _ i _ Hpd) by done. lia.
    + apply list_elem_of_In in Hi. apply list_elem_of_fmap in Hi as ([j p] & -> & Hel). rewrite Forall_forall in Hpd. specialize (Hpd _ Hel).
      apply in_seq. simpl in *. lia.
Qed.

(** C32: whatever else the resolver does, each upstream of it behaves as the queries and resets of
    [DohTrace] do on their own. So, at any time, at most one query opens a connection to it, and once
    no reset is between raising its count and clearing its mark and no query is writing the mark, an
    upstream that is marked down was marked last by an attempt that had read the reset count at the value
    it has now, not by one that read it before the last reset. That is about the attempt and not the
    query or its connection: a query that a reset stopped reads the count again when it tries again, and
    one that took the open connection just before a reset and reads the count just after it is such an
    attempt, on an old connection (the second run of [reset_race_windows]). *)
Theorem upstreams_do_not_mix (n forward i : nat) (self : Resolver) (sh : shared) : resolver_reach n forward self →
  rv_upstreams self !! i = Some sh →
  reaches (on_its_own i self sh) ∧ (opening (pcs i self) ≤ 1)%nat ∧
  ((i, RMark) ∉ rv_resets self → (∀ p ep c until, p ∈ pcs i self → ¬ marking p ep c until) → up_down_until (sh_up sh) ≠ 0 →
   ∃ conn, sh_owner sh = Some (up_epoch (sh_up sh), conn)).
Proof.
  intros Hr Hi. pose proof (resolver_simulated _ _ _ Hr _ _ Hi) as Hs. split; [done|]. destruct Hs as (t & Ht & E1 & E2 & E3). simpl in *. split.
  - rewrite <-(opening_perm _ _ E2). by apply doh_reach_opening.
  - intros Hm Hq Hd. subst sh. apply doh_reach_marks in Ht as [?|[Hmark|(ep & c & Ho & [->|(p & Hp & Hmk)])]]; [done| |eauto|].
    + rewrite E3 in Hmark. apply list_elem_of_bind in Hmark as ([j r] & Hin & Hel). exfalso. apply Hm. unfold reset_pc in Hin. simpl in Hin.
      repeat case_decide; subst; set_solver.
    + rewrite E2 in Hp. by apply Hq in Hmk.
Qed.

(** C29: resolving ends. With [n] upstreams a call of [resolve] takes at most 35 n + 3 steps of its own,
    each of them an access to shared state or the end of a wait, and a query that waits always goes on,
    since every wait has its deadline: at any time a call that is not over, and a background query, has
    a step to take, whatever the others do and whoever holds the lock. *)
Theorem resolutions_end (n forward : nat) (self : Resolver) : resolver_reach n forward self →
  phase_rank n NotStarted = (35 * n + 3)%nat ∧
  (∀ message ph free upstreams ph' spawned, resolve_step self message ph free upstreams ph' spawned → (phase_rank n ph' < phase_rank n ph)%nat) ∧
  (∀ c message ph, c ∈ rv_clients self → (message, ph) ∈ cl_resolves c →
     (∃ r, ph = Resolved r) ∨ ∃ free upstreams ph' spawned, resolve_step self message ph free upstreams ph' spawned) ∧
  (∀ i p, (i, p) ∈ rv_probes self → ∃ s, rv_upstreams self !! i = Some s ∧
     ((∃ r, p = QDone r) ∨ ∃ s' p', query_step s p s' p' ∧ (pc_rank p' < pc_rank p)%nat ∧ (connecting p' = true → connecting p = true))).
Proof.
  intros [Hn _ _ _ Hcl _ Hpd]%resolver_reach_inv. subst n. split_and!; [done|intros; by eapply resolve_step_rank|..].
  - intros c message ph Hc Hm. apply resolve_goes_on. rewrite Forall_forall in Hcl. destruct (Hcl _ Hc) as [_ Hph].
    rewrite Forall_forall in Hph. by apply (Hph _ Hm).
  - intros i p Hp. rewrite Forall_forall in Hpd. apply Hpd in Hp as [s Hs]%lookup_lt_is_Some. exists s. split; [done|].
    destruct (query_goes_on s p) as [?|(s' & p' & Hq & Hc)]; [by left|]. right. exists s', p'. split_and!; [done|by eapply query_step_rank|done].
Qed.

(** ** Examples *)

Definition example_query : bytes := replicate 12 1.
(** One upstream; a lookup has begun, its first query is at the upstream and its second about to start. *)
Definition example_client (ph : Phase) : Client := {| cl_kind := LookingUp; cl_resolves := [(example_query, ph); (example_query, NotStarted)] |}.
Definition example_resolver (free : nat) (ph : Phase) : Resolver :=
  {| rv_free := free; rv_forward := 96; rv_turns := 15; rv_upstreams := [fresh_shared]; rv_clients := [example_client ph]; rv_probes := []; rv_resets := [] |}.
Lemma example_resolve_step free ph free' ph' : resolve_step (example_resolver free ph) example_query ph free' [fresh_shared] ph' None →
  resolver_step (example_resolver free ph) (example_resolver free' ph').
Proof. apply (rv_client (example_resolver free ph) [] LookingUp [] example_query ph [(example_query, NotStarted)] []). done. Qed.
Lemma example_resolver_reach : resolver_reach 1 96 (example_resolver 127 (Trying 0 [] (QCold true))).
Proof.
  eapply rtc_l; [by apply (rv_lookup_begin _ example_query example_query 15)|].
  eapply rtc_l; [apply (example_resolve_step 128 NotStarted 127 (Checking 0 5 [] [])); by apply (rs_start (example_resolver 128 NotStarted) example_query 5)|].
  eapply rtc_l; [apply (example_resolve_step 127 _ 127 (Checking 1 5 [0%nat] [])); by apply (rs_advance (example_resolver 127 (Checking 0 5 [] [])) example_query (Checking 0 5 [] []) (Checking 1 5 [0%nat] []))|].
  eapply rtc_l; [apply (example_resolve_step 127 _ 127 (Trying 0 [] QStart)); by apply (rs_advance (example_resolver 127 (Checking 1 5 [0%nat] [])) example_query (Checking 1 5 [0%nat] []) (Trying 0 [] QStart))|].
  apply rtc_once, example_resolve_step. apply (rs_query (example_resolver 127 (Trying 0 [] QStart)) example_query 0 [] QStart fresh_shared fresh_shared); [done| |done].
  by apply (q_open_none fresh_shared (λ _, false) {| total_ms := 0; awake_ms := 0 |}).
Qed.

Lemma resolver_never_busy_witness :
  resolve_start 127 example_query 7 = (Checking 0 7 [] [], 126%nat) ∧
  ∃ free, rv_free (example_resolver 127 (Trying 0 [] (QCold true))) = S free.
Proof.
  destruct (resolver_never_busy 1 96 _ ltac:(vm_compute; lia) example_resolver_reach) as (_ & Hstart & _).
  destruct (Hstart (example_client (Trying 0 [] (QCold true))) example_query 7) as (free & Hfree & Hs);
    [apply list_elem_of_here|apply list_elem_of_further, list_elem_of_here|vm_compute; lia|].
  split; [reflexivity|by exists free].
Defined.
Lemma upstreams_do_not_mix_witness :
  reaches {| ds_shared := fresh_shared; ds_queries := [QCold true]; ds_resets := [] |}.
Proof. exact (proj1 (upstreams_do_not_mix 1 96 0 _ fresh_shared example_resolver_reach eq_refl)). Defined.
Lemma resolutions_end_witness :
  ∃ free upstreams ph' spawned, resolve_step (example_resolver 127 (Trying 0 [] (QCold true))) example_query NotStarted free upstreams ph' spawned.
Proof.
  destruct (resolutions_end 1 96 _ example_resolver_reach) as (_ & _ & Hgo & _).
  destruct (Hgo (example_client (Trying 0 [] (QCold true))) example_query NotStarted) as [[r Hr]|Hs];
    [apply list_elem_of_here|apply list_elem_of_further, list_elem_of_here|discriminate|exact Hs].
Defined.
