(* ===== verification/Platform.v ===== *)
(** * What the core asks of the system ([common/src/clock.rs], [common/src/net.rs], [tollgate-ffi/src/fds.rs])

    Clocks, the addresses of the network interfaces and the open file limit. What the system calls
    answer is an argument; a duration is a number of nanoseconds. *)
From S2P Require Import Prelude RustStr Collections Net Doh.

(** ** Clocks *)

(** What [clock_gettime] gave: nothing when it failed, else [tv_sec] and [tv_nsec]. *)
Definition Timespec : Type := Z * Z.
Definition NANOS : Z := 1000000000.
(** [u64::try_from] and [u32::try_from] of signed numbers, then [Duration::new]. *)
Definition clock_gettime (ts : option Timespec) : option Z :=
  '(secs, nanos) ← ts;
  if (secs <? 0) || (nanos <? 0) || (U32_MAX <? nanos) then None else Some (secs * NANOS + nanos).
(** [as_secs], and [u64::try_from(as_millis())] saturating. *)
Definition as_secs (duration : Z) : Z := duration / NANOS.
Definition millis (duration : Z) : Z := Z.min (duration / 1000000) U64_MAX.

(** The wall clock as nanoseconds after the epoch, [None] when it is before it. *)
Definition unix_time (wall : option Z) : Z := default 0 wall.
Definition unix_secs (wall : option Z) : Z := as_secs (unix_time wall).
Definition now_secs (continuous : option Timespec) (wall : option Z) : Z :=
  match clock_gettime continuous with Some since => as_secs since | None => unix_secs wall end.
(** [Reading::now]; [elapsed] is the time on [Instant] since its first use here. *)
Definition Reading_now (with_sleep awake : option Timespec) (wall : option Z) (elapsed : Z) : Reading :=
  {| total_ms := millis (default (unix_time wall) (clock_gettime with_sleep));
     awake_ms := millis (default elapsed (clock_gettime awake)) |}.

(** ** Interfaces *)

(** The addresses [getifaddrs] lists: an entry may have none, or one of another family. *)
Inductive SockAddr := Inet (octets : list Z) | Inet6 (octets : list Z) | OtherFamily (family : Z).
Definition group_octets (group : Z) : list Z := [group / 256; group mod 256].
(** [IpAddr::to_canonical]: an IPv4-mapped IPv6 address is its IPv4 address. *)
Definition to_canonical (ip : IpAddr) : IpAddr :=
  match ip with
  | V6 [0; 0; 0; 0; 0; 65535; a; b] => V4 (group_octets a ++ group_octets b)
  | _ => ip
  end.
Definition matches_entry (ip : IpAddr) (entry : option SockAddr) : bool :=
  match entry with
  | None => false
  | Some addr =>
      match ip, addr with
      | V4 v4, Inet octets => bool_decide (octets = v4)
      | V6 v6, Inet6 octets => bool_decide (octets = v6 ≫= group_octets)
      | _, _ => false
      end
  end.
(** The loop: it stops at the first entry that matches. *)
Fixpoint find_entry (ip : IpAddr) (list : list (option SockAddr)) : bool :=
  match list with
  | [] => false
  | entry :: rest => if matches_entry ip entry then true else find_entry ip rest
  end.
(** [None]: the list could not be read. *)
Definition is_local_address (list : option (list (option SockAddr))) (ip : IpAddr) : bool :=
  match list with
  | None => true
  | Some list => find_entry (to_canonical ip) list
  end.

(** ** The open file limit *)

Definition OPEN_FILES : Z := 2048.
Definition raised (soft hard wanted : Z) : option Z :=
  let target := Z.min wanted hard in
  if soft <? target then Some target else None.
(** The limits (soft, hard) after the call: what [getrlimit] read, and whether [setrlimit] succeeded. *)
Definition raise_open_file_limit (limit : Z * Z) (read set : bool) : Z * Z :=
  if negb read then limit
  else match raised limit.1 limit.2 OPEN_FILES with
       | None => limit
       | Some target => if set then (target, limit.2) else limit
       end.

(** ** Facts *)

Lemma millis_between a b : 0 <= a → a <= b → b / 1000000 <= U64_MAX →
  let d := millis b - millis a in (b - a) - 1000000 < d * 1000000 < (b - a) + 1000000.
Proof.
  intros Ha Hab Hm d. unfold d, millis. pose proof (Z.div_le_mono a b 1000000 ltac:(lia) Hab).
  rewrite !Z.min_l by lia. pose proof (Z.div_mod a 1000000 ltac:(lia)). pose proof (Z.div_mod b 1000000 ltac:(lia)).
  pose proof (Z.mod_pos_bound a 1000000 ltac:(lia)). pose proof (Z.mod_pos_bound b 1000000 ltac:(lia)). lia.
Qed.

(** Two readings tell sleep from idle time. When the clocks answered and ran for [passed] and
    [awake] nanoseconds in between, both counting as long as the device was awake, the sleep they show
    is off by less than two milliseconds: a device that stayed awake never looks asleep to a connection
    of the resolver, and one that slept a second and two milliseconds always does. *)
Theorem readings_tell_sleep (total0 awake0 passed awake : Z) (wall0 wall1 : option Z) (elapsed0 elapsed1 : Z) :
  0 <= total0 → 0 <= awake0 → 0 <= awake <= passed → (total0 + passed) / 1000000 <= U64_MAX → (awake0 + awake) / 1000000 <= U64_MAX →
  let at_ t := Some (t / NANOS, t mod NANOS) in
  let earlier := Reading_now (at_ total0) (at_ awake0) wall0 elapsed0 in
  let now := Reading_now (at_ (total0 + passed)) (at_ (awake0 + awake)) wall1 elapsed1 in
  Z.abs (slept_since now earlier * 1000000 - (passed - awake)) < 2 * 1000000 ∧
  Z.abs (awake_since now earlier * 1000000 - awake) < 1000000 ∧
  (passed = awake → slept_since now earlier <= MAX_SLEEP) ∧
  ((MAX_SLEEP + 2) * 1000000 <= passed - awake → MAX_SLEEP < slept_since now earlier).
Proof.
  intros Ht Ha Hp Hmt Hma at_ earlier now.
  assert (∀ t, 0 <= t → clock_gettime (at_ t) = Some t) as Hclock.
  { intros t H0. unfold clock_gettime, at_. cbn [mbind option_bind]. pose proof (Z.mod_pos_bound t NANOS ltac:(unfold NANOS; lia)) as Hb.
    pose proof (Z.div_pos t NANOS H0 ltac:(unfold NANOS; lia)).
    assert (NANOS < U32_MAX) by (unfold NANOS, U32_MAX; lia).
    destruct (Z.ltb_spec (t / NANOS) 0); [lia|]. destruct (Z.ltb_spec (t mod NANOS) 0); [lia|]. destruct (Z.ltb_spec U32_MAX (t mod NANOS)); [lia|].
    cbn [orb]. f_equal. pose proof (Z.div_mod t NANOS ltac:(unfold NANOS; lia)). lia. }
  pose proof (millis_between total0 (total0 + passed) Ht ltac:(lia) Hmt) as H1.
  pose proof (millis_between awake0 (awake0 + awake) Ha ltac:(lia) Hma) as H2.
  unfold now, earlier, slept_since, awake_since, Reading_now. cbn [total_ms awake_ms].
  rewrite !Hclock by lia. cbn [default from_option id]. unfold sat_sub, MAX_SLEEP. cbv zeta in H1, H2.
  assert (∀ a b, 0 <= a → a <= b → millis a <= millis b) as Hmono.
  { intros a b H0 Hab. unfold millis. pose proof (Z.div_le_mono a b 1000000 ltac:(lia) Hab). lia. }
  pose proof (Hmono total0 (total0 + passed) Ht ltac:(lia)). pose proof (Hmono awake0 (awake0 + awake) Ha ltac:(lia)).
  replace (total0 + passed - total0) with passed in H1 by lia. replace (awake0 + awake - awake0) with awake in H2 by lia.
  set (mt := millis (total0 + passed)) in *. set (mt0 := millis total0) in *. set (ma := millis (awake0 + awake)) in *. set (ma0 := millis awake0) in *.
  split_and!; [|lia|lia|lia].
  destruct (Z.le_ge_cases 0 (Z.max 0 (mt - mt0) - Z.max 0 (ma - ma0))); lia.
Qed.

(** An address of an interface, as an entry of the list. *)
Definition entry_ip (entry : SockAddr) : option IpAddr :=
  match entry with
  | Inet octets => Some (V4 octets)
  | Inet6 [a; b; c; d; e; f; g; h; i; j; k; l; m; n; o; p] =>
      Some (V6 [a * 256 + b; c * 256 + d; e * 256 + f; g * 256 + h; i * 256 + j; k * 256 + l; m * 256 + n; o * 256 + p])
  | _ => None
  end.
Definition groups_ok (ip : IpAddr) : Prop :=
  match ip with V4 _ => True | V6 groups => length groups = 8%nat ∧ Forall (λ g, 0 <= g < 65536) groups end.
Definition entry_ok (entry : option SockAddr) : Prop :=
  match entry with Some (Inet6 octets) => length octets = 16%nat ∧ Forall (λ b, 0 <= b < 256) octets | _ => True end.

Lemma join_div a b : 0 <= b < 256 → (a * 256 + b) / 256 = a.
Proof. intros Hb. rewrite Z.div_add_l, Z.div_small by lia. lia. Qed.
Lemma join_mod a b : 0 <= b < 256 → (a * 256 + b) mod 256 = b.
Proof. intros Hb. by rewrite Z.add_comm, Z.mod_add, Z.mod_small by lia. Qed.
Lemma octets_join g : g = (g / 256) * 256 + g mod 256.
Proof. pose proof (Z.div_mod g 256 ltac:(lia)). lia. Qed.

Lemma matches_entry_ip ip entry : groups_ok ip → entry_ok (Some entry) → matches_entry ip (Some entry) = true ↔ entry_ip entry = Some ip.
Proof.
  intros Hip He. destruct ip as [v4|v6], entry as [octets|octets|family]; cbn [matches_entry entry_ip]; try done.
  - rewrite bool_decide_eq_true. split; [by intros ->|by intros [= ->]].
  - split; [done|]. by repeat case_match.
  - destruct Hip as [Hl6 _], He as [Hl He]. rewrite bool_decide_eq_true.
    do 16 (destruct octets as [|? octets]; [done|]). destruct octets; [|done].
    do 8 (destruct v6 as [|? v6]; [done|]). destruct v6; [|done]. clear Hl Hl6.
    repeat match goal with H : Forall _ (_ :: _) |- _ => apply Forall_cons in H as [? ?] end.
    unfold group_octets. cbn [mbind list_bind app]. split.
    + intros [= -> -> -> -> -> -> -> -> -> -> -> -> -> -> -> ->]. by rewrite <-!octets_join.
    + intros [= <- <- <- <- <- <- <- <-].
      by rewrite !join_div, !join_mod by lia.
Qed.
Lemma find_entry_exists ip l : find_entry ip l = true ↔ ∃ entry, Some entry ∈ l ∧ matches_entry ip (Some entry) = true.
Proof.
  induction l as [|[entry|] l IH]; simpl; [by split; [|intros (? & ?%elem_of_nil & _)]| |].
  - destruct (match ip with V4 _ => _ | V6 _ => _ end) eqn:Hm; [split; [|done]; intros _; exists entry; split; [apply list_elem_of_here|done]|].
    rewrite IH. split; intros (e & Hel & He); exists e; (split; [|done]); [by apply list_elem_of_further|].
    apply elem_of_cons in Hel as [[= ->]|?]; [|done]. by rewrite Hm in He.
  - rewrite IH. split; intros (e & Hel & He); exists e; (split; [|done]); [by apply list_elem_of_further|].
    by apply elem_of_cons in Hel as [?|?].
Qed.
Lemma to_canonical_ok ip : groups_ok ip → groups_ok (to_canonical ip).
Proof. intros H. unfold to_canonical. by repeat case_match. Qed.

(** An address counts as the device's own exactly when the list of interfaces cannot be read or has
    it, and an IPv4 address written as IPv6 counts as itself: connections keep running when in doubt. *)
Theorem local_address_exact (list : option (list (option SockAddr))) (ip : IpAddr) : groups_ok ip → Forall entry_ok (default [] list) →
  (is_local_address list ip = true ↔
   list = None ∨ ∃ l entry, list = Some l ∧ Some entry ∈ l ∧ entry_ip entry = Some (to_canonical ip)) ∧
  ∀ a b, 0 <= a < 65536 → 0 <= b < 65536 →
    is_local_address list (V6 [0; 0; 0; 0; 0; 65535; a; b]) = is_local_address list (V4 (group_octets a ++ group_octets b)).
Proof.
  intros Hip Hl. split; [|done]. destruct list as [l|]; simpl; [|by split; [left|]].
  rewrite find_entry_exists. simpl in Hl. rewrite Forall_forall in Hl. split.
  - intros (entry & Hel & Hm). right. exists l, entry. split_and!; [done|done|].
    apply matches_entry_ip in Hm; [done|by apply to_canonical_ok|by apply (Hl (Some entry))].
  - intros [?|(l' & entry & [= <-] & Hel & Hm)]; [done|]. exists entry. split; [done|].
    apply matches_entry_ip; [by apply to_canonical_ok|by apply (Hl (Some entry))|done].
Qed.

(** Raising the open file limit never lowers it, never passes the hard limit, which is kept, and gives
    the engine what it asks for where the system allows that. *)
Theorem open_file_limit_rises (soft hard : Z) (read set : bool) : 0 <= soft <= hard →
  let '(soft', hard') := raise_open_file_limit (soft, hard) read set in
  hard' = hard ∧ soft <= soft' <= hard ∧ (soft' ≠ soft → soft' = Z.min OPEN_FILES hard) ∧
  (read = true → set = true → Z.min OPEN_FILES hard <= soft').
Proof.
  intros Hs. unfold raise_open_file_limit, raised. cbn [fst snd]. destruct read; cbn [negb]; [|split_and!; try done; lia].
  destruct (Z.ltb_spec soft (Z.min OPEN_FILES hard)); [destruct set|]; split_and!; try done; lia.
Qed.

(** ** Examples *)

Lemma readings_tell_sleep_witness : ∃ now earlier, slept_since now earlier <= MAX_SLEEP ∧ awake_ms now = 90010.
Proof.
  pose proof (readings_tell_sleep 5000000 10999999 90000000000 90000000000 None None 0 0) as H.
  eexists _, _. split; [apply H; vm_compute; done || (split; vm_compute; done)|vm_compute; reflexivity].
Defined.
Lemma local_address_exact_witness :
  is_local_address (Some [None; Some (Inet [127; 0; 0; 1])]) (V6 [0; 0; 0; 0; 0; 65535; 32512; 1]) = true.
Proof.
  refine (proj2 (proj1 (local_address_exact (Some [None; Some (Inet [127; 0; 0; 1])]) (V6 [0; 0; 0; 0; 0; 65535; 32512; 1]) _ _)) _).
  - split; [reflexivity|repeat constructor; vm_compute; congruence].
  - repeat constructor.
  - right. exists [None; Some (Inet [127; 0; 0; 1])], (Inet [127; 0; 0; 1]).
    split; [reflexivity|]. split; [apply list_elem_of_further, list_elem_of_here|vm_compute; reflexivity].
Defined.
Lemma open_file_limit_rises_witness : raise_open_file_limit (256, U64_MAX) true true = (2048, U64_MAX).
Proof.
  pose proof (open_file_limit_rises 256 U64_MAX true true ltac:(unfold U64_MAX; lia)) as H. vm_compute. reflexivity.
Defined.
