(* ===== verification/Lookup.v ===== *)
(** * Host name lookups for the proxy ([dns/src/lookup.rs])

    The cache of addresses, what a lookup keeps of its two answers, and the registry that lets
    callers of one name share a lookup. The queries themselves go through the DNS over HTTPS
    client: what they found is an argument. [LookupTrace] runs callers at once. *)
From S2P Require Import Prelude RustStr Collections Net LocalName DnsCache.

Definition LOOKUP_CACHE_CAPACITY : nat := 256.
Definition MAX_LOOKUP_TTL : Z := 300.

(** ** Records *)

Inductive RecordType := RecordA | RecordAAAA.
(** What the core reads of an answer record. *)
Inductive RData := RDataA (ip : list Z) | RDataAAAA (ip : list Z) | RDataOther.
Record AddressRecord := {
  rec_data : RData;
  rec_ttl : Z
}.

(** The loop over the answers of [query]: the addresses of the type asked for and their
    smallest TTL, from [u32::MAX] down. *)
Fixpoint collect_addresses (rtype : RecordType) (answers : list AddressRecord) (addresses : list IpAddr) (ttl : Z)
    : list IpAddr * Z :=
  match answers with
  | [] => (addresses, ttl)
  | record :: rest =>
      match rec_data record, rtype with
      | RDataA ip, RecordA => collect_addresses rtype rest (addresses ++ [V4 ip]) (Z.min ttl (rec_ttl record))
      | RDataAAAA ip, RecordAAAA => collect_addresses rtype rest (addresses ++ [V6 ip]) (Z.min ttl (rec_ttl record))
      | _, _ => collect_addresses rtype rest addresses ttl
      end
  end.
(** [query] after the answer was decoded; [None] where it failed before. *)
Definition query_result (rtype : RecordType) (answer : option (bool * list AddressRecord)) : option (list IpAddr * Z) :=
  match answer with
  | None => None
  | Some (noerror, answers) => if negb noerror then Some ([], 0) else Some (collect_addresses rtype answers [] U32_MAX)
  end.

(** ** Keeping what was found *)

Record LookupEntry := {
  le_addresses : list IpAddr;
  le_expires : Z
}.

Definition push_new (addresses found : list IpAddr) : list IpAddr :=
  foldl (λ addresses ip, if bool_decide (ip ∈ addresses) then addresses else addresses ++ [ip]) addresses found.
(** The loop over both answers in [look_up]. *)
Definition merge_answers (v4 v6 : option (list IpAddr * Z)) : list IpAddr * option Z :=
  foldl (λ '(addresses, ttl) answer,
    match answer with
    | None => (addresses, ttl)
    | Some (found, found_ttl) =>
        (push_new addresses found, Some (match ttl with None => found_ttl | Some t => Z.min t found_ttl end))
    end) ([], None) [v4; v6].

Section Lookup.
Context `{Lru}.
#[local] Set Default Proof Using "Type".

Definition lookup_cache : Type := LruCache LookupEntry.

(** [look_up] from the two results on; [now] was read before the queries were sent. *)
Definition look_up (cache : lookup_cache) (host : bytes) (now : Z) (v4 v6 : option (list IpAddr * Z))
    : list IpAddr * lookup_cache :=
  let '(addresses, ttl) := merge_answers v4 v6 in
  match addresses with
  | [] => (addresses, cache)
  | _ =>
      let lifetime := clamp (default 0 ttl) MIN_CACHE_TTL MAX_LOOKUP_TTL in
      (addresses, lru_put host {| le_addresses := addresses; le_expires := wrap64 (now + lifetime) |} cache)
  end.

Definition cached (cache : lookup_cache) (host : bytes) (now : Z) : option (list IpAddr) * lookup_cache :=
  let '(entry, cache) := lru_get host cache in
  match entry with
  | Some entry =>
      if now <? le_expires entry then (Some (le_addresses entry), cache) else (None, lru_pop host cache)
  | None => (None, cache)
  end.
End Lookup.

(** ** Lookups in progress *)

(** The receiver of a channel: which one of the channels made so far. *)
Abbreviation Pending := nat.
Record Lookups := {
  last_id : Z;
  by_host : gmap bytes (Z * Pending)
}.
Definition Lookups_default : Lookups := {| last_id := 0; by_host := ∅ |}.
Definition Lookups_get (self : Lookups) (host : bytes) : option (Z * Pending) := by_host self !! host.
Definition Lookups_remove (self : Lookups) (host : bytes) : Lookups :=
  {| last_id := last_id self; by_host := delete host (by_host self) |}.
Definition Lookups_insert (self : Lookups) (host : bytes) (receiver : Pending) : Z * Lookups :=
  let id := wrap64 (last_id self + 1) in
  (id, {| last_id := id; by_host := <[host := (id, receiver)]> (by_host self) |}).

(** The drop of [InProgress]. *)
Definition InProgress_drop (self : Lookups) (host : bytes) (id : Z) : Lookups :=
  match Lookups_get self host with
  | Some (id', _) => if id' =? id then Lookups_remove self host else self
  | None => self
  end.

(** What [resolve] does with a name before it looks anything up. *)
Inductive Plan :=
| Literal (ip : IpAddr)
| NotHere
| LookUp (host : bytes).
Definition plan (host : bytes) : Plan :=
  let host := to_ascii_lowercase (strip_suffix_or [DOT] host) in
  match IpAddr_parse host with
  | Some ip => Literal ip
  | None => if is_local_name host then NotHere else LookUp host
  end.

(** One turn of the loop of [resolve] after a cache miss: join the lookup in progress or begin
    one with the new channel [receiver]. *)
Definition join_or_begin (self : Lookups) (host : bytes) (receiver : Pending) : (Pending + Z) * Lookups :=
  match Lookups_get self host with
  | Some (_, joined) => (inl joined, self)
  | None => let '(id, self) := Lookups_insert self host receiver in (inr id, self)
  end.

(** * Lemmas *)

(** ** What a lookup finds *)

Lemma push_new_elem addresses found ip : ip ∈ push_new addresses found ↔ ip ∈ addresses ∨ ip ∈ found.
Proof.
  revert addresses. induction found as [|x found IH]; intros addresses; simpl; [set_solver|].
  rewrite IH. case_bool_decide; set_solver.
Qed.

Lemma push_new_NoDup addresses found : NoDup addresses → NoDup (push_new addresses found).
Proof.
  revert addresses. induction found as [|x found IH]; intros addresses Hn; simpl; [done|]. apply IH.
  case_bool_decide; [done|]. apply NoDup_app. split_and!; [done|set_solver|]. apply NoDup_singleton.
Qed.

Lemma push_new_prefix addresses found : ∃ rest, push_new addresses found = addresses ++ rest ∧
  ∀ ip, ip ∈ rest → ip ∈ found.
Proof.
  revert addresses. induction found as [|x found IH]; intros addresses; simpl.
  { exists []. split; [by rewrite app_nil_r|set_solver]. }
  case_bool_decide.
  - destruct (IH addresses) as (rest & -> & Hr). exists rest. split; [done|set_solver].
  - destruct (IH (addresses ++ [x])) as (rest & -> & Hr). exists (x :: rest). rewrite <-app_assoc. split; [done|set_solver].
Qed.

(** What the loop over both answers gives: every address once, and a TTL no larger than either. *)
Lemma merge_answers_spec v4 v6 : ∃ addresses ttl, merge_answers v4 v6 = (addresses, ttl) ∧ NoDup addresses ∧
  (∀ ip, ip ∈ addresses ↔ (∃ found ttl, v4 = Some (found, ttl) ∧ ip ∈ found) ∨
                          (∃ found ttl, v6 = Some (found, ttl) ∧ ip ∈ found)) ∧
  (∀ found t, v4 = Some (found, t) ∨ v6 = Some (found, t) → default 0 ttl <= t).
Proof.
  unfold merge_answers. destruct v4 as [[f4 t4]|], v6 as [[f6 t6]|]; simpl; do 2 eexists; (split; [done|]);
    (split; [repeat apply push_new_NoDup; constructor|]); (split; [intros ip; rewrite ?push_new_elem; set_solver|]);
    intros found t; simpl; naive_solver lia.
Qed.

Section LookupProps.
Context `{Lru}.

(** A lookup gives every address that either query found, each once and the IPv4 ones first,
    and only what was found is kept: for the smaller of the two TTLs, at least ten seconds and at
    most five minutes, after which the cache no longer gives it. *)
Theorem lookup_keeps_what_it_found cache host now v4 v6 later : (0 < lru_cap cache)%nat →
  0 <= now → now + MAX_LOOKUP_TTL <= U64_MAX →
  let '(addresses, cache') := look_up cache host now v4 v6 in
  NoDup addresses ∧
  (∀ ip, ip ∈ addresses ↔ (∃ found ttl, v4 = Some (found, ttl) ∧ ip ∈ found) ∨
                          (∃ found ttl, v6 = Some (found, ttl) ∧ ip ∈ found)) ∧
  (addresses = [] → cache' = cache) ∧
  (addresses ≠ [] → ∃ lifetime, MIN_CACHE_TTL <= lifetime <= MAX_LOOKUP_TTL ∧
     (∀ found ttl, v4 = Some (found, ttl) ∨ v6 = Some (found, ttl) → lifetime <= Z.max ttl MIN_CACHE_TTL) ∧
     (cached cache' host later).1 = if later <? now + lifetime then Some addresses else None).
Proof.
  intros Hcap Hnow Hmax. unfold look_up.
  destruct (merge_answers_spec v4 v6) as (addresses & ttl & -> & Hn & Hel & Ht).
  destruct addresses as [|a l]; [by split_and!|]. split_and!; [done|done|done|]. intros _.
  set (lifetime := clamp (default 0 ttl) MIN_CACHE_TTL MAX_LOOKUP_TTL). exists lifetime.
  assert (MIN_CACHE_TTL <= lifetime <= MAX_LOOKUP_TTL) as Hl
    by (unfold lifetime, clamp, MIN_CACHE_TTL, MAX_LOOKUP_TTL; lia).
  split; [done|]. split.
  - intros found t Hf. apply Ht in Hf. unfold lifetime, clamp. lia.
  - unfold cached. pose proof (lru_get_peek host (lru_put host
      {| le_addresses := a :: l; le_expires := wrap64 (now + lifetime) |} cache)) as Hg.
    rewrite lru_put_same in Hg by done. destruct (lru_get _ _) as [o c]. simpl in Hg. subst o. simpl.
    unfold wrap64. rewrite Z.mod_small by (unfold U64_MAX, MIN_CACHE_TTL in *; lia). by case_match.
Qed.
End LookupProps.

Definition two_addresses : list IpAddr := [V4 [192; 0; 2; 1]; V4 [192; 0; 2; 2]].

Lemma lookup_keeps_what_it_found_witness :
  NoDup (look_up (lru_new 4) (lit "a.example") 100 (Some (two_addresses, 3)) None).1.
Proof.
  exact (proj1 (@lookup_keeps_what_it_found list_lru (lru_new 4) (lit "a.example") 100 (Some (two_addresses, 3)) None 105
    ltac:(apply (Nat.lt_0_succ 3)) ltac:(lia) ltac:(vm_compute; discriminate))).
Defined.
