(* ===== verification/LookupTrace.v ===== *)
(** * Host name lookups at once ([HostResolver] of [dns/src/lookup.rs])

    [resolve] as the steps its callers take between one shared access and the next: the cache,
    the registry of lookups in progress, the semaphore of turns and the watch channels over
    which the caller that looks a name up tells the ones that wait for it. A caller is polled
    when it can go on; one that awaits may be given up, by the time limit of [lookup] or with
    its connection, and drops what it holds in the order of the source: the turn, the entry in
    the registry, then the sender. *)
From S2P Require Import Prelude RustStr Collections Net LocalName DnsCache Resolver Lookup.

(** ** Watch channels *)

(** What a [watch] channel of a lookup holds; closed once its sender is gone. *)
Record Channel := {
  ch_value : option (list IpAddr);
  ch_closed : bool
}.
Definition watch_channel : Channel := {| ch_value := None; ch_closed := false |}.
Definition send_replace (addresses : list IpAddr) (self : Channel) : Channel :=
  {| ch_value := Some addresses; ch_closed := ch_closed self |}.
Definition sender_drop (self : Channel) : Channel := {| ch_value := ch_value self; ch_closed := true |}.

(** [receiver.wait_for(Option::is_some)]: the value is looked at before the sender. [None] while
    it waits. *)
Definition wait_for (self : Channel) : option (result (list IpAddr) unit) :=
  match ch_value self with
  | Some addresses => Some (Ok addresses)
  | None => if ch_closed self then Some (Err tt) else None
  end.

(** ** The resolver and its callers *)

Section HostResolver.
Context `{Lru}.
#[local] Set Default Proof Using "Type".

Record HostResolver := {
  hr_cache : lookup_cache;
  hr_turns : nat;
  hr_in_progress : Lookups
}.
Definition HostResolver_with_clock : HostResolver :=
  {| hr_cache := lru_new LOOKUP_CACHE_CAPACITY; hr_turns := LOOKUP_PERMITS / 2; hr_in_progress := Lookups_default |}.

(** How a call of [lookup] ended: with what [resolve] returned, at its time limit, or dropped by
    its caller. *)
Inductive LookupOutcome :=
| Answered (addresses : list IpAddr)
| TimedOut
| Dropped.
(** What [lookup] returns. *)
Definition lookup_returns (o : LookupOutcome) : option (list IpAddr) :=
  match o with
  | Answered addresses => Some addresses
  | TimedOut => Some []
  | Dropped => None
  end.

(** Where a caller of [resolve] is. [Begun] holds an [InProgress] and a sender and waits for a
    turn, [Querying] has one, [Found] is back from [look_up], [Sent] has told its receivers;
    [Closing] has dropped its [InProgress] and still holds the sender. *)
Inductive LookupCaller :=
| Asked (host : bytes)
| AtLoop (host : bytes)
| Missed (host : bytes)
| Waiting (host : bytes) (receiver : Pending)
| Begun (host : bytes) (id : Z) (sender : Pending)
| Querying (host : bytes) (id : Z) (sender : Pending) (now : Z)
| Found (host : bytes) (id : Z) (sender : Pending) (addresses : list IpAddr)
| Sent (host : bytes) (id : Z) (sender : Pending) (addresses : list IpAddr)
| Closing (sender : Pending) (o : LookupOutcome)
| Ended (o : LookupOutcome).

Record lookups_world := {
  lw_resolver : HostResolver;
  lw_channels : list Channel;
  lw_callers : list LookupCaller
}.
Definition lookups_start (hosts : list bytes) : lookups_world :=
  {| lw_resolver := HostResolver_with_clock; lw_channels := []; lw_callers := Asked <$> hosts |}.

Definition set_cache (cache : lookup_cache) (self : HostResolver) : HostResolver :=
  {| hr_cache := cache; hr_turns := hr_turns self; hr_in_progress := hr_in_progress self |}.
Definition set_turns (turns : nat) (self : HostResolver) : HostResolver :=
  {| hr_cache := hr_cache self; hr_turns := turns; hr_in_progress := hr_in_progress self |}.
Definition set_in_progress (lookups : Lookups) (self : HostResolver) : HostResolver :=
  {| hr_cache := hr_cache self; hr_turns := hr_turns self; hr_in_progress := lookups |}.

(** The next step of [resolve] for one caller: [now] is what the clock says if it is read, [v4]
    and [v6] what the two queries gave if they are awaited. [None] where the caller waits. *)
Definition caller_step (now : Z) (v4 v6 : option (list IpAddr * Z)) (self : HostResolver) (channels : list Channel)
    (c : LookupCaller) : option (LookupCaller * HostResolver * list Channel) :=
  match c with
  | Asked host =>
      Some (match plan host with
            | Literal ip => Ended (Answered [ip])
            | NotHere => Ended (Answered [])
            | LookUp host => AtLoop host
            end, self, channels)
  | AtLoop host =>
      let '(found, cache) := cached (hr_cache self) host now in
      Some (match found with Some addresses => Ended (Answered addresses) | None => Missed host end,
            set_cache cache self, channels)
  | Missed host =>
      match join_or_begin (hr_in_progress self) host (length channels) with
      | (inl receiver, _) => Some (Waiting host receiver, self, channels)
      | (inr id, lookups) =>
          Some (Begun host id (length channels), set_in_progress lookups self, channels ++ [watch_channel])
      end
  | Waiting host receiver =>
      channel ← channels !! receiver;
      result ← wait_for channel;
      Some (match result with Ok addresses => Ended (Answered addresses) | Err _ => AtLoop host end, self, channels)
  | Begun host id sender =>
      match hr_turns self with
      | O => None
      | S turns => Some (Querying host id sender now, set_turns turns self, channels)
      end
  | Querying host id sender asked =>
      let '(addresses, cache) := look_up (hr_cache self) host asked v4 v6 in
      Some (Found host id sender addresses, set_turns (S (hr_turns self)) (set_cache cache self), channels)
  | Found host id sender addresses =>
      Some (Sent host id sender addresses, self, alter (send_replace addresses) sender channels)
  | Sent host id sender addresses =>
      Some (Closing sender (Answered addresses), set_in_progress (InProgress_drop (hr_in_progress self) host id) self,
            channels)
  | Closing sender o => Some (Ended o, self, alter sender_drop sender channels)
  | Ended _ => None
  end.

(** A caller given up where it awaits; nowhere else can it be dropped. *)
Definition abandon (o : LookupOutcome) (self : HostResolver) (c : LookupCaller) : option (LookupCaller * HostResolver) :=
  match c with
  | Waiting _ _ => Some (Ended o, self)
  | Begun host id sender => Some (Closing sender o, set_in_progress (InProgress_drop (hr_in_progress self) host id) self)
  | Querying host id sender _ =>
      Some (Closing sender o,
        set_in_progress (InProgress_drop (hr_in_progress self) host id) (set_turns (S (hr_turns self)) self))
  | _ => None
  end.

Inductive lookup_event :=
| Poll (i : nat) (now : Z) (v4 v6 : option (list IpAddr * Z))
| Expire (i : nat)
| Leave (i : nat).

Definition run_lookup (e : lookup_event) (w : lookups_world) : option lookups_world :=
  match e with
  | Poll i now v4 v6 =>
      c ← lw_callers w !! i;
      '(c', self, channels) ← caller_step now v4 v6 (lw_resolver w) (lw_channels w) c;
      Some {| lw_resolver := self; lw_channels := channels; lw_callers := <[i := c']> (lw_callers w) |}
  | Expire i =>
      c ← lw_callers w !! i;
      '(c', self) ← abandon TimedOut (lw_resolver w) c;
      Some {| lw_resolver := self; lw_channels := lw_channels w; lw_callers := <[i := c']> (lw_callers w) |}
  | Leave i =>
      c ← lw_callers w !! i;
      '(c', self) ← abandon Dropped (lw_resolver w) c;
      Some {| lw_resolver := self; lw_channels := lw_channels w; lw_callers := <[i := c']> (lw_callers w) |}
  end.

Fixpoint run_lookups (events : list lookup_event) (w : lookups_world) : option lookups_world :=
  match events with
  | [] => Some w
  | e :: events => w' ← run_lookup e w; run_lookups events w'
  end.

(** * Lemmas *)

(** ** What a caller holds *)

(** The lookup a caller runs: its name, its id and its channel. *)
Definition leads (c : LookupCaller) : option (bytes * (Z * Pending)) :=
  match c with
  | Begun host id sender | Querying host id sender _ | Found host id sender _ | Sent host id sender _ =>
      Some (host, (id, sender))
  | _ => None
  end.
Definition holds_sender (c : LookupCaller) : option Pending :=
  match c with
  | Closing sender _ => Some sender
  | _ => (λ l, l.2.2) <$> leads c
  end.
Definition in_turn (c : LookupCaller) : bool := match c with Querying _ _ _ _ => true | _ => false end.
Definition in_turns (callers : list LookupCaller) : nat := length (filter (λ c, Is_true (in_turn c)) callers).

Definition waits (c : LookupCaller) : option (bytes * Pending) :=
  match c with Waiting host receiver => Some (host, receiver) | _ => None end.
Abbreviation held callers i := (callers !! i ≫= holds_sender).
Abbreviation led callers i := (callers !! i ≫= leads).
Abbreviation waiting callers i := (callers !! i ≫= waits).

Lemma led_held (callers : list LookupCaller) i host id ch : led callers i = Some (host, (id, ch)) → held callers i = Some ch.
Proof. destruct (callers !! i) as [[]|]; simpl; naive_solver. Qed.

(** A step of the caller [i] leaves the other callers alone. *)
Lemma bind_insert {A} (f : LookupCaller → option A) (callers : list LookupCaller) i j c c' : callers !! i = Some c →
  (<[i := c']> callers !! j ≫= f) = if decide (j = i) then f c' else callers !! j ≫= f.
Proof.
  intros Hi. destruct (decide (j = i)) as [->|Hne].
  - by rewrite list_lookup_insert_eq by (by eapply lookup_lt_Some).
  - by rewrite list_lookup_insert_ne.
Qed.

Lemma in_turns_insert callers i c c' : callers !! i = Some c →
  (in_turns (<[i := c']> callers) + Nat.b2n (in_turn c) = in_turns callers + Nat.b2n (in_turn c'))%nat.
Proof.
  intros Hi. rewrite (insert_take_drop callers i c') by (by eapply lookup_lt_Some).
  rewrite <-(take_drop_middle callers i c Hi) at 3. unfold in_turns. rewrite !filter_app, !length_app.
  rewrite !filter_cons. destruct (in_turn c), (in_turn c'); simpl; lia.
Qed.

(** ** The invariant

    [host_of] says which name each channel was made for. *)
Record lookups_inv (host_of : Pending → bytes) (w : lookups_world) : Prop := {
  li_turns : (hr_turns (lw_resolver w) + in_turns (lw_callers w) = LOOKUP_PERMITS / 2)%nat;
  (** One caller holds the sender of a channel, and only closed channels have none. *)
  li_sender i j ch : held (lw_callers w) i = Some ch → held (lw_callers w) j = Some ch → i = j;
  li_open i ch : held (lw_callers w) i = Some ch → ch_closed <$> lw_channels w !! ch = Some false;
  li_held ch : ch_closed <$> lw_channels w !! ch = Some false → ∃ i, held (lw_callers w) i = Some ch;
  (** The registry holds exactly the lookups that run. *)
  li_registered i host lookup : led (lw_callers w) i = Some (host, lookup) →
    by_host (hr_in_progress (lw_resolver w)) !! host = Some lookup;
  li_running host lookup : by_host (hr_in_progress (lw_resolver w)) !! host = Some lookup →
    ∃ i, led (lw_callers w) i = Some (host, lookup);
  (** Channels are waited on and led under the name they were made for. *)
  li_waiting i host ch : waiting (lw_callers w) i = Some (host, ch) →
    (ch < length (lw_channels w))%nat ∧ host_of ch = host;
  li_leading i host id ch : led (lw_callers w) i = Some (host, (id, ch)) → host_of ch = host
}.

#[local] Ltac world_simpl :=
  cbn [lw_resolver lw_channels lw_callers hr_turns hr_in_progress set_in_progress set_turns set_cache by_host].

Definition made_for (host_of : Pending → bytes) (ch : Pending) (host : bytes) : Pending → bytes :=
  λ ch', if decide (ch' = ch) then host else host_of ch'.

Section Steps.
Context (host_of : Pending → bytes) (w : lookups_world) (i : nat) (c : LookupCaller).
Context (Hinv : lookups_inv host_of w) (Hc : lw_callers w !! i = Some c).
#[local] Set Default Proof Using "All".

Lemma caller_bind {A} (f : LookupCaller → option A) : lw_callers w !! i ≫= f = f c.
Proof. by rewrite Hc. Qed.

(** A step that holds on to the same sender and lookup, or holds neither. *)
Lemma inv_keep (c' : LookupCaller) self channels :
  holds_sender c' = holds_sender c → leads c' = leads c →
  hr_in_progress self = hr_in_progress (lw_resolver w) →
  (hr_turns self + Nat.b2n (in_turn c') = hr_turns (lw_resolver w) + Nat.b2n (in_turn c))%nat →
  length channels = length (lw_channels w) →
  (∀ ch, ch_closed <$> channels !! ch = ch_closed <$> lw_channels w !! ch) →
  (∀ host ch, waits c' = Some (host, ch) → (ch < length (lw_channels w))%nat ∧ host_of ch = host) →
  lookups_inv host_of {| lw_resolver := self; lw_channels := channels; lw_callers := <[i := c']> (lw_callers w) |}.
Proof.
  intros Hs Hl Hr Ht Hlen Hch Hw. pose proof (in_turns_insert _ _ _ c' Hc) as Hturns.
  assert (∀ j, held (<[i := c']> (lw_callers w)) j = held (lw_callers w) j) as Hheld.
  { intros j. rewrite (bind_insert _ _ _ _ c) by done. case_decide; [subst; by rewrite caller_bind|done]. }
  assert (∀ j, led (<[i := c']> (lw_callers w)) j = led (lw_callers w) j) as Hled.
  { intros j. rewrite (bind_insert _ _ _ _ c) by done. case_decide; [subst; by rewrite caller_bind|done]. }
  destruct Hinv. split; world_simpl; intros *; rewrite ?Hheld, ?Hled, ?Hch, ?Hr, ?Hlen; eauto.
  - lia.
  - intros Hcl. destruct (li_held0 ch Hcl) as [j Hj]. exists j. by rewrite Hheld.
  - intros Hcl. destruct (li_running0 _ _ Hcl) as [j Hj]. exists j. by rewrite Hled.
  - rewrite (bind_insert _ _ _ _ c) by done. case_decide; eauto.
Qed.

(** A new lookup: its channel is new and its name was not in the registry. *)
Lemma inv_begin host id :
  holds_sender c = None → in_turn c = false →
  by_host (hr_in_progress (lw_resolver w)) !! host = None →
  let ch := length (lw_channels w) in
  lookups_inv (made_for host_of ch host)
    {| lw_resolver := set_in_progress {| last_id := id;
         by_host := <[host := (id, ch)]> (by_host (hr_in_progress (lw_resolver w))) |} (lw_resolver w);
       lw_channels := lw_channels w ++ [watch_channel];
       lw_callers := <[i := Begun host id ch]> (lw_callers w) |}.
Proof.
  intros Hs Ht Hr ch. pose proof (in_turns_insert _ _ _ (Begun host id ch) Hc) as Hturns. rewrite Ht in Hturns.
  assert (∀ j ch', held (lw_callers w) j = Some ch' → (ch' < ch)%nat) as Hlt.
  { intros j ch' Hj%(li_open _ _ Hinv). apply fmap_Some in Hj as (? & Hj & _). by apply lookup_lt_Some in Hj. }
  pose proof (caller_bind leads) as Hlc. assert (leads c = None) as Hln by (by destruct c).
  destruct Hinv. split; world_simpl; intros *; rewrite ?(bind_insert _ _ _ _ c) by done.
  - simpl in Hturns. lia.
  - intros Hj Hk. repeat case_decide; subst; simpl in *; simplify_eq; [done| | |eauto];
      match goal with Hx : held _ _ = Some _ |- _ => apply Hlt in Hx; lia end.
  - case_decide; simpl; intros Hj; simplify_eq.
    + rewrite lookup_app_r, Nat.sub_diag by done. done.
    + rewrite lookup_app_l by (by eapply Hlt). eauto.
  - destruct (decide (ch0 = ch)) as [->|Hne].
    + intros _. exists i. rewrite (bind_insert _ _ _ _ c) by done. by rewrite decide_True.
    + destruct (decide (ch0 < ch)%nat).
      * rewrite lookup_app_l by done. intros [j Hj]%li_held0. exists j. rewrite (bind_insert _ _ _ _ c) by done.
        case_decide; [subst; rewrite caller_bind in Hj; congruence|done].
      * rewrite lookup_ge_None_2 by (rewrite length_app; simpl; lia). done.
  - case_decide; simpl; intros Hj; simplify_eq; [by rewrite lookup_insert_eq|].
    assert (host0 ≠ host) by (intros ->; apply li_registered0 in Hj; congruence).
    rewrite lookup_insert_ne by done. eauto.
  - rewrite lookup_insert_Some. intros [[<- <-]|[Hne [j Hj]%li_running0]].
    + exists i. rewrite (bind_insert _ _ _ _ c) by done. by rewrite decide_True.
    + exists j. rewrite (bind_insert _ _ _ _ c) by done. case_decide; [subst; congruence|done].
  - rewrite length_app. simpl. case_decide; simpl; [done|]. intros Hj. destruct (li_waiting0 _ _ _ Hj) as [Hl Hh].
    split; [lia|]. unfold made_for. by rewrite decide_False by (unfold ch; lia).
  - case_decide; simpl; intros Hj; simplify_eq; [by unfold made_for; rewrite decide_True|].
    unfold made_for. rewrite decide_False; [eauto|]. apply led_held, Hlt in Hj. lia.
Qed.

(** The end of a lookup drops its own entry, so the registry keeps the others. *)
Lemma drop_own host id ch : leads c = Some (host, (id, ch)) →
  by_host (InProgress_drop (hr_in_progress (lw_resolver w)) host id) = delete host (by_host (hr_in_progress (lw_resolver w))).
Proof.
  intros Hl. unfold InProgress_drop, Lookups_get.
  rewrite (li_registered _ _ Hinv i host (id, ch)) by (by rewrite caller_bind). by rewrite Z.eqb_refl.
Qed.

Lemma inv_close host id ch o self : leads c = Some (host, (id, ch)) →
  hr_in_progress self = InProgress_drop (hr_in_progress (lw_resolver w)) host id →
  hr_turns self = (hr_turns (lw_resolver w) + Nat.b2n (in_turn c))%nat →
  lookups_inv host_of {| lw_resolver := self; lw_channels := lw_channels w;
                         lw_callers := <[i := Closing ch o]> (lw_callers w) |}.
Proof.
  intros Hl Hr Ht. pose proof (in_turns_insert _ _ _ (Closing ch o) Hc) as Hturns. simpl in Hturns.
  pose proof (drop_own _ _ _ Hl) as Hdrop.
  assert (held (lw_callers w) i = Some ch) as Hch by (apply (led_held _ _ host id); by rewrite caller_bind).
  assert (∀ j, held (<[i := Closing ch o]> (lw_callers w)) j = held (lw_callers w) j) as Hheld.
  { intros j. rewrite (bind_insert _ _ _ _ c) by done. by case_decide; subst. }
  destruct Hinv. split; world_simpl; intros *; rewrite ?Hheld, ?Hr, ?Hdrop; eauto.
  - lia.
  - intros [j Hj]%li_held0. exists j. by rewrite Hheld.
  - rewrite (bind_insert _ _ _ _ c) by done. case_decide as Hne; simpl; [done|]. intros Hj.
    pose proof (li_registered0 _ _ _ Hj) as Hreg. rewrite lookup_delete_ne; [done|]. intros <-.
    rewrite (li_registered0 i host (id, ch)) in Hreg by (by rewrite caller_bind). injection Hreg as <-.
    apply Hne. eapply li_sender0; [by eapply led_held|done].
  - intros [Hne [j Hj]%li_running0]%lookup_delete_Some. exists j. rewrite (bind_insert _ _ _ _ c) by done.
    case_decide; [|done]. subst j. rewrite caller_bind in Hj. congruence.
  - rewrite (bind_insert _ _ _ _ c) by done. case_decide; [done|eauto].
  - rewrite (bind_insert _ _ _ _ c) by done. case_decide; [done|eauto].
Qed.

Lemma inv_ending ch o : c = Closing ch o →
  lookups_inv host_of {| lw_resolver := lw_resolver w; lw_channels := alter sender_drop ch (lw_channels w);
                         lw_callers := <[i := Ended o]> (lw_callers w) |}.
Proof.
  intros Ec. pose proof (in_turns_insert _ _ _ (Ended o) Hc) as Hturns.
  pose proof (caller_bind holds_sender) as Hch. pose proof (caller_bind leads) as Hled.
  rewrite Ec in Hturns, Hch, Hled. simpl in Hturns, Hch, Hled.
  destruct Hinv. split; world_simpl; intros *; rewrite ?length_alter, ?(bind_insert _ _ _ _ c) by done.
  - lia.
  - intros Hj Hk. repeat case_decide; subst; simpl in *; simplify_eq; eauto.
  - case_decide as Hne; simpl; [done|]. intros Hj. rewrite list_lookup_alter_ne; [eauto|].
    intros <-. apply Hne. eauto.
  - destruct (decide (ch0 = ch)) as [->|Hne].
    + rewrite list_lookup_alter_eq. by intros (x & (y & _ & ->)%fmap_Some & Hx)%fmap_Some.
    + rewrite list_lookup_alter_ne by done. intros [j Hj]%li_held0. exists j. rewrite (bind_insert _ _ _ _ c) by done.
      case_decide; [subst; congruence|done].
  - case_decide; [done|eauto].
  - intros [j Hj]%li_running0. exists j. rewrite (bind_insert _ _ _ _ c) by done. case_decide; [subst; congruence|done].
  - case_decide; [done|eauto].
  - case_decide; [done|eauto].
Qed.
End Steps.

(** Every step keeps the invariant; a channel that is there keeps its name. *)
Lemma poll_inv host_of w i c now v4 v6 c' self channels : lookups_inv host_of w → lw_callers w !! i = Some c →
  caller_step now v4 v6 (lw_resolver w) (lw_channels w) c = Some (c', self, channels) →
  ∃ host_of', (∀ ch, (ch < length (lw_channels w))%nat → host_of' ch = host_of ch) ∧
    lookups_inv host_of' {| lw_resolver := self; lw_channels := channels; lw_callers := <[i := c']> (lw_callers w) |}.
Proof.
  intros Hinv Hc. destruct c as [host|host|host|host ch|host id ch|host id ch asked|host id ch found|host id ch found|ch o|o]; simpl.
  - intros [= <- <- <-]. exists host_of. split; [done|]. apply (inv_keep _ _ _ _ Hinv Hc); try done; by destruct (plan host).
  - destruct (cached _ _ _) as [found cache]. intros [= <- <- <-]. exists host_of. split; [done|].
    apply (inv_keep _ _ _ _ Hinv Hc); try done; by destruct found.
  - unfold join_or_begin, Lookups_get. destruct (by_host _ !! host) as [[id ch]|] eqn:Hreg; intros [= <- <- <-].
    + exists host_of. split; [done|]. apply (inv_keep _ _ _ _ Hinv Hc); try done.
      destruct (li_running _ _ Hinv _ _ Hreg) as [j Hj]. intros ? ? [= <- <-]. split.
      * apply led_held, (li_open _ _ Hinv), fmap_Some in Hj as (? & Hj & _). by eapply lookup_lt_Some.
      * by eapply li_leading.
    + exists (made_for host_of (length (lw_channels w)) host). split.
      * intros ch Hlt. unfold made_for. rewrite decide_False; [done|lia].
      * by apply (inv_begin _ _ _ _ Hinv Hc).
  - destruct (lw_channels w !! ch) as [channel|]; simpl; [|done]. destruct (wait_for channel) as [r|]; simpl; [|done].
    intros [= <- <- <-]. exists host_of. split; [done|]. apply (inv_keep _ _ _ _ Hinv Hc); try done; by destruct r.
  - destruct (hr_turns (lw_resolver w)) as [|n] eqn:Hn; intros [= <- <- <-]. exists host_of. split; [done|].
    apply (inv_keep _ _ _ _ Hinv Hc); try done. simpl. lia.
  - destruct (look_up _ _ _ _ _) as [addresses cache]. intros [= <- <- <-]. exists host_of. split; [done|].
    apply (inv_keep _ _ _ _ Hinv Hc); try done. simpl. lia.
  - intros [= <- <- <-]. exists host_of. split; [done|]. apply (inv_keep _ _ _ _ Hinv Hc); try done.
    + by rewrite length_alter.
    + intros ch'. destruct (decide (ch' = ch)) as [->|]; [|by rewrite list_lookup_alter_ne].
      by rewrite list_lookup_alter_eq, <-option_fmap_compose.
  - intros [= <- <- <-]. exists host_of. split; [done|]. by eapply (inv_close _ _ _ _ Hinv Hc).
  - intros [= <- <- <-]. exists host_of. split; [done|]. by apply (inv_ending _ _ _ _ Hinv Hc).
  - done.
Qed.

Lemma abandon_inv host_of w i c o c' self : lookups_inv host_of w → lw_callers w !! i = Some c →
  abandon o (lw_resolver w) c = Some (c', self) →
  lookups_inv host_of {| lw_resolver := self; lw_channels := lw_channels w; lw_callers := <[i := c']> (lw_callers w) |}.
Proof.
  intros Hinv Hc. destruct c as [host|host|host|host ch|host id ch|host id ch asked|host id ch found|host id ch found|ch o'|o'];
    simpl; try done; intros [= <- <-].
  - by apply (inv_keep _ _ _ _ Hinv Hc).
  - eapply (inv_close _ _ _ _ Hinv Hc); [done|done|]. simpl. lia.
  - eapply (inv_close _ _ _ _ Hinv Hc); [done|done|]. simpl. lia.
Qed.

(** The step of one caller, polled or given up. *)
Lemma run_lookup_step e w w' : run_lookup e w = Some w' → ∃ i c c',
  lw_callers w !! i = Some c ∧ lw_callers w' = <[i := c']> (lw_callers w) ∧
  ((∃ now v4 v6, e = Poll i now v4 v6 ∧
      caller_step now v4 v6 (lw_resolver w) (lw_channels w) c = Some (c', lw_resolver w', lw_channels w')) ∨
   (∃ o, (o = TimedOut ∨ o = Dropped) ∧ lw_channels w' = lw_channels w ∧
      abandon o (lw_resolver w) c = Some (c', lw_resolver w'))).
Proof.
  destruct e as [i now v4 v6|i|i]; unfold run_lookup; intros (c & Hc & Hw)%bind_Some; exists i, c.
  - apply bind_Some in Hw as ([[c' self] channels] & Hs & [= <-]). exists c'. eauto 10.
  - apply bind_Some in Hw as ([c' self] & Hs & [= <-]). exists c'. eauto 10.
  - apply bind_Some in Hw as ([c' self] & Hs & [= <-]). exists c'. eauto 10.
Qed.

(** ** Runs

    [says host ip]: a query for [host] may give [ip]. *)
Definition event_says (says : bytes → IpAddr → Prop) (w : lookups_world) (e : lookup_event) : Prop :=
  match e with
  | Poll i _ v4 v6 => ∀ host id sender asked, lw_callers w !! i = Some (Querying host id sender asked) →
      ∀ found ttl, v4 = Some (found, ttl) ∨ v6 = Some (found, ttl) → Forall (says host) found
  | _ => True
  end.
Inductive lookups_step (says : bytes → IpAddr → Prop) (w w' : lookups_world) : Prop :=
| lookups_event e : event_says says w e → run_lookup e w = Some w' → lookups_step says w w'.
Definition lookups_reach (says : bytes → IpAddr → Prop) (hosts : list bytes) : lookups_world → Prop :=
  rtc (lookups_step says) (lookups_start hosts).

Lemma lookups_start_inv hosts : lookups_inv (λ _, []) (lookups_start hosts).
Proof.
  assert (∀ {A} (f : LookupCaller → option A), (∀ host, f (Asked host) = None) →
    ∀ i, (Asked <$> hosts) !! i ≫= f = None) as Hnone.
  { intros A f Hf i. rewrite list_lookup_fmap. destruct (hosts !! i); simpl; [apply Hf|done]. }
  unfold lookups_start. split; world_simpl; intros *; rewrite ?Hnone by done; try done.
  assert (in_turns (Asked <$> hosts) = 0%nat) as ->; [|done].
  clear Hnone. unfold in_turns. induction hosts as [|host hosts IH]; [done|]. rewrite fmap_cons, filter_cons. exact IH.
Qed.

Lemma lookups_step_inv says host_of w w' : lookups_inv host_of w → lookups_step says w w' →
  ∃ host_of', (∀ ch, (ch < length (lw_channels w))%nat → host_of' ch = host_of ch) ∧ lookups_inv host_of' w'.
Proof.
  intros Hinv [e _ (i & c & c' & Hc & Hcs & [(now & v4 & v6 & -> & Hs)|(o & _ & Hch & Hs)])%run_lookup_step];
    destruct w' as [self channels callers]; simpl in *; subst callers.
  - by eapply poll_inv.
  - subst channels. exists host_of. split; [done|]. by eapply abandon_inv.
Qed.

Lemma lookups_reach_inv says hosts w : lookups_reach says hosts w → ∃ host_of, lookups_inv host_of w.
Proof.
  revert w. apply (rtc_ind_r (λ w, ∃ host_of, lookups_inv host_of w)).
  - eexists. apply lookups_start_inv.
  - intros w w' _ Hs [host_of Hinv]. destruct (lookups_step_inv _ _ _ _ Hinv Hs) as (host_of' & _ & ?). eauto.
Qed.

(** ** Termination

    [rank] counts down along a caller's way; a caller that waits has more to do when the lookup
    it joined is no longer registered, because it may have to ask again. That is only so once
    some caller has got to its end, so [effort] counts those first. *)
Definition unfinished (c : LookupCaller) : nat := match c with Closing _ _ | Ended _ => 0 | _ => 1 end.
Definition rank (lookups : Lookups) (c : LookupCaller) : nat :=
  match c with
  | Asked _ => 10
  | AtLoop _ => 8
  | Missed _ => 7
  | Waiting host receiver =>
      match by_host lookups !! host with
      | Some (_, ch) => if decide (ch = receiver) then 6 else 9
      | None => 9
      end
  | Begun _ _ _ => 5
  | Querying _ _ _ _ => 4
  | Found _ _ _ _ => 3
  | Sent _ _ _ _ => 2
  | Closing _ _ => 1
  | Ended _ => 0
  end.
Definition effort (w : lookups_world) : nat :=
  let n := length (lw_callers w) in
  sum_list_with unfinished (lw_callers w) * S (10 * n) +
  sum_list_with (rank (hr_in_progress (lw_resolver w))) (lw_callers w).

Lemma rank_le lookups callers : (sum_list_with (rank lookups) callers ≤ 10 * length callers)%nat.
Proof.
  induction callers as [|c callers IH]; simpl; [done|].
  assert (rank lookups c ≤ 10)%nat; [|lia]. destruct c; simpl; repeat case_match; lia.
Qed.

(** A step with which a caller gets to its end. *)
Lemma effort_finish w w' i c c' : lw_callers w !! i = Some c → lw_callers w' = <[i := c']> (lw_callers w) →
  unfinished c = 1%nat → unfinished c' = 0%nat → (effort w' < effort w)%nat.
Proof.
  intros Hc Hcs Hu Hu'. unfold effort. rewrite Hcs, length_insert.
  pose proof (sum_insert unfinished _ _ _ c' Hc) as Hsum. pose proof (rank_le (hr_in_progress (lw_resolver w')) (<[i := c']> (lw_callers w))) as Hr.
  rewrite length_insert in Hr. rewrite Hu, Hu' in Hsum. nia.
Qed.

(** A step after which the others have no more to do than before, and the caller less. *)
Lemma effort_rank w w' i c c' : lw_callers w !! i = Some c → lw_callers w' = <[i := c']> (lw_callers w) →
  unfinished c' = unfinished c →
  (rank (hr_in_progress (lw_resolver w')) c' < rank (hr_in_progress (lw_resolver w)) c)%nat →
  (∀ d, d ∈ lw_callers w → rank (hr_in_progress (lw_resolver w')) d ≤ rank (hr_in_progress (lw_resolver w)) d)%nat →
  (effort w' < effort w)%nat.
Proof.
  intros Hc Hcs Hu Hlt Hle. unfold effort. rewrite Hcs, length_insert.
  pose proof (sum_insert unfinished _ _ _ c' Hc) as Hsum. rewrite Hu in Hsum.
  pose proof (sum_insert (rank (hr_in_progress (lw_resolver w'))) _ _ _ c' Hc) as Hsum'.
  set (f := rank (hr_in_progress (lw_resolver w'))) in *. set (g := rank (hr_in_progress (lw_resolver w))) in *.
  assert (sum_list_with f (lw_callers w) + g c ≤ sum_list_with g (lw_callers w) + f c)%nat; [|nia].
  revert Hle. rewrite <-(take_drop_middle _ _ _ Hc). intros Hle.
  assert (∀ l, (∀ d, d ∈ l → f d ≤ g d)%nat → (sum_list_with f l ≤ sum_list_with g l)%nat) as Hsub.
  { clear. intros l. induction l as [|d l IH]; simpl; intros Hle; [done|].
    pose proof (Hle d ltac:(left)). assert (sum_list_with f l ≤ sum_list_with g l)%nat; [|lia].
    apply IH. intros e He. apply Hle. by right. }
  rewrite !sum_list_with_app. simpl.
  pose proof (Hsub (take i (lw_callers w)) ltac:(intros d Hd; apply Hle; set_solver)).
  pose proof (Hsub (drop (S i) (lw_callers w)) ltac:(intros d Hd; apply Hle; set_solver)). lia.
Qed.

(** A caller whose channel is closed without a result no longer finds its lookup registered. *)
Lemma closed_unregistered host_of w host ch channel id : lookups_inv host_of w →
  lw_channels w !! ch = Some channel → ch_closed channel = true →
  by_host (hr_in_progress (lw_resolver w)) !! host ≠ Some (id, ch).
Proof.
  intros Hinv Hch Hcl [i Hi%led_held%(li_open _ _ Hinv)]%(li_running _ _ Hinv).
  apply fmap_Some in Hi as (channel' & Hch' & Hf). simplify_eq. congruence.
Qed.

Section PollEffort.
Context (host_of : Pending → bytes) (w : lookups_world) (c c' : LookupCaller) (now : Z) (v4 v6 : option (list IpAddr * Z)).
Context (self : HostResolver) (channels : list Channel).
Context (Hs : caller_step now v4 v6 (lw_resolver w) (lw_channels w) c = Some (c', self, channels)).
Context (Hu : unfinished c' = unfinished c).
#[local] Set Default Proof Using "All".

Lemma poll_own_rank : lookups_inv host_of w →
  (rank (hr_in_progress self) c' < rank (hr_in_progress (lw_resolver w)) c)%nat.
Proof.
  intros Hinv. revert Hs Hu. destruct c as [host|host|host|host ch|host id ch|host id ch asked|host id ch found|host id ch found|ch o|o]; simpl.
  - intros [= <- <- _] _. destruct (plan host); simpl; lia.
  - destruct (cached _ _ _) as [[]]; intros [= <- <- _] _; simpl; lia.
  - unfold join_or_begin, Lookups_get. destruct (by_host _ !! host) as [[id ch]|] eqn:Hreg; intros [= <- <- _] _; simpl.
    + rewrite Hreg, decide_True by done. lia.
    + lia.
  - destruct (lw_channels w !! ch) as [channel|] eqn:Hch; simpl; [|done]. unfold wait_for.
    destruct (ch_value channel); [by intros [= <- _ _] [=]|]. destruct (ch_closed channel) eqn:Hcl; intros [= <- <- _] _. simpl.
    destruct (by_host _ !! host) as [[id ch']|] eqn:Hx; [|lia]. case_decide; [|lia]. subst ch'.
    by destruct (closed_unregistered _ _ _ _ _ _ Hinv Hch Hcl Hx).
  - destruct (hr_turns _); intros [= <- <- _] _; simpl; lia.
  - destruct (look_up _ _ _ _ _); intros [= <- <- _] _; simpl; lia.
  - intros [= <- <- _] _. simpl. lia.
  - by intros [= <- _ _] [=].
  - intros [= <- <- _] _. simpl. lia.
  - done.
Qed.

Lemma poll_other_rank d : (rank (hr_in_progress self) d ≤ rank (hr_in_progress (lw_resolver w)) d)%nat.
Proof.
  revert Hs Hu. destruct c as [host|host|host|host ch|host id ch|host id ch asked|host id ch found|host id ch found|ch o|o]; simpl.
  - by intros [= _ <- _] _.
  - destruct (cached _ _ _) as [[]]; by intros [= _ <- _] _.
  - unfold join_or_begin, Lookups_get. destruct (by_host _ !! host) as [[id ch]|] eqn:Hreg; intros [= _ <- _] _; [done|].
    simpl. destruct d as [| | |host' ch'| | | | | |]; simpl; try lia.
    destruct (decide (host' = host)) as [->|]; [rewrite Hreg|by rewrite lookup_insert_ne]. repeat case_match; lia.
  - destruct (lw_channels w !! ch) as [channel|]; simpl; [|done]. destruct (wait_for channel); simpl; [|done].
    by intros [= _ <- _] _.
  - destruct (hr_turns _); by intros [= _ <- _] _.
  - destruct (look_up _ _ _ _ _); by intros [= _ <- _] _.
  - by intros [= _ <- _] _.
  - by intros [= <- _ _] [=].
  - by intros [= _ <- _] _.
  - done.
Qed.
End PollEffort.

Lemma poll_effort host_of w w' i c now v4 v6 c' : lookups_inv host_of w → lw_callers w !! i = Some c →
  lw_callers w' = <[i := c']> (lw_callers w) →
  caller_step now v4 v6 (lw_resolver w) (lw_channels w) c = Some (c', lw_resolver w', lw_channels w') →
  (effort w' < effort w)%nat.
Proof.
  intros Hinv Hc Hcs Hs.
  destruct (decide (unfinished c' = 0%nat ∧ unfinished c = 1%nat)) as [[??]|Hlive]; [by eapply effort_finish|].
  assert (unfinished c' = unfinished c) as Hu.
  { assert (unfinished c' ≤ 1)%nat by (destruct c'; simpl; lia).
    destruct c; simpl in Hlive |- *; try lia; by simplify_eq/=. }
  apply (effort_rank _ _ _ _ _ Hc Hcs Hu); [by eapply poll_own_rank|]. intros d _. by eapply poll_other_rank.
Qed.

Lemma step_effort says host_of w w' : lookups_inv host_of w → lookups_step says w w' → (effort w' < effort w)%nat.
Proof.
  intros Hinv [e _ (i & c & c' & Hc & Hcs & [(now & v4 & v6 & -> & Hs)|(o & _ & Hch & Hs)])%run_lookup_step].
  - by eapply poll_effort.
  - apply (effort_finish _ _ _ _ _ Hc Hcs); destruct c; simpl in Hs; simplify_eq; done.
Qed.

(** ** Progress *)

Definition has_ended (c : LookupCaller) : bool := match c with Ended _ => true | _ => false end.

(** Who neither waits nor has ended can go on; so can who waits for a turn while one is free, and
    who waits on a channel that no caller holds. *)
Lemma can_poll host_of w i c now v4 v6 : lookups_inv host_of w → lw_callers w !! i = Some c → has_ended c = false →
  (∀ host id ch, c = Begun host id ch → hr_turns (lw_resolver w) ≠ 0%nat) →
  (∀ host ch, c = Waiting host ch → ∀ j, held (lw_callers w) j ≠ Some ch) →
  is_Some (run_lookup (Poll i now v4 v6) w).
Proof.
  intros Hinv Hc He Hb Hw. unfold run_lookup. rewrite Hc. cbn [mbind option_bind].
  assert (is_Some (caller_step now v4 v6 (lw_resolver w) (lw_channels w) c)) as [[[c' self] channels] ->]; [|by eexists].
  destruct c as [host|host|host|host ch|host id ch|host id ch asked|host id ch found|host id ch found|ch o|o]; simpl; try done; try by eexists.
  - destruct (cached _ _ _). by eexists.
  - unfold join_or_begin. destruct (Lookups_get _ _) as [[]|]; by eexists.
  - destruct (li_waiting _ _ Hinv i host ch) as [Hlt _]; [by rewrite Hc|]. apply lookup_lt_is_Some in Hlt as [channel Hch].
    rewrite Hch. simpl. unfold wait_for. destruct (ch_value channel); [by eexists|].
    destruct (ch_closed channel) eqn:Hcl; [by eexists|].
    destruct (li_held _ _ Hinv ch) as [j Hj]; [by rewrite Hch; simpl; rewrite Hcl|]. by destruct (Hw host ch eq_refl j).
  - specialize (Hb _ _ _ eq_refl). destruct (hr_turns _); [done|by eexists].
  - destruct (look_up _ _ _ _ _). by eexists.
Qed.

(** Callers that hold up the others. *)
Definition moves (c : LookupCaller) : bool :=
  match c with Waiting _ _ | Begun _ _ _ | Ended _ => false | _ => true end.

Lemma in_turns_none callers : (∀ c, c ∈ callers → moves c = false) → in_turns callers = 0%nat.
Proof.
  intros Hn. unfold in_turns. induction callers as [|c callers IH]; [done|].
  rewrite filter_cons, decide_False; [apply IH; intros d Hd; apply Hn; by right|].
  intros Ht. pose proof (Hn c ltac:(left)). by destruct c.
Qed.

Lemma some_caller_goes_on host_of w now v4 v6 : lookups_inv host_of w →
  (∃ c, c ∈ lw_callers w ∧ has_ended c = false) → ∃ i, is_Some (run_lookup (Poll i now v4 v6) w).
Proof.
  intros Hinv (c & Hc & He).
  destruct (decide (Exists (λ c, moves c = true) (lw_callers w))) as [Hm|Hm].
  { apply Exists_exists in Hm as (d & [j Hj]%list_elem_of_lookup & Hm). exists j.
    apply (can_poll _ _ _ _ _ _ _ Hinv Hj); by destruct d. }
  assert (∀ d, d ∈ lw_callers w → moves d = false) as Hno.
  { intros d Hd. destruct (moves d) eqn:Hmd; [|done]. destruct Hm. apply Exists_exists. eauto. }
  assert (hr_turns (lw_resolver w) ≠ 0%nat) as Hturns.
  { pose proof (li_turns _ _ Hinv) as Ht. rewrite (in_turns_none _ Hno) in Ht.
    intros Hz. rewrite Hz in Ht. discriminate Ht. }
  destruct (decide (Exists (λ d, is_Some (leads d)) (lw_callers w))) as [Hl|Hl].
  { apply Exists_exists in Hl as (d & [j Hj]%list_elem_of_lookup & [l Hl]). exists j.
    apply (can_poll _ _ _ _ _ _ _ Hinv Hj); [by destruct d|done|by destruct d]. }
  apply list_elem_of_lookup in Hc as [j Hj]. exists j. apply (can_poll _ _ _ _ _ _ _ Hinv Hj He); [done|].
  intros host ch _ k Hk. destruct (lw_callers w !! k) as [d|] eqn:Hd; [|done]. simpl in Hk.
  apply Hl, Exists_exists. exists d. apply list_elem_of_lookup_2 in Hd. split; [done|].
  apply Hno in Hd. by destruct d.
Qed.

Lemma steps_bounded says host_of n w w' : lookups_inv host_of w → nsteps (lookups_step says) n w w' →
  (n + effort w' ≤ effort w)%nat.
Proof.
  intros Hinv Hn. revert host_of Hinv. induction Hn as [w|n w w1 w' Hs _ IH]; intros host_of Hinv; [lia|].
  pose proof (step_effort _ _ _ _ Hinv Hs). destruct (lookups_step_inv _ _ _ _ Hinv Hs) as (host_of' & _ & Hinv').
  specialize (IH _ Hinv'). lia.
Qed.

(** ** Whose addresses an answer has *)

Section Answers.
Context (says : bytes → IpAddr → Prop).

(** What a call for [asked] may give. *)
Definition answer_ok (asked : bytes) (addresses : list IpAddr) : Prop :=
  match plan asked with
  | Literal ip => addresses = [ip]
  | NotHere => addresses = []
  | LookUp host => Forall (says host) addresses
  end.
Definition caller_ok (asked : bytes) (c : LookupCaller) : Prop :=
  match c with
  | Asked host => host = asked
  | AtLoop host | Missed host | Waiting host _ | Begun host _ _ | Querying host _ _ _ => plan asked = LookUp host
  | Found host _ _ addresses | Sent host _ _ addresses => plan asked = LookUp host ∧ Forall (says host) addresses
  | Closing _ (Answered addresses) | Ended (Answered addresses) => answer_ok asked addresses
  | Closing _ _ | Ended _ => True
  end.

(** The cache holds under each name what queries for it gave. *)
Definition cache_ok (cache : lookup_cache) : Prop :=
  (lru_len cache ≤ lru_cap cache)%nat ∧ (0 < lru_cap cache)%nat ∧
  ∀ host entry, lru_peek host cache = Some entry → Forall (says host) (le_addresses entry).
Definition channels_ok (host_of : Pending → bytes) (channels : list Channel) : Prop :=
  ∀ ch channel addresses, channels !! ch = Some channel → ch_value channel = Some addresses →
    Forall (says (host_of ch)) addresses.

Record answers_inv (hosts : list bytes) (host_of : Pending → bytes) (w : lookups_world) : Prop := {
  ai_lookups : lookups_inv host_of w;
  ai_cache : cache_ok (hr_cache (lw_resolver w));
  ai_channels : channels_ok host_of (lw_channels w);
  ai_callers i c : lw_callers w !! i = Some c → ∃ asked, hosts !! i = Some asked ∧ caller_ok asked c
}.

Lemma cached_ok cache host now : cache_ok cache →
  cache_ok (cached cache host now).2 ∧ ∀ addresses, (cached cache host now).1 = Some addresses → Forall (says host) addresses.
Proof.
  intros (Hlen & Hcap & He). unfold cached.
  pose proof (lru_get_size host cache) as [Hgl Hgc]. pose proof (lru_get_peek host cache) as Hp.
  assert (cache_ok (lru_get host cache).2) as Hok.
  { split_and!; [lia|lia|]. intros k e. rewrite lru_get_other. apply He. }
  destruct (lru_get host cache) as [[entry|] cache']; simpl in *; [|done].
  case_match; simpl; (split; [|by intros ? [= <-]; eapply He]); [done|].
  destruct Hok as (Hlen' & Hcap' & He'). pose proof (lru_pop_size host cache') as [Hl Hc]. split_and!; [lia|lia|].
  intros k e. destruct (decide (k = host)) as [->|]; [by rewrite lru_pop_same|]. rewrite lru_pop_other by done. apply He'.
Qed.

Lemma look_up_ok cache host now v4 v6 : cache_ok cache →
  (∀ found ttl, v4 = Some (found, ttl) ∨ v6 = Some (found, ttl) → Forall (says host) found) →
  cache_ok (look_up cache host now v4 v6).2 ∧ Forall (says host) (look_up cache host now v4 v6).1.
Proof.
  intros (Hlen & Hcap & He) Hsays. unfold look_up.
  destruct (merge_answers_spec v4 v6) as (addresses & ttl & -> & _ & Hel & _).
  assert (Forall (says host) addresses) as Hf.
  { apply Forall_forall. intros ip [(found & t & Hv & Hip)|(found & t & Hv & Hip)]%Hel;
      exact (proj1 (Forall_forall _ _) (Hsays found t ltac:(auto)) ip Hip). }
  destruct addresses as [|a l]; simpl; [done|]. split; [|done].
  set (entry := {| le_addresses := a :: l; le_expires := _ |}).
  pose proof (lru_put_size host entry cache Hlen) as [Hl Hc]. split_and!; [lia|lia|].
  intros k e. destruct (decide (k = host)) as [->|Hne].
  - rewrite lru_put_same by done. by intros [= <-].
  - intros Hk. eapply He. by eapply lru_put_other.
Qed.

Lemma channels_ok_mono host_of host_of' channels :
  (∀ ch, (ch < length channels)%nat → host_of' ch = host_of ch) → channels_ok host_of channels → channels_ok host_of' channels.
Proof.
  intros Hsame Hok ch channel addresses Hch Hv. rewrite Hsame by (by eapply lookup_lt_Some). by eapply Hok.
Qed.

(** Setting a channel or closing it keeps what the others hold. *)
Lemma channels_ok_alter host_of channels ch f : channels_ok host_of channels →
  (∀ channel addresses, channels !! ch = Some channel → ch_value (f channel) = Some addresses →
     Forall (says (host_of ch)) addresses) →
  channels_ok host_of (alter f ch channels).
Proof.
  intros Hok Hf ch' channel addresses. destruct (decide (ch' = ch)) as [->|Hne].
  - rewrite list_lookup_alter_eq. intros (old & Hold & ->)%fmap_Some. by apply Hf.
  - rewrite list_lookup_alter_ne by done. apply Hok.
Qed.

Lemma channels_ok_new host_of channels : channels_ok host_of channels → channels_ok host_of (channels ++ [watch_channel]).
Proof.
  intros Hok ch channel addresses [Hch|[_ Hch]]%lookup_app_Some; [by apply Hok|].
  by apply list_lookup_singleton_Some in Hch as [_ <-].
Qed.

(** A step of one caller: what it holds afterwards is still of the name it was asked for. *)
Lemma poll_answers_inv hosts host_of w i c now v4 v6 c' self channels : answers_inv hosts host_of w →
  lw_callers w !! i = Some c → event_says says w (Poll i now v4 v6) →
  caller_step now v4 v6 (lw_resolver w) (lw_channels w) c = Some (c', self, channels) →
  cache_ok (hr_cache self) ∧ (∀ asked, hosts !! i = Some asked → caller_ok asked c → caller_ok asked c') ∧
  channels_ok host_of channels.
Proof.
  intros [Hinv Hcache Hchannels Hcallers] Hc Hsays.
  destruct c as [host|host|host|host ch|host id ch|host id ch asked|host id ch found|host id ch found|ch o|o]; simpl.
  - intros [= <- <- <-]. split_and!; [done| |done]. intros asked _ ->. destruct (plan asked) eqn:Hp; simpl; try done;
      unfold answer_ok; by rewrite Hp.
  - pose proof (cached_ok _ host now Hcache) as [Hok Ha]. destruct (cached _ _ _) as [found cache]. intros [= <- <- <-].
    split_and!; [done| |done]. intros asked _ Hp. destruct found as [addresses|]; simpl; [|done].
    unfold answer_ok. rewrite Hp. by apply Ha.
  - unfold join_or_begin. destruct (Lookups_get _ host) as [[id ch]|]; intros [= <- <- <-];
      (split_and!; [done|done|]); [done|]. by apply channels_ok_new.
  - destruct (lw_channels w !! ch) as [channel|] eqn:Hch; simpl; [|done]. unfold wait_for.
    destruct (ch_value channel) as [addresses|] eqn:Hv.
    + intros [= <- <- <-]. split_and!; [done| |done]. intros asked _ Hp. simpl. unfold answer_ok. rewrite Hp.
      destruct (li_waiting _ _ Hinv i host ch) as [_ <-]; [by rewrite Hc|]. by eapply Hchannels.
    + destruct (ch_closed channel); intros [= <- <- <-]. by split_and!.
  - destruct (hr_turns _); intros [= <- <- <-]. by split_and!.
  - pose proof (look_up_ok _ host asked v4 v6 Hcache (Hsays _ _ _ _ Hc)) as [Hok Ha].
    destruct (look_up _ _ _ _ _) as [addresses cache]. intros [= <- <- <-]. by split_and!.
  - intros [= <- <- <-]. split_and!; [done|done|]. apply channels_ok_alter; [done|]. intros channel addresses _ [= <-].
    rewrite (li_leading _ _ Hinv i host id ch) by (by rewrite Hc). by destruct (Hcallers i _ Hc) as (asked & _ & _ & Hf).
  - intros [= <- <- <-]. split_and!; [done| |done]. intros asked _ [Hp Hf]. simpl. unfold answer_ok. by rewrite Hp.
  - intros [= <- <- <-]. split_and!; [done| |]; [by destruct o|]. apply channels_ok_alter; [done|].
    intros channel addresses Hch Hv. by eapply Hchannels.
  - done.
Qed.

(** Only the names of the channels that are there matter. *)
Lemma inv_mono host_of host_of' w : (∀ ch, (ch < length (lw_channels w))%nat → host_of' ch = host_of ch) →
  lookups_inv host_of w → lookups_inv host_of' w.
Proof.
  intros Hsame []. split; eauto.
  - intros i host ch Hi. destruct (li_waiting0 _ _ _ Hi) as [Hlt Hh]. split; [done|]. by rewrite Hsame.
  - intros i host id ch Hi. rewrite Hsame; [eauto|].
    apply led_held, li_open0, fmap_Some in Hi as (? & Hi & _). by eapply lookup_lt_Some.
Qed.

Lemma abandon_answers asked o self c c' self' : o = TimedOut ∨ o = Dropped → abandon o self c = Some (c', self') →
  hr_cache self' = hr_cache self ∧ caller_ok asked c'.
Proof. intros [->| ->]; destruct c; simpl; intros; by simplify_eq/=. Qed.

Lemma answers_step_inv hosts host_of w w' : answers_inv hosts host_of w → lookups_step says w w' →
  ∃ host_of', answers_inv hosts host_of' w'.
Proof.
  intros [Hinv Hcache Hch Hcallers] Hstep. destruct (lookups_step_inv _ _ _ _ Hinv Hstep) as (host_of' & Hsame & Hl).
  exists host_of'. apply (inv_mono _ _ _ Hsame) in Hinv. apply (channels_ok_mono _ _ _ Hsame) in Hch.
  destruct Hstep as [e Hsays (i & c & c' & Hc & Hcs & Hs)%run_lookup_step].
  assert (cache_ok (hr_cache (lw_resolver w')) ∧
    (∀ asked, hosts !! i = Some asked → caller_ok asked c → caller_ok asked c') ∧ channels_ok host_of' (lw_channels w'))
    as (Hcache' & Hcaller & Hchannels).
  { destruct Hs as [(now & v4 & v6 & -> & Hs)|(o & Ho & -> & Hs)].
    - by apply (poll_answers_inv _ _ _ _ _ _ _ _ _ _ _ (Build_answers_inv _ _ _ Hinv Hcache Hch Hcallers) Hc Hsays).
    - destruct (abandon_answers [] _ _ _ _ _ Ho Hs) as [-> _]. split_and!; [done| |done].
      intros asked _ _. by eapply abandon_answers. }
  split; [done..|]. intros j d. rewrite Hcs. intros [[<- [<- _]]|[_ Hj]]%list_lookup_insert_Some; [|eauto].
  destruct (Hcallers _ _ Hc) as (asked & Ha & Hok). eauto.
Qed.

Lemma answers_start_inv hosts : answers_inv hosts (λ _, []) (lookups_start hosts).
Proof.
  split.
  - apply lookups_start_inv.
  - unfold cache_ok. simpl. rewrite lru_len_new, lru_cap_new. unfold LOOKUP_CACHE_CAPACITY. split_and!; [lia|lia|].
    intros host entry. by rewrite lru_peek_new.
  - done.
  - intros i c. simpl. rewrite list_lookup_fmap. intros (asked & Ha & ->)%fmap_Some. by exists asked.
Qed.

Lemma answers_reach_inv hosts w : lookups_reach says hosts w → ∃ host_of, answers_inv hosts host_of w.
Proof.
  revert w. apply (rtc_ind_r (λ w, ∃ host_of, answers_inv hosts host_of w)).
  - eexists. apply answers_start_inv.
  - intros w w' _ Hs [host_of Hinv]. by eapply answers_step_inv.
Qed.
End Answers.

(** A run of events whose queries give addresses [says] allows under every name. *)
Lemma run_lookups_reach says hosts events w w' : lookups_reach says hosts w → run_lookups events w = Some w' →
  Forall (λ e, match e with
               | Poll _ _ v4 v6 => ∀ host found ttl, v4 = Some (found, ttl) ∨ v6 = Some (found, ttl) → Forall (says host) found
               | _ => True
               end) events →
  lookups_reach says hosts w'.
Proof.
  intros Hw Hrun Hev. revert w Hw Hrun. induction Hev as [|e events He _ IH]; intros w Hw; [by intros [= <-]|].
  intros (w1 & H1 & Hrun)%bind_Some. apply (IH w1); [|done]. eapply rtc_r; [done|]. apply (lookups_event _ _ _ e); [|done].
  destruct e; simpl in *; eauto.
Qed.

(** * Theorems *)

(** C22: however many callers ask at once, and whichever of them are given up on the way: at most one
    looks a name up, at most sixteen names are looked up at once (so the queries stay within
    their share of the resolver), and what a caller is answered is what queries for its own name
    gave — found by itself, by the caller it waited for, or kept — the address itself when the
    name is one, and nothing when the name is of the local network. *)
Theorem lookups_are_shared says hosts w : lookups_reach says hosts w →
  (∀ i j ci cj host li lj, lw_callers w !! i = Some ci → lw_callers w !! j = Some cj →
     leads ci = Some (host, li) → leads cj = Some (host, lj) → i = j) ∧
  (2 * in_turns (lw_callers w) ≤ LOOKUP_PERMITS)%nat ∧
  ∀ i asked addresses, hosts !! i = Some asked → lw_callers w !! i = Some (Ended (Answered addresses)) →
    answer_ok says asked addresses.
Proof.
  intros [host_of [Hinv _ _ Hcallers]]%answers_reach_inv. split_and!.
  - intros i j ci cj host [id ch] [id' ch'] Hi Hj Hli Hlj.
    assert (led (lw_callers w) i = Some (host, (id, ch))) as Hi' by (by rewrite Hi).
    assert (led (lw_callers w) j = Some (host, (id', ch'))) as Hj' by (by rewrite Hj).
    pose proof (li_registered _ _ Hinv _ _ _ Hi') as Hr. rewrite (li_registered _ _ Hinv _ _ _ Hj') in Hr. simplify_eq.
    eapply li_sender; [done| |]; by eapply led_held.
  - pose proof (li_turns _ _ Hinv) as Ht. unfold LOOKUP_PERMITS in *. change (32 / 2)%nat with 16%nat in Ht. lia.
  - intros i asked addresses Ha Hc. destruct (Hcallers _ _ Hc) as (asked' & Ha' & Hok). simplify_eq. done.
Qed.

(** C21: every call of [lookup] ends. However callers are scheduled and given up, [n] of them take at
    most [10 n² + 11 n] steps in all — a caller asks again only after another one gave up the
    lookup it waited for — and whenever one has not ended, some caller can go on with no call
    being given up: nobody waits for a result that will not come, nor for a turn nobody has. *)
Theorem lookups_end says hosts w : lookups_reach says hosts w →
  (∀ n w', nsteps (lookups_step says) n w w' → n ≤ 10 * length hosts * length hosts + 11 * length hosts)%nat ∧
  ∀ now v4 v6, (∃ c, c ∈ lw_callers w ∧ has_ended c = false) → ∃ i, is_Some (run_lookup (Poll i now v4 v6) w).
Proof.
  intros Hr. split.
  - intros n w' Hn. apply rtc_nsteps in Hr as [m Hm].
    pose proof (steps_bounded _ _ _ _ _ (lookups_start_inv hosts) (nsteps_trans _ _ _ _ _ Hm Hn)) as Hb.
    assert (effort (lookups_start hosts) ≤ 10 * length hosts * length hosts + 11 * length hosts)%nat; [|lia].
    unfold effort, lookups_start. simpl lw_callers. simpl lw_resolver. rewrite length_fmap.
    pose proof (rank_le (hr_in_progress HostResolver_with_clock) (Asked <$> hosts)) as Hrank. rewrite length_fmap in Hrank.
    assert (sum_list_with unfinished (Asked <$> hosts) = length hosts) as ->.
    { clear. induction hosts as [|h hosts IH]; [done|]. rewrite fmap_cons. simpl. f_equal. exact IH. }
    nia.
  - intros now v4 v6. destruct (lookups_reach_inv _ _ _ Hr) as [host_of Hinv]. by eapply some_caller_goes_on.
Qed.
End HostResolver.

(** ** A run

    Three callers ask for one name. The second joins the lookup of the first, which runs into the
    time limit; the second asks again and looks the name up itself, the third waits for it. *)
Definition three_callers : list bytes := [lit "A.example."; lit "a.example"; lit "a.example"].
Definition quiet_poll (i : nat) : lookup_event := Poll i 100 None None.
Definition three_events : list lookup_event :=
  [quiet_poll 0; quiet_poll 0; quiet_poll 0; quiet_poll 0; quiet_poll 1; quiet_poll 1; quiet_poll 1; Expire 0;
   quiet_poll 0; quiet_poll 1; quiet_poll 1; quiet_poll 1; quiet_poll 1; quiet_poll 2; quiet_poll 2; quiet_poll 2;
   Poll 1 103 (Some (two_addresses, 60)) None; quiet_poll 1; quiet_poll 2; quiet_poll 1; quiet_poll 1].
Definition three_says (host : bytes) (ip : IpAddr) : Prop := ip ∈ two_addresses.
Definition three_world : lookups_world :=
  default (lookups_start []) (@run_lookups list_lru three_events (lookups_start three_callers)).

Example three_callers_end : lw_callers three_world =
  [Ended TimedOut; Ended (Answered two_addresses); Ended (Answered two_addresses)].
Proof. vm_compute. reflexivity. Qed.

Lemma three_reach : @lookups_reach list_lru three_says three_callers three_world.
Proof.
  apply (@run_lookups_reach list_lru _ _ three_events (lookups_start three_callers)); [constructor| |].
  - unfold three_world. by destruct (run_lookups _ _) eqn:Hr; [|vm_compute in Hr].
  - unfold three_says. repeat constructor; intros ? ? ? [Hx|Hx]; simplify_eq; apply Forall_forall; auto.
Qed.

Lemma lookups_are_shared_witness : @answer_ok three_says (lit "a.example") two_addresses.
Proof.
  refine (proj2 (proj2 (@lookups_are_shared list_lru three_says three_callers three_world three_reach)) 2%nat _ _ eq_refl _).
  vm_compute. reflexivity.
Defined.

Lemma lookups_end_witness : ∃ i, is_Some (@run_lookup list_lru (Poll i 0 None None) (lookups_start three_callers)).
Proof.
  apply (proj2 (@lookups_end list_lru three_says three_callers (lookups_start three_callers) ltac:(constructor))).
  exists (Asked (lit "a.example")). split; [right; left|reflexivity].
Defined.
