(* ===== verification/Io.v ===== *)
(** * Polls, reads and I/O errors

    What the proxy's stream wrappers use of [std] and tokio: the answer of a poll, the kinds
    of [io::Error] the proxy looks at, and a peer as the answers its next reads get. *)
From S2P Require Import Prelude RustStr.

Inductive Poll (A : Type) := Pending | Ready (a : A).
Arguments Pending {A}.
Arguments Ready {A} a.
Definition is_pending {A} (p : Poll A) : bool := match p with Pending => true | _ => false end.

(** The kinds named in the source, and any other. *)
Inductive ErrorKind :=
  ConnectionRefused | ConnectionReset | ConnectionAborted | BrokenPipe | UnexpectedEof | TimedOut | InvalidData
| AlreadyExists | NotFound | OtherKind (n : nat).
#[global] Instance ErrorKind_eq_dec : EqDecision ErrorKind.
Proof. solve_decision. Defined.

(** The answer of one completed read: bytes (none at the end of the stream) or an error. *)
Definition ReadAnswer : Type := result bytes ErrorKind.

(** The bytes some answers carried. *)
Fixpoint received (answers : list ReadAnswer) : bytes :=
  match answers with
  | [] => []
  | Ok b :: answers' => b ++ received answers'
  | Err _ :: answers' => received answers'
  end.

Lemma received_app a b : received (a ++ b) = received a ++ received b.
Proof. induction a as [|[x|e] a IH]; simpl; [done| |done]. by rewrite IH, app_assoc. Qed.
