(* ===== verification/Flight.v ===== *)
(** * Following the proxy's TLS flight ([mitm/src/flight.rs])

    [Records] of the source is [FlightRecords]: it is fed the bytes the proxy writes to the
    client, in whatever pieces they are written, and tells when the record that carries the
    certificate has been written in full. The theorems are in [FlightFacts]. *)
From S2P Require Import Prelude RustStr Collections Wire Io.

Definition CHANGE_CIPHER_SPEC : Z := 20.
Definition ALERT : Z := 21.
Definition HANDSHAKE : Z := 22.
Definition APPLICATION_DATA : Z := 23.
Definition SERVER_HELLO : Z := 2.
Definition CERTIFICATE : Z := 11.
Definition PRE_SHARED_KEY : Z := 41.
Definition SUPPORTED_VERSIONS : Z := 43.
Definition HELLO_RETRY_REQUEST : bytes :=
  [0xcf; 0x21; 0xad; 0x74; 0xe5; 0x9a; 0x61; 0x11; 0xbe; 0x1d; 0x8c; 0x02; 0x1e; 0x65; 0xb8; 0x91;
   0xc2; 0xa2; 0x11; 0x16; 0x7a; 0xbb; 0x8c; 0x5e; 0x07; 0x9e; 0x09; 0xe2; 0xc8; 0xa8; 0x33; 0x9c].
Definition MAX_HANDSHAKE_BYTES : nat := Z.to_nat (16 * 1024).

(** [Progress] of the source. *)
Inductive FlightProgress := Hello | Tls13 | Tls12 | CertificateSent | NoCertificate.
#[global] Instance FlightProgress_eq_dec : EqDecision FlightProgress.
Proof. solve_decision. Defined.

Record FlightRecords := {
  fr_progress : FlightProgress;
  fr_header : bytes;
  fr_header_len : nat;
  fr_remaining : nat;
  fr_handshake : bytes
}.

Definition FlightRecords_new : FlightRecords :=
  {| fr_progress := Hello; fr_header := replicate 5 0; fr_header_len := 0; fr_remaining := 0;
     fr_handshake := [] |}.

(** [matches!(progress, Progress::Hello | Progress::Tls12)]: messages are still in the clear. *)
Definition in_clear (p : FlightProgress) : bool :=
  match p with Hello | Tls12 => true | _ => false end.
Definition is_watching (p : FlightProgress) : bool :=
  match p with CertificateSent | NoCertificate => false | _ => true end.
Definition watching (self : FlightRecords) : bool := is_watching (fr_progress self).

(** [rest.get(start..stop)]. *)
Definition get_range (start stop : nat) (l : bytes) : option bytes :=
  if (start <=? stop)%nat && (stop <=? length l)%nat then Some (slice start stop l) else None.

(** The loop over the extensions of a ServerHello; [None] where the source's [?] returns.
    Each extension has at least four bytes, so the fuel in [server_hello_read] is enough
    ([extensions_loop_fuel]). *)
Fixpoint extensions_loop (fuel : nat) (rest : bytes) (tls13 resumed : bool) : option (bool * bool) :=
  match fuel with
  | O => None
  | S fuel' =>
      if (length rest =? 0)%nat then Some (tls13, resumed)
      else
        kind ← u16_at rest 0;
        len ← u16_at rest 2;
        let len := Z.to_nat len in
        data ← get_range 4 (4 + len) rest;
        let '(tls13, resumed) :=
          if kind =? SUPPORTED_VERSIONS then (bool_decide (data = [3; 4]), resumed)
          else if kind =? PRE_SHARED_KEY then (tls13, true)
          else (tls13, resumed) in
        extensions_loop fuel' (drop (4 + len) rest) tls13 resumed
  end.

Definition server_hello_read (body : bytes) : option FlightProgress :=
  random ← get_range 2 34 body;
  if bool_decide (random = HELLO_RETRY_REQUEST) then Some Hello
  else
    session_id_len ← body !! 34%nat;
    let session_id_len := Z.to_nat session_id_len in
    rest ← get_range (35 + session_id_len + 3) (length body) body;
    if (length rest =? 0)%nat then Some Tls12
    else
      extensions_len ← u16_at rest 0;
      let extensions_len := Z.to_nat extensions_len in
      rest ← get_range 2 (2 + extensions_len) rest;
      '(tls13, resumed) ← extensions_loop (S (length rest)) rest false false;
      Some (match tls13, resumed with
            | true, false => Tls13
            | true, true => NoCertificate
            | false, _ => Tls12
            end).
Definition server_hello (body : bytes) : FlightProgress :=
  default NoCertificate (server_hello_read body).

(** The loop of [handshake_messages] over [self.handshake[used..]]: the progress and the bytes
    used, and whether it returned from inside the loop. *)
Fixpoint messages_loop (fuel : nat) (handshake : bytes) (progress : FlightProgress) (used : nat)
    : FlightProgress * nat * bool :=
  match fuel with
  | O => (progress, used, false)
  | S fuel' =>
      let rest := drop used handshake in
      match get_range 0 4 rest with
      | Some [kind; a; b; c] =>
          let len := Z.to_nat (Z.lor (Z.lor (Z.shiftl a 16) (Z.shiftl b 8)) c) in
          match get_range 4 (4 + len) rest with
          | None => (progress, used, false)
          | Some body =>
              let progress :=
                match progress with
                | Hello => if kind =? SERVER_HELLO then server_hello body else NoCertificate
                | Tls12 => if kind =? CERTIFICATE then CertificateSent else NoCertificate
                | _ => NoCertificate
                end in
              let used := (used + (4 + len))%nat in
              if negb (in_clear progress) then (progress, used, true)
              else messages_loop fuel' handshake progress used
          end
      | _ => (progress, used, false)
      end
  end.

(** [Records::handshake_messages]: the progress it returns and the new [self.handshake]. *)
Definition handshake_messages (progress : FlightProgress) (handshake : bytes) : FlightProgress * bytes :=
  let '(progress, used, returned) := messages_loop (S (length handshake)) handshake progress 0 in
  if returned then (progress, handshake)
  else
    let handshake := drop used handshake in
    if (MAX_HANDSHAKE_BYTES <? length handshake)%nat then (NoCertificate, handshake)
    else (progress, handshake).

Definition record_written (self : FlightRecords) : FlightRecords :=
  let kind := byte_of (fr_header self) 0 in
  let progress := fr_progress self in
  let '(progress, handshake) :=
    if (kind =? HANDSHAKE) && in_clear progress then handshake_messages progress (fr_handshake self)
    else
      (match progress with
       | Hello | Tls13 => if kind =? CHANGE_CIPHER_SPEC then progress
                          else if (kind =? APPLICATION_DATA) && bool_decide (progress = Tls13)
                          then CertificateSent else NoCertificate
       | _ => NoCertificate
       end, fr_handshake self) in
  {| fr_progress := progress; fr_header := fr_header self; fr_header_len := 0;
     fr_remaining := fr_remaining self; fr_handshake := handshake |}.

(** One turn of the loop of [written]. *)
Definition written_turn (self : FlightRecords) (bs : bytes) : FlightRecords * bytes :=
  if (fr_header_len self <? 5)%nat then
    let n := Nat.min (5 - fr_header_len self) (length bs) in
    let header := write_at (fr_header self) (fr_header_len self) (take n bs) in
    let header_len := (fr_header_len self + n)%nat in
    let bs := drop n bs in
    if (header_len =? 5)%nat then
      let remaining := Z.to_nat (be16 (byte_of header 3) (byte_of header 4)) in
      let self := {| fr_progress := fr_progress self; fr_header := header; fr_header_len := header_len;
                     fr_remaining := remaining; fr_handshake := fr_handshake self |} in
      (if (remaining =? 0)%nat then record_written self else self, bs)
    else
      ({| fr_progress := fr_progress self; fr_header := header; fr_header_len := header_len;
          fr_remaining := fr_remaining self; fr_handshake := fr_handshake self |}, bs)
  else
    let n := Nat.min (fr_remaining self) (length bs) in
    let handshake :=
      if (byte_of (fr_header self) 0 =? HANDSHAKE) && in_clear (fr_progress self)
      then fr_handshake self ++ take n bs else fr_handshake self in
    let remaining := (fr_remaining self - n)%nat in
    let self := {| fr_progress := fr_progress self; fr_header := fr_header self;
                   fr_header_len := fr_header_len self; fr_remaining := remaining;
                   fr_handshake := handshake |} in
    (if (remaining =? 0)%nat then record_written self else self, drop n bs).

(** The loop; the bytes it left when it ended. It ends before the fuel of [written] is used
    ([written_loop_ends]). *)
Fixpoint written_loop (fuel : nat) (self : FlightRecords) (bs : bytes) : FlightRecords * bytes :=
  match fuel with
  | O => (self, bs)
  | S fuel' =>
      if negb (length bs =? 0)%nat && watching self
      then let '(self, bs) := written_turn self bs in written_loop fuel' self bs
      else (self, bs)
  end.
Definition written (self : FlightRecords) (bs : bytes) : FlightRecords :=
  let self := (written_loop (length bs) self bs).1 in
  if negb (watching self) then
    {| fr_progress := fr_progress self; fr_header := fr_header self; fr_header_len := fr_header_len self;
       fr_remaining := fr_remaining self; fr_handshake := [] |}
  else self.

(** ** The watched stream

    [FlightWatch] without the inner stream: what its polls return is the caller's. *)
Record FlightWatch := {
  fw_records : FlightRecords;
  fw_waited : bool
}.
Definition FlightWatch_new : FlightWatch := {| fw_records := FlightRecords_new; fw_waited := false |}.
Definition certificate_delivered (self : FlightWatch) : bool :=
  bool_decide (fr_progress (fw_records self) = CertificateSent) && fw_waited self.

Definition FlightWatch_poll_read {A} (self : FlightWatch) (inner : Poll A) : FlightWatch * Poll A :=
  ({| fw_records := fw_records self;
      fw_waited := fw_waited self
                   || (is_pending inner && bool_decide (fr_progress (fw_records self) = CertificateSent)) |},
   inner).

Definition FlightWatch_poll_write {E} (self : FlightWatch) (buf : bytes) (inner : Poll (result nat E))
    : FlightWatch * Poll (result nat E) :=
  (match inner with
   | Ready (Ok n) =>
       if watching (fw_records self)
       then {| fw_records := written (fw_records self) (take n buf); fw_waited := fw_waited self |}
       else self
   | _ => self
   end, inner).

Fixpoint write_vectored_loop (records : FlightRecords) (bufs : list bytes) (n : nat) : FlightRecords :=
  match bufs with
  | [] => records
  | buf :: bufs' =>
      if (n =? 0)%nat || negb (watching records) then records
      else
        let w := Nat.min n (length buf) in
        write_vectored_loop (written records (take w buf)) bufs' (n - w)
  end.
Definition FlightWatch_poll_write_vectored {E} (self : FlightWatch) (bufs : list bytes)
    (inner : Poll (result nat E)) : FlightWatch * Poll (result nat E) :=
  (match inner with
   | Ready (Ok n) =>
       {| fw_records := write_vectored_loop (fw_records self) bufs n; fw_waited := fw_waited self |}
   | _ => self
   end, inner).
