(* ===== verification/FlightFacts.v ===== *)
(** * What the followed flight tells ([mitm/src/flight.rs])

    First the byte level: feeding bytes in pieces is feeding them one at a time, and a whole
    record moves the progress as [record_step] says. Then the message level: the handshake
    bytes in the clear are the messages they encode. Last the theorems. *)
From S2P Require Import Prelude RustStr Collections Wire Flight.

(** ** Bytes *)

Record fr_wf (r : FlightRecords) : Prop := {
  fw_header : length (fr_header r) = 5%nat;
  fw_len : (fr_header_len r ≤ 5)%nat;
  fw_remaining : fr_header_len r = 5%nat → (0 < fr_remaining r)%nat
}.

Lemma FlightRecords_new_wf : fr_wf FlightRecords_new.
Proof. by split; simpl; [| lia | lia]. Qed.

Lemma length_header_write (msg new : bytes) at_ : (at_ + length new ≤ length msg)%nat →
  length (write_at msg at_ new) = length msg.
Proof. intros ?. unfold write_at. rewrite !length_app, length_take, length_drop. lia. Qed.

Lemma record_written_wf r : length (fr_header r) = 5%nat → fr_wf (record_written r).
Proof. intros ?. unfold record_written. repeat case_match; simpl; split; simpl; auto; lia. Qed.

Definition byte_step (r : FlightRecords) (x : Z) : FlightRecords :=
  if watching r then (written_turn r [x]).1 else r.

Lemma write_at_snoc (msg : bytes) at_ x new : length msg = 5%nat → (at_ + S (length new) ≤ 5)%nat →
  write_at (write_at msg at_ [x]) (S at_) new = write_at msg at_ (x :: new).
Proof.
  intros Hm Hl. unfold write_at. cbn [length].
  assert (length (take at_ msg) = at_) as Ht by (rewrite length_take; lia).
  rewrite take_app_ge by lia. rewrite Ht. replace (S at_ - at_)%nat with 1%nat by lia.
  rewrite drop_app_ge by lia. rewrite Ht.
  replace (S at_ + length new - at_)%nat with (S (length new)) by lia.
  simpl. rewrite take_0, <- app_assoc, drop_drop. simpl. do 4 f_equal. lia.
Qed.

(** The first byte of a piece, then the others: either it completes a header or a record,
    or the same turn goes on. *)
Lemma written_turn_cons r x bs : fr_wf r → watching r = true →
  let r1 := byte_step r x in
  fr_wf r1 ∧
  (written_turn r (x :: bs) = (r1, bs) ∨
   (watching r1 = true ∧ (bs ≠ [] → written_turn r (x :: bs) = written_turn r1 bs))).
Proof.
  intros [Hh Hl Hr] Hw r1. subst r1. unfold byte_step. rewrite Hw. unfold written_turn.
  destruct (Nat.ltb_spec (fr_header_len r) 5) as [Hlt|Hge]; cbn [length].
  - replace (Nat.min (5 - fr_header_len r) 1) with 1%nat by lia. cbn [take].
    destruct (Nat.eqb_spec (fr_header_len r + 1) 5) as [He|Hne].
    + split.
      { case_match; simpl.
        - apply record_written_wf. simpl. rewrite length_header_write; simpl; lia.
        - split; simpl; [rewrite length_header_write; simpl; lia | lia |].
          apply Nat.eqb_neq in H. lia. }
      left. replace (Nat.min (5 - fr_header_len r) (S (length bs))) with 1%nat by lia.
      cbn [take drop]. rewrite ?take_0, ?drop_0. destruct (Nat.eqb_spec (fr_header_len r + 1) 5); [done|lia].
    + simpl. split; [split; simpl; [rewrite length_header_write; simpl; lia | lia | lia]|].
      right. split; [done|]. intros Hbs. destruct bs as [|y bs]; [done|].
      destruct (Nat.ltb_spec (fr_header_len r + 1) 5); [|lia]. cbn [length].
      set (n := Nat.min (5 - (fr_header_len r + 1)) (S (length bs))).
      replace (Nat.min (5 - fr_header_len r) (S (S (length bs)))) with (S n) by lia.
      cbn [take drop]. replace (fr_header_len r + 1)%nat with (S (fr_header_len r)) by lia.
      rewrite write_at_snoc by (rewrite ?length_take; cbn [length]; lia).
      replace (fr_header_len r + S n)%nat with (S (fr_header_len r) + n)%nat by lia. done.
  - assert (fr_header_len r = 5%nat) as H5 by lia. specialize (Hr H5).
    replace (Nat.min (fr_remaining r) 1) with 1%nat by lia. cbn [take drop].
    destruct (Nat.eqb_spec (fr_remaining r - 1) 0) as [He|Hne].
    + split; [by apply record_written_wf|]. left.
      replace (Nat.min (fr_remaining r) (S (length bs))) with 1%nat by lia.
      cbn [take drop]. rewrite ?take_0, ?drop_0. destruct (Nat.eqb_spec (fr_remaining r - 1) 0); [done|lia].
    + simpl. split; [split; simpl; [done | lia | lia]|].
      right. split; [done|]. intros Hbs. rewrite H5. simpl.
      set (n := Nat.min (fr_remaining r - 1) (length bs)).
      replace (Nat.min (fr_remaining r) (S (length bs))) with (S n) by lia.
      cbn [take drop]. replace (fr_remaining r - S n)%nat with (fr_remaining r - 1 - n)%nat by lia.
      destruct ((byte_of (fr_header r) 0 =? HANDSHAKE) && in_clear (fr_progress r)); [|done].
      by rewrite <- app_assoc.
Qed.

Lemma byte_step_wf r x : fr_wf r → fr_wf (byte_step r x).
Proof.
  intros Hr. destruct (watching r) eqn:Hw; [|unfold byte_step; by rewrite Hw].
  by destruct (written_turn_cons r x [] Hr Hw).
Qed.

Lemma written_turn_bytes bs r : fr_wf r → watching r = true → bs ≠ [] →
  fr_wf (written_turn r bs).1 ∧ (length (written_turn r bs).2 < length bs)%nat ∧
  foldl byte_step r bs = foldl byte_step (written_turn r bs).1 (written_turn r bs).2.
Proof.
  revert r. induction bs as [|x bs IH]; intros r Hr Hw Hne; [done|].
  destruct (written_turn_cons r x bs Hr Hw) as [Hwf [->|[Hw1 Hgo]]]; simpl; [auto with lia|].
  destruct bs as [|y bs].
  - destruct (written_turn r [x]) as [r' bs'] eqn:Ht.
    assert (byte_step r x = r') as Hb by (unfold byte_step; by rewrite Hw, Ht).
    assert (bs' = []) as ->.
    { destruct Hr as [? Hl Hrem]. revert Ht. unfold written_turn. cbn [length].
      destruct (Nat.ltb_spec (fr_header_len r) 5).
      - replace (Nat.min (5 - fr_header_len r) 1) with 1%nat by lia.
        case_match; simpl; by intros [=].
      - replace (Nat.min (fr_remaining r) 1) with 1%nat by lia. by intros [=]. }
    rewrite Hb in *. simpl. auto with lia.
  - rewrite Hgo by done. destruct (IH (byte_step r x)) as (? & ? & Hf); [done..|].
    split; [done|]. split; [simpl in *; lia|]. exact Hf.
Qed.

(** The loop of [written] ends with its bytes used up or the watch over, and does what
    feeding one byte at a time does. *)
Lemma written_loop_bytes fuel r bs : fr_wf r → (length bs ≤ fuel)%nat →
  (written_loop fuel r bs).1 = foldl byte_step r bs ∧ fr_wf (written_loop fuel r bs).1 ∧
  ((written_loop fuel r bs).2 = [] ∨ watching (written_loop fuel r bs).1 = false).
Proof.
  assert (∀ bs r, watching r = false → foldl byte_step r bs = r) as Hoff.
  { clear. induction bs as [|x bs IH]; intros r Hw; [done|]. simpl. unfold byte_step at 2. rewrite Hw. auto. }
  revert r bs. induction fuel as [|fuel IH]; intros r bs Hr Hl.
  { destruct bs; simpl in *; [auto|lia]. }
  cbn [written_loop]. destruct bs as [|x bs]; [simpl; auto|].
  destruct (watching r) eqn:Hw; cbn [length Nat.eqb negb andb].
  - destruct (written_turn_bytes (x :: bs) r) as (Hwf & Hlt & ->); [done..|].
    destruct (written_turn r (x :: bs)) as [r' bs']; simpl in *. apply IH; [done|lia].
  - simpl fst. rewrite Hoff by done. auto.
Qed.

(** [written] clears the buffer once the watch is over. *)
Definition release (r : FlightRecords) : FlightRecords :=
  if watching r then r
  else {| fr_progress := fr_progress r; fr_header := fr_header r; fr_header_len := fr_header_len r;
          fr_remaining := fr_remaining r; fr_handshake := [] |}.

Lemma written_bytes r bs : fr_wf r → written r bs = release (foldl byte_step r bs).
Proof.
  intros Hr. unfold written, release. destruct (written_loop_bytes (length bs) r bs) as [-> _]; [done..|].
  by destruct (watching _).
Qed.

Lemma release_progress r : fr_progress (release r) = fr_progress r.
Proof. unfold release. by case_match. Qed.
Lemma release_wf r : fr_wf r → fr_wf (release r).
Proof. intros [? ? ?]. unfold release. case_match; split; simpl; auto. Qed.
Lemma foldl_byte_step_wf bs r : fr_wf r → fr_wf (foldl byte_step r bs).
Proof. revert r. induction bs as [|x bs IH]; intros r Hr; [done|]. apply IH, byte_step_wf, Hr. Qed.

Lemma foldl_byte_step_off bs r : watching r = false → foldl byte_step r bs = r.
Proof.
  revert r. induction bs as [|x bs IH]; intros r Hw; [done|]. simpl. unfold byte_step at 2. rewrite Hw. auto.
Qed.

Lemma written_app r a b : fr_wf r → written (written r a) b = written r (a ++ b).
Proof.
  intros Hr. rewrite (written_bytes r a), written_bytes, written_bytes, foldl_app
    by auto using release_wf, foldl_byte_step_wf.
  destruct (watching (foldl byte_step r a)) eqn:Hw.
  { unfold release at 2. by rewrite Hw. }
  assert (watching (release (foldl byte_step r a)) = false) as Hw'.
  { unfold watching in *. by rewrite release_progress. }
  rewrite (foldl_byte_step_off b _ Hw), (foldl_byte_step_off b _ Hw'). unfold release at 1. rewrite Hw'.
  unfold release, watching in *. rewrite Hw. done.
Qed.

Lemma written_wf r bs : fr_wf r → fr_wf (written r bs).
Proof. intros Hr. rewrite written_bytes by done. auto using release_wf, foldl_byte_step_wf. Qed.

Lemma written_nil r : fr_wf r → watching r = true → written r [] = r.
Proof. intros Hr Hw. rewrite written_bytes by done. simpl. unfold release. by rewrite Hw. Qed.

Lemma written_pieces pieces r : fr_wf r →
  fr_progress (foldl written r pieces) = fr_progress (written r (concat pieces)).
Proof.
  revert r. induction pieces as [|p pieces IH]; intros r Hr; simpl.
  - rewrite written_bytes by done. by rewrite release_progress.
  - rewrite IH by auto using written_wf. by rewrite written_app.
Qed.

(** ** Records *)

(** A TLS record: its content type, its two version bytes and its fragment. *)
Definition tls_record : Type := Z * (Z * Z) * bytes.
Definition record_kind (r : tls_record) : Z := r.1.1.
Definition encode_record (r : tls_record) : bytes :=
  [r.1.1; r.1.2.1; r.1.2.2] ++ to_be16 (Z.of_nat (length r.2)) ++ r.2.
Definition record_ok (r : tls_record) : Prop := Z.of_nat (length r.2) <= U16_MAX.

(** What a whole record does to the progress and the handshake bytes kept. *)
Definition record_step (st : FlightProgress * bytes) (r : tls_record) : FlightProgress * bytes :=
  let '(p, hs) := st in
  if negb (is_watching p) then (p, hs)
  else if (record_kind r =? HANDSHAKE) && in_clear p then handshake_messages p (hs ++ r.2)
  else
    (match p with
     | Hello | Tls13 => if record_kind r =? CHANGE_CIPHER_SPEC then p
                        else if (record_kind r =? APPLICATION_DATA) && bool_decide (p = Tls13)
                        then CertificateSent else NoCertificate
     | _ => NoCertificate
     end, hs).
Definition flight_after (records : list tls_record) : FlightProgress * bytes :=
  foldl record_step (Hello, []) records.

Lemma be16_split v : 0 <= v <= U16_MAX → be16 (v / 256 mod 256) (v mod 256) = v.
Proof. unfold be16, U16_MAX. intros ?. Z.to_euclidean_division_equations; lia. Qed.

(** A state between two records. *)
Definition at_record (r : FlightRecords) (st : FlightProgress * bytes) : Prop :=
  fr_wf r ∧ fr_header_len r = 0%nat ∧ fr_progress r = st.1 ∧ fr_handshake r = st.2.

Lemma header_byte p h hl rem hs x : is_watching p = true → (hl < 5)%nat →
  byte_step {| fr_progress := p; fr_header := h; fr_header_len := hl; fr_remaining := rem; fr_handshake := hs |} x =
  let header := write_at h hl [x] in
  if (hl + 1 =? 5)%nat then
    let remaining := Z.to_nat (be16 (byte_of header 3) (byte_of header 4)) in
    let r' := {| fr_progress := p; fr_header := header; fr_header_len := hl + 1;
                 fr_remaining := remaining; fr_handshake := hs |} in
    if (remaining =? 0)%nat then record_written r' else r'
  else {| fr_progress := p; fr_header := header; fr_header_len := hl + 1; fr_remaining := rem;
          fr_handshake := hs |}.
Proof.
  intros Hw Hl. unfold byte_step, watching, written_turn. cbn [fr_progress fr_header fr_header_len fr_remaining fr_handshake].
  rewrite Hw. destruct (Nat.ltb_spec hl 5); [|lia]. cbn [length].
  replace (Nat.min (5 - hl) 1) with 1%nat by lia. cbn [take drop]. by destruct (Nat.eqb_spec (hl + 1) 5).
Qed.

(** Four bytes of a header, then the fifth. *)
Lemma header_bytes r k v w hi lo st : at_record r st → watching r = true →
  ∃ h, length h = 5%nat ∧ byte_of h 0 = k ∧ byte_of h 3 = hi ∧ byte_of h 4 = lo ∧
  foldl byte_step r [k; v; w; hi; lo] =
    let r' := {| fr_progress := st.1; fr_header := h; fr_header_len := 5;
                 fr_remaining := Z.to_nat (be16 hi lo); fr_handshake := st.2 |} in
    if (Z.to_nat (be16 hi lo) =? 0)%nat then record_written r' else r'.
Proof.
  intros ([Hh _ _] & H0 & Hp & Hs) Hw.
  exists [k; v; w; hi; lo]. split_and!; [done..|].
  destruct r as [p h hl rem hs]; simpl in *; subst.
  do 5 (destruct h as [|? h]; [done|]). destruct h; [|done].
  unfold watching in Hw. cbn [fr_progress] in Hw. cbn [foldl].
  do 4 (rewrite header_byte by (done || lia); cbn [Nat.add Nat.eqb]; cbv zeta).
  rewrite header_byte by (done || lia). cbn [Nat.add Nat.eqb]. done.
Qed.

Lemma fragment_bytes frag r : fr_wf r → watching r = true → fr_header_len r = 5%nat →
  fr_remaining r = length frag →
  foldl byte_step r frag = record_written
    {| fr_progress := fr_progress r; fr_header := fr_header r; fr_header_len := 5; fr_remaining := 0;
       fr_handshake := if (byte_of (fr_header r) 0 =? HANDSHAKE) && in_clear (fr_progress r)
                       then fr_handshake r ++ frag else fr_handshake r |}.
Proof.
  intros Hr Hw Hl Hrem. assert (frag ≠ []) as Hne.
  { intros ->. destruct Hr as [_ _ Hr]. specialize (Hr Hl). simpl in Hrem. lia. }
  destruct (written_turn_bytes frag r Hr Hw Hne) as (_ & _ & ->).
  unfold written_turn. rewrite Hl. cbn [Nat.ltb Nat.leb]. rewrite Hrem, Nat.min_id, Nat.sub_diag.
  simpl. by rewrite drop_all, take_ge by lia.
Qed.

Lemma record_bytes r st rec : at_record r st → is_watching st.1 = true → record_ok rec →
  at_record (foldl byte_step r (encode_record rec)) (record_step st rec).
Proof.
  intros Hat Hw Hok. destruct rec as [[k [v w]] frag]. destruct st as [p hs]. unfold record_ok in Hok.
  assert (watching r = true) as Hwr by (destruct Hat as (_ & _ & Hp & _); unfold watching; by rewrite Hp).
  unfold encode_record, to_be16. cbn [fst snd app].
  assert (Z.to_nat (be16 (Z.of_nat (length frag) / 256 mod 256) (Z.of_nat (length frag) mod 256)) = length frag)
    as Hlen by (rewrite be16_split by (simpl in Hok; lia); lia).
  set (hi := Z.of_nat (length frag) / 256 mod 256) in *. set (lo := Z.of_nat (length frag) mod 256) in *.
  change (k :: v :: w :: hi :: lo :: frag) with ([k; v; w; hi; lo] ++ frag). rewrite foldl_app.
  destruct (header_bytes r k v w hi lo (p, hs) Hat Hwr) as (h & Hh & Hk & _ & _ & ->).
  simpl in Hw. rewrite Hlen. cbn [fst snd].
  assert (∀ hs', hs' = (if (k =? HANDSHAKE) && in_clear p then hs ++ frag else hs) → ∀ rem,
    at_record (record_written {| fr_progress := p; fr_header := h; fr_header_len := 5; fr_remaining := rem;
                                 fr_handshake := hs' |}) (record_step (p, hs) (k, (v, w), frag))) as Hdone.
  { intros hs' -> rem. unfold at_record, record_written, record_step, record_kind. simpl. rewrite Hk, Hw. simpl.
    destruct ((k =? HANDSHAKE) && in_clear p) eqn:Hc.
    - destruct (handshake_messages p (hs ++ frag)) as [p' hs']; simpl.
      split_and!; [split; simpl; auto; lia|done..].
    - simpl. split_and!; [split; simpl; auto; lia|done..]. }
  destruct (Nat.eqb_spec (length frag) 0) as [He|Hne].
  - apply nil_length_inv in He as ->. simpl. apply Hdone. rewrite app_nil_r. by case_match.
  - rewrite fragment_bytes; simpl; [|by split; simpl; auto; lia|done..]. apply Hdone. by rewrite Hk.
Qed.

(** An unfinished record changes no progress. *)
Lemma partial_record_bytes r st rec n : at_record r st → is_watching st.1 = true → record_ok rec →
  (n < length (encode_record rec))%nat →
  fr_progress (foldl byte_step r (take n (encode_record rec))) = st.1.
Proof.
  intros Hat Hw Hok Hn.
  assert (∀ bs r', fr_wf r' → watching r' = true →
    (fr_header_len r' < 5 ∧ length bs < 5 - fr_header_len r' ∨
     fr_header_len r' = 5 ∧ length bs < fr_remaining r')%nat →
    fr_progress (foldl byte_step r' bs) = fr_progress r') as Hkeep.
  { clear. induction bs as [|x bs IH]; intros r' Hwf Hwr Hlen; [done|]. simpl in *.
    assert (fr_progress (byte_step r' x) = fr_progress r' ∧
      (fr_header_len (byte_step r' x) < 5 ∧ length bs < 5 - fr_header_len (byte_step r' x) ∨
       fr_header_len (byte_step r' x) = 5 ∧ length bs < fr_remaining (byte_step r' x)))%nat as [Hp Hl].
    { unfold byte_step. rewrite Hwr. unfold written_turn. cbn [length].
      destruct Hlen as [[H5 Hlen]|[H5 Hlen]].
      - destruct (Nat.ltb_spec (fr_header_len r') 5); [|lia].
        replace (Nat.min (5 - fr_header_len r') 1) with 1%nat by lia.
        destruct (Nat.eqb_spec (fr_header_len r' + 1) 5); [lia|]. simpl. split; [done|]. left. lia.
      - rewrite H5. simpl. replace (Nat.min (fr_remaining r') 1) with 1%nat by lia.
        destruct (Nat.eqb_spec (fr_remaining r' - 1) 0); [lia|]. simpl. split; [done|]. right. lia. }
    rewrite IH; [done|by apply byte_step_wf| |done]. unfold watching. by rewrite Hp. }
  destruct rec as [[k [v w]] frag]. destruct st as [p hs]. unfold record_ok in Hok. simpl in Hok, Hw.
  destruct Hat as (Hwf & H0 & Hp & Hs).
  assert (watching r = true) as Hwr by (unfold watching; by rewrite Hp).
  unfold encode_record, to_be16 in *. cbn [fst snd app length] in *.
  assert (Z.to_nat (be16 (Z.of_nat (length frag) / 256 mod 256) (Z.of_nat (length frag) mod 256)) = length frag)
    as Hlen by (rewrite be16_split by (simpl in Hok; lia); lia).
  set (hi := Z.of_nat (length frag) / 256 mod 256) in *. set (lo := Z.of_nat (length frag) mod 256) in *.
  destruct (decide (n < 5)%nat) as [Hlt|Hge].
  - rewrite Hkeep; [done|done|done|]. left. rewrite H0, length_take. simpl. lia.
  - change (k :: v :: w :: hi :: lo :: frag) with ([k; v; w; hi; lo] ++ frag).
    rewrite take_app_ge, foldl_app by (simpl; lia). cbn [length].
    destruct (header_bytes r k v w hi lo (p, hs)) as (h & Hh & Hk & _ & _ & ->); [by split_and!|done|].
    rewrite Hlen. destruct (Nat.eqb_spec (length frag) 0); [lia|]. simpl.
    rewrite Hkeep; simpl; [done|by split; simpl; auto; lia|done|].
    right. rewrite length_take. lia.
Qed.

Lemma at_record_new : at_record FlightRecords_new (Hello, []).
Proof. split_and!; [apply FlightRecords_new_wf|done..]. Qed.

Lemma record_step_off st rec : is_watching st.1 = false → record_step st rec = st.
Proof. destruct st as [p hs]. simpl. by intros ->. Qed.

Lemma records_bytes records r st : at_record r st → Forall record_ok records →
  fr_progress (foldl byte_step r (concat (encode_record <$> records))) = (foldl record_step st records).1 ∧
  (is_watching (foldl record_step st records).1 = true →
   at_record (foldl byte_step r (concat (encode_record <$> records))) (foldl record_step st records)).
Proof.
  revert r st. induction records as [|rec records IH]; intros r st Hat Hok;
    cbn [fmap list_fmap concat].
  { destruct Hat as (? & ? & ? & ?). by split_and!. }
  inversion Hok; subst. cbn [foldl]. rewrite !foldl_app. destruct (is_watching st.1) eqn:Hw.
  -  apply IH; [|done]. by apply record_bytes.
  - assert (foldl record_step (record_step st rec) records = st) as ->.
    { rewrite record_step_off by done. clear -Hw. induction records as [|x l IH]; [done|]. simpl.
      by rewrite record_step_off. }
    assert (watching r = false) as Hr by (destruct Hat as (_ & _ & Hp & _); unfold watching; by rewrite Hp).
    rewrite !(foldl_byte_step_off _ r Hr).
    destruct Hat as (? & ? & ? & ?). split; [done|]. by rewrite Hw.
Qed.

(** Any bytes are whole records and a part of one: the progress is that of the whole records. *)
Lemma written_records records rec n : Forall record_ok records → record_ok rec →
  (n < length (encode_record rec))%nat →
  fr_progress (written FlightRecords_new (concat (encode_record <$> records) ++ take n (encode_record rec)))
  = (flight_after records).1.
Proof.
  intros Hok Hrec Hn. rewrite written_bytes, release_progress, foldl_app by apply FlightRecords_new_wf.
  destruct (records_bytes records FlightRecords_new (Hello, []) at_record_new Hok) as [Hp Hat].
  unfold flight_after. destruct (is_watching (foldl record_step (Hello, []) records).1) eqn:Hw.
  - by apply partial_record_bytes; [apply Hat|..].
  - rewrite foldl_byte_step_off; [done|]. unfold watching. by rewrite Hp.
Qed.

(** ** Messages *)

(** A handshake message: its type and its body. *)
Definition message : Type := Z * bytes.
Definition to_be24 (v : Z) : bytes := [v / 65536 mod 256; v / 256 mod 256; v mod 256].
Definition encode_message (m : message) : bytes := m.1 :: to_be24 (Z.of_nat (length m.2)) ++ m.2.
Definition encode_messages (ms : list message) : bytes := concat (encode_message <$> ms).
Definition message_ok (m : message) : Prop := Z.of_nat (length m.2) < 2 ^ 24.

(** The first complete message of some bytes, and the bytes after it. *)
Definition next_message (hs : bytes) : option (message * bytes) :=
  match hs with
  | kind :: a :: b :: c :: rest =>
      let len := Z.to_nat (65536 * a + 256 * b + c) in
      if (len <=? length rest)%nat then Some ((kind, take len rest), drop len rest) else None
  | _ => None
  end.
Definition message_step (p : FlightProgress) (m : message) : FlightProgress :=
  match p with
  | Hello => if m.1 =? SERVER_HELLO then server_hello m.2 else NoCertificate
  | Tls12 => if m.1 =? CERTIFICATE then CertificateSent else NoCertificate
  | _ => NoCertificate
  end.

(** Messages read while they are in the clear; what is left of the bytes. *)
Fixpoint read_messages (fuel : nat) (p : FlightProgress) (hs : bytes) : FlightProgress * bytes :=
  match fuel with
  | O => (p, hs)
  | S fuel' =>
      if negb (in_clear p) then (p, hs)
      else match next_message hs with
           | None => (p, hs)
           | Some (m, rest) => read_messages fuel' (message_step p m) rest
           end
  end.

Lemma be24_lor a b c : is_u8 a → is_u8 b → is_u8 c →
  Z.lor (Z.lor (Z.shiftl a 16) (Z.shiftl b 8)) c = 65536 * a + 256 * b + c.
Proof.
  unfold is_u8. intros Ha Hb Hc.
  replace (Z.lor (Z.shiftl a 16) (Z.shiftl b 8)) with (Z.shiftl (Z.lor (Z.shiftl a 8) b) 8)
    by (rewrite Z.shiftl_lor, Z.shiftl_shiftl by lia; done).
  rewrite !lor_shiftl_add by lia. lia.
Qed.

Lemma be24_split v : 0 <= v < 2 ^ 24 →
  65536 * (v / 65536 mod 256) + 256 * (v / 256 mod 256) + v mod 256 = v.
Proof. intros ?. Z.to_euclidean_division_equations; lia. Qed.

Lemma next_message_encode m rest : message_ok m → next_message (encode_message m ++ rest) = Some (m, rest).
Proof.
  destruct m as [k body]. unfold message_ok, encode_message, to_be24. intros Hok. simpl fst. simpl snd in *.
  cbn [app]. unfold next_message. rewrite be24_split, Nat2Z.id by lia.
  rewrite length_app. destruct (Nat.leb_spec (length body) (length body + length rest)); [|lia].
  by rewrite take_app_length, drop_app_length.
Qed.

Lemma next_message_Some hs m rest : Forall is_u8 hs → next_message hs = Some (m, rest) →
  hs = encode_message m ++ rest ∧ message_ok m ∧ (length rest < length hs)%nat.
Proof.
  intros Hu. unfold next_message. destruct hs as [|k [|a [|b [|c r]]]]; try done.
  destruct (Nat.leb_spec (Z.to_nat (65536 * a + 256 * b + c)) (length r)) as [Hle|]; [|done].
  intros [= <- <-]. do 4 (apply Forall_cons in Hu as [? Hu]). unfold is_u8 in *.
  assert (length (take (Z.to_nat (65536 * a + 256 * b + c)) r) = Z.to_nat (65536 * a + 256 * b + c)) as Hl
    by (rewrite length_take; lia).
  unfold encode_message, to_be24, message_ok. cbn [fst snd]. rewrite Hl, Z2Nat.id by lia.
  split_and!; [|lia|simpl; rewrite length_drop; lia].
  cbn [app]. rewrite take_drop. repeat f_equal; Z.to_euclidean_division_equations; lia.
Qed.

Lemma next_message_app hs m rest more : next_message hs = Some (m, rest) →
  next_message (hs ++ more) = Some (m, rest ++ more).
Proof.
  unfold next_message. destruct hs as [|k [|a [|b [|c r]]]]; try done. cbn [app].
  set (len := Z.to_nat _). rewrite length_app.
  destruct (Nat.leb_spec len (length r)); [|done]. intros [= <- <-].
  destruct (Nat.leb_spec len (length r + length more)); [|lia].
  rewrite take_app_le, drop_app_le by lia. done.
Qed.

Lemma get_range_head (hs : bytes) :
  get_range 0 4 hs = match hs with k :: a :: b :: c :: _ => Some [k; a; b; c] | _ => None end.
Proof. destruct hs as [|k [|a [|b [|c r]]]]; done. Qed.
Lemma get_range_body k a b c (r : bytes) len :
  get_range 4 (4 + len) (k :: a :: b :: c :: r) = if (len <=? length r)%nat then Some (take len r) else None.
Proof.
  unfold get_range, slice. replace (4 + len - 4)%nat with len by lia.
  destruct (Nat.leb_spec 4 (4 + len)); [|lia]. cbn [length drop andb]. rewrite drop_0.
  by destruct (Nat.leb_spec len (length r)), (Nat.leb_spec (4 + len) (S (S (S (S (length r)))))); try lia.
Qed.

Lemma messages_loop_read fuel hs p used : Forall is_u8 hs → in_clear p = true →
  (length hs < fuel + used)%nat → (used ≤ length hs)%nat →
  let '(p', used', returned) := messages_loop fuel hs p used in
  read_messages fuel p (drop used hs) = (p', drop used' hs) ∧ returned = negb (in_clear p').
Proof.
  revert p used. induction fuel as [|fuel IH]; intros p used Hu Hc Hf Hle; [lia|].
  cbn [messages_loop read_messages]. rewrite Hc. cbn [negb]. rewrite get_range_head.
  assert (Forall is_u8 (drop used hs)) as Hud by by apply Forall_drop.
  assert (length (drop used hs) = (length hs - used)%nat) as Hlu by apply length_drop.
  destruct (drop used hs) as [|k [|a [|b [|c r]]]] eqn:Hd; try (simpl; by rewrite Hd, Hc).
  do 4 (apply Forall_cons in Hud as [? Hud]). rewrite be24_lor by done. cbn [next_message].
  set (len := Z.to_nat (65536 * a + 256 * b + c)) in *. rewrite get_range_body. cbn [length] in Hlu.
  destruct (Nat.leb_spec len (length r)) as [Hlen|Hlen]; [|by rewrite Hd, Hc].
  change (match p with
          | Hello => if k =? SERVER_HELLO then server_hello (take len r) else NoCertificate
          | Tls12 => if k =? CERTIFICATE then CertificateSent else NoCertificate
          | _ => NoCertificate
          end) with (message_step p (k, take len r)).
  assert (drop (used + (4 + len)) hs = drop len r) as Hd' by (by rewrite <- drop_drop, Hd).
  destruct (in_clear (message_step p (k, take len r))) eqn:Hc'; cbn [negb].
  - specialize (IH (message_step p (k, take len r)) (used + (4 + len))%nat Hu Hc').
    rewrite Hd' in IH. apply IH; lia.
  - split; [|by rewrite Hc']. rewrite Hd'. destruct fuel; [done|]. cbn [read_messages]. by rewrite Hc'.
Qed.

Lemma read_messages_fuel fuel fuel' p hs : Forall is_u8 hs → (length hs < fuel)%nat → (length hs < fuel')%nat →
  read_messages fuel p hs = read_messages fuel' p hs.
Proof.
  revert fuel' p hs. induction fuel as [|fuel IH]; intros fuel' p hs Hu H1 H2; [lia|].
  destruct fuel' as [|fuel']; [lia|]. cbn [read_messages]. destruct (negb (in_clear p)); [done|].
  destruct (next_message hs) as [[m rest]|] eqn:Hn; [|done].
  destruct (next_message_Some hs m rest Hu Hn) as (He & _ & Hl).
  apply IH; [|lia..]. rewrite He in Hu. by apply Forall_app in Hu as [_ ?].
Qed.

Definition read_all (p : FlightProgress) (hs : bytes) : FlightProgress * bytes :=
  read_messages (S (length hs)) p hs.

Lemma read_all_step p m rest : in_clear p = true → message_ok m → Forall is_u8 (encode_message m ++ rest) →
  read_all p (encode_message m ++ rest) = read_all (message_step p m) rest.
Proof.
  intros Hc Hok Hu. unfold read_all at 1. cbn [read_messages]. rewrite Hc, next_message_encode by done. cbn [negb].
  unfold read_all. apply read_messages_fuel; [by apply Forall_app in Hu as [_ ?]| |lia].
  rewrite length_app. unfold encode_message. simpl. lia.
Qed.
Lemma read_all_stop p hs : in_clear p = false → read_all p hs = (p, hs).
Proof. intros Hc. unfold read_all. cbn [read_messages]. by rewrite Hc. Qed.

(** Bytes read in two parts. *)
Lemma read_all_app a b p : Forall is_u8 (a ++ b) →
  read_all p (a ++ b) = let '(p1, rest) := read_all p a in read_all p1 (rest ++ b).
Proof.
  remember (length a) as n eqn:Hn. revert a p Hn.
  induction (lt_wf n) as [n _ IH]. intros a p Hn Hu.
  destruct (in_clear p) eqn:Hc; [|by rewrite (read_all_stop p a)].
  destruct (next_message a) as [[m rest]|] eqn:Hm.
  - destruct (next_message_Some a m rest) as (He & Hok & Hl); [by apply Forall_app in Hu as [? _]|done|].
    subst a. rewrite <- app_assoc in *. rewrite read_all_step by done.
    rewrite (read_all_step p m rest); [|done|done|rewrite app_assoc in Hu; by apply Forall_app in Hu as [? _]].
    apply (IH (length rest)); [lia|done|]. by apply Forall_app in Hu as [_ ?].
  - assert (read_all p a = (p, a)) as ->; [|done].
    unfold read_all. cbn [read_messages]. by rewrite Hc, Hm.
Qed.

Lemma read_all_rest p hs : Forall is_u8 hs → ∃ used, hs = used ++ (read_all p hs).2.
Proof.
  remember (length hs) as n eqn:Hn. revert hs p Hn.
  induction (lt_wf n) as [n _ IH]. intros hs p Hn Hu.
  destruct (in_clear p) eqn:Hc; [|rewrite read_all_stop by done; by exists []].
  destruct (next_message hs) as [[m rest]|] eqn:Hm.
  - destruct (next_message_Some hs m rest Hu Hm) as (He & Hok & Hl). rewrite He in *.
    rewrite read_all_step by done. destruct (IH (length rest) ltac:(lia) rest (message_step p m) eq_refl) as [u Hx].
    { by apply Forall_app in Hu as [_ ?]. }
    exists (encode_message m ++ u). rewrite <- app_assoc. by f_equal.
  - exists []. unfold read_all. cbn [read_messages]. by rewrite Hc, Hm.
Qed.

Lemma handshake_messages_read p hs : Forall is_u8 hs → in_clear p = true →
  let '(p1, rest) := read_all p hs in
  if in_clear p1 then
    handshake_messages p hs = if (MAX_HANDSHAKE_BYTES <? length rest)%nat then (NoCertificate, rest) else (p1, rest)
  else (handshake_messages p hs).1 = p1.
Proof.
  intros Hu Hc. unfold handshake_messages, read_all.
  pose proof (messages_loop_read (S (length hs)) hs p 0 Hu Hc ltac:(lia) ltac:(lia)) as Hl.
  destruct (messages_loop (S (length hs)) hs p 0) as [[p' used] returned]. rewrite drop_0 in Hl.
  destruct Hl as [-> ->]. by destruct (in_clear p').
Qed.

(** ** Flights *)

(** The handshake bytes of the records of a flight, one after the other. *)
Definition handshake_stream (records : list tls_record) : bytes :=
  concat (snd <$> filter (λ r, record_kind r = HANDSHAKE) records).
Definition record_bytes_ok (r : tls_record) : Prop := record_ok r ∧ Forall is_u8 r.2.

Lemma handshake_stream_app a b : handshake_stream (a ++ b) = handshake_stream a ++ handshake_stream b.
Proof. unfold handshake_stream. by rewrite filter_app, fmap_app, concat_app. Qed.
Lemma handshake_stream_one r : handshake_stream [r] = if decide (record_kind r = HANDSHAKE) then r.2 else [].
Proof.
  unfold handshake_stream. destruct (decide (record_kind r = HANDSHAKE)).
  - rewrite filter_cons_True by done. simpl. by rewrite app_nil_r.
  - by rewrite filter_cons_False.
Qed.
Lemma handshake_stream_u8 records : Forall record_bytes_ok records → Forall is_u8 (handshake_stream records).
Proof.
  intros H. unfold handshake_stream. apply Forall_concat, Forall_fmap, Forall_forall.
  intros r [_ Hr]%list_elem_of_filter. rewrite Forall_forall in H. by destruct (H r Hr).
Qed.

(** The records hold a certificate written in full: in the clear after a TLS 1.2 ServerHello,
    or in the first encrypted record after a TLS 1.3 ServerHello. *)
Definition shows (s : bytes) (p : FlightProgress) : Prop := (read_all Hello s).1 = p.
Definition certificate_written (records : list tls_record) : Prop :=
  shows (handshake_stream records) CertificateSent ∨
  ∃ pre v frag post, records = pre ++ (APPLICATION_DATA, v, frag) :: post ∧
    shows (handshake_stream pre) Tls13.

Definition flight_inv (records : list tls_record) (st : FlightProgress * bytes) : Prop :=
  match st.1 with
  | Hello | Tls12 => read_all Hello (handshake_stream records) = st
  | Tls13 => shows (handshake_stream records) Tls13
  | CertificateSent => certificate_written records
  | NoCertificate => True
  end.

Lemma shows_app s more p : Forall is_u8 (s ++ more) → in_clear p = false → shows s p → shows (s ++ more) p.
Proof.
  unfold shows. intros Hu Hc Hp. rewrite read_all_app by done.
  destruct (read_all Hello s) as [p1 rest]. simpl in Hp. subst. by rewrite read_all_stop.
Qed.

Lemma certificate_written_app records more : Forall record_bytes_ok (records ++ more) →
  certificate_written records → certificate_written (records ++ more).
Proof.
  intros Hok [Hs|(pre & v & frag & post & -> & Hs)].
  - left. apply handshake_stream_u8 in Hok. rewrite handshake_stream_app in *. by apply shows_app.
  - right. exists pre, v, frag, (post ++ more). by rewrite <- app_assoc.
Qed.

Lemma flight_inv_step records st r : Forall record_bytes_ok (records ++ [r]) →
  flight_inv records st → flight_inv (records ++ [r]) (record_step st r).
Proof.
  intros Hok Hinv. pose proof (handshake_stream_u8 _ Hok) as Hu.
  destruct st as [p hs]. unfold record_step. destruct (is_watching p) eqn:Hw; cbn [negb].
  2:{ destruct p; try done; simpl in *. by apply certificate_written_app. }
  rewrite handshake_stream_app, handshake_stream_one in Hu.
  destruct ((record_kind r =? HANDSHAKE) && in_clear p) eqn:Hc.
  - apply andb_true_iff in Hc as [Hk Hc]. apply Z.eqb_eq in Hk.
    assert (read_all Hello (handshake_stream records) = (p, hs)) as Hr by (by destruct p).
    rewrite decide_True in Hu by done.
    pose proof (read_all_app _ _ Hello Hu) as Happ. rewrite Hr in Happ.
    destruct (read_all_rest Hello (handshake_stream records)) as [u Hru]; [by apply Forall_app in Hu as [? _]|].
    rewrite Hr in Hru. simpl in Hru.
    assert (Forall is_u8 (hs ++ r.2)) as Hu'.
    { rewrite Hru, <- app_assoc in Hu. by apply Forall_app in Hu as [_ ?]. }
    pose proof (handshake_messages_read p (hs ++ r.2) Hu' Hc) as Hm.
    destruct (read_all p (hs ++ r.2)) as [p1 rest] eqn:Hp1.
    assert (handshake_stream (records ++ [r]) = handshake_stream records ++ r.2) as Hst.
    { by rewrite handshake_stream_app, handshake_stream_one, decide_True. }
    unfold flight_inv, certificate_written, shows. rewrite Hst.
    destruct (in_clear p1) eqn:Hc1.
    + rewrite Hm. destruct (Nat.ltb _ _); simpl; [done|]. rewrite Happ. by destruct p1.
    + destruct (handshake_messages p (hs ++ r.2)) as [p' hs']. simpl in Hm. subst p'. simpl.
      rewrite Happ. simpl. destruct p1; try done. by left.
  - unfold flight_inv in *. simpl in *.
    assert (record_kind r ≠ HANDSHAKE → handshake_stream (records ++ [r]) = handshake_stream records) as Hst.
    { intros ?. by rewrite handshake_stream_app, handshake_stream_one, decide_False, app_nil_r. }
    destruct p; try done; simpl in *.
    + destruct (Z.eqb_spec (record_kind r) CHANGE_CIPHER_SPEC) as [He|].
      { by rewrite Hst by (by rewrite He). }
      by rewrite andb_false_r.
    + destruct (Z.eqb_spec (record_kind r) CHANGE_CIPHER_SPEC) as [He|].
      { by rewrite Hst by (by rewrite He). }
      destruct (Z.eqb_spec (record_kind r) APPLICATION_DATA) as [He|]; simpl; [|done].
      right. destruct r as [[k v] frag]. unfold record_kind in He. simpl in He. subst k.
      by exists records, v, frag, [].
Qed.

Lemma flight_after_inv records : Forall record_bytes_ok records → flight_inv records (flight_after records).
Proof.
  unfold flight_after. induction records as [|r records IH] using rev_ind; intros Hok; [done|].
  rewrite foldl_app. apply flight_inv_step; [done|]. apply IH. by apply Forall_app in Hok as [? _].
Qed.

(** Any bytes are whole records and a part of one. *)
Lemma split_records bs : Forall is_u8 bs → ∃ records rec n,
  bs = concat (encode_record <$> records) ++ take n (encode_record rec) ∧
  Forall record_bytes_ok records ∧ record_ok rec ∧ (n < length (encode_record rec))%nat.
Proof.
  remember (length bs) as m eqn:Hm. revert bs Hm. induction (lt_wf m) as [m _ IH]. intros bs Hm Hu.
  assert (∀ k v w hi lo (r : bytes), is_u8 hi → is_u8 lo →
    (length r = Z.to_nat (be16 hi lo)) → encode_record (k, (v, w), r) = k :: v :: w :: hi :: lo :: r ∧
    record_ok (k, (v, w), r)) as Henc.
  { unfold is_u8, record_ok, encode_record, to_be16, be16, U16_MAX. simpl. intros k v w hi lo r Hhi Hlo Hl.
    rewrite Hl, Z2Nat.id by lia. split; [repeat f_equal; Z.to_euclidean_division_equations; lia|lia]. }
  assert (∀ x, is_u8 x → length (replicate (Z.to_nat (be16 x 0)) 0) = Z.to_nat (be16 x 0)) as Hrep
    by (intros; by rewrite length_replicate).
  destruct bs as [|k [|v [|w [|hi [|lo r]]]]].
  - exists [], (0, (0, 0), []), 0%nat. split_and!; [done..|simpl; lia].
  - exists [], (k, (0, 0), []), 1%nat. split_and!; [done..|simpl; lia].
  - exists [], (k, (v, 0), []), 2%nat. split_and!; [done..|simpl; lia].
  - exists [], (k, (v, w), []), 3%nat. split_and!; [done..|simpl; lia].
  - do 4 (apply Forall_cons in Hu as [? Hu]).
    destruct (Henc k v w hi 0 (replicate (Z.to_nat (be16 hi 0)) 0)) as [He Ho]; [done|done|by apply Hrep|].
    exists [], (k, (v, w), replicate (Z.to_nat (be16 hi 0)) 0), 4%nat. rewrite He.
    split_and!; [done..|simpl; lia].
  - do 5 (apply Forall_cons in Hu as [? Hu]). set (len := Z.to_nat (be16 hi lo)).
    destruct (decide (len ≤ length r)%nat) as [Hle|Hgt].
    + destruct (Henc k v w hi lo (take len r)) as [He Ho]; [done..|rewrite length_take; lia|].
      destruct (IH (length (drop len r)) ltac:(rewrite length_drop; subst m; simpl; lia) (drop len r) eq_refl)
        as (records & rec & n & Hd & Hok & Hrec & Hn); [by apply Forall_drop|].
      exists ((k, (v, w), take len r) :: records), rec, n.
      cbn [fmap list_fmap concat]. rewrite He, <- app_assoc, <- Hd. split_and!; [by simpl; rewrite take_drop| |done..].
      constructor; [split; [done|by apply Forall_take]|done].
    + destruct (Henc k v w hi lo (r ++ replicate (len - length r) 0)) as [He Ho];
        [done..|rewrite length_app, length_replicate; lia|].
      exists [], (k, (v, w), r ++ replicate (len - length r) 0), (5 + length r)%nat. rewrite He.
      split_and!; [|done..|simpl; rewrite length_app, length_replicate; lia].
      cbn [fmap list_fmap concat app Nat.add take]. by rewrite take_app_length.
Qed.

Lemma written_after bs : Forall is_u8 bs → ∃ records partial, bs = concat (encode_record <$> records) ++ partial ∧
  Forall record_bytes_ok records ∧ fr_progress (written FlightRecords_new bs) = (flight_after records).1.
Proof.
  intros Hu. destruct (split_records bs Hu) as (records & rec & n & -> & Hok & Hrec & Hn).
  exists records, (take n (encode_record rec)). split_and!; [done|done|].
  apply written_records; [|done..]. by eapply Forall_impl; [exact Hok|]; intros ? [].
Qed.

(** ** Which messages show what *)

Lemma server_hello_cases body : server_hello body ≠ CertificateSent.
Proof.
  unfold server_hello. destruct (server_hello_read body) as [p|] eqn:H; [|done]. simpl.
  revert H. unfold server_hello_read. destruct (get_range 2 34 body); cbn [mbind option_bind]; [|done].
  case_bool_decide; [by intros [= <-]|]. destruct (body !! 34%nat) as [sl|]; cbn [mbind option_bind]; [|done].
  destruct (get_range _ _ body) as [r|]; cbn [mbind option_bind]; [|done].
  destruct (length r =? 0)%nat; [by intros [= <-]|].
  destruct (u16_at r 0); cbn [mbind option_bind]; [|done]. destruct (get_range _ _ r); cbn [mbind option_bind]; [|done].
  destruct (extensions_loop _ _ _ _) as [[t re]|]; cbn [mbind option_bind]; [|done].
  by destruct t, re; intros [= <-].
Qed.

Definition hellos (bodies : list bytes) : list message := (λ b, (SERVER_HELLO, b)) <$> bodies.

Lemma encode_messages_app a b : encode_messages (a ++ b) = encode_messages a ++ encode_messages b.
Proof. unfold encode_messages. by rewrite fmap_app, concat_app. Qed.
Lemma encode_messages_cons m ms : encode_messages (m :: ms) = encode_message m ++ encode_messages ms.
Proof. done. Qed.

Lemma read_all_Tls12 s : Forall is_u8 s → (read_all Tls12 s).1 ≠ Tls13 ∧
  ((read_all Tls12 s).1 = CertificateSent → ∃ cert rest, s = encode_message (CERTIFICATE, cert) ++ rest).
Proof.
  intros Hu. destruct (next_message s) as [[[k b] rest]|] eqn:Hm.
  - destruct (next_message_Some s _ rest Hu Hm) as (-> & Hok & _). rewrite read_all_step by done. simpl.
    destruct (Z.eqb_spec k CERTIFICATE) as [->|]; rewrite read_all_stop by done; simpl; (split; [done|]); eauto. done.
  - unfold read_all. cbn [read_messages in_clear negb]. by rewrite Hm.
Qed.

(** The messages behind a TLS 1.3 hello, and behind a certificate in the clear. *)
Lemma shows_messages s : Forall is_u8 s →
  (shows s Tls13 → ∃ retries body rest, s = encode_messages (hellos (retries ++ [body])) ++ rest ∧
     Forall (λ b, server_hello b = Hello) retries ∧ server_hello body = Tls13) ∧
  (shows s CertificateSent → ∃ retries body cert rest,
     s = encode_messages (hellos (retries ++ [body]) ++ [(CERTIFICATE, cert)]) ++ rest ∧
     Forall (λ b, server_hello b = Hello) retries ∧ server_hello body = Tls12).
Proof.
  unfold shows. remember (length s) as n eqn:Hn. revert s Hn.
  induction (lt_wf n) as [n _ IH]. intros s Hn Hu.
  destruct (next_message s) as [[[k b] rest]|] eqn:Hm.
  2:{ unfold read_all. cbn [read_messages in_clear negb]. by rewrite Hm. }
  destruct (next_message_Some s _ rest Hu Hm) as (He & Hok & Hl). rewrite He in *.
  rewrite read_all_step by done. cbn [message_step fst snd].
  apply Forall_app in Hu as [_ Hur].
  destruct (Z.eqb_spec k SERVER_HELLO) as [->|]; [|by rewrite read_all_stop].
  destruct (server_hello b) eqn:Hb; try (by rewrite read_all_stop).
  - destruct (IH (length rest) ltac:(lia) rest eq_refl Hur) as [H13 H12]. split.
    + intros (retries & body & r & -> & Hf & Hs)%H13. exists (b :: retries), body, r.
      split_and!; [|by constructor|done]. cbn [app hellos fmap list_fmap]. by rewrite encode_messages_cons, app_assoc.
    + intros (retries & body & cert & r & -> & Hf & Hs)%H12. exists (b :: retries), body, cert, r.
      split_and!; [|by constructor|done]. cbn [app hellos fmap list_fmap]. by rewrite encode_messages_cons, app_assoc.
  - rewrite read_all_stop by done. split; [|done]. intros _. exists [], b, rest. split_and!; [|done..].
    cbn [app hellos fmap list_fmap]. by rewrite encode_messages_cons, app_nil_r.
  - destruct (read_all_Tls12 rest Hur) as [Hno Hc]. split; [done|]. intros (cert & r & ->)%Hc.
    exists [], b, cert, r. split_and!; [|done..]. cbn [app hellos fmap list_fmap].
    by rewrite !encode_messages_cons, app_nil_r, app_assoc.
  - by apply server_hello_cases in Hb.
Qed.

(** Conversely, these messages show it. *)
Lemma read_all_hellos retries body rest : Forall (λ b, server_hello b = Hello) retries →
  Forall message_ok (hellos (retries ++ [body])) →
  Forall is_u8 (encode_messages (hellos (retries ++ [body])) ++ rest) →
  read_all Hello (encode_messages (hellos (retries ++ [body])) ++ rest) = read_all (server_hello body) rest.
Proof.
  induction retries as [|b retries IH]; intros Hf Hok Hu; cbn [app hellos fmap list_fmap] in *;
    rewrite encode_messages_cons, <- app_assoc in *; inversion Hok; subst.
  - by rewrite read_all_step.
  - inversion Hf as [|? ? Hb ?]; subst. rewrite read_all_step by done. cbn [message_step fst snd Z.eqb].
    rewrite Z.eqb_refl, Hb. apply IH; [done..|]. by apply Forall_app in Hu as [_ ?].
Qed.

(** A flight of handshake records, none empty, and ChangeCipherSpec records whose handshake
    bytes are hellos ending in a full TLS 1.3 ServerHello. *)
Definition plain_record (r : tls_record) : Prop :=
  record_kind r = HANDSHAKE ∧ r.2 ≠ [] ∨ record_kind r = CHANGE_CIPHER_SPEC.

(** A handshake record while the hellos are read: what is left of them is kept, unless they are
    complete. *)
Lemma hello_record_step r hs tail p rest : record_kind r = HANDSHAKE → Forall is_u8 (hs ++ r.2) → Forall is_u8 tail →
  (length (hs ++ r.2) ≤ MAX_HANDSHAKE_BYTES)%nat → read_all Hello (hs ++ r.2) = (p, rest) → read_all p (rest ++ tail) = (Tls13, []) →
  if in_clear p then p = Hello ∧ record_step (Hello, hs) r = (Hello, rest) else (record_step (Hello, hs) r).1 = Tls13 ∧ tail = [].
Proof.
  intros Hk Hu Hut Hmax Hp Hs. unfold record_step. cbn [is_watching negb in_clear]. rewrite Hk.
  change (HANDSHAKE =? HANDSHAKE) with true. cbn [andb].
  pose proof (handshake_messages_read Hello (hs ++ r.2) Hu eq_refl) as Hm. rewrite Hp in Hm. simpl in Hm.
  destruct (read_all_rest Hello (hs ++ r.2) Hu) as [u He]. rewrite Hp in He. simpl in He.
  destruct (in_clear p) eqn:Hc.
  - assert (length rest ≤ MAX_HANDSHAKE_BYTES)%nat as Hle by (rewrite He, length_app in Hmax; lia).
    rewrite Hm. destruct (Nat.ltb_spec MAX_HANDSHAKE_BYTES (length rest)); [lia|]. destruct p; try done.
    destruct (read_all_Tls12 (rest ++ tail)) as [Hno _]; [|by rewrite Hs in Hno].
    rewrite He in Hu. apply Forall_app in Hu as [_ Hu]. by apply Forall_app.
  - rewrite read_all_stop in Hs by done. injection Hs as -> Hnil. apply app_eq_nil in Hnil as [-> ->].
    split; [|done]. by rewrite Hm.
Qed.

Lemma flight_after_tls13 s records tail :
  read_all Hello s = (Tls13, []) → (length s ≤ MAX_HANDSHAKE_BYTES)%nat → Forall is_u8 s →
  Forall plain_record records → handshake_stream records ++ tail = s →
  if in_clear (read_all Hello (handshake_stream records)).1
  then (read_all Hello (handshake_stream records)).1 = Hello ∧
       flight_after records = read_all Hello (handshake_stream records)
  else (flight_after records).1 = Tls13 ∧ tail = [].
Proof.
  intros Hs Hmax Hu. revert tail. induction records as [|r records IH] using rev_ind; intros tail Hpl Htail; [done|].
  apply Forall_app in Hpl as [Hpl Hr]. rewrite Forall_singleton in Hr.
  unfold flight_after in *. rewrite foldl_app. cbn [foldl].
  rewrite handshake_stream_app, handshake_stream_one in *. rewrite <- app_assoc in Htail.
  specialize (IH _ Hpl Htail).
  set (frag := if decide (record_kind r = HANDSHAKE) then r.2 else []) in *.
  pose proof Hu as Hu'. rewrite <- Htail, app_assoc in Hu'. apply Forall_app in Hu' as [Hu1 _].
  pose proof (read_all_app _ _ Hello Hu1) as Happ.
  destruct (read_all Hello (handshake_stream records)) as [p hs] eqn:Hread. simpl in IH.
  destruct (in_clear p) eqn:Hc; [destruct IH as [-> ->]|destruct IH as [IH Htl]].
  - destruct Hr as [[Hk Hne]|Hk].
    + subst frag. rewrite decide_True in * by done.
      destruct (read_all_rest Hello (handshake_stream records)) as [u Hru]; [by apply Forall_app in Hu1 as [? _]|].
      rewrite Hread in Hru. simpl in Hru. rewrite <- Htail, app_assoc in Hu. apply Forall_app in Hu as [_ Hut].
      assert (Forall is_u8 (hs ++ r.2)) as Hu2 by (rewrite Hru, <- app_assoc in Hu1; by apply Forall_app in Hu1 as [_ ?]).
      rewrite <- Htail, app_assoc, read_all_app, Happ in Hs by (by apply Forall_app).
      rewrite Happ. destruct (read_all Hello (hs ++ r.2)) as [p1 rest] eqn:Hp1. cbn [fst snd] in Hs |- *.
      assert (length (hs ++ r.2) ≤ MAX_HANDSHAKE_BYTES)%nat as Hle by (rewrite <- Htail, Hru, !length_app in Hmax; rewrite length_app; lia).
      pose proof (hello_record_step r hs tail p1 rest Hk Hu2 Hut Hle Hp1 Hs) as Hstep.
      destruct (in_clear p1); [|done]. by destruct Hstep as [-> ->].
    + subst frag. rewrite decide_False, app_nil_r in * by (by rewrite Hk). unfold record_step. rewrite Hk. simpl.
      rewrite Hread. by cbn.
  - apply app_eq_nil in Htl as [Hf ->].
    assert (record_kind r = CHANGE_CIPHER_SPEC) as Hk.
    { destruct Hr as [[Hk Hne]|Hk]; [|done]. subst frag. by rewrite decide_True in Hf. }
    rewrite Hf, app_nil_r, Hread. cbn [fst]. rewrite Hc. split; [|done].
    destruct (foldl record_step (Hello, []) records) as [q hq]. simpl in IH. subst q. unfold record_step. simpl.
    rewrite Hk. by rewrite andb_false_r.
Qed.

(** Handshake records, however the messages are split over them. *)
Lemma flight_after_clear records : Forall is_u8 (handshake_stream records) →
  (length (handshake_stream records) ≤ MAX_HANDSHAKE_BYTES)%nat →
  ¬ shows (handshake_stream records) Tls13 → Forall (λ r, record_kind r = HANDSHAKE) records →
  if in_clear (read_all Hello (handshake_stream records)).1
  then flight_after records = read_all Hello (handshake_stream records)
  else shows (handshake_stream records) (flight_after records).1.
Proof.
  induction records as [|r records IH] using rev_ind; intros Hu Hmax Hno Hk; [done|].
  apply Forall_app in Hk as [Hk Hr]. rewrite Forall_singleton in Hr.
  rewrite handshake_stream_app, handshake_stream_one in *. rewrite decide_True in * by done.
  pose proof Hu as Hu1. apply Forall_app in Hu1 as [Hu1 _]. rewrite length_app in Hmax.
  assert (¬ shows (handshake_stream records) Tls13) as Hno1 by (intros ?; by apply Hno, shows_app).
  specialize (IH Hu1 ltac:(lia) Hno1 Hk). unfold flight_after in *. rewrite foldl_app. cbn [foldl].
  pose proof (read_all_app _ _ Hello Hu) as Happ. unfold shows in *.
  destruct (read_all Hello (handshake_stream records)) as [p hs] eqn:Hread. simpl in IH, Hno1.
  destruct (in_clear p) eqn:Hc.
  - rewrite IH. unfold record_step. replace (is_watching p) with true by (by destruct p). cbn [negb].
    rewrite Hr, Hc. change (HANDSHAKE =? HANDSHAKE) with true. cbn [andb].
    destruct (read_all_rest Hello (handshake_stream records) Hu1) as [u Hru]. rewrite Hread in Hru. simpl in Hru.
    assert (Forall is_u8 (hs ++ r.2)) as Hu2 by (rewrite Hru, <- app_assoc in Hu; by apply Forall_app in Hu as [_ ?]).
    pose proof (handshake_messages_read p (hs ++ r.2) Hu2 Hc) as Hm.
    destruct (read_all_rest p (hs ++ r.2) Hu2) as [u2 He].
    rewrite Happ in *. destruct (read_all p (hs ++ r.2)) as [p1 rest] eqn:Hp1. simpl in *.
    destruct (in_clear p1) eqn:Hc1; [|done]. rewrite Hm.
    apply (f_equal length) in He. apply (f_equal length) in Hru. rewrite !length_app in *.
    by destruct (Nat.ltb_spec MAX_HANDSHAKE_BYTES (length rest)); [lia|].
  - rewrite Happ, read_all_stop by done. simpl. rewrite Hc.
    destruct (foldl record_step (Hello, []) records) as [q hq]. simpl in IH. subst q.
    rewrite record_step_off; [done|]. by destruct p.
Qed.

(** ** The bytes of a ServerHello *)

Definition encode_extension (e : Z * bytes) : bytes :=
  to_be16 e.1 ++ to_be16 (Z.of_nat (length e.2)) ++ e.2.
Definition encode_extensions (exts : list (Z * bytes)) : bytes := concat (encode_extension <$> exts).
Definition extension_ok (e : Z * bytes) : Prop := is_u16 e.1 ∧ Z.of_nat (length e.2) <= U16_MAX.
Record server_hello_fields := {
  sh_version : Z * Z;
  sh_random : bytes;
  sh_session_id : bytes;
  sh_suite : Z * Z;
  sh_compression : Z;
  sh_extensions : list (Z * bytes)
}.
Definition encode_hello (h : server_hello_fields) : bytes :=
  [(sh_version h).1; (sh_version h).2] ++ sh_random h ++ Z.of_nat (length (sh_session_id h)) :: sh_session_id h ++
  [(sh_suite h).1; (sh_suite h).2; sh_compression h] ++
  (if decide (sh_extensions h = []) then []
   else to_be16 (Z.of_nat (length (encode_extensions (sh_extensions h)))) ++ encode_extensions (sh_extensions h)).
Record hello_ok (h : server_hello_fields) : Prop := {
  ho_random : length (sh_random h) = 32%nat;
  ho_session : Z.of_nat (length (sh_session_id h)) <= U8_MAX;
  ho_extensions : Forall extension_ok (sh_extensions h);
  ho_length : Z.of_nat (length (encode_extensions (sh_extensions h))) <= U16_MAX
}.

(** What the extensions say: TLS 1.3 selected, and a session resumed. *)
Definition extension_step (st : bool * bool) (e : Z * bytes) : bool * bool :=
  if e.1 =? SUPPORTED_VERSIONS then (bool_decide (e.2 = [3; 4]), st.2)
  else if e.1 =? PRE_SHARED_KEY then (st.1, true) else st.
Definition hello_means (h : server_hello_fields) : FlightProgress :=
  if decide (sh_random h = HELLO_RETRY_REQUEST) then Hello
  else match foldl extension_step (false, false) (sh_extensions h) with
       | (true, false) => Tls13
       | (true, true) => NoCertificate
       | (false, _) => Tls12
       end.

Lemma u16_at_be16 pre v rest : 0 <= v <= U16_MAX → u16_at (pre ++ to_be16 v ++ rest) (length pre) = Some v.
Proof.
  intros Hv. unfold u16_at, to_be16.
  rewrite (lookup_app_r pre _ (length pre)), (lookup_app_r pre _ (S (length pre))) by lia.
  rewrite Nat.sub_diag. replace (S (length pre) - length pre)%nat with 1%nat by lia.
  simpl. by rewrite be16_split.
Qed.

Lemma extensions_loop_encode exts fuel t r : Forall extension_ok exts → (length exts < fuel)%nat →
  extensions_loop fuel (encode_extensions exts) t r = Some (foldl extension_step (t, r) exts).
Proof.
  revert fuel t r. induction exts as [|[k d] exts IH]; intros fuel t r Hok Hf; (destruct fuel as [|fuel]; [simpl in Hf; lia|]).
  { done. }
  apply Forall_cons in Hok as [[Hk Hd] Hok]. unfold is_u16 in Hk. cbn [fst snd] in Hk, Hd.
  unfold encode_extensions. cbn [fmap list_fmap concat]. fold (encode_extensions exts).
  cbn [extensions_loop]. unfold encode_extension at 1. cbn [fst snd]. simpl (length (to_be16 k)).
  rewrite <- !app_assoc.
  pose proof (u16_at_be16 [] k (to_be16 (Z.of_nat (length d)) ++ d ++ encode_extensions exts)) as H1.
  pose proof (u16_at_be16 (to_be16 k) (Z.of_nat (length d)) (d ++ encode_extensions exts)) as H2.
  cbn [app length to_be16] in H1, H2. unfold encode_extension. cbn [fst snd]. rewrite <- !app_assoc.
  cbn [app to_be16]. rewrite H1 by (unfold U16_MAX; lia). cbn [mbind option_bind]. rewrite H2 by lia.
  cbn [mbind option_bind length Nat.eqb]. rewrite Nat2Z.id, get_range_body.
  rewrite length_app. destruct (Nat.leb_spec (length d) (length d + length (encode_extensions exts))); [|lia].
  cbn [mbind option_bind]. rewrite take_app_length.
  replace (drop (4 + length d) _) with (encode_extensions exts)
    by (cbn [Nat.add drop]; by rewrite drop_app_length).
  cbn [foldl]. unfold extension_step at 2. cbn [fst snd].
  destruct (k =? SUPPORTED_VERSIONS); [|destruct (k =? PRE_SHARED_KEY)]; apply IH; (done || simpl in Hf; lia).
Qed.

(** The fields of an encoded ServerHello are where the reader looks for them. *)
Lemma hello_fields (v1 v2 c1 c2 cm : Z) (random sid tail : bytes) : length random = 32%nat →
  let body := [v1; v2] ++ random ++ Z.of_nat (length sid) :: sid ++ [c1; c2; cm] ++ tail in
  get_range 2 34 body = Some random ∧ body !! 34%nat = Some (Z.of_nat (length sid)) ∧
  get_range (35 + length sid + 3) (length body) body = Some tail.
Proof.
  intros Hr body. assert (length body = 35 + length sid + 3 + length tail)%nat as Hlen.
  { subst body. simpl. rewrite !length_app, Hr. simpl. rewrite length_app. simpl. lia. }
  split_and!.
  - unfold get_range. rewrite Hlen. destruct (Nat.leb_spec 34 (35 + length sid + 3 + length tail)); [|lia].
    cbn [Nat.leb andb]. f_equal. subst body. unfold slice. cbn [Nat.sub drop app].
    by rewrite drop_0, take_app_length' by done.
  - subst body. change 34%nat with (2 + 32)%nat. rewrite <- Hr, app_assoc.
    replace (2 + length random)%nat with (length ([v1; v2] ++ random) + 0)%nat by (simpl; lia).
    rewrite lookup_app_r by lia. by rewrite Nat.add_sub'.
  - unfold get_range. rewrite Nat.leb_refl, Hlen.
    destruct (Nat.leb_spec (35 + length sid + 3) (35 + length sid + 3 + length tail)); [|lia]. cbn [andb].
    f_equal. unfold slice. rewrite take_ge by (rewrite length_drop; lia).
    set (head := [v1; v2] ++ random ++ Z.of_nat (length sid) :: sid ++ [c1; c2; cm]).
    assert (body = head ++ tail) as ->.
    { subst body head. cbn [app]. rewrite <- !app_assoc. cbn [app]. by rewrite <- app_assoc. }
    apply drop_app_length'. subst head. rewrite !length_app. simpl. rewrite length_app. simpl. lia.
Qed.
(** The block of extensions and its length. *)
Lemma extensions_block (exts : bytes) : Z.of_nat (length exts) <= U16_MAX →
  let rest := to_be16 (Z.of_nat (length exts)) ++ exts in
  u16_at rest 0 = Some (Z.of_nat (length exts)) ∧ get_range 2 (2 + length exts) rest = Some exts.
Proof.
  intros Hl rest. split.
  - pose proof (u16_at_be16 [] (Z.of_nat (length exts)) exts) as H1. cbn [app length] in H1. apply H1. lia.
  - unfold get_range, rest. rewrite length_app. cbn [length to_be16].
    destruct (Nat.leb_spec 2 (2 + length exts)); [|lia]. rewrite Nat.leb_refl. cbn [andb]. f_equal.
    unfold slice, to_be16. cbn [app drop]. rewrite drop_0. apply take_ge. lia.
Qed.
Lemma encode_extensions_length exts : (length exts ≤ length (encode_extensions exts))%nat.
Proof.
  induction exts as [|e exts IH]; [done|]. unfold encode_extensions in *. cbn [fmap list_fmap concat length].
  rewrite length_app. unfold encode_extension at 1, to_be16. cbn [app length]. lia.
Qed.

Lemma server_hello_encode h : hello_ok h → server_hello (encode_hello h) = hello_means h.
Proof.
  intros [Hr Hs He Hl]. destruct h as [[v1 v2] random sid [c1 c2] cm exts]. unfold hello_means.
  unfold server_hello, server_hello_read, encode_hello.
  cbn [sh_version sh_random sh_session_id sh_suite sh_compression sh_extensions fst snd] in *.
  set (tail := if decide (exts = []) then [] else _).
  destruct (hello_fields v1 v2 c1 c2 cm random sid tail Hr) as (-> & Hsid & Htail).
  cbn [mbind option_bind]. destruct (decide (random = HELLO_RETRY_REQUEST)) as [Hhrr|Hhrr]; [by rewrite bool_decide_true|].
  rewrite bool_decide_false by done. rewrite Hsid. cbn [mbind option_bind]. rewrite Nat2Z.id, Htail.
  cbn [mbind option_bind]. subst tail. destruct (decide (exts = [])) as [->|Hne]; [done|].
  destruct (extensions_block _ Hl) as [-> Hblock].
  destruct (Nat.eqb_spec (length (to_be16 (Z.of_nat (length (encode_extensions exts))) ++ encode_extensions exts)) 0)
    as [H0|_]; [by rewrite length_app in H0|].
  cbn [mbind option_bind]. rewrite Nat2Z.id, Hblock. cbn [mbind option_bind].
  rewrite extensions_loop_encode; [|done|pose proof (encode_extensions_length exts); lia].
  cbn [mbind option_bind]. by destruct (foldl extension_step (false, false) exts) as [[] []].
Qed.

(** ** Theorems *)

Definition example_hello : server_hello_fields :=
  {| sh_version := (3, 3); sh_random := replicate 32 1; sh_session_id := replicate 32 7; sh_suite := (19, 1);
     sh_compression := 0; sh_extensions := [(51, [0; 29; 0; 2; 1; 2]); (43, [3; 4])] |}.
Definition example_records : list tls_record :=
  [(HANDSHAKE, (3, 3), encode_message (SERVER_HELLO, encode_hello example_hello)); (CHANGE_CIPHER_SPEC, (3, 3), [1])].
Definition example_flight : list bytes :=
  (λ b, [b]) <$> concat (encode_record <$> example_records) ++ encode_record (APPLICATION_DATA, (3, 3), replicate 40 9).

(** Bytes that start with TLS records carrying a certificate to its last byte. *)
Definition carries_certificate (flight : bytes) : Prop :=
  ∃ records partial, flight = concat (encode_record <$> records) ++ partial ∧
  ((∃ retries body cert rest,
      handshake_stream records = encode_messages (hellos (retries ++ [body]) ++ [(CERTIFICATE, cert)]) ++ rest ∧
      Forall (λ b, server_hello b = Hello) retries ∧ server_hello body = Tls12) ∨
   (∃ pre v frag post retries body rest, records = pre ++ (APPLICATION_DATA, v, frag) :: post ∧
      handshake_stream pre = encode_messages (hellos (retries ++ [body])) ++ rest ∧
      Forall (λ b, server_hello b = Hello) retries ∧ server_hello body = Tls13)).
Lemma certificate_sent_carried pieces : Forall is_u8 (concat pieces) →
  fr_progress (foldl written FlightRecords_new pieces) = CertificateSent → carries_certificate (concat pieces).
Proof.
  intros Hu Hsent. rewrite written_pieces in Hsent by apply FlightRecords_new_wf.
  destruct (written_after _ Hu) as (records & partial & He & Hok & Hp). exists records, partial. split; [done|].
  pose proof (flight_after_inv records Hok) as Hinv. unfold flight_inv in Hinv. rewrite <- Hp, Hsent in Hinv.
  destruct Hinv as [Hs|(pre & v & frag & post & -> & Hs)].
  - left. by apply shows_messages in Hs; [|apply handshake_stream_u8].
  - right. apply Forall_app in Hok as [Hok _].
    apply shows_messages in Hs as (retries & body & rest & ? & ? & ?); [|by apply handshake_stream_u8].
    by exists pre, v, frag, post, retries, body, rest.
Qed.

(** C28: Whatever bytes the proxy writes, in whatever pieces, [CertificateSent] is only reached
    when the bytes written start with TLS records that carry a certificate to the last byte:
    either the handshake bytes in the clear hold a TLS 1.2 ServerHello (after retries) and a
    whole Certificate message, or they hold a ServerHello that starts a full TLS 1.3 handshake
    and a whole encrypted record follows it. *)
Theorem certificate_sent_is_real (pieces : list bytes) :
  Forall is_u8 (concat pieces) →
  fr_progress (foldl written FlightRecords_new pieces) = CertificateSent →
  ∃ records partial, concat pieces = concat (encode_record <$> records) ++ partial ∧
  ((∃ retries body cert rest,
      handshake_stream records = encode_messages (hellos (retries ++ [body]) ++ [(CERTIFICATE, cert)]) ++ rest ∧
      Forall (λ b, server_hello b = Hello) retries ∧ server_hello body = Tls12) ∨
   (∃ pre v frag post retries body rest, records = pre ++ (APPLICATION_DATA, v, frag) :: post ∧
      handshake_stream pre = encode_messages (hellos (retries ++ [body])) ++ rest ∧
      Forall (λ b, server_hello b = Hello) retries ∧ server_hello body = Tls13)).
Proof. apply certificate_sent_carried. Qed.

Lemma certificate_sent_is_real_witness :
  ∃ records partial, concat example_flight = concat (encode_record <$> records) ++ partial.
Proof.
  destruct (certificate_sent_is_real example_flight) as (records & partial & He & _).
  - apply (bool_decide_unpack _). vm_compute. exact I.
  - vm_compute. reflexivity.
  - exists records, partial. exact He.
Defined.

(** Whole records leave the progress of the flight, and a certificate that was sent stays so. *)
Lemma written_flight records : Forall record_ok records →
  fr_progress (written FlightRecords_new (concat (encode_record <$> records))) = (flight_after records).1.
Proof.
  intros Hok. pose proof (written_records records (0, (0, 0), []) 0) as Hw. rewrite take_0, app_nil_r in Hw.
  by rewrite Hw; [|done..|simpl; lia].
Qed.
Lemma sent_stays records more : Forall record_ok records → (flight_after records).1 = CertificateSent →
  fr_progress (written FlightRecords_new (concat (encode_record <$> records) ++ more)) = CertificateSent.
Proof.
  intros Hok Hf. rewrite <-(written_flight records Hok) in Hf. rewrite <- written_app by apply FlightRecords_new_wf.
  rewrite written_bytes, release_progress, foldl_byte_step_off; [done| |by auto using written_wf, FlightRecords_new_wf].
  unfold watching. by rewrite Hf.
Qed.

(** The two handshakes the proxy can run are recognised, however the bytes are cut into
    writes and the messages into records. TLS 1.3: non-empty handshake records and
    ChangeCipherSpec records holding a ServerHello that selects TLS 1.3 and resumes nothing
    (before it, any HelloRetryRequests), then an encrypted record: the certificate counts as
    sent with the last byte of that record and not before. TLS 1.2: handshake records holding
    a ServerHello without TLS 1.3 and a Certificate message. *)
Theorem handshakes_are_recognised (pieces : list bytes) (records : list tls_record) (hello : server_hello_fields)
    (retries : list bytes) :
  Forall record_ok records → Forall is_u8 (handshake_stream records) →
  (length (handshake_stream records) ≤ MAX_HANDSHAKE_BYTES)%nat → hello_ok hello →
  Forall (λ b, server_hello b = Hello) retries → Forall message_ok (hellos (retries ++ [encode_hello hello])) →
  (hello_means hello = Tls13 → Forall plain_record records →
   handshake_stream records = encode_messages (hellos (retries ++ [encode_hello hello])) →
   ∀ v frag, record_ok (APPLICATION_DATA, v, frag) →
     (∀ n, (n < length (encode_record (APPLICATION_DATA, v, frag)))%nat →
      concat pieces = concat (encode_record <$> records) ++ take n (encode_record (APPLICATION_DATA, v, frag)) →
      fr_progress (foldl written FlightRecords_new pieces) = Tls13) ∧
     (∀ more, concat pieces = concat (encode_record <$> records) ++ encode_record (APPLICATION_DATA, v, frag) ++ more →
      fr_progress (foldl written FlightRecords_new pieces) = CertificateSent)) ∧
  (hello_means hello = Tls12 → Forall (λ r, record_kind r = HANDSHAKE) records →
   ∀ cert rest more, message_ok (CERTIFICATE, cert) →
     handshake_stream records =
       encode_messages (hellos (retries ++ [encode_hello hello]) ++ [(CERTIFICATE, cert)]) ++ rest →
     concat pieces = concat (encode_record <$> records) ++ more →
     fr_progress (foldl written FlightRecords_new pieces) = CertificateSent).
Proof.
  intros Hok Hu Hmax Hhello Hret Hmsg. rewrite written_pieces by apply FlightRecords_new_wf.
  split.
  - intros Hmean Hplain Hst v frag Happ.
    assert ((flight_after records).1 = Tls13) as H13.
    { pose proof (flight_after_tls13 (handshake_stream records) records []) as Hf.
      assert (read_all Hello (handshake_stream records) = (Tls13, [])) as Hr.
      { rewrite Hst. rewrite <- (app_nil_r (encode_messages _)). rewrite read_all_hellos; [|done..|].
        - by rewrite server_hello_encode, Hmean.
        - by rewrite app_nil_r, <- Hst. }
      rewrite Hr in Hf. by apply Hf; [..|apply app_nil_r]. }
    split.
    + intros n Hn ->. by rewrite written_records.
    + intros more ->. rewrite app_assoc.
      replace (encode_record (APPLICATION_DATA, v, frag)) with
        (concat (encode_record <$> [(APPLICATION_DATA, v, frag)])) by apply app_nil_r.
      rewrite <- concat_app, <- fmap_app. apply sent_stays; [by apply Forall_app; auto|].
      unfold flight_after in *. rewrite foldl_app. cbn [foldl].
      destruct (foldl record_step (Hello, []) records) as [p hs]. simpl in H13. by subst.
  - intros Hmean Hk cert rest more Hcert Hst ->. apply sent_stays; [done|].
    assert (shows (handshake_stream records) CertificateSent) as Hsh.
    { unfold shows. rewrite Hst, encode_messages_app, <- app_assoc in *.
      rewrite read_all_hellos by done. rewrite server_hello_encode, Hmean by done.
      rewrite encode_messages_cons, <- app_assoc in *. cbn [encode_messages fmap list_fmap concat app] in *.
      apply Forall_app in Hu as [_ Hu]. rewrite read_all_step by done. by rewrite read_all_stop. }
    pose proof (flight_after_clear records Hu Hmax) as Hf. unfold shows in *. rewrite Hsh in Hf. symmetry. by apply Hf.
Qed.

Lemma handshakes_are_recognised_witness :
  fr_progress (foldl written FlightRecords_new example_flight) = CertificateSent.
Proof.
  refine (proj2 (proj1 (handshakes_are_recognised example_flight example_records example_hello [] _ _ _ _ _ _) _ _ _
            (3, 3) (replicate 40 9) _) [] _).
  - apply (bool_decide_unpack _). vm_compute. exact I.
  - apply (bool_decide_unpack _). vm_compute. exact I.
  - vm_compute. lia.
  - split; [reflexivity|vm_compute; discriminate| |vm_compute; discriminate].
    apply (bool_decide_unpack _). vm_compute. exact I.
  - constructor.
  - apply (bool_decide_unpack _). vm_compute. exact I.
  - vm_compute. reflexivity.
  - constructor; [left; split; [reflexivity|discriminate]|]. constructor; [right; reflexivity|constructor].
  - vm_compute. reflexivity.
  - vm_compute. discriminate.
  - vm_compute. reflexivity.
Defined.
