(* ===== verification/Hello.v ===== *)
(** * Reading a ClientHello and replaying it ([mitm/src/hello.rs], [rewind.rs])

    The proxy reads a connection's first bytes to decide what to do with it, and replays them
    to whatever serves it. rustls' [Acceptor], which recognises the ClientHello, is the class
    [Acceptor]. A peer is the list of answers its next reads get; when the list runs out, the
    read is still waiting. *)
From S2P Require Import Prelude RustStr Collections Wire Io.

Definition MAX_CLIENT_HELLO : nat := Z.to_nat (64 * 1024).

#[global] Opaque MAX_CLIENT_HELLO.

Record ClientHelloInfo := {
  server_name : option bytes;
  alpn : list bytes
}.

Definition offers_http (self : ClientHelloInfo) : bool :=
  (length (alpn self) =? 0)%nat
  || existsb (λ p, bool_decide (p = lit "h2") || bool_decide (p = lit "http/1.1")) (alpn self).

Inductive HelloError := HelloNotTls | HelloIo (e : ErrorKind).

Definition looks_like_tls (first_bytes : bytes) : bool :=
  bool_decide (first_bytes !! 0%nat = Some 0x16)
  && match first_bytes !! 1%nat with None => true | Some v => v =? 3 end.

(** [read_more]: what the peer sends next is appended to the buffer. *)
Definition read_more (buffer : bytes) (answer : ReadAnswer) : bytes * result nat ErrorKind :=
  match answer with
  | Ok b => (buffer ++ b, Ok (length b))
  | Err e => (buffer, Err e)
  end.

(** [rustls::server::Acceptor]: [read_tls] takes bytes and says how many, at most all of them;
    [accept] gives the ClientHello once it has one. *)
Class Acceptor := {
  acceptor : Type;
  acceptor_default : acceptor;
  read_tls : acceptor → bytes → acceptor * result nat unit;
  accept : acceptor → acceptor * result (option ClientHelloInfo) unit;
  read_tls_at_most : ∀ a bs a' n, read_tls a bs = (a', Ok n) → (n ≤ length bs)%nat
}.

Section read.
Context `{Acceptor}.

(** [while fed < buffer.len()]: [None] when the bytes are not TLS. Every turn feeds a byte or
    ends the loop, so the buffer's length is fuel enough ([feed_loop_fuel]). *)
Fixpoint feed_loop (fuel : nat) (a : acceptor) (buffer : bytes) (fed : nat) : option (acceptor * nat) :=
  match fuel with
  | O => Some (a, fed)
  | S fuel' =>
      if (fed <? length buffer)%nat then
        match read_tls a (drop fed buffer) with
        | (a, Ok O) => Some (a, fed)
        | (a, Ok n) => feed_loop fuel' a buffer (fed + n)
        | (_, Err _) => None
        end
      else Some (a, fed)
  end.

(** [read_client_hello]: the result ([None] while a read is waiting), the buffer, and the
    answers not read. *)
Fixpoint read_client_hello_loop (answers : list ReadAnswer) (a : acceptor) (fed : nat) (buffer : bytes)
    : option (result ClientHelloInfo HelloError) * bytes * list ReadAnswer :=
  match feed_loop (length buffer) a buffer fed with
  | None => (Some (Err HelloNotTls), buffer, answers)
  | Some (a, fed) =>
      match accept a with
      | (_, Ok (Some hello)) => (Some (Ok hello), buffer, answers)
      | (_, Err _) => (Some (Err HelloNotTls), buffer, answers)
      | (a, Ok None) =>
          if (MAX_CLIENT_HELLO <=? length buffer)%nat then (Some (Err HelloNotTls), buffer, answers)
          else
            match answers with
            | [] => (None, buffer, [])
            | answer :: answers' =>
                let '(buffer, read) := read_more buffer answer in
                match read with
                | Ok O => (Some (Err (HelloIo UnexpectedEof)), buffer, answers')
                | Ok _ => read_client_hello_loop answers' a fed buffer
                | Err e => (Some (Err (HelloIo e)), buffer, answers')
                end
            end
      end
  end.
Definition read_client_hello (answers : list ReadAnswer) (buffer : bytes)
    : option (result ClientHelloInfo HelloError) * bytes * list ReadAnswer :=
  read_client_hello_loop answers acceptor_default 0 buffer.

(** ** Facts *)

Lemma feed_loop_fuel fuel fuel' a buffer fed : (length buffer ≤ fuel + fed)%nat → (length buffer ≤ fuel' + fed)%nat →
  feed_loop fuel a buffer fed = feed_loop fuel' a buffer fed.
Proof.
  revert fuel' a fed. induction fuel as [|fuel IH]; intros fuel' a fed H1 H2.
  - destruct fuel'; [done|]. simpl. by destruct (Nat.ltb_spec fed (length buffer)); [lia|].
  - destruct fuel' as [|fuel']; simpl; destruct (Nat.ltb_spec fed (length buffer)); try done; [lia|].
    destruct (read_tls a (drop fed buffer)) as [a' [[|n]|e]]; [done| |done]. apply IH; lia.
Qed.

(** Nothing read is lost: the buffer grows by what was received, and what was not read is the
    rest of the answers. No read starts once the buffer is full. *)
Lemma read_client_hello_loop_keeps answers a fed buffer res buffer' rest :
  read_client_hello_loop answers a fed buffer = (res, buffer', rest) →
  ∃ read, answers = read ++ rest ∧ buffer' = buffer ++ received read ∧
  ((MAX_CLIENT_HELLO ≤ length buffer)%nat → read = []) ∧
  (∀ m, (∀ b, Ok b ∈ read → (length b ≤ m)%nat) →
    (length buffer < MAX_CLIENT_HELLO)%nat → (length buffer' < MAX_CLIENT_HELLO + m)%nat).
Proof.
  assert (∀ (ans : list ReadAnswer) (buf : bytes), ∃ read, ans = read ++ ans ∧ buf = buf ++ received read ∧
    ((MAX_CLIENT_HELLO ≤ length buf)%nat → read = []) ∧
    (∀ m, (∀ b, Ok b ∈ read → (length b ≤ m)%nat) →
      (length buf < MAX_CLIENT_HELLO)%nat → (length buf < MAX_CLIENT_HELLO + m)%nat)) as Hnone.
  { intros ans buf. exists []. simpl. rewrite app_nil_r. split_and!; [done..|intros; lia]. }
  revert a fed buffer. induction answers as [|answer answers IH]; intros a fed buffer; cbn [read_client_hello_loop];
    destruct (feed_loop (length buffer) a buffer fed) as [[a1 fed1]|];
    try (intros [= <- <- <-]; apply Hnone).
  - destruct (accept a1) as [a2 [[h|]|e]]; [|destruct (Nat.leb _ _)|]; intros [= <- <- <-]; apply Hnone.
  - destruct (accept a1) as [a2 [[h|]|e]];
      [|destruct (Nat.leb_spec MAX_CLIENT_HELLO (length buffer)) as [?|Hlt]|];
      try (intros [= <- <- <-]; apply Hnone).
    destruct answer as [b|e]; cbn [read_more].
    + destruct (length b) as [|n] eqn:Hb.
      * intros [= <- <- <-]. apply nil_length_inv in Hb as ->. exists [Ok []]. simpl. rewrite app_nil_r.
        split_and!; [done..|lia|intros; lia].
      * intros (read & -> & -> & Hfull & Hm)%IH. exists (Ok b :: read). simpl.
        split_and!; [done|by rewrite app_assoc|lia|]. intros m Hall _.
        assert (length b ≤ m)%nat by (apply Hall; by left).
        destruct (decide (length (buffer ++ b) < MAX_CLIENT_HELLO)%nat) as [Hl|Hl].
        -- apply Hm; [intros b' ?; apply Hall; by right|done].
        -- rewrite Hfull by lia. simpl. rewrite app_nil_r, length_app. lia.
    + intros [= <- <- <-]. exists [Err e]. simpl. rewrite app_nil_r. split_and!; [done..|lia|intros; lia].
Qed.
End read.

(** ** Replaying *)

(** [Rewind<T>] over an inner stream [T] whose [poll_read] with room for [n] bytes and
    [poll_write] are given. *)
Class Stream (T : Type) := {
  inner_poll_read : T → nat → T * Poll (result bytes ErrorKind);
  inner_poll_write : T → bytes → T * Poll (result nat ErrorKind);
  inner_poll_flush : T → T * Poll (result unit ErrorKind);
  inner_poll_shutdown : T → T * Poll (result unit ErrorKind)
}.

Record Rewind (T : Type) := {
  prefix : bytes;
  pos : nat;
  inner : T
}.
Arguments prefix {T} r.
Arguments pos {T} r.
Arguments inner {T} r.

Section rewind.
Context {T : Type} `{Stream T}.

Definition Rewind_new (prefix : bytes) (inner : T) : Rewind T :=
  {| prefix := prefix; pos := 0; inner := inner |}.

(** [room] is [buf.remaining()]; the answer is what was put into the buffer. *)
Definition Rewind_poll_read (self : Rewind T) (room : nat) : Rewind T * Poll (result bytes ErrorKind) :=
  if (pos self <? length (prefix self))%nat then
    let n := Nat.min (length (prefix self) - pos self) room in
    let start := pos self in
    let data := slice start (start + n) (prefix self) in
    let pos' := (pos self + n)%nat in
    (if (pos' =? length (prefix self))%nat
     then {| prefix := []; pos := 0; inner := inner self |}
     else {| prefix := prefix self; pos := pos'; inner := inner self |}, Ready (Ok data))
  else
    let '(inner', answer) := inner_poll_read (inner self) room in
    ({| prefix := prefix self; pos := pos self; inner := inner' |}, answer).

Definition with_inner {A} (self : Rewind T) (polled : T * A) : Rewind T * A :=
  ({| prefix := prefix self; pos := pos self; inner := polled.1 |}, polled.2).
Definition Rewind_poll_write (self : Rewind T) (buf : bytes) := with_inner self (inner_poll_write (inner self) buf).
Definition Rewind_poll_flush (self : Rewind T) := with_inner self (inner_poll_flush (inner self)).
Definition Rewind_poll_shutdown (self : Rewind T) := with_inner self (inner_poll_shutdown (inner self)).

(** What a use of the stream does. *)
Inductive stream_op := ReadOp (room : nat) | WriteOp (buf : bytes) | FlushOp | ShutdownOp.
Inductive stream_answer :=
  ReadAns (a : Poll (result bytes ErrorKind)) | WriteAns (a : Poll (result nat ErrorKind))
| UnitAns (a : Poll (result unit ErrorKind)).

Definition inner_op (t : T) (op : stream_op) : T * stream_answer :=
  match op with
  | ReadOp room => let '(t, a) := inner_poll_read t room in (t, ReadAns a)
  | WriteOp buf => let '(t, a) := inner_poll_write t buf in (t, WriteAns a)
  | FlushOp => let '(t, a) := inner_poll_flush t in (t, UnitAns a)
  | ShutdownOp => let '(t, a) := inner_poll_shutdown t in (t, UnitAns a)
  end.
Definition rewind_op (r : Rewind T) (op : stream_op) : Rewind T * stream_answer :=
  match op with
  | ReadOp room => let '(r, a) := Rewind_poll_read r room in (r, ReadAns a)
  | WriteOp buf => let '(r, a) := Rewind_poll_write r buf in (r, WriteAns a)
  | FlushOp => let '(r, a) := Rewind_poll_flush r in (r, UnitAns a)
  | ShutdownOp => let '(r, a) := Rewind_poll_shutdown r in (r, UnitAns a)
  end.

(** The specification: a stream with some bytes still to be replayed. *)
Definition replay_op (st : bytes * T) (op : stream_op) : bytes * T * stream_answer :=
  let '(pending, t) := st in
  match op, pending with
  | ReadOp room, _ :: _ => (drop room pending, t, ReadAns (Ready (Ok (take room pending))))
  | _, _ => let '(t, a) := inner_op t op in (pending, t, a)
  end.

Fixpoint rewind_run (r : Rewind T) (ops : list stream_op) : Rewind T * list stream_answer :=
  match ops with
  | [] => (r, [])
  | op :: ops' =>
      let '(r, a) := rewind_op r op in let '(r, answers) := rewind_run r ops' in (r, a :: answers)
  end.
Fixpoint replay_run (st : bytes * T) (ops : list stream_op) : bytes * T * list stream_answer :=
  match ops with
  | [] => (st, [])
  | op :: ops' =>
      let '(st, a) := replay_op st op in let '(st, answers) := replay_run st ops' in (st, a :: answers)
  end.

(** The bytes of the prefix not replayed yet. *)
Definition replaying (r : Rewind T) : bytes * T := (drop (pos r) (prefix r), inner r).

Lemma rewind_op_replays r op : (pos r ≤ length (prefix r))%nat →
  replay_op (replaying r) op = (replaying (rewind_op r op).1, (rewind_op r op).2) ∧
  (pos (rewind_op r op).1 ≤ length (prefix (rewind_op r op).1))%nat.
Proof.
  intros Hpos. destruct r as [p n t]. unfold replaying, replay_op in *. simpl in *.
  destruct op as [room|buf| |]; simpl.
  - unfold Rewind_poll_read. simpl. destruct (Nat.ltb_spec n (length p)) as [Hlt|Hge].
    + assert (drop n p ≠ []) as Hne.
      { intros Hd. apply (f_equal length) in Hd. rewrite length_drop in Hd. simpl in Hd. lia. }
      destruct (drop n p) as [|x d] eqn:Hd; [done|]. rewrite <- Hd.
      assert (slice n (n + Nat.min (length p - n) room) p = take room (drop n p)) as ->.
      { unfold slice. replace (n + Nat.min (length p - n) room - n)%nat with (Nat.min (length p - n) room) by lia.
        destruct (decide (room ≤ length p - n)%nat); [by rewrite Nat.min_r by lia|].
        rewrite Nat.min_l by lia. by rewrite !take_ge by (rewrite length_drop; lia). }
      destruct (Nat.eqb_spec (n + Nat.min (length p - n) room) (length p)) as [He|Hn]; simpl.
      * split; [|lia]. by rewrite (drop_ge (drop n p)) by (rewrite length_drop; lia).
      * split; [|lia]. rewrite drop_drop. do 3 f_equal. lia.
    + rewrite drop_ge by lia. destruct (inner_poll_read t room) as [t' a]. simpl. by rewrite drop_ge by lia.
  - destruct (inner_poll_write t buf) as [t' a] eqn:Hw. simpl. by destruct (drop n p).
  - destruct (inner_poll_flush t) as [t' a] eqn:Hw. simpl. by destruct (drop n p).
  - destruct (inner_poll_shutdown t) as [t' a] eqn:Hw. simpl. by destruct (drop n p).
Qed.

(** Whatever is done with a rewound stream, it answers exactly as the stream would that
    still had the inspected bytes to deliver: reads give those bytes first, in order and once,
    then the inner stream's own answers, while writes, flushes and shutdowns go straight
    through. *)
Theorem rewind_replays (bs : bytes) (t : T) (ops : list stream_op) :
  let '(r, answers) := rewind_run (Rewind_new bs t) ops in
  replay_run (bs, t) ops = (replaying r, answers).
Proof.
  assert (∀ r, (pos r ≤ length (prefix r))%nat → let '(r', answers) := rewind_run r ops in
    replay_run (replaying r) ops = (replaying r', answers)) as Hgen.
  { induction ops as [|op ops IH]; intros r Hr; [done|]. cbn [rewind_run replay_run].
    destruct (rewind_op_replays r op Hr) as [Ho Hp]. destruct (rewind_op r op) as [r1 a]. cbn [fst snd] in Ho, Hp.
    specialize (IH r1 Hp). destruct (rewind_run r1 ops) as [r2 answers]. by rewrite Ho, IH. }
  specialize (Hgen (Rewind_new bs t)). destruct (rewind_run (Rewind_new bs t) ops). apply Hgen. simpl. lia.
Qed.
End rewind.
