(* ===== verification/Cut.v ===== *)
(** * A socket that can be cut from outside ([mitm/src/cut.rs])

    A poll registers its task's waker and then looks at the flag; [Cutter::cut] sets the flag
    and then wakes the registered tasks. The accesses of the two, each atomic (a mutex or an
    atomic flag), interleave in any order: [cut_step]. *)
From S2P Require Import Prelude RustStr Io.

(** A waker; [will_wake] is equality. *)
Definition Waker : Type := nat.

(** Which slot a poll uses: reads one, writes and flushes the other. *)
Inductive WakerSlot := ReadSlot | WriteSlot.
#[global] Instance WakerSlot_eq_dec : EqDecision WakerSlot.
Proof. solve_decision. Defined.

(** [State], and the wakers woken so far. *)
Record CutState := {
  cut : bool;
  read_slot : option Waker;
  write_slot : option Waker;
  woken : list Waker
}.
Definition CutState_default : CutState :=
  {| cut := false; read_slot := None; write_slot := None; woken := [] |}.

Definition slot_of (s : CutState) (slot : WakerSlot) : option Waker :=
  match slot with ReadSlot => read_slot s | WriteSlot => write_slot s end.
Definition set_slot (s : CutState) (slot : WakerSlot) (w : option Waker) : CutState :=
  match slot with
  | ReadSlot => {| cut := cut s; read_slot := w; write_slot := write_slot s; woken := woken s |}
  | WriteSlot => {| cut := cut s; read_slot := read_slot s; write_slot := w; woken := woken s |}
  end.

(** [State::check], its two accesses: registering, then the flag. *)
Definition check_register (s : CutState) (slot : WakerSlot) (waker : Waker) : CutState :=
  if bool_decide (slot_of s slot = Some waker) then s else set_slot s slot (Some waker).
Definition check_flag (s : CutState) : result unit ErrorKind :=
  if cut s then Err ConnectionAborted else Ok ().

(** [Cutter::cut], its three accesses: the flag, then each slot, whose waker is woken. *)
Definition cut_store (s : CutState) : CutState :=
  {| cut := true; read_slot := read_slot s; write_slot := write_slot s; woken := woken s |}.
Definition cut_wake (s : CutState) (slot : WakerSlot) : CutState :=
  let taken := slot_of s slot in
  let s := set_slot s slot None in
  {| cut := cut s; read_slot := read_slot s; write_slot := write_slot s;
     woken := match taken with Some w => w :: woken s | None => woken s end |}.

(** [poll_read], [poll_write], [poll_write_vectored] and [poll_flush] run without
    interruption: the check, then the inner poll; [poll_shutdown] only looks at the flag. *)
Definition Cuttable_poll {A} (s : CutState) (slot : WakerSlot) (waker : Waker) (inner : Poll (result A ErrorKind))
    : CutState * Poll (result A ErrorKind) :=
  let s := check_register s slot waker in
  match check_flag s with
  | Err e => (s, Ready (Err e))
  | Ok () => (s, inner)
  end.
Definition Cuttable_poll_shutdown (s : CutState) (inner : Poll (result unit ErrorKind)) : Poll (result unit ErrorKind) :=
  if cut s then Ready (Ok ()) else inner.
Definition Cutter_cut (s : CutState) : CutState :=
  let s := cut_store s in cut_wake (cut_wake s ReadSlot) WriteSlot.

(** ** Interleaving *)

(** Where the task using a direction of the socket is: not polling, between the two accesses
    of [check], past a check that found the socket not cut with the inner poll's answer to
    come, asleep after the inner poll answered [Pending], or told that the socket is cut. *)
Inductive Task := Running | Registered (w : Waker) | Checked (w : Waker) | Asleep (w : Waker) | Failed.
(** How far [cut] is. *)
Inductive Cutting := NotCutting | Stored | WokeReader | WokeBoth.

Record CutWorld := {
  state : CutState;
  reader : Task;
  writer : Task;
  cutting : Cutting
}.
Definition task_of (c : CutWorld) (slot : WakerSlot) : Task :=
  match slot with ReadSlot => reader c | WriteSlot => writer c end.
Definition set_task (c : CutWorld) (slot : WakerSlot) (t : Task) (s : CutState) : CutWorld :=
  match slot with
  | ReadSlot => {| state := s; reader := t; writer := writer c; cutting := cutting c |}
  | WriteSlot => {| state := s; reader := reader c; writer := t; cutting := cutting c |}
  end.

Inductive cut_step : CutWorld → CutWorld → Prop :=
| step_register c slot w :
    (* a poll starts, also by a task woken by something else, or with another waker *)
    match task_of c slot with Running | Asleep _ | Failed => True | _ => False end →
    cut_step c (set_task c slot (Registered w) (check_register (state c) slot w))
| step_flag c slot w : task_of c slot = Registered w →
    cut_step c (set_task c slot (match check_flag (state c) with Ok _ => Checked w | Err _ => Failed end) (state c))
| step_pending c slot w : task_of c slot = Checked w → cut_step c (set_task c slot (Asleep w) (state c))
| step_ready c slot w : task_of c slot = Checked w → cut_step c (set_task c slot Running (state c))
| step_store c : cutting c = NotCutting →
    cut_step c {| state := cut_store (state c); reader := reader c; writer := writer c; cutting := Stored |}
| step_wake_reader c : cutting c = Stored →
    cut_step c {| state := cut_wake (state c) ReadSlot; reader := reader c; writer := writer c; cutting := WokeReader |}
| step_wake_writer c : cutting c = WokeReader →
    cut_step c {| state := cut_wake (state c) WriteSlot; reader := reader c; writer := writer c; cutting := WokeBoth |}.

Definition CutWorld_init : CutWorld :=
  {| state := CutState_default; reader := Running; writer := Running; cutting := NotCutting |}.

(** A task that passed the check, or sleeps after it, has its waker in its slot or woken. *)
Definition woken_for (c : CutWorld) (slot : WakerSlot) : bool :=
  match slot, cutting c with
  | ReadSlot, (WokeReader | WokeBoth) | WriteSlot, WokeBoth => true
  | _, _ => false
  end.
Record cut_inv (c : CutWorld) : Prop := {
  ci_flag : cut (state c) = true ↔ cutting c ≠ NotCutting;
  ci_registered : ∀ slot w, task_of c slot = Registered w →
    slot_of (state c) slot = Some w ∨ w ∈ woken (state c) ∨ woken_for c slot = true;
  ci_checked : ∀ slot w, task_of c slot = Checked w ∨ task_of c slot = Asleep w →
    slot_of (state c) slot = Some w ∧ woken_for c slot = false ∨ w ∈ woken (state c)
}.

Lemma slot_of_set_slot s slot w slot' :
  slot_of (set_slot s slot w) slot' = if decide (slot = slot') then w else slot_of s slot'.
Proof. by destruct slot, slot'. Qed.
Lemma task_of_set_task c slot t s slot' :
  task_of (set_task c slot t s) slot' = if decide (slot = slot') then t else task_of c slot'.
Proof. by destruct slot, slot'. Qed.
Lemma slot_of_register s slot w slot' :
  slot_of (check_register s slot w) slot' = if decide (slot = slot') then Some w else slot_of s slot'.
Proof.
  unfold check_register. case_bool_decide as Hb; [|apply slot_of_set_slot].
  by destruct (decide (slot = slot')) as [<-|].
Qed.
Lemma register_same s slot w : cut (check_register s slot w) = cut s ∧ woken (check_register s slot w) = woken s.
Proof. unfold check_register. case_bool_decide; by destruct slot. Qed.
Lemma state_set_task c slot t s : state (set_task c slot t s) = s ∧ cutting (set_task c slot t s) = cutting c
  ∧ ∀ slot', woken_for (set_task c slot t s) slot' = woken_for c slot'.
Proof. by destruct slot; split_and!; [..|intros []]. Qed.

Lemma cut_inv_set_task c slot t : cut_inv c →
  (∀ w, t ≠ Registered w) →
  (∀ w, t = Checked w ∨ t = Asleep w →
    slot_of (state c) slot = Some w ∧ woken_for c slot = false ∨ w ∈ woken (state c)) →
  cut_inv (set_task c slot t (state c)).
Proof.
  intros [Hf Hr Hc] Hreg Hch. destruct (state_set_task c slot t (state c)) as (Hs & Hcut & Hw).
  split; rewrite ?Hs, ?Hcut; [done|..]; intros slot' w; rewrite task_of_set_task, Hw.
  - destruct (decide (slot = slot')) as [<-|]; [by intros ?%Hreg|apply Hr].
  - destruct (decide (slot = slot')) as [<-|]; [apply Hch|apply Hc].
Qed.

Lemma cut_inv_init : cut_inv CutWorld_init.
Proof. split; simpl; [done|intros [] w [=]|intros [] w [[=]|[=]]]. Qed.

Lemma cut_inv_step c c' : cut_inv c → cut_step c c' → cut_inv c'.
Proof.
  intros Hinv Hst. pose proof Hinv as [Hf Hr Hc]. destruct Hst as [c slot w Hidle|c slot w Ht|c slot w Ht|c slot w Ht|c Hcut|c Hcut|c Hcut].
  - destruct (state_set_task c slot (Registered w) (check_register (state c) slot w)) as (Hs & Hcu & Hw).
    destruct (register_same (state c) slot w) as [Hrc Hrw].
    split; rewrite ?Hs, ?Hcu, ?Hrc, ?Hrw; [done|..]; intros slot' w'; rewrite task_of_set_task, slot_of_register, Hw;
      destruct (decide (slot = slot')) as [<-|]; auto.
    + intros [= ->]. by left.
    + by intros [[=]|[=]].
  - apply cut_inv_set_task; [done|unfold check_flag; intros ?; by destruct (cut (state c))|].
    unfold check_flag. destruct (cut (state c)) eqn:Hcut; [by intros w' [[=]|[=]]|].
    intros w' [[= <-]|[=]].
    assert (woken_for c slot = false) as Hno.
    { destruct (cutting c) eqn:Hk; [by unfold woken_for; rewrite Hk; destruct slot|..];
        (destruct Hf as [_ Hf]; by specialize (Hf ltac:(done))). }
    destruct (Hr slot w Ht) as [?|[?|?]]; [by left|by right|congruence].
  - apply cut_inv_set_task; [done|done|]. intros w' [[=]|[= <-]]. apply Hc. by left.
  - apply cut_inv_set_task; [done|done|]. by intros w' [[=]|[=]].
  - split; simpl; [done|..]; intros slot w; specialize (Hr slot w); specialize (Hc slot w);
      unfold woken_for in *; rewrite Hcut in *; destruct slot; simpl in *; auto.
  - split; simpl; [split; [done|intros _; apply Hf; by rewrite Hcut]|..]; intros slot w Ht;
      [specialize (Hr slot w)|specialize (Hc slot w)]; unfold woken_for in *; simpl in *; rewrite Hcut in *.
    + destruct slot; simpl in *; [by auto|]. destruct (Hr Ht) as [?|[?|?]]; auto.
      right; left. case_match; [by right|done].
    + destruct slot; simpl in *.
      * right. destruct (Hc Ht) as [[-> _]|?]; [by left|]. case_match; [by right|done].
      * destruct (Hc Ht) as [?|?]; [by left|]. right. case_match; [by right|done].
  - split; simpl; [split; [done|intros _; apply Hf; by rewrite Hcut]|..]; intros slot w Ht;
      [specialize (Hr slot w)|specialize (Hc slot w)]; unfold woken_for in *; simpl in *; rewrite Hcut in *.
    + destruct slot; simpl in *; auto.
    + destruct slot; simpl in *.
      * destruct (Hc Ht) as [[_ ?]|?]; [done|]. right. case_match; [by right|done].
      * right. destruct (Hc Ht) as [[-> _]|?]; [by left|]. case_match; [by right|done].
Qed.

Lemma cut_reach_inv c : rtc cut_step CutWorld_init c → cut_inv c.
Proof. revert c. apply (rtc_ind_r cut_inv); [apply cut_inv_init|]. intros c c' _ Hs Hi. by eapply cut_inv_step. Qed.
(** Once [cut] has returned a sleeper has been woken, and the flag is set. *)
Lemma cut_inv_done c : cut_inv c → cutting c = WokeBoth →
  cut (state c) = true ∧ ∀ slot w, task_of c slot = Asleep w → w ∈ woken (state c).
Proof.
  intros [Hf Hr Hc] Hdone. split; [apply Hf; by rewrite Hdone|]. intros slot w Ht. destruct (Hc slot w) as [[_ Hw]|?]; [by right| |done].
  unfold woken_for in Hw. rewrite Hdone in Hw. by destruct slot.
Qed.

(** No task sleeps through a cut: in every interleaving of the polls of both directions
    with [Cutter::cut], once [cut] has returned, a task asleep on the socket has been woken,
    and every poll that starts from then on fails with [ConnectionAborted]. *)
Theorem cut_wakes_every_sleeper c :
  rtc cut_step CutWorld_init c → cutting c = WokeBoth →
  (∀ slot w, task_of c slot = Asleep w → w ∈ woken (state c)) ∧
  (∀ A slot w (inner : Poll (result A ErrorKind)),
     (Cuttable_poll (state c) slot w inner).2 = Ready (Err ConnectionAborted)) ∧
  ∀ inner, Cuttable_poll_shutdown (state c) inner = Ready (Ok ()).
Proof.
  intros Hreach Hdone. destruct (cut_inv_done c (cut_reach_inv c Hreach) Hdone) as [Hcut Hwoken]. split_and!; [done|..].
  - intros A slot w inner. unfold Cuttable_poll, check_flag.
    destruct (register_same (state c) slot w) as [-> _]. by rewrite Hcut.
  - intros inner. unfold Cuttable_poll_shutdown. by rewrite Hcut.
Qed.

(** A reader asleep when [cut] runs. *)
Definition example_cut_end : CutWorld :=
  {| state := Cutter_cut (check_register CutState_default ReadSlot 7%nat); reader := Asleep 7%nat; writer := Running;
     cutting := WokeBoth |}.
Lemma cut_wakes_every_sleeper_witness : 7%nat ∈ woken (state example_cut_end).
Proof.
  refine (proj1 (cut_wakes_every_sleeper example_cut_end _ _) ReadSlot 7%nat _).
  - eapply rtc_l; [apply (step_register CutWorld_init ReadSlot 7%nat); exact I|].
    eapply rtc_l; [apply (step_flag _ ReadSlot 7%nat); reflexivity|].
    eapply rtc_l; [apply (step_pending _ ReadSlot 7%nat); reflexivity|].
    eapply rtc_l; [apply step_store; reflexivity|].
    eapply rtc_l; [apply step_wake_reader; reflexivity|].
    eapply rtc_l; [apply step_wake_writer; reflexivity|].
    apply rtc_refl.
  - reflexivity.
  - reflexivity.
Defined.
