(* ===== verification/Http.v ===== *)
(** * Headers, authorities and the proxy's own responses ([mitm/src/http.rs], [body.rs])

    The [http] crate (header maps, header names and values, URIs) is the class [HttpCrate],
    with what its documentation says of the operations the proxy uses, and an instance of
    association lists to run the model with. *)
From S2P Require Import Prelude RustStr Collections Io.

(** Header names are lower case; [hm_get_all] is every value of a name, in order. *)
Class HttpCrate := {
  HeaderMap : Type;
  hm_new : HeaderMap;
  hm_get_all : HeaderMap → bytes → list bytes;
  hm_insert : HeaderMap → bytes → bytes → HeaderMap;
  hm_remove : HeaderMap → bytes → HeaderMap;
  (** [HeaderName::from_bytes(..).ok()] *)
  header_name : bytes → option bytes;
  (** [HeaderValue::to_str().ok()] and [HeaderValue::from_bytes(..).ok()] *)
  value_to_str : bytes → option bytes;
  value_from_bytes : bytes → option bytes;
  Uri : Type;
  uri_parse : bytes → option Uri;
  uri_to_string : Uri → bytes;
  uri_scheme : Uri → option bytes;
  (** the authority's host and port *)
  uri_authority : Uri → option (bytes * option Z);
  uri_path : Uri → bytes;
  uri_path_and_query : Uri → option bytes;
  hm_get_all_new k : hm_get_all hm_new k = [];
  hm_get_all_insert m k v k' : hm_get_all (hm_insert m k v) k' = if decide (k' = k) then [v] else hm_get_all m k';
  hm_get_all_remove m k k' : hm_get_all (hm_remove m k) k' = if decide (k' = k) then [] else hm_get_all m k';
  header_name_lower n k : header_name n = Some k → k = to_ascii_lowercase n;
  value_to_str_same v s : value_to_str v = Some s → s = v;
  value_from_bytes_same b v : value_from_bytes b = Some v → v = b
}.

Section http.
Context `{HttpCrate}.

(** [headers.get(name)]: the first value. *)
Definition hm_get (m : HeaderMap) (k : bytes) : option bytes := head (hm_get_all m k).

Definition HOP_BY_HOP : list bytes :=
  lit <$> ["connection"; "proxy-connection"; "keep-alive"; "transfer-encoding"; "te"; "trailer"; "upgrade";
           "proxy-authorization"; "proxy-authenticate"]%string.

(** The header names in [Connection]. *)
Definition connection_names (headers : HeaderMap) : list bytes :=
  omap (λ name, header_name (trim name))
    (concat (split_on 44 <$> omap value_to_str (hm_get_all headers (lit "connection")))).
Definition strip_hop_by_hop (headers : HeaderMap) : HeaderMap :=
  let listed := connection_names headers in
  let headers := foldl hm_remove headers listed in
  foldl hm_remove headers HOP_BY_HOP.

(** [[&[u8]]::join] with a separator. *)
Fixpoint join_with (sep : bytes) (l : list bytes) : bytes :=
  match l with
  | [] => []
  | [x] => x
  | x :: l' => x ++ sep ++ join_with sep l'
  end.
Definition join_cookies (headers : HeaderMap) : HeaderMap :=
  let cookies := hm_get_all headers (lit "cookie") in
  if (length cookies <? 2)%nat then headers
  else match value_from_bytes (join_with (lit "; ") cookies) with
       | Some value => hm_insert headers (lit "cookie") value
       | None => headers
       end.
End http.

Definition authority (host : bytes) (port default_port : Z) : bytes :=
  let host := if contains 58 host && negb (starts_with (lit "[") host) then lit "[" ++ host ++ lit "]" else host in
  if port =? default_port then host else host ++ lit ":" ++ show_decimal port.

Definition bare_host (host : bytes) : bytes :=
  let host := strip_suffix_or (lit ".") host in
  default host (h ← strip_prefix (lit "[") host; strip_suffix (lit "]") h).

(** ** Responses *)

(** A body the proxy makes itself, or one forwarded from an upstream, named by a number. *)
Inductive HttpBody := EmptyBody | FullBody (b : bytes) | ForwardedBody (id : nat).

Section responses.
Context `{HttpCrate}.

Record HttpResponse := {
  resp_status : Z;
  resp_headers : HeaderMap;
  resp_body : HttpBody
}.

(** [Response::new(empty())] with a status. *)
Definition status (code : Z) : HttpResponse :=
  {| resp_status := code; resp_headers := hm_new; resp_body := EmptyBody |}.
Definition text (code : Z) (message : bytes) : HttpResponse :=
  let headers := hm_insert hm_new (lit "content-type") (lit "text/plain; charset=utf-8") in
  {| resp_status := code; resp_headers := hm_insert headers (lit "cache-control") (lit "no-store");
     resp_body := FullBody message |}.
Definition blocked : HttpResponse :=
  let response := status 403 in
  {| resp_status := resp_status response;
     resp_headers := hm_insert (resp_headers response) (lit "access-control-allow-origin") (lit "*");
     resp_body := resp_body response |}.
Definition BLOCKED_PAGE : bytes :=
  lit "Tollgate blocked this page." ++ [10; 10] ++
  lit "One of your filter lists blocks it. To allow it, open Tollgate, go to Activity and tap the block." ++ [10].
Definition blocked_page : HttpResponse := text 403 BLOCKED_PAGE.
End responses.

(** ** [DoneBody]

    The inner body's poll answers are the caller's; [db_runs] counts how often [on_done] ran. *)
Record DoneBody := {
  on_done : bool;
  db_runs : nat
}.
Definition DoneBody_new : DoneBody := {| on_done := true; db_runs := 0 |}.
Definition DoneBody_done (self : DoneBody) : DoneBody :=
  if on_done self then {| on_done := false; db_runs := S (db_runs self) |} else self.

(** What the inner body's [poll_frame] answered. *)
Inductive FramePoll := FramePending | Frame (data : bytes) | FrameError | FrameEnd.
Definition DoneBody_poll_frame (self : DoneBody) (inner : FramePoll) : DoneBody * FramePoll :=
  (match inner with FrameEnd | FrameError => DoneBody_done self | _ => self end, inner).
Definition DoneBody_drop (self : DoneBody) : DoneBody := DoneBody_done self.

(** ** Facts *)

Section facts.
Context `{HttpCrate}.

Lemma get_all_removes names m k : hm_get_all (foldl hm_remove m names) k =
  if decide (k ∈ names) then [] else hm_get_all m k.
Proof.
  revert m. induction names as [|n names IH]; intros m; cbn [foldl].
  { destruct (decide (k ∈ [])) as [Hk|]; [by apply not_elem_of_nil in Hk|done]. }
  rewrite IH, hm_get_all_remove. repeat case_decide; try done; subst; set_solver.
Qed.

Lemma strip_hop_by_hop_get headers name :
  hm_get_all (strip_hop_by_hop headers) name =
  if decide (name ∈ HOP_BY_HOP ∨ name ∈ connection_names headers) then [] else hm_get_all headers name.
Proof.
  unfold strip_hop_by_hop. rewrite !get_all_removes. repeat case_decide; try done; naive_solver.
Qed.

(** Hop-by-hop headers are removed, exactly: the names of RFC 9110 and every name listed in
    [Connection] have no value left, and every other header keeps all of its values, in order. *)
Theorem strip_hop_by_hop_exact (headers : HeaderMap) (name : bytes) :
  hm_get_all (strip_hop_by_hop headers) name =
  if decide (name ∈ HOP_BY_HOP ∨ name ∈ connection_names headers) then [] else hm_get_all headers name.
Proof. apply strip_hop_by_hop_get. Qed.

Lemma join_cookies_other headers name : name ≠ lit "cookie" →
  hm_get_all (join_cookies headers) name = hm_get_all headers name.
Proof.
  intros Hn. unfold join_cookies. destruct (Nat.ltb _ _); [done|]. destruct (value_from_bytes _); [|done].
  by rewrite hm_get_all_insert, decide_False.
Qed.
Lemma join_cookies_one headers :
  (length (hm_get_all headers (lit "cookie")) ≤ 1)%nat ∨
  is_Some (value_from_bytes (join_with (lit "; ") (hm_get_all headers (lit "cookie")))) →
  hm_get_all (join_cookies headers) (lit "cookie") =
  match hm_get_all headers (lit "cookie") with
  | [] => [] | l => [join_with (lit "; ") l]
  end.
Proof.
  intros Hc. unfold join_cookies. destruct (hm_get_all headers (lit "cookie")) as [|a [|b l]] eqn:Hg;
    cbn [length Nat.ltb Nat.leb]; [done|done|].
  destruct Hc as [Hc|[v Hv]]; [simpl in Hc; lia|]. rewrite Hv, hm_get_all_insert, decide_True by done.
  by apply value_from_bytes_same in Hv as ->.
Qed.
End facts.

(** [on_done] runs once, with the first end or error or the drop, whichever comes first. *)
Lemma done_once polls :
  let end_or_error := λ p, match p with FrameEnd | FrameError => true | _ => false end in
  let self := foldl (λ s p, (DoneBody_poll_frame s p).1) DoneBody_new polls in
  db_runs self = (if existsb end_or_error polls then 1 else 0)%nat ∧
  db_runs (DoneBody_drop self) = 1%nat.
Proof.
  intros ended self.
  assert (self = if existsb ended polls then {| on_done := false; db_runs := 1 |} else DoneBody_new) as ->;
    [|by destruct (existsb ended polls)].
  unfold self. induction polls as [|p polls IH] using rev_ind; [done|].
  rewrite foldl_app, existsb_app, IH. simpl. rewrite orb_false_r.
  by destruct (existsb ended polls), p.
Qed.

(** ** An instance: association lists *)

Definition assoc_get_all (m : list (bytes * bytes)) (k : bytes) : list bytes := (filter (λ p, p.1 = k) m).*2.
Definition assoc_remove (m : list (bytes * bytes)) (k : bytes) : list (bytes * bytes) := filter (λ p, p.1 ≠ k) m.
Lemma assoc_get_all_remove m k k' :
  assoc_get_all (assoc_remove m k) k' = if decide (k' = k) then [] else assoc_get_all m k'.
Proof.
  unfold assoc_get_all, assoc_remove. induction m as [|[n v] m IH]; [by case_decide|].
  rewrite filter_cons. cbn [fst]. destruct (decide (n ≠ k)) as [Hn|Hn].
  - rewrite !filter_cons. cbn [fst]. destruct (decide (n = k')) as [<-|]; [|done].
    rewrite !fmap_cons, IH. by destruct (decide (n = k)).
  - apply dec_stable in Hn as ->. rewrite IH, filter_cons. cbn [fst].
    destruct (decide (k' = k)) as [->|]; [done|]. by rewrite decide_False by done.
Qed.
Lemma assoc_get_all_insert m k v k' :
  assoc_get_all (assoc_remove m k ++ [(k, v)]) k' = if decide (k' = k) then [v] else assoc_get_all m k'.
Proof.
  unfold assoc_get_all. rewrite filter_app, fmap_app. fold (assoc_get_all (assoc_remove m k) k').
  rewrite assoc_get_all_remove, filter_cons. cbn [fst]. destruct (decide (k' = k)) as [->|].
  - by rewrite decide_True.
  - rewrite decide_False by done. simpl. apply app_nil_r.
Qed.

Definition token_byte (b : Z) : bool := is_ascii_alphanumeric b || bool_decide (b ∈ lit "!#$%&'*+-.^_`|~").
Definition example_http : HttpCrate.
Proof.
  refine {|
    HeaderMap := list (bytes * bytes); hm_new := []; hm_get_all := assoc_get_all;
    hm_insert m k v := assoc_remove m k ++ [(k, v)]; hm_remove := assoc_remove;
    header_name n := if negb (bool_decide (n = [])) && forallb token_byte n then Some (to_ascii_lowercase n) else None;
    value_to_str v := if forallb (λ b, (b =? 9) || (32 <=? b) && (b <? 127)) v then Some v else None;
    value_from_bytes b := if forallb (λ b, (b =? 9) || (32 <=? b) && negb (b =? 127)) b then Some b else None;
    Uri := bytes * option (bytes * option Z) * bytes;
    uri_parse b := Some ([], None, b);
    uri_to_string u := u.1.1 ++ u.2;
    uri_scheme u := if bool_decide (u.1.1 = []) then None else Some u.1.1;
    uri_authority u := u.1.2; uri_path u := u.2; uri_path_and_query u := Some u.2 |}.
  - done.
  - apply assoc_get_all_insert.
  - apply assoc_get_all_remove.
  - intros n k. by destruct (_ && _); intros [= <-].
  - intros v s. by destruct (forallb _ _); intros [= <-].
  - intros b v. by destruct (forallb _ _); intros [= <-].
Defined.

Lemma strip_hop_by_hop_exact_witness :
  let headers := [(lit "connection", lit "close, X-Hop"); (lit "x-hop", lit "1"); (lit "accept", lit "*/*");
                  (lit "te", lit "gzip")] in
  hm_get_all (HttpCrate := example_http) (strip_hop_by_hop (H := example_http) headers) (lit "x-hop") = [] ∧
  hm_get_all (HttpCrate := example_http) (strip_hop_by_hop (H := example_http) headers) (lit "accept") = [lit "*/*"].
Proof.
  intros headers. split.
  - rewrite (@strip_hop_by_hop_exact example_http headers (lit "x-hop")). vm_compute. reflexivity.
  - rewrite (@strip_hop_by_hop_exact example_http headers (lit "accept")). vm_compute. reflexivity.
Defined.
