(* ===== verification/Engine.v ===== *)
(** * The request engine and compiling lists ([filter/src/engine.rs], [compile.rs])

    The adblock crate is the class [AdblockCrate]. The file system is a map from paths to
    contents; what each call to it answers is an argument, so every failure is covered. *)
From S2P Require Import Prelude RustStr Collections Io DomainRules DomainSet DomainSetFacts FilterProps.

#[global] Instance ListFormat_eq_dec : EqDecision ListFormat.
Proof. solve_decision. Defined.

Inductive Verdict := VerdictAllow | VerdictBlock (rule : option bytes).

(** The adblock crate: parsing one line, building and serializing an engine, requests. *)
Class AdblockCrate := {
  ab_engine : Type;
  ab_request : Type;
  (** [parse_filter(line, ..)] gives a network rule *)
  ab_is_network_rule : ListFormat → bytes → bool;
  (** [Engine::new_with_filter_set] of lists, with or without debug information *)
  ab_build : bool → list (bytes * ListFormat) → ab_engine;
  ab_serialize : ab_engine → bytes;
  ab_deserialize : bytes → option ab_engine;
  (** [Request::new(url, source_url, request_type, "GET")] *)
  ab_request_new : bytes → bytes → string → option ab_request;
  (** [should_block()] and the raw line of the matching filter *)
  ab_check : ab_engine → ab_request → bool * option bytes;
  ab_roundtrip e : ab_deserialize (ab_serialize e) = Some e
}.

(** The position of ["://"]. *)
Fixpoint find_scheme_end (url : bytes) : option nat :=
  match url with
  | [] => None
  | _ :: url' =>
      if starts_with (lit "://") url then Some 0%nat else S <$> find_scheme_end url'
  end.
(** The position of the first of ['/', '?', '#']. *)
Definition ends_authority (b : Z) : bool := (b =? 47) || (b =? 63) || (b =? 35).
Fixpoint find_authority_end (s : bytes) : option nat :=
  match s with
  | [] => None
  | b :: s' => if ends_authority b then Some 0%nat else S <$> find_authority_end s'
  end.

Definition lowercase_authority (url : bytes) : bytes :=
  match find_scheme_end url with
  | None => url
  | Some scheme_end =>
      let start := (scheme_end + 3)%nat in
      let stop := match find_authority_end (drop start url) with
                  | Some i => (start + i)%nat | None => length url end in
      if negb (existsb is_ascii_uppercase (take stop url)) then url
      else to_ascii_lowercase (take stop url) ++ drop stop url
  end.

Section engine.
Context `{AdblockCrate}.

Record FilterEngine := { engine : ab_engine }.

Definition FilterEngine_from_lists (lists : list ListSource) (debug : bool) : FilterEngine :=
  {| engine := ab_build debug ((λ l, (source_text l, source_format l)) <$> lists) |}.
Definition FilterEngine_serialize (self : FilterEngine) : bytes := ab_serialize (engine self).

Inductive FilterError := FilterIo (e : ErrorKind) | FilterEngineError | FilterDomainSet (e : DomainSetError).
(** [load]: the file's bytes, or why it cannot be opened or mapped. *)
Definition FilterEngine_load (file : result bytes ErrorKind) : result FilterEngine FilterError :=
  match file with
  | Err e => Err (FilterIo e)
  | Ok contents => match ab_deserialize contents with
                | Some e => Ok {| engine := e |}
                | None => Err FilterEngineError
                end
  end.

Definition check (self : FilterEngine) (url source_url : bytes) (request_type : string) : Verdict :=
  let url := lowercase_authority url in
  let source_url := lowercase_authority source_url in
  match ab_request_new url source_url request_type with
  | None => VerdictAllow
  | Some request =>
      let '(should_block, raw_line) := ab_check (engine self) request in
      if should_block then VerdictBlock raw_line else VerdictAllow
  end.

Definition network_rule_count (lists : list ListSource) : Z :=
  foldr Z.add 0
    ((λ l, len (filter (λ line, ab_is_network_rule (source_format l) line = true) (lines (source_text l)))) <$> lists).

(** ** Compiling *)

Definition ENGINE_FILE : bytes := lit "engine.dat".
Definition DOMAINS_FILE : bytes := lit "domains.bin".

Record CompileReport := {
  network_rules : Z;
  domain_entries : Z;
  domain_patterns : Z;
  domain_exempted : Z;
  engine_bytes : Z;
  domains_bytes : Z
}.

(** The answers of the file system to one [write_atomically]: for each [open] why it fails
    other than that the file exists; how many bytes [write_all] writes before it fails; why
    [sync_all] and [rename] fail; whether [remove_file] works. *)
Record WriteAnswers := {
  wa_open : nat → option ErrorKind;
  wa_write : option (nat * ErrorKind);
  wa_sync : option ErrorKind;
  wa_rename : option ErrorKind;
  wa_remove : bool
}.

Definition temp_name (dir file_name pid : bytes) (n : Z) : bytes :=
  dir ++ lit "/." ++ file_name ++ lit "." ++ pid ++ lit "." ++ show_decimal n ++ lit ".tmp".

(** [create_temp]: the loop takes names until one is free; [None] when the fuel runs out,
    which [create_temp_finds] rules out. *)
Fixpoint create_temp (fuel : nat) (fs : gmap bytes bytes) (dir file_name pid : bytes) (next_tmp : Z) (opens : nat → option ErrorKind)
    (attempt : nat) : option (result bytes ErrorKind * gmap bytes bytes * Z) :=
  match fuel with
  | O => None
  | S fuel' =>
      let tmp := temp_name dir file_name pid next_tmp in
      let next_tmp := wrap64 (next_tmp + 1) in
      match opens attempt with
      | Some AlreadyExists => create_temp fuel' fs dir file_name pid next_tmp opens (S attempt)
      | Some e => Some (Err e, fs, next_tmp)
      | None =>
          match fs !! tmp with
          | Some _ => create_temp fuel' fs dir file_name pid next_tmp opens (S attempt)
          | None => Some (Ok tmp, <[tmp := []]> fs, next_tmp)
          end
      end
  end.

(** [write_atomically] after [create_temp]: every state the file system goes through, the last
    one first, and the result. *)
Definition write_temp (fs : gmap bytes bytes) (path tmp contents : bytes) (answers : WriteAnswers)
    : list (gmap bytes bytes) * result unit FilterError :=
  let fail (states : list (gmap bytes bytes)) (fs : gmap bytes bytes) (e : ErrorKind) :=
    ((if wa_remove answers then delete tmp fs else fs) :: states, Err (FilterIo e)) in
  match wa_write answers with
  | Some (n, e) =>
      let fs1 := <[tmp := take n contents]> fs in fail [fs1; fs] fs1 e
  | None =>
      let fs1 := <[tmp := contents]> fs in
      match wa_sync answers with
      | Some e => fail [fs1; fs] fs1 e
      | None =>
          match wa_rename answers with
          | Some e => fail [fs1; fs] fs1 e
          | None => ([<[path := contents]> (delete tmp fs1); fs1; fs], Ok ())
          end
      end
  end.
Definition write_atomically (fuel : nat) (fs : gmap bytes bytes) (dir file_name contents pid : bytes) (next_tmp : Z)
    (answers : WriteAnswers) : option (list (gmap bytes bytes) * result unit FilterError * Z) :=
  match create_temp fuel fs dir file_name pid next_tmp (wa_open answers) 0 with
  | None => None
  | Some (Err e, fs, next_tmp) => Some ([fs], Err (FilterIo e), next_tmp)
  | Some (Ok tmp, fs, next_tmp) =>
      let '(states, res) := write_temp fs (dir ++ lit "/" ++ file_name) tmp contents answers in
      Some (states, res, next_tmp)
  end.

(** [compile_split_exempting]: the file system after each call and the report. [None] stands
    for a panic: a blocklist of [2^32] entries or more. *)
Definition compile_split_exempting (fuel : nat) (fs : gmap bytes bytes) (engine_lists : list ListSource)
    (dns_lists : list DnsList) (dir pid : bytes) (next_tmp : Z) (dir_answer : option ErrorKind)
    (answers_engine answers_domains : WriteAnswers) : option (list (gmap bytes bytes) * result CompileReport FilterError) :=
  match dir_answer with
  | Some e => Some ([fs], Err (FilterIo e))
  | None =>
      let network_rules := network_rule_count engine_lists in
      let engine := FilterEngine_serialize (FilterEngine_from_lists engine_lists false) in
      let rules := parse_exempting dns_lists in
      domains ← DomainRules_encode rules;
      '(states, res, next_tmp) ← write_atomically fuel fs dir ENGINE_FILE engine pid next_tmp answers_engine;
      match res with
      | Err e => Some (states, Err e)
      | Ok _ =>
          '(states', res, _) ← write_atomically fuel (default fs (head states)) dir DOMAINS_FILE domains pid next_tmp
                                 answers_domains;
          match res with
          | Err e => Some (states' ++ states, Err e)
          | Ok _ =>
              Some (states' ++ states, Ok
                {| network_rules := network_rules; domain_entries := hash_count domains;
                   domain_patterns := len (wildcard_allow rules) + len (exact_wildcard_allow rules)
                                      + len (wildcard_block rules) + len (exact_wildcard_block rules);
                   domain_exempted := exempted rules;
                   engine_bytes := len engine; domains_bytes := len domains |})
          end
      end
  end.
Definition compile_split (fuel : nat) (fs : gmap bytes bytes) (engine_lists dns_lists : list ListSource)
    (dir pid : bytes) (next_tmp : Z) (dir_answer : option ErrorKind) (answers_engine answers_domains : WriteAnswers) :=
  compile_split_exempting fuel fs engine_lists (DnsList_from <$> dns_lists) dir pid next_tmp dir_answer
    answers_engine answers_domains.
Definition compile (fuel : nat) (fs : gmap bytes bytes) (lists : list ListSource)
    (dir pid : bytes) (next_tmp : Z) (dir_answer : option ErrorKind) (answers_engine answers_domains : WriteAnswers) :=
  let engine_lists := filter (λ l : ListSource, source_format l = DomainRules.Adblock) lists in
  compile_split fuel fs engine_lists lists dir pid next_tmp dir_answer answers_engine answers_domains.
End engine.

(** ** Facts *)

Lemma temp_name_inj dir file pid n m : is_u64 n → is_u64 m →
  temp_name dir file pid n = temp_name dir file pid m → n = m.
Proof.
  unfold temp_name, is_u64. intros Hn Hm He. apply app_inv_head in He. apply app_inv_head in He.
  apply app_inv_head in He. apply app_inv_head in He. apply app_inv_head in He. apply app_inv_head in He.
  apply app_inv_tail in He. apply show_decimal_inj; [lia|lia|done].
Qed.
Lemma temp_name_not_path dir file pid n : temp_name dir file pid n ≠ dir ++ lit "/" ++ file.
Proof.
  unfold temp_name. intros He%app_inv_head. apply (f_equal length) in He. rewrite !length_app in He. simpl in He. lia.
Qed.

(** Every state has the old contents of every file but the temporary one. *)
Lemma create_temp_frame fuel fs dir file pid next opens attempt res fs' next' :
  create_temp fuel fs dir file pid next opens attempt = Some (res, fs', next') →
  match res with
  | Err e => fs' = fs
  | Ok tmp => ∃ n, tmp = temp_name dir file pid n ∧ fs !! tmp = None ∧ fs' = <[tmp := []]> fs
  end.
Proof.
  revert next attempt. induction fuel as [|fuel IH]; intros next attempt; [done|]. cbn [create_temp].
  destruct (opens attempt) as [k|].
  - destruct k; try (by intros [= <- <- <-]). by apply IH.
  - destruct (fs !! temp_name dir file pid next) eqn:Hn; [by apply IH|]. intros [= <- <- <-]. eauto.
Qed.

(** Names run out of existing files: more attempts than files, and failures to open that are
    not [AlreadyExists] or none, give a temporary file or an error. *)
Lemma create_temp_finds fuel fs dir file pid next opens attempt :
  (∀ i, opens i ≠ Some AlreadyExists) → 0 <= next → next + Z.of_nat fuel < 2 ^ 64 →
  (∀ n, next <= n < next + Z.of_nat fuel → is_Some (fs !! temp_name dir file pid n)) ∨
  is_Some (create_temp fuel fs dir file pid next opens attempt).
Proof.
  intros Ho. revert next attempt. induction fuel as [|fuel IH]; intros next attempt Hn Hw; [left; lia|].
  cbn [create_temp]. specialize (Ho attempt) as Hoa. destruct (opens attempt) as [k|].
  - destruct k; try done; right; by eauto.
  - destruct (fs !! temp_name dir file pid next) eqn:Hf; [|by right; eauto].
    unfold wrap64. rewrite Z.mod_small by lia.
    destruct (IH (next + 1) (S attempt)) as [Hall|?]; [lia|lia| |by right].
    left. intros n Hr. destruct (decide (n = next)) as [->|]; [by eauto|]. apply Hall. lia.
Qed.

Lemma write_temp_states fs path tmp bs answers states res :
  tmp ≠ path → write_temp fs path tmp bs answers = (states, res) →
  Forall (λ fs' : gmap bytes bytes, ∀ p, p ≠ tmp → fs' !! p = fs !! p ∨ (p = path ∧ fs' !! p = Some bs)) states ∧
  ∃ last, head states = Some last ∧
  match res with
  | Ok _ => last = <[path := bs]> (delete tmp fs)
  | Err _ => ∀ p, p ≠ tmp → last !! p = fs !! p
  end.
Proof.
  intros Hne. unfold write_temp.
  assert (∀ b : bytes, ∀ p, p ≠ tmp → (<[tmp := b]> fs : gmap bytes bytes) !! p = fs !! p) as Hins
    by (intros; by rewrite lookup_insert_ne).
  assert (∀ b : bytes, ∀ p, p ≠ tmp →
    (if wa_remove answers then delete tmp (<[tmp := b]> fs) else <[tmp := b]> fs) !! p = fs !! p) as Hrem.
  { intros b p Hp. destruct (wa_remove answers); rewrite ?lookup_delete_ne, ?lookup_insert_ne by done; done. }
  destruct (wa_write answers) as [[n e]|]; [|destruct (wa_sync answers); [|destruct (wa_rename answers)]];
    intros [= <- <-]; (split; [rewrite ?Forall_cons; split_and!; [intros p Hp; auto..|by apply Forall_nil]|]).
  all: try (eexists; split; [reflexivity|]; by auto).
  - rewrite delete_insert_eq. destruct (decide (p = path)) as [->|Hpp].
    + right. split; [done|]. by rewrite lookup_insert_eq.
    + left. by rewrite lookup_insert_ne, lookup_delete_ne by done.
  - eexists; split; [reflexivity|]. by rewrite delete_insert_eq.
Qed.

Lemma write_atomically_result fuel fs dir file bs pid next answers states res next' :
  write_atomically fuel fs dir file bs pid next answers = Some (states, res, next') →
  let path := dir ++ lit "/" ++ file in
  (∃ tmp, tmp ≠ path ∧
     Forall (λ fs' : gmap bytes bytes, ∀ p, p ≠ tmp → fs' !! p = fs !! p ∨ (p = path ∧ fs' !! p = Some bs)) states) ∧
  match res with
  | Ok _ => head states = Some (<[path := bs]> fs)
  | Err _ => ∃ last, head states = Some last ∧ last !! path = fs !! path
  end.
Proof.
  intros Hw path. unfold write_atomically in Hw.
  destruct (create_temp fuel fs dir file pid next (wa_open answers) 0) as [[[[tmp|e] fs1] n1]|] eqn:Hc; [| |done].
  - apply create_temp_frame in Hc as (n & -> & Hfree & ->). fold path in Hw.
    set (tmp := temp_name dir file pid n) in *.
    assert (tmp ≠ path) as Hne by apply temp_name_not_path.
    destruct (write_temp (<[tmp := []]> fs) path tmp bs answers) as [sts r] eqn:Ht.
    simplify_eq. destruct (write_temp_states _ path tmp bs answers states res Hne Ht) as (Hall & last & Hl & Hr). split.
    + exists tmp. split; [done|]. eapply Forall_impl; [exact Hall|]. intros fs' Hf p Hp.
      destruct (Hf p Hp) as [->|?]; [left; by rewrite lookup_insert_ne|by right].
    + destruct res as [[]|e].
      * rewrite Hl, Hr, delete_insert_id by done. done.
      * exists last. split; [done|]. rewrite Hr by done. by rewrite lookup_insert_ne.
  - apply create_temp_frame in Hc as ->. simplify_eq. split.
    + exists (temp_name dir file pid 0). split; [apply temp_name_not_path|]. repeat constructor.
    + by exists fs.
Qed.

Lemma write_atomically_ok fuel fs dir file bs pid next answers states u next' :
  write_atomically fuel fs dir file bs pid next answers = Some (states, Ok u, next') →
  head states = Some (<[dir ++ lit "/" ++ file := bs]> fs).
Proof. intros Hw. by destruct (write_atomically_result _ _ _ _ _ _ _ _ _ _ _ Hw). Qed.

(** ** Theorems *)

(** Replacing a file is atomic, whatever fails: in every state the file system goes
    through, the file has its old contents or all of the new ones, and no file other than it
    and the temporary one changes; a success leaves the new contents and no temporary file,
    and a failure leaves the old contents. *)
Theorem write_is_atomic fuel fs dir file bs pid next answers states res next' :
  write_atomically fuel fs dir file bs pid next answers = Some (states, res, next') →
  let path := dir ++ lit "/" ++ file in
  (∃ tmp, tmp ≠ path ∧
     Forall (λ fs' : gmap bytes bytes, ∀ p, p ≠ tmp → fs' !! p = fs !! p ∨ (p = path ∧ fs' !! p = Some bs)) states) ∧
  match res with
  | Ok _ => head states = Some (<[path := bs]> fs)
  | Err _ => ∃ last, head states = Some last ∧ last !! path = fs !! path
  end.
Proof. apply write_atomically_result. Qed.

(** A success wrote both files, and nothing else is different. *)
Lemma compile_split_written `{AdblockCrate} fuel fs engine_lists dns_lists dir pid next dir_answer ae ad states report :
  compile_split_exempting fuel fs engine_lists dns_lists dir pid next dir_answer ae ad = Some (states, Ok report) →
  let engine := FilterEngine_serialize (FilterEngine_from_lists engine_lists false) in
  ∃ domains, DomainRules_encode (parse_exempting dns_lists) = Some domains ∧
    head states = Some (<[dir ++ lit "/" ++ DOMAINS_FILE := domains]> (<[dir ++ lit "/" ++ ENGINE_FILE := engine]> fs)) ∧
    engine_bytes report = len engine ∧ domains_bytes report = len domains ∧ domain_entries report = hash_count domains.
Proof.
  unfold compile_split_exempting. destruct dir_answer; [done|].
  destruct (DomainRules_encode (parse_exempting dns_lists)) as [domains|] eqn:Henc; [|done]. cbn [mbind option_bind].
  set (engine := FilterEngine_serialize _).
  destruct (write_atomically fuel fs dir ENGINE_FILE engine pid next ae) as [[[s1 [[]|e1]] n1]|] eqn:Hw1; [|done..].
  cbn [mbind option_bind].
  destruct (write_atomically fuel (default fs (head s1)) dir DOMAINS_FILE domains pid n1 ad)
    as [[[s2 [[]|e2]] n2]|] eqn:Hw2; [|done..]. cbn [mbind option_bind]. intros [= <- <-].
  apply write_atomically_ok in Hw1, Hw2. rewrite Hw1 in Hw2. simpl in Hw2.
  exists domains. split; [done|]. split; [by destruct s2|]. done.
Qed.

(** Compiling that reports success leaves two files that load: the engine is the one built
    from the engine lists, and the blocklist decides every host as the rules parsed from the
    DNS lists do (for the names a lookup can tell apart by hash); the report counts what
    is in them. *)
Theorem compiled_files_load `{AdblockCrate} fuel fs engine_lists dns_lists dir pid next dir_answer ae ad states report :
  compile_split_exempting fuel fs engine_lists dns_lists dir pid next dir_answer ae ad = Some (states, Ok report) →
  ∃ last engine domains, head states = Some last ∧
    last !! (dir ++ lit "/" ++ ENGINE_FILE) = Some engine ∧
    FilterEngine_load (Ok engine) = Ok (FilterEngine_from_lists engine_lists false) ∧
    last !! (dir ++ lit "/" ++ DOMAINS_FILE) = Some domains ∧
    (∃ ds, DomainSet_new domains = Ok ds ∧
     ∀ host, Forall is_u8 host → (BAR ∉ host) →
       (length (after_each DOT (strip_suffix_or [DOT] host)) ≤ 127)%nat →
       no_collision (parse_exempting dns_lists) host = true →
       is_blocked ds host = rules_blocked (parse_exempting dns_lists) host) ∧
    engine_bytes report = len engine ∧ domains_bytes report = len domains ∧
    domain_entries report = hash_count domains.
Proof.
  intros (domains & Henc & Hh & He & Hd & Hn)%compile_split_written.
  eexists _, (FilterEngine_serialize (FilterEngine_from_lists engine_lists false)), domains. split; [exact Hh|].
  rewrite lookup_insert_ne, lookup_insert_eq by (intros Hf%app_inv_head; done).
  rewrite lookup_insert_eq. split_and!; try done.
  - unfold FilterEngine_load, FilterEngine_serialize. by rewrite ab_roundtrip.
  - pose proof (parsed_rules_ok dns_lists) as Hok. destruct (new_encode _ _ Hok Henc) as [Hnew Hb].
    exists (loaded (parse_exempting dns_lists) domains). split; [done|]. intros host ? ? ? ?. by apply is_blocked_loaded.
Qed.

(** The scheme and authority of a URL, and what follows them. *)
Definition authority_free (s : bytes) : Prop := Forall (λ b, ends_authority b = false) s.
Definition starts_path (rest : bytes) : Prop :=
  match rest with [] => True | b :: _ => ends_authority b = true end.

Lemma find_scheme_end_app scheme rest : 58 ∉ scheme → find_scheme_end (scheme ++ lit "://" ++ rest) = Some (length scheme).
Proof.
  induction scheme as [|b scheme IH]; intros Hs; [done|]. apply not_elem_of_cons in Hs as [Hb Hs].
  cbn [app find_scheme_end]. rewrite IH by done.
  replace (starts_with (lit "://") (b :: scheme ++ lit "://" ++ rest)) with false; [done|].
  symmetry. apply not_true_iff_false. rewrite starts_with_spec. intros (r & Hr). simpl in Hr. by injection Hr.
Qed.
Lemma find_authority_end_app auth rest : authority_free auth → starts_path rest →
  match find_authority_end (auth ++ rest) with Some i => i | None => length (auth ++ rest) end = length auth.
Proof.
  intros Ha Hr. induction Ha as [|b auth Hb Ha IH]; cbn [app].
  - destruct rest as [|b rest]; [done|]. simpl in *. by rewrite Hr.
  - cbn [find_authority_end]. rewrite Hb. destruct (find_authority_end (auth ++ rest)); simpl in *; lia.
Qed.

Lemma lowercase_authority_app scheme auth rest : 58 ∉ scheme → authority_free auth → starts_path rest →
  lowercase_authority (scheme ++ lit "://" ++ auth ++ rest) =
  to_ascii_lowercase (scheme ++ lit "://" ++ auth) ++ rest.
Proof.
  intros Hs Ha Hr. unfold lowercase_authority. rewrite find_scheme_end_app by done.
  set (url := scheme ++ lit "://" ++ auth ++ rest).
  assert (url = (scheme ++ lit "://") ++ auth ++ rest) as Hurl by (unfold url; by rewrite <- app_assoc).
  assert (length scheme + 3 = length (scheme ++ lit "://"))%nat as Hl3 by (by rewrite length_app).
  rewrite Hl3.
  assert (drop (length (scheme ++ lit "://")) url = auth ++ rest) as -> by (rewrite Hurl; apply drop_app_length).
  pose proof (find_authority_end_app auth rest Ha Hr) as Hend.
  set (stop := match find_authority_end (auth ++ rest) with Some i => _ | None => _ end).
  assert (stop = length (scheme ++ lit "://" ++ auth)) as ->.
  { unfold stop. rewrite Hurl. destruct (find_authority_end (auth ++ rest)); rewrite !length_app in *; simpl in *; lia. }
  assert (url = (scheme ++ lit "://" ++ auth) ++ rest) as Hurl2 by (unfold url; by rewrite <- !app_assoc).
  rewrite Hurl2, take_app_length, drop_app_length.
  destruct (existsb is_ascii_uppercase (scheme ++ lit "://" ++ auth)) eqn:He; [done|]. cbn [negb]. f_equal.
  rewrite to_lower_fix; [done|]. apply Forall_forall. intros b Hb.
  apply not_true_iff_false. intros Hu. apply not_true_iff_false in He. apply He. apply existsb_Exists. eauto.
Qed.

(** Letter case cannot hide a host from the engine: URLs and sources that differ only in
    the case of their scheme and authority get the same verdict, while the path is checked as
    it is. *)
Theorem check_ignores_authority_case `{AdblockCrate} (e : FilterEngine) (kind : string) scheme1 auth1 scheme2 auth2 rest
    sscheme1 sauth1 sscheme2 sauth2 srest :
  58 ∉ scheme1 ++ scheme2 ++ sscheme1 ++ sscheme2 →
  authority_free (auth1 ++ auth2 ++ sauth1 ++ sauth2) → starts_path rest → starts_path srest →
  eq_ignore_ascii_case scheme1 scheme2 = true → eq_ignore_ascii_case auth1 auth2 = true →
  eq_ignore_ascii_case sscheme1 sscheme2 = true → eq_ignore_ascii_case sauth1 sauth2 = true →
  check e (scheme1 ++ lit "://" ++ auth1 ++ rest) (sscheme1 ++ lit "://" ++ sauth1 ++ srest) kind =
  check e (scheme2 ++ lit "://" ++ auth2 ++ rest) (sscheme2 ++ lit "://" ++ sauth2 ++ srest) kind.
Proof.
  rewrite !not_elem_of_app. unfold authority_free. rewrite !Forall_app. intros (?&?&?&?) (?&?&?&?) Hr Hsr.
  rewrite !eq_ignore_case_spec. intros E1 E2 E3 E4. unfold check.
  rewrite !lowercase_authority_app by done. rewrite !to_lower_app, E1, E2, E3, E4. done.
Qed.

(** ** An instance to run the model with *)

Definition example_adblock : AdblockCrate := {|
  ab_engine := bytes; ab_request := bytes;
  ab_is_network_rule _ line := starts_with (lit "||") line;
  ab_build _ lists := concat lists.*1;
  ab_serialize e := e; ab_deserialize := Some;
  ab_request_new url _ _ := Some url;
  ab_check e url := (starts_with url e, None);
  ab_roundtrip e := eq_refl |}.
Definition no_failures : WriteAnswers :=
  {| wa_open _ := None; wa_write := None; wa_sync := None; wa_rename := None; wa_remove := true |}.

Lemma write_is_atomic_witness :
  ∃ states next', write_atomically 3 {[lit "d/engine.dat" := lit "old"]} (lit "d") ENGINE_FILE (lit "new") (lit "7") 0
      no_failures = Some (states, Ok (), next') ∧
  head states = Some (<[lit "d/engine.dat" := lit "new"]> {[lit "d/engine.dat" := lit "old"]}).
Proof.
  pose (r := write_atomically 3 {[lit "d/engine.dat" := lit "old"]} (lit "d") ENGINE_FILE (lit "new") (lit "7") 0 no_failures).
  assert (match r with Some (_, Ok _, _) => true | _ => false end = true) as Hok by (vm_compute; reflexivity).
  destruct r as [[[states [[]|e]] next']|] eqn:E; [|discriminate Hok|discriminate Hok]. unfold r in E.
  exists states, next'. split; [exact E|].
  exact (proj2 (write_is_atomic _ _ _ _ _ _ _ _ _ _ _ E)).
Defined.

Definition example_sources : list ListSource :=
  [{| source_name := lit "a"; source_text := lit "||ads.example^"; source_format := DomainRules.Adblock |}].
Lemma compiled_files_load_witness : ∃ states report last engine,
  compile_split_exempting (H := example_adblock) 3 ∅ example_sources (DnsList_from <$> example_sources) (lit "d") (lit "7")
    0 None no_failures no_failures = Some (states, Ok report) ∧ head states = Some last ∧
  last !! (lit "d" ++ lit "/" ++ ENGINE_FILE) = Some engine.
Proof.
  pose (r := compile_split_exempting (H := example_adblock) 3 ∅ example_sources (DnsList_from <$> example_sources)
    (lit "d") (lit "7") 0 None no_failures no_failures).
  assert (match r with Some (_, Ok _) => true | _ => false end = true) as Hok by (vm_compute; reflexivity).
  destruct r as [[states [report|e]]|] eqn:E; [|discriminate Hok|discriminate Hok]. unfold r in E.
  destruct (@compiled_files_load example_adblock _ _ _ _ _ _ _ _ _ _ _ _ E) as (last & engine & d & Hl & He & _).
  exists states, report, last, engine. split; [exact E|]. split; [exact Hl|exact He].
Defined.

Definition example_engine : @FilterEngine example_adblock :=
  @Build_FilterEngine example_adblock (lit "https://ads.example/A").
Lemma check_ignores_authority_case_witness :
  check (H := example_adblock) example_engine (lit "HTTPS://ADS.example/A") (lit "s://x") "image" =
  check (H := example_adblock) example_engine (lit "https://ads.example/A") (lit "s://X") "image".
Proof.
  refine (@check_ignores_authority_case example_adblock _ _ (lit "HTTPS") (lit "ADS.example") (lit "https")
    (lit "ads.example") (lit "/A") (lit "s") (lit "x") (lit "s") (lit "X") [] _ _ _ _ _ _ _ _).
  - apply (bool_decide_unpack _). vm_compute. exact I.
  - apply (bool_decide_unpack _). vm_compute. exact I.
  - reflexivity.
  - exact I.
  - reflexivity.
  - reflexivity.
  - reflexivity.
  - reflexivity.
Defined.
