(* ===== verification/UpstreamError.v ===== *)
(** * Upstream failures and what they mean ([mitm/src/upstream.rs], first part)

    An error is a chain of causes: [std::error::Error] values of the types the source
    downcasts to, and others. An [io::Error] that wraps another error answers [get_ref] with
    it, and [source] with that error's own source, as [std] documents. *)
From S2P Require Import Prelude RustStr Io.

(** The TLS alerts, certificate errors and errors of rustls that the source names. *)
Inductive AlertDescription :=
| CloseNotify | HandshakeFailure | BadCertificateAlert | CertificateUnknownAlert | UnknownCAAlert | DecryptErrorAlert
| ProtocolVersionAlert | InsufficientSecurity | CertificateRequired | UserCanceled | OtherAlert (n : nat).
Inductive CertificateError :=
| NotValidForName | NotValidForNameContext | Expired | ExpiredContext | NotValidYet | NotValidYetContext | Revoked
| UnknownRevocationStatus | ExpiredRevocationList | ExpiredRevocationListContext | InvalidPurpose
| InvalidPurposeContext | OtherCertificate (n : nat).
Inductive RustlsError :=
| InvalidCertificate (c : CertificateError) | PeerIncompatible | AlertReceived (d : AlertDescription)
| OtherRustls (n : nat).

(** [h2::Error]: what the source asks of it. Reasons are the codes of RFC 9113. *)
Record H2Error := {
  h2_is_reset : bool;
  h2_is_go_away : bool;
  h2_is_remote : bool;
  h2_reason : option Z
}.
Definition REASON_PROTOCOL_ERROR : Z := 1.
Definition REASON_INTERNAL_ERROR : Z := 2.
Definition REASON_REFUSED_STREAM : Z := 7.
Definition REASON_HTTP_1_1_REQUIRED : Z := 13.

Inductive DynError :=
| IoError (kind : ErrorKind) (inner : option DynError)
| HyperError (incomplete_message : bool) (cause : option DynError)
| H2 (e : H2Error) (cause : option DynError)
| Rustls (e : RustlsError)
| OtherError (cause : option DynError).

(** [error.source()], its [source()] and so on. *)
Fixpoint sources (e : DynError) : list DynError :=
  match e with
  | IoError _ None => []
  | IoError _ (Some inner) => sources inner
  | HyperError _ (Some c) | H2 _ (Some c) | OtherError (Some c) => c :: sources c
  | HyperError _ None | H2 _ None | OtherError None | Rustls _ => []
  end.
(** The errors visited by [while let Some(error) = next { ..; next = error.source() }]. *)
Definition chain (e : DynError) : list DynError := e :: sources e.

Inductive UpstreamError :=
| Connect (kind : ErrorKind) (inner : option DynError)
| Timeout
| ServerNameError (name : bytes)
| Exhausted
| Http (incomplete_message : bool) (cause : option DynError)
| ClientCertificate (error : UpstreamError).

(** The first value some function gives. *)
Fixpoint find_map {A B} (f : A → option B) (l : list A) : option B :=
  match l with
  | [] => None
  | x :: l' => match f x with Some y => Some y | None => find_map f l' end
  end.

Definition rustls_of (e : DynError) : option RustlsError :=
  match e with
  | Rustls tls | IoError _ (Some (Rustls tls)) => Some tls
  | _ => None
  end.
Definition rustls_error (error : UpstreamError) : option RustlsError :=
  match error with
  | Connect kind inner => find_map rustls_of (chain (IoError kind inner))
  | Http incomplete cause => find_map rustls_of (chain (HyperError incomplete cause))
  | _ => None
  end.

Definition client_rejects_too (error : CertificateError) : bool :=
  match error with OtherCertificate _ => false | _ => true end.

Definition h2_of (e : DynError) : option H2Error := match e with H2 h2 _ => Some h2 | _ => None end.
Definition http11_required (error : UpstreamError) : bool :=
  match error with
  | Http incomplete cause =>
      match find_map h2_of (chain (HyperError incomplete cause)) with
      | Some h2 => (h2_is_reset h2 || h2_is_go_away h2) && h2_is_remote h2
                   && bool_decide (h2_reason h2 = Some REASON_HTTP_1_1_REQUIRED)
      | None => false
      end
  | _ => false
  end.

Definition needs_passthrough (error : UpstreamError) : bool :=
  match error with
  | ClientCertificate _ => true
  | _ =>
      if http11_required error then true
      else match rustls_error error with
           | Some (InvalidCertificate certificate) => negb (client_rejects_too certificate)
           | Some PeerIncompatible => true
           | Some (AlertReceived (HandshakeFailure | ProtocolVersionAlert | InsufficientSecurity | CertificateRequired)) => true
           | _ => false
           end
  end.

Definition is_unverified_certificate (error : UpstreamError) : bool :=
  match rustls_error error with
  | Some (InvalidCertificate certificate) => negb (client_rejects_too certificate)
  | _ => false
  end.

Definition certificate_problem (error : UpstreamError) : option string :=
  match rustls_error error with
  | Some (InvalidCertificate certificate) =>
      if negb (client_rejects_too certificate) then None
      else Some (match certificate with
                 | NotValidForName | NotValidForNameContext => "is for another name"
                 | Expired | ExpiredContext => "has expired (or this device's clock is wrong)"
                 | NotValidYet | NotValidYetContext => "is not valid yet (or this device's clock is wrong)"
                 | InvalidPurpose | InvalidPurposeContext => "is not meant for a web server"
                 | _ => "has been revoked, or its revocation status is unknown"
                 end%string)
  | _ => None
  end.

Definition is_unreachable (error : UpstreamError) : bool :=
  match error with
  | Timeout => true
  | Connect _ _ => match rustls_error error with None => true | Some _ => false end
  | _ => false
  end.

(** One error of the walk in [closed_without_response] says the connection was closed. *)
Definition says_closed (e : DynError) : bool :=
  match e with
  | HyperError incomplete_message _ => incomplete_message
  | IoError (ConnectionReset | ConnectionAborted | BrokenPipe | UnexpectedEof) _ => true
  | H2 h2 _ => (h2_is_reset h2 || h2_is_go_away h2) && h2_is_remote h2
               && negb (bool_decide (h2_reason h2 = Some REASON_PROTOCOL_ERROR))
  | _ => false
  end.
Definition closed_without_response (error : UpstreamError) : bool :=
  match error with
  | Http incomplete cause =>
      if (match rustls_error error with Some _ => true | None => false end) || http11_required error then false
      else existsb says_closed (chain (HyperError incomplete cause))
  | _ => false
  end.

(** [connect_failure]. *)
Definition connect_failure (kind : ErrorKind) (inner : option DynError) (client_cert_asked : bool) : UpstreamError :=
  let error := Connect kind inner in
  match client_cert_asked, rustls_error error with
  | true, Some (AlertReceived _) => ClientCertificate error
  | _, _ => error
  end.

(** [AlertWatch::note]: a failed poll with a fatal alert from the server. *)
Definition AlertWatch_note {A} (alert : bool) (polled : Poll (result A (ErrorKind * option DynError))) : bool :=
  match polled with
  | Ready (Err (_, Some (Rustls (AlertReceived _)))) => true
  | _ => alert
  end.

(** A dial failure worth sharing with the requests that waited for the dial. *)
Inductive Unreachable := UnreachableTimeout | UnreachableConnect (kind : ErrorKind).
Definition Unreachable_of {A} (result : result A UpstreamError) : option Unreachable :=
  match result with
  | Err Timeout => Some UnreachableTimeout
  | Err (Connect kind inner) => if is_unreachable (Connect kind inner) then Some (UnreachableConnect kind) else None
  | _ => None
  end.
Definition Unreachable_error (self : Unreachable) : UpstreamError :=
  match self with
  | UnreachableTimeout => Timeout
  | UnreachableConnect kind => Connect kind (Some (OtherError None))
  end.

(** [request::gets_no_response]. *)
Definition gets_no_response (error : UpstreamError) : bool := is_unreachable error || closed_without_response error.

(** [proxy::info_level_failure]. *)
Definition info_level_failure (error : UpstreamError) : option string :=
  if is_unreachable error then Some "unreachable"%string
  else match certificate_problem error with Some _ => Some "certificate rejected"%string | None => None end.

(** ** Facts *)

Lemma needs_passthrough_answers error : needs_passthrough error = true →
  gets_no_response error = false ∧ error ≠ Exhausted ∧ error ≠ Timeout.
Proof.
  unfold gets_no_response. destruct error as [k i| |n| |inc c|e]; try done.
  - unfold needs_passthrough, closed_without_response, is_unreachable, http11_required.
    destruct (rustls_error (Connect k i)); [|done]. done.
  - unfold needs_passthrough, is_unreachable, closed_without_response.
    destruct (http11_required (Http inc c)); [by rewrite orb_true_r|].
    destruct (rustls_error (Http inc c)); done.
Qed.

(** The classes of upstream failure fit together. A failure that makes a host a pin never
    counts as unreachable or closed and is not a lack of permits; an unverified certificate
    always makes a pin; a certificate the client would reject too makes one only when the
    server required HTTP/1.1; a shared dial failure gives every waiting request an error that
    is unreachable like the first one; and after a certificate request any alert in the
    handshake counts as a required client certificate, which makes a pin, and anything else
    does not become one. *)
Theorem failure_classes_consistent (error : UpstreamError) :
  (needs_passthrough error = true → gets_no_response error = false ∧ error ≠ Exhausted) ∧
  (is_unverified_certificate error = true → needs_passthrough error = true ∧ certificate_problem error = None) ∧
  (is_Some (certificate_problem error) → is_unreachable error = false ∧ closed_without_response error = false ∧
     (needs_passthrough error = true → http11_required error = true)) ∧
  (∀ A (r : result A UpstreamError) u, Unreachable_of r = Some u →
     is_unreachable (Unreachable_error u) = true ∧ (∃ e, r = Err e ∧ is_unreachable e = true)) ∧
  (∀ kind inner asked, let e := connect_failure kind inner asked in
     (e = ClientCertificate (Connect kind inner) ∧ asked = true ∧ needs_passthrough e = true ∧
        ∃ d, rustls_error (Connect kind inner) = Some (AlertReceived d)) ∨
     e = Connect kind inner).
Proof.
  split_and!.
  - intros H. destruct (needs_passthrough_answers error H) as (? & ? & ?). done.
  - unfold is_unverified_certificate, certificate_problem, needs_passthrough.
    destruct (rustls_error error) as [[c| | |]|] eqn:Hr; try done. intros Hc.
    rewrite Hc. split; [|done]. destruct error; try done; by destruct (http11_required _).
  - unfold certificate_problem. intros [s Hs]. destruct (rustls_error error) as [[c| | |]|] eqn:Hr; try done.
    destruct (client_rejects_too c) eqn:Hc; [|done]. clear Hs.
    unfold is_unreachable, closed_without_response, needs_passthrough. rewrite Hr.
    destruct error; try done; split_and!; try done; destruct (http11_required _) eqn:Hh; try done; by rewrite Hc.
  - intros A [a|e] u; [done|]. destruct e as [k i| | | | |]; cbn [Unreachable_of]; try done.
    + unfold is_unreachable. destruct (rustls_error (Connect k i)) eqn:Hr; [done|].
      intros [= <-]. split; [done|]. exists (Connect k i). by rewrite Hr.
    + intros [= <-]. eauto.
  - intros kind inner asked. unfold connect_failure.
    destruct asked; [|by right]. destruct (rustls_error (Connect kind inner)) as [[]|] eqn:Hr; try by right.
    left. eauto 10.
Qed.

Definition unknown_issuer : UpstreamError := Connect InvalidData (Some (Rustls (InvalidCertificate (OtherCertificate 0)))).
Lemma failure_classes_consistent_witness :
  needs_passthrough unknown_issuer = true ∧ gets_no_response unknown_issuer = false.
Proof. split; [reflexivity|]. exact (proj1 (proj1 (failure_classes_consistent unknown_issuer) eq_refl)). Defined.
