(* ===== verification/Filtering.v ===== *)
(** * Checking a request or a host ([mitm/src/filtering.rs])

    [ProxyContext] is what the engine shares with the proxy, the parts the filtering reads and
    writes. The DNS blocklist is an [Arc], so it has an identity beside its value: [Arc::ptr_eq]
    is equality of the identities. *)
From S2P Require Import Prelude RustStr Collections Net HostPattern Policy PolicyFacts DomainRules DomainSet DomainSetFacts Detect Common.
From S2P Require Import Wire LocalName Answer DnsCache Packet Handler HandlerFacts DnsExamples Io Http Engine.

(** The host of an absolute URL. *)
Definition url_host (url : bytes) : option bytes :=
  scheme_end ← find_scheme_end url;
  let rest := drop (scheme_end + 3) url in
  let authority := match find_authority_end rest with Some i => take i rest | None => rest end in
  let authority := match rsplit_once 64 authority with Some (_, host) => host | None => authority end in
  host ← match strip_prefix (lit "[") authority with
         | Some v6 => fst <$> split_once 93 v6
         | None => head (split_on 58 authority)
         end;
  let host := strip_suffix_or (lit ".") host in
  if bool_decide (host = []) then None else Some host.

Section filtering.
Context `{HttpCrate, AdblockCrate}.

Record ProxyContext := {
  ctx_policy : Policy;
  ctx_filter : option FilterEngine;
  (** the list's identity and the list *)
  ctx_domains : option (nat * DomainSet);
  ctx_stats : Stats;
  ctx_events : option EventLog
}.
Definition ctx_inc (counter : Counter) (ctx : ProxyContext) : ProxyContext :=
  {| ctx_policy := ctx_policy ctx; ctx_filter := ctx_filter ctx; ctx_domains := ctx_domains ctx;
     ctx_stats := Stats_inc counter (ctx_stats ctx); ctx_events := ctx_events ctx |}.
Definition ctx_record (event : BlockEvent) (ctx : ProxyContext) : ProxyContext :=
  {| ctx_policy := ctx_policy ctx; ctx_filter := ctx_filter ctx; ctx_domains := ctx_domains ctx;
     ctx_stats := ctx_stats ctx; ctx_events := (λ events, EventLog_record events event) <$> ctx_events ctx |}.
Definition ctx_learn (l : Learning) (ctx : ProxyContext) : ProxyContext :=
  {| ctx_policy := {| mitm_enabled := mitm_enabled (ctx_policy ctx); user := user (ctx_policy ctx);
                      allowlist := allowlist (ctx_policy ctx); learning := l |};
     ctx_filter := ctx_filter ctx; ctx_domains := ctx_domains ctx; ctx_stats := ctx_stats ctx;
     ctx_events := ctx_events ctx |}.

(** [filtering::is_blocked]; [wall] is [unix_secs()]. *)
Definition request_is_blocked (ctx : ProxyContext) (url path : bytes) (headers : HeaderMap)
    (forced_type : option string) (wall : Z) : ProxyContext * bool :=
  let ctx := ctx_inc http_requests ctx in
  match ctx_filter ctx with
  | None => (ctx, false)
  | Some engine =>
      let header name := v ← hm_get headers (lit name); value_to_str v in
      let kind := default (request_type (header "sec-fetch-dest"%string) (header "accept"%string) path) forced_type in
      let source := source_url url kind (header "referer"%string) (header "origin"%string) in
      let host := url_host url in
      let page_host := url_host source in
      if existsb (is_allowlisted (ctx_policy ctx)) (omap id [host; page_host]) then (ctx, false)
      else match check engine url source kind with
           | VerdictAllow => (ctx, false)
           | VerdictBlock _ =>
               let ctx := ctx_inc http_blocked ctx in
               (ctx_record {| ev_unix_secs := wall; ev_kind := EventRequest;
                              ev_host := to_ascii_lowercase (default [] host); ev_url := Some url;
                              ev_source_host := to_ascii_lowercase <$> page_host |} ctx, true)
           end
  end.

(** Which list blocked a host: its identity. *)
Record BlockedBy := { blocked_list : nat }.
Definition lists_changed (self : BlockedBy) (ctx : ProxyContext) : bool :=
  match ctx_domains ctx with
  | None => true
  | Some (list, _) => negb (list =? blocked_list self)%nat
  end.

Definition domain_blocked_by (ctx : ProxyContext) (host : bytes) (wall : Z) : ProxyContext * option BlockedBy :=
  let host := strip_suffix_or (lit ".") host in
  let bare := default host (h ← strip_prefix (lit "[") host; strip_suffix (lit "]") h) in
  if bool_decide (bare = []) || bool_decide (is_Some (IpAddr_parse bare)) then (ctx, None)
  else match ctx_domains ctx with
       | None => (ctx, None)
       | Some (list, domains) =>
           if negb (is_blocked domains bare) || is_allowlisted (ctx_policy ctx) bare then (ctx, None)
           else
             let ctx := ctx_inc dns_blocked ctx in
             (ctx_record {| ev_unix_secs := wall; ev_kind := EventDns; ev_host := to_ascii_lowercase bare;
                            ev_url := None; ev_source_host := None |} ctx, Some {| blocked_list := list |})
       end.
Definition is_domain_blocked (ctx : ProxyContext) (host : bytes) (wall : Z) : ProxyContext * bool :=
  let '(ctx, by_) := domain_blocked_by ctx host wall in (ctx, bool_decide (is_Some by_)).
End filtering.

(** ** The host of a URL the proxy builds *)

(** The bytes of a name that an authority keeps in one piece. *)
Definition plain_name (name : bytes) : Prop :=
  name ≠ [] ∧ Forall (λ b, b ∉ lit "/?#@[]") name ∧ ends_with (lit ".") name = false.

Lemma rsplit_once_none c s : c ∉ s → rsplit_once c s = None.
Proof.
  intros Hc. unfold rsplit_once. assert (c ∉ reverse s) as Hr by (by rewrite elem_of_reverse).
  assert (split_once c (reverse s) = None) as ->; [|done]. induction (reverse s) as [|x r IH]; [done|].
  apply not_elem_of_cons in Hr as [Hx Hr]. cbn [split_once]. rewrite (proj2 (Z.eqb_neq x c)) by done. by rewrite IH.
Qed.
Lemma split_once_app c a b : c ∉ a → split_once c (a ++ c :: b) = Some (a, b).
Proof.
  induction a as [|x a IH]; intros Hc; cbn [app split_once]; [by rewrite Z.eqb_refl|].
  apply not_elem_of_cons in Hc as [Hx Hc]. rewrite (proj2 (Z.eqb_neq x c)) by done. by rewrite IH.
Qed.
Lemma strip_suffix_or_not_ends p s : ends_with p s = false → strip_suffix_or p s = s.
Proof. unfold ends_with, strip_suffix_or. by destruct (strip_suffix p s). Qed.
Lemma head_split_on c s : head (split_on c s) = Some (match split_once c s with Some (a, _) => a | None => s end).
Proof.
  induction s as [|x s IH]; [done|]. cbn [split_on split_once]. destruct (x =? c) eqn:E; [done|].
  destruct (split_on c s) as [|w ws] eqn:Es; [by destruct (split_on_nonnil c s)|]. simpl in *.
  destruct (split_once c s) as [[a b]|]; by injection IH as ->.
Qed.

(** The URL's authority, as it was put in. *)
Lemma url_host_app scheme auth rest : 58 ∉ scheme → authority_free auth → 64 ∉ auth → starts_path rest →
  url_host (scheme ++ lit "://" ++ auth ++ rest) =
  (host ← match strip_prefix (lit "[") auth with
          | Some v6 => fst <$> split_once 93 v6
          | None => head (split_on 58 auth)
          end;
   if bool_decide (strip_suffix_or (lit ".") host = []) then None else Some (strip_suffix_or (lit ".") host)).
Proof.
  intros Hs Ha Hat Hr. unfold url_host. rewrite find_scheme_end_app by done. cbn [mbind option_bind].
  assert (drop (length scheme + 3) (scheme ++ lit "://" ++ auth ++ rest) = auth ++ rest) as ->.
  { rewrite <- drop_drop, drop_app_length. done. }
  pose proof (find_authority_end_app auth rest Ha Hr) as Hend.
  assert (match find_authority_end (auth ++ rest) with Some i => take i (auth ++ rest) | None => auth ++ rest end
    = auth) as ->.
  { destruct (find_authority_end (auth ++ rest)) as [i|]; [by rewrite Hend, take_app_length|].
    rewrite length_app in Hend. assert (rest = []) as -> by (apply length_zero_iff_nil; lia). apply app_nil_r. }
  by rewrite rsplit_once_none.
Qed.

Lemma show_decimal_digits v : 0 <= v < 65536 → Forall (λ b, 48 <= b <= 57) (show_decimal v).
Proof. intros Hv. apply show_decimal_spec. lia. Qed.

(** An authority is the name, in brackets when it is an IPv6 address, and the port. *)
Definition port_suffix (port default_port : Z) : bytes :=
  if port =? default_port then [] else lit ":" ++ show_decimal port.
Definition bracketed (name : bytes) : bytes := if contains 58 name then lit "[" ++ name ++ lit "]" else name.
Lemma authority_eq name port default_port : starts_with (lit "[") name = false →
  authority name port default_port = bracketed name ++ port_suffix port default_port.
Proof.
  intros Hb. unfold authority, bracketed, port_suffix. rewrite Hb, andb_true_r.
  destruct (port =? default_port); by rewrite ?app_nil_r.
Qed.
Lemma port_suffix_free port default_port : 0 <= port < 65536 →
  authority_free (port_suffix port default_port) ∧ 64 ∉ port_suffix port default_port.
Proof.
  intros Hp. pose proof (show_decimal_digits port Hp) as Hdig. unfold port_suffix.
  destruct (port =? default_port); [split; [by constructor|apply not_elem_of_nil]|].
  split.
  - constructor; [done|]. eapply Forall_impl; [exact Hdig|]. intros b Hb. simpl in Hb. unfold ends_authority.
    rewrite !orb_false_iff, !Z.eqb_neq. lia.
  - apply not_elem_of_cons. split; [done|]. intros Hin. rewrite Forall_forall in Hdig. apply Hdig in Hin. lia.
Qed.
Lemma plain_name_free name : plain_name name → authority_free name ∧ ∀ c, c ∈ lit "@[]" → c ∉ name.
Proof.
  intros (_ & Hp & _). split.
  - eapply Forall_impl; [exact Hp|]. intros b Hb. unfold ends_authority. simpl in Hb.
    rewrite !orb_false_iff, !Z.eqb_neq. set_solver.
  - intros c Hc Hin. rewrite Forall_forall in Hp. apply (Hp c Hin). simpl in *. set_solver.
Qed.

(** The host of the URL built for an origin is the origin's name, whatever its port and path;
    an IPv6 address loses the brackets the authority gave it. *)
Lemma url_host_authority scheme name port default_port rest :
  58 ∉ scheme → plain_name name → 0 <= port < 65536 → starts_path rest →
  url_host (scheme ++ lit "://" ++ authority name port default_port ++ rest) = Some name.
Proof.
  intros Hs Hp Hport Hr. destruct (plain_name_free name Hp) as [Haf Hfree].
  destruct (port_suffix_free port default_port Hport) as [Hta Hta64]. destruct Hp as (Hn & _ & Hd).
  assert (91 ∉ name) as H91 by (apply Hfree; simpl; set_solver).
  assert (93 ∉ name) as H93 by (apply Hfree; simpl; set_solver).
  assert (64 ∉ name) as H64 by (apply Hfree; simpl; set_solver).
  rewrite authority_eq by (apply not_true_iff_false; rewrite starts_with_spec; intros (r & ->); set_solver).
  rewrite url_host_app; [|done| | |done].
  - unfold bracketed. destruct (contains 58 name) eqn:Hc.
    + rewrite <- app_assoc, strip_prefix_app. rewrite <- app_assoc. cbn [lit app].
      rewrite split_once_app by done. cbn [fmap option_fmap option_map fst mbind option_bind].
      rewrite strip_suffix_or_not_ends by done. by rewrite bool_decide_false.
    + apply contains_false in Hc. destruct (strip_prefix (lit "[") _) eqn:E.
      { apply strip_prefix_Some in E. destruct name as [|x name']; [done|]. injection E as -> _. set_solver. }
      rewrite head_split_on. unfold port_suffix. destruct (port =? default_port).
      * rewrite app_nil_r. destruct (split_once 58 name) as [[a b]|] eqn:Es.
        { pose proof (split_once_spec 58 name) as Hsp. rewrite Es in Hsp. destruct Hsp as [-> _]. set_solver. }
        cbn [mbind option_bind]. rewrite strip_suffix_or_not_ends by done. by rewrite bool_decide_false.
      * cbn [lit app]. rewrite split_once_app by done. cbn [mbind option_bind].
        rewrite strip_suffix_or_not_ends by done. by rewrite bool_decide_false.
  - apply Forall_app. split; [|done]. unfold bracketed. destruct (contains 58 name); [|done].
    constructor; [done|]. apply Forall_app. split; [done|]. by repeat constructor.
  - unfold bracketed. destruct (contains 58 name); simpl; set_solver.
Qed.

(** ** The proxy blocks the hosts the DNS responder blocks *)

(** A name a client may ask for: not empty, not an address, one trailing dot at most. *)
Definition host_name (host : bytes) : Prop :=
  let name := strip_suffix_or [DOT] host in
  name ≠ [] ∧ unbracketed host ∧ IpAddr_parse name = None ∧ ends_with [DOT] name = false.

Lemma is_blocked_stripped ds host : ends_with [DOT] (strip_suffix_or [DOT] host) = false →
  is_blocked ds (strip_suffix_or [DOT] host) = is_blocked ds host.
Proof. intros Hd. unfold is_blocked. by rewrite (strip_suffix_or_not_ends _ _ Hd). Qed.
Lemma lookup_key_stripped host : unbracketed host → ends_with [DOT] (strip_suffix_or [DOT] host) = false →
  lookup_key (strip_suffix_or [DOT] host) = lookup_key host.
Proof.
  unfold unbracketed. intros Hu Hd. unfold lookup_key. by rewrite (strip_suffix_or_not_ends _ _ Hd).
Qed.
Lemma list_covers_parsed l ps host : collect_results HostPattern_parse l = Ok ps →
  existsb (λ p, HostPattern_matches p host) ps = list_covers l host.
Proof.
  intros Hps%collect_results_Ok. unfold list_covers. induction Hps as [|s p l ps Hp _ IH]; [done|].
  cbn [existsb]. by rewrite Hp, IH.
Qed.

Section agree.
Context `{HttpCrate, AdblockCrate, Hickory, Lru, Etherparse}.

(** The allowlist of the policy and the one the handler was given decide alike. *)
Lemma is_allowlisted_patterns policy patterns ps host :
  collect_results HostPattern_parse patterns = Ok ps → allowlist policy = PatternSet_new ps → host_name host →
  is_allowlisted policy (strip_suffix_or [DOT] host) = existsb (λ p, HostPattern_matches p host) ps.
Proof.
  intros Hps Ha (Hne & Hu & _ & Hd). unfold is_allowlisted. rewrite lookup_key_stripped by done.
  rewrite bool_decide_false by (rewrite lookup_key_unbracketed by done; by rewrite to_lower_nil_iff).
  rewrite Ha, (PatternSet_list_covers _ _ _ Hps Hu). cbn [negb andb]. symmetry. by apply list_covers_parsed.
Qed.

(** The proxy's decision on a host name. *)
Lemma is_domain_blocked_decides (ctx : ProxyContext) patterns ps host wall :
  collect_results HostPattern_parse patterns = Ok ps → allowlist (ctx_policy ctx) = PatternSet_new ps → host_name host →
  is_domain_blocked ctx host wall =
    match ctx_domains ctx with
    | Some (_, ds) =>
        if is_blocked ds host && negb (existsb (λ p, HostPattern_matches p host) ps) then
          (ctx_record {| ev_unix_secs := wall; ev_kind := EventDns; ev_host := to_ascii_lowercase (strip_suffix_or [DOT] host);
                         ev_url := None; ev_source_host := None |} (ctx_inc dns_blocked ctx), true)
        else (ctx, false)
    | None => (ctx, false)
    end.
Proof.
  intros Hps Ha Hh. pose proof (is_allowlisted_patterns _ _ _ _ Hps Ha Hh) as Hal.
  destruct Hh as (Hne & Hu & Hip & Hd). unfold is_domain_blocked, domain_blocked_by.
  change (lit ".") with [DOT]. unfold unbracketed in Hu. rewrite Hu. cbn [mbind option_bind default].
  rewrite bool_decide_false by done.
  rewrite (bool_decide_false (is_Some (IpAddr_parse (strip_suffix_or [DOT] host)))) by (by rewrite Hip; intros [? ?]).
  cbn [orb]. destruct (ctx_domains ctx) as [[id ds]|]; [|done]. rewrite Hal, is_blocked_stripped by done.
  by destruct (is_blocked ds host), (existsb _ ps).
Qed.

(** The proxy and the DNS responder agree on a host: on whether it is blocked and on what a block
    leaves in the counters and the log; and every query packet for the same name (a final dot apart)
    that is not local and not of type HTTPS or SVCB is answered as the proxy decided. *)
Definition blocks_alike (ctx : ProxyContext) (handler : DnsHandler) (host : bytes) (wall : Z) : Prop :=
  let '(ctx', blocked) := is_domain_blocked ctx host wall in
  blocked = DnsHandler_is_blocked handler host ∧
  (let handler' := if blocked then record_block (count handler dns_blocked) host wall else handler in
   ctx_stats ctx' = dh_stats handler' ∧ ctx_events ctx' = dh_events handler' ∧
   ctx_policy ctx' = ctx_policy ctx ∧ ctx_domains ctx' = ctx_domains ctx) ∧
  ∀ packet d m qe q r now at_, asks packet d m qe q → host_name (query_name q) →
    strip_suffix_or [DOT] (query_name q) = strip_suffix_or [DOT] host → is_local_name (query_name q) = false →
    query_type q ≠ TYPE_SVCB → query_type q ≠ TYPE_HTTPS →
    Requester_from_query (udp_payload_bytes d) m qe = Some r →
    answered_as blocked handler packet d r (query_name q) now at_.

Lemma is_blocked_same_name (policy : Policy) patterns handler host host' :
  collect_results HostPattern_parse patterns = Ok (dh_allowlist handler) →
  allowlist policy = PatternSet_new (dh_allowlist handler) → host_name host → host_name host' →
  strip_suffix_or [DOT] host' = strip_suffix_or [DOT] host →
  DnsHandler_is_blocked handler host' = DnsHandler_is_blocked handler host.
Proof.
  intros Hps Ha Hh Hh' Hs. unfold DnsHandler_is_blocked.
  rewrite <-(is_allowlisted_patterns policy _ _ _ Hps Ha Hh), <-(is_allowlisted_patterns policy _ _ _ Hps Ha Hh'), Hs.
  destruct (dh_blocklist handler) as [ds|]; [|done].
  rewrite <-(is_blocked_stripped ds host), <-(is_blocked_stripped ds host'), Hs; [done|apply Hh'|apply Hh].
Qed.

Lemma same_lists_blocks_alike (ctx : ProxyContext) (handler : DnsHandler) patterns host wall :
  collect_results HostPattern_parse patterns = Ok (dh_allowlist handler) →
  allowlist (ctx_policy ctx) = PatternSet_new (dh_allowlist handler) →
  dh_blocklist handler = snd <$> ctx_domains ctx →
  dh_stats handler = ctx_stats ctx → dh_events handler = ctx_events ctx → host_name host →
  blocks_alike ctx handler host wall.
Proof.
  intros Hps Ha Hb Hs He Hh. unfold blocks_alike.
  assert ((is_domain_blocked ctx host wall).2 = DnsHandler_is_blocked handler host) as Hd.
  { rewrite (is_domain_blocked_decides _ _ _ _ _ Hps Ha Hh). unfold DnsHandler_is_blocked. rewrite Hb.
    destruct (ctx_domains ctx) as [[id ds]|]; [|done]. cbn [fmap option_fmap option_map snd].
    by destruct (is_blocked ds host), (existsb _ _). }
  destruct (is_domain_blocked ctx host wall) as [ctx' blocked] eqn:Hi. cbn [snd] in Hd. split; [done|]. split.
  - rewrite (is_domain_blocked_decides _ _ _ _ _ Hps Ha Hh) in Hi.
    destruct (ctx_domains ctx) as [[id ds]|] eqn:Hc; [|injection Hi as <- <-; by rewrite Hs, He].
    destruct (_ && _); injection Hi as <- <-; [|by rewrite Hs, He].
    unfold record_block, count. cbn. rewrite Hs, He. destruct (ctx_events ctx); cbn; by rewrite ?Hs.
  - intros packet d m qe q r now at_ Hq Hh' Hsame Hl Hsv Hht Hr. rewrite Hd.
    rewrite <-(is_blocked_same_name (ctx_policy ctx) _ _ _ _ Hps Ha Hh Hh' Hsame). by apply handle_ordinary with m qe.
Qed.

(** C11: for a host name (not an address or in brackets, with at most one final dot), with the same
    list, the same allowlist texts and shared counters and log, the proxy and the DNS responder
    decide alike: the proxy blocks the host exactly when the responder's list check does, a block
    leaves the same counters and the same log, and otherwise nothing changes. A query packet for the
    same name, when it is not a local name and not of type HTTPS or SVCB, gets the blocked reply
    exactly when the proxy blocks the host, and is otherwise answered from the cache or forwarded.
    (Local names are the exception: the responder never checks them.) *)
Theorem proxy_blocks_like_dns (ctx : ProxyContext) (handler : DnsHandler) patterns host wall :
  collect_results HostPattern_parse patterns = Ok (dh_allowlist handler) →
  allowlist (ctx_policy ctx) = PatternSet_new (dh_allowlist handler) →
  dh_blocklist handler = snd <$> ctx_domains ctx →
  dh_stats handler = ctx_stats ctx → dh_events handler = ctx_events ctx → host_name host →
  blocks_alike ctx handler host wall.
Proof. apply same_lists_blocks_alike. Qed.
End agree.

(** ** Runs *)

Definition example_list (text : string) : option DomainSet :=
  contents ← DomainRules_encode (DomainRules_parse
    [{| source_name := []; source_format := Adblock; source_text := lit text |}]);
  match DomainSet_new contents with Ok ds => Some ds | Err _ => None end.
Definition example_policy (allowed : list string) : Policy :=
  {| mitm_enabled := true; user := PatternSet_new [];
     allowlist := PatternSet_new (match collect_results HostPattern_parse (lit <$> allowed) with
                                  | Ok ps => ps | Err _ => [] end);
     learning := Learning_default |}.
Definition example_context (ds : option DomainSet) (allowed : list string) : @ProxyContext example_adblock :=
  @Build_ProxyContext example_adblock (example_policy allowed) None ((λ l, (0%nat, l)) <$> ds) Stats_default (Some []).
Definition example_dns (ds : option DomainSet) (allowed : list string) : DnsHandler :=
  set_events (set_allowlist (DnsHandler_new ds Stats_default)
    (match collect_results HostPattern_parse (lit <$> allowed) with Ok ps => ps | Err _ => [] end)) (Some []).

(** Whether the proxy and the DNS responder block a host, with the same lists. *)
Definition example_both (text : string) (allowed : list string) (host : string) : bool * bool :=
  ((is_domain_blocked (example_context (example_list text) allowed) (lit host) 7).2,
   DnsHandler_is_blocked (example_dns (example_list text) allowed) (lit host)).

Definition blocked_query : bytes := example_query ["x"; "ADS"; "example"]%string TYPE_A.
Definition blocked_question : DnsQuery := {| query_type := TYPE_A; query_name := lit "x.ADS.example." |}.
Definition blocked_datagram : UdpDatagram :=
  {| udp_source := phone; udp_destination := tunnel_v4; udp_payload_bytes := blocked_query |}.
Definition blocked_message : Message :=
  {| msg_id := 0x1234; msg_recursion_desired := true; msg_is_query := true;
     msg_queries := [blocked_question]; msg_edns := None |}.
Definition blocked_requester : Requester :=
  {| req_id := 0x1234; req_recursion_desired := true;
     req_question := example_question ["x"; "ADS"; "example"]%string TYPE_A; req_edns := None |}.
Lemma blocked_asks : asks (query_packet blocked_query) blocked_datagram blocked_message 31 blocked_question.
Proof. constructor; try (vm_compute; reflexivity). vm_compute. lia. Qed.
Lemma blocked_host_name dot : host_name (lit "x.ADS.example" ++ (if dot : bool then [DOT] else [])).
Proof. destruct dot; split_and!; try (vm_compute; congruence); vm_compute; reflexivity. Qed.

Lemma proxy_blocks_like_dns_witness :
  example_both "||ads.example^" ["ok.ads.example"%string] "x.ADS.example" = (true, true) ∧
  answered_as true (example_dns (example_list "||ads.example^") ["ok.ads.example"%string]) (query_packet blocked_query)
    blocked_datagram blocked_requester (lit "x.ADS.example.") 100 7.
Proof.
  set (ds := example_list "||ads.example^"). set (allowed := ["ok.ads.example"%string]).
  assert (collect_results HostPattern_parse (lit <$> allowed) = Ok (dh_allowlist (example_dns ds allowed))) as Hps
    by (vm_compute; reflexivity).
  assert (dh_blocklist (example_dns ds allowed) = snd <$> ctx_domains (example_context ds allowed)) as Hb by (by destruct ds).
  pose proof (@proxy_blocks_like_dns example_adblock _ list_lru _ (example_context ds allowed) (example_dns ds allowed)
    _ (lit "x.ADS.example") 7 Hps eq_refl Hb eq_refl eq_refl (blocked_host_name false)) as Hp.
  unfold blocks_alike in Hp.
  assert ((is_domain_blocked (example_context ds allowed) (lit "x.ADS.example") 7).2 = true) as Hd by (vm_compute; reflexivity).
  destruct (is_domain_blocked (example_context ds allowed) (lit "x.ADS.example") 7) as [ctx' blocked] eqn:Hi.
  cbn [snd] in Hd. subst blocked. destruct Hp as (Hdns & _ & Hq). split.
  - unfold example_both. fold ds allowed. rewrite Hi, <-Hdns. reflexivity.
  - apply (Hq _ _ _ _ _ _ 100 7 blocked_asks (blocked_host_name true)); try (vm_compute; reflexivity); discriminate.
Defined.

(** A local name on the list: the DNS responder hands it to the network's resolver before it
    looks at the list, so only the proxy blocks it. *)
Theorem local_names_blocked_by_proxy_only :
  let ds := example_list "||printer.lan^" in
  (∃ job, (handle_packet (example_dns ds []) (query_packet (example_query ["printer"; "lan"]%string TYPE_A)) 100 0).1
    = Some (Local_ job)) ∧
  (is_domain_blocked (example_context ds []) (lit "printer.lan") 0).2 = true.
Proof. split; [eexists|]; vm_compute; reflexivity. Qed.
