(* ===== verification/Request.v ===== *)
(** * One request ([mitm/src/request.rs], [forward.rs], [websocket.rs], [intercept.rs], [upstream.rs])

    What the proxy does with one request on an intercepted connection and with one sent in
    absolute form. The upstream pool is the argument [send]: what it answers, and the shared
    context as the tasks that ran meanwhile left it. [wall] is [unix_secs()] when the request
    came, [wall'] after the upstream answered. *)
From S2P Require Import Prelude RustStr Collections Net HostPattern Policy PolicyFacts DomainRules DomainSet Common Io Flight Http Engine Filtering UpstreamError.

(** ** The site and the request *)

(** [hyper::Version], with its order. *)
Inductive Version := HTTP_09 | HTTP_10 | HTTP_11 | HTTP_2 | HTTP_3.
#[global] Instance Version_eq_dec : EqDecision Version.
Proof. solve_decision. Defined.
Definition version_rank (v : Version) : Z :=
  match v with HTTP_09 => 0 | HTTP_10 => 1 | HTTP_11 => 2 | HTTP_2 => 3 | HTTP_3 => 4 end.

Record Target := {
  t_tls : bool;
  t_host : bytes;
  t_port : Z;
  t_server_name : bytes
}.
Definition Target_authority (self : Target) : bytes :=
  authority (t_server_name self) (t_port self) (if t_tls self then 443 else 80).
Definition Target_scheme (self : Target) : bytes := if t_tls self then lit "https" else lit "http".

Record Origin := {
  o_name : bytes;
  o_host : bytes;
  o_port : Z
}.
Definition Origin_authority (self : Origin) : bytes := authority (o_name self) (o_port self) 443.
Definition Origin_target (self : Origin) : Target :=
  {| t_tls := true; t_host := o_host self; t_port := o_port self; t_server_name := o_name self |}.
(** The authority is its host and its port. *)
Definition Origin_matches (self : Origin) (authority : bytes * option Z) : bool :=
  eq_ignore_ascii_case (bare_host authority.1) (o_name self) && (default 443 authority.2 =? o_port self).

(** ** Requests without a response *)

Inductive NoResponse := Closed | PassedThrough (reason : Z) | Blocked (reason : Z) | ListsChanged (reason : Z).
Definition NoResponse_passed_through (reason : Z) : NoResponse := PassedThrough reason.
Definition NoResponse_blocked : NoResponse := Blocked REASON_INTERNAL_ERROR.
Definition NoResponse_lists_changed : NoResponse := ListsChanged REASON_REFUSED_STREAM.
Definition closes_connection (self : NoResponse) : bool :=
  match self with PassedThrough _ | ListsChanged _ => true | _ => false end.

Definition SEC_FETCH_DEST : bytes := lit "sec-fetch-dest".
Inductive Destination := App | Document | Subresource.
#[global] Instance Destination_eq_dec : EqDecision Destination.
Proof. solve_decision. Defined.

Definition is_passthrough (d : Decision) : bool := match d with Passthrough _ => true | _ => false end.

Section request.
Context `{HttpCrate, AdblockCrate}.

Record HttpRequest := {
  req_version : Version;
  req_uri : Uri;
  req_headers : HeaderMap;
  (** the body, named by a number *)
  req_body : nat
}.
Definition with_uri (request : HttpRequest) (uri : Uri) : HttpRequest :=
  {| req_version := req_version request; req_uri := uri; req_headers := req_headers request; req_body := req_body request |}.
Definition with_headers (response : HttpResponse) (headers : HeaderMap) : HttpResponse :=
  {| resp_status := resp_status response; resp_headers := headers; resp_body := resp_body response |}.

Definition Destination_of (headers : HeaderMap) : Destination :=
  match hm_get headers SEC_FETCH_DEST with
  | None => App
  | Some dest => if eq_ignore_ascii_case dest (lit "document") then Document else Subresource
  end.
Definition answer_blocked (headers : HeaderMap) : result HttpResponse NoResponse :=
  match Destination_of headers with
  | App => Ok blocked
  | Document => Ok blocked_page
  | Subresource => Err NoResponse_blocked
  end.
Definition answer_on_blocked_connection (headers : HeaderMap) : result HttpResponse NoResponse :=
  match Destination_of headers with
  | App => Ok blocked
  | Document | Subresource => Err NoResponse_blocked
  end.

(** ** Failures *)

Definition learn_from_failure (ctx : ProxyContext) (name : bytes) (error : UpstreamError) (now : Z)
    : ProxyContext * bool :=
  if negb (needs_passthrough error) then (ctx, false)
  else
    let '(l, _) := learn_upstream_untrusted (learning (ctx_policy ctx)) name now in
    let ctx := ctx_learn l ctx in
    (ctx, is_passthrough (classify (ctx_policy ctx) name now)).

Definition bad_gateway (error : UpstreamError) : HttpResponse :=
  match certificate_problem error with
  | Some problem =>
      text 502 (lit "Tollgate: the server's certificate " ++ lit problem ++ lit ", so this site was not loaded." ++ [10])
  | None =>
      if needs_passthrough error && negb (http11_required error) then
        let what := if is_unverified_certificate error
                    then lit "the server's certificate could not be verified"
                    else lit "no secure connection to the server could be made" in
        text 502 (lit "Tollgate: " ++ what ++ lit ", so this site was not loaded. A Wi-Fi sign-in page (captive portal) or a network filter that intercepts HTTPS can cause this; if you just joined this network, sign in and reload." ++ [10])
      else status 502
  end.

Definition failure (ctx : ProxyContext) (origin : Origin) (error : UpstreamError) (destination : Destination) (now : Z)
    : ProxyContext * result (HttpResponse * bool) NoResponse :=
  if gets_no_response error then (ctx, Err Closed)
  else match error with
       | Exhausted => (ctx, Ok (status 503, false))
       | _ =>
           let http11 := http11_required error in
           let '(ctx, learned) := learn_from_failure ctx (o_name origin) error now in
           if learned then
             (ctx, Err (NoResponse_passed_through (if http11 then REASON_HTTP_1_1_REQUIRED else REASON_REFUSED_STREAM)))
           else if http11 || bool_decide (destination = Subresource) then (ctx, Err Closed)
           else (ctx, Ok (bad_gateway error, false))
       end.

(** ** WebSockets *)

Definition is_upgrade (request : HttpRequest) : bool :=
  bool_decide (req_version request = HTTP_11)
  && match hm_get (req_headers request) (lit "upgrade") with
     | Some v => eq_ignore_ascii_case v (lit "websocket")
     | None => false
     end.

(** The request that [upgrade] sends to the server. *)
Definition upgrade_request (target : Target) (request : HttpRequest) : HttpRequest :=
  let upgrade := hm_get (req_headers request) (lit "upgrade") in
  let headers := strip_hop_by_hop (req_headers request) in
  let headers := hm_insert headers (lit "connection") (lit "upgrade") in
  let headers := match upgrade with Some u => hm_insert headers (lit "upgrade") u | None => headers end in
  let headers := match value_from_bytes (Target_authority target) with
                 | Some host => hm_insert headers (lit "host") host | None => headers end in
  let uri := match (pq ← uri_path_and_query (req_uri request); uri_parse pq) with
             | Some uri => uri | None => req_uri request end in
  {| req_version := HTTP_11; req_uri := uri; req_headers := headers; req_body := req_body request |}.
(** [upgrade] answers with what the server sent, hop-by-hop headers removed unless it is [101]. *)
Definition upgrade (target : Target) (request : HttpRequest) (sent : HttpRequest → option HttpResponse) : HttpResponse :=
  match sent (upgrade_request target request) with
  | None => status 502
  | Some response =>
      if negb (resp_status response =? 101)
      then with_headers response (strip_hop_by_hop (resp_headers response))
      else {| resp_status := resp_status response; resp_headers := resp_headers response; resp_body := EmptyBody |}
  end.

(** [dial target] is what opening a connection outside the pool gives: how the server answers
    the upgrade, or the error. *)
Definition websocket_forward (ctx : ProxyContext) (target : Target) (request : HttpRequest)
    (dial : Target → ProxyContext * result (HttpRequest → option HttpResponse) UpstreamError) (now : Z)
    : ProxyContext * (HttpResponse * bool) :=
  match dial target with
  | (ctx, Err e) =>
      let '(ctx, untrusted) := learn_from_failure ctx (t_server_name target) e now in
      (ctx, (status 502, untrusted))
  | (ctx, Ok upstream) => (ctx, (upgrade target request upstream, false))
  end.

(** ** A request on an intercepted connection *)

(** What the network does: the pool's and the WebSocket dialer's answers, and the context when
    they come. *)
Record Upstream := {
  up_send : ProxyContext → Target → HttpRequest → ProxyContext * result HttpResponse UpstreamError;
  up_dial : ProxyContext → Target → ProxyContext * result (HttpRequest → option HttpResponse) UpstreamError
}.

Definition request_url (origin : Origin) (request : HttpRequest) : bytes :=
  (if is_upgrade request then lit "wss" else lit "https") ++ lit "://" ++ Origin_authority origin
    ++ default (lit "/") (uri_path_and_query (req_uri request)).

(** [request::forward]. *)
Definition request_forward (up : Upstream) (ctx : ProxyContext) (origin : Origin) (request : HttpRequest) (wall wall' : Z)
    : ProxyContext * result (HttpResponse * bool) NoResponse :=
  if bool_decide (req_version request = HTTP_2)
     && match uri_authority (req_uri request) with
        | Some authority => negb (Origin_matches origin authority)
        | None => false
        end
  then (ctx, Ok (status 421, false))
  else
    let websocket := is_upgrade request in
    let forced_type := if websocket then Some "websocket"%string else None in
    let url := request_url origin request in
    let '(ctx, is_blocked) :=
      request_is_blocked ctx url (uri_path (req_uri request)) (req_headers request) forced_type wall in
    if is_blocked then
      (ctx, match answer_blocked (req_headers request) with Ok response => Ok (response, false) | Err e => Err e end)
    else if websocket then
      let '(ctx, answer) := websocket_forward ctx (Origin_target origin) request (up_dial up ctx) wall' in
      (ctx, Ok answer)
    else
      let request := match uri_parse url with Some uri => with_uri request uri | None => request end in
      let destination := Destination_of (req_headers request) in
      match up_send up ctx (Origin_target origin) request with
      | (ctx, Ok response) => (ctx, Ok (response, false))
      | (ctx, Err e) => failure ctx origin e destination wall'
      end.

(** [request::handle]: the answer, and whether the client connection is asked to close. *)
Definition handle (up : Upstream) (ctx : ProxyContext) (origin : Origin) (request : HttpRequest) (wall wall' : Z)
    : ProxyContext * result HttpResponse NoResponse * bool :=
  let http1 := version_rank (req_version request) <? version_rank HTTP_2 in
  let passed_through := is_passthrough (classify (ctx_policy ctx) (o_name origin) wall) in
  match request_forward up ctx origin request wall wall' with
  | (ctx, Err e) => (ctx, Err e, passed_through || closes_connection e)
  | (ctx, Ok (response, untrusted)) =>
      if (passed_through || untrusted) && negb (resp_status response =? 101) then
        (ctx, Ok (if http1 then with_headers response (hm_insert (resp_headers response) (lit "connection") (lit "close"))
                  else response), true)
      else (ctx, Ok response, false)
  end.

(** ** A request in absolute form *)

(** [forward::forward]. *)
Definition absolute_forward (up : Upstream) (ctx : ProxyContext) (request : HttpRequest) (wall wall' : Z)
    : ProxyContext * result HttpResponse NoResponse :=
  let uri := req_uri request in
  match uri_scheme uri with
  | None => (ctx, Ok (status 400))
  | Some scheme =>
      if negb (bool_decide (scheme = lit "http")) && negb (bool_decide (scheme = lit "https")) then (ctx, Ok (status 400))
      else
        let tls := bool_decide (scheme = lit "https") in
        match uri_authority uri with
        | None => (ctx, Ok (status 400))
        | Some (uri_host, port) =>
            let host := bare_host uri_host in
            let '(ctx, domain_blocked) := is_domain_blocked ctx host wall in
            if domain_blocked then (ctx, answer_blocked (req_headers request))
            else
              let target := {| t_tls := tls; t_host := host; t_port := default (if tls then 443 else 80) port;
                               t_server_name := host |} in
              let '(ctx, blocked) :=
                request_is_blocked ctx (uri_to_string uri) (uri_path uri) (req_headers request) None wall in
              if blocked then (ctx, answer_blocked (req_headers request))
              else match up_send up ctx target request with
                   | (ctx, Ok response) => (ctx, Ok response)
                   | (ctx, Err e) =>
                       if gets_no_response e then (ctx, Err Closed)
                       else match e with
                            | Exhausted => (ctx, Ok (status 503))
                            | _ =>
                                let '(ctx, _) := learn_from_failure ctx (t_server_name target) e wall' in
                                (ctx, Ok (bad_gateway e))
                            end
                   end
        end
  end.

(** ** Failed handshakes with the client *)

(** A failed handshake's [io::Error]: its kind and what it wraps. *)
Definition rejection_kind (inner : option DynError) : option RejectionKind :=
  match inner with
  | Some (Rustls (AlertReceived UnknownCAAlert)) => Some UnknownCa
  | Some (Rustls (AlertReceived BadCertificateAlert)) => Some BadCertificate
  | Some (Rustls (AlertReceived CertificateUnknownAlert)) => Some CertificateUnknown
  | Some (Rustls (AlertReceived DecryptErrorAlert)) => Some DecryptError
  | _ => None
  end.
Definition hung_up (kind : ErrorKind) (inner : option DynError) : bool :=
  match kind with
  | UnexpectedEof | ConnectionReset | ConnectionAborted => true
  | _ => match inner with
         | Some (Rustls (AlertReceived (CloseNotify | UserCanceled))) => true
         | _ => false
         end
  end.
Definition report_silent_refusal (ctx : ProxyContext) (name : bytes) (now : Z) : ProxyContext :=
  let ctx := ctx_inc tls_silent_refusals ctx in
  ctx_learn (record_silent_refusal (learning (ctx_policy ctx)) name now).1 ctx.
Definition report_handshake_failure (ctx : ProxyContext) (name : bytes) (kind : ErrorKind) (inner : option DynError)
    (client : FlightWatch) (now : Z) : ProxyContext :=
  match rejection_kind inner with
  | None => if hung_up kind inner && certificate_delivered client then report_silent_refusal ctx name now else ctx
  | Some rejection =>
      let ctx := ctx_inc tls_client_rejections ctx in
      ctx_learn (record_client_rejection (learning (ctx_policy ctx)) name rejection now).1 ctx
  end.
End request.
