(* ===== verification/RequestProps.v ===== *)
(** * What a client gets, and what the proxy learns from a request

    Theorems about [Request]: the answer to every kind of upstream failure, when the client
    connection closes, that blocked requests are never sent, that an allowlisted site is never
    filtered, and what a failed handshake may teach. *)
From S2P Require Import Prelude RustStr Collections Net HostPattern Policy PolicyFacts DomainRules DomainSet Common Io Flight FlightFacts Http Engine Filtering UpstreamError Request.

Section props.
Context `{HttpCrate, AdblockCrate}.

Lemma learn_from_failure_not ctx name e now : needs_passthrough e = false → learn_from_failure ctx name e now = (ctx, false).
Proof. unfold learn_from_failure. by intros ->. Qed.
Lemma learn_from_failure_yes ctx name e now : needs_passthrough e = true →
  learn_from_failure ctx name e now =
  (ctx_learn (learn_upstream_untrusted (learning (ctx_policy ctx)) name now).1 ctx,
   is_passthrough (classify (ctx_policy (ctx_learn (learn_upstream_untrusted (learning (ctx_policy ctx)) name now).1 ctx)) name now)).
Proof. unfold learn_from_failure. intros ->. by destruct (learn_upstream_untrusted _ _ _). Qed.

(** What [failure] does after the failures without a response and the lack of permits. *)
Lemma failure_cases ctx origin e dest now : gets_no_response e = false → e ≠ Exhausted →
  failure ctx origin e dest now =
  let '(ctx, learned) := learn_from_failure ctx (o_name origin) e now in
  if learned then
    (ctx, Err (PassedThrough (if http11_required e then REASON_HTTP_1_1_REQUIRED else REASON_REFUSED_STREAM)))
  else if http11_required e || bool_decide (dest = Subresource) then (ctx, Err Closed)
  else (ctx, Ok (bad_gateway e, false)).
Proof. unfold failure. intros -> He. by destruct e. Qed.

Lemma bad_gateway_status e : resp_status (bad_gateway e) = 502.
Proof. unfold bad_gateway. destruct (certificate_problem e); [done|]. by destruct (_ && _). Qed.
Lemma bad_gateway_explains e :
  (resp_body (bad_gateway e) = EmptyBody ↔
     certificate_problem e = None ∧ (needs_passthrough e = false ∨ http11_required e = true)).
Proof.
  unfold bad_gateway. destruct (certificate_problem e) as [s|].
  - split; [done|intros [? _]; done].
  - destruct (needs_passthrough e), (http11_required e); cbn [andb negb]; split; try done; naive_solver.
Qed.

(** The answer of [failure], by kind of error. *)
Lemma failure_eq ctx origin e dest now :
  failure ctx origin e dest now =
  if needs_passthrough e then
    let ctx := ctx_learn (learn_upstream_untrusted (learning (ctx_policy ctx)) (o_name origin) now).1 ctx in
    (ctx, if is_passthrough (classify (ctx_policy ctx) (o_name origin) now)
          then Err (PassedThrough (if http11_required e then REASON_HTTP_1_1_REQUIRED else REASON_REFUSED_STREAM))
          else if http11_required e || bool_decide (dest = Subresource) then Err Closed else Ok (bad_gateway e, false))
  else
    (ctx, if gets_no_response e then Err Closed
          else match e with
               | Exhausted => Ok (status 503, false)
               | _ => if bool_decide (dest = Subresource) then Err Closed else Ok (bad_gateway e, false)
               end).
Proof.
  destruct (needs_passthrough e) eqn:Hn.
  - destruct (needs_passthrough_answers e Hn) as (Hg & He & _). rewrite failure_cases by done.
    rewrite learn_from_failure_yes by done. cbv zeta. by repeat case_match.
  - assert (http11_required e = false) as Hh.
    { destruct e; try done. unfold needs_passthrough in Hn. by destruct (http11_required _). }
    unfold failure. destruct (gets_no_response e); [done|].
    destruct e; try done; rewrite learn_from_failure_not, Hh by done; by case_bool_decide.
Qed.

(** The parts of the table below, once the answer is known. *)
Ltac answer_table :=
  split; [done|]; split; [split; [intros [reason Hr]; try discriminate Hr; auto|intros [Ha Hb]; first [congruence|by eauto]]|];
  split; [done|]; split; [intros Hsub; first [by left|right; by eauto|congruence]|];
  intros response untrusted Hr; first
    [ discriminate Hr
    | injection Hr as <- <-; rewrite ?bad_gateway_status, ?bad_gateway_explains; split; [done|]; naive_solver ].

(** C26: The answer to a request the upstream failed. The policy learns exactly when the failure
    is one the client would not have had, the same for every kind of request, and nothing else
    changes. A request is answered [PassedThrough] exactly when its host is passed through
    afterwards because of the failure; a browser's subresource never gets a response, except
    [503] when no upstream connection is free; an unreachable or silent upstream never gives
    one; every response is a [502] or that [503], and a [502] is empty exactly when the failure
    is neither a problem with the server's certificate nor one the policy learns from (so it is empty
    after other TLS alerts too). *)
Theorem failure_answers (ctx : ProxyContext) (origin : Origin) (e : UpstreamError) (dest : Destination) (now : Z) :
  let '(ctx', answer) := failure ctx origin e dest now in
  ctx' = (if needs_passthrough e
          then ctx_learn (learn_upstream_untrusted (learning (ctx_policy ctx)) (o_name origin) now).1 ctx else ctx) ∧
  ((∃ reason, answer = Err (PassedThrough reason)) ↔
     needs_passthrough e = true ∧ is_passthrough (classify (ctx_policy ctx') (o_name origin) now) = true) ∧
  (gets_no_response e = true → answer = Err Closed) ∧
  (dest = Subresource → e = Exhausted ∨ ∃ nr, answer = Err nr) ∧
  (∀ response untrusted, answer = Ok (response, untrusted) → untrusted = false ∧
     (resp_status response = 503 ∧ e = Exhausted ∨
      resp_status response = 502 ∧ e ≠ Exhausted ∧ http11_required e = false ∧
      (resp_body response = EmptyBody ↔ certificate_problem e = None ∧ needs_passthrough e = false))).
Proof.
  rewrite failure_eq. destruct (needs_passthrough e) eqn:Hn; cbv zeta.
  - destruct (needs_passthrough_answers e Hn) as (Hg & He & _). rewrite Hg.
    destruct (is_passthrough _) eqn:Hp; [answer_table|].
    destruct (http11_required e) eqn:Hh; cbn [orb]; [answer_table|]. case_bool_decide; answer_table.
  - destruct (gets_no_response e) eqn:Hg; [answer_table|].
    assert (http11_required e = false) as Hh.
    { destruct e; try done. unfold needs_passthrough in Hn. by destruct (http11_required _). }
    assert (e = Exhausted ∨ e ≠ Exhausted) as [->|He] by (destruct e; auto); [answer_table|].
    assert (∀ A (x y : A), match e with Exhausted => x | _ => y end = y) as Hy by (by destruct e).
    rewrite Hy. case_bool_decide; answer_table.
Qed.

(** An HTTP/2 request for another site than the connection's. *)
Definition misdirected (origin : Origin) (request : HttpRequest) : bool :=
  bool_decide (req_version request = HTTP_2)
  && match uri_authority (req_uri request) with
     | Some authority => negb (Origin_matches origin authority)
     | None => false
     end.
(** The filter's decision about a request of an intercepted connection. *)
Definition filtered (ctx : ProxyContext) (origin : Origin) (request : HttpRequest) (wall : Z) : ProxyContext * bool :=
  request_is_blocked ctx (request_url origin request) (uri_path (req_uri request)) (req_headers request)
    (if is_upgrade request then Some "websocket"%string else None) wall.

Lemma request_is_blocked_policy ctx url path headers forced wall :
  ctx_policy (request_is_blocked ctx url path headers forced wall).1 = ctx_policy ctx.
Proof. unfold request_is_blocked. by repeat case_match. Qed.

(** The upstream fails every attempt with [e], when the context is [ctx1]. *)
Definition failing (ctx1 : ProxyContext) (e : UpstreamError) : Upstream :=
  {| up_send _ _ _ := (ctx1, Err e); up_dial _ _ := (ctx1, Err e) |}.

Lemma request_forward_failing ctx ctx1 origin request e wall wall' :
  misdirected origin request = false → (filtered ctx origin request wall).2 = false →
  request_forward (failing ctx1 e) ctx origin request wall wall' =
  if is_upgrade request
  then let '(ctx', untrusted) := learn_from_failure ctx1 (o_name origin) e wall' in (ctx', Ok (status 502, untrusted))
  else failure ctx1 origin e (Destination_of (req_headers request)) wall'.
Proof.
  unfold misdirected, filtered, request_forward. intros -> Hf. destruct (request_is_blocked _ _ _ _ _ _) as [ctx2 b].
  simpl in Hf. subst b. unfold websocket_forward. destruct (is_upgrade request); cbn [failing up_dial up_send].
  - by destruct (learn_from_failure _ _ _ _).
  - by destruct (uri_parse _).
Qed.

Lemma failing_forward_learns ctx ctx1 origin request e wall wall' :
  misdirected origin request = false → (filtered ctx origin request wall).2 = false →
  let '(c, answer) := request_forward (failing ctx1 e) ctx origin request wall wall' in
  let learned := needs_passthrough e && is_passthrough (classify (ctx_policy c) (o_name origin) wall') in
  c = (if needs_passthrough e
       then ctx_learn (learn_upstream_untrusted (learning (ctx_policy ctx1)) (o_name origin) wall').1 ctx1 else ctx1) ∧
  match answer with
  | Err nr => closes_connection nr = learned
  | Ok (response, untrusted) => untrusted = learned ∧ (resp_status response =? 101) = false
  end.
Proof.
  intros Hm Hf. rewrite request_forward_failing by done. rewrite failure_eq.
  destruct (needs_passthrough e) eqn:Hn; [rewrite learn_from_failure_yes by done|rewrite learn_from_failure_not by done];
    cbv zeta; cbn [andb]; destruct (is_upgrade request).
  - done.
  - split; [done|]. destruct (is_passthrough _); [done|]. destruct (http11_required e || _); [done|].
    by rewrite bad_gateway_status.
  - done.
  - split; [done|]. destruct (gets_no_response e); [done|].
    destruct e; repeat case_bool_decide; cbn [closes_connection]; by rewrite ?bad_gateway_status.
Qed.

(** When a site's upstream fails, its client connection is asked to close exactly when the
    site is passed through: it was when the request came, or the failure is one to learn from
    and the policy, as this failure and the tasks in between left it, passes the site through.
    Only the learning can change; and an HTTP/1.1 client that still gets a response is told in
    it. *)
Theorem failing_upstream_closes_learned_site (ctx ctx1 : ProxyContext) (origin : Origin) (request : HttpRequest)
    (e : UpstreamError) (wall wall' : Z) :
  misdirected origin request = false → (filtered ctx origin request wall).2 = false →
  let '(ctx', answer, close) := handle (failing ctx1 e) ctx origin request wall wall' in
  (close = true ↔ is_passthrough (classify (ctx_policy ctx) (o_name origin) wall) = true ∨
     needs_passthrough e = true ∧ is_passthrough (classify (ctx_policy ctx') (o_name origin) wall') = true) ∧
  ctx' = (if needs_passthrough e
          then ctx_learn (learn_upstream_untrusted (learning (ctx_policy ctx1)) (o_name origin) wall').1 ctx1 else ctx1) ∧
  (∀ response, answer = Ok response → close = true → version_rank (req_version request) < version_rank HTTP_2 →
     hm_get_all (resp_headers response) (lit "connection") = [lit "close"]).
Proof.
  intros Hm Hf. unfold handle. pose proof (failing_forward_learns ctx ctx1 origin request e wall wall' Hm Hf) as Hl.
  destruct (request_forward _ _ _ _ _ _) as [c answer]. cbv zeta in Hl. destruct Hl as [Hc Ha].
  set (before := is_passthrough (classify (ctx_policy ctx) _ _)).
  destruct answer as [[response untrusted]|nr].
  - destruct Ha as [-> ->]. rewrite andb_true_r. destruct (before || _) eqn:Hb;
      rewrite <- andb_true_iff, <- orb_true_iff, Hb; (split; [done|]; split; [done|]); [|done].
    intros r Hr _ Hv. rewrite (proj2 (Z.ltb_lt _ _) Hv) in Hr. injection Hr as <-. simpl. by rewrite hm_get_all_insert, decide_True.
  - rewrite Ha, <- andb_true_iff, <- orb_true_iff. by split_and!.
Qed.

(** ** Blocking *)

(** What the answer to a blocked request says, by who sent it. *)
Definition blocked_answer (headers : HeaderMap) (answer : result HttpResponse NoResponse) : Prop :=
  match Destination_of headers, answer with
  | App, Ok response => resp_status response = 403 ∧ resp_body response = EmptyBody ∧
      hm_get_all (resp_headers response) (lit "access-control-allow-origin") = [lit "*"]
  | Document, Ok response => resp_status response = 403 ∧ resp_body response = FullBody BLOCKED_PAGE
  | Subresource, Err nr => nr = Blocked REASON_INTERNAL_ERROR
  | _, _ => False
  end.
Lemma answer_blocked_ok headers : blocked_answer headers (answer_blocked headers).
Proof.
  unfold blocked_answer, answer_blocked. destruct (Destination_of headers); [|done|done].
  split; [done|]. split; [done|]. simpl. by rewrite hm_get_all_insert, decide_True.
Qed.

(** C27: A blocked request never reaches the network, and nothing is learned from it: on an
    intercepted connection and in absolute form, whatever the upstream would do, the answer and
    the context afterwards are those of the filter's decision: an empty [403] to an app, the
    page to a navigation, a stream error to anything else from a browser. (A request for another site
    than its HTTP/2 connection's is turned away with [421] before it is filtered.) *)
Theorem blocked_requests_never_sent (up : Upstream) (ctx : ProxyContext) (origin : Origin) (request : HttpRequest) (wall wall' : Z) :
  ((filtered ctx origin request wall).2 = true → misdirected origin request = false →
   ∃ answer, request_forward up ctx origin request wall wall' = ((filtered ctx origin request wall).1, answer) ∧
     blocked_answer (req_headers request) (match answer with Ok (r, _) => Ok r | Err e => Err e end) ∧
     ctx_policy (filtered ctx origin request wall).1 = ctx_policy ctx) ∧
  (∀ scheme uri_host port, uri_scheme (req_uri request) = Some scheme → scheme ∈ [lit "http"; lit "https"] →
   uri_authority (req_uri request) = Some (uri_host, port) →
   let host_check := is_domain_blocked ctx (bare_host uri_host) wall in
   let url_check := request_is_blocked host_check.1 (uri_to_string (req_uri request)) (uri_path (req_uri request))
                      (req_headers request) None wall in
   host_check.2 = true ∨ url_check.2 = true →
   ∃ answer, absolute_forward up ctx request wall wall' = (if host_check.2 then host_check.1 else url_check.1, answer) ∧
     blocked_answer (req_headers request) answer).
Proof.
  split.
  - intros Hf Hm. unfold request_forward, misdirected in *. rewrite Hm. unfold filtered in *.
    pose proof (request_is_blocked_policy ctx (request_url origin request) (uri_path (req_uri request))
      (req_headers request) (if is_upgrade request then Some "websocket"%string else None) wall) as Hp.
    destruct (request_is_blocked _ _ _ _ _ _) as [c b]. simpl in *. subst b. eexists. split; [done|]. split; [|done].
    pose proof (answer_blocked_ok (req_headers request)) as Ha. by destruct (answer_blocked _).
  - intros scheme uri_host port Hs Hin Ha host_check url_check Hb. unfold absolute_forward. rewrite Hs, Ha.
    assert (negb (bool_decide (scheme = lit "http")) && negb (bool_decide (scheme = lit "https")) = false) as ->.
    { rewrite !elem_of_cons, elem_of_nil in Hin. destruct Hin as [->|[->|[]]]; reflexivity. }
    fold host_check. destruct host_check as [c [|]] eqn:Hc; cbn [fst snd] in *.
    { eexists. split; [done|]. apply answer_blocked_ok. }
    destruct Hb as [[=]|Hb]. fold url_check. destruct url_check as [c' b]. simpl in Hb. subst b.
    eexists. split; [done|]. apply answer_blocked_ok.
Qed.

(** The filter sees the site a request is for. For a site with a plain name (a host name or
    an IPv6 address) and any port and path: an allowlisted site's requests are never blocked,
    whatever the lists say; every request counts once, a blocked one also in [http_blocked];
    and a block's entry in the log names the site, in lower case, and the URL. *)
Theorem filter_sees_the_site (ctx : ProxyContext) (origin : Origin) (request : HttpRequest) (wall : Z) :
  plain_name (o_name origin) → 0 <= o_port origin < 65536 →
  (∀ pq, uri_path_and_query (req_uri request) = Some pq → starts_path pq) →
  let '(ctx', blocked) := filtered ctx origin request wall in
  (is_allowlisted (ctx_policy ctx) (o_name origin) = true → blocked = false) ∧
  ctx_stats ctx' = (if blocked then Stats_inc http_blocked else id) (Stats_inc http_requests (ctx_stats ctx)) ∧
  (blocked = false → ctx_events ctx' = ctx_events ctx) ∧
  (blocked = true → ∃ source_host, ctx_events ctx' = (λ events, EventLog_record events
     {| ev_unix_secs := wall; ev_kind := EventRequest; ev_host := to_ascii_lowercase (o_name origin);
        ev_url := Some (request_url origin request); ev_source_host := source_host |}) <$> ctx_events ctx).
Proof.
  intros Hn Hp Hpq. unfold filtered, request_is_blocked.
  assert (url_host (request_url origin request) = Some (o_name origin)) as Hurl.
  { unfold request_url, Origin_authority. apply url_host_authority; [|done|done|].
    - destruct (is_upgrade request); apply (bool_decide_unpack _); vm_compute; exact I.
    - destruct (uri_path_and_query _) as [pq|]; [by apply Hpq|done]. }
  rewrite Hurl. cbn [ctx_filter ctx_inc]. destruct (ctx_filter ctx) as [engine|]; [|by repeat split].
  change (ctx_policy (ctx_inc http_requests ctx)) with (ctx_policy ctx). cbn [omap list_omap id existsb].
  destruct (is_allowlisted (ctx_policy ctx) (o_name origin)); [by repeat split|]. cbn [orb].
  destruct (existsb _ _); [by repeat split|].
  destruct (check _ _ _ _); repeat split; try done. intros _. eexists. done.
Qed.
End props.

(** ** What a failed handshake teaches *)

(** What the TLS stack does with the client's stream: writes of which some bytes were taken,
    and reads that answered or not. *)
Inductive StreamEvent := Wrote (taken : bytes) | Read_ (pending : bool).
Definition watch_event (w : FlightWatch) (ev : StreamEvent) : FlightWatch :=
  match ev with
  | Wrote taken => {| fw_records := written (fw_records w) taken; fw_waited := fw_waited w |}
  | Read_ pending => (FlightWatch_poll_read w (if pending then Pending else Ready tt)).1
  end.
Definition writes (evs : list StreamEvent) : list bytes := omap (λ ev, match ev with Wrote b => Some b | _ => None end) evs.

Lemma watch_records w evs : fw_records (foldl watch_event w evs) = foldl written (fw_records w) (writes evs).
Proof.
  revert w. induction evs as [|[b|p] evs IH]; intros w; [done|..]; cbn [foldl writes omap list_omap]; by rewrite IH.
Qed.
(** Waiting after the certificate: some read found nothing once it was sent. *)
Lemma watch_waited w evs : fw_waited (foldl watch_event w evs) = true → fw_waited w = true ∨
  ∃ before after, evs = before ++ Read_ true :: after ∧
    fr_progress (fw_records (foldl watch_event w before)) = CertificateSent.
Proof.
  revert w. induction evs as [|ev evs IH]; intros w Hw; [by left|]. cbn [foldl] in Hw.
  destruct (IH _ Hw) as [Hev|(before & after & -> & Hs)]; [|right; by exists (ev :: before), after].
  destruct ev as [b|[]]; cbn in Hev; [by left| |rewrite orb_false_r in Hev; by left].
  apply orb_true_iff in Hev as [Hev|Hev]; [by left|]. right. exists [], evs. split; [done|]. by apply bool_decide_eq_true in Hev.
Qed.

(** A failed handshake teaches only what it shows. Without an alert that rejects the
    certificate it changes the context only when the client hung up, and then the bytes the
    proxy had written before it last waited for the client carry its certificate to the last
    byte; the change is one count and the policy's rule for silent refusals, and with a
    rejecting alert one count and the rule for rejections. *)
Theorem handshake_failure_needs_evidence `{AdblockCrate} (ctx : ProxyContext) name kind inner evs now :
  Forall is_u8 (concat (writes evs)) →
  let ctx' := report_handshake_failure ctx name kind inner (foldl watch_event FlightWatch_new evs) now in
  match rejection_kind inner with
  | Some rejection =>
      ctx' = ctx_learn (record_client_rejection (learning (ctx_policy ctx)) name rejection now).1 (ctx_inc tls_client_rejections ctx)
  | None => ctx' = ctx ∨
      hung_up kind inner = true ∧
      ctx' = ctx_learn (record_silent_refusal (learning (ctx_policy ctx)) name now).1 (ctx_inc tls_silent_refusals ctx) ∧
      ∃ before after, evs = before ++ Read_ true :: after ∧ carries_certificate (concat (writes before))
  end.
Proof.
  intros Hu ctx'. unfold ctx', report_handshake_failure. destruct (rejection_kind inner) as [r|]; [done|].
  destruct (hung_up kind inner); [|by left]. cbn [andb].
  destruct (certificate_delivered _) eqn:Hd; [|by left]. right. split; [done|]. split; [done|].
  apply andb_true_iff in Hd as [_ Hw]. destruct (watch_waited _ _ Hw) as [[=]|(before & after & -> & Hs)].
  exists before, after. split; [done|]. rewrite watch_records in Hs.
  apply certificate_sent_carried; [|exact Hs]. unfold writes in Hu. rewrite omap_app, concat_app in Hu.
  by apply Forall_app in Hu as [Hu _].
Qed.

(** [OPTIONS *] has the path [*], which does not end the authority of the URL the filter gets,
    so it sees another host than the site's, and the site's allowlist entry does not apply. *)
Theorem asterisk_form_hides_host :
  url_host (lit "https://" ++ Origin_authority {| o_name := lit "site.example"; o_host := []; o_port := 443 |} ++ lit "*")
    = Some (lit "site.example*") ∧
  is_allowlisted (example_policy ["site.example"%string]) (lit "site.example") = true ∧
  is_allowlisted (example_policy ["site.example"%string]) (lit "site.example*") = false.
Proof. vm_compute. done. Qed.

(** ** Runs *)

Definition example_request (path : string) (headers : list (bytes * bytes)) : @HttpRequest example_http :=
  @Build_HttpRequest example_http HTTP_11 (lit "https", None, lit path) headers 0%nat.
Definition example_origin : Origin := {| o_name := lit "site.example"; o_host := lit "192.0.2.1"; o_port := 443 |}.

Lemma failing_upstream_closes_learned_site_witness :
  let ctx := example_context None [] in
  let after := (handle (H := example_http) (failing (H := example_http) ctx unknown_issuer) ctx example_origin
                  (example_request "/" []) 5 6).1.1 in
  pins (learning (ctx_policy after)) !! lit "site.example" = Some 6.
Proof.
  intros ctx after. subst after.
  pose proof (@failing_upstream_closes_learned_site example_http example_adblock ctx ctx example_origin (example_request "/" [])
    unknown_issuer 5 6 ltac:(vm_compute; reflexivity) ltac:(vm_compute; reflexivity)) as Hp.
  destruct (handle _ _ _ _ _ _) as [[ctx' answer] close]. destruct Hp as (_ & -> & _). vm_compute. reflexivity.
Defined.

Lemma blocked_requests_never_sent_witness :
  let ctx := @Build_ProxyContext example_adblock (example_policy []) (Some (@Build_FilterEngine example_adblock
    (lit "https://site.example/ad.js"))) None Stats_default (Some []) in
  let up := @Build_Upstream example_http example_adblock (λ ctx _ _, (ctx, Err Timeout)) (λ ctx _, (ctx, Err Timeout)) in
  ∃ answer c, request_forward (H := example_http) up ctx example_origin (example_request "/ad.js" []) 5 6 = (c, answer) ∧
    is_ok answer = true.
Proof.
  intros ctx up.
  destruct (proj1 (@blocked_requests_never_sent example_http example_adblock up ctx example_origin (example_request "/ad.js" []) 5 6)
    ltac:(vm_compute; reflexivity) ltac:(vm_compute; reflexivity)) as (answer & Heq & Ha & _).
  exists answer, (filtered (H := example_http) ctx example_origin (example_request "/ad.js" []) 5).1. split; [exact Heq|].
  destruct answer; [reflexivity|]. vm_compute in Ha. destruct Ha.
Defined.

Lemma filter_sees_the_site_witness :
  let ctx := @Build_ProxyContext example_adblock (example_policy ["site.example"%string]) (Some (@Build_FilterEngine example_adblock
    (lit "https://site.example/ad.js"))) None Stats_default (Some []) in
  (filtered (H := example_http) ctx example_origin (example_request "/ad.js" []) 5).2 = false.
Proof.
  intros ctx.
  assert (plain_name (o_name example_origin)) as Hn.
  { split; [discriminate|]. split; [apply (bool_decide_unpack _); vm_compute; exact I|reflexivity]. }
  pose proof (@filter_sees_the_site example_http example_adblock ctx example_origin (example_request "/ad.js" []) 5 Hn) as Hp.
  destruct (filtered _ _ _ _) as [ctx' b]. apply Hp; [split; reflexivity + discriminate| |vm_compute; reflexivity].
  intros pq [= <-]. reflexivity.
Defined.

Lemma handshake_failure_needs_evidence_witness :
  let evs := (Wrote <$> example_flight) ++ [Read_ true] in
  (let ctx' := report_handshake_failure (example_context None []) (lit "site.example") UnexpectedEof None
     (foldl watch_event FlightWatch_new evs) 5 in ctx_stats ctx' tls_silent_refusals = 1) ∧
  ∃ before after, evs = before ++ Read_ true :: after ∧ carries_certificate (concat (writes before)).
Proof.
  intros evs. split; [vm_compute; reflexivity|].
  destruct (@handshake_failure_needs_evidence example_adblock (example_context None []) (lit "site.example") UnexpectedEof None evs 5)
    as [Heq|(_ & _ & He)].
  - apply (bool_decide_unpack _). vm_compute. exact I.
  - exfalso. apply (f_equal (λ c, ctx_stats c tls_silent_refusals)) in Heq. vm_compute in Heq. discriminate Heq.
  - exact He.
Defined.
