(* ===== verification/Idle.v ===== *)
(** * Closing idle connections ([mitm/src/idle.rs], [proxy.rs])

    [Activity] is shared by the requests of a connection, the tasks that want its slot and
    [serve], which drives the connection. [Instant]s and [Duration]s are milliseconds in [Z].
    The [select!] of [serve] is one function per branch, each followed by the top of the loop;
    the transition system [idle_step] interleaves them with everything that touches the
    activity, with time passing only while no branch of the [select!] is ready. *)
From S2P Require Import Prelude RustStr Collections Io.

Definition RECLAIM_GRACE : Z := 50.
Definition CLOSE_GRACE : Z := 5000.

Record Activity := {
  in_flight : nat;
  last_used_at : Z;
  close_requested : bool;
  reclaim : bool;
  (** the permit that [notify_one] leaves in [close] *)
  notified : bool
}.
Definition Activity_new (now : Z) : Activity :=
  {| in_flight := 0; last_used_at := now; close_requested := false; reclaim := false; notified := false |}.
Definition request_close (self : Activity) : Activity :=
  {| in_flight := in_flight self; last_used_at := last_used_at self; close_requested := true; reclaim := reclaim self;
     notified := true |}.
Definition request_reclaim (self : Activity) : Activity :=
  request_close {| in_flight := in_flight self; last_used_at := last_used_at self; close_requested := close_requested self;
                   reclaim := true; notified := notified self |}.
Definition grace (self : Activity) : Z := if reclaim self then RECLAIM_GRACE else CLOSE_GRACE.
Definition busy (self : Activity) : bool := (0 <? in_flight self)%nat.
Definition Activity_start (self : Activity) : Activity :=
  {| in_flight := S (in_flight self); last_used_at := last_used_at self; close_requested := close_requested self;
     reclaim := reclaim self; notified := notified self |}.
(** [Drop for InFlight]. *)
Definition InFlight_drop (self : Activity) (now : Z) : Activity :=
  {| in_flight := pred (in_flight self); last_used_at := now; close_requested := close_requested self;
     reclaim := reclaim self; notified := notified self |}.
Definition idle_since (self : Activity) : option Z :=
  if (0 <? in_flight self)%nat || close_requested self then None else Some (last_used_at self).
Definition idle_at (self : Activity) (idle : Z) : option Z :=
  if (0 <? in_flight self)%nat then None else Some (last_used_at self + idle).

(** ** [serve] *)

Record Serve := {
  closing : bool;
  drop_at : Z;
  (** what the timer of the [select!] waits for *)
  wake : Z;
  (** how often [shutdown] was called *)
  shutdowns : nat;
  (** [Some (finished, closing)] once [serve] returned: whether the connection ended by itself *)
  ended : option (bool * bool)
}.
(** [shutdown(conn); closing = true; drop_at = now + grace] *)
Definition start_closing (self : Serve) (activity : Activity) (now : Z) : Serve :=
  {| closing := true; drop_at := now + grace activity; wake := wake self; shutdowns := S (shutdowns self);
     ended := ended self |}.
Definition set_drop_at (self : Serve) (at_ : Z) : Serve :=
  {| closing := closing self; drop_at := at_; wake := wake self; shutdowns := shutdowns self; ended := ended self |}.
Definition set_wake (self : Serve) (at_ : Z) : Serve :=
  {| closing := closing self; drop_at := drop_at self; wake := at_; shutdowns := shutdowns self; ended := ended self |}.
Definition set_ended (self : Serve) (r : bool * bool) : Serve :=
  {| closing := closing self; drop_at := drop_at self; wake := wake self; shutdowns := shutdowns self; ended := Some r |}.

(** The loop up to its [select!]. *)
Definition serve_top (idle : Z) (activity : Activity) (now : Z) (self : Serve) : Serve :=
  let self := if negb (closing self) && close_requested activity then start_closing self activity now else self in
  set_wake self (if closing self then drop_at self else default (now + idle) (idle_at activity idle)).
Definition serve_start (idle : Z) (activity : Activity) (now : Z) : Serve :=
  serve_top idle activity now
    {| closing := false; drop_at := now; wake := now; shutdowns := 0; ended := None |}.

(** The three branches. *)
Definition serve_conn (self : Serve) : Serve := set_ended self (true, closing self).
Definition serve_notified (idle : Z) (activity : Activity) (now : Z) (self : Serve) : Serve :=
  let self := if closing self then set_drop_at self (Z.min (drop_at self) (now + grace activity)) else self in
  serve_top idle activity now self.
Definition serve_timer (idle : Z) (activity : Activity) (now : Z) (self : Serve) : Serve :=
  if negb (closing self) then
    let self := if match idle_at activity idle with Some at_ => at_ <=? now | None => false end
                then start_closing self activity now else self in
    serve_top idle activity now self
  else if busy activity then serve_top idle activity now (set_drop_at self (now + grace activity))
  else set_ended self (false, true).

(** ** Everything that can happen *)

Record IdleState := { is_now : Z; is_activity : Activity; is_serve : Serve }.
Inductive idle_event :=
| RequestStarts | RequestEnds | CloseRequested | ReclaimRequested
| TimePasses (d : Z) | ConnectionEnds | Notified | TimerFires.

Definition take_permit (a : Activity) : Activity :=
  {| in_flight := in_flight a; last_used_at := last_used_at a; close_requested := close_requested a; reclaim := reclaim a;
     notified := false |}.

Definition enabled (st : IdleState) (ev : idle_event) : bool :=
  bool_decide (ended (is_serve st) = None) &&
  match ev with
  | RequestEnds => busy (is_activity st)
  | TimePasses d => (0 <? d) && negb (notified (is_activity st)) && (is_now st + d <=? Z.max (is_now st) (wake (is_serve st)))
  | Notified => notified (is_activity st)
  | TimerFires => wake (is_serve st) <=? is_now st
  | _ => true
  end.
Definition idle_apply (idle : Z) (st : IdleState) (ev : idle_event) : IdleState :=
  let '{| is_now := now; is_activity := a; is_serve := s |} := st in
  match ev with
  | RequestStarts => {| is_now := now; is_activity := Activity_start a; is_serve := s |}
  | RequestEnds => {| is_now := now; is_activity := InFlight_drop a now; is_serve := s |}
  | CloseRequested => {| is_now := now; is_activity := request_close a; is_serve := s |}
  | ReclaimRequested => {| is_now := now; is_activity := request_reclaim a; is_serve := s |}
  | TimePasses d => {| is_now := now + d; is_activity := a; is_serve := s |}
  | ConnectionEnds => {| is_now := now; is_activity := a; is_serve := serve_conn s |}
  | Notified => {| is_now := now; is_activity := take_permit a; is_serve := serve_notified idle (take_permit a) now s |}
  | TimerFires => {| is_now := now; is_activity := a; is_serve := serve_timer idle a now s |}
  end.
(** Events in order, oldest first. *)
Inductive idle_run (idle : Z) : IdleState → list idle_event → IdleState → Prop :=
| idle_done st : idle_run idle st [] st
| idle_next st ev evs st' : enabled st ev = true → idle_run idle (idle_apply idle st ev) evs st' → idle_run idle st (ev :: evs) st'.

Definition idle_start (idle now : Z) : IdleState :=
  {| is_now := now; is_activity := Activity_new now; is_serve := serve_start idle (Activity_new now) now |}.

(** ** Facts *)

Lemma grace_bounds a : RECLAIM_GRACE <= grace a <= CLOSE_GRACE.
Proof. unfold grace, RECLAIM_GRACE, CLOSE_GRACE. destruct (reclaim a); lia. Qed.

Lemma serve_top_ended idle a now s : ended (serve_top idle a now s) = ended s.
Proof. unfold serve_top. by destruct (negb (closing s) && close_requested a). Qed.

(** After the top of the loop: closing when asked to, and the timer set. *)
Lemma serve_top_spec idle a now s :
  let s' := serve_top idle a now s in
  closing s' = closing s || close_requested a ∧
  drop_at s' = (if negb (closing s) && close_requested a then now + grace a else drop_at s) ∧
  shutdowns s' = ((if negb (closing s) && close_requested a then 1 else 0) + shutdowns s)%nat ∧
  wake s' = (if closing s' then drop_at s' else default (now + idle) (idle_at a idle)).
Proof. unfold serve_top. by destruct (closing s) eqn:E, (close_requested a); simpl; rewrite ?E. Qed.

Lemma idle_run_snoc idle st evs st' ev : idle_run idle st evs st' → enabled st' ev = true →
  idle_run idle st (evs ++ [ev]) (idle_apply idle st' ev).
Proof.
  induction 1 as [st|st ev' evs st' He Hr IH]; intros Hev; cbn [app].
  - eapply idle_next; [done|]. constructor.
  - eapply idle_next; [done|]. by apply IH.
Qed.
Lemma idle_history_ind idle st0 (P : list idle_event → IdleState → Prop) :
  P [] st0 →
  (∀ evs st ev, idle_run idle st0 evs st → P evs st → enabled st ev = true → P (evs ++ [ev]) (idle_apply idle st ev)) →
  ∀ evs st, idle_run idle st0 evs st → P evs st.
Proof.
  intros H0 Hs. assert (∀ st1 evs st, idle_run idle st1 evs st → ∀ pre, idle_run idle st0 pre st1 → P pre st1 →
    P (pre ++ evs) st) as Hall.
  { induction 1 as [st|st ev evs st' He Hr IH]; intros pre Hpre Hp; [by rewrite app_nil_r|].
    rewrite (cons_middle ev pre evs), app_assoc. apply IH; [by apply idle_run_snoc|by apply Hs]. }
  intros evs st Hr. apply (Hall st0 evs st Hr []); [constructor|done].
Qed.

(** When a connection may be told to shut down: a close was asked for, or it has been idle. *)
Definition may_close (idle : Z) (st : IdleState) : Prop :=
  close_requested (is_activity st) = true ∨
  in_flight (is_activity st) = 0%nat ∧ last_used_at (is_activity st) + idle <= is_now st.

(** Why a connection is closing: at some point it could be, and its grace is counted from there. *)
Definition why_closing (idle : Z) (st0 : IdleState) (evs : list idle_event) (st : IdleState) (at_ : Z) : Prop :=
  ∃ evs1 evs2 st1, evs = evs1 ++ evs2 ∧ idle_run idle st0 evs1 st1 ∧
    may_close idle st1 ∧ is_now st1 + RECLAIM_GRACE <= at_ ∧ is_now st1 <= is_now st.
(** What a history leaves. *)
Record idle_inv (idle : Z) (st0 : IdleState) (evs : list idle_event) (st : IdleState) : Prop := {
  inv_shutdowns : shutdowns (is_serve st) = if closing (is_serve st) then 1%nat else 0%nat;
  inv_wake : closing (is_serve st) = true → wake (is_serve st) = drop_at (is_serve st);
  inv_why : closing (is_serve st) = true → why_closing idle st0 evs st (drop_at (is_serve st));
  inv_dropped c : ended (is_serve st) = Some (false, c) →
    c = true ∧ closing (is_serve st) = true ∧ in_flight (is_activity st) = 0%nat ∧ drop_at (is_serve st) <= is_now st
}.

Lemma why_now idle st0 evs st at_ : idle_run idle st0 evs st → may_close idle st → is_now st + RECLAIM_GRACE <= at_ →
  why_closing idle st0 evs st at_.
Proof. intros. exists evs, [], st. rewrite app_nil_r. done. Qed.
Lemma why_later idle st0 evs ev st st' at_ at' : why_closing idle st0 evs st at_ → is_now st <= is_now st' →
  Z.min at_ (is_now st + RECLAIM_GRACE) <= at' → why_closing idle st0 (evs ++ [ev]) st' at'.
Proof.
  intros (evs1 & evs2 & st1 & -> & Hr & Hm & Hd & Hn) Hle Ha. exists evs1, (evs2 ++ [ev]), st1.
  rewrite app_assoc. split_and!; [done|done|done|lia|lia].
Qed.

Lemma idle_inv_start idle now : idle_inv idle (idle_start idle now) [] (idle_start idle now).
Proof. split; simpl; try done. Qed.

(** The top of the loop keeps the invariant. *)
Lemma serve_top_inv idle st0 evs ev st a s : idle_run idle st0 evs st →
  ended s = None → shutdowns s = (if closing s then 1%nat else 0%nat) →
  close_requested a = close_requested (is_activity st) →
  (closing s = true → why_closing idle st0 (evs ++ [ev]) st (drop_at s)) →
  idle_inv idle st0 (evs ++ [ev])
    {| is_now := is_now st; is_activity := a; is_serve := serve_top idle a (is_now st) s |}.
Proof.
  intros Hr He Hs Hcl Hwhy. destruct (serve_top_spec idle a (is_now st) s) as (Hc & Hd & Hsh & Hw).
  split; cbn [is_serve is_activity is_now].
  - rewrite Hc, Hsh, Hs. by destruct (closing s), (close_requested a).
  - intros H. by rewrite Hw, H.
  - intros H. rewrite Hd. destruct (closing s) eqn:Ecl; cbn [negb andb].
    + apply Hwhy. done.
    + rewrite H in Hc. cbn [orb] in Hc. rewrite <- Hc. cbn [andb negb].
      change (why_closing idle st0 (evs ++ [ev]) st (is_now st + grace a)). pose proof (grace_bounds a).
      apply (why_later idle st0 evs ev st st (is_now st + RECLAIM_GRACE)); [|lia|lia].
      apply why_now; [done| |lia]. left. by rewrite <- Hcl.
  - intros c Hend. rewrite serve_top_ended in Hend. congruence.
Qed.

Lemma idle_inv_step idle st0 evs st ev : idle_run idle st0 evs st → idle_inv idle st0 evs st → enabled st ev = true →
  idle_inv idle st0 (evs ++ [ev]) (idle_apply idle st ev).
Proof.
  intros Hr [Hs Hw Hy Hd] He. unfold enabled in He. apply andb_true_iff in He as [Hn He].
  apply bool_decide_eq_true in Hn. destruct st as [now a s]. cbn [is_now is_activity is_serve] in *.
  assert (∀ now' a', now <= now' → closing s = true →
    why_closing idle st0 (evs ++ [ev]) {| is_now := now'; is_activity := a'; is_serve := s |} (drop_at s)) as Hy'.
  { intros now' a' Hle Hcl. eapply why_later; [exact (Hy Hcl)|done|cbn [is_now]; lia]. }
  assert (∀ now' a', now <= now' → idle_inv idle st0 (evs ++ [ev]) {| is_now := now'; is_activity := a'; is_serve := s |}) as Hsame.
  { intros now' a' Hle. split; cbn [is_serve is_activity is_now]; [done|done|by apply (Hy' now' a')|congruence]. }
  destruct ev; cbn [idle_apply]; try (apply Hsame; lia).
  - split; cbn [is_serve is_activity is_now serve_conn set_ended closing shutdowns wake drop_at ended]; [done|done|exact (Hy' now a (Z.le_refl _))|done].
  - unfold serve_notified. destruct (closing s) eqn:Ecl.
    + apply (serve_top_inv idle st0 evs Notified {| is_now := now; is_activity := a; is_serve := s |}); try done.
      { cbn. by rewrite Ecl. }
      intros _. cbn [drop_at set_drop_at]. pose proof (grace_bounds (take_permit a)).
      eapply why_later; [exact (Hy eq_refl)|cbn [is_now]; lia|cbn [is_now]; lia].
    + apply (serve_top_inv idle st0 evs Notified {| is_now := now; is_activity := a; is_serve := s |}); by rewrite ?Ecl.
  - unfold serve_timer. destruct (closing s) eqn:Ecl; cbn [negb].
    + destruct (busy a) eqn:Hb.
      * apply (serve_top_inv idle st0 evs TimerFires {| is_now := now; is_activity := a; is_serve := s |}); try done.
        { cbn. by rewrite Ecl. }
        intros _. cbn [drop_at set_drop_at]. pose proof (grace_bounds a).
        eapply why_later; [exact (Hy eq_refl)|cbn [is_now]; lia|cbn [is_now]; lia].
      * split; cbn [is_serve is_activity is_now set_ended closing shutdowns wake drop_at ended]; rewrite ?Ecl; [done|by apply Hw|exact (λ _, Hy' now a (Z.le_refl _) eq_refl)|].
        intros c [= <-]. split; [done|]. split; [done|]. unfold busy in Hb. apply Nat.ltb_ge in Hb.
        apply Z.leb_le in He. rewrite Hw in He by done. split; [lia|done].
    + destruct (match idle_at a idle with Some at_ => at_ <=? now | None => false end) eqn:Ei;
        apply (serve_top_inv idle st0 evs TimerFires {| is_now := now; is_activity := a; is_serve := s |}); try done; try (by rewrite ?Ecl).
      { cbn. by rewrite Hs. }
      intros _. cbn [drop_at start_closing]. pose proof (grace_bounds a).
      apply (why_later idle st0 evs TimerFires {| is_now := now; is_activity := a; is_serve := s |}
        {| is_now := now; is_activity := a; is_serve := s |} (now + RECLAIM_GRACE)); [|cbn [is_now]; lia|cbn [is_now]; lia].
      apply why_now; [done| |cbn [is_now]; lia]. right. cbn [is_activity is_now]. unfold idle_at in Ei.
      destruct (0 <? in_flight a)%nat eqn:Ef; [done|]. apply Nat.ltb_ge in Ef. apply Z.leb_le in Ei. lia.
Qed.

(** Whatever the requests, the tasks wanting the slot and the timer do, in any order: a
    connection is told to shut down at most once, and only after a close was asked for or it
    had nothing in flight for the whole idle timeout; and it is dropped without having closed
    only while nothing is in flight, and not before [RECLAIM_GRACE] after that moment. *)
Theorem busy_connections_survive (idle now0 : Z) (evs : list idle_event) (st : IdleState) :
  idle_run idle (idle_start idle now0) evs st →
  (shutdowns (is_serve st) <= 1)%nat ∧
  (shutdowns (is_serve st) = 1%nat → ∃ evs1 evs2 st1, evs = evs1 ++ evs2 ∧
     idle_run idle (idle_start idle now0) evs1 st1 ∧ may_close idle st1 ∧
     (∀ c, ended (is_serve st) = Some (false, c) → is_now st1 + RECLAIM_GRACE <= is_now st)) ∧
  (∀ c, ended (is_serve st) = Some (false, c) → c = true ∧ in_flight (is_activity st) = 0%nat ∧ shutdowns (is_serve st) = 1%nat).
Proof.
  intros Hr. assert (idle_inv idle (idle_start idle now0) evs st) as [Hs _ Hy Hd].
  { revert evs st Hr. apply idle_history_ind; [apply idle_inv_start|]. intros. by apply idle_inv_step. }
  destruct (closing (is_serve st)) eqn:Ecl; rewrite Hs.
  - split; [lia|]. split.
    + intros _. destruct (Hy eq_refl) as (evs1 & evs2 & st1 & -> & Hr1 & Hm & Hg & Hn).
      exists evs1, evs2, st1. split_and!; try done. intros c Hc. apply Hd in Hc. lia.
    + intros c Hc. apply Hd in Hc. naive_solver.
  - split; [lia|]. split; [done|]. intros c Hc. apply Hd in Hc. naive_solver.
Qed.

(** ** A reclaimed connection frees its slot in time *)

(** After a reclaim at [t0] with nothing in flight: the permit is still there and no time has
    passed, or the connection is closing with its deadline within the grace. *)
Definition reclaiming (t0 : Z) (st : IdleState) : Prop :=
  in_flight (is_activity st) = 0%nat ∧ reclaim (is_activity st) = true ∧ close_requested (is_activity st) = true ∧
  t0 <= is_now st <= t0 + RECLAIM_GRACE ∧
  (notified (is_activity st) = true ∧ is_now st = t0 ∨
   closing (is_serve st) = true ∧ wake (is_serve st) = drop_at (is_serve st) ∧ drop_at (is_serve st) <= t0 + RECLAIM_GRACE).

Lemma serve_top_reclaiming idle t0 now a s : in_flight a = 0%nat → reclaim a = true → close_requested a = true →
  t0 <= now <= t0 + RECLAIM_GRACE → (closing s = true → drop_at s <= t0 + RECLAIM_GRACE) → (closing s = false → now = t0) →
  reclaiming t0 {| is_now := now; is_activity := a; is_serve := serve_top idle a now s |}.
Proof.
  intros Hf Hre Hcl Hn Hd Ht. destruct (serve_top_spec idle a now s) as (Hc & Hdr & _ & Hw).
  rewrite Hcl, orb_true_r in Hc. split_and!; try done; try (simpl; lia). right. cbn [is_serve]. rewrite Hc in Hw.
  split; [done|]. split; [done|]. rewrite Hdr, Hcl, andb_true_r. unfold grace. rewrite Hre.
  destruct (closing s); cbn [negb]; [by apply Hd|]. rewrite Ht by done. lia.
Qed.

Lemma reclaiming_step idle t0 st ev : reclaiming t0 st → enabled st ev = true → ev ≠ RequestStarts →
  let st' := idle_apply idle st ev in ended (is_serve st') ≠ None ∨ reclaiming t0 st'.
Proof.
  intros (Hf & Hre & Hcl & Hn & Hc) He Hev st'. unfold enabled in He. apply andb_true_iff in He as [Hend He].
  destruct st as [now a s]. cbn [is_now is_activity is_serve] in *. unfold st'.
  assert (grace a = RECLAIM_GRACE) as Hg by (unfold grace; by rewrite Hre).
  destruct ev; cbn [idle_apply]; try done.
  - unfold busy in He. rewrite Hf in He. done.
  - right. split_and!; try done; try (simpl; lia). destruct Hc as [[Hno ->]|Hc]; [left|right]; done.
  - right. split_and!; try done; try (simpl; lia). destruct Hc as [[Hno ->]|Hc]; [left|right]; done.
  - right. rewrite !andb_true_iff, negb_true_iff in He. destruct He as [[Hd Hno] Hle].
    destruct Hc as [[Hno' _]|(? & Hw & ?)]; [congruence|]. rewrite Hw in Hle.
    split_and!; cbn [is_now is_activity is_serve]; try done; [lia|lia|]. by right.
  - by left.
  - right. unfold serve_notified. assert (grace (take_permit a) = RECLAIM_GRACE) as Hg' by (unfold grace; simpl; by rewrite Hre).
    destruct (closing s) eqn:Ecl.
    + apply serve_top_reclaiming; try done; [|cbn; congruence]. intros _. cbn [drop_at set_drop_at]. rewrite Hg'.
      destruct Hc as [[_ ->]|(_ & _ & Hd)]; lia.
    + apply serve_top_reclaiming; try done; [congruence|]. intros _. by destruct Hc as [[_ ->]|[? _]].
  - unfold serve_timer, busy. rewrite Hf. cbn [Nat.ltb Nat.leb]. destruct (closing s) eqn:Ecl; cbn [negb]; [by left|].
    destruct Hc as [[_ ->]|[? _]]; [|congruence]. right.
    destruct (match idle_at a idle with Some _ => _ | None => _ end);
      apply serve_top_reclaiming; try done; try lia; try congruence. cbn. rewrite Hg. lia.
Qed.

(** C30: A connection whose slot is wanted frees it in time. When it is asked to give it up with
    nothing in flight, and no request starts afterwards, then whatever else happens [serve] has
    returned, or no more than [RECLAIM_GRACE] has passed. Time is never held up: while the
    connection runs, the notification or the timer is ready, or time can pass; and a timer that
    fired has ended the connection or is set to a later time. *)
Theorem reclaimed_slot_is_freed (idle : Z) (st st' : IdleState) (evs : list idle_event) :
  0 < idle → in_flight (is_activity st) = 0%nat → ended (is_serve st) = None →
  idle_run idle (idle_apply idle st ReclaimRequested) evs st' → RequestStarts ∉ evs →
  (ended (is_serve st') ≠ None ∨ is_now st' <= is_now st + RECLAIM_GRACE) ∧
  (ended (is_serve st') = None →
     enabled st' Notified = true ∨ enabled st' TimerFires = true ∨ ∃ d, 0 < d ∧ enabled st' (TimePasses d) = true) ∧
  (enabled st' TimerFires = true → let after := idle_apply idle st' TimerFires in
     ended (is_serve after) ≠ None ∨ is_now after < wake (is_serve after)).
Proof.
  intros Hidle Hf Hend Hr Hno. split.
  - assert (ended (is_serve st') ≠ None ∨ reclaiming (is_now st) st') as [?|(_ & _ & _ & ? & _)]; [|by left|right; lia].
    assert (reclaiming (is_now st) (idle_apply idle st ReclaimRequested)) as H0.
    { destruct st as [now a s]. unfold reclaiming, RECLAIM_GRACE. cbn in *.
      split; [done|]. split; [done|]. split; [done|]. split; [lia|]. by left. }
    revert Hno. induction Hr as [st1|st1 ev evs st2 He Hr IH]; intros Hno; [by right|].
    apply not_elem_of_cons in Hno as [Hev Hno].
    destruct (reclaiming_step idle _ _ _ H0 He) as [Hd|Hrec]; [congruence| |by apply IH].
    left. inversion Hr as [|? ev' ? ? He']; simplify_eq; [done|]. unfold enabled in He'.
    apply andb_true_iff in He' as [He' _]. by apply bool_decide_eq_true in He'.
  - unfold enabled. split.
    + intros Hn. rewrite (bool_decide_true _ Hn). cbn [andb]. destruct (notified (is_activity st')); [by left|]. right.
      destruct (Z.leb_spec (wake (is_serve st')) (is_now st')) as [Hw|Hw]; [by left|right].
      exists (wake (is_serve st') - is_now st'). split; [lia|]. cbn. rewrite !andb_true_iff. lia.
    + intros He. apply andb_true_iff in He as [_ _]. destruct st' as [now a s]. cbn [idle_apply is_serve is_now].
      unfold serve_timer. destruct (closing s) eqn:Ecl; cbn [negb].
      * destruct (busy a); [|by left]. right. pose proof (grace_bounds a). unfold RECLAIM_GRACE in *.
        destruct (serve_top_spec idle a now (set_drop_at s (now + grace a))) as (Hc & Hd & _ & Hw).
        cbn [closing drop_at set_drop_at] in *. rewrite Ecl in Hc, Hd. cbn [negb andb orb] in Hc, Hd. rewrite Hw, Hc, Hd. lia.
      * right. pose proof (grace_bounds a). unfold RECLAIM_GRACE in *.
        destruct (match idle_at a idle with Some at_ => at_ <=? now | None => false end) eqn:Ei.
        -- destruct (serve_top_spec idle a now (start_closing s a now)) as (Hc & Hd & _ & Hw).
           cbn [closing drop_at start_closing negb andb orb] in *. rewrite Hw, Hc, Hd. lia.
        -- destruct (serve_top_spec idle a now s) as (Hc & Hd & _ & Hw). rewrite Hw, Hc, Hd, Ecl. cbn [negb andb orb].
           destruct (close_requested a); [lia|]. unfold idle_at in *. destruct (0 <? in_flight a)%nat; cbn; lia.
Qed.

(** ** Runs *)

Definition example_events : list idle_event := [TimePasses 10; TimerFires; TimePasses 5000; TimerFires].
Lemma example_run : idle_run 10 (idle_start 10 0) example_events
  (foldl (idle_apply 10) (idle_start 10 0) example_events).
Proof. repeat (eapply idle_next; [reflexivity|]). constructor. Qed.

Lemma busy_connections_survive_witness : ∃ st, idle_run 10 (idle_start 10 0) example_events st ∧
  ended (is_serve st) = Some (false, true) ∧ in_flight (is_activity st) = 0%nat.
Proof.
  eexists. split; [exact example_run|]. split; [reflexivity|].
  exact (proj1 (proj2 (proj2 (proj2 (busy_connections_survive 10 0 example_events _ example_run)) true eq_refl))).
Defined.

Lemma reclaimed_slot_is_freed_witness :
  let st := idle_start 60000 0 in
  let st' := foldl (idle_apply 60000) (idle_apply 60000 st ReclaimRequested) [Notified; TimePasses 50] in
  ended (is_serve st') ≠ None ∨ is_now st' <= 0 + RECLAIM_GRACE.
Proof.
  intros st st'. refine (proj1 (reclaimed_slot_is_freed 60000 st st' [Notified; TimePasses 50] _ _ _ _ _)).
  - reflexivity.
  - reflexivity.
  - reflexivity.
  - repeat (eapply idle_next; [reflexivity|]). constructor.
  - rewrite !not_elem_of_cons. split; [discriminate|]. split; [discriminate|apply not_elem_of_nil].
Defined.
