(* ===== verification/Ca.v ===== *)
(** * The leaves of the certificate authority ([mitm/src/ca.rs])

    Issuing a certificate (rcgen, rustls, ring) is the class [Issuing]; reading back what was
    issued is its law. The root itself is in [RootCa]. *)
From S2P Require Import Prelude RustStr Collections Net HostPattern Policy DnsCache.

Definition LEAF_VALIDITY_DAYS : Z := 30.
Definition LEAF_CACHE_SIZE : nat := 128.
Definition LEAF_REISSUE_SECS : Z := 7 * 24 * 60 * 60.
Definition LEAF_CLOCK_TOLERANCE_SECS : Z := 60 * 60.
Definition DAY_SECS : Z := 24 * 60 * 60.

Inductive MitmError :=
| InvalidCaCertificate (message : bytes) | InvalidCaKey (message : bytes) | NotCa | KeyMismatch
| InvalidHost (host : bytes) | CertificateFailed (message : bytes) | TlsFailed (message : bytes).

(** The leaf for a name with its validity, in unix seconds; [attempt] is what the generated key
    depends on. [from_unix_timestamp] knows the seconds up to the end of year 9999. *)
Class Issuing := {
  CertifiedKey : Type;
  sign_leaf : bytes → Z → Z → nat → result CertifiedKey MitmError;
  leaf_name : CertifiedKey → bytes;
  leaf_not_before : CertifiedKey → Z;
  leaf_not_after : CertifiedKey → Z;
  sign_leaf_reads name not_before not_after attempt key :
    sign_leaf name not_before not_after attempt = Ok key →
    leaf_name key = name ∧ leaf_not_before key = not_before ∧ leaf_not_after key = not_after
}.
Definition MAX_TIMESTAMP : Z := 253402300799.

Definition reusable (issued_at now : Z) : bool :=
  (issued_at <=? sat_add64 now LEAF_CLOCK_TOLERANCE_SECS) && (sat_sub now issued_at <? LEAF_REISSUE_SECS).

Definition normalize_host (host : bytes) : bytes :=
  let host := strip_suffix_or (lit ".") host in
  let host := default host (h ← strip_prefix (lit "[") host; strip_suffix (lit "]") h) in
  to_ascii_lowercase host.

Section leaves.
Context `{Issuing, Lru}.

Record CachedLeaf := { cl_key : CertifiedKey; issued_at : Z }.

(** [issue]; [utc] is what [OffsetDateTime::now_utc()] says. *)
Definition issue (name : bytes) (now utc : Z) (attempt : nat) : result CertifiedKey MitmError :=
  let issued := if now <=? MAX_TIMESTAMP then now else utc in
  let not_before := issued - DAY_SECS in
  sign_leaf name not_before (not_before + LEAF_VALIDITY_DAYS * DAY_SECS) attempt.

Definition leaf_at (leaves : LruCache CachedLeaf) (host : bytes) (now utc : Z) (attempt : nat)
    : LruCache CachedLeaf * result CertifiedKey MitmError :=
  let name := normalize_host host in
  if bool_decide (name = []) then (leaves, Err (InvalidHost host))
  else
    let '(cached, leaves) := lru_get name leaves in
    match cached with
    | Some leaf =>
        if reusable (issued_at leaf) now then (leaves, Ok (cl_key leaf))
        else match issue name now utc attempt with
             | Ok key => (lru_put name {| cl_key := key; issued_at := now |} leaves, Ok key)
             | Err e => (leaves, Err e)
             end
    | None =>
        match issue name now utc attempt with
        | Ok key => (lru_put name {| cl_key := key; issued_at := now |} leaves, Ok key)
        | Err e => (leaves, Err e)
        end
    end.

(** The cache after a history of calls, oldest first. *)
Record leaf_call := { lc_host : bytes; lc_now : Z; lc_utc : Z }.
Fixpoint leaf_calls (leaves : LruCache CachedLeaf) (n : nat) (calls : list leaf_call) : LruCache CachedLeaf :=
  match calls with
  | [] => leaves
  | c :: calls' => leaf_calls (leaf_at leaves (lc_host c) (lc_now c) (lc_utc c) n).1 (S n) calls'
  end.

(** ** Facts *)

(** Clock readings that leave room for a leaf's validity. *)
Definition sane_clock (now : Z) : Prop := 0 <= now <= MAX_TIMESTAMP.

Definition leaf_ok (name : bytes) (leaf : CachedLeaf) : Prop :=
  leaf_name (cl_key leaf) = name ∧ leaf_not_before (cl_key leaf) = issued_at leaf - DAY_SECS ∧
  leaf_not_after (cl_key leaf) = issued_at leaf - DAY_SECS + LEAF_VALIDITY_DAYS * DAY_SECS.
Definition leaves_ok (leaves : LruCache CachedLeaf) : Prop :=
  (∀ name leaf, lru_peek name leaves = Some leaf → leaf_ok name leaf) ∧
  lru_cap leaves = LEAF_CACHE_SIZE ∧ (lru_len leaves ≤ LEAF_CACHE_SIZE)%nat.

Lemma leaves_ok_new : leaves_ok (lru_new LEAF_CACHE_SIZE).
Proof. split_and!; [intros n l; by rewrite lru_peek_new|apply lru_cap_new|rewrite lru_len_new; lia]. Qed.

Lemma issue_ok name now utc attempt key : sane_clock now → issue name now utc attempt = Ok key →
  leaf_ok name {| cl_key := key; issued_at := now |}.
Proof.
  intros Hn. unfold issue. rewrite (proj2 (Z.leb_le _ _)) by (unfold sane_clock in Hn; lia).
  intros (? & ? & ?)%sign_leaf_reads. done.
Qed.

Lemma leaves_ok_get name leaves : leaves_ok leaves → leaves_ok (lru_get name leaves).2.
Proof.
  intros (Hl & Hc & Hs). destruct (lru_get_size name leaves) as [Hs' Hc']. split_and!; [|by rewrite Hc'|by rewrite Hs'].
  intros n l. rewrite lru_get_other. apply Hl.
Qed.
Lemma leaves_ok_put name leaf leaves : leaves_ok leaves → leaf_ok name leaf → leaves_ok (lru_put name leaf leaves).
Proof.
  intros (Hl & Hc & Hs) Hok. destruct (lru_put_size name leaf leaves) as [Hs' Hc']; [lia|].
  split_and!; [|by rewrite Hc'|rewrite Hc in Hs'; lia]. intros n l Hp. destruct (decide (n = name)) as [->|Hn].
  - rewrite lru_put_same in Hp by (rewrite Hc; unfold LEAF_CACHE_SIZE; lia). by injection Hp as <-.
  - eapply Hl, lru_put_other; done.
Qed.

(** What a call gives, and that it keeps the cache right. *)
Lemma leaf_at_ok leaves host now utc attempt : leaves_ok leaves → sane_clock now →
  leaves_ok (leaf_at leaves host now utc attempt).1 ∧
  ∀ key, (leaf_at leaves host now utc attempt).2 = Ok key →
    ∃ at_, leaf_ok (normalize_host host) {| cl_key := key; issued_at := at_ |} ∧
      (reusable at_ now = true ∨ at_ = now).
Proof.
  intros Hok Hn. unfold leaf_at. case_bool_decide; [done|].
  pose proof (lru_get_peek (normalize_host host) leaves) as Hg.
  pose proof (leaves_ok_get (normalize_host host) leaves Hok) as Hok'.
  destruct (lru_get (normalize_host host) leaves) as [cached leaves']. cbn [fst snd] in *. subst cached.
  assert (∀ r : result CertifiedKey MitmError, r = issue (normalize_host host) now utc attempt →
    let res := match r with
               | Ok key => (lru_put (normalize_host host) {| cl_key := key; issued_at := now |} leaves', Ok key)
               | Err e => (leaves', Err e)
               end in
    leaves_ok res.1 ∧ ∀ key, res.2 = Ok key → ∃ at_, leaf_ok (normalize_host host) {| cl_key := key; issued_at := at_ |} ∧
      (reusable at_ now = true ∨ at_ = now)) as Hissue.
  { intros [key|e] Hr; simpl; [|done]. symmetry in Hr. apply issue_ok in Hr; [|done].
    split; [by apply leaves_ok_put|]. intros k [= <-]. eauto. }
  destruct (lru_peek (normalize_host host) leaves) as [leaf|] eqn:Hp; [|by apply Hissue].
  destruct (reusable (issued_at leaf) now) eqn:Hre; [|by apply Hissue].
  split; [done|]. intros key [= <-]. destruct Hok as (Hl & _). apply Hl in Hp.
  exists (issued_at leaf). split; [by destruct leaf|by left].
Qed.

(** C36: However the clock moves, the proxy serves a leaf only for the host's own name and only
    while it is valid, with more than three weeks left: after any history of calls with sane
    clock readings the leaf for a host carries the host's normalized name, its validity has
    begun and ends at least 22 days after now; and the cache never exceeds its size. *)
Theorem served_leaf_is_valid (calls : list leaf_call) (host : bytes) (now utc : Z) (attempt : nat) :
  Forall (λ c, sane_clock (lc_now c)) calls → sane_clock now →
  let leaves := leaf_calls (lru_new LEAF_CACHE_SIZE) 0 calls in
  (lru_len leaves ≤ LEAF_CACHE_SIZE)%nat ∧
  ∀ key, (leaf_at leaves host now utc attempt).2 = Ok key →
    leaf_name key = normalize_host host ∧ leaf_not_before key <= now ∧ now + 22 * DAY_SECS <= leaf_not_after key.
Proof.
  intros Hcalls Hn leaves.
  assert (leaves_ok leaves) as Hok.
  { unfold leaves. generalize leaves_ok_new. generalize (lru_new (V := CachedLeaf) LEAF_CACHE_SIZE), 0%nat. clear leaves.
    induction Hcalls as [|c calls Hc _ IH]; intros leaves n Hok; [done|]. cbn [leaf_calls].
    apply IH. by apply leaf_at_ok. }
  split; [by destruct Hok as (_ & _ & ?)|]. intros key Hk.
  destruct (leaf_at_ok leaves host now utc attempt Hok Hn) as [_ Hl].
  destruct (Hl key Hk) as (at_ & (? & Hb & Ha) & Hre). cbn [cl_key issued_at] in *. split; [done|]. rewrite Hb, Ha.
  unfold reusable, sat_add64, sat_sub, sane_clock, MAX_TIMESTAMP, LEAF_REISSUE_SECS, LEAF_CLOCK_TOLERANCE_SECS,
    LEAF_VALIDITY_DAYS, DAY_SECS, U64_MAX in *. lia.
Qed.
End leaves.

(** The name of the leaf is the key the policy looks a host up by. *)
Lemma normalize_host_key host : normalize_host host = lookup_key host.
Proof. done. Qed.

(** ** Runs *)

Definition example_issuing : Issuing.
Proof.
  refine {| CertifiedKey := bytes * (Z * Z) * nat; sign_leaf name nb na attempt := Ok (name, (nb, na), attempt);
            leaf_name key := key.1.1; leaf_not_before key := key.1.2.1; leaf_not_after key := key.1.2.2 |}.
  intros name nb na attempt key [= <-]. done.
Defined.

Lemma served_leaf_is_valid_witness :
  let calls := [{| lc_host := lit "Site.example."; lc_now := 1790000000; lc_utc := 0 |};
                {| lc_host := lit "[2001:db8::1]"; lc_now := 1790000100; lc_utc := 0 |}] in
  let leaves := @leaf_calls example_issuing list_lru (lru_new LEAF_CACHE_SIZE) 0 calls in
  ∃ key, (@leaf_at example_issuing list_lru leaves (lit "site.EXAMPLE") (1790000000 - 1800) 0 7).2 = Ok key ∧
    @leaf_name example_issuing key = lit "site.example" ∧ @leaf_not_before example_issuing key <= 1790000000 - 1800.
Proof.
  intros calls leaves.
  destruct (@served_leaf_is_valid example_issuing list_lru calls (lit "site.EXAMPLE") (1790000000 - 1800) 0 7) as [_ Hl].
  - repeat constructor; vm_compute; discriminate.
  - split; vm_compute; discriminate.
  - destruct (leaf_at leaves (lit "site.EXAMPLE") (1790000000 - 1800) 0 7).2 as [key|e] eqn:Hk; [|vm_compute in Hk; discriminate Hk].
    exists key. destruct (Hl key Hk) as (Hn & Hb & _). split; [reflexivity|]. split; [exact Hn|exact Hb].
Defined.
