(* ===== verification/Profile.v ===== *)
(** * The configuration profile ([mitm/src/mobileconfig.rs])

    [base64], [xml_escape] and [uuid_from] with decoders to state what they keep, and the
    profile itself. SHA-256 is an argument. *)
From S2P Require Import Prelude RustStr Collections Net Wire.

Definition ALPHABET : bytes := lit "ABCDEFGHIJKLMNOPQRSTUVWXYZabcdefghijklmnopqrstuvwxyz0123456789+/".

(** One chunk of one to three bytes. *)
Definition base64_chunk (chunk : bytes) : bytes :=
  let n := length chunk in
  let b i := default 0 (chunk !! i) in
  let v := Z.lor (Z.lor (Z.shiftl (b 0%nat) 16) (Z.shiftl (b 1%nat) 8)) (b 2%nat) in
  (λ i, if (i <=? n)%nat
        then default 0 (ALPHABET !! Z.to_nat (Z.land (Z.shiftr v (18 - 6 * Z.of_nat i)) 0x3f))
        else 61) <$> seq 0 4.
(** [for chunk in data.chunks(3)]. *)
Fixpoint base64 (data : bytes) : bytes :=
  match data with
  | a :: b :: c :: data' => base64_chunk [a; b; c] ++ base64 data'
  | [] => []
  | chunk => base64_chunk chunk
  end.

Definition xml_escape1 (c : Z) : bytes :=
  if c =? 38 then lit "&amp;" else if c =? 60 then lit "&lt;" else if c =? 62 then lit "&gt;"
  else if c =? 34 then lit "&quot;" else if c =? 39 then lit "&apos;" else [c].
Definition xml_escape (s : bytes) : bytes := concat (xml_escape1 <$> s).

(** [{byte:02X}]. *)
Definition hex_digit (d : Z) : Z := if d <? 10 then 48 + d else 55 + d.
Definition hex2 (b : Z) : bytes := [hex_digit (b / 16); hex_digit (b mod 16)].

Section profile.
Variable sha256 : bytes → bytes.

Definition uuid_bytes (label data : bytes) : bytes :=
  let b := take 16 (sha256 (label ++ data)) in
  let b := <[6%nat := Z.lor (Z.land (default 0 (b !! 6%nat)) 0x0f) 0x80]> b in
  <[8%nat := Z.lor (Z.land (default 0 (b !! 8%nat)) 0x3f) 0x80]> b.
Definition uuid_from (label data : bytes) : bytes :=
  concat (imap (λ i byte, (if bool_decide (i ∈ [4; 6; 8; 10]%nat) then lit "-" else []) ++ hex2 byte) (uuid_bytes label data)).

(** A template line: a grave accent stands for a quotation mark. *)
Definition q (s : string) : bytes := (λ b, if b =? 96 then 34 else b) <$> lit s.
Definition profile_head : bytes := concat ((λ l, q l ++ [NL]) <$> [
  "<?xml version=`1.0` encoding=`UTF-8`?>";
  "<!DOCTYPE plist PUBLIC `-//Apple//DTD PLIST 1.0//EN` `http://www.apple.com/DTDs/PropertyList-1.0.dtd`>";
  "<plist version=`1.0`>";
  "<dict>";
  "  <key>PayloadContent</key>";
  "  <array>";
  "    <dict>";
  "      <key>PayloadCertificateFileName</key>";
  "      <string>tollgate-ca.cer</string>";
  "      <key>PayloadContent</key>"]%string).
Definition profile_tail (name id payload_uuid profile_uuid : bytes) : bytes :=
  concat ((λ l, l ++ [NL]) <$> [
  q "      <key>PayloadDescription</key>";
  q "      <string>Root certificate used by Tollgate to filter HTTPS requests on this device.</string>";
  q "      <key>PayloadDisplayName</key>";
  q "      <string>" ++ name ++ q "</string>";
  q "      <key>PayloadIdentifier</key>";
  q "      <string>" ++ id ++ q ".certificate</string>";
  q "      <key>PayloadType</key>";
  q "      <string>com.apple.security.root</string>";
  q "      <key>PayloadUUID</key>";
  q "      <string>" ++ payload_uuid ++ q "</string>";
  q "      <key>PayloadVersion</key>";
  q "      <integer>1</integer>";
  q "    </dict>";
  q "  </array>";
  q "  <key>PayloadDisplayName</key>";
  q "  <string>" ++ name ++ q "</string>";
  q "  <key>PayloadIdentifier</key>";
  q "  <string>" ++ id ++ q "</string>";
  q "  <key>PayloadRemovalDisallowed</key>";
  q "  <false/>";
  q "  <key>PayloadType</key>";
  q "  <string>Configuration</string>";
  q "  <key>PayloadUUID</key>";
  q "  <string>" ++ profile_uuid ++ q "</string>";
  q "  <key>PayloadVersion</key>";
  q "  <integer>1</integer>";
  q "</dict>";
  q "</plist>"]).
Definition mobileconfig (der display_name identifier : bytes) : bytes :=
  let profile_uuid := uuid_from (lit "tollgate profile") der in
  let payload_uuid := uuid_from (lit "tollgate certificate") der in
  let name := xml_escape display_name in
  let id := xml_escape identifier in
  let data := base64 der in
  profile_head ++ q "      <data>" ++ data ++ q "</data>" ++ [NL] ++ profile_tail name id payload_uuid profile_uuid.
End profile.

(** ** Decoders, to state what is kept *)

(** RFC 4648: the position of a character in the alphabet. *)
Definition digit64 (c : Z) : option Z :=
  if is_ascii_uppercase c then Some (c - 65)
  else if is_ascii_lowercase c then Some (c - 71)
  else if is_ascii_digit c then Some (c + 4)
  else if c =? 43 then Some 62 else if c =? 47 then Some 63 else None.
Fixpoint decode64 (s : bytes) : option bytes :=
  match s with
  | [] => Some []
  | c0 :: c1 :: c2 :: c3 :: rest =>
      d0 ← digit64 c0; d1 ← digit64 c1;
      if (c2 =? 61) && (c3 =? 61) then (if bool_decide (rest = []) then Some [d0 * 4 + d1 / 16] else None)
      else
        d2 ← digit64 c2;
        if c3 =? 61 then (if bool_decide (rest = []) then Some [d0 * 4 + d1 / 16; d1 mod 16 * 16 + d2 / 4] else None)
        else
          d3 ← digit64 c3; more ← decode64 rest;
          Some ([d0 * 4 + d1 / 16; d1 mod 16 * 16 + d2 / 4; d2 mod 4 * 64 + d3] ++ more)
  | _ => None
  end.

(** XML's predefined entities. *)
Definition ENTITIES : list (bytes * Z) :=
  [(lit "&amp;", 38); (lit "&lt;", 60); (lit "&gt;", 62); (lit "&quot;", 34); (lit "&apos;", 39)].
Fixpoint find_entity (l : list (bytes * Z)) (s : bytes) : option (Z * bytes) :=
  match l with
  | [] => None
  | (e, v) :: l' => match strip_prefix e s with Some rest => Some (v, rest) | None => find_entity l' s end
  end.
Fixpoint unescape (fuel : nat) (s : bytes) : bytes :=
  match fuel, s with
  | O, _ | _, [] => []
  | S fuel', c :: s' =>
      match find_entity ENTITIES s with
      | Some (v, rest) => v :: unescape fuel' rest
      | None => c :: unescape fuel' s'
      end
  end.

(** ** Facts *)

Lemma alphabet_digit d : 0 <= d < 64 → ∃ c, ALPHABET !! Z.to_nat d = Some c ∧ digit64 c = Some d ∧ c ≠ 61 ∧ c ≠ 60.
Proof.
  intros Hd. assert (forallb (λ d, match ALPHABET !! d with
    | Some c => bool_decide (digit64 c = Some (Z.of_nat d)) && negb (c =? 61) && negb (c =? 60) | None => false end)
    (seq 0 64) = true) as Hall by (vm_compute; reflexivity).
  rewrite forallb_forall in Hall. specialize (Hall (Z.to_nat d)). rewrite in_seq in Hall.
  destruct (ALPHABET !! Z.to_nat d) as [c|]; [|discriminate Hall; lia]. exists c. rewrite Z2Nat.id in Hall by lia.
  rewrite !andb_true_iff, bool_decide_eq_true, !negb_true_iff, !Z.eqb_neq in Hall. split; [done|].
  destruct Hall as [[? ?] ?]; [lia|]. done.
Qed.

(** The 24 bits of a chunk and its four digits. *)
Lemma chunk_bits a b c : is_u8 a → is_u8 b → is_u8 c →
  Z.lor (Z.lor (Z.shiftl a 16) (Z.shiftl b 8)) c = a * 2 ^ 16 + b * 2 ^ 8 + c.
Proof.
  unfold is_u8. intros Ha Hb Hc. rewrite (lor_shiftl_add a (Z.shiftl b 8) 16); [|lia|rewrite Z.shiftl_mul_pow2 by lia; lia].
  replace (a * 2 ^ 16 + Z.shiftl b 8) with (Z.shiftl (a * 2 ^ 8 + b) 8) by (rewrite !Z.shiftl_mul_pow2 by lia; lia).
  rewrite lor_shiftl_add by lia. lia.
Qed.
Definition sextet (v i : Z) : Z := v / 2 ^ (18 - 6 * i) mod 64.
Lemma sextet_bits v i : 0 <= i <= 3 → Z.land (Z.shiftr v (18 - 6 * i)) 0x3f = sextet v i.
Proof. intros Hi. change 0x3f with (Z.ones 6). rewrite Z.land_ones, Z.shiftr_div_pow2 by lia. done. Qed.

Lemma base64_chunk_eq chunk a b c : chunk !! 0%nat = Some a → default 0 (chunk !! 1%nat) = b → default 0 (chunk !! 2%nat) = c →
  is_u8 a → is_u8 b → is_u8 c →
  base64_chunk chunk =
  (λ i, if (i <=? length chunk)%nat
        then default 0 (ALPHABET !! Z.to_nat (sextet (a * 2 ^ 16 + b * 2 ^ 8 + c) (Z.of_nat i))) else 61) <$> seq 0 4.
Proof.
  intros Ha Hb Hc ? ? ?. unfold base64_chunk. rewrite Ha, Hb, Hc. cbn [from_option id]. rewrite chunk_bits by done.
  apply list_fmap_ext. intros i n Hn. apply lookup_seq in Hn as [-> Hi]. rewrite sextet_bits by lia. done.
Qed.

(** A chunk decodes to itself, and only its own characters are padding. *)
Lemma decode64_chunk3 a b c rest : is_u8 a → is_u8 b → is_u8 c →
  decode64 (base64_chunk [a; b; c] ++ rest) = (λ more, a :: b :: c :: more) <$> decode64 rest.
Proof.
  intros Ha Hb Hc. rewrite (base64_chunk_eq [a; b; c] a b c) by done. cbn [length seq fmap list_fmap Nat.leb app].
  unfold is_u8 in *. set (v := a * 2 ^ 16 + b * 2 ^ 8 + c).
  assert (∀ i, 0 <= sextet v i < 64) as Hs by (intros; apply Z.mod_pos_bound; lia).
  destruct (alphabet_digit _ (Hs (Z.of_nat 0))) as (c0 & -> & E0 & _), (alphabet_digit _ (Hs (Z.of_nat 1))) as (c1 & -> & E1 & _),
    (alphabet_digit _ (Hs (Z.of_nat 2))) as (c2 & -> & E2 & N2 & _), (alphabet_digit _ (Hs (Z.of_nat 3))) as (c3 & -> & E3 & N3 & _).
  cbn [from_option id decode64]. rewrite E0, E1, E2, E3. cbn [mbind option_bind].
  rewrite (proj2 (Z.eqb_neq c2 61)), (proj2 (Z.eqb_neq c3 61)) by done. cbn [andb].
  destruct (decode64 rest) as [more|]; [|done]. cbn [mbind option_bind fmap option_fmap option_map app]. unfold sextet, v.
  cbn [Z.of_nat Z.mul Z.sub Z.pow]. do 4 f_equal; [|f_equal|do 2 f_equal]; Z.to_euclidean_division_equations; lia.
Qed.

Lemma decode64_chunk2 a b : is_u8 a → is_u8 b → decode64 (base64_chunk [a; b]) = Some [a; b].
Proof.
  intros Ha Hb. rewrite (base64_chunk_eq [a; b] a b 0) by done. cbn [length seq fmap list_fmap Nat.leb app].
  unfold is_u8 in *. set (v := a * 2 ^ 16 + b * 2 ^ 8 + 0).
  assert (∀ i, 0 <= sextet v i < 64) as Hs by (intros; apply Z.mod_pos_bound; lia).
  destruct (alphabet_digit _ (Hs (Z.of_nat 0))) as (c0 & -> & E0 & _), (alphabet_digit _ (Hs (Z.of_nat 1))) as (c1 & -> & E1 & _),
    (alphabet_digit _ (Hs (Z.of_nat 2))) as (c2 & -> & E2 & N2 & _).
  cbn [from_option id decode64]. rewrite E0, E1, E2. cbn [mbind option_bind].
  rewrite (proj2 (Z.eqb_neq c2 61)) by done. cbn [andb Z.eqb]. rewrite bool_decide_true by done. unfold sextet, v.
  cbn [Z.of_nat Z.mul Z.sub Z.pow]. cbn. do 3 f_equal; [|f_equal]; Z.to_euclidean_division_equations; lia.
Qed.
Lemma decode64_chunk1 a : is_u8 a → decode64 (base64_chunk [a]) = Some [a].
Proof.
  intros Ha. rewrite (base64_chunk_eq [a] a 0 0) by done. cbn [length seq fmap list_fmap Nat.leb app].
  unfold is_u8 in *. set (v := a * 2 ^ 16 + 0 * 2 ^ 8 + 0).
  assert (∀ i, 0 <= sextet v i < 64) as Hs by (intros; apply Z.mod_pos_bound; lia).
  destruct (alphabet_digit _ (Hs (Z.of_nat 0))) as (c0 & -> & E0 & _), (alphabet_digit _ (Hs (Z.of_nat 1))) as (c1 & -> & E1 & _).
  cbn [from_option id decode64]. rewrite E0, E1. cbn [mbind option_bind andb Z.eqb]. rewrite bool_decide_true by done.
  unfold sextet, v. cbn. do 2 f_equal. Z.to_euclidean_division_equations; lia.
Qed.

Lemma base64_decodes data : Forall is_u8 data → decode64 (base64 data) = Some data.
Proof.
  induction data as [data IH] using (induction_ltof1 _ length). unfold ltof in IH. intros Hd.
  destruct data as [|a [|b [|c data]]].
  - done.
  - apply decode64_chunk1. by inversion Hd.
  - rewrite !Forall_cons in Hd. destruct Hd as (? & ? & _). by apply decode64_chunk2.
  - rewrite !Forall_cons in Hd. destruct Hd as (? & ? & ? & Hd). cbn [base64].
    rewrite decode64_chunk3 by done. rewrite IH; [done|simpl; lia|done].
Qed.
Lemma decode64_no_markup s bs : decode64 s = Some bs → 60 ∉ s.
Proof.
  revert bs. induction s as [s IH] using (induction_ltof1 _ length). unfold ltof in IH. intros bs Hd.
  assert (∀ c d, digit64 c = Some d → c ≠ 60) as Hdig.
  { intros c d Hc ->. vm_compute in Hc. discriminate Hc. }
  destruct s as [|c0 [|c1 [|c2 [|c3 rest]]]]; try done; [apply not_elem_of_nil|]. cbn [decode64] in Hd.
  destruct (digit64 c0) as [d0|] eqn:E0; [|done]. destruct (digit64 c1) as [d1|] eqn:E1; [|done]. cbn [mbind option_bind] in Hd.
  apply Hdig in E0, E1. destruct ((c2 =? 61) && (c3 =? 61)) eqn:Ep.
  { case_bool_decide; [|done]. apply andb_true_iff in Ep as [E2 E3]. apply Z.eqb_eq in E2, E3. subst. set_solver. }
  destruct (digit64 c2) as [d2|] eqn:E2; [|done]. apply Hdig in E2. cbn [mbind option_bind] in Hd. destruct (Z.eqb_spec c3 61) as [->|].
  { case_bool_decide; [|done]. subst. set_solver. }
  destruct (digit64 c3) as [d3|] eqn:E3; [|done]. apply Hdig in E3. cbn [mbind option_bind] in Hd.
  destruct (decode64 rest) as [more|] eqn:Er; [|done]. apply IH in Er; [|simpl; lia]. set_solver.
Qed.

(** Escaping leaves no markup and loses nothing. *)
Lemma unescape_escape1 c fuel rest : unescape (S fuel) (xml_escape1 c ++ rest) = c :: unescape fuel rest.
Proof.
  unfold xml_escape1.
  destruct (Z.eqb_spec c 38) as [->|]; [reflexivity|]. destruct (Z.eqb_spec c 60) as [->|]; [reflexivity|].
  destruct (Z.eqb_spec c 62) as [->|]; [reflexivity|]. destruct (Z.eqb_spec c 34) as [->|]; [reflexivity|].
  destruct (Z.eqb_spec c 39) as [->|]; [reflexivity|]. cbn [app unescape].
  assert (find_entity ENTITIES (c :: rest) = None) as ->; [|done].
  cbn. by rewrite (proj2 (Z.eqb_neq _ _)) by done.
Qed.
Lemma unescape_escape s fuel : (length s ≤ fuel)%nat → unescape fuel (xml_escape s) = s.
Proof.
  revert fuel. induction s as [|c s IH]; intros [|fuel] Hf; cbn [length] in Hf; try done; [lia|].
  unfold xml_escape. cbn [fmap list_fmap concat]. rewrite unescape_escape1. f_equal. apply IH. lia.
Qed.
Lemma xml_escape_no_markup s : Forall (λ b, b ∉ [60; 62; 34; 39]) (xml_escape s).
Proof.
  unfold xml_escape. induction s as [|c s IH]; [constructor|]. cbn [fmap list_fmap concat]. apply Forall_app. split; [|done].
  unfold xml_escape1.
  destruct (Z.eqb_spec c 38); [|destruct (Z.eqb_spec c 60); [|destruct (Z.eqb_spec c 62); [|destruct (Z.eqb_spec c 34);
    [|destruct (Z.eqb_spec c 39)]]]]; try (apply (bool_decide_unpack _); vm_compute; exact I).
  constructor; [|constructor]. set_solver.
Qed.

(** The bytes RFC 9562 fixes: version 8 and its variant. *)
Lemma uuid_version_bits b : is_u8 b →
  hex_digit (Z.lor (Z.land b 0x0f) 0x80 / 16) = 56 ∧ hex_digit (Z.lor (Z.land b 0x3f) 0x80 / 16) ∈ lit "89AB" ∧
  is_u8 (Z.lor (Z.land b 0x0f) 0x80) ∧ is_u8 (Z.lor (Z.land b 0x3f) 0x80).
Proof.
  intros Hb. assert (forallb (λ n, let b := Z.of_nat n in
      (hex_digit (Z.lor (Z.land b 0x0f) 0x80 / 16) =? 56) && bool_decide (hex_digit (Z.lor (Z.land b 0x3f) 0x80 / 16) ∈ lit "89AB")
      && (Z.lor (Z.land b 0x0f) 0x80 <? 256) && (Z.lor (Z.land b 0x3f) 0x80 <? 256)
      && (0 <=? Z.lor (Z.land b 0x0f) 0x80) && (0 <=? Z.lor (Z.land b 0x3f) 0x80))
    (seq 0 256) = true) as Hall by (vm_compute; reflexivity).
  rewrite forallb_forall in Hall. specialize (Hall (Z.to_nat b)). rewrite in_seq in Hall. unfold is_u8 in *.
  rewrite Z2Nat.id in Hall by lia. cbv zeta in Hall.
  rewrite !andb_true_iff, bool_decide_eq_true, Z.eqb_eq, !Z.ltb_lt, !Z.leb_le in Hall.
  destruct Hall as [[[[[? ?] ?] ?] ?] ?]; [lia|]. split_and!; done || lia.
Qed.
Definition hex_upper (c : Z) : bool := is_ascii_digit c || (65 <=? c) && (c <=? 70).
Lemma hex2_upper b : is_u8 b → Forall (λ c, hex_upper c = true) (hex2 b).
Proof.
  intros Hb. unfold hex2, hex_digit, hex_upper, is_ascii_digit, is_u8 in *.
  repeat constructor; case_match; rewrite ?orb_true_iff, ?andb_true_iff, ?Z.leb_le; Z.to_euclidean_division_equations; lia.
Qed.

(** A UUID of version 8 in upper case. *)
Definition uuid_shape (uuid : bytes) : Prop :=
  length uuid = 36%nat ∧
  (∀ i c, uuid !! i = Some c → if bool_decide (i ∈ [8; 13; 18; 23]%nat) then c = 45 else hex_upper c = true) ∧
  uuid !! 14%nat = Some 56 ∧ ∃ c, uuid !! 19%nat = Some c ∧ c ∈ lit "89AB".
Lemma hex2_chars b : is_u8 b → hex_upper (hex_digit (b / 16)) = true ∧ hex_upper (hex_digit (b mod 16)) = true.
Proof. intros Hb. pose proof (hex2_upper b Hb) as Hh. unfold hex2 in Hh. rewrite !Forall_cons in Hh. naive_solver. Qed.
Lemma uuid_from_shape sha256 label der :
  length (sha256 (label ++ der)) = 32%nat → Forall is_u8 (sha256 (label ++ der)) → uuid_shape (uuid_from sha256 label der).
Proof.
  intros Hlen Hu8. unfold uuid_from, uuid_bytes. revert Hlen Hu8. generalize (sha256 (label ++ der)). intros l Hlen Hu8.
  do 16 (destruct l as [|? l]; [discriminate Hlen|]; apply Forall_cons in Hu8 as [? Hu8]).
  cbn [take lookup list_lookup insert list_insert from_option id].
  match goal with |- context [Z.lor (Z.land ?b 15) 128] => destruct (uuid_version_bits b) as (Hv & _ & Hb6 & _); [done|];
    set (b6 := Z.lor (Z.land b 15) 128) in * end.
  match goal with |- context [Z.lor (Z.land ?b 63) 128] => destruct (uuid_version_bits b) as (_ & Hw & _ & Hb8); [done|];
    set (b8 := Z.lor (Z.land b 63) 128) in * end.
  unfold uuid_shape, imap, hex2. cbn -[hex_digit hex_upper Z.div Z.modulo].
  split; [done|]. split; [|split; [by rewrite Hv|eauto]].
  intros i c Hi. do 36 (destruct i as [|i]; [injection Hi as <-;
    match goal with |- context [bool_decide ?P] => let b := eval vm_compute in (bool_decide P) in change (bool_decide P) with b end;
    cbv iota; try done; by apply hex2_chars|]). discriminate Hi.
Qed.

(** The profile's parts survive its encoding. The certificate's text decodes to the
    certificate and holds no markup; display name and identifier are escaped so that no markup
    is left and nothing is lost; and both identifiers are UUIDs of version 8, in upper case
    with four dashes. *)
Theorem profile_keeps_its_parts (sha256 : bytes → bytes) (der display_name identifier : bytes) :
  Forall is_u8 der → (∀ m, length (sha256 m) = 32%nat ∧ Forall is_u8 (sha256 m)) →
  ∃ payload_uuid profile_uuid,
  mobileconfig sha256 der display_name identifier =
    profile_head ++ q "      <data>" ++ base64 der ++ q "</data>" ++ [NL]
      ++ profile_tail (xml_escape display_name) (xml_escape identifier) payload_uuid profile_uuid ∧
  decode64 (base64 der) = Some der ∧ (60 ∉ base64 der) ∧
  (∀ s, s ∈ [display_name; identifier] → Forall (λ b, b ∉ [60; 62; 34; 39]) (xml_escape s) ∧ unescape (length s) (xml_escape s) = s) ∧
  uuid_shape payload_uuid ∧ uuid_shape profile_uuid.
Proof.
  intros Hder Hsha. eexists _, _. split; [reflexivity|].
  split; [by apply base64_decodes|]. split; [eapply decode64_no_markup; by apply base64_decodes|].
  split; [intros s _; split; [apply xml_escape_no_markup|by apply unescape_escape]|].
  split; apply uuid_from_shape; apply Hsha.
Qed.

Lemma profile_keeps_its_parts_witness : decode64 (base64 [0; 255; 16; 7]) = Some [0; 255; 16; 7].
Proof.
  destruct (profile_keeps_its_parts (λ _, replicate 32 171) [0; 255; 16; 7] (lit "A & <B>") (lit "id")) as (u & v & _ & Hd & _).
  - apply (bool_decide_unpack _). vm_compute. exact I.
  - intros m. split; [reflexivity|]. apply (bool_decide_unpack _). vm_compute. exact I.
  - exact Hd.
Defined.
