(* ===== verification/Proxy.v ===== *)
(** * The proxy's shared state ([mitm/src/proxy.rs])

    [ProxyState] is what one [serve] call shares between its connections: the context, the
    permits left in the three semaphores, the leaf cache, and the activities of the connections
    alive with the two lists of weak references to them (a reference is a number, and it is dead
    when the number has no activity any more). *)
From S2P Require Import Prelude RustStr Collections Net HostPattern Policy DomainSet Common DnsCache Io Http Engine Filtering Idle Ca.

Definition MIN_IDLE_TO_RECLAIM : Z := 3000.

(** ** Lists of connections *)

(** [live]: the references that are not dead. *)
Definition live (activities : gmap nat Activity) (l : list nat) : list nat := filter (λ id, is_Some (activities !! id)) l.

(** The connections of a list that may be asked to close, with the time they became idle. *)
Definition idle_ones (activities : gmap nat Activity) (l : list nat) (min_idle now : Z) : list (Z * nat) :=
  filter (λ p, min_idle <= sat_sub now p.1)
    (omap (λ id, activity ← activities !! id; since ← idle_since activity; Some (since, id)) l).
Definition reclaim_longest_idle (activities : gmap nat Activity) (l : list nat) (min_idle now : Z)
    : gmap nat Activity * list nat * option nat :=
  let l := live activities l in
  match min_by_key fst (idle_ones activities l min_idle now) with
  | None => (activities, l, None)
  | Some (_, id) => (alter request_reclaim id activities, l, Some id)
  end.

(** ** Accepting *)

Definition accept_backoff (consecutive_errors : Z) : Z :=
  if consecutive_errors =? 0 then 0
  else Z.min (10 * Z.shiftl 1 (Z.min (consecutive_errors - 1) 16)) 1000.
(** The accept loop over what [accept] answers: the errors in a row and the delay slept. *)
Definition accept_step (errors : Z) (accepted : bool) : Z * Z :=
  if accepted then (0, 0) else let errors := sat_add32 errors 1 in (errors, accept_backoff errors).

Section state.
Context `{AdblockCrate, Issuing, Lru}.

Record ProxyState := {
  ps_ctx : ProxyContext;
  intercept_slots : nat;
  passthrough_slots : nat;
  blocked_slots : nat;
  ps_activities : gmap nat Activity;
  ps_intercepted : list nat;
  ps_blocked : list nat;
  ps_leaves : LruCache CachedLeaf;
  (** what [available_memory()] says *)
  available_memory : option Z
}.
Definition with_ctx (s : ProxyState) (ctx : ProxyContext) : ProxyState :=
  {| ps_ctx := ctx; intercept_slots := intercept_slots s; passthrough_slots := passthrough_slots s;
     blocked_slots := blocked_slots s; ps_activities := ps_activities s; ps_intercepted := ps_intercepted s;
     ps_blocked := ps_blocked s; ps_leaves := ps_leaves s; available_memory := available_memory s |}.
Definition with_slots (s : ProxyState) (intercept passthrough blocked : nat) : ProxyState :=
  {| ps_ctx := ps_ctx s; intercept_slots := intercept; passthrough_slots := passthrough; blocked_slots := blocked;
     ps_activities := ps_activities s; ps_intercepted := ps_intercepted s; ps_blocked := ps_blocked s;
     ps_leaves := ps_leaves s; available_memory := available_memory s |}.
Definition with_connections (s : ProxyState) (activities : gmap nat Activity) (intercepted blocked : list nat) : ProxyState :=
  {| ps_ctx := ps_ctx s; intercept_slots := intercept_slots s; passthrough_slots := passthrough_slots s;
     blocked_slots := blocked_slots s; ps_activities := activities; ps_intercepted := intercepted; ps_blocked := blocked;
     ps_leaves := ps_leaves s; available_memory := available_memory s |}.
Definition with_leaves (s : ProxyState) (leaves : LruCache CachedLeaf) : ProxyState :=
  {| ps_ctx := ps_ctx s; intercept_slots := intercept_slots s; passthrough_slots := passthrough_slots s;
     blocked_slots := blocked_slots s; ps_activities := ps_activities s; ps_intercepted := ps_intercepted s;
     ps_blocked := ps_blocked s; ps_leaves := leaves; available_memory := available_memory s |}.

(** A new connection past its handshake, with its activity's number. *)
Definition add_intercepted (s : ProxyState) (id : nat) : ProxyState :=
  with_connections s (ps_activities s) (live (ps_activities s) (ps_intercepted s) ++ [id]) (ps_blocked s).
Definition add_blocked (s : ProxyState) (id : nat) : ProxyState :=
  with_connections s (ps_activities s) (ps_intercepted s) (live (ps_activities s) (ps_blocked s) ++ [id]).
Definition close_longest_idle (s : ProxyState) (now : Z) : ProxyState * bool :=
  let '(activities, l, asked) := reclaim_longest_idle (ps_activities s) (ps_intercepted s) MIN_IDLE_TO_RECLAIM now in
  (with_connections s activities l (ps_blocked s), bool_decide (is_Some asked)).
Definition close_longest_idle_blocked (s : ProxyState) (now : Z) : ProxyState * option nat :=
  let '(activities, l, asked) := reclaim_longest_idle (ps_activities s) (ps_blocked s) 0 now in
  (with_connections s activities (ps_intercepted s) l, asked).
(** [ca.leaf(name)] *)
Definition state_leaf (s : ProxyState) (name : bytes) (wall : Z) (attempt : nat) : ProxyState * result CertifiedKey MitmError :=
  let '(leaves, key) := leaf_at (ps_leaves s) name wall wall attempt in (with_leaves s leaves, key).
End state.

(** ** Facts *)

Lemma min_by_key_spec {A} (key : A → Z) l :
  match min_by_key key l with
  | None => l = []
  | Some x => x ∈ l ∧ ∀ y, y ∈ l → key x <= key y
  end.
Proof. destruct (min_by_key key l) eqn:E; [by apply min_by_key_Some|by apply min_by_key_None in E]. Qed.

Lemma elem_of_idle_ones activities l min_idle now since id :
  (since, id) ∈ idle_ones activities l min_idle now ↔
  id ∈ l ∧ min_idle <= sat_sub now since ∧ ∃ a, activities !! id = Some a ∧ idle_since a = Some since.
Proof.
  unfold idle_ones. rewrite list_elem_of_filter, list_elem_of_omap. cbn [fst]. split.
  - intros [Hm (id' & Hin & Hs)]. destruct (activities !! id') as [a|] eqn:Ha; [|discriminate Hs]. cbn in Hs.
    destruct (idle_since a) as [since'|] eqn:Hi; [|discriminate Hs]. injection Hs as -> ->. eauto 10.
  - intros (Hin & Hm & a & Ha & Hi). split; [done|]. exists id. split; [done|]. rewrite Ha. cbn. by rewrite Hi.
Qed.

(** Making room closes the right connection. The one asked to close is of the list, alive,
    has nothing in flight, was not asked before and has been idle longest among those idle for
    long enough; it is only asked, nothing else changes; it is never picked again; and when no
    connection is picked, none qualifies. References to ended connections leave the list, and
    no other. *)
Theorem reclaims_longest_idle (activities : gmap nat Activity) (l : list nat) (min_idle now : Z) :
  let '(activities', l', asked) := reclaim_longest_idle activities l min_idle now in
  (∀ id, id ∈ l' ↔ id ∈ l ∧ is_Some (activities !! id)) ∧
  match asked with
  | Some id => id ∈ l ∧ ∃ a since, activities !! id = Some a ∧ in_flight a = 0%nat ∧ close_requested a = false ∧
      since = last_used_at a ∧ min_idle <= sat_sub now since ∧
      activities' = <[id := request_reclaim a]> activities ∧
      (∀ id' a', id' ∈ l → activities !! id' = Some a' → in_flight a' = 0%nat → close_requested a' = false →
         min_idle <= sat_sub now (last_used_at a') → since <= last_used_at a') ∧
      ∀ now', (reclaim_longest_idle activities' l' min_idle now').2 ≠ Some id
  | None => activities' = activities ∧
      ∀ id a, id ∈ l → activities !! id = Some a → in_flight a = 0%nat → close_requested a = false →
        sat_sub now (last_used_at a) < min_idle
  end.
Proof.
  assert (∀ a since, idle_since a = Some since ↔ in_flight a = 0%nat ∧ close_requested a = false ∧ since = last_used_at a) as Hidle.
  { intros a since. unfold idle_since. destruct (in_flight a); cbn; [|naive_solver]. destruct (close_requested a); naive_solver. }
  assert (∀ id, id ∈ live activities l ↔ id ∈ l ∧ is_Some (activities !! id)) as Hlive.
  { intros id. unfold live. rewrite list_elem_of_filter. tauto. }
  unfold reclaim_longest_idle at 1. pose proof (min_by_key_spec fst (idle_ones activities (live activities l) min_idle now)) as Hmin.
  destruct (min_by_key fst _) as [[since id]|].
  - split; [done|]. destruct Hmin as [Hin Hmin]. apply elem_of_idle_ones in Hin as (Hin & Hm & a & Ha & Hi).
    apply Hlive in Hin as [Hin _]. apply Hidle in Hi as (? & ? & ->). split; [done|]. exists a, (last_used_at a).
    split_and!; try done.
    + apply map_eq. intros k. destruct (decide (k = id)) as [->|Hk];
        [by rewrite lookup_alter_eq, lookup_insert_eq, Ha|by rewrite lookup_alter_ne, lookup_insert_ne by done].
    + intros id' a' Hin' Ha' Hf' Hc' Hm'. apply (Hmin (last_used_at a', id')), elem_of_idle_ones.
      split; [by apply Hlive; eauto|]. split; [done|]. exists a'. split; [done|]. by apply Hidle.
    + intros now'. unfold reclaim_longest_idle.
      pose proof (min_by_key_spec fst (idle_ones (alter request_reclaim id activities)
        (live (alter request_reclaim id activities) (live activities l)) min_idle now')) as Hmin'.
      destruct (min_by_key fst _) as [[since' id']|]; [|done]. intros [= ->]. destruct Hmin' as [Hin' _].
      apply elem_of_idle_ones in Hin' as (_ & _ & b & Hb & Hib). rewrite lookup_alter_eq, Ha in Hb. injection Hb as <-.
      apply Hidle in Hib as (_ & [=] & _).
  - split; [done|]. split; [done|]. intros id a Hin Ha Hf Hc. apply Z.nle_gt. intros Hm.
    assert ((last_used_at a, id) ∈ idle_ones activities (live activities l) min_idle now) as He.
    { apply elem_of_idle_ones. split; [by apply Hlive; eauto|]. split; [done|]. exists a. split; [done|]. by apply Hidle. }
    rewrite Hmin in He. by apply not_elem_of_nil in He.
Qed.

(** The delay doubles from 10 ms and stays within a second, whatever the count. *)
Lemma accept_backoff_bounds n : 0 < n → 10 <= accept_backoff n <= 1000 ∧ accept_backoff n <= accept_backoff (n + 1).
Proof.
  intros Hn. unfold accept_backoff. rewrite !(proj2 (Z.eqb_neq _ 0)) by lia. rewrite !Z.shiftl_1_l.
  assert (1 <= 2 ^ Z.min (n - 1) 16) by (pose proof (Z.pow_pos_nonneg 2 (Z.min (n - 1) 16)); lia).
  assert (2 ^ Z.min (n - 1) 16 <= 2 ^ Z.min (n + 1 - 1) 16) by (apply Z.pow_le_mono_r; lia). lia.
Qed.
