(* ===== verification/Connect.v ===== *)
(** * [CONNECT] and blocked connections ([mitm/src/connect.rs], [sink.rs])

    The answer to a [CONNECT] and the task it starts, then what the task decides from the
    client's first bytes. While a task waits, others run: a wait is an argument that says when
    it ends, what the others did to the shared state and whether the permit came. [now] is
    tokio's clock in milliseconds, [wall] is [unix_secs()]. *)
From S2P Require Import Prelude RustStr Collections Net HostPattern Policy PolicyFacts DomainSet Common DnsCache Io Hello Http Engine Filtering UpstreamError Request Idle Ca Proxy.

Definition RECLAIM_WAIT : Z := 100.
Definition BLOCKED_SLOT_WAIT : Z := 150.
Definition BLOCKED_SLOT_RETRY : Z := 10.
Definition LOW_MEMORY_BYTES : Z := 8 * 1024 * 1024.

(** Why a connection is tunnelled after its first bytes were read. *)
Inductive TunnelWhy := WhyReason (reason : PassthroughReason) | WhyFor (reason : PassthroughReason) (name : bytes) | WhyNoCertificate (name : bytes).
Inductive NoHello := NoHelloNotTls | NoHelloClosed.

Section connect.
Context `{HttpCrate, AdblockCrate, Issuing, Lru, Acceptor}.

(** One turn of a wait for a permit: the time it ends, what the other tasks did, and whether
    the permit came (if not, the timer fired). *)
Record SlotWait := {
  sw_now : Z;
  sw_others : ProxyState → ProxyState;
  sw_granted : bool
}.

(** [low_memory] *)
Definition low_memory (s : ProxyState) : option Z :=
  match available_memory s with
  | Some bytes => if bytes <? LOW_MEMORY_BYTES then Some bytes else None
  | None => None
  end.

(** The loop of [blocked_slot]; [None] while it is still waiting. *)
Fixpoint blocked_slot_loop (waits : list SlotWait) (s : ProxyState) (now deadline : Z) (asked : option nat)
    : option (ProxyState * bool) :=
  let '(s, asked) :=
    if match asked with None => true | Some id => negb (bool_decide (is_Some (ps_activities s !! id))) end
    then close_longest_idle_blocked s now else (s, asked) in
  let wake := Z.min deadline (now + BLOCKED_SLOT_RETRY) in
  match waits with
  | [] => None
  | w :: waits' =>
      let s := sw_others w s in
      if sw_granted w then Some (s, true)
      else if deadline <=? wake then Some (s, false)
      else blocked_slot_loop waits' s (sw_now w) deadline asked
  end.
(** [blocked_slot]: whether the host gets a slot. *)
Definition blocked_slot (s : ProxyState) (name : bytes) (now wall : Z) (waits : list SlotWait) : option (ProxyState * bool) :=
  if is_passthrough (classify (ctx_policy (ps_ctx s)) name wall) then Some (s, false)
  else match low_memory s with
       | Some _ => Some (s, false)
       | None =>
           match blocked_slots s with
           | S free => Some (with_slots s (intercept_slots s) (passthrough_slots s) free, true)
           | O => blocked_slot_loop waits s now (now + BLOCKED_SLOT_WAIT) None
           end
       end.

(** [intercept_slot]; the wait is for [RECLAIM_WAIT] at most. *)
Definition intercept_slot (s : ProxyState) (now : Z) (wait : SlotWait) : ProxyState * bool :=
  match intercept_slots s with
  | S free => (with_slots s free (passthrough_slots s) (blocked_slots s), true)
  | O => let '(s, closing) := close_longest_idle s now in
         if negb closing then (s, false) else (sw_others wait s, sw_granted wait)
  end.
Definition passthrough_slot (s : ProxyState) : ProxyState * bool :=
  match passthrough_slots s with
  | S free => (with_slots s (intercept_slots s) free (blocked_slots s), true)
  | O => (s, false)
  end.

(** A permit of each kind is dropped: it goes back to its semaphore. *)
Definition release_intercept (s : ProxyState) : ProxyState :=
  with_slots s (S (intercept_slots s)) (passthrough_slots s) (blocked_slots s).
Definition release_passthrough (s : ProxyState) : ProxyState :=
  with_slots s (intercept_slots s) (S (passthrough_slots s)) (blocked_slots s).
Definition release_blocked (s : ProxyState) : ProxyState :=
  with_slots s (intercept_slots s) (passthrough_slots s) (S (blocked_slots s)).

(** ** The answer to [CONNECT] *)

Inductive ConnectTask :=
| SinkTask (host : bytes) (port : Z) (by_ : BlockedBy)
| PassthroughTask (host : bytes) (port : Z) (reason : PassthroughReason)
| InspectTask (host : bytes) (port : Z).

Definition connect (s : ProxyState) (uri : Uri) (now wall : Z) (waits : list SlotWait)
    : option (ProxyState * HttpResponse * option ConnectTask) :=
  match uri_authority uri with
  | None => Some (s, status 400, None)
  | Some (uri_host, uri_port) =>
      let host := bare_host uri_host in
      let port := default 443 uri_port in
      let '(ctx, by_) := domain_blocked_by (ps_ctx s) host wall in
      let s := with_ctx s ctx in
      match by_ with
      | Some by_ =>
          match blocked_slot s host now wall waits with
          | None => None
          | Some (s, false) => Some (s, blocked, None)
          | Some (s, true) => Some (s, status 200, Some (SinkTask host port by_))
          end
      | None =>
          match classify (ctx_policy (ps_ctx s)) host wall with
          | Passthrough reason =>
              let '(s, slot) := passthrough_slot s in
              if negb slot then Some (s, status 503, None)
              else Some (s, status 200, Some (PassthroughTask host port reason))
          | Intercept => Some (s, status 200, Some (InspectTask host port))
          end
      end
  end.

(** ** The client's first bytes *)

(** [read_hello]: [first] is the answer of the first read within [first_bytes_timeout], and
    [answers] those of the next ones within [handshake_timeout]. The result, the buffer and the
    answers not read. *)
Definition read_hello (first : option ReadAnswer) (answers : list ReadAnswer)
    : result ClientHelloInfo NoHello * bytes * list ReadAnswer :=
  match first with
  | None => (Err NoHelloNotTls, [], answers)
  | Some answer =>
      match read_more [] answer with
      | (buffer, Ok O) => (Err NoHelloClosed, buffer, answers)
      | (buffer, Err _) => (Err NoHelloClosed, buffer, answers)
      | (buffer, Ok _) =>
          if negb (looks_like_tls buffer) then (Err NoHelloNotTls, buffer, answers)
          else match read_client_hello answers buffer with
               | (None, buffer, rest) => (Err NoHelloClosed, buffer, rest)
               | (Some (Err HelloNotTls), buffer, rest) => (Err NoHelloNotTls, buffer, rest)
               | (Some (Err (HelloIo _)), buffer, rest) => (Err NoHelloClosed, buffer, rest)
               | (Some (Ok hello), buffer, rest) => (Ok hello, buffer, rest)
               end
      end
  end.

(** [sink::Blocked]; the slot is held. *)
Record BlockedConnection := {
  bc_name : bytes;
  bc_leaf : CertifiedKey;
  bc_http : bool;
  bc_by : BlockedBy
}.
(** [Blocked::new]: without a leaf, the slot it was given is dropped. *)
Definition Blocked_new (s : ProxyState) (name : bytes) (hello : ClientHelloInfo) (by_ : BlockedBy) (wall : Z) (attempt : nat)
    : ProxyState * option BlockedConnection :=
  match state_leaf s name wall attempt with
  | (s, Ok leaf) => (s, Some {| bc_http := offers_http hello; bc_name := name; bc_leaf := leaf; bc_by := by_ |})
  | (s, Err _) => (release_blocked s, None)
  end.

Inductive Plan :=
| PlanClose
| PlanTunnel (why : TunnelWhy)
| PlanIntercept (origin : Origin) (leaf : CertifiedKey)
| PlanSink (blocked : BlockedConnection).

Definition blocked_plan (s : ProxyState) (name : bytes) (hello : ClientHelloInfo) (by_ : BlockedBy) (now wall : Z)
    (waits : list SlotWait) (attempt : nat) : option (ProxyState * Plan) :=
  match blocked_slot s name now wall waits with
  | None => None
  | Some (s, false) => Some (s, PlanClose)
  | Some (s, true) =>
      match Blocked_new s name hello by_ wall attempt with
      | (s, Some blocked) => Some (s, PlanSink blocked)
      | (s, None) => Some (s, PlanClose)
      end
  end.

(** The rest of [plan], for a site that is neither blocked nor passed through: interception, if
    the client speaks HTTP, there is memory, and a slot and a leaf can be had. [wait] is the wait
    for the slot, which is dropped without a leaf. *)
Definition plan_intercept (s : ProxyState) (hello : ClientHelloInfo) (name host : bytes) (port now wall : Z)
    (wait : SlotWait) (attempt : nat) : ProxyState * Plan :=
  if negb (offers_http hello) then (s, PlanTunnel (WhyReason NotTls))
  else match low_memory s with
       | Some _ => (s, PlanTunnel (WhyReason LowMemory))
       | None =>
           let '(s, slot) := intercept_slot s now wait in
           if negb slot then (s, PlanTunnel (WhyReason Capacity))
           else match state_leaf s name wall attempt with
                | (s, Ok leaf) => (s, PlanIntercept {| o_name := name; o_host := host; o_port := port |} leaf)
                | (s, Err _) => (release_intercept s, PlanTunnel (WhyNoCertificate name))
                end
       end.
(** [plan] once the ClientHello was read. *)
Definition plan_hello (s : ProxyState) (hello : ClientHelloInfo) (host : bytes) (port now wall : Z)
    (waits : list SlotWait) (wait : SlotWait) (attempt : nat) : option (ProxyState * Plan) :=
  let name := default host (server_name hello) in
  if negb (eq_ignore_ascii_case name host) then
    let '(ctx, by_) := domain_blocked_by (ps_ctx s) name wall in
    let s := with_ctx s ctx in
    match by_ with
    | Some by_ => blocked_plan s name hello by_ now wall waits attempt
    | None => match classify (ctx_policy (ps_ctx s)) name wall with
              | Passthrough reason => Some (s, PlanTunnel (WhyFor reason name))
              | Intercept => Some (plan_intercept s hello name host port now wall wait attempt)
              end
    end
  else Some (plan_intercept s hello name host port now wall wait attempt).
(** [plan], with the buffer to replay and the answers not read. *)
Definition plan (s : ProxyState) (first : option ReadAnswer) (answers : list ReadAnswer) (host : bytes) (port now wall : Z)
    (waits : list SlotWait) (wait : SlotWait) (attempt : nat) : option (ProxyState * Plan) * bytes * list ReadAnswer :=
  match read_hello first answers with
  | (Err NoHelloNotTls, buffer, rest) => (Some (s, PlanTunnel (WhyReason NotTls)), buffer, rest)
  | (Err NoHelloClosed, buffer, rest) => (Some (s, PlanClose), buffer, rest)
  | (Ok hello, buffer, rest) => (plan_hello s hello host port now wall waits wait attempt, buffer, rest)
  end.

(** ** Blocked connections *)

(** [sink]: the connection to serve once the ClientHello was read, if any; otherwise the slot is
    dropped. *)
Definition sink (s : ProxyState) (first : option ReadAnswer) (answers : list ReadAnswer) (host : bytes) (by_ : BlockedBy)
    (wall : Z) (attempt : nat) : ProxyState * option BlockedConnection * bytes * list ReadAnswer :=
  match read_hello first answers with
  | (Err _, buffer, rest) => (release_blocked s, None, buffer, rest)
  | (Ok hello, buffer, rest) =>
      let name := default host (server_name hello) in
      (Blocked_new s name hello by_ wall attempt, buffer, rest)
  end.
(** The service of [sink::serve]: the answer to a request, and whether the connection closes. *)
Definition sink_answer (ctx : ProxyContext) (by_ : BlockedBy) (headers : HeaderMap) : result HttpResponse NoResponse * bool :=
  let answer := if lists_changed by_ ctx then Err NoResponse_lists_changed else answer_on_blocked_connection headers in
  (answer, match answer with Err e => closes_connection e | Ok _ => false end).
End connect.
