(* ===== verification/ConnectProps.v ===== *)
(** * What a [CONNECT] may lead to

    Theorems about [Connect]: a blocked host is never dialed, a connection is intercepted only
    where the policy and the lists allow it, no byte the client sent is lost, and a blocked host
    is answered in time. *)
From S2P Require Import Prelude RustStr Collections Net HostPattern Policy PolicyFacts DomainSet Common DnsCache Io Hello Http Engine Filtering UpstreamError Request Idle Ca Proxy Connect.

Section props.
Context `{HttpCrate, AdblockCrate, Issuing, Lru, Acceptor}.

Lemma domain_blocked_by_policy ctx host wall : ctx_policy (domain_blocked_by ctx host wall).1 = ctx_policy ctx.
Proof. unfold domain_blocked_by. by repeat case_match. Qed.

(** Case does not matter to a lookup key: stripping punctuation commutes with lower case. *)
Definition no_letter (c : Z) : Prop := is_ascii_uppercase c = false ∧ is_ascii_lowercase c = false.
Lemma strip_prefix_lower p x : Forall no_letter p →
  strip_prefix p (to_ascii_lowercase x) = to_ascii_lowercase <$> strip_prefix p x.
Proof.
  intros Hp. revert x. induction Hp as [|c p [Hu Hl] Hp IH]; intros x; [done|]. destruct x as [|b x]; [done|].
  unfold to_ascii_lowercase. rewrite fmap_cons. cbn [strip_prefix]. pose proof (lower1_eq_iff b c Hu Hl) as Hb.
  destruct (Z.eqb_spec c b) as [<-|Hc].
  - rewrite (proj2 Hb eq_refl), Z.eqb_refl. apply IH.
  - rewrite (proj2 (Z.eqb_neq c (lower1 b))); [done|]. intros Hc'. apply Hc. symmetry. by apply Hb.
Qed.
Lemma strip_suffix_lower p x : Forall no_letter p →
  strip_suffix p (to_ascii_lowercase x) = to_ascii_lowercase <$> strip_suffix p x.
Proof.
  intros Hp. unfold strip_suffix.
  assert (reverse (to_ascii_lowercase x) = to_ascii_lowercase (reverse x)) as -> by (symmetry; apply fmap_reverse).
  rewrite strip_prefix_lower by (by apply Forall_reverse). destruct (strip_prefix _ _) as [r|]; [|done].
  cbn. f_equal. unfold to_ascii_lowercase. by rewrite fmap_reverse.
Qed.
Lemma lookup_key_ignores_case a b : eq_ignore_ascii_case a b = true → lookup_key a = lookup_key b.
Proof.
  rewrite eq_ignore_case_spec. intros Hab.
  assert (∀ x, lookup_key (to_ascii_lowercase x) = lookup_key x) as Hlow; [|by rewrite <- (Hlow a), Hab, Hlow].
  intros x. unfold lookup_key, strip_suffix_or. rewrite strip_suffix_lower by (by repeat constructor).
  assert (∀ o : option bytes, default (to_ascii_lowercase x) (to_ascii_lowercase <$> o) = to_ascii_lowercase (default x o)) as ->
    by (by intros []).
  generalize (default x (strip_suffix [DOT] x)). intros y. rewrite strip_prefix_lower by (by repeat constructor).
  destruct (strip_prefix (lit "[") y) as [z|]; cbn [fmap option_fmap option_map mbind option_bind].
  - rewrite strip_suffix_lower by (by repeat constructor). destruct (strip_suffix (lit "]") z); cbn; apply to_lower_idem.
  - cbn. apply to_lower_idem.
Qed.
Lemma classify_ignores_case policy a b now : eq_ignore_ascii_case a b = true → classify policy a now = classify policy b now.
Proof. intros Hab. unfold classify. by rewrite (lookup_key_ignores_case _ _ Hab). Qed.

(** ** Nothing read is lost *)

Lemma read_hello_keeps first answers res buffer rest : read_hello first answers = (res, buffer, rest) →
  ∃ read, answers = read ++ rest ∧ buffer = received (option_list first ++ read).
Proof.
  unfold read_hello. destruct first as [[b|e]|]; cbn [read_more app].
  - intros Hr. assert ((buffer, rest) = (b, answers) ∨ ∃ r, read_client_hello answers b = (r, buffer, rest)) as [[= -> ->]|[r Hc]].
    { destruct (length b); [left; by injection Hr as _ <- <-|]. destruct (looks_like_tls b); cbn [negb] in Hr;
        [right|left; by injection Hr as _ <- <-].
      destruct (read_client_hello answers b) as [[r b'] rest']. exists r.
      destruct r as [[h|[|e]]|]; by injection Hr as _ <- <-. }
    + exists []. split; [done|]. simpl. by rewrite app_nil_r.
    + apply read_client_hello_loop_keeps in Hc as (read & -> & -> & _). by exists read.
  - intros [= _ <- <-]. by exists [].
  - intros [= _ <- <-]. by exists [].
Qed.

(** Inspecting a connection loses nothing. Whatever the plan, and for a blocked host too,
    the buffer to replay and the bytes not read yet are together what the client sent, in
    order; a replaying stream delivers the buffer first ([Rewind]). *)
Theorem inspected_bytes_are_kept (s : ProxyState) (first : option ReadAnswer) (answers : list ReadAnswer) (host : bytes)
    (port now wall : Z) (waits : list SlotWait) (wait : SlotWait) (by_ : BlockedBy) (attempt : nat) :
  let '(_, buffer, rest) := plan s first answers host port now wall waits wait attempt in
  let '(_, buffer', rest') := sink s first answers host by_ wall attempt in
  buffer ++ received rest = received (option_list first ++ answers) ∧ buffer' = buffer ∧ rest' = rest.
Proof.
  unfold plan, sink. destruct (read_hello first answers) as [[r buffer] rest] eqn:Hr.
  apply read_hello_keeps in Hr as (read & -> & ->).
  assert (received (option_list first ++ read) ++ received rest = received (option_list first ++ read ++ rest)) as Heq
    by (by rewrite app_assoc, <- (received_app (option_list first ++ read))).
  by destruct r as [hello|[|]].
Qed.

(** ** Blocked hosts *)

Lemma blocked_plan_only_blocks s name hello by_ now wall waits attempt s' p :
  blocked_plan s name hello by_ now wall waits attempt = Some (s', p) →
  p = PlanClose ∨ ∃ b, p = PlanSink b ∧ bc_by b = by_ ∧ bc_name b = name.
Proof.
  unfold blocked_plan. destruct (blocked_slot _ _ _ _ _) as [[s1 [|]]|]; [| |done].
  - unfold Blocked_new. destruct (state_leaf _ _ _ _) as [s2 [leaf|e]]; intros [= _ <-]; [right|by left]. eauto.
  - intros [= _ <-]. by left.
Qed.

(** C19: A blocked host is never dialed. A [CONNECT] whose host the DNS blocklist blocks gets
    [403] and no task, or [200] and a task that serves it as blocked by that list; a TLS server
    name the list blocks behind another host is closed or served as blocked; and every request
    on a blocked connection is answered by the proxy: as blocked while the list is the one that
    blocked it, and once another list is loaded with an error that closes the connection, so
    that the host is classified again. *)
Theorem blocked_host_is_never_dialed (s : ProxyState) (uri : Uri) (now wall : Z) (waits : list SlotWait) :
  (∀ uri_host uri_port by_ s' response task, uri_authority uri = Some (uri_host, uri_port) →
     (domain_blocked_by (ps_ctx s) (bare_host uri_host) wall).2 = Some by_ →
     connect s uri now wall waits = Some (s', response, task) →
     response = blocked ∧ task = None ∨
     response = status 200 ∧ task = Some (SinkTask (bare_host uri_host) (default 443 uri_port) by_)) ∧
  (∀ first answers host port wait attempt by_ hello buffer rest s' p, read_hello first answers = (Ok hello, buffer, rest) →
     let name := default host (server_name hello) in
     eq_ignore_ascii_case name host = false → (domain_blocked_by (ps_ctx s) name wall).2 = Some by_ →
     plan s first answers host port now wall waits wait attempt = (Some (s', p), buffer, rest) →
     p = PlanClose ∨ ∃ b, p = PlanSink b ∧ bc_by b = by_ ∧ bc_name b = name) ∧
  (∀ ctx' headers id ds, ctx_domains (ps_ctx s) = Some (id, ds) →
     sink_answer ctx' {| blocked_list := id |} headers =
     if bool_decide (fst <$> ctx_domains ctx' = Some id) then (answer_on_blocked_connection headers, false)
     else (Err (ListsChanged REASON_REFUSED_STREAM), true)).
Proof.
  split; [|split].
  - intros uri_host uri_port by_ s' response task Hu Hb. unfold connect. rewrite Hu.
    destruct (domain_blocked_by _ _ _) as [ctx b]. simpl in Hb. subst b.
    destruct (blocked_slot _ _ _ _ _) as [[s1 [|]]|]; [| |done]; intros [= <- <- <-]; [by right|by left].
  - intros first answers host port wait attempt by_ hello buffer rest s' p Hh name Hn Hb. unfold plan. rewrite Hh.
    intros [= Hp]. unfold plan_hello in Hp. fold name in Hp. rewrite Hn in Hp. cbn [negb] in Hp.
    destruct (domain_blocked_by _ _ _) as [ctx b]. simpl in Hb. subst b. by apply blocked_plan_only_blocks in Hp.
  - intros ctx' headers id ds _. unfold sink_answer, lists_changed. cbn [blocked_list].
    destruct (ctx_domains ctx') as [[id' ds']|]; cbn [fmap option_fmap option_map fst].
    + destruct (Nat.eqb_spec id' id) as [->|Hne]; cbn [negb].
      * rewrite bool_decide_true by done. f_equal. unfold answer_on_blocked_connection. by destruct (Destination_of headers).
      * rewrite bool_decide_false by (intros [= ->]; done). done.
    + by rewrite bool_decide_false.
Qed.

(** What a task to inspect says about the [CONNECT]. *)
Lemma connect_inspects s uri now wall waits s1 response host port :
  connect s uri now wall waits = Some (s1, response, Some (InspectTask host port)) →
  (domain_blocked_by (ps_ctx s) host wall).2 = None ∧ classify (ctx_policy (ps_ctx s)) host wall = Intercept.
Proof.
  unfold connect. destruct (uri_authority uri) as [[uri_host uri_port]|]; [|done].
  pose proof (domain_blocked_by_policy (ps_ctx s) (bare_host uri_host) wall) as Hpol.
  destruct (domain_blocked_by (ps_ctx s) (bare_host uri_host) wall) as [ctx [by_|]] eqn:Hd.
  { destruct (blocked_slot _ _ _ _ _) as [[? [|]]|]; done. }
  cbn [fst ps_ctx with_ctx] in *. rewrite Hpol. destruct (classify (ctx_policy (ps_ctx s)) (bare_host uri_host) wall) as [|reason] eqn:Hcl.
  - intros [= _ _ <- _]. by rewrite Hd.
  - destruct (passthrough_slot _) as [? [|]]; done.
Qed.
(** What a plan to intercept says about the ClientHello. *)
Lemma plan_hello_intercepts s hello host port now wall waits wait attempt s' origin leaf :
  plan_hello s hello host port now wall waits wait attempt = Some (s', PlanIntercept origin leaf) →
  origin = {| o_name := default host (server_name hello); o_host := host; o_port := port |} ∧
  offers_http hello = true ∧ low_memory s = None ∧
  (eq_ignore_ascii_case (o_name origin) host = true ∨
   (domain_blocked_by (ps_ctx s) (o_name origin) wall).2 = None ∧
   classify (ctx_policy (ps_ctx s)) (o_name origin) wall = Intercept).
Proof.
  unfold plan_hello. set (name := default host (server_name hello)).
  assert (∀ s1, low_memory s1 = low_memory s →
    Some (plan_intercept s1 hello name host port now wall wait attempt) = Some (s', PlanIntercept origin leaf) →
    origin = {| o_name := name; o_host := host; o_port := port |} ∧ offers_http hello = true ∧ low_memory s = None) as Hgo.
  { intros s1 <-. unfold plan_intercept. destruct (offers_http hello); [|done]. cbn [negb]. destruct (low_memory s1); [done|].
    destruct (intercept_slot s1 now wait) as [s2 [|]]; cbn [negb]; [|done].
    destruct (state_leaf s2 name wall attempt) as [s4 [l|e]]; intros [= _ <- _]. done. }
  destruct (eq_ignore_ascii_case name host) eqn:He; cbn [negb].
  { intros Hp. destruct (Hgo s eq_refl Hp) as (-> & ? & ?). split_and!; try done. by left. }
  pose proof (domain_blocked_by_policy (ps_ctx s) name wall) as Hpol.
  destruct (domain_blocked_by (ps_ctx s) name wall) as [ctx [by_|]] eqn:Hd.
  { intros Hp. apply blocked_plan_only_blocks in Hp as [?|(? & ? & _)]; done. }
  cbn [fst ps_ctx with_ctx] in *. rewrite Hpol. destruct (classify (ctx_policy (ps_ctx s)) name wall) eqn:Hcl; [|done].
  intros Hp. destruct (Hgo (with_ctx s ctx) eq_refl Hp) as (-> & ? & ?). split_and!; try done. right. cbn [o_name]. by rewrite Hd.
Qed.

(** C2: A connection is intercepted only where that is allowed. When a [CONNECT] leads to
    interception: its host was neither on the DNS blocklist nor passed through when it was
    answered; the site's name, when it is not that host, was neither of them when the first
    bytes came; the client offered HTTP, memory was not low, and the origin dials the [CONNECT]
    host. *)
Theorem intercepted_only_when_allowed (s s1 s2 s3 : ProxyState) (uri : Uri) (now wall now' wall' : Z) (waits waits' : list SlotWait)
    (wait : SlotWait) response host port first answers attempt origin leaf buffer rest :
  connect s uri now wall waits = Some (s1, response, Some (InspectTask host port)) →
  plan s2 first answers host port now' wall' waits' wait attempt = (Some (s3, PlanIntercept origin leaf), buffer, rest) →
  o_host origin = host ∧ o_port origin = port ∧
  (domain_blocked_by (ps_ctx s) host wall).2 = None ∧ classify (ctx_policy (ps_ctx s)) host wall = Intercept ∧
  (∃ hello, read_hello first answers = (Ok hello, buffer, rest) ∧ offers_http hello = true ∧
     o_name origin = default host (server_name hello)) ∧
  (eq_ignore_ascii_case (o_name origin) host = true ∧ classify (ctx_policy (ps_ctx s)) (o_name origin) wall = Intercept ∨
   (domain_blocked_by (ps_ctx s2) (o_name origin) wall').2 = None ∧
   classify (ctx_policy (ps_ctx s2)) (o_name origin) wall' = Intercept) ∧
  low_memory s2 = None.
Proof.
  intros Hc Hp. apply connect_inspects in Hc as [Hdb Hcl]. unfold plan in Hp.
  destruct (read_hello first answers) as [[[hello|[|]] buffer'] rest'] eqn:Hr;
    [injection Hp as Hp <- <-|discriminate Hp|discriminate Hp].
  apply plan_hello_intercepts in Hp as (-> & Hoff & Hmem & Hname). cbn [o_host o_port o_name].
  split_and!; try done; [by eauto|]. destruct Hname as [He|Hname]; [left|by right].
  split; [done|]. by rewrite (classify_ignores_case _ _ host).
Qed.

(** ** A blocked host is answered in time *)

(** The timers of the turns fire no earlier than they should. *)
Fixpoint timely (now deadline : Z) (waits : list SlotWait) : Prop :=
  match waits with
  | [] => True
  | w :: waits' => sw_granted w = true ∨ Z.min deadline (now + BLOCKED_SLOT_RETRY) <= sw_now w ∧ timely (sw_now w) deadline waits'
  end.

Lemma blocked_slot_loop_answers n waits s now deadline asked : timely now deadline waits → (n ≤ length waits)%nat →
  deadline <= now + Z.of_nat n * BLOCKED_SLOT_RETRY → (0 < n)%nat →
  ∃ s' granted, blocked_slot_loop waits s now deadline asked = Some (s', granted) ∧
    (granted = false → ∃ k, (0 < k ≤ n)%nat ∧ Forall (λ w, sw_granted w = false) (take k waits)).
Proof.
  revert waits s now asked. induction n as [|n IH]; intros waits s now asked Ht Hl Hd Hn; [lia|].
  destruct waits as [|w waits]; [simpl in Hl; lia|]. cbn [blocked_slot_loop].
  destruct (if match asked with None => true | Some id => _ end then _ else _) as [s1 asked1].
  destruct (sw_granted w) eqn:Hg; [eexists _, _; split; [done|]; done|].
  destruct (Z.leb_spec deadline (Z.min deadline (now + BLOCKED_SLOT_RETRY))) as [Hle|Hlt].
  { eexists _, _. split; [done|]. intros _. exists 1%nat. split; [lia|]. by repeat constructor. }
  cbn [timely] in Ht. destruct Ht as [?|[Hw Ht]]; [congruence|]. unfold BLOCKED_SLOT_RETRY in *.
  destruct n as [|n]; [lia|].
  destruct (IH waits (sw_others w s1) (sw_now w) asked1 Ht) as (s' & granted & Hr & Hgr); [simpl in Hl; lia|lia|lia|].
  exists s', granted. split; [done|]. intros Hf. destruct (Hgr Hf) as (k & Hk & Ha).
  exists (S k). split; [lia|]. cbn [take]. by constructor.
Qed.

(** A blocked host is answered in time. When the timers work, the wait for a slot is over
    after fifteen turns at most ([BLOCKED_SLOT_WAIT] in steps of [BLOCKED_SLOT_RETRY]), with a
    slot or without; the host is refused only when the policy passes it through, memory is
    low, or every slot was taken and no permit came in any turn; and in the first two cases
    always, without touching anything. *)
Theorem blocked_host_answered_in_time (s : ProxyState) (name : bytes) (now wall : Z) (waits : list SlotWait) :
  timely now (now + BLOCKED_SLOT_WAIT) waits → (15 ≤ length waits)%nat →
  ∃ s' granted, blocked_slot s name now wall waits = Some (s', granted) ∧
  (granted = false → is_passthrough (classify (ctx_policy (ps_ctx s)) name wall) = true ∨ is_Some (low_memory s) ∨
     blocked_slots s = 0%nat ∧ ∃ k, (0 < k ≤ 15)%nat ∧ Forall (λ w, sw_granted w = false) (take k waits)) ∧
  (is_passthrough (classify (ctx_policy (ps_ctx s)) name wall) = true ∨ is_Some (low_memory s) → granted = false ∧ s' = s).
Proof.
  intros Ht Hl. unfold blocked_slot.
  destruct (is_passthrough (classify (ctx_policy (ps_ctx s)) name wall)) eqn:Hp.
  { eexists _, _. split; [done|]. split; [by left|done]. }
  destruct (low_memory s) as [m|] eqn:Hm.
  { eexists _, _. split; [done|]. split; [right; left; eauto|done]. }
  destruct (blocked_slots s) as [|free] eqn:Hb.
  - destruct (blocked_slot_loop_answers 15 waits s now (now + BLOCKED_SLOT_WAIT) None Ht Hl) as (s' & granted & Hr & Hg);
      [unfold BLOCKED_SLOT_WAIT, BLOCKED_SLOT_RETRY; lia|lia|].
    exists s', granted. split; [done|]. split; [intros Hf; right; right; split; [done|by apply Hg]|].
    intros [?|[? ?]]; congruence.
  - eexists _, _. split; [done|]. split; [done|]. intros [?|[? ?]]; congruence.
Qed.
End props.

(** ** Runs *)

(** A ClientHello is a byte of the record type, two of the version and the name. *)
Definition example_acceptor : Acceptor.
Proof.
  refine {| acceptor := bytes; acceptor_default := []; read_tls a bs := (a ++ bs, Ok (length bs));
            accept a := (a, Ok (if (3 <? length a)%nat then Some {| server_name := Some (drop 3 a); alpn := [] |} else None)) |}.
  by intros a bs a' n [= _ <-].
Defined.
Definition example_state (ctx : @ProxyContext example_adblock) : @ProxyState example_adblock example_issuing list_lru :=
  @Build_ProxyState example_adblock example_issuing list_lru ctx 1 1 1 ∅ [] [] (lru_new LEAF_CACHE_SIZE) None.
Definition no_wait : @SlotWait example_adblock example_issuing list_lru :=
  @Build_SlotWait example_adblock example_issuing list_lru 0 id false.
Definition example_uri (host : string) : @Uri example_http := (lit "", Some (lit host, None), []).

Definition disabled (ctx : @ProxyContext example_adblock) : @ProxyContext example_adblock :=
  @Build_ProxyContext example_adblock {| mitm_enabled := false; user := user (ctx_policy ctx); allowlist := allowlist (ctx_policy ctx);
    learning := learning (ctx_policy ctx) |} (ctx_filter ctx) (ctx_domains ctx) (ctx_stats ctx) (ctx_events ctx).

Lemma blocked_host_is_never_dialed_witness :
  let s := example_state (disabled (example_context (example_list "||ads.example^") [])) in
  ∃ s' response task,
    connect (H := example_http) s (example_uri "x.ads.example") 0 5 [] = Some (s', response, task) ∧
    task ≠ Some (InspectTask (lit "x.ads.example") 443).
Proof.
  intros s. destruct (connect (H := example_http) s (example_uri "x.ads.example") 0 5 []) as [[[s' response] task]|] eqn:Hc.
  2:{ exfalso. revert Hc. unfold connect. cbn [uri_authority example_http example_uri fst snd].
      assert ((domain_blocked_by (ps_ctx s) (bare_host (lit "x.ads.example")) 5).2 = Some {| blocked_list := 0 |}) as Hd
        by (vm_compute; reflexivity).
      pose proof (domain_blocked_by_policy (ps_ctx s) (bare_host (lit "x.ads.example")) 5) as Hp.
      destruct (domain_blocked_by _ _ _) as [ctx by_]. cbn [snd fst] in Hd, Hp. subst by_.
      unfold blocked_slot, classify. cbn [ps_ctx with_ctx]. rewrite Hp. discriminate. }
  exists s', response, task. split; [reflexivity|].
  destruct (proj1 (@blocked_host_is_never_dialed example_http example_adblock example_issuing list_lru example_acceptor s
    (example_uri "x.ads.example") 0 5 []) (lit "x.ads.example") None {| blocked_list := 0 |} s' response task) as [[_ ->]|[_ ->]];
    [reflexivity|vm_compute; reflexivity|exact Hc|discriminate|discriminate].
Defined.

(** The bundled list does not cover the example's site, so an empty policy intercepts it. *)
Lemma example_classify now : classify (example_policy []) (lit "site.example") now = Intercept.
Proof.
  unfold classify. rewrite (BUNDLED_SET_covers (lit "site.example")) by reflexivity.
  replace (list_covers Bundled.bundled_passthrough (lit "site.example")) with false by (vm_compute; reflexivity).
  vm_compute. reflexivity.
Qed.
Lemma example_connect : connect (H := example_http) (example_state (example_context None [])) (example_uri "site.example") 0 5 []
  = Some (example_state (example_context None []), status (H := example_http) 200, Some (InspectTask (lit "site.example") 443)).
Proof.
  unfold connect. cbn [uri_authority example_http example_uri fst snd]. change (bare_host (lit "site.example")) with (lit "site.example").
  replace (domain_blocked_by (ps_ctx (example_state (example_context None []))) (lit "site.example") 5)
    with (example_context None [], @None BlockedBy) by (vm_compute; reflexivity).
  cbn [ctx_policy ps_ctx with_ctx example_state example_context]. rewrite example_classify. reflexivity.
Qed.
Definition example_hello : bytes := [0x16; 3; 1] ++ lit "site.example".
Lemma example_plan : ∃ s leaf,
  plan (H4 := example_acceptor) (example_state (example_context None [])) (Some (Ok [0x16])) [Ok (drop 1 example_hello)]
    (lit "site.example") 443 0 5 [] no_wait 0
  = (Some (s, PlanIntercept {| o_name := lit "site.example"; o_host := lit "site.example"; o_port := 443 |} leaf), example_hello, []).
Proof.
  assert (read_hello (H4 := example_acceptor) (Some (Ok [0x16])) [Ok (drop 1 example_hello)] =
    (Ok {| server_name := Some (lit "site.example"); alpn := [] |}, example_hello, [])) as Hr by (vm_compute; reflexivity).
  eexists _, _. unfold plan. rewrite Hr. unfold plan_hello. cbn [server_name from_option id].
  replace (eq_ignore_ascii_case (lit "site.example") (lit "site.example")) with true by (vm_compute; reflexivity).
  cbn. reflexivity.
Qed.

Lemma intercepted_only_when_allowed_witness :
  (domain_blocked_by (example_context None []) (lit "site.example") 5).2 = None ∧
  classify (ctx_policy (example_context None [])) (lit "site.example") 5 = Intercept.
Proof.
  destruct example_plan as (s & leaf & Hp).
  destruct (@intercepted_only_when_allowed example_http example_adblock example_issuing list_lru example_acceptor
    _ _ _ s _ 0 5 0 5 [] [] no_wait _ _ _ _ _ 0 _ leaf _ _ example_connect Hp) as (_ & _ & Hd & Hc & _).
  split; [exact Hd|exact Hc].
Defined.

Lemma blocked_host_answered_in_time_witness :
  let waits := (λ k, @Build_SlotWait example_adblock example_issuing list_lru (10 * Z.of_nat (S k)) id false) <$> seq 0 15 in
  ∃ s' granted, blocked_slot (example_state (disabled (example_context None []))) (lit "site.example") 0 5 waits = Some (s', granted).
Proof.
  intros waits.
  destruct (@blocked_host_answered_in_time example_adblock example_issuing list_lru
    (example_state (disabled (example_context None []))) (lit "site.example") 0 5 waits) as (s' & granted & Hr & _).
  - vm_compute. repeat (right; split; [discriminate|]). exact I.
  - vm_compute. lia.
  - exists s', granted. exact Hr.
Defined.
