(* ===== verification/Outbound.v ===== *)
(** * Sending a request upstream ([mitm/src/upstream.rs]: [send] and the forms of a request)

    [send] asks the pool for a connection and sends the request on it, at most twice. What the
    pool hands out and what a connection does with a request are arguments. [connect_tcp] gets
    the resolver's addresses and what each connection attempt does. *)
From S2P Require Import Prelude RustStr Collections Net Io Http UpstreamError Engine Filtering Request.

Definition MAX_ADDRESSES : nat := 2.

Inductive Method := GET | HEAD | OPTIONS | OtherMethod (name : bytes).
#[global] Instance Method_eq_dec : EqDecision Method.
Proof. solve_decision. Defined.

Inductive Protocol := Http1 | Http2.
#[global] Instance Protocol_eq_dec : EqDecision Protocol.
Proof. solve_decision. Defined.

(** Where a connection came from: [Pooled], or [New] with whether a fatal alert was read on it
    after the server asked for a client certificate. *)
Inductive Checkout := Pooled | New (cert_rejection : bool).

Section outbound.
Context `{HttpCrate}.

(** A request with its method and whether its body is known to be empty. *)
Record Outgoing := {
  out_method : Method;
  out_request : HttpRequest;
  out_empty : bool
}.
Definition path_and_query (uri : Uri) : bytes := default (lit "/") (uri_path_and_query uri).
Definition with_request (out : Outgoing) (request : HttpRequest) : Outgoing :=
  {| out_method := out_method out; out_request := request; out_empty := out_empty out |}.

Definition replayable (out : Outgoing) : option Outgoing :=
  match out_method out with
  | GET | HEAD | OPTIONS => if out_empty out then Some out else None
  | OtherMethod _ => None
  end.

Definition for_http1 (request : HttpRequest) (target : Target) : HttpRequest :=
  let uri := default (req_uri request) (uri_parse (path_and_query (req_uri request))) in
  let headers := join_cookies (strip_hop_by_hop (req_headers request)) in
  let headers := match value_from_bytes (Target_authority target) with
                 | Some host => hm_insert headers (lit "host") host | None => headers end in
  {| req_version := HTTP_11; req_uri := uri; req_headers := headers; req_body := req_body request |}.
(** The client asks for trailers. *)
Definition wants_trailers (headers : HeaderMap) : bool :=
  match hm_get headers (lit "te") with
  | Some te => eq_ignore_ascii_case te (lit "trailers") | None => false
  end.
Definition for_http2 (request : HttpRequest) (target : Target) : HttpRequest :=
  let url := Target_scheme target ++ lit "://" ++ Target_authority target ++ path_and_query (req_uri request) in
  let uri := default (req_uri request) (uri_parse url) in
  let headers := req_headers request in
  let trailers := wants_trailers headers in
  let headers := hm_remove (strip_hop_by_hop headers) (lit "host") in
  let headers := if trailers then hm_insert headers (lit "te") (lit "trailers") else headers in
  {| req_version := HTTP_2; req_uri := uri; req_headers := headers; req_body := req_body request |}.

(** What a connection did with a request: answered, or failed, with the message back when it
    was not sent. *)
Record SendFailure := { sf_unsent : option HttpRequest; sf_error : UpstreamError }.
Definition for_connection (protocol : Protocol) (request : HttpRequest) (target : Target) : HttpRequest :=
  match protocol with Http1 => for_http1 request target | Http2 => for_http2 request target end.

(** The loop of [send]: the attempts made, and the result once it has one. [checkout fresh n]
    is what the pool hands out for the [n]th attempt, [attempt n] what the connection does. *)
Fixpoint send_loop (fuel : nat) (n : nat) (target : Target) (checkout : bool → nat → result (Protocol * Checkout) UpstreamError)
    (attempt : nat → HttpRequest → result HttpResponse SendFailure) (out : Outgoing) (replay : option Outgoing) (fresh_only : bool)
    : list (Protocol * HttpRequest) * option (result HttpResponse UpstreamError) :=
  match fuel with
  | O => ([], None)
  | S fuel' =>
      match checkout fresh_only n with
      | Err e => ([], Some (Err e))
      | Ok (protocol, from) =>
          let request := for_connection protocol (out_request out) target in
          let go_on out replay :=
            let '(made, r) := send_loop fuel' (S n) target checkout attempt out replay true in ((protocol, request) :: made, r) in
          match attempt n request with
          | Ok response => ([(protocol, request)], Some (Ok response))
          | Err failed =>
              let fail_with :=
                ([(protocol, request)],
                 Some (Err (match from with New true => ClientCertificate (sf_error failed) | _ => sf_error failed end))) in
              match from with
              | Pooled =>
                  match sf_unsent failed with
                  | Some unsent => go_on (with_request out unsent) replay
                  | None => match replay with
                            | Some copy => go_on copy None
                            | None => fail_with
                            end
                  end
              | New _ => fail_with
              end
          end
      end
  end.
Definition send (target : Target) (checkout : bool → nat → result (Protocol * Checkout) UpstreamError)
    (attempt : nat → HttpRequest → result HttpResponse SendFailure) (out : Outgoing)
    : list (Protocol * HttpRequest) * option (result HttpResponse UpstreamError) :=
  send_loop 2 0 target checkout attempt out (replayable out) false.

(** ** Facts *)

Lemma for_http1_headers request target name : is_Some (value_from_bytes (Target_authority target)) →
  (length (hm_get_all (strip_hop_by_hop (req_headers request)) (lit "cookie")) ≤ 1)%nat ∨
  is_Some (value_from_bytes (join_with (lit "; ") (hm_get_all (strip_hop_by_hop (req_headers request)) (lit "cookie")))) →
  hm_get_all (req_headers (for_http1 request target)) name =
  if decide (name = lit "host") then [Target_authority target]
  else if decide (name ∈ HOP_BY_HOP ∨ name ∈ connection_names (req_headers request)) then []
  else if decide (name = lit "cookie") then
    match hm_get_all (req_headers request) (lit "cookie") with [] => [] | l => [join_with (lit "; ") l] end
  else hm_get_all (req_headers request) name.
Proof.
  intros [host Hhost] Hc. cbn [for_http1 req_headers]. rewrite Hhost, hm_get_all_insert.
  apply value_from_bytes_same in Hhost as ->. case_decide as Hn; [done|].
  destruct (decide (name = lit "cookie")) as [->|Hne].
  - rewrite join_cookies_one by done. rewrite strip_hop_by_hop_get. by case_decide.
  - rewrite join_cookies_other by done. apply strip_hop_by_hop_get.
Qed.
Lemma for_http2_headers request target name :
  hm_get_all (req_headers (for_http2 request target)) name =
  if wants_trailers (req_headers request) && bool_decide (name = lit "te") then [lit "trailers"]
  else if decide (name = lit "host" ∨ name ∈ HOP_BY_HOP ∨ name ∈ connection_names (req_headers request)) then []
  else hm_get_all (req_headers request) name.
Proof.
  cbn [for_http2 req_headers]. assert (hm_get_all (hm_remove (strip_hop_by_hop (req_headers request)) (lit "host")) name =
    if decide (name = lit "host" ∨ name ∈ HOP_BY_HOP ∨ name ∈ connection_names (req_headers request)) then []
    else hm_get_all (req_headers request) name) as Hr.
  { rewrite hm_get_all_remove, strip_hop_by_hop_get. repeat case_decide; try done; naive_solver. }
  destruct (wants_trailers _); cbn [andb]; [|done]. rewrite hm_get_all_insert.
  destruct (decide (name = lit "te")) as [->|Hne]; [by rewrite bool_decide_true|by rewrite bool_decide_false].
Qed.

(** What a server gets of a request. Over HTTP/1.1: one [Host] header with the target's
    authority, the cookies in one header, no hop-by-hop header, and every other header as the
    client sent it. Over HTTP/2: no [Host], no hop-by-hop header except [TE: trailers] when the
    client asked for it, and every other header as sent. *)
Theorem forwarded_headers_exact (request : HttpRequest) (target : Target) (name : bytes) :
  value_from_bytes (Target_authority target) = Some (Target_authority target) →
  (let cookies := hm_get_all (strip_hop_by_hop (req_headers request)) (lit "cookie") in
   (length cookies ≤ 1)%nat ∨ is_Some (value_from_bytes (join_with (lit "; ") cookies))) →
  hm_get_all (req_headers (for_http1 request target)) name =
    (if decide (name = lit "host") then [Target_authority target]
     else if decide (name ∈ HOP_BY_HOP ∨ name ∈ connection_names (req_headers request)) then []
     else if decide (name = lit "cookie") then
       match hm_get_all (req_headers request) (lit "cookie") with [] => [] | l => [join_with (lit "; ") l] end
     else hm_get_all (req_headers request) name) ∧
  hm_get_all (req_headers (for_http2 request target)) name =
    (if wants_trailers (req_headers request) && bool_decide (name = lit "te") then [lit "trailers"]
     else if decide (name = lit "host" ∨ name ∈ HOP_BY_HOP ∨ name ∈ connection_names (req_headers request)) then []
     else hm_get_all (req_headers request) name).
Proof.
  intros Hh Hc. split; [|apply for_http2_headers]. apply for_http1_headers; [by eauto|done].
Qed.

(** ** Retrying *)

(** One turn of the loop. *)
Lemma send_loop_turn fuel n target checkout attempt out replay fresh_only :
  send_loop (S fuel) n target checkout attempt out replay fresh_only =
  match checkout fresh_only n with
  | Err e => ([], Some (Err e))
  | Ok (protocol, from) =>
      let request := for_connection protocol (out_request out) target in
      let go_on out replay :=
        let '(made, r) := send_loop fuel (S n) target checkout attempt out replay true in ((protocol, request) :: made, r) in
      match attempt n request with
      | Ok response => ([(protocol, request)], Some (Ok response))
      | Err failed =>
          match from, sf_unsent failed, replay with
          | Pooled, Some unsent, _ => go_on (with_request out unsent) replay
          | Pooled, None, Some copy => go_on copy None
          | _, _, _ =>
              ([(protocol, request)],
               Some (Err (match from with New true => ClientCertificate (sf_error failed) | _ => sf_error failed end)))
          end
      end
  end.
Proof.
  cbn [send_loop]. destruct (checkout fresh_only n) as [[protocol from]|e]; [|done].
  destruct (attempt n _) as [response|failed]; [done|]. by destruct from, (sf_unsent failed), replay.
Qed.

(** The second attempt is the last. *)
Lemma send_second target checkout attempt out replay :
  (∀ n protocol from, checkout true n = Ok (protocol, from) → from ≠ Pooled) →
  ∃ made r, send_loop 1 1 target checkout attempt out replay true = (made, Some r) ∧
    (made = [] ∨ ∃ p, made = [(p, for_connection p (out_request out) target)]).
Proof.
  intros Hfresh. rewrite send_loop_turn. destruct (checkout true 1%nat) as [[p from]|e] eqn:Hc; [|by eauto 10].
  apply Hfresh in Hc. cbv zeta. destruct (attempt 1%nat _) as [response|failed]; [by eauto 10|]. destruct from; [done|]. by eauto 10.
Qed.

(** C33: A request is sent twice at most, and a second time only where that is safe. When new
    connections are asked for the pool hands out new ones: then [send] always has a result;
    it makes two attempts at most; the second follows an attempt on a pooled connection, and
    sends the message which that connection gave back unsent, or a copy of a request with a
    safe method and no body. *)
Theorem send_retries_safely (target : Target) checkout attempt (out : Outgoing) :
  (∀ n protocol from, checkout true n = Ok (protocol, from) → from ≠ Pooled) →
  let '(made, r) := send target checkout attempt out in
  (∃ answer, r = Some answer) ∧ (length made ≤ 2)%nat ∧
  (∀ p1 r1, made !! 0%nat = Some (p1, r1) → r1 = for_connection p1 (out_request out) target) ∧
  (∀ p1 r1 p2 r2, made !! 0%nat = Some (p1, r1) → made !! 1%nat = Some (p2, r2) →
     checkout false 0%nat = Ok (p1, Pooled) ∧ ∃ failed, attempt 0%nat r1 = Err failed ∧
     ((∃ unsent, sf_unsent failed = Some unsent ∧ r2 = for_connection p2 unsent target) ∨
      (sf_unsent failed = None ∧ out_empty out = true ∧ out_method out ∈ [GET; HEAD; OPTIONS] ∧
       r2 = for_connection p2 (out_request out) target))).
Proof.
  intros Hfresh. unfold send. rewrite send_loop_turn. cbv zeta.
  destruct (checkout false 0%nat) as [[p from]|e] eqn:Hc; [|by split_and!; eauto].
  set (r0 := for_connection p (out_request out) target).
  destruct (attempt 0%nat r0) as [response|failed] eqn:Ha.
  { split_and!; [by eauto|simpl; lia|by intros p1 r1 [= <- <-]|by intros ? ? ? ? _ [=]]. }
  destruct from as [|cert]; [|split_and!; [by eauto|simpl; lia|by intros p1 r1 [= <- <-]|by intros ? ? ? ? _ [=]]].
  destruct (sf_unsent failed) as [unsent|] eqn:Hu; [|destruct (replayable out) as [copy|] eqn:Hr].
  - destruct (send_second target checkout attempt (with_request out unsent) (replayable out) Hfresh) as (made & r & -> & Hm).
    split; [by eauto|]. split; [destruct Hm as [->|[? ->]]; simpl; lia|]. split; [by intros p1 r1 [= <- <-]|].
    intros p1 r1 p2 r2 [= <- <-] H2. split; [done|]. exists failed. split; [done|]. left. exists unsent. split; [done|].
    destruct Hm as [->|[p2' ->]]; [done|]. by injection H2 as <- <-.
  - assert (copy = out ∧ out_empty out = true ∧ out_method out ∈ [GET; HEAD; OPTIONS]) as (-> & He & Hmeth).
    { unfold replayable in Hr. destruct (out_method out) eqn:Hm; try done;
        (destruct (out_empty out); [|done]); injection Hr as <-; (split_and!; [done|done|]); set_solver. }
    destruct (send_second target checkout attempt out None Hfresh) as (made & r & -> & Hm).
    split; [by eauto|]. split; [destruct Hm as [->|[? ->]]; simpl; lia|]. split; [by intros p1 r1 [= <- <-]|].
    intros p1 r1 p2 r2 [= <- <-] H2. split; [done|]. exists failed. split; [done|]. right. split_and!; try done.
    destruct Hm as [->|[p2' ->]]; [done|]. by injection H2 as <- <-.
  - split_and!; [by eauto|simpl; lia|by intros p1 r1 [= <- <-]|by intros ? ? ? ? _ [=]].
Qed.
End outbound.

(** ** Opening a connection *)

(** [attempt ip] is a connection to one address within [ADDRESS_TIMEOUT], if it came; [system]
    is what connecting with the system resolver gives. *)
Section tcp.
Context {Tcp : Type}.
Fixpoint try_addresses (attempt : IpAddr → option Tcp) (addresses : list IpAddr) : option Tcp :=
  match addresses with
  | [] => None
  | ip :: addresses' => match attempt ip with Some tcp => Some tcp | None => try_addresses attempt addresses' end
  end.
Definition connect_tcp (resolver : option (bytes → list IpAddr)) (host : bytes) (attempt : IpAddr → option Tcp)
    (system : result Tcp ErrorKind) : result Tcp ErrorKind :=
  match resolver with
  | Some lookup =>
      if bool_decide (IpAddr_parse host = None) then
        match try_addresses attempt (take MAX_ADDRESSES (lookup host)) with
        | Some tcp => Ok tcp
        | None => system
        end
      else system
  | None => system
  end.

(** Only the resolver's first two addresses are tried, in order; an address is never looked up. *)
Lemma connect_tcp_in_order lookup host attempt system :
  connect_tcp (Some lookup) host attempt system =
  match IpAddr_parse host, lookup host with
  | None, a :: b :: _ => match attempt a, attempt b with Some t, _ => Ok t | None, Some t => Ok t | None, None => system end
  | None, [a] => match attempt a with Some t => Ok t | None => system end
  | _, _ => system
  end.
Proof.
  unfold connect_tcp. destruct (IpAddr_parse host); [done|]. rewrite bool_decide_true by done.
  destruct (lookup host) as [|a [|b l]]; cbn; [done|by destruct (attempt a)|].
  destruct (attempt a); [done|]. rewrite take_0. by destruct (attempt b).
Qed.
End tcp.

(** ** Runs *)

Definition example_target : Target := {| t_tls := true; t_host := lit "192.0.2.1"; t_port := 8443; t_server_name := lit "site.example" |}.
Definition example_sent : @HttpRequest example_http :=
  @Build_HttpRequest example_http HTTP_2 (lit "https", None, lit "/a")
    [(lit "te", lit "Trailers"); (lit "cookie", lit "a=1"); (lit "cookie", lit "b=2"); (lit "accept", lit "*/*")] 0%nat.
Lemma forwarded_headers_exact_witness :
  hm_get_all (HttpCrate := example_http) (req_headers (for_http1 (H := example_http) example_sent example_target)) (lit "cookie")
    = [lit "a=1; b=2"] ∧
  hm_get_all (HttpCrate := example_http) (req_headers (for_http2 (H := example_http) example_sent example_target)) (lit "te")
    = [lit "trailers"].
Proof.
  split.
  - rewrite (proj1 (@forwarded_headers_exact example_http example_sent example_target (lit "cookie") eq_refl
      (or_intror (@mk_is_Some _ _ _ eq_refl)))). vm_compute. reflexivity.
  - rewrite (proj2 (@forwarded_headers_exact example_http example_sent example_target (lit "te") eq_refl
      (or_intror (@mk_is_Some _ _ _ eq_refl)))). vm_compute. reflexivity.
Defined.

Lemma send_retries_safely_witness :
  let checkout fresh (n : nat) := Ok (Http1, if fresh : bool then New false else Pooled) in
  let attempt (n : nat) (r : @HttpRequest example_http) : result (@HttpResponse example_http) (@SendFailure example_http) :=
    match n with
    | O => Err (@Build_SendFailure example_http None (Http true None))
    | _ => Ok (@status example_http 204)
    end in
  (length (send (H := example_http) example_target checkout attempt
    (@Build_Outgoing example_http GET example_sent true)).1 ≤ 2)%nat.
Proof.
  intros checkout attempt.
  pose proof (@send_retries_safely example_http example_target checkout attempt (@Build_Outgoing example_http GET example_sent true)) as Hp.
  destruct (send _ _ _ _) as [made r]. apply Hp. intros n protocol from [= _ <-]. discriminate.
Defined.
