(* ===== verification/Pool.v ===== *)
(** * The upstream pool ([mitm/src/upstream.rs]: [Host], [Inner], [Pool])

    A connection is a number; whether it is ready or closed is what its socket says at the
    time ([ConnEnv]). Every block of the source that runs under the lock of the hosts is one
    function on [Pool], [hosts_lock] first. [now] is [PoolOptions::clock] in seconds, [at_] is
    tokio's clock in milliseconds. The semaphores' counts are free permits. *)
From S2P Require Import Prelude RustStr Collections Net Io UpstreamError Request Outbound.

Definition STALLED_AFTER : Z := 1000.
Definition H2_STREAM_WINDOW : Z := 128 * 1024.
Definition H2_CONNECTION_WINDOW : Z := 256 * 1024.
(** [(H2_CONNECTION_WINDOW / 2).div_ceil(H2_STREAM_WINDOW)] *)
Definition MAX_STALLED_STREAMS : nat :=
  Z.to_nat ((H2_CONNECTION_WINDOW / 2 + H2_STREAM_WINDOW - 1) / H2_STREAM_WINDOW).

#[global] Instance Target_eq_dec : EqDecision Target.
Proof. solve_decision. Defined.
#[global] Program Instance Target_countable : Countable Target :=
  inj_countable' (λ t, (t_tls t, t_host t, t_port t, t_server_name t))
    (λ x, {| t_tls := x.1.1.1; t_host := x.1.1.2; t_port := x.1.2; t_server_name := x.2 |}) _.
Next Obligation. by intros []. Qed.

(** ** Response bodies *)

(** Milliseconds after [base] plus one when data was handed over, 0 while waiting. *)
Record Progress := { p_handed_over : Z; p_base : Z }.
Definition Progress_new (at_ : Z) : Progress := {| p_handed_over := 1; p_base := at_ |}.
Definition Progress_handed_over (self : Progress) (at_ : Z) : Progress :=
  {| p_handed_over := Z.min (at_ - p_base self) (U64_MAX - 1) + 1; p_base := p_base self |}.
Definition Progress_waiting (self : Progress) : Progress := {| p_handed_over := 0; p_base := p_base self |}.
Definition is_stalled (self : Progress) (at_ : Z) : bool :=
  if p_handed_over self =? 0 then false
  else STALLED_AFTER <=? sat_sub at_ (p_base self + (p_handed_over self - 1)).
(** [Watched::poll_frame]: what the poll gave decides. *)
Definition Watched_poll_frame (self : Progress) (got_data : bool) (at_ : Z) : Progress :=
  if got_data then Progress_handed_over self at_ else Progress_waiting self.

(** The bodies alive on a connection. *)
Definition Streams : Type := list Progress.
Definition stalled (self : Streams) (at_ : Z) : nat := length (filter (λ p, is_stalled p at_ = true) self).

(** ** Hosts *)

Record ConnEnv := {
  is_ready : nat → bool;
  is_closed : nat → bool;
  streams : nat → Streams
}.
Inductive Sender := SendHttp1 (conn : nat) | SendHttp2 (conn : nat).

Record Host := {
  h_protocol : option Protocol;
  h_h2 : option nat;
  (** idle HTTP/1.1 connections and since when, the newest last *)
  h_idle : list (nat * Z);
  h_slots : nat;
  (** checkouts that hold clones of [slots] and [dial] *)
  h_waiting : nat;
  h_dials : Z;
  h_last_dial : option Unreachable;
  h_active : nat;
  h_last_used : Z
}.
Definition Host_new (tls : bool) (max_h1 : nat) (now : Z) : Host :=
  {| h_protocol := if tls then None else Some Http1; h_h2 := None; h_idle := []; h_slots := max_h1; h_waiting := 0;
     h_dials := 0; h_last_dial := None; h_active := 0; h_last_used := now |}.
Definition set_conns (self : Host) (h2 : option nat) (idle : list (nat * Z)) : Host :=
  {| h_protocol := h_protocol self; h_h2 := h2; h_idle := idle; h_slots := h_slots self; h_waiting := h_waiting self;
     h_dials := h_dials self; h_last_dial := h_last_dial self; h_active := h_active self; h_last_used := h_last_used self |}.
Definition set_last_used (self : Host) (now : Z) : Host :=
  {| h_protocol := h_protocol self; h_h2 := h_h2 self; h_idle := h_idle self; h_slots := h_slots self;
     h_waiting := h_waiting self; h_dials := h_dials self; h_last_dial := h_last_dial self; h_active := h_active self;
     h_last_used := now |}.
Definition set_dial (self : Host) (dials : Z) (last_dial : option Unreachable) : Host :=
  {| h_protocol := h_protocol self; h_h2 := h_h2 self; h_idle := h_idle self; h_slots := h_slots self;
     h_waiting := h_waiting self; h_dials := dials; h_last_dial := last_dial; h_active := h_active self;
     h_last_used := h_last_used self |}.
Definition set_proto (self : Host) (protocol : option Protocol) (h2 : option nat) : Host :=
  {| h_protocol := protocol; h_h2 := h2; h_idle := h_idle self; h_slots := h_slots self; h_waiting := h_waiting self;
     h_dials := h_dials self; h_last_dial := h_last_dial self; h_active := h_active self; h_last_used := h_last_used self |}.
Definition set_active (self : Host) (active : nat) : Host :=
  {| h_protocol := h_protocol self; h_h2 := h_h2 self; h_idle := h_idle self; h_slots := h_slots self;
     h_waiting := h_waiting self; h_dials := h_dials self; h_last_dial := h_last_dial self; h_active := active;
     h_last_used := h_last_used self |}.

(** [while let Some((h1, since)) = self.idle.pop()], on the list newest first. *)
Fixpoint pop_ready (env : ConnEnv) (now idle : Z) (newest_first : list (nat * Z)) : list (nat * Z) * option nat :=
  match newest_first with
  | [] => ([], None)
  | (h1, since) :: older =>
      if is_ready env h1 && (sat_sub now since <? idle) then (older, Some h1) else pop_ready env now idle older
  end.
Definition reuse_idle (env : ConnEnv) (self : Host) (now idle : Z) : Host * option Sender :=
  let '(older, found) := pop_ready env now idle (reverse (h_idle self)) in
  (set_conns self (h_h2 self) (reverse older), SendHttp1 <$> found).
Definition Host_reuse (env : ConnEnv) (self : Host) (now idle at_ : Z) : Host * option Sender :=
  match h_h2 self with
  | Some h2 =>
      let idle_too_long := (h_active self =? 0)%nat && (idle <=? sat_sub now (h_last_used self)) in
      let n := stalled (streams env h2) at_ in
      if is_ready env h2 && negb idle_too_long && (n <? MAX_STALLED_STREAMS)%nat then (self, Some (SendHttp2 h2))
      else reuse_idle env (set_conns self None (h_idle self)) now idle
  | None => reuse_idle env self now idle
  end.
Definition Host_clear (self : Host) : Host := set_dial (set_conns self None []) (h_dials self) None.

(** ** The pool *)

Record Pool := {
  hosts : gmap Target Host;
  resets_seen : Z
}.
Definition Pool_new (resets : Z) : Pool := {| hosts := ∅; resets_seen := resets |}.
Definition with_hosts (self : Pool) (hs : gmap Target Host) : Pool := {| hosts := hs; resets_seen := resets_seen self |}.

(** [Inner::hosts()]; [resets] is the context's count. *)
Definition hosts_lock (self : Pool) (resets : Z) : Pool :=
  if resets_seen self =? resets then self
  else {| hosts := Host_clear <$> hosts self; resets_seen := resets |}.
Definition host_entry (self : Pool) (target : Target) (max_h1 : nat) (now : Z) : Host :=
  default (Host_new (t_tls target) max_h1 now) (hosts self !! target).

(** The first block of [checkout]: a pooled connection, or what the next blocks go on with. *)
Definition checkout_begin (self : Pool) (resets : Z) (env : ConnEnv) (target : Target) (fresh_only : bool)
    (max_h1 : nat) (now idle at_ : Z) : Pool * option Sender :=
  let self := hosts_lock self resets in
  let host := host_entry self target max_h1 now in
  let '(host, reused) := if fresh_only then (host, None) else Host_reuse env host now idle at_ in
  (with_hosts self (<[target := set_last_used host now]> (hosts self)), reused).
(** The block under the dial lock. *)
Inductive DialTurn := TurnReused (s : Sender) | TurnUnreachable (e : UpstreamError) | TurnGoOn (protocol : option Protocol).
Definition checkout_dialing (self : Pool) (resets : Z) (env : ConnEnv) (target : Target) (fresh_only : bool)
    (max_h1 : nat) (dials_before now idle at_ : Z) : Pool * DialTurn :=
  let self := hosts_lock self resets in
  let host := host_entry self target max_h1 now in
  let '(host, reused) := if fresh_only then (host, None) else Host_reuse env host now idle at_ in
  match reused with
  | Some sender => (with_hosts self (<[target := set_last_used host now]> (hosts self)), TurnReused sender)
  | None =>
      (with_hosts self (<[target := host]> (hosts self)),
       match h_last_dial host with
       | Some unreachable =>
           if negb (h_dials host =? dials_before) then TurnUnreachable (Unreachable_error unreachable)
           else TurnGoOn (h_protocol host)
       | None => TurnGoOn (h_protocol host)
       end)
  end.
(** After a dial under the lock. *)
Definition dial_done (self : Pool) (resets : Z) (target : Target) (unreachable : option Unreachable) : Pool :=
  let self := hosts_lock self resets in
  with_hosts self (alter (λ host, set_dial host (h_dials host + 1) unreachable) target (hosts self)).
Definition set_protocol (self : Pool) (resets : Z) (target : Target) (protocol : Protocol) (h2 : option nat) : Pool :=
  let self := hosts_lock self resets in
  with_hosts self (alter (λ host, set_proto host (Some protocol) (match h2 with Some _ => h2 | None => h_h2 host end))
    target (hosts self)).
(** [give_back], once the connection is ready. *)
Definition give_back (self : Pool) (resets : Z) (target : Target) (conn : nat) (now : Z) : Pool :=
  let self := hosts_lock self resets in
  with_hosts self (alter (λ host, set_conns host (h_h2 host) (h_idle host ++ [(conn, now)])) target (hosts self)).
(** [wrap] counts a response, its body's end takes it back. *)
Definition wrap_active (self : Pool) (resets : Z) (target : Target) : Pool :=
  let self := hosts_lock self resets in
  with_hosts self (alter (λ host, set_active host (S (h_active host))) target (hosts self)).
Definition body_done (self : Pool) (target : Target) : Pool :=
  with_hosts self (alter (λ host, set_active host (pred (h_active host))) target (hosts self)).

(** [reap]: one host, [None] when it is forgotten. *)
Definition reap_host (env : ConnEnv) (max_h1 : nat) (now idle : Z) (host : Host) : option Host :=
  let idle_conns := filter (λ c, (sat_sub now c.2 <? idle) && negb (is_closed env c.1) = true) (h_idle host) in
  let h2_idle := (h_active host =? 0)%nat && (idle <=? sat_sub now (h_last_used host)) in
  let h2 := match h_h2 host with
            | Some h2 => if is_closed env h2 || h2_idle then None else Some h2
            | None => None
            end in
  let unused := bool_decide (idle_conns = []) && bool_decide (h2 = None) && (h_active host =? 0)%nat
                && (h_slots host =? max_h1)%nat && (h_waiting host =? 0)%nat in
  if unused then None else Some (set_conns host h2 idle_conns).
Definition reap (self : Pool) (resets : Z) (env : ConnEnv) (max_h1 : nat) (now idle : Z) : Pool :=
  let self := hosts_lock self resets in
  with_hosts self (omap (reap_host env max_h1 now idle) (hosts self)).

(** [evict_one]; [order] is the order in which the hosts are iterated. *)
Definition idle_entries (order : list (Target * Host)) : list (Target * nat * Z) :=
  order ≫= λ '(target, host), imap (λ i c, (target, i, c.2)) (h_idle host).
Definition evict_in (order : list (Target * Host)) (hs : gmap Target Host) : gmap Target Host :=
  match min_by_key snd (idle_entries order) with
  | Some (target, i, _) => alter (λ host, set_conns host (h_h2 host) (delete i (h_idle host))) target hs
  | None =>
      match min_by_key (λ th, h_last_used th.2)
              (filter (λ th, is_Some (h_h2 th.2) ∧ h_active th.2 = 0%nat) order) with
      | Some (target, _) => alter (λ host, set_conns host None (h_idle host)) target hs
      | None => hs
      end
  end.
Definition evict_one (self : Pool) (resets : Z) (order : gmap Target Host → list (Target * Host)) : Pool :=
  let self := hosts_lock self resets in
  with_hosts self (evict_in (order (hosts self)) (hosts self)).
