(* ===== verification/PoolProps.v ===== *)
(** * What the upstream pool promises

    Histories of the pool's operations, with the HTTP/1.1 connections in use beside it: a
    connection is never with two requests, nothing pooled before a reset is handed out after
    it, and which connections are reused, evicted and reaped. *)
From S2P Require Import Prelude RustStr Collections Net Io UpstreamError Request Outbound Pool.

(** ** Histories *)

Record PoolState := {
  pool : Pool;
  resets : Z;
  (** the HTTP/1.1 connections with a request, from the checkout to the end of the body *)
  lent : list nat;
  (** the number of the next connection *)
  next : nat
}.
Inductive pool_event :=
| PReset
| PCheckout (env : ConnEnv) (target : Target) (fresh_only : bool) (max_h1 : nat) (now idle at_ : Z)
| PCheckoutDialing (env : ConnEnv) (target : Target) (fresh_only : bool) (max_h1 : nat) (before now idle at_ : Z)
| PDialDone (target : Target) (unreachable : option Unreachable)
| PNewHttp1 (target : Target)
| PNewHttp2 (target : Target)
| PGiveBack (target : Target) (conn : nat) (now : Z)
| PDropped (conn : nat)
| PWrap (target : Target)
| PBodyDone (target : Target)
| PReap (env : ConnEnv) (max_h1 : nat) (now idle : Z)
| PEvict (order : gmap Target Host → list (Target * Host)).

Definition take_sender (sender : option Sender) (lent : list nat) : list nat :=
  match sender with Some (SendHttp1 conn) => conn :: lent | _ => lent end.
Definition turn_sender (turn : DialTurn) : option Sender := match turn with TurnReused s => Some s | _ => None end.
Definition release (conn : nat) (lent : list nat) : list nat := filter (λ c, c ≠ conn) lent.

(** A connection goes back only when it is in use, and one map is iterated in some order. *)
Definition pool_enabled (st : PoolState) (ev : pool_event) : Prop :=
  match ev with
  | PGiveBack _ conn _ | PDropped conn => conn ∈ lent st
  | PEvict order => ∀ hs, order hs ≡ₚ map_to_list hs
  | _ => True
  end.
(** The state after an event, and the pooled connection it hands out. *)
Definition pool_apply (st : PoolState) (ev : pool_event) : PoolState * option Sender :=
  let '{| pool := p; resets := r; lent := l; next := n |} := st in
  match ev with
  | PReset => ({| pool := p; resets := r + 1; lent := l; next := n |}, None)
  | PCheckout env target fresh_only max_h1 now idle at_ =>
      let '(p, s) := checkout_begin p r env target fresh_only max_h1 now idle at_ in
      ({| pool := p; resets := r; lent := take_sender s l; next := n |}, s)
  | PCheckoutDialing env target fresh_only max_h1 before now idle at_ =>
      let '(p, turn) := checkout_dialing p r env target fresh_only max_h1 before now idle at_ in
      ({| pool := p; resets := r; lent := take_sender (turn_sender turn) l; next := n |}, turn_sender turn)
  | PDialDone target u => ({| pool := dial_done p r target u; resets := r; lent := l; next := n |}, None)
  | PNewHttp1 target =>
      ({| pool := if t_tls target then set_protocol p r target Http1 None else p; resets := r; lent := n :: l; next := S n |}, None)
  | PNewHttp2 target => ({| pool := set_protocol p r target Http2 (Some n); resets := r; lent := l; next := S n |}, None)
  | PGiveBack target conn now => ({| pool := give_back p r target conn now; resets := r; lent := release conn l; next := n |}, None)
  | PDropped conn => ({| pool := p; resets := r; lent := release conn l; next := n |}, None)
  | PWrap target => ({| pool := wrap_active p r target; resets := r; lent := l; next := n |}, None)
  | PBodyDone target => ({| pool := body_done p target; resets := r; lent := l; next := n |}, None)
  | PReap env max_h1 now idle => ({| pool := reap p r env max_h1 now idle; resets := r; lent := l; next := n |}, None)
  | PEvict order => ({| pool := evict_one p r order; resets := r; lent := l; next := n |}, None)
  end.
Inductive pool_run : PoolState → list pool_event → PoolState → Prop :=
| pool_nil st : pool_run st [] st
| pool_cons st ev evs st' : pool_enabled st ev → pool_run (pool_apply st ev).1 evs st' → pool_run st (ev :: evs) st'.
Definition pool_start (r : Z) : PoolState := {| pool := Pool_new r; resets := r; lent := []; next := 0 |}.

(** ** Where connections are *)

Definition host_conns (host : Host) : list nat := (h_idle host).*1.
Definition conns_of (p : Pool) (target : Target) : list nat := default [] (host_conns <$> hosts p !! target).

(** [p'] has no idle connection that [p] has not, at the same host and in the same order. *)
Definition shrinks (p p' : Pool) : Prop := ∀ target, conns_of p' target `sublist_of` conns_of p target.

Lemma shrinks_refl p : shrinks p p.
Proof. by intros target. Qed.
Lemma shrinks_trans p1 p2 p3 : shrinks p1 p2 → shrinks p2 p3 → shrinks p1 p3.
Proof. intros H1 H2 target. etrans; [apply H2|apply H1]. Qed.
Lemma shrinks_hosts p p' : (∀ target host', hosts p' !! target = Some host' →
  host_conns host' `sublist_of` conns_of p target) → shrinks p p'.
Proof.
  intros H target. unfold conns_of at 1. destruct (hosts p' !! target) as [host'|] eqn:E; simpl; [by apply H|].
  apply sublist_nil_l.
Qed.
Lemma conns_of_lookup p target host : hosts p !! target = Some host → conns_of p target = host_conns host.
Proof. unfold conns_of. by intros ->. Qed.

Lemma hosts_lock_shrinks p r : shrinks p (hosts_lock p r).
Proof.
  unfold hosts_lock. destruct (resets_seen p =? r); [apply shrinks_refl|]. apply shrinks_hosts. intros target host'. cbn [hosts].
  rewrite lookup_fmap. intros (host & _ & ->)%fmap_Some. apply sublist_nil_l.
Qed.
Lemma alter_shrinks p f target : (∀ host, host_conns (f host) `sublist_of` host_conns host) →
  shrinks p (with_hosts p (alter f target (hosts p))).
Proof.
  intros Hf. apply shrinks_hosts. intros t host'. cbn [hosts with_hosts]. destruct (decide (t = target)) as [->|Hne].
  - rewrite lookup_alter_eq. intros (host & Hh & ->)%fmap_Some. rewrite (conns_of_lookup _ _ _ Hh). apply Hf.
  - rewrite lookup_alter_ne by done. intros Hh. by rewrite (conns_of_lookup _ _ _ Hh).
Qed.
Lemma insert_shrinks p target host' : host_conns host' `sublist_of` conns_of p target →
  shrinks p (with_hosts p (<[target := host']> (hosts p))).
Proof.
  intros Hf. apply shrinks_hosts. intros t h. cbn [hosts with_hosts]. destruct (decide (t = target)) as [->|Hne].
  - rewrite lookup_insert_eq. by intros [= <-].
  - rewrite lookup_insert_ne by done. intros Hh. by rewrite (conns_of_lookup _ _ _ Hh).
Qed.

(** ** Reusing *)

Lemma pop_ready_spec env now idle l :
  match pop_ready env now idle l with
  | (older, Some conn) => ∃ newer since, l = newer ++ (conn, since) :: older ∧ is_ready env conn = true ∧
      sat_sub now since < idle ∧
      Forall (λ c, is_ready env c.1 = false ∨ idle <= sat_sub now c.2) newer
  | (older, None) => older = [] ∧ Forall (λ c, is_ready env c.1 = false ∨ idle <= sat_sub now c.2) l
  end.
Proof.
  induction l as [|[conn since] l IH]; [by split|]. cbn [pop_ready].
  destruct (is_ready env conn && (sat_sub now since <? idle)) eqn:E.
  - apply andb_true_iff in E as [? ?%Z.ltb_lt]. exists [], since. by split_and!.
  - assert (is_ready env conn = false ∨ idle <= sat_sub now since) as Hs.
    { apply andb_false_iff in E as [?|?%Z.ltb_ge]; [by left|by right]. }
    destruct (pop_ready env now idle l) as [older [c|]].
    + destruct IH as (newer & since' & -> & ? & ? & ?). exists ((conn, since) :: newer), since'.
      split_and!; try done. by constructor.
    + destruct IH as [-> ?]. split; [done|]. by constructor.
Qed.

(** What reusing a host's connection gives and leaves. *)
Definition reused_ok (env : ConnEnv) (host : Host) (now idle at_ : Z) (host' : Host) (s : option Sender) : Prop :=
  match s with
  | Some (SendHttp2 conn) => host' = host ∧ h_h2 host = Some conn ∧ is_ready env conn = true ∧
      (h_active host = 0%nat → sat_sub now (h_last_used host) < idle) ∧ (stalled (streams env conn) at_ < MAX_STALLED_STREAMS)%nat
  | Some (SendHttp1 conn) => ∃ older since newer, h_idle host = older ++ (conn, since) :: newer ∧ h_idle host' = older ∧
      is_ready env conn = true ∧ sat_sub now since < idle ∧
      Forall (λ c, is_ready env c.1 = false ∨ idle <= sat_sub now c.2) newer
  | None => h_idle host' = [] ∧ Forall (λ c, is_ready env c.1 = false ∨ idle <= sat_sub now c.2) (h_idle host)
  end.
Lemma reuse_idle_spec env host now idle at_ : let '(host', s) := reuse_idle env host now idle in
  reused_ok env host now idle at_ host' s ∧ h_h2 host' = h_h2 host.
Proof.
  unfold reuse_idle. pose proof (pop_ready_spec env now idle (reverse (h_idle host))) as Hp.
  destruct (pop_ready _ _ _ _) as [older [conn|]]; cbn.
  - destruct Hp as (newer & since & Hl & Hr & Hf & Hn). split; [|done].
    exists (reverse older), since, (reverse newer). rewrite Forall_reverse. split_and!; try done.
    rewrite <- (reverse_involutive (h_idle host)), Hl, reverse_app, reverse_cons, <- app_assoc. done.
  - destruct Hp as [-> Hf]. rewrite Forall_reverse in Hf. by split_and!.
Qed.
Lemma Host_reuse_spec env host now idle at_ : let '(host', s) := Host_reuse env host now idle at_ in
  reused_ok env host now idle at_ host' s.
Proof.
  unfold Host_reuse. destruct (h_h2 host) as [conn|] eqn:Hh.
  - destruct (is_ready env conn && _ && _) eqn:E.
    + rewrite !andb_true_iff, negb_true_iff, andb_false_iff, Nat.ltb_lt, Nat.eqb_neq, Z.leb_gt in E.
      destruct E as [[? Hidle] ?]. split_and!; try done. intros Ha. by destruct Hidle.
    + pose proof (reuse_idle_spec env (set_conns host None (h_idle host)) now idle at_) as Hr.
      destruct (reuse_idle _ _ _ _) as [host' s]. destruct Hr as [Hr Hh2]. destruct s as [[conn'|conn']|]; try done.
      destruct Hr as (_ & Hr & _). done.
  - pose proof (reuse_idle_spec env host now idle at_) as Hr. destruct (reuse_idle _ _ _ _) as [host' s]. apply Hr.
Qed.

(** ** One request per connection *)

Record conn_inv (p : Pool) (l : list nat) (n : nat) : Prop := {
  ci_nodup target : NoDup (conns_of p target);
  ci_one conn t1 t2 : conn ∈ conns_of p t1 → conn ∈ conns_of p t2 → t1 = t2;
  ci_lent conn target : conn ∈ conns_of p target → conn ∉ l;
  ci_lent_nodup : NoDup l;
  ci_next conn : conn ∈ l ∨ (∃ target, conn ∈ conns_of p target) → (conn < n)%nat
}.
Lemma shrinks_elem p p' conn target : shrinks p p' → conn ∈ conns_of p' target → conn ∈ conns_of p target.
Proof. intros Hs Hc. eapply elem_of_sublist; [done|apply Hs]. Qed.
Lemma conn_inv_shrinks p p' l n : conn_inv p l n → shrinks p p' → conn_inv p' l n.
Proof.
  intros [Hnd Hone Hl Hln Hn] Hs. split.
  - intros target. eapply sublist_NoDup; [apply Hnd|apply Hs].
  - intros conn t1 t2 H1 H2. eapply Hone; by eapply shrinks_elem.
  - intros conn target Hc. eapply Hl, shrinks_elem; done.
  - done.
  - intros conn [Hc|[target Hc]]; apply Hn; [by left|right]. exists target. by eapply shrinks_elem.
Qed.
Lemma conn_inv_release p l n conn : conn_inv p l n → conn_inv p (release conn l) n.
Proof.
  intros [Hnd Hone Hl Hln Hn]. unfold release. split; try done.
  - intros c target Hc Hin. apply list_elem_of_filter in Hin as [_ Hin]. by eapply Hl.
  - by apply NoDup_filter.
  - intros c [Hc|Hc]; [|by apply Hn; right]. apply list_elem_of_filter in Hc as [_ Hc]. apply Hn. by left.
Qed.

(** A checkout shrinks the pool and takes what it hands out. *)
Lemma insert_reused p target host' s l n env max_h1 now idle at_ (fresh_only : bool) :
  let host := host_entry p target max_h1 now in
  (if fresh_only then (host, None) else Host_reuse env host now idle at_) = (host', s) →
  ∀ host'', host_conns host'' = host_conns host' → conn_inv p l n →
  conn_inv (with_hosts p (<[target := host'']> (hosts p))) (take_sender s l) n.
Proof.
  intros host Hr host'' Heq Hinv.
  assert (host_conns host = conns_of p target) as Hc.
  { unfold host, host_entry, conns_of. by destruct (hosts p !! target). }
  assert (fresh_only = true ∧ host' = host ∧ s = None ∨ reused_ok env host now idle at_ host' s) as [(-> & -> & ->)|Hok].
  { destruct fresh_only; [left; by injection Hr as <- <-|right]. pose proof (Host_reuse_spec env host now idle at_) as Hs.
    by rewrite Hr in Hs. }
  { apply (conn_inv_shrinks p); [done|]. apply insert_shrinks. by rewrite Heq, Hc. }
  assert (host_conns host' `sublist_of` conns_of p target) as Hsub.
  { rewrite <- Hc. unfold reused_ok, host_conns in *. destruct s as [[conn|conn]|].
    - destruct Hok as (older & since & newer & -> & -> & _). rewrite fmap_app. apply sublist_inserts_r. done.
    - by destruct Hok as [-> _].
    - destruct Hok as [-> _]. apply sublist_nil_l. }
  pose proof (insert_shrinks p target host'' ltac:(by rewrite Heq)) as Hsh.
  pose proof (conn_inv_shrinks p _ l n Hinv Hsh) as Hinv'. destruct s as [[conn|conn]|]; [|done|done]. cbn [take_sender].
  destruct Hok as (older & since & newer & Hi & Ho & _). unfold host_conns in Hc. rewrite Hi, fmap_app, fmap_cons in Hc. cbn [fst] in Hc.
  assert (conn ∈ conns_of p target) as Hin by (rewrite <- Hc; set_solver).
  destruct Hinv' as [Hnd Hone Hl Hln Hn]. split; [done|done| | |].
  - intros c t Hct [->|Hcl]%elem_of_cons; [|by eapply Hl]. pose proof (shrinks_elem _ _ _ _ Hsh Hct) as Hct'.
    pose proof (ci_one _ _ _ Hinv _ _ _ Hin Hct') as <-. unfold conns_of in Hct. cbn [hosts with_hosts] in Hct.
    rewrite lookup_insert_eq in Hct. cbn in Hct. rewrite Heq in Hct. unfold host_conns in Hct. rewrite Ho in Hct.
    pose proof (ci_nodup _ _ _ Hinv target) as Hnd'. rewrite <- Hc in Hnd'. apply NoDup_app in Hnd' as (_ & Hd & _).
    apply (Hd _ Hct). set_solver.
  - constructor; [|done]. by eapply (ci_lent _ _ _ Hinv).
  - intros c [[->|Hcl]%elem_of_cons|Hc']; [|by apply Hn; left|by apply Hn; right]. eapply (ci_next _ _ _ Hinv). right. eauto.
Qed.

Lemma give_back_inv p l n target conn now : conn_inv p l n → conn ∈ l →
  conn_inv (with_hosts p (alter (λ host, set_conns host (h_h2 host) (h_idle host ++ [(conn, now)])) target (hosts p)))
    (release conn l) n.
Proof.
  intros Hinv Hin. set (p' := with_hosts p _).
  assert (∀ t, conns_of p' t = conns_of p t ∨ t = target ∧ conns_of p' t = conns_of p t ++ [conn]) as Hc.
  { intros t. unfold conns_of, p'. cbn [hosts with_hosts]. destruct (decide (t = target)) as [->|Hne].
    - rewrite lookup_alter_eq. destruct (hosts p !! target) as [host|]; [right|by left]. split; [done|].
      cbn. unfold host_conns. cbn. by rewrite fmap_app.
    - left. by rewrite lookup_alter_ne. }
  assert (∀ c t, c ∈ conns_of p' t → c ∈ conns_of p t ∨ c = conn ∧ t = target) as Hel.
  { intros c t Hct. destruct (Hc t) as [Heq|[-> Heq]]; rewrite Heq in Hct; [by left|].
    apply elem_of_app in Hct as [?|?%list_elem_of_singleton]; [by left|by right]. }
  destruct Hinv as [Hnd Hone Hl Hln Hn]. split.
  - intros t. destruct (Hc t) as [->|[-> ->]]; [done|]. apply NoDup_app. split_and!; [done| |apply NoDup_singleton].
    intros c Hct ->%list_elem_of_singleton. by eapply Hl.
  - intros c t1 t2 H1 H2. apply Hel in H1 as [H1|[-> ->]], H2 as [H2|[H2 ->]]; subst; try done; [by eapply Hone| |];
      exfalso; by eapply Hl.
  - intros c t Hct Hr. apply list_elem_of_filter in Hr as [Hne Hr]. apply Hel in Hct as [Hct|[-> _]]; [|done]. by eapply Hl.
  - by apply NoDup_filter.
  - intros c [Hr|[t Hct]].
    + apply list_elem_of_filter in Hr as [_ Hr]. apply Hn. by left.
    + apply Hel in Hct as [Hct|[-> _]]; apply Hn; eauto.
Qed.

(** The operations that only take connections out of the pool. *)
Lemma locked_alter_shrinks p r f target : (∀ host, host_conns (f host) `sublist_of` host_conns host) →
  shrinks p (with_hosts (hosts_lock p r) (alter f target (hosts (hosts_lock p r)))).
Proof. intros Hf. eapply shrinks_trans; [apply (hosts_lock_shrinks p r)|by apply alter_shrinks]. Qed.
Lemma set_protocol_shrinks p r target protocol h2 : shrinks p (set_protocol p r target protocol h2).
Proof. by apply locked_alter_shrinks. Qed.
Lemma reap_shrinks p r env max_h1 now idle : shrinks p (reap p r env max_h1 now idle).
Proof.
  eapply shrinks_trans; [apply (hosts_lock_shrinks p r)|]. unfold reap. apply shrinks_hosts. intros target host'.
  cbn [hosts with_hosts]. rewrite lookup_omap_Some. intros (host & Hr & Hh). rewrite (conns_of_lookup _ _ _ Hh).
  unfold reap_host in Hr. cbv zeta in Hr. destruct (_ && _); [done|]. injection Hr as <-.
  unfold host_conns. cbn. apply fmap_sublist, sublist_filter.
Qed.
Lemma evict_one_shrinks p r order : shrinks p (evict_one p r order).
Proof.
  eapply shrinks_trans; [apply (hosts_lock_shrinks p r)|]. unfold evict_one, evict_in.
  destruct (min_by_key snd _) as [[[target i] since]|].
  - apply alter_shrinks. intros host. apply fmap_sublist, sublist_delete.
  - destruct (min_by_key _ _) as [[target host]|]; [by apply alter_shrinks|]. destruct (hosts_lock p r). apply shrinks_refl.
Qed.

Lemma conn_inv_next p l n n' : (n ≤ n')%nat → conn_inv p l n → conn_inv p l n'.
Proof. intros Hn [? ? ? ? Hc]. split; try done. intros c Hin. specialize (Hc c Hin). lia. Qed.
Lemma conn_inv_new p l n : conn_inv p l n → conn_inv p (n :: l) (S n).
Proof.
  intros [Hnd Hone Hl Hln Hn]. split; try done.
  - intros c t Hc [->|Hin]%elem_of_cons; [|by eapply Hl]. assert (n < n)%nat by (apply Hn; eauto). lia.
  - constructor; [|done]. intros Hin. assert (n < n)%nat by (apply Hn; eauto). lia.
  - intros c [[->|Hin]%elem_of_cons|Hc]; [lia| |]; (assert (c < n)%nat by (apply Hn; eauto)); lia.
Qed.

Lemma pool_apply_inv st ev : conn_inv (pool st) (lent st) (next st) → pool_enabled st ev →
  let st' := (pool_apply st ev).1 in conn_inv (pool st') (lent st') (next st').
Proof.
  destruct st as [p r l n]. cbn [pool lent next]. intros Hinv He.
  assert (∀ p', shrinks p p' → conn_inv p' l n) as Hs by (intros; by eapply conn_inv_shrinks).
  pose proof (Hs _ (hosts_lock_shrinks p r)) as Hlock.
  destruct ev; cbn [pool_apply fst pool lent next pool_enabled] in *; cbv zeta.
  - done.
  - unfold checkout_begin.
    destruct (if fresh_only then _ else _) as [host' s] eqn:Hr. cbn [fst pool lent next].
    by eapply (insert_reused _ _ _ _ _ _ _ _ _ _ _ _ Hr).
  - unfold checkout_dialing.
    destruct (if fresh_only then _ else _) as [host' s] eqn:Hr.
    pose proof (insert_reused _ _ _ _ l n _ _ _ _ _ _ Hr) as Hir. destruct s as [s|]; cbn [fst pool lent next turn_sender].
    + by apply Hir.
    + replace (turn_sender _) with (@None Sender) by (by destruct (h_last_dial host'); [destruct (negb _)|]). by apply Hir.
  - apply Hs. by apply locked_alter_shrinks.
  - apply conn_inv_new. destruct (t_tls target); [|done]. apply Hs, set_protocol_shrinks.
  - apply (conn_inv_next _ _ n); [lia|]. apply Hs, set_protocol_shrinks.
  - by apply give_back_inv.
  - by apply conn_inv_release.
  - apply Hs. by apply locked_alter_shrinks.
  - apply Hs. by apply alter_shrinks.
  - apply Hs, reap_shrinks.
  - apply Hs, evict_one_shrinks.
Qed.

(** C3: An HTTP/1.1 connection is never with two requests. Whatever the requests, the reaper
    and the evictions do, in any order: no connection is lent twice, none is idle in the pool
    while it is lent, none is in the pool twice, and none waits under two hosts. *)
Theorem connection_has_one_request (r : Z) (evs : list pool_event) (st : PoolState) :
  pool_run (pool_start r) evs st →
  NoDup (lent st) ∧ (∀ target, NoDup (conns_of (pool st) target)) ∧
  (∀ conn target, conn ∈ conns_of (pool st) target → conn ∉ lent st) ∧
  (∀ conn t1 t2, conn ∈ conns_of (pool st) t1 → conn ∈ conns_of (pool st) t2 → t1 = t2).
Proof.
  intros Hr. assert (conn_inv (pool st) (lent st) (next st)) as [? ? ? ? ?]; [|done].
  assert (conn_inv (pool (pool_start r)) (lent (pool_start r)) (next (pool_start r))) as Hstart.
  { split; cbn; unfold conns_of; cbn; intros; rewrite ?lookup_empty in *; cbn in *; try set_solver; try by constructor. }
  revert Hstart. induction Hr as [st|st ev evs st' He Hr IH]; intros Hinv; [done|]. apply IH. by apply pool_apply_inv.
Qed.

(** ** Resets *)

Definition pooled_host (host : Host) (conn : nat) : Prop := h_h2 host = Some conn ∨ conn ∈ host_conns host.
Definition pooled (p : Pool) (conn : nat) : Prop := ∃ target host, hosts p !! target = Some host ∧ pooled_host host conn.
Definition sender_conn (s : Sender) : nat := match s with SendHttp1 conn | SendHttp2 conn => conn end.

(** The connections events put into the pool. *)
Definition puts (st : PoolState) (ev : pool_event) : list nat :=
  match ev with PGiveBack _ conn _ => [conn] | PNewHttp2 _ => [next st] | _ => [] end.
Fixpoint put_in (st : PoolState) (evs : list pool_event) : list nat :=
  match evs with
  | [] => []
  | ev :: evs' => puts st ev ++ put_in (pool_apply st ev).1 evs'
  end.

Lemma alter_pooled p f target (extra : list nat) : (∀ host conn, pooled_host (f host) conn → pooled_host host conn ∨ conn ∈ extra) →
  ∀ conn, pooled (with_hosts p (alter f target (hosts p))) conn → pooled p conn ∨ conn ∈ extra.
Proof.
  intros Hf conn (t & host & Hh & Hc). cbn [hosts with_hosts] in Hh. destruct (decide (t = target)) as [->|Hne].
  - rewrite lookup_alter_eq in Hh. apply fmap_Some in Hh as (host0 & Hh & ->).
    destruct (Hf _ _ Hc); [left|by right]. by exists target, host0.
  - rewrite lookup_alter_ne in Hh by done. left. by exists t, host.
Qed.
Lemma Host_reuse_pooled env host now idle at_ host' s : Host_reuse env host now idle at_ = (host', s) →
  (∀ conn, pooled_host host' conn → pooled_host host conn) ∧ (∀ sender, s = Some sender → pooled_host host (sender_conn sender)).
Proof.
  intros Hr. assert (h_h2 host' = h_h2 host ∨ h_h2 host' = None) as Hh2.
  { revert Hr. unfold Host_reuse. assert (∀ h, h_h2 (reuse_idle env h now idle).1 = h_h2 h) as Hri.
    { intros h. unfold reuse_idle. by destruct (pop_ready _ _ _ _). }
    destruct (h_h2 host) as [conn|] eqn:E.
    - destruct (_ && _ && _); [intros [= <- _]; by left|]. intros Hr. right.
      pose proof (Hri (set_conns host None (h_idle host))) as H. by rewrite Hr in H.
    - intros Hr. left. pose proof (Hri host) as H. rewrite Hr in H. cbn [fst] in H. congruence. }
  pose proof (Host_reuse_spec env host now idle at_) as Hs. rewrite Hr in Hs.
  assert (∀ conn, conn ∈ host_conns host' → conn ∈ host_conns host) as Hsub.
  { intros conn Hc. unfold reused_ok, host_conns in *. destruct s as [[c|c]|].
    - destruct Hs as (older & since & newer & -> & Ho & _). rewrite Ho in Hc. rewrite fmap_app. set_solver.
    - by destruct Hs as [-> _].
    - destruct Hs as [He _]. rewrite He in Hc. by apply not_elem_of_nil in Hc. }
  split.
  - intros conn [Hc|Hc]; [left|right; by apply Hsub]. destruct Hh2; congruence.
  - intros sender ->. destruct sender as [c|c]; cbn [sender_conn].
    + right. destruct Hs as (older & since & newer & Hi & _). unfold host_conns. rewrite Hi, fmap_app, fmap_cons. set_solver.
    + left. by destruct Hs as (_ & ? & _).
Qed.
Lemma insert_reused_pooled p target host' s env max_h1 now idle at_ (fresh_only : bool) :
  let host := host_entry p target max_h1 now in
  (if fresh_only then (host, None) else Host_reuse env host now idle at_) = (host', s) →
  ∀ host'', host_conns host'' = host_conns host' → h_h2 host'' = h_h2 host' →
  (∀ conn, pooled (with_hosts p (<[target := host'']> (hosts p))) conn → pooled p conn) ∧
  (∀ sender, s = Some sender → pooled p (sender_conn sender)).
Proof.
  intros host Hr host'' Hc Hh. assert (∀ conn, pooled_host host conn → pooled p conn) as Hp.
  { intros conn Hh'. unfold host, host_entry in Hh'. destruct (hosts p !! target) as [h|] eqn:E; cbn in Hh'; [by exists target, h|].
    destruct Hh' as [Hh'|Hh']; [|by apply not_elem_of_nil in Hh']. cbn in Hh'. done. }
  assert ((∀ conn, pooled_host host' conn → pooled_host host conn) ∧
    (∀ sender, s = Some sender → pooled_host host (sender_conn sender))) as [Hsub Hs].
  { destruct fresh_only; [by injection Hr as <- <-|]. by apply Host_reuse_pooled in Hr. }
  split; [|intros sender Hsd; by apply Hp, Hs].
  intros conn (t & h & Hh' & Hc'). cbn [hosts with_hosts] in Hh'. destruct (decide (t = target)) as [->|Hne].
  - rewrite lookup_insert_eq in Hh'. injection Hh' as <-. apply Hp, Hsub. unfold pooled_host in *. by rewrite <- Hc, <- Hh.
  - rewrite lookup_insert_ne in Hh' by done. by exists t, h.
Qed.

(** Reaping and evicting only take connections away. *)
Lemma reap_pooled p r env max_h1 now idle conn : pooled (reap p r env max_h1 now idle) conn → pooled (hosts_lock p r) conn.
Proof.
  intros (t & host & Hh & Hc). unfold reap in Hh. cbn [hosts with_hosts] in Hh. rewrite lookup_omap_Some in Hh.
  destruct Hh as (host0 & Hr & Hh). exists t, host0. split; [done|].
  unfold reap_host in Hr. cbv zeta in Hr. destruct (_ && _ && _ && _); [done|]. injection Hr as <-.
  destruct Hc as [Hc|Hc]; cbn in Hc.
  - left. destruct (h_h2 host0) as [c|]; [|done]. by destruct (is_closed env c || _).
  - right. unfold host_conns in *. cbn in Hc. eapply elem_of_sublist; [done|]. apply fmap_sublist, sublist_filter.
Qed.
Lemma evict_pooled p r order conn : pooled (evict_one p r order) conn → pooled (hosts_lock p r) conn.
Proof.
  intros Hc. enough (pooled (hosts_lock p r) conn ∨ conn ∈ []) as [?|Hn]; [done|by apply not_elem_of_nil in Hn|].
  revert Hc. unfold evict_one, evict_in. destruct (min_by_key snd _) as [[[target i] since]|].
  - apply alter_pooled. intros host c [Hc|Hc]; [by left; left|]. left. right. unfold host_conns in *. cbn in Hc.
    eapply elem_of_sublist; [done|]. apply fmap_sublist, sublist_delete.
  - destruct (min_by_key _ _) as [[target host]|]; [|by left].
    apply alter_pooled. intros h c [Hc|Hc]; [by cbn in Hc|by left; right].
Qed.

(** Since a reset: it has not been seen yet, or everything pooled was put there since. *)
Definition since_reset (st : PoolState) (put : list nat) : Prop :=
  resets_seen (pool st) <= resets st ∧
  (resets_seen (pool st) < resets st ∨ ∀ conn, pooled (pool st) conn → conn ∈ put).
Lemma since_reset_locked st put : since_reset st put →
  (∀ conn, pooled (hosts_lock (pool st) (resets st)) conn → conn ∈ put) ∧ resets_seen (hosts_lock (pool st) (resets st)) = resets st.
Proof.
  intros [Hle Hp]. unfold hosts_lock. destruct (Z.eqb_spec (resets_seen (pool st)) (resets st)) as [Heq|Hne].
  - split; [|done]. destruct Hp as [?|Hp]; [lia|done].
  - split; [|done]. intros conn (target & host & Hh & Hc). cbn [hosts] in Hh. rewrite lookup_fmap in Hh.
    apply fmap_Some in Hh as (host0 & _ & ->). destruct Hc as [Hc|Hc]; cbn in Hc; [done|by apply not_elem_of_nil in Hc].
Qed.

(** One event later: what it hands out was put there since, and what it adds counts. *)
Lemma since_reset_step st ev put : since_reset st put → pool_enabled st ev →
  let '(st', s) := pool_apply st ev in
  since_reset st' (put ++ puts st ev) ∧ ∀ sender, s = Some sender → sender_conn sender ∈ put.
Proof.
  intros Hsr He. destruct (since_reset_locked st put Hsr) as [Hlock Hseen]. destruct Hsr as [Hle Hp].
  destruct st as [p r l n]. cbn [pool resets next lent] in *. set (q := hosts_lock p r) in *.
  assert (∀ p' extra, resets_seen p' = resets_seen q → (∀ conn, pooled p' conn → pooled q conn ∨ conn ∈ extra) →
    ∀ l' n', since_reset {| pool := p'; resets := r; lent := l'; next := n' |} (put ++ extra)) as Hnew.
  { intros p' extra Hs Hin l' n'. split; cbn [pool resets]; [lia|]. right. intros conn Hc.
    apply elem_of_app. destruct (Hin conn Hc) as [?|?]; [left; by apply Hlock|by right]. }
  assert (∀ p', resets_seen p' = resets_seen p → (∀ conn, pooled p' conn → pooled p conn) →
    ∀ l' n', since_reset {| pool := p'; resets := r; lent := l'; next := n' |} (put ++ [])) as Hold.
  { intros p' Hs Hin l' n'. split; cbn [pool resets]; [lia|]. rewrite app_nil_r. destruct Hp; [left; lia|right]. eauto. }
  assert (∀ f target extra, (∀ host conn, pooled_host (f host) conn → pooled_host host conn ∨ conn ∈ extra) →
    ∀ conn, pooled (with_hosts q (alter f target (hosts q))) conn → pooled q conn ∨ conn ∈ extra) as Halter
    by (intros f target extra Hf; by apply alter_pooled).
  destruct ev; cbn [pool_apply puts].
  - split; [|done]. split; cbn [pool resets]; [lia|left; lia].
  - unfold checkout_begin. fold q. destruct (if fresh_only then _ else _) as [host' s] eqn:Hr.
    destruct (insert_reused_pooled _ _ _ _ _ _ _ _ _ _ Hr (set_last_used host' now)) as [Hin Hs]; [done|done|].
    split; [apply Hnew; [done|]; intros conn Hc; left; by apply Hin|]. intros sender Hsd. by apply Hlock, Hs.
  - unfold checkout_dialing. fold q. destruct (if fresh_only then _ else _) as [host' s] eqn:Hr.
    destruct (insert_reused_pooled _ _ _ _ _ _ _ _ _ _ Hr host') as [Hin _]; [done|done|].
    destruct (insert_reused_pooled _ _ _ _ _ _ _ _ _ _ Hr (set_last_used host' now)) as [Hin' Hs]; [done|done|].
    destruct s as [s|]; cbn [turn_sender].
    + split; [apply Hnew; [done|]; intros conn Hc; left; by apply Hin'|]. intros sender [= <-]. by apply Hlock, Hs.
    + split; [apply Hnew; [done|]; intros conn Hc; left; by apply Hin|].
      destruct (h_last_dial host'); [destruct (negb _)|]; done.
  - split; [|done]. apply Hnew; [done|]. apply Halter. by left.
  - split; [|done]. destruct (t_tls target); [|by apply Hold]. apply Hnew; [done|]. apply Halter. by left.
  - split; [|done]. apply Hnew; [done|]. apply Halter. intros host conn [Hc|Hc]; [|by left; right].
    cbn in Hc. injection Hc as ->. right. set_solver.
  - split; [|done]. apply Hnew; [done|]. apply Halter. intros host c [Hc|Hc]; [by left; left|].
    unfold host_conns in Hc. cbn in Hc. rewrite fmap_app in Hc. apply elem_of_app in Hc as [Hc|Hc]; [by left; right|by right].
  - split; [|done]. by apply Hold.
  - split; [|done]. apply Hnew; [done|]. apply Halter. by left.
  - split; [|done]. apply Hold; [done|]. intros conn Hc.
    destruct (alter_pooled p (λ host, set_active host (pred (h_active host))) target [] ltac:(by left) conn Hc) as [?|Hn]; [done|].
    by apply not_elem_of_nil in Hn.
  - split; [|done]. apply Hnew; [done|]. intros conn Hc. left. by eapply reap_pooled.
  - split; [|done]. apply Hnew; [unfold evict_one; by fold q|]. intros conn Hc. left. by eapply evict_pooled.
Qed.

Lemma run_since_reset st evs st' : pool_run st evs st' → ∀ put, since_reset st put → since_reset st' (put ++ put_in st evs).
Proof.
  induction 1 as [st|st ev evs st' He Hr IH]; intros put Hp; cbn [put_in]; [by rewrite app_nil_r|].
  pose proof (since_reset_step st ev put Hp He) as Hstep. destruct (pool_apply st ev) as [st3 s3].
  rewrite app_assoc. apply IH, Hstep.
Qed.

(** Nothing pooled before a reset is handed out after it: a connection that a checkout
    hands out from the pool was put there (given back after a response, or dialed) by an event
    since the last reset, whatever happened before it. *)
Theorem reset_forgets_pooled (r : Z) (before after : list pool_event) (st st' : PoolState) (ev : pool_event) (sender : Sender) :
  pool_run (pool_start r) before st →
  pool_run (pool_apply st PReset).1 after st' → pool_enabled st' ev →
  (pool_apply st' ev).2 = Some sender → sender_conn sender ∈ put_in (pool_apply st PReset).1 after.
Proof.
  intros Hb Ha He Hs.
  assert (since_reset (pool_start r) []) as H0.
  { split; [done|]. right. intros conn (t & host & Hh & _).
    change (hosts (pool (pool_start r))) with (∅ : gmap Target Host) in Hh. by rewrite lookup_empty in Hh. }
  destruct (run_since_reset _ _ _ Hb _ H0) as [Hle _].
  assert (since_reset (pool_apply st PReset).1 []) as H1.
  { destruct st as [p r0 l n]. split; cbn in *; [lia|left; lia]. }
  pose proof (since_reset_step st' ev _ (run_since_reset _ _ _ Ha _ H1) He) as Hstep.
  destruct (pool_apply st' ev) as [st3 s3]. by apply Hstep.
Qed.

(** ** Which connections are reused and given up *)

(** Reuse takes a usable connection and the newest one. A shared HTTP/2 connection is
    handed out only when it is ready, not idle for too long, and not held up by stalled
    bodies; otherwise the newest idle HTTP/1.1 connection that is ready and fresh, and every
    newer one, none of which is usable, leaves the pool with it; without a usable one nothing
    idle stays. *)
Theorem reuse_takes_newest_usable (env : ConnEnv) (host : Host) (now idle at_ : Z) :
  let '(host', s) := Host_reuse env host now idle at_ in
  match s with
  | Some (SendHttp2 conn) => host' = host ∧ h_h2 host = Some conn ∧ is_ready env conn = true ∧
      (h_active host = 0%nat → sat_sub now (h_last_used host) < idle) ∧ (stalled (streams env conn) at_ < MAX_STALLED_STREAMS)%nat
  | Some (SendHttp1 conn) => ∃ older since newer, h_idle host = older ++ (conn, since) :: newer ∧ h_idle host' = older ∧
      is_ready env conn = true ∧ sat_sub now since < idle ∧
      Forall (λ c, is_ready env c.1 = false ∨ idle <= sat_sub now c.2) newer
  | None => h_idle host' = [] ∧ Forall (λ c, is_ready env c.1 = false ∨ idle <= sat_sub now c.2) (h_idle host)
  end.
Proof. apply Host_reuse_spec. Qed.

Lemma elem_of_idle_entries order target i since :
  (target, i, since) ∈ idle_entries order ↔ ∃ host conn, (target, host) ∈ order ∧ h_idle host !! i = Some (conn, since).
Proof.
  unfold idle_entries. rewrite list_elem_of_bind. split.
  - intros ([t host] & Hin & Ho). rewrite elem_of_lookup_imap in Hin. destruct Hin as (j & [conn s] & [= -> -> ->] & Hl). eauto.
  - intros (host & conn & Ho & Hl). exists (target, host). split; [|done]. rewrite elem_of_lookup_imap. by exists i, (conn, since).
Qed.
Lemma alter_at {V} (f : V → V) target (v : V) (m : gmap Target V) : m !! target = Some v → alter f target m = <[target := f v]> m.
Proof.
  intros Hm. apply map_eq. intros t. destruct (decide (t = target)) as [->|Hne];
    [by rewrite lookup_alter_eq, lookup_insert_eq, Hm|by rewrite lookup_alter_ne, lookup_insert_ne].
Qed.

(** Making room gives up the connection unused the longest. In whatever order the hosts are
    iterated, eviction removes one idle HTTP/1.1 connection that has been idle at least as long
    as every other one; only when there is none, the HTTP/2 connection of a host without active
    responses that was used least recently; and otherwise nothing. A connection in use is never
    given up. *)
Theorem evicts_least_recently_used (order : list (Target * Host)) (hs : gmap Target Host) :
  order ≡ₚ map_to_list hs →
  let hs' := evict_in order hs in
  (∃ target host i conn since, hs !! target = Some host ∧ h_idle host !! i = Some (conn, since) ∧
     (∀ t h c s, hs !! t = Some h → (c, s) ∈ h_idle h → since <= s) ∧
     hs' = <[target := set_conns host (h_h2 host) (delete i (h_idle host))]> hs) ∨
  (∀ t h, hs !! t = Some h → h_idle h = []) ∧
  ((∃ target host, hs !! target = Some host ∧ is_Some (h_h2 host) ∧ h_active host = 0%nat ∧
      (∀ t h, hs !! t = Some h → is_Some (h_h2 h) → h_active h = 0%nat → h_last_used host <= h_last_used h) ∧
      hs' = <[target := set_conns host None (h_idle host)]> hs) ∨
   hs' = hs ∧ ∀ t h, hs !! t = Some h → is_Some (h_h2 h) → h_active h ≠ 0%nat).
Proof.
  intros Hord hs'. assert (∀ t h, (t, h) ∈ order ↔ hs !! t = Some h) as Hin.
  { intros t h. rewrite Hord. apply elem_of_map_to_list. }
  unfold hs', evict_in. destruct (min_by_key snd _) as [[[target i] since]|] eqn:E.
  - left. apply min_by_key_Some in E as [He Hmin]. apply elem_of_idle_entries in He as (host & conn & Ho & Hl).
    apply Hin in Ho. exists target, host, i, conn, since. split_and!; [done|done| |by rewrite (alter_at _ _ host)].
    intros t h c s Hh Hc. apply list_elem_of_lookup in Hc as [j Hj].
    apply (Hmin (t, j, s)), elem_of_idle_entries. exists h, c. split; [by apply Hin|done].
  - right. apply min_by_key_None in E. split.
    { intros t h Hh. destruct (h_idle h) as [|[c s] l] eqn:Hi; [done|]. exfalso.
      assert ((t, 0%nat, s) ∈ idle_entries order) as He; [|rewrite E in He; by apply not_elem_of_nil in He].
      apply elem_of_idle_entries. exists h, c. split; [by apply Hin|by rewrite Hi]. }
    destruct (min_by_key _ (filter _ order)) as [[target host]|] eqn:E2; [left|right].
    + apply min_by_key_Some in E2 as [He Hmin]. apply list_elem_of_filter in He as [[? ?] Ho]. apply Hin in Ho.
      exists target, host. split_and!; [done|done|done| |by rewrite (alter_at _ _ host)].
      intros t h Hh H2 Ha. apply (Hmin (t, h)), list_elem_of_filter. split; [done|by apply Hin].
    + split; [done|]. apply min_by_key_None in E2. intros t h Hh H2 Ha.
      assert ((t, h) ∈ filter (λ th : Target * Host, is_Some (h_h2 th.2) ∧ h_active th.2 = 0%nat) order) as He
        by (apply list_elem_of_filter; split; [done|by apply Hin]).
      rewrite E2 in He. by apply not_elem_of_nil in He.
Qed.

(** The reaper forgets only what is unused: a host with a response streaming, a request
    waiting or a connection's slot in use stays, and of the others exactly those with nothing
    left in the pool go; of a host that stays, exactly the idle connections that are fresh and
    open stay, and its HTTP/2 connection when it is open and the host active or fresh. *)
Theorem reap_keeps_what_is_used (p : Pool) (r : Z) (env : ConnEnv) (max_h1 : nat) (now idle : Z) (target : Target) (host : Host) :
  hosts (hosts_lock p r) !! target = Some host →
  let fresh c := sat_sub now c.2 < idle ∧ is_closed env c.1 = false in
  let h2_stays conn := is_closed env conn = false ∧ (h_active host ≠ 0%nat ∨ sat_sub now (h_last_used host) < idle) in
  match hosts (reap p r env max_h1 now idle) !! target with
  | None => h_active host = 0%nat ∧ h_slots host = max_h1 ∧ h_waiting host = 0%nat ∧
      (∀ c, c ∈ h_idle host → ¬ fresh c) ∧ (∀ conn, h_h2 host = Some conn → ¬ h2_stays conn)
  | Some host' => (∀ c, c ∈ h_idle host' ↔ c ∈ h_idle host ∧ fresh c) ∧
      (∀ conn, h_h2 host' = Some conn ↔ h_h2 host = Some conn ∧ h2_stays conn) ∧
      (h_active host ≠ 0%nat ∨ h_slots host ≠ max_h1 ∨ h_waiting host ≠ 0%nat ∨ h_idle host' ≠ [] ∨ is_Some (h_h2 host'))
  end.
Proof.
  intros Hh fresh h2_stays. unfold reap. cbn [hosts with_hosts]. rewrite lookup_omap, Hh. cbn [mbind option_bind].
  unfold reap_host. set (idle_conns := filter _ (h_idle host)). set (h2 := match h_h2 host with Some _ => _ | None => _ end).
  assert (∀ c, c ∈ idle_conns ↔ c ∈ h_idle host ∧ fresh c) as Hidle.
  { intros c. unfold idle_conns, fresh. rewrite list_elem_of_filter, andb_true_iff, negb_true_iff, Z.ltb_lt. tauto. }
  assert (∀ conn, h2 = Some conn ↔ h_h2 host = Some conn ∧ h2_stays conn) as Hh2.
  { intros conn. unfold h2, h2_stays. destruct (h_h2 host) as [c|]; [|naive_solver].
    destruct (is_closed env c) eqn:Ec; cbn [orb]; [split; [done|]; intros [[= ->] [? _]]; congruence|].
    destruct ((h_active host =? 0)%nat && (idle <=? sat_sub now (h_last_used host))) eqn:Ei.
    - rewrite andb_true_iff, Nat.eqb_eq, Z.leb_le in Ei. split; [done|]. intros [[= ->] [_ [?|?]]]; lia.
    - rewrite andb_false_iff, Nat.eqb_neq, Z.leb_gt in Ei. split; [intros [= ->]|intros [[= ->] _]]; done. }
  destruct (bool_decide (idle_conns = []) && _ && _ && _ && _) eqn:Eu.
  - rewrite !andb_true_iff, !bool_decide_eq_true, !Nat.eqb_eq in Eu. destruct Eu as ((((Hi & Hn) & ?) & ?) & ?).
    split_and!; try done.
    + intros c Hc Hf. assert (c ∈ idle_conns) as He by (by apply Hidle). rewrite Hi in He. by apply not_elem_of_nil in He.
    + intros conn Hc Hs. assert (h2 = Some conn) by (by apply Hh2). congruence.
  - split; [done|]. split; [done|]. cbn [h_idle h_h2 set_conns].
    rewrite !andb_false_iff, !bool_decide_eq_false, !Nat.eqb_neq in Eu.
    destruct Eu as [[[[Hi|Hn]|?]|?]|?]; try tauto. destruct h2; [|done]. do 4 right. eauto.
Qed.

(** ** Runs *)

Definition all_ready : ConnEnv := {| is_ready _ := true; is_closed _ := false; streams _ := [] |}.
Definition ask (now : Z) : pool_event := PCheckout all_ready example_target false 6 now 60 0.
Definition first_use : list pool_event := [ask 0; PNewHttp1 example_target; PWrap example_target; PBodyDone example_target; PGiveBack example_target 0 5].
Definition after_events (st : PoolState) (evs : list pool_event) : PoolState := foldl (λ s ev, (pool_apply s ev).1) st evs.
Lemma first_use_run : pool_run (pool_start 0) first_use (after_events (pool_start 0) first_use).
Proof.
  do 4 (apply pool_cons; [exact I|]). apply pool_cons; [|apply pool_nil]. cbn [pool_enabled].
  match goal with |- context [lent ?st] => assert (lent st = [0%nat]) as Hl by (vm_compute; reflexivity) end. rewrite Hl. left.
Qed.

Lemma connection_has_one_request_witness :
  let st := after_events (pool_start 0) first_use in
  NoDup (lent st) ∧ conns_of (pool st) example_target = [0%nat].
Proof.
  intros st. split; [|vm_compute; reflexivity].
  exact (proj1 (connection_has_one_request 0 first_use st first_use_run)).
Defined.

Lemma reset_forgets_pooled_witness :
  let st := after_events (pool_start 0) first_use in
  let after := [ask 10; PNewHttp1 example_target; PGiveBack example_target 1 12] in
  let st' := after_events (pool_apply st PReset).1 after in
  (pool_apply st' (ask 20)).2 = Some (SendHttp1 1) ∧ (1%nat ∈ put_in (pool_apply st PReset).1 after).
Proof.
  intros st after st'.
  assert ((pool_apply st' (ask 20)).2 = Some (SendHttp1 1)) as Hs by (vm_compute; reflexivity). split; [exact Hs|].
  refine (reset_forgets_pooled 0 first_use after st st' (ask 20) (SendHttp1 1) _ _ _ Hs).
  - exact first_use_run.
  - apply pool_cons; [exact I|]. apply pool_cons; [exact I|]. apply pool_cons; [|apply pool_nil]. cbn [pool_enabled].
    match goal with |- context [lent ?st] => assert (lent st = [1%nat]) as Hl by (vm_compute; reflexivity) end. rewrite Hl. left.
  - exact I.
Defined.

Definition two_idle : Host := set_conns (Host_new true 6 0) None [(1%nat, 30); (2%nat, 20)].
Lemma evicts_least_recently_used_witness :
  let hs : gmap Target Host := {[example_target := two_idle]} in
  (h_idle <$> evict_in (map_to_list hs) hs !! example_target) = Some [(1%nat, 30)].
Proof.
  intros hs.
  destruct (evicts_least_recently_used (map_to_list hs) hs (Permutation_refl _)) as [(t & h & i & c & s & Hh & Hl & Hmin & ->)|[Hall _]].
  - apply lookup_singleton_Some in Hh as [<- <-]. rewrite lookup_insert_eq. cbn [fmap option_fmap option_map h_idle set_conns].
    destruct i as [|[|i]]; cbn in Hl; [|reflexivity|discriminate Hl]. injection Hl as <- <-.
    specialize (Hmin example_target two_idle 2%nat 20). exfalso. revert Hmin. unfold hs. rewrite lookup_singleton_eq. intros Hmin.
    assert (30 <= 20); [|lia]. apply Hmin; [reflexivity|]. right. left.
  - specialize (Hall example_target two_idle). unfold hs in Hall. rewrite lookup_singleton_eq in Hall.
    specialize (Hall eq_refl). discriminate Hall.
Defined.

Lemma reap_keeps_what_is_used_witness :
  let p := {| hosts := {[example_target := two_idle]}; resets_seen := 0 |} in
  hosts (reap p 0 all_ready 6 100 60) !! example_target = None.
Proof.
  intros p. pose proof (reap_keeps_what_is_used p 0 all_ready 6 100 60 example_target two_idle) as Hp.
  specialize (Hp ltac:(vm_compute; reflexivity)). cbv zeta in Hp.
  destruct (hosts (reap p 0 all_ready 6 100 60) !! example_target) as [host'|] eqn:E; [|reflexivity].
  exfalso. vm_compute in E. discriminate E.
Defined.
