(* ===== verification/Responses.v ===== *)
(** * Response bodies and what they hold of the pool ([mitm/src/upstream.rs], [Pool::wrap])

    A response from an upstream is counted at its host until its body ends, fails or is dropped, and
    its HTTP/1.1 connection goes back to the pool then. The bodies alive run beside every other
    operation of the pool ([pool_apply]). *)
From S2P Require Import Prelude RustStr Collections Net Io UpstreamError Http Request Outbound Pool PoolProps.

(** A wrapped body: whether its host was there to be counted at, the HTTP/1.1 connection it came on,
    the progress of an HTTP/2 one, and [on_done]. *)
Record ResponseBody := {
  rb_target : Target;
  rb_counted : bool;
  rb_h1 : option nat;
  rb_progress : option Progress;
  rb_done : DoneBody
}.
(** [rsp_back]: the connections handed back, which wait in tasks of their own until they are ready. *)
Record Responses := {
  rsp_state : PoolState;
  rsp_bodies : list ResponseBody;
  rsp_back : list (Target * nat)
}.
Definition with_pool (st : PoolState) (p : Pool) : PoolState := {| pool := p; resets := resets st; lent := lent st; next := next st |}.

(** [wrap]; the headers are stripped by [strip_hop_by_hop]. *)
Definition wrap (self : Responses) (target : Target) (via : Sender) (at_ : Z) : Responses :=
  let st := rsp_state self in
  let body :=
    {| rb_target := target;
       rb_counted := bool_decide (is_Some (hosts (hosts_lock (pool st) (resets st)) !! target));
       rb_h1 := match via with SendHttp1 h1 => Some h1 | SendHttp2 _ => None end;
       rb_progress := match via with SendHttp1 _ => None | SendHttp2 _ => Some (Progress_new at_) end;
       rb_done := DoneBody_new |} in
  {| rsp_state := with_pool st (wrap_active (pool st) (resets st) target);
     rsp_bodies := rsp_bodies self ++ [body]; rsp_back := rsp_back self |}.

(** What [on_done] does, when it runs. *)
Definition body_ended (self : Responses) (body : ResponseBody) (runs : bool) (bodies : list ResponseBody) : Responses :=
  let st := rsp_state self in
  if runs then
    {| rsp_state := if rb_counted body then with_pool st (body_done (pool st) (rb_target body)) else st;
       rsp_bodies := bodies;
       rsp_back := match rb_h1 body with Some h1 => rsp_back self ++ [(rb_target body, h1)] | None => rsp_back self end |}
  else {| rsp_state := st; rsp_bodies := bodies; rsp_back := rsp_back self |}.
Definition ran (before after : DoneBody) : bool := (db_runs before <? db_runs after)%nat.

(** [DoneBody::poll_frame] over [Watched::poll_frame]; [inner] is what hyper's body answered. *)
Definition body_poll (self : Responses) (i : nat) (inner : FramePoll) (at_ : Z) : option Responses :=
  body ← rsp_bodies self !! i;
  let got := match inner with Frame _ => true | _ => false end in
  let done := (DoneBody_poll_frame (rb_done body) inner).1 in
  let body' := {| rb_target := rb_target body; rb_counted := rb_counted body; rb_h1 := rb_h1 body;
                  rb_progress := (λ p, Watched_poll_frame p got at_) <$> rb_progress body; rb_done := done |} in
  Some (body_ended self body (ran (rb_done body) done) (<[i := body']> (rsp_bodies self))).
(** The response is dropped. *)
Definition body_drop (self : Responses) (i : nat) : option Responses :=
  body ← rsp_bodies self !! i;
  Some (body_ended self body (ran (rb_done body) (DoneBody_drop (rb_done body))) (delete i (rsp_bodies self))).

Inductive ResponseEvent :=
| RspWrap (target : Target) (via : Sender) (at_ : Z)
| RspPoll (i : nat) (inner : FramePoll) (at_ : Z)
| RspDrop (i : nat)
| RspPool (ev : pool_event).
(** Counting is [wrap]'s and the bodies' alone. *)
Definition is_counting (ev : pool_event) : bool := match ev with PWrap _ | PBodyDone _ => true | _ => false end.
Definition response_step (self : Responses) (ev : ResponseEvent) : option Responses :=
  match ev with
  | RspWrap target via at_ => Some (wrap self target via at_)
  | RspPoll i inner at_ => body_poll self i inner at_
  | RspDrop i => body_drop self i
  | RspPool ev =>
      if is_counting ev then None
      else Some {| rsp_state := (pool_apply (rsp_state self) ev).1; rsp_bodies := rsp_bodies self; rsp_back := rsp_back self |}
  end.
Definition responses_start (r : Z) : Responses := {| rsp_state := pool_start r; rsp_bodies := []; rsp_back := [] |}.
Fixpoint response_run (self : Responses) (evs : list ResponseEvent) : option Responses :=
  match evs with
  | [] => Some self
  | ev :: evs => self ← response_step self ev; response_run self evs
  end.

(** ** The count of a host *)

Definition active_of (p : Pool) (target : Target) : nat := default 0%nat (h_active <$> hosts p !! target).
(** Every other operation keeps the counts: hosts that are counted at stay, and new ones begin at 0. *)
Definition same_active (p p' : Pool) : Prop := ∀ target, active_of p' target = active_of p target.

Lemma same_active_trans p1 p2 p3 : same_active p1 p2 → same_active p2 p3 → same_active p1 p3.
Proof. intros H1 H2 t. by rewrite H2, H1. Qed.
Lemma lock_counts p r : same_active p (hosts_lock p r).
Proof. intros t. unfold hosts_lock. case_match; [done|]. unfold active_of. simpl. rewrite lookup_fmap. by destruct (hosts p !! t). Qed.
Lemma alter_active p f target : (∀ h, h_active (f h) = h_active h) → same_active p (with_hosts p (alter f target (hosts p))).
Proof.
  intros Hf t. unfold active_of. simpl. destruct (decide (t = target)) as [->|Hne]; [|by rewrite lookup_alter_ne].
  rewrite lookup_alter_eq. destruct (hosts p !! target) eqn:E; simpl; [by rewrite Hf|done].
Qed.
Lemma insert_active p target h : h_active h = active_of p target → same_active p (with_hosts p (<[target := h]> (hosts p))).
Proof.
  intros Hh t. unfold active_of in *. simpl. destruct (decide (t = target)) as [->|Hne]; [by rewrite lookup_insert_eq|by rewrite lookup_insert_ne].
Qed.
Lemma entry_active p target max_h1 now : h_active (host_entry p target max_h1 now) = active_of p target.
Proof. unfold host_entry, active_of. by destruct (hosts p !! target). Qed.
Lemma reuse_active env host now idle at_ : h_active (Host_reuse env host now idle at_).1 = h_active host.
Proof. unfold Host_reuse, reuse_idle. by repeat case_match. Qed.

Lemma reap_active p r env max_h1 now idle : same_active p (reap p r env max_h1 now idle).
Proof.
  eapply same_active_trans; [apply (lock_counts p r)|]. intros t. unfold reap, active_of. simpl. rewrite lookup_omap.
  destruct (hosts (hosts_lock p r) !! t) as [h|]; simpl; [|done]. unfold reap_host. case_match eqn:E; [|done]. simpl.
  rewrite !andb_true_iff in E. destruct E as [[[[_ _] E] _] _]. by apply Nat.eqb_eq in E as ->.
Qed.
Lemma evict_counts p r order : same_active p (evict_one p r order).
Proof.
  eapply same_active_trans; [apply (lock_counts p r)|]. unfold evict_one, evict_in. repeat case_match; try (by apply alter_active). by intros t.
Qed.
Lemma checkout_counts p r env target fresh_only max_h1 now idle at_ :
  same_active p (checkout_begin p r env target fresh_only max_h1 now idle at_).1.
Proof.
  eapply same_active_trans; [apply (lock_counts p r)|]. unfold checkout_begin. pose proof (entry_active (hosts_lock p r) target max_h1 now) as He.
  pose proof (reuse_active env (host_entry (hosts_lock p r) target max_h1 now) now idle at_) as Hr.
  destruct fresh_only; [by apply insert_active|]. destruct (Host_reuse env _ now idle at_) as [h s]. simpl in *. apply insert_active. simpl. congruence.
Qed.
Lemma dialing_counts p r env target fresh_only max_h1 before now idle at_ :
  same_active p (checkout_dialing p r env target fresh_only max_h1 before now idle at_).1.
Proof.
  eapply same_active_trans; [apply (lock_counts p r)|]. unfold checkout_dialing. pose proof (entry_active (hosts_lock p r) target max_h1 now) as He.
  pose proof (reuse_active env (host_entry (hosts_lock p r) target max_h1 now) now idle at_) as Hr.
  destruct fresh_only; [by apply insert_active|]. destruct (Host_reuse env _ now idle at_) as [h [s|]]; simpl in *; apply insert_active; simpl; congruence.
Qed.
Lemma pool_counts st ev : is_counting ev = false → same_active (pool st) (pool (pool_apply st ev).1).
Proof.
  destruct st as [p r l n]. intros Hc. destruct ev; try done; cbn [pool_apply].
  - pose proof (checkout_counts p r env target fresh_only max_h1 now idle at_) as Hk. by destruct (checkout_begin _ _ _ _ _ _ _ _ _).
  - pose proof (dialing_counts p r env target fresh_only max_h1 before now idle at_) as Hk. by destruct (checkout_dialing _ _ _ _ _ _ _ _ _ _).
  - eapply same_active_trans; [apply (lock_counts p r)|by apply alter_active].
  - simpl. destruct (t_tls target); [|done]. eapply same_active_trans; [apply (lock_counts p r)|by apply alter_active].
  - eapply same_active_trans; [apply (lock_counts p r)|by apply alter_active].
  - eapply same_active_trans; [apply (lock_counts p r)|by apply alter_active].
  - apply reap_active.
  - apply evict_counts.
Qed.

(** Counting itself. *)
Lemma wrap_counts p r target t : active_of (wrap_active p r target) t =
  (active_of p t + if decide (t = target) then if bool_decide (is_Some (hosts (hosts_lock p r) !! target)) then 1 else 0 else 0)%nat.
Proof.
  rewrite <-(lock_counts p r t). unfold wrap_active, active_of. simpl. destruct (decide (t = target)) as [->|Hne]; [|rewrite lookup_alter_ne by done; lia].
  rewrite lookup_alter_eq. destruct (hosts (hosts_lock p r) !! target) as [h|]; simpl; [lia|done].
Qed.
Lemma done_counts p target t : active_of (body_done p target) t = (active_of p t - if decide (t = target) then 1 else 0)%nat.
Proof.
  unfold body_done, active_of. simpl. destruct (decide (t = target)) as [->|Hne]; [|rewrite lookup_alter_ne by done; lia].
  rewrite lookup_alter_eq. destruct (hosts p !! target) as [h|]; simpl; lia.
Qed.

(** ** Every body is counted once *)

(** A body that has not ended, at its host and with its connection. *)
Definition open_at (target : Target) (body : ResponseBody) : nat :=
  if on_done (rb_done body) && rb_counted body && bool_decide (rb_target body = target) then 1 else 0.
Definition open_h1 (body : ResponseBody) : nat :=
  if on_done (rb_done body) && bool_decide (is_Some (rb_h1 body)) then 1 else 0.
Definition done_ok (body : ResponseBody) : Prop := db_runs (rb_done body) = if on_done (rb_done body) then 0%nat else 1%nat.

Record responses_inv (h1_wraps : nat) (self : Responses) : Prop := {
  rsi_counts target : active_of (pool (rsp_state self)) target = sum_list_with (open_at target) (rsp_bodies self);
  rsi_back : (length (rsp_back self) + sum_list_with open_h1 (rsp_bodies self) = h1_wraps)%nat;
  rsi_done : Forall done_ok (rsp_bodies self)
}.

(** The end of a body, whichever way: its count and its connection leave with it. *)
Lemma body_ended_inv n self (body : ResponseBody) (runs : bool) (bodies : list ResponseBody) :
  responses_inv n self → (∀ f : ResponseBody → nat, (f body ≤ sum_list_with f (rsp_bodies self))%nat) →
  (∀ target, (sum_list_with (open_at target) bodies + (if runs then open_at target body else 0) = sum_list_with (open_at target) (rsp_bodies self))%nat) →
  (sum_list_with open_h1 bodies + (if runs then open_h1 body else 0) = sum_list_with open_h1 (rsp_bodies self))%nat →
  Forall done_ok bodies → (runs = true → on_done (rb_done body) = true) →
  responses_inv n (body_ended self body runs bodies).
Proof.
  intros [Hc Hb Hd] Hle Hat Hh1 Hok Hruns. destruct runs; simpl; [|split; simpl; [|lia|done]].
  - specialize (Hruns eq_refl). split; simpl; [| |done].
    + intros target. specialize (Hat target). specialize (Hc target). pose proof (Hle (open_at target)) as Hl. unfold open_at in Hat at 2. unfold open_at in Hl at 1. rewrite Hruns in Hat, Hl. cbn [andb] in *.
      destruct (rb_counted body); cbn [andb] in *; [|lia]. simpl. rewrite done_counts.
      destruct (decide (target = rb_target body)) as [->|Hne]; [rewrite bool_decide_true in * by done|rewrite bool_decide_false in * by done]; lia.
    + unfold open_h1 in Hh1 at 2. rewrite Hruns in Hh1. cbn [andb] in Hh1. destruct (rb_h1 body); simpl in Hh1; rewrite ?length_app; simpl; lia.
  - intros target. specialize (Hat target). specialize (Hc target). lia.
Qed.
Definition wraps_h1 (ev : ResponseEvent) : nat := match ev with RspWrap _ (SendHttp1 _) _ => 1 | _ => 0 end.

Lemma done_polled d inner : let d' := (DoneBody_poll_frame d inner).1 in
  (d' = d ∧ ran d d' = false) ∨ (on_done d = true ∧ on_done d' = false ∧ db_runs d' = S (db_runs d) ∧ ran d d' = true).
Proof.
  unfold DoneBody_poll_frame, DoneBody_done, ran. destruct inner, d as [[|] runs]; simpl; rewrite ?Nat.ltb_irrefl; auto;
    right; (split_and!; [done..|]); apply Nat.ltb_lt; lia.
Qed.
Lemma sum_elem_le {A} (f : A → nat) l i x : l !! i = Some x → (f x ≤ sum_list_with f l)%nat.
Proof. intros Hi. rewrite (sum_delete f l i x Hi). lia. Qed.

Lemma response_step_inv n self ev self' : responses_inv n self → response_step self ev = Some self' → responses_inv (n + wraps_h1 ev) self'.
Proof.
  intros Hi Hs. destruct ev as [target via at_|i inner at_|i|ev]; cbn [response_step wraps_h1] in *.
  - destruct Hi as [Hc Hb Hd]. simplify_eq. unfold wrap. split; simpl.
    + intros t. rewrite wrap_counts, sum_list_with_app, Hc. simpl. unfold open_at at 3. simpl.
      destruct (decide (t = target)) as [->|Hne]; [rewrite (bool_decide_true (target = target)) by done|rewrite (bool_decide_false (target = t)) by done];
        rewrite ?andb_true_r, ?andb_false_r; lia.
    + rewrite sum_list_with_app. simpl. destruct via; unfold open_h1 at 2; simpl; lia.
    + apply Forall_app. split; [done|]. by repeat constructor.
  - rewrite Nat.add_0_r. unfold body_poll in Hs. destruct (rsp_bodies self !! i) as [body|] eqn:Hb; [|done]. cbn [mbind option_bind] in Hs. simplify_eq.
    pose proof (done_polled (rb_done body) inner) as Hd. pose proof (rsi_done _ _ Hi) as Hok. rewrite Forall_lookup in Hok. specialize (Hok _ _ Hb).
    set (d' := (DoneBody_poll_frame (rb_done body) inner).1) in *. cbv zeta in Hd.
    apply body_ended_inv; [done|intros f; by eapply sum_elem_le|..].
    + intros target. match goal with |- context [<[i := ?b]> _] => pose proof (sum_insert (open_at target) _ _ _ b Hb) as Hsum end.
      unfold open_at in Hsum at 1 3. unfold open_at at 2. simpl in Hsum. destruct Hd as [[E ->]|(H1 & H2 & _ & ->)]; [rewrite E in Hsum |- *; lia|]. rewrite H1, H2 in *. simpl in *. lia.
    + match goal with |- context [<[i := ?b]> _] => pose proof (sum_insert open_h1 _ _ _ b Hb) as Hsum end.
      unfold open_h1 in Hsum at 1 3. unfold open_h1 at 2. simpl in Hsum. destruct Hd as [[E ->]|(H1 & H2 & _ & ->)]; [rewrite E in Hsum |- *; lia|]. rewrite H1, H2 in *. simpl in *. lia.
    + apply Forall_insert; [apply Hi|]. unfold done_ok in *. simpl. destruct Hd as [[-> _]|(H1 & H2 & -> & _)]; [done|]. rewrite H1 in Hok. by rewrite H2, Hok.
    + destruct Hd as [[_ ->]|(? & _)]; done.
  - rewrite Nat.add_0_r. unfold body_drop in Hs. destruct (rsp_bodies self !! i) as [body|] eqn:Hb; [|done]. cbn [mbind option_bind] in Hs. simplify_eq.
    pose proof (done_polled (rb_done body) FrameEnd) as Hd. cbv zeta in Hd. change (DoneBody_poll_frame (rb_done body) FrameEnd).1 with (DoneBody_drop (rb_done body)) in Hd.
    apply body_ended_inv; [done|intros f; by eapply sum_elem_le|..].
    + intros target. rewrite (sum_delete (open_at target) _ _ _ Hb). unfold open_at at 2 3.
      destruct Hd as [[Heq ->]|(H1 & _ & _ & ->)]; [|lia]. unfold DoneBody_drop, DoneBody_done in Heq. destruct (rb_done body) as [[|] runs]; [done|]. simpl. lia.
    + rewrite (sum_delete open_h1 _ _ _ Hb). unfold open_h1 at 2 3.
      destruct Hd as [[Heq ->]|(H1 & _ & _ & ->)]; [|lia]. unfold DoneBody_drop, DoneBody_done in Heq. destruct (rb_done body) as [[|] runs]; [done|]. simpl. lia.
    + pose proof (rsi_done _ _ Hi). by apply Forall_delete.
    + destruct Hd as [[_ ->]|(? & _)]; done.
  - rewrite Nat.add_0_r. destruct (is_counting ev) eqn:Hc; [done|]. simplify_eq. destruct Hi as [Hco Hb Hd]. split; simpl; [|done|done].
    intros target. rewrite (pool_counts _ _ Hc). apply Hco.
Qed.
Lemma response_run_inv evs : ∀ n self self', responses_inv n self → response_run self evs = Some self' → responses_inv (n + sum_list_with wraps_h1 evs) self'.
Proof.
  induction evs as [|ev evs IH]; intros n self self' Hi Hr; simpl in *; [simplify_eq; by rewrite Nat.add_0_r|].
  destruct (response_step self ev) as [self1|] eqn:Hs; [|done]. rewrite Nat.add_assoc. eapply IH; [by eapply response_step_inv|done].
Qed.
Lemma responses_start_inv r : responses_inv 0 (responses_start r).
Proof. split; [|done|constructor]. intros t. unfold active_of. simpl. by rewrite lookup_empty. Qed.

(** C34: a response counts at its host from its headers to its end, once. Over every interleaving of
    responses (their polls, ends, failures and drops) with every other operation of the pool, the
    number of active responses of a host is the number of its bodies that have not ended; every
    HTTP/1.1 connection goes back exactly once, when its body is over; and while a response is open its
    host is not forgotten and its shared connection is not reaped as idle. *)
Theorem responses_counted_once (r : Z) (evs : list ResponseEvent) (self : Responses) : response_run (responses_start r) evs = Some self →
  (∀ target, active_of (pool (rsp_state self)) target = sum_list_with (open_at target) (rsp_bodies self)) ∧
  (length (rsp_back self) + sum_list_with open_h1 (rsp_bodies self) = sum_list_with wraps_h1 evs)%nat ∧
  (∀ i target body, rsp_bodies self !! i = Some body → open_at target body = 1%nat →
     ∃ host, hosts (pool (rsp_state self)) !! target = Some host ∧ h_active host ≠ 0%nat ∧
     ∀ env max_h1 now idle, ∃ host', hosts (reap (pool (rsp_state self)) (resets (rsp_state self)) env max_h1 now idle) !! target = Some host' ∧
       (resets_seen (pool (rsp_state self)) = resets (rsp_state self) → ∀ conn, h_h2 host = Some conn → is_closed env conn = false → h_h2 host' = Some conn)).
Proof.
  intros Hr. destruct (response_run_inv _ _ _ _ (responses_start_inv r) Hr) as [Hc Hb _]. split_and!; [done|done|].
  intros i target body Hi Ho. pose proof (sum_elem_le (open_at target) _ _ _ Hi) as Hle. rewrite <-Hc, Ho in Hle.
  pose proof (lock_counts (pool (rsp_state self)) (resets (rsp_state self)) target) as Hlock. unfold active_of in Hle, Hlock.
  destruct (hosts (pool (rsp_state self)) !! target) as [host|] eqn:Hh; simpl in Hle, Hlock; [|lia]. exists host. split_and!; [done|lia|].
  intros env max_h1 now idle. destruct (hosts (hosts_lock (pool (rsp_state self)) (resets (rsp_state self))) !! target) as [hl|] eqn:Hhl; simpl in Hlock; [|lia].
  assert (h_active hl ≠ 0)%nat as Hne by lia. apply Nat.eqb_neq in Hne.
  unfold reap. simpl. rewrite lookup_omap, Hhl. simpl. unfold reap_host. rewrite Hne, !andb_false_r. cbn [andb]. eexists. split; [done|].
  intros Heq conn H2 Hcl. unfold hosts_lock in Hhl. rewrite Heq, Z.eqb_refl in Hhl. rewrite Hh in Hhl. simplify_eq. simpl. by rewrite H2, Hcl.
Qed.

(** A response that came on an HTTP/1.1 connection is read to its end while its host is reaped. *)
Definition example_env : ConnEnv := {| is_ready := λ _, true; is_closed := λ _, false; streams := λ _, [] |}.
Definition response_events : list ResponseEvent :=
  [RspPool (PCheckout example_env example_target true 6 0 60 0); RspPool (PNewHttp1 example_target);
   RspWrap example_target (SendHttp1 0) 1; RspPoll 0 (Frame [1]) 2; RspPool (PReap example_env 6 500 60); RspPoll 0 FrameEnd 3;
   RspWrap example_target (SendHttp2 1) 4; RspPool (PReap example_env 6 900 60)].
Definition after_responses : Responses := default (responses_start 0) (response_run (responses_start 0) response_events).
Lemma responses_counted_once_witness : active_of (pool (rsp_state after_responses)) example_target = 1%nat ∧ rsp_back after_responses = [(example_target, 0%nat)].
Proof.
  assert (response_run (responses_start 0) response_events = Some after_responses) as Hr.
  { unfold after_responses. destruct (response_run (responses_start 0) response_events) eqn:E; [reflexivity|]. exfalso. vm_compute in E. discriminate. }
  destruct (responses_counted_once 0 response_events after_responses Hr) as (Hc & _ & _). split; [rewrite Hc; vm_compute; reflexivity|vm_compute; reflexivity].
Defined.
