(* ===== verification/Checkout.v ===== *)
(** * Opening upstream connections ([mitm/src/upstream.rs]: [checkout], [connect], [handshake])

    Requests that need a connection run [checkout] at the same time: each is a task that moves
    from one point where it waits to the next. The pool's blocks under its lock are [Pool]'s. What
    a task holds is explicit: a permit of the global semaphore, a slot of its origin, the dial lock
    of its origin and, while it waits, clones of the origin's [slots] and [dial]. An origin that is
    forgotten and asked for again is a new [Host], with a slot semaphore and a dial lock of its
    own, so hosts have identities ([ck_ids]). Tasks may be cancelled at any time, as when the
    client is gone. What dialing and TLS answer is an argument. *)
From S2P Require Import Prelude RustStr Collections Net Io UpstreamError Request Outbound Pool PoolProps.

Definition EVICT_RETRY : Z := 50.

(** Where a checkout is: every constructor is a point where another task may run. [before] is
    [dials_before], [global] whether it holds a permit, [host] the host whose [slots] and [dial]
    it has cloned; [slot] and [dialing] tell whether it holds a slot and the dial lock. *)
Inductive TaskState :=
| TaskBegin (before : option Z) (global : bool)
| TaskSlot (before : option Z) (global : bool) (host : nat)
| TaskDialWait (before : Z) (global : bool) (host : nat) (protocol : option Protocol)
| TaskDialing (before : Z) (global : bool) (host : nat) (protocol : option Protocol)
| TaskTurn (before : Z) (global : bool) (host : nat)
| TaskPermit (before : Z) (host : nat)
| TaskTaken (host : nat)
| TaskConnectPermit (host : nat)
| TaskConnect (slot dialing : bool) (host : nat)
| TaskStartHttp1 (slot dialing : bool) (host : nat)
| TaskStartHttp2 (dialing : bool) (host : nat)
| TaskDialed (host : nat) (res : result Sender UpstreamError)
| TaskDone (res : option (result Sender UpstreamError)).
Record CheckoutTask := { tk_target : Target; tk_fresh : bool; tk_state : TaskState }.
Definition in_state (t : CheckoutTask) (s : TaskState) : CheckoutTask := {| tk_target := tk_target t; tk_fresh := tk_fresh t; tk_state := s |}.
(** A connection that is open, with the slot it holds of a host. *)
Record LiveConn := { lv_conn : nat; lv_target : Target; lv_slot : option nat }.

Record Checkouts := {
  ck_pool : Pool;
  ck_resets : Z;
  ck_ids : gmap Target nat;
  ck_next_id : nat;
  ck_global : nat;
  ck_tasks : list CheckoutTask;
  ck_conns : list LiveConn;
  ck_next_conn : nat
}.
Definition Checkouts_new (max_connections : nat) : Checkouts :=
  {| ck_pool := Pool_new 0; ck_resets := 0; ck_ids := ∅; ck_next_id := 0; ck_global := max_connections;
     ck_tasks := []; ck_conns := []; ck_next_conn := 0 |}.

Definition set_slots (slots : nat) (self : Host) : Host :=
  {| h_protocol := h_protocol self; h_h2 := h_h2 self; h_idle := h_idle self; h_slots := slots; h_waiting := h_waiting self;
     h_dials := h_dials self; h_last_dial := h_last_dial self; h_active := h_active self; h_last_used := h_last_used self |}.
Definition set_waiting (waiting : nat) (self : Host) : Host :=
  {| h_protocol := h_protocol self; h_h2 := h_h2 self; h_idle := h_idle self; h_slots := h_slots self; h_waiting := waiting;
     h_dials := h_dials self; h_last_dial := h_last_dial self; h_active := h_active self; h_last_used := h_last_used self |}.

Definition with_pool (self : Checkouts) (pool : Pool) : Checkouts :=
  {| ck_pool := pool; ck_resets := ck_resets self; ck_ids := ck_ids self; ck_next_id := ck_next_id self; ck_global := ck_global self;
     ck_tasks := ck_tasks self; ck_conns := ck_conns self; ck_next_conn := ck_next_conn self |}.
Definition with_task (self : Checkouts) (i : nat) (t : CheckoutTask) (state : TaskState) : Checkouts :=
  {| ck_pool := ck_pool self; ck_resets := ck_resets self; ck_ids := ck_ids self; ck_next_id := ck_next_id self; ck_global := ck_global self;
     ck_tasks := <[i := in_state t state]> (ck_tasks self);
     ck_conns := ck_conns self; ck_next_conn := ck_next_conn self |}.
Definition with_global (self : Checkouts) (global : nat) : Checkouts :=
  {| ck_pool := ck_pool self; ck_resets := ck_resets self; ck_ids := ck_ids self; ck_next_id := ck_next_id self; ck_global := global;
     ck_tasks := ck_tasks self; ck_conns := ck_conns self; ck_next_conn := ck_next_conn self |}.
Definition with_conns (self : Checkouts) (conns : list LiveConn) (next : nat) : Checkouts :=
  {| ck_pool := ck_pool self; ck_resets := ck_resets self; ck_ids := ck_ids self; ck_next_id := ck_next_id self; ck_global := ck_global self;
     ck_tasks := ck_tasks self; ck_conns := conns; ck_next_conn := next |}.
(** The host a target has now has an identity. *)
Definition with_id (self : Checkouts) (target : Target) : Checkouts :=
  match ck_ids self !! target with
  | Some _ => self
  | None => {| ck_pool := ck_pool self; ck_resets := ck_resets self; ck_ids := <[target := ck_next_id self]> (ck_ids self);
               ck_next_id := S (ck_next_id self); ck_global := ck_global self; ck_tasks := ck_tasks self; ck_conns := ck_conns self;
               ck_next_conn := ck_next_conn self |}
  end.
(** A change to the host [id] of [target]: none if it is another host by now. *)
Definition on_host (self : Checkouts) (target : Target) (id : nat) (f : Host → Host) : Checkouts :=
  if bool_decide (ck_ids self !! target = Some id) then with_pool self (with_hosts (ck_pool self) (alter f target (hosts (ck_pool self)))) else self.
Definition free_slots (self : Checkouts) (target : Target) (id : nat) : nat :=
  if bool_decide (ck_ids self !! target = Some id) then default 0%nat (h_slots <$> hosts (ck_pool self) !! target) else 0%nat.

(** ** What a task holds *)

Definition holds_global (s : TaskState) : bool :=
  match s with
  | TaskBegin _ g | TaskSlot _ g _ | TaskDialWait _ g _ _ | TaskDialing _ g _ _ | TaskTurn _ g _ => g
  | TaskTaken _ | TaskConnect _ _ _ | TaskStartHttp1 _ _ _ | TaskStartHttp2 _ _ => true
  | TaskPermit _ _ | TaskConnectPermit _ | TaskDialed _ _ | TaskDone _ => false
  end.
Definition holds_slot (s : TaskState) : option nat :=
  match s with
  | TaskConnectPermit host | TaskConnect true _ host | TaskStartHttp1 true _ host => Some host
  | _ => None
  end.
Definition holds_clones (s : TaskState) : option nat :=
  match s with
  | TaskBegin _ _ | TaskDone _ => None
  | TaskSlot _ _ host | TaskDialWait _ _ host _ | TaskDialing _ _ host _ | TaskTurn _ _ host | TaskPermit _ host
  | TaskTaken host | TaskConnectPermit host | TaskConnect _ _ host | TaskStartHttp1 _ _ host | TaskStartHttp2 _ host
  | TaskDialed host _ => Some host
  end.
Definition holds_dial (s : TaskState) : option nat :=
  match s with
  | TaskDialing _ _ host _ | TaskTurn _ _ host | TaskTaken host | TaskConnect _ true host | TaskStartHttp1 _ true host
  | TaskStartHttp2 true host | TaskDialed host _ => Some host
  | _ => None
  end.
(** Permits and clones given back to the host they came from, or taken from it. *)
Definition give_slot (self : Checkouts) (target : Target) (slot : option nat) : Checkouts :=
  match slot with Some id => on_host self target id (λ host, set_slots (S (h_slots host)) host) | None => self end.
Definition take_slot (self : Checkouts) (target : Target) (slot : option nat) : Checkouts :=
  match slot with Some id => on_host self target id (λ host, set_slots (pred (h_slots host)) host) | None => self end.
Definition drop_clones (self : Checkouts) (target : Target) (host : option nat) : Checkouts :=
  match host with Some id => on_host self target id (λ host, set_waiting (pred (h_waiting host)) host) | None => self end.
Definition add_clones (self : Checkouts) (target : Target) (host : option nat) : Checkouts :=
  match host with Some id => on_host self target id (λ host, set_waiting (S (h_waiting host)) host) | None => self end.
Definition give_global (self : Checkouts) (held : bool) : Checkouts := if held then with_global self (S (ck_global self)) else self.
Definition take_global (self : Checkouts) (held : bool) : Checkouts := if held then with_global self (pred (ck_global self)) else self.
(** Task [i] goes on to [s]: what the old state held is dropped, what [s] holds is taken. *)
Definition move (self : Checkouts) (i : nat) (t : CheckoutTask) (s : TaskState) : Checkouts :=
  let target := tk_target t in
  let self := give_global self (holds_global (tk_state t)) in
  let self := give_slot self target (holds_slot (tk_state t)) in
  let self := drop_clones self target (holds_clones (tk_state t)) in
  let self := with_task self i t s in
  let self := take_global self (holds_global s) in
  let self := take_slot self target (holds_slot s) in
  add_clones self target (holds_clones s).
(** A connection's task is spawned with its permits. *)
Definition open_conn (self : Checkouts) (target : Target) (slot : option nat) : Checkouts :=
  let self := take_slot (take_global self true) target slot in
  with_conns self ({| lv_conn := ck_next_conn self; lv_target := target; lv_slot := slot |} :: ck_conns self) (S (ck_next_conn self)).
Definition close_conn (self : Checkouts) (k : nat) : Checkouts :=
  match ck_conns self !! k with
  | Some c => with_conns (give_slot (give_global self true) (lv_target c) (lv_slot c)) (delete k (ck_conns self)) (ck_next_conn self)
  | None => self
  end.

(** ** Steps *)

Inductive PoolOp :=
| OpGiveBack (target : Target) (conn : nat) (now : Z)
| OpWrap (target : Target)
| OpBodyDone (target : Target)
| OpEvict (order : gmap Target Host → list (Target * Host)).
Definition pool_op (self : Pool) (resets : Z) (op : PoolOp) : Pool :=
  match op with
  | OpGiveBack target conn now => give_back self resets target conn now
  | OpWrap target => wrap_active self resets target
  | OpBodyDone target => body_done self target
  | OpEvict order => evict_one self resets order
  end.

Inductive CheckoutEvent :=
| CkCall (target : Target) (fresh_only : bool)
| CkBegin (i : nat) (env : ConnEnv) (now at_ : Z)
| CkSlot (i : nat)
| CkReady (i : nat)
| CkLock (i : nat)
| CkTurn (i : nat) (env : ConnEnv) (now at_ : Z)
| CkTryPermit (i : nat)
| CkPermit (i : nat)
| CkExhausted (i : nat)
| CkTrySlot (i : nat)
| CkSecured (i : nat) (is_h2 : result bool UpstreamError)
| CkStarted (i : nat) (started : result unit UpstreamError)
| CkTimeout (i : nat)
| CkRecord (i : nat)
| CkCancel (i : nat)
| CkConnEnds (k : nat)
| CkPool (op : PoolOp)
| CkReap (env : ConnEnv) (now : Z)
| CkReset.

Section Steps.
  (** [max_h1_per_host] and the idle timeout in seconds. *)
  Context (max_h1 : nat) (idle : Z).

  (** The block that looks for a pooled connection, up to where the task waits. *)
Definition step_begin (self : Checkouts) (i : nat) (t : CheckoutTask) (before : option Z) (global : bool) (env : ConnEnv) (now at_ : Z) : Checkouts :=
    let target := tk_target t in
    let '(pool, reused) := checkout_begin (ck_pool self) (ck_resets self) env target (tk_fresh t) max_h1 now idle at_ in
    let self := with_id (with_pool self pool) target in
    match reused with
    | Some sender => move self i t (TaskDone (Some (Ok sender)))
    | None =>
        let host := host_entry pool target max_h1 now in
        let id := default 0%nat (ck_ids self !! target) in
        move self i t
          (if bool_decide (h_protocol host = Some Http1) then TaskSlot before global id
           else TaskDialWait (default (h_dials host) before) global id (h_protocol host))
    end.
  (** The block under the dial lock. *)
Definition step_turn (self : Checkouts) (i : nat) (t : CheckoutTask) (before : Z) (global : bool) (host : nat) (protocol : option Protocol)
      (env : ConnEnv) (now at_ : Z) : Checkouts :=
    let target := tk_target t in
    let '(pool, turn) := checkout_dialing (ck_pool self) (ck_resets self) env target (tk_fresh t) max_h1 before now idle at_ in
    let self := with_id (with_pool self pool) target in
    move self i t
      match turn with
      | TurnReused sender => TaskDone (Some (Ok sender))
      | TurnUnreachable e => TaskDone (Some (Err e))
      | TurnGoOn now_protocol =>
          if bool_decide (protocol = None) && bool_decide (now_protocol = Some Http1) then TaskBegin (Some before) global
          else TaskTurn before global host
      end.
  (** [connect] returned to [checkout]: under the dial lock its result is recorded first. *)
Definition connected (dialing : bool) (host : nat) (res : result Sender UpstreamError) : TaskState :=
    if dialing then TaskDialed host res else TaskDone (Some res).
  (** [handshake], up to the agreed protocol. *)
Definition step_secured (self : Checkouts) (i : nat) (t : CheckoutTask) (slot dialing : bool) (host : nat) (is_h2 : result bool UpstreamError) : Checkouts :=
    let target := tk_target t in
    match is_h2 with
    | Err e => move self i t (connected dialing host (Err e))
    | Ok is_h2 =>
        if negb (t_tls target) then move self i t (TaskStartHttp1 slot dialing host)
        else if is_h2 then move self i t (TaskStartHttp2 dialing host)
        else move (with_pool self (set_protocol (ck_pool self) (ck_resets self) target Http1 None)) i t (TaskStartHttp1 slot dialing host)
    end.
  (** [start_http1], and the end of [handshake] for HTTP/2. *)
Definition step_http1 (self : Checkouts) (i : nat) (t : CheckoutTask) (slot dialing : bool) (host : nat) (started : result unit UpstreamError) : Checkouts :=
    match started with
    | Err e => move self i t (connected dialing host (Err e))
    | Ok _ =>
        open_conn (move self i t (connected dialing host (Ok (SendHttp1 (ck_next_conn self))))) (tk_target t)
          (if slot then Some host else None)
    end.
Definition step_http2 (self : Checkouts) (i : nat) (t : CheckoutTask) (dialing : bool) (host : nat) (started : result unit UpstreamError) : Checkouts :=
    match started with
    | Err e => move self i t (connected dialing host (Err e))
    | Ok _ =>
        let conn := ck_next_conn self in
        let self := open_conn (move self i t (connected dialing host (Ok (SendHttp2 conn)))) (tk_target t) None in
        with_pool self (set_protocol (ck_pool self) (ck_resets self) (tk_target t) Http2 (Some conn))
    end.
  (** A task that is cancelled drops what it holds. *)
Definition step_cancel (self : Checkouts) (i : nat) (t : CheckoutTask) : option Checkouts :=
    match tk_state t with TaskDone _ => None | _ => Some (move self i t (TaskDone None)) end.
Definition step_timeout (self : Checkouts) (i : nat) (t : CheckoutTask) : option Checkouts :=
    match tk_state t with
    | TaskConnect _ dialing host | TaskStartHttp1 _ dialing host | TaskStartHttp2 dialing host =>
        Some (move self i t (connected dialing host (Err Timeout)))
    | _ => None
    end.
  (** No other checkout has the dial lock of [host]. *)
Definition dial_free (self : Checkouts) (target : Target) (host : nat) : bool :=
    forallb (λ t, negb (bool_decide (tk_target t = target) && bool_decide (holds_dial (tk_state t) = Some host))) (ck_tasks self).
  (** Hosts that are gone have no identity. *)
Definition step_reap (self : Checkouts) (env : ConnEnv) (now : Z) : Checkouts :=
    let pool := reap (ck_pool self) (ck_resets self) env max_h1 now idle in
    {| ck_pool := pool; ck_resets := ck_resets self; ck_ids := filter (λ x, is_Some (hosts pool !! x.1)) (ck_ids self);
       ck_next_id := ck_next_id self; ck_global := ck_global self; ck_tasks := ck_tasks self; ck_conns := ck_conns self;
       ck_next_conn := ck_next_conn self |}.

  (** One step of task [i], [None] when it is not there. *)
Definition on_task (self : Checkouts) (i : nat) (f : CheckoutTask → option Checkouts) : option Checkouts :=
    ck_tasks self !! i ≫= f.
Definition checkout_step (self : Checkouts) (ev : CheckoutEvent) : option Checkouts :=
    match ev with
    | CkCall target fresh_only =>
        Some {| ck_pool := ck_pool self; ck_resets := ck_resets self; ck_ids := ck_ids self; ck_next_id := ck_next_id self;
                ck_global := ck_global self;
                ck_tasks := ck_tasks self ++ [{| tk_target := target; tk_fresh := fresh_only; tk_state := TaskBegin None false |}];
                ck_conns := ck_conns self; ck_next_conn := ck_next_conn self |}
    | CkBegin i env now at_ => on_task self i (λ t,
        match tk_state t with TaskBegin before global => Some (step_begin self i t before global env now at_) | _ => None end)
    | CkSlot i => on_task self i (λ t,
        match tk_state t with
        | TaskSlot before global host =>
            if (0 <? free_slots self (tk_target t) host)%nat
            then Some (move self i t (if global then TaskConnect true false host else TaskConnectPermit host)) else None
        | _ => None
        end)
    | CkReady i => on_task self i (λ t,
        match tk_state t with
        | TaskSlot before global host => if tk_fresh t then None else Some (move self i t (TaskBegin before global))
        | _ => None
        end)
    | CkLock i => on_task self i (λ t,
        match tk_state t with
        | TaskDialWait before global host protocol =>
            if dial_free self (tk_target t) host then Some (move self i t (TaskDialing before global host protocol)) else None
        | _ => None
        end)
    | CkTurn i env now at_ => on_task self i (λ t,
        match tk_state t with
        | TaskDialing before global host protocol => Some (step_turn self i t before global host protocol env now at_)
        | _ => None
        end)
    | CkTryPermit i => on_task self i (λ t,
        match tk_state t with
        | TaskTurn before global host =>
            Some (move self i t (if global || (0 <? ck_global self)%nat then TaskTaken host else TaskPermit before host))
        | _ => None
        end)
    | CkPermit i => on_task self i (λ t,
        if (0 <? ck_global self)%nat then
          match tk_state t with
          | TaskPermit before host => Some (move self i t (TaskBegin (Some before) true))
          | TaskConnectPermit host => Some (move self i t (TaskConnect true false host))
          | _ => None
          end
        else None)
    | CkExhausted i => on_task self i (λ t,
        match tk_state t with
        | TaskPermit _ _ | TaskConnectPermit _ => Some (move self i t (TaskDone (Some (Err Exhausted))))
        | _ => None
        end)
    | CkTrySlot i => on_task self i (λ t,
        match tk_state t with
        | TaskTaken host => Some (move self i t (TaskConnect (0 <? free_slots self (tk_target t) host)%nat true host))
        | _ => None
        end)
    | CkSecured i is_h2 => on_task self i (λ t,
        match tk_state t with TaskConnect slot dialing host => Some (step_secured self i t slot dialing host is_h2) | _ => None end)
    | CkStarted i started => on_task self i (λ t,
        match tk_state t with
        | TaskStartHttp1 slot dialing host => Some (step_http1 self i t slot dialing host started)
        | TaskStartHttp2 dialing host => Some (step_http2 self i t dialing host started)
        | _ => None
        end)
    | CkTimeout i => on_task self i (step_timeout self i)
    | CkRecord i => on_task self i (λ t,
        match tk_state t with
        | TaskDialed host res =>
            Some (move (with_pool self (dial_done (ck_pool self) (ck_resets self) (tk_target t) (Unreachable_of res))) i t (TaskDone (Some res)))
        | _ => None
        end)
    | CkCancel i => on_task self i (step_cancel self i)
    | CkConnEnds k => Some (close_conn self k)
    | CkPool op => Some (with_pool self (pool_op (ck_pool self) (ck_resets self) op))
    | CkReap env now => Some (step_reap self env now)
    | CkReset =>
        Some {| ck_pool := ck_pool self; ck_resets := ck_resets self + 1; ck_ids := ck_ids self; ck_next_id := ck_next_id self;
                ck_global := ck_global self; ck_tasks := ck_tasks self; ck_conns := ck_conns self; ck_next_conn := ck_next_conn self |}
    end.
Definition checkout_run (self : Checkouts) (evs : list CheckoutEvent) : option Checkouts :=
    foldl (λ st ev, st ≫= λ self, checkout_step self ev) (Some self) evs.
End Steps.

(** ** Waiting for a permit *)

(** What round [k] of [global_permit] meets: a permit that is free at once, how the wait for one
    ended (a permit at some time, the semaphore closed, or neither before the retry), and how
    late after its instant the timer woke the task. Times are milliseconds. *)
Inductive Freed := FreedAt (at_ : Z) | FreedClosed | FreedLate (late : Z).
Record PermitRound := { pr_free : bool; pr_freed : Freed }.
(** The result, when, and how often a connection was evicted. *)
Fixpoint global_permit_loop (fuel : nat) (deadline now : Z) (evicted : nat) (world : nat → PermitRound) : option (result unit UpstreamError * Z * nat) :=
  match fuel with
  | O => None
  | S fuel =>
      if pr_free (world evicted) then Some (Ok tt, now, evicted)
      else
        let retry := Z.min (now + EVICT_RETRY) deadline in
        match pr_freed (world evicted) with
        | FreedAt at_ => Some (Ok tt, Z.min at_ retry, S evicted)
        | FreedClosed => Some (Err Exhausted, now, S evicted)
        | FreedLate late =>
            let now := retry + late in
            if deadline <=? now then Some (Err Exhausted, now, S evicted) else global_permit_loop fuel deadline now (S evicted) world
        end
  end.
Definition permit_rounds (connect_timeout : Z) : nat := S (Z.to_nat (connect_timeout / EVICT_RETRY)).
Definition global_permit (connect_timeout now : Z) (world : nat → PermitRound) : option (result unit UpstreamError * Z * nat) :=
  global_permit_loop (permit_rounds connect_timeout) (now + connect_timeout) now 0 world.
