(* ===== verification/CheckoutProps.v ===== *)
(** * What opening upstream connections promises

    An invariant of every history of checkouts, connections, evictions, reaps and resets: the
    permits of the global semaphore and the slots of every origin are accounted for, an origin in
    use is never forgotten, and its dial lock has one holder. *)
From S2P Require Import Prelude RustStr Collections Net Io UpstreamError Request Outbound Pool Checkout.

(** ** Counting *)

Section Count.
  Context {A : Type} (f : A → nat).
Definition total (l : list A) : nat := sum_list (f <$> l).
Lemma total_cons x l : total (x :: l) = (f x + total l)%nat.
Proof. done. Qed.
Lemma total_app l k : total (l ++ k) = (total l + total k)%nat.
Proof. induction l as [|x l IH]; [done|]. cbn [app]. rewrite !total_cons, IH. lia. Qed.
Lemma total_insert l i x y : l !! i = Some x → (total (<[i := y]> l) + f x = total l + f y)%nat.
Proof.
  revert i. induction l as [|z l IH]; intros [|i] Hi; try done.
  - injection Hi as ->. change (<[0%nat := y]> (x :: l)) with (y :: l). rewrite !total_cons. lia.
  - change (<[S i := y]> (z :: l)) with (z :: <[i := y]> l). rewrite !total_cons. specialize (IH i Hi). lia.
Qed.
Lemma total_delete l i x : l !! i = Some x → (total (delete i l) + f x = total l)%nat.
Proof.
  revert i. induction l as [|z l IH]; intros [|i] Hi; try done.
  - injection Hi as ->. change (delete 0%nat (x :: l)) with l. rewrite total_cons. lia.
  - change (delete (S i) (z :: l)) with (z :: delete i l). rewrite !total_cons. specialize (IH i Hi). lia.
Qed.
Lemma total_elem l x : x ∈ l → (f x ≤ total l)%nat.
Proof. induction 1 as [x l|x y l _ IH]; rewrite total_cons; lia. Qed.
Lemma total_zero l : (∀ x, x ∈ l → f x = 0%nat) → total l = 0%nat.
Proof.
  induction l as [|x l IH]; [done|]. intros Hl. rewrite total_cons, (Hl x), IH; [done| |by left].
  intros y Hy. apply Hl. by right.
Qed.
End Count.

(** ** What is held, and what is left *)

Definition held {A} (o : option A) : nat := match o with Some _ => 1 | None => 0 end.
Definition at_target (target here : Target) (n : nat) : nat := if decide (target = here) then n else 0%nat.
Definition task_global (t : CheckoutTask) : nat := Nat.b2n (holds_global (tk_state t)).
Definition task_slot (target : Target) (t : CheckoutTask) : nat := at_target (tk_target t) target (held (holds_slot (tk_state t))).
Definition task_clones (target : Target) (t : CheckoutTask) : nat := at_target (tk_target t) target (held (holds_clones (tk_state t))).
Definition task_dial (target : Target) (t : CheckoutTask) : nat := at_target (tk_target t) target (held (holds_dial (tk_state t))).
Definition conn_slot (target : Target) (c : LiveConn) : nat := at_target (lv_target c) target (held (lv_slot c)).

(** The free slots of an origin and the checkouts that hold clones of it; an origin the pool
    does not know has all its slots. *)
Definition slots_in (max_h1 : nat) (hs : gmap Target Host) (target : Target) : nat := default max_h1 (h_slots <$> hs !! target).
Definition waiting_in (hs : gmap Target Host) (target : Target) : nat := default 0%nat (h_waiting <$> hs !! target).
Definition slots_left (max_h1 : nat) (self : Checkouts) : Target → nat := slots_in max_h1 (hosts (ck_pool self)).
Definition clones_out (self : Checkouts) : Target → nat := waiting_in (hosts (ck_pool self)).

Record ck_inv (max_connections max_h1 : nat) (self : Checkouts) : Prop := {
  inv_global : (ck_global self + total task_global (ck_tasks self) + length (ck_conns self) = max_connections)%nat;
  inv_slots : ∀ target, (slots_left max_h1 self target + total (task_slot target) (ck_tasks self)
                         + total (conn_slot target) (ck_conns self) = max_h1)%nat;
  inv_clones : ∀ target, clones_out self target = total (task_clones target) (ck_tasks self);
  inv_known : ∀ target, is_Some (hosts (ck_pool self) !! target) ↔ is_Some (ck_ids self !! target);
  inv_host : ∀ t id, t ∈ ck_tasks self → holds_clones (tk_state t) = Some id → ck_ids self !! tk_target t = Some id;
  inv_conn : ∀ c id, c ∈ ck_conns self → lv_slot c = Some id → ck_ids self !! lv_target c = Some id;
  inv_dial : ∀ target, (total (task_dial target) (ck_tasks self) ≤ 1)%nat
}.

Lemma slot_needs_clones s id : holds_slot s = Some id → holds_clones s = Some id.
Proof. by destruct s as [| | | | | | | |[]|[]| | |]. Qed.
Lemma dial_needs_clones s id : holds_dial s = Some id → holds_clones s = Some id.
Proof. by destruct s as [| | | | | | | |? []|? []|[]| |]. Qed.

(** ** Hosts whose counts did not change *)

(** Slots and clones are as before, and the hosts that came or went are unused. *)
Definition same_counts (max_h1 : nat) (hs hs' : gmap Target Host) : Prop :=
  ∀ target, slots_in max_h1 hs' target = slots_in max_h1 hs target ∧ waiting_in hs' target = waiting_in hs target.
Definition same_hosts (hs hs' : gmap Target Host) : Prop := ∀ target, is_Some (hs' !! target) ↔ is_Some (hs !! target).
Definition counts (host : Host) : nat * nat := (h_slots host, h_waiting host).

Lemma same_counts_trans max_h1 hs1 hs2 hs3 : same_counts max_h1 hs1 hs2 → same_counts max_h1 hs2 hs3 → same_counts max_h1 hs1 hs3.
Proof. intros H1 H2 target. destruct (H1 target), (H2 target). split; congruence. Qed.
Lemma same_hosts_trans hs1 hs2 hs3 : same_hosts hs1 hs2 → same_hosts hs2 hs3 → same_hosts hs1 hs3.
Proof. intros H1 H2 target. by rewrite (H2 target). Qed.
Lemma alter_counts max_h1 hs f target : (∀ host, counts (f host) = counts host) →
  same_counts max_h1 hs (alter f target hs) ∧ same_hosts hs (alter f target hs).
Proof.
  intros Hf. split; intros target'.
  - unfold slots_in, waiting_in. destruct (decide (target' = target)) as [->|Hne]; [|by rewrite lookup_alter_ne].
    rewrite lookup_alter_eq. destruct (hs !! target) as [host|]; [|done]. cbn. by injection (Hf host) as -> ->.
  - destruct (decide (target' = target)) as [->|Hne]; [|by rewrite lookup_alter_ne]. by rewrite lookup_alter_eq, fmap_is_Some.
Qed.
Lemma hosts_lock_counts max_h1 p r :
  same_counts max_h1 (hosts p) (hosts (hosts_lock p r)) ∧ same_hosts (hosts p) (hosts (hosts_lock p r)).
Proof.
  unfold hosts_lock. destruct (resets_seen p =? r); [by split|]. cbn [hosts]. split; intros target.
  - unfold slots_in, waiting_in. rewrite lookup_fmap. by destruct (hosts p !! target).
  - by rewrite lookup_fmap, fmap_is_Some.
Qed.
Lemma locked_alter_counts max_h1 p r f target : (∀ host, counts (f host) = counts host) →
  let hs := alter f target (hosts (hosts_lock p r)) in same_counts max_h1 (hosts p) hs ∧ same_hosts (hosts p) hs.
Proof.
  intros Hf. destruct (hosts_lock_counts max_h1 p r) as [Hc Hh], (alter_counts max_h1 (hosts (hosts_lock p r)) f target Hf) as [Hc' Hh'].
  split; [by eapply same_counts_trans|by eapply same_hosts_trans].
Qed.
Lemma Host_reuse_counts env host now idle at_ : counts (Host_reuse env host now idle at_).1 = counts host.
Proof.
  unfold Host_reuse, reuse_idle. repeat case_match; try done; simplify_eq/=; done.
Qed.
(** The blocks of [checkout] make the host of [target] if it is not there. *)
Lemma insert_entry_counts max_h1 p target now host : counts host = counts (host_entry p target max_h1 now) →
  same_counts max_h1 (hosts p) (<[target := host]> (hosts p)).
Proof.
  intros Hh target'. unfold slots_in, waiting_in. destruct (decide (target' = target)) as [->|Hne]; [|by rewrite lookup_insert_ne].
  rewrite lookup_insert_eq. unfold counts, host_entry in Hh. injection Hh as Hs Hw. cbn. rewrite Hs, Hw.
  by destruct (hosts p !! target).
Qed.

(** ** Taking and giving back *)

(** The host [o] names is the one the target has now. *)
Definition current (self : Checkouts) (target : Target) (o : option nat) : Prop :=
  ∀ id, o = Some id → ck_ids self !! target = Some id ∧ is_Some (hosts (ck_pool self) !! target).
(** Nothing but the hosts' counts differs. *)
Record framed (self self' : Checkouts) : Prop := {
  framed_ids : ck_ids self' = ck_ids self;
  framed_tasks : ck_tasks self' = ck_tasks self;
  framed_conns : ck_conns self' = ck_conns self;
  framed_next : ck_next_conn self' = ck_next_conn self;
  framed_hosts : same_hosts (hosts (ck_pool self)) (hosts (ck_pool self'))
}.
Lemma framed_refl self : framed self self.
Proof. by split. Qed.
Lemma framed_trans s1 s2 s3 : framed s1 s2 → framed s2 s3 → framed s1 s3.
Proof. intros [] []. split; try congruence. by eapply same_hosts_trans. Qed.
Lemma framed_current self self' target o : framed self self' → current self target o → current self' target o.
Proof. intros [Hi _ _ _ Hh] Hc id Ho. rewrite Hi, (Hh target). by apply Hc. Qed.

Lemma on_host_framed self target id f : framed self (on_host self target id f).
Proof.
  unfold on_host. case_bool_decide; [|apply framed_refl]. split; try done. intros target'. cbn.
  destruct (decide (target' = target)) as [->|Hne]; [by rewrite lookup_alter_eq, fmap_is_Some|by rewrite lookup_alter_ne].
Qed.
Lemma on_host_at self target id f target' : current self target (Some id) →
  hosts (ck_pool (on_host self target id f)) !! target' =
  (if decide (target = target') then f <$> hosts (ck_pool self) !! target' else hosts (ck_pool self) !! target').
Proof.
  intros Hc. destruct (Hc id eq_refl) as [Hid _]. unfold on_host. rewrite bool_decide_true by done. cbn.
  case_decide as Ht; [subst; by rewrite lookup_alter_eq|by rewrite lookup_alter_ne].
Qed.
Lemma on_host_global self target id f : ck_global (on_host self target id f) = ck_global self.
Proof. unfold on_host. by case_bool_decide. Qed.

(** The four changes to a host. *)
Inductive change_of : (Checkouts → Target → option nat → Checkouts) → (nat → nat → nat) → (nat → nat → nat) → Prop :=
| ChangeGive : change_of give_slot Nat.add (λ w _, w)
| ChangeTake : change_of take_slot Nat.sub (λ w _, w)
| ChangeDrop : change_of drop_clones (λ s _, s) Nat.sub
| ChangeAdd : change_of add_clones (λ s _, s) Nat.add.
Lemma change_framed c fs fw self target o : change_of c fs fw → framed self (c self target o) ∧ ck_global (c self target o) = ck_global self.
Proof.
  intros Hc. destruct o as [id|]; [|by destruct Hc; (split; [apply framed_refl|])].
  destruct Hc; (split; [apply on_host_framed|apply on_host_global]).
Qed.
Lemma change_counts c fs fw max_h1 self target o target' : change_of c fs fw → current self target o →
  slots_left max_h1 (c self target o) target' = fs (slots_left max_h1 self target') (at_target target target' (held o)) ∧
  clones_out (c self target o) target' = fw (clones_out self target') (at_target target target' (held o)).
Proof.
  intros Hc Ho. destruct o as [id|].
  - unfold slots_left, clones_out, slots_in, waiting_in, at_target. cbn [held].
    destruct (Ho id eq_refl) as [_ [host Hhost]].
    destruct Hc; cbn; rewrite (on_host_at _ _ _ _ target' Ho); case_decide; subst; try rewrite Hhost; cbn; lia.
  - unfold at_target. destruct Hc; cbn [give_slot take_slot drop_clones add_clones held]; case_decide; lia.
Qed.

(** What [move] does to the counts. *)
Lemma with_task_framed self i t s target o : current (with_task self i t s) target o ↔ current self target o.
Proof. done. Qed.
Lemma global_framed self b : framed self (give_global self b) ∧ framed self (take_global self b).
Proof. by destruct b. Qed.
#[local] Hint Constructors change_of : core.

Lemma move_spec max_h1 self i t s : current self (tk_target t) (holds_slot (tk_state t)) → current self (tk_target t) (holds_clones (tk_state t)) →
  current self (tk_target t) (holds_slot s) → current self (tk_target t) (holds_clones s) →
  let self' := move self i t s in
  ck_global self' = (ck_global self + task_global t - Nat.b2n (holds_global s))%nat ∧
  ck_ids self' = ck_ids self ∧
  ck_tasks self' = <[i := in_state t s]> (ck_tasks self) ∧
  ck_conns self' = ck_conns self ∧ ck_next_conn self' = ck_next_conn self ∧
  same_hosts (hosts (ck_pool self)) (hosts (ck_pool self')) ∧
  ∀ target,
    slots_left max_h1 self' target = (slots_left max_h1 self target + task_slot target t - at_target (tk_target t) target (held (holds_slot s)))%nat ∧
    clones_out self' target = (clones_out self target - task_clones target t + at_target (tk_target t) target (held (holds_clones s)))%nat.
Proof.
  intros Hs Hw Hs' Hw'. cbn zeta. unfold move.
  set (s1 := give_global self _). assert (F1 : framed self s1) by apply global_framed.
  assert (G1 : ck_global s1 = (ck_global self + task_global t)%nat) by (unfold s1, task_global; destruct (holds_global _); cbn; lia).
  assert (C1 : ∀ target, slots_left max_h1 s1 target = slots_left max_h1 self target ∧ clones_out s1 target = clones_out self target)
    by (unfold s1; by destruct (holds_global _)).
  set (s2 := give_slot s1 _ _). destruct (change_framed give_slot _ _ s1 (tk_target t) (holds_slot (tk_state t)) ChangeGive) as [F2 G2].
  set (s3 := drop_clones s2 _ _). destruct (change_framed drop_clones _ _ s2 (tk_target t) (holds_clones (tk_state t)) ChangeDrop) as [F3 G3].
  set (s4 := with_task s3 i t s).
  set (s5 := take_global s4 _). assert (F5 : framed s4 s5) by apply global_framed.
  assert (G5 : ck_global s5 = (ck_global s3 - Nat.b2n (holds_global s))%nat) by (unfold s5; destruct (holds_global s); cbn; lia).
  assert (C5 : ∀ target, slots_left max_h1 s5 target = slots_left max_h1 s3 target ∧ clones_out s5 target = clones_out s3 target)
    by (unfold s5; by destruct (holds_global s)).
  set (s6 := take_slot s5 _ _). destruct (change_framed take_slot _ _ s5 (tk_target t) (holds_slot s) ChangeTake) as [F6 G6].
  destruct (change_framed add_clones _ _ s6 (tk_target t) (holds_clones s) ChangeAdd) as [F7 G7].
  fold s2 s3 s6 in F2, F3, F6, G2, G3, G6.
  pose proof (framed_trans _ _ _ (framed_trans _ _ _ F1 F2) F3) as F13.
  pose proof (framed_trans _ _ _ (framed_trans _ _ _ F5 F6) F7) as F57.
  assert (K : ∀ o, current self (tk_target t) o → current s5 (tk_target t) o)
    by (intros o Ho; eapply framed_current, with_task_framed, framed_current, Ho; done).
  split_and!.
  - rewrite G7, G6, G5, G3, G2, G1. done.
  - rewrite (framed_ids _ _ F57). apply F13.
  - rewrite (framed_tasks _ _ F57). cbn [s4 with_task ck_tasks]. by rewrite (framed_tasks _ _ F13).
  - rewrite (framed_conns _ _ F57). apply F13.
  - rewrite (framed_next _ _ F57). apply F13.
  - eapply same_hosts_trans; [apply F13|apply (framed_hosts _ _ F57)].
  - intros target.
    destruct (change_counts _ _ _ max_h1 _ _ _ target ChangeAdd (framed_current _ _ _ _ F6 (K _ Hw'))) as [-> ->].
    unfold s6. destruct (change_counts _ _ _ max_h1 _ _ _ target ChangeTake (K _ Hs')) as [-> ->].
    destruct (C5 target) as [-> ->].
    unfold s3. destruct (change_counts _ _ _ max_h1 _ _ _ target ChangeDrop (framed_current _ _ _ _ (framed_trans _ _ _ F1 F2) Hw)) as [-> ->].
    unfold s2. destruct (change_counts _ _ _ max_h1 _ _ _ target ChangeGive (framed_current _ _ _ _ F1 Hs)) as [-> ->].
    destruct (C1 target) as [-> ->]. done.
Qed.

(** ** The invariant is kept *)

Lemma inv_current mc mh self target o : ck_inv mc mh self → (∀ id, o = Some id → ck_ids self !! target = Some id) → current self target o.
Proof. intros HI Ho id Hid. split; [by apply Ho|]. apply (inv_known _ _ _ HI). by eexists; apply Ho. Qed.
Lemma task_current mc mh self i t : ck_inv mc mh self → ck_tasks self !! i = Some t →
  current self (tk_target t) (holds_slot (tk_state t)) ∧ current self (tk_target t) (holds_clones (tk_state t)).
Proof.
  intros HI Ht. assert (Hin : t ∈ ck_tasks self) by by eapply list_elem_of_lookup_2.
  split; eapply inv_current; try done; intros id Hid; eapply inv_host; try done. by apply slot_needs_clones.
Qed.

(** What a task may take when it goes on to [s]. *)
Record may_hold (mh : nat) (self : Checkouts) (t : CheckoutTask) (s : TaskState) : Prop := {
  may_global : holds_global s = true → holds_global (tk_state t) = true ∨ (0 < ck_global self)%nat;
  may_slot : is_Some (holds_slot s) → is_Some (holds_slot (tk_state t)) ∨ (0 < slots_left mh self (tk_target t))%nat;
  may_clones : ∀ id, holds_clones s = Some id → ck_ids self !! tk_target t = Some id;
  may_dial : is_Some (holds_dial s) → is_Some (holds_dial (tk_state t)) ∨ total (task_dial (tk_target t)) (ck_tasks self) = 0%nat
}.

Lemma held_le {A} (o : option A) : (held o ≤ 1)%nat.
Proof. destruct o; cbn; lia. Qed.
Lemma held_some {A} (o : option A) : is_Some o → held o = 1%nat.
Proof. by intros [x ->]. Qed.
Lemma at_target_same target n : at_target target target n = n.
Proof. unfold at_target. by rewrite decide_True. Qed.

Lemma move_global mc mh self i t s : ck_inv mc mh self → ck_tasks self !! i = Some t → may_hold mh self t s →
  let tasks := <[i := in_state t s]> (ck_tasks self) in
  (ck_global self + task_global t - Nat.b2n (holds_global s) + total task_global tasks + length (ck_conns self) = mc)%nat.
Proof.
  intros HI Ht HM tasks. pose proof (total_insert task_global (ck_tasks self) i t (in_state t s) Ht) as Hsum.
  fold tasks in Hsum. pose proof (inv_global _ _ _ HI). pose proof (may_global _ _ _ _ HM) as Hg.
  change (task_global (in_state t s)) with (Nat.b2n (holds_global s)) in Hsum.
  destruct (holds_global s); cbn [Nat.b2n] in *; [|lia]. destruct (Hg eq_refl) as [Hb|Hb]; [|lia].
  assert (task_global t = 1%nat) by (unfold task_global; by rewrite Hb). lia.
Qed.
Lemma move_slots mc mh self i t s target : ck_inv mc mh self → ck_tasks self !! i = Some t → may_hold mh self t s →
  let tasks := <[i := in_state t s]> (ck_tasks self) in
  (slots_left mh self target + task_slot target t - at_target (tk_target t) target (held (holds_slot s))
   + total (task_slot target) tasks + total (conn_slot target) (ck_conns self) = mh)%nat.
Proof.
  intros HI Ht HM tasks.
  pose proof (total_insert (task_slot target) (ck_tasks self) i t (in_state t s) Ht) as Hsum. fold tasks in Hsum.
  pose proof (inv_slots _ _ _ HI target). pose proof (may_slot _ _ _ _ HM) as Hs.
  change (task_slot target (in_state t s)) with (at_target (tk_target t) target (held (holds_slot s))) in Hsum.
  destruct (decide (tk_target t = target)) as [Heq|Hne].
  - rewrite Heq in *. rewrite !at_target_same in *.
    destruct (holds_slot s) as [id|]; cbn [held] in *; [|lia].
    destruct Hs as [Hs|Hs]; [by eexists| |lia].
    assert (task_slot target t = 1%nat) by (unfold task_slot; by rewrite Heq, at_target_same, held_some). lia.
  - unfold at_target in Hsum |- *. rewrite !decide_False in Hsum |- * by done. lia.
Qed.
Lemma move_clones mc mh self i t s target : ck_inv mc mh self → ck_tasks self !! i = Some t →
  let tasks := <[i := in_state t s]> (ck_tasks self) in
  (clones_out self target - task_clones target t + at_target (tk_target t) target (held (holds_clones s)) = total (task_clones target) tasks)%nat.
Proof.
  intros HI Ht tasks.
  pose proof (total_insert (task_clones target) (ck_tasks self) i t (in_state t s) Ht) as Hsum. fold tasks in Hsum.
  pose proof (inv_clones _ _ _ HI target).
  pose proof (total_elem (task_clones target) (ck_tasks self) t (list_elem_of_lookup_2 _ _ _ Ht)).
  change (task_clones target (in_state t s)) with (at_target (tk_target t) target (held (holds_clones s))) in Hsum. lia.
Qed.
Lemma move_dial mc mh self i t s target : ck_inv mc mh self → ck_tasks self !! i = Some t → may_hold mh self t s →
  let tasks := <[i := in_state t s]> (ck_tasks self) in
  (total (task_dial target) tasks ≤ 1)%nat.
Proof.
  intros HI Ht HM tasks.
  pose proof (total_insert (task_dial target) (ck_tasks self) i t (in_state t s) Ht) as Hsum. fold tasks in Hsum.
  pose proof (inv_dial _ _ _ HI target). pose proof (may_dial _ _ _ _ HM) as Hd.
  change (task_dial target (in_state t s)) with (at_target (tk_target t) target (held (holds_dial s))) in Hsum.
  destruct (decide (tk_target t = target)) as [Heq|Hne].
  - rewrite Heq in *. rewrite !at_target_same in Hsum.
    destruct (holds_dial s) as [id|]; cbn [held] in Hsum; [|lia].
    destruct Hd as [Hd|Hd]; [by eexists| |lia].
    assert (task_dial target t = 1%nat) by (unfold task_dial; by rewrite Heq, at_target_same, held_some). lia.
  - unfold at_target in Hsum. rewrite decide_False in Hsum by done. lia.
Qed.
Lemma task_move_inv mc mh self i t s : ck_inv mc mh self → ck_tasks self !! i = Some t → may_hold mh self t s → ck_inv mc mh (move self i t s).
Proof.
  intros HI Ht HM. destruct (task_current _ _ _ _ _ HI Ht) as [Hs Hw].
  destruct (move_spec mh self i t s Hs Hw) as (Eg & Ei & Et & Ec & _ & Eh & Ecount).
  { eapply inv_current; [done|]. intros id Hid. by apply (may_clones _ _ _ _ HM), slot_needs_clones. }
  { eapply inv_current; [done|]. apply HM. }
  split.
  - rewrite Eg, Et, Ec. by eapply move_global.
  - intros target. destruct (Ecount target) as [-> _]. rewrite Et, Ec. by eapply move_slots.
  - intros target. destruct (Ecount target) as [_ ->]. rewrite Et. by eapply move_clones.
  - intros target. rewrite Ei, (Eh target). apply HI.
  - intros t' id. rewrite Et, Ei. intros (j & Hj)%list_elem_of_lookup Hid.
    destruct (decide (j = i)) as [->|Hne].
    + rewrite list_lookup_insert_eq in Hj by by eapply lookup_lt_Some. simplify_eq. by apply (may_clones _ _ _ _ HM).
    + rewrite list_lookup_insert_ne in Hj by done. eapply inv_host; [done|by eapply list_elem_of_lookup_2|done].
  - rewrite Ei, Ec. apply HI.
  - intros target. rewrite Et. by eapply move_dial.
Qed.

Lemma pool_inv mc mh self p : ck_inv mc mh self → same_counts mh (hosts (ck_pool self)) (hosts p) → same_hosts (hosts (ck_pool self)) (hosts p) →
  ck_inv mc mh (with_pool self p).
Proof.
  intros HI Hc Hh. split; try apply HI.
  - intros target. pose proof (inv_slots _ _ _ HI target). unfold slots_left in *. cbn. by rewrite (proj1 (Hc target)).
  - intros target. pose proof (inv_clones _ _ _ HI target). unfold clones_out in *. cbn. by rewrite (proj2 (Hc target)).
  - intros target. cbn. rewrite (Hh target). apply HI.
Qed.
(** The same with one more host, which gets an identity. *)
Definition one_more (target : Target) (hs hs' : gmap Target Host) : Prop :=
  ∀ target', is_Some (hs' !! target') ↔ is_Some (hs !! target') ∨ target' = target.
Lemma entry_inv mc mh self p target : ck_inv mc mh self → same_counts mh (hosts (ck_pool self)) (hosts p) →
  one_more target (hosts (ck_pool self)) (hosts p) → ck_inv mc mh (with_id (with_pool self p) target).
Proof.
  intros HI Hc Hh. unfold with_id. cbn [with_pool ck_ids]. destruct (ck_ids self !! target) as [id|] eqn:Hid.
  { apply pool_inv; [done..|]. intros target'. rewrite (Hh target'). split; [intros [?| ->]|by left]; [done|]. apply (inv_known _ _ _ HI). by eexists. }
  assert (Hk : ∀ target' id, ck_ids self !! target' = Some id → <[target := ck_next_id self]> (ck_ids self) !! target' = Some id).
  { intros target' id Hid'. rewrite lookup_insert_ne; [done|]. congruence. }
  split; cbn; try apply HI.
  - intros target'. pose proof (inv_slots _ _ _ HI target'). unfold slots_left in *. cbn. by rewrite (proj1 (Hc target')).
  - intros target'. pose proof (inv_clones _ _ _ HI target'). unfold clones_out in *. cbn. by rewrite (proj2 (Hc target')).
  - intros target'. rewrite (Hh target'), (inv_known _ _ _ HI target'), lookup_insert_is_Some'. naive_solver.
  - intros t id Ht Hw. by apply Hk, (inv_host _ _ _ HI t).
  - intros c id Hin Hs. by apply Hk, (inv_conn _ _ _ HI c).
Qed.
Lemma with_id_known self target : is_Some (ck_ids (with_id self target) !! target).
Proof. unfold with_id. destruct (ck_ids self !! target) as [id|] eqn:E; [by rewrite E|]. cbn. by rewrite lookup_insert_eq. Qed.

Lemma insert_entry mh p0 p target now host : same_counts mh (hosts p0) (hosts p) → same_hosts (hosts p0) (hosts p) →
  counts host = counts (host_entry p target mh now) →
  same_counts mh (hosts p0) (<[target := host]> (hosts p)) ∧ one_more target (hosts p0) (<[target := host]> (hosts p)).
Proof.
  intros Hc Hh He. split; [by eapply same_counts_trans, insert_entry_counts|].
  intros target'. rewrite lookup_insert_is_Some', (Hh target'). naive_solver.
Qed.
Lemma checkout_begin_counts p r env target fresh mh now idle at_ :
  let p' := (checkout_begin p r env target fresh mh now idle at_).1 in
  same_counts mh (hosts p) (hosts p') ∧ one_more target (hosts p) (hosts p').
Proof.
  unfold checkout_begin. destruct (hosts_lock_counts mh p r) as [Hc Hh]. set (p1 := hosts_lock p r) in *.
  pose proof (Host_reuse_counts env (host_entry p1 target mh now) now idle at_) as Hr.
  destruct fresh; [|destruct (Host_reuse _ _ _ _ _) as [host' s]]; by apply (insert_entry mh p p1 target now).
Qed.
Lemma checkout_dialing_counts p r env target fresh mh before now idle at_ :
  let p' := (checkout_dialing p r env target fresh mh before now idle at_).1 in
  same_counts mh (hosts p) (hosts p') ∧ one_more target (hosts p) (hosts p').
Proof.
  unfold checkout_dialing. destruct (hosts_lock_counts mh p r) as [Hc Hh]. set (p1 := hosts_lock p r) in *.
  pose proof (Host_reuse_counts env (host_entry p1 target mh now) now idle at_) as Hr.
  destruct fresh; [|destruct (Host_reuse _ _ _ _ _) as [host' [s|]]]; by apply (insert_entry mh p p1 target now).
Qed.
Lemma set_protocol_counts mh p r target protocol h2 :
  same_counts mh (hosts p) (hosts (set_protocol p r target protocol h2)) ∧ same_hosts (hosts p) (hosts (set_protocol p r target protocol h2)).
Proof. by apply locked_alter_counts. Qed.
Lemma dial_done_counts mh p r target u :
  same_counts mh (hosts p) (hosts (dial_done p r target u)) ∧ same_hosts (hosts p) (hosts (dial_done p r target u)).
Proof. by apply locked_alter_counts. Qed.
Lemma pool_op_counts mh p r op :
  same_counts mh (hosts p) (hosts (pool_op p r op)) ∧ same_hosts (hosts p) (hosts (pool_op p r op)).
Proof.
  destruct op; try by apply locked_alter_counts.
  - by apply alter_counts.
  - cbn. unfold evict_in. destruct (min_by_key _ _) as [[[target i] since]|]; [by apply locked_alter_counts|].
    destruct (min_by_key _ _) as [[target host]|]; [by apply locked_alter_counts|]. apply hosts_lock_counts.
Qed.

(** A host that is forgotten is not in use. *)
Lemma reap_counts mh p r env now idle : let hs' := hosts (reap p r env mh now idle) in
  same_counts mh (hosts p) hs' ∧ (∀ target, is_Some (hs' !! target) → is_Some (hosts p !! target)).
Proof.
  cbn. destruct (hosts_lock_counts mh p r) as [Hc Hh]. split.
  - apply (same_counts_trans _ _ _ _ Hc). intros target. unfold slots_in, waiting_in. rewrite lookup_omap.
    destruct (hosts (hosts_lock p r) !! target) as [host|]; [|done]. cbn [option_bind mbind].
    unfold reap_host. case_match eqn:E; [|done]. apply andb_true_iff in E as [[_ Es]%andb_true_iff Ew].
    apply Nat.eqb_eq in Es, Ew. cbn. by rewrite Es, Ew.
  - intros target [host' Hl]. apply Hh. rewrite lookup_omap in Hl.
    by destruct (hosts (hosts_lock p r) !! target).
Qed.
Lemma total_pos {A} (f : A → nat) l x : x ∈ l → f x = 1%nat → (1 ≤ total f l)%nat.
Proof. intros Hin Hf. pose proof (total_elem f l x Hin). lia. Qed.
Lemma reap_inv mc mh idle self env now : ck_inv mc mh self → ck_inv mc mh (step_reap mh idle self env now).
Proof.
  intros HI. destruct (reap_counts mh (ck_pool self) (ck_resets self) env now idle) as [Hc Hh]. unfold step_reap.
  set (p := reap _ _ _ _ _ _) in *.
  (* a host in use is still there *)
  assert (Hkeep : ∀ target, (slots_left mh self target ≠ mh ∨ clones_out self target ≠ 0)%nat → is_Some (hosts p !! target)).
  { intros target Hu. destruct (Hc target) as [Hs Hw]. destruct (hosts p !! target) as [host|] eqn:E; [done|].
    unfold slots_in, waiting_in in Hs, Hw. rewrite E in Hs, Hw. unfold slots_left, clones_out, slots_in, waiting_in in Hu. cbn in *. lia. }
  assert (Hid : ∀ target id, is_Some (hosts p !! target) → ck_ids self !! target = Some id →
    filter (λ x, is_Some (hosts p !! x.1)) (ck_ids self) !! target = Some id) by (intros; by apply map_lookup_filter_Some).
  split; try apply HI; cbn [ck_pool ck_ids ck_tasks ck_conns].
  - intros target. pose proof (inv_slots _ _ _ HI target). unfold slots_left in *. cbn [ck_pool]. by rewrite (proj1 (Hc target)).
  - intros target. pose proof (inv_clones _ _ _ HI target). unfold clones_out in *. cbn [ck_pool]. by rewrite (proj2 (Hc target)).
  - intros target. split.
    + intros Hp. pose proof (Hh target Hp) as [id Hi]%(inv_known _ _ _ HI). exists id. by apply Hid.
    + intros [id [_ Hp]%map_lookup_filter_Some]. done.
  - intros t id Hin Hw. pose proof (inv_host _ _ _ HI t id Hin Hw). apply Hid; [|done]. apply Hkeep. right.
    rewrite (inv_clones _ _ _ HI). pose proof (total_pos (task_clones (tk_target t)) _ _ Hin).
    unfold task_clones in *. rewrite at_target_same, Hw in *. cbn in *. lia.
  - intros c id Hin Hw. pose proof (inv_conn _ _ _ HI c id Hin Hw). apply Hid; [|done]. apply Hkeep. left.
    pose proof (inv_slots _ _ _ HI (lv_target c)). pose proof (total_pos (conn_slot (lv_target c)) _ _ Hin) as Hpos.
    unfold conn_slot at 1 in Hpos. rewrite at_target_same, Hw in Hpos. specialize (Hpos eq_refl). lia.
Qed.

Lemma open_conn_inv mc mh self target slot : ck_inv mc mh self → (0 < ck_global self)%nat →
  (∀ id, slot = Some id → ck_ids self !! target = Some id ∧ (0 < slots_left mh self target)%nat) → ck_inv mc mh (open_conn self target slot).
Proof.
  intros HI Hg Hs. assert (Hcur : current (take_global self true) target slot) by (eapply (inv_current mc mh self); [done|]; intros id Hid; by apply Hs).
  unfold open_conn. set (s1 := take_slot _ _ _).
  destruct (change_framed _ _ _ (take_global self true) target slot ChangeTake) as [HF HG]. fold s1 in HF, HG.
  pose proof (λ target', change_counts _ _ _ mh _ _ _ target' ChangeTake Hcur) as Hcount. fold s1 in Hcount.
  destruct HF as [Ei Et Ec En Eh]. split; cbn [with_conns ck_global ck_tasks ck_conns ck_ids ck_pool].
  - rewrite HG, Et, Ec. pose proof (inv_global _ _ _ HI). cbn [take_global with_global ck_global ck_conns ck_tasks length]. lia.
  - intros target'. rewrite Et, Ec, total_cons. destruct (Hcount target') as [Hl _]. pose proof (inv_slots _ _ _ HI target') as Hm.
    change (slots_left mh s1 target' + total (task_slot target') (ck_tasks self)
            + (at_target target target' (held slot) + total (conn_slot target') (ck_conns self)) = mh)%nat.
    rewrite Hl. change (slots_left mh (take_global self true) target') with (slots_left mh self target').
    unfold at_target. case_decide; [subst|lia]. destruct slot as [id|]; cbn [held]; [|lia]. destruct (Hs id eq_refl). lia.
  - intros target'. destruct (Hcount target') as [_ Hw]. rewrite Et. etrans; [exact Hw|]. apply (inv_clones _ _ _ HI).
  - intros target'. rewrite Ei, (Eh target'). apply HI.
  - intros t id. rewrite Et, Ei. apply HI.
  - intros c id. rewrite Ec, Ei. intros [->|Hin]%elem_of_cons; [intros Hid; by apply Hs|]. by apply (inv_conn _ _ _ HI).
  - intros target'. rewrite Et. apply HI.
Qed.
Lemma close_conn_inv mc mh self k : ck_inv mc mh self → ck_inv mc mh (close_conn self k).
Proof.
  intros HI. unfold close_conn. destruct (ck_conns self !! k) as [c|] eqn:Hk; [|done].
  assert (Hin : c ∈ ck_conns self) by by eapply list_elem_of_lookup_2.
  assert (Hcur : current (give_global self true) (lv_target c) (lv_slot c)).
  { eapply (inv_current mc mh self); [done|]. intros id. by apply (inv_conn _ _ _ HI). }
  set (s1 := give_slot _ _ _).
  destruct (change_framed _ _ _ (give_global self true) (lv_target c) (lv_slot c) ChangeGive) as [HF HG]. fold s1 in HF, HG.
  pose proof (λ target', change_counts _ _ _ mh _ _ _ target' ChangeGive Hcur) as Hcount. fold s1 in Hcount.
  destruct HF as [Ei Et Ec En Eh]. split; cbn [with_conns ck_global ck_tasks ck_conns ck_ids ck_pool].
  - rewrite HG, Et. pose proof (inv_global _ _ _ HI). rewrite length_delete by by eexists.
    apply lookup_lt_Some in Hk. cbn [give_global with_global ck_global ck_conns ck_tasks]. lia.
  - intros target'. rewrite Et. destruct (Hcount target') as [Hl _]. pose proof (inv_slots _ _ _ HI target') as Hm.
    pose proof (total_delete (conn_slot target') _ _ _ Hk) as Hd. unfold conn_slot at 2 in Hd.
    change (slots_left mh s1 target' + total (task_slot target') (ck_tasks self) + total (conn_slot target') (delete k (ck_conns self)) = mh)%nat.
    rewrite Hl. change (slots_left mh (give_global self true) target') with (slots_left mh self target'). lia.
  - intros target'. destruct (Hcount target') as [_ Hw]. rewrite Et. etrans; [exact Hw|]. apply (inv_clones _ _ _ HI).
  - intros target'. rewrite Ei, (Eh target'). apply HI.
  - intros t id. rewrite Et, Ei. apply HI.
  - intros c' id. rewrite Ei. intros Hd. apply (inv_conn _ _ _ HI). by eapply list_subseteq_delete.
  - intros target'. rewrite Et. apply HI.
Qed.

(** ** Steps *)

(** Going on with no more than before. *)
Definition no_more (s s' : TaskState) : Prop :=
  (holds_global s' = true → holds_global s = true) ∧ (∀ id, holds_slot s' = Some id → holds_slot s = Some id) ∧
  (∀ id, holds_clones s' = Some id → holds_clones s = Some id) ∧ (∀ id, holds_dial s' = Some id → holds_dial s = Some id).
Lemma no_more_may mc mh self i t s : ck_inv mc mh self → ck_tasks self !! i = Some t → no_more (tk_state t) s → may_hold mh self t s.
Proof.
  intros HI Ht (Hg & Hs & Hw & Hd). split.
  - auto.
  - intros [id Hid]. left. exists id. auto.
  - intros id Hid. eapply inv_host; [done|by eapply list_elem_of_lookup_2|auto].
  - intros [id Hid]. left. exists id. auto.
Qed.
Lemma less_inv mc mh self i t s : ck_inv mc mh self → ck_tasks self !! i = Some t → no_more (tk_state t) s → ck_inv mc mh (move self i t s).
Proof. intros HI Ht Hn. eapply task_move_inv; [done..|]. by eapply no_more_may. Qed.
Lemma no_more_done s res : no_more s (TaskDone res).
Proof. by split_and!. Qed.
Lemma with_pool_tasks self p : ck_tasks (with_pool self p) = ck_tasks self.
Proof. done. Qed.
Lemma with_id_tasks self target : ck_tasks (with_id self target) = ck_tasks self.
Proof. unfold with_id. by destruct (ck_ids self !! target). Qed.

Section StepInv.
  Context (mc mh : nat) (idle : Z).

Lemma step_begin_inv self i t before global env now at_ : ck_inv mc mh self → ck_tasks self !! i = Some t → tk_state t = TaskBegin before global →
  ck_inv mc mh (step_begin mh idle self i t before global env now at_).
Proof.
  intros HI Ht Hs. unfold step_begin.
  pose proof (checkout_begin_counts (ck_pool self) (ck_resets self) env (tk_target t) (tk_fresh t) mh now idle at_) as [Hc Ho].
  destruct (checkout_begin _ _ _ _ _ _ _ _ _) as [p reused]. cbn [fst] in Hc, Ho.
  pose proof (entry_inv _ _ _ _ _ HI Hc Ho) as HI'. set (self1 := with_id _ _) in *.
  assert (Ht1 : ck_tasks self1 !! i = Some t) by (unfold self1; by rewrite with_id_tasks).
  destruct reused as [sender|]; [apply less_inv; [done..|apply no_more_done]|].
  destruct (with_id_known (with_pool self p) (tk_target t)) as [id Hid]. fold self1 in Hid.
  apply task_move_inv; [done..|]. rewrite Hid. cbn [default].
  case_bool_decide; split; rewrite ?Hs; cbn; intros; simplify_eq; auto; by destruct H0.
Qed.
Lemma step_turn_inv self i t before global host protocol env now at_ : ck_inv mc mh self → ck_tasks self !! i = Some t →
  tk_state t = TaskDialing before global host protocol → ck_inv mc mh (step_turn mh idle self i t before global host protocol env now at_).
Proof.
  intros HI Ht Hs. unfold step_turn.
  pose proof (checkout_dialing_counts (ck_pool self) (ck_resets self) env (tk_target t) (tk_fresh t) mh before now idle at_) as [Hc Ho].
  destruct (checkout_dialing _ _ _ _ _ _ _ _ _ _) as [p turn]. cbn [fst] in Hc, Ho.
  pose proof (entry_inv _ _ _ _ _ HI Hc Ho) as HI'. set (self1 := with_id _ _) in *.
  assert (Ht1 : ck_tasks self1 !! i = Some t) by (unfold self1; by rewrite with_id_tasks).
  destruct turn as [sender|e|now_protocol]; try (apply less_inv; [done..|apply no_more_done]).
  apply less_inv; [done..|]. rewrite Hs. by destruct (_ && _).
Qed.
Lemma connected_no_more s dialing host res : (dialing = true → holds_clones s = Some host ∧ holds_dial s = Some host) →
  no_more s (connected dialing host res).
Proof. intros Hd. destruct dialing; [|apply no_more_done]. destruct (Hd eq_refl) as [Hw Hl]. split_and!; cbn; try done; congruence. Qed.
Lemma step_secured_inv self i t slot dialing host is_h2 : ck_inv mc mh self → ck_tasks self !! i = Some t →
  tk_state t = TaskConnect slot dialing host → ck_inv mc mh (step_secured self i t slot dialing host is_h2).
Proof.
  intros HI Ht Hs. destruct (set_protocol_counts mh (ck_pool self) (ck_resets self) (tk_target t) Http1 None) as [Hc Hh].
  unfold step_secured. destruct is_h2 as [is_h2|e].
  - destruct (t_tls (tk_target t)), is_h2; (apply less_inv; [try done; by apply pool_inv|done|]);
      rewrite Hs; by destruct slot, dialing.
  - apply less_inv; [done..|]. apply connected_no_more. rewrite Hs. by intros ->.
Qed.
(** A connection takes over the permits of the task that made it. *)
Lemma hand_over_inv self i t s slot : ck_inv mc mh self → ck_tasks self !! i = Some t → no_more (tk_state t) s →
  holds_global (tk_state t) = true → holds_global s = false → holds_slot (tk_state t) = slot → holds_slot s = None →
  ck_inv mc mh (open_conn (move self i t s) (tk_target t) slot).
Proof.
  intros HI Ht Hn Hg Hg' Hslot Hslot'. pose proof (less_inv _ _ _ _ _ _ HI Ht Hn) as HI'.
  destruct (task_current _ _ _ _ _ HI Ht) as [Hs Hw].
  destruct (move_spec mh self i t s Hs Hw) as (Eg & Ei & Et & Ec & _ & Eh & Ecount).
  { by rewrite Hslot'. }
  { eapply inv_current; [done|]. intros id Hid. eapply inv_host; [done|by eapply list_elem_of_lookup_2|]. by apply Hn. }
  apply open_conn_inv; [done|..].
  - rewrite Eg, Hg'. unfold task_global. rewrite Hg. cbn. lia.
  - intros id Hid. subst slot. rewrite Ei. split; [by apply Hs|]. destruct (Ecount (tk_target t)) as [-> _].
    unfold task_slot. rewrite !at_target_same, Hslot', Hid. cbn. lia.
Qed.
Lemma step_http1_inv self i t slot dialing host started : ck_inv mc mh self → ck_tasks self !! i = Some t →
  tk_state t = TaskStartHttp1 slot dialing host → ck_inv mc mh (step_http1 self i t slot dialing host started).
Proof.
  intros HI Ht Hs. assert (Hn : ∀ res, no_more (tk_state t) (connected dialing host res)).
  { intros res. apply connected_no_more. rewrite Hs. by intros ->. }
  destruct started as [[]|e]; cbn [step_http1]; [|by apply less_inv].
  apply hand_over_inv; try done; rewrite ?Hs; by destruct slot, dialing.
Qed.
Lemma step_http2_inv self i t dialing host started : ck_inv mc mh self → ck_tasks self !! i = Some t →
  tk_state t = TaskStartHttp2 dialing host → ck_inv mc mh (step_http2 self i t dialing host started).
Proof.
  intros HI Ht Hs. assert (Hn : ∀ res, no_more (tk_state t) (connected dialing host res)).
  { intros res. apply connected_no_more. rewrite Hs. by intros ->. }
  destruct started as [[]|e]; cbn [step_http2]; [|by apply less_inv]. cbn zeta.
  set (self1 := open_conn _ _ _). assert (HI1 : ck_inv mc mh self1) by (apply hand_over_inv; try done; rewrite ?Hs; by destruct dialing).
  destruct (set_protocol_counts mh (ck_pool self1) (ck_resets self1) (tk_target t) Http2 (Some (ck_next_conn self))) as [Hc Hh].
  by apply pool_inv.
Qed.
(** A lock that is free has no holder. *)
Lemma dial_free_none self i t host : ck_inv mc mh self → ck_tasks self !! i = Some t → holds_clones (tk_state t) = Some host →
  dial_free self (tk_target t) host = true → total (task_dial (tk_target t)) (ck_tasks self) = 0%nat.
Proof.
  intros HI Ht Hw Hf. apply total_zero. intros t' Hin. unfold dial_free in Hf. rewrite forallb_forall in Hf.
  specialize (Hf t' (proj1 (list_elem_of_In _ _) Hin)). unfold task_dial, at_target. case_decide as Heq; [|done].
  destruct (holds_dial (tk_state t')) as [id|] eqn:Hd; [|done]. exfalso.
  pose proof (inv_host _ _ _ HI t' id Hin (dial_needs_clones _ _ Hd)) as H1.
  pose proof (inv_host _ _ _ HI t host (list_elem_of_lookup_2 _ _ _ Ht) Hw) as H2.
  rewrite Heq, H2 in H1. injection H1 as ->. rewrite !bool_decide_true in Hf; done.
Qed.
Lemma free_slots_left self target host : (0 < free_slots self target host)%nat → (0 < slots_left mh self target)%nat.
Proof.
  unfold free_slots, slots_left, slots_in. case_bool_decide; [|lia]. by destruct (hosts (ck_pool self) !! target); cbn; [|lia].
Qed.
End StepInv.
Lemma step_cancel_inv mc mh self i t self' : ck_inv mc mh self → ck_tasks self !! i = Some t → step_cancel self i t = Some self' → ck_inv mc mh self'.
Proof. intros HI Ht. unfold step_cancel. destruct (tk_state t) eqn:Hs; intros; simplify_eq; (apply less_inv; [done..|apply no_more_done]). Qed.
Lemma step_timeout_inv mc mh self i t self' : ck_inv mc mh self → ck_tasks self !! i = Some t → step_timeout self i t = Some self' → ck_inv mc mh self'.
Proof.
  intros HI Ht. unfold step_timeout. destruct (tk_state t) eqn:Hs; intros; simplify_eq; (apply less_inv; [done..|]);
    apply connected_no_more; rewrite Hs; by intros ->.
Qed.
Lemma on_task_some self i f self' : on_task self i f = Some self' → ∃ t, ck_tasks self !! i = Some t ∧ f t = Some self'.
Proof. unfold on_task. intros (t & Ht & Hf)%bind_Some. eauto. Qed.
Lemma task_host mc mh self i t id : ck_inv mc mh self → ck_tasks self !! i = Some t → holds_clones (tk_state t) = Some id → ck_ids self !! tk_target t = Some id.
Proof. intros HI Ht. eapply inv_host; [done|]. by eapply list_elem_of_lookup_2. Qed.

(** What a state may hold, by cases on the two states. *)
Ltac may_hold_by Hs :=
  apply task_move_inv; [done..|];
  split; rewrite ?Hs; cbn; [auto|intros [? ?]; simplify_eq; auto|intros ? ?; simplify_eq; auto|intros [? ?]; simplify_eq; auto]; try done.
Lemma call_inv mc mh self target fresh : ck_inv mc mh self →
  ck_inv mc mh {| ck_pool := ck_pool self; ck_resets := ck_resets self; ck_ids := ck_ids self; ck_next_id := ck_next_id self;
                  ck_global := ck_global self;
                  ck_tasks := ck_tasks self ++ [{| tk_target := target; tk_fresh := fresh; tk_state := TaskBegin None false |}];
                  ck_conns := ck_conns self; ck_next_conn := ck_next_conn self |}.
Proof.
  intros HI. set (t := {| tk_target := target |}).
  assert (Hz : task_global t = 0%nat ∧ ∀ target', task_slot target' t = 0%nat ∧ task_clones target' t = 0%nat ∧ task_dial target' t = 0%nat).
  { unfold task_slot, task_clones, task_dial, at_target. cbn. split; [done|]. intros target'. by case_decide. }
  destruct Hz as [Hg Hz]. assert (Htot : ∀ f, total f (ck_tasks self ++ [t]) = (total f (ck_tasks self) + f t)%nat).
  { intros f. rewrite total_app, total_cons. change (total f []) with 0%nat. lia. }
  split; cbn [ck_global ck_tasks ck_conns ck_ids ck_pool]; try apply HI; try (intros target'; destruct (Hz target') as (Hs & Hw & Hd));
    rewrite ?Htot, ?Hg, ?Hs, ?Hw, ?Hd, ?Nat.add_0_r; try apply HI.
  intros t' id [Hin| ->%list_elem_of_singleton]%elem_of_app; [by apply (inv_host _ _ _ HI)|done].
Qed.

Lemma checkout_step_inv mc mh idle self ev self' : ck_inv mc mh self → checkout_step mh idle self ev = Some self' → ck_inv mc mh self'.
Proof.
  intros HI Hstep.
  destruct ev as [target fresh|i env now at_|i|i|i|i env now at_|i|i|i|i|i is_h2|i started|i|i|i|k|op|env now|]; cbn [checkout_step] in Hstep;
    try (apply on_task_some in Hstep as (t & Ht & Hstep);
         pose proof (λ id, task_host mc mh self i t id HI Ht) as Hhost).
  - injection Hstep as <-. by apply call_inv.
  - destruct (tk_state t) eqn:Hs; try done. injection Hstep as <-. by apply step_begin_inv.
  - destruct (tk_state t) as [|before global host| | | | | | | | | | |] eqn:Hs; try done. case_match eqn:Hf; [|done]. injection Hstep as <-.
    apply Nat.ltb_lt, (free_slots_left mh) in Hf. specialize (Hhost host eq_refl).
    destruct global; may_hold_by Hs.
  - destruct (tk_state t) eqn:Hs; try done. destruct (tk_fresh t); [done|]. injection Hstep as <-.
    apply less_inv; [done..|]. by rewrite Hs.
  - destruct (tk_state t) as [| |before global host protocol| | | | | | | | | |] eqn:Hs; try done. case_match eqn:Hf; [|done]. injection Hstep as <-.
    specialize (Hhost host eq_refl). may_hold_by Hs.
    right. eapply dial_free_none; [done..| |done]. by rewrite Hs.
  - destruct (tk_state t) eqn:Hs; try done. injection Hstep as <-. by apply step_turn_inv.
  - destruct (tk_state t) as [| | | |before global host| | | | | | | |] eqn:Hs; try done. injection Hstep as <-. specialize (Hhost host eq_refl).
    destruct (global || _) eqn:Hg; may_hold_by Hs.
    intros _. apply orb_true_iff in Hg as [->|Hg%Nat.ltb_lt]; auto.
  - case_match eqn:Hg; [|done]. apply Nat.ltb_lt in Hg.
    destruct (tk_state t) as [| | | | |before host| |host| | | | |] eqn:Hs; try done; injection Hstep as <-;
      may_hold_by Hs.
  - destruct (tk_state t) eqn:Hs; try done; injection Hstep as <-; (apply less_inv; [done..|apply no_more_done]).
  - destruct (tk_state t) as [| | | | | |host| | | | | |] eqn:Hs; try done. injection Hstep as <-. specialize (Hhost host eq_refl).
    destruct (0 <? _)%nat eqn:Hf; may_hold_by Hs.
    apply Nat.ltb_lt, (free_slots_left mh) in Hf. auto.
  - destruct (tk_state t) eqn:Hs; try done. injection Hstep as <-. by apply step_secured_inv.
  - destruct (tk_state t) eqn:Hs; try done; injection Hstep as <-; [by apply step_http1_inv|by apply step_http2_inv].
  - by eapply step_timeout_inv.
  - destruct (tk_state t) as [| | | | | | | | | | |host res|] eqn:Hs; try done. injection Hstep as <-.
    destruct (dial_done_counts mh (ck_pool self) (ck_resets self) (tk_target t) (Unreachable_of res)) as [Hc Hh].
    apply less_inv; [by apply pool_inv|done|apply no_more_done].
  - by eapply step_cancel_inv.
  - injection Hstep as <-. by apply close_conn_inv.
  - injection Hstep as <-. destruct (pool_op_counts mh (ck_pool self) (ck_resets self) op) as [Hc Hh]. by apply pool_inv.
  - injection Hstep as <-. by apply reap_inv.
  - injection Hstep as <-. by destruct HI.
Qed.
Lemma no_checkouts_inv mc mh : ck_inv mc mh (Checkouts_new mc).
Proof.
  split.
  - cbn. lia.
  - intros target. change (mh + 0 + 0 = mh)%nat. lia.
  - done.
  - intros target. cbn. by rewrite !lookup_empty.
  - intros t id Hin. by apply elem_of_nil in Hin.
  - intros c id Hin. by apply elem_of_nil in Hin.
  - cbn. lia.
Qed.
Lemma run_inv mc mh idle evs self : checkout_run mh idle (Checkouts_new mc) evs = Some self → ck_inv mc mh self.
Proof.
  revert self. unfold checkout_run. induction evs as [|ev evs IH] using rev_ind; intros self Hrun.
  - injection Hrun as <-. apply no_checkouts_inv.
  - rewrite foldl_app in Hrun. cbn in Hrun. apply bind_Some in Hrun as (self0 & H0 & Hstep). eapply checkout_step_inv; eauto.
Qed.
Lemma total_two {A} (f : A → nat) l i j x y : l !! i = Some x → l !! j = Some y → i ≠ j → (f x + f y ≤ total f l)%nat.
Proof.
  intros Hi Hj Hne. pose proof (total_delete f l i x Hi). assert (Hy : y ∈ delete i l).
  { destruct (decide (j < i)%nat).
    - apply list_elem_of_lookup. exists j. by rewrite list_lookup_delete_lt.
    - apply list_elem_of_lookup. exists (pred j). rewrite list_lookup_delete_ge by lia. by replace (S (pred j)) with j by lia. }
  pose proof (total_elem f _ _ Hy). lia.
Qed.

(** ** Properties *)

Definition all_done (self : Checkouts) : Prop := ∀ t, t ∈ ck_tasks self → ∃ res, tk_state t = TaskDone res.

(** C4: Whatever the order in which requests ask for upstream connections, wait, dial, are cancelled
    and time out, and connections end, are evicted and reaped: no more connections are open than
    [max_connections], an origin's connections hold no more slots than [max_h1_per_host], and no
    permit is lost: once no checkout is under way, every permit and slot that no open connection
    holds is free, and no origin is kept from being forgotten by a checkout that is gone. *)
Theorem connections_within_limits (max_connections max_h1 : nat) (idle : Z) (evs : list CheckoutEvent) (self : Checkouts) :
  checkout_run max_h1 idle (Checkouts_new max_connections) evs = Some self →
  (length (ck_conns self) ≤ max_connections)%nat ∧
  (∀ target, (total (conn_slot target) (ck_conns self) ≤ max_h1)%nat) ∧
  (all_done self →
    (ck_global self + length (ck_conns self) = max_connections)%nat ∧
    ∀ target host, hosts (ck_pool self) !! target = Some host →
      h_waiting host = 0%nat ∧ (h_slots host + total (conn_slot target) (ck_conns self) = max_h1)%nat).
Proof.
  intros HI%run_inv. pose proof (inv_global _ _ _ HI). split_and!; [lia|intros target; pose proof (inv_slots _ _ _ HI target); lia|].
  intros Hdone. assert (Hz : ∀ f : CheckoutTask → nat, (∀ t res, tk_state t = TaskDone res → f t = 0%nat) → total f (ck_tasks self) = 0%nat).
  { intros f Hf. apply total_zero. intros t [res Ht]%Hdone. eauto. }
  split.
  - rewrite (Hz task_global) in H by (intros t res Ht; unfold task_global; by rewrite Ht). lia.
  - intros target host Hhost. pose proof (inv_slots _ _ _ HI target) as Hs. pose proof (inv_clones _ _ _ HI target) as Hw.
    rewrite (Hz (task_slot target)) in Hs by (intros t res Ht; unfold task_slot, at_target; rewrite Ht; by case_decide).
    rewrite (Hz (task_clones target)) in Hw by (intros t res Ht; unfold task_clones, at_target; rewrite Ht; by case_decide).
    unfold slots_left, slots_in in Hs. unfold clones_out, waiting_in in Hw. rewrite Hhost in Hs, Hw. cbn in Hs, Hw. lia.
Qed.

(** The step a holder of a dial lock takes next. *)
Definition next_turn (i : nat) (s : TaskState) (env : ConnEnv) (now at_ : Z) : CheckoutEvent :=
  match s with
  | TaskDialing _ _ _ _ => CkTurn i env now at_
  | TaskTurn _ _ _ => CkTryPermit i
  | TaskTaken _ => CkTrySlot i
  | TaskDialed _ _ => CkRecord i
  | _ => CkTimeout i
  end.
(** C5: An origin is dialed under the lock by one checkout at a time, even though idle origins are
    forgotten and made anew with locks of their own: the origin of a checkout that waits or dials
    is never forgotten, and whoever has the lock can go on whatever the others hold, at the latest
    when the connect timeout fires. *)
Theorem one_dial_per_origin (max_connections max_h1 : nat) (idle : Z) (evs : list CheckoutEvent) (self : Checkouts) :
  checkout_run max_h1 idle (Checkouts_new max_connections) evs = Some self →
  (∀ i j t t', ck_tasks self !! i = Some t → ck_tasks self !! j = Some t' → tk_target t = tk_target t' →
     is_Some (holds_dial (tk_state t)) → is_Some (holds_dial (tk_state t')) → i = j) ∧
  (∀ i t id, ck_tasks self !! i = Some t → holds_clones (tk_state t) = Some id →
     ck_ids self !! tk_target t = Some id ∧ is_Some (hosts (ck_pool self) !! tk_target t)) ∧
  (∀ i t env now at_, ck_tasks self !! i = Some t → is_Some (holds_dial (tk_state t)) →
     is_Some (checkout_step max_h1 idle self (next_turn i (tk_state t) env now at_))).
Proof.
  intros HI%run_inv. split_and!.
  - intros i j t t' Hi Hj Heq Hd Hd'. destruct (decide (i = j)) as [|Hne]; [done|]. exfalso.
    pose proof (total_two (task_dial (tk_target t)) _ _ _ _ _ Hi Hj Hne) as Htwo. pose proof (inv_dial _ _ _ HI (tk_target t)).
    unfold task_dial at 1 2 in Htwo. rewrite <-Heq, !at_target_same, !held_some in Htwo by done. lia.
  - intros i t id Hi Hw. eapply (inv_current _ _ _ _ (Some id)); [done| |done]. intros ? [= <-]. by eapply task_host.
  - intros i t env now at_ Hi Hd. destruct (tk_state t) as [| | | | | | | |slot []|slot []|[]| |] eqn:Hs; try by destruct Hd.
    all: cbn [next_turn checkout_step]; unfold on_task, step_timeout; rewrite Hi; cbn [mbind option_bind]; rewrite Hs; by eexists.
Qed.

(** ** Waiting for a permit ends *)

Lemma permit_loop_ends fuel deadline now evicted world : (∀ k late, pr_freed (world k) = FreedLate late → 0 <= late) →
  now <= deadline → (deadline - now) / EVICT_RETRY < Z.of_nat fuel → ∃ res at_ n,
  global_permit_loop fuel deadline now evicted world = Some (res, at_, n) ∧ (n ≤ evicted + fuel)%nat ∧
  (res = Ok tt → at_ <= deadline) ∧
  (∀ e, res = Err e → e = Exhausted ∧ ((∀ k, pr_freed (world k) ≠ FreedClosed) → deadline <= at_)).
Proof.
  intros Hlate. revert now evicted. induction fuel as [|fuel IH]; intros now evicted Hnow Hfuel.
  { exfalso. pose proof (Z.div_pos (deadline - now) EVICT_RETRY). unfold EVICT_RETRY in *. lia. }
  cbn [global_permit_loop]. destruct (pr_free (world evicted)); [by eexists (Ok tt), now, evicted; split_and!; [done|lia|done|]|].
  destruct (pr_freed (world evicted)) as [at_| |late] eqn:Hf.
  - eexists (Ok tt), _, _. split_and!; [done|lia| |done]. intros _. lia.
  - eexists (Err Exhausted), _, _. split_and!; [done|lia|done|]. intros e [= <-]. split; [done|]. intros Hc. by destruct (Hc evicted).
  - pose proof (Hlate evicted late Hf). destruct (_ <=? _) eqn:Hd.
    + eexists (Err Exhausted), _, _. split_and!; [done|lia|done|]. intros e [= <-]. split; [done|]. intros _. lia.
    + apply Z.leb_gt in Hd. destruct (IH (Z.min (now + EVICT_RETRY) deadline + late) (S evicted)) as (res & at_ & n & E & Hn & Hok & Herr).
      * lia.
      * assert ((deadline - (Z.min (now + EVICT_RETRY) deadline + late)) / EVICT_RETRY <= (deadline - now) / EVICT_RETRY - 1); [|lia].
        replace ((deadline - now) / EVICT_RETRY - 1) with ((deadline - now - EVICT_RETRY) / EVICT_RETRY).
        -- apply Z.div_le_mono; unfold EVICT_RETRY in *; lia.
        -- replace (deadline - now - EVICT_RETRY) with (deadline - now + (-1) * EVICT_RETRY) by lia. rewrite Z.div_add by done. lia.
      * exists res, at_, n. split_and!; [done|lia|done|done].
Qed.
(** A request that waits for a connection permit gets an answer: [global_permit] evicts at most
    once every 50 ms of the connect timeout, a permit it returns came within the timeout, and it
    answers [Exhausted] only once the timeout is over. *)
Theorem permit_wait_ends (connect_timeout now : Z) (world : nat → PermitRound) : 0 <= connect_timeout →
  (∀ k late, pr_freed (world k) = FreedLate late → 0 <= late) → (∀ k, pr_freed (world k) ≠ FreedClosed) →
  ∃ res at_ n, global_permit connect_timeout now world = Some (res, at_, n) ∧
    Z.of_nat n <= connect_timeout / 50 + 1 ∧
    (res = Ok tt → at_ <= now + connect_timeout) ∧
    (∀ e, res = Err e → e = Exhausted ∧ now + connect_timeout <= at_).
Proof.
  intros Ht Hlate Hopen. pose proof (Z.div_pos connect_timeout 50 Ht). unfold global_permit.
  destruct (permit_loop_ends (permit_rounds connect_timeout) (now + connect_timeout) now 0 world Hlate) as (res & at_ & n & E & Hn & Hok & Herr).
  - lia.
  - replace (now + connect_timeout - now) with connect_timeout by lia. unfold permit_rounds, EVICT_RETRY. lia.
  - exists res, at_, n. split_and!; [done|unfold permit_rounds, EVICT_RETRY in Hn; lia|done|]. intros e He. by destruct (Herr e He); auto.
Qed.

(** ** Examples *)

Definition nothing_ready : ConnEnv := {| is_ready := λ _, false; is_closed := λ _, false; streams := λ _, [] |}.
(** Checkout [i] dials the site under the lock, which agrees on HTTP/2 or not. *)
Definition dial_evs (i : nat) (is_h2 : bool) : list CheckoutEvent :=
  [CkCall example_target false; CkBegin i nothing_ready 0 0; CkLock i; CkTurn i nothing_ready 0 0; CkTryPermit i; CkTrySlot i;
   CkSecured i (Ok is_h2); CkStarted i (Ok tt); CkRecord i].
Definition wait_evs (i : nat) : list CheckoutEvent := [CkCall example_target false; CkBegin i nothing_ready 0 0].
Definition handed (c : LiveConn) (t : CheckoutTask) : bool :=
  match tk_state t with TaskDone (Some (Ok (SendHttp1 conn))) => (conn =? lv_conn c)%nat | _ => false end.
(** The HTTP/1.1 connections that are open to [target] and were handed to a checkout. *)
Definition open_http1 (self : Checkouts) (target : Target) : list nat :=
  lv_conn <$> filter (λ c, lv_target c = target ∧ existsb (handed c) (ck_tasks self) = true) (ck_conns self).

(** The site answered the first dial with HTTP/1.1; of three later checkouts one is answered with
    HTTP/2 and two with HTTP/1.1. *)
Definition mixed_answers : list CheckoutEvent :=
  dial_evs 0 false ++ [CkConnEnds 0] ++ wait_evs 1 ++ wait_evs 2 ++
  [CkSlot 1; CkPermit 1; CkSecured 1 (Ok true); CkSlot 2; CkPermit 2; CkStarted 1 (Ok tt)] ++
  dial_evs 3 false ++ [CkSecured 2 (Ok false); CkStarted 2 (Ok tt)].
(** A dial under the lock goes on without a slot when none is free, so an origin that answers
    with both protocols gets more HTTP/1.1 connections than [max_h1_per_host], here 2 with 1. *)
Lemma mixed_origin_exceeds_h1_limit :
  (λ self, open_http1 self example_target) <$> checkout_run 1 60 (Checkouts_new 8) mixed_answers = Some [3; 2]%nat.
Proof. vm_compute. reflexivity. Qed.

Lemma some_default {A} (o : option A) (d : A) : bool_decide (is_Some o) = true → o = Some (default d o).
Proof. intros [x ->]%bool_decide_eq_true. done. Qed.
Definition after_mixed : Checkouts := default (Checkouts_new 8) (checkout_run 1 60 (Checkouts_new 8) mixed_answers).
Lemma mixed_runs : checkout_run 1 60 (Checkouts_new 8) mixed_answers = Some after_mixed.
Proof. apply some_default. vm_compute. reflexivity. Qed.
Lemma connections_within_limits_witness : (length (ck_conns after_mixed) ≤ 8)%nat ∧ length (ck_conns after_mixed) = 3%nat ∧ ck_global after_mixed = 5%nat.
Proof.
  split; [exact (proj1 (connections_within_limits 8 1 60 mixed_answers after_mixed mixed_runs))|]. vm_compute. split; reflexivity.
Defined.
(** Two checkouts of one origin, one of which dials. *)
Definition two_dialers : list CheckoutEvent := wait_evs 0 ++ wait_evs 1 ++ [CkLock 0].
Definition after_two : Checkouts := default (Checkouts_new 8) (checkout_run 1 60 (Checkouts_new 8) two_dialers).
Lemma two_dialers_run : checkout_run 1 60 (Checkouts_new 8) two_dialers = Some after_two.
Proof. apply some_default. vm_compute. reflexivity. Qed.
Lemma one_dial_per_origin_witness : is_Some (checkout_step 1 60 after_two (CkTurn 0 nothing_ready 0 0)) ∧ checkout_step 1 60 after_two (CkLock 1) = None.
Proof.
  split; [|vm_compute; reflexivity].
  refine (proj2 (proj2 (one_dial_per_origin 8 1 60 two_dialers after_two two_dialers_run)) 0%nat
    {| tk_target := example_target; tk_fresh := false; tk_state := TaskDialing 0 false 0 None |} nothing_ready 0 0 _ _).
  - vm_compute. reflexivity.
  - by eexists.
Defined.
Lemma permit_wait_ends_witness :
  let world := λ k, {| pr_free := false; pr_freed := if (k =? 2)%nat then FreedAt 130 else FreedLate 1 |} in
  global_permit 1000 0 world = Some (Ok tt, 130, 3%nat) ∧
  ∃ res at_ n, global_permit 1000 0 world = Some (res, at_, n) ∧ (res = Ok tt → at_ <= 0 + 1000).
Proof.
  split; [vm_compute; reflexivity|].
  destruct (permit_wait_ends 1000 0 (λ k, {| pr_free := false; pr_freed := if (k =? 2)%nat then FreedAt 130 else FreedLate 1 |}))
    as (res & at_ & n & H & _ & Hok & _); [lia| | |by exists res, at_, n].
  - intros k late. cbn. destruct (k =? 2)%nat; intros; simplify_eq; lia.
  - intros k. cbn. by destruct (k =? 2)%nat.
Defined.
