(* ===== verification/Serve.v ===== *)
(** * Serving and stopping ([mitm/src/proxy.rs], [shutdown.rs], [options.rs], [lib.rs])

    [serve_with_options] as a transition system: the accept loop with its back-off, the tasks that
    are spawned through [Shutdown] with the watch channel that ends them, and the reaper. The
    requests of one client connection ([front]) are counted until their response bodies end. *)
From S2P Require Import Prelude RustStr Collections Net HostPattern Policy DomainSet Common DnsCache Io Http Engine Filtering Idle Ca Proxy UpstreamError Request Outbound Pool.

(** ** Limits and options; durations are milliseconds *)

Definition H2_MAX_SEND_BUF : Z := 128 * 1024.
Definition H1_MAX_BUF : Z := 128 * 1024.
Definition MAX_HEADER_LIST : Z := 64 * 1024.
Definition MAX_HEADERS : Z := 256.
Definition MAX_UPSTREAM_CONNECTIONS : nat := 64.
Definition MAX_PASSTHROUGH : nat := 128.
Definition MAX_BLOCKED : nat := 64.
Definition MAX_H1_PER_HOST : nat := 6.
Definition KEEP_ALIVE_TIMEOUT : Z := 20000.

(** [upstream_tls], [clock], [resolver] and [local_address_present] are functions of the outside. *)
Record ServeOptions := {
  first_bytes_timeout : Z;
  handshake_timeout : Z;
  header_read_timeout : Z;
  idle_timeout : Z;
  connect_timeout : Z;
  keep_alive_interval : Z;
  max_upstream_connections : nat;
  max_h1_per_host : nat;
  max_passthrough : nat;
  tunnel_idle_timeout : Z;
  max_blocked : nat;
  blocked_idle_timeout : Z
}.
Definition ServeOptions_default : ServeOptions :=
  {| first_bytes_timeout := 10000; handshake_timeout := 10000; header_read_timeout := 30000; idle_timeout := 60000;
     connect_timeout := 10000; keep_alive_interval := 30000; max_upstream_connections := MAX_UPSTREAM_CONNECTIONS;
     max_h1_per_host := MAX_H1_PER_HOST; max_passthrough := MAX_PASSTHROUGH; tunnel_idle_timeout := 300000;
     max_blocked := MAX_BLOCKED; blocked_idle_timeout := 10000 |}.
(** [PoolOptions] and [idle_secs]: whole seconds, one at least. *)
Record PoolOptions := {
  po_connect_timeout : Z; po_idle_timeout : Z; po_keep_alive_interval : Z; po_max_connections : nat; po_max_h1_per_host : nat
}.
Definition pool_options (options : ServeOptions) : PoolOptions :=
  {| po_connect_timeout := connect_timeout options; po_idle_timeout := idle_timeout options;
     po_keep_alive_interval := keep_alive_interval options; po_max_connections := max_upstream_connections options;
     po_max_h1_per_host := max_h1_per_host options |}.
Definition idle_secs (self : PoolOptions) : Z := Z.max (po_idle_timeout self / 1000) 1.
(** How often the pool is reaped. *)
Definition reap_period (options : ServeOptions) : Z := Z.max (idle_timeout options / 4) 50.

(** ** The channel that ends tasks ([shutdown.rs]) *)

(** [watch::channel(false)]: the value, how often it was sent, and whether the sender is there. *)
Record ShutdownChannel := { ch_closed : bool; ch_version : nat; ch_sender : bool }.
Definition shutdown_channel : ShutdownChannel := {| ch_closed := false; ch_version := 0; ch_sender := true |}.
(** [Closer::close], which consumes the sender, and dropping it. *)
Definition Closer_close (self : ShutdownChannel) : ShutdownChannel := {| ch_closed := true; ch_version := S (ch_version self); ch_sender := false |}.
Definition Closer_drop (self : ShutdownChannel) : ShutdownChannel := {| ch_closed := ch_closed self; ch_version := ch_version self; ch_sender := false |}.
(** [closed]: not polled yet, or waiting for a version after [seen]. *)
Inductive Closed := ClosedFresh | ClosedWaiting (seen : nat).
(** From the top of its loop; [None] is ready. *)
Definition closed_top (ch : ShutdownChannel) : option Closed :=
  if ch_closed ch then None else if negb (ch_sender ch) then None else Some (ClosedWaiting (ch_version ch)).
Definition closed_poll (ch : ShutdownChannel) (self : Closed) : option Closed :=
  match self with
  | ClosedFresh => closed_top ch
  | ClosedWaiting seen =>
      if negb (ch_version ch =? seen)%nat then closed_top ch
      else if negb (ch_sender ch) then None
      else Some (ClosedWaiting seen)
  end.

(** A spawned task: whether it is to be polled, and the state of its [closed]; [None] once it ended. *)
Record SpawnedTask := { st_woken : bool; st_closed : Closed }.
Definition Shutdown_spawn (tasks : list (option SpawnedTask)) : list (option SpawnedTask) := tasks ++ [Some {| st_woken := true; st_closed := ClosedFresh |}].
(** One poll of a task's [select!]; [finished] is whether its own future is done. *)
Definition task_poll (ch : ShutdownChannel) (finished : bool) (t : SpawnedTask) : option SpawnedTask :=
  if finished then None
  else match closed_poll ch (st_closed t) with None => None | Some c => Some {| st_woken := false; st_closed := c |} end.
Definition woken (t : SpawnedTask) : SpawnedTask := {| st_woken := true; st_closed := st_closed t |}.
Definition wake_all (tasks : list (option SpawnedTask)) : list (option SpawnedTask) := option_map woken <$> tasks.

(** ** [serve_with_options] *)

Inductive AcceptPhase := Accepting | BackingOff (until : Z) | Stopped.
Record Server := {
  sv_options : ServeOptions;
  sv_channel : ShutdownChannel;
  sv_tasks : list (option SpawnedTask);
  sv_phase : AcceptPhase;
  sv_errors : Z;
  (** the reaper's next tick, while its task lives: it is task 0 *)
  sv_next_reap : Z
}.
Definition serve_begin (options : ServeOptions) (now : Z) : Server :=
  {| sv_options := options; sv_channel := shutdown_channel; sv_tasks := Shutdown_spawn []; sv_phase := Accepting; sv_errors := 0;
     sv_next_reap := now |}.
Definition with_tasks (self : Server) (tasks : list (option SpawnedTask)) : Server :=
  {| sv_options := sv_options self; sv_channel := sv_channel self; sv_tasks := tasks; sv_phase := sv_phase self;
     sv_errors := sv_errors self; sv_next_reap := sv_next_reap self |}.
Definition with_phase (self : Server) (phase : AcceptPhase) (errors : Z) : Server :=
  {| sv_options := sv_options self; sv_channel := sv_channel self; sv_tasks := sv_tasks self; sv_phase := phase;
     sv_errors := errors; sv_next_reap := sv_next_reap self |}.
(** [break], then [closer.close()]: everyone who waits on the channel is woken. *)
Definition stop (self : Server) : Server :=
  {| sv_options := sv_options self; sv_channel := Closer_close (sv_channel self); sv_tasks := wake_all (sv_tasks self); sv_phase := Stopped;
     sv_errors := sv_errors self; sv_next_reap := sv_next_reap self |}.
(** [accept] answered. *)
Definition accepted (self : Server) (ok : bool) (now : Z) : option Server :=
  match sv_phase self with
  | Accepting =>
      let '(errors, delay) := accept_step (sv_errors self) ok in
      Some (if ok then with_phase (with_tasks self (Shutdown_spawn (sv_tasks self))) Accepting errors
            else with_phase self (BackingOff (now + delay)) errors)
  | _ => None
  end.
Definition backed_off (self : Server) (now : Z) : option Server :=
  match sv_phase self with
  | BackingOff until => if until <=? now then Some (with_phase self Accepting (sv_errors self)) else None
  | _ => None
  end.
Definition shut_down (self : Server) : option Server :=
  match sv_phase self with Stopped => None | _ => Some (stop self) end.
Definition poll_task (self : Server) (i : nat) (finished : bool) : option Server :=
  match sv_tasks self !! i with
  | Some (Some t) => Some (with_tasks self (<[i := task_poll (sv_channel self) finished t]> (sv_tasks self)))
  | _ => None
  end.
(** A task was woken by what it waits for, or spawned another one. *)
Definition wake_task (self : Server) (i : nat) : option Server :=
  match sv_tasks self !! i with
  | Some (Some t) => Some (with_tasks self (<[i := Some (woken t)]> (sv_tasks self)))
  | _ => None
  end.
Definition spawn_from (self : Server) (i : nat) : option Server :=
  match sv_tasks self !! i with
  | Some (Some _) => Some (with_tasks self (Shutdown_spawn (sv_tasks self)))
  | _ => None
  end.
(** The reaper's tick: the pool is reaped and the next tick is a period later. *)
Definition reaper_tick (self : Server) (now : Z) : option Server :=
  match sv_tasks self !! 0%nat with
  | Some (Some _) =>
      if sv_next_reap self <=? now
      then Some {| sv_options := sv_options self; sv_channel := sv_channel self; sv_tasks := sv_tasks self; sv_phase := sv_phase self;
                   sv_errors := sv_errors self; sv_next_reap := sv_next_reap self + reap_period (sv_options self) |}
      else None
  | _ => None
  end.
Inductive ServerEvent :=
| SvAccepted (ok : bool) (now : Z) | SvBackedOff (now : Z) | SvShutdown
| SvPoll (i : nat) (finished : bool) | SvWake (i : nat) | SvSpawn (i : nat) | SvReap (now : Z).
Definition server_step (self : Server) (ev : ServerEvent) : option Server :=
  match ev with
  | SvAccepted ok now => accepted self ok now
  | SvBackedOff now => backed_off self now
  | SvShutdown => shut_down self
  | SvPoll i finished => poll_task self i finished
  | SvWake i => wake_task self i
  | SvSpawn i => spawn_from self i
  | SvReap now => reaper_tick self now
  end.
Inductive server_reach (options : ServeOptions) (now : Z) : Server → Prop :=
| server_reach_begin : server_reach options now (serve_begin options now)
| server_reach_step self ev self' : server_reach options now self → server_step self ev = Some self' → server_reach options now self'.

(** ** The requests of a client connection ([front]) *)

(** The handler runs, the response's body is being sent, or the request is over. *)
Inductive FrontRequest := Handling | Sending (body : DoneBody) | Over.
Record ClientConn := { cc_activity : Activity; cc_requests : list FrontRequest }.
Definition with_request (self : ClientConn) (i : nat) (r : FrontRequest) (activity : Activity) : ClientConn :=
  {| cc_activity := activity; cc_requests := <[i := r]> (cc_requests self) |}.
(** The service is called: [activity.start()]. *)
Definition front_start (self : ClientConn) : ClientConn :=
  {| cc_activity := Activity_start (cc_activity self); cc_requests := cc_requests self ++ [Handling] |}.
(** The handler answers, [Some] a response whose body carries the [InFlight]; without one, and
    when the handler is dropped, the [InFlight] goes. *)
Definition front_answer (self : ClientConn) (i : nat) (response : bool) (now : Z) : option ClientConn :=
  match cc_requests self !! i with
  | Some Handling =>
      Some (if response then with_request self i (Sending DoneBody_new) (cc_activity self)
            else with_request self i Over (InFlight_drop (cc_activity self) now))
  | _ => None
  end.
(** The [InFlight] of a body is dropped when its [on_done] runs. *)
Definition body_step (self : ClientConn) (i : nat) (body body' : DoneBody) (over : bool) (now : Z) : ClientConn :=
  with_request self i (if over then Over else Sending body')
    (if on_done body && negb (on_done body') then InFlight_drop (cc_activity self) now else cc_activity self).
Definition front_poll (self : ClientConn) (i : nat) (inner : FramePoll) (now : Z) : option ClientConn :=
  match cc_requests self !! i with
  | Some (Sending body) => Some (body_step self i body (DoneBody_poll_frame body inner).1 false now)
  | _ => None
  end.
Definition front_drop (self : ClientConn) (i : nat) (now : Z) : option ClientConn :=
  match cc_requests self !! i with
  | Some (Sending body) => Some (body_step self i body (DoneBody_drop body) true now)
  | _ => None
  end.
Inductive FrontEvent := FrStart | FrAnswer (i : nat) (response : bool) (now : Z) | FrPoll (i : nat) (inner : FramePoll) (now : Z) | FrDrop (i : nat) (now : Z).
Definition front_step (self : ClientConn) (ev : FrontEvent) : option ClientConn :=
  match ev with
  | FrStart => Some (front_start self)
  | FrAnswer i response now => front_answer self i response now
  | FrPoll i inner now => front_poll self i inner now
  | FrDrop i now => front_drop self i now
  end.
Definition front_run (self : ClientConn) (evs : list FrontEvent) : option ClientConn :=
  foldl (λ st ev, st ≫= λ self, front_step self ev) (Some self) evs.

(** ** Facts *)

(** Nobody who waits has missed the end: a task that is not to be polled waits for a version that
    is still the current one, of a channel that is open. *)
Definition task_ok (ch : ShutdownChannel) (t : SpawnedTask) : Prop :=
  st_woken t = false → st_closed t = ClosedWaiting (ch_version ch) ∧ ch_closed ch = false ∧ ch_sender ch = true.
Definition seen_ok (ch : ShutdownChannel) (t : SpawnedTask) : Prop :=
  ∀ seen, st_closed t = ClosedWaiting seen → (seen ≤ ch_version ch)%nat ∧ (ch_closed ch = true → (seen < ch_version ch)%nat).
Record server_inv (self : Server) : Prop := {
  si_tasks : ∀ i t, sv_tasks self !! i = Some (Some t) → task_ok (sv_channel self) t ∧ seen_ok (sv_channel self) t;
  si_phase : match sv_phase self with
             | Stopped => ch_closed (sv_channel self) = true
             | _ => ch_closed (sv_channel self) = false ∧ ch_sender (sv_channel self) = true
             end;
  si_errors : 0 <= sv_errors self <= U32_MAX
}.
Lemma spawn_ok ch tasks i t : (∀ i t, tasks !! i = Some (Some t) → task_ok ch t ∧ seen_ok ch t) →
  Shutdown_spawn tasks !! i = Some (Some t) → task_ok ch t ∧ seen_ok ch t.
Proof.
  intros Ht [Hi|[_ Hi]]%lookup_app_Some; [by eapply Ht|]. apply list_lookup_singleton_Some in Hi as [_ [= <-]]. by split.
Qed.
Lemma insert_ok ch (tasks : list (option SpawnedTask)) k (t' : option SpawnedTask) i t : (∀ i t, tasks !! i = Some (Some t) → task_ok ch t ∧ seen_ok ch t) →
  (∀ t, t' = Some t → task_ok ch t ∧ seen_ok ch t) → <[k := t']> tasks !! i = Some (Some t) → task_ok ch t ∧ seen_ok ch t.
Proof.
  intros Ht Ht' [(-> & He & _)|[_ Hi]]%list_lookup_insert_Some; [by apply Ht'|by eapply Ht].
Qed.
(** A closed channel ends a task at its next poll; an open one leaves it waiting for the next version. *)
Lemma closed_poll_closed ch c : ch_closed ch = true → (∀ seen, c = ClosedWaiting seen → (seen < ch_version ch)%nat) → closed_poll ch c = None.
Proof.
  intros Hc Hs. destruct c as [|seen]; cbn; unfold closed_top; rewrite Hc; [done|].
  specialize (Hs seen eq_refl). destruct (Nat.eqb_spec (ch_version ch) seen); [lia|done].
Qed.
Lemma task_poll_ok ch finished t t' : seen_ok ch t → ch_closed ch = false → ch_sender ch = true → task_poll ch finished t = Some t' → task_ok ch t' ∧ seen_ok ch t'.
Proof.
  intros Hs Hc Hsend. unfold task_poll, closed_poll, closed_top. rewrite Hc, Hsend. destruct finished; [done|]. cbn.
  destruct (st_closed t) as [|seen] eqn:E; [|destruct (Nat.eqb_spec (ch_version ch) seen) as [<-|]; cbn]; intros [= <-];
    (split; [intros _; by split_and!|]); intros seen' [= <-]; split; try lia; congruence.
Qed.
Lemma task_poll_closed ch finished t : seen_ok ch t → ch_closed ch = true → task_poll ch finished t = None.
Proof.
  intros Hs Hc. unfold task_poll. destruct finished; [done|]. rewrite closed_poll_closed; [done|done|]. intros seen Hseen. by apply Hs.
Qed.

Lemma wake_all_lookup (tasks : list (option SpawnedTask)) i : wake_all tasks !! i = option_map woken <$> tasks !! i.
Proof. apply list_lookup_fmap. Qed.
Lemma server_step_inv self ev self' : server_inv self → server_step self ev = Some self' → server_inv self'.
Proof.
  intros [Ht Hp He] Hst. destruct ev as [ok now|now| |i finished|i|i|now]; cbn in Hst.
  - unfold accepted in Hst. destruct (sv_phase self) eqn:Hph; try done. destruct ok; cbn in Hst; injection Hst as <-; split; cbn; try done.
    + intros i t. by apply spawn_ok.
    + unfold sat_add32, U32_MAX in *. lia.
  - unfold backed_off in Hst. destruct (sv_phase self) eqn:Hph; try done. case_match; [|done]. injection Hst as <-. by split.
  - unfold shut_down in Hst. destruct (sv_phase self) eqn:Hph; try done; injection Hst as <-; split; try done; cbn [stop sv_tasks sv_channel].
    all: intros i t; rewrite wake_all_lookup; destruct (sv_tasks self !! i) as [[t0|]|] eqn:Hi; try done; cbn;
      intros [= <-]; split; [done|]; intros seen Hseen; cbn in *; destruct (Ht _ _ Hi) as [_ Hs]; destruct (Hs seen Hseen); lia.
  - unfold poll_task in Hst. destruct (sv_tasks self !! i) as [[t0|]|] eqn:Hi; try done. injection Hst as <-. split; cbn; try done.
    intros j t. apply insert_ok; [done|]. intros t' Hpoll. destruct (Ht _ _ Hi) as [_ Hs].
    destruct (ch_closed (sv_channel self)) eqn:Hc; [by rewrite task_poll_closed in Hpoll|].
    destruct (sv_phase self); [by eapply task_poll_ok; try done; apply Hp..|done].
  - unfold wake_task in Hst. destruct (sv_tasks self !! i) as [[t0|]|] eqn:Hi; try done. injection Hst as <-. split; cbn; try done.
    intros j t. apply insert_ok; [done|]. intros t' [= <-]. destruct (Ht _ _ Hi) as [_ Hs]. by split.
  - unfold spawn_from in Hst. destruct (sv_tasks self !! i) as [[t0|]|] eqn:Hi; try done. injection Hst as <-. split; cbn; try done.
    intros j t. by apply spawn_ok.
  - unfold reaper_tick in Hst. destruct (sv_tasks self !! 0%nat) as [[t0|]|] eqn:Hi; try done. case_match; [|done]. injection Hst as <-. by split.
Qed.
Lemma server_reach_inv options now self : server_reach options now self → server_inv self.
Proof.
  induction 1 as [|self ev self' _ IH Hst]; [|by eapply server_step_inv].
  split; cbn; [|done|unfold U32_MAX; lia]. intros i t. by apply (spawn_ok shutdown_channel []).
Qed.

(** C38: when [serve] returns, everything it started ends. However accepting, backing off, polling,
    waking and spawning interleave: after the shutdown every task that is left has been woken,
    it ends at its next poll whatever it was doing, and so does a task that is spawned later. *)
Theorem nothing_outlives_serve (options : ServeOptions) (now : Z) (self : Server) : server_reach options now self → sv_phase self = Stopped →
  (∀ i t, sv_tasks self !! i = Some (Some t) → st_woken t = true ∧
     ∀ finished, ∃ self', server_step self (SvPoll i finished) = Some self' ∧ sv_tasks self' !! i = Some None) ∧
  (∀ i self', server_step self (SvSpawn i) = Some self' → ∀ finished, ∃ self'',
     server_step self' (SvPoll (length (sv_tasks self)) finished) = Some self'' ∧ sv_tasks self'' !! length (sv_tasks self) = Some None).
Proof.
  intros Hinv%server_reach_inv Hph. pose proof (si_phase _ Hinv) as Hc. rewrite Hph in Hc.
  assert (Hpoll : ∀ self i t finished, server_inv self → ch_closed (sv_channel self) = true → sv_tasks self !! i = Some (Some t) →
    ∃ self', server_step self (SvPoll i finished) = Some self' ∧ sv_tasks self' !! i = Some None).
  { clear. intros self i t finished Hinv Hc Hi. cbn. unfold poll_task. rewrite Hi. eexists. split; [done|]. cbn.
    rewrite list_lookup_insert_eq by by eapply lookup_lt_Some. destruct (si_tasks _ Hinv _ _ Hi) as [_ Hs]. by rewrite task_poll_closed. }
  split.
  - intros i t Hi. split; [|intros finished; by eapply Hpoll]. destruct (si_tasks _ Hinv _ _ Hi) as [Hok _].
    destruct (st_woken t) eqn:Hw; [done|]. destruct (Hok Hw) as (_ & Hf & _). congruence.
  - intros i self' Hst finished. pose proof (server_step_inv _ _ _ Hinv Hst) as Hinv'. cbn in Hst. unfold spawn_from in Hst.
    destruct (sv_tasks self !! i) as [[t|]|]; try done. injection Hst as <-.
    eapply Hpoll; [done|done|]. cbn. unfold Shutdown_spawn. by rewrite lookup_app_r, Nat.sub_diag by done.
Qed.

(** ** Requests in flight *)

Definition counted (r : FrontRequest) : nat :=
  match r with Handling => 1 | Sending body => Nat.b2n (on_done body) | Over => 0 end.
Definition total_counted (l : list FrontRequest) : nat := sum_list (counted <$> l).
Lemma total_counted_insert l i r r' : l !! i = Some r → (total_counted (<[i := r']> l) + counted r = total_counted l + counted r')%nat.
Proof.
  revert i. induction l as [|x l IH]; intros [|i] Hi; try done.
  - injection Hi as ->. change (<[0%nat := r']> (r :: l)) with (r' :: l). unfold total_counted. cbn. lia.
  - change (<[S i := r']> (x :: l)) with (x :: <[i := r']> l). specialize (IH i Hi). unfold total_counted in *. cbn. lia.
Qed.
Lemma body_step_counts self i body body' over now : cc_requests self !! i = Some (Sending body) → in_flight (cc_activity self) = total_counted (cc_requests self) →
  (on_done body = false → on_done body' = false) → (over = true → on_done body' = false) →
  in_flight (cc_activity (body_step self i body body' over now)) = total_counted (cc_requests (body_step self i body body' over now)).
Proof.
  intros Hi Hc Hmono Hover. unfold body_step, with_request. cbn [cc_activity cc_requests].
  pose proof (total_counted_insert _ _ _ (if over then Over else Sending body') Hi) as Hs. cbn [counted] in Hs.
  destruct over, (on_done body), (on_done body') eqn:Eb'; try by (try specialize (Hmono eq_refl); try specialize (Hover eq_refl)).
  all: cbn [andb negb Nat.b2n InFlight_drop in_flight counted] in *; rewrite ?Eb' in Hs; cbn [Nat.b2n] in Hs; lia.
Qed.
Lemma front_step_counts self ev self' : front_step self ev = Some self' → in_flight (cc_activity self) = total_counted (cc_requests self) →
  in_flight (cc_activity self') = total_counted (cc_requests self').
Proof.
  destruct ev as [|i response now|i inner now|i now]; cbn.
  - intros [= <-] Hc. cbn. rewrite Hc. unfold total_counted.
    clear Hc. induction (cc_requests self) as [|r l IH]; cbn in *; [done|lia].
  - unfold front_answer. destruct (cc_requests self !! i) as [[| |]|] eqn:Hi; try done. intros [= <-] Hc.
    destruct response; cbn [with_request cc_activity cc_requests InFlight_drop in_flight];
      [pose proof (total_counted_insert _ _ _ (Sending DoneBody_new) Hi)|pose proof (total_counted_insert _ _ _ Over Hi)];
      cbn [counted DoneBody_new on_done Nat.b2n] in *; lia.
  - unfold front_poll. destruct (cc_requests self !! i) as [[|body|]|] eqn:Hi; try done. intros [= <-] Hc.
    apply body_step_counts; try done. unfold DoneBody_poll_frame, DoneBody_done. by destruct inner, (on_done body) eqn:E; cbn; rewrite ?E.
  - unfold front_drop. destruct (cc_requests self !! i) as [[|body|]|] eqn:Hi; try done. intros [= <-] Hc.
    apply body_step_counts; try done; unfold DoneBody_drop, DoneBody_done; by destruct (on_done body) eqn:E; cbn; rewrite ?E.
Qed.

(** A request of a client counts as in flight from its start until its response body has ended, was
    dropped, or the handler gave no response, and exactly once: the count of the connection's
    activity is the number of such requests at every moment, so the connection is not taken for
    idle while a response is being sent, and is when none is. *)
Theorem responses_stay_in_flight (now : Z) (evs : list FrontEvent) (self : ClientConn) :
  front_run {| cc_activity := Activity_new now; cc_requests := [] |} evs = Some self →
  in_flight (cc_activity self) = total_counted (cc_requests self) ∧
  (busy (cc_activity self) = true ↔ ∃ r, r ∈ cc_requests self ∧ counted r = 1%nat).
Proof.
  intros Hrun. assert (Hc : in_flight (cc_activity self) = total_counted (cc_requests self)).
  { revert self Hrun. unfold front_run. induction evs as [|ev evs IH] using rev_ind; intros self Hrun.
    - by injection Hrun as <-.
    - rewrite foldl_app in Hrun. cbn in Hrun. apply bind_Some in Hrun as (self0 & H0 & Hst). eapply front_step_counts; [exact Hst|]. by apply IH. }
  split; [done|]. unfold busy. rewrite Hc, Nat.ltb_lt. clear Hc Hrun. induction (cc_requests self) as [|r l IH].
  - split; [cbn; lia|]. intros (r & Hr & _). by apply elem_of_nil in Hr.
  - change (total_counted (r :: l)) with (counted r + total_counted l)%nat. split.
    + destruct (counted r) eqn:Er.
      * intros (r' & Hr' & Hc)%IH. exists r'. split; [by right|done].
      * intros _. exists r. split; [by left|]. destruct r as [|body|]; cbn in *; [done| |done]. destruct (on_done body); cbn in *; lia.
    + intros (r' & [->|Hr']%elem_of_cons & Hc); [lia|]. assert (0 < total_counted l)%nat by (apply IH; eauto). lia.
Qed.

(** ** Runs *)

Definition example_server : Server := serve_begin ServeOptions_default 0.
Definition example_server_events : list ServerEvent := [SvAccepted true 1; SvPoll 0 false; SvPoll 1 false; SvAccepted false 2; SvShutdown].
Definition server_run (self : Server) (evs : list ServerEvent) : option Server :=
  foldl (λ st ev, st ≫= λ self, server_step self ev) (Some self) evs.
Lemma server_run_reach options now evs self : server_run (serve_begin options now) evs = Some self → server_reach options now self.
Proof.
  revert self. unfold server_run. induction evs as [|ev evs IH] using rev_ind; intros self Hrun; [injection Hrun as <-; constructor|].
  rewrite foldl_app in Hrun. cbn in Hrun. apply bind_Some in Hrun as (self0 & H0 & Hst). eapply server_reach_step; [by apply IH|done].
Qed.
Lemma nothing_outlives_serve_witness : ∃ self, server_run example_server example_server_events = Some self ∧
  ∃ self', server_step self (SvPoll 1 false) = Some self' ∧ sv_tasks self' !! 1%nat = Some None.
Proof.
  eexists. split; [vm_compute; reflexivity|].
  destruct (nothing_outlives_serve ServeOptions_default 0 _ (server_run_reach _ _ example_server_events _ eq_refl) eq_refl) as [Hend _].
  apply (Hend 1%nat {| st_woken := true; st_closed := ClosedWaiting 0 |} eq_refl).
Defined.
Lemma responses_stay_in_flight_witness : ∃ self,
  front_run {| cc_activity := Activity_new 0; cc_requests := [] |} [FrStart; FrAnswer 0 true 1; FrStart; FrPoll 0 (Frame [1]) 2] = Some self ∧ busy (cc_activity self) = true.
Proof.
  eexists. split; [vm_compute; reflexivity|].
  apply (responses_stay_in_flight 0 [FrStart; FrAnswer 0 true 1; FrStart; FrPoll 0 (Frame [1]) 2] _ eq_refl).
  exists (Sending DoneBody_new). split; [by left|done].
Defined.
