(* ===== verification/Tunnel.v ===== *)
(** * Relays ([mitm/src/tunnel.rs])

    [until_path_gone] and [copy_until_idle] as timed state machines: one function per branch of
    their [select!], and a step relation in which time, resets, the device's addresses and the
    relayed streams move. A branch that is ready runs before time passes; when several are
    ready, any of them may run. *)
From S2P Require Import Prelude RustStr Net Io.

(** ** Ending a relay whose network is gone *)
Module PathGone.
Section path_gone.
Context {O : Type}.

(** [PATH_RECHECK], in milliseconds. *)
Definition PATH_RECHECK : Z := 2000.

(** The locals of [until_path_gone]: the version of [resets] seen last, [recheck], whether it
    only awaits the relay, and what it returned. *)
Record PathWatch := {
  pw_seen : Z;
  pw_recheck : option Z;
  pw_only_relay : bool;
  pw_ended : option (option O)
}.
Definition until_start (local : option IpAddr) (version : Z) : PathWatch :=
  {| pw_seen := version; pw_recheck := None; pw_only_relay := match local with None => true | Some _ => false end;
     pw_ended := None |}.
Definition relay_branch (output : O) (self : PathWatch) : PathWatch :=
  {| pw_seen := pw_seen self; pw_recheck := pw_recheck self; pw_only_relay := pw_only_relay self;
     pw_ended := Some (Some output) |}.
(** [resets.changed()] answered [changed]: the new version, or that the sender is gone. *)
Definition changed_branch (changed : option Z) (present : bool) (now : Z) (self : PathWatch) : PathWatch :=
  match changed with
  | None => {| pw_seen := pw_seen self; pw_recheck := pw_recheck self; pw_only_relay := true; pw_ended := pw_ended self |}
  | Some version =>
      if negb present then {| pw_seen := version; pw_recheck := pw_recheck self; pw_only_relay := pw_only_relay self; pw_ended := Some None |}
      else {| pw_seen := version; pw_recheck := Some (now + PATH_RECHECK); pw_only_relay := pw_only_relay self; pw_ended := pw_ended self |}
  end.
Definition check_branch (present : bool) (self : PathWatch) : PathWatch :=
  {| pw_seen := pw_seen self; pw_recheck := None; pw_only_relay := pw_only_relay self;
     pw_ended := if negb present then Some None else pw_ended self |}.

(** What the relay runs in: the clock, the watch channel (its version, and whether its sender is
    gone), and since when the relay's source address has been missing; with the time of the
    last reset. *)
Record PathWorld := {
  pn_now : Z;
  pn_version : Z;
  pn_closed : bool;
  pn_gone_since : option Z;
  pn_last_reset : option Z;
  pn_self : PathWatch
}.
Definition present (w : PathWorld) : bool := match pn_gone_since w with None => true | Some _ => false end.
(** What [resets.changed()] answers: [None] while it waits. A version not seen yet comes before
    the news that the sender is gone. *)
Definition changed (w : PathWorld) : option (option Z) :=
  if negb (pn_version w =? pw_seen (pn_self w)) then Some (Some (pn_version w))
  else if pn_closed w then Some None else None.
(** The next [d] milliseconds may pass: no branch is ready, and no timer fires before. *)
Definition may_pass (d : Z) (w : PathWorld) : bool :=
  pw_only_relay (pn_self w) ||
  (match changed w with None => true | Some _ => false end &&
   match pw_recheck (pn_self w) with None => true | Some at_ => pn_now w + d <=? at_ end).

Definition with_self (w : PathWorld) (self : PathWatch) : PathWorld :=
  {| pn_now := pn_now w; pn_version := pn_version w; pn_closed := pn_closed w; pn_gone_since := pn_gone_since w;
     pn_last_reset := pn_last_reset w; pn_self := self |}.

Inductive path_step : PathWorld → PathWorld → Prop :=
| path_time w d : 0 < d → may_pass d w = true →
    path_step w {| pn_now := pn_now w + d; pn_version := pn_version w; pn_closed := pn_closed w;
                   pn_gone_since := pn_gone_since w; pn_last_reset := pn_last_reset w; pn_self := pn_self w |}
| path_reset w : pn_closed w = false →
    path_step w {| pn_now := pn_now w; pn_version := pn_version w + 1; pn_closed := false;
                   pn_gone_since := pn_gone_since w; pn_last_reset := Some (pn_now w); pn_self := pn_self w |}
| path_close w :
    path_step w {| pn_now := pn_now w; pn_version := pn_version w; pn_closed := true;
                   pn_gone_since := pn_gone_since w; pn_last_reset := pn_last_reset w; pn_self := pn_self w |}
| path_address_lost w : pn_gone_since w = None →
    path_step w {| pn_now := pn_now w; pn_version := pn_version w; pn_closed := pn_closed w;
                   pn_gone_since := Some (pn_now w); pn_last_reset := pn_last_reset w; pn_self := pn_self w |}
| path_address_back w :
    path_step w {| pn_now := pn_now w; pn_version := pn_version w; pn_closed := pn_closed w;
                   pn_gone_since := None; pn_last_reset := pn_last_reset w; pn_self := pn_self w |}
| path_relay w output : pw_ended (pn_self w) = None → path_step w (with_self w (relay_branch output (pn_self w)))
| path_changed w answer : pw_ended (pn_self w) = None → pw_only_relay (pn_self w) = false → changed w = Some answer →
    path_step w (with_self w (changed_branch answer (present w) (pn_now w) (pn_self w)))
| path_check w at_ : pw_ended (pn_self w) = None → pw_only_relay (pn_self w) = false →
    pw_recheck (pn_self w) = Some at_ → at_ <= pn_now w →
    path_step w (with_self w (check_branch (present w) (pn_self w))).

Definition path_start (local : option IpAddr) (now version : Z) (gone_since : option Z) : PathWorld :=
  {| pn_now := now; pn_version := version; pn_closed := false; pn_gone_since := gone_since; pn_last_reset := None;
     pn_self := until_start local version |}.
Definition path_reach (local : option IpAddr) (now version : Z) (gone_since : option Z) : PathWorld → Prop :=
  rtc path_step (path_start local now version gone_since).

(** What every history leaves of a watch that is still looking. *)
Record watching_inv (w : PathWorld) : Prop := {
  wi_version : pw_seen (pn_self w) <= pn_version w;
  wi_quiet : pn_last_reset w = None → pw_recheck (pn_self w) = None ∧ pn_version w = pw_seen (pn_self w);
  wi_reset r : pn_last_reset w = Some r → r <= pn_now w;
  (** a reset not seen yet is from this very moment; after one was seen, the address was there
      when it was, and the second look is due, or found it there *)
  wi_seen r : pn_last_reset w = Some r → pw_only_relay (pn_self w) = false →
    if pn_version w =? pw_seen (pn_self w)
    then (∀ g, pn_gone_since w = Some g → r <= g) ∧
         match pw_recheck (pn_self w) with
         | Some at_ => at_ = r + PATH_RECHECK ∧ pn_now w <= at_
         | None => r + PATH_RECHECK <= pn_now w ∧ ∀ g, pn_gone_since w = Some g → r + PATH_RECHECK <= g
         end
    else r = pn_now w
}.

Lemma path_start_inv local now version gone : watching_inv (path_start local now version gone).
Proof. split; simpl; try done; lia. Qed.
Lemma path_step_inv w w' : path_step w w' → pw_ended (pn_self w') = None → watching_inv w → watching_inv w'.
Proof.
  intros Hs He [Hv Hq Hr Hw]. destruct Hs as [w d Hd Hp|w Hc|w|w Hg|w|w o Hn|w answer Hn Ho Ha|w at_ Hn Ho Hc Hat];
    cbn [pn_self with_self relay_branch pw_ended] in He; try done.
  - split; cbn; [done|done|intros r Hl; specialize (Hr r Hl); lia|].
    intros r Hl Ho. specialize (Hw r Hl Ho). unfold may_pass, changed in Hp. rewrite Ho in Hp. cbn [orb] in Hp.
    destruct (pn_version w =? pw_seen (pn_self w)) eqn:Ev; [|done]. cbn [negb] in Hp. destruct Hw as [Hg Hw]. split; [done|].
    destruct (pw_recheck (pn_self w)) as [at_|]; [|split; [lia|apply Hw]].
    apply andb_true_iff in Hp as [_ Hp]. apply Z.leb_le in Hp. split; [apply Hw|lia].
  - split; cbn; [lia|done|by intros r [= <-]|]. intros r [= <-] _. by rewrite (proj2 (Z.eqb_neq _ _)) by lia.
  - split; cbn; [done|done|done|]. intros r Hl Ho. specialize (Hw r Hl Ho). specialize (Hr r Hl).
    destruct (pn_version w =? pw_seen (pn_self w)); [|done]. destruct Hw as [_ Hw]. split; [by intros g [= <-]|].
    destruct (pw_recheck (pn_self w)); [done|]. split; [lia|]. intros g [= <-]. lia.
  - split; cbn; [done|done|done|]. intros r Hl Ho. specialize (Hw r Hl Ho).
    destruct (pn_version w =? pw_seen (pn_self w)); [|done]. destruct Hw as [_ Hw]. split; [done|].
    destruct (pw_recheck (pn_self w)); [exact Hw|]. destruct Hw as [Hw _]. split; [exact Hw|done].
  - unfold changed in Ha. destruct (Z.eqb_spec (pn_version w) (pw_seen (pn_self w))) as [Ev|Ev]; cbn [negb] in Ha.
    + destruct (pn_closed w); [|done]. injection Ha as <-. split; cbn; [exact Hv|exact Hq|exact Hr|done].
    + injection Ha as <-. unfold present in *. cbn [changed_branch] in *.
      destruct (pn_gone_since w) eqn:Eg; cbn [negb] in *; [done|]. split; cbn; [lia|intros Hl; by apply Hq in Hl as []|done|].
      intros r Hl _. specialize (Hw r Hl Ho). subst r. rewrite Z.eqb_refl, ?Eg.
      split; [done|]. unfold PATH_RECHECK. lia.
  - unfold present in *. cbn [check_branch pw_ended] in He. destruct (pn_gone_since w) eqn:Eg; cbn [negb] in *; [done|].
    split; cbn; [done|intros Hl; by apply Hq in Hl as []|done|].
    intros r Hl _. specialize (Hw r Hl Ho). destruct (pn_version w =? pw_seen (pn_self w)); [|done].
    rewrite Hc in Hw. rewrite Eg. split; [done|]. split; [lia|done].
Qed.
Lemma path_ended_stays w w' : path_step w w' → pw_ended (pn_self w') = None → pw_ended (pn_self w) = None.
Proof. by destruct 1. Qed.
Lemma path_reach_inv local now version gone w : path_reach local now version gone w → pw_ended (pn_self w) = None →
  watching_inv w.
Proof.
  revert w. apply (rtc_ind_r (λ w, pw_ended (pn_self w) = None → watching_inv w)); [intros _; apply path_start_inv|].
  intros w w' Hr Hs IH He.
  eapply path_step_inv; [done|done|]. apply IH. by eapply path_ended_stays.
Qed.
(** Only the news that the sender is gone, or having no source address, stops the looking. *)
Lemma path_reach_looking local now version gone w : path_reach local now version gone w →
  pn_closed w = false → pw_only_relay (pn_self w) = match local with None => true | Some _ => false end.
Proof.
  revert w. apply (rtc_ind_r (λ w, pn_closed w = false → pw_only_relay (pn_self w) = _)); [done|]. intros w w' Hr Hs IH.
  destruct Hs as [w d|w|w|w|w|w o|w answer Hn Ho Ha|w at_]; cbn; try done; [by auto|].
  intros Hc. unfold changed in Ha. rewrite Hc in Ha. destruct (negb _); [|done]. injection Ha as <-.
  cbn. destruct (negb (present w)); by apply IH.
Qed.
(** The look that gives a relay up: it was watched, its address is missing, and the look is the one
    at the last reset or the second one, [PATH_RECHECK] after it. *)
Definition sees_it_gone (w : PathWorld) : Prop :=
  pw_ended (pn_self w) = None ∧ pw_only_relay (pn_self w) = false ∧ is_Some (pn_gone_since w) ∧
  ∃ r, pn_last_reset w = Some r ∧ (pn_now w = r ∨ pn_now w = r + PATH_RECHECK).
Lemma path_step_dropped w w' : path_step w w' → watching_inv w → pw_ended (pn_self w) = None →
  pw_ended (pn_self w') = Some None → sees_it_gone w.
Proof.
  intros Hs [_ Hq _ Hw] He He'.
  assert (pw_only_relay (pn_self w) = false → present w = false → pn_last_reset w ≠ None →
    (∀ r, pn_last_reset w = Some r → pn_now w = r ∨ pn_now w = r + PATH_RECHECK) → sees_it_gone w) as Hsees.
  { intros Ho Hp Hl Hr. unfold present in Hp. split_and!; [done|done|by destruct (pn_gone_since w)|].
    apply not_eq_None_Some in Hl as [r Hl]. eauto. }
  destruct Hs as [w d|w|w|w|w|w o Hn|w answer Hn Ho Ha|w at_ Hn Ho Hc Hat]; cbn in He'; try congruence.
  - unfold changed in Ha. destruct (Z.eqb_spec (pn_version w) (pw_seen (pn_self w))) as [Ev|Ev]; cbn [negb] in Ha.
    + destruct (pn_closed w); [|done]. injection Ha as <-. cbn in He'. congruence.
    + injection Ha as <-. cbn in He'. apply Hsees; [done|destruct (present w); [cbn in He'; congruence|done]|intros [_ ?]%Hq; congruence|].
      intros r Hl. specialize (Hw r Hl Ho). by left.
  - apply Hsees; [done|destruct (present w); [cbn in He'; congruence|done]|intros [? _]%Hq; congruence|].
    intros r Hl. specialize (Hw r Hl Ho). destruct (pn_version w =? pw_seen (pn_self w)); [|by left].
    rewrite Hc in Hw. right. lia.
Qed.
(** A relay is dropped by a look at a missing address, after a reset. *)
Lemma path_reach_dropped local now version gone w : path_reach local now version gone w → pw_ended (pn_self w) = Some None →
  ∃ w0 w1, path_reach local now version gone w0 ∧ path_step w0 w1 ∧ rtc path_step w1 w ∧ sees_it_gone w0 ∧
    pw_ended (pn_self w1) = Some None.
Proof.
  revert w. apply (rtc_ind_r (λ w, pw_ended (pn_self w) = Some None → ∃ w0 w1, path_reach local now version gone w0 ∧
    path_step w0 w1 ∧ rtc path_step w1 w ∧ sees_it_gone w0 ∧ pw_ended (pn_self w1) = Some None)); [done|].
  intros w w' Hr Hs IH He. destruct (pw_ended (pn_self w)) as [[o|]|] eqn:Ew.
  - destruct Hs; cbn in *; congruence.
  - destruct IH as (w0 & w1 & H0 & H1 & H2 & ?); [done|]. exists w0, w1. split_and!; try tauto. by eapply rtc_r.
  - exists w, w'. split_and!; [done|done|apply rtc_refl| |done].
    apply (path_step_dropped _ _ Hs); [by apply (path_reach_inv _ _ _ _ _ Hr)|done|done].
Qed.

(** Without a source address nothing is looked at. *)
Lemma path_no_address now version gone w : path_reach None now version gone w → pw_only_relay (pn_self w) = true.
Proof.
  revert w. apply (rtc_ind_r (λ w, pw_only_relay (pn_self w) = true)); [done|]. intros w w' _ Hs IH.
  destruct Hs as [w d|w|w|w|w|w o|w answer Hn Ho Ha|w at_ Hn Ho]; cbn; congruence.
Qed.

(** The looking ends when the address was missing by the second look and is missing still. *)
Lemma path_watch_ends local now version gone w r g : path_reach local now version gone w → local ≠ None → pn_closed w = false →
  pn_last_reset w = Some r → pn_gone_since w = Some g → g < r + PATH_RECHECK → r + PATH_RECHECK < pn_now w → pw_ended (pn_self w) ≠ None.
Proof.
  intros Hr Hlocal Hc Hl Hg Hgr Hnow He. destruct (path_reach_inv _ _ _ _ _ Hr He) as [_ _ _ Hw].
  pose proof (path_reach_looking _ _ _ _ _ Hr Hc) as Ho. destruct local; [|done]. specialize (Hw r Hl Ho).
  unfold PATH_RECHECK in *. destruct (pn_version w =? pw_seen (pn_self w)); [|lia]. destruct Hw as [_ Hw].
  destruct (pw_recheck (pn_self w)); [lia|]. destruct Hw as [_ Hw]. specialize (Hw g Hg). lia.
Qed.

(** A relay ends with its network, and only then. In every history of resets, addresses,
    time and the relay: when the relay's source address was missing by [PATH_RECHECK] after the
    last reset and is missing still, the relay has ended once that time is over, so long as the
    proxy is not going away; and a relay that was dropped had a source address, and was given up
    on this very history by a look that found the address missing, at a reset or [PATH_RECHECK]
    after it. *)
Theorem relay_ends_with_its_path (local : option IpAddr) (now version : Z) (gone : option Z) (w : PathWorld) :
  path_reach local now version gone w →
  (∀ r g, local ≠ None → pn_closed w = false → pn_last_reset w = Some r → pn_gone_since w = Some g →
     g < r + PATH_RECHECK → r + PATH_RECHECK < pn_now w → pw_ended (pn_self w) ≠ None) ∧
  (pw_ended (pn_self w) = Some None → local ≠ None ∧
     ∃ w0 w1, path_reach local now version gone w0 ∧ path_step w0 w1 ∧ rtc path_step w1 w ∧ sees_it_gone w0 ∧
       pw_ended (pn_self w1) = Some None).
Proof.
  intros Hr. split.
  - intros r g. by eapply path_watch_ends.
  - intros He. destruct (path_reach_dropped _ _ _ _ _ Hr He) as (w0 & w1 & Hr0 & Hrest). split; [|by exists w0, w1].
    intros ->. apply path_no_address in Hr0. destruct Hrest as (_ & _ & (_ & Ho & _) & _). congruence.
Qed.
End path_gone.
Arguments PathWorld O : clear implicits.

(** A reset is seen, the address goes away half a second later, and the second look ends the relay. *)
Definition example_world (now version seen : Z) (gone : option Z) (recheck : option Z) (ended : option (option unit)) : PathWorld unit :=
  {| pn_now := now; pn_version := version; pn_closed := false; pn_gone_since := gone; pn_last_reset := Some 0;
     pn_self := {| pw_seen := seen; pw_recheck := recheck; pw_only_relay := false; pw_ended := ended |} |}.
Lemma example_path_run ip :
  path_reach (Some ip) 0 0 None (example_world 2001 1 1 (Some 500) None (Some None)).
Proof.
  eapply rtc_l; [apply path_reset; done|].
  eapply rtc_l; [apply path_changed with (answer := Some 1); done|].
  eapply rtc_l; [apply (path_time _ 500); done|].
  eapply rtc_l; [apply path_address_lost; done|].
  eapply rtc_l; [apply (path_time _ 1500); done|].
  eapply rtc_l; [eapply path_check; [done|done|reflexivity|by vm_compute]|].
  eapply rtc_l; [apply (path_time _ 1); done|]. apply rtc_refl.
Qed.
Lemma relay_ends_with_its_path_witness :
  pw_ended (pn_self (example_world 2001 1 1 (Some 500) None (Some None))) ≠ None ∧ Some (V4 [127; 0; 0; 1]) ≠ None.
Proof.
  destruct (relay_ends_with_its_path (Some (V4 [127; 0; 0; 1])) 0 0 None _ (example_path_run _)) as [H1 H2].
  split; [apply (H1 0 500); [discriminate|reflexivity|reflexivity|reflexivity|reflexivity|reflexivity]|exact (proj1 (H2 eq_refl))].
Defined.
End PathGone.

(** ** Ending a relay that is idle *)
Module CopyIdle.

(** Time is in nanoseconds here, since the time of the last read is kept in whole milliseconds. *)
Definition MILLI : Z := 1000000.

Inductive Ended := Closed | Idle.

(** The locals of [copy_until_idle]: [start], [last] (the cell its two [Tracked] streams share),
    the deadline the timer was set for, and what it returned. *)
Record Copy := {
  cp_start : Z;
  cp_last : Z;
  cp_deadline : Z;
  cp_ended : option (result Ended ErrorKind)
}.
(** The top of the loop. *)
Definition copy_top (idle : Z) (self : Copy) : Copy :=
  {| cp_start := cp_start self; cp_last := cp_last self; cp_deadline := cp_start self + cp_last self * MILLI + idle;
     cp_ended := cp_ended self |}.
Definition copy_start (idle now : Z) : Copy :=
  copy_top idle {| cp_start := now; cp_last := 0; cp_deadline := now; cp_ended := None |}.
(** [Tracked::poll_read], where the inner stream answered [poll] and [filled] bytes: both sides
    store into the same cell. *)
Definition Tracked_poll_read (poll : Poll (result unit ErrorKind)) (filled : nat) (now : Z) (self : Copy)
    : Copy * Poll (result unit ErrorKind) :=
  (match poll with
   | Ready (Ok _) =>
       if (0 <? filled)%nat then
         {| cp_start := cp_start self; cp_last := Z.min ((now - cp_start self) / MILLI) (2 ^ 64 - 1);
            cp_deadline := cp_deadline self; cp_ended := cp_ended self |}
       else self
   | _ => self
   end, poll).
(** [copy_bidirectional] ended. *)
Definition copy_ends (answer : result (Z * Z) ErrorKind) (self : Copy) : Copy :=
  {| cp_start := cp_start self; cp_last := cp_last self; cp_deadline := cp_deadline self;
     cp_ended := Some (match answer with Ok _ => Ok Closed | Err e => Err e end) |}.
(** The timer fired. *)
Definition copy_timer (idle now : Z) (self : Copy) : Copy :=
  let since := cp_last self * MILLI in
  if idle <=? sat_sub (now - cp_start self) since then
    {| cp_start := cp_start self; cp_last := cp_last self; cp_deadline := cp_deadline self; cp_ended := Some (Ok Idle) |}
  else copy_top idle self.

(** The relay with the clock, and when bytes were last read. *)
Record CopyWorld := { cw_now : Z; cw_read_at : Z; cw_self : Copy }.
Inductive copy_step (idle : Z) : CopyWorld → CopyWorld → Prop :=
| copy_time w d : 0 < d → cp_ended (cw_self w) = None → cw_now w + d <= cp_deadline (cw_self w) →
    copy_step idle w {| cw_now := cw_now w + d; cw_read_at := cw_read_at w; cw_self := cw_self w |}
| copy_reads w poll filled : cp_ended (cw_self w) = None →
    copy_step idle w
      {| cw_now := cw_now w;
         cw_read_at := match poll with Ready (Ok _) => if (0 <? filled)%nat then cw_now w else cw_read_at w | _ => cw_read_at w end;
         cw_self := (Tracked_poll_read poll filled (cw_now w) (cw_self w)).1 |}
| copy_done w answer : cp_ended (cw_self w) = None →
    copy_step idle w {| cw_now := cw_now w; cw_read_at := cw_read_at w; cw_self := copy_ends answer (cw_self w) |}
| copy_fires w : cp_ended (cw_self w) = None → cp_deadline (cw_self w) <= cw_now w →
    copy_step idle w {| cw_now := cw_now w; cw_read_at := cw_read_at w; cw_self := copy_timer idle (cw_now w) (cw_self w) |}.
Definition copy_reach (idle now : Z) : CopyWorld → Prop :=
  rtc (copy_step idle) {| cw_now := now; cw_read_at := now; cw_self := copy_start idle now |}.

Record copy_inv (idle now : Z) (w : CopyWorld) : Prop := {
  ci_start : cp_start (cw_self w) = now;
  ci_times : now <= cw_read_at w <= cw_now w;
  ci_last : cp_last (cw_self w) = Z.min ((cw_read_at w - now) / MILLI) (2 ^ 64 - 1);
  ci_deadline : cp_deadline (cw_self w) <= cw_read_at w + idle;
  ci_now : cp_ended (cw_self w) = None → cw_now w <= cp_deadline (cw_self w);
  ci_idle : cp_ended (cw_self w) = Some (Ok Idle) → idle <= cw_now w - now - cp_last (cw_self w) * MILLI
}.
Lemma last_bounds d : 0 <= d → 0 <= Z.min (d / MILLI) (2 ^ 64 - 1) * MILLI <= d.
Proof. intros. unfold MILLI. Z.to_euclidean_division_equations; lia. Qed.
Lemma copy_inv_step idle now w w' : 0 <= idle → copy_step idle w w' → copy_inv idle now w → copy_inv idle now w'.
Proof.
  intros Hi Hs [Hst Ht Hl Hd Hn He].
  pose proof (last_bounds (cw_read_at w - now) ltac:(lia)) as Hm. rewrite <- Hl in Hm.
  destruct Hs as [w d Hd0 H0 Hp|w poll filled H0|w answer H0|w H0 Hp].
  - split; cbn; [done|lia|done|done|done|congruence].
  - assert (copy_inv idle now {| cw_now := cw_now w; cw_read_at := cw_read_at w; cw_self := cw_self w |}) as Hsame
      by (split; cbn; try done; congruence).
    unfold Tracked_poll_read. destruct poll as [|[u|e]]; [exact Hsame| |exact Hsame].
    destruct (0 <? filled)%nat; [|exact Hsame]. split; cbn; [done|lia|by rewrite Hst|lia|auto|congruence].
  - split; cbn; [done|lia|done|done|done|]. by destruct answer.
  - unfold copy_timer, sat_sub. destruct (Z.leb_spec idle (Z.max 0 (cw_now w - cp_start (cw_self w) - cp_last (cw_self w) * MILLI)))
      as [Hle|Hlt]; split; cbn; try done; try lia.
Qed.
Lemma copy_reach_inv idle now w : 0 <= idle → copy_reach idle now w → copy_inv idle now w.
Proof.
  intros Hi. revert w. apply rtc_ind_r.
  - split; cbn; rewrite ?Z.sub_diag; try done; lia.
  - intros w w' _ Hs Hw. by eapply copy_inv_step.
Qed.

(** A relay ends for being idle exactly when it is. In every history of reads and time: while
    the relay runs, no more than the idle timeout has passed since bytes were last read on either
    side (since it started, when none were); and when it ends as idle, more than the timeout less
    one millisecond has passed since then (the last read is kept in whole milliseconds, for the
    [2^64] of them a [u64] holds). *)
Theorem idle_relays_end (idle now : Z) (w : CopyWorld) : 0 <= idle → copy_reach idle now w →
  (cp_ended (cw_self w) = None → cw_now w <= cw_read_at w + idle) ∧
  (cp_ended (cw_self w) = Some (Ok Idle) → cw_read_at w - now < 2 ^ 64 * MILLI → idle - MILLI < cw_now w - cw_read_at w).
Proof.
  intros Hi Hr. destruct (copy_reach_inv idle now w Hi Hr) as [Hst Ht Hl Hd Hn He]. split.
  - intros H. specialize (Hn H). lia.
  - intros H Hb. specialize (He H). rewrite Hl in He. unfold MILLI in *. Z.to_euclidean_division_equations; lia.
Qed.

(** Bytes are read once, a millisecond and a half after the start; the relay ends ten
    milliseconds after the millisecond of that read. *)
Definition example_copy_end : CopyWorld :=
  {| cw_now := 11 * MILLI; cw_read_at := 1500000;
     cw_self := {| cp_start := 0; cp_last := 1; cp_deadline := 11 * MILLI; cp_ended := Some (Ok Idle) |} |}.
Lemma example_copy_run : copy_reach (10 * MILLI) 0 example_copy_end.
Proof.
  eapply rtc_l; [apply (copy_time _ _ 1500000); by vm_compute|].
  eapply rtc_l; [apply (copy_reads _ _ (Ready (Ok ())) 5); by vm_compute|].
  eapply rtc_l; [apply (copy_time _ _ 8500000); by vm_compute|].
  eapply rtc_l; [apply copy_fires; by vm_compute|].
  eapply rtc_l; [apply (copy_time _ _ 1000000); by vm_compute|].
  eapply rtc_l; [apply copy_fires; by vm_compute|]. apply rtc_refl.
Qed.
Lemma idle_relays_end_witness : 10 * MILLI - MILLI < cw_now example_copy_end - cw_read_at example_copy_end.
Proof.
  apply (idle_relays_end (10 * MILLI) 0 example_copy_end); [discriminate|exact example_copy_run|reflexivity|reflexivity].
Defined.
End CopyIdle.
