(* ===== verification/UpstreamConn.v ===== *)
(** * Upstream connections: TLS, client certificates and lost paths ([mitm/src/upstream.rs], [websocket.rs])

    [connect_tls] and [AlertWatch], which find out that a server requires a client certificate; the
    dial of a WebSocket, outside the pool; and the task that cuts a connection whose network path is
    gone, which runs beside the connection's own polls. What rustls and hyper answer is an argument. *)
From S2P Require Import Prelude RustStr Collections Net Io UpstreamError Http Request Outbound Cut Tunnel.
Import PathGone.

(** ** Client certificates *)

(** An I/O error as [AlertWatch] and [connect_failure] see it. *)
Definition IoError : Type := ErrorKind * option DynError.
(** [ClientCertAsked]: set by [resolve], which answers that there is no certificate. *)
Definition ClientCertAsked_resolve (self : bool) : bool * option unit := (true, None).
Definition ClientCertAsked_has_certs : bool := false.

(** [connect_tls]: [calls] is how often rustls asked for a certificate during the handshake. *)
Definition connect_tls {T} (calls : nat) (result : result T IoError) : Prelude.result (T * bool) UpstreamError :=
  let asked := Nat.iter calls (λ asked, (ClientCertAsked_resolve asked).1) false in
  match result with
  | Ok tls => Ok (tls, asked)
  | Err e => Err (connect_failure e.1 e.2 asked)
  end.

(** [AlertWatch]: the polls go to the stream; what a read, a write or a flush gave is noted. *)
Inductive WatchedPoll := WatchRead | WatchWrite | WatchWriteVectored | WatchFlush | WatchShutdown.
Definition AlertWatch_poll {A} (alert : bool) (poll : WatchedPoll) (inner : Poll (result A IoError)) : bool * Poll (result A IoError) :=
  match poll with
  | WatchShutdown => (alert, inner)
  | _ => (AlertWatch_note alert inner, inner)
  end.
Fixpoint AlertWatch_polls {A} (alert : bool) (polls : list (WatchedPoll * Poll (result A IoError))) : bool * list (Poll (result A IoError)) :=
  match polls with
  | [] => (alert, [])
  | (poll, inner) :: polls =>
      let '(alert, answer) := AlertWatch_poll alert poll inner in
      let '(alert, answers) := AlertWatch_polls alert polls in
      (alert, answer :: answers)
  end.

(** [handshake] after TLS: the protocol that was agreed on, and the checkout, whose [cert_rejection] is
    there only when the server asked for a certificate and TLS 1.3 tells its verdict later. *)
Definition cert_rejection (client_cert_asked tls13 alert : bool) : Checkout :=
  New (client_cert_asked && tls13 && alert).

(** ** The dial of a WebSocket *)

Record DialAnswers := {
  da_permit : result unit UpstreamError;
  (** the whole of connecting ended within [connect_timeout] *)
  da_in_time : bool;
  (** the source address of the TCP connection *)
  da_tcp : result (option IpAddr) UpstreamError;
  da_name_ok : bool;
  da_asked : nat;
  da_tls : result unit IoError;
  da_handshake : result unit UpstreamError
}.
(** [dial]: the source address with the permit kept, or the error with the permit given back. [free] is
    the permits left. *)
Definition ws_connect (target : Target) (answers : DialAnswers) : result (option IpAddr) UpstreamError :=
  match da_tcp answers with
  | Err e => Err e
  | Ok local =>
      if negb (da_name_ok answers) then Err (ServerNameError (t_server_name target))
      else match connect_tls (da_asked answers) (da_tls answers) with
           | Err e => Err e
           | Ok _ => match da_handshake answers with Err e => Err e | Ok _ => Ok local end
           end
  end.
Definition ws_dial (free : nat) (target : Target) (answers : DialAnswers) : nat * result (option IpAddr) UpstreamError :=
  match da_permit answers with
  | Err e => (free, Err e)
  | Ok _ =>
      match if da_in_time answers then ws_connect target answers else Err Timeout with
      | Ok local => (pred free, Ok local)
      | Err e => (free, Err e)
      end
  end.

(** ** Cutting a connection whose path is gone *)


(** ** Facts *)

Lemma asked_iter calls : Nat.iter calls (λ asked, (ClientCertAsked_resolve asked).1) false = (0 <? calls)%nat.
Proof. by destruct calls. Qed.

Definition is_alert {A} (polled : Poll (result A IoError)) : bool :=
  match polled with Ready (Err (_, Some (Rustls (AlertReceived _)))) => true | _ => false end.
Lemma note_alert {A} alert (inner : Poll (result A IoError)) : AlertWatch_note alert inner = alert || is_alert inner.
Proof. unfold AlertWatch_note, is_alert. by repeat case_match; rewrite ?orb_true_r, ?orb_false_r. Qed.
Definition is_shutdown (poll : WatchedPoll) : bool := match poll with WatchShutdown => true | _ => false end.
Lemma polls_alert {A} (polls : list (WatchedPoll * Poll (result A IoError))) : ∀ alert,
  AlertWatch_polls alert polls = (alert || existsb (λ p, negb (is_shutdown p.1) && is_alert p.2) polls, polls.*2).
Proof.
  induction polls as [|[poll inner] polls IH]; intros alert; simpl; [by rewrite orb_false_r|].
  assert (AlertWatch_poll alert poll inner = (alert || negb (is_shutdown poll) && is_alert inner, inner)) as ->.
  { destruct poll; cbn [AlertWatch_poll is_shutdown negb andb]; rewrite ?note_alert, ?orb_false_r; done. }
  by rewrite IH, orb_assoc.
Qed.

(** A server that requires a client certificate is told apart from every other failure. A failed
    handshake is that only when the server asked for a certificate and refused with an alert (as TLS
    1.2 servers do), and any other failure is passed on as it was; on an open connection the watch
    passes every answer through and has an alert exactly when a read, a write or a flush got one, which
    counts only when the server had asked and TLS 1.3 puts the refusal after the handshake. *)
Theorem client_certificate_told (T A : Type) (calls : nat) (handshake : result T IoError) (polls : list (WatchedPoll * Poll (result A IoError))) (tls13 : bool) :
  match connect_tls calls handshake with
  | Ok (tls, asked) =>
      handshake = Ok tls ∧ asked = (0 <? calls)%nat ∧
      let '(alert, answers) := AlertWatch_polls false polls in
      answers = polls.*2 ∧
      (cert_rejection asked tls13 alert = New true ↔
       (0 < calls)%nat ∧ tls13 = true ∧ ∃ poll answer, (poll, answer) ∈ polls ∧ poll ≠ WatchShutdown ∧ is_alert answer = true)
  | Err (ClientCertificate e) => ∃ kind inner d, handshake = Err (kind, inner) ∧ (0 < calls)%nat ∧ e = Connect kind inner ∧ rustls_error e = Some (AlertReceived d)
  | Err e => ∃ kind inner, handshake = Err (kind, inner) ∧ e = Connect kind inner ∧
      ((0 < calls)%nat → ∀ d, rustls_error e ≠ Some (AlertReceived d))
  end.
Proof.
  unfold connect_tls. rewrite asked_iter. destruct handshake as [tls|[kind inner]].
  - split_and!; [done|done|]. rewrite polls_alert. split; [done|]. unfold cert_rejection. cbn [orb].
    assert (∀ b, New b = New true ↔ b = true) as -> by (intros []; naive_solver).
    rewrite !andb_true_iff, Nat.ltb_lt, existsb_exists. split.
    + intros [[H1 H2] ([poll answer] & Hin & [Hp Ha]%andb_true_iff)]. split_and!; [done|done|]. exists poll, answer.
      split_and!; [by apply list_elem_of_In|by intros ->|done].
    + intros (H1 & H2 & poll & answer & Hin & Hp & Ha). split; [done|]. exists (poll, answer).
      split; [by apply list_elem_of_In|]. simpl. rewrite Ha. by destruct poll.
  - unfold connect_failure. cbn [fst snd]. destruct (Nat.ltb_spec 0 calls) as [Hc|Hc].
    + destruct (rustls_error (Connect kind inner)) as [[c| |d|]|] eqn:Hr; try (exists kind, inner; split_and!; [done|done|intros _ d'; rewrite Hr; congruence]).
      exists kind, inner, d. done.
    + exists kind, inner. split_and!; [done|done|lia].
Qed.

(** The dial of a WebSocket keeps a permit exactly when it gives a connection. *)
Lemma ws_dial_permits (free : nat) (target : Target) (answers : DialAnswers) : (0 < free)%nat →
  match ws_dial free target answers with
  | (free', Ok local) => (S free' = free)%nat ∧ da_permit answers = Ok tt ∧ da_in_time answers = true ∧ da_tcp answers = Ok local ∧
      da_name_ok answers = true ∧ da_tls answers = Ok tt ∧ da_handshake answers = Ok tt
  | (free', Err e) => free' = free ∧
      (da_permit answers = Err e ∨ (da_in_time answers = false ∧ e = Timeout) ∨ da_tcp answers = Err e ∨
       (da_name_ok answers = false ∧ e = ServerNameError (t_server_name target)) ∨
       (∃ kind inner, da_tls answers = Err (kind, inner) ∧ e = connect_failure kind inner (0 <? da_asked answers)%nat) ∨ da_handshake answers = Err e)
  end.
Proof.
  intros Hf. unfold ws_dial, ws_connect, connect_tls. rewrite asked_iter.
  destruct (da_permit answers) as [[]|e] eqn:Hp; [|auto]. destruct (da_in_time answers) eqn:Ht; [|auto].
  destruct (da_tcp answers) as [local|e] eqn:Hc; [|auto]. destruct (da_name_ok answers) eqn:Hn; cbn [negb]; [|auto 10].
  destruct (da_tls answers) as [[]|[kind inner]] eqn:Htls; cbn [fst snd]; [|split; [done|]; do 4 right; left; eauto].
  destruct (da_handshake answers) as [[]|e] eqn:Hh; [|split; [done|]; by do 5 right]. split_and!; try done. lia.
Qed.

(** ** Lost paths *)





(** ** Examples *)

