(* ===== verification/Session.v ===== *)
(** * A client's session, from its [CONNECT] to its end

    [inspect], [passthrough], [passthrough_at_once] ([mitm/src/connect.rs]), [intercept]
    ([intercept.rs]) and [serve] ([sink.rs]), composed with the answer to [CONNECT] into the
    whole session of one client. Whenever the session awaits, other tasks run: what they do to
    the shared state is an argument, as are the outcomes of dialing, TLS and hyper. A permit is
    dropped where the source's owner of it goes out of scope. *)
From S2P Require Import Prelude RustStr Collections Net HostPattern Policy PolicyFacts DomainSet Common DnsCache Io Flight Hello Http Engine Filtering UpstreamError Request Idle Ca Proxy Connect ConnectProps.

(** How a TLS handshake ended: not in time, with an error, or well. *)
Inductive Handshake :=
| HandshakeTimedOut
| HandshakeFailed (kind : ErrorKind) (inner : option DynError) (client : FlightWatch)
| HandshakeDone.

Section session.
Context `{HttpCrate, AdblockCrate, Issuing, Lru, Acceptor}.

Definition Others : Type := ProxyState → ProxyState.

Definition count (counter : Counter) (s : ProxyState) : ProxyState := with_ctx s (ctx_inc counter (ps_ctx s)).
(** [Activity::new] under a number of its own, and the end of the last reference to it. *)
Definition new_activity (s : ProxyState) (now : Z) : ProxyState * nat :=
  let id := fresh (dom (ps_activities s)) in
  (with_connections s (<[id := Activity_new now]> (ps_activities s)) (ps_intercepted s) (ps_blocked s), id).
Definition end_activity (s : ProxyState) (id : nat) : ProxyState :=
  with_connections s (delete id (ps_activities s)) (ps_intercepted s) (ps_blocked s).

(** [passthrough]: [dialing] and [tunnelling] are what others do meanwhile. *)
Definition passthrough (s : ProxyState) (dialed : result unit UpstreamError) (dialing tunnelling : Others) : ProxyState :=
  let '(s, slot) := passthrough_slot s in
  if negb slot then s
  else
    let s := dialing s in
    match dialed with
    | Ok _ => release_passthrough (tunnelling (count connections_passthrough s))
    | Err _ => release_passthrough s
    end.
(** The task of a passthrough host, which holds its slot already: both the dial and the upgrade
    must succeed. *)
Definition passthrough_at_once (s : ProxyState) (dialed : result unit UpstreamError) (upgraded : bool)
    (dialing tunnelling : Others) : ProxyState :=
  let s := dialing s in
  match dialed with
  | Ok _ => if upgraded then release_passthrough (tunnelling (count connections_passthrough s)) else release_passthrough s
  | Err _ => release_passthrough s
  end.

(** [intercept]: [requests] is how many requests the connection carried, [closed_idle] whether
    the proxy shut it down. *)
Definition intercept (s : ProxyState) (origin : Origin) (handshake : Handshake) (requests : nat) (closed_idle : bool)
    (now wall : Z) (shaking serving : Others) : ProxyState :=
  let s := count connections_intercepted s in
  let s := shaking s in
  match handshake with
  | HandshakeTimedOut => release_intercept s
  | HandshakeFailed kind inner client =>
      release_intercept (with_ctx s (report_handshake_failure (ps_ctx s) (o_name origin) kind inner client wall))
  | HandshakeDone =>
      let ctx := ps_ctx s in
      let s := with_ctx s (ctx_learn (record_intercepted_handshake (learning (ctx_policy ctx)) (o_name origin) wall) ctx) in
      let '(s, id) := new_activity s now in
      let s := serving (add_intercepted s id) in
      let s := if (requests =? 0)%nat && negb closed_idle then count tls_abandoned_after_handshake s else s in
      release_intercept (end_activity s id)
  end.

(** [sink::serve]: nothing is counted and nothing learned, whatever the handshake does. *)
Definition sink_serve (s : ProxyState) (blocked : BlockedConnection) (handshake : Handshake) (now : Z)
    (shaking serving : Others) : ProxyState :=
  let s := shaking s in
  match handshake with
  | HandshakeTimedOut | HandshakeFailed _ _ _ => release_blocked s
  | HandshakeDone =>
      if negb (bc_http blocked) then release_blocked (serving s)
      else
        let '(s, id) := new_activity s now in
        let s := serving (add_blocked s id) in
        release_blocked (end_activity s id)
  end.

(** What a session meets: the times it reads, the client's bytes, the waits for permits, the
    outcomes, and what others do at each await. *)
Record SessionEnv := {
  se_now : Z; se_wall : Z; (** at the [CONNECT] *)
  se_then : Z; se_then_wall : Z; (** once the first bytes were read *)
  se_upgraded : bool;
  se_first : option ReadAnswer; se_answers : list ReadAnswer;
  se_connect_waits : list SlotWait; se_waits : list SlotWait; se_wait : SlotWait;
  se_attempt : nat;
  se_dialed : result unit UpstreamError;
  se_handshake : Handshake;
  se_requests : nat; se_closed_idle : bool;
  se_upgrading : Others; se_reading : Others; se_dialing : Others; se_tunnelling : Others;
  se_shaking : Others; se_serving : Others
}.

(** [inspect] *)
Definition inspect (env : SessionEnv) (s : ProxyState) (host : bytes) (port : Z) : option ProxyState :=
  let s := se_reading env s in
  match (plan s (se_first env) (se_answers env) host port (se_then env) (se_then_wall env) (se_waits env) (se_wait env)
           (se_attempt env)).1.1 with
  | None => None
  | Some (s, PlanClose) => Some s
  | Some (s, PlanTunnel _) => Some (passthrough s (se_dialed env) (se_dialing env) (se_tunnelling env))
  | Some (s, PlanIntercept origin _) =>
      Some (intercept s origin (se_handshake env) (se_requests env) (se_closed_idle env) (se_then env) (se_then_wall env)
              (se_shaking env) (se_serving env))
  | Some (s, PlanSink blocked) => Some (sink_serve s blocked (se_handshake env) (se_then env) (se_shaking env) (se_serving env))
  end.

(** The task that [connect] starts, to its end. *)
Definition run_task (env : SessionEnv) (s : ProxyState) (task : ConnectTask) : option ProxyState :=
  match task with
  | SinkTask host port by_ =>
      let s := se_upgrading env s in
      if negb (se_upgraded env) then Some (release_blocked s)
      else
        let s := se_reading env s in
        match (sink s (se_first env) (se_answers env) host by_ (se_then_wall env) (se_attempt env)).1.1 with
        | (s, None) => Some s
        | (s, Some blocked) =>
            Some (sink_serve s blocked (se_handshake env) (se_then env) (se_shaking env) (se_serving env))
        end
  | PassthroughTask host port reason =>
      Some (passthrough_at_once s (se_dialed env) (se_upgraded env) (se_dialing env) (se_tunnelling env))
  | InspectTask host port =>
      let s := se_upgrading env s in
      if negb (se_upgraded env) then Some s else inspect env s host port
  end.
(** A whole session; [None] while it waits for a permit. *)
Definition session (env : SessionEnv) (s : ProxyState) (uri : Uri) : option ProxyState :=
  match connect s uri (se_now env) (se_wall env) (se_connect_waits env) with
  | None => None
  | Some (s, _, None) => Some s
  | Some (s, _, Some task) => run_task env s task
  end.

(** ** Permits are never lost *)

(** From [s] to [s'] the free permits of the three kinds changed by this much. *)
Definition moved (s s' : ProxyState) (i p b : Z) : Prop :=
  Z.of_nat (intercept_slots s') = Z.of_nat (intercept_slots s) + i ∧
  Z.of_nat (passthrough_slots s') = Z.of_nat (passthrough_slots s) + p ∧
  Z.of_nat (blocked_slots s') = Z.of_nat (blocked_slots s) + b.
(** What others do leaves as many permits free: they take and give back in balance. *)
Definition balanced (others : Others) : Prop := ∀ s, moved s (others s) 0 0 0.
Definition balanced_waits (waits : list SlotWait) : Prop := Forall (λ w, balanced (sw_others w)) waits.

Lemma moved_refl s : moved s s 0 0 0.
Proof. unfold moved. lia. Qed.
Lemma moved_trans {s1 s2 s3 i p b i' p' b'} : moved s1 s2 i p b → moved s2 s3 i' p' b' → moved s1 s3 (i + i') (p + p') (b + b').
Proof. unfold moved. lia. Qed.
Lemma moved_eq s s' i p b i' p' b' : moved s s' i p b → i = i' → p = p' → b = b' → moved s s' i' p' b'.
Proof. by intros ? -> -> ->. Qed.

Lemma moved_slots s s' : intercept_slots s' = intercept_slots s → passthrough_slots s' = passthrough_slots s →
  blocked_slots s' = blocked_slots s → moved s s' 0 0 0.
Proof. unfold moved. lia. Qed.
Lemma moved_leaf s name wall attempt : moved s (state_leaf s name wall attempt).1 0 0 0.
Proof. unfold state_leaf. destruct (leaf_at _ _ _ _ _). by apply moved_slots. Qed.
Lemma moved_close_idle s now : moved s (close_longest_idle s now).1 0 0 0.
Proof. unfold close_longest_idle. destruct (reclaim_longest_idle _ _ _ _) as [[? ?] ?]. by apply moved_slots. Qed.
Lemma moved_close_blocked s now : moved s (close_longest_idle_blocked s now).1 0 0 0.
Proof. unfold close_longest_idle_blocked. destruct (reclaim_longest_idle _ _ _ _) as [[? ?] ?]. by apply moved_slots. Qed.
Lemma moved_release_intercept s : moved s (release_intercept s) 1 0 0.
Proof. unfold moved. cbn [release_intercept with_slots intercept_slots passthrough_slots blocked_slots]. lia. Qed.
Lemma moved_release_passthrough s : moved s (release_passthrough s) 0 1 0.
Proof. unfold moved. cbn [release_passthrough with_slots intercept_slots passthrough_slots blocked_slots]. lia. Qed.
Lemma moved_release_blocked s : moved s (release_blocked s) 0 0 1.
Proof. unfold moved. cbn [release_blocked with_slots intercept_slots passthrough_slots blocked_slots]. lia. Qed.

(** One permit more than were free: one that another connection handed over. *)
Definition handed (h : Z) (granted : Prop) : Prop := h = 0 ∨ h = 1 ∧ granted.
Definition granted_in (waits : list SlotWait) : Prop := Exists (λ w, sw_granted w = true) waits.

Lemma blocked_slot_loop_moved waits : ∀ s now deadline asked s' got, balanced_waits waits →
  blocked_slot_loop waits s now deadline asked = Some (s', got) →
  moved s s' 0 0 0 ∧ (got = true → granted_in waits).
Proof.
  induction waits as [|w waits IH]; intros s now deadline asked s' got Hb; cbn [blocked_slot_loop];
    destruct (if match asked with None => true | Some id => _ end then _ else _) as [s1 asked1] eqn:E1; [done|].
  assert (moved s s1 0 0 0) as Hm1.
  { destruct asked as [id|]; [destruct (negb _)|]; try (injection E1 as <- _; apply moved_refl);
      pose proof (moved_close_blocked s now) as Hm; by rewrite E1 in Hm. }
  apply Forall_cons in Hb as [Hw Hb]. pose proof (moved_trans Hm1 (Hw s1)) as Hm. cbn in Hm.
  destruct (sw_granted w) eqn:Hg; [intros [= <- <-]; split; [done|]; intros _; by left|].
  destruct (deadline <=? _); [by intros [= <- <-]|]. intros Hl. apply IH in Hl as [Hl Hgr]; [|done].
  split; [exact (moved_trans Hm Hl)|]. intros. by right; apply Hgr.
Qed.
Lemma blocked_slot_moved s name now wall waits s' got : balanced_waits waits →
  blocked_slot s name now wall waits = Some (s', got) →
  ∃ h, moved s s' 0 0 (h - if got then 1 else 0) ∧ handed h (granted_in waits).
Proof.
  intros Hb. unfold blocked_slot. destruct (is_passthrough _).
  { intros [= <- <-]. exists 0. split; [apply moved_refl|by left]. }
  destruct (low_memory s). { intros [= <- <-]. exists 0. split; [apply moved_refl|by left]. }
  destruct (blocked_slots s) as [|free] eqn:Es.
  - intros Hl. apply blocked_slot_loop_moved in Hl as [Hm Hg]; [|done]. destruct got; [exists 1|exists 0]; (split; [exact Hm|]);
      [right; by auto|by left].
  - intros [= <- <-]. exists 0. split; [|by left]. unfold moved.
    cbn [with_slots intercept_slots passthrough_slots blocked_slots]. lia.
Qed.
Lemma intercept_slot_moved s now wait : balanced (sw_others wait) →
  let '(s', got) := intercept_slot s now wait in
  ∃ h, moved s s' (h - if got then 1 else 0) 0 0 ∧ handed h (sw_granted wait = true).
Proof.
  intros Hb. unfold intercept_slot. destruct (intercept_slots s) as [|free] eqn:Es.
  - pose proof (moved_close_idle s now) as Hm. destruct (close_longest_idle s now) as [s1 [|]]; cbn [negb fst] in *.
    + pose proof (moved_trans Hm (Hb s1)) as Hm'. cbn in Hm'.
      destruct (sw_granted wait); [exists 1|exists 0]; (split; [exact Hm'|]); [by right|by left].
    + exists 0. split; [exact Hm|by left].
  - exists 0. split; [|by left]. unfold moved. cbn [with_slots intercept_slots passthrough_slots blocked_slots]. lia.
Qed.
Lemma passthrough_slot_moved s : moved s (passthrough_slot s).1 0 (if (passthrough_slot s).2 then -1 else 0) 0.
Proof.
  unfold passthrough_slot. destruct (passthrough_slots s) eqn:E; unfold moved;
    cbn [fst snd with_slots intercept_slots passthrough_slots blocked_slots]; lia.
Qed.
Lemma Blocked_new_moved s name hello by_ wall attempt :
  let '(s', b) := Blocked_new s name hello by_ wall attempt in moved s s' 0 0 (match b with Some _ => 0 | None => 1 end).
Proof.
  unfold Blocked_new. pose proof (moved_leaf s name wall attempt) as Hm.
  destruct (state_leaf s name wall attempt) as [s1 [leaf|e]]; [done|].
  exact (moved_trans Hm (moved_release_blocked s1)).
Qed.

(** The permit a plan holds. *)
Definition holds_intercept (p : Plan) : Z := match p with PlanIntercept _ _ => 1 | _ => 0 end.
Definition holds_blocked (p : Plan) : Z := match p with PlanSink _ => 1 | _ => 0 end.

Lemma blocked_plan_moved s name hello by_ now wall waits attempt s' p : balanced_waits waits →
  blocked_plan s name hello by_ now wall waits attempt = Some (s', p) →
  ∃ h, moved s s' (0 - holds_intercept p) 0 (h - holds_blocked p) ∧ handed h (granted_in waits).
Proof.
  intros Hb. unfold blocked_plan. destruct (blocked_slot s name now wall waits) as [[s1 got]|] eqn:E; [|done].
  apply blocked_slot_moved in E as (h & Hm & Hh); [|done]. destruct got.
  - pose proof (Blocked_new_moved s1 name hello by_ wall attempt) as Hn.
    destruct (Blocked_new s1 name hello by_ wall attempt) as [s2 [b|]]; intros [= <- <-]; exists h; (split; [|done]);
      (eapply moved_eq; [exact (moved_trans Hm Hn)|..]); cbn; lia.
  - intros [= <- <-]. exists h. split; [|done]. eapply moved_eq; [exact Hm|..]; cbn; lia.
Qed.
Lemma plan_intercept_moved s hello name host port now wall wait attempt : balanced (sw_others wait) →
  let '(s', p) := plan_intercept s hello name host port now wall wait attempt in
  holds_blocked p = 0 ∧ ∃ h, moved s s' (h - holds_intercept p) 0 0 ∧ handed h (sw_granted wait = true).
Proof.
  intros Hb. unfold plan_intercept. destruct (negb (offers_http hello)).
  { split; [done|]. exists 0. split; [apply moved_refl|by left]. }
  destruct (low_memory s). { split; [done|]. exists 0. split; [apply moved_refl|by left]. }
  pose proof (intercept_slot_moved s now wait Hb) as Hs. destruct (intercept_slot s now wait) as [s1 [|]]; cbn [negb];
    destruct Hs as (h & Hm & Hh); [|by split; [|exists h]].
  pose proof (moved_leaf s1 name wall attempt) as Hl. destruct (state_leaf s1 name wall attempt) as [s2 [leaf|e]];
    (split; [done|]); exists h; (split; [|done]).
  - eapply moved_eq; [exact (moved_trans Hm Hl)|cbn; lia..].
  - eapply moved_eq; [exact (moved_trans Hm (moved_trans Hl (moved_release_intercept s2)))|cbn; lia..].
Qed.
Lemma plan_hello_moved s hello host port now wall waits wait attempt s' p : balanced_waits waits → balanced (sw_others wait) →
  plan_hello s hello host port now wall waits wait attempt = Some (s', p) →
  ∃ hi hb, moved s s' (hi - holds_intercept p) 0 (hb - holds_blocked p) ∧
    handed hi (sw_granted wait = true) ∧ handed hb (granted_in waits).
Proof.
  intros Hbs Hb. unfold plan_hello. set (name := default host (server_name hello)).
  assert (∀ s1, moved s s1 0 0 0 → Some (plan_intercept s1 hello name host port now wall wait attempt) = Some (s', p) →
    ∃ hi hb, moved s s' (hi - holds_intercept p) 0 (hb - holds_blocked p) ∧
      handed hi (sw_granted wait = true) ∧ handed hb (granted_in waits)) as Hgo.
  { intros s1 Hs1 [= Hp]. pose proof (plan_intercept_moved s1 hello name host port now wall wait attempt Hb) as Hm.
    rewrite Hp in Hm. destruct Hm as (Hz & h & Hm & Hh). exists h, 0. split; [|split; [done|by left]].
    eapply moved_eq; [exact (moved_trans Hs1 Hm)|lia..]. }
  destruct (negb (eq_ignore_ascii_case name host)); [|by apply Hgo, moved_refl].
  destruct (domain_blocked_by (ps_ctx s) name wall) as [ctx [by_|]].
  - intros Hp. apply blocked_plan_moved in Hp as (h & Hm & Hh); [|done]. exists 0, h. split; [exact Hm|]. by split; [left|].
  - destruct (classify _ name wall); [by apply Hgo, moved_slots|]. intros [= <- <-]. exists 0, 0.
    split; [by apply moved_slots|]. by split; left.
Qed.
Lemma plan_moved s first answers host port now wall waits wait attempt s' p : balanced_waits waits → balanced (sw_others wait) →
  (plan s first answers host port now wall waits wait attempt).1.1 = Some (s', p) →
  ∃ hi hb, moved s s' (hi - holds_intercept p) 0 (hb - holds_blocked p) ∧
    handed hi (sw_granted wait = true) ∧ handed hb (granted_in waits).
Proof.
  intros Hbs Hb. unfold plan. destruct (read_hello first answers) as [[[hello|[|]] buffer] rest]; cbn [fst].
  - by apply plan_hello_moved.
  - intros [= <- <-]. exists 0, 0. split; [apply moved_refl|]. by split; left.
  - intros [= <- <-]. exists 0, 0. split; [apply moved_refl|]. by split; left.
Qed.

(** Each way to serve a connection gives back the permit it was handed, or the one it took. *)
Lemma passthrough_moved s dialed dialing tunnelling : balanced dialing → balanced tunnelling →
  moved s (passthrough s dialed dialing tunnelling) 0 0 0.
Proof.
  intros Hd Ht. unfold passthrough. pose proof (passthrough_slot_moved s) as Hs.
  destruct (passthrough_slot s) as [s1 [|]]; cbn [negb fst snd] in *; [|done].
  pose proof (moved_trans Hs (Hd s1)) as Hm. destruct dialed as [u|e].
  - exact (moved_trans (moved_trans Hm (Ht (count connections_passthrough (dialing s1))))
      (moved_release_passthrough _)).
  - exact (moved_trans Hm (moved_release_passthrough _)).
Qed.
Lemma passthrough_at_once_moved s dialed upgraded dialing tunnelling : balanced dialing → balanced tunnelling →
  moved s (passthrough_at_once s dialed upgraded dialing tunnelling) 0 1 0.
Proof.
  intros Hd Ht. unfold passthrough_at_once. destruct dialed as [u|e]; [destruct upgraded|];
    [|exact (moved_trans (Hd s) (moved_release_passthrough _))..].
  exact (moved_trans (moved_trans (Hd s) (Ht (count connections_passthrough (dialing s))))
    (moved_release_passthrough _)).
Qed.
Lemma intercept_moved s origin handshake requests closed_idle now wall shaking serving : balanced shaking → balanced serving →
  moved s (intercept s origin handshake requests closed_idle now wall shaking serving) 1 0 0.
Proof.
  intros Hsh Hse. pose proof (Hsh (count connections_intercepted s)) as Hm. unfold intercept. destruct handshake as [|kind inner client|].
  - exact (moved_trans Hm (moved_release_intercept _)).
  - exact (moved_trans Hm (moved_release_intercept (with_ctx _ _))).
  - cbn [new_activity]. match goal with |- context [serving ?x] => pose proof (moved_trans Hm (Hse x)) as Hm' end.
    destruct ((requests =? 0)%nat && negb closed_idle);
      [exact (moved_trans Hm' (moved_release_intercept (end_activity (count _ _) _)))|
       exact (moved_trans Hm' (moved_release_intercept (end_activity _ _)))].
Qed.
Lemma sink_serve_moved s blocked handshake now shaking serving : balanced shaking → balanced serving →
  moved s (sink_serve s blocked handshake now shaking serving) 0 0 1.
Proof.
  intros Hsh Hse. unfold sink_serve. destruct handshake as [|kind inner client|];
    [exact (moved_trans (Hsh s) (moved_release_blocked _))..|].
  destruct (negb (bc_http blocked)).
  - exact (moved_trans (moved_trans (Hsh s) (Hse _)) (moved_release_blocked _)).
  - cbn [new_activity]. match goal with |- context [serving ?x] => pose proof (moved_trans (Hsh s) (Hse x)) as Hm end.
    exact (moved_trans Hm (moved_release_blocked (end_activity _ _))).
Qed.

(** What others do during a session is balanced. *)
Record env_balanced (env : SessionEnv) : Prop := {
  eb_connect_waits : balanced_waits (se_connect_waits env);
  eb_waits : balanced_waits (se_waits env);
  eb_wait : balanced (sw_others (se_wait env));
  eb_upgrading : balanced (se_upgrading env); eb_reading : balanced (se_reading env);
  eb_dialing : balanced (se_dialing env); eb_tunnelling : balanced (se_tunnelling env);
  eb_shaking : balanced (se_shaking env); eb_serving : balanced (se_serving env)
}.
Lemma inspect_moved env s host port s' : env_balanced env → inspect env s host port = Some s' →
  ∃ hi hb, moved s s' hi 0 hb ∧ handed hi (sw_granted (se_wait env) = true) ∧ handed hb (granted_in (se_waits env)).
Proof.
  intros He. unfold inspect.
  destruct (plan _ _ _ _ _ _ _ _ _ _).1.1 as [[s1 p]|] eqn:Hp; [|done].
  apply plan_moved in Hp as (hi & hb & Hm & Hi & Hb); [|apply He..].
  pose proof (moved_trans (eb_reading env He s) Hm) as Hm'.
  assert (∀ s2, moved s1 s2 (holds_intercept p) 0 (holds_blocked p) →
    ∃ hi hb, moved s s2 hi 0 hb ∧ handed hi (sw_granted (se_wait env) = true) ∧ handed hb (granted_in (se_waits env))) as Hend.
  { intros s2 Hs2. exists hi, hb. split; [|done]. eapply moved_eq; [exact (moved_trans Hm' Hs2)|lia..]. }
  destruct p as [|why|origin leaf|blocked]; intros [= <-]; apply Hend;
    [apply moved_refl|apply passthrough_moved|apply intercept_moved|apply sink_serve_moved]; apply He.
Qed.
(** The permit that the task holds when it starts. *)
Definition task_holds (task : option ConnectTask) : Z * Z :=
  match task with Some (PassthroughTask _ _ _) => (1, 0) | Some (SinkTask _ _ _) => (0, 1) | _ => (0, 0) end.
Lemma connect_moved s uri now wall waits s' response task : balanced_waits waits →
  connect s uri now wall waits = Some (s', response, task) →
  ∃ h, moved s s' 0 (- (task_holds task).1) (h - (task_holds task).2) ∧ handed h (granted_in waits).
Proof.
  intros Hb. unfold connect. destruct (uri_authority uri) as [[uri_host uri_port]|];
    [|intros [= <- <- <-]; exists 0; split; [apply moved_refl|by left]].
  destruct (domain_blocked_by _ _ _) as [ctx [by_|]].
  - destruct (blocked_slot _ _ _ _ _) as [[s1 got]|] eqn:Es; [|done].
    apply blocked_slot_moved in Es as (h & Hm & Hh); [|done].
    destruct got; intros [= <- <- <-]; exists h; (split; [exact Hm|done]).
  - destruct (classify _ _ _) as [|reason].
    + intros [= <- <- <-]. exists 0. split; [by apply moved_slots|by left].
    + pose proof (passthrough_slot_moved (with_ctx s ctx)) as Hp. destruct (passthrough_slot _) as [s1 [|]];
        intros [= <- <- <-]; exists 0; (split; [exact Hp|by left]).
Qed.
Lemma run_task_moved env s task s' : env_balanced env → run_task env s task = Some s' →
  ∃ hi hb, moved s s' hi (task_holds (Some task)).1 (hb + (task_holds (Some task)).2) ∧
    handed hi (sw_granted (se_wait env) = true) ∧ handed hb (granted_in (se_waits env)).
Proof.
  intros He. pose proof (eb_upgrading env He s) as Hu.
  destruct task as [host port by_|host port reason|host port]; cbn [run_task task_holds fst snd].
  - assert (∀ s2, moved s s2 0 0 1 → ∃ hi hb, moved s s2 hi 0 (hb + 1) ∧
      handed hi (sw_granted (se_wait env) = true) ∧ handed hb (granted_in (se_waits env))) as Hend.
    { intros s2 Hs2. exists 0, 0. split; [exact Hs2|]. by split; left. }
    destruct (negb (se_upgraded env)); [intros [= <-]; apply Hend; exact (moved_trans Hu (moved_release_blocked _))|].
    pose proof (moved_trans Hu (eb_reading env He (se_upgrading env s))) as Hr. unfold sink.
    destruct (read_hello _ _) as [[[hello|e] buffer] rest]; cbn [fst].
    + pose proof (Blocked_new_moved (se_reading env (se_upgrading env s)) (default host (server_name hello)) hello by_ (se_then_wall env) (se_attempt env)) as Hn.
      destruct (Blocked_new _ _ _ _ _ _) as [s1 [b|]]; intros [= <-]; apply Hend;
        pose proof (moved_trans Hr Hn) as Hm; [|exact Hm].
      refine (moved_trans Hm (sink_serve_moved s1 b _ _ _ _ _ _)); apply He.
    + intros [= <-]. apply Hend. exact (moved_trans Hr (moved_release_blocked _)).
  - intros [= <-]. exists 0, 0. split; [apply passthrough_at_once_moved; apply He|]. by split; left.
  - destruct (negb (se_upgraded env)).
    + intros [= <-]. exists 0, 0. split; [exact Hu|]. by split; left.
    + intros Hi. apply inspect_moved in Hi as (hi & hb & Hm & Hh); [|done]. exists hi, hb. split; [|done].
      eapply moved_eq; [exact (moved_trans Hu Hm)|lia..].
Qed.

(** C20: No slot is ever lost. Whatever a client does from its [CONNECT] to its end, refused,
    closed, blocked, tunnelled or intercepted, with failed handshakes, dials or certificates, and
    whatever balanced use the other tasks make of the slots meanwhile, the session leaves as many
    slots of each kind free as it found, and one more for a slot that another connection handed
    it while it waited. *)
Theorem sessions_return_their_slots (env : SessionEnv) (s s' : ProxyState) (uri : Uri) :
  env_balanced env → session env s uri = Some s' →
  ∃ hi hb hb', moved s s' hi 0 (hb + hb') ∧ handed hi (sw_granted (se_wait env) = true) ∧
    handed hb (granted_in (se_connect_waits env)) ∧ handed hb' (granted_in (se_waits env)).
Proof.
  intros He. unfold session. destruct (connect _ _ _ _ _) as [[[s1 response] [task|]]|] eqn:Hc; [| |done];
    apply connect_moved in Hc as (h & Hm & Hh); try apply He.
  - intros Hr. apply run_task_moved in Hr as (hi & hb & Hm2 & Hi & Hb); [|done].
    exists hi, h, hb. split; [eapply moved_eq; [exact (moved_trans Hm Hm2)|lia..]|done].
  - intros [= <-]. exists 0, h, 0. split; [eapply moved_eq; [exact Hm|cbn; lia..]|]. by split; [left|split; [|left]].
Qed.
End session.

(** ** A session that is intercepted *)
Section example.
#[local] Existing Instance example_http.
#[local] Existing Instance example_adblock.
#[local] Existing Instance example_issuing.
#[local] Existing Instance list_lru.
#[local] Existing Instance example_acceptor.

Definition example_env : SessionEnv := {|
  se_now := 0; se_wall := 5; se_then := 0; se_then_wall := 5; se_upgraded := true;
  se_first := Some (Ok [0x16]); se_answers := [Ok (drop 1 example_hello)];
  se_connect_waits := []; se_waits := []; se_wait := no_wait; se_attempt := 0;
  se_dialed := Ok (); se_handshake := HandshakeDone; se_requests := 0; se_closed_idle := false;
  se_upgrading := id; se_reading := id; se_dialing := id; se_tunnelling := id; se_shaking := id; se_serving := id |}.
Lemma example_balanced : env_balanced example_env.
Proof. split; try (by apply Forall_nil); intros s; apply moved_refl. Qed.
Lemma example_session : ∃ s', session example_env (example_state (example_context None [])) (example_uri "site.example") = Some s'.
Proof.
  unfold session. cbn [se_now se_wall se_connect_waits example_env].
  rewrite example_connect. destruct example_plan as (s & leaf & Hp).
  cbn [run_task se_upgraded se_upgrading example_env negb id]. unfold inspect.
  cbn [se_first se_answers se_then se_then_wall se_waits se_wait se_attempt se_reading example_env id]. rewrite Hp. eauto.
Qed.
Lemma sessions_return_their_slots_witness : ∃ s' hi hb hb',
  session example_env (example_state (example_context None [])) (example_uri "site.example") = Some s' ∧
  moved (example_state (example_context None [])) s' hi 0 (hb + hb').
Proof.
  destruct example_session as [s' Hs].
  destruct (sessions_return_their_slots _ _ _ _ example_balanced Hs) as (hi & hb & hb' & Hm & _).
  exists s', hi, hb, hb'. split; [exact Hs|exact Hm].
Defined.
End example.
