(* ===== verification/LocalJobs.v ===== *)
(** * Lookups on the local network ([tollgate-ffi/src/engine.rs])

    The registry of lookups handed to the platform's resolver: one per question, each with the
    queries waiting for it. [None] is a panic of the source ([expect], a question too short);
    the facts below show there is none. *)
From S2P Require Import Prelude RustStr Collections Net Wire Answer AnswerFacts DnsCache Packet Handler HandlerFacts.

Definition LOCAL_PENDING : nat := 64.
Definition LOCAL_JOBS_PER_LOOKUP : nat := 16.

(** The order a [HashMap] with [u64] keys is iterated in. *)
Class IdOrder := {
  id_iter {V : Type} : gmap Z V → list (Z * V);
  id_iter_perm {V : Type} (m : gmap Z V) : id_iter m ≡ₚ map_to_list m
}.
#[export] Instance sorted_ids : IdOrder := {
  id_iter V m := map_to_list m;
  id_iter_perm V m := Permutation_refl (map_to_list m)
}.

(** A question's name in lowercase, its type and its class. *)
Definition LocalQuestion : Type := bytes * Z * Z.
Record LocalLookup := {
  lk_question : LocalQuestion;
  lk_jobs : list ForwardJob;
  lk_since : Z
}.
Record LocalJobs := {
  next_id : Z;
  waiting : gmap Z LocalLookup;
  by_question : gmap LocalQuestion Z
}.
Definition LocalJobs_default : LocalJobs := {| next_id := 0; waiting := ∅; by_question := ∅ |}.

Definition LocalJobs_remove (self : LocalJobs) (id : Z) : LocalJobs * option LocalLookup :=
  match waiting self !! id with
  | None => (self, None)
  | Some lookup =>
      ({| next_id := next_id self; waiting := delete id (waiting self);
          by_question := delete (lk_question lookup) (by_question self) |}, Some lookup)
  end.

(** A call to the resolver: the lookup's id, the name as the client sent it, type and class. *)
Definition LocalCall : Type := Z * bytes * Z * Z.

Section local_jobs.
Context `{IdOrder}.

(** The lookups past their deadline at [at_], in some order, are removed; their queries fail. *)
Definition expired (self : LocalJobs) (deadline at_ : Z) : list Z :=
  (filter (λ e, deadline <= sat_sub at_ (lk_since e.2)) (id_iter (waiting self))).*1.
Definition expire_one (acc : LocalJobs * list ForwardJob) (id : Z) : LocalJobs * list ForwardJob :=
  match LocalJobs_remove acc.1 id with
  | (self, Some lookup) => (self, acc.2 ++ lk_jobs lookup)
  | (self, None) => (self, acc.2)
  end.
Definition expire (self : LocalJobs) (deadline at_ : Z) : LocalJobs * list ForwardJob :=
  foldl expire_one (self, []) (expired self deadline at_).

(** The body of the loop over the new queries, with the failed ones and the calls so far. *)
Definition take_job (resolver : bool) (at_ : Z) (self : LocalJobs) (failed : list ForwardJob) (calls : list LocalCall)
    (job : ForwardJob) : option (LocalJobs * list ForwardJob * list LocalCall) :=
  if negb resolver then Some (self, failed ++ [job], calls)
  else
    '(rtype, rclass) ← job_record_type_and_class job;
    let question := (to_ascii_lowercase (job_name job), rtype, rclass) in
    match by_question self !! question with
    | Some id =>
        lookup ← waiting self !! id;
        if (length (lk_jobs lookup) <? LOCAL_JOBS_PER_LOOKUP)%nat then
          let lookup := {| lk_question := lk_question lookup; lk_jobs := lk_jobs lookup ++ [job]; lk_since := lk_since lookup |} in
          Some ({| next_id := next_id self; waiting := <[id := lookup]> (waiting self); by_question := by_question self |},
                failed, calls)
        else Some (self, failed ++ [job], calls)
    | None =>
        if (LOCAL_PENDING <=? size (waiting self))%nat then Some (self, failed ++ [job], calls)
        else
          let id := next_id self in
          let lookup := {| lk_question := question; lk_jobs := [job]; lk_since := at_ |} in
          Some ({| next_id := id + 1; waiting := <[id := lookup]> (waiting self);
                   by_question := <[question := id]> (by_question self) |},
                failed, calls ++ [(id, job_name job, rtype, rclass)])
    end.
Fixpoint take_jobs (resolver : bool) (at_ : Z) (self : LocalJobs) (failed : list ForwardJob) (calls : list LocalCall)
    (jobs : list ForwardJob) : option (LocalJobs * list ForwardJob * list LocalCall) :=
  match jobs with
  | [] => Some (self, failed, calls)
  | job :: jobs' =>
      '(self, failed, calls) ← take_job resolver at_ self failed calls job;
      take_jobs resolver at_ self failed calls jobs'
  end.
(** What [resolve_locally] does under the lock. *)
Definition queue_locally (self : LocalJobs) (resolver : bool) (deadline at_ : Z) (jobs : list ForwardJob)
    : option (LocalJobs * list ForwardJob * list LocalCall) :=
  let '(self, failed) := expire self deadline at_ in
  take_jobs resolver at_ self failed [] jobs.

(** ** Facts *)

(** The index and the lookups agree, the limits hold, and ids are fresh. *)
Record jobs_inv (self : LocalJobs) : Prop := {
  ji_question id lookup : waiting self !! id = Some lookup → by_question self !! lk_question lookup = Some id;
  ji_waits q id : by_question self !! q = Some id → ∃ lookup, waiting self !! id = Some lookup ∧ lk_question lookup = q;
  ji_fresh id : is_Some (waiting self !! id) → id < next_id self;
  ji_pending : (size (waiting self) ≤ LOCAL_PENDING)%nat;
  ji_jobs id lookup : waiting self !! id = Some lookup →
    (0 < length (lk_jobs lookup) ≤ LOCAL_JOBS_PER_LOOKUP)%nat ∧
    Forall (λ job, ∃ t c, job_record_type_and_class job = Some (t, c) ∧
      lk_question lookup = (to_ascii_lowercase (job_name job), t, c)) (lk_jobs lookup)
}.
(** Every query waiting for some lookup. *)
Definition waiting_jobs (self : LocalJobs) : list ForwardJob := (map_to_list (waiting self)).*2 ≫= lk_jobs.

Lemma jobs_inv_default : jobs_inv LocalJobs_default.
Proof.
  split; cbn; [by intros ? ? ?%lookup_empty_Some..|by intros ? [? ?%lookup_empty_Some]| |by intros ? ? ?%lookup_empty_Some].
  rewrite map_size_empty. unfold LOCAL_PENDING. lia.
Qed.

Lemma waiting_jobs_insert self id lookup m : waiting self !! id = None → m = <[id := lookup]> (waiting self) →
  (map_to_list m).*2 ≫= lk_jobs ≡ₚ lk_jobs lookup ++ waiting_jobs self.
Proof. intros Hn ->. unfold waiting_jobs. rewrite map_to_list_insert by done. done. Qed.
Lemma waiting_jobs_delete self id lookup : waiting self !! id = Some lookup →
  waiting_jobs self ≡ₚ lk_jobs lookup ++ (map_to_list (delete id (waiting self))).*2 ≫= lk_jobs.
Proof.
  intros Hl. unfold waiting_jobs. rewrite <- (insert_delete_id (waiting self) id lookup Hl) at 1.
  rewrite map_to_list_insert by apply lookup_delete_eq. done.
Qed.

Lemma LocalJobs_remove_inv self id : jobs_inv self → jobs_inv (LocalJobs_remove self id).1.
Proof.
  intros [Hq Hw Hf Hp Hj]. unfold LocalJobs_remove. destruct (waiting self !! id) as [lookup|] eqn:Hl; [|by split].
  split; cbn [fst next_id waiting by_question].
  - intros id' lookup' [Hne Hl']%lookup_delete_Some. rewrite lookup_delete_ne; [by apply Hq|].
    intros Heq. apply Hq in Hl, Hl'. congruence.
  - intros q id' [Hne Hb]%lookup_delete_Some. destruct (Hw q id' Hb) as (lookup' & Hl' & Hlq). exists lookup'. split; [|done].
    rewrite lookup_delete_ne; [done|]. intros <-. congruence.
  - intros id' [lookup' [_ Hl']%lookup_delete_Some]. apply Hf. by eexists.
  - rewrite map_size_delete_Some by (by eexists). lia.
  - intros id' lookup' [_ Hl']%lookup_delete_Some. by apply (Hj id').
Qed.
Lemma LocalJobs_remove_jobs self id :
  waiting_jobs self ≡ₚ from_option lk_jobs [] (LocalJobs_remove self id).2 ++ waiting_jobs (LocalJobs_remove self id).1.
Proof.
  unfold LocalJobs_remove. destruct (waiting self !! id) as [lookup|] eqn:Hl; cbn [fst snd from_option]; [|done].
  by apply waiting_jobs_delete.
Qed.

(** Removing expired lookups moves their queries to the failed ones. *)
Lemma expire_fold_spec ids : ∀ acc, jobs_inv acc.1 →
  let acc' := foldl expire_one acc ids in
  jobs_inv acc'.1 ∧ acc.2 ++ waiting_jobs acc.1 ≡ₚ acc'.2 ++ waiting_jobs acc'.1 ∧
  (∀ id lookup, waiting acc'.1 !! id = Some lookup ↔ waiting acc.1 !! id = Some lookup ∧ id ∉ ids).
Proof.
  induction ids as [|id ids IH]; intros acc Hi; cbn [foldl].
  { split; [done|]. split; [done|]. intros id lookup. rewrite elem_of_nil. tauto. }
  pose proof (LocalJobs_remove_inv acc.1 id Hi) as Hi'. pose proof (LocalJobs_remove_jobs acc.1 id) as Hperm.
  assert (∀ id' lookup, waiting (LocalJobs_remove acc.1 id).1 !! id' = Some lookup ↔ waiting acc.1 !! id' = Some lookup ∧ id' ≠ id) as Hw.
  { intros id' lookup. unfold LocalJobs_remove. destruct (waiting acc.1 !! id) eqn:Hl; cbn.
    - rewrite lookup_delete_Some. naive_solver.
    - split; [intros Hl'; split; [done|]; intros ->; congruence|tauto]. }
  assert (jobs_inv (expire_one acc id).1 ∧ acc.2 ++ waiting_jobs acc.1 ≡ₚ (expire_one acc id).2 ++ waiting_jobs (expire_one acc id).1 ∧
    (expire_one acc id).1 = (LocalJobs_remove acc.1 id).1) as (Hi1 & Hp1 & Hs1).
  { unfold expire_one. destruct (LocalJobs_remove acc.1 id) as [self [lookup|]]; cbn [fst snd from_option] in *;
      (split; [done|]); (split; [|done]); rewrite Hperm; [by rewrite app_assoc|done]. }
  destruct (IH (expire_one acc id) Hi1) as (Hi2 & Hp2 & Hw2). split; [done|]. split; [by rewrite Hp1|].
  intros id' lookup. rewrite Hw2, Hs1, Hw, not_elem_of_cons. tauto.
Qed.
Lemma elem_of_expired self deadline at_ id : id ∈ expired self deadline at_ ↔
  ∃ lookup, waiting self !! id = Some lookup ∧ deadline <= sat_sub at_ (lk_since lookup).
Proof.
  unfold expired. rewrite list_elem_of_fmap. split.
  - intros ([id' lookup] & -> & [Hd Hin]%list_elem_of_filter). rewrite id_iter_perm, elem_of_map_to_list in Hin. eauto.
  - intros (lookup & Hl & Hd). exists (id, lookup). split; [done|]. apply list_elem_of_filter. split; [done|].
    by rewrite id_iter_perm, elem_of_map_to_list.
Qed.
Lemma expire_spec self deadline at_ : jobs_inv self →
  let '(self', failed) := expire self deadline at_ in
  jobs_inv self' ∧ waiting_jobs self ≡ₚ failed ++ waiting_jobs self' ∧
  (∀ id lookup, waiting self' !! id = Some lookup ↔ waiting self !! id = Some lookup ∧ sat_sub at_ (lk_since lookup) < deadline).
Proof.
  intros Hi. unfold expire. pose proof (expire_fold_spec (expired self deadline at_) (self, []) Hi) as Hs.
  destruct (foldl expire_one _ _) as [self' failed]. cbn [fst snd app] in Hs. destruct Hs as (Hi' & Hp & Hw).
  split; [done|]. split; [done|]. intros id lookup. rewrite Hw, elem_of_expired. split.
  - intros [Hl Hn]. split; [done|]. apply Z.nle_gt. intros Hd. apply Hn. eauto.
  - intros [Hl Hd]. split; [done|]. intros (lookup' & Hl' & Hd'). rewrite Hl in Hl'. injection Hl' as <-. lia.
Qed.

(** A query whose question can be read. *)
Definition readable (job : ForwardJob) : Prop := is_Some (job_record_type_and_class job).

(** Taking [jobs]: the invariant is kept, every query is waiting or failed exactly once more, and
    the resolver is called once for each new lookup, which is waiting under the call's id. *)
Definition call_ids (calls : list LocalCall) : list Z := (λ c : LocalCall, c.1.1.1) <$> calls.
Record taken (jobs : list ForwardJob) (self : LocalJobs) (failed : list ForwardJob) (calls : list LocalCall)
    (self' : LocalJobs) (failed' : list ForwardJob) (calls' : list LocalCall) : Prop := {
  tk_inv : jobs_inv self';
  tk_jobs : jobs ++ failed ++ waiting_jobs self ≡ₚ failed' ++ waiting_jobs self';
  tk_id : next_id self <= next_id self';
  tk_calls : ∃ new, calls' = calls ++ new ∧ call_ids new = seqZ (next_id self) (next_id self' - next_id self) ∧
    ∀ id, is_Some (waiting self' !! id) ↔ is_Some (waiting self !! id) ∨ id ∈ call_ids new
}.
Lemma taken_failed job self failed calls : jobs_inv self → taken [job] self failed calls self (failed ++ [job]) calls.
Proof.
  intros Hi. split; [done| |lia|].
  - rewrite <- app_assoc. cbn. by rewrite Permutation_middle.
  - exists []. rewrite app_nil_r, Z.sub_diag. split; [done|]. split; [done|]. intros id. cbn. rewrite elem_of_nil. tauto.
Qed.
(** A query joins a lookup. *)
Lemma taken_joins job self failed calls id lookup t c : jobs_inv self →
  job_record_type_and_class job = Some (t, c) → waiting self !! id = Some lookup →
  lk_question lookup = (to_ascii_lowercase (job_name job), t, c) → (length (lk_jobs lookup) < LOCAL_JOBS_PER_LOOKUP)%nat →
  taken [job] self failed calls
    {| next_id := next_id self;
       waiting := <[id := {| lk_question := lk_question lookup; lk_jobs := lk_jobs lookup ++ [job]; lk_since := lk_since lookup |}]> (waiting self);
       by_question := by_question self |} failed calls.
Proof.
  intros [Hq Hw Hf Hp Hj] Ht Hl Hlq Hlt. split; cbn [next_id waiting by_question]; [|..|lia|].
  - split; cbn [next_id waiting by_question].
    + intros id' lookup'. destruct (decide (id' = id)) as [->|]; [rewrite lookup_insert_eq; intros [= <-]; exact (Hq _ _ Hl)|].
      rewrite lookup_insert_ne by done. apply Hq.
    + intros q id' Hb. destruct (Hw q id' Hb) as (lookup' & Hl' & Hlq'). destruct (decide (id' = id)) as [->|].
      * rewrite lookup_insert_eq. eexists. split; [done|]. cbn. congruence.
      * rewrite lookup_insert_ne by done. eauto.
    + intros id' Hs. apply Hf. destruct (decide (id' = id)) as [->|]; [by eexists|]. by rewrite lookup_insert_ne in Hs by done.
    + rewrite map_size_insert_Some by (by eexists). done.
    + intros id' lookup'. destruct (decide (id' = id)) as [->|]; [|rewrite lookup_insert_ne by done; apply Hj].
      rewrite lookup_insert_eq. intros [= <-]. cbn. rewrite length_app. cbn. split; [lia|].
      apply Forall_app. split; [by apply (Hj id)|]. apply Forall_singleton. eauto.
  - unfold waiting_jobs at 2. cbn [waiting].
    rewrite <- insert_delete_eq, map_to_list_insert by apply lookup_delete_eq. rewrite fmap_cons, bind_cons. cbn [lk_jobs snd].
    rewrite (waiting_jobs_delete self id lookup Hl). solve_Permutation.
  - exists []. rewrite app_nil_r, Z.sub_diag. split; [done|]. split; [done|]. intros id'. cbn. rewrite elem_of_nil.
    destruct (decide (id' = id)) as [->|]; [rewrite lookup_insert_eq, Hl; naive_solver|]. rewrite lookup_insert_ne by done. tauto.
Qed.
(** A query starts a lookup. *)
Lemma taken_starts job self failed calls t c at_ : let question := (to_ascii_lowercase (job_name job), t, c) in jobs_inv self →
  job_record_type_and_class job = Some (t, c) → by_question self !! question = None → (size (waiting self) < LOCAL_PENDING)%nat →
  taken [job] self failed calls
    {| next_id := next_id self + 1;
       waiting := <[next_id self := {| lk_question := question; lk_jobs := [job]; lk_since := at_ |}]> (waiting self);
       by_question := <[question := next_id self]> (by_question self) |}
    failed (calls ++ [(next_id self, job_name job, t, c)]).
Proof.
  intros question [Hq Hw Hf Hp Hj] Ht Hb Hs.
  assert (waiting self !! next_id self = None) as Hn.
  { apply eq_None_not_Some. intros Hsome. apply Hf in Hsome. lia. }
  split; cbn [next_id waiting by_question]; [|..|lia|].
  - split; cbn [next_id waiting by_question].
    + intros id' lookup'. destruct (decide (id' = next_id self)) as [->|].
      * rewrite lookup_insert_eq. intros [= <-]. apply lookup_insert_eq.
      * rewrite lookup_insert_ne by done. intros Hl. rewrite lookup_insert_ne; [by apply Hq|]. intros Heq.
        apply Hq in Hl. rewrite <- Heq in Hl. enough (Some id' = None) by done. rewrite <- Hl. exact Hb.
    + intros q id'. destruct (decide (q = question)) as [->|].
      * rewrite lookup_insert_eq. intros [= <-]. rewrite lookup_insert_eq. by eexists.
      * rewrite lookup_insert_ne by done. intros Hbq. destruct (Hw q id' Hbq) as (lookup' & Hl' & Hlq').
        rewrite lookup_insert_ne by congruence. eauto.
    + intros id' Hsome. destruct (decide (id' = next_id self)) as [->|]; [lia|]. rewrite lookup_insert_ne in Hsome by done.
      apply Hf in Hsome. lia.
    + rewrite map_size_insert_None by done. lia.
    + intros id' lookup'. destruct (decide (id' = next_id self)) as [->|]; [|rewrite lookup_insert_ne by done; apply Hj].
      rewrite lookup_insert_eq. intros [= <-]. cbn. split; [unfold LOCAL_JOBS_PER_LOOKUP; lia|]. apply Forall_singleton. eauto.
  - unfold waiting_jobs at 2. cbn [waiting]. rewrite (waiting_jobs_insert self (next_id self) _ _ Hn eq_refl). cbn [lk_jobs]. solve_Permutation.
  - exists [(next_id self, job_name job, t, c)]. split; [done|]. rewrite Z.add_simpl_l. split; [done|].
    intros id'. cbn. rewrite list_elem_of_singleton.
    destruct (decide (id' = next_id self)) as [->|]; [rewrite lookup_insert_eq; naive_solver|]. rewrite lookup_insert_ne by done. naive_solver.
Qed.
Lemma take_job_spec resolver at_ self failed calls job : jobs_inv self → readable job →
  ∃ self' failed' calls', take_job resolver at_ self failed calls job = Some (self', failed', calls') ∧
    taken [job] self failed calls self' failed' calls'.
Proof.
  intros Hi [[t c] Ht]. unfold take_job.
  destruct resolver; cbn [negb]; [|eexists _, _, _; split; [done|by apply taken_failed]]. rewrite Ht. cbn [mbind option_bind].
  destruct (by_question self !! _) as [id|] eqn:Hb.
  - destruct (ji_waits _ Hi _ _ Hb) as (lookup & Hl & Hlq). rewrite Hl. cbn [mbind option_bind].
    destruct (Nat.ltb_spec (length (lk_jobs lookup)) LOCAL_JOBS_PER_LOOKUP); eexists _, _, _; (split; [done|]);
      [by eapply taken_joins|by apply taken_failed].
  - destruct (Nat.leb_spec LOCAL_PENDING (size (waiting self))); eexists _, _, _; (split; [done|]);
      [by apply taken_failed|by apply taken_starts].
Qed.
Lemma taken_app jobs1 jobs2 self failed calls self1 failed1 calls1 self2 failed2 calls2 :
  taken jobs1 self failed calls self1 failed1 calls1 → taken jobs2 self1 failed1 calls1 self2 failed2 calls2 →
  taken (jobs1 ++ jobs2) self failed calls self2 failed2 calls2.
Proof.
  intros [Hi1 Hp1 Hn1 (new1 & -> & Hs1 & Hw1)] [Hi2 Hp2 Hn2 (new2 & -> & Hs2 & Hw2)]. split; [done| |lia|].
  - rewrite <- Hp2, <- Hp1. solve_Permutation.
  - exists (new1 ++ new2). split; [by rewrite app_assoc|]. unfold call_ids in *. rewrite fmap_app, Hs1, Hs2. split.
    + replace (next_id self2 - next_id self) with ((next_id self1 - next_id self) + (next_id self2 - next_id self1)) by lia.
      rewrite seqZ_app by lia. f_equal. f_equal. lia.
    + intros id. rewrite Hw2, Hw1, Hs1, Hs2, elem_of_app. tauto.
Qed.
Lemma take_jobs_spec resolver at_ jobs : ∀ self failed calls, jobs_inv self → Forall readable jobs →
  ∃ self' failed' calls', take_jobs resolver at_ self failed calls jobs = Some (self', failed', calls') ∧
    taken jobs self failed calls self' failed' calls'.
Proof.
  induction jobs as [|job jobs IH]; intros self failed calls Hi Hr; cbn [take_jobs].
  - eexists _, _, _. split; [done|]. split; [done|done|lia|]. exists []. rewrite app_nil_r, Z.sub_diag. split; [done|].
    split; [done|]. intros id. cbn. rewrite elem_of_nil. tauto.
  - apply Forall_cons in Hr as [Hr Hrs]. destruct (take_job_spec resolver at_ self failed calls job Hi Hr) as (s1 & f1 & c1 & -> & Ht1).
    cbn [mbind option_bind]. destruct (IH s1 f1 c1 (tk_inv _ _ _ _ _ _ _ Ht1) Hrs) as (s2 & f2 & c2 & -> & Ht2).
    eexists _, _, _. split; [done|]. exact (taken_app [job] jobs _ _ _ _ _ _ _ _ _ Ht1 Ht2).
Qed.
(** A job made by the handler can be read. *)
Lemma job_wf_readable job : job_wf job → readable job.
Proof.
  intros Hw. unfold readable, job_record_type_and_class. pose proof (rw_question _ (jw_requester _ Hw)) as Hq.
  destruct (qtype_and_class_Some (job_requester job) ltac:(lia)) as (qt & qc & -> & _). by eexists.
Qed.
End local_jobs.
