(* ===== verification/FfiEngine.v ===== *)
(** * The tunnel's packets ([tollgate-ffi/src/engine.rs])

    [handle_packets] answers what it can, queues queries to forward for the runtime and hands
    local ones to the platform; the runtime's forwarder resolves the queued ones, at most so many
    at once; [complete_local] answers the local ones. Each call of the interface, and each move of
    a task of the runtime, is one step on the state. [None] is a panic of the source. The answers
    of the upstreams and the platform, and the clocks ([now], [wall] in seconds, [at_] the
    monotonic one), are arguments. *)
From S2P Require Import Prelude RustStr Collections Net HostPattern DomainSet Common Wire LocalName Answer AnswerFacts DnsCache Packet Handler HandlerFacts DnsExamples Doh LocalJobs.

(** The bounded channel to the runtime; it is closed once its receiver is dropped. *)
Record Channel := {
  ch_capacity : nat;
  ch_queue : list ForwardJob;
  ch_open : bool
}.
(** [try_send]: the channel with the job queued, or why not. *)
Definition try_send (self : Channel) (job : ForwardJob) : result Channel DohError :=
  if negb (ch_open self) then Err Stopped
  else if (length (ch_queue self) <? ch_capacity self)%nat then
    Ok {| ch_capacity := ch_capacity self; ch_queue := ch_queue self ++ [job]; ch_open := true |}
  else Err Busy.

Section engine.
Context `{IdOrder, Hickory, Lru, Etherparse}.

(** [EngineOptions] *)
Record EngineOptions := {
  forward_queue : nat;
  forward_in_flight : nat;
  local_deadline : Z
}.
(** The engine as its packets see it: the handler, the channel while running, the registry of
    local lookups, whether the platform gave a resolver; and of the forwarder the jobs being
    resolved and the permits left. *)
Record Engine := {
  en_options : EngineOptions;
  en_dns : DnsHandler;
  en_running : option Channel;
  en_tasks : list ForwardJob;
  en_permits : nat;
  en_resolver : bool;
  en_local : LocalJobs
}.
Definition with_dns (self : Engine) (dns : DnsHandler) : Engine :=
  {| en_options := en_options self; en_dns := dns; en_running := en_running self; en_tasks := en_tasks self;
     en_permits := en_permits self; en_resolver := en_resolver self; en_local := en_local self |}.
Definition with_running (self : Engine) (running : option Channel) (tasks : list ForwardJob) (permits : nat) : Engine :=
  {| en_options := en_options self; en_dns := en_dns self; en_running := running; en_tasks := tasks;
     en_permits := permits; en_resolver := en_resolver self; en_local := en_local self |}.
Definition with_local_jobs (self : Engine) (local : LocalJobs) : Engine :=
  {| en_options := en_options self; en_dns := en_dns self; en_running := en_running self; en_tasks := en_tasks self;
     en_permits := en_permits self; en_resolver := en_resolver self; en_local := local |}.

(** ** [handle_packets] *)

(** The body of the loop of [answer], with the replies and the local queries so far. *)
Definition answer_packet (self : Engine) (replies : list bytes) (local : list ForwardJob) (packet : bytes) (now wall : Z)
    : option (Engine * list bytes * list ForwardJob) :=
  let '(outcome, dns) := handle_packet (en_dns self) packet now wall in
  let self := with_dns self dns in
  match outcome with
  | None => None
  | Some (Reply reply) => Some (self, replies ++ [reply], local)
  | Some Drop => Some (self, replies, local)
  | Some (Local_ job) => Some (self, replies, local ++ [job])
  | Some (Forward job) =>
      match match en_running self with Some jobs => try_send jobs job | None => Err Stopped end with
      | Ok jobs => Some (with_running self (Some jobs) (en_tasks self) (en_permits self), replies, local)
      | Err error =>
          let '(reply, dns) := complete (en_dns self) job (Err error) now in
          reply ← reply; Some (with_dns self dns, replies ++ [reply], local)
      end
  end.
Fixpoint answer_loop (self : Engine) (replies : list bytes) (local : list ForwardJob) (packets : list bytes) (now wall : Z)
    : option (Engine * list bytes * list ForwardJob) :=
  match packets with
  | [] => Some (self, replies, local)
  | packet :: packets' =>
      '(self, replies, local) ← answer_packet self replies local packet now wall;
      answer_loop self replies local packets' now wall
  end.

(** Jobs completed one after the other with the platform's records, or with none. *)
Fixpoint complete_jobs (dns : DnsHandler) (jobs : list ForwardJob) (records : option (list LocalRecord)) (now : Z)
    : option (DnsHandler * list bytes) :=
  match jobs with
  | [] => Some (dns, [])
  | job :: jobs' =>
      let '(reply, dns) := complete_local dns job records now in
      reply ← reply;
      '(dns, replies) ← complete_jobs dns jobs' records now;
      Some (dns, reply :: replies)
  end.
(** [resolve_locally]; the calls are made after the lock is released. *)
Definition resolve_locally (self : Engine) (jobs : list ForwardJob) (now at_ : Z)
    : option (Engine * list bytes * list LocalCall) :=
  '(local, failed, calls) ← queue_locally (en_local self) (en_resolver self) (local_deadline (en_options self)) at_ jobs;
  '(dns, replies) ← complete_jobs (en_dns self) failed None now;
  Some (with_dns (with_local_jobs self local) dns, replies, calls).
(** [answer] *)
Definition answer (self : Engine) (packets : list bytes) (now wall at_ : Z)
    : option (Engine * list bytes * list LocalCall) :=
  '(self, replies, local) ← answer_loop self [] [] packets now wall;
  match local with
  | [] => Some (self, replies, [])
  | _ => '(self, more, calls) ← resolve_locally self local now at_; Some (self, replies ++ more, calls)
  end.

(** ** The other calls *)

(** [Engine::complete_local] *)
Definition Engine_complete_local (self : Engine) (id : Z) (records : option (list LocalRecord)) (now : Z)
    : option (Engine * list bytes) :=
  match LocalJobs_remove (en_local self) id with
  | (_, None) => Some (self, [])
  | (local, Some lookup) =>
      '(dns, replies) ← complete_jobs (en_dns self) (lk_jobs lookup) records now;
      Some (with_dns (with_local_jobs self local) dns, replies)
  end.
Definition set_local_resolver (self : Engine) (resolver : bool) : Engine :=
  {| en_options := en_options self; en_dns := en_dns self; en_running := en_running self; en_tasks := en_tasks self;
     en_permits := en_permits self; en_resolver := resolver; en_local := en_local self |}.

(** [start_runtime]; [listening] is whether the runtime thread reported a port. *)
Inductive StartError := AlreadyRunning | StartFailed.
Definition start_runtime (self : Engine) (listening : bool) : Engine * result unit StartError :=
  match en_running self with
  | Some _ => (self, Err AlreadyRunning)
  | None =>
      if listening then
        (with_running self (Some {| ch_capacity := Nat.max (forward_queue (en_options self)) 1; ch_queue := []; ch_open := true |})
           [] (Nat.max (forward_in_flight (en_options self)) 1), Ok ())
      else (self, Err StartFailed)
  end.
(** [stop_runtime]: the runtime ends, and with it the queue and its tasks. *)
Definition stop_runtime (self : Engine) : Engine := with_running self None [] 0.

(** ** The forwarder *)

(** One turn of [forward]: a permit is taken before a job is. *)
Definition forward_take (self : Engine) : option Engine :=
  match en_running self, en_permits self with
  | Some {| ch_capacity := capacity; ch_queue := job :: queue; ch_open := true |}, S permits =>
      Some (with_running self (Some {| ch_capacity := capacity; ch_queue := queue; ch_open := true |})
              (en_tasks self ++ [job]) permits)
  | _, _ => None
  end.
(** A job's task ends with the upstreams' answer; its packet goes to the sink. *)
Definition forward_done (self : Engine) (k : nat) (answer : result bytes DohError) (now : Z) : option (option (Engine * bytes)) :=
  match en_tasks self !! k with
  | None => None
  | Some job =>
      Some (let '(packet, dns) := complete (en_dns self) job answer now in
            packet ← packet;
            Some (with_dns (with_running self (en_running self) (delete k (en_tasks self)) (S (en_permits self))) dns, packet))
  end.
(** The runtime thread panics: its receiver and tasks are dropped. *)
Definition runtime_dies (self : Engine) : Engine :=
  with_running self
    ((λ chan, {| ch_capacity := ch_capacity chan; ch_queue := []; ch_open := false |}) <$> en_running self) [] 0.

(** ** Facts *)

Definition queued (self : Engine) : list ForwardJob :=
  match en_running self with Some jobs => ch_queue jobs | None => [] end.
(** The queries not answered yet. *)
Definition pending (self : Engine) : list ForwardJob := queued self ++ en_tasks self ++ waiting_jobs (en_local self).

(** What every call keeps: the handler's invariant and the registry's, that pending jobs are the
    handler's, and the bounds on the queue and on the jobs being resolved. *)
Record engine_inv (self : Engine) : Prop := {
  ei_dns : handler_inv (en_dns self);
  ei_local : jobs_inv (en_local self);
  ei_pending : Forall job_wf (pending self);
  ei_queue jobs : en_running self = Some jobs → (length (ch_queue jobs) ≤ ch_capacity jobs)%nat ∧
    ch_capacity jobs = Nat.max (forward_queue (en_options self)) 1;
  ei_tasks : (length (en_tasks self) + en_permits self ≤ Nat.max (forward_in_flight (en_options self)) 1)%nat
}.

(** A packet that is a query to the tunnel's resolver; any other is dropped. *)
Definition is_query (packet : bytes) : bool :=
  match parse_udp packet with
  | None => false
  | Some datagram =>
      is_tunnel_dns (udp_destination datagram) && (DNS_HEADER_LEN <=? length (udp_payload_bytes datagram))%nat
      && bool_decide (is_response (udp_payload_bytes datagram) = Some false)
  end.
Lemma reply_with_not_drop server client payload : reply_with server client payload ≠ Some Drop.
Proof. unfold reply_with. destruct payload as [p|]; [|done]. cbn. by destruct (reply_packet server client p). Qed.
Lemma handle_name_not_drop dns query client server requester qe name now wall :
  (handle_name dns query client server requester qe name now wall).1 ≠ Some Drop.
Proof. unfold handle_name. repeat case_match; cbn [fst]; try apply reply_with_not_drop; done. Qed.
Lemma handle_query_not_drop dns query client server now wall : (handle_query dns query client server now wall).1 ≠ Some Drop.
Proof.
  unfold handle_query. destruct (from_vec query) as [m|]; [|apply reply_with_not_drop].
  destruct (negb (msg_is_query m)); [apply reply_with_not_drop|]. destruct (question_end query); [|apply reply_with_not_drop].
  destruct (Requester_from_query _ _ _); [|done]. destruct (msg_queries m); [done|].
  destruct (_ || _); [apply reply_with_not_drop|apply handle_name_not_drop].
Qed.
Lemma handle_packet_drops dns packet now wall :
  (handle_packet dns packet now wall).1 = Some Drop ↔ is_query packet = false.
Proof.
  unfold handle_packet, is_query. destruct (parse_udp packet) as [d|]; [|done].
  replace (length (udp_payload_bytes d) <? DNS_HEADER_LEN)%nat with (negb (DNS_HEADER_LEN <=? length (udp_payload_bytes d))%nat)
    by (rewrite Nat.leb_antisym; by rewrite negb_involutive).
  destruct (is_tunnel_dns (udp_destination d)); [|done]. destruct (Nat.leb_spec DNS_HEADER_LEN (length (udp_payload_bytes d))); [|done].
  destruct (is_response_header (udp_payload_bytes d)) as [[] Hr]; [done|rewrite Hr..]; [done|].
  cbn [negb orb andb]. split; [|done]. intros Hd. exfalso.
  by apply handle_query_not_drop in Hd.
Qed.

Lemma pending_with_dns self dns : pending (with_dns self dns) = pending self.
Proof. done. Qed.
Lemma with_dns_inv self dns : engine_inv self → handler_inv dns → engine_inv (with_dns self dns).
Proof. intros [? ? ? ? ?] ?. by split. Qed.
Lemma try_send_spec jobs job : (length (ch_queue jobs) ≤ ch_capacity jobs)%nat →
  match try_send jobs job with
  | Ok jobs' => ch_queue jobs' = ch_queue jobs ++ [job] ∧ ch_capacity jobs' = ch_capacity jobs ∧
      (length (ch_queue jobs') ≤ ch_capacity jobs')%nat
  | Err _ => True
  end.
Proof.
  intros Hl. unfold try_send. destruct (ch_open jobs); [|done]. cbn [negb].
  destruct (Nat.ltb_spec (length (ch_queue jobs)) (ch_capacity jobs)); [|done]. cbn. split_and!; [done|done|].
  rewrite length_app. cbn. lia.
Qed.

Definition queries (packets : list bytes) : nat := length (filter (λ p, is_query p = true) packets).

Lemma answer_packet_spec self replies local packet now wall : engine_inv self → Forall job_wf local → Forall is_u8 packet →
  ∃ self' replies' local', answer_packet self replies local packet now wall = Some (self', replies', local') ∧
    engine_inv self' ∧ Forall job_wf local' ∧
    (length replies' + length local' + length (pending self') =
     length replies + length local + length (pending self) + queries [packet])%nat.
Proof.
  intros Hi Hl Hu. destruct (handle_packet_ok (en_dns self) packet now wall (ei_dns _ Hi) Hu) as (o & Ho & Hwf & Hd).
  pose proof (handle_packet_drops (en_dns self) packet now wall) as Hdrop. unfold answer_packet.
  destruct (handle_packet (en_dns self) packet now wall) as [outcome dns]. cbn [fst snd] in *. subst outcome.
  pose proof (with_dns_inv self dns Hi Hd) as Hi'.
  assert (queries [packet] = match o with Drop => 0 | _ => 1 end)%nat as Hq.
  { unfold queries. rewrite filter_cons. destruct (is_query packet) eqn:Eq.
    - destruct o; try done. by destruct Hdrop as [Hdrop _]; specialize (Hdrop eq_refl).
    - destruct Hdrop as [_ Hdrop]. specialize (Hdrop eq_refl). injection Hdrop as ->. done. }
  destruct o as [reply|job|job|]; cbn in Hwf.
  - eexists _, _, _. split; [done|]. split; [done|]. split; [done|]. rewrite length_app, Hq. rewrite !pending_with_dns. cbn [length]. lia.
  - destruct (match en_running (with_dns self dns) with Some jobs => _ | None => _ end) as [jobs|error] eqn:Es.
    + cbn [en_running with_dns] in Es. destruct (en_running self) as [jobs0|] eqn:Er; [|done].
      destruct (ei_queue _ Hi jobs0 Er) as [Hle Hcap]. pose proof (try_send_spec jobs0 job Hle) as Ht. rewrite Es in Ht.
      destruct Ht as (Hque & Hc & Hle'). eexists _, _, _. split; [done|].
      assert (pending (with_running (with_dns self dns) (Some jobs) (en_tasks self) (en_permits self)) ≡ₚ job :: pending self) as Hp.
      { unfold pending, queued. cbn. rewrite Er, Hque. solve_Permutation. }
      split; [|split; [done|]].
      * split; cbn; [done|apply Hi|rewrite Hp; apply Forall_cons; split; [done|apply Hi]| |apply Hi].
        intros jobs' [= <-]. split; [done|congruence].
      * rewrite Hp, Hq. cbn. lia.
    + cbn [en_dns with_dns].
      destruct (complete_ok dns job (Err error : result bytes DohError) now Hd Hwf ltac:(done)) as [[p Hp] Hd'].
      destruct (complete dns job (Err error) now) as [reply dns']. cbn [fst snd] in *. subst reply. cbn [mbind option_bind].
      eexists _, _, _. split; [done|]. split; [by apply with_dns_inv|]. split; [done|]. rewrite length_app, Hq. rewrite !pending_with_dns. cbn [length]. lia.
  - eexists _, _, _. split; [done|]. split; [done|]. split; [apply Forall_app; split; [done|by apply Forall_singleton]|].
    rewrite length_app, Hq. rewrite !pending_with_dns. cbn [length]. lia.
  - eexists _, _, _. split; [done|]. split; [done|]. split; [done|]. rewrite Hq, pending_with_dns. lia.
Qed.
Lemma queries_cons packet packets : queries (packet :: packets) = (queries [packet] + queries packets)%nat.
Proof. unfold queries. rewrite !filter_cons. destruct (decide (is_query packet = true)); done. Qed.
Lemma answer_loop_spec packets now wall : ∀ self replies local, engine_inv self → Forall job_wf local → Forall (Forall is_u8) packets →
  ∃ self' replies' local', answer_loop self replies local packets now wall = Some (self', replies', local') ∧
    engine_inv self' ∧ Forall job_wf local' ∧
    (length replies' + length local' + length (pending self') =
     length replies + length local + length (pending self) + queries packets)%nat.
Proof.
  induction packets as [|packet packets IH]; intros self replies local Hi Hl Hu; cbn [answer_loop].
  { eexists _, _, _. split; [done|]. split; [done|]. split; [done|]. cbn. lia. }
  apply Forall_cons in Hu as [Hu Hus].
  destruct (answer_packet_spec self replies local packet now wall Hi Hl Hu) as (s1 & r1 & l1 & -> & Hi1 & Hl1 & Hn1).
  cbn [mbind option_bind]. destruct (IH s1 r1 l1 Hi1 Hl1 Hus) as (s2 & r2 & l2 & -> & Hi2 & Hl2 & Hn2).
  eexists _, _, _. split; [done|]. split; [done|]. split; [done|]. rewrite queries_cons. lia.
Qed.
Lemma complete_jobs_spec jobs records now : ∀ dns, handler_inv dns → Forall job_wf jobs →
  (∀ l, records = Some l → Forall (λ r, Forall is_u8 (lr_data r)) l) →
  ∃ dns' replies, complete_jobs dns jobs records now = Some (dns', replies) ∧ handler_inv dns' ∧ length replies = length jobs.
Proof.
  induction jobs as [|job jobs IH]; intros dns Hd Hj Hr; cbn [complete_jobs]; [by eexists _, _|].
  apply Forall_cons in Hj as [Hj Hjs]. destruct (complete_local_ok dns job records now Hd Hj Hr) as [[p Hp] Hd'].
  destruct (complete_local dns job records now) as [reply dns1]. cbn [fst snd] in *. subst reply. cbn [mbind option_bind].
  destruct (IH dns1 Hd' Hjs Hr) as (dns2 & replies & -> & Hd2 & Hn). cbn [mbind option_bind].
  eexists _, _. split; [done|]. split; [done|]. cbn. lia.
Qed.
Lemma Forall_waiting self : engine_inv self → Forall job_wf (waiting_jobs (en_local self)).
Proof. intros Hi. pose proof (ei_pending _ Hi) as Hp. unfold pending in Hp. rewrite !Forall_app in Hp. tauto. Qed.
(** Another registry and handler, with the queue and the tasks as they were. *)
Lemma with_local_inv self local dns : engine_inv self → jobs_inv local → Forall job_wf (waiting_jobs local) → handler_inv dns →
  engine_inv (with_dns (with_local_jobs self local) dns).
Proof.
  intros Hi Hj Hw Hd. split; cbn; [done|done| |apply Hi|apply Hi]. pose proof (ei_pending _ Hi) as Hp.
  unfold pending in *. rewrite !Forall_app in *. tauto.
Qed.
Lemma queue_locally_spec local resolver deadline at_ jobs : jobs_inv local → Forall readable jobs →
  ∃ local' failed calls, queue_locally local resolver deadline at_ jobs = Some (local', failed, calls) ∧ jobs_inv local' ∧
    jobs ++ waiting_jobs local ≡ₚ failed ++ waiting_jobs local'.
Proof.
  intros Hi Hr. unfold queue_locally. pose proof (expire_spec local deadline at_ Hi) as He.
  destruct (expire local deadline at_) as [local1 failed1]. destruct He as (Hi1 & Hp1 & _).
  destruct (take_jobs_spec resolver at_ jobs local1 failed1 [] Hi1 Hr) as (local2 & failed2 & calls & -> & [Hi2 Hp2 _ _]).
  eexists _, _, _. split; [done|]. split; [done|]. by rewrite Hp1.
Qed.
Lemma resolve_locally_spec self jobs now at_ : engine_inv self → Forall job_wf jobs →
  ∃ self' replies calls, resolve_locally self jobs now at_ = Some (self', replies, calls) ∧ engine_inv self' ∧
    (length replies + length (pending self') = length jobs + length (pending self))%nat.
Proof.
  intros Hi Hj. unfold resolve_locally.
  destruct (queue_locally_spec (en_local self) (en_resolver self) (local_deadline (en_options self)) at_ jobs (ei_local _ Hi))
    as (local & failed & calls & -> & Hi1 & Hp); [by eapply Forall_impl; [|apply job_wf_readable]|].
  cbn [mbind option_bind].
  assert (Forall job_wf (failed ++ waiting_jobs local)) as Hwf.
  { rewrite <- Hp. apply Forall_app. split; [done|by apply Forall_waiting]. }
  apply Forall_app in Hwf as [Hf Hw].
  destruct (complete_jobs_spec failed None now (en_dns self) (ei_dns _ Hi) Hf ltac:(done)) as (dns & replies & -> & Hd & Hn).
  cbn [mbind option_bind]. eexists _, _, _. split; [done|]. split; [by apply with_local_inv|].
  apply Permutation_length in Hp. rewrite !length_app in Hp. unfold pending, queued. cbn. rewrite !length_app. lia.
Qed.
Lemma answer_spec self packets now wall at_ : engine_inv self → Forall (Forall is_u8) packets →
  ∃ self' replies calls, answer self packets now wall at_ = Some (self', replies, calls) ∧ engine_inv self' ∧
    (length replies + length (pending self') = queries packets + length (pending self))%nat.
Proof.
  intros Hi Hu. unfold answer.
  destruct (answer_loop_spec packets now wall self [] [] Hi (Forall_nil_2 _) Hu) as (s1 & r1 & l1 & -> & Hi1 & Hl1 & Hn1).
  cbn [mbind option_bind length] in *. destruct l1 as [|job l1].
  - eexists _, _, _. split; [done|]. split; [done|]. cbn in Hn1. lia.
  - destruct (resolve_locally_spec s1 (job :: l1) now at_ Hi1 Hl1) as (s2 & r2 & calls & -> & Hi2 & Hn2).
    cbn [mbind option_bind]. eexists _, _, _. split; [done|]. split; [done|]. rewrite length_app. lia.
Qed.
Lemma Engine_complete_local_spec self id records now : engine_inv self →
  (∀ l, records = Some l → Forall (λ r, Forall is_u8 (lr_data r)) l) →
  ∃ self' replies, Engine_complete_local self id records now = Some (self', replies) ∧ engine_inv self' ∧
    (length replies + length (pending self') = length (pending self))%nat ∧ waiting (en_local self') !! id = None.
Proof.
  intros Hi Hr. unfold Engine_complete_local.
  pose proof (LocalJobs_remove_inv (en_local self) id (ei_local _ Hi)) as Hi1.
  pose proof (LocalJobs_remove_jobs (en_local self) id) as Hp. pose proof (Forall_waiting _ Hi) as Hw. rewrite Hp in Hw.
  assert (waiting (LocalJobs_remove (en_local self) id).1 !! id = None) as Hgone.
  { unfold LocalJobs_remove. destruct (waiting (en_local self) !! id) eqn:El; cbn; [apply lookup_delete_eq|done]. }
  assert ((LocalJobs_remove (en_local self) id).2 = None → (LocalJobs_remove (en_local self) id).1 = en_local self) as Hsame.
  { unfold LocalJobs_remove. by destruct (waiting (en_local self) !! id). }
  destruct (LocalJobs_remove (en_local self) id) as [local [lookup|]]; cbn [fst snd from_option] in *.
  - apply Forall_app in Hw as [Hf Hw].
    destruct (complete_jobs_spec (lk_jobs lookup) records now (en_dns self) (ei_dns _ Hi) Hf Hr) as (dns & replies & -> & Hd & Hn).
    cbn [mbind option_bind]. eexists _, _. split; [done|]. split; [by apply with_local_inv|]. split; [|done].
    apply Permutation_length in Hp. rewrite length_app in Hp. unfold pending, queued. cbn. rewrite !length_app. lia.
  - eexists _, _. split; [done|]. split; [done|]. split; [done|]. by rewrite <- Hsame.
Qed.
Lemma forward_take_spec self self' : engine_inv self → forward_take self = Some self' →
  engine_inv self' ∧ pending self' ≡ₚ pending self.
Proof.
  intros Hi. unfold forward_take. destruct (en_running self) as [[capacity [|job queue] [|]]|] eqn:Er; try done.
  destruct (en_permits self) as [|permits] eqn:Ep; [done|]. intros [= <-].
  assert (pending (with_running self (Some {| ch_capacity := capacity; ch_queue := queue; ch_open := true |}) (en_tasks self ++ [job]) permits)
    ≡ₚ pending self) as Hp.
  { unfold pending, queued. cbn. rewrite Er. cbn. solve_Permutation. }
  split; [|done]. destruct (ei_queue _ Hi _ Er) as [Hq Hc]. cbn in Hq, Hc. pose proof (ei_tasks _ Hi) as Ht.
  split; cbn; [apply Hi|apply Hi|rewrite Hp; apply Hi| |].
  - intros jobs [= <-]. cbn. split; [lia|done].
  - rewrite length_app. cbn. lia.
Qed.
Lemma forward_done_spec self k answer now r : engine_inv self → (∀ wire, answer = Ok wire → Forall is_u8 wire) →
  forward_done self k answer now = Some r →
  ∃ self' packet, r = Some (self', packet) ∧ engine_inv self' ∧ S (length (pending self')) = length (pending self).
Proof.
  intros Hi Hu. unfold forward_done. destruct (en_tasks self !! k) as [job|] eqn:Hk; [|done]. intros [= <-].
  pose proof (ei_pending _ Hi) as Hp. unfold pending in Hp. rewrite !Forall_app in Hp. destruct Hp as (Hpq & Hpt & Hpw).
  destruct (complete_ok (en_dns self) job answer now (ei_dns _ Hi)) as [[p Hc] Hd];
    [exact (Forall_lookup_1 _ _ _ _ Hpt Hk)|done|].
  destruct (complete (en_dns self) job answer now) as [packet dns]. cbn [fst snd] in *. subst packet. cbn [mbind option_bind].
  eexists _, _. split; [done|].
  pose proof (delete_Permutation _ _ _ Hk) as Hdp. pose proof (Permutation_length Hdp) as Hlen. cbn in Hlen.
  pose proof (ei_tasks _ Hi) as Ht. rewrite Hdp in Hpt. apply Forall_cons in Hpt as [_ Hpt]. split.
  - apply with_dns_inv; [|done]. split; cbn; [apply Hi|apply Hi| |apply Hi|lia].
    unfold pending, queued in *. cbn. rewrite !Forall_app. done.
  - unfold pending, queued. cbn. rewrite !length_app. lia.
Qed.

(** ** The engine in use *)

(** The engine with the number of queries it was given, of replies it gave (returned or to the
    sink), and of queries dropped with the runtime. *)
Record System := { sy_engine : Engine; sy_asked : nat; sy_answered : nat; sy_dropped : nat }.

Inductive ffi_step : System → System → Prop :=
| ffi_packets e asked answered dropped packets now wall at_ e' replies calls : Forall (Forall is_u8) packets →
    answer e packets now wall at_ = Some (e', replies, calls) →
    ffi_step {| sy_engine := e; sy_asked := asked; sy_answered := answered; sy_dropped := dropped |}
      {| sy_engine := e'; sy_asked := asked + queries packets; sy_answered := answered + length replies; sy_dropped := dropped |}
| ffi_complete_local e asked answered dropped id records now e' replies :
    (∀ l, records = Some l → Forall (λ r, Forall is_u8 (lr_data r)) l) →
    Engine_complete_local e id records now = Some (e', replies) →
    ffi_step {| sy_engine := e; sy_asked := asked; sy_answered := answered; sy_dropped := dropped |}
      {| sy_engine := e'; sy_asked := asked; sy_answered := answered + length replies; sy_dropped := dropped |}
| ffi_take e asked answered dropped e' : forward_take e = Some e' →
    ffi_step {| sy_engine := e; sy_asked := asked; sy_answered := answered; sy_dropped := dropped |}
      {| sy_engine := e'; sy_asked := asked; sy_answered := answered; sy_dropped := dropped |}
| ffi_done e asked answered dropped k upstream now e' packet : (∀ wire, upstream = Ok wire → Forall is_u8 wire) →
    forward_done e k upstream now = Some (Some (e', packet)) →
    ffi_step {| sy_engine := e; sy_asked := asked; sy_answered := answered; sy_dropped := dropped |}
      {| sy_engine := e'; sy_asked := asked; sy_answered := S answered; sy_dropped := dropped |}
| ffi_start e asked answered dropped listening :
    ffi_step {| sy_engine := e; sy_asked := asked; sy_answered := answered; sy_dropped := dropped |}
      {| sy_engine := (start_runtime e listening).1; sy_asked := asked; sy_answered := answered; sy_dropped := dropped |}
| ffi_stop e asked answered dropped :
    ffi_step {| sy_engine := e; sy_asked := asked; sy_answered := answered; sy_dropped := dropped |}
      {| sy_engine := stop_runtime e; sy_asked := asked; sy_answered := answered;
         sy_dropped := dropped + length (queued e) + length (en_tasks e) |}
| ffi_dies e asked answered dropped :
    ffi_step {| sy_engine := e; sy_asked := asked; sy_answered := answered; sy_dropped := dropped |}
      {| sy_engine := runtime_dies e; sy_asked := asked; sy_answered := answered;
         sy_dropped := dropped + length (queued e) + length (en_tasks e) |}
| ffi_resolver e asked answered dropped resolver :
    ffi_step {| sy_engine := e; sy_asked := asked; sy_answered := answered; sy_dropped := dropped |}
      {| sy_engine := set_local_resolver e resolver; sy_asked := asked; sy_answered := answered; sy_dropped := dropped |}
| ffi_network e asked answered dropped network :
    ffi_step {| sy_engine := e; sy_asked := asked; sy_answered := answered; sy_dropped := dropped |}
      {| sy_engine := with_dns e (set_network (en_dns e) network); sy_asked := asked; sy_answered := answered; sy_dropped := dropped |}
| ffi_reload e asked answered dropped domains :
    ffi_step {| sy_engine := e; sy_asked := asked; sy_answered := answered; sy_dropped := dropped |}
      {| sy_engine := with_dns e (set_blocklist (en_dns e) domains); sy_asked := asked; sy_answered := answered; sy_dropped := dropped |}.

Definition Engine_new (options : EngineOptions) (dns : DnsHandler) : Engine :=
  {| en_options := options; en_dns := dns; en_running := None; en_tasks := []; en_permits := 0; en_resolver := false;
     en_local := LocalJobs_default |}.
Definition ffi_reach (options : EngineOptions) (dns : DnsHandler) : System → Prop :=
  rtc ffi_step {| sy_engine := Engine_new options dns; sy_asked := 0; sy_answered := 0; sy_dropped := 0 |}.

Definition ffi_inv (s : System) : Prop :=
  engine_inv (sy_engine s) ∧ (en_running (sy_engine s) = None → en_tasks (sy_engine s) = []) ∧
  (sy_asked s = sy_answered s + length (pending (sy_engine s)) + sy_dropped s)%nat.

Lemma Engine_new_inv options dns : handler_inv dns → engine_inv (Engine_new options dns).
Proof. intros Hd. split; cbn; [done|apply jobs_inv_default|apply Forall_nil_2|done|lia]. Qed.
(** The runtime's part replaced, by one that holds no jobs. *)
Lemma with_running_inv self running permits : engine_inv self →
  (∀ jobs, running = Some jobs → ch_queue jobs = [] ∧ ch_capacity jobs = Nat.max (forward_queue (en_options self)) 1) →
  (permits ≤ Nat.max (forward_in_flight (en_options self)) 1)%nat →
  engine_inv (with_running self running [] permits) ∧
  (length (pending self) = length (pending (with_running self running [] permits)) + length (queued self) + length (en_tasks self))%nat.
Proof.
  intros Hi Hr Hp. assert (queued (with_running self running [] permits) = []) as Hq.
  { unfold queued. cbn. destruct running as [jobs|]; [|done]. by destruct (Hr jobs eq_refl). }
  split.
  - split; cbn; [apply Hi|apply Hi|unfold pending; rewrite Hq; cbn; by apply Forall_waiting| |lia].
    intros jobs Hj. destruct (Hr jobs Hj) as [-> ->]. cbn. lia.
  - unfold pending at 2. rewrite Hq. unfold pending. cbn. rewrite !length_app. lia.
Qed.
Lemma answer_running self packets now wall at_ self' replies calls : answer self packets now wall at_ = Some (self', replies, calls) →
  (en_running self = None ↔ en_running self' = None) ∧ en_tasks self' = en_tasks self ∧ en_options self' = en_options self.
Proof.
  assert (∀ e r l p e' r' l', answer_packet e r l p now wall = Some (e', r', l') →
    (en_running e = None ↔ en_running e' = None) ∧ en_tasks e' = en_tasks e ∧ en_options e' = en_options e) as Hone.
  { intros e r l p e' r' l'. unfold answer_packet. destruct (handle_packet _ _ _ _) as [[[reply|job|job|]|] dns]; try done;
      try (by intros [= <- <- <-]). cbn [en_running with_dns].
    destruct (en_running e) as [jobs|] eqn:Er; [destruct (try_send jobs job)|];
      try (by intros [= <- <- <-]); destruct (complete _ _ _ _) as [[p'|] dns']; try done; cbn [mbind option_bind];
      intros [= <- <- <-]; cbn; by rewrite Er. }
  assert (∀ e r l e' r' l', answer_loop e r l packets now wall = Some (e', r', l') →
    (en_running e = None ↔ en_running e' = None) ∧ en_tasks e' = en_tasks e ∧ en_options e' = en_options e) as Hloop.
  { induction packets as [|p packets IH]; intros e r l e' r' l'; cbn [answer_loop]; [by intros [= <- <- <-]|].
    destruct (answer_packet e r l p now wall) as [[[e1 r1] l1]|] eqn:E1; [|done]. cbn [mbind option_bind].
    intros E2. apply Hone in E1 as (? & ? & ?). apply IH in E2 as (? & ? & ?). split_and!; [tauto|congruence|congruence]. }
  unfold answer. destruct (answer_loop self [] [] packets now wall) as [[[e1 r1] l1]|] eqn:El; [|done]. cbn [mbind option_bind].
  apply Hloop in El. destruct l1; [by intros [= <- <- <-]|]. unfold resolve_locally.
  destruct (queue_locally _ _ _ _ _) as [[[local failed] calls']|]; [|done]. cbn [mbind option_bind].
  destruct (complete_jobs _ _ _ _) as [[dns more]|]; [|done]. cbn [mbind option_bind]. by intros [= <- <- <-].
Qed.
(** The options of an engine stay as they were given. *)
Lemma ffi_step_options s s' : ffi_step s s' → en_options (sy_engine s') = en_options (sy_engine s).
Proof.
  intros Hs. destruct Hs as [? ? ? ? ? ? ? ? ? ? ? _ Ha|? ? ? ? ? ? ? ? ? _ Hc|? ? ? ? ? Ht|? ? ? ? ? ? ? ? ? _ Hd|? ? ? ? ?| | | | |]; simpl; try done.
  - by apply answer_running in Ha as (_ & _ & ?).
  - unfold Engine_complete_local in Hc. destruct (LocalJobs_remove _ _) as [local [lookup|]]; [|by injection Hc as <- _].
    destruct (complete_jobs _ _ _ _) as [[dns more]|]; [|done]. by injection Hc as <- _.
  - unfold forward_take in Ht. repeat case_match; try done. by injection Ht as <-.
  - unfold forward_done in Hd. repeat (case_match; simplify_eq/=); try done.
    all: try (destruct (complete _ _ _ _) as [[?|] ?]; simplify_eq/=; done).
  - unfold start_runtime. by destruct (en_running e), listening.
Qed.
Lemma ffi_reach_options options dns s : ffi_reach options dns s → en_options (sy_engine s) = options.
Proof.
  revert s. apply (rtc_ind_r (λ s, en_options (sy_engine s) = options)); [done|]. intros s s' _ Hs <-. by apply ffi_step_options.
Qed.
Lemma ffi_step_inv s s' : ffi_step s s' → ffi_inv s → ffi_inv s'.
Proof.
  unfold ffi_inv. intros Hs (Hi & Hr & Hn). destruct Hs as [e asked answered dropped packets now wall at_ e' replies calls Hu Ha|
    e asked answered dropped id records now e' replies Hu Hc|e asked answered dropped e' Ht|
    e asked answered dropped k upstream now e' packet Hu Hd|e asked answered dropped listening|e asked answered dropped|
    e asked answered dropped|e asked answered dropped resolver|e asked answered dropped network|e asked answered dropped domains];
    cbn [sy_engine sy_asked sy_answered sy_dropped] in *.
  - destruct (answer_spec e packets now wall at_ Hi Hu) as (e1 & r1 & c1 & Ha1 & Hi1 & Hn1).
    rewrite Ha in Ha1. injection Ha1 as <- <- <-. apply answer_running in Ha as (Hrun & -> & _).
    split; [done|]. split; [intros; apply Hr; tauto|lia].
  - destruct (Engine_complete_local_spec e id records now Hi Hu) as (e1 & r1 & Hc1 & Hi1 & Hn1 & _).
    rewrite Hc in Hc1. injection Hc1 as <- <-. split; [done|]. split; [|lia].
    unfold Engine_complete_local in Hc. destruct (LocalJobs_remove _ _) as [local [lookup|]]; [|by injection Hc as <- _].
    destruct (complete_jobs _ _ _ _) as [[dns more]|]; [|done]. by injection Hc as <- _.
  - destruct (forward_take_spec e e' Hi Ht) as [Hi' Hp]. split; [done|]. rewrite Hp. split; [|done].
    unfold forward_take in Ht. destruct (en_running e) as [[capacity [|job queue] [|]]|]; try done.
    destruct (en_permits e); [done|]. by injection Ht as <-.
  - destruct (forward_done_spec e k upstream now _ Hi Hu Hd) as (e1 & p1 & [= <- <-] & Hi' & Hp). split; [done|]. split; [|lia].
    unfold forward_done in Hd. destruct (en_tasks e !! k) as [job|] eqn:Hk; [|done]. injection Hd as Hd.
    destruct (complete _ _ _ _) as [[p'|] dns]; [|done]. cbn [mbind option_bind] in Hd. injection Hd as <- _. cbn.
    intros Hrun. rewrite (Hr Hrun) in Hk. done.
  - unfold start_runtime. destruct (en_running e) eqn:Er; [by cbn; rewrite Er|]. destruct listening; [|by cbn; rewrite Er].
    destruct (with_running_inv e (Some {| ch_capacity := Nat.max (forward_queue (en_options e)) 1; ch_queue := []; ch_open := true |})
      (Nat.max (forward_in_flight (en_options e)) 1) Hi) as [Hi' Hn']; [by intros ? [= <-]|lia|].
    unfold queued in Hn'. rewrite Er, (Hr eq_refl) in Hn'. cbn [length] in Hn'. split; [exact Hi'|]. split; [done|]. cbn [fst]. lia.
  - destruct (with_running_inv e None 0 Hi) as [Hi' Hn']; [done|lia|]. split; [exact Hi'|]. split; [done|].
    unfold stop_runtime. lia.
  - unfold runtime_dies. edestruct (with_running_inv e) as [Hi' Hn']; [exact Hi| |apply Nat.le_0_l|split; [exact Hi'|split; [done|]]].
    + intros jobs Hj. destruct (en_running e) as [chan|] eqn:Er; [|done]. injection Hj as <-. cbn. split; [done|]. by apply (ei_queue _ Hi).
    + lia.
  - split; [destruct Hi; by split|]. done.
  - split; [apply with_dns_inv; [done|apply set_network_inv, Hi]|]. done.
  - split; [apply with_dns_inv; [done|destruct Hi as [[? ? ?] ? ? ? ?]; by split]|]. done.
Qed.
Lemma ffi_reach_inv options dns s : handler_inv dns → ffi_reach options dns s → ffi_inv s.
Proof.
  intros Hd. revert s. apply rtc_ind_r.
  - split; [by apply Engine_new_inv|]. done.
  - intros s s' _ Hs Hi. by eapply ffi_step_inv.
Qed.

(** C6: Every query the tunnel is given is answered exactly once, unless the runtime that held it
    ends. In every history of calls and of the runtime's tasks: the queries asked are as many as
    the replies given, the queries still pending and those dropped by [stop] (or by the death of
    the runtime thread) together; and no call panics: [handle_packets] answers any bytes,
    [complete_local] any id and records, and the forwarder any answer of the upstreams. *)
Theorem every_query_answered_once (options : EngineOptions) (blocklist : option DomainSet) (stats : Stats) (s : System) :
  ffi_reach options (DnsHandler_new blocklist stats) s →
  (sy_asked s = sy_answered s + length (pending (sy_engine s)) + sy_dropped s)%nat ∧
  (∀ packets now wall at_, Forall (Forall is_u8) packets → is_Some (answer (sy_engine s) packets now wall at_)) ∧
  (∀ id records now, (∀ l, records = Some l → Forall (λ r, Forall is_u8 (lr_data r)) l) →
     is_Some (Engine_complete_local (sy_engine s) id records now)) ∧
  (∀ k upstream now r, (∀ wire, upstream = Ok wire → Forall is_u8 wire) →
     forward_done (sy_engine s) k upstream now = Some r → is_Some r).
Proof.
  intros Hs. destruct (ffi_reach_inv options _ s (new_inv blocklist stats) Hs) as (Hi & _ & Hn). split; [done|]. split; [|split].
  - intros packets now wall at_ Hu. destruct (answer_spec (sy_engine s) packets now wall at_ Hi Hu) as (? & ? & ? & -> & _). by eexists.
  - intros id records now Hr. destruct (Engine_complete_local_spec (sy_engine s) id records now Hi Hr) as (? & ? & -> & _). by eexists.
  - intros k upstream now r Hu Hd. destruct (forward_done_spec _ _ _ _ _ Hi Hu Hd) as (? & ? & -> & _). by eexists.
Qed.

(** The packet path is bounded. In every such history: the queue holds at most its capacity,
    at most [forward_in_flight] queries (and at least one) are being resolved, at most 64 local
    lookups wait with at most 16 queries each, every lookup is for its own question, and
    a local lookup that was answered is gone, so that a second answer to it does nothing. *)
Theorem packet_path_bounded (options : EngineOptions) (blocklist : option DomainSet) (stats : Stats) (s : System) :
  ffi_reach options (DnsHandler_new blocklist stats) s →
  let e := sy_engine s in
  (length (queued e) ≤ Nat.max (forward_queue (en_options e)) 1)%nat ∧
  (length (en_tasks e) ≤ Nat.max (forward_in_flight (en_options e)) 1)%nat ∧
  (size (waiting (en_local e)) ≤ LOCAL_PENDING)%nat ∧
  (∀ id lookup, waiting (en_local e) !! id = Some lookup → (0 < length (lk_jobs lookup) ≤ LOCAL_JOBS_PER_LOOKUP)%nat) ∧
  (∀ id id' lookup lookup', waiting (en_local e) !! id = Some lookup → waiting (en_local e) !! id' = Some lookup' →
     lk_question lookup = lk_question lookup' → id = id') ∧
  (∀ id records now records' now' e' replies, (∀ l, records = Some l → Forall (λ r, Forall is_u8 (lr_data r)) l) →
     Engine_complete_local e id records now = Some (e', replies) → Engine_complete_local e' id records' now' = Some (e', [])).
Proof.
  intros Hs e. destruct (ffi_reach_inv options _ s (new_inv blocklist stats) Hs) as (Hi & _ & _). fold e in Hi.
  pose proof (ei_local _ Hi) as Hl. split; [|split; [|split; [|split; [|split]]]].
  - unfold queued. destruct (en_running e) as [jobs|] eqn:Er; [|cbn; lia]. destruct (ei_queue _ Hi jobs Er) as [? <-]. done.
  - pose proof (ei_tasks _ Hi). lia.
  - apply Hl.
  - intros id lookup H'. by apply (ji_jobs _ Hl) in H' as [].
  - intros id id' lookup lookup' H1' H2' Hq. apply (ji_question _ Hl) in H1', H2'. congruence.
  - intros id records now records' now' e' replies Hu Hc.
    destruct (Engine_complete_local_spec e id records now Hi Hu) as (e1 & r1 & Hc1 & _ & _ & Hgone).
    rewrite Hc in Hc1. injection Hc1 as <- <-. unfold Engine_complete_local, LocalJobs_remove. by rewrite Hgone.
Qed.
End engine.

(** ** A started engine is asked for a public name and a local one *)
Definition example_options : EngineOptions := {| forward_queue := 256; forward_in_flight := 96; local_deadline := 5000 |}.
Definition example_started : Engine :=
  set_local_resolver (start_runtime (Engine_new example_options example_handler) true).1 true.
Definition example_packets : list bytes :=
  [query_packet (example_query ["www"; "example"; "com"]%string TYPE_A); query_packet (example_query ["nas"; "lan"]%string TYPE_A)].
Lemma example_packets_u8 : Forall (Forall is_u8) example_packets.
Proof. apply (bool_decide_unpack _). vm_compute. exact I. Qed.
Lemma example_started_reach :
  ffi_reach example_options example_handler {| sy_engine := example_started; sy_asked := 0; sy_answered := 0; sy_dropped := 0 |}.
Proof. eapply rtc_l; [apply (ffi_start _ 0 0 0 true)|]. eapply rtc_l; [apply (ffi_resolver _ 0 0 0 true)|]. apply rtc_refl. Qed.
Lemma example_asked_reach e replies calls : answer example_started example_packets 100 0 0 = Some (e, replies, calls) →
  ffi_reach example_options example_handler
    {| sy_engine := e; sy_asked := 0 + queries example_packets; sy_answered := 0 + length replies; sy_dropped := 0 |}.
Proof.
  intros Ha. eapply rtc_r; [exact example_started_reach|]. exact (ffi_packets _ 0 0 0 _ 100 0 0 _ _ _ example_packets_u8 Ha).
Qed.
(** One job is queued and one lookup is started. *)
Lemma every_query_answered_once_witness : ∃ e replies calls,
  answer example_started example_packets 100 0 0 = Some (e, replies, calls) ∧
  (2 = length replies + length (pending e) + 0)%nat ∧ length (queued e) = 1%nat ∧ length calls = 1%nat.
Proof.
  destruct (proj1 (proj2 (every_query_answered_once example_options None Stats_default _ example_started_reach))
    example_packets 100 0 0 example_packets_u8) as [[[e replies] calls] Ha]. exists e, replies, calls. split; [exact Ha|].
  split; [exact (proj1 (every_query_answered_once example_options None Stats_default _ (example_asked_reach _ _ _ Ha)))|].
  assert (match answer example_started example_packets 100 0 0 with
          | Some (e, _, calls) => (length (queued e), length calls) | None => (0, 0) end = (1, 1))%nat as Hn by (vm_compute; reflexivity).
  cbn [sy_engine] in Ha. rewrite Ha in Hn. injection Hn as Hq Hc. split; [exact Hq|exact Hc].
Defined.
Lemma packet_path_bounded_witness : (length (en_tasks example_started) ≤ 96)%nat.
Proof. exact (proj1 (proj2 (packet_path_bounded example_options None Stats_default _ example_started_reach))). Defined.
