(* ===== verification/RootCa.v ===== *)
(** * The root certificate and its files ([mitm/src/ca.rs], [tollgate-ffi/src/ca.rs])

    Making, reading and storing the root. The file system is a map from paths to contents, and
    every operation that writes gives each state it goes through, the last one first, so that
    what a crash can leave behind is visible. Every call may fail, as its argument says. *)
From S2P Require Import Prelude RustStr Collections Io HostPattern DnsCache Ca Profile Engine.

(** ** The certificate *)

Definition CA_VALIDITY_DAYS : Z := 3650.
Inductive KeyUsagePurpose := KeyCertSign | CrlSign | DigitalSignature.
(** What rcgen is asked to sign. [cp_path_len] is the path length of a CA, none for a leaf; the
    validity is in unix seconds. *)
Record CertificateParams := {
  cp_common_name : bytes;
  cp_organization : bytes;
  cp_path_len : option Z;
  cp_key_usages : list KeyUsagePurpose;
  cp_not_before : Z;
  cp_not_after : Z
}.
(** What rcgen, rustls and x509-parser do: reading a certificate's PEM, a key's PEM (its public
    key), a certificate's contents (whether it is a CA, its public key) and preparing it to issue
    leaves; and signing a root with a new key, the [attempt]th one. A CA made by rcgen reads back:
    it is a CA, with the public key of its own key. *)
Class RootCrate := {
  cert_from_pem : bytes → result bytes bytes;
  key_from_pem : bytes → result bytes bytes;
  cert_contents : bytes → result (bool * bytes) bytes;
  issuer_from : bytes → bytes → result unit bytes;
  self_signed : nat → CertificateParams → result (bytes * bytes) bytes;
  self_signed_reads attempt params cert key : is_Some (cp_path_len params) → self_signed attempt params = Ok (cert, key) →
    ∃ der public, cert_from_pem cert = Ok der ∧ key_from_pem key = Ok public ∧
      cert_contents der = Ok (true, public) ∧ issuer_from der key = Ok ()
}.

(** [TollgateError] and [catch_panic] ([error.rs]). What a message is the text of. *)
Inductive Message := Text (text : bytes) | OfPolicy (error : PolicyError) | OfList (name problem : bytes).
Inductive TollgateError :=
| ConfigError (message : Message) | IoError (kind : ErrorKind) | ListsError (error : FilterError) | CaError (error : option MitmError)
| AlreadyRunningError | InternalError (message : Message).
(** A panic ([None]) becomes an error. *)
Definition catch_panic {A} (f : option (result A TollgateError)) (message : bytes) : result A TollgateError :=
  match f with Some r => r | None => Err (InternalError (Text message)) end.

Definition CA_CERT_FILE : bytes := lit "ca.pem".
Definition CA_KEY_FILE : bytes := lit "ca.key".
Definition CA_COMMON_NAME : bytes := lit "Tollgate Root CA".
Definition PROFILE_DISPLAY_NAME : bytes := lit "Tollgate Root CA".
Definition PROFILE_IDENTIFIER : bytes := lit "dev.tollgate.ca".

(** [sha256_hex] ([lib.rs]); SHA-256 itself is an argument. *)
Definition sha256_hex (sha256 : bytes → bytes) (data : bytes) : bytes :=
  sha256 data ≫= (λ b, to_ascii_lowercase (hex2 b)).

Definition path_in (dir file : bytes) : bytes := dir ++ lit "/" ++ file.

(** [read_optional]; [fails] is an error other than that the file is missing. *)
Definition read_optional (fs : gmap bytes bytes) (path : bytes) (fails : option ErrorKind) : result (option bytes) TollgateError :=
  match fails with
  | Some e => Err (IoError e)
  | None => Ok (fs !! path)
  end.

(** [write_private], with the states it goes through. [wiped] is whether a leftover temporary file
    could be removed first. *)
Definition write_private (fs : gmap bytes bytes) (dir file text pid : bytes) (unique : Z) (wiped : bool) (answers : WriteAnswers)
    : list (gmap bytes bytes) * result unit TollgateError :=
  let tmp := temp_name dir file pid unique in
  let fs1 := if wiped then delete tmp fs else fs in
  let open_fails e := ((if wa_remove answers then delete tmp fs1 else fs1) :: [fs1], Err (IoError e)) in
  match wa_open answers 0 with
  | Some e => open_fails e
  | None =>
      match fs1 !! tmp with
      | Some _ => open_fails AlreadyExists
      | None =>
          let '(states, res) := write_temp (<[tmp := []]> fs1) (path_in dir file) tmp text answers in
          (states ++ [fs1], match res with Ok _ => Ok () | Err (FilterIo e) => Err (IoError e) | Err e => Err (ListsError e) end)
      end
  end.

Section root.
Context `{RootCrate}.

Record CertAuthority := { ca_cert_pem : bytes; ca_key_pem : bytes; ca_cert_der : bytes }.
Definition CertAuthority_from_pem (cert_pem key_pem : bytes) : result CertAuthority MitmError :=
  match cert_from_pem cert_pem with
  | Err e => Err (InvalidCaCertificate e)
  | Ok cert_der =>
      match key_from_pem key_pem with
      | Err e => Err (InvalidCaKey e)
      | Ok public =>
          match cert_contents cert_der with
          | Err e => Err (InvalidCaCertificate e)
          | Ok (is_ca, cert_public) =>
              if negb is_ca then Err NotCa
              else if negb (bool_decide (cert_public = public)) then Err KeyMismatch
              else match issuer_from cert_der key_pem with
                   | Err e => Err (CertificateFailed e)
                   | Ok _ => Ok {| ca_cert_pem := cert_pem; ca_key_pem := key_pem; ca_cert_der := cert_der |}
                   end
          end
      end
  end.
(** The root [generate] asks for, at [utc]. *)
Definition root_params (common_name : bytes) (utc : Z) : CertificateParams :=
  let not_before := utc - DAY_SECS in
  {| cp_common_name := common_name; cp_organization := lit "Tollgate"; cp_path_len := Some 0;
     cp_key_usages := [KeyCertSign; CrlSign; DigitalSignature];
     cp_not_before := not_before; cp_not_after := not_before + CA_VALIDITY_DAYS * DAY_SECS |}.
Definition CertAuthority_generate (attempt : nat) (common_name : bytes) (utc : Z) : result CertAuthority MitmError :=
  match self_signed attempt (root_params common_name utc) with
  | Err e => Err (CertificateFailed e)
  | Ok (cert, key) => CertAuthority_from_pem cert key
  end.

(** ** The files *)

Definition load_ca (fs : gmap bytes bytes) (dir : bytes) (cert_fails key_fails : option ErrorKind)
    : result (option CertAuthority) TollgateError :=
  match read_optional fs (path_in dir CA_CERT_FILE) cert_fails with
  | Err e => Err e
  | Ok cert =>
      match read_optional fs (path_in dir CA_KEY_FILE) key_fails with
      | Err e => Err e
      | Ok key =>
          match cert, key with
          | Some cert, Some key =>
              match CertAuthority_from_pem cert key with Ok ca => Ok (Some ca) | Err e => Err (CaError (Some e)) end
          | _, _ => Ok None
          end
      end
  end.

(** What the calls of [generate_in] answer. *)
Record GenerateAnswers := {
  ga_cert_read : option ErrorKind; ga_key_read : option ErrorKind;
  ga_create_dir : option ErrorKind;
  ga_attempt : nat; ga_utc : Z;
  ga_wiped : bool; ga_wiped' : bool;
  ga_key : WriteAnswers; ga_cert : WriteAnswers
}.
(** The root and whether it was made now, with the states of the file system ([generate_in]; the
    directory itself is not one of the files). *)
Definition generate_in (fs : gmap bytes bytes) (dir pid : bytes) (unique : Z) (answers : GenerateAnswers)
    : list (gmap bytes bytes) * result (CertAuthority * bool) TollgateError :=
  match load_ca fs dir (ga_cert_read answers) (ga_key_read answers) with
  | Err e => ([fs], Err e)
  | Ok (Some ca) => ([fs], Ok (ca, false))
  | Ok None =>
      match ga_create_dir answers with
      | Some e => ([fs], Err (IoError e))
      | None =>
          match CertAuthority_generate (ga_attempt answers) CA_COMMON_NAME (ga_utc answers) with
          | Err e => ([fs], Err (CaError (Some e)))
          | Ok ca =>
              match write_private fs dir CA_KEY_FILE (ca_key_pem ca) pid unique (ga_wiped answers) (ga_key answers) with
              | (states, Err e) => (states ++ [fs], Err e)
              | (states, Ok _) =>
                  let fs1 := default fs (head states) in
                  match write_private fs1 dir CA_CERT_FILE (ca_cert_pem ca) pid (unique + 1) (ga_wiped' answers) (ga_cert answers) with
                  | (states', Err e) => (states' ++ states ++ [fs], Err e)
                  | (states', Ok _) => (states' ++ states ++ [fs], Ok (ca, true))
                  end
              end
          end
      end
  end.
(** What the app shows of the root. *)
Record CaInfo := { ci_cert_pem : bytes; ci_sha256_fingerprint : bytes; ci_created : bool }.
Definition ca_info (sha256 : bytes → bytes) (ca : CertAuthority) (created : bool) : CaInfo :=
  {| ci_cert_pem := ca_cert_pem ca; ci_sha256_fingerprint := sha256_hex sha256 (ca_cert_der ca); ci_created := created |}.
(** [ca_test_leaf]: the DER of a leaf issued by the stored root, whose cache is empty. *)
Definition ca_test_leaf `{Issuing, Lru} (leaf_der : CertifiedKey → option bytes) (fs : gmap bytes bytes) (dir host : bytes)
    (cert_fails key_fails : option ErrorKind) (now utc : Z) (attempt : nat) : result bytes TollgateError :=
  match load_ca fs dir cert_fails key_fails with
  | Err e => Err e
  | Ok None => Err (CaError None)
  | Ok (Some ca) =>
      match (leaf_at (lru_new LEAF_CACHE_SIZE) host now utc attempt).2 with
      | Err e => Err (CaError (Some e))
      | Ok key => match leaf_der key with Some der => Ok der | None => Err (CaError None) end
      end
  end.
(** [ca_mobileconfig] *)
Definition ca_mobileconfig (sha256 : bytes → bytes) (fs : gmap bytes bytes) (dir : bytes) (cert_fails key_fails : option ErrorKind)
    : result bytes TollgateError :=
  match load_ca fs dir cert_fails key_fails with
  | Err e => Err e
  | Ok None => Err (CaError None)
  | Ok (Some ca) => Ok (mobileconfig sha256 (ca_cert_der ca) PROFILE_DISPLAY_NAME PROFILE_IDENTIFIER)
  end.
End root.

(** ** Facts *)

(** A temporary file is none of the files written. *)
Lemma temp_name_hidden dir file file' pid n : head file' ≠ Some DOT → temp_name dir file pid n ≠ path_in dir file'.
Proof.
  intros Hd He. apply Hd. unfold temp_name, path_in in He. apply app_inv_head in He. injection He as He.
  by rewrite <- He.
Qed.
(** In every state each file but the temporary one is as it was, or is the file written, whole; a
    success leaves it written, a failure leaves it as it was. *)
Lemma write_private_states fs dir file text pid unique wiped answers states res : head file ≠ Some DOT →
  write_private fs dir file text pid unique wiped answers = (states, res) →
  let tmp := temp_name dir file pid unique in
  Forall (λ st : gmap bytes bytes, ∀ p, p ≠ tmp → st !! p = fs !! p ∨ (p = path_in dir file ∧ st !! p = Some text)) states ∧
  ∃ last, head states = Some last ∧
    ∀ p, p ≠ tmp → last !! p = match res with Ok _ => (<[path_in dir file := text]> fs : gmap bytes bytes) !! p | Err _ => fs !! p end.
Proof.
  intros Hd. unfold write_private. set (tmp := temp_name dir file pid unique). set (fs1 := if wiped then delete tmp fs else fs).
  assert (∀ p, p ≠ tmp → fs1 !! p = fs !! p) as H1.
  { intros p Hp. unfold fs1. destruct wiped; [by rewrite lookup_delete_ne|done]. }
  assert (∀ p, p ≠ tmp → (if wa_remove answers then delete tmp fs1 else fs1) !! p = fs !! p) as H2.
  { intros p Hp. destruct (wa_remove answers); [rewrite lookup_delete_ne by done|]; by apply H1. }
  assert (∀ e, ((if wa_remove answers then delete tmp fs1 else fs1) :: [fs1], Err (IoError e)) = (states, res) →
    Forall (λ st : gmap bytes bytes, ∀ p, p ≠ tmp → st !! p = fs !! p ∨ (p = path_in dir file ∧ st !! p = Some text)) states ∧
    ∃ last, head states = Some last ∧
      ∀ p, p ≠ tmp → last !! p = match res with Ok _ => (<[path_in dir file := text]> fs : gmap bytes bytes) !! p | Err _ => fs !! p end) as Hopen.
  { intros e [= <- <-]. split; [repeat constructor; by auto|]. eexists. split; [done|]. exact H2. }
  destruct (wa_open answers 0) as [e|]; [by apply Hopen|]. destruct (fs1 !! tmp) eqn:Ht; [by apply Hopen|].
  destruct (write_temp (<[tmp := []]> fs1) (path_in dir file) tmp text answers) as [sts r] eqn:Hw. intros [= <- <-].
  assert (tmp ≠ path_in dir file) as Hne by (by apply temp_name_hidden).
  destruct (write_temp_states _ _ _ _ _ _ _ Hne Hw) as (Hall & last & Hl & Hr). split.
  - apply Forall_app. split; [|repeat constructor; by auto]. eapply Forall_impl; [exact Hall|]. intros st Hst p Hp.
    destruct (Hst p Hp) as [->|?]; [left|by right]. rewrite lookup_insert_ne by done. by apply H1.
  - exists last. split; [by destruct sts|]. intros p Hp. destruct r as [u|e]; [|destruct e]; cbn in Hr |- *.
    1: { rewrite Hr. destruct (decide (p = path_in dir file)) as [->|Hpp]; [by rewrite !lookup_insert_eq|].
      rewrite !lookup_insert_ne by done. rewrite lookup_delete_ne, lookup_insert_ne by done. by apply H1. }
    all: rewrite Hr, lookup_insert_ne by done; by apply H1.
Qed.

Section facts.
Context `{RootCrate}.

Lemma generate_reads attempt name utc ca : CertAuthority_generate attempt name utc = Ok ca →
  CertAuthority_from_pem (ca_cert_pem ca) (ca_key_pem ca) = Ok ca.
Proof.
  unfold CertAuthority_generate. destruct (self_signed attempt (root_params name utc)) as [[cert key]|]; [|done]. intros Hf.
  assert (ca_cert_pem ca = cert ∧ ca_key_pem ca = key) as [-> ->]; [|done].
  unfold CertAuthority_from_pem in Hf. repeat (case_match; try done). by simplify_eq.
Qed.
(** A root rcgen made is accepted. *)
Lemma generate_accepts attempt name utc cert key : self_signed attempt (root_params name utc) = Ok (cert, key) →
  ∃ ca, CertAuthority_generate attempt name utc = Ok ca.
Proof.
  intros Hs. unfold CertAuthority_generate. rewrite Hs.
  destruct (self_signed_reads attempt (root_params name utc) cert key (mk_is_Some _ _ eq_refl) Hs) as (der & public & Hc & Hk & Hi & Hr).
  unfold CertAuthority_from_pem. rewrite Hc, Hk, Hi. cbn [negb]. rewrite bool_decide_true by done. cbn [negb]. rewrite Hr. eauto.
Qed.

(** A state in which a certificate has its own key next to it, if there is one. *)
Definition paired (dir : bytes) (fs : gmap bytes bytes) : Prop :=
  ∀ cert, fs !! path_in dir CA_CERT_FILE = Some cert →
    ∃ key ca, fs !! path_in dir CA_KEY_FILE = Some key ∧ CertAuthority_from_pem cert key = Ok ca.

Lemma generate_writes fs dir pid unique answers states res ca :
  load_ca fs dir (ga_cert_read answers) (ga_key_read answers) = Ok None → ga_create_dir answers = None →
  CertAuthority_generate (ga_attempt answers) CA_COMMON_NAME (ga_utc answers) = Ok ca →
  generate_in fs dir pid unique answers = (states, res) →
  Forall (λ st : gmap bytes bytes, st !! path_in dir CA_CERT_FILE = fs !! path_in dir CA_CERT_FILE ∨
    st !! path_in dir CA_CERT_FILE = Some (ca_cert_pem ca) ∧ st !! path_in dir CA_KEY_FILE = Some (ca_key_pem ca)) states ∧
  match res with
  | Ok (ca', created) => ca' = ca ∧ created = true ∧ ∃ last, head states = Some last ∧
      last !! path_in dir CA_CERT_FILE = Some (ca_cert_pem ca) ∧ last !! path_in dir CA_KEY_FILE = Some (ca_key_pem ca)
  | Err _ => True
  end.
Proof.
  intros Hl Hc Hg. unfold generate_in. rewrite Hl, Hc, Hg.
  assert (path_in dir CA_CERT_FILE ≠ path_in dir CA_KEY_FILE) as Hne.
  { intros He. apply app_inv_head in He. apply app_inv_head in He. discriminate He. }
  assert (∀ file unique', path_in dir CA_CERT_FILE ≠ temp_name dir file pid unique') as Hct
    by (intros file unique' He; symmetry in He; by apply temp_name_hidden in He).
  assert (∀ file unique', path_in dir CA_KEY_FILE ≠ temp_name dir file pid unique') as Hkt
    by (intros file unique' He; symmetry in He; by apply temp_name_hidden in He).
  destruct (write_private fs dir CA_KEY_FILE _ _ _ _ _) as [st1 r1] eqn:Hw1.
  apply write_private_states in Hw1 as (Hall1 & last1 & Hh1 & Hlast1); [|done].
  set (P := λ st : gmap bytes bytes, st !! path_in dir CA_CERT_FILE = fs !! path_in dir CA_CERT_FILE ∨
    st !! path_in dir CA_CERT_FILE = Some (ca_cert_pem ca) ∧ st !! path_in dir CA_KEY_FILE = Some (ca_key_pem ca)).
  assert (Forall P (st1 ++ [fs])) as Hst1.
  { apply Forall_app. split; [|repeat constructor; by left]. eapply Forall_impl; [exact Hall1|]. intros st Hst. left.
    by destruct (Hst (path_in dir CA_CERT_FILE) (Hct _ _)) as [|[? _]]. }
  destruct r1 as [u|e]; [|intros [= <- <-]; by split]. rewrite Hh1. cbv zeta. change (default fs (Some last1)) with last1.
  pose proof (Hlast1 _ (Hct _ _)) as Hc1. rewrite lookup_insert_ne in Hc1 by done.
  pose proof (Hlast1 _ (Hkt _ _)) as Hk1. rewrite lookup_insert_eq in Hk1.
  destruct (write_private last1 dir CA_CERT_FILE _ _ _ _ _) as [st2 r2] eqn:Hw2.
  apply write_private_states in Hw2 as (Hall2 & last2 & Hh2 & Hlast2); [|done].
  assert (Forall P (st2 ++ st1 ++ [fs])) as Hst2.
  { apply Forall_app. split; [|done]. eapply Forall_impl; [exact Hall2|]. intros st Hst. unfold P.
    destruct (Hst _ (Hkt _ _)) as [Hk|[Hk _]]; [|by rewrite Hk in Hne]. rewrite Hk, Hk1.
    destruct (Hst _ (Hct _ _)) as [->|[_ ?]]; [left|right]; done. }
  pose proof (Hlast2 _ (Hct _ _)) as Hc2. pose proof (Hlast2 _ (Hkt _ _)) as Hk2.
  destruct r2 as [u2|e2]; intros [= <- <-]; (split; [exact Hst2|]); [|done]. split; [done|]. split; [done|].
  rewrite lookup_insert_eq in Hc2. rewrite lookup_insert_ne in Hk2 by done. exists last2.
  split; [by destruct st2|]. split; [done|]. by rewrite Hk2.
Qed.

(** C17: The root the user installed is never lost or replaced. [generate_ca] changes nothing when
    a root is stored, nor when what is stored cannot be read or is not a valid pair; when it
    stores a new root, loading gives that root from then on; and when no certificate was stored,
    then in every state a crash or a failure can leave behind, a certificate has its own key next
    to it. *)
Theorem root_is_kept (fs : gmap bytes bytes) (dir pid : bytes) (unique : Z) (answers : GenerateAnswers)
    (states : list (gmap bytes bytes)) (res : result (CertAuthority * bool) TollgateError) :
  generate_in fs dir pid unique answers = (states, res) →
  (load_ca fs dir (ga_cert_read answers) (ga_key_read answers) ≠ Ok None → states = [fs] ∧
     res = match load_ca fs dir (ga_cert_read answers) (ga_key_read answers) with
           | Ok (Some ca) => Ok (ca, false) | Ok None => res | Err e => Err e end) ∧
  (fs !! path_in dir CA_CERT_FILE = None → Forall (paired dir) states) ∧
  (∀ ca, res = Ok (ca, true) → ∃ last, head states = Some last ∧ load_ca last dir None None = Ok (Some ca)).
Proof.
  intros Hgen. destruct (load_ca fs dir (ga_cert_read answers) (ga_key_read answers)) as [[ca|]|e] eqn:Hl;
    [unfold generate_in in Hgen; rewrite Hl in Hgen; injection Hgen as <- <-| |unfold generate_in in Hgen; rewrite Hl in Hgen; injection Hgen as <- <-].
  1, 3: split; [done|]; split; [|done]; intros Hn; repeat constructor; intros cert Hc; congruence.
  split; [done|]. destruct (ga_create_dir answers) as [e|] eqn:Hd.
  { unfold generate_in in Hgen. rewrite Hl, Hd in Hgen. injection Hgen as <- <-. split; [|done].
    intros Hn. repeat constructor. intros cert Hc. congruence. }
  destruct (CertAuthority_generate (ga_attempt answers) CA_COMMON_NAME (ga_utc answers)) as [ca|e] eqn:Hg.
  2: { unfold generate_in in Hgen. rewrite Hl, Hd, Hg in Hgen. injection Hgen as <- <-. split; [|done].
    intros Hn. repeat constructor. intros cert Hc. congruence. }
  pose proof (generate_reads _ _ _ _ Hg) as Hreads. destruct (generate_writes _ _ _ _ _ _ _ _ Hl Hd Hg Hgen) as [Hall Hres]. split.
  - intros Hn. eapply Forall_impl; [exact Hall|]. intros st [Hst|[Hc Hk]] cert Hcert; [congruence|].
    exists (ca_key_pem ca), ca. split; [done|]. congruence.
  - intros ca' ->. destruct Hres as (-> & _ & last & Hh & Hc & Hk). exists last. split; [done|].
    unfold load_ca, read_optional. by rewrite Hc, Hk, Hreads.
Qed.
End facts.

(** ** An instance to run the model with *)

(** A certificate is ["C"], whether it is a CA, and a public key; a key is ["K"] and its public key. *)
Definition example_root : RootCrate.
Proof.
  refine {|
    cert_from_pem pem := match pem with 67 :: der => Ok der | _ => Err [] end;
    key_from_pem pem := match pem with 75 :: public => Ok public | _ => Err [] end;
    cert_contents der := match der with b :: public => Ok (b =? 1, public) | [] => Err [] end;
    issuer_from _ _ := Ok ();
    self_signed attempt _ := Ok ([67; 1; Z.of_nat attempt], [75; Z.of_nat attempt]) |}.
  intros attempt params cert key _ [= <- <-]. by exists [1; Z.of_nat attempt], [Z.of_nat attempt].
Defined.
Definition example_generate (attempt : nat) (cert : WriteAnswers) : GenerateAnswers :=
  {| ga_cert_read := None; ga_key_read := None; ga_create_dir := None; ga_attempt := attempt; ga_utc := 1700000000; ga_wiped := true; ga_wiped' := true;
     ga_key := no_failures; ga_cert := cert |}.

Lemma root_is_kept_witness : ∃ last,
  head (generate_in (H := example_root) ∅ (lit "d") (lit "7") 0 (example_generate 5 no_failures)).1 = Some last ∧
  load_ca (H := example_root) last (lit "d") None None = Ok (Some {| ca_cert_pem := [67; 1; 5]; ca_key_pem := [75; 5]; ca_cert_der := [1; 5] |}).
Proof.
  destruct (generate_in (H := example_root) ∅ (lit "d") (lit "7") 0 (example_generate 5 no_failures)) as [states res] eqn:Hg.
  assert (res = Ok ({| ca_cert_pem := [67; 1; 5]; ca_key_pem := [75; 5]; ca_cert_der := [1; 5] |}, true)) as Hr.
  { replace res with (generate_in (H := example_root) ∅ (lit "d") (lit "7") 0 (example_generate 5 no_failures)).2 by (by rewrite Hg).
    vm_compute. reflexivity. }
  exact (proj2 (proj2 (@root_is_kept example_root _ _ _ _ _ _ _ Hg)) _ Hr).
Defined.

(** Without the hypothesis that no certificate was stored: a directory that holds a certificate
    whose key is gone, and a failure to write the new certificate, leave the old certificate with
    the new key, a pair that no later call accepts or replaces. *)
Definition stale_root : gmap bytes bytes := {[path_in (lit "d") CA_CERT_FILE := [67; 1; 9]]}.
Definition disk_full : WriteAnswers :=
  {| wa_open _ := None; wa_write := Some (0%nat, OtherKind 0); wa_sync := None; wa_rename := None; wa_remove := true |}.
Theorem stale_certificate_is_stuck :
  ∃ last, head (generate_in (H := example_root) stale_root (lit "d") (lit "7") 0 (example_generate 5 disk_full)).1 = Some last ∧
    ∀ attempt cert, generate_in (H := example_root) last (lit "d") (lit "7") 2 (example_generate attempt cert) =
      ([last], Err (CaError (Some KeyMismatch))).
Proof.
  pose (r := generate_in (H := example_root) stale_root (lit "d") (lit "7") 0 (example_generate 5 disk_full)).
  exists (default ∅ (head r.1)). split; [unfold r; vm_compute; reflexivity|]. intros attempt cert. unfold generate_in.
  assert (load_ca (H := example_root) (default ∅ (head r.1)) (lit "d") None None = Err (CaError (Some KeyMismatch))) as Hl
    by (unfold r; vm_compute; reflexivity).
  cbn [ga_cert_read ga_key_read example_generate]. by rewrite Hl.
Qed.
