(* ===== verification/TlsConfig.v ===== *)
(** * TLS configurations ([common/src/tls.rs], [server_config] of [mitm/src/intercept.rs], [dns/src/doh.rs])

    [Upstream::new] and [DohResolver::with_tls_config]: which configured upstreams are used and what
    each is asked. rustls' [ServerName] is the class [ServerNames].

    How the DNS over HTTPS client, the proxy's upstream side and its client side configure rustls:
    whom they trust, which certificate they show and which protocols they offer; and what that
    means for the handshakes of the connections the proxy serves. rustls and webpki-roots are the
    class [Rustls]. *)
From S2P Require Import Prelude RustStr Collections Net Policy Common DomainSet DnsCache Io Hello Http Engine Filtering UpstreamError Request Idle Ca Proxy Connect ConnectProps RootCa Doh DohProps.

(** * Building a DNS over HTTPS resolver from the configuration *)

(** [ServerName::try_from]: "by parsing as a DNS name or IP address". *)
Class ServerNames := {
  server_name_from : bytes → result bytes bytes;
  server_name_same name s : server_name_from name = Ok s → s = name;
  server_name_kinds name s : server_name_from name = Ok s →
    is_Some (IpAddr_parse name) ∨ Forall (λ b, is_ascii_alphanumeric b = true ∨ b ∈ lit "-_.") name
}.

Section setup.
Context `{HttpCrate} `{ServerNames}.

(** What does not change of an upstream; its [name] is for log lines. *)
Record DohTarget := {
  dt_addr : IpAddr * Z;
  dt_server_name : bytes;
  dt_uri : Uri
}.
(** The reasons are only logged. *)
Inductive BadUpstream := BadServerName (reason : bytes) | BadPath (path : bytes) | BadUri.

Definition Upstream_new (config : DohUpstream) : result (DohTarget * Upstream) BadUpstream :=
  match server_name_from (doh_tls_name config) with
  | Err reason => Err (BadServerName reason)
  | Ok server_name =>
      if negb (starts_with (lit "/") (doh_path config)) then Err (BadPath (doh_path config))
      else
        let host := match Ipv6Addr_parse (doh_tls_name config) with
                    | Some _ => lit "[" ++ doh_tls_name config ++ lit "]"
                    | None => doh_tls_name config
                    end in
        let authority := if doh_port config =? 443 then host else host ++ lit ":" ++ show_decimal (doh_port config) in
        match uri_parse (lit "https://" ++ authority ++ doh_path config) with
        | None => Err BadUri
        | Some uri =>
            Ok ({| dt_addr := (doh_ip config, doh_port config); dt_server_name := server_name; dt_uri := uri |},
                Upstream_fresh)
        end
  end.
Definition with_tls_config (upstreams : list DohUpstream) : list (DohTarget * Upstream) :=
  omap (λ upstream, match Upstream_new upstream with Ok u => Some u | Err _ => None end) upstreams.
End setup.

(** [connect]: what opening the socket, [set_nodelay], TLS (with the protocol the upstream chose) and the
    HTTP/2 handshake gave. *)
Record ConnectAnswers := {
  ca_tcp : result unit bytes;
  ca_nodelay : result unit bytes;
  ca_tls : result (option bytes) bytes;
  ca_handshake : result nat bytes
}.
Definition doh_connect (answers : ConnectAnswers) : result nat DohError :=
  match ca_tcp answers with
  | Err e => Err (Connect e)
  | Ok _ =>
      match ca_nodelay answers with
      | Err e => Err (Connect e)
      | Ok _ =>
          match ca_tls answers with
          | Err e => Err (Tls e)
          | Ok alpn =>
              if negb (bool_decide (alpn = Some (lit "h2"))) then Err (Tls (lit "the upstream did not choose h2"))
              else match ca_handshake answers with
                   | Err e => Err (Http e)
                   | Ok sender => Ok sender
                   end
          end
      end
  end.

(** ** The configured upstreams *)

Section upstreams.
Context `{HttpCrate} `{ServerNames}.

(** A name gets brackets exactly where [http.rs] puts them. *)
Lemma host_brackets name s : server_name_from name = Ok s →
  match Ipv6Addr_parse name with Some _ => lit "[" ++ name ++ lit "]" | None => name end =
  if contains 58 name && negb (starts_with (lit "[") name) then lit "[" ++ name ++ lit "]" else name.
Proof.
  intros Hn. destruct (Ipv6Addr_parse name) as [g|] eqn:H6.
  - apply ipv6_text in H6 as [Hb Hc]. apply contains_elem in Hc. rewrite Hc.
    enough (starts_with (lit "[") name = false) as -> by done. apply not_true_iff_false. intros [r ->]%starts_with_spec.
    apply Forall_app in Hb as [[Hb _]%Forall_cons _]. by destruct Hb as [[?|?]|?].
  - enough (contains 58 name = false) as -> by done. apply not_true_iff_false. rewrite contains_elem.
    destruct (server_name_kinds _ _ Hn) as [[o Ho]|Hd]; [by eapply ipv4_text|].
    rewrite Forall_forall in Hd. intros [?|Hc]%Hd; [done|]. revert Hc. by apply (bool_decide_eq_false_1 (58 ∈ lit "-_.")).
Qed.

(** The text of the URI that the queries to [u] go to. *)
Definition doh_url (u : DohUpstream) : bytes :=
  lit "https://" ++ authority (doh_tls_name u) (doh_port u) 443 ++ doh_path u.
Lemma Upstream_new_url u s : server_name_from (doh_tls_name u) = Ok s →
  Upstream_new u =
  if negb (starts_with (lit "/") (doh_path u)) then Err (BadPath (doh_path u))
  else match uri_parse (doh_url u) with
       | None => Err BadUri
       | Some uri => Ok ({| dt_addr := (doh_ip u, doh_port u); dt_server_name := s; dt_uri := uri |}, Upstream_fresh)
       end.
Proof. intros Hn. unfold Upstream_new, doh_url, authority. by rewrite Hn, (host_brackets _ _ Hn). Qed.

Lemma order_fresh (l : list Upstream) now : Forall (λ u, u = Upstream_fresh) l → ∀ i,
  order_loop l i now = (seq i (length l), [], [], l).
Proof. induction 1 as [|u l -> _ IH]; intros i; [done|]. simpl. by rewrite IH. Qed.

(** A configured upstream is used exactly when its name is a server name, its path begins with a
    slash and the URL made of both is one; the others are left out and the order is kept. It is reached
    at its own address and port, the certificate must be for its TLS name, and its queries go to
    [https://name:port/path] as [http.rs] writes authorities, brackets around an IPv6 literal and the
    port left out when it is 443. Nothing of it is marked down at first: the first query tries the
    upstreams in the configured order and starts no background query. *)
Theorem configured_upstreams_used (upstreams : list DohUpstream) :
  (∀ u, is_Some (head (with_tls_config [u])) ↔
     (∃ s, server_name_from (doh_tls_name u) = Ok s) ∧ starts_with (lit "/") (doh_path u) = true ∧ is_Some (uri_parse (doh_url u))) ∧
  (∀ t up, (t, up) ∈ with_tls_config upstreams → ∃ u, u ∈ upstreams ∧ dt_addr t = (doh_ip u, doh_port u) ∧
     dt_server_name t = doh_tls_name u ∧ uri_parse (doh_url u) = Some (dt_uri t)) ∧
  ((λ t, dt_addr t.1) <$> with_tls_config upstreams) `sublist_of` ((λ u, (doh_ip u, doh_port u)) <$> upstreams) ∧
  ∀ now, order (with_tls_config upstreams).*2 now = (seq 0 (length (with_tls_config upstreams)), [], (with_tls_config upstreams).*2).
Proof.
  assert (∀ u t up, Upstream_new u = Ok (t, up) → up = Upstream_fresh ∧ dt_addr t = (doh_ip u, doh_port u) ∧ dt_server_name t = doh_tls_name u ∧
    uri_parse (doh_url u) = Some (dt_uri t)) as Hnew.
  { intros u t up. destruct (server_name_from (doh_tls_name u)) as [s|e] eqn:Hn; [|by unfold Upstream_new; rewrite Hn].
    rewrite (Upstream_new_url _ _ Hn). repeat case_match; try done. intros [= <- <-]. simpl. by rewrite (server_name_same _ _ Hn). }
  split_and!.
  - intros u. unfold with_tls_config. simpl. destruct (server_name_from (doh_tls_name u)) as [s|e] eqn:Hn.
    + rewrite (Upstream_new_url _ _ Hn). destruct (starts_with _ _); simpl; [|split; [intros [? ?]; done|naive_solver]].
      destruct (uri_parse (doh_url u)); simpl; [split; eauto|split; [intros [? ?]; done|intros (_ & _ & [? ?]); done]].
    + unfold Upstream_new. rewrite Hn. simpl. split; [intros [? ?]; done|intros ([? ?] & _); done].
  - intros t up (u & Hu & Hn)%list_elem_of_omap. exists u. destruct (Upstream_new u) as [[t' up']|] eqn:Hu'; [|done].
    simplify_eq. apply Hnew in Hu'. naive_solver.
  - unfold with_tls_config. induction upstreams as [|u l IH]; [done|]. simpl. destruct (Upstream_new u) as [[t up]|] eqn:Hu; simpl.
    + apply Hnew in Hu as (_ & -> & _). by constructor.
    + by constructor.
  - intros now. unfold order. rewrite order_fresh; [by rewrite app_nil_r, length_fmap|].
    apply Forall_fmap, Forall_forall. intros [t up] (u & Hu & Hn)%list_elem_of_omap.
    destruct (Upstream_new u) as [[t' up']|] eqn:Hu'; [|done]. simplify_eq. by apply Hnew in Hu' as (-> & _).
Qed.
End upstreams.

(** A connection is used only over TLS with HTTP/2 agreed on, and a failure names the layer that failed. *)
Lemma doh_connect_layers answers :
  (∀ sender, doh_connect answers = Ok sender ↔
     ca_tcp answers = Ok tt ∧ ca_nodelay answers = Ok tt ∧ ca_tls answers = Ok (Some (lit "h2")) ∧ ca_handshake answers = Ok sender) ∧
  (∀ e, doh_connect answers = Err e →
     (∃ m, e = Connect m ∧ (ca_tcp answers = Err m ∨ ca_nodelay answers = Err m)) ∨
     (∃ m, e = Tls m ∧ ca_tls answers ≠ Ok (Some (lit "h2"))) ∨ ∃ m, e = Http m ∧ ca_handshake answers = Err m).
Proof.
  unfold doh_connect. destruct answers as [[[]|e1] [[]|e2] [alpn|e3] [sender|e4]]; simpl; try case_bool_decide; simpl;
    split; intros; subst; naive_solver.
Qed.

(** ** An instance *)

Definition dns_name_byte (b : Z) : bool := is_ascii_alphanumeric b || bool_decide (b ∈ lit "-_.").
Definition example_server_name (name : bytes) : result bytes bytes :=
  if bool_decide (is_Some (IpAddr_parse name)) || (negb (bool_decide (name = [])) && forallb dns_name_byte name)
  then Ok name else Err (lit "invalid dns name").
#[refine] Definition example_server_names : ServerNames := {| server_name_from := example_server_name |}.
Proof.
  - unfold example_server_name. intros name s. by case_match; intros [= <-].
  - unfold example_server_name. intros name s. case_bool_decide; [by left|]. simpl. destruct (forallb dns_name_byte name) eqn:Hf; [|by rewrite andb_false_r].
    intros _. right. apply Is_true_true, forallb_True in Hf. eapply Forall_impl; [exact Hf|]. intros b Hb. simpl in Hb.
    apply Is_true_true, orb_true_iff in Hb as [?|Hb]; [by left|]. right. by apply bool_decide_eq_true in Hb.
Defined.
(** The default configuration is used as a whole; a path without its slash or a name with a space is not. *)
Example default_upstreams_used :
  ((λ t, dt_addr t.1) <$> @with_tls_config example_http example_server_names (doh_upstreams Config_default)) =
  ((λ u, (doh_ip u, doh_port u)) <$> doh_upstreams Config_default).
Proof. vm_compute. reflexivity. Qed.
Example odd_upstreams :
  let u name port path := {| doh_ip := V4 [192; 0; 2; 1]; doh_port := port; doh_tls_name := lit name; doh_path := lit path |} in
  (λ t, @uri_to_string example_http (@dt_uri example_http t.1)) <$> @with_tls_config example_http example_server_names
    [u "a b" 443 "/q"; u "dns.example" 8443 "/q"; u "dns.example" 443 "q"; u "2001:db8::1" 443 "/q"; u "192.0.2.1" 444 "/"]%string =
  lit <$> ["https://dns.example:8443/q"; "https://[2001:db8::1]/q"; "https://192.0.2.1:444/"]%string.
Proof. vm_compute. reflexivity. Qed.

(** * Configurations *)

Class Rustls := {
  TrustAnchor : Type;
  (** [webpki_roots::TLS_SERVER_ROOTS] *)
  TLS_SERVER_ROOTS : list TrustAnchor;
  (** [RootCertStore::add], of a certificate *)
  trust_anchor : bytes → result TrustAnchor bytes;
  (** The protocol a server with the protocols [ours] agrees on with a client that offers [theirs];
      an error is the alert [no_application_protocol]. *)
  server_alpn (ours theirs : list bytes) : result (option bytes) unit;
  (** "If empty we don't do ALPN at all", and so when the client has no ALPN. *)
  server_alpn_none ours theirs : ours = [] ∨ theirs = [] → server_alpn ours theirs = Ok None;
  (** "Protocol names we support, most preferred first." *)
  server_alpn_first ours theirs : ours ≠ [] → theirs ≠ [] →
    server_alpn ours theirs = match filter (.∈ theirs) ours with p :: _ => Ok (Some p) | [] => Err tt end
}.

Section tls.
Context `{Rustls}.

(** ** Clients *)

Record ClientConfig := {
  cc_roots : list TrustAnchor;
  (** whether the configuration has certificates of its own to show *)
  cc_has_certs : bool;
  cc_alpn_protocols : list bytes
}.
Definition set_client_alpn (alpn : list bytes) (config : ClientConfig) : ClientConfig :=
  {| cc_roots := cc_roots config; cc_has_certs := cc_has_certs config; cc_alpn_protocols := alpn |}.

Definition webpki_root_store : list TrustAnchor := TLS_SERVER_ROOTS.
Definition client_config (alpn : list bytes) : ClientConfig :=
  set_client_alpn alpn {| cc_roots := webpki_root_store; cc_has_certs := false; cc_alpn_protocols := [] |}.

Definition ALPN_H2 : bytes := lit "h2".
Definition ALPN_HTTP1 : bytes := lit "http/1.1".
Definition HTTP_ALPN : list bytes := [ALPN_H2; ALPN_HTTP1].

(** [upstream_tls] of [ServeOptions::default] *)
Definition default_upstream_tls : ClientConfig := client_config HTTP_ALPN.
(** The configuration of [Pool::new], of the dial of a WebSocket, and of each [connect_tls] *)
Definition pool_tls (tls : ClientConfig) : ClientConfig := set_client_alpn HTTP_ALPN tls.
Definition websocket_tls (tls : ClientConfig) : ClientConfig := set_client_alpn [ALPN_HTTP1] tls.
Definition watched_tls (config : ClientConfig) : ClientConfig :=
  {| cc_roots := cc_roots config; cc_has_certs := false; cc_alpn_protocols := cc_alpn_protocols config |}.

(** [DohResolver]: the configuration of its connections and its upstreams *)
Definition DohResolver_new `{HttpCrate, ServerNames} (upstreams : list DohUpstream) : ClientConfig * list (DohTarget * Doh.Upstream) :=
  (client_config [ALPN_H2], with_tls_config upstreams).
Fixpoint add_roots (store : list TrustAnchor) (roots : list bytes) : result (list TrustAnchor) DohError :=
  match roots with
  | [] => Ok store
  | root :: roots =>
      match trust_anchor root with
      | Ok anchor => add_roots (store ++ [anchor]) roots
      | Err e => Err (DohConfig e)
      end
  end.
Definition with_extra_roots `{HttpCrate, ServerNames} (upstreams : list DohUpstream) (roots : list bytes)
    : result (ClientConfig * list (DohTarget * Doh.Upstream)) DohError :=
  match add_roots webpki_root_store roots with
  | Err e => Err e
  | Ok store =>
      let config := {| cc_roots := store; cc_has_certs := false; cc_alpn_protocols := [] |} in
      Ok (set_client_alpn [ALPN_H2] config, with_tls_config upstreams)
  end.
(** [Engine::resolver]; [show_error] is the [Display] of [DohError]. *)
Definition Engine_resolver `{HttpCrate, ServerNames} (show_error : DohError → bytes) (upstreams : list DohUpstream) (doh_roots : list bytes)
    : result (ClientConfig * list (DohTarget * Doh.Upstream)) TollgateError :=
  match doh_roots with
  | [] => Ok (DohResolver_new upstreams)
  | _ =>
      match with_extra_roots upstreams doh_roots with
      | Ok resolver => Ok resolver
      | Err e => Err (ConfigError (Text (show_error e)))
      end
  end.

(** ** The server side *)

Section server.
Context `{Issuing}.

(** [FixedCert] *)
Definition FixedCert_resolve (self : CertifiedKey) (hello : ClientHelloInfo) : option CertifiedKey := Some self.
(** [sessions] is the session cache all connections share. *)
Record ServerConfig {Sessions : Type} := {
  sc_cert_resolver : ClientHelloInfo → option CertifiedKey;
  sc_alpn_protocols : list bytes;
  sc_session_storage : Sessions
}.
Definition server_config {Sessions} (sessions : Sessions) (leaf : CertifiedKey) (alpn : list bytes) : ServerConfig :=
  {| sc_cert_resolver := FixedCert_resolve leaf; sc_alpn_protocols := alpn; sc_session_storage := sessions |}.
End server.

(** ** Lemmas *)

Lemma add_roots_Ok store roots store' : add_roots store roots = Ok store' ↔
  ∃ anchors, store' = store ++ anchors ∧ Forall2 (λ root anchor, trust_anchor root = Ok anchor) roots anchors.
Proof.
  revert store. induction roots as [|root roots IH]; intros store; simpl.
  - split; [intros [= <-]; exists []; by rewrite app_nil_r|]. intros (anchors & -> & ->%Forall2_nil_inv_l). by rewrite app_nil_r.
  - destruct (trust_anchor root) as [anchor|e] eqn:Hr.
    + rewrite IH. split.
      * intros (anchors & -> & Ha). exists (anchor :: anchors). rewrite <-app_assoc. split; [done|by constructor].
      * intros (anchors & -> & Ha). inversion_clear Ha as [|? a ? l Hx Hl]. rewrite Hr in Hx. injection Hx as <-.
        exists l. by rewrite <-app_assoc.
    + split; [done|]. intros (anchors & -> & Ha). inversion_clear Ha as [|? a ? l Hx Hl]. congruence.
Qed.

(** With a client that offers HTTP, or no ALPN, the proxy's protocols lead to one of them or none. *)
Lemma http_alpn_agrees hello : offers_http hello = true →
  ∃ chosen, server_alpn HTTP_ALPN (alpn hello) = Ok chosen ∧ (∀ p, chosen = Some p → p ∈ HTTP_ALPN ∧ p ∈ alpn hello).
Proof.
  unfold offers_http. intros Ho. destruct (decide (alpn hello = [])) as [Ha|Ha].
  { exists None. by rewrite server_alpn_none by (by right). }
  rewrite server_alpn_first by done.
  destruct (filter (.∈ alpn hello) HTTP_ALPN) as [|p l] eqn:Hf.
  - exfalso. apply orb_true_iff in Ho as [Hn|(p & Hin & Hp)%existsb_exists].
    + by apply Nat.eqb_eq, nil_length_inv in Hn.
    + assert (p ∈ filter (.∈ alpn hello) HTTP_ALPN) as Hel; [|by rewrite Hf in Hel; apply elem_of_nil in Hel].
      apply list_elem_of_filter. split; [by apply list_elem_of_In|].
      apply orb_true_iff in Hp as [->%bool_decide_eq_true| ->%bool_decide_eq_true]; [left|right; left].
  - exists (Some p). split; [done|]. intros ? [= <-].
    assert (p ∈ filter (.∈ alpn hello) HTTP_ALPN) as [? ?]%list_elem_of_filter by (rewrite Hf; left). done.
Qed.
End tls.

(** * Theorems *)

Section props.
Context `{Rustls, HttpCrate, AdblockCrate, Issuing, Lru, Acceptor}.

Lemma plan_hello_sinks s hello host port now wall waits wait attempt s' blocked :
  plan_hello s hello host port now wall waits wait attempt = Some (s', PlanSink blocked) → bc_http blocked = offers_http hello.
Proof.
  assert (∀ s1 name, (plan_intercept s1 hello name host port now wall wait attempt).2 ≠ PlanSink blocked) as Hno.
  { intros s1 name. unfold plan_intercept. repeat case_match; done. }
  unfold plan_hello. destruct (negb _); [|intros [= Hp]; by destruct (Hno s (default host (server_name hello))); rewrite Hp].
  destruct (domain_blocked_by _ _ _) as [ctx [by_|]].
  - unfold blocked_plan. destruct (blocked_slot _ _ _ _ _) as [[s1 [|]]|]; [|done|done].
    unfold Blocked_new. destruct (state_leaf _ _ _ _) as [s2 [leaf|e]]; [|done]. by intros [= _ <-].
  - destruct (classify _ _ _); [|done]. intros [= Hp]. by destruct (Hno (with_ctx s ctx) (default host (server_name hello))); rewrite Hp.
Qed.

(** No client that the proxy serves is turned away over the protocol. When the first bytes lead to
    interception, the handshake agrees on one of the client's own protocols that the proxy serves,
    or on none where the client offers none; when they lead to a blocked connection, likewise if
    the client may speak HTTP, and ALPN is left out of the handshake otherwise. In both, the
    certificate shown is the leaf that was issued for the name, whatever the client asks for. *)
Theorem served_handshakes_agree (s s' : ProxyState) (hello : ClientHelloInfo) (host : bytes) (port now wall : Z)
    (waits : list SlotWait) (wait : SlotWait) (attempt : nat) (p : Plan) (Sessions : Type) (sessions : Sessions) :
  plan_hello s hello host port now wall waits wait attempt = Some (s', p) →
  match p with
  | PlanIntercept origin leaf =>
      let config := server_config sessions leaf HTTP_ALPN in
      (∀ hello', sc_cert_resolver config hello' = Some leaf) ∧
      ∃ chosen, server_alpn (sc_alpn_protocols config) (alpn hello) = Ok chosen ∧
        ∀ protocol, chosen = Some protocol → protocol ∈ HTTP_ALPN ∧ protocol ∈ alpn hello
  | PlanSink blocked =>
      let config := server_config sessions (bc_leaf blocked) (if bc_http blocked then HTTP_ALPN else []) in
      (∀ hello', sc_cert_resolver config hello' = Some (bc_leaf blocked)) ∧
      ∃ chosen, server_alpn (sc_alpn_protocols config) (alpn hello) = Ok chosen ∧
        ∀ protocol, chosen = Some protocol → protocol ∈ HTTP_ALPN ∧ protocol ∈ alpn hello
  | PlanClose | PlanTunnel _ => True
  end.
Proof.
  intros Hp. destruct p as [|why|origin leaf|blocked]; [done|done| |]; cbv zeta; (split; [done|]).
  - apply plan_hello_intercepts in Hp as (_ & Ho & _). by apply http_alpn_agrees.
  - rewrite (plan_hello_sinks _ _ _ _ _ _ _ _ _ _ _ Hp).
    cbn [sc_alpn_protocols server_config]. destruct (offers_http hello) eqn:Ho; [by apply http_alpn_agrees|].
    exists None. by rewrite server_alpn_none by (by left).
Qed.

(** Whom the program trusts. Every connection to an upstream, whether of the pool or for a WebSocket,
    is verified against the webpki roots and shows no certificate of its own; the resolver trusts
    the same roots and besides them exactly the certificates it is configured with, each of which
    must be one, and it offers HTTP/2 only. *)
Theorem webpki_roots_trusted `{ServerNames} (show_error : DohError → bytes) (upstreams : list DohUpstream) (doh_roots : list bytes) :
  (∀ config, config = pool_tls default_upstream_tls ∨ config = websocket_tls default_upstream_tls →
     cc_roots (watched_tls config) = TLS_SERVER_ROOTS ∧ cc_has_certs (watched_tls config) = false ∧
     cc_alpn_protocols (watched_tls config) = cc_alpn_protocols config) ∧
  (∀ config targets, Engine_resolver show_error upstreams doh_roots = Ok (config, targets) ↔
     ∃ anchors, Forall2 (λ root anchor, trust_anchor root = Ok anchor) doh_roots anchors ∧
       config = {| cc_roots := TLS_SERVER_ROOTS ++ anchors; cc_has_certs := false; cc_alpn_protocols := [ALPN_H2] |} ∧
       targets = with_tls_config upstreams).
Proof.
  split; [by intros config [->| ->]|]. intros config targets. unfold Engine_resolver.
  pose proof (add_roots_Ok webpki_root_store doh_roots) as Hadd. destruct doh_roots as [|root roots].
  - unfold DohResolver_new, client_config, set_client_alpn, webpki_root_store. simpl. split.
    + intros [= <- <-]. exists []. by rewrite app_nil_r.
    + intros (anchors & ->%Forall2_nil_inv_l & -> & ->). by rewrite app_nil_r.
  - unfold with_extra_roots. destruct (add_roots webpki_root_store (root :: roots)) as [store|e].
    + destruct (proj1 (Hadd store) eq_refl) as (anchors & -> & Ha). split.
      * intros [= <- <-]. by exists anchors.
      * intros (anchors' & Ha' & -> & ->). assert (anchors' = anchors) as ->; [|done].
        assert (Ok (webpki_root_store ++ anchors) = @Ok _ DohError (webpki_root_store ++ anchors')) as [= He] by (apply Hadd; eauto).
        by apply app_inv_head in He.
    + split; [done|]. intros (anchors & Ha & _). assert (@Err _ DohError e = Ok (webpki_root_store ++ anchors)) as [=] by (apply Hadd; eauto).
Qed.
End props.

(** ** A run *)

Definition example_alpn (ours theirs : list bytes) : result (option bytes) unit :=
  match ours, theirs with
  | [], _ | _, [] => Ok None
  | _, _ => match filter (.∈ theirs) ours with p :: _ => Ok (Some p) | [] => Err tt end
  end.
#[refine] Definition example_rustls : Rustls :=
  {| TrustAnchor := bytes; TLS_SERVER_ROOTS := [lit "a root"];
     trust_anchor der := match der with [] => Err (lit "bad encoding") | _ => Ok der end; server_alpn := example_alpn |}.
Proof.
  - intros ours theirs [->| ->]; [done|]. by destruct ours.
  - intros [|p ours] [|q theirs] Ho Ht; done.
Defined.

(** A browser that prefers HTTP/1.1 still gets HTTP/2; a client of another protocol would be turned
    away by the configuration of the requests. *)
Definition browser_hello : ClientHelloInfo := {| server_name := Some (lit "site.example"); alpn := [ALPN_HTTP1; ALPN_H2] |}.
Example browser_alpn : example_alpn HTTP_ALPN (alpn browser_hello) = Ok (Some ALPN_H2).
Proof. reflexivity. Qed.
Example other_alpn : example_alpn HTTP_ALPN [lit "smtp"] = Err tt ∧ example_alpn [] [lit "smtp"] = Ok None.
Proof. split; reflexivity. Qed.

Lemma browser_plan : ∃ s origin leaf,
  plan_hello (example_state (example_context None [])) browser_hello (lit "site.example") 443 0 5 [] no_wait 0
  = Some (s, PlanIntercept origin leaf).
Proof.
  eexists _, _, _. unfold plan_hello. cbn [server_name browser_hello from_option id].
  replace (eq_ignore_ascii_case (lit "site.example") (lit "site.example")) with true by (vm_compute; reflexivity).
  cbn. reflexivity.
Qed.
Lemma served_handshakes_agree_witness : ∃ chosen, example_alpn HTTP_ALPN (alpn browser_hello) = Ok chosen.
Proof.
  destruct browser_plan as (s & origin & leaf & Hp).
  destruct (@served_handshakes_agree example_rustls example_adblock example_issuing list_lru
    _ _ _ _ _ _ _ _ _ _ _ nat 0%nat Hp) as (_ & chosen & Hc & _).
  exists chosen. exact Hc.
Defined.
