(* ===== verification/PinsStore.v ===== *)
(** * The learned pins on disk ([tollgate-ffi/src/engine.rs], [controls.rs])

    The engine saves the pins from several threads: a periodic check on the runtime, [stop] and
    [forget_pins] on the caller's. They run here one shared access at a time, with the writer's
    calls to the file system one by one; what the policy learns may come in between. The lock is
    [saved]'s. Each policy the engine had is kept, the newest first, so that the file's contents
    have an age; [wr_file] and the ages in the savers only observe. *)
From S2P Require Import Prelude RustStr Collections Io HostPattern Policy PolicyFacts PolicyTrace PolicyProps Engine RootCa.

Definition LEARNED_PINS_FILE : bytes := lit "learned-pins.json".

Section store.
Context `{PinsJson, HashOrder}.

(** [read_pins]; [fails] is an error other than that the file is missing. *)
Definition read_pins (fs : gmap bytes bytes) (dir : bytes) (fails : option ErrorKind) : option bytes :=
  match fails with
  | Some _ => None
  | None => fs !! path_in dir LEARNED_PINS_FILE
  end.

(** ** Saving *)

(** A call of [PinsFile::save]: waiting for the lock, holding it, with its snapshot to be written,
    with the states of the file system its writes will go through, or done. [since] is the age of
    the policy the call began with, [at_] the one its snapshot is of. *)
Inductive Saver :=
| SaveWaits (always : bool) (since : nat)
| SaveLocked (always : bool) (since : nat)
| SaveWrites (since at_ : nat) (json : bytes)
| SaveOnDisk (since at_ : nat) (json : bytes) (states : list (gmap bytes bytes)) (res : bool)
| SaveDone (since at_ : nat) (saved : bool).

Record Writer := {
  wr_fs : gmap bytes bytes;
  wr_history : list Learning;
  wr_saved : bytes;
  wr_lock : option nat;
  wr_savers : list Saver;
  wr_file : option nat
}.
(** The pins of a given age. *)
Definition aged (history : list Learning) (age : nat) : option Learning := reverse history !! age.
Definition policy_now (self : Writer) : Learning := default Learning_default (head (wr_history self)).
Definition age_now (self : Writer) : nat := pred (length (wr_history self)).

(** [PinsFile::new]: what the file holds is not compared. *)
Definition PinsFile_new (fs : gmap bytes bytes) (l : Learning) : Writer :=
  {| wr_fs := fs; wr_history := [l]; wr_saved := learned_pins_json l; wr_lock := None; wr_savers := []; wr_file := None |}.
(** [PinsFile::changed]: false while the lock is taken. *)
Definition PinsFile_changed (self : Writer) : bool :=
  match wr_lock self with
  | Some _ => false
  | None => negb (bool_decide (wr_saved self = learned_pins_json (policy_now self)))
  end.

Inductive PinsEvent :=
| PinsLearn (l : Learning)
| PinsTick
| PinsCall
| PinsMove (i : nat) (pid : bytes) (unique : Z) (wiped : bool) (answers : WriteAnswers).

Definition set_saver (self : Writer) (i : nat) (s : Saver) (lock : option nat) : Writer :=
  {| wr_fs := wr_fs self; wr_history := wr_history self; wr_saved := wr_saved self; wr_lock := lock;
     wr_savers := <[i := s]> (wr_savers self); wr_file := wr_file self |}.

(** One move of a call of [save]. *)
Definition save_move (dir : bytes) (self : Writer) (i : nat) (pid : bytes) (unique : Z) (wiped : bool) (answers : WriteAnswers)
    : option Writer :=
  match wr_savers self !! i with
  | Some (SaveWaits always since) =>
      match wr_lock self with
      | Some _ => None
      | None => Some (set_saver self i (SaveLocked always since) (Some i))
      end
  | Some (SaveLocked always since) =>
      let json := learned_pins_json (policy_now self) in
      if always || negb (bool_decide (json = wr_saved self)) then Some (set_saver self i (SaveWrites since (age_now self) json) (wr_lock self))
      else Some (set_saver self i (SaveDone since (age_now self) false) None)
  | Some (SaveWrites since at_ json) =>
      let '(states, res) := write_private (wr_fs self) dir LEARNED_PINS_FILE json pid unique wiped answers in
      Some (set_saver self i (SaveOnDisk since at_ json (reverse states) (is_ok res)) (wr_lock self))
  | Some (SaveOnDisk since at_ json (fs :: states) res) =>
      Some {| wr_fs := fs; wr_history := wr_history self; wr_saved := wr_saved self; wr_lock := wr_lock self;
              wr_savers := <[i := SaveOnDisk since at_ json states res]> (wr_savers self);
              wr_file := match states, res with [], true => Some at_ | _, _ => wr_file self end |}
  | Some (SaveOnDisk since at_ json [] res) =>
      Some {| wr_fs := wr_fs self; wr_history := wr_history self; wr_saved := if res then json else wr_saved self; wr_lock := None;
              wr_savers := <[i := SaveDone since at_ res]> (wr_savers self); wr_file := wr_file self |}
  | Some (SaveDone _ _ _) | None => None
  end.
(** What can happen: the policy learns or forgets; the periodic check finds the pins changed and
    starts a save; [stop] or [forget_pins] calls [save(true)]; a running save moves. *)
Definition pins_step (dir : bytes) (self : Writer) (e : PinsEvent) : option Writer :=
  let start always :=
    {| wr_fs := wr_fs self; wr_history := wr_history self; wr_saved := wr_saved self; wr_lock := wr_lock self;
       wr_savers := wr_savers self ++ [SaveWaits always (age_now self)]; wr_file := wr_file self |} in
  match e with
  | PinsLearn l =>
      Some {| wr_fs := wr_fs self; wr_history := l :: wr_history self; wr_saved := wr_saved self; wr_lock := wr_lock self;
              wr_savers := wr_savers self; wr_file := wr_file self |}
  | PinsTick => if PinsFile_changed self then Some (start false) else Some self
  | PinsCall => Some (start true)
  | PinsMove i pid unique wiped answers => save_move dir self i pid unique wiped answers
  end.
Definition pins_reach (dir : bytes) : Writer → Writer → Prop := rtc (λ w w', ∃ e, pins_step dir w e = Some w').
Fixpoint pins_run (dir : bytes) (self : Writer) (es : list PinsEvent) : option Writer :=
  match es with
  | [] => Some self
  | e :: es' => self ← pins_step dir self e; pins_run dir self es'
  end.

(** ** While the tunnel is off ([controls.rs]) *)

(** [count]: a [usize] as a [u32]. *)
Definition count_u32 (n : nat) : Z := if Z.of_nat n <=? U32_MAX then Z.of_nat n else U32_MAX.
Definition validate_host_pattern (pattern : bytes) : result unit TollgateError :=
  match HostPattern_parse pattern with Ok _ => Ok () | Err e => Err (ConfigError (OfPolicy e)) end.
(** [stored_policy]; [fails] is an error other than that the file is missing. *)
Definition stored_policy (fs : gmap bytes bytes) (dir : bytes) (fails : option ErrorKind) : result (option Policy) TollgateError :=
  match fails with
  | Some e => Err (IoError e)
  | None =>
      match fs !! path_in dir LEARNED_PINS_FILE with
      | None => Ok None
      | Some json =>
          match Policy_new Config_default (Some json) with
          | Ok policy => Ok (Some policy)
          | Err e => Err (InternalError (OfPolicy e))
          end
      end
  end.
Definition stored_learned_pins (fs : gmap bytes bytes) (dir : bytes) (fails : option ErrorKind)
    : result (list (bytes * Z)) TollgateError :=
  match stored_policy fs dir fails with
  | Err e => Err e
  | Ok policy => Ok (from_option (λ p, learned_pins (learning p)) [] policy)
  end.
(** [forget_stored_pins], with the states of the file system. *)
Definition forget_stored_pins (fs : gmap bytes bytes) (dir : bytes) (hosts : list bytes) (fails : option ErrorKind)
    (pid : bytes) (unique : Z) (wiped : bool) (answers : WriteAnswers) : list (gmap bytes bytes) * result Z TollgateError :=
  match stored_policy fs dir fails with
  | Err e => ([fs], Err e)
  | Ok None => ([fs], Ok 0)
  | Ok (Some policy) =>
      let '(l, removed) := forget_pins (learning policy) hosts in
      if (0 <? removed)%nat then
        match write_private fs dir LEARNED_PINS_FILE (learned_pins_json l) pid unique wiped answers with
        | (states, Err e) => (states ++ [fs], Err e)
        | (states, Ok _) => (states ++ [fs], Ok (count_u32 removed))
        end
      else ([fs], Ok (count_u32 removed))
  end.

(** ** Facts *)

Definition pins_path (dir : bytes) : bytes := path_in dir LEARNED_PINS_FILE.

(** A write leaves the file alone until its last state, which holds it only if it succeeded. *)
Lemma write_private_file fs dir json pid unique wiped answers states res :
  write_private fs dir LEARNED_PINS_FILE json pid unique wiped answers = (states, res) →
  ∃ earlier last, states = last :: earlier ∧ Forall (λ st : gmap bytes bytes, st !! pins_path dir = fs !! pins_path dir) earlier ∧
    last !! pins_path dir = if is_ok res then Some json else fs !! pins_path dir.
Proof.
  unfold write_private. set (tmp := temp_name dir LEARNED_PINS_FILE pid unique). set (fs1 := if wiped then delete tmp fs else fs).
  assert (tmp ≠ pins_path dir) as Hne by (by apply temp_name_hidden).
  assert (fs1 !! pins_path dir = fs !! pins_path dir) as H1 by (unfold fs1; destruct wiped; [by rewrite lookup_delete_ne|done]).
  assert (∀ fs' : gmap bytes bytes, fs' !! pins_path dir = fs !! pins_path dir →
    (if wa_remove answers then delete tmp fs' else fs') !! pins_path dir = fs !! pins_path dir) as Hrm.
  { intros fs' <-. destruct (wa_remove answers); [by rewrite lookup_delete_ne|done]. }
  assert (∀ v, (<[tmp := v]> fs1 : gmap bytes bytes) !! pins_path dir = fs !! pins_path dir) as Hw by (intros v; by rewrite lookup_insert_ne).
  assert (∀ v v', (<[tmp := v]> (<[tmp := v']> fs1) : gmap bytes bytes) !! pins_path dir = fs !! pins_path dir) as Hww
    by (intros v v'; by rewrite !lookup_insert_ne).
  unfold write_temp. repeat case_match; intros; simplify_eq; cbn [is_ok];
    (eexists _, _; split; [reflexivity|]; split; [by repeat constructor|]); try (by apply Hrm); try (by rewrite lookup_insert_eq); by apply Hrm, Hww.
Qed.

Lemma aged_cons l history a l' : aged history a = Some l' → aged (l :: history) a = Some l'.
Proof. unfold aged. intros Ha. rewrite reverse_cons, lookup_app_l; [done|]. by eapply lookup_lt_Some. Qed.
Lemma aged_now self : wr_history self ≠ [] → aged (wr_history self) (age_now self) = Some (policy_now self).
Proof.
  unfold aged, age_now, policy_now. destruct (wr_history self) as [|l history]; [done|]. intros _.
  cbn [length pred head default]. rewrite reverse_cons, lookup_app_r; rewrite length_reverse; [|done]. by rewrite Nat.sub_diag.
Qed.

Definition holding (s : Saver) : bool :=
  match s with SaveLocked _ _ | SaveWrites _ _ _ | SaveOnDisk _ _ _ _ _ => true | _ => false end.
(** What is known of a save in each phase. *)
Definition snapshot_ok (self : Writer) (since at_ : nat) (json : bytes) : Prop :=
  (since ≤ at_)%nat ∧ (∃ l, aged (wr_history self) at_ = Some l ∧ json = learned_pins_json l) ∧
  (∀ a, wr_file self = Some a → (a ≤ at_)%nat).
Definition saver_ok (dir : bytes) (self : Writer) (s : Saver) : Prop :=
  match s with
  | SaveWaits _ since | SaveLocked _ since => (since ≤ age_now self)%nat
  | SaveWrites since at_ json => snapshot_ok self since at_ json
  | SaveOnDisk since at_ json states res =>
      snapshot_ok self since at_ json ∧
      (if res then (∃ earlier last, states = earlier ++ [last] ∧ last !! pins_path dir = Some json ∧
                      Forall (λ st : gmap bytes bytes, st !! pins_path dir = wr_fs self !! pins_path dir) earlier) ∨
                   (states = [] ∧ wr_fs self !! pins_path dir = Some json ∧ wr_file self = Some at_)
       else Forall (λ st : gmap bytes bytes, st !! pins_path dir = wr_fs self !! pins_path dir) states)
  | SaveDone since at_ saved => saved = true → ∃ a, wr_file self = Some a ∧ (since ≤ a)%nat
  end.
Record pins_inv (dir : bytes) (fs0 : gmap bytes bytes) (self : Writer) : Prop := {
  pv_history : wr_history self ≠ [];
  pv_lock i s : wr_savers self !! i = Some s → holding s = true ↔ wr_lock self = Some i;
  pv_holder i : wr_lock self = Some i → (i < length (wr_savers self))%nat;
  pv_savers i s : wr_savers self !! i = Some s → saver_ok dir self s;
  pv_file a : wr_file self = Some a → ∃ l, aged (wr_history self) a = Some l ∧ wr_fs self !! pins_path dir = Some (learned_pins_json l);
  pv_none : wr_file self = None → wr_fs self !! pins_path dir = fs0 !! pins_path dir;
  pv_age a : wr_file self = Some a → (a ≤ age_now self)%nat;
  pv_saved a : wr_file self = Some a → wr_fs self !! pins_path dir = Some (wr_saved self) ∨
    ∃ i since at_, wr_savers self !! i = Some (SaveOnDisk since at_ (default [] (wr_fs self !! pins_path dir)) [] true)
}.

(** The file only gets newer. *)
Definition newer (self self' : Writer) : Prop :=
  ∀ a, wr_file self = Some a → ∃ a', wr_file self' = Some a' ∧ (a ≤ a')%nat.
Lemma idle_saver_ok dir self self' s : holding s = false → (age_now self ≤ age_now self')%nat → newer self self' →
  saver_ok dir self s → saver_ok dir self' s.
Proof.
  intros Hs Ha Hn. destruct s; try done; cbn; [lia|]. intros Hd Hsaved. destruct (Hd Hsaved) as (a & Hf & Hle).
  destruct (Hn a Hf) as (a' & Hf' & Hle'). exists a'. split; [done|lia].
Qed.
(** Only one save holds the lock. *)
Lemma others_idle dir fs0 self i j s : pins_inv dir fs0 self → wr_lock self = Some i ∨ wr_lock self = None →
  wr_savers self !! j = Some s → j ≠ i → holding s = false.
Proof.
  intros Hi Hl Hs Hne. destruct (holding s) eqn:Hh; [|done]. apply (pv_lock _ _ _ Hi _ _ Hs) in Hh. destruct Hl; congruence.
Qed.
(** A move of the save [i] that keeps the policy. *)
Lemma move_inv dir fs0 self self' i s s' : pins_inv dir fs0 self → wr_savers self !! i = Some s →
  wr_lock self = Some i ∨ wr_lock self = None →
  wr_savers self' = <[i := s']> (wr_savers self) → wr_history self' = wr_history self →
  wr_lock self' = (if holding s' then Some i else None) → newer self self' → saver_ok dir self' s' →
  (∀ a, wr_file self' = Some a → ∃ l, aged (wr_history self') a = Some l ∧ wr_fs self' !! pins_path dir = Some (learned_pins_json l)) →
  (wr_file self' = None → wr_fs self' !! pins_path dir = fs0 !! pins_path dir) →
  (∀ a, wr_file self' = Some a → (a ≤ age_now self')%nat) →
  (∀ a, wr_file self' = Some a → wr_fs self' !! pins_path dir = Some (wr_saved self') ∨
    ∃ since at_, s' = SaveOnDisk since at_ (default [] (wr_fs self' !! pins_path dir)) [] true) →
  pins_inv dir fs0 self'.
Proof.
  intros Hi Hs Hl Es Eh El Hn Hok Hf Hno Ha Hsv.
  assert (i < length (wr_savers self))%nat as Hlt by (by eapply lookup_lt_Some).
  assert (age_now self' = age_now self) as Hage by (unfold age_now; by rewrite Eh).
  split; try done.
  - rewrite Eh. apply Hi.
  - intros j t. rewrite Es. destruct (decide (j = i)) as [->|Hne].
    + rewrite list_lookup_insert_eq by done. intros [= <-]. rewrite El. by destruct (holding s').
    + rewrite list_lookup_insert_ne by done. intros Ht. rewrite (others_idle _ _ _ _ _ _ Hi Hl Ht Hne), El.
      split; [done|]. destruct (holding s'); [|done]. intros [= <-]. done.
  - intros j. rewrite El, Es, length_insert. destruct (holding s'); [|done]. by intros [= <-].
  - intros j t. rewrite Es. destruct (decide (j = i)) as [->|Hne].
    + rewrite list_lookup_insert_eq by done. by intros [= <-].
    + rewrite list_lookup_insert_ne by done. intros Ht.
      eapply (idle_saver_ok dir self); [by eapply others_idle|by rewrite Hage|exact Hn|by apply (pv_savers _ _ _ Hi j)].
  - intros a Hfa. destruct (Hsv a Hfa) as [|(since & at_ & Hs')]; [by left|right]. exists i, since, at_.
    rewrite Es, list_lookup_insert_eq by done. by rewrite Hs'.
Qed.
(** While a save is not about to finish, [saved] is what the file holds. *)
Lemma saved_is_held dir fs0 self i s a : pins_inv dir fs0 self → wr_savers self !! i = Some s →
  wr_lock self = Some i ∨ wr_lock self = None → (∀ since at_ json, s ≠ SaveOnDisk since at_ json [] true) →
  wr_file self = Some a → wr_fs self !! pins_path dir = Some (wr_saved self).
Proof.
  intros Hi Hs Hl Hne Hf. destruct (pv_saved _ _ _ Hi a Hf) as [|(j & since & at_ & Hj)]; [done|].
  assert (j = i) as ->; [|rewrite Hs in Hj; injection Hj as ->; by destruct (Hne since at_ (default [] (wr_fs self !! pins_path dir)))].
  destruct (decide (j = i)) as [|Hji]; [done|]. by pose proof (others_idle _ _ _ _ _ _ Hi Hl Hj Hji).
Qed.
Lemma newer_refl self self' : wr_file self' = wr_file self → newer self self'.
Proof. intros He a Ha. exists a. by rewrite He. Qed.

(** A state of the file system that a save writes takes its place; the last one of a save that
    succeeds holds what it wrote. *)
Lemma landing_inv dir fs0 self i pid unique wiped answers self' since at_ json fs states res : pins_inv dir fs0 self →
  wr_savers self !! i = Some (SaveOnDisk since at_ json (fs :: states) res) →
  save_move dir self i pid unique wiped answers = Some self' →
  pins_inv dir fs0 self' ∧ newer self self' ∧ wr_history self' = wr_history self.
Proof.
  intros Hi Hs. unfold save_move. rewrite Hs.
  pose proof (pv_savers _ _ _ Hi i _ Hs) as Hok. pose proof (pv_lock _ _ _ Hi i _ Hs) as Hlk.
  assert (wr_lock self = Some i ∨ wr_lock self = None) as Hfree by (left; by apply Hlk).
  intros [= <-]. destruct Hok as [Hsn Hres].
  assert (Hsv : ∀ a, wr_file self = Some a → wr_fs self !! pins_path dir = Some (wr_saved self)) by (intros a Hf; exact (saved_is_held dir fs0 self i _ a Hi Hs Hfree ltac:(done) Hf)).
  destruct Hsn as (Hle & (l & Hl & Hj) & Hnew).
  destruct res; [destruct states as [|st states]|].
  - destruct Hres as [(earlier & last & He & Hlast & _)|(He & _)]; [|done].
    destruct earlier as [|? [|??]]; simplify_eq/=. assert (newer self
      {| wr_fs := last; wr_history := wr_history self; wr_saved := wr_saved self; wr_lock := wr_lock self;
         wr_savers := <[i:=SaveOnDisk since at_ (learned_pins_json l) [] true]> (wr_savers self); wr_file := Some at_ |}) as Hn
      by (intros a Ha; exists at_; split; [done|by apply Hnew]).
    split; [|split; [exact Hn|done]].
    eapply move_inv; [exact Hi|exact Hs|exact Hfree|done|done|by apply Hlk|exact Hn|..]; cbn.
    + split; [split; [done|split; [eauto|by intros a [= <-]]]|]. right. done.
    + intros a [= <-]. eauto.
    + done.
    + intros a [= <-]. apply lookup_lt_Some in Hl. rewrite length_reverse in Hl. unfold age_now. cbn. lia.
    + intros a [= <-]. right. exists since, at_. rewrite Hlast. done.
  - destruct Hres as [(earlier & last & He & Hlast & Hall)|(He & _)]; [|done].
    destruct earlier as [|st' earlier]; [by destruct states|]. injection He as <- He. apply Forall_cons in Hall as [Hfs Hall].
    split; [|split; [by apply newer_refl|done]].
    eapply move_inv; [exact Hi|exact Hs|exact Hfree|done|done|by apply Hlk|by apply newer_refl|..]; cbn.
    + split; [split; [done|split; [eauto|done]]|]. left. exists earlier, last. split; [done|]. split; [done|].
      rewrite Hfs. done.
    + intros a Hf. rewrite Hfs. by apply (pv_file _ _ _ Hi).
    + intros Hf. rewrite Hfs. by apply (pv_none _ _ _ Hi).
    + apply Hi.
    + intros a Hf. left. rewrite Hfs. by eapply Hsv.
  - apply Forall_cons in Hres as [Hfs Hall].
    assert (match states with [] => wr_file self | _ => wr_file self end = wr_file self) as Hfile by (by destruct states).
    rewrite Hfile. split; [|split; [by apply newer_refl|done]].
    eapply move_inv; [exact Hi|exact Hs|exact Hfree|done|done|by apply Hlk|by apply newer_refl|..]; cbn.
    + split; [split; [done|split; [eauto|done]]|]. rewrite Hfs. done.
    + intros a Hf. rewrite Hfs. by apply (pv_file _ _ _ Hi).
    + intros Hf. rewrite Hfs. by apply (pv_none _ _ _ Hi).
    + apply Hi.
    + intros a Hf. left. rewrite Hfs. by eapply Hsv.
Qed.

Lemma save_move_inv dir fs0 self i pid unique wiped answers self' : pins_inv dir fs0 self →
  save_move dir self i pid unique wiped answers = Some self' →
  pins_inv dir fs0 self' ∧ newer self self' ∧ wr_history self' = wr_history self.
Proof.
  intros Hi Hm. destruct (wr_savers self !! i) as [s|] eqn:Hs; [|by unfold save_move in Hm; rewrite Hs in Hm].
  pose proof Hm as Hland. revert Hm. unfold save_move. rewrite Hs.
  pose proof (pv_savers _ _ _ Hi i s Hs) as Hok. pose proof (pv_lock _ _ _ Hi i s Hs) as Hlk.
  assert (Hfree : holding s = true → wr_lock self = Some i ∨ wr_lock self = None) by (left; by apply Hlk).
  destruct s as [always since|always since|since at_ json|since at_ json [|fs states] res|]; [| | | | |done].
  - destruct (wr_lock self) eqn:Hl; [done|]. intros [= <-]. split; [|split; [by apply newer_refl|done]].
    eapply move_inv; [exact Hi|exact Hs|by right|done..|by apply newer_refl|exact Hok|apply Hi|apply Hi|apply Hi|].
    intros a Hf. left. exact (saved_is_held dir fs0 self i _ a Hi Hs (or_intror Hl) ltac:(done) Hf).
  - specialize (Hfree eq_refl). assert (∀ a, wr_file self = Some a → wr_fs self !! pins_path dir = Some (wr_saved self)) as Hsv
      by (intros a Hf; exact (saved_is_held dir fs0 self i _ a Hi Hs Hfree ltac:(done) Hf)).
    destruct (always || _); intros [= <-]; (split; [|split; [by apply newer_refl|done]]);
      (eapply move_inv; [exact Hi|exact Hs|exact Hfree|done|done|first [by apply Hlk|done]|by apply newer_refl| |apply Hi|apply Hi|apply Hi|]);
      try (intros a Hf; left; by eapply Hsv); cbn; [|by intros ?].
    split; [exact Hok|]. split; [exists (policy_now self); split; [apply (aged_now self), Hi|done]|]. apply Hi.
  - specialize (Hfree eq_refl). destruct (write_private _ _ _ _ _ _ _ _) as [states res] eqn:Hw. intros [= <-].
    split; [|split; [by apply newer_refl|done]].
    eapply move_inv; [exact Hi|exact Hs|exact Hfree|done| | |by apply newer_refl| |apply Hi|apply Hi|apply Hi|]; [done|by apply Hlk| |].
    + cbn. split; [exact Hok|]. apply write_private_file in Hw as (earlier & last & -> & Hall & Hlast). rewrite reverse_cons.
      destruct res as [u|e]; cbn [is_ok] in *.
      * left. exists (reverse earlier), last. split; [done|]. split; [done|]. by apply Forall_reverse.
      * apply Forall_app. split; [by apply Forall_reverse|]. by apply Forall_singleton.
    + intros a Hf. left. exact (saved_is_held dir fs0 self i _ a Hi Hs Hfree ltac:(done) Hf).
  - specialize (Hfree eq_refl). intros [= <-]. split; [|split; [by apply newer_refl|done]]. destruct Hok as [Hsn Hres].
    eapply move_inv; [exact Hi|exact Hs|exact Hfree|done..|by apply newer_refl| |apply Hi|apply Hi|apply Hi|]; cbn.
    + intros ->. destruct Hres as [(earlier & last & He & _)|(_ & _ & Hf)]; [by destruct earlier|]. exists at_. split; [done|exact (proj1 Hsn)].
    + intros a Hf. left. destruct res; [|exact (saved_is_held dir fs0 self i _ a Hi Hs Hfree ltac:(done) Hf)].
      destruct Hres as [(earlier & last & He & _)|(_ & -> & _)]; [by destruct earlier|done].
  - intros _. by eapply landing_inv.
Qed.

(** A save begins. *)
Lemma start_inv dir fs0 self always : pins_inv dir fs0 self →
  pins_inv dir fs0 {| wr_fs := wr_fs self; wr_history := wr_history self; wr_saved := wr_saved self; wr_lock := wr_lock self;
    wr_savers := wr_savers self ++ [SaveWaits always (age_now self)]; wr_file := wr_file self |}.
Proof.
  intros Hi. assert (∀ i s, (wr_savers self ++ [SaveWaits always (age_now self)]) !! i = Some s →
    wr_savers self !! i = Some s ∨ (i = length (wr_savers self) ∧ s = SaveWaits always (age_now self))) as Hcase.
  { intros i s [Hs|[Hge Hs]]%lookup_app_Some; [by left|right]. apply list_lookup_singleton_Some in Hs as [He <-]. split; [lia|done]. }
  split; cbn; try apply Hi.
  - intros i s [Hs|[-> ->]]%Hcase; [by apply (pv_lock _ _ _ Hi)|]. cbn. split; [done|]. intros Hl%(pv_holder _ _ _ Hi). lia.
  - intros i Hl%(pv_holder _ _ _ Hi). rewrite length_app. cbn. lia.
  - intros i s [Hs|[-> ->]]%Hcase; [by apply (pv_savers _ _ _ Hi i)|]. cbn. done.
  - intros a Hf. destruct (pv_saved _ _ _ Hi a Hf) as [|(j & since & at_ & Hj)]; [by left|right]. exists j, since, at_.
    by apply lookup_app_l_Some.
Qed.
(** The policy learns or forgets. *)
Lemma learn_inv dir fs0 self l : pins_inv dir fs0 self →
  pins_inv dir fs0 {| wr_fs := wr_fs self; wr_history := l :: wr_history self; wr_saved := wr_saved self; wr_lock := wr_lock self;
    wr_savers := wr_savers self; wr_file := wr_file self |}.
Proof.
  intros Hi. split; cbn; try apply Hi; [done| | |].
  - intros i s Hs%(pv_savers _ _ _ Hi). assert (∀ since at_ json, snapshot_ok self since at_ json →
      snapshot_ok {| wr_fs := wr_fs self; wr_history := l :: wr_history self; wr_saved := wr_saved self; wr_lock := wr_lock self;
        wr_savers := wr_savers self; wr_file := wr_file self |} since at_ json) as Hsn.
    { intros since at_ json (Hle & (l' & Hl & Hj) & Hf). split; [done|]. split; [|done]. exists l'. split; [by apply aged_cons|done]. }
    destruct s; cbn in Hs |- *; try (unfold age_now in *; cbn; lia); [by apply Hsn| |done]. destruct Hs as [Hs1 Hs2]. by split; [apply Hsn|].
  - intros a Hf. destruct (pv_file _ _ _ Hi a Hf) as (l' & Hl & Hfs). exists l'. split; [by apply aged_cons|done].
  - intros a Hf%(pv_age _ _ _ Hi). unfold age_now in *. cbn. lia.
Qed.
Lemma PinsFile_new_inv dir fs l : pins_inv dir fs (PinsFile_new fs l).
Proof. by split; cbn. Qed.

Lemma pins_step_inv dir fs0 self e self' : pins_inv dir fs0 self → pins_step dir self e = Some self' →
  pins_inv dir fs0 self' ∧ newer self self'.
Proof.
  intros Hi. destruct e as [l| | |i pid unique wiped answers]; cbn.
  - intros [= <-]. split; [by apply learn_inv|by apply newer_refl].
  - destruct (PinsFile_changed self); intros [= <-]; (split; [|by apply newer_refl]); [by apply start_inv|done].
  - intros [= <-]. split; [by apply start_inv|by apply newer_refl].
  - intros Hm. by destruct (save_move_inv _ _ _ _ _ _ _ _ _ Hi Hm) as (? & ? & _).
Qed.
Lemma pins_reach_inv dir fs0 self self' : pins_inv dir fs0 self → pins_reach dir self self' →
  pins_inv dir fs0 self' ∧ newer self self'.
Proof.
  intros Hi Hr. induction Hr as [self|self self1 self2 [e He] _ IH]; [split; [done|by apply newer_refl]|].
  destruct (pins_step_inv _ _ _ _ _ Hi He) as [Hi1 Hn1]. destruct (IH Hi1) as [Hi2 Hn2]. split; [done|].
  intros a Ha. destruct (Hn1 a Ha) as (a1 & Ha1 & Hle1). destruct (Hn2 a1 Ha1) as (a2 & Ha2 & Hle2). exists a2. split; [done|lia].
Qed.
(** Before the first save that succeeds, what counts as saved is what the engine was made with. *)
Lemma pins_step_unsaved dir fs0 self e self' json : pins_inv dir fs0 self → pins_step dir self e = Some self' →
  (wr_file self = None → wr_saved self = json) → wr_file self' = None → wr_saved self' = json.
Proof.
  intros Hi Hs Hj. destruct e as [l| | |i pid unique wiped answers]; cbn in Hs.
  - by injection Hs as <-.
  - by destruct (PinsFile_changed self); injection Hs as <-.
  - by injection Hs as <-.
  - unfold save_move in Hs. destruct (wr_savers self !! i) as [s|] eqn:Hsv; [|done].
    pose proof (pv_savers _ _ _ Hi _ _ Hsv) as Hok.
    destruct s as [always since|always since|since at_ text|since at_ text states res|since at_ saved]; [..|done].
    + destruct (wr_lock self); [done|]. by injection Hs as <-.
    + destruct (always || _); by injection Hs as <-.
    + destruct (write_private _ _ _ _ _ _ _ _). by injection Hs as <-.
    + destruct states as [|fs states].
      * injection Hs as <-. cbn. destruct res; [|done]. intros Hf.
        destruct Hok as [_ [(earlier & last & Happ & _)|(_ & _ & Hfile)]]; [by destruct earlier|congruence].
      * injection Hs as <-. cbn. by destruct states, res.
Qed.
Lemma pins_reach_unsaved dir fs l self : pins_reach dir (PinsFile_new fs l) self →
  wr_file self = None → wr_saved self = learned_pins_json l.
Proof.
  revert self. apply (rtc_ind_r (λ self, wr_file self = None → wr_saved self = learned_pins_json l)); [done|].
  intros self self' Hr [e He] IH. eapply pins_step_unsaved; [|exact He|exact IH].
  by eapply pins_reach_inv; [apply PinsFile_new_inv|].
Qed.
Lemma pins_run_reach dir es : ∀ self self', pins_run dir self es = Some self' → pins_reach dir self self'.
Proof.
  induction es as [|e es IH]; intros self self'; cbn; [intros [= <-]; apply rtc_refl|].
  destruct (pins_step dir self e) as [self1|] eqn:He; [|done]. cbn. intros Hr. eapply rtc_l; [by eexists|]. by apply IH.
Qed.

(** C16: The pins file never goes back to older pins. However saves overlap and however the policy
    changes while they run: the file holds the pins the policy had at one moment, whole, or is as
    it was when the engine was created; from then on it only ever holds newer ones; a save that
    succeeded left pins there at least as new as when it was called; and while no save is running,
    the periodic check finds nothing to save only if the file holds the current pins, or no save has
    succeeded yet, so that the file is as it was, and the pins are written as those the engine was
    created with. *)
Theorem pins_file_never_older (dir : bytes) (fs : gmap bytes bytes) (l : Learning) (w w' : Writer) :
  pins_reach dir (PinsFile_new fs l) w → pins_reach dir w w' →
  (∀ a, wr_file w' = Some a → ∃ l', aged (wr_history w') a = Some l' ∧ wr_fs w' !! pins_path dir = Some (learned_pins_json l')) ∧
  (wr_file w' = None → wr_fs w' !! pins_path dir = fs !! pins_path dir) ∧
  (∀ a, wr_file w = Some a → ∃ a', wr_file w' = Some a' ∧ (a ≤ a')%nat) ∧
  (∀ i since at_, wr_savers w' !! i = Some (SaveDone since at_ true) → ∃ a, wr_file w' = Some a ∧ (since ≤ a)%nat) ∧
  (wr_lock w' = None → PinsFile_changed w' = false →
     match wr_file w' with
     | Some _ => wr_fs w' !! pins_path dir = Some (learned_pins_json (policy_now w'))
     | None => wr_fs w' !! pins_path dir = fs !! pins_path dir ∧ learned_pins_json (policy_now w') = learned_pins_json l
     end).
Proof.
  intros Hw Hw'. destruct (pins_reach_inv _ _ _ _ (PinsFile_new_inv dir fs l) Hw) as [Hi _].
  destruct (pins_reach_inv _ _ _ _ Hi Hw') as [Hi' Hn]. split; [apply Hi'|]. split; [apply Hi'|]. split; [exact Hn|]. split.
  - intros i since at_ Hs. exact (pv_savers _ _ _ Hi' i _ Hs eq_refl).
  - intros Hl Hc. unfold PinsFile_changed in Hc. rewrite Hl in Hc. apply negb_false_iff, bool_decide_eq_true in Hc.
    rewrite <- Hc. destruct (wr_file w') as [a|] eqn:Hf.
    2: { split; [by apply (pv_none _ _ _ Hi')|]. eapply pins_reach_unsaved; [|exact Hf]. by etrans. } destruct (pv_saved _ _ _ Hi' a Hf) as [|(j & since & at_ & Hj)]; [done|].
    pose proof (proj1 (pv_lock _ _ _ Hi' _ _ Hj) eq_refl) as Hh. congruence.
Qed.

(** The hosts read from a pins file are not empty. *)
Lemma collect_map_elem (es : list (bytes * Z)) : ∀ (m : gmap bytes Z) (key : bytes) (t : Z), foldl (λ m e, <[e.1 := e.2]> m) m es !! key = Some t →
  m !! key = Some t ∨ (key, t) ∈ es.
Proof.
  induction es as [|e es IH]; intros m key t; cbn [foldl]; [by left|]. intros [Hm|Hin]%IH; [|right; by apply list_elem_of_further].
  destruct (decide (key = e.1)) as [->|Hne]; [|left; by rewrite lookup_insert_ne in Hm].
  rewrite lookup_insert_eq in Hm. injection Hm as <-. right. destruct e. apply list_elem_of_here.
Qed.
Lemma parse_pins_range json key t : parse_pins json !! key = Some t → key ≠ [] ∧ 0 <= t <= U64_MAX.
Proof.
  unfold parse_pins. destruct (pins_from_json json) as [file|] eqn:Hf; [|by rewrite lookup_empty]. apply pins_json_ok in Hf as [_ Hf].
  destruct (_ =? _); [|by rewrite lookup_empty]. intros [Hm|Hin]%collect_map_elem; [by rewrite lookup_empty in Hm|].
  apply list_elem_of_filter in Hin as [Hk (e & He & Hin)%list_elem_of_fmap]. split; [done|].
  injection He as -> ->. rewrite Forall_forall in Hf. by apply Hf.
Qed.
Lemma stored_policy_pins fs dir fails policy : stored_policy fs dir fails = Ok (Some policy) →
  ∃ json, fs !! pins_path dir = Some json ∧ learning policy = set_pins (parse_pins json) Learning_default.
Proof.
  unfold stored_policy. destruct fails; [done|]. fold (pins_path dir). destruct (fs !! pins_path dir) as [json|]; [|done].
  cbn. intros [= <-]. by exists json.
Qed.

(** Forgetting stored pins removes exactly the pins named. Nothing is written when the file is
    missing, cannot be read or holds none of them; at every moment the file is the old one or the
    new one, whole; and after a success, the count says how many pins are gone and reading the file
    gives the other pins, each with its time (under the hypothesis that stored hosts are their own
    lookup keys). *)
Theorem forget_stored_pins_exact (fs : gmap bytes bytes) (dir : bytes) (hosts : list bytes) (fails : option ErrorKind)
    (pid : bytes) (unique : Z) (wiped : bool) (answers : WriteAnswers) (states : list (gmap bytes bytes)) (res : result Z TollgateError) :
  forget_stored_pins fs dir hosts fails pid unique wiped answers = (states, res) →
  match stored_policy fs dir fails with
  | Err e => states = [fs] ∧ res = Err e
  | Ok None => states = [fs] ∧ res = Ok 0
  | Ok (Some policy) =>
      let old := pins (learning policy) in
      let kept := filter (λ kv : bytes * Z, kv.1 ∉ lookup_key <$> hosts) old in
      (kept = old → states = [fs] ∧ res = Ok 0) ∧
      (∃ text, Forall (λ st : gmap bytes bytes, st !! pins_path dir = fs !! pins_path dir ∨ st !! pins_path dir = Some text) states) ∧
      (∀ n, res = Ok n → n = count_u32 (size old - size kept) ∧
         ((∀ key t, old !! key = Some t → lookup_key key = key) →
          ∃ last policy', head states = Some last ∧ stored_policy last dir None = Ok (Some policy') ∧ pins (learning policy') = kept))
  end.
Proof.
  unfold forget_stored_pins. destruct (stored_policy fs dir fails) as [[policy|]|e] eqn:Hp; [|by intros [= <- <-]..].
  cbv zeta. set (kept := filter _ _). destruct (stored_policy_pins _ _ _ _ Hp) as (json & Hfs & Hl).
  pose proof (forget_pins_acc hosts (learning policy) 0) as Hacc. cbv zeta in Hacc. fold (forget_pins (learning policy) hosts) in Hacc.
  destruct (forget_pins (learning policy) hosts) as [l removed]. cbn [fst snd] in Hacc. destruct Hacc as [Hkept Hsize].
  fold kept in Hkept. rewrite Hkept in Hsize. assert (removed = size (pins (learning policy)) - size kept)%nat as Hr by lia.
  destruct (Nat.ltb_spec 0 removed) as [Hlt|Hge].
  - destruct (write_private _ _ _ _ _ _ _ _) as [sts r] eqn:Hw. apply write_private_file in Hw as (earlier & last & -> & Hall & Hlast).
    intros Heq. assert (kept = pins (learning policy) → False) as Hsame by (intros He; rewrite He in Hr; lia).
    assert (states = (last :: earlier) ++ [fs] ∧ res = match r with Ok _ => Ok (count_u32 removed) | Err e => Err e end) as [-> ->]
      by (by destruct r; injection Heq as <- <-).
    split; [by intros ?%Hsame|]. split.
    + exists (learned_pins_json l). cbn. apply Forall_cons. split; [destruct r; rewrite Hlast; [by right|by left]|].
      apply Forall_app. split; [|by repeat constructor; left]. eapply Forall_impl; [exact Hall|]. by left.
    + intros n Hn. destruct r as [u|e]; [|done]. injection Hn as <-. split; [by rewrite Hr|]. intros Hstable.
      eexists last, _. split; [done|]. unfold stored_policy. fold (pins_path dir). rewrite Hlast. cbn [is_ok]. split; [reflexivity|].
      cbn. rewrite learned_pins_read; [done|]. rewrite Hkept. unfold kept. intros key t [Hk _]%map_lookup_filter_Some.
      pose proof (Hstable key t Hk). rewrite Hl in Hk. apply parse_pins_range in Hk. tauto.
  - intros [= <- <-]. assert (removed = 0%nat) as Hz by lia. rewrite Hz in *. split; [done|].
    split; [exists []; repeat constructor; by left|].
    intros n [= <-]. split; [by rewrite <- Hr|]. intros _. exists fs, policy. split; [done|].
    assert (kept = pins (learning policy)) as ->.
    { apply map_subseteq_size_eq; [by apply map_filter_subseteq|]. lia. }
    split; [|done]. unfold stored_policy in Hp. by destruct fails.
Qed.
End store.

(** ** Two saves overlap

    The periodic save takes its snapshot; then a pin is forgotten and [stop] saves. *)
Definition example_store : Writer := @PinsFile_new countable_json trie_order ∅ Learning_default.
Definition example_move (i : nat) : PinsEvent := PinsMove i (lit "7") (Z.of_nat i) true no_failures.
Definition example_runs (w : Writer) (es : list PinsEvent) : Writer :=
  default w (@pins_run countable_json trie_order (lit "d") w es).
Definition example_events : list PinsEvent :=
  [PinsLearn alert_learned; PinsTick; example_move 0; example_move 0; PinsLearn Learning_default; PinsCall] ++ replicate 6 (example_move 0).
Definition example_periodic : Writer := example_runs example_store example_events.
Definition example_stopped : Writer := example_runs example_periodic (replicate 8 (example_move 1)).

Lemma pins_file_never_older_witness :
  wr_fs example_periodic !! pins_path (lit "d") = Some (@learned_pins_json countable_json trie_order alert_learned) ∧
  wr_fs example_stopped !! pins_path (lit "d") = Some (@learned_pins_json countable_json trie_order Learning_default) ∧
  ∃ a, wr_file example_stopped = Some a ∧ (2 ≤ a)%nat.
Proof.
  assert (@pins_reach countable_json trie_order (lit "d") example_store example_periodic) as Hr
    by (eapply (@pins_run_reach countable_json trie_order (lit "d") example_events); vm_compute; reflexivity).
  assert (@pins_reach countable_json trie_order (lit "d") example_periodic example_stopped) as Hr'
    by (eapply (@pins_run_reach countable_json trie_order (lit "d") (replicate 8 (example_move 1))); vm_compute; reflexivity).
  destruct (@pins_file_never_older countable_json trie_order (lit "d") ∅ Learning_default _ _ Hr (rtc_refl _ _)) as (Hfile & _).
  destruct (@pins_file_never_older countable_json trie_order (lit "d") ∅ Learning_default _ _ Hr Hr') as (Hfile' & _ & _ & Hdone & _).
  split; [|split].
  - destruct (Hfile 1%nat) as (l & Hl & Hfs); [vm_compute; reflexivity|]. rewrite Hfs. f_equal. f_equal.
    assert (aged (wr_history example_periodic) 1 = Some alert_learned) as Ha by (vm_compute; reflexivity). congruence.
  - destruct (Hfile' 2%nat) as (l & Hl & Hfs); [vm_compute; reflexivity|]. rewrite Hfs. f_equal. f_equal.
    assert (aged (wr_history example_stopped) 2 = Some Learning_default) as Ha by (vm_compute; reflexivity). congruence.
  - apply (Hdone 1%nat 2%nat 2%nat). vm_compute. reflexivity.
Defined.

(** One of two stored pins is forgotten. *)
Definition example_pins : Learning := set_pins {[lit "a.com" := 1; lit "b.com" := 2]} Learning_default.
Definition example_dir : gmap bytes bytes :=
  {[pins_path (lit "d") := @learned_pins_json countable_json trie_order example_pins]}.
Lemma forget_stored_pins_exact_witness :
  let '(states, res) := @forget_stored_pins countable_json trie_order example_dir (lit "d") [lit "B.com"] None (lit "7") 0 true no_failures in
  res = Ok 1 ∧ ∃ last policy, head states = Some last ∧ @stored_policy countable_json last (lit "d") None = Ok (Some policy) ∧
    pins (learning policy) = {[lit "a.com" := 1]}.
Proof.
  destruct (@forget_stored_pins countable_json trie_order example_dir (lit "d") [lit "B.com"] None (lit "7") 0 true no_failures) as [states res] eqn:Hf.
  assert (res = Ok 1) as Hres.
  { change res with (states, res).2. rewrite <- Hf. vm_compute. reflexivity. }
  split; [done|]. pose proof (@forget_stored_pins_exact countable_json trie_order _ _ _ _ _ _ _ _ _ _ Hf) as Ht.
  assert (∃ policy, @stored_policy countable_json example_dir (lit "d") None = Ok (Some policy) ∧
    pins (learning policy) = {[lit "a.com" := 1; lit "b.com" := 2]}) as (policy & Hp & Hpins) by (eexists; split; vm_compute; reflexivity).
  rewrite Hp in Ht. cbv zeta in Ht. rewrite Hpins in Ht. destruct Ht as (_ & _ & Hn). destruct (Hn 1 Hres) as [_ Hlast].
  destruct Hlast as (last & policy' & Hh & Hs & Hk).
  { intros key t [[<- _]|[_ [<- _]%lookup_singleton_Some]]%lookup_insert_Some; vm_compute; reflexivity. }
  exists last, policy'. split; [done|]. split; [done|]. rewrite Hk. vm_compute. reflexivity.
Defined.
