(* ===== verification/Assembly.v ===== *)
(** * Putting the engine together ([tollgate-ffi/src/engine.rs], [policy/src/config.rs])

    [Engine::with_options] builds the DNS responder and the proxy from the configuration and the
    files of the data directory; [reload_lists] swaps the lists. The counters and the blocked log
    are shared by both, so they are kept once and each side's operations run on a view of its own
    state with them ([dns_view], [proxy_view]). A reload stores in three places one after the
    other, and calls on other threads may come in between. *)
From S2P Require Import Prelude RustStr Collections Net ConfigJson Io HostPattern Policy PolicyProps Common DomainRules DomainSet Engine Wire LocalName Answer DnsCache Packet Handler HandlerFacts DnsExamples Http Filtering Ca RootCa PinsStore.

Section assembly.
Context `{SerdeJson, PinsJson, HashOrder, HttpCrate, AdblockCrate, Hickory, Lru, Etherparse, RootCrate}.
(** Opening a file: its contents, or why not; [fails] is an error other than that it is missing. *)
Definition open_file (fs : gmap bytes bytes) (path : bytes) (fails : option ErrorKind) : result bytes ErrorKind :=
  match fails with
  | Some e => Err e
  | None => match fs !! path with Some contents => Ok contents | None => Err NotFound end
  end.
(** [DomainSet::load] *)
Definition DomainSet_load (file : result bytes ErrorKind) : result DomainSet FilterError :=
  match file with
  | Err e => Err (FilterIo e)
  | Ok contents =>
      if (length contents <? HEADER_LEN_V1)%nat then Err (FilterDomainSet TooShort)
      else match DomainSet_new contents with Ok set => Ok set | Err e => Err (FilterDomainSet e) end
  end.
Definition load_filter (fs : gmap bytes bytes) (dir : bytes) (fails : option ErrorKind) : result (option FilterEngine) TollgateError :=
  match FilterEngine_load (open_file fs (path_in dir ENGINE_FILE) fails) with
  | Ok engine => Ok (Some engine)
  | Err (FilterIo NotFound) => Ok None
  | Err e => Err (ListsError e)
  end.
Definition load_domains (fs : gmap bytes bytes) (dir : bytes) (fails : option ErrorKind) : result (option DomainSet) TollgateError :=
  match DomainSet_load (open_file fs (path_in dir DOMAINS_FILE) fails) with
  | Ok set => Ok (Some set)
  | Err (FilterIo NotFound) => Ok None
  | Err e => Err (ListsError e)
  end.

(** What the file system answers while the engine is made. *)
Record FileAnswers := {
  fa_engine : option ErrorKind; fa_domains : option ErrorKind;
  fa_cert : option ErrorKind; fa_key : option ErrorKind; fa_pins : option ErrorKind
}.

(** A call of [reload_lists] that loaded both lists: what it has to store yet. *)
Inductive Reload :=
| StoreFilter (filter : option FilterEngine) (domains : option (nat * DomainSet))
| StoreProxy (domains : option (nat * DomainSet))
| StoreDns (domains : option (nat * DomainSet))
| Reloaded.

(** The engine. [as_dns] and [as_proxy] carry counters and logs of their own that are never read:
    the shared ones are [as_stats] and [as_events]. [as_lists] counts the lists loaded, which is
    a list's identity. *)
Record Assembly := {
  as_config : Config;
  as_mitm_active : bool;
  as_stats : Stats;
  as_events : EventLog;
  as_dns : DnsHandler;
  as_proxy : ProxyContext;
  as_ca : CertAuthority;
  as_lists : nat;
  as_reloads : list Reload
}.
Definition or_none {A E} (r : result (option A) E) : option A := match r with Ok a => a | Err _ => None end.

(** [Engine::with_options]; [attempt] and [utc] are for the root that is never used. *)
Definition with_options (fs : gmap bytes bytes) (dir config_json : bytes) (answers : FileAnswers) (attempt : nat) (utc : Z)
    : result Assembly TollgateError :=
  match Config_from_json config_json with
  | Err e => Err (ConfigError (OfPolicy e))
  | Ok config =>
      let filter := or_none (load_filter fs dir (fa_engine answers)) in
      let domains := or_none (load_domains fs dir (fa_domains answers)) in
      let ca := or_none (load_ca fs dir (fa_cert answers) (fa_key answers)) in
      let mitm_active := config_mitm_enabled config && bool_decide (is_Some ca) && bool_decide (is_Some filter) in
      let policy_config :=
        {| doh_upstreams := doh_upstreams config; passthrough := passthrough config; config_allowlist := config_allowlist config;
           config_mitm_enabled := mitm_active; max_intercepted_connections := max_intercepted_connections config |} in
      match Policy_new policy_config (read_pins fs dir (fa_pins answers)) with
      | Err e => Err (ConfigError (OfPolicy e))
      | Ok policy =>
          match match ca with Some ca => Ok ca | None => CertAuthority_generate attempt (lit "Tollgate unused") utc end with
          | Err e => Err (CaError (Some e))
          | Ok ca =>
              match collect_results HostPattern_parse (config_allowlist config) with
              | Err e => Err (ConfigError (OfPolicy e))
              | Ok allowlist =>
                  Ok {| as_config := config; as_mitm_active := mitm_active; as_stats := Stats_default; as_events := [];
                        as_dns := set_events (set_allowlist (DnsHandler_new domains Stats_default) allowlist) (Some []);
                        as_proxy := {| ctx_policy := policy; ctx_filter := filter; ctx_domains := pair 0%nat <$> domains;
                                       ctx_stats := Stats_default; ctx_events := Some [] |};
                        as_ca := ca; as_lists := 1; as_reloads := [] |}
              end
          end
      end
  end.

(** The responder's state with the shared counters and log, and back. *)
Definition dns_view (self : Assembly) : DnsHandler :=
  let dns := as_dns self in
  {| dh_blocklist := dh_blocklist dns; dh_allowlist := dh_allowlist dns; dh_events := Some (as_events self);
     dh_cache := dh_cache dns; dh_local := dh_local dns; dh_stats := as_stats self |}.
Definition with_dns_view (self : Assembly) (dns : DnsHandler) : Assembly :=
  {| as_config := as_config self; as_mitm_active := as_mitm_active self; as_stats := dh_stats dns;
     as_events := default [] (dh_events dns); as_dns := dns; as_proxy := as_proxy self; as_ca := as_ca self;
     as_lists := as_lists self; as_reloads := as_reloads self |}.
Definition proxy_view (self : Assembly) : ProxyContext :=
  let ctx := as_proxy self in
  {| ctx_policy := ctx_policy ctx; ctx_filter := ctx_filter ctx; ctx_domains := ctx_domains ctx;
     ctx_stats := as_stats self; ctx_events := Some (as_events self) |}.
Definition with_proxy_view (self : Assembly) (ctx : ProxyContext) : Assembly :=
  {| as_config := as_config self; as_mitm_active := as_mitm_active self; as_stats := ctx_stats ctx;
     as_events := default [] (ctx_events ctx); as_dns := as_dns self; as_proxy := ctx; as_ca := as_ca self;
     as_lists := as_lists self; as_reloads := as_reloads self |}.
Definition with_reloads (self : Assembly) (lists : nat) (reloads : list Reload) : Assembly :=
  {| as_config := as_config self; as_mitm_active := as_mitm_active self; as_stats := as_stats self;
     as_events := as_events self; as_dns := as_dns self; as_proxy := as_proxy self; as_ca := as_ca self;
     as_lists := lists; as_reloads := reloads |}.

(** [reload_lists] up to its first store. *)
Definition reload_begin (self : Assembly) (fs : gmap bytes bytes) (dir : bytes) (engine_fails domains_fails : option ErrorKind)
    : Assembly * result unit TollgateError :=
  match load_filter fs dir engine_fails with
  | Err e => (self, Err e)
  | Ok filter =>
      match load_domains fs dir domains_fails with
      | Err e => (self, Err e)
      | Ok domains =>
          (with_reloads self (S (as_lists self)) (as_reloads self ++ [StoreFilter filter (pair (as_lists self) <$> domains)]), Ok ())
      end
  end.
(** Its stores, one by one. *)
Definition reload_store (self : Assembly) (i : nat) : option Assembly :=
  let moved r := with_reloads self (as_lists self) (<[i := r]> (as_reloads self)) in
  let ctx := proxy_view self in
  match as_reloads self !! i with
  | Some (StoreFilter filter domains) =>
      Some (with_proxy_view (moved (StoreProxy domains))
              {| ctx_policy := ctx_policy ctx; ctx_filter := filter; ctx_domains := ctx_domains ctx;
                 ctx_stats := ctx_stats ctx; ctx_events := ctx_events ctx |})
  | Some (StoreProxy domains) =>
      Some (with_proxy_view (moved (StoreDns domains))
              {| ctx_policy := ctx_policy ctx; ctx_filter := ctx_filter ctx; ctx_domains := domains;
                 ctx_stats := ctx_stats ctx; ctx_events := ctx_events ctx |})
  | Some (StoreDns domains) => Some (with_dns_view (moved Reloaded) (set_blocklist (dns_view self) (snd <$> domains)))
  | Some Reloaded | None => None
  end.

(** What happens to a running engine: a packet, a host the proxy asks about, what the policy
    learns, a change of network, the log emptied, a reload begun, a store of one. *)
Inductive EngineCall :=
| CallPacket (packet : bytes) (now wall : Z)
| CallHost (host : bytes) (wall : Z)
| CallLearn (l : Learning)
| CallNetwork (network : bytes)
| CallClear
| CallReload (fs : gmap bytes bytes) (dir : bytes) (engine_fails domains_fails : option ErrorKind)
| CallStore (i : nat).
Definition engine_call (self : Assembly) (call : EngineCall) : option Assembly :=
  match call with
  | CallPacket packet now wall => Some (with_dns_view self (handle_packet (dns_view self) packet now wall).2)
  | CallHost host wall => Some (with_proxy_view self (is_domain_blocked (proxy_view self) host wall).1)
  | CallLearn l => Some (with_proxy_view self (ctx_learn l (proxy_view self)))
  | CallNetwork network => Some (with_dns_view self (set_network (dns_view self) network))
  | CallClear => Some (with_dns_view self (set_events (dns_view self) (Some (EventLog_clear (as_events self)))))
  | CallReload fs dir engine_fails domains_fails => Some (reload_begin self fs dir engine_fails domains_fails).1
  | CallStore i => reload_store self i
  end.
(** No reload is under way. *)
Definition settled (self : Assembly) : bool :=
  forallb (λ r, match r with Reloaded => true | _ => false end) (as_reloads self).
(** Any calls and stores, in any order. *)
Definition engine_runs : Assembly → Assembly → Prop := rtc (λ self self', ∃ call, engine_call self call = Some self').
(** The same with reloads one after the other. The app's [reload_lists] may be called while another
    one runs; [overlapping_reloads_disagree] is what can happen then. *)
Definition one_reload (self : Assembly) (call : EngineCall) : bool :=
  match call with CallReload _ _ _ _ => settled self | _ => true end.
Definition engine_calls : Assembly → Assembly → Prop :=
  rtc (λ self self', ∃ call, one_reload self call = true ∧ engine_call self call = Some self').

(** ** Facts *)

(** What every call keeps: the allowlists, the switch, and that both sides have the same list,
    but between the last two stores of the one reload under way. *)
Record alike (patterns : list HostPattern) (self : Assembly) : Prop := {
  al_dns : dh_allowlist (as_dns self) = patterns;
  al_proxy : allowlist (ctx_policy (as_proxy self)) = PatternSet_new patterns;
  al_switch : mitm_enabled (ctx_policy (as_proxy self)) = as_mitm_active self;
  al_last i r : as_reloads self !! i = Some r → r ≠ Reloaded → S i = length (as_reloads self);
  al_lists : match last (as_reloads self) with
             | Some (StoreDns domains) => ctx_domains (as_proxy self) = domains
             | _ => dh_blocklist (as_dns self) = snd <$> ctx_domains (as_proxy self)
             end
}.
(** A call that touches neither lists nor reloads. *)
Lemma alike_frame patterns self self' : alike patterns self →
  as_reloads self' = as_reloads self → as_mitm_active self' = as_mitm_active self →
  dh_allowlist (as_dns self') = dh_allowlist (as_dns self) → dh_blocklist (as_dns self') = dh_blocklist (as_dns self) →
  allowlist (ctx_policy (as_proxy self')) = allowlist (ctx_policy (as_proxy self)) →
  mitm_enabled (ctx_policy (as_proxy self')) = mitm_enabled (ctx_policy (as_proxy self)) →
  ctx_domains (as_proxy self') = ctx_domains (as_proxy self) → alike patterns self'.
Proof. intros [H1' H2' H3' H4' H5'] E1 E2 E3 E4 E5 E6 E7. split; rewrite ?E1, ?E2, ?E3, ?E4, ?E5, ?E6, ?E7; assumption. Qed.

Lemma handle_packet_lists dns packet now wall :
  dh_allowlist (handle_packet dns packet now wall).2 = dh_allowlist dns ∧
  dh_blocklist (handle_packet dns packet now wall).2 = dh_blocklist dns.
Proof.
  unfold handle_packet, handle_query, handle_name, record_block.
  destruct (parse_udp packet); [|done]. destruct (_ || _); [done|]. destruct (is_response _) as [[]|]; [done| |done].
  destruct (from_vec _); [|done]. destruct (negb _); [done|]. destruct (question_end _); [|done].
  destruct (Requester_from_query _ _ _); [|done].
  destruct (msg_queries _); [done|]. destruct (_ || _); [done|]. destruct (is_local_name _).
  - destruct (question_key _ _); [|done]. destruct (AnswerCache_get _ _ _) as [[[? ?]|] ?]; done.
  - destruct (DnsHandler_is_blocked _ _); [by destruct (dh_events _)|]. destruct (question_key _ _); [|done].
    destruct (AnswerCache_get _ _ _) as [[[? ?]|] ?]; done.
Qed.
Lemma is_domain_blocked_keeps ctx host wall :
  ctx_policy (is_domain_blocked ctx host wall).1 = ctx_policy ctx ∧ ctx_domains (is_domain_blocked ctx host wall).1 = ctx_domains ctx.
Proof.
  unfold is_domain_blocked, domain_blocked_by. destruct (_ || _); [done|].
  destruct (ctx_domains ctx) as [[? ?]|] eqn:E; [|by cbn; rewrite E]. destruct (_ || _); cbn; by rewrite E.
Qed.

Lemma settled_reloaded self i r : settled self = true → as_reloads self !! i = Some r → r = Reloaded.
Proof.
  unfold settled. intros Hs Hi. apply forallb_forall with (x := r) in Hs; [by destruct r|].
  apply list_elem_of_In. by eapply list_elem_of_lookup_2.
Qed.
Lemma settled_last self : settled self = true → last (as_reloads self) = None ∨ last (as_reloads self) = Some Reloaded.
Proof.
  intros Hs. rewrite last_lookup. destruct (as_reloads self !! pred _) as [r|] eqn:Hr; [right|by left].
  by rewrite (settled_reloaded self _ r Hs Hr).
Qed.
(** In a settled engine both sides have the same list. *)
Lemma alike_lists patterns self : alike patterns self → settled self = true →
  dh_blocklist (as_dns self) = snd <$> ctx_domains (as_proxy self).
Proof. intros Ha Hs. pose proof (al_lists _ _ Ha) as Hl. by destruct (settled_last self Hs) as [Hn|Hn]; rewrite Hn in Hl. Qed.

Lemma reload_begin_alike patterns self fs dir engine_fails domains_fails : alike patterns self → settled self = true →
  alike patterns (reload_begin self fs dir engine_fails domains_fails).1.
Proof.
  intros Ha Hs. unfold reload_begin. destruct (load_filter _ _ _) as [filter|]; [|done]. destruct (load_domains _ _ _) as [domains|]; [|done].
  pose proof (alike_lists _ _ Ha Hs) as Hl. destruct Ha as [H1' H2' H3' _ _]. split; cbn; try done.
  - intros i r [Hi|[Hge Hi]]%lookup_app_Some Hne; [by destruct Hne; eapply settled_reloaded|].
    apply list_lookup_singleton_Some in Hi as [He _]. rewrite length_app. cbn. lia.
  - by rewrite last_snoc.
Qed.
Lemma reload_store_alike patterns self i self' : alike patterns self → reload_store self i = Some self' → alike patterns self'.
Proof.
  intros [H1' H2' H3' H4' H5'] Hst. unfold reload_store in Hst. destruct (as_reloads self !! i) as [r|] eqn:Hr; [|done].
  assert (r ≠ Reloaded → last (as_reloads self) = Some r) as Hlast.
  { intros Hne. rewrite last_lookup, <- (H4' i r Hr Hne). done. }
  assert (∀ r', r ≠ Reloaded → last (<[i := r']> (as_reloads self)) = Some r') as Hlast'.
  { intros r' Hne. rewrite last_lookup, length_insert, <- (H4' i r Hr Hne). cbn. apply list_lookup_insert_eq. by eapply lookup_lt_Some. }
  assert (∀ r' j q, r ≠ Reloaded → <[i := r']> (as_reloads self) !! j = Some q → q ≠ Reloaded → S j = length (<[i := r']> (as_reloads self))) as Hseq.
  { intros r' j q Hne Hj Hq. rewrite length_insert. destruct (decide (j = i)) as [->|Hji]; [by eapply H4'|].
    rewrite list_lookup_insert_ne in Hj by done. by eapply H4'. }
  destruct r as [filter domains|domains|domains|]; [| | |done]; injection Hst as <-;
    specialize (Hlast ltac:(done)); rewrite Hlast in H5'; split; cbn; try done;
    try (intros j q; apply Hseq; done); rewrite Hlast' by done; try done. by rewrite H5'.
Qed.
Lemma engine_call_alike patterns self call self' : alike patterns self → one_reload self call = true →
  engine_call self call = Some self' → alike patterns self' ∧ as_mitm_active self' = as_mitm_active self ∧ as_ca self' = as_ca self.
Proof.
  intros Ha Ho. destruct call as [packet now wall|host wall|l|network| |fs dir ef df|i]; cbn.
  - intros [= <-]. destruct (handle_packet_lists (dns_view self) packet now wall) as [Hal Hbl].
    split; [|done]. by eapply alike_frame.
  - intros [= <-]. destruct (is_domain_blocked_keeps (proxy_view self) host wall) as [Hp Hd].
    split; [|done]. eapply alike_frame; cbn; rewrite ?Hp, ?Hd; done.
  - intros [= <-]. split; [|done]. by eapply alike_frame.
  - intros [= <-]. split; [|done]. eapply alike_frame; try done; unfold set_network; by case_bool_decide.
  - intros [= <-]. split; [|done]. by eapply alike_frame.
  - intros [= <-]. split; [by apply reload_begin_alike|]. unfold reload_begin. by repeat case_match.
  - intros Hst. split; [by eapply reload_store_alike|]. unfold reload_store in Hst. by repeat case_match; simplify_eq/=.
Qed.
Lemma engine_calls_alike patterns self self' : alike patterns self → engine_calls self self' →
  alike patterns self' ∧ as_mitm_active self' = as_mitm_active self ∧ as_ca self' = as_ca self.
Proof.
  intros Ha Hc. induction Hc as [self|self self1 self2 (call & Ho & Hcall) _ IH]; [done|].
  destruct (engine_call_alike _ _ _ _ Ha Ho Hcall) as (Ha1 & Hm1 & Hc1). destruct (IH Ha1) as (Ha2 & Hm2 & Hc2).
  split; [done|]. by rewrite Hm2, Hc2.
Qed.

(** The switch and the root, whatever is called. *)
Lemma engine_call_switch self call self' : engine_call self call = Some self' →
  mitm_enabled (ctx_policy (as_proxy self')) = mitm_enabled (ctx_policy (as_proxy self)) ∧
  as_mitm_active self' = as_mitm_active self ∧ as_ca self' = as_ca self.
Proof.
  destruct call as [packet now wall|host wall|l|network| |fs dir ef df|i]; cbn.
  - by intros [= <-].
  - intros [= <-]. destruct (is_domain_blocked_keeps (proxy_view self) host wall) as [Hp _].
    cbn. by rewrite Hp.
  - by intros [= <-].
  - by intros [= <-].
  - by intros [= <-].
  - intros [= <-]. unfold reload_begin. by repeat case_match.
  - unfold reload_store. intros Hst. by repeat case_match; simplify_eq/=.
Qed.
Lemma engine_runs_switch self self' : engine_runs self self' →
  mitm_enabled (ctx_policy (as_proxy self')) = mitm_enabled (ctx_policy (as_proxy self)) ∧
  as_mitm_active self' = as_mitm_active self ∧ as_ca self' = as_ca self.
Proof.
  induction 1 as [self|self self1 self2 (call & Hcall) _ (IH1 & IH2 & IH3)]; [done|].
  destruct (engine_call_switch _ _ _ Hcall) as (-> & -> & ->) in IH1, IH2, IH3. done.
Qed.

(** The engine as it is made. *)
Lemma with_options_made fs dir config_json answers attempt utc self :
  with_options fs dir config_json answers attempt utc = Ok self →
  ∃ config patterns, Config_from_json config_json = Ok config ∧ as_config self = config ∧ settled self = true ∧
    collect_results HostPattern_parse (config_allowlist config) = Ok patterns ∧ alike patterns self ∧
    as_mitm_active self = config_mitm_enabled config && bool_decide (is_Some (or_none (load_ca fs dir (fa_cert answers) (fa_key answers))))
      && bool_decide (is_Some (or_none (load_filter fs dir (fa_engine answers)))) ∧
    (∀ ca, or_none (load_ca fs dir (fa_cert answers) (fa_key answers)) = Some ca → as_ca self = ca).
Proof.
  unfold with_options. destruct (Config_from_json config_json) as [config|]; [|done]. cbv zeta.
  set (ca := or_none (load_ca _ _ _ _)). set (active := _ && _ && _).
  destruct (Policy_new _ _) as [policy|] eqn:Hp; [|done]. destruct (match ca with Some _ => _ | None => _ end) as [ca'|] eqn:Hca; [|done].
  destruct (collect_results HostPattern_parse (config_allowlist config)) as [patterns|] eqn:Hps; [|done]. intros [= <-].
  unfold Policy_new in Hp. cbn [passthrough config_allowlist config_mitm_enabled] in Hp. unfold parse_patterns in Hp. rewrite Hps in Hp.
  destruct (collect_results HostPattern_parse (passthrough config)) as [user|]; [|done]. cbn in Hp. injection Hp as <-.
  exists config, patterns. split; [done|]. split; [done|]. split; [done|]. split; [done|]. split; [|split; [done|]].
  - split; cbn; try done. by destruct (or_none (load_domains fs dir (fa_domains answers))).
  - intros ca0 E. rewrite E in Hca. by injection Hca as <-.
Qed.

(** C7: HTTPS is intercepted only with a root and the lists. The engine's switch is on exactly when
    the configuration asks for interception and the data directory held, readable, a valid root and
    [engine.dat] when it was made; with the switch off, whatever happens later in whatever order (what
    is learned, which lists are reloaded, overlapping or not), every host is passed through; with it on, leaves are issued by the
    stored root. *)
Theorem interception_needs_root_and_lists (fs : gmap bytes bytes) (dir config_json : bytes) (answers : FileAnswers) (attempt : nat) (utc : Z)
    (self self' : Assembly) :
  with_options fs dir config_json answers attempt utc = Ok self → engine_runs self self' →
  (as_mitm_active self' = true ↔
     config_mitm_enabled (as_config self) = true ∧
     (∃ ca, load_ca fs dir (fa_cert answers) (fa_key answers) = Ok (Some ca)) ∧
     (∃ engine, load_filter fs dir (fa_engine answers) = Ok (Some engine))) ∧
  (as_mitm_active self' = false → ∀ host now, classify (ctx_policy (proxy_view self')) host now = Passthrough MitmDisabled) ∧
  (as_mitm_active self' = true → load_ca fs dir (fa_cert answers) (fa_key answers) = Ok (Some (as_ca self'))).
Proof.
  intros Hw Hc. destruct (with_options_made _ _ _ _ _ _ _ Hw) as (config & patterns & _ & Hcfg & _ & _ & Ha & Hactive & Hca).
  destruct (engine_runs_switch _ _ Hc) as (Hsw & Hm & Hca'). rewrite Hcfg, Hm.
  assert (∀ A E (r : result (option A) E), is_Some (or_none r) ↔ ∃ a, r = Ok (Some a)) as Hnone.
  { intros A E [[a|]|e]; cbn; split; try (intros [? ?]; done); eauto. }
  split; [|split].
  - rewrite Hactive, !andb_true_iff, !bool_decide_eq_true, !Hnone. tauto.
  - intros Hoff host now. unfold classify. cbn [proxy_view ctx_policy]. by rewrite Hsw, (al_switch _ _ Ha), Hoff.
  - rewrite Hactive, !andb_true_iff, !bool_decide_eq_true, !Hnone. intros [[_ [ca Hl]] _]. rewrite Hl.
    rewrite Hca', (Hca ca); [done|]. by rewrite Hl.
Qed.

(** C12: The DNS responder and the proxy keep blocking the same hosts. In every history of a
    running engine in which reloads do not overlap, while none is under way: for every host name (not
    an address or in brackets, at most one final dot) the proxy blocks the host exactly when the
    responder's list check does, with the same effect on the shared counters and log, and a query
    packet for the name that is not local and not of type HTTPS or SVCB is answered as the proxy
    decided; a reload that fails to load a list changes nothing; and one that
    succeeds ends with both sides on the loaded list, or on none if the file is missing. *)
Theorem lists_stay_alike (fs : gmap bytes bytes) (dir config_json : bytes) (answers : FileAnswers) (attempt : nat) (utc : Z)
    (self self' : Assembly) :
  with_options fs dir config_json answers attempt utc = Ok self → engine_calls self self' → settled self' = true →
  (∀ host wall, host_name host → blocks_alike (proxy_view self') (dns_view self') host wall) ∧
  (∀ fs' engine_fails domains_fails,
     match load_filter fs' dir engine_fails, load_domains fs' dir domains_fails with
     | Ok filter, Ok domains =>
         let i := length (as_reloads self') in
         let begun := (reload_begin self' fs' dir engine_fails domains_fails).1 in
         ∃ self'', (reload_store begun i ≫= λ s, reload_store s i ≫= λ s, reload_store s i) = Some self'' ∧ settled self'' = true ∧
           ctx_filter (proxy_view self'') = filter ∧ snd <$> ctx_domains (proxy_view self'') = domains ∧ dh_blocklist (dns_view self'') = domains
     | _, _ => (reload_begin self' fs' dir engine_fails domains_fails).1 = self'
     end).
Proof.
  intros Hw Hc Hs. destruct (with_options_made _ _ _ _ _ _ _ Hw) as (config & patterns & _ & _ & _ & Hps & Ha & _).
  destruct (engine_calls_alike _ _ _ Ha Hc) as (Ha' & _). pose proof (alike_lists _ _ Ha' Hs) as Hl. split.
  - intros host wall Hh. rewrite <-(al_dns _ _ Ha') in Hps. eapply same_lists_blocks_alike; [exact Hps| |exact Hl|done|done|done].
    cbn [proxy_view ctx_policy dns_view dh_allowlist]. rewrite (al_dns _ _ Ha'). apply (al_proxy _ _ Ha').
  - intros fs' engine_fails domains_fails. unfold reload_begin. destruct (load_filter _ _ _) as [filter|]; [|done].
    destruct (load_domains _ _ _) as [domains|]; [|done]. cbv zeta. cbn [fst].
    unfold reload_store. cbn. rewrite (lookup_app_r _ _ (length (as_reloads self'))), Nat.sub_diag by done. cbn.
    rewrite !list_lookup_insert_eq by (rewrite ?length_insert, length_app; cbn; lia). cbn.
    rewrite !list_lookup_insert_eq by (rewrite ?length_insert, length_app; cbn; lia). cbn.
    eexists. split; [reflexivity|]. cbn. split; [|split; [done|split; [by destruct domains|by destruct domains]]].
    unfold settled. cbn. rewrite !list_insert_insert_eq, insert_app_r_alt, Nat.sub_diag, forallb_app by done. cbn. rewrite andb_true_r. exact Hs.
Qed.
End assembly.

(** ** Runs *)

#[local] Existing Instances tree_json countable_json example_adblock example_root.
Definition example_files (text : string) (others : list (string * bytes)) : gmap bytes bytes :=
  <[path_in (lit "d") DOMAINS_FILE := default [] (DomainRules_encode (DomainRules_parse
      [{| source_name := []; source_format := Adblock; source_text := lit text |}]))]>
    (list_to_map ((λ f, (path_in (lit "d") (lit f.1), f.2)) <$> others)).
Definition example_root_files : list (string * bytes) := [("ca.pem"%string, [67; 1; 5]); ("ca.key"%string, [75; 5])].
Definition all_readable : FileAnswers :=
  {| fa_engine := None; fa_domains := None; fa_cert := None; fa_key := None; fa_pins := None |}.
Definition example_made (fs : gmap bytes bytes) : result Assembly TollgateError :=
  with_options fs (lit "d") empty_file all_readable 5 0.
Definition is_made (r : result Assembly TollgateError) : bool := match r with Ok _ => true | Err _ => false end.
Lemma is_made_Ok r : is_made r = true → ∃ self, r = Ok self.
Proof. destruct r as [self|]; [by exists self|done]. Qed.

(** With the root and the lists, and with the root alone. *)
Definition example_full : gmap bytes bytes := example_files "||ads.example^" (("engine.dat"%string, [1]) :: example_root_files).
Definition example_no_engine : gmap bytes bytes := example_files "||ads.example^" example_root_files.
Lemma interception_needs_root_and_lists_witness :
  (∃ self, example_made example_full = Ok self ∧ as_mitm_active self = true) ∧
  (∃ self, example_made example_no_engine = Ok self ∧
     classify (ctx_policy (proxy_view self)) (lit "www.example.org") 0 = Passthrough MitmDisabled).
Proof.
  destruct (is_made_Ok (example_made example_full)) as [self Hself]; [vm_compute; reflexivity|].
  destruct (is_made_Ok (example_made example_no_engine)) as [self' Hself']; [vm_compute; reflexivity|]. split.
  - exists self. split; [exact Hself|].
    apply (proj1 (interception_needs_root_and_lists _ _ _ _ _ _ _ _ Hself (rtc_refl _ _))). split; [|split].
    + assert (∀ s, example_made example_full = Ok s → config_mitm_enabled (as_config s) = true) as Hc; [|exact (Hc _ Hself)].
      intros s Hs. destruct (with_options_made _ _ _ _ _ _ _ Hs) as (config & ps & Hconfig & -> & _).
      rewrite empty_file_read in Hconfig. injection Hconfig as <-. reflexivity.
    + eexists. vm_compute. reflexivity.
    + eexists. vm_compute. reflexivity.
  - exists self'. split; [exact Hself'|].
    destruct (interception_needs_root_and_lists _ _ _ _ _ _ _ _ Hself' (rtc_refl _ _)) as (Hiff & Hoff & _). apply Hoff.
    destruct (as_mitm_active self'); [|reflexivity]. destruct (proj1 Hiff eq_refl) as (_ & _ & engine & He).
    assert (load_filter example_no_engine (lit "d") (fa_engine all_readable) = Ok None) as Hn by (vm_compute; reflexivity). rewrite Hn in He. discriminate He.
Defined.

Lemma lists_stay_alike_witness :
  ∃ self, example_made example_full = Ok self ∧
    (is_domain_blocked (proxy_view self) (lit "x.ads.example") 7).2 = true ∧ DnsHandler_is_blocked (dns_view self) (lit "x.ads.example") = true.
Proof.
  destruct (is_made_Ok (example_made example_full)) as [self Hself]; [vm_compute; reflexivity|].
  destruct (with_options_made _ _ _ _ _ _ _ Hself) as (config & ps & _ & _ & Hset & _).
  pose proof (proj1 (lists_stay_alike _ _ _ _ _ _ _ _ Hself (rtc_refl _ _) Hset) (lit "x.ads.example") 7) as Hal.
  exists self. split; [exact Hself|].
  assert (match example_made example_full with Ok s => DnsHandler_is_blocked (dns_view s) (lit "x.ads.example") | Err _ => false end = true) as Hd
    by (vm_compute; reflexivity).
  rewrite Hself in Hd. unfold blocks_alike in Hal.
  destruct (is_domain_blocked (proxy_view self) (lit "x.ads.example") 7) as [ctx blocked]. cbn [snd].
  rewrite (proj1 (Hal ltac:(split_and!; try (vm_compute; congruence); vm_compute; reflexivity))). split; exact Hd.
Defined.

(** Two reloads that overlap: the first loads the old list and the second the new one, and the
    second stores between the first one's last two stores. Both are done, and the proxy blocks by
    the new list while the responder blocks by the old one. *)
Definition overlapping : list EngineCall :=
  [CallReload (example_files "||old.example^" []) (lit "d") None None; CallReload (example_files "||new.example^" []) (lit "d") None None;
   CallStore 0; CallStore 0; CallStore 1; CallStore 1; CallStore 1; CallStore 0].
Theorem overlapping_reloads_disagree :
  match example_made example_full with
  | Ok self =>
      match foldl (λ s call, s ≫= λ s, engine_call s call) (Some self) overlapping with
      | Some self =>
          settled self = true ∧
          ((is_domain_blocked (proxy_view self) (lit "new.example") 0).2, DnsHandler_is_blocked (dns_view self) (lit "new.example")) = (true, false) ∧
          ((is_domain_blocked (proxy_view self) (lit "old.example") 0).2, DnsHandler_is_blocked (dns_view self) (lit "old.example")) = (false, true)
      | None => False
      end
  | Err _ => False
  end.
Proof. vm_compute. split_and!; reflexivity. Qed.
