(* ===== verification/FfiLists.v ===== *)
(** * Compiling the app's lists ([tollgate-ffi/src/lists.rs])

    The lists the app downloaded, checked, split by what they feed and handed to the compiler
    with the built-in rules. Writing is [Engine]'s. *)
From S2P Require Import Prelude RustStr Collections Io Glob Wildcard Exempt Bundled DomainRules RulesFacts DomainSet DomainSetFacts FilterProps Engine Ca RootCa.

Definition TOLLGATE_EXTRAS_NAME : bytes := lit "Tollgate extras".
(** Rules and the reasons for them. *)
Definition TOLLGATE_EXTRAS : list (string * string) := [
  ("||ads.huawei.com^",
   "HUAWEI Ads, Huawei's ad platform. HaGeZi's Pro and larger lists block it, the default lists do not; Huawei's other hosts stay open.");
  ("|rudderstack.com^",
   "RudderStack, a service that collects analytics events from apps and sites. Only the name itself, which serves nothing but a redirect to www.rudderstack.com: its subdomains (api.rudderstack.com, app.rudderstack.com, www.rudderstack.com) run RudderStack's own service and site and stay open.")]%string.
Definition extras_text : bytes := TOLLGATE_EXTRAS ≫= λ extra, lit extra.1 ++ [NL].
(** Computed when it is first used. *)
Definition SENSITIVE_HOSTS (_ : unit) : Exemption :=
  Exemption_new ([Sensitive; Banks] ≫= λ group, lit <$> BundledGroup_patterns group).
#[global] Strategy 1000 [SENSITIVE_HOSTS].

Inductive ListTarget := Url | Dns.
#[global] Instance ListTarget_eq_dec : EqDecision ListTarget.
Proof. solve_decision. Defined.
Record ListInput := {
  li_name : bytes;
  li_text : bytes;
  li_format : ListFormat;
  li_target : ListTarget;
  li_exempt_sensitive_hosts : bool
}.
Definition list_source (input : ListInput) : ListSource :=
  {| source_name := li_name input; source_text := li_text input; source_format := li_format input |}.

(** The loop over the URL lists. *)
Fixpoint check_url_lists (lists : list ListInput) : option TollgateError :=
  match lists with
  | [] => None
  | l :: lists' =>
      if bool_decide (li_format l = DomainRules.Hosts) then
        Some (ConfigError (OfList (li_name l) (lit "is in hosts format and can only feed the DNS blocklist")))
      else if li_exempt_sensitive_hosts l then
        Some (ConfigError (OfList (li_name l) (lit "exempts sensitive hosts, which only a DNS list can do")))
      else check_url_lists lists'
  end.
Definition url_lists (sources : list ListInput) : list ListInput := filter (λ l, li_target l = Url) sources.
(** The lists for the blocklist, the built-in one last. *)
Definition dns_lists_of (sources : list ListInput) : list DnsList :=
  ((λ l, {| dns_source := list_source l; dns_exempt := if li_exempt_sensitive_hosts l then Some (SENSITIVE_HOSTS ()) else None |})
     <$> filter (λ l, li_target l = Dns) sources) ++
  [DnsList_from {| source_name := TOLLGATE_EXTRAS_NAME; source_text := extras_text; source_format := DomainRules.Adblock |}].

(** The report, with the counts the app shows. *)
Record FfiCompileReport := { cr_network_rules : Z; cr_domain_entries : Z; cr_engine_bytes : Z; cr_domains_bytes : Z }.
Definition CompileReport_from (report : CompileReport) : FfiCompileReport :=
  {| cr_network_rules := network_rules report; cr_domain_entries := domain_entries report;
     cr_engine_bytes := engine_bytes report; cr_domains_bytes := domains_bytes report |}.

Section lists.
Context `{AdblockCrate}.

(** [compile_in]; the file system's states and answers are [compile_split_exempting]'s. *)
Definition compile_in (fuel : nat) (fs : gmap bytes bytes) (sources : list ListInput) (dir pid : bytes) (next_tmp : Z)
    (dir_answer : option ErrorKind) (answers_engine answers_domains : WriteAnswers)
    : option (list (gmap bytes bytes) * result FfiCompileReport TollgateError) :=
  match check_url_lists (url_lists sources) with
  | Some e => Some ([fs], Err e)
  | None =>
      '(states, res) ← compile_split_exempting fuel fs (list_source <$> url_lists sources) (dns_lists_of sources) dir pid next_tmp
                         dir_answer answers_engine answers_domains;
      Some (states, match res with Ok report => Ok (CompileReport_from report) | Err e => Err (ListsError e) end)
  end.
End lists.

(** ** Facts *)

(** The first URL list that cannot be one is named. *)
Lemma check_url_lists_spec lists :
  match check_url_lists lists with
  | Some e => ∃ l problem, l ∈ lists ∧ (li_format l = DomainRules.Hosts ∨ li_exempt_sensitive_hosts l = true) ∧ e = ConfigError (OfList (li_name l) problem)
  | None => Forall (λ l, li_format l = DomainRules.Adblock ∧ li_exempt_sensitive_hosts l = false) lists
  end.
Proof.
  induction lists as [|l lists IH]; cbn [check_url_lists]; [constructor|]. case_bool_decide as Hf.
  { eexists l, _. split; [apply list_elem_of_here|]. split; [by left|done]. }
  destruct (li_exempt_sensitive_hosts l) eqn:He.
  { eexists l, _. split; [apply list_elem_of_here|]. split; [by right|done]. }
  destruct (check_url_lists lists) as [e|].
  - destruct IH as (l' & problem & Hin & Hbad & ->). exists l', problem. split; [by apply list_elem_of_further|done].
  - constructor; [|done]. split; [by destruct (li_format l)|done].
Qed.

(** The built-in list adds its two rules. *)
Lemma extras_rules :
  parse_adblock_line <$> lines (strip_bom extras_text) =
    [Rule Block (lit "ads.huawei.com") false; Rule ExactBlock (lit "rudderstack.com") false].
Proof. vm_compute. reflexivity. Qed.
(** The name of an exemption's pattern. *)
Definition exempt_name (pattern : bytes) : bytes :=
  let pattern := trim pattern in
  to_ascii_lowercase (strip_suffix_or [DOT] (default pattern (strip_prefix (lit "*.") pattern))).
(** Every name of an exemption comes from one of its patterns. *)
Lemma Exemption_new_names patterns n :
  (n ∈ exempt_domains (Exemption_new patterns) ∨ n ∈ exempt_hosts (Exemption_new patterns) → ∃ p, p ∈ patterns ∧ n = exempt_name p) ∧
  (n ∈ exempt_ancestors (Exemption_new patterns) → ∃ p, p ∈ patterns ∧ n ∈ after_each DOT (exempt_name p)).
Proof.
  unfold Exemption_new. induction patterns as [|p patterns IH] using rev_ind; [cbn; set_solver|].
  rewrite foldl_app. cbn [foldl]. set (e := foldl Exemption_add Exemption_default patterns) in *. unfold Exemption_add.
  assert (∃ domain, match strip_prefix (lit "*.") (trim p) with Some name => (true, name) | None => (false, trim p) end =
    (domain, default (trim p) (strip_prefix (lit "*.") (trim p)))) as [domain ->] by (destruct (strip_prefix _ _); eauto).
  fold (exempt_name p). case_bool_decide; [set_solver|].
  assert (∀ m, m ∈ foldl (λ set parent, {[parent]} ∪ set) (exempt_ancestors e) (after_each DOT (exempt_name p)) →
    m ∈ exempt_ancestors e ∨ m ∈ after_each DOT (exempt_name p)) as Hanc by (intros m; apply foldl_union_elem).
  destruct domain; cbn [exempt_domains exempt_hosts exempt_ancestors]; (split; [set_solver|]); intros Hn%Hanc; set_solver.
Qed.
(** None of the built-in rules blocks a sensitive host: no sensitive name is above, equal to or
    below theirs. *)
Definition unrelated (name : bytes) (pattern : bytes) : bool :=
  bool_decide (exempt_name pattern ∉ name :: after_each DOT name) && bool_decide (name ∉ after_each DOT (exempt_name pattern)).
Lemma unrelated_not_covered patterns name : forallb (unrelated name) patterns = true →
  covers_exempt Block name (Exemption_new patterns) = false ∧ covers_exempt ExactBlock name (Exemption_new patterns) = false.
Proof.
  intros Hall. rewrite forallb_forall in Hall.
  assert (∀ p, p ∈ patterns → (exempt_name p ∉ name :: after_each DOT name) ∧ (name ∉ after_each DOT (exempt_name p))) as Hun.
  { intros p Hp%list_elem_of_In%Hall. by apply andb_true_iff in Hp as [?%bool_decide_eq_true ?%bool_decide_eq_true]. }
  assert (covers_host (Exemption_new patterns) name = false) as Hh.
  { unfold covers_host. apply orb_false_iff. split.
    - apply bool_decide_eq_false. intros Hin. destruct (proj1 (Exemption_new_names patterns name) (or_intror Hin)) as (p & Hp & He).
      destruct (Hun p Hp) as [Hn _]. rewrite <- He in Hn. apply Hn, list_elem_of_here.
    - apply not_true_iff_false. intros (suffix & Hs%list_elem_of_In & Hd%bool_decide_eq_true)%existsb_exists.
      destruct (proj1 (Exemption_new_names patterns suffix) (or_introl Hd)) as (p & Hp & He).
      destruct (Hun p Hp) as [Hn _]. by rewrite <- He in Hn. }
  split; [|exact Hh]. cbn [covers_exempt]. unfold covers_subtree. rewrite Hh. cbn [orb]. apply bool_decide_eq_false.
  intros Hin. destruct (proj2 (Exemption_new_names patterns name) Hin) as (p & Hp & Ha). by destruct (Hun p Hp) as [_ Hn].
Qed.
Lemma extras_not_sensitive :
  covers_exempt Block (lit "ads.huawei.com") (SENSITIVE_HOSTS ()) = false ∧ covers_exempt ExactBlock (lit "rudderstack.com") (SENSITIVE_HOSTS ()) = false.
Proof.
  unfold SENSITIVE_HOSTS. split; [refine (proj1 (unrelated_not_covered _ _ _))|refine (proj2 (unrelated_not_covered _ _ _))];
    vm_compute; reflexivity.
Qed.

Lemma add_rule_inv (allowed : Kind → bytes → Prop) b line kind name : builder_inv allowed b → b_exempt b = None →
  parse_adblock_line line = Rule kind name false → is_pattern kind = false → allowed kind name →
  builder_inv allowed (add_adblock_line b line) ∧ b_exempt (add_adblock_line b line) = None.
Proof.
  intros Hb He Hl Hp Ha. split; [|by rewrite add_adblock_line_exempt]. unfold add_adblock_line, Builder_exempts. rewrite Hl, He, Hp.
  apply insert_name_inv; [by eapply builder_inv_fields|by apply parse_adblock_line_form in Hl|done|done].
Qed.
Lemma add_extras_inv allowed b : builder_inv allowed b → allowed Block (lit "ads.huawei.com") → allowed ExactBlock (lit "rudderstack.com") →
  builder_inv allowed (add_list b (DnsList_from {| source_name := TOLLGATE_EXTRAS_NAME; source_text := extras_text; source_format := DomainRules.Adblock |})).
Proof.
  intros Hb H1' H2'. unfold add_list. cbn [dns_source dns_exempt DnsList_from source_text source_format].
  pose proof extras_rules as Hr. destruct (lines (strip_bom extras_text)) as [|l1 [|l2 [|? ?]]]; [done..| |done]. injection Hr as Hr1 Hr2.
  cbn [foldl]. destruct (add_rule_inv allowed (with_exempt b None) l1 Block (lit "ads.huawei.com")) as [Hb1 He1]; [by eapply builder_inv_fields|done..|].
  by destruct (add_rule_inv allowed _ l2 ExactBlock (lit "rudderstack.com") Hb1 He1 Hr2 eq_refl H2') as [Hb2 _].
Qed.

(** The rules of lists that all leave sensitive hosts out, with the built-in ones. *)
Lemma sensitive_rules sources k n host : Forall (λ l, li_target l = Dns → li_exempt_sensitive_hosts l = true) sources →
  covers_host (SENSITIVE_HOSTS ()) host = true →
  n ∈ finished_sets (foldl add_list Builder_default (dns_lists_of sources)) k → rule_blocks k n host = false.
Proof.
  intros Hall Hc Hn%finished_sub. apply not_true_iff_false. intros Hb.
  assert (builder_inv (λ k n, covers_exempt k n (SENSITIVE_HOSTS ()) = false) (foldl add_list Builder_default (dns_lists_of sources))) as [Hinv _].
  { unfold dns_lists_of. rewrite foldl_app. cbn [foldl]. apply add_extras_inv; [|exact (proj1 extras_not_sensitive)|exact (proj2 extras_not_sensitive)].
    apply add_lists_inv. intros l k' n' (input & -> & [Ht Hin]%list_elem_of_filter)%list_elem_of_fmap _.
    cbn [dns_exempt]. rewrite Forall_forall in Hall. by rewrite (Hall _ Hin Ht). }
  destruct (Hinv k n Hn) as [Hs He].
  pose proof (covers_exempt_complete k n host (SENSITIVE_HOSTS ()) Hs (Exemption_new_wf _) Hc Hb) as Ht. congruence.
Qed.

Lemma sensitive_unblocked sources host : Forall (λ l, li_target l = Dns → li_exempt_sensitive_hosts l = true) sources →
  Exemption_covers (SENSITIVE_HOSTS ()) host = true → rules_blocked (parse_exempting (dns_lists_of sources)) host = false.
Proof.
  intros Hall Hc. unfold parse_exempting. apply no_rule_no_block. intros k n Hn.
  unfold Exemption_covers in Hc. exact (sensitive_rules sources k n _ Hall Hc Hn).
Qed.

(** C18: Lists added for wider coverage never block a bank or a sensitive service. When every DNS
    list given leaves sensitive hosts out, the blocklist that [compile_lists] writes loads and
    blocks no host of the bundled groups for sensitive services and banks, whatever the lists say
    (for host names a lookup can tell apart by hash); and a URL list that is in hosts format, or
    that asks to leave hosts out, is refused before anything is written. *)
Theorem sensitive_hosts_stay_open `{AdblockCrate} (fuel : nat) (fs : gmap bytes bytes) (sources : list ListInput) (dir pid : bytes) (next_tmp : Z)
    (dir_answer : option ErrorKind) (answers_engine answers_domains : WriteAnswers) (states : list (gmap bytes bytes))
    (res : result FfiCompileReport TollgateError) :
  compile_in fuel fs sources dir pid next_tmp dir_answer answers_engine answers_domains = Some (states, res) →
  (Exists (λ l, li_target l = Url ∧ (li_format l = DomainRules.Hosts ∨ li_exempt_sensitive_hosts l = true)) sources →
     states = [fs] ∧ ∃ l problem, l ∈ sources ∧ res = Err (ConfigError (OfList (li_name l) problem))) ∧
  (∀ report, res = Ok report → Forall (λ l, li_target l = Dns → li_exempt_sensitive_hosts l = true) sources →
     ∃ last domains ds, head states = Some last ∧ last !! (dir ++ lit "/" ++ DOMAINS_FILE) = Some domains ∧ DomainSet_new domains = Ok ds ∧
       ∀ host, Exemption_covers (SENSITIVE_HOSTS ()) host = true → Forall is_u8 host → (BAR ∉ host) →
         (length (after_each DOT (strip_suffix_or [DOT] host)) ≤ 127)%nat → no_collision (parse_exempting (dns_lists_of sources)) host = true →
         is_blocked ds host = false).
Proof.
  unfold compile_in. pose proof (check_url_lists_spec (url_lists sources)) as Hcheck.
  destruct (check_url_lists (url_lists sources)) as [e|].
  - intros [= <- <-]. split; [|done]. intros _. destruct Hcheck as (l & problem & [_ Hin]%list_elem_of_filter & _ & ->). eauto.
  - intros Hc. split.
    + intros (l & Hin & Ht & Hbad)%Exists_exists. exfalso. rewrite Forall_forall in Hcheck.
      destruct (Hcheck l) as [Hf He]; [by apply list_elem_of_filter|]. destruct Hbad; congruence.
    + intros report -> Hall. destruct (compile_split_exempting _ _ _ _ _ _ _ _ _ _) as [[sts r]|] eqn:Hsplit; [|done].
      cbn [mbind option_bind] in Hc. destruct r as [rep|]; [|done]. injection Hc as <- _.
      apply compile_split_written in Hsplit as (domains & Henc & Hh & _).
      pose proof (parsed_rules_ok (dns_lists_of sources)) as Hok. destruct (new_encode _ _ Hok Henc) as [Hnew Hb].
      eexists _, domains, _. split; [exact Hh|]. split; [apply lookup_insert_eq|]. split; [exact Hnew|].
      intros host Hcov Hu Hbar Hdots Hcol. rewrite is_blocked_loaded by done. exact (sensitive_unblocked sources host Hall Hcov).
Qed.

(** ** A list that cannot leave hosts out, and one that can be compiled *)
Definition example_input (exempt : bool) : ListInput :=
  {| li_name := lit "greedy"; li_text := lit "||com^"; li_format := DomainRules.Adblock; li_target := Url; li_exempt_sensitive_hosts := exempt |}.
Lemma sensitive_hosts_stay_open_witness :
  let compiled sources := compile_in (H := example_adblock) 3 ∅ sources (lit "d") (lit "7") 0 None no_failures no_failures in
  (∃ states res, compiled [example_input true] = Some (states, res) ∧ states = [∅]) ∧
  (∃ states report last domains ds, compiled [example_input false] = Some (states, Ok report) ∧ head states = Some last ∧
     last !! (lit "d" ++ lit "/" ++ DOMAINS_FILE) = Some domains ∧ DomainSet_new domains = Ok ds).
Proof.
  cbv zeta. split.
  - destruct (compile_in (H := example_adblock) 3 ∅ [example_input true] (lit "d") (lit "7") 0 None no_failures no_failures)
      as [[states res]|] eqn:E; [|discriminate E].
    exists states, res. split; [reflexivity|]. apply (proj1 (@sensitive_hosts_stay_open example_adblock _ _ _ _ _ _ _ _ _ _ _ E)).
    apply Exists_cons_hd. split; [reflexivity|by right].
  - assert (match compile_in (H := example_adblock) 3 ∅ [example_input false] (lit "d") (lit "7") 0 None no_failures no_failures with
            | Some (_, Ok _) => true | _ => false end = true) as Hok by (vm_compute; reflexivity).
    destruct (compile_in (H := example_adblock) 3 ∅ [example_input false] (lit "d") (lit "7") 0 None no_failures no_failures)
      as [[states [report|e]]|] eqn:E; [|discriminate Hok|discriminate Hok].
    destruct (proj2 (@sensitive_hosts_stay_open example_adblock _ _ _ _ _ _ _ _ _ _ _ E) report eq_refl) as (last & domains & ds & Hh & Hd & Hn & _);
      [by repeat constructor|]. exists states, report, last, domains, ds.
    split; [reflexivity|]. split; [exact Hh|]. split; [exact Hd|exact Hn].
Defined.
