(* ===== verification/Boundary.v ===== *)
(** * The boundary to the app ([tollgate-ffi/src/error.rs], the exported calls of [engine.rs] and [lists.rs])

    Every exported call runs under [catch_panic]: a panic of the core becomes an error, or the
    default of calls that return none. The packet calls of [FfiEngine] and the list detector as the
    app calls them, and the options an engine has by default. *)
From S2P Require Import Prelude RustStr Collections Net HostPattern DomainRules Detect DomainSet Common Wire Answer DnsCache Packet Handler HandlerFacts DnsExamples Doh Resolver LocalJobs RootCa FfiEngine.

(** ** Panics *)

(** The payload of a panic: the text of [panic!] without and with arguments, or any other value. *)
Inductive PanicPayload := PanicStr (message : bytes) | PanicString (message : bytes) | PanicOther.
Definition panic_message (payload : PanicPayload) : bytes :=
  match payload with
  | PanicStr message | PanicString message => message
  | PanicOther => lit "panic with a non-string payload"
  end.
(** A call that may panic, with what it panics with, under [catch_panic]. *)
Definition caught {A} (payload : PanicPayload) (call : option (result A TollgateError)) : result A TollgateError :=
  catch_panic call (panic_message payload).
(** [unwrap_or_default] *)
Definition unwrap_or {A} (d : A) (r : result A TollgateError) : A := match r with Ok x => x | Err _ => d end.

(** ** Options *)

Definition FORWARD_QUEUE : nat := 256.
Definition LOCAL_DEADLINE : Z := 5000.
Definition EngineOptions_default : EngineOptions :=
  {| forward_queue := FORWARD_QUEUE; forward_in_flight := MAX_IN_FLIGHT - LOOKUP_PERMITS; local_deadline := LOCAL_DEADLINE |}.

(** ** Calls *)

Section calls.
Context `{IdOrder, Hickory, Lru, Etherparse}.

(** A record as the app has it. *)
Record DnsRecord := { dr_rtype : Z; dr_rclass : Z; dr_ttl : Z; dr_data : bytes }.
Definition LocalRecord_from (r : DnsRecord) : LocalRecord :=
  {| lr_rtype := dr_rtype r; lr_rclass := dr_rclass r; lr_ttl := dr_ttl r; lr_data := dr_data r |}.

(** The state is the call's, or what it was where the call panicked. *)
Definition Engine_handle_packets (payload : PanicPayload) (self : Engine) (packets : list bytes) (now wall at_ : Z)
    : Engine * result (list bytes) TollgateError :=
  match answer self packets now wall at_ with
  | Some (self', replies, _) => (self', caught payload (Some (Ok replies)))
  | None => (self, caught payload None)
  end.
Definition Engine_complete (payload : PanicPayload) (self : Engine) (id : Z) (records : option (list DnsRecord)) (now : Z)
    : Engine * list bytes :=
  match Engine_complete_local self id (option_map (fmap LocalRecord_from) records) now with
  | Some (self', replies) => (self', unwrap_or [] (caught payload (Some (Ok replies))))
  | None => (self, unwrap_or [] (caught payload None))
  end.
Definition Engine_set_network (self : Engine) (network : bytes) : Engine := with_dns self (set_network (en_dns self) network).

(** [detect_list_format]; the formats of both crates are the same two. *)
Definition detect_list_format (payload : PanicPayload) (text : bytes) : option ListFormat :=
  unwrap_or None (caught payload (Some (Ok (detect_format text)))).

(** ** Theorems *)

(** The app never sees an internal error from the packet path. In every history of calls on an
    engine with the default options, whatever bytes the tunnel hands over and whatever records the
    platform found: [handle_packets] returns the replies that [answer] gives, [complete_local] those
    of the waiting queries, each as a step of that history; no panic is turned into an error or an
    empty answer. And the engine keeps the forwarder to the share of the resolver that
    leaves room for the proxy's lookups. *)
Theorem boundary_never_panics (blocklist : option DomainSet) (stats : Stats) (s : System) (payload : PanicPayload) :
  ffi_reach EngineOptions_default (DnsHandler_new blocklist stats) s →
  (∀ packets now wall at_, Forall (Forall is_u8) packets →
     ∃ self' replies, Engine_handle_packets payload (sy_engine s) packets now wall at_ = (self', Ok replies) ∧
       ffi_step s {| sy_engine := self'; sy_asked := sy_asked s + queries packets;
                     sy_answered := sy_answered s + length replies; sy_dropped := sy_dropped s |}) ∧
  (∀ id records now, (∀ l, records = Some l → Forall (λ r, Forall is_u8 (dr_data r)) l) →
     let '(self', replies) := Engine_complete payload (sy_engine s) id records now in
     ffi_step s {| sy_engine := self'; sy_asked := sy_asked s; sy_answered := sy_answered s + length replies;
                   sy_dropped := sy_dropped s |}) ∧
  (length (en_tasks (sy_engine s)) ≤ MAX_IN_FLIGHT - LOOKUP_PERMITS)%nat.
Proof.
  intros Hs. destruct (ffi_reach_inv _ _ s (new_inv blocklist stats) Hs) as (Hi & _ & _).
  assert (en_options (sy_engine s) = EngineOptions_default) as Ho by (by eapply ffi_reach_options).
  destruct s as [e asked answered dropped]. simpl in *. split_and!.
  - intros packets now wall at_ Hu. destruct (answer_spec e packets now wall at_ Hi Hu) as (e' & replies & calls & Ha & _).
    exists e', replies. unfold Engine_handle_packets. rewrite Ha. split; [done|]. by eapply ffi_packets.
  - intros id records now Hr. unfold Engine_complete.
    assert (∀ l, option_map (fmap LocalRecord_from) records = Some l → Forall (λ r, Forall is_u8 (lr_data r)) l) as Hr'.
    { intros l (l' & Hl & ->)%fmap_Some. apply Forall_fmap. by apply Hr. }
    destruct (Engine_complete_local_spec e id _ now Hi Hr') as (e' & replies & Hc & _). rewrite Hc. cbn. by eapply ffi_complete_local.
  - pose proof (ei_tasks _ Hi) as Ht. rewrite Ho in Ht. unfold EngineOptions_default in Ht. simpl in Ht. lia.
Qed.
End calls.

(** The engine of [FfiEngine]'s run has the default options. *)
Lemma boundary_never_panics_witness : ∃ e replies,
  Engine_handle_packets PanicOther example_started example_packets 100 0 0 = (e, Ok replies).
Proof.
  destruct (proj1 (boundary_never_panics None Stats_default _ PanicOther example_started_reach)
    example_packets 100 0 0 example_packets_u8) as (e & replies & He & _).
  exists e, replies. exact He.
Defined.
