(* ===== verification/Runtime.v ===== *)
(** * The runtime thread ([tollgate-ffi/src/engine.rs]: [start_runtime], [stop_runtime], [run], [serve])

    Threads of the app call [start] and [stop] at any time; a runtime thread goes from building its
    runtime over binding and reporting its port to serving and its end, and may panic anywhere.
    [start] holds the lock of [running] until the thread reports or ends; [stop] takes the runtime
    out under the lock and joins the thread without it. A call on the runtime thread itself does
    not join. Every call is one caller of the list; a step is one move of one caller or thread. *)
From S2P Require Import Prelude RustStr Collections Net Io Policy Common RootCa.

(** ** The thread *)

Inductive ThreadPhase := ThBuilding | ThBinding | ThNaming | ThServing (port : Z) | ThClosing | ThEnded.
Record RtThread := {
  th_phase : ThreadPhase;
  (** what it sent through [ready], which has room for it *)
  th_ready : option (result Z ErrorKind);
  (** [shutdown] was sent or dropped *)
  th_stop : bool
}.
(** What a step of the thread meets: success (with a port), an error, or a panic. *)
Inductive ThreadMove := MoveOk (port : Z) | MoveErr (e : ErrorKind) | MovePanic.
Definition reported (t : RtThread) (phase : ThreadPhase) (r : result Z ErrorKind) : RtThread :=
  {| th_phase := phase; th_ready := Some r; th_stop := th_stop t |}.
Definition in_phase (t : RtThread) (phase : ThreadPhase) : RtThread :=
  {| th_phase := phase; th_ready := th_ready t; th_stop := th_stop t |}.
(** [run] and [serve]; [None] when it waits. A panic is caught by [run]. *)
Definition thread_move (t : RtThread) (m : ThreadMove) : option RtThread :=
  match th_phase t, m with
  | ThEnded, _ => None
  | _, MovePanic => Some (in_phase t ThEnded)
  | ThBuilding, MoveOk _ => Some (in_phase t ThBinding)
  | ThBuilding, MoveErr e | ThBinding, MoveErr e | ThNaming, MoveErr e => Some (reported t ThEnded (Err e))
  | ThBinding, MoveOk _ => Some (in_phase t ThNaming)
  | ThNaming, MoveOk port => Some (reported t (ThServing port) (Ok port))
  | ThServing _, _ => if th_stop t then Some (in_phase t ThClosing) else None
  | ThClosing, _ => Some (in_phase t ThEnded)
  end.

(** ** The callers *)

Inductive StartResult := StartOk (port : Z) | StartAlreadyRunning | StartConfig | StartIo (e : ErrorKind) | StartInternal.
Inductive Caller :=
| CStarting (thread : nat)
| CJoining (thread : nat)
| CSaving
| CDone (started : option StartResult).
Record EngineRuntime := {
  rt_threads : list RtThread;
  rt_running : option (Z * nat);
  (** the caller inside [start] *)
  rt_lock : option nat;
  rt_callers : list Caller;
  (** threads that were stopped from themselves *)
  rt_detached : list nat;
  rt_saves : nat
}.
Definition EngineRuntime_new : EngineRuntime :=
  {| rt_threads := []; rt_running := None; rt_lock := None; rt_callers := []; rt_detached := []; rt_saves := 0 |}.
Definition with_caller (self : EngineRuntime) (c : nat) (caller : Caller) (lock : option nat) : EngineRuntime :=
  {| rt_threads := rt_threads self; rt_running := rt_running self; rt_lock := lock; rt_callers := <[c := caller]> (rt_callers self);
     rt_detached := rt_detached self; rt_saves := rt_saves self |}.
Definition new_caller (self : EngineRuntime) (caller : Caller) : EngineRuntime :=
  {| rt_threads := rt_threads self; rt_running := rt_running self; rt_lock := rt_lock self; rt_callers := rt_callers self ++ [caller];
     rt_detached := rt_detached self; rt_saves := rt_saves self |}.
(** [start] up to where it waits; [resolver] and [spawned] are what making the resolver and the
    thread gave. *)
Definition start_begin (self : EngineRuntime) (resolver : bool) (spawned : option ErrorKind) : option EngineRuntime :=
  match rt_lock self with
  | Some _ => None
  | None =>
      Some match rt_running self with
           | Some _ => new_caller self (CDone (Some StartAlreadyRunning))
           | None =>
               if negb resolver then new_caller self (CDone (Some StartConfig))
               else
                 match spawned with
                 | Some e => new_caller self (CDone (Some (StartIo e)))
                 | None =>
                     {| rt_threads := rt_threads self ++ [{| th_phase := ThBuilding; th_ready := None; th_stop := false |}];
                        rt_running := None; rt_lock := Some (length (rt_callers self));
                        rt_callers := rt_callers self ++ [CStarting (length (rt_threads self))];
                        rt_detached := rt_detached self; rt_saves := rt_saves self |}
                 end
           end
  end.
(** [ready.recv()], and [thread.join()] after a failure. *)
Definition start_end (self : EngineRuntime) (c : nat) : option EngineRuntime :=
  match rt_callers self !! c with
  | Some (CStarting thread) =>
      t ← rt_threads self !! thread;
      match th_ready t, th_phase t with
      | Some (Ok port), _ =>
          Some {| rt_threads := rt_threads self; rt_running := Some (port, thread); rt_lock := None;
                  rt_callers := <[c := CDone (Some (StartOk port))]> (rt_callers self);
                  rt_detached := rt_detached self; rt_saves := rt_saves self |}
      | Some (Err e), ThEnded => Some (with_caller self c (CDone (Some (StartIo e))) None)
      | None, ThEnded => Some (with_caller self c (CDone (Some StartInternal)) None)
      | _, _ => None
      end
  | _ => None
  end.
(** [stop_runtime] up to the join; [here] is whether it runs on the runtime thread. *)
Definition stop_begin (self : EngineRuntime) (here : bool) : option EngineRuntime :=
  match rt_lock self with
  | Some _ => None
  | None =>
      Some match rt_running self with
           | None => new_caller self (CDone None)
           | Some (port, thread) =>
               {| rt_threads := alter (λ t, {| th_phase := th_phase t; th_ready := th_ready t; th_stop := true |}) thread (rt_threads self);
                  rt_running := None; rt_lock := None;
                  rt_callers := rt_callers self ++ [if here then CSaving else CJoining thread];
                  rt_detached := if here then thread :: rt_detached self else rt_detached self; rt_saves := rt_saves self |}
           end
  end.
Definition stop_joined (self : EngineRuntime) (c : nat) : option EngineRuntime :=
  match rt_callers self !! c with
  | Some (CJoining thread) =>
      t ← rt_threads self !! thread;
      match th_phase t with ThEnded => Some (with_caller self c CSaving (rt_lock self)) | _ => None end
  | _ => None
  end.
(** [self.pins.save(true)], then [stop] returns. *)
Definition stop_end (self : EngineRuntime) (c : nat) : option EngineRuntime :=
  match rt_callers self !! c with
  | Some CSaving =>
      Some {| rt_threads := rt_threads self; rt_running := rt_running self; rt_lock := rt_lock self;
              rt_callers := <[c := CDone None]> (rt_callers self); rt_detached := rt_detached self; rt_saves := S (rt_saves self) |}
  | _ => None
  end.
Definition thread_step (self : EngineRuntime) (i : nat) (m : ThreadMove) : option EngineRuntime :=
  t ← rt_threads self !! i; t ← thread_move t m;
  Some {| rt_threads := <[i := t]> (rt_threads self); rt_running := rt_running self; rt_lock := rt_lock self;
          rt_callers := rt_callers self; rt_detached := rt_detached self; rt_saves := rt_saves self |}.
(** [port()] *)
Definition Engine_port (self : EngineRuntime) : option Z := fst <$> rt_running self.

Inductive RtEvent :=
| RtStart (resolver : bool) (spawned : option ErrorKind) | RtReady (c : nat) | RtStop (here : bool) | RtJoined (c : nat) | RtSaved (c : nat)
| RtThreadMoves (i : nat) (m : ThreadMove).
Definition rt_step (self : EngineRuntime) (ev : RtEvent) : option EngineRuntime :=
  match ev with
  | RtStart resolver spawned => start_begin self resolver spawned
  | RtReady c => start_end self c
  | RtStop here => stop_begin self here
  | RtJoined c => stop_joined self c
  | RtSaved c => stop_end self c
  | RtThreadMoves i m => thread_step self i m
  end.
Definition rt_reach : EngineRuntime → Prop := rtc (λ s s', ∃ ev, rt_step s ev = Some s') EngineRuntime_new.

(** ** The invariant *)

Definition thread_ok (t : RtThread) : Prop :=
  match th_phase t with
  | ThBuilding | ThBinding | ThNaming => th_ready t = None
  | ThServing port => th_ready t = Some (Ok port)
  | ThClosing => ∃ port, th_ready t = Some (Ok port)
  | ThEnded => True
  end.
Lemma thread_move_ok t m t' : thread_ok t → thread_move t m = Some t' → thread_ok t' ∧ th_phase t ≠ ThEnded ∧ th_stop t' = th_stop t ∧
  (∀ port, th_ready t = Some (Ok port) → th_ready t' = Some (Ok port)).
Proof.
  unfold thread_ok, thread_move. destruct (th_phase t) eqn:Hp, m; intros Hok Hm; try done; try (destruct (th_stop t) eqn:Hst; [|done]);
    injection Hm as <-; cbn; rewrite ?Hok; split_and!; eauto; try done; congruence.
Qed.

Definition starting (self : EngineRuntime) (i : nat) : Prop := ∃ c, rt_lock self = Some c ∧ rt_callers self !! c = Some (CStarting i).
Record rt_inv (self : EngineRuntime) : Prop := {
  ri_threads : ∀ i t, rt_threads self !! i = Some t → thread_ok t;
  (** the thread behind the port *)
  ri_running : ∀ port i, rt_running self = Some (port, i) → ∃ t, rt_threads self !! i = Some t ∧ th_ready t = Some (Ok port);
  (** who starts holds the lock, and nothing runs meanwhile *)
  ri_starting : ∀ c i, rt_callers self !! c = Some (CStarting i) → rt_lock self = Some c ∧ is_Some (rt_threads self !! i);
  ri_lock : ∀ c, rt_lock self = Some c → rt_running self = None ∧ ∃ i, rt_callers self !! c = Some (CStarting i);
  (** who is joined was told to stop *)
  ri_joining : ∀ c i, rt_callers self !! c = Some (CJoining i) → ∃ t, rt_threads self !! i = Some t ∧ th_stop t = true;
  (** a thread that was not told to stop runs, starts, or is over *)
  ri_owned : ∀ i t, rt_threads self !! i = Some t → th_phase t ≠ ThEnded → th_stop t = false →
               (∃ port, rt_running self = Some (port, i)) ∨ starting self i;
  (** and one that was is joined by someone, or ends by itself *)
  ri_stopping : ∀ i t, rt_threads self !! i = Some t → th_phase t ≠ ThEnded → th_stop t = true →
               (∃ c, rt_callers self !! c = Some (CJoining i)) ∨ i ∈ rt_detached self
}.
(** A new call that starts no thread. *)
Lemma new_caller_inv self r : rt_inv self → rt_inv (new_caller self (CDone r)).
Proof.
  intros [H1 H2 H3 H4 H5 H6 H7]. split; cbn; try done.
  - intros c i [Hc|[_ Hc]]%lookup_app_Some; [by eapply H3|]. by apply list_lookup_singleton_Some in Hc as [_ ?].
  - intros c Hc. destruct (H4 c Hc) as [Hr [i Hi]]. split; [done|]. exists i. by apply lookup_app_l_Some.
  - intros c i [Hc|[_ Hc]]%lookup_app_Some; [by eapply H5|]. by apply list_lookup_singleton_Some in Hc as [_ ?].
  - intros i t Ht Hp Hs. destruct (H6 i t Ht Hp Hs) as [?|(c & Hl & Hc)]; [by left|right]. exists c. split; [done|]. by apply lookup_app_l_Some.
  - intros i t Ht Hp Hs. destruct (H7 i t Ht Hp Hs) as [(c & Hc)|?]; [left|by right]. exists c. by apply lookup_app_l_Some.
Qed.
Lemma start_begin_inv self resolver spawned self' : rt_inv self → start_begin self resolver spawned = Some self' → rt_inv self'.
Proof.
  intros HI. unfold start_begin. destruct (rt_lock self) eqn:Hl; [done|]. intros [= <-].
  destruct (rt_running self) eqn:Hr; [by apply new_caller_inv|]. destruct resolver; cbn [negb]; [|by apply new_caller_inv].
  destruct spawned; [by apply new_caller_inv|]. destruct HI as [H1 H2 H3 H4 H5 H6 H7]. split; cbn.
  - intros i t [Ht|[_ Ht]]%lookup_app_Some; [by eapply H1|]. by apply list_lookup_singleton_Some in Ht as [_ <-].
  - done.
  - intros c i [Hc|[Hge Hc]]%lookup_app_Some; [by destruct (H3 _ _ Hc); congruence|].
    apply list_lookup_singleton_Some in Hc as [He [= <-]]. split; [f_equal; lia|]. rewrite lookup_app_r, Nat.sub_diag by done. by eexists.
  - intros c [= <-]. split; [done|]. exists (length (rt_threads self)). by rewrite lookup_app_r, Nat.sub_diag by done.
  - intros c i [Hc|[_ Hc]]%lookup_app_Some; [|by apply list_lookup_singleton_Some in Hc as [_ ?]].
    destruct (H5 _ _ Hc) as (t & Ht & Hs). exists t. split; [by apply lookup_app_l_Some|done].
  - intros i t [Ht|[Hge Ht]]%lookup_app_Some Hp Hs.
    + destruct (H6 i t Ht Hp Hs) as [[p ?]|(c & ? & _)]; congruence.
    + apply list_lookup_singleton_Some in Ht as [He <-]. right. exists (length (rt_callers self)). split; [done|].
      cbn. rewrite lookup_app_r, Nat.sub_diag by done. cbn. do 2 f_equal. lia.
  - intros i t [Ht|[_ Ht]]%lookup_app_Some Hp Hs; [|by apply list_lookup_singleton_Some in Ht as [_ <-]].
    destruct (H7 i t Ht Hp Hs) as [(c & Hc)|?]; [left|by right]. exists c. by apply lookup_app_l_Some.
Qed.
(** A caller that waited is done: its thread is over, or runs. *)
Lemma replaced_caller (callers : list Caller) c old r c' (new : Caller) : callers !! c = Some old → <[c := CDone r]> callers !! c' = Some new →
  new = CDone r ∨ c' ≠ c ∧ callers !! c' = Some new.
Proof. intros Hc [(-> & <- & _)|[Hne Hc']]%list_lookup_insert_Some; [by left|by right]. Qed.
Lemma start_failed_inv self c i t r : rt_inv self → rt_callers self !! c = Some (CStarting i) → rt_threads self !! i = Some t → th_phase t = ThEnded →
  rt_inv (with_caller self c (CDone r) None).
Proof.
  intros [H1 H2 H3 H4 H5 H6 H7] Hc Ht Hp. destruct (H3 _ _ Hc) as [Hl _]. split; cbn; try done.
  - intros c' i' [?|[Hne Hc']]%(replaced_caller _ _ _ _ _ _ Hc); [done|]. destruct (H3 _ _ Hc'); congruence.
  - intros c' i' [?|[Hne Hc']]%(replaced_caller _ _ _ _ _ _ Hc); [done|by eapply H5].
  - intros i' t' Ht' Hp' Hs'. destruct (H6 i' t' Ht' Hp' Hs') as [?|(c' & Hl' & Hc')]; [by left|]. rewrite Hl in Hl'. simplify_eq.
  - intros i' t' Ht' Hp' Hs'. destruct (H7 i' t' Ht' Hp' Hs') as [(c' & Hc')|?]; [left|by right]. exists c'.
    rewrite list_lookup_insert_ne; [done|]. congruence.
Qed.
Lemma start_end_inv self c self' : rt_inv self → start_end self c = Some self' → rt_inv self'.
Proof.
  intros HI. unfold start_end. destruct (rt_callers self !! c) as [[i| | |]|] eqn:Hc; try done.
  destruct (rt_threads self !! i) as [t|] eqn:Ht; [|done]. csimpl.
  destruct (th_ready t) as [[port|e]|] eqn:Hr; [|destruct (th_phase t) eqn:Hp; try done; intros [= <-]; by eapply start_failed_inv..].
  intros [= <-]. destruct HI as [H1 H2 H3 H4 H5 H6 H7]. destruct (H3 _ _ Hc) as [Hl _]. destruct (H4 _ Hl) as [Hrun _]. split; cbn; try done.
  - intros ? ? [= <- <-]. by exists t.
  - intros c' i' [?|[Hne Hc']]%(replaced_caller _ _ _ _ _ _ Hc); [done|]. destruct (H3 _ _ Hc'); congruence.
  - intros c' i' [?|[Hne Hc']]%(replaced_caller _ _ _ _ _ _ Hc); [done|by eapply H5].
  - intros i' t' Ht' Hp' Hs'. left. destruct (H6 i' t' Ht' Hp' Hs') as [[p Hp2]|(c' & Hl' & Hc')]; [congruence|].
    rewrite Hl in Hl'. injection Hl' as <-. rewrite Hc in Hc'. injection Hc' as <-. by exists port.
  - intros i' t' Ht' Hp' Hs'. destruct (H7 i' t' Ht' Hp' Hs') as [(c' & Hc')|?]; [left|by right]. exists c'.
    rewrite list_lookup_insert_ne; [done|]. congruence.
Qed.
Lemma stop_begin_inv self here self' : rt_inv self → stop_begin self here = Some self' → rt_inv self'.
Proof.
  intros HI. unfold stop_begin. destruct (rt_lock self) eqn:Hl; [done|]. intros [= <-].
  destruct (rt_running self) as [[port k]|] eqn:Hr; [|by apply new_caller_inv]. destruct HI as [H1 H2 H3 H4 H5 H6 H7].
  set (stopped := λ t, {| th_phase := th_phase t; th_ready := th_ready t; th_stop := true |}).
  assert (Hat : ∀ i t', alter stopped k (rt_threads self) !! i = Some t' →
    ∃ t, rt_threads self !! i = Some t ∧ th_phase t' = th_phase t ∧ th_ready t' = th_ready t ∧ (th_stop t' = false → i ≠ k ∧ t' = t) ∧ (th_stop t = true → th_stop t' = true) ∧ (i ≠ k → t' = t)).
  { intros i t'. destruct (decide (i = k)) as [->|Hne].
    - rewrite list_lookup_alter_eq. destruct (rt_threads self !! k) as [t|]; [|done]. intros [= <-]. by exists t.
    - rewrite list_lookup_alter_ne by done. intros Ht. by exists t'. }
  assert (Hk : ∀ i t, rt_threads self !! i = Some t → ∃ t', alter stopped k (rt_threads self) !! i = Some t' ∧ (i = k → th_stop t' = true) ∧ (th_stop t = true → th_stop t' = true)).
  { intros i t Ht. destruct (decide (i = k)) as [->|Hne]; [rewrite list_lookup_alter_eq, Ht; by eexists|rewrite list_lookup_alter_ne by done; by exists t]. }
  split; cbn.
  - intros i t' (t & Ht & Hp & Hrd & _)%Hat. pose proof (H1 _ _ Ht) as Hok. unfold thread_ok in *. by rewrite Hp, Hrd.
  - done.
  - intros c i [Hc|[_ Hc]]%lookup_app_Some; [by destruct (H3 _ _ Hc); congruence|]. destruct here; by apply list_lookup_singleton_Some in Hc as [_ ?].
  - done.
  - intros c i [Hc|[_ Hc]]%lookup_app_Some.
    + destruct (H5 _ _ Hc) as (t & Ht & Hs). destruct (Hk _ _ Ht) as (t' & Ht' & _ & Hs'). eauto.
    + apply list_lookup_singleton_Some in Hc as [_ Hc]. destruct here; [done|]. injection Hc as <-.
      destruct (H2 _ _ Hr) as (t & Ht & _). destruct (Hk _ _ Ht) as (t' & Ht' & Hs' & _). eauto.
  - intros i t' (t & Ht & Hp & _ & Hf & _)%Hat Hne Hs. destruct (Hf Hs) as [Hik ->].
    destruct (H6 _ _ Ht Hne Hs) as [[p Hp']|(c & Hc & _)]; [congruence|congruence].
  - intros i t' (t & Ht & Hp & _ & _ & _ & Hne')%Hat Hne Hs. destruct (decide (i = k)) as [->|Hik].
    + destruct here; [right; by left|left]. exists (length (rt_callers self)). by rewrite lookup_app_r, Nat.sub_diag by done.
    + rewrite (Hne' Hik) in *. destruct (H7 _ _ Ht Hne Hs) as [(c & Hc)|Hd]; [left; exists c; by apply lookup_app_l_Some|].
      right. destruct here; [by right|done].
Qed.
(** A caller goes on without touching the threads it was responsible for. *)
Lemma caller_on_inv self c i new saves : rt_inv self → rt_callers self !! c = Some (CJoining i) ∨ rt_callers self !! c = Some CSaving →
  (∀ t, rt_callers self !! c = Some (CJoining i) → rt_threads self !! i = Some t → th_phase t = ThEnded) →
  new = CSaving ∨ new = CDone None →
  rt_inv {| rt_threads := rt_threads self; rt_running := rt_running self; rt_lock := rt_lock self; rt_callers := <[c := new]> (rt_callers self);
            rt_detached := rt_detached self; rt_saves := saves |}.
Proof.
  intros [H1 H2 H3 H4 H5 H6 H7] Hc Hended Hnew.
  assert (Hrep : ∀ c' x, <[c := new]> (rt_callers self) !! c' = Some x → x = new ∨ rt_callers self !! c' = Some x).
  { intros c' x [(-> & <- & _)|[_ Hx]]%list_lookup_insert_Some; [by left|by right]. }
  split; cbn; try done.
  - intros c' i' [Hx|Hx]%Hrep; [by destruct Hnew; subst|by eapply H3].
  - intros c' Hl. destruct (H4 _ Hl) as [Hr [i' Hi']]. split; [done|]. exists i'. rewrite list_lookup_insert_ne; [done|]. intros ->. destruct Hc; congruence.
  - intros c' i' [Hx|Hx]%Hrep; [by destruct Hnew; subst|by eapply H5].
  - intros i' t Ht Hp Hs. destruct (H6 _ _ Ht Hp Hs) as [?|(c' & Hl & Hc')]; [by left|right]. exists c'. split; [done|]. cbn.
    rewrite list_lookup_insert_ne; [done|]. intros ->. destruct Hc; congruence.
  - intros i' t Ht Hp Hs. destruct (H7 _ _ Ht Hp Hs) as [(c' & Hc')|?]; [|by right]. destruct (decide (c' = c)) as [->|Hne].
    + exfalso. destruct Hc as [Hc|Hc]; [|congruence]. rewrite Hc in Hc'. injection Hc' as <-. by apply Hp, Hended.
    + left. exists c'. by rewrite list_lookup_insert_ne by done.
Qed.
Lemma thread_step_inv self i m self' : rt_inv self → thread_step self i m = Some self' → rt_inv self'.
Proof.
  intros [H1 H2 H3 H4 H5 H6 H7]. unfold thread_step. destruct (rt_threads self !! i) as [t|] eqn:Ht; [|done]. csimpl.
  destruct (thread_move t m) as [t1|] eqn:Hm; [|done]. csimpl. intros [= <-]. destruct (thread_move_ok _ _ _ (H1 _ _ Ht) Hm) as (Hok & Hne & Hst & Hrd).
  assert (Hat : ∀ j t', <[i := t1]> (rt_threads self) !! j = Some t' → j = i ∧ t' = t1 ∨ j ≠ i ∧ rt_threads self !! j = Some t').
  { intros j t' [(-> & <- & _)|[? ?]]%list_lookup_insert_Some; [by left|by right]. }
  assert (Hin : ∀ j, is_Some (rt_threads self !! j) → is_Some (<[i := t1]> (rt_threads self) !! j)).
  { intros j. rewrite !lookup_lt_is_Some, length_insert. done. }
  split; cbn.
  - intros j t' [[-> ->]|[_ Hj]]%Hat; [done|by eapply H1].
  - intros port j Hr. destruct (H2 _ _ Hr) as (t' & Ht' & Hr'). destruct (decide (j = i)) as [->|Hji].
    + rewrite Ht in Ht'. injection Ht' as <-. exists t1. rewrite list_lookup_insert_eq by by eapply lookup_lt_Some. eauto.
    + exists t'. by rewrite list_lookup_insert_ne by done.
  - intros c j Hc. destruct (H3 _ _ Hc). auto.
  - done.
  - intros c j Hc. destruct (H5 _ _ Hc) as (t' & Ht' & Hs'). destruct (decide (j = i)) as [->|Hji].
    + rewrite Ht in Ht'. injection Ht' as <-. exists t1. rewrite list_lookup_insert_eq by by eapply lookup_lt_Some. split; [done|congruence].
    + exists t'. by rewrite list_lookup_insert_ne by done.
  - intros j t' [[-> ->]|[_ Hj]]%Hat Hp Hs; [|by eapply H6]. apply (H6 i t Ht Hne). congruence.
  - intros j t' [[-> ->]|[_ Hj]]%Hat Hp Hs; [|by eapply H7]. apply (H7 i t Ht Hne). congruence.
Qed.
Lemma rt_step_inv self ev self' : rt_inv self → rt_step self ev = Some self' → rt_inv self'.
Proof.
  intros HI. destruct ev as [resolver spawned|c|here|c|c|i m]; cbn.
  - by apply start_begin_inv.
  - by apply start_end_inv.
  - by apply stop_begin_inv.
  - unfold stop_joined. destruct (rt_callers self !! c) as [[|i| |]|] eqn:Hc; try done. destruct (rt_threads self !! i) as [t|] eqn:Ht; [|done]. csimpl.
    destruct (th_phase t) eqn:Hp; try done. intros [= <-]. apply (caller_on_inv self c i CSaving); auto. intros t' _ Ht'. congruence.
  - unfold stop_end. destruct (rt_callers self !! c) as [[| | |]|] eqn:Hc; try done. intros [= <-].
    apply (caller_on_inv self c 0%nat (CDone None)); auto. intros t' Hc'. congruence.
  - by apply thread_step_inv.
Qed.
Lemma rt_reach_inv self : rt_reach self → rt_inv self.
Proof.
  intros Hr. assert (H0 : rt_inv EngineRuntime_new) by (split; cbn; try done; intros; by rewrite lookup_nil in *).
  unfold rt_reach in Hr. induction Hr as [|s s1 s2 [ev Hst] _ IH]; [done|]. apply IH. by eapply rt_step_inv.
Qed.

(** ** Properties *)

(** [start] reports what is there: [Ok] with the port the runtime thread is listening on, which
    [port()] gives from then on; and an error only when that thread is over and nothing runs. *)
Theorem start_reports_the_runtime (self self' : EngineRuntime) (c : nat) : rt_reach self → rt_step self (RtReady c) = Some self' →
  (∃ port i t, rt_callers self' !! c = Some (CDone (Some (StartOk port))) ∧ Engine_port self' = Some port ∧ rt_running self' = Some (port, i) ∧
     rt_threads self' !! i = Some t ∧ th_ready t = Some (Ok port)) ∨
  (∃ r i t, rt_callers self !! c = Some (CStarting i) ∧ rt_callers self' !! c = Some (CDone (Some r)) ∧ (∀ port, r ≠ StartOk port) ∧
     Engine_port self' = None ∧ rt_threads self' !! i = Some t ∧ th_phase t = ThEnded).
Proof.
  intros HI%rt_reach_inv. cbn. unfold start_end. destruct (rt_callers self !! c) as [[i| | |]|] eqn:Hc; try done.
  destruct (rt_threads self !! i) as [t|] eqn:Ht; [|done]. csimpl. destruct (ri_starting _ HI _ _ Hc) as [Hl _]. destruct (ri_lock _ HI _ Hl) as [Hrun _].
  assert (Hlt : (c < length (rt_callers self))%nat) by by eapply lookup_lt_Some.
  destruct (th_ready t) as [[port|e]|] eqn:Hr; [|destruct (th_phase t) eqn:Hp; try done..]; intros [= <-].
  - left. exists port, i, t. cbn. by rewrite list_lookup_insert_eq by done.
  - right. exists (StartIo e), i, t. cbn. rewrite list_lookup_insert_eq by done. unfold Engine_port. cbn. rewrite Hrun. by split_and!.
  - right. exists StartInternal, i, t. cbn. rewrite list_lookup_insert_eq by done. unfold Engine_port. cbn. rewrite Hrun. by split_and!.
Qed.

Definition phase_rank (p : ThreadPhase) : nat :=
  match p with ThBuilding => 5 | ThBinding => 4 | ThNaming => 3 | ThServing _ => 2 | ThClosing => 1 | ThEnded => 0 end.
Lemma thread_move_rank t m t' : thread_move t m = Some t' → (phase_rank (th_phase t') < phase_rank (th_phase t))%nat.
Proof. unfold thread_move. destruct (th_phase t), m; try done; try (destruct (th_stop t); [|done]); intros [= <-]; cbn; lia. Qed.
(** The thread someone waits for can go on, and comes nearer to its end. *)
Definition goes_on (t : RtThread) : Prop := ∀ m, ∃ t', thread_move t m = Some t' ∧ (phase_rank (th_phase t') < phase_rank (th_phase t))%nat.
Lemma goes_on_if t : th_phase t ≠ ThEnded → (th_stop t = false → ∀ port, th_phase t ≠ ThServing port) → goes_on t.
Proof.
  intros Hp Hs m. destruct (thread_move t m) as [t'|] eqn:Hm; [exists t'; split; [done|by eapply thread_move_rank]|]. exfalso.
  unfold thread_move in Hm. destruct (th_phase t) eqn:Hph; try done; destruct m; try done; destruct (th_stop t) eqn:Hst; try done; by eapply Hs.
Qed.
(** Runtime threads do not pile up and nobody waits for one in vain, however [start], [stop] and the
    threads interleave. At most one thread that was not told to stop is alive; a call that waits can
    return or the thread it waits for is on its way, in at most five steps, to where it can; and when no
    call is under way and nothing runs, every thread is over but those stopped from within, which were told. *)
Theorem runtime_threads_end (self : EngineRuntime) : rt_reach self →
  (∀ i j t t', rt_threads self !! i = Some t → rt_threads self !! j = Some t' → th_phase t ≠ ThEnded → th_phase t' ≠ ThEnded →
     th_stop t = false → th_stop t' = false → i = j) ∧
  (∀ c i, rt_callers self !! c = Some (CStarting i) → is_Some (rt_step self (RtReady c)) ∨ ∃ t, rt_threads self !! i = Some t ∧ goes_on t) ∧
  (∀ c i, rt_callers self !! c = Some (CJoining i) → is_Some (rt_step self (RtJoined c)) ∨ ∃ t, rt_threads self !! i = Some t ∧ goes_on t) ∧
  ((∀ c caller, rt_callers self !! c = Some caller → ∃ r, caller = CDone r) → rt_running self = None →
     ∀ i t, rt_threads self !! i = Some t → th_phase t = ThEnded ∨ i ∈ rt_detached self ∧ th_stop t = true).
Proof.
  intros HI%rt_reach_inv. split_and!.
  - intros i j t t' Hi Hj Hp Hp' Hs Hs'. destruct (ri_owned _ HI _ _ Hi Hp Hs) as [[p Hr]|(c & Hl & Hc)], (ri_owned _ HI _ _ Hj Hp' Hs') as [[p' Hr']|(c' & Hl' & Hc')].
    + congruence.
    + destruct (ri_lock _ HI _ Hl'). congruence.
    + destruct (ri_lock _ HI _ Hl). congruence.
    + congruence.
  - intros c i Hc. destruct (ri_starting _ HI _ _ Hc) as [_ [t Ht]]. pose proof (ri_threads _ HI _ _ Ht) as Hok. cbn. unfold start_end. rewrite Hc, Ht. csimpl.
    unfold thread_ok in Hok. destruct (th_phase t) eqn:Hp.
    1-3: right; exists t; split; [done|]; apply goes_on_if; rewrite Hp; done.
    + rewrite Hok. left. by eexists.
    + destruct Hok as [port ->]. left. by eexists.
    + left. destruct (th_ready t) as [[]|]; by eexists.
  - intros c i Hc. destruct (ri_joining _ HI _ _ Hc) as (t & Ht & Hs). cbn. unfold stop_joined. rewrite Hc, Ht. csimpl.
    destruct (decide (phase_rank (th_phase t) = 0%nat)) as [Hz|Hz].
    + left. destruct (th_phase t); done || by eexists.
    + right. exists t. split; [done|]. apply goes_on_if; [by intros E; rewrite E in Hz|congruence].
  - intros Hdone Hrun i t Ht. destruct (decide (phase_rank (th_phase t) = 0%nat)) as [Hz|Hz]; [left; by destruct (th_phase t)|]. right.
    assert (Hp : th_phase t ≠ ThEnded) by (by intros E; rewrite E in Hz). destruct (th_stop t) eqn:Hs.
    + destruct (ri_stopping _ HI _ _ Ht Hp Hs) as [(c & Hc)|Hd]; [by destruct (Hdone _ _ Hc)|done].
    + destruct (ri_owned _ HI _ _ Ht Hp Hs) as [[p Hr]|(c & _ & Hc)]; [congruence|by destruct (Hdone _ _ Hc)].
Qed.

(** ** A run *)

Definition rt_run (self : EngineRuntime) (evs : list RtEvent) : option EngineRuntime :=
  foldl (λ st ev, st ≫= λ self, rt_step self ev) (Some self) evs.
Lemma rt_run_reach evs self : rt_run EngineRuntime_new evs = Some self → rt_reach self.
Proof.
  revert self. unfold rt_run. induction evs as [|ev evs IH] using rev_ind; intros self Hrun; [injection Hrun as <-; constructor|].
  rewrite foldl_app in Hrun. cbn in Hrun. apply bind_Some in Hrun as (self0 & H0 & Hst). eapply rtc_r; [by apply IH|]. by exists ev.
Qed.
Definition started_events : list RtEvent :=
  [RtStart true None; RtThreadMoves 0 (MoveOk 0); RtThreadMoves 0 (MoveOk 0); RtThreadMoves 0 (MoveOk 8080)].
Definition after_started : EngineRuntime := default EngineRuntime_new (rt_run EngineRuntime_new started_events).
Definition after_ready : EngineRuntime := default EngineRuntime_new (rt_step after_started (RtReady 0)).
Lemma start_reports_the_runtime_witness : Engine_port after_ready = Some 8080 ∧
  ∃ port i t, rt_running after_ready = Some (port, i) ∧ rt_threads after_ready !! i = Some t ∧ th_ready t = Some (Ok port).
Proof.
  split; [reflexivity|].
  destruct (start_reports_the_runtime after_started after_ready 0 (rt_run_reach started_events after_started eq_refl) eq_refl)
    as [(port & i & t & _ & _ & Hr & Ht & Hrd)|(r & i & t & _ & _ & _ & Hn & _)]; [by exists port, i, t|discriminate Hn].
Defined.
Lemma runtime_threads_end_witness : is_Some (rt_step after_started (RtReady 0)) ∨ ∃ t, rt_threads after_started !! 0%nat = Some t ∧ goes_on t.
Proof.
  destruct (runtime_threads_end after_started (rt_run_reach started_events after_started eq_refl)) as (_ & Hstart & _).
  apply (Hstart 0%nat 0%nat). reflexivity.
Defined.
