(* ===== verification/Controls.v ===== *)
(** * What the app sees and resets ([tollgate-ffi/src/engine.rs], [controls.rs], [common/src/stats.rs])

    The counters as the app gets them, the blocked log, the learned pins, and [reset_connections],
    which reaches the policy, the pool, the relays and the resolver. *)
From S2P Require Import Prelude RustStr Collections Net HostPattern Bundled Policy PolicyFacts PolicyTrace PolicyProps Common Io UpstreamError Http Request Outbound Pool Tunnel Doh DohTrace Resolver RootCa PinsStore.
Import PathGone.

(** ** Counters *)

(** [tollgate_common::stats::StatsSnapshot] and the record of the same fields that the app gets. *)
Record StatsSnapshot := {
  ss_dns_queries : Z; ss_dns_blocked : Z; ss_dns_cache_hits : Z; ss_dns_forwarded : Z; ss_dns_failed : Z; ss_packets_dropped : Z;
  ss_http_requests : Z; ss_http_blocked : Z; ss_connections_intercepted : Z; ss_connections_passthrough : Z;
  ss_tls_client_rejections : Z; ss_tls_abandoned_after_handshake : Z; ss_tls_silent_refusals : Z
}.
Record FfiStats := {
  fs_dns_queries : Z; fs_dns_blocked : Z; fs_dns_cache_hits : Z; fs_dns_forwarded : Z; fs_dns_failed : Z; fs_packets_dropped : Z;
  fs_http_requests : Z; fs_http_blocked : Z; fs_connections_intercepted : Z; fs_connections_passthrough : Z;
  fs_tls_client_rejections : Z; fs_tls_abandoned_after_handshake : Z; fs_tls_silent_refusals : Z
}.

(** The counters are loaded one by one: [at_ k] is what they are at the [k]-th load. *)
Definition snapshot (at_ : nat → Stats) : StatsSnapshot :=
  {| ss_dns_queries := at_ 0%nat dns_queries;
     ss_dns_blocked := at_ 1%nat dns_blocked;
     ss_dns_cache_hits := at_ 2%nat dns_cache_hits;
     ss_dns_forwarded := at_ 3%nat dns_forwarded;
     ss_dns_failed := at_ 4%nat dns_failed;
     ss_packets_dropped := at_ 5%nat packets_dropped;
     ss_http_requests := at_ 6%nat http_requests;
     ss_http_blocked := at_ 7%nat http_blocked;
     ss_connections_intercepted := at_ 8%nat connections_intercepted;
     ss_connections_passthrough := at_ 9%nat connections_passthrough;
     ss_tls_client_rejections := at_ 10%nat tls_client_rejections;
     ss_tls_abandoned_after_handshake := at_ 11%nat tls_abandoned_after_handshake;
     ss_tls_silent_refusals := at_ 12%nat tls_silent_refusals |}.
Definition FfiStats_from (s : StatsSnapshot) : FfiStats :=
  {| fs_dns_queries := ss_dns_queries s;
     fs_dns_blocked := ss_dns_blocked s;
     fs_dns_cache_hits := ss_dns_cache_hits s;
     fs_dns_forwarded := ss_dns_forwarded s;
     fs_dns_failed := ss_dns_failed s;
     fs_packets_dropped := ss_packets_dropped s;
     fs_http_requests := ss_http_requests s;
     fs_http_blocked := ss_http_blocked s;
     fs_connections_intercepted := ss_connections_intercepted s;
     fs_connections_passthrough := ss_connections_passthrough s;
     fs_tls_client_rejections := ss_tls_client_rejections s;
     fs_tls_abandoned_after_handshake := ss_tls_abandoned_after_handshake s;
     fs_tls_silent_refusals := ss_tls_silent_refusals s |}.
Definition Engine_stats (at_ : nat → Stats) : FfiStats := FfiStats_from (snapshot at_).

(** ** The blocked log and the pins *)

Inductive FfiEventKind := FfiDns | FfiRequest.
Record FfiBlockEvent := {
  fe_unix_secs : Z;
  fe_kind : FfiEventKind;
  fe_host : bytes;
  fe_url : option bytes;
  fe_source_host : option bytes
}.
Definition FfiBlockEvent_from (e : BlockEvent) : FfiBlockEvent :=
  {| fe_unix_secs := ev_unix_secs e;
     fe_kind := match ev_kind e with EventDns => FfiDns | EventRequest => FfiRequest end;
     fe_host := ev_host e; fe_url := ev_url e; fe_source_host := ev_source_host e |}.
(** [limit] is a [u32]. *)
Definition recent_events (events : EventLog) (limit : Z) : list FfiBlockEvent :=
  FfiBlockEvent_from <$> EventLog_recent events (Z.to_nat limit).
Record LearnedPin := { lp_host : bytes; lp_learned_at : Z }.

(** ** Resetting *)

(** What [reset_connections] reaches: the policy's learning, the two counts of the proxy's context
    and the resolver while the runtime is there. *)
Record Network := {
  nw_learning : Learning;
  nw_upstream_resets : Z;
  nw_path_resets : Z;
  nw_resolver : option Resolver
}.
Definition reset_upstream_connections (self : Network) : Network :=
  {| nw_learning := nw_learning self; nw_upstream_resets := wrap64 (nw_upstream_resets self + 1);
     nw_path_resets := wrap64 (nw_path_resets self + 1); nw_resolver := nw_resolver self |}.
(** [DohResolver::reset_connections] begins; its accesses are steps of the resolver. *)
Definition resolver_reset (self : Resolver) : Resolver :=
  {| rv_free := rv_free self; rv_forward := rv_forward self; rv_turns := rv_turns self; rv_upstreams := rv_upstreams self;
     rv_clients := rv_clients self; rv_probes := rv_probes self; rv_resets := (0%nat, RCount) :: rv_resets self |}.
Definition Engine_reset_connections (self : Network) (wall : Z) : Network :=
  let self := {| nw_learning := on_network_change (nw_learning self) wall; nw_upstream_resets := nw_upstream_resets self;
                 nw_path_resets := nw_path_resets self; nw_resolver := nw_resolver self |} in
  let self := reset_upstream_connections self in
  {| nw_learning := nw_learning self; nw_upstream_resets := nw_upstream_resets self; nw_path_resets := nw_path_resets self;
     nw_resolver := resolver_reset <$> nw_resolver self |}.

(** ** Facts *)

Definition ffi_get (s : FfiStats) (c : Counter) : Z :=
  match c with
  | dns_queries => fs_dns_queries s | dns_blocked => fs_dns_blocked s | dns_cache_hits => fs_dns_cache_hits s
  | dns_forwarded => fs_dns_forwarded s | dns_failed => fs_dns_failed s | packets_dropped => fs_packets_dropped s
  | http_requests => fs_http_requests s | http_blocked => fs_http_blocked s
  | connections_intercepted => fs_connections_intercepted s | connections_passthrough => fs_connections_passthrough s
  | tls_client_rejections => fs_tls_client_rejections s | tls_abandoned_after_handshake => fs_tls_abandoned_after_handshake s
  | tls_silent_refusals => fs_tls_silent_refusals s
  end.
(** The load of each counter. *)
Definition load_of (c : Counter) : nat :=
  match c with
  | dns_queries => 0 | dns_blocked => 1 | dns_cache_hits => 2 | dns_forwarded => 3 | dns_failed => 4 | packets_dropped => 5
  | http_requests => 6 | http_blocked => 7 | connections_intercepted => 8 | connections_passthrough => 9
  | tls_client_rejections => 10 | tls_abandoned_after_handshake => 11 | tls_silent_refusals => 12
  end.
Lemma ffi_get_stats at_ c : ffi_get (Engine_stats at_) c = at_ (load_of c) c.
Proof. by destruct c. Qed.

(** The counters after the first increments of a history. *)
Definition counted_to (base : Stats) (incs : list Counter) (k : nat) : Stats := foldl (λ s c, Stats_inc c s) base (take k incs).
Definition times (c : Counter) (incs : list Counter) : Z := len (filter (λ d, d = c) incs).
Lemma counted_all incs : ∀ (base : Stats) c, 0 <= base c → base c + times c incs <= U64_MAX →
  foldl (λ s c, Stats_inc c s) base incs c = base c + times c incs.
Proof.
  induction incs as [|d incs IH]; intros base c Hb Hm; simpl; [unfold times, len; simpl; lia|].
  unfold times in *. rewrite filter_cons in *. destruct (decide (d = c)) as [->|Hne].
  - unfold len in *. cbn [length] in *. rewrite IH; rewrite Stats_inc_same by lia; lia.
  - rewrite IH; rewrite Stats_inc_other by done; done.
Qed.
Lemma times_take c incs k : times c (take k incs) <= times c incs.
Proof. unfold times, len. rewrite <-(take_drop k incs) at 2. rewrite filter_app, length_app. lia. Qed.

(** The counters the app gets are real ones and each under its own name: whatever is counted while
    they are read one by one, every value is the counter's own at one moment between the first and the
    last load, so never below what it was when reading began nor above what it was when it ended; and
    when nothing is counted meanwhile they are the counters of that moment. *)
Theorem snapshot_between (base : Stats) (incs : list Counter) (moments : nat → nat) (c : Counter) :
  0 <= base c → base c + times c incs <= U64_MAX →
  let at_ k := counted_to base incs (moments k) in
  base c <= ffi_get (Engine_stats at_) c <= counted_to base incs (length incs) c ∧
  ffi_get (Engine_stats at_) c = counted_to base incs (moments (load_of c)) c ∧
  (incs = [] → ffi_get (Engine_stats at_) c = base c).
Proof.
  intros Hb Hm at_. rewrite ffi_get_stats. unfold at_, counted_to. rewrite firstn_all.
  pose proof (times_take c incs (moments (load_of c))) as Ht. rewrite !counted_all by lia.
  split_and!; [unfold times, len in *; lia|lia|done|]. intros ->. rewrite take_nil. unfold times, len. simpl. lia.
Qed.

Inductive LogCall := Record_ (e : BlockEvent) | Clear_.
Definition log_after (calls : list LogCall) : EventLog :=
  foldl (λ log call, match call with Record_ e => EventLog_record log e | Clear_ => EventLog_clear log end) [] calls.
(** What was recorded since the log was emptied last. *)
Definition since_clear (calls : list LogCall) : list BlockEvent :=
  foldl (λ es call, match call with Record_ e => es ++ [e] | Clear_ => [] end) [] calls.
Definition kept_event (e : BlockEvent) : BlockEvent :=
  {| ev_unix_secs := ev_unix_secs e; ev_kind := ev_kind e; ev_host := truncate_at_char_boundary (ev_host e) MAX_HOST_BYTES;
     ev_url := (λ url, truncate_at_char_boundary url MAX_URL_BYTES) <$> ev_url e;
     ev_source_host := (λ source, truncate_at_char_boundary source MAX_HOST_BYTES) <$> ev_source_host e |}.

(** The log is the end of what was recorded. *)
Lemma log_after_last calls : log_after calls = drop (length (since_clear calls) - EVENT_CAPACITY) (kept_event <$> since_clear calls).
Proof.
  induction calls as [|call calls IH] using rev_ind; [done|].
  assert (log_after (calls ++ [call]) = match call with Record_ e => EventLog_record (log_after calls) e | Clear_ => [] end) as ->
    by (unfold log_after; by rewrite foldl_app).
  assert (since_clear (calls ++ [call]) = match call with Record_ e => since_clear calls ++ [e] | Clear_ => [] end) as ->
    by (unfold since_clear; by rewrite foldl_app).
  destruct call as [e|]; [|done]. set (es := since_clear calls) in *.
  unfold EventLog_record. fold (kept_event e). rewrite fmap_app, length_app. cbn [fmap list_fmap length]. rewrite IH, length_drop, length_fmap.
  destruct (Nat.leb_spec EVENT_CAPACITY (length es - (length es - EVENT_CAPACITY))) as [Hc|Hc].
  - rewrite drop_drop, (drop_app_le (kept_event <$> es)) by (rewrite length_fmap; unfold EVENT_CAPACITY in *; lia).
    f_equal. f_equal. unfold EVENT_CAPACITY in *. lia.
  - replace (length es - EVENT_CAPACITY)%nat with 0%nat by lia. replace (length es + 1 - EVENT_CAPACITY)%nat with 0%nat by lia. done.
Qed.
Lemma reverse_drop {A} (l : list A) n : reverse (drop n l) = take (length l - n) (reverse l).
Proof. rewrite <-(take_drop n l) at 3. rewrite reverse_app, take_app_le, take_ge; rewrite ?length_reverse, ?length_drop; done || lia. Qed.

(** The app is shown exactly the last blocks. Over any history of blocks recorded and the log
    emptied, [recent_events] gives the blocks since the log was emptied last, newest first, as many as
    asked for and at most 500, with their own time, kind, host, URL and page, the texts cut to their
    limits between two characters. *)
Theorem recent_events_are_the_last (calls : list LogCall) (limit : Z) :
  recent_events (log_after calls) limit =
  FfiBlockEvent_from <$> take (Z.to_nat limit `min` EVENT_CAPACITY) (reverse (kept_event <$> since_clear calls)).
Proof.
  unfold recent_events, EventLog_recent. f_equal. rewrite log_after_last, reverse_drop, take_take, length_fmap.
  destruct (Nat.le_gt_cases (length (since_clear calls)) EVENT_CAPACITY) as [Hl|Hl].
  - replace (length (since_clear calls) - EVENT_CAPACITY)%nat with 0%nat by lia. rewrite Nat.sub_0_r.
    destruct (Nat.le_gt_cases (length (since_clear calls)) (Z.to_nat limit)) as [Hn|Hn].
    + rewrite !take_ge; [done|..]; rewrite length_reverse, length_fmap; lia.
    + f_equal. lia.
  - f_equal. lia.
Qed.

(** [reset_connections] reaches everything that may hang on to the old network. The policy takes
    back its recent pins; at its next access the pool forgets every idle connection, every shared one
    and what it knew of failed dials; every relay that had seen the last reset is told and checks its
    source address; and the resolver, when there is one, begins a reset of each of its upstreams. *)
Theorem reset_reaches_everything (self : Network) (wall : Z) (pool : Pool) (w : PathWorld unit) :
  resets_seen pool = nw_upstream_resets self → 0 <= nw_upstream_resets self <= U64_MAX →
  pn_version w = nw_path_resets self → pw_seen (pn_self w) = nw_path_resets self → 0 <= nw_path_resets self <= U64_MAX →
  let self' := Engine_reset_connections self wall in
  let pool' := hosts_lock pool (nw_upstream_resets self') in
  let w' := {| pn_now := pn_now w; pn_version := nw_path_resets self'; pn_closed := pn_closed w; pn_gone_since := pn_gone_since w;
               pn_last_reset := Some (pn_now w); pn_self := pn_self w |} in
  nw_learning self' = on_network_change (nw_learning self) wall ∧
  (∀ target host, hosts pool' !! target = Some host → h_idle host = [] ∧ h_h2 host = None ∧ h_last_dial host = None) ∧
  resets_seen pool' = nw_upstream_resets self' ∧
  changed w' = Some (Some (nw_path_resets self')) ∧
  match nw_resolver self, nw_resolver self' with
  | Some r, Some r' => resolver_step r r' ∧ rv_resets r' = (0%nat, RCount) :: rv_resets r
  | None, None => True
  | _, _ => False
  end.
Proof.
  intros Hp Hu Hv Hs Hw self' pool' w'.
  assert (∀ v, 0 <= v <= U64_MAX → wrap64 (v + 1) ≠ v) as Hne.
  { intros v Hv'. unfold wrap64, U64_MAX in *. destruct (decide (v = 2 ^ 64 - 1)) as [->|]; [vm_compute; congruence|].
    rewrite Z.mod_small by lia. lia. }
  split_and!; [done|..].
  - intros target host. unfold pool', hosts_lock. simpl. rewrite Hp, (proj2 (Z.eqb_neq _ _)) by (intros E; by apply (Hne (nw_upstream_resets self))).
    simpl. rewrite lookup_fmap. by intros (h & _ & ->)%fmap_Some.
  - unfold pool', hosts_lock. by case_match eqn:He; [apply Z.eqb_eq in He|].
  - unfold changed, w'. simpl. by rewrite Hs, (proj2 (Z.eqb_neq _ _)) by (by apply Hne).
  - simpl. destruct (nw_resolver self) as [r|]; simpl; [|done]. split; [apply rv_reset_begin|done].
Qed.

(** ** Pins *)

Section pins.
Context `{PinsJson, HashOrder}.

Definition Engine_learned_pins (l : Learning) : list LearnedPin :=
  (λ '(host, learned_at), {| lp_host := host; lp_learned_at := learned_at |}) <$> learned_pins l.
(** [forget_pins]: the policy forgets, then [save(true)] begins on the caller's thread. *)
Definition Engine_forget_pins (self : Writer) (hosts : list bytes) : Writer * Z :=
  let '(l, removed) := forget_pins (policy_now self) hosts in
  let history := l :: wr_history self in
  ({| wr_fs := wr_fs self; wr_history := history; wr_saved := wr_saved self; wr_lock := wr_lock self;
      wr_savers := wr_savers self ++ [SaveWaits true (pred (length history))]; wr_file := wr_file self |},
   count_u32 removed).

Lemma forget_pins_steps dir self hosts : pins_run dir self [PinsLearn (forget_pins (policy_now self) hosts).1; PinsCall] = Some (Engine_forget_pins self hosts).1.
Proof. unfold Engine_forget_pins. by destruct (forget_pins (policy_now self) hosts). Qed.

Definition since_of (s : Saver) : nat :=
  match s with SaveWaits _ since | SaveLocked _ since | SaveWrites since _ _ | SaveOnDisk since _ _ _ _ | SaveDone since _ _ => since end.
(** A call of [save] keeps the age it began with, and the history grows. *)
Lemma save_keeps_since dir self e self' i s : pins_step dir self e = Some self' → wr_savers self !! i = Some s →
  (∃ s', wr_savers self' !! i = Some s' ∧ since_of s' = since_of s) ∧ ∃ newer, wr_history self' = newer ++ wr_history self.
Proof.
  intros Hs Hi. destruct e as [l| | |j pid unique wiped answers]; simpl in Hs.
  - simplify_eq. split; [by exists s|by exists [l]].
  - case_match; simplify_eq; simpl; (split; [|by exists []]); exists s; [|done]. split; [by apply lookup_app_l_Some|done].
  - simplify_eq. simpl. split; [|by exists []]. exists s. split; [by apply lookup_app_l_Some|done].
  - unfold save_move in Hs. destruct (wr_savers self !! j) as [sj|] eqn:Hj; [|done].
    assert (∃ sj', wr_savers self' = <[j := sj']> (wr_savers self) ∧ since_of sj' = since_of sj ∧ wr_history self' = wr_history self) as (sj' & Esv & Esi & ->).
    { destruct sj as [? ?|? ?|? ? ?|? ? ? [|? ?] ?|]; simpl in Hs; repeat case_match; simplify_eq; by eexists. }
    split; [|by exists []]. rewrite Esv. destruct (decide (j = i)) as [->|Hne]; [|exists s; by rewrite list_lookup_insert_ne].
    exists sj'. rewrite list_lookup_insert_eq by (by eapply lookup_lt_Some). by simplify_eq.
Qed.
Lemma reach_keeps_since dir self self' i s : pins_reach dir self self' → wr_savers self !! i = Some s →
  (∃ s', wr_savers self' !! i = Some s' ∧ since_of s' = since_of s) ∧ ∃ newer, wr_history self' = newer ++ wr_history self.
Proof.
  intros Hr. revert s. induction Hr as [w|w w1 w2 [e He] _ IH]; intros s Hs; [split; [by exists s|by exists []]|].
  destruct (save_keeps_since _ _ _ _ _ _ He Hs) as [(s1 & Hs1 & E1) [n1 Hn1]]. destruct (IH _ Hs1) as [(s2 & Hs2 & E2) [n2 Hn2]].
  split; [exists s2; split; [done|congruence]|]. exists (n2 ++ n1). by rewrite Hn2, Hn1, app_assoc.
Qed.

(** Pins the app forgets are gone, from the policy at once and from the disk when its save is
    done. However other saves and what the policy learns overlap with it: when the save that
    [forget_pins] began has succeeded, the file holds the pins the policy had then or later, and if the
    policy has learned nothing since, none of the forgotten hosts; the returned count is how many pins
    that removed. *)
Theorem forgotten_pins_leave_the_disk (dir : bytes) (fs : gmap bytes bytes) (l0 : Learning) (w w' : Writer) (hosts : list bytes) (since at_ : nat) :
  pins_reach dir (PinsFile_new fs l0) w →
  let '(w1, removed) := Engine_forget_pins w hosts in
  pins_reach dir w1 w' → wr_savers w' !! length (wr_savers w) = Some (SaveDone since at_ true) →
  removed = count_u32 (size (pins (policy_now w)) - size (pins (policy_now w1))) ∧
  (∀ host, host ∈ hosts → pins (policy_now w1) !! lookup_key host = None) ∧
  (∃ age l, (age_now w1 ≤ age)%nat ∧ aged (wr_history w') age = Some l ∧ wr_fs w' !! pins_path dir = Some (learned_pins_json l)) ∧
  (wr_history w' = wr_history w1 → wr_fs w' !! pins_path dir = Some (learned_pins_json (policy_now w1))).
Proof.
  intros Hw. pose proof (forget_pins_steps dir w hosts) as Hsteps. pose proof (forget_pins_acc hosts (policy_now w) 0) as Hacc.
  cbv zeta in Hacc. fold (forget_pins (policy_now w) hosts) in Hacc. destruct Hacc as [Hpins Hcount].
  unfold Engine_forget_pins in *. destruct (forget_pins (policy_now w) hosts) as [l removed] eqn:Hf. cbn [fst snd] in *.
  set (w1 := {| wr_fs := wr_fs w; wr_history := l :: wr_history w |}) in *. intros Hw' Hdone.
  apply pins_run_reach in Hsteps.
  destruct (pins_reach_inv _ _ _ _ (PinsFile_new_inv dir fs l0) Hw) as [Hi _].
  destruct (pins_reach_inv _ _ _ _ Hi Hsteps) as [Hi1 _]. destruct (pins_reach_inv _ _ _ _ Hi1 Hw') as [Hi' _].
  assert (wr_savers w1 !! length (wr_savers w) = Some (SaveWaits true (age_now w1))) as Hs1 by (unfold w1; simpl; by rewrite lookup_app_r, Nat.sub_diag).
  destruct (reach_keeps_since _ _ _ _ _ Hw' Hs1) as [(s' & Hs' & Hsince) _]. rewrite Hdone in Hs'. simplify_eq. simpl in Hsince. subst since.
  destruct (pv_savers _ _ _ Hi' _ _ Hdone eq_refl) as (a & Hfile & Hage). destruct (pv_file _ _ _ Hi' a Hfile) as (l' & Hl' & Hd).
  split_and!.
  - change (policy_now w1) with l. f_equal. lia.
  - intros host Hh. change (policy_now w1) with l. rewrite Hpins. apply map_lookup_filter_None_2. right. intros t _ Hk. apply Hk. simpl. by apply list_elem_of_fmap_2.
  - exists a, l'. done.
  - intros E. rewrite E in Hl'. assert (a = age_now w1) as ->.
    { pose proof (pv_age _ _ _ Hi' a Hfile) as Hle. unfold age_now in *. rewrite E in Hle. lia. }
    unfold aged, age_now, w1 in Hl'. simpl in Hl'. rewrite reverse_cons, lookup_app_r, length_reverse, Nat.sub_diag in Hl' by (by rewrite length_reverse).
    simpl in Hl'. simplify_eq. done.
Qed.
End pins.

(** ** Examples *)

Lemma snapshot_between_witness : ffi_get (Engine_stats (λ k, counted_to Stats_default [dns_queries; dns_blocked; dns_queries] (if (k =? 0)%nat then 1 else 3))) dns_queries = 1.
Proof.
  rewrite (proj1 (proj2 (snapshot_between Stats_default [dns_queries; dns_blocked; dns_queries] (λ k, if (k =? 0)%nat then 1%nat else 3%nat) dns_queries
    ltac:(vm_compute; discriminate) ltac:(vm_compute; discriminate)))).
  vm_compute. reflexivity.
Defined.
Definition example_network : Network :=
  {| nw_learning := Learning_default; nw_upstream_resets := U64_MAX; nw_path_resets := 4; nw_resolver := Some (Resolver_new 2 96) |}.
Definition example_watch : PathWorld unit :=
  {| pn_now := 10; pn_version := 4; pn_closed := false; pn_gone_since := None; pn_last_reset := None;
     pn_self := {| pw_seen := 4; pw_recheck := None; pw_only_relay := false; pw_ended := None |} |}.
Lemma reset_reaches_everything_witness :
  nw_upstream_resets (Engine_reset_connections example_network 7) = 0 ∧
  resets_seen (hosts_lock (Pool_new U64_MAX) (nw_upstream_resets (Engine_reset_connections example_network 7))) = 0.
Proof.
  split; [vm_compute; reflexivity|].
  destruct (reset_reaches_everything example_network 7 (Pool_new U64_MAX) example_watch) as (_ & _ & Hseen & _);
    [reflexivity|vm_compute; split; discriminate|reflexivity|reflexivity|vm_compute; split; discriminate|].
  cbv zeta in Hseen. rewrite Hseen. vm_compute. reflexivity.
Defined.
Definition example_pinned : Writer := @PinsFile_new countable_json trie_order ∅ example_pins.
Definition example_forgetting : Writer := (Engine_forget_pins example_pinned [lit "a.com"]).1.
Definition example_forgotten : Writer := example_runs example_forgetting (replicate 8 (example_move 0)).
Lemma forgotten_pins_leave_the_disk_witness :
  wr_fs example_forgotten !! pins_path (lit "d") = Some (@learned_pins_json countable_json trie_order (policy_now example_forgetting)) ∧
  pins (policy_now example_forgetting) !! lit "a.com" = None.
Proof.
  destruct (@forgotten_pins_leave_the_disk countable_json trie_order (lit "d") ∅ example_pins example_pinned example_forgotten [lit "a.com"] 1 1
    (rtc_refl _ _)) as (_ & Hgone & _ & Hfile).
  - eapply (@pins_run_reach countable_json trie_order (lit "d") (replicate 8 (example_move 0))). vm_compute. reflexivity.
  - vm_compute. reflexivity.
  - split; [apply Hfile; vm_compute; reflexivity|]. apply (Hgone (lit "a.com")). apply list_elem_of_here.
Defined.
