(* ===== verification/Logging.v ===== *)
(** * Logging ([mitm/src/throttle.rs], [tollgate-ffi/src/logging.rs])

    The throttle that lets a line through at most once per key and interval: instants and durations are
    [Z], and the clock's reading is an argument of [allow].

    The bridge to the platform's log: records of the [log] facade handed to the app's logger. The app's logger is a parameter: called with
    a record it may log through Rust again, on the same thread, and it may panic, upon which the panic
    hook logs too. The facade itself drops what is above its own limit ([log::set_max_level]). *)
From S2P Require Import Prelude RustStr Collections.

(** * The throttle *)

Definition MAX_KEYS : nat := 256.

Record LogThrottle := {
  interval : Z;
  last : gmap bytes Z
}.
Definition LogThrottle_new (interval : Z) : LogThrottle := {| interval := interval; last := ∅ |}.

Definition throttle_recent (self : LogThrottle) (now at_ : Z) : bool := sat_sub now at_ <? interval self.

(** The table after the call and whether the caller logs. *)
Definition allow (self : LogThrottle) (key : bytes) (now : Z) : LogThrottle * bool :=
  if default false (throttle_recent self now <$> last self !! key) then (self, false)
  else
    let full := (MAX_KEYS <=? size (last self))%nat in
    let kept := if full then retain (λ _ at_, throttle_recent self now at_) (last self) else last self in
    if full && (MAX_KEYS <=? size kept)%nat then ({| interval := interval self; last := kept |}, false)
    else ({| interval := interval self; last := <[key := now]> kept |}, true).

(** ** Facts *)

(** The throttle after a history of calls, oldest first. *)
Definition after_calls (self : LogThrottle) (calls : list (bytes * Z)) : LogThrottle :=
  foldl (λ s c, (allow s c.1 c.2).1) self calls.

Lemma allow_interval self key now : interval (allow self key now).1 = interval self.
Proof. unfold allow. by repeat case_match. Qed.

Lemma allow_size self key now : (size (last self) ≤ MAX_KEYS)%nat → (size (last (allow self key now).1) ≤ MAX_KEYS)%nat.
Proof.
  intros Hs. unfold allow. destruct (default false _); [done|].
  destruct (Nat.leb_spec MAX_KEYS (size (last self))) as [Hf|Hf]; cbn [andb].
  - destruct (Nat.leb_spec MAX_KEYS (size (retain (λ _ at_, throttle_recent self now at_) (last self)))) as [Hk|Hk];
      cbn [fst last]; pose proof (size_subseteq _ _ (retain_subseteq (λ _ at_, throttle_recent self now at_) (last self))).
    + lia.
    + rewrite map_size_insert. destruct (_ !! key); simpl; lia.
  - cbn [fst last]. rewrite map_size_insert. destruct (_ !! key); simpl; lia.
Qed.

(** A key whose last logging is recent is still in the table, and refused. *)
Lemma allow_keeps self key now k at_ : last self !! k = Some at_ → throttle_recent self now at_ = true →
  ∃ at', last (allow self key now).1 !! k = Some at' ∧ (at' = at_ ∨ k = key ∧ at' = now) ∧
  (k = key → (allow self key now).2 = false).
Proof.
  intros Hk Hr. unfold allow. destruct (decide (k = key)) as [<-|Hne].
  - rewrite Hk. simpl. rewrite Hr. simpl. eauto 10.
  - destruct (default false _); [eauto 10|].
    assert (retain (λ _ at_, throttle_recent self now at_) (last self) !! k = Some at_) as Hret
      by (by apply retain_lookup).
    exists at_. split_and!; [|by left|done].
    destruct (Nat.leb_spec MAX_KEYS (size (last self))); cbn [andb]; [destruct (Nat.leb _ _)|];
      cbn [fst last]; rewrite ?lookup_insert_ne by done; done.
Qed.

Lemma allow_true self key now : (allow self key now).2 = true → last (allow self key now).1 !! key = Some now.
Proof.
  unfold allow. destruct (default false _); [done|]. destruct (_ && _); [done|].
  intros _. cbn [fst last]. by rewrite lookup_insert_eq.
Qed.

Lemma after_calls_interval calls self : interval (after_calls self calls) = interval self.
Proof. revert self. induction calls as [|c calls IH]; intros self; [done|]. simpl. by rewrite IH, allow_interval. Qed.
Lemma after_calls_size calls self : (size (last self) ≤ MAX_KEYS)%nat →
  (size (last (after_calls self calls)) ≤ MAX_KEYS)%nat.
Proof. revert self. induction calls as [|c calls IH]; intros self Hs; [done|]. by apply IH, allow_size. Qed.

Lemma after_calls_keeps calls self key at_ t : last self !! key = Some at_ → t - at_ < interval self →
  Forall (λ c, at_ <= c.2 <= t) calls → last (after_calls self calls) !! key = Some at_.
Proof.
  revert self. induction calls as [|[k now] calls IH]; intros self Hl Ht Hall; [done|].
  apply Forall_cons in Hall as [Hn Hall]. simpl in *. apply IH; [|by rewrite allow_interval|done].
  assert (throttle_recent self now at_ = true) as Hr by (unfold throttle_recent, sat_sub; apply Z.ltb_lt; lia).
  destruct (allow_keeps self k now key at_ Hl Hr) as (at' & Hl' & [->|[<- ->]] & Hno); [done|].
  unfold allow. rewrite Hl. simpl. by rewrite Hr.
Qed.

(** A condition is logged at most once per key and interval, whatever the traffic on other
    keys between two loggings, and the table never holds more than [MAX_KEYS] keys. *)
Theorem logged_once_per_interval (period t1 t2 : Z) (key : bytes) (before between : list (bytes * Z)) :
  let throttle1 := after_calls (LogThrottle_new period) before in
  let throttle2 := after_calls (LogThrottle_new period) (before ++ (key, t1) :: between) in
  t1 <= t2 → Forall (λ c, t1 <= c.2 <= t2) between →
  (allow throttle1 key t1).2 = true → (allow throttle2 key t2).2 = true →
  period <= t2 - t1 ∧ (size (last throttle2) ≤ MAX_KEYS)%nat.
Proof.
  intros throttle1 throttle2 H12 Hall Ha1 Ha2. split.
  - destruct (decide (period <= t2 - t1)) as [|Hlt]; [done|exfalso].
    assert (last throttle2 !! key = Some t1) as Hl2.
    { unfold throttle2, after_calls. rewrite foldl_app. cbn [foldl fst snd].
      apply (after_calls_keeps between _ key t1 t2); [by apply allow_true| |done].
      rewrite allow_interval. fold throttle1. unfold throttle1. rewrite after_calls_interval. simpl. lia. }
    unfold allow in Ha2. rewrite Hl2 in Ha2. simpl in Ha2. unfold throttle_recent, sat_sub in Ha2.
    unfold throttle2 in Ha2. rewrite after_calls_interval in Ha2. simpl interval in Ha2.
    destruct (Z.ltb_spec (Z.max 0 (t2 - t1)) period); [done|lia].
  - apply after_calls_size. simpl. rewrite map_size_empty. lia.
Qed.

Lemma logged_once_per_interval_witness : 60 <= 100 - 7.
Proof.
  refine (proj1 (logged_once_per_interval 60 7 100 (lit "a.test") [] [(lit "a.test", 50); (lit "b.test", 60)] _ _ _ _)).
  - lia.
  - repeat constructor; simpl; lia.
  - vm_compute. reflexivity.
  - vm_compute. reflexivity.
Defined.

(** * The bridge *)

Inductive LogLevel := LevelError | LevelWarn | LevelInfo | LevelDebug | LevelTrace.
(** [level as usize], for [log::Level] and [log::LevelFilter] (whose 0 is off). *)
Definition level_number (level : LogLevel) : nat :=
  match level with LevelError => 1 | LevelWarn => 2 | LevelInfo => 3 | LevelDebug => 4 | LevelTrace => 5 end.
Record LogRecord := { lr_level : LogLevel; lr_target : bytes; lr_message : bytes }.

(** What the app's logger number [n] does with a record: the records it logs, and whether it panics. *)
Definition CoreLogger : Type := nat → LogRecord → list LogRecord * bool.

(** [BRIDGE], and what [set_logger] keeps besides: the facade's limit, whether the bridge is the logger
    of the facade and the panic hook is there. *)
Record Bridge := {
  br_logger : option nat;
  br_max_level : nat;
  br_facade_max : nat;
  br_installed : option bool
}.
Definition Bridge_new : Bridge := {| br_logger := None; br_max_level := 0; br_facade_max := 0; br_installed := None |}.

(** [taken]: another [log] implementation was installed first. *)
Definition set_logger (self : Bridge) (logger : nat) (max_level : LogLevel) (taken : bool) : Bridge :=
  {| br_logger := Some logger; br_max_level := level_number max_level; br_facade_max := level_number max_level;
     br_installed := match br_installed self with Some b => Some b | None => Some (negb taken) end |}.

(** What a thread has: whether it is handing a record to the app, and the records handed over, newest
    first, each with its logger. *)
Record LogThread := { lt_forwarding : bool; lt_handed : list (nat * LogRecord) }.

Section bridge.
Context (app : CoreLogger).

Definition Bridge_enabled (self : Bridge) (record : LogRecord) : bool := (level_number (lr_level record) <=? br_max_level self)%nat.

(** The panic hook's record. *)
Definition panic_record : LogRecord := {| lr_level := LevelError; lr_target := lit "panic"; lr_message := [] |}.

(** Records one after the other. *)
Fixpoint log_each (log : LogThread → LogRecord → option LogThread) (thread : LogThread) (records : list LogRecord) : option LogThread :=
  match records with
  | [] => Some thread
  | r :: records => thread ← log thread r; log_each log thread records
  end.
(** A record logged on a thread, through the facade. [fuel] bounds how deep loggers log again;
    [None]: it was not enough. *)
Fixpoint log_record (fuel : nat) (self : Bridge) (thread : LogThread) (record : LogRecord) : option LogThread :=
  match fuel with
  | O => None
  | S fuel =>
      if negb (level_number (lr_level record) <=? br_facade_max self)%nat || negb (bool_decide (br_installed self = Some true)) then Some thread
      else if negb (Bridge_enabled self record) then Some thread
      else match br_logger self with
           | None => Some thread
           | Some logger =>
               if lt_forwarding thread then Some thread
               else
                 let '(again, panics) := app logger record in
                 let busy := {| lt_forwarding := true; lt_handed := (logger, record) :: lt_handed thread |} in
                 let again := again ++ (if panics then [panic_record] else []) in
                 thread ← log_each (log_record fuel self) busy again;
                 Some {| lt_forwarding := false; lt_handed := lt_handed thread |}
           end
  end.
Definition log_all (fuel : nat) (self : Bridge) (thread : LogThread) (records : list LogRecord) : option LogThread :=
  log_each (log_record fuel self) thread records.

(** ** Facts *)

(** While a record is being handed over nothing else is. *)
Lemma log_record_busy fuel self thread record : lt_forwarding thread = true → log_record (S fuel) self thread record = Some thread.
Proof. intros Hb. simpl. rewrite Hb. repeat case_match; done. Qed.
Lemma log_all_busy fuel self thread records : lt_forwarding thread = true → log_all (S fuel) self thread records = Some thread.
Proof. intros Hb. unfold log_all. induction records as [|r l IH]; [done|]. cbn [log_each]. rewrite log_record_busy by done. exact IH. Qed.

(** Whether the app gets a record. *)
Definition handed (self : Bridge) (record : LogRecord) : bool :=
  bool_decide (br_installed self = Some true) && (level_number (lr_level record) <=? br_facade_max self)%nat && Bridge_enabled self record.

Lemma log_record_handed fuel self thread record : lt_forwarding thread = false →
  log_record (S (S fuel)) self thread record =
  Some (match br_logger self with
        | Some logger => if handed self record then {| lt_forwarding := false; lt_handed := (logger, record) :: lt_handed thread |} else thread
        | None => thread
        end).
Proof.
  intros Hb. unfold handed. remember (S fuel) as fuel1 eqn:Hf. cbn [log_record].
  destruct (bool_decide (br_installed self = Some true)), (level_number (lr_level record) <=? br_facade_max self)%nat; cbn [negb orb andb];
    try (by destruct (br_logger self)).
  destruct (Bridge_enabled self record); cbn [negb]; [|by destruct (br_logger self)]. destruct (br_logger self) as [logger|]; [|done]. rewrite Hb.
  destruct (app logger record) as [again panics].
  fold (log_all fuel1 self {| lt_forwarding := true; lt_handed := (logger, record) :: lt_handed thread |} (again ++ (if panics then [panic_record] else []))).
  subst fuel1. by rewrite log_all_busy.
Qed.
Lemma log_all_handed fuel self records : ∀ thread, lt_forwarding thread = false →
  log_all (S (S fuel)) self thread records =
  Some {| lt_forwarding := false;
          lt_handed := match br_logger self with
                       | Some logger => reverse (pair logger <$> filter (λ r, handed self r = true) records)
                       | None => []
                       end ++ lt_handed thread |}.
Proof.
  unfold log_all. induction records as [|r l IH]; intros [busy h] Hb; simpl in Hb; subst busy; [by destruct (br_logger self)|].
  cbn [log_each]. rewrite log_record_handed by done. cbn [mbind option_bind]. rewrite IH by (by repeat case_match).
  f_equal. f_equal. destruct (br_logger self) as [logger|]; [|done]. rewrite filter_cons. destruct (handed self r) eqn:Hr.
  - rewrite decide_True by done. rewrite fmap_cons, reverse_cons, <-app_assoc. done.
  - by rewrite decide_False by done.
Qed.

(** Every record at the level asked for or more severe reaches the app, once and in order, and
    logging always ends: however the app's logger logs again from inside its callback and whether or
    not it panics, one level of nesting is enough and the nested records are dropped, never handed
    over; the thread is ready for its next record afterwards. After [set_logger] it is the latest logger
    that gets them, unless another implementation took the facade first, which then keeps it. *)
Theorem records_reach_the_app (self : Bridge) (logger : nat) (max_level : LogLevel) (taken : bool) (records : list LogRecord) (fuel : nat)
    (already : list (nat * LogRecord)) : (2 ≤ fuel)%nat →
  let bridge := set_logger self logger max_level taken in
  log_all fuel bridge {| lt_forwarding := false; lt_handed := already |} records =
  Some {| lt_forwarding := false;
          lt_handed := reverse (pair logger <$> filter (λ r, br_installed bridge = Some true ∧ (level_number (lr_level r) ≤ level_number max_level)%nat) records) ++ already |} ∧
  br_installed bridge = match br_installed self with Some b => Some b | None => Some (negb taken) end.
Proof.
  intros Hf bridge. split; [|done]. destruct fuel as [|[|fuel]]; [lia|lia|]. rewrite log_all_handed by done. simpl. do 5 f_equal.
  apply list_filter_iff. intros r. unfold handed, Bridge_enabled, bridge. simpl. rewrite andb_true_iff, andb_true_iff, bool_decide_eq_true, Nat.leb_le. naive_solver.
Qed.
End bridge.

(** A logger that logs and panics in its callback still gets every record once. *)
Lemma records_reach_the_app_witness :
  let app := λ (_ : nat) r, ([r; panic_record], true) in
  let r := {| lr_level := LevelInfo; lr_target := lit "dns"; lr_message := lit "m" |} in
  let noise := {| lr_level := LevelDebug; lr_target := lit "dns"; lr_message := lit "n" |} in
  log_all app 2 (set_logger Bridge_new 7 LevelInfo false) {| lt_forwarding := false; lt_handed := [] |} [r; noise; panic_record] =
  Some {| lt_forwarding := false; lt_handed := [(7%nat, panic_record); (7%nat, r)] |}.
Proof.
  intros app r noise. rewrite (proj1 (records_reach_the_app app Bridge_new 7 LevelInfo false [r; noise; panic_record] 2 [] (le_n 2))).
  vm_compute. reflexivity.
Defined.
