(* ===== verification/Devproxy.v ===== *)
(** * The development proxy ([tools/devproxy/src]: [args.rs], [fetch.rs], [server.rs])

    Parsing the command line, downloading lists, and putting the DNS responder and the proxy
    together from a data directory the way the engine does. What the network, the file system and
    the crates answer are arguments; error texts are values that carry what the text names. *)
From S2P Require Import Prelude RustStr Collections Net ConfigJson Io HostPattern Policy PolicyProps Common DomainRules DomainSet Engine Wire LocalName Answer DnsCache Packet Handler Http Filtering Ca RootCa PinsStore Assembly FfiLists.

(** ** Socket addresses ([SocketAddr::from_str])

    The scope of an IPv6 address is read and not kept. *)
Definition read_port : reader Z := λ s, s ← read_given_char COLON s; read_number 10 U16_MAX U64_MAX true s.
Definition read_scope (s : bytes) : bytes :=
  match read_given_char 37 s with
  | Some s' => match read_number 10 U32_MAX U64_MAX true s' with Some (_, rest) => rest | None => s end
  | None => s
  end.
Definition read_socket_addr : reader SocketAddr := λ s,
  match '(ip, s) ← read_ipv4_addr s; '(port, s) ← read_port s; Some ({| sa_ip := V4 ip; sa_port := port |}, s) with
  | Some r => Some r
  | None =>
      s ← read_given_char 91 s; '(ip, s) ← read_ipv6_addr s; s ← read_given_char 93 (read_scope s);
      '(port, s) ← read_port s; Some ({| sa_ip := V6 ip; sa_port := port |}, s)
  end.
Definition SocketAddr_parse (s : bytes) : option SocketAddr := parse_all read_socket_addr s.

(** ** The command line ([args.rs]) *)

Inductive ListKind := KindUrl | KindDns | KindDnsExempting | KindHosts.
Record ListSpec := { ls_kind : ListKind; ls_source : bytes }.
Record Args := {
  arg_data_dir : bytes;
  arg_config : option bytes;
  arg_lists : list ListSpec;
  arg_dns : SocketAddr;
  arg_proxy : SocketAddr
}.
Inductive Command := Run (args : Args) | Help.
Inductive ArgsError :=
| NeedsValue (flag : bytes)
| InvalidAddress (flag value : bytes)
| UnknownArgument (other : bytes).
Definition DEFAULT_LISTS : list (ListKind * string) := [
  (KindUrl, "https://easylist.to/easylist/easylist.txt");
  (KindUrl, "https://easylist.to/easylist/easyprivacy.txt");
  (KindUrl, "https://filters.adtidy.org/extension/ublock/filters/11.txt");
  (KindDns, "https://adguardteam.github.io/AdGuardSDNSFilter/Filters/filter.txt");
  (KindHosts, "https://raw.githubusercontent.com/StevenBlack/hosts/master/hosts");
  (KindDnsExempting, "https://raw.githubusercontent.com/hagezi/dns-blocklists/main/adblock/light.txt");
  (KindDnsExempting, "https://small.oisd.nl")]%string.
Definition DEFAULT_DATA_DIR : bytes := lit "devproxy-data".
Definition DEFAULT_DNS : bytes := lit "127.0.0.1:5353".
Definition DEFAULT_PROXY : bytes := lit "127.0.0.1:8080".

(** The text of [--help], line by line. *)
Definition USAGE_LINES : list string := [
  "Usage: devproxy [options]";
  "";
  "Runs Tollgate's DNS responder and HTTPS filtering proxy on this machine.";
  "";
  "Options:";
  "  --data-dir DIR     engine.dat, domains.bin, ca.pem, ca.key and learned-pins.json";
  "                     (default: devproxy-data)";
  "  --config FILE      config.json in the tunnel's format (default: built-in defaults)";
  "  --url-list SRC     adblock list for URL filtering; SRC is a file or an http(s) URL";
  "  --dns-list SRC     adblock-syntax list for the DNS blocklist";
  "  --hosts-list SRC   hosts-format list for the DNS blocklist";
  "  --exempting-dns-list SRC";
  "                     like --dns-list, without its blocks of hosts of sensitive";
  "                     services and banks (the app's bundled passthrough groups)";
  "  --default-lists    EasyList, EasyPrivacy, AdGuard Mobile Ads, AdGuard DNS filter,";
  "                     StevenBlack hosts, HaGeZi Multi LIGHT and OISD small, downloaded";
  "  --dns ADDR         UDP address of the DNS responder (default: 127.0.0.1:5353)";
  "  --proxy ADDR       TCP address of the proxy (default: 127.0.0.1:8080)";
  "  -h, --help         this text";
  "";
  "List options may repeat. With any list option the lists are compiled into the data";
  "directory; without one, the files already there are used."]%string.
Definition USAGE : bytes := USAGE_LINES ≫= λ l, lit l ++ [NL].

Definition address (flag value : bytes) : result SocketAddr ArgsError :=
  match SocketAddr_parse value with Some a => Ok a | None => Err (InvalidAddress flag value) end.

Definition set_data_dir (d : bytes) (a : Args) : Args :=
  {| arg_data_dir := d; arg_config := arg_config a; arg_lists := arg_lists a; arg_dns := arg_dns a; arg_proxy := arg_proxy a |}.
Definition set_config (c : bytes) (a : Args) : Args :=
  {| arg_data_dir := arg_data_dir a; arg_config := Some c; arg_lists := arg_lists a; arg_dns := arg_dns a; arg_proxy := arg_proxy a |}.
Definition add_lists (l : list ListSpec) (a : Args) : Args :=
  {| arg_data_dir := arg_data_dir a; arg_config := arg_config a; arg_lists := arg_lists a ++ l; arg_dns := arg_dns a; arg_proxy := arg_proxy a |}.
Definition set_dns (s : SocketAddr) (a : Args) : Args :=
  {| arg_data_dir := arg_data_dir a; arg_config := arg_config a; arg_lists := arg_lists a; arg_dns := s; arg_proxy := arg_proxy a |}.
Definition set_proxy (s : SocketAddr) (a : Args) : Args :=
  {| arg_data_dir := arg_data_dir a; arg_config := arg_config a; arg_lists := arg_lists a; arg_dns := arg_dns a; arg_proxy := s |}.

(** The options of a list. *)
Definition list_flag (flag : bytes) : option ListKind :=
  if bool_decide (flag = lit "--url-list") then Some KindUrl
  else if bool_decide (flag = lit "--dns-list") then Some KindDns
  else if bool_decide (flag = lit "--hosts-list") then Some KindHosts
  else if bool_decide (flag = lit "--exempting-dns-list") then Some KindDnsExempting
  else None.
Definition default_lists : list ListSpec := (λ '(kind, url), {| ls_kind := kind; ls_source := lit url |}) <$> DEFAULT_LISTS.
Fixpoint parse_loop (parsed : Args) (args : list bytes) : result Command ArgsError :=
  match args with
  | [] => Ok (Run parsed)
  | flag :: args =>
      if bool_decide (flag = lit "-h") || bool_decide (flag = lit "--help") then Ok Help
      else if bool_decide (flag = lit "--default-lists") then parse_loop (add_lists default_lists parsed) args
      else
        match list_flag flag, args with
        | Some kind, value :: args => parse_loop (add_lists [{| ls_kind := kind; ls_source := value |}] parsed) args
        | Some _, [] => Err (NeedsValue flag)
        | None, value :: args =>
            if bool_decide (flag = lit "--data-dir") then parse_loop (set_data_dir value parsed) args
            else if bool_decide (flag = lit "--config") then parse_loop (set_config value parsed) args
            else if bool_decide (flag = lit "--dns") then
              match address (lit "--dns") value with Ok a => parse_loop (set_dns a parsed) args | Err e => Err e end
            else if bool_decide (flag = lit "--proxy") then
              match address (lit "--proxy") value with Ok a => parse_loop (set_proxy a parsed) args | Err e => Err e end
            else Err (UnknownArgument flag)
        | None, [] =>
            if bool_decide (flag ∈ lit <$> ["--data-dir"; "--config"; "--dns"; "--proxy"]%string) then Err (NeedsValue flag)
            else Err (UnknownArgument flag)
        end
  end.
Definition parse (args : list bytes) : result Command ArgsError :=
  match address (lit "--dns") DEFAULT_DNS with
  | Err e => Err e
  | Ok dns =>
      match address (lit "--proxy") DEFAULT_PROXY with
      | Err e => Err e
      | Ok proxy =>
          parse_loop {| arg_data_dir := DEFAULT_DATA_DIR; arg_config := None; arg_lists := []; arg_dns := dns; arg_proxy := proxy |} args
      end
  end.

(** [main]'s exit code, from what the arguments are and whether preparing succeeds. *)
Definition main_exit (args : list bytes) (prepared : Args → bool) : Z :=
  match parse args with
  | Ok Help => 0
  | Err _ => 2
  | Ok (Run a) => if prepared a then 0 else 1
  end.

Example parse_nothing : parse [] = Ok (Run {| arg_data_dir := DEFAULT_DATA_DIR; arg_config := None; arg_lists := [];
  arg_dns := {| sa_ip := V4 [127; 0; 0; 1]; sa_port := 5353 |}; arg_proxy := {| sa_ip := V4 [127; 0; 0; 1]; sa_port := 8080 |} |}).
Proof. vm_compute. reflexivity. Qed.
Example parse_v6 : SocketAddr_parse (lit "[::1%7]:53") = Some {| sa_ip := V6 [0; 0; 0; 0; 0; 0; 0; 1]; sa_port := 53 |}.
Proof. vm_compute. reflexivity. Qed.
Example parse_dangling : parse [lit "--default-lists"; lit "--dns"] = Err (NeedsValue (lit "--dns")).
Proof. vm_compute. reflexivity. Qed.

(** ** UTF-8 ([String::from_utf8_lossy], [read_to_string]) *)

Definition in_range (lo hi : Z) (b : option Z) : bool := match b with Some b => (lo <=? b) && (b <=? hi) | None => false end.
(** The first bytes of [s]: how many are looked at, and whether they are a character. *)
Definition utf8_char (b0 : Z) (s : bytes) : nat * bool :=
  let cont (i : nat) := in_range 0x80 0xBF (s !! i) in
  if b0 <? 0x80 then (1%nat, true)
  else if in_range 0xC2 0xDF (Some b0) then if cont 0%nat then (2%nat, true) else (1%nat, false)
  else if in_range 0xE0 0xEF (Some b0) then
    let second := if b0 =? 0xE0 then in_range 0xA0 0xBF (s !! 0%nat) else if b0 =? 0xED then in_range 0x80 0x9F (s !! 0%nat) else cont 0%nat in
    if negb second then (1%nat, false) else if negb (cont 1%nat) then (2%nat, false) else (3%nat, true)
  else if in_range 0xF0 0xF4 (Some b0) then
    let second := if b0 =? 0xF0 then in_range 0x90 0xBF (s !! 0%nat) else if b0 =? 0xF4 then in_range 0x80 0x8F (s !! 0%nat) else cont 0%nat in
    if negb second then (1%nat, false) else if negb (cont 1%nat) then (2%nat, false)
    else if negb (cont 2%nat) then (3%nat, false) else (4%nat, true)
  else (1%nat, false).
Definition REPLACEMENT : bytes := [0xEF; 0xBF; 0xBD].
Fixpoint lossy_loop (fuel : nat) (s : bytes) : bytes :=
  match fuel, s with
  | S fuel, b0 :: rest =>
      let '(n, ok) := utf8_char b0 rest in
      (if ok then take n s else REPLACEMENT) ++ lossy_loop fuel (drop n s)
  | _, _ => []
  end.
Definition from_utf8_lossy (s : bytes) : bytes := lossy_loop (length s) s.
Fixpoint utf8_loop (fuel : nat) (s : bytes) : bool :=
  match fuel, s with
  | S fuel, b0 :: rest => let '(n, ok) := utf8_char b0 rest in ok && utf8_loop fuel (drop n s)
  | _, _ => true
  end.
Definition is_utf8 (s : bytes) : bool := utf8_loop (length s) s.
Example lossy_latin1 : from_utf8_lossy [0x61; 0xE9; 0x62] = [0x61] ++ REPLACEMENT ++ [0x62].
Proof. reflexivity. Qed.

(** ** Downloading ([fetch.rs]) *)

Definition MAX_REDIRECTS : nat := 5.
Definition MAX_BODY : Z := 64 * 1024 * 1024.
Inductive FetchError :=
| FetchInvalidUrl (url : bytes)
| FetchConnect (authority error : bytes)
| FetchTls (authority error : bytes)
| FetchHttp (error : bytes)
| FetchStatus (status : Z)
| FetchTooManyRedirects
| FetchTooLarge
| FetchTimeout.
Inductive Step := StepBody (text : bytes) | StepRedirect (location : bytes).
(** Where a request goes and what it asks for. *)
Record FetchRequest := { fr_tls : bool; fr_host : bytes; fr_port : Z; fr_authority : bytes; fr_path : bytes }.
(** The text of a URI's authority, whether a request and a TLS server name can be made. *)
Class FetchCrate `{HttpCrate} := {
  uri_authority_text : Uri → option bytes;
  request_builds : FetchRequest → bool;
  server_name_ok : bytes → bool
}.
(** What the network answers: connecting, the TLS handshake, the response and its body. *)
Record FetchResponse := { fp_status : Z; fp_location : option bytes; fp_body : result bytes bytes }.
Record FetchAnswer := {
  fa_in_time : bool;
  fa_connect : option bytes;
  fa_tls : option bytes;
  fa_response : result FetchResponse bytes
}.

Fixpoint skip_byte (c : Z) (s : bytes) : bytes := match s with x :: s' => if x =? c then skip_byte c s' else s | [] => [] end.
(** [trim_start_matches('[').trim_end_matches(']')] *)
Definition unbracket (host : bytes) : bytes := reverse (skip_byte 93 (reverse (skip_byte 91 host))).
Definition is_redirection (status : Z) : bool := (300 <=? status) && (status <=? 399).
Definition is_http_url (s : bytes) : bool := starts_with (lit "http://") s || starts_with (lit "https://") s.

Section fetch.
Context `{FetchCrate}.

(** The request for a URI. *)
Definition request_for (uri : Uri) : result FetchRequest FetchError :=
  let invalid := Err (FetchInvalidUrl (uri_to_string uri)) in
  match (if bool_decide (uri_scheme uri = Some (lit "http")) then Some false
         else if bool_decide (uri_scheme uri = Some (lit "https")) then Some true else None) with
  | None => invalid
  | Some tls =>
      match uri_authority uri, uri_authority_text uri with
      | Some (host, port), Some authority =>
          let request := {| fr_tls := tls; fr_host := unbracket host; fr_port := default (if tls then 443 else 80) port;
                            fr_authority := authority; fr_path := default (lit "/") (uri_path_and_query uri) |} in
          if request_builds request then Ok request else invalid
      | _, _ => invalid
      end
  end.
(** [once] from the connection on. *)
Definition fetch_answer (uri : Uri) (request : FetchRequest) (answer : FetchAnswer) : result Step FetchError :=
  let invalid := Err (FetchInvalidUrl (uri_to_string uri)) in
  match fa_connect answer with
  | Some e => Err (FetchConnect (fr_authority request) e)
  | None =>
      if fr_tls request && negb (server_name_ok (fr_host request)) then invalid
      else
        match (if fr_tls request then fa_tls answer else None) with
        | Some e => Err (FetchTls (fr_authority request) e)
        | None =>
            match fa_response answer with
            | Err e => Err (FetchHttp e)
            | Ok response =>
                match (if is_redirection (fp_status response) then fp_location response else None) with
                | Some location => match value_to_str location with Some location => Ok (StepRedirect location) | None => invalid end
                | None =>
                    if negb (fp_status response =? 200) then Err (FetchStatus (fp_status response))
                    else
                      match fp_body response with
                      | Err e => Err (FetchHttp e)
                      | Ok body => if MAX_BODY <? len body then Err FetchTooLarge else Ok (StepBody (from_utf8_lossy body))
                      end
                end
            end
        end
  end.
Definition follow (base : Uri) (location : bytes) : result Uri FetchError :=
  let invalid := Err (FetchInvalidUrl location) in
  let parsed next := match uri_parse next with Some uri => Ok uri | None => invalid end in
  if is_http_url location then parsed location
  else if starts_with (lit "/") location then
    match uri_scheme base, uri_authority_text base with
    | Some scheme, Some authority => parsed (scheme ++ lit "://" ++ authority ++ location)
    | _, _ => invalid
    end
  else invalid.

(** The loop of [get_text], with the requests sent and their answers; [net] is what the network
    answers, by how many requests were sent before. *)
Definition Trace : Type := list (FetchRequest * FetchAnswer).
Fixpoint get_loop (n sent : nat) (uri : Uri) (net : nat → FetchRequest → FetchAnswer) : Trace * result bytes FetchError :=
  match n with
  | O => ([], Err FetchTooManyRedirects)
  | S n =>
      match request_for uri with
      | Err e => ([], Err e)
      | Ok request =>
          let answer := net sent request in
          if negb (fa_in_time answer) then ([(request, answer)], Err FetchTimeout)
          else
            match fetch_answer uri request answer with
            | Err e => ([(request, answer)], Err e)
            | Ok (StepBody text) => ([(request, answer)], Ok text)
            | Ok (StepRedirect location) =>
                match follow uri location with
                | Err e => ([(request, answer)], Err e)
                | Ok uri => let '(trace, res) := get_loop n (S sent) uri net in ((request, answer) :: trace, res)
                end
            end
      end
  end.
Definition get_text (url : bytes) (net : nat → FetchRequest → FetchAnswer) : Trace * result bytes FetchError :=
  match uri_parse url with
  | None => ([], Err (FetchInvalidUrl url))
  | Some uri => get_loop (S MAX_REDIRECTS) 0 uri net
  end.

(** [load_source]: downloaded, or read from a file. *)
Inductive SourceError := SourceFetch (source : bytes) (e : FetchError) | SourceFile (source : bytes) (e : ErrorKind).
Definition load_source (fs : gmap bytes bytes) (source : bytes) (fails : option ErrorKind) (net : nat → FetchRequest → FetchAnswer)
    : result bytes SourceError :=
  if is_http_url source then match (get_text source net).2 with Ok text => Ok text | Err e => Err (SourceFetch source e) end
  else
    match open_file fs source fails with
    | Err e => Err (SourceFile source e)
    | Ok contents => if is_utf8 contents then Ok contents else Err (SourceFile source InvalidData)
    end.
End fetch.

(** ** Preparing and serving ([server.rs]) *)

Definition EVENTS_ON_EXIT : nat := 20.
Inductive PrepareError :=
| PrepPath (path : bytes) (e : ErrorKind)
| PrepNotUtf8
| PrepConfig (path : bytes) (e : PolicyError)
| PrepSource (e : SourceError)
| PrepTollgate (e : TollgateError)
| PrepCaGone
| PrepFilter (e : FilterError)
| PrepPolicy (e : PolicyError)
| PrepDnsListener (addr : SocketAddr) (e : ErrorKind)
| PrepProxyListener (addr : SocketAddr) (e : ErrorKind).
(** What compiling the lists meets. *)
Record CompileAnswers := {
  ca_sources : nat → option ErrorKind * (nat → FetchRequest → FetchAnswer);
  ca_fuel : nat; ca_pid : bytes; ca_next_tmp : Z; ca_dir : option ErrorKind; ca_engine : WriteAnswers; ca_domains : WriteAnswers
}.
(** What preparing meets. *)
Record PrepareAnswers := {
  pa_absolute : result bytes ErrorKind;
  pa_create_dir : option ErrorKind;
  pa_config : option ErrorKind;
  pa_compile : CompileAnswers;
  pa_generate : GenerateAnswers;
  pa_files : FileAnswers;
  pa_dns_bind : option ErrorKind;
  pa_proxy_bind : option ErrorKind
}.

Definition list_format_and_target (kind : ListKind) : ListFormat * ListTarget :=
  match kind with
  | KindUrl => (Adblock, Url)
  | KindDns | KindDnsExempting => (Adblock, Dns)
  | KindHosts => (Hosts, Dns)
  end.
Definition list_input (spec : ListSpec) (text : bytes) : ListInput :=
  let '(format, target) := list_format_and_target (ls_kind spec) in
  {| li_name := ls_source spec; li_text := text; li_format := format; li_target := target;
     li_exempt_sensitive_hosts := match ls_kind spec with KindDnsExempting => true | _ => false end |}.
Definition optional {A} (r : result A FilterError) : result (option A) PrepareError :=
  match r with
  | Ok value => Ok (Some value)
  | Err (FilterIo NotFound) => Ok None
  | Err e => Err (PrepFilter e)
  end.

Section server.
Context `{SerdeJson, PinsJson, HashOrder, HttpCrate, !FetchCrate, AdblockCrate, Hickory, Lru, Etherparse, RootCrate}.

Record DevProxy := {
  dp_dir : bytes;
  dp_ctx : ProxyContext;
  dp_dns : DnsHandler;
  dp_ca : CertAuthority;
  dp_max_intercepted : Z;
  dp_upstreams : list DohUpstream
}.

Fixpoint load_inputs (fs : gmap bytes bytes) (k : nat) (specs : list ListSpec) (sources : nat → option ErrorKind * (nat → FetchRequest → FetchAnswer))
    : result (list ListInput) PrepareError :=
  match specs with
  | [] => Ok []
  | spec :: specs =>
      match load_source fs (ls_source spec) (sources k).1 (sources k).2 with
      | Err e => Err (PrepSource e)
      | Ok text =>
          match load_inputs fs (S k) specs sources with
          | Err e => Err e
          | Ok inputs => Ok (list_input spec text :: inputs)
          end
      end
  end.
(** [None] only when the model of the compiler runs out of fuel. *)
Definition compile (fs : gmap bytes bytes) (args : Args) (dir : bytes) (answers : CompileAnswers)
    : option (gmap bytes bytes * result unit PrepareError) :=
  match load_inputs fs 0 (arg_lists args) (ca_sources answers) with
  | Err e => Some (fs, Err e)
  | Ok inputs =>
      '(states, res) ← compile_in (ca_fuel answers) fs inputs dir (ca_pid answers) (ca_next_tmp answers) (ca_dir answers)
                         (ca_engine answers) (ca_domains answers);
      Some (default fs (head states), match res with Ok _ => Ok () | Err e => Err (PrepTollgate e) end)
  end.
Definition read_config (fs : gmap bytes bytes) (args : Args) (fails : option ErrorKind) : result Config PrepareError :=
  match arg_config args with
  | None => Ok Config_default
  | Some path =>
      match open_file fs path fails with
      | Err e => Err (PrepPath path e)
      | Ok json =>
          if negb (is_utf8 json) then Err (PrepPath path InvalidData)
          else match Config_from_json json with Ok config => Ok config | Err e => Err (PrepConfig path e) end
      end
  end.
(** From the files in the directory to the listeners. *)
Definition assemble (fs : gmap bytes bytes) (dir : bytes) (config : Config) (args : Args) (answers : PrepareAnswers) : result DevProxy PrepareError :=
  let files := pa_files answers in
  match load_ca fs dir (fa_cert files) (fa_key files) with
  | Err e => Err (PrepTollgate e)
  | Ok None => Err PrepCaGone
  | Ok (Some ca) =>
      match optional (FilterEngine_load (open_file fs (path_in dir ENGINE_FILE) (fa_engine files))) with
      | Err e => Err e
      | Ok filter =>
          match optional (DomainSet_load (open_file fs (path_in dir DOMAINS_FILE) (fa_domains files))) with
          | Err e => Err e
          | Ok domains =>
              let policy_config :=
                {| doh_upstreams := doh_upstreams config; passthrough := passthrough config; config_allowlist := config_allowlist config;
                   config_mitm_enabled := config_mitm_enabled config && bool_decide (is_Some filter);
                   max_intercepted_connections := max_intercepted_connections config |} in
              match Policy_new policy_config (read_pins fs dir (fa_pins files)) with
              | Err e => Err (PrepPolicy e)
              | Ok policy =>
                  match collect_results HostPattern_parse (config_allowlist config) with
                  | Err e => Err (PrepPolicy e)
                  | Ok allowlist =>
                      match pa_dns_bind answers, pa_proxy_bind answers with
                      | Some e, _ => Err (PrepDnsListener (arg_dns args) e)
                      | None, Some e => Err (PrepProxyListener (arg_proxy args) e)
                      | None, None =>
                          Ok {| dp_dir := dir;
                                dp_ctx := {| ctx_policy := policy; ctx_filter := filter; ctx_domains := pair 0%nat <$> domains;
                                             ctx_stats := Stats_default; ctx_events := Some [] |};
                                dp_dns := set_events (set_allowlist (DnsHandler_new domains Stats_default) allowlist) (Some []);
                                dp_ca := ca; dp_max_intercepted := max_intercepted_connections config;
                                dp_upstreams := doh_upstreams config |}
                      end
                  end
              end
          end
      end
  end.
(** [DevProxy::prepare], with the file system it leaves. *)
Definition prepare (fs : gmap bytes bytes) (args : Args) (answers : PrepareAnswers) : option (gmap bytes bytes * result DevProxy PrepareError) :=
  match pa_absolute answers with
  | Err e => Some (fs, Err (PrepPath (arg_data_dir args) e))
  | Ok dir =>
      match pa_create_dir answers with
      | Some e => Some (fs, Err (PrepPath dir e))
      | None =>
          if negb (is_utf8 dir) then Some (fs, Err PrepNotUtf8)
          else
            match read_config fs args (pa_config answers) with
            | Err e => Some (fs, Err e)
            | Ok config =>
                '(fs, compiled) ← (if bool_decide (arg_lists args = []) then Some (fs, Ok ()) else compile fs args dir (pa_compile answers));
                match compiled with
                | Err e => Some (fs, Err e)
                | Ok _ =>
                    let '(states, generated) := generate_in fs dir (ca_pid (pa_compile answers)) (ca_next_tmp (pa_compile answers) + 2) (pa_generate answers) in
                    let fs := default fs (head states) in
                    match generated with
                    | Err e => Some (fs, Err (PrepTollgate e))
                    | Ok _ => Some (fs, assemble fs dir config args answers)
                    end
                end
            end
      end
  end.

(** The end of [DevProxy::serve]: the pins are saved and the last blocks returned. *)
Record Summary := { sum_stats : Stats; sum_events : list BlockEvent }.
Definition serve_end (fs : gmap bytes bytes) (dir : bytes) (ctx : ProxyContext) (json : bytes) (fails : option ErrorKind) : gmap bytes bytes * Summary :=
  (match fails with Some _ => fs | None => <[path_in dir LEARNED_PINS_FILE := json]> fs end,
   {| sum_stats := ctx_stats ctx;
      sum_events := match ctx_events ctx with Some events => EventLog_recent events EVENTS_ON_EXIT | None => [] end |}).
End server.

(** [format_events] *)
Definition format_event (event : BlockEvent) : bytes :=
  let kind := match ev_kind event with EventDns => lit "dns    " | EventRequest => lit "request" end in
  lit "  " ++ show_decimal (ev_unix_secs event) ++ lit "  " ++ kind ++ lit "  " ++ default (ev_host event) (ev_url event)
    ++ match ev_source_host event with Some page => lit "  (page " ++ page ++ lit ")" | None => [] end ++ [NL].
Definition format_events (events : list BlockEvent) : bytes :=
  if bool_decide (events = []) then lit "No blocks recorded." ++ [NL]
  else lit "Last " ++ show_decimal (len events) ++ lit " blocks, newest first:" ++ [NL] ++ (events ≫= format_event).
