(* ===== verification/DevproxyProps.v ===== *)
(** * What the development proxy promises

    The command line is read back as it was written, a downloaded list is text of one bounded
    answer, and the data directory is put together as the engine does it. *)
From S2P Require Import Prelude RustStr Collections Net ConfigJson Io HostPattern Policy PolicyProps Common DomainRules DomainSet Engine Wire LocalName Answer DnsCache Packet Handler DnsExamples Http Filtering Ca RootCa PinsStore Assembly FfiLists Devproxy.

(** ** The command line *)

Definition kind_flag (kind : ListKind) : bytes :=
  lit match kind with KindUrl => "--url-list" | KindDns => "--dns-list" | KindDnsExempting => "--exempting-dns-list" | KindHosts => "--hosts-list" end.
(** The command line of [a], with [dns] and [proxy] its addresses as text. *)
Definition command_line (a : Args) (dns proxy : bytes) : list bytes :=
  [lit "--data-dir"; arg_data_dir a] ++ match arg_config a with Some c => [lit "--config"; c] | None => [] end
  ++ (arg_lists a ≫= λ spec, [kind_flag (ls_kind spec); ls_source spec]) ++ [lit "--dns"; dns; lit "--proxy"; proxy].

Lemma parse_loop_data_dir parsed value args : parse_loop parsed (lit "--data-dir" :: value :: args) = parse_loop (set_data_dir value parsed) args.
Proof. reflexivity. Qed.
Lemma parse_loop_config parsed value args : parse_loop parsed (lit "--config" :: value :: args) = parse_loop (set_config value parsed) args.
Proof. reflexivity. Qed.
Lemma parse_loop_list parsed kind value args :
  parse_loop parsed (kind_flag kind :: value :: args) = parse_loop (add_lists [{| ls_kind := kind; ls_source := value |}] parsed) args.
Proof. by destruct kind. Qed.
Lemma parse_loop_lists parsed specs args :
  parse_loop parsed ((specs ≫= λ spec, [kind_flag (ls_kind spec); ls_source spec]) ++ args) = parse_loop (add_lists specs parsed) args.
Proof.
  revert parsed. induction specs as [|[kind source] specs IH]; intros parsed.
  - unfold add_lists. rewrite app_nil_r. by destruct parsed.
  - cbn [mbind list_bind app ls_kind ls_source]. rewrite parse_loop_list, IH. unfold add_lists. cbn. by rewrite <-app_assoc.
Qed.
Lemma parse_loop_addresses parsed dns proxy d p : SocketAddr_parse dns = Some d → SocketAddr_parse proxy = Some p →
  parse_loop parsed [lit "--dns"; dns; lit "--proxy"; proxy] = Ok (Run (set_proxy p (set_dns d parsed))).
Proof.
  intros Hd Hp. change (match address (lit "--dns") dns with
    | Ok a => match address (lit "--proxy") proxy with Ok a' => Ok (Run (set_proxy a' (set_dns a parsed))) | Err e => Err e end
    | Err e => Err e end = Ok (Run (set_proxy p (set_dns d parsed)))).
  unfold address. by rewrite Hd, Hp.
Qed.
(** Every configuration of the development proxy can be asked for on the command line and is
    read back exactly: the options give the directory, the configuration file, the lists in their
    order and the two addresses. *)
Theorem args_roundtrip (a : Args) (dns proxy : bytes) :
  SocketAddr_parse dns = Some (arg_dns a) → SocketAddr_parse proxy = Some (arg_proxy a) →
  parse (command_line a dns proxy) = Ok (Run a).
Proof.
  intros Hd Hp. unfold parse, command_line. replace (address (lit "--dns") DEFAULT_DNS) with (@Ok SocketAddr ArgsError {| sa_ip := V4 [127; 0; 0; 1]; sa_port := 5353 |}) by reflexivity.
  replace (address (lit "--proxy") DEFAULT_PROXY) with (@Ok SocketAddr ArgsError {| sa_ip := V4 [127; 0; 0; 1]; sa_port := 8080 |}) by reflexivity.
  cbn [app]. rewrite parse_loop_data_dir.
  destruct a as [dir [config|] specs d p]; cbn [arg_config arg_lists arg_data_dir arg_dns arg_proxy app] in *;
    rewrite ?parse_loop_config, parse_loop_lists, (parse_loop_addresses _ _ _ _ _ Hd Hp); done.
Qed.
Lemma args_roundtrip_witness :
  let a := {| arg_data_dir := lit "d"; arg_config := Some (lit "c.json"); arg_lists := [{| ls_kind := KindHosts; ls_source := lit "hosts.txt" |}];
              arg_dns := {| sa_ip := V4 [127; 0; 0; 1]; sa_port := 53 |}; arg_proxy := {| sa_ip := V6 [0; 0; 0; 0; 0; 0; 0; 1]; sa_port := 8080 |} |} in
  command_line a (lit "127.0.0.1:53") (lit "[::1]:8080") =
    lit <$> ["--data-dir"; "d"; "--config"; "c.json"; "--hosts-list"; "hosts.txt"; "--dns"; "127.0.0.1:53"; "--proxy"; "[::1]:8080"]%string ∧
  parse (command_line a (lit "127.0.0.1:53") (lit "[::1]:8080")) = Ok (Run a).
Proof. split; [reflexivity|]. apply (args_roundtrip _ (lit "127.0.0.1:53") (lit "[::1]:8080")); vm_compute; reflexivity. Defined.

(** The options in the text of [--help]: what starts a line after two spaces, and what follows a comma there. *)
Definition usage_words (line : bytes) : list bytes :=
  match strip_prefix (lit "  ") line with
  | Some rest => if starts_with (lit "-") rest then filter (λ w, starts_with (lit "-") w = true) (take 2 ((λ w, strip_suffix_or (lit ",") w) <$> split_on 32 rest)) else []
  | None => []
  end.
Definition usage_flags : list bytes := USAGE_LINES ≫= λ l, usage_words (lit l).
Example usage_flags_are : usage_flags = lit <$> ["--data-dir"; "--config"; "--url-list"; "--dns-list"; "--hosts-list";
  "--exempting-dns-list"; "--default-lists"; "--dns"; "--proxy"; "-h"; "--help"]%string.
Proof. vm_compute. reflexivity. Qed.
Lemma undocumented_flag parsed flag args : flag ∉ usage_flags → parse_loop parsed (flag :: args) = Err (UnknownArgument flag).
Proof.
  rewrite usage_flags_are. cbn [fmap list_fmap]. intros Hout. rewrite !not_elem_of_cons in Hout. destruct Hout as (? & ? & ? & ? & ? & ? & ? & ? & ? & ? & ? & _).
  cbn [parse_loop]. unfold list_flag. destruct args as [|value args].
  - rewrite !(bool_decide_false (flag = _)) by done. rewrite bool_decide_false; [done|]. cbn [fmap list_fmap]. rewrite !elem_of_cons, elem_of_nil. naive_solver.
  - by rewrite !bool_decide_false by done.
Qed.
Lemma unknown_is_undocumented n parsed args other : (length args ≤ n)%nat → parse_loop parsed args = Err (UnknownArgument other) → other ∉ usage_flags.
Proof.
  revert parsed args. induction n as [|n IH]; intros parsed [|flag args] Hn; try done; [cbn in Hn; lia|]. cbn [length] in Hn.
  destruct (decide (flag ∈ usage_flags)) as [Hin|Hout]; [|by rewrite undocumented_flag by done; intros [= <-]].
  rewrite usage_flags_are in Hin. cbn [fmap list_fmap] in Hin. cbn [parse_loop].
  destruct (bool_decide (flag = lit "-h") || _) eqn:Hh; [done|]. apply orb_false_iff in Hh as [Hh1%bool_decide_eq_false Hh2%bool_decide_eq_false].
  case_bool_decide as Hdef; [apply IH; lia|]. destruct (list_flag flag) as [kind|] eqn:Hl.
  - destruct args as [|value args]; [done|]. apply IH. cbn in Hn. lia.
  - unfold list_flag in Hl. repeat (case_bool_decide; [done|]).
    assert (flag ∈ lit <$> ["--data-dir"; "--config"; "--dns"; "--proxy"]%string) as H4.
    { cbn [fmap list_fmap]. repeat (apply elem_of_cons in Hin as [->|Hin]; [solve [done|repeat first [by left|right]]|]). by apply elem_of_nil in Hin. }
    destruct args as [|value args]; [by rewrite bool_decide_true|]. cbn [length] in Hn. unfold address.
    repeat (case_bool_decide; [first [apply IH; lia|destruct (SocketAddr_parse value); [apply IH; lia|done]]|]). intros [= <-]. exfalso.
    cbn [fmap list_fmap] in H4. repeat (apply elem_of_cons in H4 as [->|H4]; [done|]). by apply elem_of_nil in H4.
Qed.
(** The command line takes exactly the options that [--help] documents: anything else in an option's
    place is refused as unknown, and what is refused as unknown is never a documented option. *)
Theorem options_are_documented (parsed : Args) (args : list bytes) :
  (∀ flag, flag ∉ usage_flags → parse_loop parsed (flag :: args) = Err (UnknownArgument flag)) ∧
  (∀ other, parse_loop parsed args = Err (UnknownArgument other) → other ∉ usage_flags).
Proof. split; [intros flag; apply undocumented_flag|]. intros other. by apply (unknown_is_undocumented (length args)). Qed.

(** ** UTF-8 *)

(** A character is decided by its own bytes. *)
Lemma utf8_char_prefix b0 rest t n : utf8_char b0 rest = (n, true) → utf8_char b0 (take (pred n) rest ++ t) = (n, true) ∧ (1 ≤ n ≤ S (length rest))%nat.
Proof.
  unfold utf8_char. destruct (b0 <? 0x80); [by intros [= <-]; split; [done|lia]|].
  destruct (in_range 0xC2 0xDF (Some b0)).
  { destruct rest as [|b1 rest]; [done|]. cbn [lookup list_lookup]. destruct (in_range 0x80 0xBF (Some b1)) eqn:E; [|done].
    intros [= <-]. cbn [pred take app lookup list_lookup length]. rewrite E. split; [done|lia]. }
  destruct (in_range 0xE0 0xEF (Some b0)).
  { destruct rest as [|b1 [|b2 rest]]; cbn [lookup list_lookup]; try (repeat case_match; done).
    destruct (if b0 =? 0xE0 then _ else _) eqn:E1; [|done]. cbn [negb]. destruct (in_range 0x80 0xBF (Some b2)) eqn:E2; [|done].
    intros [= <-]. cbn [pred take app lookup list_lookup]. rewrite E1, E2. cbn [negb length]. split; [done|lia]. }
  destruct (in_range 0xF0 0xF4 (Some b0)); [|done].
  destruct rest as [|b1 [|b2 [|b3 rest]]]; cbn [lookup list_lookup]; try (repeat case_match; done).
  destruct (if b0 =? 0xF0 then _ else _) eqn:E1; [|done]. cbn [negb]. destruct (in_range 0x80 0xBF (Some b2)) eqn:E2; [|done].
  cbn [negb]. destruct (in_range 0x80 0xBF (Some b3)) eqn:E3; [|done].
  intros [= <-]. cbn [pred take app lookup list_lookup]. rewrite E1, E2, E3. cbn [negb length]. split; [done|lia].
Qed.
Lemma utf8_char_some b0 rest : (1 ≤ (utf8_char b0 rest).1)%nat.
Proof. unfold utf8_char. repeat case_match; cbn; lia. Qed.
(** One character in front. *)
Lemma utf8_loop_char fuel b0 rest n t : utf8_char b0 rest = (n, true) → utf8_loop (S fuel) (take n (b0 :: rest) ++ t) = utf8_loop fuel t.
Proof.
  intros Hc. destruct (utf8_char_prefix b0 rest t n Hc) as [Hp [Hn Hl]]. destruct n as [|n]; [lia|]. cbn [take app pred] in *.
  cbn [utf8_loop]. rewrite Hp. cbn [andb drop]. f_equal. by rewrite drop_app_length' by (rewrite length_take; lia).
Qed.
Lemma lossy_loop_utf8 fuel s fuel' : (length (lossy_loop fuel s) ≤ fuel')%nat → utf8_loop fuel' (lossy_loop fuel s) = true.
Proof.
  revert s fuel'. induction fuel as [|fuel IH]; intros s fuel' Hf; [by destruct fuel'|]. destruct s as [|b0 rest]; [by destruct fuel'|].
  cbn [lossy_loop] in *. pose proof (utf8_char_some b0 rest). destruct (utf8_char b0 rest) as [n ok] eqn:E. cbn [fst] in *. destruct ok.
  - destruct (utf8_char_prefix b0 rest [] n E) as [_ Hn]. rewrite length_app, length_take in Hf. cbn [length] in Hf.
    destruct fuel' as [|fuel']; [lia|]. rewrite (utf8_loop_char _ _ _ _ _ E). apply IH. lia.
  - rewrite length_app in Hf. cbn in Hf. destruct fuel' as [|fuel']; [lia|]. cbn [REPLACEMENT app utf8_loop].
    change (utf8_char 0xEF (0xBF :: 0xBD :: lossy_loop fuel (drop n (b0 :: rest)))) with (3%nat, true). cbn [andb drop]. apply IH. lia.
Qed.
Lemma lossy_loop_same fuel s : (length s ≤ fuel)%nat → utf8_loop fuel s = true → lossy_loop fuel s = s.
Proof.
  revert s. induction fuel as [|fuel IH]; intros s Hf Hu; [by destruct s; [|cbn in Hf; lia]|]. destruct s as [|b0 rest]; [done|].
  cbn [lossy_loop utf8_loop] in *. pose proof (utf8_char_some b0 rest). destruct (utf8_char b0 rest) as [n ok] eqn:E. cbn [fst] in *.
  apply andb_true_iff in Hu as [-> Hu]. rewrite IH; [apply take_drop| |done]. rewrite length_drop. cbn [length] in *. lia.
Qed.
(** Reading bytes as text gives UTF-8, and leaves UTF-8 as it is. *)
Lemma from_utf8_lossy_spec s : is_utf8 (from_utf8_lossy s) = true ∧ (is_utf8 s = true → from_utf8_lossy s = s).
Proof. split; [by apply lossy_loop_utf8|by apply lossy_loop_same]. Qed.

(** ** Downloads *)

Definition is_redirect (answer : FetchAnswer) : Prop :=
  ∃ response location, fa_response answer = Ok response ∧ is_redirection (fp_status response) = true ∧ fp_location response = Some location.
(** A complete answer with a body in the limit. *)
Definition good_answer (answer : FetchAnswer) (body : bytes) : Prop :=
  fa_in_time answer = true ∧ ∃ response, fa_response answer = Ok response ∧ fp_status response = 200 ∧ fp_body response = Ok body ∧ len body <= MAX_BODY.

Section Downloads.
Context `{FetchCrate}.
#[local] Set Default Proof Using "Type*".

Lemma answer_redirects uri request answer location : fetch_answer uri request answer = Ok (StepRedirect location) → is_redirect answer.
Proof.
  unfold fetch_answer, is_redirect. destruct (fa_connect answer); [done|]. destruct (_ && _); [done|].
  destruct (if fr_tls request then _ else _); [done|]. destruct (fa_response answer) as [response|]; [|done].
  destruct (is_redirection (fp_status response)) eqn:Hr; [destruct (fp_location response) as [l|] eqn:Hl|];
    try (by eexists _, _); by repeat case_match.
Qed.
Lemma answer_body uri request answer text : fetch_answer uri request answer = Ok (StepBody text) → fa_in_time answer = true →
  ∃ body, good_answer answer body ∧ text = from_utf8_lossy body.
Proof.
  unfold fetch_answer, good_answer. intros Hf Ht. destruct (fa_connect answer); [done|]. destruct (_ && _); [done|].
  destruct (if fr_tls request then _ else _); [done|]. destruct (fa_response answer) as [response|] eqn:Hres; [|done].
  destruct (if is_redirection _ then _ else _) as [l|]; [by destruct (value_to_str l)|].
  destruct (fp_status response =? 200) eqn:Hs; [|done]. cbn in Hf. destruct (fp_body response) as [body|] eqn:Hb; [|done].
  destruct (Z.ltb_spec MAX_BODY (len body)); [done|]. injection Hf as <-. exists body. split; [|done]. split; [done|].
  exists response. split_and!; [done|lia|done|done].
Qed.
(** The loop's answer, for [n] requests at most. *)
Lemma get_loop_spec n sent uri net : let '(trace, res) := get_loop n sent uri net in
  (length trace ≤ n)%nat ∧
  (∀ text, res = Ok text → ∃ before request answer body, trace = before ++ [(request, answer)] ∧
     Forall (λ x, is_redirect x.2) before ∧ good_answer answer body ∧ text = from_utf8_lossy body) ∧
  (res = Err FetchTooManyRedirects → length trace = n ∧ Forall (λ x, is_redirect x.2) trace).
Proof.
  revert sent uri. induction n as [|n IH]; intros sent uri; cbn [get_loop].
  { split_and!; [done|done|]. intros _. by split; [|constructor]. }
  destruct (request_for uri) as [request|e] eqn:Hreq.
  2: { split_and!; [cbn; lia|done|]. intros [= ->]. exfalso. unfold request_for in Hreq. by repeat case_match. }
  destruct (fa_in_time (net sent request)) eqn:Ht; cbn [negb]; [|by split_and!; [cbn; lia|..]].
  destruct (fetch_answer uri request (net sent request)) as [[text|location]|e] eqn:Ha.
  - split_and!; [cbn; lia| |done]. intros ? [= <-]. destruct (answer_body _ _ _ _ Ha Ht) as (body & Hg & ->).
    by exists [], request, (net sent request), body.
  - apply answer_redirects in Ha. destruct (follow uri location) as [uri'|e] eqn:Hf.
    + specialize (IH (S sent) uri'). destruct (get_loop n (S sent) uri' net) as [trace res]. destruct IH as (Hl & Hok & Hmany). split_and!.
      * cbn. lia.
      * intros text Htext. destruct (Hok text Htext) as (before & r & a & body & -> & Hb & Hg & Htx).
        exists ((request, net sent request) :: before), r, a, body. split_and!; [done|by constructor|done|done].
      * intros Hr. destruct (Hmany Hr) as [Hlen Hall]. split; [cbn; lia|by constructor].
    + split_and!; [cbn; lia|done|]. intros [= ->]. exfalso. unfold follow in Hf. by repeat case_match.
  - split_and!; [cbn; lia|done|]. intros [= ->]. exfalso. unfold fetch_answer in Ha. by repeat case_match.
Qed.
(** A download ends after at most six requests, whatever the servers answer. The text it gives is
    valid UTF-8 made of one complete [200] answer of at most 64 MB, reached only through redirects;
    "too many redirects" is said only when all six requests were redirected. *)
Theorem downloads_are_bounded (url : bytes) (net : nat → FetchRequest → FetchAnswer) : let '(trace, res) := get_text url net in
  (length trace ≤ 6)%nat ∧
  (∀ text, res = Ok text → is_utf8 text = true ∧ ∃ before request answer body, trace = before ++ [(request, answer)] ∧
     Forall (λ x, is_redirect x.2) before ∧ good_answer answer body ∧ text = from_utf8_lossy body) ∧
  (res = Err FetchTooManyRedirects → length trace = 6%nat ∧ Forall (λ x, is_redirect x.2) trace).
Proof.
  unfold get_text. destruct (uri_parse url) as [uri|]; [|by split_and!; [cbn; lia|..]].
  pose proof (get_loop_spec 6 0 uri net) as Hs. change (S MAX_REDIRECTS) with 6%nat. destruct (get_loop 6 0 uri net) as [trace res].
  destruct Hs as (Hl & Hok & Hmany). split_and!; [done| |done]. intros text Ht. destruct (Hok text Ht) as (before & r & a & body & ? & ? & ? & ->).
  split; [apply from_utf8_lossy_spec|]. by exists before, r, a, body.
Qed.
(** A redirect to a path stays on the scheme and authority it came from. *)
Lemma follow_same_origin base location uri : starts_with (lit "/") location = true → follow base location = Ok uri →
  ∃ scheme authority, uri_scheme base = Some scheme ∧ uri_authority_text base = Some authority ∧
    uri_parse (scheme ++ lit "://" ++ authority ++ location) = Some uri.
Proof.
  unfold follow. intros Hs. destruct location as [|c l]; [done|]. assert (is_http_url (c :: l) = false) as ->.
  { destruct (decide (c = 47)) as [->|Hc]; [reflexivity|]. exfalso. revert Hs. unfold starts_with.
    change (lit "/") with [47]. cbn [strip_prefix]. by destruct (Z.eqb_spec 47 c). }
  rewrite Hs. destruct (uri_scheme base) as [scheme|]; [|done]. destruct (uri_authority_text base) as [authority|]; [|done].
  destruct (uri_parse _) eqn:Hu; [|done]. intros [= <-]. by exists scheme, authority.
Qed.
End Downloads.

(** ** The same engine *)

Section Same.
Context `{SerdeJson, PinsJson, HashOrder, HttpCrate, !FetchCrate, AdblockCrate, Hickory, Lru, Etherparse, RootCrate}.
#[local] Set Default Proof Using "Type*".

(** What [optional] lets through is what the engine loads. *)
Lemma optional_load_filter fs dir fails filter :
  optional (FilterEngine_load (open_file fs (path_in dir ENGINE_FILE) fails)) = Ok filter → load_filter fs dir fails = Ok filter.
Proof. unfold optional, load_filter. destruct (FilterEngine_load _) as [e|[]]; try done; [by intros [= <-]|]. by destruct e; try done; intros [= <-]. Qed.
Lemma optional_load_domains fs dir fails domains :
  optional (DomainSet_load (open_file fs (path_in dir DOMAINS_FILE) fails)) = Ok domains → load_domains fs dir fails = Ok domains.
Proof. unfold optional, load_domains. destruct (DomainSet_load _) as [e|[]]; try done; [by intros [= <-]|]. by destruct e; try done; intros [= <-]. Qed.

(** The engine made from the same files and configuration. *)
Lemma assemble_with_options fs dir config args answers dp json attempt utc :
  assemble fs dir config args answers = Ok dp → Config_from_json json = Ok config →
  ∃ e, with_options fs dir json (pa_files answers) attempt utc = Ok e ∧
    as_config e = config ∧ as_proxy e = dp_ctx dp ∧ as_dns e = dp_dns dp ∧ as_ca e = dp_ca dp ∧
    as_mitm_active e = config_mitm_enabled config && bool_decide (is_Some (ctx_filter (dp_ctx dp))).
Proof.
  unfold assemble, with_options. intros Hdp Hjson. rewrite Hjson.
  destruct (load_ca _ _ _ _) as [[ca|]|] eqn:Hca; [|done..].
  destruct (optional (FilterEngine_load _)) as [filter|] eqn:Hf; [|done]. apply optional_load_filter in Hf as ->.
  destruct (optional (DomainSet_load _)) as [domains|] eqn:Hd; [|done]. apply optional_load_domains in Hd as ->.
  cbn [or_none]. rewrite (bool_decide_true (is_Some (Some ca))) by done. rewrite andb_true_r.
  destruct (Policy_new _ _) as [policy|]; [|done]. destruct (collect_results _ _) as [patterns|]; [|done].
  destruct (pa_dns_bind answers); [done|]. destruct (pa_proxy_bind answers); [done|]. injection Hdp as <-.
  eexists. by split_and!.
Qed.
(** The configuration a command line names. *)
Definition config_of (fs : gmap bytes bytes) (args : Args) : option Config :=
  match arg_config args with
  | None => Some Config_default
  | Some path => json ← fs !! path; match Config_from_json json with Ok config => Some config | Err _ => None end
  end.
Lemma read_config_of fs args fails config : read_config fs args fails = Ok config → config_of fs args = Some config.
Proof.
  unfold read_config, config_of, open_file. destruct (arg_config args) as [path|]; [|by intros [= ->]].
  destruct fails; [done|]. destruct (fs !! path) as [json|]; [|done]. csimpl. destruct (is_utf8 json); [|done]. cbn [negb].
  destruct (Config_from_json json); [|done]. by intros [= ->].
Qed.
Lemma prepare_assembles fs args answers fs' dp : prepare fs args answers = Some (fs', Ok dp) →
  ∃ dir config, pa_absolute answers = Ok dir ∧ config_of fs args = Some config ∧ assemble fs' dir config args answers = Ok dp.
Proof.
  unfold prepare. destruct (pa_absolute answers) as [dir|]; [|done]. destruct (pa_create_dir answers); [done|].
  destruct (is_utf8 dir); [|done]. cbn [negb]. destruct (read_config _ _ _) as [config|] eqn:Hc; [|done]. apply read_config_of in Hc.
  destruct (if bool_decide _ then _ else _) as [[fs1 [[]|]]|]; csimpl; try done.
  destruct (generate_in _ _ _ _ _) as [states [[ca created]|]]; [|done]. intros [= <- Ha]. by exists dir, config.
Qed.
(** C13: the development proxy runs what the tunnel would. When it is prepared, the engine made from the
    same configuration and the files it left in the data directory has the same policy, filter and
    blocklist in its proxy, the same responder, and the same root; both intercept exactly when the
    configuration allows it and there is a filter. *)
Theorem prepared_like_the_engine (fs fs' : gmap bytes bytes) (args : Args) (answers : PrepareAnswers) (dp : DevProxy) (dir json : bytes) (attempt : nat) (utc : Z) :
  prepare fs args answers = Some (fs', Ok dp) → pa_absolute answers = Ok dir →
  config_of fs args = match Config_from_json json with Ok config => Some config | Err _ => None end →
  ∃ e, with_options fs' dir json (pa_files answers) attempt utc = Ok e ∧
    as_proxy e = dp_ctx dp ∧ as_dns e = dp_dns dp ∧ as_ca e = dp_ca dp ∧
    as_mitm_active e = config_mitm_enabled (as_config e) && bool_decide (is_Some (ctx_filter (dp_ctx dp))).
Proof.
  intros (dir' & config & Hdir & Hconfig & Ha)%prepare_assembles Hd Hjson. rewrite Hd in Hdir. injection Hdir as <-.
  rewrite Hconfig in Hjson. destruct (Config_from_json json) as [c|] eqn:Hj; [|done]. injection Hjson as <-.
  destruct (assemble_with_options _ _ _ _ _ _ json attempt utc Ha Hj) as (e & He & Hc & Hp & Hdns & Hca & Hm).
  exists e. rewrite Hc. by split_and!.
Qed.
End Same.

(** ** A run *)

#[local] Existing Instances tree_json countable_json example_http example_adblock example_root.
#[local] Instance example_fetch : FetchCrate :=
  {| uri_authority_text := λ _, None; request_builds := λ _, true; server_name_ok := λ _, true |}.
(** A directory with both lists and no root, which is made; nothing fails. *)
Definition example_prepare : PrepareAnswers :=
  {| pa_absolute := Ok (lit "d"); pa_create_dir := None; pa_config := None;
     pa_compile := {| ca_sources := λ _, (None, λ _ _, {| fa_in_time := true; fa_connect := None; fa_tls := None; fa_response := Err [] |});
                      ca_fuel := 0; ca_pid := lit "7"; ca_next_tmp := 0; ca_dir := None; ca_engine := no_failures; ca_domains := no_failures |};
     pa_generate := example_generate 5 no_failures; pa_files := all_readable; pa_dns_bind := None; pa_proxy_bind := None |}.
Definition example_args : Args :=
  {| arg_data_dir := lit "d"; arg_config := None; arg_lists := [];
     arg_dns := {| sa_ip := V4 [127; 0; 0; 1]; sa_port := 5353 |}; arg_proxy := {| sa_ip := V4 [127; 0; 0; 1]; sa_port := 8080 |} |}.
Definition example_lists_dir : gmap bytes bytes := example_files "||ads.example^" [("engine.dat"%string, [1])].
Definition example_prepared : option (gmap bytes bytes * result DevProxy PrepareError) :=
  prepare example_lists_dir example_args example_prepare.
Definition is_prepared (r : option (gmap bytes bytes * result DevProxy PrepareError)) : bool :=
  match r with Some (_, Ok _) => true | _ => false end.
Lemma is_prepared_Ok r : is_prepared r = true → ∃ fs dp, r = Some (fs, Ok dp).
Proof. destruct r as [[fs [dp|]]|]; try done. by exists fs, dp. Qed.
Lemma prepared_like_the_engine_witness : ∃ fs dp e, example_prepared = Some (fs, Ok dp) ∧
  with_options fs (lit "d") empty_file all_readable 5 0 = Ok e ∧ as_dns e = dp_dns dp ∧ as_ca e = dp_ca dp.
Proof.
  destruct (is_prepared_Ok example_prepared) as (fs & dp & Hp); [vm_compute; reflexivity|].
  destruct (prepared_like_the_engine example_lists_dir fs example_args example_prepare dp (lit "d") empty_file 5 0 Hp eq_refl
    ltac:(by rewrite empty_file_read))
    as (e & He & _ & Hd & Hc & _).
  exists fs, dp, e. split; [exact Hp|]. split; [exact He|]. split; [exact Hd|exact Hc].
Defined.
